(* ===== verification/_CoqProject ===== *)
-Q . S2P
Prelude.v
SphTypes.v
SphStream.v
Keccak.v
Blake.v
Skein.v
Bmw.v
CubeHash.v
Luffa.v
Jh.v
Sha256.v
X11kvs.v
Pow.v
Merkle.v
MerkleBlock.v
Arith.v
Work.v
Consensus.v
Chain.v
Retarget.v
Serialize.v
Script.v
Tx.v
Coins.v
Block.v
Undo.v
CheckQueue.v
Interp.v
SigHash.v
Cuckoo.v
Stake.v
Kernel.v
Rewards.v
Connect.v
Activate.v
Reorg.v
Node.v
Mempool.v
Pool.v
PoolOps.v
PoolReorg.v
Accept.v
PoolThm.v
