(* ===== verification/Prelude.v ===== *)
(** * Peony (PNY): a verification library for the node of decenomy/PNY

    The program is a full node of a proof-of-stake chain with a proof-of-work phase.  Its
    core decides which blocks and transactions are valid and keeps the chain of blocks
    and the set of unspent outputs.  The files below model that core, in the order in
    which one part calls another; every other file of this directory requires this one.

    ** Parts, files and sources (under src/src)

    - Proof of work.  [SphTypes] is crypto/sph_types.h (words, byte order), [SphStream]
      the buffering that all sph functions share (init, update, close).  [Keccak],
      [Blake], [Skein], [Bmw], [CubeHash], [Luffa] and [Jh] are crypto/*.c of the same
      names, [Sha256] is crypto/sha256.cpp with the double hash of hash.h.  [X11kvs] is
      the hash of headers (HashX11KV, HashX11KVS of hash.h) over the interface [Hasher]
      of eleven hash functions; [Pow] instantiates it with the functions modelled here.
      Contexts start with arbitrary memory, as on the stack of the C code.
    - Merkle trees.  [Merkle] is consensus/merkle.cpp, [MerkleBlock] merkleblock.{h,cpp}.
    - Targets and work.  [Arith] is arith_uint256.{h,cpp} and the compact format of
      uint256.cpp, on arrays of 32-bit limbs; [Work] is the check of a target and the work
      of a block in pow.cpp; [Retarget] the three rules of GetNextWorkRequired.
    - Parameters.  [Consensus] is consensus/params.h and upgrades.cpp.
    - Block index.  [Chain] is chain.{h,cpp} and AddToBlockIndex of main.cpp: blocks in an
      arena indexed by position, with pprev and pskip, and the vector of the active chain.
    - Serialization.  [Serialize] is serialize.h: a [format] is a pair of a writer and a
      reader with the values it can carry; [Lawful] and [Canonical] are its laws, and
      instances for the combinators give the laws of composed formats.
    - Scripts.  [Script] is script/script.{h,cpp}, [Interp] script/interpreter.cpp over the
      interface [SignatureChecker].
    - Transactions and blocks.  [Tx] is primitives/transaction.{h,cpp}, consensus/
      validation.h and tx_verify.cpp; [Block] primitives/block.{h,cpp} and CheckBlock of
      main.cpp.
    - Unspent outputs.  [Coins] is coins.{h,cpp} and the coins of txdb.cpp: the class
      [CoinsView] with its laws [CoinsViewLaws], the database and the cache over any view
      as instances.
    - Chain state.  [Connect] is ConnectBlock and DisconnectBlock of main.cpp with what they
      call (UpdateCoins, CheckInputs, ApplyTxInUndo, GetP2SHSigOpCount), on the caches of
      [Coins], with the scripts of [Interp] and the checks of [Tx]; the class [Env] is what
      they read of other parts (rewards, addresses, masternodes).  [Rewards] is rewards.cpp:
      the value of a block and its weekly adjustment.
    - Best chain.  [Activate] is the part of main.cpp that chooses the branch to follow: the
      ordered set of candidates, FindMostWorkChain, ActivateBestChain with ConnectTip and
      DisconnectTip, ReceivedBlockTransactions, InvalidateBlock and ReconsiderBlock, on the
      index of [Chain] and over the class [ChainState] for blocks on disk, the coins and
      ConnectBlock; [ChainStateLaws] is what it relies on.  [Reorg] has the operations as
      steps of a node and the theorems, [Node] the instance with ConnectBlock and
      DisconnectBlock of [Connect] on a cache over pcoinsTip.
    - Memory pool.  [Mempool] is txmempool.{h,cpp}: entries, links, ancestors and
      descendants, and the operations on them; [Pool], [PoolOps] and [PoolReorg] have its
      invariant and the lemmas on the operations.  [Accept] is AcceptToMemoryPoolWorker of
      main.cpp and the part of DisconnectTip that gives the transactions of a block back;
      [PoolThm] has the sequences of operations and the theorems.
    - Proof of stake.  [Stake] is chain.cpp (block times, stake fields) and
      legacy/stakemodifier.cpp; [Kernel] is kernel.cpp and stakeinput.cpp: the kernel, the
      search of the staker and the verification of a block.
    - Threads.  [CheckQueue] is checkqueue.h: the queue on which ConnectBlock runs its
      script checks, as a step relation on the state the mutex protects.
    - Signatures.  [SigHash] is the rest of script/interpreter.cpp and script/sigcache.cpp:
      the hash a signature signs and the checkers of signatures and lock times, one of
      them with a cache; its checker is an instance of the interface of [Interp].  [Cuckoo]
      is cuckoocache.h, an instance of the interface [CacheSet] of that cache.
    - Storage.  [Undo] is compressor.{h,cpp}, undo.h, the coins of coins.h on disk, and
      UndoWriteToDisk and UndoReadFromDisk of main.cpp.

    ** How the source is represented

    Unsigned integers of [w] bits are integers with [word w], wrapped where the code wraps;
    bytes are [word 8], buffers and hashes are lists of bytes, arrays of words are lists.
    A method that changes its object returns the new object.  [option] is an exception, a
    failed assertion, an access out of range or a loop out of fuel, and the theorems show
    when none of these happens; errors that the code reports as values are values of sum
    types or of [CValidationState].  Code that is called but not modelled is an argument of
    the definitions that call it (a variable of a section or a class).

    ** What the theorems show

    - Hash functions: init, any sequence of updates and close compute the function of the
      standard, written independently of the code (Keccak-f on lanes, JH on 256 four-bit
      elements, FIPS 180-4, and so on), whatever the memory held before; the several
      bodies of one function (unrolled, compact, bit-sliced) are equal.  The header hash
      evaluates 2^n - 1 headers at level n and does not depend on uninitialised memory if
      its eleven functions do not, which is assumed of Groestl, SHAvite, SIMD and ECHO.
    - Arithmetic: the limbs implement arithmetic modulo 2^256, division throws exactly on
      zero, the compact format decodes and encodes as specified.
    - Trees: the one-pass Merkle computation equals the recursive one; branches and partial
      trees verify, and one that proves a transaction that is not there contains a
      collision of the node hash.
    - Index: an invariant of all reachable indexes; ancestors, forks, tips and locators are
      the mathematical ones and every walk ends.
    - Formats: what is written is read back, and what is read has one encoding.
    - Scripts: the machine returns on every input and keeps its limits; multisignatures and
      payments to key hashes mean what they should, for every input script; outputs called
      unspendable are.
    - Coins: a cache over any view behaves as the set of unspent outputs, through any
      sequence of operations, and a flush moves exactly this set down.
    - Blocks: CheckTransaction and CheckBlock accept exactly the well-formed ones.
    - Chain state: disconnecting a block undoes connecting it; no block creates more value
      than its reward; every spent coin was there and its script was verified; the money
      supply follows the value of the unspent outputs.
    - Best chain: ActivateBestChain ends, whatever ConnectBlock makes of the blocks, unless
      it throws; it marks only blocks that were refused and their descendants, and reaches
      the best block its marks allow, unless a block that was connected before is refused
      now; an invariant of the node over sequences of headers, blocks, activations,
      invalidations and reconsiderations; ReconsiderBlock keeps
      it exactly when no ancestor that it clears would have to be a candidate.
    - Memory pool: an invariant (links, counts of descendants, totals, memory use) over all
      sequences of operations, reorganisations included, under which no assertion fails;
      what an accepted transaction satisfies; the memory limit is reached.  Two lemmas show
      where the code fails (a pool trimmed in the middle of a disconnected block, priorities
      that alone exceed the limit).
    - Proof of stake: modifiers are typed and computed as specified, the median of past
      times never falls, the search for a time ends and finds the first one, a block it
      finds is accepted, and a block is accepted exactly when it stakes a coin of the
      active chain whose kernel hash is below the weighted target.
    - Rewards: the adjustment is a damped step towards the target emission, without
      overflow; it holds for its epoch and is undone with its block; two theorems show
      where the code fails (a block that mints nothing, an epoch without a reward).
    - Check queue: in every interleaving Wait returns the conjunction of the checks that
      were added, and it does return, whatever the scheduler does.
    - Signatures: the optimised signature hash equals the original definition and commits
      to the parts of the transaction its type names, up to a collision of the very bytes
      that are hashed; the cache changes no answer, up to such a collision; a coin
      locked by OP_CHECKLOCKTIMEVERIFY does not move early.
    - Storage: amounts, scripts, coins and undo data are restored exactly, and the checksum
      ties undo data to its block.

    ** Fuel

    Loops that are not structural take fuel: the length of a script (every instruction
    reads a byte), the number of keys, the number of levels of a tree, the height of a
    block, the bits of a word, the number of blocks, the size of the pool.  The theorems on
    these functions prove that the result is reached, so the fuel is enough for every input
    they admit.

    ** Not modelled

    Groestl, SHAvite, SIMD and ECHO (the header hash is proved over an interface; [Pow]
    lets other functions stand in for them); the sph functions the program never calls;
    the 32-bit variants that a 64-bit build does not compile; the elliptic curve library
    and keys; masternodes and sporks; mining, the fee estimator and the policies on
    standard transactions; network, wallet, RPC and the graphical interface; LevelDB,
    SQLite and the other vendored libraries; logging, locks and files. *)

From Stdlib Require Import ZArith List Lia Bool Btauto.
Import ListNotations.

(** ** Notation for the C operators on unsigned words *)

Declare Scope word_scope.
Delimit Scope word_scope with word.
Infix "<<" := Z.shiftl (at level 52, left associativity) : word_scope.
Infix ">>" := Z.shiftr (at level 52, left associativity) : word_scope.
Infix ".&" := Z.land (at level 54, left associativity) : word_scope.
Infix ".^" := Z.lxor (at level 56, left associativity) : word_scope.
Infix ".|" := Z.lor (at level 58, left associativity) : word_scope.
Open Scope word_scope.
Open Scope Z_scope.

(** ** Words of a fixed width *)

(** A value of an unsigned C type of [w] bits. *)
Definition word (w x : Z) : Prop := 0 <= x < 2 ^ w.
Abbreviation byte := (word 8).
Abbreviation u32 := (word 32).
Abbreviation u64 := (word 64).

Create HintDb words discriminated.

Lemma word_testbit_high (w x i : Z) : 0 <= w -> word w x -> w <= i -> Z.testbit x i = false.
Proof.
  intros Hw Hx Hi. rewrite <- (Z.mod_small x (2 ^ w)) by exact Hx.
  apply Z.mod_pow2_bits_high. lia.
Qed.

(** A nonnegative number whose bits from [w] on are clear fits in [w] bits. *)
Lemma word_of_bits (w x : Z) :
  0 <= w -> 0 <= x -> (forall i, w <= i -> Z.testbit x i = false) -> word w x.
Proof.
  intros Hw Hx Hbits. split; [exact Hx|].
  destruct (Z.eq_dec x 0) as [->|Hne]; [apply Z.pow_pos_nonneg; lia|].
  apply Z.log2_lt_pow2; [lia|].
  destruct (Z.lt_ge_cases (Z.log2 x) w) as [|Hge]; [assumption|].
  specialize (Hbits _ Hge). rewrite Z.bit_log2 in Hbits by lia. discriminate.
Qed.

Lemma word_lxor (w x y : Z) : 0 <= w -> word w x -> word w y -> word w (x .^ y).
Proof.
  intros Hw Hx Hy. apply word_of_bits; [lia| |].
  - apply Z.lxor_nonneg. unfold word in *. lia.
  - intros i Hi. rewrite Z.lxor_spec, !(word_testbit_high w) by assumption. reflexivity.
Qed.

Lemma word_lor (w x y : Z) : 0 <= w -> word w x -> word w y -> word w (x .| y).
Proof.
  intros Hw Hx Hy. apply word_of_bits; [lia| |].
  - apply Z.lor_nonneg. unfold word in *. lia.
  - intros i Hi. rewrite Z.lor_spec, !(word_testbit_high w) by assumption. reflexivity.
Qed.

Lemma word_land_l (w x y : Z) : 0 <= w -> word w x -> word w (x .& y).
Proof.
  intros Hw Hx. apply word_of_bits; [lia| |].
  - apply Z.land_nonneg. unfold word in *. lia.
  - intros i Hi. rewrite Z.land_spec, (word_testbit_high w x) by assumption. reflexivity.
Qed.

Lemma word_land_r (w x y : Z) : 0 <= w -> word w y -> word w (x .& y).
Proof. intros. rewrite Z.land_comm. now apply word_land_l. Qed.

Lemma word_shiftr (w x n : Z) : 0 <= w -> 0 <= n -> word w x -> word w (x >> n).
Proof.
  intros Hw Hn Hx. apply word_of_bits; [lia| |].
  - apply Z.shiftr_nonneg. unfold word in *. lia.
  - intros i Hi. rewrite Z.shiftr_spec, (word_testbit_high w x) by lia || assumption. reflexivity.
Qed.

Lemma word_shiftl (w x n : Z) : 0 <= n <= w -> word (w - n) x -> word w (x << n).
Proof.
  intros Hn [Hx1 Hx2]. unfold word. rewrite Z.shiftl_mul_pow2 by lia.
  replace (2 ^ w) with (2 ^ (w - n) * 2 ^ n) by (rewrite <- Z.pow_add_r by lia; f_equal; lia).
  assert (0 < 2 ^ n) by (apply Z.pow_pos_nonneg; lia). nia.
Qed.

Lemma word_mono (v w x : Z) : 0 <= v <= w -> word v x -> word w x.
Proof.
  intros Hvw [Hx1 Hx2]. split; [exact Hx1|].
  apply Z.lt_le_trans with (1 := Hx2). apply Z.pow_le_mono_r; lia.
Qed.

Lemma word_0 (w : Z) : 0 <= w -> word w 0.
Proof. intros. split; [lia|]. apply Z.pow_pos_nonneg; lia. Qed.

#[export] Hint Resolve word_lxor word_lor word_land_l word_shiftr word_0 : words.
#[export] Hint Extern 1 (_ <= _) => lia : words.
#[export] Hint Extern 1 (_ < _) => lia : words.
#[export] Hint Extern 2 (word _ (Zpos _)) => (split; reflexivity || discriminate || lia) : words.

(** Bits of shifts at any position, with the sign test as a boolean. *)
Lemma testbit_shiftl (x n i : Z) :
  Z.testbit (x << n) i =
  if i <? 0 then false else if i - n <? 0 then false else Z.testbit x (i - n).
Proof.
  destruct (Z.ltb_spec i 0); [now apply Z.testbit_neg_r|].
  rewrite Z.shiftl_spec by assumption.
  destruct (Z.ltb_spec (i - n) 0); [now apply Z.testbit_neg_r | reflexivity].
Qed.

Lemma testbit_shiftr (x n i : Z) :
  Z.testbit (x >> n) i = if i <? 0 then false else Z.testbit x (i + n).
Proof.
  destruct (Z.ltb_spec i 0); [now apply Z.testbit_neg_r | now apply Z.shiftr_spec].
Qed.

(** Two words are equal when all their bits below the width are. *)
Lemma word_ext (w x y : Z) :
  0 <= w -> word w x -> word w y ->
  (forall i, 0 <= i < w -> Z.testbit x i = Z.testbit y i) -> x = y.
Proof.
  intros Hw Hx Hy Hbits. apply Z.bits_inj'. intros i Hi.
  destruct (Z.lt_ge_cases i w).
  - apply Hbits; lia.
  - now rewrite !(word_testbit_high w) by assumption.
Qed.

(** ** Truncation, disjoint or, complement *)

Lemma land_ones_mod (w x : Z) : 0 <= w -> x .& Z.ones w = x mod 2 ^ w.
Proof. intros. now apply Z.land_ones. Qed.

Lemma word_mod (w x : Z) : 0 <= w -> word w (x mod 2 ^ w).
Proof. intros. apply Z.mod_pos_bound. apply Z.pow_pos_nonneg; lia. Qed.

(** Or of two numbers with no common bit is their sum. *)
Lemma lor_disjoint_add (x y w : Z) :
  0 <= w -> word w x -> x .| (y << w) = x + y * 2 ^ w.
Proof.
  intros Hw Hx.
  assert (Hdis : x .& (y << w) = 0).
  { apply Z.bits_inj'. intros i Hi. rewrite Z.land_spec, Z.bits_0.
    destruct (Z.lt_ge_cases i w).
    - rewrite Z.shiftl_spec_low by lia. apply andb_false_r.
    - rewrite (word_testbit_high w x) by assumption. reflexivity. }
  rewrite <- Z.lxor_lor by exact Hdis.
  rewrite <- Z.add_nocarry_lxor by exact Hdis.
  now rewrite Z.shiftl_mul_pow2 by lia.
Qed.

Lemma word_shiftl_add (v w x y : Z) :
  0 <= v -> 0 <= w -> word v x -> word w y -> word (v + w) (x + y * 2 ^ v).
Proof.
  intros Hv Hw [Hx1 Hx2] [Hy1 Hy2]. unfold word. rewrite Z.pow_add_r by lia.
  split; [|nia]. apply Z.add_nonneg_nonneg; [lia|]. apply Z.mul_nonneg_nonneg; lia.
Qed.

(** ** Little-endian byte strings *)

Fixpoint le_bytes (n : nat) (x : Z) : list Z :=
  match n with
  | O => []
  | S m => x mod 256 :: le_bytes m (x / 256)
  end.

Fixpoint le_word (l : list Z) : Z :=
  match l with
  | [] => 0
  | b :: t => b + le_word t * 256
  end.

Lemma length_le_bytes n x : length (le_bytes n x) = n.
Proof. revert x; induction n as [|n IH]; intros x; cbn; [|rewrite IH]; reflexivity. Qed.

Lemma le_bytes_byte n x : Forall byte (le_bytes n x).
Proof.
  revert x; induction n as [|n IH]; intros x; cbn; constructor; auto.
  apply (word_mod 8). lia.
Qed.

Lemma le_word_bound l : Forall byte l -> word (8 * Z.of_nat (length l)) (le_word l).
Proof.
  induction 1 as [|b t Hb Ht IH]; [split; [cbn; lia | reflexivity]|].
  cbn [le_word length]. rewrite Nat2Z.inj_succ.
  replace (8 * Z.succ (Z.of_nat (length t))) with (8 + 8 * Z.of_nat (length t)) by lia.
  apply (word_shiftl_add 8); auto; lia.
Qed.

Lemma le_word_le_bytes n x : le_word (le_bytes n x) = x mod 2 ^ (8 * Z.of_nat n).
Proof.
  revert x; induction n as [|n IH]; intros x.
  - cbn. now rewrite Z.mod_1_r.
  - cbn [le_bytes le_word]. rewrite IH, Nat2Z.inj_succ.
    replace (8 * Z.succ (Z.of_nat n)) with (8 + 8 * Z.of_nat n) by lia.
    rewrite Z.pow_add_r by lia. change (2 ^ 8) with 256.
    rewrite Z.rem_mul_r by lia. lia.
Qed.

Lemma le_bytes_le_word l : Forall byte l -> le_bytes (length l) (le_word l) = l.
Proof.
  induction 1 as [|b t Hb Ht IH]; [reflexivity|].
  unfold word in Hb. change (2 ^ 8) with 256 in Hb.
  cbn [le_bytes le_word length]. f_equal.
  - rewrite Z.mod_add by lia. now apply Z.mod_small.
  - rewrite Z.div_add by lia. rewrite Z.div_small by exact Hb. exact IH.
Qed.

Lemma le_word_app l1 l2 :
  le_word (l1 ++ l2) = le_word l1 + le_word l2 * 2 ^ (8 * Z.of_nat (length l1)).
Proof.
  induction l1 as [|b t IH]; [cbn; lia|].
  cbn [app le_word length]. rewrite IH, Nat2Z.inj_succ.
  replace (8 * Z.succ (Z.of_nat (length t))) with (8 + 8 * Z.of_nat (length t)) by lia.
  rewrite Z.pow_add_r by lia. lia.
Qed.

(** ** Arrays: C arrays are lists of a fixed length, updated in place *)

(** [a[i] = x]; out of range is the undefined behaviour of C and changes nothing here. *)
Fixpoint upd {A} (i : nat) (x : A) (l : list A) : list A :=
  match l, i with
  | [], _ => []
  | _ :: t, O => x :: t
  | h :: t, S j => h :: upd j x t
  end.

Lemma length_upd {A} i (x : A) l : length (upd i x l) = length l.
Proof. revert i; induction l as [|h t IH]; intros [|i]; cbn; [..|rewrite IH]; reflexivity. Qed.

Lemma nth_upd_eq {A} i (x d : A) l : (i < length l)%nat -> nth i (upd i x l) d = x.
Proof.
  revert i; induction l as [|h t IH]; intros [|i] Hi; cbn in *; try lia; [reflexivity|].
  apply IH. lia.
Qed.

Lemma nth_upd_ne {A} i j (x d : A) l : i <> j -> nth j (upd i x l) d = nth j l d.
Proof.
  revert i j; induction l as [|h t IH]; intros [|i] [|j] Hij; cbn; try reflexivity; try lia.
  apply IH. lia.
Qed.

Lemma Forall_upd {A} (P : A -> Prop) i x l : P x -> Forall P l -> Forall P (upd i x l).
Proof.
  intros Hx Hl. revert i. induction Hl as [|h t Hh Ht IH]; intros [|i]; cbn; constructor; auto.
Qed.

Lemma Forall_nth_default {A} (P : A -> Prop) i l d : P d -> Forall P l -> P (nth i l d).
Proof.
  intros Hd Hl. revert i. induction Hl as [|h t Hh Ht IH]; intros [|i]; cbn; auto.
Qed.

(** [memcpy(dst + off, src, length src)]. *)
Definition memcpy {A} (dst : list A) (off : nat) (src : list A) : list A :=
  firstn off dst ++ src ++ skipn (off + length src) dst.

Lemma length_memcpy {A} (dst src : list A) off :
  (off + length src <= length dst)%nat -> length (memcpy dst off src) = length dst.
Proof.
  intros H. unfold memcpy. rewrite !length_app, length_firstn, length_skipn. lia.
Qed.

(** The bytes up to the end of the copied region. *)
Lemma firstn_memcpy {A} (dst src : list A) off :
  (off <= length dst)%nat ->
  firstn (off + length src) (memcpy dst off src) = firstn off dst ++ src.
Proof.
  intros H. unfold memcpy. rewrite app_assoc.
  rewrite firstn_app, length_app, length_firstn.
  replace (off + length src - (Nat.min off (length dst) + length src))%nat with 0%nat by lia.
  rewrite firstn_O, app_nil_r. apply firstn_all2. rewrite length_app, length_firstn. lia.
Qed.

Lemma Forall_firstn_skipn {A} (P : A -> Prop) n l :
  Forall P l -> Forall P (firstn n l) /\ Forall P (skipn n l).
Proof. intros H. apply Forall_app. now rewrite firstn_skipn. Qed.

Lemma Forall_memcpy {A} (P : A -> Prop) dst off src :
  Forall P dst -> Forall P src -> Forall P (memcpy dst off src).
Proof.
  intros Hd Hs. unfold memcpy. apply Forall_app; split; [|apply Forall_app; split]; auto;
    now apply Forall_firstn_skipn.
Qed.

Lemma firstn_firstn_app {A} n (l1 l2 : list A) :
  (n <= length l1)%nat -> firstn n (l1 ++ l2) = firstn n l1.
Proof.
  intros H. rewrite firstn_app. replace (n - length l1)%nat with 0%nat by lia.
  now rewrite firstn_O, app_nil_r.
Qed.

Lemma skipn_skipn_app {A} n (l1 l2 : list A) :
  (n <= length l1)%nat -> skipn n (l1 ++ l2) = skipn n l1 ++ l2.
Proof.
  intros H. rewrite skipn_app. now replace (n - length l1)%nat with 0%nat by lia.
Qed.

Lemma fold_left_ext_in {A B} (f g : A -> B -> A) l a :
  (forall a b, In b l -> f a b = g a b) -> fold_left f l a = fold_left g l a.
Proof.
  revert a. induction l as [|b l IH]; intros a Hfg; [reflexivity|].
  cbn [fold_left]. rewrite (Hfg a b) by now left. apply IH. intros. apply Hfg. now right.
Qed.

(** The same under an invariant of the accumulator. *)
Lemma fold_left_ext_inv {A B} (I : A -> Prop) (f g : A -> B -> A) l a :
  (forall a b, In b l -> I a -> f a b = g a b /\ I (g a b)) -> I a ->
  fold_left f l a = fold_left g l a.
Proof.
  revert a. induction l as [|b l IH]; intros a Hfg Ha; [reflexivity|].
  cbn [fold_left]. destruct (Hfg a b (or_introl eq_refl) Ha) as [-> Hi].
  apply IH; [|exact Hi]. intros. apply Hfg; [now right | assumption].
Qed.

Lemma fold_left_inv {A B} (I : A -> Prop) (f : A -> B -> A) l a :
  (forall a b, I a -> I (f a b)) -> I a -> I (fold_left f l a).
Proof. intros Hf. revert a. induction l as [|b l IH]; intros a Ha; [exact Ha|]. cbn [fold_left]. auto. Qed.

Lemma fold_left_flat_map {A B C} (f : A -> B -> A) (g : C -> list B) l a :
  fold_left f (flat_map g l) a = fold_left (fun a x => fold_left f (g x) a) l a.
Proof.
  revert a. induction l as [|x l IH]; intros a; [reflexivity|].
  cbn [flat_map fold_left]. now rewrite fold_left_app.
Qed.

Lemma le_bytes_app n k x :
  le_bytes (n + k) x = le_bytes n x ++ le_bytes k (x / 2 ^ (8 * Z.of_nat n)).
Proof.
  revert x. induction n as [|n IH]; intros x.
  - cbn. now rewrite Z.div_1_r.
  - cbn [Nat.add le_bytes app]. f_equal. rewrite IH. f_equal. f_equal.
    rewrite Nat2Z.inj_succ, Z.div_div by (try apply Z.pow_pos_nonneg; lia). f_equal.
    replace (8 * Z.succ (Z.of_nat n)) with (8 + 8 * Z.of_nat n) by lia.
    now rewrite Z.pow_add_r by lia.
Qed.

Lemma le_bytes_mod n x : le_bytes n (x mod 2 ^ (8 * Z.of_nat n)) = le_bytes n x.
Proof.
  rewrite <- le_word_le_bytes. rewrite <- (length_le_bytes n x) at 1.
  apply le_bytes_le_word, le_bytes_byte.
Qed.

Lemma map_add_seq n k : map (fun j => n + j)%nat (seq 0 k) = seq n k.
Proof.
  induction k as [|k IH]; [reflexivity|]. rewrite !seq_S, map_app, IH. reflexivity.
Qed.

Lemma map_nth_seq {A} (d : A) l n : length l = n -> map (fun k => nth k l d) (seq 0 n) = l.
Proof.
  intros <-. induction l as [|x l IH]; [reflexivity|].
  cbn [length seq map nth]. f_equal. rewrite <- seq_shift, map_map. exact IH.
Qed.

(** Writing out every word of an array. *)
Lemma flat_map_nth_seq {A B} (f : A -> list B) d l n :
  length l = n -> flat_map (fun k => f (nth k l d)) (seq 0 n) = flat_map f l.
Proof.
  intros Hl. rewrite !flat_map_concat_map. f_equal.
  rewrite <- (map_map (fun k => nth k l d) f). now rewrite map_nth_seq.
Qed.

(** Writing out the first [n] words of an array. *)
Lemma flat_map_firstn_seq {A B} (f : A -> list B) d c n l :
  (forall x, length (f x) = c) -> (n <= length l)%nat ->
  flat_map (fun k => f (nth k l d)) (seq 0 n) = firstn (c * n) (flat_map f l).
Proof.
  intros Hc Hn. assert (Hl : length (firstn n l) = n) by (rewrite length_firstn; lia).
  replace (flat_map f l) with (flat_map f (firstn n l) ++ flat_map f (skipn n l))
    by now rewrite <- flat_map_app, firstn_skipn.
  rewrite firstn_app.
  assert (Hf : length (flat_map f (firstn n l)) = (c * n)%nat)
    by (rewrite (flat_map_constant_length (c := c)) by (intros; apply Hc); lia).
  rewrite Hf, Nat.sub_diag, firstn_O, app_nil_r, firstn_all2 by lia.
  rewrite <- (flat_map_nth_seq f d (firstn n l) n Hl), !flat_map_concat_map. f_equal.
  apply map_ext_in. intros k Hk. apply in_seq in Hk. rewrite nth_firstn.
  destruct (Nat.ltb_spec k n); [reflexivity | lia].
Qed.

(** Writing out the last [n] words. *)
Lemma flat_map_skipn_seq {A B} (f : A -> list B) d n l :
  (n <= length l)%nat ->
  flat_map (fun u => f (nth (length l - n + u) l d)) (seq 0 n) = flat_map f (skipn (length l - n) l).
Proof.
  intros Hn. rewrite <- (flat_map_nth_seq f d (skipn (length l - n) l) n) by (rewrite length_skipn; lia).
  apply flat_map_ext. intros u. now rewrite nth_skipn.
Qed.

Lemma memcpy_nil {A} (l : list A) n : memcpy l n [] = l.
Proof. unfold memcpy. cbn [length app]. rewrite Nat.add_0_r. apply firstn_skipn. Qed.

Lemma upd_repeat_last {A} (x a : A) k : upd k x (repeat a (S k)) = repeat a k ++ [x].
Proof. induction k as [|k IH]; [reflexivity|]. cbn [repeat upd app]. f_equal. exact IH. Qed.

Lemma nth_repeat_lt {A} (a d : A) k n : (k < n)%nat -> nth k (repeat a n) d = a.
Proof.
  revert k. induction n as [|n IH]; intros [|k] Hk; cbn; try lia; [reflexivity|].
  apply IH. lia.
Qed.

Lemma Forall_repeat {A} (P : A -> Prop) a n : P a -> Forall P (repeat a n).
Proof. intros H. apply Forall_forall. intros x Hx. apply repeat_spec in Hx. now subst. Qed.
