(* ===== verification/SphTypes.v ===== *)
(** * src/crypto/sph_types.h: words, rotations and byte order

    The portable word layer every hash function of [src/crypto/*.c] is written
    against: truncation ([SPH_T32], [SPH_T64]), rotations, byte swaps, and the
    encoders and decoders between words and byte strings.  The encoders that
    store a word are functions from the word to the bytes written.  Both bodies
    that an encoder can have are here: the byte-at-a-time one ([#else] branch)
    and the one of little-endian hosts with unaligned stores (x86-64), which is
    a byte swap followed by a machine store; they are proved equal. *)

From Stdlib Require Import ZArith List Lia Bool Btauto.
From S2P Require Import Prelude.
Import ListNotations.
Open Scope Z_scope.

(** ** Definitions *)

Definition SPH_T32 (x : Z) : Z := x .& 0xFFFFFFFF.
Definition SPH_ROTL32 (x n : Z) : Z := SPH_T32 ((x << n) .| (x >> (32 - n))).
Definition SPH_ROTR32 (x n : Z) : Z := SPH_ROTL32 x (32 - n).
Definition SPH_T64 (x : Z) : Z := x .& 0xFFFFFFFFFFFFFFFF.
Definition SPH_ROTL64 (x n : Z) : Z := SPH_T64 ((x << n) .| (x >> (64 - n))).
Definition SPH_ROTR64 (x n : Z) : Z := SPH_ROTL64 x (64 - n).

(** Conversion to [unsigned char]. *)
Definition uchar (x : Z) : Z := x .& 0xFF.

Definition sph_bswap32 (x : Z) : Z :=
  let x := SPH_T32 ((x << 16) .| (x >> 16)) in
  ((x .& 0xFF00FF00) >> 8) .| ((x .& 0x00FF00FF) << 8).

Definition sph_bswap64 (x : Z) : Z :=
  let x := SPH_T64 ((x << 32) .| (x >> 32)) in
  let x := ((x .& 0xFFFF0000FFFF0000) >> 16) .| ((x .& 0x0000FFFF0000FFFF) << 16) in
  ((x .& 0xFF00FF00FF00FF00) >> 8) .| ((x .& 0x00FF00FF00FF00FF) << 8).

Definition sph_enc32be (val : Z) : list Z :=
  [uchar (val >> 24); uchar (val >> 16); uchar (val >> 8); uchar val].

Definition sph_dec32be (src : list Z) : Z :=
  (nth 0 src 0 << 24) .| (nth 1 src 0 << 16) .| (nth 2 src 0 << 8) .| nth 3 src 0.

Definition sph_enc32le (val : Z) : list Z :=
  [uchar val; uchar (val >> 8); uchar (val >> 16); uchar (val >> 24)].

Definition sph_dec32le (src : list Z) : Z :=
  nth 0 src 0 .| (nth 1 src 0 << 8) .| (nth 2 src 0 << 16) .| (nth 3 src 0 << 24).

Definition sph_enc64be (val : Z) : list Z :=
  [uchar (val >> 56); uchar (val >> 48); uchar (val >> 40); uchar (val >> 32);
   uchar (val >> 24); uchar (val >> 16); uchar (val >> 8); uchar val].

Definition sph_dec64be (src : list Z) : Z :=
  (nth 0 src 0 << 56) .| (nth 1 src 0 << 48) .| (nth 2 src 0 << 40) .| (nth 3 src 0 << 32)
  .| (nth 4 src 0 << 24) .| (nth 5 src 0 << 16) .| (nth 6 src 0 << 8) .| nth 7 src 0.

Definition sph_enc64le (val : Z) : list Z :=
  [uchar val; uchar (val >> 8); uchar (val >> 16); uchar (val >> 24);
   uchar (val >> 32); uchar (val >> 40); uchar (val >> 48); uchar (val >> 56)].

Definition sph_dec64le (src : list Z) : Z :=
  nth 0 src 0 .| (nth 1 src 0 << 8) .| (nth 2 src 0 << 16) .| (nth 3 src 0 << 24)
  .| (nth 4 src 0 << 32) .| (nth 5 src 0 << 40) .| (nth 6 src 0 << 48) .| (nth 7 src 0 << 56).

(** The bodies of the same functions on a little-endian host with unaligned
    access: [*(sph_u64 * )dst = val] stores the bytes of [val], lowest first. *)
Definition sph_enc32be_fast (val : Z) : list Z := le_bytes 4 (sph_bswap32 val).
Definition sph_enc64be_fast (val : Z) : list Z := le_bytes 8 (sph_bswap64 val).
Definition sph_dec32be_fast (src : list Z) : Z := sph_bswap32 (le_word (firstn 4 src)).
Definition sph_dec64be_fast (src : list Z) : Z := sph_bswap64 (le_word (firstn 8 src)).
Definition sph_enc64le_fast (val : Z) : list Z := le_bytes 8 val.
Definition sph_dec64le_fast (src : list Z) : Z := le_word (firstn 8 src).

(** ** Truncation and rotation *)

Lemma SPH_T32_mod x : SPH_T32 x = x mod 2 ^ 32.
Proof. apply (Z.land_ones x 32). lia. Qed.

Lemma SPH_T64_mod x : SPH_T64 x = x mod 2 ^ 64.
Proof. apply (Z.land_ones x 64). lia. Qed.

Lemma uchar_mod x : uchar x = x mod 2 ^ 8.
Proof. apply (Z.land_ones x 8). lia. Qed.

Lemma u32_T32 x : u32 (SPH_T32 x).
Proof. rewrite SPH_T32_mod. apply word_mod. lia. Qed.

Lemma u64_T64 x : u64 (SPH_T64 x).
Proof. rewrite SPH_T64_mod. apply word_mod. lia. Qed.

Lemma byte_uchar x : byte (uchar x).
Proof. rewrite uchar_mod. apply word_mod. lia. Qed.

Lemma SPH_T32_id x : u32 x -> SPH_T32 x = x.
Proof. intros H. rewrite SPH_T32_mod. now apply Z.mod_small. Qed.

Lemma SPH_T64_id x : u64 x -> SPH_T64 x = x.
Proof. intros H. rewrite SPH_T64_mod. now apply Z.mod_small. Qed.

Lemma u64_ROTL64 x n : u64 (SPH_ROTL64 x n).
Proof. apply u64_T64. Qed.

Lemma u32_ROTL32 x n : u32 (SPH_ROTL32 x n).
Proof. apply u32_T32. Qed.

#[export] Hint Resolve u32_T32 u64_T64 byte_uchar u64_ROTL64 u32_ROTL32 : words.

Lemma SPH_T64_testbit x i : 0 <= i < 64 -> Z.testbit (SPH_T64 x) i = Z.testbit x i.
Proof. intros Hi. rewrite SPH_T64_mod. apply Z.mod_pow2_bits_low. lia. Qed.

Lemma SPH_T32_testbit x i : 0 <= i < 32 -> Z.testbit (SPH_T32 x) i = Z.testbit x i.
Proof. intros Hi. rewrite SPH_T32_mod. apply Z.mod_pow2_bits_low. lia. Qed.

(** Bit [i] of the left rotation by [n] is bit [i - n mod w] of the operand. *)
Lemma rotl_testbit_gen w x n i :
  0 <= n <= w -> 0 <= i < w -> word w x ->
  Z.testbit ((x << n) .| (x >> (w - n))) i = Z.testbit x ((i - n) mod w).
Proof.
  intros Hn Hi Hx. rewrite Z.lor_spec, Z.shiftl_spec, Z.shiftr_spec by lia.
  destruct (Z.lt_ge_cases i n).
  - rewrite Z.testbit_neg_r by lia. cbn [orb].
    f_equal. apply (Z.mod_unique _ _ (-1)); lia.
  - rewrite (word_testbit_high w x (i + (w - n))), orb_false_r by (lia || assumption).
    now rewrite Z.mod_small by lia.
Qed.

Lemma SPH_ROTL64_testbit x n i :
  0 <= n <= 64 -> 0 <= i < 64 -> u64 x ->
  Z.testbit (SPH_ROTL64 x n) i = Z.testbit x ((i - n) mod 64).
Proof. intros. unfold SPH_ROTL64. rewrite SPH_T64_testbit by lia. now apply rotl_testbit_gen. Qed.

Lemma SPH_ROTL32_testbit x n i :
  0 <= n <= 32 -> 0 <= i < 32 -> u32 x ->
  Z.testbit (SPH_ROTL32 x n) i = Z.testbit x ((i - n) mod 32).
Proof. intros. unfold SPH_ROTL32. rewrite SPH_T32_testbit by lia. now apply rotl_testbit_gen. Qed.

Lemma SPH_ROTL64_lxor x y n :
  0 <= n <= 64 -> u64 x -> u64 y ->
  SPH_ROTL64 (x .^ y) n = SPH_ROTL64 x n .^ SPH_ROTL64 y n.
Proof.
  intros Hn Hx Hy. apply (word_ext 64); auto with words. intros i Hi.
  rewrite Z.lxor_spec, !SPH_ROTL64_testbit, Z.lxor_spec by auto with words. reflexivity.
Qed.

Lemma SPH_ROTL32_lxor x y n :
  0 <= n <= 32 -> u32 x -> u32 y ->
  SPH_ROTL32 (x .^ y) n = SPH_ROTL32 x n .^ SPH_ROTL32 y n.
Proof.
  intros Hn Hx Hy. apply (word_ext 32); auto with words. intros i Hi.
  rewrite Z.lxor_spec, !SPH_ROTL32_testbit, Z.lxor_spec by auto with words. reflexivity.
Qed.

(** Rotating right undoes rotating left. *)
Lemma SPH_ROTR64_ROTL64 x n : 0 <= n <= 64 -> u64 x -> SPH_ROTR64 (SPH_ROTL64 x n) n = x.
Proof.
  intros Hn Hx. unfold SPH_ROTR64. apply (word_ext 64); auto with words. intros i Hi.
  rewrite SPH_ROTL64_testbit by auto with words.
  rewrite SPH_ROTL64_testbit; auto with words; [|apply Z.mod_pos_bound; lia].
  f_equal. rewrite Zminus_mod_idemp_l. replace (i - (64 - n) - n) with (i + (-1) * 64) by lia.
  rewrite Z.mod_add by lia. apply Z.mod_small; lia.
Qed.

Lemma SPH_ROTL64_ROTR64 x n : 0 <= n <= 64 -> u64 x -> SPH_ROTL64 (SPH_ROTR64 x n) n = x.
Proof.
  intros Hn Hx. rewrite <- (SPH_ROTR64_ROTL64 x (64 - n)) at 2 by (lia || assumption).
  unfold SPH_ROTR64. f_equal; lia.
Qed.

Lemma SPH_ROTR32_ROTL32 x n : 0 <= n <= 32 -> u32 x -> SPH_ROTR32 (SPH_ROTL32 x n) n = x.
Proof.
  intros Hn Hx. unfold SPH_ROTR32. apply (word_ext 32); auto with words. intros i Hi.
  rewrite SPH_ROTL32_testbit by auto with words.
  rewrite SPH_ROTL32_testbit; auto with words; [|apply Z.mod_pos_bound; lia].
  f_equal. rewrite Zminus_mod_idemp_l. replace (i - (32 - n) - n) with (i + (-1) * 32) by lia.
  rewrite Z.mod_add by lia. apply Z.mod_small; lia.
Qed.

Lemma SPH_ROTL32_ROTR32 x n : 0 <= n <= 32 -> u32 x -> SPH_ROTL32 (SPH_ROTR32 x n) n = x.
Proof.
  intros Hn Hx. rewrite <- (SPH_ROTR32_ROTL32 x (32 - n)) at 2 by (lia || assumption).
  unfold SPH_ROTR32. f_equal; lia.
Qed.

(** ** Encoders and decoders are little- and big-endian byte strings *)

Lemma uchar_shiftr x k : 0 <= k -> uchar (x >> k) = x / 2 ^ k mod 256.
Proof. intros. now rewrite uchar_mod, Z.shiftr_div_pow2. Qed.

Ltac enc_as_le_bytes :=
  cbn [le_bytes rev app]; rewrite ?Z.div_div by lia;
  rewrite ?uchar_shiftr by lia; rewrite ?uchar_mod; reflexivity.

Lemma sph_enc32le_bytes x : sph_enc32le x = le_bytes 4 x.
Proof. unfold sph_enc32le. enc_as_le_bytes. Qed.

Lemma sph_enc32be_bytes x : sph_enc32be x = rev (le_bytes 4 x).
Proof. unfold sph_enc32be. enc_as_le_bytes. Qed.

Lemma sph_enc64le_bytes x : sph_enc64le x = le_bytes 8 x.
Proof. unfold sph_enc64le. enc_as_le_bytes. Qed.

Lemma sph_enc64be_bytes x : sph_enc64be x = rev (le_bytes 8 x).
Proof. unfold sph_enc64be. enc_as_le_bytes. Qed.

(** Split a list into its first elements by its length. *)
Ltac explode_list l H :=
  repeat (let b := fresh "b" in destruct l as [|b l]; [cbn in H; lia|]);
  cbn [firstn nth length] in *.

Ltac forall_inv :=
  repeat match goal with
  | H : Forall _ (_ :: _) |- _ => inversion H; clear H; subst
  end.

(** [acc | b << w] with [acc] below [2^w]. *)
Lemma word_lor_shiftl w v x b :
  0 <= w -> 0 <= v -> word w x -> word v b -> word (w + v) (x .| (b << w)).
Proof. intros. rewrite lor_disjoint_add by assumption. now apply word_shiftl_add. Qed.

Ltac lor_chain :=
  match goal with
  | H : word ?w ?x |- context [?x .| (?b << ?w)] =>
      let K := fresh in
      assert (K : word (w + 8) (x .| (b << w))) by (apply word_lor_shiftl; lia || assumption);
      let v := eval vm_compute in (w + 8) in change (w + 8) with v in K;
      rewrite (lor_disjoint_add x b w) in * by (lia || assumption)
  end.

Lemma sph_dec64le_word src :
  (8 <= length src)%nat -> Forall byte src -> sph_dec64le src = le_word (firstn 8 src).
Proof.
  intros Hlen Hsrc. unfold sph_dec64le.
  do 8 (destruct src as [|? src]; [cbn in Hlen; lia|]). forall_inv.
  cbn [nth firstn le_word]. repeat lor_chain. lia.
Qed.

Lemma sph_dec32le_word src :
  (4 <= length src)%nat -> Forall byte src -> sph_dec32le src = le_word (firstn 4 src).
Proof.
  intros Hlen Hsrc. unfold sph_dec32le.
  do 4 (destruct src as [|? src]; [cbn in Hlen; lia|]). forall_inv.
  cbn [nth firstn le_word]. repeat lor_chain. lia.
Qed.

(** Big-endian decoding is little-endian decoding of the reversed bytes. *)
Lemma sph_dec64be_le src :
  (8 <= length src)%nat -> sph_dec64be src = sph_dec64le (rev (firstn 8 src)).
Proof.
  intros Hlen. unfold sph_dec64be, sph_dec64le.
  do 8 (destruct src as [|? src]; [cbn in Hlen; lia|]).
  cbn [nth firstn rev app]. apply Z.bits_inj'. intros i Hi. rewrite !Z.lor_spec. btauto.
Qed.

Lemma sph_dec32be_le src :
  (4 <= length src)%nat -> sph_dec32be src = sph_dec32le (rev (firstn 4 src)).
Proof.
  intros Hlen. unfold sph_dec32be, sph_dec32le.
  do 4 (destruct src as [|? src]; [cbn in Hlen; lia|]).
  cbn [nth firstn rev app]. apply Z.bits_inj'. intros i Hi. rewrite !Z.lor_spec. btauto.
Qed.

Lemma Forall_rev_firstn {A} (P : A -> Prop) n l : Forall P l -> Forall P (rev (firstn n l)).
Proof. intros H. apply Forall_rev. now apply Forall_firstn_skipn. Qed.

Lemma sph_dec64be_word src :
  (8 <= length src)%nat -> Forall byte src -> sph_dec64be src = le_word (rev (firstn 8 src)).
Proof.
  intros Hlen Hsrc.
  assert (H8 : length (rev (firstn 8 src)) = 8%nat)
    by (rewrite length_rev, length_firstn; lia).
  rewrite sph_dec64be_le, sph_dec64le_word by (lia || now apply Forall_rev_firstn).
  f_equal. apply firstn_all2. lia.
Qed.

Lemma sph_dec32be_word src :
  (4 <= length src)%nat -> Forall byte src -> sph_dec32be src = le_word (rev (firstn 4 src)).
Proof.
  intros Hlen Hsrc.
  assert (H4 : length (rev (firstn 4 src)) = 4%nat)
    by (rewrite length_rev, length_firstn; lia).
  rewrite sph_dec32be_le, sph_dec32le_word by (lia || now apply Forall_rev_firstn).
  f_equal. apply firstn_all2. lia.
Qed.

(** Split [0 <= i < n] into its values. *)
Ltac bit_cases i n :=
  let H := fresh in
  assert (H : In i (map Z.of_nat (seq 0 n)))
    by (apply in_map_iff; exists (Z.to_nat i); split;
        [apply Z2Nat.id; lia | apply in_seq; lia]);
  cbn in H; repeat (destruct H as [<-|H]); [..|contradiction].

(** Prove an equation between bit [i < n] of words built from [x] by shifts and
    bitwise operations with constants, position by position. *)
Ltac testbit_const x i n :=
  repeat progress rewrite ?Z.lor_spec, ?Z.land_spec, ?Z.lxor_spec, ?testbit_shiftl, ?testbit_shiftr;
  generalize (Z.testbit x); let f := fresh "f" in intros f;
  bit_cases i n; vm_compute;
  repeat match goal with |- context [f ?c] => destruct (f c) end; reflexivity.

(** The byte swap reverses the bytes of a word. *)
Lemma sph_bswap64_enc x : u64 x -> sph_bswap64 x = sph_dec64le (sph_enc64be x).
Proof.
  intros Hx. apply (word_ext 64); [lia| | |].
  - unfold sph_bswap64.
    apply word_lor; [lia | apply word_shiftr; [lia|lia|] | apply word_shiftl; [lia|]];
      (apply word_land_r; [lia | split; [discriminate | reflexivity]]).
  - rewrite sph_dec64le_word, sph_enc64be_bytes.
    + apply (le_word_bound (firstn 8 (rev (le_bytes 8 x)))).
      apply Forall_firstn_skipn, Forall_rev, le_bytes_byte.
    + reflexivity.
    + rewrite sph_enc64be_bytes. apply Forall_rev, le_bytes_byte.
  - intros i Hi. rewrite <- (SPH_T64_id x Hx).
    unfold sph_bswap64, sph_dec64le, sph_enc64be, SPH_T64, uchar. cbn [nth].
    testbit_const x i 64%nat.
Qed.

Lemma sph_bswap32_enc x : u32 x -> sph_bswap32 x = sph_dec32le (sph_enc32be x).
Proof.
  intros Hx. apply (word_ext 32); [lia| | |].
  - unfold sph_bswap32.
    apply word_lor; [lia | apply word_shiftr; [lia|lia|] | apply word_shiftl; [lia|]];
      (apply word_land_r; [lia | split; [discriminate | reflexivity]]).
  - rewrite sph_dec32le_word, sph_enc32be_bytes.
    + apply (le_word_bound (firstn 4 (rev (le_bytes 4 x)))).
      apply Forall_firstn_skipn, Forall_rev, le_bytes_byte.
    + reflexivity.
    + rewrite sph_enc32be_bytes. apply Forall_rev, le_bytes_byte.
  - intros i Hi. rewrite <- (SPH_T32_id x Hx).
    unfold sph_bswap32, sph_dec32le, sph_enc32be, SPH_T32, uchar. cbn [nth].
    testbit_const x i 32%nat.
Qed.

(** ** Lengths and ranges *)

Lemma length_sph_enc64le x : length (sph_enc64le x) = 8%nat. Proof. reflexivity. Qed.
Lemma length_sph_enc64be x : length (sph_enc64be x) = 8%nat. Proof. reflexivity. Qed.
Lemma length_sph_enc32le x : length (sph_enc32le x) = 4%nat. Proof. reflexivity. Qed.
Lemma length_sph_enc32be x : length (sph_enc32be x) = 4%nat. Proof. reflexivity. Qed.

Lemma bytes_sph_enc64le x : Forall byte (sph_enc64le x).
Proof. rewrite sph_enc64le_bytes. apply le_bytes_byte. Qed.
Lemma bytes_sph_enc64be x : Forall byte (sph_enc64be x).
Proof. rewrite sph_enc64be_bytes. apply Forall_rev, le_bytes_byte. Qed.
Lemma bytes_sph_enc32le x : Forall byte (sph_enc32le x).
Proof. rewrite sph_enc32le_bytes. apply le_bytes_byte. Qed.
Lemma bytes_sph_enc32be x : Forall byte (sph_enc32be x).
Proof. rewrite sph_enc32be_bytes. apply Forall_rev, le_bytes_byte. Qed.

#[export] Hint Resolve bytes_sph_enc64le bytes_sph_enc64be bytes_sph_enc32le bytes_sph_enc32be : words.

(** A byte, or the default of an out-of-range read, is a byte. *)
Lemma byte_nth i l : Forall byte l -> byte (nth i l 0).
Proof. apply Forall_nth_default. apply word_0. lia. Qed.

Lemma u64_sph_dec64le src : Forall byte src -> u64 (sph_dec64le src).
Proof.
  intros H. unfold sph_dec64le.
  pose proof (fun i => byte_nth i src H) as Hb.
  repeat apply word_lor; try lia;
    solve [ apply (word_mono 8); [lia | apply Hb]
          | apply word_shiftl; [lia|]; eapply word_mono; [|apply Hb]; lia ].
Qed.

Lemma u64_sph_dec64be src : Forall byte src -> u64 (sph_dec64be src).
Proof.
  intros H. unfold sph_dec64be.
  pose proof (fun i => byte_nth i src H) as Hb.
  repeat apply word_lor; try lia;
    solve [ apply (word_mono 8); [lia | apply Hb]
          | apply word_shiftl; [lia|]; eapply word_mono; [|apply Hb]; lia ].
Qed.

Lemma u32_sph_dec32le src : Forall byte src -> u32 (sph_dec32le src).
Proof.
  intros H. unfold sph_dec32le.
  pose proof (fun i => byte_nth i src H) as Hb.
  repeat apply word_lor; try lia;
    solve [ apply (word_mono 8); [lia | apply Hb]
          | apply word_shiftl; [lia|]; eapply word_mono; [|apply Hb]; lia ].
Qed.

Lemma u32_sph_dec32be src : Forall byte src -> u32 (sph_dec32be src).
Proof.
  intros H. unfold sph_dec32be.
  pose proof (fun i => byte_nth i src H) as Hb.
  repeat apply word_lor; try lia;
    solve [ apply (word_mono 8); [lia | apply Hb]
          | apply word_shiftl; [lia|]; eapply word_mono; [|apply Hb]; lia ].
Qed.

#[export] Hint Resolve u64_sph_dec64le u64_sph_dec64be u32_sph_dec32le u32_sph_dec32be : words.

(** ** Round trips *)

Lemma sph_dec_enc64le x : u64 x -> sph_dec64le (sph_enc64le x) = x.
Proof.
  intros Hx. rewrite sph_dec64le_word by (reflexivity || auto with words).
  rewrite firstn_all2 by reflexivity. rewrite sph_enc64le_bytes, le_word_le_bytes.
  now apply Z.mod_small.
Qed.

Lemma sph_dec_enc64be x : u64 x -> sph_dec64be (sph_enc64be x) = x.
Proof.
  intros Hx. rewrite sph_dec64be_word by (reflexivity || auto with words).
  rewrite firstn_all2 by reflexivity.
  rewrite sph_enc64be_bytes, rev_involutive, le_word_le_bytes. now apply Z.mod_small.
Qed.

Lemma sph_enc_dec64le src : length src = 8%nat -> Forall byte src -> sph_enc64le (sph_dec64le src) = src.
Proof.
  intros Hl Hs. rewrite sph_dec64le_word, firstn_all2, sph_enc64le_bytes by (lia || assumption).
  rewrite <- Hl at 1. now apply le_bytes_le_word.
Qed.

Lemma sph_enc_dec64be src : length src = 8%nat -> Forall byte src -> sph_enc64be (sph_dec64be src) = src.
Proof.
  intros Hl Hs. rewrite sph_dec64be_word, firstn_all2, sph_enc64be_bytes by (lia || assumption).
  rewrite <- (rev_involutive src) at 2. f_equal.
  rewrite <- Hl, <- length_rev. apply le_bytes_le_word. now apply Forall_rev.
Qed.

(** The stores and loads of little-endian hosts do what the portable bodies do:
    swapping the bytes of a word in a register and storing it lowest byte first
    writes the big-endian encoding, and loading and swapping reads it. *)
Theorem sph_fast_codecs v src :
  u64 v -> (8 <= length src)%nat -> Forall byte src ->
  sph_enc64be_fast v = sph_enc64be v /\ sph_enc64le_fast v = sph_enc64le v /\
  sph_dec64be_fast src = sph_dec64be src /\ sph_dec64le_fast src = sph_dec64le src.
Proof.
  intros Hv Hl Hs.
  assert (H8 : length (firstn 8 src) = 8%nat) by (rewrite length_firstn; lia).
  assert (Hb : Forall byte (firstn 8 src)) by now apply Forall_firstn_skipn.
  unfold sph_enc64be_fast, sph_enc64le_fast, sph_dec64be_fast, sph_dec64le_fast.
  repeat split.
  - rewrite sph_bswap64_enc, sph_dec64le_word by (reflexivity || auto with words).
    rewrite firstn_all2 by reflexivity. exact (le_bytes_le_word _ (bytes_sph_enc64be v)).
  - now rewrite sph_enc64le_bytes.
  - rewrite sph_bswap64_enc, sph_dec64le_word, sph_dec64be_word; auto with words.
    2:{ pose proof (le_word_bound _ Hb) as Hw. now rewrite H8 in Hw. }
    rewrite (firstn_all2 (n := 8) (sph_enc64be _)) by reflexivity.
    rewrite sph_enc64be_bytes. rewrite <- H8 at 1. now rewrite le_bytes_le_word.
  - now rewrite sph_dec64le_word.
Qed.

(** Encoding and decoding are inverse in both directions and both byte orders. *)
Theorem sph_codec_roundtrip :
  (forall x, u64 x -> sph_dec64le (sph_enc64le x) = x /\ sph_dec64be (sph_enc64be x) = x) /\
  (forall src, length src = 8%nat -> Forall byte src ->
    sph_enc64le (sph_dec64le src) = src /\ sph_enc64be (sph_dec64be src) = src).
Proof.
  auto 10 using sph_dec_enc64le, sph_dec_enc64be, sph_enc_dec64le, sph_enc_dec64be.
Qed.
