(* ===== verification/SphStream.v ===== *)
(** * The buffered update loop of the sph hash functions

    Every function of [src/crypto/*.c] that absorbs data ([keccak_core],
    [blake64], [bmw64], [groestl_big_core], [jh_core], [luffa5], [cubehash_core],
    [shavite_big_core], [update_big], [echo_big_core]) is the same loop over a
    context made of a block buffer [buf], a fill level [ptr] and a chaining
    state: copy as many bytes as fit, and when the buffer is full run the
    compression function on it and start over.  This file models the loop once,
    over the size [B] of the buffer and the compression step [block], and proves
    that it terminates and refines the mathematical definition: absorb the whole
    message block by block, keep the remainder in the buffer.  [buf] is a real
    array: bytes past [ptr] are whatever was there before (at first,
    uninitialised memory), and contexts that agree up to those bytes are
    related by [ctx_equiv]. *)

From Stdlib Require Import ZArith List Lia Bool Arith RelationClasses Morphisms.
From S2P Require Import Prelude.
Import ListNotations.
Open Scope nat_scope.

(** ** Contexts and the loop *)

Record context (St : Type) : Type := mkContext { buf : list Z; ptr : nat; st : St }.
Arguments mkContext {St} _ _ _.
Arguments buf {St} _.
Arguments ptr {St} _.
Arguments st {St} _.

Section Stream.
Context {St : Type}.
(** [B] is the block size, [sizeof sc->buf] or [lim], and [block b st] what runs
    when [ptr == B], on the [B] bytes [b] of the buffer. *)
Context (B : nat) (block : list Z -> St -> St).

(** One turn of the loop: copy the [clen] bytes of [piece], compress when full. *)
Definition core_turn (c : context St) (piece : list Z) : context St :=
  let buf' := memcpy (buf c) (ptr c) piece in
  let ptr' := ptr c + length piece in
  if ptr' =? B then mkContext buf' 0 (block (firstn B buf') (st c)) else mkContext buf' ptr' (st c).

(** [while (len > 0) { ... }]: the context and the data not consumed within
    [fuel] turns. *)
Fixpoint core_loop (fuel : nat) (c : context St) (data : list Z) : context St * list Z :=
  match fuel, data with
  | O, _ | _, [] => (c, data)
  | S fuel, _ =>
      let clen := Nat.min (B - ptr c) (length data) in
      core_loop fuel (core_turn c (firstn clen data)) (skipn clen data)
  end.

(** The loop as a whole: a turn on a context with [ptr < B] consumes a byte or
    more, so [length data] turns are enough ([core_loop_done]). *)
Definition core_while (c : context St) (data : list Z) : context St :=
  fst (core_loop (length data) c data).

(** The loop behind the early return [if (len < B - ptr) { memcpy; return; }]. *)
Definition core (c : context St) (data : list Z) : context St :=
  if length data <? B - ptr c
  then mkContext (memcpy (buf c) (ptr c) data) (ptr c + length data) (st c)
  else core_while c data.

(** ** What the loop computes *)

(** Run [block] on the first [k] blocks of [m]. *)
Fixpoint absorb (k : nat) (m : list Z) (s : St) : St :=
  match k with
  | O => s
  | S k => absorb k (skipn B m) (block (firstn B m) s)
  end.

(** [c] is a context that has absorbed the message [m] from the state [s0]. *)
Record absorbed (s0 : St) (m : list Z) (c : context St) : Prop := {
  absorbed_buf : B <= length (buf c);
  absorbed_ptr : ptr c = length m mod B;
  absorbed_st : st c = absorb (length m / B) m s0;
  absorbed_rest : firstn (ptr c) (buf c) = skipn (length m / B * B) m
}.

(** Contexts that differ only in the stale bytes of the buffer. *)
Definition ctx_equiv (c1 c2 : context St) : Prop :=
  (B <= length (buf c1) <-> B <= length (buf c2)) /\ ptr c1 = ptr c2 /\ st c1 = st c2 /\
  firstn (ptr c1) (buf c1) = firstn (ptr c2) (buf c2).

#[export] Instance ctx_equiv_equivalence : Equivalence ctx_equiv.
Proof.
  split; unfold ctx_equiv.
  - intros c. repeat split; auto.
  - intros c1 c2 (? & ? & ? & ?). repeat split; auto; tauto.
  - intros c1 c2 c3 (? & ? & ? & ?) (? & ? & ? & ?). repeat split; try congruence; tauto.
Qed.

Hypothesis B_pos : 0 < B.

Lemma absorb_app k m d s : k * B <= length m -> absorb k (m ++ d) s = absorb k m s.
Proof.
  revert m s. induction k as [|k IH]; intros m s H; [reflexivity|].
  cbn [absorb]. cbn in H.
  rewrite firstn_firstn_app, skipn_skipn_app by lia.
  apply IH. rewrite length_skipn. lia.
Qed.

Lemma absorb_succ k m s :
  absorb (S k) m s = block (firstn B (skipn (k * B) m)) (absorb k m s).
Proof.
  revert m s. induction k as [|k IH]; intros m s; [reflexivity|].
  change (absorb (S (S k)) m s) with (absorb (S k) (skipn B m) (block (firstn B m) s)).
  rewrite IH. cbn [absorb]. rewrite skipn_skipn.
  now replace (k * B + B) with (S k * B) by lia.
Qed.

Lemma div_mod_add n d :
  n mod B + d < B -> (n + d) / B = n / B /\ (n + d) mod B = n mod B + d.
Proof.
  intros H. pose proof (Nat.div_mod_eq n B) as E.
  assert (n + d = B * (n / B) + (n mod B + d)) as E2 by lia.
  split; [symmetry; eapply Nat.div_unique | symmetry; eapply Nat.mod_unique]; eauto.
Qed.

Lemma div_mod_full n d :
  n mod B + d = B -> (n + d) / B = S (n / B) /\ (n + d) mod B = 0.
Proof.
  intros H. pose proof (Nat.div_mod_eq n B) as E.
  assert (n + d = B * S (n / B) + 0) as E2 by nia.
  split; [symmetry; eapply Nat.div_unique | symmetry; eapply Nat.mod_unique]; eauto.
Qed.

Lemma absorbed_ptr_lt s0 m c : absorbed s0 m c -> ptr c < B.
Proof. intros H. rewrite (absorbed_ptr _ _ _ H). apply Nat.mod_upper_bound. lia. Qed.

(** A turn absorbs its piece. *)
Lemma absorbed_turn s0 m c piece :
  absorbed s0 m c -> ptr c + length piece <= B ->
  absorbed s0 (m ++ piece) (core_turn c piece).
Proof.
  intros H Hle. pose proof (absorbed_ptr_lt _ _ _ H) as Hlt. destruct H as [Hb Hp Hs Hr].
  assert (Hlb : B <= length (memcpy (buf c) (ptr c) piece))
    by (rewrite length_memcpy; lia).
  assert (Hfst : firstn (ptr c + length piece) (memcpy (buf c) (ptr c) piece)
                 = skipn (length m / B * B) (m ++ piece)).
  { rewrite firstn_memcpy, Hr by lia. rewrite skipn_skipn_app; [reflexivity|].
    pose proof (Nat.div_mod_eq (length m) B). lia. }
  unfold core_turn. destruct (Nat.eqb_spec (ptr c + length piece) B) as [E|E].
  - destruct (div_mod_full (length m) (length piece)) as [Hd Hm]; [lia|].
    split; cbn [buf ptr st]; rewrite ?length_app, ?Hd, ?Hm; auto.
    + rewrite absorb_succ, absorb_app by (pose proof (Nat.div_mod_eq (length m) B); lia).
      now rewrite <- Hfst, E, Hs, firstn_firstn, Nat.min_id.
    + symmetry. apply skipn_all2. rewrite length_app.
      pose proof (Nat.div_mod_eq (length m) B). cbn. lia.
  - destruct (div_mod_add (length m) (length piece)) as [Hd Hm]; [lia|].
    split; cbn [buf ptr st]; rewrite ?length_app, ?Hd, ?Hm; try lia; auto.
    rewrite absorb_app; [exact Hs|]. pose proof (Nat.div_mod_eq (length m) B). lia.
Qed.

(** The loop consumes all of its input, and absorbs it. *)
Lemma core_loop_absorbed fuel s0 m c data :
  absorbed s0 m c -> length data <= fuel ->
  snd (core_loop fuel c data) = [] /\ absorbed s0 (m ++ data) (fst (core_loop fuel c data)).
Proof.
  revert m c data. induction fuel as [|fuel IH]; intros m c data Hc Hfuel.
  - destruct data; [|cbn in Hfuel; lia]. rewrite app_nil_r. auto.
  - destruct data as [|b data]; [rewrite app_nil_r; auto|].
    set (d := b :: data) in *. pose proof (absorbed_ptr_lt _ _ _ Hc) as Hlt.
    assert (Hpos : 0 < length d) by (cbn; lia).
    change (core_loop (S fuel) c d) with
      (let clen := Nat.min (B - ptr c) (length d) in
       core_loop fuel (core_turn c (firstn clen d)) (skipn clen d)).
    cbv zeta. set (clen := Nat.min (B - ptr c) (length d)).
    rewrite <- (firstn_skipn clen d) at 3. rewrite app_assoc.
    apply IH.
    + apply absorbed_turn; [assumption|]. rewrite length_firstn. unfold clen. lia.
    + rewrite length_skipn. unfold clen. lia.
Qed.

Lemma core_while_absorbed s0 m c data :
  absorbed s0 m c -> absorbed s0 (m ++ data) (core_while c data).
Proof. intros H. now apply core_loop_absorbed. Qed.

Lemma core_absorbed s0 m c data :
  absorbed s0 m c -> absorbed s0 (m ++ data) (core c data).
Proof.
  intros H. unfold core. destruct (Nat.ltb_spec (length data) (B - ptr c)) as [Hlt|_].
  - pose proof (absorbed_turn s0 m c data H) as Ht. unfold core_turn in Ht.
    destruct (Nat.eqb_spec (ptr c + length data) B) as [E|_]; [lia|]. apply Ht. lia.
  - now apply core_while_absorbed.
Qed.

(** An empty context: any buffer contents, [ptr] zero. *)
Lemma absorbed_init s0 b : B <= length b -> absorbed s0 [] (mkContext b 0 s0).
Proof.
  intros Hb. split; cbn [buf ptr st length]; auto.
  - symmetry. apply Nat.Div0.mod_0_l.
  - now rewrite Nat.Div0.div_0_l.
  - now rewrite skipn_nil.
Qed.

(** Two contexts that absorbed the same message are equivalent. *)
Lemma absorbed_equiv s0 m c1 c2 : absorbed s0 m c1 -> absorbed s0 m c2 -> ctx_equiv c1 c2.
Proof. intros [] []. repeat split; congruence || auto. Qed.

Lemma ctx_equiv_absorbed s0 m c1 c2 : ctx_equiv c1 c2 -> absorbed s0 m c1 -> absorbed s0 m c2.
Proof. intros (? & ? & ? & ?) []. split; congruence || tauto. Qed.

(** A context with [ptr < B] absorbed its pending bytes from its current state. *)
Lemma absorbed_pending c :
  B <= length (buf c) -> ptr c < B -> absorbed (st c) (firstn (ptr c) (buf c)) c.
Proof.
  intros Hb Hp. assert (Hl : length (firstn (ptr c) (buf c)) = ptr c)
    by (rewrite length_firstn; lia).
  split; rewrite ?Hl, ?(Nat.div_small _ _ Hp), ?(Nat.mod_small _ _ Hp); auto.
Qed.

Lemma core_equiv c1 c2 data :
  B <= length (buf c1) -> ptr c1 < B -> ctx_equiv c1 c2 -> ctx_equiv (core c1 data) (core c2 data).
Proof.
  intros Hb Hp He. pose proof (absorbed_pending c1 Hb Hp) as H1.
  pose proof (ctx_equiv_absorbed _ _ _ _ He H1) as H2.
  eapply absorbed_equiv; eapply core_absorbed; eassumption.
Qed.

(** Completing the pending block: what the padding of a close does. *)
Lemma core_while_fill c data :
  B <= length (buf c) -> ptr c < B -> ptr c + length data = B ->
  st (core_while c data) = block (firstn (ptr c) (buf c) ++ data) (st c) /\
  ptr (core_while c data) = 0.
Proof.
  intros Hb Hp Hfill.
  pose proof (core_while_absorbed _ _ _ data (absorbed_pending c Hb Hp)) as [_ H1 H2 _].
  rewrite length_app, length_firstn in H1, H2.
  replace (Nat.min (ptr c) (length (buf c)) + length data) with B in H1, H2 by lia.
  rewrite Nat.Div0.mod_same in H1. rewrite Nat.div_same in H2 by lia.
  split; [|exact H1]. rewrite H2. cbn [absorb]. f_equal.
  apply firstn_all2. rewrite length_app, length_firstn. lia.
Qed.

Lemma core_fill c data :
  B <= length (buf c) -> ptr c < B -> ptr c + length data = B ->
  st (core c data) = block (firstn (ptr c) (buf c) ++ data) (st c) /\
  ptr (core c data) = 0.
Proof.
  intros Hb Hp Hfill. unfold core. destruct (Nat.ltb_spec (length data) (B - ptr c)) as [H|_]; [lia|].
  now apply core_while_fill.
Qed.

(** The buffer keeps its size. *)
Lemma core_loop_length fuel s0 m c data :
  absorbed s0 m c -> length (buf (fst (core_loop fuel c data))) = length (buf c).
Proof.
  revert m c data. induction fuel as [|fuel IH]; intros m c [|b data] Hc; try reflexivity.
  cbn [core_loop]. set (d := b :: data). set (clen := Nat.min (B - ptr c) (length d)).
  assert (Hle : ptr c + length (firstn clen d) <= B)
    by (pose proof (absorbed_ptr_lt _ _ _ Hc); rewrite length_firstn; unfold clen; lia).
  rewrite (IH (m ++ firstn clen d)) by now apply absorbed_turn.
  unfold core_turn. pose proof (absorbed_buf _ _ _ Hc).
  destruct (_ =? B); apply length_memcpy; lia.
Qed.

Lemma core_while_length s0 m c data :
  absorbed s0 m c -> length (buf (core_while c data)) = length (buf c).
Proof. apply core_loop_length. Qed.

Lemma core_length s0 m c data :
  absorbed s0 m c -> length (buf (core c data)) = length (buf c).
Proof.
  intros H. unfold core. destruct (Nat.ltb_spec (length data) (B - ptr c)) as [Hlt|_].
  - apply length_memcpy. pose proof (absorbed_buf _ _ _ H). lia.
  - eapply core_while_length. eassumption.
Qed.

(** What every update keeps. *)
Lemma core_frame c data :
  B <= length (buf c) -> ptr c < B ->
  length (buf (core c data)) = length (buf c) /\ ptr (core c data) < B.
Proof.
  intros Hb Hp. pose proof (absorbed_pending c Hb Hp) as A. split.
  - eapply core_length, A.
  - eapply absorbed_ptr_lt, core_absorbed, A.
Qed.

Lemma core_while_frame c data :
  B <= length (buf c) -> ptr c < B ->
  length (buf (core_while c data)) = length (buf c) /\ ptr (core_while c data) < B.
Proof.
  intros Hb Hp. pose proof (absorbed_pending c Hb Hp) as A. split.
  - eapply core_while_length, A.
  - eapply absorbed_ptr_lt, core_while_absorbed, A.
Qed.

(** The update loop always ends: [length data] turns consume the data. *)
Lemma core_loop_done c data :
  B <= length (buf c) -> ptr c < B -> snd (core_loop (length data) c data) = [].
Proof.
  intros Hb Hp. eapply core_loop_absorbed; [now apply absorbed_pending|]. lia.
Qed.
End Stream.

Arguments core_turn {St}.
Arguments core_loop {St}.
Arguments core_while {St}.
Arguments core {St}.
Arguments absorb {St}.
Arguments absorbed {St}.

(** ** The interface of a 512-bit hash function

    [sph_X512_init], [sph_X512], [sph_X512_close] over the contexts of [X], as
    [src/hash.h] calls them.  [h_alloc] is what a declaration of a context gives:
    arrays of the right size, with arbitrary contents. *)
Record sph_hash : Type := mkHash {
  h_ctx : Type;
  h_alloc : h_ctx -> Prop;
  h_init : h_ctx -> h_ctx;
  h_update : h_ctx -> list Z -> h_ctx;
  h_close : h_ctx -> list Z * h_ctx
}.

(** [digest] is what the functions compute: for any memory the context is
    placed in and any way of cutting the message into pieces, init, update on
    each piece and close (of less than 2^64 bits in all) write the 64 bytes [digest message] and leave the
    context initialised for the next message. *)
Class Hasher (h : sph_hash) (digest : list Z -> list Z) : Prop := {
  hasher_streams : forall c pieces,
    h_alloc h c -> Forall (Forall byte) pieces ->
    (8 * Z.of_nat (length (concat pieces)) < 2 ^ 64)%Z ->
    exists c0, h_alloc h c0 /\
      h_close h (fold_left (h_update h) pieces (h_init h c)) = (digest (concat pieces), h_init h c0);
  hasher_length : forall m, length (digest m) = 64;
  hasher_bytes : forall m, Forall byte (digest m);
  hasher_init : forall c, h_alloc h c -> h_alloc h (h_init h c)
}.

(** Absorbing a list of pieces is absorbing their concatenation. *)
Lemma fold_update_absorbed {St} B block (upd : context St -> list Z -> context St) s0 m c pieces :
  (forall m c d, absorbed B block s0 m c -> absorbed B block s0 (m ++ d) (upd c d)) ->
  absorbed B block s0 m c -> absorbed B block s0 (m ++ concat pieces) (fold_left upd pieces c).
Proof.
  intros Hupd. revert m c. induction pieces as [|p ps IH]; intros m c Hc; cbn [fold_left concat].
  - now rewrite app_nil_r.
  - rewrite app_assoc. auto.
Qed.

(** Absorbing along a relation between two chaining states. *)
Lemma absorb_rel {S1 S2} (R : S1 -> S2 -> Prop) (Q : list Z -> Prop) B f1 f2 k m s1 s2 :
  (forall b s1 s2, length b = B -> Q b -> R s1 s2 -> R (f1 b s1) (f2 b s2)) ->
  (forall n m, Q m -> Q (firstn n m) /\ Q (skipn n m)) ->
  k * B <= length m -> Q m -> R s1 s2 ->
  R (absorb B f1 k m s1) (absorb B f2 k m s2).
Proof.
  intros Hf HQ. revert m s1 s2. induction k as [|k IH]; intros m s1 s2 Hk Hm Hs; [exact Hs|].
  cbn [absorb]. cbn in Hk. destruct (HQ B m Hm) as [Hq1 Hq2]. apply IH; auto.
  - rewrite length_skipn. lia.
  - apply Hf; auto. rewrite length_firstn. lia.
Qed.

Lemma absorb_ext {St} B (f g : list Z -> St -> St) k m s :
  (forall b s, f b s = g b s) -> absorb B f k m s = absorb B g k m s.
Proof.
  intros Hfg. revert m s. induction k as [|k IH]; intros m s; [reflexivity|].
  cbn [absorb]. now rewrite IH, Hfg.
Qed.

(** An invariant of the chaining state. *)
Lemma absorb_inv {St} (I : St -> Prop) B f k m s :
  (forall b s, I s -> I (f b s)) -> I s -> I (absorb B f k m s).
Proof.
  intros Hf. revert m s. induction k as [|k IH]; intros m s Hs; [exact Hs|]. cbn [absorb]. auto.
Qed.

Lemma fold_update_length {St} B block (upd : context St -> list Z -> context St) s0 m c pieces :
  (forall m c d, absorbed B block s0 m c -> absorbed B block s0 (m ++ d) (upd c d)) ->
  (forall m c d, absorbed B block s0 m c -> length (buf (upd c d)) = length (buf c)) ->
  absorbed B block s0 m c -> length (buf (fold_left upd pieces c)) = length (buf c).
Proof.
  intros Hupd Hlen. revert m c. induction pieces as [|p ps IH]; intros m c Hc; [reflexivity|].
  cbn [fold_left]. rewrite (IH (m ++ p)) by auto. eauto.
Qed.

(** ** Merkle-Damgard closing

    Several closes end the message the same way: a byte [x] (the bits still to
    hash and a one bit), zeros up to [L] bytes before the end of a block, an
    [L]-byte trailer; when the trailer does not fit, a block of zeros comes in
    between. *)
Section MerkleDamgard.
Context {St : Type} (B L : nat) (block : list Z -> St -> St).

(** What the closes do with the buffer: the last buffer and state. *)
Definition md_last (c : context St) (x : Z) (trailer : list Z) : list Z * St :=
  let buf := memcpy (buf c) (ptr c) [x] in
  let ptr := S (ptr c) in
  let '(buf, ptr, s) :=
    if B - L <? ptr
    then let buf := memcpy buf ptr (repeat 0%Z (B - ptr)) in (buf, 0, block (firstn B buf) (st c))
    else (buf, ptr, st c) in
  let buf := memcpy buf ptr (repeat 0%Z (B - L - ptr)) in
  let buf := memcpy buf (B - L) trailer in
  (buf, block (firstn B buf) s).

(** The padded message. *)
Definition md_pad (m : list Z) (x : Z) (trailer : list Z) : list Z :=
  let r := length m mod B in
  m ++ x :: repeat 0%Z (if r <? B - L then B - L - 1 - r else 2 * B - L - 1 - r) ++ trailer.

Hypothesis L_small : L < B.

Lemma length_md_pad m x trailer :
  length trailer = L -> length (md_pad m x trailer) mod B = 0 /\
  length (md_pad m x trailer) / B = length m / B + (if length m mod B <? B - L then 1 else 2).
Proof.
  intros HL. pose proof (Nat.div_mod_eq (length m) B) as E.
  pose proof (Nat.mod_upper_bound (length m) B ltac:(lia)) as R.
  unfold md_pad. rewrite length_app. cbn [length]. rewrite length_app, repeat_length, HL.
  set (q := length m / B) in *. set (r := length m mod B) in *.
  destruct (Nat.ltb_spec r (B - L)).
  - assert (length m + S (B - L - 1 - r + L) = B * (q + 1) + 0) as -> by lia.
    split; [symmetry; eapply Nat.mod_unique | symmetry; eapply Nat.div_unique]; try reflexivity; lia.
  - assert (length m + S (2 * B - L - 1 - r + L) = B * (q + 2) + 0) as -> by lia.
    split; [symmetry; eapply Nat.mod_unique | symmetry; eapply Nat.div_unique]; try reflexivity; lia.
Qed.

(** The close hashes the blocks of the padded message. *)
Lemma md_last_absorb s0 m c x trailer :
  absorbed B block s0 m c -> length trailer = L ->
  snd (md_last c x trailer)
  = absorb B block (length (md_pad m x trailer) / B) (md_pad m x trailer) s0.
Proof.
  intros Ha HL. pose proof (absorbed_ptr_lt B block ltac:(lia) _ _ _ Ha) as Hlt.
  destruct (length_md_pad m x trailer HL) as [_ ->]. destruct Ha as [Hb Hp Hs Hr].
  pose proof (Nat.div_mod_eq (length m) B) as E. rewrite <- Hp in E.
  assert (Eq : forall l, absorb B block (length m / B) (m ++ l) s0 = st c)
    by (intros l; rewrite absorb_app, Hs by lia; reflexivity).
  assert (Esk : forall l, skipn (length m / B * B) (m ++ l) = firstn (ptr c) (buf c) ++ l)
    by (intros l; rewrite skipn_skipn_app, Hr by lia; reflexivity).
  assert (Hf1 : firstn (S (ptr c)) (memcpy (buf c) (ptr c) [x]) = firstn (ptr c) (buf c) ++ [x])
    by (replace (S (ptr c)) with (ptr c + length [x]) by (cbn; lia); apply firstn_memcpy; lia).
  assert (Hl1 : length (memcpy (buf c) (ptr c) [x]) = length (buf c)) by (apply length_memcpy; cbn; lia).
  unfold md_last, md_pad. rewrite <- Hp. set (b1 := memcpy (buf c) (ptr c) [x]) in *.
  destruct (Nat.ltb_spec (B - L) (S (ptr c))) as [Hgt|Hle];
    destruct (Nat.ltb_spec (ptr c) (B - L)) as [H|H]; try lia; cbn [snd].
  - (* two blocks *)
    replace (length m / B + 2) with (S (S (length m / B))) by lia. rewrite !absorb_succ by lia.
    set (l := x :: _).
    replace (S (length m / B) * B) with (B + length m / B * B) by lia.
    rewrite <- skipn_skipn, Eq, Esk.
    set (z1 := repeat 0%Z (B - S (ptr c))). set (z2 := repeat 0%Z (B - L)).
    assert (El : l = [x] ++ z1 ++ z2 ++ trailer).
    { unfold l, z1, z2. cbn [app]. f_equal. rewrite app_assoc, <- repeat_app. do 2 f_equal. lia. }
    assert (Hpre : length ((firstn (ptr c) (buf c) ++ [x]) ++ z1) = B)
      by (rewrite !length_app, length_firstn; unfold z1; rewrite repeat_length; cbn [length]; lia).
    rewrite El, !app_assoc. rewrite <- (app_assoc _ z2 trailer).
    set (pre := (_ ++ [x]) ++ z1) in *.
    rewrite (firstn_firstn_app B pre (z2 ++ trailer)), (firstn_all2 (n := B) pre) by lia.
    rewrite (skipn_app B pre (z2 ++ trailer)), (skipn_all2 pre), Hpre, Nat.sub_diag by lia. cbn [app skipn].
    rewrite (firstn_all2 (n := B) (z2 ++ trailer))
      by (rewrite length_app; unfold z2; rewrite repeat_length; lia).
    assert (E1 : firstn B (memcpy b1 (S (ptr c)) z1) = pre).
    { unfold pre. rewrite <- Hf1, <- firstn_memcpy by lia. f_equal. unfold z1. rewrite repeat_length. lia. }
    rewrite E1. f_equal. rewrite Nat.sub_0_r. fold z2.
    set (b2 := memcpy b1 (S (ptr c)) z1).
    assert (Hl2 : length b2 = length (buf c))
      by (unfold b2; rewrite length_memcpy; [exact Hl1 | unfold z1; rewrite repeat_length; lia]).
    assert (Hz2 : length z2 = B - L) by apply repeat_length.
    replace B with (B - L + length trailer) at 1 by lia.
    rewrite firstn_memcpy by (rewrite length_memcpy; lia). f_equal.
    rewrite <- Hz2. apply (firstn_memcpy b2 z2 0). lia.
  - (* one block *)
    replace (length m / B + 1) with (S (length m / B)) by lia. rewrite absorb_succ, Eq, Esk by lia.
    set (z := repeat 0%Z (B - L - 1 - ptr c)).
    assert (Hz : length z = B - L - 1 - ptr c) by apply repeat_length.
    replace (B - L - S (ptr c)) with (B - L - 1 - ptr c) by lia. fold z.
    replace (firstn (ptr c) (buf c) ++ x :: z ++ trailer) with (((firstn (ptr c) (buf c) ++ [x]) ++ z) ++ trailer)
      by now rewrite <- !app_assoc.
    rewrite (firstn_all2 (n := B) (_ ++ trailer))
      by (rewrite !length_app, length_firstn; cbn [length]; lia).
    f_equal. replace B with (B - L + length trailer) at 1 by lia.
    rewrite firstn_memcpy by (rewrite length_memcpy; lia). f_equal.
    rewrite <- Hf1. replace (B - L) with (S (ptr c) + length z) by lia.
    apply firstn_memcpy. lia.
Qed.

Lemma length_md_last c x trailer :
  B <= length (buf c) -> ptr c < B -> length trailer = L ->
  length (fst (md_last c x trailer)) = length (buf c).
Proof.
  intros Hb Hp HL. unfold md_last.
  assert (Hl1 : length (memcpy (buf c) (ptr c) [x]) = length (buf c)) by (apply length_memcpy; cbn; lia).
  set (b1 := memcpy (buf c) (ptr c) [x]) in *. destruct (Nat.ltb_spec (B - L) (S (ptr c))); cbn [fst].
  - assert (Hl2 : length (memcpy b1 (S (ptr c)) (repeat 0%Z (B - S (ptr c)))) = length b1)
      by (apply length_memcpy; rewrite repeat_length; lia).
    rewrite !length_memcpy; rewrite ?length_memcpy; rewrite ?repeat_length; lia.
  - rewrite !length_memcpy; rewrite ?length_memcpy; rewrite ?repeat_length; lia.
Qed.
End MerkleDamgard.
