(* ===== verification/Keccak.v ===== *)
(** * src/crypto/keccak.c: Keccak (the 64-bit implementation)

    The state [kc->u.wide] is a list of 25 lanes; [a00] .. [a44] are its
    indices, as in the macros of the file.  The macros [THETA], [RHO] and [KHI]
    take 25 variable names and assign to them: here they are functions on the
    list of the 25 values in macro-argument order, and [in_place] applies one
    under a renaming [P0] .. [P23].  All the unrolling factors of the file are
    modelled; [SPH_KECCAK_UNROLL] is 8 in the build.

    The reference is the Keccak-f[1600] permutation as its designers define it
    (theta, rho, pi, chi, iota on [A[x, y]], rotation offsets and round constants
    computed, not tabulated).  The code differs from it in three ways that are
    proved correct here: lanes are renamed instead of moved, six lanes are kept
    complemented so that chi needs fewer negations, and rounds are unrolled. *)

From Stdlib Require Import ZArith List Lia Bool Btauto.
From S2P Require Import Prelude SphTypes SphStream.
Import ListNotations.
Open Scope Z_scope.

Module Keccak.

(** ** Lane names *)

Definition a00 : nat := 0.
Definition a10 : nat := 1.
Definition a20 : nat := 2.
Definition a30 : nat := 3.
Definition a40 : nat := 4.
Definition a01 : nat := 5.
Definition a11 : nat := 6.
Definition a21 : nat := 7.
Definition a31 : nat := 8.
Definition a41 : nat := 9.
Definition a02 : nat := 10.
Definition a12 : nat := 11.
Definition a22 : nat := 12.
Definition a32 : nat := 13.
Definition a42 : nat := 14.
Definition a03 : nat := 15.
Definition a13 : nat := 16.
Definition a23 : nat := 17.
Definition a33 : nat := 18.
Definition a43 : nat := 19.
Definition a04 : nat := 20.
Definition a14 : nat := 21.
Definition a24 : nat := 22.
Definition a34 : nat := 23.
Definition a44 : nat := 24.

(** ** Round constants *)

Definition RC : list Z :=
  [0x0000000000000001; 0x0000000000008082;
   0x800000000000808A; 0x8000000080008000;
   0x000000000000808B; 0x0000000080000001;
   0x8000000080008081; 0x8000000000008009;
   0x000000000000008A; 0x0000000000000088;
   0x0000000080008009; 0x000000008000000A;
   0x000000008000808B; 0x800000000000008B;
   0x8000000000008089; 0x8000000000008003;
   0x8000000000008002; 0x8000000000000080;
   0x000000000000800A; 0x800000008000000A;
   0x8000000080008081; 0x8000000000008080;
   0x0000000080000001; 0x8000000080008008].

(** ** Operations on 64-bit lanes *)

Definition XOR64 (a b : Z) : Z := a .^ b.
Definition AND64 (a b : Z) : Z := a .& b.
Definition OR64 (a b : Z) : Z := a .| b.
Definition NOT64 (s : Z) : Z := SPH_T64 (Z.lnot s).
Definition ROL64 (v n : Z) : Z := SPH_ROTL64 v n.

Definition TH_ELT (c0 c1 c2 c3 c4 d0 d1 d2 d3 d4 : Z) : Z :=
  let tt0 := XOR64 d0 d1 in
  let tt1 := XOR64 d2 d3 in
  let tt0 := XOR64 tt0 d4 in
  let tt0 := XOR64 tt0 tt1 in
  let tt0 := ROL64 tt0 1 in
  let tt2 := XOR64 c0 c1 in
  let tt3 := XOR64 c2 c3 in
  let tt0 := XOR64 tt0 c4 in
  let tt2 := XOR64 tt2 tt3 in
  XOR64 tt0 tt2.

Definition THETA (b : list Z) : list Z :=
  match b with
  | [b00; b01; b02; b03; b04;
     b10; b11; b12; b13; b14;
     b20; b21; b22; b23; b24;
     b30; b31; b32; b33; b34;
     b40; b41; b42; b43; b44] =>
      let t0 := TH_ELT b40 b41 b42 b43 b44 b10 b11 b12 b13 b14 in
      let t1 := TH_ELT b00 b01 b02 b03 b04 b20 b21 b22 b23 b24 in
      let t2 := TH_ELT b10 b11 b12 b13 b14 b30 b31 b32 b33 b34 in
      let t3 := TH_ELT b20 b21 b22 b23 b24 b40 b41 b42 b43 b44 in
      let t4 := TH_ELT b30 b31 b32 b33 b34 b00 b01 b02 b03 b04 in
      [XOR64 b00 t0; XOR64 b01 t0; XOR64 b02 t0; XOR64 b03 t0; XOR64 b04 t0;
       XOR64 b10 t1; XOR64 b11 t1; XOR64 b12 t1; XOR64 b13 t1; XOR64 b14 t1;
       XOR64 b20 t2; XOR64 b21 t2; XOR64 b22 t2; XOR64 b23 t2; XOR64 b24 t2;
       XOR64 b30 t3; XOR64 b31 t3; XOR64 b32 t3; XOR64 b33 t3; XOR64 b34 t3;
       XOR64 b40 t4; XOR64 b41 t4; XOR64 b42 t4; XOR64 b43 t4; XOR64 b44 t4]
  | _ => b
  end.

Definition RHO (b : list Z) : list Z :=
  match b with
  | [b00; b01; b02; b03; b04;
     b10; b11; b12; b13; b14;
     b20; b21; b22; b23; b24;
     b30; b31; b32; b33; b34;
     b40; b41; b42; b43; b44] =>
      [b00; ROL64 b01 36; ROL64 b02 3; ROL64 b03 41; ROL64 b04 18;
       ROL64 b10 1; ROL64 b11 44; ROL64 b12 10; ROL64 b13 45; ROL64 b14 2;
       ROL64 b20 62; ROL64 b21 6; ROL64 b22 43; ROL64 b23 15; ROL64 b24 61;
       ROL64 b30 28; ROL64 b31 55; ROL64 b32 25; ROL64 b33 21; ROL64 b34 56;
       ROL64 b40 27; ROL64 b41 20; ROL64 b42 39; ROL64 b43 8; ROL64 b44 14]
  | _ => b
  end.

Definition KHI_XO (a b c : Z) : Z := let kt := OR64 b c in XOR64 a kt.
Definition KHI_XA (a b c : Z) : Z := let kt := AND64 b c in XOR64 a kt.

Definition KHI (b : list Z) : list Z :=
  match b with
  | [b00; b01; b02; b03; b04;
     b10; b11; b12; b13; b14;
     b20; b21; b22; b23; b24;
     b30; b31; b32; b33; b34;
     b40; b41; b42; b43; b44] =>
      let bnn := NOT64 b20 in
      let c00 := KHI_XO b00 b10 b20 in
      let c01 := KHI_XO b10 bnn b30 in
      let c02 := KHI_XA b20 b30 b40 in
      let c03 := KHI_XO b30 b40 b00 in
      let c04 := KHI_XA b40 b00 b10 in
      let bnn := NOT64 b41 in
      let c10 := KHI_XO b01 b11 b21 in
      let c11 := KHI_XA b11 b21 b31 in
      let c12 := KHI_XO b21 b31 bnn in
      let c13 := KHI_XO b31 b41 b01 in
      let c14 := KHI_XA b41 b01 b11 in
      let bnn := NOT64 b32 in
      let c20 := KHI_XO b02 b12 b22 in
      let c21 := KHI_XA b12 b22 b32 in
      let c22 := KHI_XA b22 bnn b42 in
      let c23 := KHI_XO bnn b42 b02 in
      let c24 := KHI_XA b42 b02 b12 in
      let bnn := NOT64 b33 in
      let c30 := KHI_XA b03 b13 b23 in
      let c31 := KHI_XO b13 b23 b33 in
      let c32 := KHI_XO b23 bnn b43 in
      let c33 := KHI_XA bnn b43 b03 in
      let c34 := KHI_XO b43 b03 b13 in
      let bnn := NOT64 b14 in
      let c40 := KHI_XA b04 bnn b24 in
      let c41 := KHI_XO bnn b24 b34 in
      let c42 := KHI_XA b24 b34 b44 in
      let c43 := KHI_XO b34 b44 b04 in
      let c44 := KHI_XA b44 b04 b14 in
      [c00; c10; c20; c30; c40;
       c01; c11; c21; c31; c41;
       c02; c12; c22; c32; c42;
       c03; c13; c23; c33; c43;
       c04; c14; c24; c34; c44]
  | _ => b
  end.

Definition IOTA (r : Z) (a : list Z) : list Z := upd a00 (XOR64 (nth a00 a 0) r) a.

(** ** Renamings of the lanes *)

Definition P0 : list nat :=
  [a00; a01; a02; a03; a04; a10; a11; a12; a13; a14; a20; a21; a22;
   a23; a24; a30; a31; a32; a33; a34; a40; a41; a42; a43; a44].
Definition P1 : list nat :=
  [a00; a30; a10; a40; a20; a11; a41; a21; a01; a31; a22; a02; a32;
   a12; a42; a33; a13; a43; a23; a03; a44; a24; a04; a34; a14].
Definition P2 : list nat :=
  [a00; a33; a11; a44; a22; a41; a24; a02; a30; a13; a32; a10; a43;
   a21; a04; a23; a01; a34; a12; a40; a14; a42; a20; a03; a31].
Definition P3 : list nat :=
  [a00; a23; a41; a14; a32; a24; a42; a10; a33; a01; a43; a11; a34;
   a02; a20; a12; a30; a03; a21; a44; a31; a04; a22; a40; a13].
Definition P4 : list nat :=
  [a00; a12; a24; a31; a43; a42; a04; a11; a23; a30; a34; a41; a03;
   a10; a22; a21; a33; a40; a02; a14; a13; a20; a32; a44; a01].
Definition P5 : list nat :=
  [a00; a21; a42; a13; a34; a04; a20; a41; a12; a33; a03; a24; a40;
   a11; a32; a02; a23; a44; a10; a31; a01; a22; a43; a14; a30].
Definition P6 : list nat :=
  [a00; a02; a04; a01; a03; a20; a22; a24; a21; a23; a40; a42; a44;
   a41; a43; a10; a12; a14; a11; a13; a30; a32; a34; a31; a33].
Definition P7 : list nat :=
  [a00; a10; a20; a30; a40; a22; a32; a42; a02; a12; a44; a04; a14;
   a24; a34; a11; a21; a31; a41; a01; a33; a43; a03; a13; a23].
Definition P8 : list nat :=
  [a00; a11; a22; a33; a44; a32; a43; a04; a10; a21; a14; a20; a31;
   a42; a03; a41; a02; a13; a24; a30; a23; a34; a40; a01; a12].
Definition P9 : list nat :=
  [a00; a41; a32; a23; a14; a43; a34; a20; a11; a02; a31; a22; a13;
   a04; a40; a24; a10; a01; a42; a33; a12; a03; a44; a30; a21].
Definition P10 : list nat :=
  [a00; a24; a43; a12; a31; a34; a03; a22; a41; a10; a13; a32; a01;
   a20; a44; a42; a11; a30; a04; a23; a21; a40; a14; a33; a02].
Definition P11 : list nat :=
  [a00; a42; a34; a21; a13; a03; a40; a32; a24; a11; a01; a43; a30;
   a22; a14; a04; a41; a33; a20; a12; a02; a44; a31; a23; a10].
Definition P12 : list nat :=
  [a00; a04; a03; a02; a01; a40; a44; a43; a42; a41; a30; a34; a33;
   a32; a31; a20; a24; a23; a22; a21; a10; a14; a13; a12; a11].
Definition P13 : list nat :=
  [a00; a20; a40; a10; a30; a44; a14; a34; a04; a24; a33; a03; a23;
   a43; a13; a22; a42; a12; a32; a02; a11; a31; a01; a21; a41].
Definition P14 : list nat :=
  [a00; a22; a44; a11; a33; a14; a31; a03; a20; a42; a23; a40; a12;
   a34; a01; a32; a04; a21; a43; a10; a41; a13; a30; a02; a24].
Definition P15 : list nat :=
  [a00; a32; a14; a41; a23; a31; a13; a40; a22; a04; a12; a44; a21;
   a03; a30; a43; a20; a02; a34; a11; a24; a01; a33; a10; a42].
Definition P16 : list nat :=
  [a00; a43; a31; a24; a12; a13; a01; a44; a32; a20; a21; a14; a02;
   a40; a33; a34; a22; a10; a03; a41; a42; a30; a23; a11; a04].
Definition P17 : list nat :=
  [a00; a34; a13; a42; a21; a01; a30; a14; a43; a22; a02; a31; a10;
   a44; a23; a03; a32; a11; a40; a24; a04; a33; a12; a41; a20].
Definition P18 : list nat :=
  [a00; a03; a01; a04; a02; a30; a33; a31; a34; a32; a10; a13; a11;
   a14; a12; a40; a43; a41; a44; a42; a20; a23; a21; a24; a22].
Definition P19 : list nat :=
  [a00; a40; a30; a20; a10; a33; a23; a13; a03; a43; a11; a01; a41;
   a31; a21; a44; a34; a24; a14; a04; a22; a12; a02; a42; a32].
Definition P20 : list nat :=
  [a00; a44; a33; a22; a11; a23; a12; a01; a40; a34; a41; a30; a24;
   a13; a02; a14; a03; a42; a31; a20; a32; a21; a10; a04; a43].
Definition P21 : list nat :=
  [a00; a14; a23; a32; a41; a12; a21; a30; a44; a03; a24; a33; a42;
   a01; a10; a31; a40; a04; a13; a22; a43; a02; a11; a20; a34].
Definition P22 : list nat :=
  [a00; a31; a12; a43; a24; a21; a02; a33; a14; a40; a42; a23; a04;
   a30; a11; a13; a44; a20; a01; a32; a34; a10; a41; a22; a03].
Definition P23 : list nat :=
  [a00; a13; a21; a34; a42; a02; a10; a23; a31; a44; a04; a12; a20;
   a33; a41; a01; a14; a22; a30; a43; a03; a11; a24; a32; a40].

Definition P (r : nat) : list nat :=
  nth r [P0; P1; P2; P3; P4; P5; P6; P7; P8; P9; P10; P11; P12; P13; P14; P15; P16; P17; P18; P19; P20; P21; P22; P23] [].

(** The values of the variables [p], and assignment to them. *)
Definition gather (p : list nat) (a : list Z) : list Z := map (fun i => nth i a 0) p.

Fixpoint scatter (p : list nat) (v : list Z) (a : list Z) : list Z :=
  match p, v with
  | i :: p, x :: v => upd i x (scatter p v a)
  | _, _ => a
  end.

Definition in_place (p : list nat) (f : list Z -> list Z) (a : list Z) : list Z :=
  scatter p (f (gather p a)) a.

(** ** Undoing a renaming: the moves of the macros [Pn_TO_P0]

    A list of assignments [(d, s)]; index 25 is the temporary [t]. *)

Definition t : nat := 25.
Definition MOV64 (a : list Z) (ds : nat * nat) : list Z := upd (fst ds) (nth (snd ds) a 0) a.
Definition moves (l : list (nat * nat)) (a : list Z) : list Z :=
  firstn 25 (fold_left MOV64 l (a ++ [0])).

Definition P1_TO_P0 : list Z -> list Z := moves
  [(t, a01); (a01, a30); (a30, a33); (a33, a23); (a23, a12); (a12, a21); (a21, a02);
   (a02, a10); (a10, a11); (a11, a41); (a41, a24); (a24, a42); (a42, a04); (a04, a20);
   (a20, a22); (a22, a32); (a32, a43); (a43, a34); (a34, a03); (a03, a40); (a40, a44);
   (a44, a14); (a14, a31); (a31, a13); (a13, t)].

Definition P2_TO_P0 : list Z -> list Z := moves
  [(t, a01); (a01, a33); (a33, a12); (a12, a02); (a02, a11); (a11, a24); (a24, a04);
   (a04, a22); (a22, a43); (a43, a03); (a03, a44); (a44, a31); (a31, t); (t, a10);
   (a10, a41); (a41, a42); (a42, a20); (a20, a32); (a32, a34); (a34, a40); (a40, a14);
   (a14, a13); (a13, a30); (a30, a23); (a23, a21); (a21, t)].

Definition P4_TO_P0 : list Z -> list Z := moves
  [(t, a01); (a01, a12); (a12, a11); (a11, a04); (a04, a43); (a43, a44); (a44, t);
   (t, a02); (a02, a24); (a24, a22); (a22, a03); (a03, a31); (a31, a33); (a33, t);
   (t, a10); (a10, a42); (a42, a32); (a32, a40); (a40, a13); (a13, a23); (a23, t);
   (t, a14); (a14, a30); (a30, a21); (a21, a41); (a41, a20); (a20, a34); (a34, t)].

Definition P6_TO_P0 : list Z -> list Z := moves
  [(t, a01); (a01, a02); (a02, a04); (a04, a03); (a03, t); (t, a10); (a10, a20);
   (a20, a40); (a40, a30); (a30, t); (t, a11); (a11, a22); (a22, a44); (a44, a33);
   (a33, t); (t, a12); (a12, a24); (a24, a43); (a43, a31); (a31, t); (t, a13);
   (a13, a21); (a21, a42); (a42, a34); (a34, t); (t, a14); (a14, a23); (a23, a41);
   (a41, a32); (a32, t)].

Definition P8_TO_P0 : list Z -> list Z := moves
  [(t, a01); (a01, a11); (a11, a43); (a43, t); (t, a02); (a02, a22); (a22, a31);
   (a31, t); (t, a03); (a03, a33); (a33, a24); (a24, t); (t, a04); (a04, a44);
   (a44, a12); (a12, t); (t, a10); (a10, a32); (a32, a13); (a13, t); (t, a14);
   (a14, a21); (a21, a20); (a20, t); (t, a23); (a23, a42); (a42, a40); (a40, t);
   (t, a30); (a30, a41); (a41, a34); (a34, t)].

Definition P12_TO_P0 : list Z -> list Z := moves
  [(t, a01); (a01, a04); (a04, t); (t, a02); (a02, a03); (a03, t); (t, a10);
   (a10, a40); (a40, t); (t, a11); (a11, a44); (a44, t); (t, a12); (a12, a43);
   (a43, t); (t, a13); (a13, a42); (a42, t); (t, a14); (a14, a41); (a41, t);
   (t, a20); (a20, a30); (a30, t); (t, a21); (a21, a34); (a34, t); (t, a22);
   (a22, a33); (a33, t); (t, a23); (a23, a32); (a32, t); (t, a24); (a24, a31);
   (a31, t)].

(** ** The permutation *)

Definition KF_ELT (r s : nat) (k : Z) (a : list Z) : list Z :=
  let a := in_place (P r) THETA a in
  let a := in_place (P r) RHO a in
  let a := in_place (P s) KHI a in
  IOTA k a.

(** [for (j = 0; j < 24; j += 1)]. *)
Definition KECCAK_F_1600_unroll1 (a : list Z) : list Z :=
  fold_left (fun a j =>
    let a := KF_ELT 0 1 (nth (j + 0) RC 0) a in
    P1_TO_P0 a) [0; 1; 2; 3; 4; 5; 6; 7; 8; 9; 10; 11; 12; 13; 14; 15; 16; 17; 18; 19; 20; 21; 22; 23]%nat a.

(** [for (j = 0; j < 24; j += 2)]. *)
Definition KECCAK_F_1600_unroll2 (a : list Z) : list Z :=
  fold_left (fun a j =>
    let a := KF_ELT 0 1 (nth (j + 0) RC 0) a in
    let a := KF_ELT 1 2 (nth (j + 1) RC 0) a in
    P2_TO_P0 a) [0; 2; 4; 6; 8; 10; 12; 14; 16; 18; 20; 22]%nat a.

(** [for (j = 0; j < 24; j += 4)]. *)
Definition KECCAK_F_1600_unroll4 (a : list Z) : list Z :=
  fold_left (fun a j =>
    let a := KF_ELT 0 1 (nth (j + 0) RC 0) a in
    let a := KF_ELT 1 2 (nth (j + 1) RC 0) a in
    let a := KF_ELT 2 3 (nth (j + 2) RC 0) a in
    let a := KF_ELT 3 4 (nth (j + 3) RC 0) a in
    P4_TO_P0 a) [0; 4; 8; 12; 16; 20]%nat a.

(** [for (j = 0; j < 24; j += 6)]. *)
Definition KECCAK_F_1600_unroll6 (a : list Z) : list Z :=
  fold_left (fun a j =>
    let a := KF_ELT 0 1 (nth (j + 0) RC 0) a in
    let a := KF_ELT 1 2 (nth (j + 1) RC 0) a in
    let a := KF_ELT 2 3 (nth (j + 2) RC 0) a in
    let a := KF_ELT 3 4 (nth (j + 3) RC 0) a in
    let a := KF_ELT 4 5 (nth (j + 4) RC 0) a in
    let a := KF_ELT 5 6 (nth (j + 5) RC 0) a in
    P6_TO_P0 a) [0; 6; 12; 18]%nat a.

(** [for (j = 0; j < 24; j += 8)]. *)
Definition KECCAK_F_1600_unroll8 (a : list Z) : list Z :=
  fold_left (fun a j =>
    let a := KF_ELT 0 1 (nth (j + 0) RC 0) a in
    let a := KF_ELT 1 2 (nth (j + 1) RC 0) a in
    let a := KF_ELT 2 3 (nth (j + 2) RC 0) a in
    let a := KF_ELT 3 4 (nth (j + 3) RC 0) a in
    let a := KF_ELT 4 5 (nth (j + 4) RC 0) a in
    let a := KF_ELT 5 6 (nth (j + 5) RC 0) a in
    let a := KF_ELT 6 7 (nth (j + 6) RC 0) a in
    let a := KF_ELT 7 8 (nth (j + 7) RC 0) a in
    P8_TO_P0 a) [0; 8; 16]%nat a.

(** [for (j = 0; j < 24; j += 12)]. *)
Definition KECCAK_F_1600_unroll12 (a : list Z) : list Z :=
  fold_left (fun a j =>
    let a := KF_ELT 0 1 (nth (j + 0) RC 0) a in
    let a := KF_ELT 1 2 (nth (j + 1) RC 0) a in
    let a := KF_ELT 2 3 (nth (j + 2) RC 0) a in
    let a := KF_ELT 3 4 (nth (j + 3) RC 0) a in
    let a := KF_ELT 4 5 (nth (j + 4) RC 0) a in
    let a := KF_ELT 5 6 (nth (j + 5) RC 0) a in
    let a := KF_ELT 6 7 (nth (j + 6) RC 0) a in
    let a := KF_ELT 7 8 (nth (j + 7) RC 0) a in
    let a := KF_ELT 8 9 (nth (j + 8) RC 0) a in
    let a := KF_ELT 9 10 (nth (j + 9) RC 0) a in
    let a := KF_ELT 10 11 (nth (j + 10) RC 0) a in
    let a := KF_ELT 11 12 (nth (j + 11) RC 0) a in
    P12_TO_P0 a) [0; 12]%nat a.

Definition KECCAK_F_1600_unroll0 (a : list Z) : list Z :=
  let a := KF_ELT 0 1 (nth 0 RC 0) a in
  let a := KF_ELT 1 2 (nth 1 RC 0) a in
  let a := KF_ELT 2 3 (nth 2 RC 0) a in
  let a := KF_ELT 3 4 (nth 3 RC 0) a in
  let a := KF_ELT 4 5 (nth 4 RC 0) a in
  let a := KF_ELT 5 6 (nth 5 RC 0) a in
  let a := KF_ELT 6 7 (nth 6 RC 0) a in
  let a := KF_ELT 7 8 (nth 7 RC 0) a in
  let a := KF_ELT 8 9 (nth 8 RC 0) a in
  let a := KF_ELT 9 10 (nth 9 RC 0) a in
  let a := KF_ELT 10 11 (nth 10 RC 0) a in
  let a := KF_ELT 11 12 (nth 11 RC 0) a in
  let a := KF_ELT 12 13 (nth 12 RC 0) a in
  let a := KF_ELT 13 14 (nth 13 RC 0) a in
  let a := KF_ELT 14 15 (nth 14 RC 0) a in
  let a := KF_ELT 15 16 (nth 15 RC 0) a in
  let a := KF_ELT 16 17 (nth 16 RC 0) a in
  let a := KF_ELT 17 18 (nth 17 RC 0) a in
  let a := KF_ELT 18 19 (nth 18 RC 0) a in
  let a := KF_ELT 19 20 (nth 19 RC 0) a in
  let a := KF_ELT 20 21 (nth 20 RC 0) a in
  let a := KF_ELT 21 22 (nth 21 RC 0) a in
  let a := KF_ELT 22 23 (nth 22 RC 0) a in
  let a := KF_ELT 23 0 (nth 23 RC 0) a in
  a.

Definition KECCAK_F_1600 : list Z -> list Z := KECCAK_F_1600_unroll8.

(** ** Contexts: [sph_keccak_context] *)

Record state : Type := mkState { wide : list Z; lim : nat }.
Definition sph_keccak_context : Type := context state.

Definition INPUT_BUF (b : list Z) (a : list Z) : list Z :=
  fold_left (fun a j => upd j (nth j a 0 .^ sph_dec64le (skipn (8 * j) b)) a)
    (seq 0 (length b / 8)) a.

(** What [keccak_core] does with a full buffer. *)
Definition keccak_block (b : list Z) (s : state) : state :=
  mkState (KECCAK_F_1600 (INPUT_BUF b (wide s))) (lim s).

Definition ones64 : Z := 0xFFFFFFFFFFFFFFFF.

(** [keccak_init(kc, out_size)]: [buf] is left as it is. *)
Definition keccak_init (kc : sph_keccak_context) (out_size : nat) : sph_keccak_context :=
  let a := repeat 0 25 in
  let a := upd 1 ones64 a in
  let a := upd 2 ones64 a in
  let a := upd 8 ones64 a in
  let a := upd 12 ones64 a in
  let a := upd 17 ones64 a in
  let a := upd 20 ones64 a in
  mkContext (buf kc) 0 (mkState a (200 - out_size / 4)).

Definition keccak_core (kc : sph_keccak_context) (data : list Z) (lim : nat) : sph_keccak_context :=
  core lim keccak_block kc data.

(** The padding [u.tmp[0 .. j)] that [DEFCLOSE(d, lim)] feeds to [keccak_core]:
    [n] extra bits from the top of [ub], a one bit, zeros and a final one bit. *)
Definition keccak_padding (ptr lim : nat) (ub : Z) (n : nat) : list Z :=
  let eb := (0x100 .| (ub .& 0xFF)) >> (8 - Z.of_nat n) in
  if (ptr =? lim - 1)%nat then
    if (n =? 7)%nat then [uchar eb] ++ repeat 0 (lim - 1) ++ [0x80]
    else [uchar (eb .| 0x80)]
  else
    let j := (lim - ptr)%nat in
    [uchar eb] ++ repeat 0 (j - 2) ++ [0x80].

(** Complement the six lanes 1, 2, 8, 12, 17 and 20. *)
Definition complement_lanes (a : list Z) : list Z :=
  fold_left (fun a i => upd i (SPH_T64 (Z.lnot (nth i a 0))) a) [1; 2; 8; 12; 17; 20]%nat a.

(** [DEFCLOSE(d, lim)]: the [d] bytes written to [dst], and the context after. *)
Definition keccak_close (d lim : nat) (kc : sph_keccak_context) (ub : Z) (n : nat)
  : list Z * sph_keccak_context :=
  let kc := keccak_core kc (keccak_padding (ptr kc) lim ub n) lim in
  let a := complement_lanes (wide (st kc)) in
  let dst := flat_map (fun j => sph_enc64le (nth j a 0)) (seq 0 ((d + 7) / 8)) in
  (firstn d dst, keccak_init (mkContext (buf kc) (ptr kc) (mkState a (Keccak.lim (st kc)))) (8 * d)).

Definition sph_keccak224_init kc := keccak_init kc 224.
Definition sph_keccak224 kc data := keccak_core kc data 144.
Definition sph_keccak224_addbits_and_close kc ub n := keccak_close 28 144 kc ub n.
Definition sph_keccak224_close kc := sph_keccak224_addbits_and_close kc 0 0.
Definition sph_keccak256_init kc := keccak_init kc 256.
Definition sph_keccak256 kc data := keccak_core kc data 136.
Definition sph_keccak256_addbits_and_close kc ub n := keccak_close 32 136 kc ub n.
Definition sph_keccak256_close kc := sph_keccak256_addbits_and_close kc 0 0.
Definition sph_keccak384_init kc := keccak_init kc 384.
Definition sph_keccak384 kc data := keccak_core kc data 104.
Definition sph_keccak384_addbits_and_close kc ub n := keccak_close 48 104 kc ub n.
Definition sph_keccak384_close kc := sph_keccak384_addbits_and_close kc 0 0.
Definition sph_keccak512_init kc := keccak_init kc 512.
Definition sph_keccak512 kc data := keccak_core kc data 72.
Definition sph_keccak512_addbits_and_close kc ub n := keccak_close 64 72 kc ub n.
Definition sph_keccak512_close kc := sph_keccak512_addbits_and_close kc 0 0.

(** ** The reference permutation *)

(** Lane [A[x, y]] and a state given by its lanes. *)
Definition lane (a : list Z) (x y : nat) : Z := nth (x mod 5 + 5 * (y mod 5)) a 0.
Definition lanes (f : nat -> nat -> Z) : list Z :=
  map (fun i => f (i mod 5)%nat (i / 5)%nat) (seq 0 25).

Definition theta_C (a : list Z) (x : nat) : Z :=
  lane a x 0 .^ lane a x 1 .^ lane a x 2 .^ lane a x 3 .^ lane a x 4.
Definition theta_D (a : list Z) (x : nat) : Z :=
  theta_C a (x + 4) .^ SPH_ROTL64 (theta_C a (x + 1)) 1.
Definition theta (a : list Z) : list Z := lanes (fun x y => lane a x y .^ theta_D a x).

(** The rotation offsets: lane [(0, 0)] has 0, and the [t]-th lane of the walk
    [(x, y) -> (y, 2x + 3y)] from [(1, 0)] has [(t + 1)(t + 2) / 2]. *)
Fixpoint rho_walk (n : nat) (x y t : nat) (r : list nat) : list nat :=
  match n with
  | O => r
  | S n => rho_walk n y ((2 * x + 3 * y) mod 5) (S t)
             (upd (x + 5 * y) (((t + 1) * (t + 2) / 2) mod 64)%nat r)
  end.
Definition rho_offsets : list nat := rho_walk 24 1 0 0 (repeat 0%nat 25).

Definition rho (a : list Z) : list Z :=
  lanes (fun x y => SPH_ROTL64 (lane a x y) (Z.of_nat (nth (x + 5 * y) rho_offsets 0%nat))).

(** [B[y, 2x + 3y] = A[x, y]], read backwards. *)
Definition pi (a : list Z) : list Z := lanes (fun x y => lane a (x + 3 * y) x).

Definition chi (a : list Z) : list Z :=
  lanes (fun x y => lane a x y .^ (SPH_T64 (Z.lnot (lane a (x + 1) y)) .& lane a (x + 2) y)).

(** The round constants: bit [2^j - 1] of constant [ir] is the output bit
    [rc(j + 7 ir)] of the LFSR with polynomial x^8 + x^6 + x^5 + x^4 + 1. *)
Definition lfsr_step (r : Z) : Z :=
  let r := r << 1 in if Z.testbit r 8 then r .^ 0x171 else r.
Fixpoint lfsr (t : nat) (r : Z) : Z :=
  match t with O => r | S t => lfsr t (lfsr_step r) end.
Definition rc (t : nat) : bool := Z.testbit (lfsr (t mod 255) 1) 0.
Definition round_constant (ir : nat) : Z :=
  fold_left (fun k j => if rc (j + 7 * ir) then k .| (1 << (2 ^ Z.of_nat j - 1)) else k)
    (seq 0 7) 0.

Definition iota (ir : nat) (a : list Z) : list Z :=
  upd 0 (nth 0 a 0 .^ round_constant ir) a.

Definition Rnd (a : list Z) (ir : nat) : list Z := iota ir (chi (pi (rho (theta a)))).
Definition keccak_f (a : list Z) : list Z := fold_left Rnd (seq 0 24) a.

(** ** Renaming lemmas *)

Lemma length_gather p a : length (gather p a) = length p.
Proof. apply length_map. Qed.

Lemma length_scatter p v a : length (scatter p v a) = length a.
Proof.
  revert v; induction p as [|i p IH]; intros [|x v]; cbn; try reflexivity.
  rewrite length_upd. apply IH.
Qed.

Lemma gather_upd_notin p i x a : ~ In i p -> gather p (upd i x a) = gather p a.
Proof.
  intros H. apply map_ext_in. intros j Hj. apply nth_upd_ne. intros ->. contradiction.
Qed.

(** Writing distinct variables and reading them back. *)
Lemma gather_scatter p v a :
  NoDup p -> Forall (fun i => (i < length a)%nat) p -> length v = length p ->
  gather p (scatter p v a) = v.
Proof.
  intros Hnd. revert v. induction Hnd as [|i p Hi Hnd IH]; intros v Hr Hl;
    destruct v as [|x v]; cbn in Hl; try lia; [reflexivity|].
  inversion Hr; subst. cbn [scatter gather map]. f_equal.
  - apply nth_upd_eq. now rewrite length_scatter.
  - change (gather p (upd i x (scatter p v a)) = v).
    rewrite gather_upd_notin by assumption. apply IH; auto.
Qed.

(** A permutation of the lane indices. *)
Definition lane_perm (p : list nat) : bool :=
  (length p =? 25)%nat && forallb (fun i => i <? 25)%nat p &&
  forallb (fun i => existsb (Nat.eqb i) p) (seq 0 25).

Lemma lane_perm_spec p :
  lane_perm p = true ->
  length p = 25%nat /\ Forall (fun i => (i < 25)%nat) p /\ NoDup p.
Proof.
  unfold lane_perm. rewrite !andb_true_iff, Nat.eqb_eq, !forallb_forall.
  intros [[Hl Hr] Hs]. split; [assumption|]. split.
  - apply Forall_forall. intros i Hi. now apply Nat.ltb_lt, Hr.
  - apply NoDup_incl_NoDup with (l := seq 0 25).
    + apply seq_NoDup.
    + rewrite length_seq. lia.
    + intros i Hi. specialize (Hs i Hi). apply existsb_exists in Hs.
      destruct Hs as (j & Hj & E). apply Nat.eqb_eq in E. now subst.
Qed.

Lemma P_perm r : (r < 24)%nat -> lane_perm (P r) = true.
Proof.
  intros H.
  assert (K : forallb (fun r => lane_perm (P r)) (seq 0 24) = true) by (vm_compute; reflexivity).
  rewrite forallb_forall in K. apply K, in_seq. lia.
Qed.

Lemma gather_in_place r f a :
  (r < 24)%nat -> length a = 25%nat -> length (f (gather (P r) a)) = 25%nat ->
  gather (P r) (in_place (P r) f a) = f (gather (P r) a).
Proof.
  intros Hr Ha Hf. destruct (lane_perm_spec _ (P_perm r Hr)) as (Hl & Hlt & Hnd).
  apply gather_scatter; [assumption | now rewrite Ha | lia].
Qed.

Lemma length_in_place p f a : length (in_place p f a) = length a.
Proof. apply length_scatter. Qed.

(** One round renames by the same permutation, pi, whatever its number. *)
Definition pi_view : list nat :=
  [0; 15; 5; 20; 10; 6; 21; 11; 1; 16; 12; 2; 17; 7; 22; 18; 8; 23; 13; 3; 24; 14; 4; 19; 9]%nat.

Lemma P_succ r :
  (r < 24)%nat -> P (S r mod 24) = map (fun i => nth i (P r) 0%nat) pi_view.
Proof.
  intros H.
  assert (K : Forall (fun r => P (S r mod 24) = map (fun i => nth i (P r) 0%nat) pi_view) (seq 0 24))
    by (repeat constructor).
  rewrite Forall_forall in K. apply K, in_seq. lia.
Qed.

Lemma gather_P_succ r a :
  (r < 24)%nat -> gather (P (S r mod 24)) a = gather pi_view (gather (P r) a).
Proof.
  intros H. rewrite P_succ by assumption. unfold gather. rewrite map_map.
  destruct (lane_perm_spec _ (P_perm r H)) as (Hl & _ & _).
  apply map_ext_in. intros i Hi.
  assert (Hi25 : (i < 25)%nat).
  { assert (K : Forall (fun i => (i < 25)%nat) pi_view) by (repeat constructor).
    rewrite Forall_forall in K. now apply K. }
  rewrite (nth_indep (map (fun i => nth i a 0) (P r)) 0 (nth 0%nat a 0)) by (rewrite length_map; lia).
  now rewrite (map_nth (fun i => nth i a 0)).
Qed.

(** ** The rounds of the code on the list of lane values in the order of [P0] *)

Definition round_view (k : Z) (v : list Z) : list Z :=
  let v := KHI (gather pi_view (RHO (THETA v))) in
  upd 0 (nth 0 v 0 .^ k) v.

Ltac explode l :=
  repeat (let x := fresh "x" in destruct l as [|x l]; [discriminate|]);
  destruct l; [|discriminate].

Lemma length_THETA v : length v = 25%nat -> length (THETA v) = 25%nat.
Proof. intros H. explode v. reflexivity. Qed.
Lemma length_RHO v : length v = 25%nat -> length (RHO v) = 25%nat.
Proof. intros H. explode v. reflexivity. Qed.
Lemma length_KHI v : length v = 25%nat -> length (KHI v) = 25%nat.
Proof. intros H. explode v. reflexivity. Qed.

Lemma gather_IOTA r k a :
  (r < 24)%nat -> length a = 25%nat ->
  gather (P r) (IOTA k a) = upd 0 (nth 0 (gather (P r) a) 0 .^ k) (gather (P r) a).
Proof.
  intros Hr Ha. destruct (lane_perm_spec _ (P_perm r Hr)) as (_ & _ & Hnd).
  assert (Hhd : exists p, P r = 0%nat :: p).
  { assert (K : Forall (fun r => exists p, P r = 0%nat :: p) (seq 0 24))
      by (repeat constructor; eexists; reflexivity).
    rewrite Forall_forall in K. apply K, in_seq. lia. }
  destruct Hhd as (p & E). rewrite E in *. inversion Hnd; subst.
  unfold IOTA, XOR64, a00.
  change (gather (0%nat :: p) a) with (nth 0 a 0 :: gather p a).
  cbn [nth]. change (upd 0 ?x (_ :: ?l)) with (x :: l).
  rewrite <- (gather_upd_notin p 0 (nth 0 a 0 .^ k)) by assumption.
  cbn [gather map]. now rewrite nth_upd_eq by lia.
Qed.

Lemma length_KF_ELT r s k a : length (KF_ELT r s k a) = length a.
Proof. unfold KF_ELT, IOTA. now rewrite length_upd, !length_in_place. Qed.

(** [KF_ELT(r, r + 1, k)] is a round on the renamed lanes. *)
Lemma gather_KF_ELT r s k a :
  (r < 24)%nat -> s = (S r mod 24)%nat -> length a = 25%nat ->
  gather (P s) (KF_ELT r s k a) = round_view k (gather (P r) a).
Proof.
  intros Hr -> Ha. assert (Hs : (S r mod 24 < 24)%nat) by (apply Nat.mod_upper_bound; lia).
  assert (Hg : forall r, (r < 24)%nat -> forall a, length (gather (P r) a) = 25%nat).
  { intros q Hq b. rewrite length_gather. now destruct (lane_perm_spec _ (P_perm q Hq)). }
  assert (HT : length (THETA (gather (P r) a)) = 25%nat) by auto using length_THETA.
  unfold KF_ELT. rewrite gather_IOTA by (rewrite ?length_in_place; assumption).
  rewrite gather_in_place by (rewrite ?length_in_place; auto using length_KHI).
  rewrite gather_P_succ by assumption.
  rewrite !gather_in_place;
    rewrite ?gather_in_place; rewrite ?length_in_place; auto using length_RHO.
Qed.

(** The moves bring every lane back to its place. *)
Lemma moves_to_P0 a :
  length a = 25%nat ->
  gather P0 (P1_TO_P0 a) = gather (P 1) a /\ gather P0 (P2_TO_P0 a) = gather (P 2) a /\
  gather P0 (P4_TO_P0 a) = gather (P 4) a /\ gather P0 (P6_TO_P0 a) = gather (P 6) a /\
  gather P0 (P8_TO_P0 a) = gather (P 8) a /\ gather P0 (P12_TO_P0 a) = gather (P 12) a.
Proof. intros H. explode a. repeat split. Qed.

Lemma length_moves l a : length a = 25%nat -> length (moves l a) = 25%nat.
Proof.
  intros Ha. unfold moves. rewrite length_firstn.
  assert (H : forall b, length (fold_left MOV64 l b) = length b).
  { induction l as [|m l IH]; intros b; [reflexivity|].
    cbn. rewrite IH. apply length_upd. }
  now rewrite H, length_app, Ha.
Qed.

(** The lane order of [P0] determines the state. *)
Lemma gather_P0_inj a b :
  length a = 25%nat -> length b = 25%nat -> gather P0 a = gather P0 b -> a = b.
Proof. intros Ha Hb. explode a. explode b. cbn. congruence. Qed.

Definition rounds_view (ks : list Z) (v : list Z) : list Z :=
  fold_left (fun v k => round_view k v) ks v.

(** A run of consecutive [KF_ELT]s, over any round step [K]. *)
Fixpoint step_run (K : nat -> nat -> Z -> list Z -> list Z) (r : nat) (ks : list Z) (a : list Z)
  : list Z :=
  match ks with
  | [] => a
  | k :: ks => step_run K (S r) ks (K r (S r) k a)
  end.
Abbreviation KF_run := (step_run KF_ELT).

Lemma length_KF_run r ks a : length (KF_run r ks a) = length a.
Proof.
  revert r a; induction ks as [|k ks IH]; intros r a; [reflexivity|].
  cbn [step_run]. now rewrite IH, length_KF_ELT.
Qed.

Lemma gather_KF_run r ks a :
  (r + length ks < 24)%nat -> length a = 25%nat ->
  gather (P (r + length ks)) (KF_run r ks a) = rounds_view ks (gather (P r) a).
Proof.
  revert r a; induction ks as [|k ks IH]; intros r a Hr Ha; cbn [length step_run] in *.
  - now rewrite Nat.add_0_r.
  - rewrite <- Nat.add_succ_comm, IH; [|lia|now rewrite length_KF_ELT].
    cbn [rounds_view fold_left]. rewrite (gather_KF_ELT r) by (lia || now rewrite ?Nat.mod_small by lia).
    reflexivity.
Qed.

(** A loop of unrolled runs is one sequence of rounds. *)
Lemma unrolled_loop u back js a :
  (u < 24)%nat -> length a = 25%nat ->
  (forall b, length b = 25%nat -> gather P0 (back b) = gather (P u) b /\ length (back b) = 25%nat) ->
  Forall (fun j => length (firstn u (skipn j RC)) = u) js ->
  let a' := fold_left (fun a j => back (KF_run 0 (firstn u (skipn j RC)) a)) js a in
  gather P0 a' = rounds_view (flat_map (fun j => firstn u (skipn j RC)) js) (gather P0 a) /\
  length a' = 25%nat.
Proof.
  intros Hu Ha Hback Hjs. revert a Ha.
  induction Hjs as [|j js Hj Hjs IH]; intros a Ha; [now split|].
  set (ks := firstn u (skipn j RC)) in *.
  assert (Hrun : length (KF_run 0 ks a) = 25%nat) by now rewrite length_KF_run.
  destruct (Hback _ Hrun) as [Hg Hl], (IH (back (KF_run 0 ks a)) Hl) as [IH1 IH2].
  cbn [fold_left flat_map]. fold ks. split; [|exact IH2].
  rewrite IH1, Hg. unfold rounds_view. rewrite fold_left_app. f_equal.
  pose proof (gather_KF_run 0 ks a) as K. rewrite Hj in K. apply K; lia || assumption.
Qed.

Lemma unrolled_loop_RC u back js a :
  (u < 24)%nat -> length a = 25%nat ->
  (forall b, length b = 25%nat -> gather P0 (back b) = gather (P u) b /\ length (back b) = 25%nat) ->
  Forall (fun j => length (firstn u (skipn j RC)) = u) js ->
  flat_map (fun j => firstn u (skipn j RC)) js = RC ->
  let a' := fold_left (fun a j => back (KF_run 0 (firstn u (skipn j RC)) a)) js a in
  gather P0 a' = rounds_view RC (gather P0 a) /\ length a' = 25%nat.
Proof.
  intros Hu Ha Hback Hjs E a'.
  destruct (unrolled_loop u back js a Hu Ha Hback Hjs) as [H1 H2]. rewrite E in H1.
  exact (conj H1 H2).
Qed.

(** The unrolled loops as loops of runs, over any round step and any final moves. *)
Lemma unrolled_bodies (K : nat -> nat -> Z -> list Z -> list Z) (back : list Z -> list Z) a :
(let a := K 0%nat 1%nat (nth 0 RC 0) a in
  let a := K 1%nat 2%nat (nth 1 RC 0) a in
  let a := K 2%nat 3%nat (nth 2 RC 0) a in
  let a := K 3%nat 4%nat (nth 3 RC 0) a in
  let a := K 4%nat 5%nat (nth 4 RC 0) a in
  let a := K 5%nat 6%nat (nth 5 RC 0) a in
  let a := K 6%nat 7%nat (nth 6 RC 0) a in
  let a := K 7%nat 8%nat (nth 7 RC 0) a in
  let a := K 8%nat 9%nat (nth 8 RC 0) a in
  let a := K 9%nat 10%nat (nth 9 RC 0) a in
  let a := K 10%nat 11%nat (nth 10 RC 0) a in
  let a := K 11%nat 12%nat (nth 11 RC 0) a in
  let a := K 12%nat 13%nat (nth 12 RC 0) a in
  let a := K 13%nat 14%nat (nth 13 RC 0) a in
  let a := K 14%nat 15%nat (nth 14 RC 0) a in
  let a := K 15%nat 16%nat (nth 15 RC 0) a in
  let a := K 16%nat 17%nat (nth 16 RC 0) a in
  let a := K 17%nat 18%nat (nth 17 RC 0) a in
  let a := K 18%nat 19%nat (nth 18 RC 0) a in
  let a := K 19%nat 20%nat (nth 19 RC 0) a in
  let a := K 20%nat 21%nat (nth 20 RC 0) a in
  let a := K 21%nat 22%nat (nth 21 RC 0) a in
  let a := K 22%nat 23%nat (nth 22 RC 0) a in
  let a := K 23%nat 0%nat (nth 23 RC 0) a in
  a)
    = K 23%nat 0%nat (nth 23 RC 0) (step_run K 0 (firstn 23 RC) a) /\
  fold_left (fun a j =>
    let a := K 0%nat 1%nat (nth (j + 0) RC 0) a in
    back a) [0; 1; 2; 3; 4; 5; 6; 7; 8; 9; 10; 11; 12; 13; 14; 15; 16; 17; 18; 19; 20; 21; 22; 23]%nat a
    = fold_left (fun a j => back (step_run K 0 (firstn 1 (skipn j RC)) a)) [0; 1; 2; 3; 4; 5; 6; 7; 8; 9; 10; 11; 12; 13; 14; 15; 16; 17; 18; 19; 20; 21; 22; 23]%nat a /\
  fold_left (fun a j =>
    let a := K 0%nat 1%nat (nth (j + 0) RC 0) a in
    let a := K 1%nat 2%nat (nth (j + 1) RC 0) a in
    back a) [0; 2; 4; 6; 8; 10; 12; 14; 16; 18; 20; 22]%nat a
    = fold_left (fun a j => back (step_run K 0 (firstn 2 (skipn j RC)) a)) [0; 2; 4; 6; 8; 10; 12; 14; 16; 18; 20; 22]%nat a /\
  fold_left (fun a j =>
    let a := K 0%nat 1%nat (nth (j + 0) RC 0) a in
    let a := K 1%nat 2%nat (nth (j + 1) RC 0) a in
    let a := K 2%nat 3%nat (nth (j + 2) RC 0) a in
    let a := K 3%nat 4%nat (nth (j + 3) RC 0) a in
    back a) [0; 4; 8; 12; 16; 20]%nat a
    = fold_left (fun a j => back (step_run K 0 (firstn 4 (skipn j RC)) a)) [0; 4; 8; 12; 16; 20]%nat a /\
  fold_left (fun a j =>
    let a := K 0%nat 1%nat (nth (j + 0) RC 0) a in
    let a := K 1%nat 2%nat (nth (j + 1) RC 0) a in
    let a := K 2%nat 3%nat (nth (j + 2) RC 0) a in
    let a := K 3%nat 4%nat (nth (j + 3) RC 0) a in
    let a := K 4%nat 5%nat (nth (j + 4) RC 0) a in
    let a := K 5%nat 6%nat (nth (j + 5) RC 0) a in
    back a) [0; 6; 12; 18]%nat a
    = fold_left (fun a j => back (step_run K 0 (firstn 6 (skipn j RC)) a)) [0; 6; 12; 18]%nat a /\
  fold_left (fun a j =>
    let a := K 0%nat 1%nat (nth (j + 0) RC 0) a in
    let a := K 1%nat 2%nat (nth (j + 1) RC 0) a in
    let a := K 2%nat 3%nat (nth (j + 2) RC 0) a in
    let a := K 3%nat 4%nat (nth (j + 3) RC 0) a in
    let a := K 4%nat 5%nat (nth (j + 4) RC 0) a in
    let a := K 5%nat 6%nat (nth (j + 5) RC 0) a in
    let a := K 6%nat 7%nat (nth (j + 6) RC 0) a in
    let a := K 7%nat 8%nat (nth (j + 7) RC 0) a in
    back a) [0; 8; 16]%nat a
    = fold_left (fun a j => back (step_run K 0 (firstn 8 (skipn j RC)) a)) [0; 8; 16]%nat a /\
  fold_left (fun a j =>
    let a := K 0%nat 1%nat (nth (j + 0) RC 0) a in
    let a := K 1%nat 2%nat (nth (j + 1) RC 0) a in
    let a := K 2%nat 3%nat (nth (j + 2) RC 0) a in
    let a := K 3%nat 4%nat (nth (j + 3) RC 0) a in
    let a := K 4%nat 5%nat (nth (j + 4) RC 0) a in
    let a := K 5%nat 6%nat (nth (j + 5) RC 0) a in
    let a := K 6%nat 7%nat (nth (j + 6) RC 0) a in
    let a := K 7%nat 8%nat (nth (j + 7) RC 0) a in
    let a := K 8%nat 9%nat (nth (j + 8) RC 0) a in
    let a := K 9%nat 10%nat (nth (j + 9) RC 0) a in
    let a := K 10%nat 11%nat (nth (j + 10) RC 0) a in
    let a := K 11%nat 12%nat (nth (j + 11) RC 0) a in
    back a) [0; 12]%nat a
    = fold_left (fun a j => back (step_run K 0 (firstn 12 (skipn j RC)) a)) [0; 12]%nat a.
Proof. repeat split. Qed.

(** Every unrolling factor of the code runs the 24 rounds in order. *)
Lemma KECCAK_F_1600_rounds f a :
  In f [KECCAK_F_1600_unroll0; KECCAK_F_1600_unroll1; KECCAK_F_1600_unroll2; KECCAK_F_1600_unroll4;
        KECCAK_F_1600_unroll6; KECCAK_F_1600_unroll8; KECCAK_F_1600_unroll12] ->
  length a = 25%nat ->
  gather P0 (f a) = rounds_view RC (gather P0 a) /\ length (f a) = 25%nat.
Proof.
  intros Hf Ha. destruct Hf as [<-|Hf].
  - rewrite (proj1 (unrolled_bodies KF_ELT id a) : KECCAK_F_1600_unroll0 a = _).
    rewrite length_KF_ELT, length_KF_run. split; [|assumption].
    rewrite (gather_KF_ELT 23 0) by (lia || reflexivity || now rewrite length_KF_run).
    rewrite (gather_KF_run 0 (firstn 23 RC)) by (cbn; lia || assumption). reflexivity.
  - assert (Hback : forall u l, In (u, l) [(1, P1_TO_P0); (2, P2_TO_P0); (4, P4_TO_P0); (6, P6_TO_P0);
              (8, P8_TO_P0); (12, P12_TO_P0)]%nat ->
            forall b, length b = 25%nat -> gather P0 (l b) = gather (P u) b /\ length (l b) = 25%nat).
    { intros u l Hin b Hb. destruct (moves_to_P0 b Hb) as (?&?&?&?&?&?).
      repeat (destruct Hin as [[= <- <-]|Hin]; [split; [assumption | now apply length_moves]|]).
      contradiction. }
    destruct Hf as [<-|[<-|[<-|[<-|[<-|[<-|[]]]]]]].
    + destruct (unrolled_bodies KF_ELT P1_TO_P0 a) as (_ & E & _).
      rewrite (E : KECCAK_F_1600_unroll1 a = _).
      apply (unrolled_loop_RC 1 P1_TO_P0);
        [lia | assumption | apply Hback; cbn; tauto | repeat constructor | reflexivity].
    + destruct (unrolled_bodies KF_ELT P2_TO_P0 a) as (_ & _ & E & _).
      rewrite (E : KECCAK_F_1600_unroll2 a = _).
      apply (unrolled_loop_RC 2 P2_TO_P0);
        [lia | assumption | apply Hback; cbn; tauto | repeat constructor | reflexivity].
    + destruct (unrolled_bodies KF_ELT P4_TO_P0 a) as (_ & _ & _ & E & _).
      rewrite (E : KECCAK_F_1600_unroll4 a = _).
      apply (unrolled_loop_RC 4 P4_TO_P0);
        [lia | assumption | apply Hback; cbn; tauto | repeat constructor | reflexivity].
    + destruct (unrolled_bodies KF_ELT P6_TO_P0 a) as (_ & _ & _ & _ & E & _).
      rewrite (E : KECCAK_F_1600_unroll6 a = _).
      apply (unrolled_loop_RC 6 P6_TO_P0);
        [lia | assumption | apply Hback; cbn; tauto | repeat constructor | reflexivity].
    + destruct (unrolled_bodies KF_ELT P8_TO_P0 a) as (_ & _ & _ & _ & _ & E & _).
      rewrite (E : KECCAK_F_1600_unroll8 a = _).
      apply (unrolled_loop_RC 8 P8_TO_P0);
        [lia | assumption | apply Hback; cbn; tauto | repeat constructor | reflexivity].
    + destruct (unrolled_bodies KF_ELT P12_TO_P0 a) as (_ & _ & _ & _ & _ & _ & E).
      rewrite (E : KECCAK_F_1600_unroll12 a = _).
      apply (unrolled_loop_RC 12 P12_TO_P0);
        [lia | assumption | apply Hback; cbn; tauto | repeat constructor | reflexivity].
Qed.

(** ** The code on whole states is theta, rho, pi and a complemented chi *)

Definition wf_lanes (a : list Z) : Prop := length a = 25%nat /\ Forall u64 a.

Ltac explode_lanes :=
  match goal with
  | H : wf_lanes ?a |- _ =>
      let Hl := fresh in let Hu := fresh in
      destruct H as [Hl Hu]; explode a; clear Hl; forall_inv
  end.

(** Equality of two exclusive ors of the same words. *)
Ltac xor_bits := apply Z.bits_inj'; intros ?i _; rewrite !Z.lxor_spec; btauto.

Lemma TH_ELT_spec c0 c1 c2 c3 c4 d0 d1 d2 d3 d4 :
  TH_ELT c0 c1 c2 c3 c4 d0 d1 d2 d3 d4
  = (c0 .^ c1 .^ c2 .^ c3 .^ c4) .^ SPH_ROTL64 (d0 .^ d1 .^ d2 .^ d3 .^ d4) 1.
Proof.
  unfold TH_ELT, XOR64, ROL64.
  replace (d0 .^ d1 .^ d4 .^ (d2 .^ d3)) with (d0 .^ d1 .^ d2 .^ d3 .^ d4) by xor_bits.
  xor_bits.
Qed.

Lemma THETA_theta a : length a = 25%nat -> THETA (gather P0 a) = gather P0 (theta a).
Proof. intros H. explode a. cbn -[TH_ELT]. now rewrite !TH_ELT_spec. Qed.

Lemma SPH_ROTL64_0 x : u64 x -> SPH_ROTL64 x 0 = x.
Proof.
  intros Hx. apply (word_ext 64); auto with words. intros i Hi.
  rewrite SPH_ROTL64_testbit by auto with words. now rewrite Z.sub_0_r, Z.mod_small by lia.
Qed.

Lemma RHO_rho a : wf_lanes a -> RHO (gather P0 a) = gather P0 (rho a).
Proof.
  intros H. explode_lanes.
  unfold rho. replace rho_offsets with
    [0; 1; 62; 28; 27; 36; 44; 6; 55; 20; 3; 10; 43; 25; 39; 41; 45; 15; 21; 8; 18; 2; 61; 56; 14]%nat
    by reflexivity.
  cbn -[SPH_ROTL64]. unfold ROL64. rewrite SPH_ROTL64_0 by assumption. reflexivity.
Qed.

Lemma pi_view_pi a : length a = 25%nat -> gather pi_view (gather P0 a) = gather P0 (pi a).
Proof. intros H. explode a. reflexivity. Qed.

Lemma length_lanes f : length (lanes f) = 25%nat.
Proof. unfold lanes. now rewrite length_map, length_seq. Qed.

Lemma u64_lane a x y : Forall u64 a -> u64 (lane a x y).
Proof. apply Forall_nth_default. apply word_0. lia. Qed.

Lemma wf_lanes_intro f : (forall x y, u64 (f x y)) -> wf_lanes (lanes f).
Proof.
  intros H. split; [apply length_lanes|]. apply Forall_forall. intros z Hz.
  apply in_map_iff in Hz. destruct Hz as (i & <- & _). apply H.
Qed.

Lemma wf_theta a : wf_lanes a -> wf_lanes (theta a).
Proof.
  intros [_ H]. apply wf_lanes_intro. intros x y. unfold theta_D, theta_C.
  auto 10 using u64_lane with words.
Qed.
Lemma wf_rho a : wf_lanes (rho a).
Proof. apply wf_lanes_intro. auto with words. Qed.
Lemma wf_pi a : wf_lanes a -> wf_lanes (pi a).
Proof. intros [_ H]. apply wf_lanes_intro. auto using u64_lane. Qed.
Lemma wf_chi a : wf_lanes a -> wf_lanes (chi a).
Proof. intros [_ H]. apply wf_lanes_intro. auto 10 using u64_lane with words. Qed.

(** ** Lane complement *)

(** Complement the lanes selected by [m]. *)
Definition masked (m : list bool) (a : list Z) : list Z :=
  map (fun bx : bool * Z => if fst bx then snd bx .^ ones64 else snd bx) (combine m a).

(** The masks before theta, after theta and after pi, by lane index [x + 5 y]. *)
Definition mask (l : list nat) : list bool := map (fun i => existsb (Nat.eqb i) l) (seq 0 25).
Definition m0 : list bool := mask [1; 2; 8; 12; 17; 20]%nat.
Definition m1 : list bool := mask [a00; a01; a02; a03; a10; a20; a22; a23; a30; a32; a33; a34].
Definition m2 : list bool := mask [a00; a01; a02; a04; a13; a20; a21; a22; a30; a33; a34; a43].

Lemma u64_ones64 : u64 ones64.
Proof. split; [discriminate | reflexivity]. Qed.
#[local] Hint Resolve u64_ones64 : words.

Lemma T64_lnot x : u64 x -> SPH_T64 (Z.lnot x) = x .^ ones64.
Proof.
  intros Hx. apply (word_ext 64); auto with words. intros i Hi.
  rewrite SPH_T64_testbit, Z.lxor_spec, Z.lnot_spec by lia.
  unfold ones64. change 0xFFFFFFFFFFFFFFFF with (Z.ones 64).
  rewrite Z.ones_spec_low by lia. now destruct (Z.testbit x i).
Qed.

Lemma wf_masked m a : length m = 25%nat -> wf_lanes a -> wf_lanes (masked m a).
Proof.
  intros Hm [Ha Hu]. split; [unfold masked; now rewrite length_map, length_combine, Hm, Ha|].
  apply Forall_forall. intros z Hz. apply in_map_iff in Hz. destruct Hz as ([b x] & <- & Hx).
  apply in_combine_r in Hx. rewrite Forall_forall in Hu.
  destruct b; cbn; auto with words.
Qed.

Lemma complement_masked a : wf_lanes a -> complement_lanes a = masked m0 a.
Proof. intros H. explode_lanes. cbn -[ones64]. now rewrite !T64_lnot by assumption. Qed.

Lemma theta_masked a : wf_lanes a -> theta (masked m0 a) = masked m1 (theta a).
Proof.
  intros H. explode_lanes.
  cbn -[SPH_ROTL64 ones64]. unfold theta_D, theta_C, lane. cbn -[SPH_ROTL64 ones64].
  rewrite !SPH_ROTL64_lxor by auto 10 with words.
  change (SPH_ROTL64 ones64 1) with ones64.
  repeat match goal with |- _ :: _ = _ :: _ => f_equal end; xor_bits.
Qed.

Lemma ROTL64_ones n : 0 <= n <= 64 -> SPH_ROTL64 ones64 n = ones64.
Proof.
  intros Hn. apply (word_ext 64); auto with words. intros i Hi.
  rewrite SPH_ROTL64_testbit by auto with words.
  pose proof (Z.mod_pos_bound (i - n) 64 eq_refl).
  change ones64 with (Z.ones 64). now rewrite !Z.ones_spec_low by lia.
Qed.

Lemma rho_masked a : wf_lanes a -> rho (masked m1 a) = masked m1 (rho a).
Proof.
  intros H. explode_lanes.
  unfold rho. replace rho_offsets with
    [0; 1; 62; 28; 27; 36; 44; 6; 55; 20; 3; 10; 43; 25; 39; 41; 45; 15; 21; 8; 18; 2; 61; 56; 14]%nat
    by reflexivity.
  cbn -[SPH_ROTL64 ones64]. rewrite !SPH_ROTL64_lxor by auto with words.
  now rewrite !ROTL64_ones by lia.
Qed.

Lemma pi_masked a : length a = 25%nat -> pi (masked m1 a) = masked m2 (pi a).
Proof. intros H. explode a. reflexivity. Qed.

(** The complemented chi, lane by lane and bit by bit. *)
Lemma KHI_masked a : wf_lanes a -> KHI (gather P0 (masked m2 a)) = gather P0 (masked m0 (chi a)).
Proof.
  intros H. explode_lanes.
  cbn -[SPH_T64 ones64 Z.lnot]. unfold KHI_XO, KHI_XA, XOR64, AND64, OR64, NOT64.
  rewrite !T64_lnot by auto with words.
  repeat match goal with |- _ :: _ = _ :: _ => f_equal end;
    apply (word_ext 64); auto 10 with words; intros i Hi;
    rewrite ?Z.lxor_spec, ?Z.lor_spec, ?Z.land_spec, ?Z.lxor_spec;
    change ones64 with (Z.ones 64); rewrite !Z.ones_spec_low by lia; btauto.
Qed.

Lemma wf_RC : Forall u64 RC.
Proof. repeat (constructor; [split; [discriminate | reflexivity]|]). constructor. Qed.

Lemma RC_round_constant ir : (ir < 24)%nat -> round_constant ir = nth ir RC 0.
Proof.
  intros H.
  assert (K : Forall (fun ir => round_constant ir = nth ir RC 0) (seq 0 24))
    by (repeat constructor).
  rewrite Forall_forall in K. apply K, in_seq. lia.
Qed.

Lemma wf_iota ir a : (ir < 24)%nat -> wf_lanes a -> wf_lanes (iota ir a).
Proof.
  intros Hir [Hl Hu]. unfold iota. split; [now rewrite length_upd|].
  apply Forall_upd; [|assumption].
  apply word_lxor; [lia | apply Forall_nth_default; auto with words |].
  rewrite RC_round_constant by assumption. apply Forall_nth_default; auto using wf_RC with words.
Qed.

Lemma wf_Rnd a ir : (ir < 24)%nat -> wf_lanes a -> wf_lanes (Rnd a ir).
Proof. intros Hir H. apply wf_iota; auto using wf_chi, wf_pi, wf_rho. Qed.

Lemma upd0_masked k a :
  length a = 25%nat ->
  upd 0 (nth 0 (gather P0 (masked m0 a)) 0 .^ k) (gather P0 (masked m0 a))
  = gather P0 (masked m0 (upd 0 (nth 0 a 0 .^ k) a)).
Proof. intros H. explode a. reflexivity. Qed.

(** A round of the code on complemented lanes is a round of the reference. *)
Lemma round_view_masked ir a :
  (ir < 24)%nat -> wf_lanes a ->
  round_view (nth ir RC 0) (gather P0 (masked m0 a)) = gather P0 (masked m0 (Rnd a ir)).
Proof.
  intros Hir H. pose proof (wf_theta a H) as Ht.
  assert (Hm : wf_lanes (masked m0 a)) by now apply wf_masked.
  unfold round_view, Rnd, iota. rewrite THETA_theta by apply Hm.
  rewrite theta_masked, RHO_rho, rho_masked by (assumption || now apply wf_masked).
  pose proof (wf_rho (theta a)) as Hr.
  rewrite pi_view_pi by (now apply (wf_masked m1)). rewrite pi_masked by apply Hr.
  pose proof (wf_pi _ Hr) as Hp.
  rewrite KHI_masked, RC_round_constant by assumption.
  apply upd0_masked. apply (wf_chi _ Hp).
Qed.

Lemma rounds_view_masked n a :
  (n <= 24)%nat -> wf_lanes a ->
  rounds_view (firstn n RC) (gather P0 (masked m0 a))
    = gather P0 (masked m0 (fold_left Rnd (seq 0 n) a)) /\
  wf_lanes (fold_left Rnd (seq 0 n) a).
Proof.
  intros Hn H. induction n as [|n IH]; [now split|].
  destruct IH as [IH1 IH2]; [lia|].
  assert (E : firstn (S n) RC = firstn n RC ++ [nth n RC 0]).
  { assert (K : Forall (fun n => firstn (S n) RC = firstn n RC ++ [nth n RC 0]) (seq 0 24))
      by (repeat constructor).
    rewrite Forall_forall in K. apply K, in_seq. lia. }
  rewrite E, seq_S. unfold rounds_view in *. rewrite !fold_left_app, IH1. cbn [fold_left].
  split; [now apply round_view_masked; [lia|]|]. apply wf_Rnd; [lia | assumption].
Qed.

Lemma masked_involutive a : wf_lanes a -> masked m0 (masked m0 a) = a.
Proof.
  intros H. explode_lanes. cbn -[ones64].
  now rewrite !Z.lxor_assoc, !Z.lxor_nilpotent, !Z.lxor_0_r.
Qed.

Definition unrollings : list (list Z -> list Z) :=
  [KECCAK_F_1600_unroll0; KECCAK_F_1600_unroll1; KECCAK_F_1600_unroll2; KECCAK_F_1600_unroll4;
   KECCAK_F_1600_unroll6; KECCAK_F_1600_unroll8; KECCAK_F_1600_unroll12].

Lemma KECCAK_F_1600_in : In KECCAK_F_1600 unrollings.
Proof. do 5 apply in_cons. apply in_eq. Qed.

Lemma wf_keccak_f a : wf_lanes a -> wf_lanes (keccak_f a).
Proof. intros H. now apply (rounds_view_masked 24). Qed.

Lemma keccak_f_complement f a :
  In f unrollings -> wf_lanes a -> f (masked m0 a) = masked m0 (keccak_f a).
Proof.
  intros Hf H. assert (Hm : wf_lanes (masked m0 a)) by now apply wf_masked.
  destruct (KECCAK_F_1600_rounds f _ Hf (proj1 Hm)) as [H1 H2].
  destruct (rounds_view_masked 24 a (le_n _) H) as [H3 H4].
  apply gather_P0_inj; [assumption | now apply (wf_masked m0) |].
  rewrite H1. exact H3.
Qed.

(** ** The sponge *)

(** The message padded to whole blocks: a one bit, zeros, a one bit. *)
Definition pad10_1 (lim : nat) (m : list Z) : list Z :=
  let q := (lim - length m mod lim)%nat in
  m ++ (if (q =? 1)%nat then [0x81] else [0x01] ++ repeat 0 (q - 2) ++ [0x80]).

(** Reference: absorb the blocks of the padded message into the zero state with
    Keccak-f, and return the first [d] bytes of the state. *)
Definition keccak_spec (d lim : nat) (m : list Z) : list Z :=
  let p := pad10_1 lim m in
  let a := absorb lim (fun b a => keccak_f (INPUT_BUF b a)) (length p / lim) p (repeat 0 25) in
  firstn d (flat_map sph_enc64le a).

(** The parameters of the four functions. *)
Definition keccak_params (d lim : nat) : Prop :=
  In (d, lim) [(28, 144); (32, 136); (48, 104); (64, 72)]%nat.

Lemma wf_INPUT_BUF b a : Forall byte b -> wf_lanes a -> wf_lanes (INPUT_BUF b a).
Proof.
  intros Hb. unfold INPUT_BUF. generalize (seq 0 (length b / 8)) as js.
  intros js. revert a. induction js as [|j js IH]; intros a [Hl Hu]; [now split|].
  cbn [fold_left]. apply IH. split; [now rewrite length_upd|].
  apply Forall_upd; [|assumption]. apply word_lxor; [lia | |].
  - apply Forall_nth_default; auto with words.
  - apply u64_sph_dec64le. now apply Forall_firstn_skipn.
Qed.

Lemma masked_upd m j x a :
  (j < 25)%nat -> length m = 25%nat -> length a = 25%nat ->
  masked m (upd j (nth j a 0 .^ x) a) = upd j (nth j (masked m a) 0 .^ x) (masked m a).
Proof.
  intros Hj Hm Ha. unfold masked.
  assert (E : length m = length a) by lia. clear Hm. revert j Hj.
  assert (K : forall (m : list bool) (a : list Z) j, length m = length a -> (j < length a)%nat ->
    map (fun bx : bool * Z => if fst bx then snd bx .^ ones64 else snd bx)
      (combine m (upd j (nth j a 0 .^ x) a))
    = let r := map (fun bx : bool * Z => if fst bx then snd bx .^ ones64 else snd bx) (combine m a) in
      upd j (nth j r 0 .^ x) r).
  { clear. induction m as [|b m IH]; intros [|z a] j E Hj; cbn in E, Hj; try lia.
    destruct j as [|j]; cbn [upd nth combine map fst snd].
    - f_equal. destruct b; [|reflexivity]. rewrite !Z.lxor_assoc. f_equal. apply Z.lxor_comm.
    - f_equal. apply IH; lia. }
  intros j Hj. apply K; lia.
Qed.

Lemma INPUT_BUF_masked b a :
  (length b / 8 <= 25)%nat -> length a = 25%nat -> INPUT_BUF b (masked m0 a) = masked m0 (INPUT_BUF b a).
Proof.
  intros Hb Ha. unfold INPUT_BUF.
  assert (Hjs : Forall (fun j => (j < 25)%nat) (seq 0 (length b / 8)))
    by (apply Forall_forall; intros j Hj; apply in_seq in Hj; lia).
  revert Hjs a Ha. generalize (seq 0 (length b / 8)). induction 1 as [|j js Hj Hjs IH];
    intros a Ha; [reflexivity|].
  cbn [fold_left]. rewrite <- masked_upd by (reflexivity || assumption).
  apply IH. now rewrite length_upd.
Qed.

(** The state of a context that represents [a]: complemented lanes. *)
Definition represents (s : state) (a : list Z) : Prop := wide s = masked m0 a /\ wf_lanes a.

Lemma keccak_block_represents b s a :
  (length b <= 144)%nat -> Forall byte b -> represents s a ->
  represents (keccak_block b s) (keccak_f (INPUT_BUF b a)).
Proof.
  intros Hl Hb [Hw Ha]. unfold represents, keccak_block. cbn [wide].
  assert (Hi : wf_lanes (INPUT_BUF b a)) by now apply wf_INPUT_BUF.
  split; [|now apply wf_keccak_f].
  rewrite Hw, INPUT_BUF_masked by (try apply Ha; apply Nat.Div0.div_le_upper_bound; lia).
  exact (keccak_f_complement _ _ KECCAK_F_1600_in Hi).
Qed.

Lemma keccak_init_represents kc n : represents (st (keccak_init kc n)) (repeat 0 25).
Proof.
  split; [reflexivity|]. split; [reflexivity|]. repeat (constructor; [auto with words|]). constructor.
Qed.

Lemma keccak_padding_pad m lim :
  (1 < lim)%nat -> m ++ keccak_padding (length m mod lim) lim 0 0 = pad10_1 lim m.
Proof.
  intros Hlim. unfold keccak_padding, pad10_1. f_equal.
  assert (length m mod lim < lim)%nat by (apply Nat.mod_upper_bound; lia).
  destruct (Nat.eqb_spec (length m mod lim) (lim - 1)), (Nat.eqb_spec (lim - length m mod lim) 1);
    try lia; reflexivity.
Qed.

Lemma length_pad10_1 lim m :
  (1 < lim)%nat -> length (pad10_1 lim m) = (S (length m / lim) * lim)%nat.
Proof.
  intros Hlim. unfold pad10_1. rewrite length_app.
  assert (length m mod lim < lim)%nat by (apply Nat.mod_upper_bound; lia).
  pose proof (Nat.div_mod_eq (length m) lim).
  destruct (Nat.eqb_spec (lim - length m mod lim) 1); cbn [length app].
  - lia.
  - rewrite length_app, repeat_length. cbn. lia.
Qed.

Lemma bytes_pad10_1 lim m : Forall byte m -> Forall byte (pad10_1 lim m).
Proof.
  intros Hm. unfold pad10_1. apply Forall_app; split; [assumption|].
  assert (H80 : byte 0x80) by (split; [discriminate | reflexivity]).
  assert (H1 : byte 1) by (split; [discriminate | reflexivity]).
  destruct (_ =? 1)%nat.
  - constructor; [split; [discriminate | reflexivity] | constructor].
  - apply Forall_app; split; [now constructor|]. apply Forall_app; split; [|now constructor].
    apply Forall_forall. intros z Hz. apply repeat_spec in Hz. subst. auto with words.
Qed.

Lemma squeeze d lim a :
  keccak_params d lim -> length a = 25%nat ->
  firstn d (flat_map (fun j => sph_enc64le (nth j a 0)) (seq 0 ((d + 7) / 8)))
  = firstn d (flat_map sph_enc64le a).
Proof.
  intros Hp Ha. explode a.
  repeat (destruct Hp as [[= <- <-]|Hp]; [reflexivity|]). contradiction.
Qed.

(** Closing a context that absorbed [m] writes the digest of [m]. *)
Lemma keccak_close_absorbed d lim kc s0 m :
  keccak_params d lim -> represents s0 (repeat 0 25) -> Forall byte m ->
  absorbed lim keccak_block s0 m kc ->
  fst (keccak_close d lim kc 0 0) = keccak_spec d lim m.
Proof.
  intros Hp Hs0 Hm Habs.
  assert (Hlim : (1 < lim <= 144)%nat)
    by (repeat (destruct Hp as [[= <- <-]|Hp]; [lia|]); contradiction).
  unfold keccak_close, keccak_spec. cbn [fst]. unfold keccak_core.
  rewrite (absorbed_ptr _ _ _ _ _ Habs).
  set (pad := keccak_padding (length m mod lim) lim 0 0).
  assert (Habs' : absorbed lim keccak_block s0 (pad10_1 lim m) (core lim keccak_block kc pad)).
  { rewrite <- keccak_padding_pad by lia. apply core_absorbed; [lia | assumption]. }
  assert (Hrep : represents (st (core lim keccak_block kc pad))
    (absorb lim (fun b a => keccak_f (INPUT_BUF b a)) (length (pad10_1 lim m) / lim) (pad10_1 lim m) (repeat 0 25))).
  { rewrite (absorbed_st _ _ _ _ _ Habs').
    apply (absorb_rel _ (Forall byte)); auto using bytes_pad10_1, Forall_firstn_skipn.
    - intros b s1 s2 Hb Hq. apply keccak_block_represents; [lia | assumption].
    - rewrite length_pad10_1, Nat.div_mul by lia. lia. }
  destruct Hrep as [-> Hwf]. rewrite complement_masked, masked_involutive by (assumption || now apply wf_masked).
  apply (squeeze d lim); [assumption | apply Hwf].
Qed.

(** Any number of updates after an init. *)
Lemma keccak_updates_absorbed lim kc n pieces :
  (0 < lim <= length (buf kc))%nat ->
  absorbed lim keccak_block (st (keccak_init kc n)) (concat pieces)
    (fold_left (fun kc d => keccak_core kc d lim) pieces (keccak_init kc n)).
Proof.
  intros Hl. apply (fold_update_absorbed _ _ _ _ []); [intros; apply core_absorbed; [lia | assumption]|].
  apply absorbed_init; lia.
Qed.

(** ** Main results *)

(** Every unrolling factor of the code, on lanes 1, 2, 8, 12, 17 and 20
    complemented, is Keccak-f[1600] on the plain lanes. *)
Theorem keccak_f_correct f a :
  In f unrollings -> wf_lanes a ->
  f (complement_lanes a) = complement_lanes (keccak_f a).
Proof.
  intros Hf Ha. rewrite !complement_masked by auto using wf_keccak_f.
  now apply keccak_f_complement.
Qed.

Lemma keccak_f_correct_witness :
  wf_lanes (repeat 5 25) /\
  KECCAK_F_1600_unroll6 (complement_lanes (repeat 5 25)) = complement_lanes (keccak_f (repeat 5 25)).
Proof.
  assert (H : wf_lanes (repeat 5 25)).
  { split; [reflexivity|]. apply Forall_forall. intros z Hz. apply repeat_spec in Hz.
    subst. split; [discriminate | reflexivity]. }
  split; [exact H|]. apply keccak_f_correct; [|exact H].
  do 4 apply in_cons. apply in_eq.
Defined.

(** C36: The four hash functions: whatever the memory the context is placed in and
    however the message is cut into pieces, init, updates and close compute the
    sponge with Keccak-f on the padded message. *)
Theorem keccak_functions_correct d lim kc pieces :
  keccak_params d lim -> (144 <= length (buf kc))%nat -> Forall (Forall byte) pieces ->
  fst (keccak_close d lim
        (fold_left (fun kc data => keccak_core kc data lim) pieces (keccak_init kc (8 * d))) 0 0)
  = keccak_spec d lim (concat pieces).
Proof.
  intros Hp Hb Hpc.
  assert (Hlim : (0 < lim <= 144)%nat)
    by (clear - Hp; repeat (destruct Hp as [[= <- <-]|Hp]; [lia|]); contradiction).
  apply (keccak_close_absorbed _ _ _ (st (keccak_init kc (8 * d)))).
  - exact Hp.
  - apply keccak_init_represents.
  - now apply Forall_concat.
  - apply keccak_updates_absorbed. lia.
Qed.

Lemma keccak_functions_correct_witness :
  fst (keccak_close 64 72 (fold_left (fun kc data => keccak_core kc data 72) [[1; 2]; [3]]
        (keccak_init (mkContext (repeat 9 144) 5 (mkState [] 0)) (8 * 64))) 0 0)
  = keccak_spec 64 72 [1; 2; 3].
Proof.
  apply (keccak_functions_correct 64 72 _ [[1; 2]; [3]]).
  - do 3 right. now left.
  - apply Nat.leb_le. reflexivity.
  - repeat (constructor; [|]); repeat constructor; discriminate.
Defined.

(** ** The interface *)

Definition keccak512 : sph_hash :=
  mkHash sph_keccak_context (fun kc => length (buf kc) = 144%nat)
    sph_keccak512_init sph_keccak512 sph_keccak512_close.

Lemma length_keccak_f a : length a = 25%nat -> length (keccak_f a) = 25%nat.
Proof.
  intros Ha. unfold keccak_f. generalize (seq 0 24) as l. intros l. revert a Ha.
  induction l as [|ir l IH]; intros a Ha; [exact Ha|]. cbn [fold_left]. apply IH.
  unfold Rnd, iota. rewrite length_upd. apply length_lanes.
Qed.

Lemma length_INPUT_BUF b a : length (INPUT_BUF b a) = length a.
Proof.
  unfold INPUT_BUF. generalize (seq 0 (length b / 8)) as l. intros l. revert a.
  induction l as [|j l IH]; intros a; [reflexivity|]. cbn [fold_left].
  now rewrite IH, length_upd.
Qed.

Lemma length_keccak_spec m : length (keccak_spec 64 72 m) = 64%nat.
Proof.
  unfold keccak_spec. set (a := absorb _ _ _ _ _).
  assert (Ha : length a = 25%nat).
  { apply absorb_inv; [|reflexivity]. intros b s Hs. apply length_keccak_f.
    now rewrite length_INPUT_BUF. }
  clearbody a. explode a. reflexivity.
Qed.

Lemma bytes_keccak_spec m : Forall byte (keccak_spec 64 72 m).
Proof.
  unfold keccak_spec. apply Forall_firstn_skipn, Forall_flat_map, Forall_forall.
  intros x _. apply bytes_sph_enc64le.
Qed.

#[export] Instance keccak512_hasher : Hasher keccak512 (keccak_spec 64 72).
Proof.
  split; [| apply length_keccak_spec | apply bytes_keccak_spec | auto].
  intros kc pieces Hal Hpc _. cbn [h_ctx h_alloc h_init h_update h_close keccak512] in *.
  unfold sph_keccak512, sph_keccak512_close, sph_keccak512_addbits_and_close, sph_keccak512_init.
  set (kc1 := fold_left _ pieces _).
  assert (Habs : absorbed 72 keccak_block (st (keccak_init kc 512)) (concat pieces) kc1)
    by (apply keccak_updates_absorbed; lia).
  assert (Hlen : length (buf kc1) = 144%nat).
  { unfold kc1. rewrite (fold_update_length 72 keccak_block _ (st (keccak_init kc 512)) []);
      auto; intros; [apply core_absorbed | eapply core_length | apply absorbed_init]; eauto; lia. }
  eexists. split.
  2:{ rewrite (surjective_pairing (keccak_close _ _ _ _ _)). f_equal.
      - apply (keccak_close_absorbed _ _ _ (st (keccak_init kc 512)));
          [do 3 right; now left | apply keccak_init_represents | now apply Forall_concat | exact Habs].
      - unfold keccak_close. cbn [snd]. reflexivity. }
  cbn [buf]. unfold keccak_core. rewrite <- Hlen. eapply core_length; [lia | exact Habs].
Qed.
End Keccak.
