(* ===== verification/Blake.v ===== *)
(** * src/crypto/blake.c: BLAKE-384 and BLAKE-512 (the 64-bit functions)

    The working variables [V0] .. [VF] of a compression are a list of 16 words
    that the macro [GB] updates in place.  Both bodies of [ROUND_B] are modelled:
    the one that names the message words through the macros [Zri] (used when
    64-bit registers are native) and the compact one that indexes the table
    [sigma].

    The reference is the iterated BLAKE-512 of its specification: the message is
    padded with a one bit, zeros, a one bit and its 128-bit length, and block [i]
    is compressed with a counter of the message bits hashed up to and including
    that block, or zero when the block holds padding only.  The code keeps the
    counter in [T0], [T1] and always adds 1024 before a compression, so
    [blake64_close] has to preset it, with a borrow when [T0] is zero; the main
    theorem shows that the presets produce the counters of the specification. *)

From Stdlib Require Import ZArith List Lia Bool.
From S2P Require Import Prelude SphTypes SphStream.
Import ListNotations.
Open Scope Z_scope.

Module Blake.

(** ** Constants *)

Definition IV384 : list Z :=
  [0xCBBB9D5DC1059ED8; 0x629A292A367CD507; 0x9159015A3070DD17; 0x152FECD8F70E5939;
   0x67332667FFC00B31; 0x8EB44A8768581511; 0xDB0C2E0D64F98FA7; 0x47B5481DBEFA4FA4].

Definition IV512 : list Z :=
  [0x6A09E667F3BCC908; 0xBB67AE8584CAA73B; 0x3C6EF372FE94F82B; 0xA54FF53A5F1D36F1;
   0x510E527FADE682D1; 0x9B05688C2B3E6C1F; 0x1F83D9ABFB41BD6B; 0x5BE0CD19137E2179].

Definition sigma : list (list nat) :=
  [[0; 1; 2; 3; 4; 5; 6; 7; 8; 9; 10; 11; 12; 13; 14; 15];
   [14; 10; 4; 8; 9; 15; 13; 6; 1; 12; 0; 2; 11; 7; 5; 3];
   [11; 8; 12; 0; 5; 2; 15; 13; 10; 14; 3; 6; 7; 1; 9; 4];
   [7; 9; 3; 1; 13; 12; 11; 14; 2; 6; 5; 10; 4; 0; 15; 8];
   [9; 0; 5; 7; 2; 4; 10; 15; 14; 1; 11; 12; 6; 8; 3; 13];
   [2; 12; 6; 10; 0; 11; 8; 3; 4; 13; 7; 5; 15; 14; 1; 9];
   [12; 5; 1; 15; 14; 13; 4; 10; 0; 7; 6; 3; 9; 2; 8; 11];
   [13; 11; 7; 14; 12; 1; 3; 9; 5; 0; 15; 4; 8; 6; 2; 10];
   [6; 15; 14; 9; 11; 3; 0; 8; 12; 2; 13; 7; 1; 4; 10; 5];
   [10; 2; 8; 4; 7; 6; 1; 5; 15; 11; 9; 14; 3; 12; 13; 0];
   [0; 1; 2; 3; 4; 5; 6; 7; 8; 9; 10; 11; 12; 13; 14; 15];
   [14; 10; 4; 8; 9; 15; 13; 6; 1; 12; 0; 2; 11; 7; 5; 3];
   [11; 8; 12; 0; 5; 2; 15; 13; 10; 14; 3; 6; 7; 1; 9; 4];
   [7; 9; 3; 1; 13; 12; 11; 14; 2; 6; 5; 10; 4; 0; 15; 8];
   [9; 0; 5; 7; 2; 4; 10; 15; 14; 1; 11; 12; 6; 8; 3; 13];
   [2; 12; 6; 10; 0; 11; 8; 3; 4; 13; 7; 5; 15; 14; 1; 9]]%nat.

(** The macros [Z00] .. [Z9F]: row [r], column [i]. *)
Definition Zri : list (list nat) :=
  [[0; 1; 2; 3; 4; 5; 6; 7; 8; 9; 10; 11; 12; 13; 14; 15];
   [14; 10; 4; 8; 9; 15; 13; 6; 1; 12; 0; 2; 11; 7; 5; 3];
   [11; 8; 12; 0; 5; 2; 15; 13; 10; 14; 3; 6; 7; 1; 9; 4];
   [7; 9; 3; 1; 13; 12; 11; 14; 2; 6; 5; 10; 4; 0; 15; 8];
   [9; 0; 5; 7; 2; 4; 10; 15; 14; 1; 11; 12; 6; 8; 3; 13];
   [2; 12; 6; 10; 0; 11; 8; 3; 4; 13; 7; 5; 15; 14; 1; 9];
   [12; 5; 1; 15; 14; 13; 4; 10; 0; 7; 6; 3; 9; 2; 8; 11];
   [13; 11; 7; 14; 12; 1; 3; 9; 5; 0; 15; 4; 8; 6; 2; 10];
   [6; 15; 14; 9; 11; 3; 0; 8; 12; 2; 13; 7; 1; 4; 10; 5];
   [10; 2; 8; 4; 7; 6; 1; 5; 15; 11; 9; 14; 3; 12; 13; 0]]%nat.

(** [CB0] .. [CBF]. *)
Definition CB : list Z :=
  [0x243F6A8885A308D3; 0x13198A2E03707344; 0xA4093822299F31D0; 0x082EFA98EC4E6C89;
   0x452821E638D01377; 0xBE5466CF34E90C6C; 0xC0AC29B7C97C50DD; 0x3F84D5B5B5470917;
   0x9216D5D98979FB1B; 0xD1310BA698DFB5AC; 0x2FFD72DBD01ADFB7; 0xB8E1AFED6A267E96;
   0xBA7C9045F12C7F99; 0x24A19947B3916CF7; 0x0801F2E2858EFC16; 0x636920D871574E69].

(** ** The compression function *)

Definition GB (m0 m1 c0 c1 : Z) (a b c d : nat) (V : list Z) : list Z :=
  let V := upd a (SPH_T64 (nth a V 0 + nth b V 0 + (m0 .^ c1))) V in
  let V := upd d (SPH_ROTR64 (nth d V 0 .^ nth a V 0) 32) V in
  let V := upd c (SPH_T64 (nth c V 0 + nth d V 0)) V in
  let V := upd b (SPH_ROTR64 (nth b V 0 .^ nth c V 0) 25) V in
  let V := upd a (SPH_T64 (nth a V 0 + nth b V 0 + (m1 .^ c0))) V in
  let V := upd d (SPH_ROTR64 (nth d V 0 .^ nth a V 0) 16) V in
  let V := upd c (SPH_T64 (nth c V 0 + nth d V 0)) V in
  upd b (SPH_ROTR64 (nth b V 0 .^ nth c V 0) 11) V.

(** [Mx(r, i)], [CBx(r, i)]: message word and constant number [Zri]. *)
Definition Mx (M : list Z) (r i : nat) : Z := nth (nth i (nth r Zri []) 0%nat) M 0.
Definition CBx (r i : nat) : Z := nth (nth i (nth r Zri []) 0%nat) CB 0.

Definition ROUND_B (r : nat) (M V : list Z) : list Z :=
  let V := GB (Mx M r 0) (Mx M r 1) (CBx r 0) (CBx r 1) 0 4 8 12 V in
  let V := GB (Mx M r 2) (Mx M r 3) (CBx r 2) (CBx r 3) 1 5 9 13 V in
  let V := GB (Mx M r 4) (Mx M r 5) (CBx r 4) (CBx r 5) 2 6 10 14 V in
  let V := GB (Mx M r 6) (Mx M r 7) (CBx r 6) (CBx r 7) 3 7 11 15 V in
  let V := GB (Mx M r 8) (Mx M r 9) (CBx r 8) (CBx r 9) 0 5 10 15 V in
  let V := GB (Mx M r 10) (Mx M r 11) (CBx r 10) (CBx r 11) 1 6 11 12 V in
  let V := GB (Mx M r 12) (Mx M r 13) (CBx r 12) (CBx r 13) 2 7 8 13 V in
  let V := GB (Mx M r 14) (Mx M r 15) (CBx r 14) (CBx r 15) 3 4 9 14 V in
  V.

(** The compact body: [M[sigma[r][i]]], [CB[sigma[r][i]]]. *)
Definition ROUND_B_compact (r : nat) (M V : list Z) : list Z :=
  let Ms i := nth (nth i (nth r sigma []) 0%nat) M 0 in
  let CBs i := nth (nth i (nth r sigma []) 0%nat) CB 0 in
  let V := GB (Ms 0%nat) (Ms 1%nat) (CBs 0%nat) (CBs 1%nat) 0 4 8 12 V in
  let V := GB (Ms 2%nat) (Ms 3%nat) (CBs 2%nat) (CBs 3%nat) 1 5 9 13 V in
  let V := GB (Ms 4%nat) (Ms 5%nat) (CBs 4%nat) (CBs 5%nat) 2 6 10 14 V in
  let V := GB (Ms 6%nat) (Ms 7%nat) (CBs 6%nat) (CBs 7%nat) 3 7 11 15 V in
  let V := GB (Ms 8%nat) (Ms 9%nat) (CBs 8%nat) (CBs 9%nat) 0 5 10 15 V in
  let V := GB (Ms 10%nat) (Ms 11%nat) (CBs 10%nat) (CBs 11%nat) 1 6 11 12 V in
  let V := GB (Ms 12%nat) (Ms 13%nat) (CBs 12%nat) (CBs 13%nat) 2 7 8 13 V in
  let V := GB (Ms 14%nat) (Ms 15%nat) (CBs 14%nat) (CBs 15%nat) 3 4 9 14 V in
  V.

(** [V0] .. [VF] before the rounds, and the [H ^= S ^ V ^ V] after them. *)
Definition V_init (H S : list Z) (T0 T1 : Z) : list Z :=
  let h i := nth i H 0 in let s i := nth i S 0 in let cb i := nth i CB 0 in
  [h 0; h 1; h 2; h 3; h 4; h 5; h 6; h 7;
   s 0 .^ cb 0; s 1 .^ cb 1; s 2 .^ cb 2; s 3 .^ cb 3;
   T0 .^ cb 4; T0 .^ cb 5; T1 .^ cb 6; T1 .^ cb 7]%nat.

Definition H_final (H S V : list Z) : list Z :=
  let h i := nth i H 0 in let s i := nth i S 0 in let v i := nth i V 0 in
  [h 0 .^ (s 0 .^ v 0 .^ v 8);
   h 1 .^ (s 1 .^ v 1 .^ v 9);
   h 2 .^ (s 2 .^ v 2 .^ v 10);
   h 3 .^ (s 3 .^ v 3 .^ v 11);
   h 4 .^ (s 0 .^ v 4 .^ v 12);
   h 5 .^ (s 1 .^ v 5 .^ v 13);
   h 6 .^ (s 2 .^ v 6 .^ v 14);
   h 7 .^ (s 3 .^ v 7 .^ v 15)]%nat.

(** [M0] .. [MF]: the big-endian words of the buffer. *)
Definition M_words (buf : list Z) : list Z :=
  map (fun i => sph_dec64be (skipn (8 * i) buf)) (seq 0 16).

(** [COMPRESS64]: the new [H]. *)
Definition COMPRESS64 (buf H S : list Z) (T0 T1 : Z) : list Z :=
  let M := M_words buf in
  let V := V_init H S T0 T1 in
  let V := ROUND_B 0 M V in
  let V := ROUND_B 1 M V in
  let V := ROUND_B 2 M V in
  let V := ROUND_B 3 M V in
  let V := ROUND_B 4 M V in
  let V := ROUND_B 5 M V in
  let V := ROUND_B 6 M V in
  let V := ROUND_B 7 M V in
  let V := ROUND_B 8 M V in
  let V := ROUND_B 9 M V in
  let V := ROUND_B 0 M V in
  let V := ROUND_B 1 M V in
  let V := ROUND_B 2 M V in
  let V := ROUND_B 3 M V in
  let V := ROUND_B 4 M V in
  let V := ROUND_B 5 M V in
  H_final H S V.

(** The compact body: [for (r = 0; r < 16; r ++) ROUND_B(r)]. *)
Definition COMPRESS64_compact (buf H S : list Z) (T0 T1 : Z) : list Z :=
  let M := M_words buf in
  H_final H S (fold_left (fun V r => ROUND_B_compact r M V) (seq 0 16) (V_init H S T0 T1)).

(** ** Contexts: [sph_blake_big_context] *)

Record state : Type := mkState { H : list Z; S : list Z; T0 : Z; T1 : Z }.
Definition sph_blake_big_context : Type := context state.

Definition salt_zero_big : list Z := [0; 0; 0; 0].

Definition blake64_init (sc : sph_blake_big_context) (iv salt : list Z) : sph_blake_big_context :=
  mkContext (buf sc) 0 (mkState iv salt 0 0).

(** What [blake64] does with a full buffer. *)
Definition blake64_block (b : list Z) (s : state) : state :=
  let t0 := SPH_T64 (T0 s + 1024) in
  let t1 := if t0 <? 1024 then SPH_T64 (T1 s + 1) else T1 s in
  mkState (COMPRESS64 b (H s) (S s) t0 t1) (S s) t0 t1.

Definition blake64 (sc : sph_blake_big_context) (data : list Z) : sph_blake_big_context :=
  core 128 blake64_block sc data.

Definition set_T (sc : sph_blake_big_context) (t0 t1 : Z) : sph_blake_big_context :=
  mkContext (buf sc) (ptr sc) (mkState (H (st sc)) (S (st sc)) t0 t1).

(** The counter presets of [blake64_close]. *)
Definition blake64_preset (sc : sph_blake_big_context) (n bit_len : nat) : sph_blake_big_context :=
  if (ptr sc =? 0)%nat && (n =? 0)%nat then set_T sc 0xFFFFFFFFFFFFFC00 0xFFFFFFFFFFFFFFFF
  else if T0 (st sc) =? 0 then
    set_T sc (SPH_T64 (0xFFFFFFFFFFFFFC00 + Z.of_nat bit_len)) (SPH_T64 (T1 (st sc) - 1))
  else set_T sc (SPH_T64 (T0 (st sc) - (1024 - Z.of_nat bit_len))) (T1 (st sc)).

(** [blake64_close(sc, ub, n, dst, out_size_w64)]: the bytes written to [dst] and
    the context after; the stack array [u.buf] is represented by its bytes from
    [ptr] on, all of which are written before they are used. *)
Definition blake64_close (sc : sph_blake_big_context) (ub : Z) (n : nat) (out_size_w64 : nat)
  : list Z * sph_blake_big_context :=
  let p := ptr sc in
  let bit_len := (8 * p + n)%nat in
  let z := 0x80 >> Z.of_nat n in
  let first := ((ub .& - z) .| z) .& 0xFF in
  let tl := SPH_T64 (T0 (st sc) + Z.of_nat bit_len) in
  let th := T1 (st sc) in
  let sc := blake64_preset sc n bit_len in
  let or1 x := if (out_size_w64 =? 8)%nat then x .| 1 else x in
  let sc :=
    if (bit_len <=? 894)%nat then
      let u := first :: repeat 0 (111 - p) in
      let u := upd (111 - p) (or1 (nth (111 - p) u 0)) u in
      blake64 sc (u ++ sph_enc64be th ++ sph_enc64be tl)
    else
      let sc := blake64 sc (first :: repeat 0 (127 - p)) in
      let sc := set_T sc 0xFFFFFFFFFFFFFC00 0xFFFFFFFFFFFFFFFF in
      let u := repeat 0 112 in
      let u := if (out_size_w64 =? 8)%nat then upd 111 1 u else u in
      blake64 sc (u ++ sph_enc64be th ++ sph_enc64be tl) in
  (flat_map (fun k => sph_enc64be (nth k (H (st sc)) 0)) (seq 0 out_size_w64), sc).

Definition sph_blake384_init cc := blake64_init cc IV384 salt_zero_big.
Definition sph_blake384 cc data := blake64 cc data.
Definition sph_blake384_addbits_and_close cc ub n :=
  let '(dst, cc) := blake64_close cc ub n 6 in (dst, sph_blake384_init cc).
Definition sph_blake384_close cc := sph_blake384_addbits_and_close cc 0 0%nat.
Definition sph_blake512_init cc := blake64_init cc IV512 salt_zero_big.
Definition sph_blake512 cc data := blake64 cc data.
Definition sph_blake512_addbits_and_close cc ub n :=
  let '(dst, cc) := blake64_close cc ub n 8 in (dst, sph_blake512_init cc).
Definition sph_blake512_close cc := sph_blake512_addbits_and_close cc 0 0%nat.

(** ** Reference: BLAKE-512 *)

(** The padded message. *)
Definition blake_pad (m : list Z) : list Z :=
  let r := (length m mod 128)%nat in
  let mid :=
    if (r =? 111)%nat then [0x81]
    else if (r <? 111)%nat then [0x80] ++ repeat 0 (110 - r) ++ [0x01]
    else [0x80] ++ repeat 0 (238 - r) ++ [0x01] in
  m ++ mid ++ rev (le_bytes 16 (8 * Z.of_nat (length m))).

(** The counter of block [i] of a message of [len] bytes. *)
Definition blake_counter (len i : nat) : Z :=
  if (128 * i <? len)%nat then 8 * Z.of_nat (Nat.min (128 * (i + 1)) len) else 0.

(** Compression with the counter as one number of 128 bits; the rounds are
    numbered 0 to 15 and use the permutation of their number modulo 10. *)
Definition blake_compress (b H S : list Z) (t : Z) : list Z :=
  let V := fold_left (fun V r => ROUND_B (r mod 10) (M_words b) V) (seq 0 16)
             (V_init H S (t mod 2 ^ 64) (t / 2 ^ 64)) in
  H_final H S V.

Definition blake_spec (iv : list Z) (m : list Z) : list Z :=
  let p := blake_pad m in
  let step h i :=
    blake_compress (firstn 128 (skipn (128 * i) p)) h salt_zero_big (blake_counter (length m) i) in
  flat_map sph_enc64be (fold_left step (seq 0 (length p / 128)) iv).

(** ** The two bodies of the compression function *)

(** Comparisons unfold these last. *)
#[local] Strategy 1000 [H_final V_init M_words GB ROUND_B ROUND_B_compact].

Lemma compress_rounds (R : nat -> list Z -> list Z) V :
  R 5%nat (R 4%nat (R 3%nat (R 2%nat (R 1%nat (R 0%nat (R 9%nat (R 8%nat (R 7%nat (R 6%nat
    (R 5%nat (R 4%nat (R 3%nat (R 2%nat (R 1%nat (R 0%nat V)))))))))))))))
  = fold_left (fun V r => R (r mod 10)%nat V) (seq 0 16) V.
Proof. reflexivity. Qed.

Lemma COMPRESS64_rounds b H S t0 t1 :
  COMPRESS64 b H S t0 t1 =
  H_final H S (fold_left (fun V r => ROUND_B (r mod 10) (M_words b) V) (seq 0 16) (V_init H S t0 t1)).
Proof.
  rewrite <- (compress_rounds (fun r V => ROUND_B r (M_words b) V)). reflexivity.
Qed.

(** Row [r] of [sigma] is row [r mod 10] of the macros. *)
Lemma sigma_Zri r : (r < 16)%nat -> nth r sigma [] = nth (r mod 10) Zri [].
Proof.
  intros Hr. assert (K : Forall (fun r => nth r sigma [] = nth (r mod 10) Zri []) (seq 0 16))
    by (repeat constructor).
  rewrite Forall_forall in K. apply K, in_seq. lia.
Qed.

Lemma ROUND_B_compact_eq r M V : (r < 16)%nat -> ROUND_B_compact r M V = ROUND_B (r mod 10) M V.
Proof. intros Hr. unfold ROUND_B_compact, ROUND_B, Mx, CBx. now rewrite (sigma_Zri r Hr). Qed.

(** Both bodies of the macro compute the same function. *)
Theorem COMPRESS64_compact_eq b H S t0 t1 :
  COMPRESS64_compact b H S t0 t1 = COMPRESS64 b H S t0 t1.
Proof.
  rewrite (COMPRESS64_rounds b H S t0 t1).
  rewrite <- (fold_left_ext_in (fun V r => ROUND_B_compact r (M_words b) V)); [reflexivity|].
  intros V r Hr. apply in_seq in Hr. apply (ROUND_B_compact_eq r (M_words b) V). lia.
Qed.

(** ** The bit counter *)

Definition lo (c : Z) : Z := c mod 2 ^ 64.
Definition hi (c : Z) : Z := c / 2 ^ 64.

Lemma blake64_block_counter b s c :
  0 <= c -> c + 1024 < 2 ^ 128 -> T0 s = lo c -> T1 s = hi c ->
  blake64_block b s = mkState (blake_compress b (H s) (S s) (c + 1024)) (S s) (lo (c + 1024)) (hi (c + 1024)).
Proof.
  intros Hc Hb E0 E1. unfold blake64_block. rewrite E0, E1.
  assert (A : SPH_T64 (lo c + 1024) = lo (c + 1024)).
  { rewrite SPH_T64_mod. unfold lo. now rewrite Z.add_mod_idemp_l. }
  assert (B : (if lo (c + 1024) <? 1024 then SPH_T64 (hi c + 1) else hi c) = hi (c + 1024)).
  { unfold lo, hi in *. pose proof (Z.div_mod c (2 ^ 64) ltac:(lia)) as E.
    pose proof (Z.mod_pos_bound c (2 ^ 64) ltac:(lia)) as R.
    set (q := c / 2 ^ 64) in *. set (r := c mod 2 ^ 64) in *.
    destruct (Z.lt_ge_cases (r + 1024) (2 ^ 64)).
    - assert (Eq : (c + 1024) / 2 ^ 64 = q) by (symmetry; apply (Z.div_unique _ _ _ (r + 1024)); lia).
      assert (Em : (c + 1024) mod 2 ^ 64 = r + 1024) by (symmetry; apply (Z.mod_unique _ _ q); lia).
      rewrite Eq, Em. destruct (Z.ltb_spec (r + 1024) 1024); lia.
    - assert (Eq : (c + 1024) / 2 ^ 64 = q + 1)
        by (symmetry; apply (Z.div_unique _ _ _ (r + 1024 - 2 ^ 64)); lia).
      assert (Em : (c + 1024) mod 2 ^ 64 = r + 1024 - 2 ^ 64)
        by (symmetry; apply (Z.mod_unique _ _ (q + 1)); lia).
      rewrite Eq, Em. destruct (Z.ltb_spec (r + 1024 - 2 ^ 64) 1024); [|lia].
      rewrite SPH_T64_mod. apply Z.mod_small. lia. }
  now rewrite A, B, (COMPRESS64_rounds b (H s) (S s)).
Qed.

(** The presets of [blake64_close] before the two kinds of last block. *)
Lemma blake64_block_zero b s :
  T0 s = 0xFFFFFFFFFFFFFC00 -> T1 s = 0xFFFFFFFFFFFFFFFF ->
  H (blake64_block b s) = blake_compress b (H s) (S s) 0.
Proof.
  intros E0 E1. unfold blake64_block. rewrite E0, E1. cbn [H]. now rewrite (COMPRESS64_rounds b (H s) (S s)).
Qed.

Lemma blake64_block_preset b s c d :
  0 <= c -> c mod 1024 = 0 -> 0 < d < 1024 -> c + d < 2 ^ 128 ->
  (lo c = 0 -> T0 s = SPH_T64 (0xFFFFFFFFFFFFFC00 + d) /\ T1 s = SPH_T64 (hi c - 1)) ->
  (lo c <> 0 -> T0 s = SPH_T64 (lo c - (1024 - d)) /\ T1 s = hi c) ->
  H (blake64_block b s) = blake_compress b (H s) (S s) (c + d).
Proof.
  intros Hc Hm Hd Hb Hz Hn.
  assert (Hlo : lo c mod 1024 = 0).
  { unfold lo. change (2 ^ 64) with (1024 * 2 ^ 54). rewrite Z.rem_mul_r, Hm by lia.
    rewrite Z.add_0_l, Z.mul_comm. apply Z.mod_mul. lia. }
  pose proof (Z.div_mod c (2 ^ 64) ltac:(lia)) as E.
  pose proof (Z.mod_pos_bound c (2 ^ 64) ltac:(lia)) as R.
  fold (lo c) in R. change (c / 2 ^ 64) with (hi c) in E. fold (lo c) in E.
  assert (Hlo2 : lo c + d < 2 ^ 64).
  { pose proof (Z.div_mod (lo c) 1024 ltac:(lia)). rewrite Hlo in *. lia. }
  assert (Ec : hi (c + d) = hi c) by (symmetry; apply (Z.div_unique _ _ _ (lo c + d)); lia).
  assert (Em : lo (c + d) = lo c + d) by (symmetry; apply (Z.mod_unique _ _ (hi c)); lia).
  unfold blake64_block. cbn [H]. rewrite (COMPRESS64_rounds b (H s) (S s)). unfold blake_compress.
  change ((c + d) mod 2 ^ 64) with (lo (c + d)). change ((c + d) / 2 ^ 64) with (hi (c + d)).
  rewrite Ec, Em. destruct (Z.eq_dec (lo c) 0) as [Z0|NZ].
  - destruct (Hz Z0) as [-> ->].
    rewrite !SPH_T64_mod, Z.add_mod_idemp_l by lia.
    replace (0xFFFFFFFFFFFFFC00 + d + 1024) with (d + 1 * 2 ^ 64) by lia.
    rewrite Z.mod_add, (Z.mod_small d) by lia.
    destruct (Z.ltb_spec d 1024); [|lia].
    rewrite Z.add_mod_idemp_l, Z.sub_add by lia.
    rewrite (Z.mod_small (hi c)), Z0 by (split; [apply Z.div_pos; lia | apply Z.div_lt_upper_bound; lia]).
    reflexivity.
  - destruct (Hn NZ) as [-> ->].
    assert (lo c >= 1024) by (pose proof (Z.div_mod (lo c) 1024 ltac:(lia)); rewrite Hlo in *; lia).
    rewrite !SPH_T64_mod, Z.add_mod_idemp_l by lia.
    replace (lo c - (1024 - d) + 1024) with (lo c + d) by lia.
    rewrite Z.mod_small by lia. destruct (Z.ltb_spec (lo c + d) 1024); [lia | reflexivity].
Qed.

(** ** The message blocks *)

#[local] Opaque COMPRESS64 blake_compress.

Definition blake_step (m p : list Z) (h : list Z) (i : nat) : list Z :=
  blake_compress (firstn 128 (skipn (128 * i) p)) h salt_zero_big (blake_counter (length m) i).

(** The state after the first [k] blocks of the message. *)
Definition state_at (iv m p : list Z) (k : nat) : state :=
  mkState (fold_left (blake_step m p) (seq 0 k) iv) salt_zero_big
    (lo (1024 * Z.of_nat k)) (hi (1024 * Z.of_nat k)).

Lemma absorb_state_at iv m p rest k :
  p = m ++ rest -> (k * 128 <= length m)%nat -> 8 * Z.of_nat (length m) < 2 ^ 128 ->
  absorb 128 blake64_block k m (mkState iv salt_zero_big 0 0) = state_at iv m p k.
Proof.
  intros Hp Hk Hlen. induction k as [|k IH]; [reflexivity|].
  rewrite absorb_succ, IH by lia.
  rewrite (blake64_block_counter _ _ (1024 * Z.of_nat k)) by (reflexivity || lia).
  unfold state_at. rewrite seq_S, fold_left_app. cbn [fold_left H S Nat.add].
  replace (1024 * Z.of_nat k + 1024) with (1024 * Z.of_nat (Datatypes.S k)) by lia.
  assert (Ec : blake_counter (length m) k = 1024 * Z.of_nat (Datatypes.S k)).
  { unfold blake_counter. destruct (Nat.ltb_spec (128 * k) (length m)); lia. }
  assert (Eb : firstn 128 (skipn (128 * k) p) = firstn 128 (skipn (k * 128) m)).
  { subst p. rewrite (Nat.mul_comm 128 k), skipn_skipn_app by lia.
    now rewrite firstn_firstn_app by (rewrite length_skipn; lia). }
  change (fold_left (blake_step m p) (seq 0 k) iv) with (H (state_at iv m p k)) at 2.
  unfold blake_step. rewrite Ec, Eb. reflexivity.
Qed.

(** The blocks of the padded message after the message blocks. *)
Lemma blake_length_bytes c :
  0 <= c < 2 ^ 128 -> sph_enc64be (hi c) ++ sph_enc64be (lo c) = rev (le_bytes 16 c).
Proof.
  intros Hc. rewrite !sph_enc64be_bytes, <- rev_app_distr. f_equal.
  rewrite (le_bytes_app 8 8). change (8 * Z.of_nat 8) with 64.
  now rewrite <- (le_bytes_mod 8 c).
Qed.

(** ** Closing *)

Lemma length_blake_compress b h s t : length (blake_compress b h s t) = 8%nat.
Proof. reflexivity. Qed.

(** The presets give the next block the counter of the specification. *)
Lemma blake64_preset_counter iv m p sc b :
  let q := (length m / 128)%nat in
  8 * Z.of_nat (length m) < 2 ^ 128 ->
  ptr sc = (length m mod 128)%nat -> st sc = state_at iv m p q ->
  H (blake64_block b (st (blake64_preset sc 0 (8 * ptr sc))))
  = blake_compress b (H (st sc)) salt_zero_big (blake_counter (length m) q).
Proof.
  intros q Hlen Hp Hst. pose proof (Nat.div_mod_eq (length m) 128) as E. fold q in E.
  rewrite <- Hp in E. pose proof (Nat.mod_upper_bound (length m) 128 ltac:(lia)) as Hr.
  rewrite <- Hp in Hr. unfold blake64_preset. destruct (Nat.eqb_spec (ptr sc) 0) as [Z0|NZ]; cbn [andb Nat.eqb].
  - rewrite (blake64_block_zero b (st (set_T sc _ _))) by reflexivity.
    unfold blake_counter. destruct (Nat.ltb_spec (128 * q) (length m)); [lia|].
    cbn [set_T st H S]. now rewrite Hst.
  - assert (Ec : blake_counter (length m) q = 1024 * Z.of_nat q + 8 * Z.of_nat (ptr sc)).
    { unfold blake_counter. destruct (Nat.ltb_spec (128 * q) (length m)); lia. }
    assert (E0 : T0 (st sc) = lo (1024 * Z.of_nat q)) by now rewrite Hst.
    assert (E1 : T1 (st sc) = hi (1024 * Z.of_nat q)) by now rewrite Hst.
    assert (Es : S (st sc) = salt_zero_big) by now rewrite Hst.
    assert (Em : (1024 * Z.of_nat q) mod 1024 = 0) by (rewrite Z.mul_comm; apply Z.mod_mul; lia).
    rewrite Ec, E0, E1.
    destruct (Z.eqb_spec (lo (1024 * Z.of_nat q)) 0) as [L0|L0];
      (rewrite (blake64_block_preset b (st (set_T sc _ _)) (1024 * Z.of_nat q) (8 * Z.of_nat (ptr sc)));
        [cbn [set_T st H S]; now rewrite Es | lia | exact Em | lia | lia | |]);
      intros L; try contradiction; cbn [set_T st T0 T1]; split; try reflexivity; f_equal; lia.
Qed.

(** The length field of [blake64_close]. *)
Lemma blake64_length_field iv m p sc :
  let q := (length m / 128)%nat in
  8 * Z.of_nat (length m) < 2 ^ 128 ->
  ptr sc = (length m mod 128)%nat -> st sc = state_at iv m p q ->
  sph_enc64be (T1 (st sc)) ++ sph_enc64be (SPH_T64 (T0 (st sc) + Z.of_nat (8 * ptr sc)))
  = rev (le_bytes 16 (8 * Z.of_nat (length m))).
Proof.
  intros q Hlen Hp Hst. pose proof (Nat.div_mod_eq (length m) 128) as E. fold q in E.
  rewrite <- Hp in E. rewrite <- blake_length_bytes by lia. rewrite Hst. cbn [state_at T0 T1].
  set (c := 1024 * Z.of_nat q).
  replace (8 * Z.of_nat (length m)) with (c + 8 * Z.of_nat (ptr sc)) by lia.
  pose proof (Nat.mod_upper_bound (length m) 128 ltac:(lia)) as Hr. rewrite <- Hp in Hr.
  assert (Hlo : lo c = 1024 * (Z.of_nat q mod 2 ^ 54)).
  { unfold lo, c. change (2 ^ 64) with (1024 * 2 ^ 54). apply Z.mul_mod_distr_l; lia. }
  pose proof (Z.mod_pos_bound (Z.of_nat q) (2 ^ 54) ltac:(lia)).
  pose proof (Z.div_mod c (2 ^ 64) ltac:(lia)) as Ed.
  change (c / 2 ^ 64) with (hi c) in Ed. change (c mod 2 ^ 64) with (lo c) in Ed.
  assert (Eh : hi (c + 8 * Z.of_nat (ptr sc)) = hi c)
    by (symmetry; apply (Z.div_unique _ _ _ (lo c + 8 * Z.of_nat (ptr sc))); lia).
  assert (El : lo (c + 8 * Z.of_nat (ptr sc)) = lo c + 8 * Z.of_nat (ptr sc))
    by (symmetry; apply (Z.mod_unique _ _ (hi c)); lia).
  rewrite Eh, El, SPH_T64_id by (unfold word; lia). do 2 f_equal. lia.
Qed.

(** The digest is the words of the chaining value after the padding blocks. *)
Lemma blake_digest iv m p n :
  (0 < n)%nat -> length p = (n * 128)%nat -> p = blake_pad m ->
  blake_spec iv m = flat_map (fun k => sph_enc64be (nth k (fold_left (blake_step m p) (seq 0 n) iv) 0)) (seq 0 8).
Proof.
  intros Hn Hlen ->. unfold blake_spec. rewrite Hlen, Nat.div_mul by lia.
  rewrite flat_map_nth_seq; [reflexivity|].
  destruct n as [|n]; [lia|]. rewrite seq_S, fold_left_app. apply length_blake_compress.
Qed.

Lemma fold_blake_step_S iv m p k b :
  firstn 128 (skipn (128 * k) p) = b ->
  fold_left (blake_step m p) (seq 0 (Datatypes.S k)) iv
  = blake_compress b (fold_left (blake_step m p) (seq 0 k) iv) salt_zero_big (blake_counter (length m) k).
Proof.
  intros <-. rewrite seq_S, fold_left_app. reflexivity.
Qed.

(** Short and long padding. *)
Lemma blake_pad_short m :
  (length m mod 128 <= 111)%nat ->
  blake_pad m = m ++ upd (111 - length m mod 128)
      (nth (111 - length m mod 128) (0x80 :: repeat 0 (111 - length m mod 128)) 0 .| 1)
      (0x80 :: repeat 0 (111 - length m mod 128))
    ++ rev (le_bytes 16 (8 * Z.of_nat (length m))).
Proof.
  intros Hr. unfold blake_pad. set (r := (length m mod 128)%nat) in *. f_equal. f_equal.
  destruct (Nat.eqb_spec r 111) as [->|Hne]; [reflexivity|].
  destruct (Nat.ltb_spec r 111); [|lia].
  replace (111 - r)%nat with (Datatypes.S (110 - r)) by lia.
  cbn [nth upd]. rewrite (nth_repeat_lt 0 0) by lia.
  now rewrite upd_repeat_last.
Qed.

Lemma blake_pad_long m :
  (111 < length m mod 128)%nat ->
  blake_pad m = m ++ (0x80 :: repeat 0 (127 - length m mod 128))
    ++ upd 111 1 (repeat 0 112) ++ rev (le_bytes 16 (8 * Z.of_nat (length m))).
Proof.
  intros Hr. unfold blake_pad. pose proof (Nat.mod_upper_bound (length m) 128 ltac:(lia)).
  set (r := (length m mod 128)%nat) in *. f_equal.
  destruct (Nat.eqb_spec r 111); [lia|]. destruct (Nat.ltb_spec r 111); [lia|].
  rewrite upd_repeat_last, !app_assoc. f_equal.
  replace (238 - r)%nat with (127 - r + 111)%nat by lia. rewrite repeat_app.
  cbn [app]. now rewrite <- app_assoc.
Qed.

(** Block [k] of a list, when what follows the first [128 k] bytes is known. *)
Lemma nth_block k (l b rest : list Z) :
  skipn (128 * k) l = b ++ rest -> length b = 128%nat -> firstn 128 (skipn (128 * k) l) = b.
Proof. intros -> Hb. rewrite firstn_firstn_app by lia. now apply firstn_all2; lia. Qed.

Lemma skipn_block k (l b rest : list Z) :
  skipn (128 * k) l = b ++ rest -> length b = 128%nat -> skipn (128 * Datatypes.S k) l = rest.
Proof.
  intros E Hb. replace (128 * Datatypes.S k)%nat with (128 + 128 * k)%nat by lia.
  rewrite <- skipn_skipn, E, skipn_app, skipn_all2, Hb by lia. reflexivity.
Qed.

Lemma preset_frame sc n k :
  buf (blake64_preset sc n k) = buf sc /\ ptr (blake64_preset sc n k) = ptr sc /\
  S (st (blake64_preset sc n k)) = S (st sc).
Proof. unfold blake64_preset. repeat destruct (_ : bool); now split. Qed.

Definition s512 : state := mkState IV512 salt_zero_big 0 0.

Lemma blake64_close_absorbed sc m :
  8 * Z.of_nat (length m) < 2 ^ 128 -> absorbed 128 blake64_block s512 m sc ->
  fst (blake64_close sc 0 0 8) = blake_spec IV512 m.
Proof.
  intros Hlen [Hb Hp Hst Hrest].
  pose proof (Nat.div_mod_eq (length m) 128) as E.
  pose proof (Nat.mod_upper_bound (length m) 128 ltac:(lia)) as Hr.
  set (q := (length m / 128)%nat) in *. set (p := blake_pad m).
  rewrite (absorb_state_at IV512 m p (skipn (length m) p)) in Hst;
    [| symmetry; unfold p, blake_pad; rewrite skipn_app, skipn_all, Nat.sub_diag; reflexivity | lia | lia].
  assert (Hpend : length (firstn (ptr sc) (buf sc)) = ptr sc) by (rewrite length_firstn; lia).
  unfold blake64_close. cbn [fst]. rewrite Nat.add_0_r.
  change (((0 .& - (0x80 >> Z.of_nat 0)) .| (0x80 >> Z.of_nat 0)) .& 0xFF) with 0x80.
  rewrite (blake64_length_field IV512 m p sc Hlen Hp Hst).
  destruct (preset_frame sc 0 (8 * ptr sc)) as (Fb & Fp & Fs).
  pose proof (fun b => blake64_preset_counter IV512 m p sc b Hlen Hp Hst) as Hpre.
  set (sc1 := blake64_preset sc 0 (8 * ptr sc)) in *.
  set (len := rev (le_bytes 16 (8 * Z.of_nat (length m)))).
  assert (Hll : length len = 16%nat) by (unfold len; now rewrite length_rev, length_le_bytes).
  assert (Hpm : forall rest, p = m ++ rest -> skipn (128 * q) p = firstn (ptr sc) (buf sc) ++ rest).
  { intros rest ->. rewrite Hrest, (Nat.mul_comm 128 q). apply skipn_skipn_app. lia. }
  destruct (Nat.leb_spec (8 * ptr sc) 894) as [Hle|Hgt].
  - (* one block *)
    cbn [Nat.eqb]. set (u := upd _ _ _).
    assert (Hu : length u = (112 - ptr sc)%nat)
      by (unfold u; rewrite length_upd; cbn [length]; rewrite repeat_length; lia).
    assert (Ep : p = m ++ u ++ len).
    { unfold p. rewrite blake_pad_short by lia. unfold u, len. now rewrite Hp. }
    destruct (core_fill 128 blake64_block ltac:(lia) sc1 (u ++ len)) as [Fst _];
      [rewrite Fb; lia | lia | rewrite length_app; lia |].
    unfold blake64. rewrite Fst, Fb, Fp, Hpre. specialize (Hpm _ Ep).
    rewrite (blake_digest IV512 m p (Datatypes.S q)); [|lia| |reflexivity].
    + rewrite (fold_blake_step_S IV512 m p q _ (nth_block q p _ [] (eq_trans Hpm (eq_sym (app_nil_r _)))
        ltac:(rewrite !length_app; lia))).
      now rewrite Hst.
    + rewrite Ep, !length_app. lia.
  - (* two blocks *)
    cbn [Nat.eqb]. set (u := 0x80 :: repeat 0 (127 - ptr sc)).
    assert (Hu : length u = (128 - ptr sc)%nat) by (unfold u; cbn [length]; rewrite repeat_length; lia).
    set (v := upd 111 1 (repeat 0 112)). assert (Hv : length v = 112%nat) by reflexivity.
    assert (Ep : p = m ++ u ++ v ++ len).
    { unfold p. rewrite blake_pad_long by lia. unfold u, v, len. now rewrite Hp. }
    specialize (Hpm _ Ep). rewrite app_assoc in Hpm.
    destruct (core_fill 128 blake64_block ltac:(lia) sc1 u) as [Fst Fptr];
      [rewrite Fb; lia | lia | lia |].
    pose proof (core_length 128 blake64_block ltac:(lia) _ _ sc1 u
      (absorbed_pending 128 blake64_block ltac:(lia) sc1 ltac:(rewrite Fb; lia) ltac:(lia))) as Flen.
    unfold blake64. set (sc2 := core 128 blake64_block sc1 u) in *. set (sc3 := set_T sc2 _ _).
    destruct (core_fill 128 blake64_block ltac:(lia) sc3 (v ++ len)) as [Fst3 _];
      [cbn [sc3 set_T buf]; rewrite Flen, Fb; lia | cbn [sc3 set_T ptr]; lia
      | cbn [sc3 set_T ptr]; rewrite length_app; lia |].
    change (ptr sc3) with (ptr sc2) in Fst3. rewrite Fptr in Fst3. cbn [firstn app] in Fst3.
    rewrite Fst3, (blake64_block_zero _ (st sc3)) by reflexivity.
    cbn [sc3 set_T st H S].
    rewrite Fst. change (S (blake64_block ?b ?s)) with (S s). rewrite Hpre, Fb, Fp, Fs.
    rewrite (blake_digest IV512 m p (Datatypes.S (Datatypes.S q))); [|lia| |reflexivity].
    + rewrite (fold_blake_step_S IV512 m p (Datatypes.S q) (v ++ len)), (fold_blake_step_S IV512 m p q _
        (nth_block q p _ _ Hpm ltac:(rewrite length_app; lia))).
      * assert (Ec : blake_counter (length m) (Datatypes.S q) = 0).
        { unfold blake_counter. destruct (Nat.ltb_spec (128 * Datatypes.S q) (length m)); lia. }
        rewrite Hst, Ec. reflexivity.
      * apply (nth_block _ _ _ []); [|rewrite length_app; lia].
        rewrite app_nil_r. eapply skipn_block; [exact Hpm | rewrite length_app; lia].
    + rewrite Ep, !length_app. lia.
Qed.

(** ** Main result *)

Lemma blake_updates_absorbed sc pieces :
  (128 <= length (buf sc))%nat ->
  absorbed 128 blake64_block s512 (concat pieces) (fold_left sph_blake512 pieces (sph_blake512_init sc)).
Proof.
  intros Hl. apply (fold_update_absorbed _ _ _ _ []); [intros; apply core_absorbed; [lia | assumption]|].
  apply absorbed_init; lia.
Qed.

(** BLAKE-512 of the code is BLAKE-512 of the specification: whatever the memory
    the context is placed in and however a message of less than 2^128 bits is
    cut into pieces, init, updates and close return the reference digest; in
    particular the counter presets of the close, and its two ways of padding,
    are right for every message length. *)
Theorem blake512_correct sc pieces :
  (128 <= length (buf sc))%nat -> 8 * Z.of_nat (length (concat pieces)) < 2 ^ 128 ->
  fst (sph_blake512_close (fold_left sph_blake512 pieces (sph_blake512_init sc)))
  = blake_spec IV512 (concat pieces).
Proof.
  intros Hb Hl. rewrite <- (blake64_close_absorbed _ _ Hl (blake_updates_absorbed sc pieces Hb)).
  unfold sph_blake512_close, sph_blake512_addbits_and_close.
  now destruct (blake64_close _ 0 0 8).
Qed.

Lemma blake512_correct_witness :
  fst (sph_blake512_close (fold_left sph_blake512 [repeat 7 100; repeat 8 20]
        (sph_blake512_init (mkContext (repeat 1 128) 5 (mkState [] [] 3 4)))))
  = blake_spec IV512 (concat [repeat 7 100; repeat 8 20]).
Proof.
  apply blake512_correct; [apply Nat.leb_le | apply Z.ltb_lt]; reflexivity.
Defined.

(** ** The interface *)

Definition blake512 : sph_hash :=
  mkHash sph_blake_big_context (fun sc => length (buf sc) = 128%nat)
    sph_blake512_init sph_blake512 sph_blake512_close.

Lemma blake64_close_length sc m :
  absorbed 128 blake64_block s512 m sc -> length (buf (snd (blake64_close sc 0 0 8))) = length (buf sc).
Proof.
  intros Habs. pose proof (absorbed_ptr_lt 128 blake64_block ltac:(lia) _ _ _ Habs) as Hp.
  pose proof (absorbed_buf _ _ _ _ _ Habs) as Hb.
  unfold blake64_close. cbn [snd]. destruct (preset_frame sc 0 (8 * ptr sc + 0)) as (Fb & Fp & _).
  set (sc1 := blake64_preset sc 0 (8 * ptr sc + 0)) in *.
  pose proof (core_frame 128 blake64_block ltac:(lia)) as K.
  destruct (8 * ptr sc + 0 <=? 894)%nat.
  - unfold blake64. rewrite (proj1 (K sc1 _ ltac:(rewrite Fb; lia) ltac:(lia))). now rewrite Fb.
  - unfold blake64. set (u := _ :: repeat 0 (127 - ptr sc)).
    destruct (K sc1 u ltac:(rewrite Fb; lia) ltac:(lia)) as [A1 A2].
    rewrite (proj1 (K (set_T (core 128 blake64_block sc1 u) _ _) _
      ltac:(cbn [set_T buf]; rewrite A1, Fb; lia) ltac:(exact A2))).
    cbn [set_T buf]. now rewrite A1, Fb.
Qed.

Lemma length_blake_spec m : length (blake_spec IV512 m) = 64%nat.
Proof.
  unfold blake_spec. set (h := fold_left _ _ _).
  assert (Hh : length h = 8%nat).
  { unfold h. destruct (length (blake_pad m) / 128)%nat; [reflexivity|].
    rewrite seq_S, fold_left_app. apply length_blake_compress. }
  clearbody h. repeat (destruct h as [|? h]; [discriminate|]). destruct h; [reflexivity | discriminate].
Qed.

#[export] Instance blake512_hasher : Hasher blake512 (blake_spec IV512).
Proof.
  split.
  - intros sc pieces Hal _ Hl. cbn [h_ctx h_alloc h_init h_update h_close blake512] in *.
    pose proof (blake_updates_absorbed sc pieces ltac:(lia)) as Habs.
    set (sc1 := fold_left sph_blake512 pieces (sph_blake512_init sc)) in *.
    exists (snd (blake64_close sc1 0 0 8)). split.
    + rewrite (blake64_close_length _ _ Habs). unfold sc1.
      rewrite (fold_update_length 128 blake64_block sph_blake512 s512 []); auto; intros;
        [apply core_absorbed | eapply core_length | apply absorbed_init]; eauto; lia.
    + rewrite <- (blake64_close_absorbed sc1 (concat pieces) ltac:(lia) Habs).
      unfold sph_blake512_close, sph_blake512_addbits_and_close.
      now destruct (blake64_close sc1 0 0 8).
  - apply length_blake_spec.
  - intros m. apply Forall_flat_map, Forall_forall. intros x _. apply bytes_sph_enc64be.
  - intros c Hc. exact Hc.
Qed.

End Blake.
