(* ===== verification/Skein.v ===== *)
(** * src/crypto/skein.c: Skein-512 with outputs of 224 to 512 bits

    The block cipher macros ([TFBIG_*]), the chaining mode ([UBI_BIG]) and the
    functions over [sph_skein_big_context].  The words [p0] .. [p7] are a list
    that [TFBIG_MIX] updates in place; the code never permutes them, it passes
    them to [TFBIG_MIX8] in a rotating order instead, and names the subkey words
    through the macros [M9_s_i], [M3_s_i].  Both configurations are modelled,
    the unrolled one and the one for [SPH_SMALL_FOOTPRINT_SKEIN], which extends
    the key into [h[27]] and rotates the tweak words.

    The reference is the Skein specification: Threefish-512 as 72 rounds of
    mixing and word permutation, the mode UBI over a byte string with a 128-bit
    tweak (position, type, first and final flags), and Skein as three chained
    UBI calls, on the configuration, on the message and on the output counter.
    [skein_big_core] differs from the other update loops: the final flag must be
    set on the last message block even when the message ends on a block
    boundary, so a full buffer is kept until more data or the close comes. *)

From Stdlib Require Import ZArith List Lia Bool.
From S2P Require Import Prelude SphTypes SphStream.
Import ListNotations.
Open Scope Z_scope.

Module Skein.

(** ** Constants *)

(** The macros [M9_s_i] and [M3_s_i]: row [s], column [i]. *)
Definition M9 : list (list nat) :=
  [[0; 1; 2; 3; 4; 5; 6; 7];
   [1; 2; 3; 4; 5; 6; 7; 8];
   [2; 3; 4; 5; 6; 7; 8; 0];
   [3; 4; 5; 6; 7; 8; 0; 1];
   [4; 5; 6; 7; 8; 0; 1; 2];
   [5; 6; 7; 8; 0; 1; 2; 3];
   [6; 7; 8; 0; 1; 2; 3; 4];
   [7; 8; 0; 1; 2; 3; 4; 5];
   [8; 0; 1; 2; 3; 4; 5; 6];
   [0; 1; 2; 3; 4; 5; 6; 7];
   [1; 2; 3; 4; 5; 6; 7; 8];
   [2; 3; 4; 5; 6; 7; 8; 0];
   [3; 4; 5; 6; 7; 8; 0; 1];
   [4; 5; 6; 7; 8; 0; 1; 2];
   [5; 6; 7; 8; 0; 1; 2; 3];
   [6; 7; 8; 0; 1; 2; 3; 4];
   [7; 8; 0; 1; 2; 3; 4; 5];
   [8; 0; 1; 2; 3; 4; 5; 6];
   [0; 1; 2; 3; 4; 5; 6; 7]]%nat.

Definition M3 : list (list nat) :=
  [[0; 1]; [1; 2]; [2; 0]; [0; 1]; [1; 2]; [2; 0]; [0; 1]; [1; 2]; [2; 0]; [0; 1]; [1; 2]; [2; 0]; [0; 1]; [1; 2]; [2; 0]; [0; 1]; [1; 2]; [2; 0]; [0; 1]]%nat.

Definition IV224 : list Z :=
  [0xCCD0616248677224; 0xCBA65CF3A92339EF; 0x8CCD69D652FF4B64; 0x398AED7B3AB890B4;
   0x0F59D1B1457D2BD0; 0x6776FE6575D4EB3D; 0x99FBC70E997413E9; 0x9E2CFCCFE1C41EF7].

Definition IV256 : list Z :=
  [0xCCD044A12FDB3E13; 0xE83590301A79A9EB; 0x55AEA0614F816E6F; 0x2A2767A4AE9B94DB;
   0xEC06025E74DD7683; 0xE7A436CDC4746251; 0xC36FBAF9393AD185; 0x3EEDBA1833EDFC13].

Definition IV384 : list Z :=
  [0xA3F6C6BF3A75EF5F; 0xB0FEF9CCFD84FAA4; 0x9D77DD663D770CFE; 0xD798CBF3B468FDDA;
   0x1BC4A6668A0E4465; 0x7ED7D434E5807407; 0x548FC1ACD4EC44D6; 0x266E17546AA18FF8].

Definition IV512 : list Z :=
  [0x4903ADFF749C51CE; 0x0D95DE399746DF03; 0x8FD1934127C79BCE; 0x9A255629FF352CB1;
   0x5DB62599DF6CA7B0; 0xEABE394CA9D5C3F4; 0x991112C71A75B523; 0xAE18A40B660FCC33].

(** ** The block cipher *)

(** [k] = [k0] .. [k7], [k8] and [t] = [t0], [t1], [t2]. *)
Definition TFBIG_KINIT_k8 (k : list Z) : Z :=
  let k i := nth i k 0 in
  (((k 0 .^ k 1) .^ (k 2 .^ k 3)) .^ ((k 4 .^ k 5) .^ (k 6 .^ k 7)))%nat .^ 0x1BD11BDAA9FC1A22.
Definition TFBIG_KINIT_t2 (t0 t1 : Z) : Z := t0 .^ t1.

Definition SKBI (k : list Z) (s i : nat) : Z := nth (nth i (nth s M9 []) 0%nat) k 0.
Definition SKBT (t : list Z) (s v : nat) : Z := nth (nth v (nth s M3 []) 0%nat) t 0.

Definition TFBIG_ADDKEY (w k t : list Z) (s : nat) : list Z :=
  let w := upd 0 (SPH_T64 (nth 0 w 0 + SKBI k s 0)) w in
  let w := upd 1 (SPH_T64 (nth 1 w 0 + SKBI k s 1)) w in
  let w := upd 2 (SPH_T64 (nth 2 w 0 + SKBI k s 2)) w in
  let w := upd 3 (SPH_T64 (nth 3 w 0 + SKBI k s 3)) w in
  let w := upd 4 (SPH_T64 (nth 4 w 0 + SKBI k s 4)) w in
  let w := upd 5 (SPH_T64 (nth 5 w 0 + SKBI k s 5 + SKBT t s 0)) w in
  let w := upd 6 (SPH_T64 (nth 6 w 0 + SKBI k s 6 + SKBT t s 1)) w in
  upd 7 (SPH_T64 (nth 7 w 0 + SKBI k s 7 + Z.of_nat s)) w.

Definition TFBIG_MIX (x0 x1 : nat) (rc : Z) (w : list Z) : list Z :=
  let w := upd x0 (SPH_T64 (nth x0 w 0 + nth x1 w 0)) w in
  upd x1 (SPH_ROTL64 (nth x1 w 0) rc .^ nth x0 w 0) w.

Definition TFBIG_MIX8 (w0 w1 w2 w3 w4 w5 w6 w7 : nat) (rc0 rc1 rc2 rc3 : Z) (w : list Z) : list Z :=
  let w := TFBIG_MIX w0 w1 rc0 w in
  let w := TFBIG_MIX w2 w3 rc1 w in
  let w := TFBIG_MIX w4 w5 rc2 w in
  TFBIG_MIX w6 w7 rc3 w.

(** The four rounds of [TFBIG_4e] and of [TFBIG_4o], after the key addition. *)
Definition MIX_4e (p : list Z) : list Z :=
  let p := TFBIG_MIX8 0 1 2 3 4 5 6 7 46 36 19 37 p in
  let p := TFBIG_MIX8 2 1 4 7 6 5 0 3 33 27 14 42 p in
  let p := TFBIG_MIX8 4 1 6 3 0 5 2 7 17 49 36 39 p in
  TFBIG_MIX8 6 1 0 7 2 5 4 3 44 9 54 56 p.

Definition MIX_4o (p : list Z) : list Z :=
  let p := TFBIG_MIX8 0 1 2 3 4 5 6 7 39 30 34 24 p in
  let p := TFBIG_MIX8 2 1 4 7 6 5 0 3 13 50 10 17 p in
  let p := TFBIG_MIX8 4 1 6 3 0 5 2 7 25 29 39 43 p in
  TFBIG_MIX8 6 1 0 7 2 5 4 3 8 35 56 22 p.

Definition TFBIG_4e (h t : list Z) (s : nat) (p : list Z) : list Z := MIX_4e (TFBIG_ADDKEY p h t s).
Definition TFBIG_4o (h t : list Z) (s : nat) (p : list Z) : list Z := MIX_4o (TFBIG_ADDKEY p h t s).

(** [m0] .. [m7]. *)
Definition M_words (buf : list Z) : list Z := map (fun i => sph_dec64le (skipn (8 * i) buf)) (seq 0 8).

(** The tweak words of [UBI_BIG(etype, extra)]. *)
Definition UBI_t0 (bcount extra : Z) : Z := SPH_T64 (SPH_T64 (bcount << 6) + extra).
Definition UBI_t1 (bcount etype : Z) : Z := SPH_T64 ((bcount >> 58) + SPH_T64 (etype << 55)).

(** [h0 = m0 ^ p0] and so on. *)
Definition FEEDFORWARD (m p : list Z) : list Z := map (fun i => nth i m 0 .^ nth i p 0) (seq 0 8).

Definition UBI_BIG (buf h : list Z) (bcount etype extra : Z) : list Z :=
  let m := M_words buf in
  let p := m in
  let t0 := UBI_t0 bcount extra in
  let t1 := UBI_t1 bcount etype in
  let t2 := TFBIG_KINIT_t2 t0 t1 in
  let h := firstn 8 h ++ [TFBIG_KINIT_k8 h] in
  let t := [t0; t1; t2] in
  let p := TFBIG_4e h t 0 p in
  let p := TFBIG_4o h t 1 p in
  let p := TFBIG_4e h t 2 p in
  let p := TFBIG_4o h t 3 p in
  let p := TFBIG_4e h t 4 p in
  let p := TFBIG_4o h t 5 p in
  let p := TFBIG_4e h t 6 p in
  let p := TFBIG_4o h t 7 p in
  let p := TFBIG_4e h t 8 p in
  let p := TFBIG_4o h t 9 p in
  let p := TFBIG_4e h t 10 p in
  let p := TFBIG_4o h t 11 p in
  let p := TFBIG_4e h t 12 p in
  let p := TFBIG_4o h t 13 p in
  let p := TFBIG_4e h t 14 p in
  let p := TFBIG_4o h t 15 p in
  let p := TFBIG_4e h t 16 p in
  let p := TFBIG_4o h t 17 p in
  let p := TFBIG_ADDKEY p h t 18 in
  FEEDFORWARD m p.

(** ** The small-footprint configuration: [h] is [h[27]] *)

Definition TFBIG_ADDKEY_small (h : list Z) (s : nat) (tt0 tt1 : Z) (p : list Z) : list Z :=
  let p := upd 0 (SPH_T64 (nth 0 p 0 + nth (s + 0) h 0)) p in
  let p := upd 1 (SPH_T64 (nth 1 p 0 + nth (s + 1) h 0)) p in
  let p := upd 2 (SPH_T64 (nth 2 p 0 + nth (s + 2) h 0)) p in
  let p := upd 3 (SPH_T64 (nth 3 p 0 + nth (s + 3) h 0)) p in
  let p := upd 4 (SPH_T64 (nth 4 p 0 + nth (s + 4) h 0)) p in
  let p := upd 5 (SPH_T64 (nth 5 p 0 + nth (s + 5) h 0 + tt0)) p in
  let p := upd 6 (SPH_T64 (nth 6 p 0 + nth (s + 6) h 0 + tt1)) p in
  upd 7 (SPH_T64 (nth 7 p 0 + nth (s + 7) h 0 + Z.of_nat s)) p.

Definition TFBIG_4e_small (h : list Z) (t0 t1 t2 : Z) (s : nat) (p : list Z) : list Z :=
  MIX_4e (TFBIG_ADDKEY_small h s t0 t1 p).
Definition TFBIG_4o_small (h : list Z) (t0 t1 t2 : Z) (s : nat) (p : list Z) : list Z :=
  MIX_4o (TFBIG_ADDKEY_small h s t1 t2 p).

(** [for (u = 0; u <= 15; u += 3) h[u + 9 ..] = h[u ..]]: the body for one [u]. *)
Definition key_extend (h : list Z) (u : nat) : list Z :=
  let h := upd (u + 9) (nth (u + 0) h 0) h in
  let h := upd (u + 10) (nth (u + 1) h 0) h in
  upd (u + 11) (nth (u + 2) h 0) h.

(** The body of [for (u = 0; u < 9; u ++)], on [t0], [t1], [t2] and [p]. *)
Definition small_turn (h : list Z) (v : (Z * Z * Z) * list Z) (u : nat) : (Z * Z * Z) * list Z :=
  let '((t0, t1, t2), p) := v in
  let s := (2 * u)%nat in
  let p := TFBIG_4e_small h t0 t1 t2 s p in
  let p := TFBIG_4o_small h t0 t1 t2 (s + 1) p in
  let tmp := t2 in
  ((tmp, t0, t1), p).

(** [UBI_BIG] on the array [h[27]]. *)
Definition UBI_BIG_small (buf h : list Z) (bcount etype extra : Z) : list Z :=
  let m := M_words buf in
  let t0 := UBI_t0 bcount extra in
  let t1 := UBI_t1 bcount etype in
  let t2 := TFBIG_KINIT_t2 t0 t1 in
  let h := upd 8 (TFBIG_KINIT_k8 h) h in
  let h := fold_left key_extend [0; 3; 6; 9; 12; 15]%nat h in
  let '((t0, t1, t2), p) := fold_left (small_turn h) (seq 0 9) ((t0, t1, t2), m) in
  let p := TFBIG_ADDKEY_small h 18 t0 t1 p in
  memcpy h 0 (FEEDFORWARD m p).

(** ** The functions over the context *)

Record state : Type := mkState { h : list Z; bcount : Z }.
Definition sph_skein_big_context : Type := context state.

Definition skein_big_init (sc : sph_skein_big_context) (iv : list Z) : sph_skein_big_context :=
  mkContext (buf sc) 0 (mkState iv 0).

(** [(bcount == 0) << 7]. *)
Definition first_flag (bcount : Z) : Z := if bcount =? 0 then 128 else 0.

(** [do { ... } while (len > 0)]: the context and the data not consumed within
    [fuel] turns. *)
Fixpoint skein_loop (fuel : nat) (first : Z) (sc : sph_skein_big_context) (data : list Z)
  : sph_skein_big_context * list Z :=
  match fuel with
  | O => (sc, data)
  | S fuel =>
      let '(first, sc) :=
        if (ptr sc =? 64)%nat then
          let bcount := SPH_T64 (bcount (st sc) + 1) in
          (0, mkContext (buf sc) 0
                (mkState (UBI_BIG (firstn 64 (buf sc)) (h (st sc)) bcount (96 + first) 0) bcount))
        else (first, sc) in
      let clen := Nat.min (64 - ptr sc) (length data) in
      let sc := mkContext (memcpy (buf sc) (ptr sc) (firstn clen data)) (ptr sc + clen) (st sc) in
      let data := skipn clen data in
      match data with [] => (sc, []) | _ => skein_loop fuel first sc data end
  end.

(** A turn consumes a byte or more when there are data, and the loop is entered
    with more data than fit: [length data] turns are enough ([skein_loop_absorbed]). *)
Definition skein_big_core (sc : sph_skein_big_context) (data : list Z) : sph_skein_big_context :=
  if (length data <=? 64 - ptr sc)%nat
  then mkContext (memcpy (buf sc) (ptr sc) data) (ptr sc + length data) (st sc)
  else fst (skein_loop (length data) (first_flag (bcount (st sc))) sc data).

(** Bit padding, last message block, output block. *)
Definition skein_big_close (sc : sph_skein_big_context) (ub : Z) (n : nat) (out_len : nat)
  : list Z * sph_skein_big_context :=
  let z := 0x80 >> Z.of_nat n in
  let x := ((ub .& - z) .| z) .& 0xFF in
  let sc := if (n =? 0)%nat then sc else skein_big_core sc [x] in
  let buf1 := memcpy (buf sc) (ptr sc) (repeat 0 (64 - ptr sc)) in
  let et := 352 + first_flag (bcount (st sc)) + (if (n =? 0)%nat then 0 else 1) in
  let h1 := UBI_BIG (firstn 64 buf1) (h (st sc)) (bcount (st sc)) et (Z.of_nat (ptr sc)) in
  let buf2 := memcpy buf1 0 (repeat 0 64) in
  let h2 := UBI_BIG (firstn 64 buf2) h1 0 510 8 in
  let buf3 := memcpy buf2 0 (flat_map (fun k => sph_enc64le (nth k h2 0)) (seq 0 8)) in
  (firstn out_len buf3, mkContext buf3 (ptr sc) (st sc)).

Definition sph_skein224_init (cc : sph_skein_big_context) : sph_skein_big_context := skein_big_init cc IV224.
Definition sph_skein224 (cc : sph_skein_big_context) (data : list Z) : sph_skein_big_context :=
  skein_big_core cc data.
Definition sph_skein224_addbits_and_close (cc : sph_skein_big_context) (ub : Z) (n : nat)
  : list Z * sph_skein_big_context :=
  let '(dst, cc) := skein_big_close cc ub n 28 in (dst, sph_skein224_init cc).
Definition sph_skein224_close (cc : sph_skein_big_context) : list Z * sph_skein_big_context :=
  sph_skein224_addbits_and_close cc 0 0.

Definition sph_skein256_init (cc : sph_skein_big_context) : sph_skein_big_context := skein_big_init cc IV256.
Definition sph_skein256 (cc : sph_skein_big_context) (data : list Z) : sph_skein_big_context :=
  skein_big_core cc data.
Definition sph_skein256_addbits_and_close (cc : sph_skein_big_context) (ub : Z) (n : nat)
  : list Z * sph_skein_big_context :=
  let '(dst, cc) := skein_big_close cc ub n 32 in (dst, sph_skein256_init cc).
Definition sph_skein256_close (cc : sph_skein_big_context) : list Z * sph_skein_big_context :=
  sph_skein256_addbits_and_close cc 0 0.

Definition sph_skein384_init (cc : sph_skein_big_context) : sph_skein_big_context := skein_big_init cc IV384.
Definition sph_skein384 (cc : sph_skein_big_context) (data : list Z) : sph_skein_big_context :=
  skein_big_core cc data.
Definition sph_skein384_addbits_and_close (cc : sph_skein_big_context) (ub : Z) (n : nat)
  : list Z * sph_skein_big_context :=
  let '(dst, cc) := skein_big_close cc ub n 48 in (dst, sph_skein384_init cc).
Definition sph_skein384_close (cc : sph_skein_big_context) : list Z * sph_skein_big_context :=
  sph_skein384_addbits_and_close cc 0 0.

Definition sph_skein512_init (cc : sph_skein_big_context) : sph_skein_big_context := skein_big_init cc IV512.
Definition sph_skein512 (cc : sph_skein_big_context) (data : list Z) : sph_skein_big_context :=
  skein_big_core cc data.
Definition sph_skein512_addbits_and_close (cc : sph_skein_big_context) (ub : Z) (n : nat)
  : list Z * sph_skein_big_context :=
  let '(dst, cc) := skein_big_close cc ub n 64 in (dst, sph_skein512_init cc).
Definition sph_skein512_close (cc : sph_skein_big_context) : list Z * sph_skein_big_context :=
  sph_skein512_addbits_and_close cc 0 0.

(** ** The Skein specification *)

(** Threefish-512: rotation constants by round and pair, and the permutation. *)
Definition rotation : list (list Z) :=
  [[46; 36; 19; 37]; [33; 27; 14; 42]; [17; 49; 36; 39]; [44; 9; 54; 56];
   [39; 30; 34; 24]; [13; 50; 10; 17]; [25; 29; 39; 43]; [8; 35; 56; 22]].
Definition pi : list nat := [2; 1; 4; 7; 6; 5; 0; 3]%nat.

Definition mix (rc x0 x1 : Z) : list Z :=
  let y0 := (x0 + x1) mod 2 ^ 64 in [y0; SPH_ROTL64 x1 rc .^ y0].

(** Round [d], without the subkey: four mixes, then the permutation. *)
Definition tf_round (d : nat) (v : list Z) : list Z :=
  let rc := nth (d mod 8) rotation [] in
  let f := flat_map (fun j => mix (nth j rc 0) (nth (2 * j) v 0) (nth (2 * j + 1) v 0)) (seq 0 4) in
  map (fun i => nth i f 0) pi.

(** Subkey [s] of the key [k] (nine words) and the tweak [t] (three words). *)
Definition subkey (k t : list Z) (s : nat) : list Z :=
  map (fun i => nth ((s + i) mod 9) k 0
       + (if (i =? 5)%nat then nth (s mod 3) t 0
          else if (i =? 6)%nat then nth ((s + 1) mod 3) t 0
          else if (i =? 7)%nat then Z.of_nat s else 0)) (seq 0 8).

Definition add_subkey (k t : list Z) (s : nat) (v : list Z) : list Z :=
  let sk := subkey k t s in
  map (fun i => (nth i v 0 + nth i sk 0) mod 2 ^ 64) (seq 0 8).

(** Round [d], with the subkey added before every fourth one. *)
Definition tf_keyed_round (k t v : list Z) (d : nat) : list Z :=
  tf_round d (if (d mod 4 =? 0)%nat then add_subkey k t (d / 4) v else v).

Definition threefish (key tweak pt : list Z) : list Z :=
  let k := key ++ [fold_left Z.lxor key 0x1BD11BDAA9FC1A22] in
  let t := tweak ++ [nth 0 tweak 0 .^ nth 1 tweak 0] in
  add_subkey k t 18 (fold_left (tf_keyed_round k t) (seq 0 72) pt).

(** One step of UBI: [pos] bytes processed up to and with this block. *)
Definition ubi_tweak (pos type : Z) (first final : bool) : Z :=
  pos + type * 2 ^ 120 + Z.b2z first * 2 ^ 126 + Z.b2z final * 2 ^ 127.

Definition words64 (b : list Z) : list Z := map (fun i => le_word (firstn 8 (skipn (8 * i) b))) (seq 0 8).

Definition ubi_block (b g : list Z) (tweak : Z) : list Z :=
  let m := words64 b in
  let c := threefish g [tweak mod 2 ^ 64; tweak / 2 ^ 64] m in
  map (fun i => nth i m 0 .^ nth i c 0) (seq 0 8).

(** Number of blocks of a byte string: at least one. *)
Definition blocks (n : nat) : nat := S ((n - 1) / 64).

Definition ubi_step (m : list Z) (type : Z) (g : list Z) (i : nat) : list Z :=
  let b := firstn 64 (skipn (64 * i) m) in
  let final := (S i =? blocks (length m))%nat in
  ubi_block (b ++ repeat 0 (64 - length b)) g
    (ubi_tweak (Z.of_nat (Nat.min (64 * S i) (length m))) type (i =? 0)%nat final).

Definition ubi (g m : list Z) (type : Z) : list Z :=
  fold_left (ubi_step m type) (seq 0 (blocks (length m))) g.

(** The configuration string for an output of [n] bits: schema ["SHA3"],
    version 1, output length, no tree. *)
Definition config (n : Z) : list Z :=
  [0x53; 0x48; 0x41; 0x33] ++ le_bytes 2 1 ++ [0; 0] ++ le_bytes 8 n ++ repeat 0 16.

Definition skein_spec (n : Z) (m : list Z) : list Z :=
  let g0 := ubi (repeat 0 8) (config n) 4 in
  let g1 := ubi g0 m 48 in
  firstn (Z.to_nat (n / 8)) (flat_map (le_bytes 8) (ubi g1 (le_bytes 8 0) 63)).

(** ** The block cipher refines Threefish-512 *)

(** A list of eight words, by its words. *)
Ltac eight v :=
  repeat (let x := fresh "w" in destruct v as [|x v]; [discriminate|]);
  destruct v; [|discriminate].

Lemma M9_mod s i : (s <= 18)%nat -> (i <= 7)%nat -> nth i (nth s M9 []) 0%nat = ((s + i) mod 9)%nat.
Proof.
  intros Hs Hi. do 19 (destruct s as [|s]; [do 8 (destruct i as [|i]; [reflexivity|]); lia|]). lia.
Qed.

Lemma M3_mod s i : (s <= 18)%nat -> (i <= 1)%nat -> nth i (nth s M3 []) 0%nat = ((s + i) mod 3)%nat.
Proof.
  intros Hs Hi. do 19 (destruct s as [|s]; [do 2 (destruct i as [|i]; [reflexivity|]); lia|]). lia.
Qed.

(** The key addition, which reads its words through the macros, adds subkey [s]. *)
Lemma TFBIG_ADDKEY_subkey w k t s :
  (s <= 18)%nat -> length w = 8%nat -> TFBIG_ADDKEY w k t s = add_subkey k t s w.
Proof.
  intros Hs Hw. eight w. unfold TFBIG_ADDKEY, add_subkey, subkey, SKBI, SKBT.
  rewrite !M9_mod, !M3_mod by lia. rewrite (Nat.add_0_r s). cbn [upd nth map seq Nat.eqb].
  rewrite !SPH_T64_mod, !Z.add_0_r, !Z.add_assoc, !Nat.add_0_r. reflexivity.
Qed.

(** Four rounds with renamed registers are four rounds with the permutation. *)
Ltac four_rounds v :=
  eight v; cbn -[SPH_T64 SPH_ROTL64 Z.add Z.lxor Z.modulo Z.pow];
  rewrite <- !SPH_T64_mod; reflexivity.

Lemma MIX_4e_rounds v :
  length v = 8%nat -> MIX_4e v = tf_round 3 (tf_round 2 (tf_round 1 (tf_round 0 v))).
Proof. intros Hv. four_rounds v. Qed.

Lemma MIX_4o_rounds v :
  length v = 8%nat -> MIX_4o v = tf_round 7 (tf_round 6 (tf_round 5 (tf_round 4 v))).
Proof. intros Hv. four_rounds v. Qed.

Lemma length_MIX8 a b c d e f g h r0 r1 r2 r3 v :
  length (TFBIG_MIX8 a b c d e f g h r0 r1 r2 r3 v) = length v.
Proof. unfold TFBIG_MIX8, TFBIG_MIX. now rewrite !length_upd. Qed.

Lemma length_MIX_4e v : length (MIX_4e v) = length v.
Proof. unfold MIX_4e. now rewrite !length_MIX8. Qed.

Lemma length_MIX_4o v : length (MIX_4o v) = length v.
Proof. unfold MIX_4o. now rewrite !length_MIX8. Qed.

Lemma length_ADDKEY w k t s : length (TFBIG_ADDKEY w k t s) = length w.
Proof. unfold TFBIG_ADDKEY. now rewrite !length_upd. Qed.

Lemma tf_round_mod d v : tf_round (d mod 8) v = tf_round d v.
Proof. unfold tf_round. now rewrite Nat.Div0.mod_mod. Qed.

#[local] Opaque tf_round MIX_4e MIX_4o TFBIG_ADDKEY add_subkey.

(** Round [8 e + j] in terms of [j]. *)
Lemma tf_keyed_round_8 k t v e j :
  (j < 8)%nat ->
  tf_keyed_round k t v (8 * e + j)
  = tf_round j (if (j mod 4 =? 0)%nat then add_subkey k t (2 * e + j / 4) v else v).
Proof.
  intros Hj. unfold tf_keyed_round. rewrite <- (tf_round_mod (8 * e + j)).
  assert ((8 * e + j) mod 8 = j)%nat as -> by (symmetry; apply (Nat.mod_unique _ _ e); lia).
  assert (8 * e + j = j + (2 * e) * 4)%nat as -> by lia.
  rewrite Nat.Div0.mod_add, Nat.div_add by lia. now rewrite (Nat.add_comm (j / 4)).
Qed.

(** Eight rounds of the reference: one [TFBIG_4e] and one [TFBIG_4o]. *)
Lemma rounds8 k t e v :
  (e <= 8)%nat -> length v = 8%nat ->
  fold_left (tf_keyed_round k t) (seq (8 * e) 8) v
  = TFBIG_4o k t (2 * e + 1) (TFBIG_4e k t (2 * e) v).
Proof.
  intros He Hv. unfold TFBIG_4e, TFBIG_4o.
  rewrite MIX_4o_rounds, TFBIG_ADDKEY_subkey, MIX_4e_rounds, TFBIG_ADDKEY_subkey
    by (rewrite ?length_ADDKEY, ?length_MIX_4e, ?length_ADDKEY; lia).
  rewrite <- (map_add_seq (8 * e) 8).
  cbn [map seq fold_left]. rewrite !tf_keyed_round_8 by lia.
  change (4 / 4)%nat with 1%nat. change (0 / 4)%nat with 0%nat. cbn [Nat.modulo Nat.divmod Nat.eqb fst snd Nat.sub].
  now rewrite (Nat.add_0_r (2 * e)).
Qed.

Lemma length_4e k t s v : length (TFBIG_4e k t s v) = length v.
Proof. unfold TFBIG_4e. now rewrite length_MIX_4e, length_ADDKEY. Qed.

Lemma length_4o k t s v : length (TFBIG_4o k t s v) = length v.
Proof. unfold TFBIG_4o. now rewrite length_MIX_4o, length_ADDKEY. Qed.

Lemma rounds72 k t v :
  length v = 8%nat ->
  fold_left (tf_keyed_round k t) (seq 0 72) v
  = fold_left (fun v e => TFBIG_4o k t (2 * e + 1) (TFBIG_4e k t (2 * e) v)) (seq 0 9) v.
Proof.
  intros Hv. change (seq 0 72) with (flat_map (fun e => seq (8 * e) 8) (seq 0 9)).
  rewrite fold_left_flat_map.
  apply (fold_left_ext_inv (fun v => length v = 8%nat)); [|exact Hv].
  intros a e He Ha. apply in_seq in He. split; [apply rounds8; lia|].
  now rewrite length_4o, length_4e.
Qed.

#[local] Opaque tf_keyed_round TFBIG_4e TFBIG_4o.

Lemma M_words_words64 b : Forall byte b -> length b = 64%nat -> M_words b = words64 b.
Proof.
  intros Hb Hl. unfold M_words, words64. apply map_ext_in. intros i Hi. apply in_seq in Hi.
  apply sph_dec64le_word; [|now apply Forall_firstn_skipn]. rewrite length_skipn. lia.
Qed.

(** [UBI_BIG] is one step of UBI, with the tweak split into two words. *)
Lemma UBI_BIG_ubi b g bcount etype extra tweak :
  Forall byte b -> length b = 64%nat -> length g = 8%nat ->
  UBI_t0 bcount extra = tweak mod 2 ^ 64 -> UBI_t1 bcount etype = tweak / 2 ^ 64 ->
  UBI_BIG b g bcount etype extra = ubi_block b g tweak.
Proof.
  intros Hb Hl Hg H0 H1. unfold UBI_BIG, ubi_block. rewrite H0, H1, (M_words_words64 b) by assumption.
  unfold threefish, FEEDFORWARD, TFBIG_KINIT_t2.
  assert (Hk : firstn 8 g ++ [TFBIG_KINIT_k8 g] = g ++ [fold_left Z.lxor g 0x1BD11BDAA9FC1A22]).
  { rewrite firstn_all2 by lia. do 2 f_equal. eight g. unfold TFBIG_KINIT_k8. cbn [fold_left nth].
    rewrite (Z.lxor_comm _ 0x1BD11BDAA9FC1A22), !Z.lxor_assoc. reflexivity. }
  rewrite Hk. cbn [app nth]. set (k := g ++ _). set (t := [_; _; _]). set (m := words64 b).
  rewrite (rounds72 k t m) by reflexivity. cbn [fold_left seq]. cbn [Nat.mul Nat.add].
  now rewrite TFBIG_ADDKEY_subkey by (rewrite ?length_4o, ?length_4e; lia || reflexivity).
Qed.

(** ** The small-footprint configuration computes the same *)

#[local] Transparent TFBIG_ADDKEY TFBIG_4e TFBIG_4o.

Lemma nth_triple (k : list Z) n : length k = 9%nat -> (n < 27)%nat -> nth n (k ++ k ++ k) 0 = nth (n mod 9) k 0.
Proof.
  intros Hk Hn. destruct (Nat.lt_ge_cases n 9).
  - now rewrite app_nth1, Nat.mod_small by lia.
  - rewrite app_nth2 by lia. destruct (Nat.lt_ge_cases n 18).
    + rewrite app_nth1 by lia. f_equal. rewrite Hk. apply (Nat.mod_unique _ _ 1); lia.
    + rewrite app_nth2 by lia. f_equal. rewrite Hk. apply (Nat.mod_unique _ _ 2); lia.
Qed.

Lemma ADDKEY_small_eq k t s p :
  length k = 9%nat -> (s <= 18)%nat ->
  TFBIG_ADDKEY_small (k ++ k ++ k) s (SKBT t s 0) (SKBT t s 1) p = TFBIG_ADDKEY p k t s.
Proof.
  intros Hk Hs. unfold TFBIG_ADDKEY_small. rewrite !(nth_triple k) by lia.
  unfold TFBIG_ADDKEY, SKBI. rewrite !M9_mod by lia. reflexivity.
Qed.

(** [h[27]] after the copies holds the extended key three times. *)
Lemma key_extend_triple h :
  length h = 27%nat ->
  fold_left key_extend [0; 3; 6; 9; 12; 15]%nat (upd 8 (TFBIG_KINIT_k8 h) h)
  = let k := firstn 8 h ++ [TFBIG_KINIT_k8 h] in k ++ k ++ k.
Proof. intros Hh. eight h. reflexivity. Qed.

Lemma KINIT_k8_firstn h : length h = 27%nat -> TFBIG_KINIT_k8 (firstn 8 h) = TFBIG_KINIT_k8 h.
Proof. intros Hh. now eight h. Qed.

(** The rotating tweak words: [t[s mod 3]], [t[(s+1) mod 3]], [t[(s+2) mod 3]]. *)
Definition tweak3 (t : list Z) (s : nat) : Z * Z * Z :=
  (nth (s mod 3) t 0, nth ((s + 1) mod 3) t 0, nth ((s + 2) mod 3) t 0).

Lemma small_turn_eq k t u p :
  length k = 9%nat -> (u < 9)%nat ->
  small_turn (k ++ k ++ k) (tweak3 t (2 * u), p) u
  = (tweak3 t (2 * S u), TFBIG_4o k t (2 * u + 1) (TFBIG_4e k t (2 * u) p)).
Proof.
  intros Hk Hu. unfold small_turn, tweak3, TFBIG_4e_small, TFBIG_4o_small. f_equal.
  - replace (2 * S u)%nat with (2 * u + 2)%nat by lia.
    replace (2 * u + 2 + 1)%nat with (2 * u + 1 * 3)%nat by lia.
    replace (2 * u + 2 + 2)%nat with (2 * u + 1 + 1 * 3)%nat by lia.
    now rewrite !Nat.Div0.mod_add.
  - unfold TFBIG_4o, TFBIG_4e.
    rewrite <- !(ADDKEY_small_eq k t) by lia. unfold SKBT. rewrite !M3_mod by lia.
    now rewrite !Nat.add_0_r, <- Nat.add_assoc.
Qed.

Lemma small_turns k t n m :
  length k = 9%nat -> (n <= 9)%nat ->
  fold_left (small_turn (k ++ k ++ k)) (seq 0 n) (tweak3 t 0, m)
  = (tweak3 t (2 * n), fold_left (fun v e => TFBIG_4o k t (2 * e + 1) (TFBIG_4e k t (2 * e) v)) (seq 0 n) m).
Proof.
  intros Hk. induction n as [|n IH]; intros Hn; [reflexivity|].
  rewrite seq_S, !fold_left_app, IH by lia. cbn [fold_left Nat.add]. apply small_turn_eq; lia.
Qed.

#[local] Opaque TFBIG_4e TFBIG_4o TFBIG_ADDKEY TFBIG_ADDKEY_small TFBIG_KINIT_k8 UBI_t0 UBI_t1 sph_dec64le.

(** Both configurations of skein.c compute the same chaining value: the loop
    over the extended key [h[27]] with rotating tweak words leaves in [h[0]] ..
    [h[7]] what the unrolled rounds, reading the key and the tweak through the
    macros [M9_s_i] and [M3_s_i], compute from [h0] .. [h7], whatever the other
    words of the array hold. *)
Theorem UBI_BIG_small_eq b h bcount etype extra :
  length h = 27%nat ->
  firstn 8 (UBI_BIG_small b h bcount etype extra) = UBI_BIG b (firstn 8 h) bcount etype extra.
Proof.
  intros Hh. unfold UBI_BIG_small. rewrite (key_extend_triple h Hh). cbv zeta.
  unfold UBI_BIG. rewrite firstn_firstn, (KINIT_k8_firstn h Hh). cbv zeta. cbn [Nat.min].
  set (k := firstn 8 h ++ _). assert (Hk : length k = 9%nat)
    by (unfold k; rewrite length_app, length_firstn; cbn [length]; lia).
  set (t := [UBI_t0 _ _; UBI_t1 _ _; _]). set (m := M_words b).
  change (UBI_t0 bcount extra, UBI_t1 bcount etype, _) with (tweak3 t 0).
  rewrite (small_turns k t 9 m Hk) by lia. cbn [fold_left seq]. cbn [Nat.mul Nat.add].
  change (tweak3 t 18) with (SKBT t 18 0, SKBT t 18 1, nth 2 t 0). cbv iota beta.
  rewrite (ADDKEY_small_eq k t 18) by lia.
  reflexivity.
Qed.

Lemma UBI_BIG_small_eq_witness :
  firstn 8 (UBI_BIG_small (repeat 1 64) (repeat 5 27) 3 96 0)
  = UBI_BIG (repeat 1 64) (firstn 8 (repeat 5 27)) 3 96 0.
Proof. apply UBI_BIG_small_eq. reflexivity. Defined.

(** ** The update loop *)

#[local] Opaque UBI_BIG ubi_block.
#[local] Transparent UBI_t0 UBI_t1.

(** The two tweak words of the code, from the 128-bit tweak. *)
Lemma UBI_tweak bc extra type first final :
  0 <= bc -> 0 <= extra -> 64 * bc + extra < 2 ^ 64 -> 0 <= type < 64 ->
  let tweak := ubi_tweak (64 * bc + extra) type first final in
  UBI_t0 bc extra = tweak mod 2 ^ 64 /\
  UBI_t1 bc (2 * type + 128 * Z.b2z first + 256 * Z.b2z final) = tweak / 2 ^ 64.
Proof.
  intros Hbc He Hlt Ht tweak.
  assert (Hf : 0 <= Z.b2z first <= 1) by (destruct first; cbn; lia).
  assert (Hl : 0 <= Z.b2z final <= 1) by (destruct final; cbn; lia).
  set (et := 2 * type + 128 * Z.b2z first + 256 * Z.b2z final).
  assert (Ew : tweak = et * 2 ^ 55 * 2 ^ 64 + (64 * bc + extra))
    by (unfold tweak, ubi_tweak, et; lia).
  assert (Hdiv : et * 2 ^ 55 = tweak / 2 ^ 64) by (apply (Z.div_unique _ _ _ (64 * bc + extra)); lia).
  assert (Hmod : 64 * bc + extra = tweak mod 2 ^ 64) by (apply (Z.mod_unique _ _ (et * 2 ^ 55)); lia).
  split.
  - unfold UBI_t0. rewrite <- Hmod, Z.shiftl_mul_pow2 by lia. change (2 ^ 6) with 64.
    rewrite (SPH_T64_id (bc * 64)), SPH_T64_id by (unfold word; lia). lia.
  - unfold UBI_t1. rewrite <- Hdiv, Z.shiftl_mul_pow2, Z.shiftr_div_pow2 by lia.
    rewrite (Z.div_small bc) by lia.
    rewrite (SPH_T64_id (et * 2 ^ 55)), SPH_T64_id by (unfold word, et in *; lia). reflexivity.
Qed.

Lemma length_ubi_block b g t : length (ubi_block b g t) = 8%nat.
Proof. reflexivity. Qed.

Lemma first_flag_b2z k : first_flag (Z.of_nat k) = 128 * Z.b2z (k =? 0)%nat.
Proof. unfold first_flag. destruct (Nat.eqb_spec k 0); destruct (Z.eqb_spec (Z.of_nat k) 0); lia || reflexivity. Qed.

(** The last block and the output block. *)
Lemma UBI_BIG_step m type g i bc extra etype :
  Forall byte m -> length g = 8%nat -> (length m <= 64 * S i)%nat -> (64 * i < length m \/ i = 0)%nat ->
  0 <= type < 64 -> Z.of_nat (length m) < 2 ^ 61 ->
  bc = Z.of_nat i -> extra = Z.of_nat (length m - 64 * i) ->
  etype = 256 + 2 * type + first_flag bc ->
  UBI_BIG (skipn (64 * i) m ++ repeat 0 (64 - (length m - 64 * i))) g bc etype extra = ubi_step m type g i.
Proof.
  intros Hm Hg Hlast Hne Ht Hlen -> -> ->. rewrite first_flag_b2z.
  unfold ubi_step. rewrite (firstn_all2 (n := 64)) by (rewrite length_skipn; lia).
  rewrite length_skipn, Nat.min_r by lia.
  assert ((S i =? blocks (length m))%nat = true) as ->.
  { apply Nat.eqb_eq. unfold blocks. f_equal. apply (Nat.div_unique _ _ _ (length m - 1 - 64 * i)%nat); lia. }
  destruct (UBI_tweak (Z.of_nat i) (Z.of_nat (length m - 64 * i)) type (i =? 0)%nat true) as [T0 T1]; try lia.
  replace (64 * Z.of_nat i + Z.of_nat (length m - 64 * i)) with (Z.of_nat (length m)) in T0, T1 by lia.
  apply UBI_BIG_ubi; auto.
  - apply Forall_app. split; [now apply Forall_firstn_skipn|]. apply Forall_repeat. unfold word. lia.
  - rewrite length_app, length_skipn, repeat_length. lia.
  - rewrite <- T1. f_equal. change (Z.b2z true) with 1. lia.
Qed.

Lemma ubi_last g m type k :
  (length m <= 64 * S k)%nat -> (64 * k < length m \/ k = 0)%nat ->
  ubi g m type = ubi_step m type (fold_left (ubi_step m type) (seq 0 k) g) k.
Proof.
  intros Hl Hn. unfold ubi, blocks.
  assert ((length m - 1) / 64 = k)%nat as ->
    by (symmetry; apply (Nat.div_unique _ _ _ (length m - 1 - 64 * k)%nat); lia).
  now rewrite seq_S, fold_left_app.
Qed.

Section Update.
Context (iv : list Z) (iv_length : length iv = 8%nat).

(** The chaining value after the first [k] blocks of a message that goes on. *)
Definition mid_step (m : list Z) (g : list Z) (i : nat) : list Z :=
  ubi_block (firstn 64 (skipn (64 * i) m)) g
    (ubi_tweak (Z.of_nat (64 * S i)) 48 (i =? 0)%nat false).
Definition mid (m : list Z) (k : nat) : list Z := fold_left (mid_step m) (seq 0 k) iv.

Lemma length_mid m k : length (mid m k) = 8%nat.
Proof.
  unfold mid. destruct k as [|k]; [exact iv_length|]. rewrite seq_S, fold_left_app.
  apply length_ubi_block.
Qed.

Lemma mid_app m d k : (64 * k <= length m)%nat -> mid (m ++ d) k = mid m k.
Proof.
  intros Hk. apply fold_left_ext_in. intros g i Hi. apply in_seq in Hi. unfold mid_step.
  rewrite skipn_skipn_app by lia. now rewrite firstn_firstn_app by (rewrite length_skipn; lia).
Qed.

(** All the blocks before the last one are middle blocks. *)
Lemma mid_ubi m k : (64 * k < length m \/ k = 0)%nat -> fold_left (ubi_step m 48) (seq 0 k) iv = mid m k.
Proof.
  intros Hk. apply fold_left_ext_in. intros g i Hi. apply in_seq in Hi.
  unfold ubi_step, mid_step, blocks.
  assert (i < (length m - 1) / 64)%nat by (apply Nat.div_le_lower_bound; lia).
  rewrite length_firstn, length_skipn, Nat.min_l, Nat.sub_diag, app_nil_r, Nat.min_l by lia.
  destruct (Nat.eqb_spec (S i) (S ((length m - 1) / 64))); [lia | reflexivity].
Qed.

(** The context after [m]: [k] blocks compressed, the rest in the buffer. *)
Record filled (k : nat) (m : list Z) (sc : sph_skein_big_context) : Prop := {
  filled_buf : (64 <= length (buf sc))%nat;
  filled_length : length m = (64 * k + ptr sc)%nat;
  filled_ptr : (ptr sc <= 64)%nat;
  filled_st : st sc = mkState (mid m k) (Z.of_nat k);
  filled_rest : firstn (ptr sc) (buf sc) = skipn (64 * k) m
}.

(** The fill level is zero only before the first byte. *)
Definition lazily (k : nat) (sc : sph_skein_big_context) : Prop := (0 < ptr sc \/ k = 0)%nat.

Lemma filled_copy k m sc piece :
  filled k m sc -> (ptr sc + length piece <= 64)%nat ->
  filled k (m ++ piece) (mkContext (memcpy (buf sc) (ptr sc) piece) (ptr sc + length piece) (st sc)).
Proof.
  intros [Hb Hl Hp Hst Hr] Hle. split; cbn [buf ptr st].
  - rewrite length_memcpy; lia.
  - rewrite length_app. lia.
  - exact Hle.
  - rewrite Hst, mid_app by lia. reflexivity.
  - rewrite firstn_memcpy, Hr, skipn_skipn_app by lia. reflexivity.
Qed.

(** Compressing a full buffer. *)
Lemma filled_flush k m sc :
  filled k m sc -> ptr sc = 64%nat -> Forall byte m -> Z.of_nat (length m) < 2 ^ 61 ->
  let bc := SPH_T64 (bcount (st sc) + 1) in
  bc = Z.of_nat (S k) /\
  filled (S k) m (mkContext (buf sc) 0
    (mkState (UBI_BIG (firstn 64 (buf sc)) (h (st sc)) bc (96 + first_flag (bcount (st sc))) 0) bc)).
Proof.
  intros [Hb Hl Hp Hst Hr] Hfull Hm Hlt bc. rewrite Hfull in Hr, Hl.
  assert (Ebc : bc = Z.of_nat (S k)).
  { unfold bc. rewrite Hst. cbn [bcount]. rewrite SPH_T64_id by (unfold word; lia). lia. }
  split; [exact Ebc|]. split; cbn [buf ptr st]; try lia.
  - rewrite Ebc, Hst, Hr. cbn [h bcount]. rewrite first_flag_b2z. f_equal.
    destruct (UBI_tweak (Z.of_nat (S k)) 0 48 (k =? 0)%nat false) as [T0 T1]; try lia.
    rewrite Z.add_0_r in T0, T1. replace (64 * Z.of_nat (S k)) with (Z.of_nat (64 * S k)) in T0, T1 by lia.
    change (2 * 48) with 96 in T1.
    rewrite (UBI_BIG_ubi (skipn (64 * k) m) _ _ _ _ _ ltac:(now apply Forall_firstn_skipn) ltac:(rewrite length_skipn; lia)
      (length_mid m k) T0 T1).
    unfold mid at 2. rewrite seq_S, fold_left_app. cbn [fold_left Nat.add].
    change (fold_left (mid_step m) (seq 0 k) iv) with (mid m k). unfold mid_step.
    rewrite (firstn_all2 (n := 64)) by (rewrite length_skipn; lia). reflexivity.
  - symmetry. apply skipn_all2. lia.
Qed.

(** The loop consumes its data, absorbs them and never ends on an empty buffer. *)
Lemma skein_loop_absorbed fuel first k m sc data :
  filled k m sc -> first = first_flag (bcount (st sc)) ->
  Forall byte m -> Forall byte data -> Z.of_nat (length (m ++ data)) < 2 ^ 61 ->
  data <> [] -> (length data <= fuel)%nat ->
  let r := skein_loop fuel first sc data in
  snd r = [] /\ (0 < ptr (fst r))%nat /\ length (buf (fst r)) = length (buf sc) /\
  exists k', filled k' (m ++ data) (fst r).
Proof.
  revert first k m sc data. induction fuel as [|fuel IH]; intros first k m sc data Hf Hfirst Hm Hd Hlen Hne Hfuel.
  { destruct data; [contradiction | cbn in Hfuel; lia]. }
  cbn [skein_loop]. set (flushed := if (ptr sc =? 64)%nat then _ else _).
  assert (Hfl : exists k1, filled k1 m (snd flushed) /\ (ptr (snd flushed) < 64)%nat /\
      buf (snd flushed) = buf sc /\ fst flushed = first_flag (bcount (st (snd flushed)))).
  { unfold flushed. rewrite length_app in Hlen. destruct (Nat.eqb_spec (ptr sc) 64) as [E|E].
    - destruct (filled_flush k m sc Hf E Hm ltac:(lia)) as [Ebc Hfl]. exists (S k).
      cbn [fst snd buf ptr st bcount]. rewrite <- Hfirst in Hfl. refine (conj Hfl (conj _ (conj eq_refl _))); [lia|].
      rewrite Ebc. unfold first_flag. destruct (Z.eqb_spec (Z.of_nat (S k)) 0); [lia | reflexivity].
    - exists k. pose proof (filled_ptr _ _ _ Hf). cbn [fst snd]. refine (conj Hf (conj _ (conj eq_refl Hfirst))). lia. }
  destruct flushed as [f1 sc1]. cbn [fst snd] in Hfl. destruct Hfl as (k1 & Hf1 & Hp1 & Hb1 & Hff1).
  set (clen := Nat.min (64 - ptr sc1) (length data)).
  assert (Hdl : (0 < length data)%nat) by (destruct data; [contradiction | cbn; lia]).
  assert (Hcl : length (firstn clen data) = clen) by (rewrite length_firstn; unfold clen; lia).
  pose proof (filled_copy k1 m sc1 (firstn clen data) Hf1 ltac:(unfold clen in *; lia)) as Hf2.
  rewrite Hcl in Hf2. set (sc2 := mkContext _ _ _) in *.
  assert (Hb2 : length (buf sc2) = length (buf sc))
    by (cbn [sc2 buf]; pose proof (filled_buf _ _ _ Hf1); rewrite length_memcpy, Hb1; unfold clen in *; congruence || lia).
  destruct (Forall_firstn_skipn byte clen data Hd) as [Hd1 Hd2].
  destruct (skipn clen data) as [|b rest] eqn:Esk.
  - cbn [fst snd]. repeat split; [cbn [sc2 ptr]; unfold clen; lia | exact Hb2 |].
    exists k1. rewrite <- (firstn_skipn clen data), Esk, app_nil_r. exact Hf2.
  - rewrite <- Esk in *.
    replace (m ++ data) with ((m ++ firstn clen data) ++ skipn clen data)
      by now rewrite <- app_assoc, firstn_skipn.
    destruct (IH f1 k1 (m ++ firstn clen data) sc2 (skipn clen data)) as (R1 & R2 & R3 & R4); auto.
    + apply Forall_app. now split.
    + now rewrite <- app_assoc, firstn_skipn.
    + rewrite Esk. discriminate.
    + rewrite length_skipn. unfold clen. lia.
    + repeat split; auto. congruence.
Qed.

Lemma skein_big_core_absorbed k m sc data :
  filled k m sc -> lazily k sc -> Forall byte m -> Forall byte data ->
  Z.of_nat (length (m ++ data)) < 2 ^ 61 ->
  length (buf (skein_big_core sc data)) = length (buf sc) /\
  exists k', filled k' (m ++ data) (skein_big_core sc data) /\ lazily k' (skein_big_core sc data).
Proof.
  intros Hf Hlz Hm Hd Hlen. unfold skein_big_core.
  pose proof (filled_buf _ _ _ Hf). pose proof (filled_ptr _ _ _ Hf).
  destruct (Nat.leb_spec (length data) (64 - ptr sc)) as [Hle|Hgt].
  - split; [cbn [buf]; apply length_memcpy; lia|].
    exists k. split; [apply filled_copy; [assumption | lia]|]. unfold lazily in *. cbn [ptr]. lia.
  - destruct (skein_loop_absorbed (length data) _ k m sc data Hf eq_refl) as (_ & R2 & R3 & k' & R4); auto.
    + intros ->. cbn in Hgt. lia.
    + split; [exact R3|]. exists k'. split; [exact R4 | left; exact R2].
Qed.

Lemma skein_updates pieces : forall k m sc,
  filled k m sc -> lazily k sc -> Forall byte m -> Forall (Forall byte) pieces ->
  Z.of_nat (length (m ++ concat pieces)) < 2 ^ 61 ->
  let sc' := fold_left skein_big_core pieces sc in
  length (buf sc') = length (buf sc) /\ exists k', filled k' (m ++ concat pieces) sc' /\ lazily k' sc'.
Proof.
  induction pieces as [|p ps IH]; intros k m sc Hf Hlz Hm Hps Hlen; cbn [fold_left concat] in *.
  - rewrite app_nil_r. eauto.
  - rewrite app_assoc in *. inversion Hps as [|? ? Hp Hps']; subst.
    destruct (skein_big_core_absorbed k m sc p Hf Hlz Hm Hp) as (Hl & k' & Hf' & Hlz').
    { rewrite length_app in Hlen. lia. }
    destruct (IH k' (m ++ p) _ Hf' Hlz') as (Hl2 & R); auto; [now apply Forall_app|].
    split; [congruence | exact R].
Qed.

(** ** The close *)

Lemma skein_close_filled k m sc out_len :
  filled k m sc -> lazily k sc -> Forall byte m -> Z.of_nat (length m) < 2 ^ 61 -> (out_len <= 64)%nat ->
  fst (skein_big_close sc 0 0 out_len)
  = firstn out_len (flat_map (le_bytes 8) (ubi (ubi iv m 48) (le_bytes 8 0) 63)).
Proof.
  intros [Hb Hl Hp Hst Hr] Hlz Hm Hlen Hout. unfold lazily in Hlz. unfold skein_big_close. cbn [fst Nat.eqb].
  assert (E1 : firstn 64 (memcpy (buf sc) (ptr sc) (repeat 0 (64 - ptr sc)))
               = skipn (64 * k) m ++ repeat 0 (64 - (length m - 64 * k))).
  { rewrite <- Hr. replace (length m - 64 * k)%nat with (ptr sc) by lia.
    rewrite <- firstn_memcpy by lia. f_equal. rewrite repeat_length. lia. }
  rewrite E1, Hst. cbn [h bcount].
  rewrite (UBI_BIG_step m 48 (mid m k) k) by (auto using length_mid || lia).
  rewrite <- mid_ubi, <- ubi_last by lia.
  assert (Hg : length (ubi iv m 48) = 8%nat) by (rewrite (ubi_last _ _ _ k) by lia; apply length_ubi_block).
  set (g := ubi iv m 48) in *. set (b1 := memcpy (buf sc) _ _).
  assert (Hb1 : length b1 = length (buf sc))
    by (unfold b1; rewrite length_memcpy; rewrite ?repeat_length; lia).
  assert (E2 : firstn 64 (memcpy b1 0 (repeat 0 64)) = skipn (64 * 0) (le_bytes 8 0)
      ++ repeat 0 (64 - (length (le_bytes 8 0) - 64 * 0))).
  { exact (firstn_memcpy b1 (repeat 0 64) 0 ltac:(lia)). }
  rewrite E2, (UBI_BIG_step (le_bytes 8 0) 63 g 0)
    by (reflexivity || assumption || apply le_bytes_byte || cbn [length le_bytes]; lia).
  change (ubi_step (le_bytes 8 0) 63 g 0) with (ubi g (le_bytes 8 0) 63).
  set (d := ubi g _ 63). rewrite (flat_map_nth_seq sph_enc64le 0 d 8) by reflexivity.
  rewrite (flat_map_ext _ _ sph_enc64le_bytes).
  unfold memcpy. cbn [firstn app]. apply firstn_firstn_app.
  rewrite (flat_map_constant_length (c := 8%nat)) by (intros; apply length_le_bytes).
  now change (length d) with 8%nat.
Qed.
End Update.

(** ** The configuration block *)

#[local] Transparent UBI_BIG ubi_block tf_round MIX_4e MIX_4o TFBIG_ADDKEY add_subkey
  TFBIG_KINIT_k8 sph_dec64le TFBIG_4e TFBIG_4o TFBIG_ADDKEY_small tf_keyed_round.

(** The tables of initial values are the chaining values after the
    configuration block. *)
Lemma IV_config :
  ubi (repeat 0 8) (config 224) 4 = IV224 /\ ubi (repeat 0 8) (config 256) 4 = IV256 /\
  ubi (repeat 0 8) (config 384) 4 = IV384 /\ ubi (repeat 0 8) (config 512) 4 = IV512.
Proof. refine (conj _ (conj _ (conj _ _))); vm_compute; reflexivity. Qed.
#[local] Opaque UBI_BIG ubi_block ubi.

(** ** Main results *)

(** The four functions: output length, initial value and API. *)
Definition skein_functions : list (Z * (sph_skein_big_context -> sph_skein_big_context)
    * (sph_skein_big_context -> list Z -> sph_skein_big_context)
    * (sph_skein_big_context -> list Z * sph_skein_big_context)) :=
  [(224, sph_skein224_init, sph_skein224, sph_skein224_close);
   (256, sph_skein256_init, sph_skein256, sph_skein256_close);
   (384, sph_skein384_init, sph_skein384, sph_skein384_close);
   (512, sph_skein512_init, sph_skein512, sph_skein512_close)].

Lemma skein_close_correct iv n out_len sc pieces :
  ubi (repeat 0 8) (config n) 4 = iv -> length iv = 8%nat -> Z.to_nat (n / 8) = out_len -> (out_len <= 64)%nat ->
  (64 <= length (buf sc))%nat -> Forall (Forall byte) pieces ->
  Z.of_nat (length (concat pieces)) < 2 ^ 61 ->
  let sc' := fold_left skein_big_core pieces (skein_big_init sc iv) in
  length (buf sc') = length (buf sc) /\ (ptr sc' <= 64)%nat /\
  fst (skein_big_close sc' 0 0 out_len) = skein_spec n (concat pieces).
Proof.
  intros Hiv Hl Hn Hout Hb Hps Hlen.
  destruct (skein_updates iv Hl pieces 0 [] (skein_big_init sc iv)) as (Hlb & k & Hf & Hlz); auto.
  - split; cbn; auto; lia.
  - now right.
  - split; [exact Hlb|]. cbn [app] in Hf. split; [exact (filled_ptr _ _ _ _ Hf)|].
    rewrite (skein_close_filled iv Hl k _ _ _ Hf Hlz (proj2 (Forall_concat _ _) Hps) Hlen Hout).
    unfold skein_spec. now rewrite Hiv, Hn.
Qed.

(** The Skein functions of the code are those of the specification, for each of
    the four output lengths: whatever the memory the context is placed in and
    however a message of less than 2^61 bytes is cut into pieces, init, updates
    and close return the bytes of three chained UBI calls on configuration,
    message and output counter, with the rounds in the order of Threefish-512.
    In particular the hard-coded initial values are those of the configuration
    blocks, and the final flag is set on the last block also when the message
    ends on a block boundary or is empty. *)
Theorem skein_functions_correct sc pieces :
  (64 <= length (buf sc))%nat -> Forall (Forall byte) pieces ->
  Z.of_nat (length (concat pieces)) < 2 ^ 61 ->
  Forall (fun '(n, init, update, close) =>
      fst (close (fold_left update pieces (init sc))) = skein_spec n (concat pieces)) skein_functions.
Proof.
  intros Hb Hps Hlen. destruct IV_config as (H224 & H256 & H384 & H512).
  pose proof (fun iv n l H1 H2 H3 H4 => proj2 (proj2 (skein_close_correct iv n l sc pieces H1 H2 H3 H4 Hb Hps Hlen))) as C.
  repeat constructor.
  - rewrite <- (C IV224 224 28%nat H224 eq_refl eq_refl ltac:(lia)).
    unfold sph_skein224_close, sph_skein224_addbits_and_close. now destruct (skein_big_close _ _ _ _).
  - rewrite <- (C IV256 256 32%nat H256 eq_refl eq_refl ltac:(lia)).
    unfold sph_skein256_close, sph_skein256_addbits_and_close. now destruct (skein_big_close _ _ _ _).
  - rewrite <- (C IV384 384 48%nat H384 eq_refl eq_refl ltac:(lia)).
    unfold sph_skein384_close, sph_skein384_addbits_and_close. now destruct (skein_big_close _ _ _ _).
  - rewrite <- (C IV512 512 64%nat H512 eq_refl eq_refl ltac:(lia)).
    unfold sph_skein512_close, sph_skein512_addbits_and_close. now destruct (skein_big_close _ _ _ _).
Qed.

Lemma skein_functions_correct_witness :
  Forall (fun '(n, init, update, close) =>
      fst (close (fold_left update [repeat 7 60; repeat 8 4]
        (init (mkContext (repeat 1 64) 5 (mkState [] 3))))) = skein_spec n (concat [repeat 7 60; repeat 8 4]))
    skein_functions.
Proof.
  apply skein_functions_correct; [apply Nat.leb_le; reflexivity | | reflexivity].
  repeat constructor; intros H; discriminate H.
Defined.

(** ** The interface *)

Definition skein512 : sph_hash :=
  mkHash sph_skein_big_context (fun sc => length (buf sc) = 64%nat)
    sph_skein512_init sph_skein512 sph_skein512_close.

Lemma skein_close_length sc out_len :
  (64 <= length (buf sc))%nat -> (ptr sc <= 64)%nat ->
  length (buf (snd (skein_big_close sc 0 0 out_len))) = length (buf sc).
Proof.
  intros Hb Hp. unfold skein_big_close. cbn [snd buf Nat.eqb].
  set (d := flat_map _ _). assert (Hd : length d = 64%nat) by reflexivity. clearbody d.
  assert (H1 : length (memcpy (buf sc) (ptr sc) (repeat 0 (64 - ptr sc))) = length (buf sc))
    by (apply length_memcpy; rewrite repeat_length; lia).
  set (b1 := memcpy (buf sc) _ _) in *.
  assert (H2 : length (memcpy b1 0 (repeat 0 64)) = length b1) by (apply length_memcpy; rewrite repeat_length; lia).
  rewrite length_memcpy; lia.
Qed.

#[export] Instance skein512_hasher : Hasher skein512 (skein_spec 512).
Proof.
  assert (Hspec : forall m, exists d, length d = 8%nat /\ skein_spec 512 m = flat_map (le_bytes 8) d).
  { intros m. unfold skein_spec. set (g := ubi (ubi _ m 48) _ 63). exists g.
    assert (Hg : length g = 8%nat)
      by (unfold g; rewrite (ubi_last _ _ _ 0) by (cbn [length le_bytes]; lia); apply length_ubi_block).
    split; [exact Hg|]. apply firstn_all2. rewrite (flat_map_constant_length (c := 8%nat)).
    - rewrite Hg. change (Z.to_nat (512 / 8)) with 64%nat. lia.
    - intros. apply length_le_bytes. }
  split.
  - intros sc pieces Hal Hps Hl. cbn [h_ctx h_alloc h_init h_update h_close skein512] in *.
    destruct IV_config as (_ & _ & _ & H512).
    destruct (skein_close_correct IV512 512 64 sc pieces H512 eq_refl eq_refl ltac:(lia) ltac:(lia) Hps ltac:(lia))
      as (Hlb & Hp & Hd).
    fold sph_skein512 in *. change (skein_big_init sc IV512) with (sph_skein512_init sc) in *.
    set (sc1 := fold_left sph_skein512 pieces (sph_skein512_init sc)) in *.
    change (fold_left skein_big_core pieces (sph_skein512_init sc)) with sc1 in *.
    exists (snd (skein_big_close sc1 0 0 64)). split.
    + rewrite skein_close_length; [congruence|lia|exact Hp].
    + rewrite <- Hd. unfold sph_skein512_close, sph_skein512_addbits_and_close.
      now destruct (skein_big_close sc1 0 0 64).
  - intros m. destruct (Hspec m) as (d & Hd & ->). rewrite (flat_map_constant_length (c := 8%nat)).
    + now rewrite Hd.
    + intros. apply length_le_bytes.
  - intros m. destruct (Hspec m) as (d & Hd & ->). apply Forall_flat_map, Forall_forall.
    intros x _. apply le_bytes_byte.
  - intros c Hc. exact Hc.
Qed.

End Skein.
