(* ===== verification/Bmw.v ===== *)
(** * src/crypto/bmw.c: BMW-384 and BMW-512 (the 64-bit functions)

    The compression [compress_big] makes 32 words [qt]: 16 from the message and
    the chaining value ([MAKE_Qab]), 16 by expansion ([MAKE_Qbb]), and folds them
    into the new chaining value ([FOLD]).  [qt] is the list of the words assigned
    so far.  The unrolled configuration reads its operands through the macros
    [I16_i] and [M16_i]; the configuration for [SPH_SMALL_FOOTPRINT_BMW] loops
    and computes the indices; both are modelled and proved equal.

    [bmw64] swaps the roles of [sc->H] and a temporary array after every block,
    and copies back at the end: the model keeps the current value only, since
    [FOLD] writes the 16 words of [dh] before it reads any of them.

    The reference digest pads the message with a one bit, zeros and its length in
    bits, hashes its blocks, and compresses the resulting chaining value once
    more, as a message, with the constant [final_b] as chaining value. *)

From Stdlib Require Import ZArith List Lia Bool.
From S2P Require Import Prelude SphTypes SphStream.
Import ListNotations.
Open Scope Z_scope.

Module Bmw.

(** ** Constants *)

Definition IV384 : list Z :=
  [0x0001020304050607; 0x08090A0B0C0D0E0F; 0x1011121314151617; 0x18191A1B1C1D1E1F;
   0x2021222324252627; 0x28292A2B2C2D2E2F; 0x3031323334353637; 0x38393A3B3C3D3E3F;
   0x4041424344454647; 0x48494A4B4C4D4E4F; 0x5051525354555657; 0x58595A5B5C5D5E5F;
   0x6061626364656667; 0x68696A6B6C6D6E6F; 0x7071727374757677; 0x78797A7B7C7D7E7F].

Definition IV512 : list Z :=
  [0x8081828384858687; 0x88898A8B8C8D8E8F; 0x9091929394959697; 0x98999A9B9C9D9E9F;
   0xA0A1A2A3A4A5A6A7; 0xA8A9AAABACADAEAF; 0xB0B1B2B3B4B5B6B7; 0xB8B9BABBBCBDBEBF;
   0xC0C1C2C3C4C5C6C7; 0xC8C9CACBCCCDCECF; 0xD0D1D2D3D4D5D6D7; 0xD8D9DADBDCDDDEDF;
   0xE0E1E2E3E4E5E6E7; 0xE8E9EAEBECEDEEEF; 0xF0F1F2F3F4F5F6F7; 0xF8F9FAFBFCFDFEFF].

Definition final_b : list Z :=
  [0xaaaaaaaaaaaaaaa0; 0xaaaaaaaaaaaaaaa1; 0xaaaaaaaaaaaaaaa2; 0xaaaaaaaaaaaaaaa3;
   0xaaaaaaaaaaaaaaa4; 0xaaaaaaaaaaaaaaa5; 0xaaaaaaaaaaaaaaa6; 0xaaaaaaaaaaaaaaa7;
   0xaaaaaaaaaaaaaaa8; 0xaaaaaaaaaaaaaaa9; 0xaaaaaaaaaaaaaaaa; 0xaaaaaaaaaaaaaaab;
   0xaaaaaaaaaaaaaaac; 0xaaaaaaaaaaaaaaad; 0xaaaaaaaaaaaaaaae; 0xaaaaaaaaaaaaaaaf].

(** The macros [I16_16] .. [I16_31] and [M16_16] .. [M16_31]. *)
Definition I16 : list (list nat) :=
  [[0; 1; 2; 3; 4; 5; 6; 7; 8; 9; 10; 11; 12; 13; 14; 15];
   [1; 2; 3; 4; 5; 6; 7; 8; 9; 10; 11; 12; 13; 14; 15; 16];
   [2; 3; 4; 5; 6; 7; 8; 9; 10; 11; 12; 13; 14; 15; 16; 17];
   [3; 4; 5; 6; 7; 8; 9; 10; 11; 12; 13; 14; 15; 16; 17; 18];
   [4; 5; 6; 7; 8; 9; 10; 11; 12; 13; 14; 15; 16; 17; 18; 19];
   [5; 6; 7; 8; 9; 10; 11; 12; 13; 14; 15; 16; 17; 18; 19; 20];
   [6; 7; 8; 9; 10; 11; 12; 13; 14; 15; 16; 17; 18; 19; 20; 21];
   [7; 8; 9; 10; 11; 12; 13; 14; 15; 16; 17; 18; 19; 20; 21; 22];
   [8; 9; 10; 11; 12; 13; 14; 15; 16; 17; 18; 19; 20; 21; 22; 23];
   [9; 10; 11; 12; 13; 14; 15; 16; 17; 18; 19; 20; 21; 22; 23; 24];
   [10; 11; 12; 13; 14; 15; 16; 17; 18; 19; 20; 21; 22; 23; 24; 25];
   [11; 12; 13; 14; 15; 16; 17; 18; 19; 20; 21; 22; 23; 24; 25; 26];
   [12; 13; 14; 15; 16; 17; 18; 19; 20; 21; 22; 23; 24; 25; 26; 27];
   [13; 14; 15; 16; 17; 18; 19; 20; 21; 22; 23; 24; 25; 26; 27; 28];
   [14; 15; 16; 17; 18; 19; 20; 21; 22; 23; 24; 25; 26; 27; 28; 29];
   [15; 16; 17; 18; 19; 20; 21; 22; 23; 24; 25; 26; 27; 28; 29; 30]]%nat.

Definition M16 : list (list nat) :=
  [[0; 1; 3; 4; 7; 10; 11];
   [1; 2; 4; 5; 8; 11; 12];
   [2; 3; 5; 6; 9; 12; 13];
   [3; 4; 6; 7; 10; 13; 14];
   [4; 5; 7; 8; 11; 14; 15];
   [5; 6; 8; 9; 12; 15; 16];
   [6; 7; 9; 10; 13; 0; 1];
   [7; 8; 10; 11; 14; 1; 2];
   [8; 9; 11; 12; 15; 2; 3];
   [9; 10; 12; 13; 0; 3; 4];
   [10; 11; 13; 14; 1; 4; 5];
   [11; 12; 14; 15; 2; 5; 6];
   [12; 13; 15; 16; 3; 6; 7];
   [13; 14; 0; 1; 4; 7; 8];
   [14; 15; 1; 2; 5; 8; 9];
   [15; 16; 2; 3; 6; 9; 10]]%nat.

(** ** Word functions *)

Definition sb0 (x : Z) : Z := (x >> 1) .^ SPH_T64 (x << 3) .^ SPH_ROTL64 x 4 .^ SPH_ROTL64 x 37.
Definition sb1 (x : Z) : Z := (x >> 1) .^ SPH_T64 (x << 2) .^ SPH_ROTL64 x 13 .^ SPH_ROTL64 x 43.
Definition sb2 (x : Z) : Z := (x >> 2) .^ SPH_T64 (x << 1) .^ SPH_ROTL64 x 19 .^ SPH_ROTL64 x 53.
Definition sb3 (x : Z) : Z := (x >> 2) .^ SPH_T64 (x << 2) .^ SPH_ROTL64 x 28 .^ SPH_ROTL64 x 59.
Definition sb4 (x : Z) : Z := (x >> 1) .^ x.
Definition sb5 (x : Z) : Z := (x >> 2) .^ x.
Definition rb1 (x : Z) : Z := SPH_ROTL64 x 5.
Definition rb2 (x : Z) : Z := SPH_ROTL64 x 11.
Definition rb3 (x : Z) : Z := SPH_ROTL64 x 27.
Definition rb4 (x : Z) : Z := SPH_ROTL64 x 32.
Definition rb5 (x : Z) : Z := SPH_ROTL64 x 37.
Definition rb6 (x : Z) : Z := SPH_ROTL64 x 43.
Definition rb7 (x : Z) : Z := SPH_ROTL64 x 53.
Definition Kb (j : nat) : Z := SPH_T64 (Z.of_nat j * 0x0555555555555555).

(** ** Expansion, unrolled: row [i16 - 16] of the tables gives the indices *)

Definition add_elt_b (M H : list Z) (y : list nat) (j16 : nat) : Z :=
  let m i := nth (nth i y 0%nat) M 0 in let r i := Z.of_nat (nth i y 0%nat) in
  SPH_T64 (SPH_ROTL64 (m 0%nat) (r 1%nat) + SPH_ROTL64 (m 2%nat) (r 3%nat)
           - SPH_ROTL64 (m 5%nat) (r 6%nat) + Kb j16) .^ nth (nth 4 y 0%nat) H 0.

Definition expand1b (M H qt : list Z) (i16 : nat) : Z :=
  let x := nth (i16 - 16) I16 [] in let y := nth (i16 - 16) M16 [] in
  let q k := nth (nth k x 0%nat) qt 0 in
  SPH_T64 (sb1 (q 0%nat) + sb2 (q 1%nat) + sb3 (q 2%nat) + sb0 (q 3%nat)
    + sb1 (q 4%nat) + sb2 (q 5%nat) + sb3 (q 6%nat) + sb0 (q 7%nat)
    + sb1 (q 8%nat) + sb2 (q 9%nat) + sb3 (q 10%nat) + sb0 (q 11%nat)
    + sb1 (q 12%nat) + sb2 (q 13%nat) + sb3 (q 14%nat) + sb0 (q 15%nat)
    + add_elt_b M H y i16).

Definition expand2b (M H qt : list Z) (i16 : nat) : Z :=
  let x := nth (i16 - 16) I16 [] in let y := nth (i16 - 16) M16 [] in
  let q k := nth (nth k x 0%nat) qt 0 in
  SPH_T64 (q 0%nat + rb1 (q 1%nat) + q 2%nat + rb2 (q 3%nat)
    + q 4%nat + rb3 (q 5%nat) + q 6%nat + rb4 (q 7%nat)
    + q 8%nat + rb5 (q 9%nat) + q 10%nat + rb6 (q 11%nat)
    + q 12%nat + rb7 (q 13%nat) + sb4 (q 14%nat) + sb5 (q 15%nat)
    + add_elt_b M H y i16).

(** ** Expansion, small-footprint: computed indices *)

Definition Kb_tab : list Z := map Kb (seq 16 16).

Definition rol_off (M : list Z) (j off : nat) : Z :=
  SPH_ROTL64 (nth ((j + off) mod 16) M 0) (Z.of_nat ((j + off) mod 16) + 1).

Definition add_elt_b_small (M H : list Z) (j : nat) : Z :=
  SPH_T64 (rol_off M j 0 + rol_off M j 3 - rol_off M j 10 + nth j Kb_tab 0) .^ nth ((j + 7) mod 16) H 0.

Definition expand1b_small (M H qt : list Z) (i : nat) : Z :=
  let q k := nth (i - k) qt 0 in
  SPH_T64 (sb1 (q 16%nat) + sb2 (q 15%nat) + sb3 (q 14%nat) + sb0 (q 13%nat)
    + sb1 (q 12%nat) + sb2 (q 11%nat) + sb3 (q 10%nat) + sb0 (q 9%nat)
    + sb1 (q 8%nat) + sb2 (q 7%nat) + sb3 (q 6%nat) + sb0 (q 5%nat)
    + sb1 (q 4%nat) + sb2 (q 3%nat) + sb3 (q 2%nat) + sb0 (q 1%nat)
    + add_elt_b_small M H (i - 16)).

Definition expand2b_small (M H qt : list Z) (i : nat) : Z :=
  let q k := nth (i - k) qt 0 in
  SPH_T64 (q 16%nat + rb1 (q 15%nat) + q 14%nat + rb2 (q 13%nat)
    + q 12%nat + rb3 (q 11%nat) + q 10%nat + rb4 (q 9%nat)
    + q 8%nat + rb5 (q 7%nat) + q 6%nat + rb6 (q 5%nat)
    + q 4%nat + rb7 (q 3%nat) + sb4 (q 2%nat) + sb5 (q 1%nat)
    + add_elt_b_small M H (i - 16)).

(** ** The first 16 words *)

(** [MAKE_W]: the operators as signs. *)
Definition MAKE_W (M H : list Z) (i0 : nat) (s1 : Z) (i1 : nat) (s2 : Z) (i2 : nat) (s3 : Z) (i3 : nat)
    (s4 : Z) (i4 : nat) : Z :=
  let x i := nth i M 0 .^ nth i H 0 in
  SPH_T64 (x i0 + s1 * x i1 + s2 * x i2 + s3 * x i3 + s4 * x i4).

(** [Wb0] .. [Wb15]. *)
Definition Wb (M H : list Z) : list Z :=
  [MAKE_W M H 5 (-1) 7 1 10 1 13 1 14;
   MAKE_W M H 6 (-1) 8 1 11 1 14 (-1) 15;
   MAKE_W M H 0 1 7 1 9 (-1) 12 1 15;
   MAKE_W M H 0 (-1) 1 1 8 (-1) 10 1 13;
   MAKE_W M H 1 1 2 1 9 (-1) 11 (-1) 14;
   MAKE_W M H 3 (-1) 2 1 10 (-1) 12 1 15;
   MAKE_W M H 4 (-1) 0 (-1) 3 (-1) 11 1 13;
   MAKE_W M H 1 (-1) 4 (-1) 5 (-1) 12 (-1) 14;
   MAKE_W M H 2 (-1) 5 (-1) 6 1 13 (-1) 15;
   MAKE_W M H 0 (-1) 3 1 6 (-1) 7 1 14;
   MAKE_W M H 8 (-1) 1 (-1) 4 (-1) 7 1 15;
   MAKE_W M H 8 (-1) 0 (-1) 2 (-1) 5 1 9;
   MAKE_W M H 1 1 3 (-1) 6 (-1) 9 1 10;
   MAKE_W M H 2 1 4 1 7 1 10 1 11;
   MAKE_W M H 3 (-1) 5 1 8 (-1) 11 (-1) 12;
   MAKE_W M H 12 (-1) 4 (-1) 6 (-1) 9 1 13].

Definition MAKE_Qab (M H : list Z) : list Z :=
  let W i := nth i (Wb M H) 0 in let h i := nth i H 0 in
  [SPH_T64 (sb0 (W 0%nat) + h 1%nat);
   SPH_T64 (sb1 (W 1%nat) + h 2%nat);
   SPH_T64 (sb2 (W 2%nat) + h 3%nat);
   SPH_T64 (sb3 (W 3%nat) + h 4%nat);
   SPH_T64 (sb4 (W 4%nat) + h 5%nat);
   SPH_T64 (sb0 (W 5%nat) + h 6%nat);
   SPH_T64 (sb1 (W 6%nat) + h 7%nat);
   SPH_T64 (sb2 (W 7%nat) + h 8%nat);
   SPH_T64 (sb3 (W 8%nat) + h 9%nat);
   SPH_T64 (sb4 (W 9%nat) + h 10%nat);
   SPH_T64 (sb0 (W 10%nat) + h 11%nat);
   SPH_T64 (sb1 (W 11%nat) + h 12%nat);
   SPH_T64 (sb2 (W 12%nat) + h 13%nat);
   SPH_T64 (sb3 (W 13%nat) + h 14%nat);
   SPH_T64 (sb4 (W 14%nat) + h 15%nat);
   SPH_T64 (sb0 (W 15%nat) + h 0%nat)].

(** The loop [for (u = 0; u < 15; u += 5)] and the last word. *)
Definition MAKE_Qab_small (M H : list Z) : list Z :=
  let W := Wb M H in
  flat_map (fun u =>
    [SPH_T64 (sb0 (nth (u + 0) W 0) + nth (u + 1) H 0);
     SPH_T64 (sb1 (nth (u + 1) W 0) + nth (u + 2) H 0);
     SPH_T64 (sb2 (nth (u + 2) W 0) + nth (u + 3) H 0);
     SPH_T64 (sb3 (nth (u + 3) W 0) + nth (u + 4) H 0);
     SPH_T64 (sb4 (nth (u + 4) W 0) + nth (u + 5) H 0)]) [0; 5; 10]%nat
  ++ [SPH_T64 (sb0 (nth 15 W 0) + nth 0 H 0)].

Definition MAKE_Qbb (M H qt : list Z) : list Z :=
  let qt := qt ++ [expand1b M H qt 16] in
  let qt := qt ++ [expand1b M H qt 17] in
  let qt := qt ++ [expand2b M H qt 18] in
  let qt := qt ++ [expand2b M H qt 19] in
  let qt := qt ++ [expand2b M H qt 20] in
  let qt := qt ++ [expand2b M H qt 21] in
  let qt := qt ++ [expand2b M H qt 22] in
  let qt := qt ++ [expand2b M H qt 23] in
  let qt := qt ++ [expand2b M H qt 24] in
  let qt := qt ++ [expand2b M H qt 25] in
  let qt := qt ++ [expand2b M H qt 26] in
  let qt := qt ++ [expand2b M H qt 27] in
  let qt := qt ++ [expand2b M H qt 28] in
  let qt := qt ++ [expand2b M H qt 29] in
  let qt := qt ++ [expand2b M H qt 30] in
  let qt := qt ++ [expand2b M H qt 31] in
  qt.

Definition MAKE_Qbb_small (M H qt : list Z) : list Z :=
  let qt := fold_left (fun qt u => qt ++ [expand1b_small M H qt u]) (seq 16 2) qt in
  fold_left (fun qt u => qt ++ [expand2b_small M H qt u]) (seq 18 14) qt.

Definition MAKE_Qb (M H : list Z) : list Z := MAKE_Qbb M H (MAKE_Qab M H).
Definition MAKE_Qb_small (M H : list Z) : list Z := MAKE_Qbb_small M H (MAKE_Qab_small M H).

(** ** The fold *)

Definition FOLD (M qt : list Z) : list Z :=
  let m i := nth i M 0 in let q i := nth i qt 0 in
  let xl := q 16%nat .^ q 17%nat .^ q 18%nat .^ q 19%nat .^ q 20%nat .^ q 21%nat .^ q 22%nat .^ q 23%nat in
  let xh := xl .^ q 24%nat .^ q 25%nat .^ q 26%nat .^ q 27%nat .^ q 28%nat .^ q 29%nat .^ q 30%nat .^ q 31%nat in
  let d0 := SPH_T64 (((xh << 5) .^ (q 16%nat >> 5) .^ m 0%nat) + (xl .^ q 24%nat .^ q 0%nat)) in
  let d1 := SPH_T64 (((xh >> 7) .^ (q 17%nat << 8) .^ m 1%nat) + (xl .^ q 25%nat .^ q 1%nat)) in
  let d2 := SPH_T64 (((xh >> 5) .^ (q 18%nat << 5) .^ m 2%nat) + (xl .^ q 26%nat .^ q 2%nat)) in
  let d3 := SPH_T64 (((xh >> 1) .^ (q 19%nat << 5) .^ m 3%nat) + (xl .^ q 27%nat .^ q 3%nat)) in
  let d4 := SPH_T64 (((xh >> 3) .^ (q 20%nat << 0) .^ m 4%nat) + (xl .^ q 28%nat .^ q 4%nat)) in
  let d5 := SPH_T64 (((xh << 6) .^ (q 21%nat >> 6) .^ m 5%nat) + (xl .^ q 29%nat .^ q 5%nat)) in
  let d6 := SPH_T64 (((xh >> 4) .^ (q 22%nat << 6) .^ m 6%nat) + (xl .^ q 30%nat .^ q 6%nat)) in
  let d7 := SPH_T64 (((xh >> 11) .^ (q 23%nat << 2) .^ m 7%nat) + (xl .^ q 31%nat .^ q 7%nat)) in
  let d8 := SPH_T64 (SPH_ROTL64 d4 9 + (xh .^ q 24%nat .^ m 8%nat) + ((xl << 8) .^ q 23%nat .^ q 8%nat)) in
  let d9 := SPH_T64 (SPH_ROTL64 d5 10 + (xh .^ q 25%nat .^ m 9%nat) + ((xl >> 6) .^ q 16%nat .^ q 9%nat)) in
  let d10 := SPH_T64 (SPH_ROTL64 d6 11 + (xh .^ q 26%nat .^ m 10%nat) + ((xl << 6) .^ q 17%nat .^ q 10%nat)) in
  let d11 := SPH_T64 (SPH_ROTL64 d7 12 + (xh .^ q 27%nat .^ m 11%nat) + ((xl << 4) .^ q 18%nat .^ q 11%nat)) in
  let d12 := SPH_T64 (SPH_ROTL64 d0 13 + (xh .^ q 28%nat .^ m 12%nat) + ((xl >> 3) .^ q 19%nat .^ q 12%nat)) in
  let d13 := SPH_T64 (SPH_ROTL64 d1 14 + (xh .^ q 29%nat .^ m 13%nat) + ((xl >> 4) .^ q 20%nat .^ q 13%nat)) in
  let d14 := SPH_T64 (SPH_ROTL64 d2 15 + (xh .^ q 30%nat .^ m 14%nat) + ((xl >> 7) .^ q 21%nat .^ q 14%nat)) in
  let d15 := SPH_T64 (SPH_ROTL64 d3 16 + (xh .^ q 31%nat .^ m 15%nat) + ((xl >> 2) .^ q 22%nat .^ q 15%nat)) in
  [d0; d1; d2; d3; d4; d5; d6; d7; d8; d9; d10; d11; d12; d13; d14; d15].

(** [M(x)]: the little-endian words of the block. *)
Definition M_words (data : list Z) : list Z := map (fun i => sph_dec64le (skipn (8 * i) data)) (seq 0 16).

Definition compress_big (data h : list Z) : list Z :=
  let M := M_words data in FOLD M (MAKE_Qb M h).
Definition compress_big_small (data h : list Z) : list Z :=
  let M := M_words data in FOLD M (MAKE_Qb_small M h).

(** ** The functions over the context *)

(** [ctx] holds [buf], [ptr] and [H]. *)
Record sph_bmw_big_context : Type := mkBmw { ctx : context (list Z); bit_count : Z }.

Definition bmw64_init (sc : sph_bmw_big_context) (iv : list Z) : sph_bmw_big_context :=
  mkBmw (mkContext (buf (ctx sc)) 0 iv) 0.

Definition bmw64 (sc : sph_bmw_big_context) (data : list Z) : sph_bmw_big_context :=
  mkBmw (core_while 128 compress_big (ctx sc) data)
    (SPH_T64 (bit_count sc + SPH_T64 (Z.of_nat (length data) << 3))).

(** The output: words [16 - out_size_w64] to 15 of the last chaining value. *)
Definition bmw64_close (sc : sph_bmw_big_context) (ub : Z) (n : nat) (out_size_w64 : nat)
  : list Z * sph_bmw_big_context :=
  let z := 0x80 >> Z.of_nat n in
  let buf1 := memcpy (buf (ctx sc)) (ptr (ctx sc)) [((ub .& - z) .| z) .& 0xFF] in
  let ptr1 := S (ptr (ctx sc)) in
  let '(buf2, ptr2, h) :=
    if (128 - 8 <? ptr1)%nat
    then let buf2 := memcpy buf1 ptr1 (repeat 0 (128 - ptr1)) in
         (buf2, 0%nat, compress_big (firstn 128 buf2) (st (ctx sc)))
    else (buf1, ptr1, st (ctx sc)) in
  let buf3 := memcpy buf2 ptr2 (repeat 0 (128 - 8 - ptr2)) in
  let buf4 := memcpy buf3 (128 - 8) (sph_enc64le (SPH_T64 (bit_count sc + Z.of_nat n))) in
  let h2 := compress_big (firstn 128 buf4) h in
  let buf5 := memcpy buf4 0 (flat_map (fun u => sph_enc64le (nth u h2 0)) (seq 0 16)) in
  let h1 := compress_big (firstn 128 buf5) final_b in
  (flat_map (fun u => sph_enc64le (nth (16 - out_size_w64 + u) h1 0)) (seq 0 out_size_w64),
   mkBmw (mkContext buf5 (ptr (ctx sc)) (st (ctx sc))) (bit_count sc)).

Definition sph_bmw384_init (cc : sph_bmw_big_context) : sph_bmw_big_context := bmw64_init cc IV384.
Definition sph_bmw384 (cc : sph_bmw_big_context) (data : list Z) : sph_bmw_big_context := bmw64 cc data.
Definition sph_bmw384_addbits_and_close (cc : sph_bmw_big_context) (ub : Z) (n : nat)
  : list Z * sph_bmw_big_context :=
  let '(dst, cc) := bmw64_close cc ub n 6 in (dst, sph_bmw384_init cc).
Definition sph_bmw384_close (cc : sph_bmw_big_context) : list Z * sph_bmw_big_context :=
  sph_bmw384_addbits_and_close cc 0 0.

Definition sph_bmw512_init (cc : sph_bmw_big_context) : sph_bmw_big_context := bmw64_init cc IV512.
Definition sph_bmw512 (cc : sph_bmw_big_context) (data : list Z) : sph_bmw_big_context := bmw64 cc data.
Definition sph_bmw512_addbits_and_close (cc : sph_bmw_big_context) (ub : Z) (n : nat)
  : list Z * sph_bmw_big_context :=
  let '(dst, cc) := bmw64_close cc ub n 8 in (dst, sph_bmw512_init cc).
Definition sph_bmw512_close (cc : sph_bmw_big_context) : list Z * sph_bmw_big_context :=
  sph_bmw512_addbits_and_close cc 0 0.

(** ** Reference *)

(** The message, a one bit, zeros, the length in bits modulo 2^64. *)
Definition bmw_pad (m : list Z) : list Z :=
  md_pad 128 8 m 0x80 (le_bytes 8 (8 * Z.of_nat (length m))).

Definition bmw_spec (iv : list Z) (out_words : nat) (m : list Z) : list Z :=
  let p := bmw_pad m in
  let h := absorb 128 compress_big_small (length p / 128) p iv in
  let h' := compress_big_small (flat_map (le_bytes 8) h) final_b in
  flat_map (le_bytes 8) (skipn (16 - out_words) h').

(** ** The two configurations *)

Lemma I16_index i k : (16 <= i < 32)%nat -> (k < 16)%nat -> nth k (nth (i - 16) I16 []) 0%nat = (i - (16 - k))%nat.
Proof.
  intros Hi Hk. assert (E : forallb (fun i => forallb (fun k =>
      nth k (nth (i - 16) I16 []) 0 =? i - (16 - k))%nat (seq 0 16)) (seq 16 16) = true) by reflexivity.
  rewrite forallb_forall in E. specialize (E i ltac:(apply in_seq; lia)).
  rewrite forallb_forall in E. apply Nat.eqb_eq, E. apply in_seq. lia.
Qed.

(** Row [i - 16] of [M16]: the words [j], [j + 3], [j + 7], [j + 10] modulo 16,
    each but the third with its rotation. *)
Definition M16_row (j : nat) : list nat :=
  let o k := ((j + k) mod 16)%nat in [o 0; o 0 + 1; o 3; o 3 + 1; o 7; o 10; o 10 + 1]%nat.

Lemma M16_index j : (j < 16)%nat -> nth j M16 [] = M16_row j.
Proof. intros Hj. do 16 (destruct j as [|j]; [reflexivity|]). lia. Qed.

Lemma nth_Kb_tab j : (j < 16)%nat -> nth j Kb_tab 0 = Kb (j + 16).
Proof. intros Hj. do 16 (destruct j as [|j]; [reflexivity|]). lia. Qed.

Lemma add_elt_b_eq M H i :
  (16 <= i < 32)%nat -> add_elt_b M H (nth (i - 16) M16 []) i = add_elt_b_small M H (i - 16).
Proof.
  intros Hi. rewrite M16_index by lia. unfold add_elt_b, add_elt_b_small, rol_off, M16_row.
  rewrite nth_Kb_tab, Nat.sub_add by lia. cbn [nth]. now rewrite !Nat2Z.inj_add.
Qed.

Lemma expand1b_eq M H qt i : (16 <= i < 32)%nat -> expand1b M H qt i = expand1b_small M H qt i.
Proof. intros Hi. unfold expand1b, expand1b_small. now rewrite add_elt_b_eq, !I16_index by lia. Qed.

Lemma expand2b_eq M H qt i : (16 <= i < 32)%nat -> expand2b M H qt i = expand2b_small M H qt i.
Proof. intros Hi. unfold expand2b, expand2b_small. now rewrite add_elt_b_eq, !I16_index by lia. Qed.

#[local] Opaque expand1b expand2b expand1b_small expand2b_small FOLD sb0 sb1 sb2 sb3 sb4 Wb M_words.

Lemma MAKE_Qab_eq M H : MAKE_Qab M H = MAKE_Qab_small M H.
Proof. unfold MAKE_Qab, MAKE_Qab_small. generalize (Wb M H). reflexivity. Qed.

Lemma MAKE_Qbb_eq M H qt : MAKE_Qbb M H qt = MAKE_Qbb_small M H qt.
Proof.
  unfold MAKE_Qbb_small.
  rewrite (fold_left_ext_in _ (fun qt u => qt ++ [expand1b M H qt u]) (seq 16 2))
    by (intros q u Hu; apply in_seq in Hu; now rewrite expand1b_eq by lia).
  rewrite (fold_left_ext_in _ (fun qt u => qt ++ [expand2b M H qt u]) (seq 18 14))
    by (intros q u Hu; apply in_seq in Hu; now rewrite expand2b_eq by lia).
  unfold MAKE_Qbb. generalize (expand1b M H) (expand2b M H). reflexivity.
Qed.

(** Both configurations of bmw.c compute the same compression function: the
    unrolled one, which names its operands through 32 macros, and the loops of
    the small-footprint one, which compute the indices modulo 16. *)
Lemma compress_big_small_eq data h : compress_big data h = compress_big_small data h.
Proof.
  unfold compress_big, compress_big_small, MAKE_Qb, MAKE_Qb_small.
  now rewrite MAKE_Qab_eq, MAKE_Qbb_eq.
Qed.

(** ** Updates and close *)

#[local] Opaque compress_big compress_big_small.

(** [sc] has absorbed [m]. *)
Definition bmw_absorbed (iv m : list Z) (sc : sph_bmw_big_context) : Prop :=
  absorbed 128 compress_big iv m (ctx sc) /\ bit_count sc = (8 * Z.of_nat (length m)) mod 2 ^ 64.

Lemma bmw64_absorbed iv m sc d : bmw_absorbed iv m sc -> bmw_absorbed iv (m ++ d) (bmw64 sc d).
Proof.
  intros [Ha Hc]. split; cbn [bmw64 ctx bit_count]; [apply core_while_absorbed; [lia | exact Ha]|].
  rewrite Hc, !SPH_T64_mod, Z.shiftl_mul_pow2, length_app by lia.
  rewrite <- Z.add_mod by lia. f_equal. lia.
Qed.

Lemma bmw_updates_absorbed iv pieces : forall m sc,
  bmw_absorbed iv m sc ->
  bmw_absorbed iv (m ++ concat pieces) (fold_left bmw64 pieces sc) /\
  length (buf (ctx (fold_left bmw64 pieces sc))) = length (buf (ctx sc)).
Proof.
  induction pieces as [|p ps IH]; intros m sc H; cbn [fold_left concat].
  - now rewrite app_nil_r.
  - rewrite app_assoc. destruct (IH _ _ (bmw64_absorbed iv m sc p H)) as [H1 H2].
    split; [exact H1|]. rewrite H2. eapply core_while_length; [lia | apply H].
Qed.

Lemma bmw_init_absorbed iv sc :
  (128 <= length (buf (ctx sc)))%nat -> bmw_absorbed iv [] (bmw64_init sc iv).
Proof. intros Hb. split; [apply absorbed_init; lia | reflexivity]. Qed.

Lemma length_compress_big d h : length (compress_big d h) = 16%nat.
Proof. reflexivity. Qed.

(** The buffer and the state before the output transformation. *)
Lemma bmw64_close_last sc out :
  let '(b, h2) := md_last 128 8 compress_big (ctx sc) 0x80 (sph_enc64le (SPH_T64 (bit_count sc + 0))) in
  let b' := memcpy b 0 (flat_map (fun u => sph_enc64le (nth u h2 0)) (seq 0 16)) in
  let h1 := compress_big (firstn 128 b') final_b in
  bmw64_close sc 0 0 out
  = (flat_map (fun u => sph_enc64le (nth (16 - out + u) h1 0)) (seq 0 out),
     mkBmw (mkContext b' (ptr (ctx sc)) (st (ctx sc))) (bit_count sc)).
Proof.
  unfold md_last, bmw64_close. generalize compress_big. intros compress.
  now destruct (128 - 8 <? S (ptr (ctx sc)))%nat.
Qed.

(** The reference in terms of the unrolled compression. *)
Lemma bmw_spec_unrolled iv out m h :
  h = absorb 128 compress_big (length (bmw_pad m) / 128) (bmw_pad m) iv ->
  bmw_spec iv out m = flat_map (le_bytes 8) (skipn (16 - out) (compress_big (flat_map (le_bytes 8) h) final_b)).
Proof.
  intros ->. unfold bmw_spec. cbv zeta. generalize (length (bmw_pad m) / 128)%nat. intros k.
  generalize (bmw_pad m). intros p.
  rewrite <- (absorb_ext 128 compress_big compress_big_small k p iv compress_big_small_eq).
  generalize (flat_map (le_bytes 8) (absorb 128 compress_big k p iv)). intros d.
  now rewrite <- (compress_big_small_eq d final_b).
Qed.

(** Hashing the padded message and the output transformation. *)
Lemma bmw64_close_absorbed iv m sc out :
  bmw_absorbed iv m sc -> (out <= 16)%nat ->
  fst (bmw64_close sc 0 0 out) = bmw_spec iv out m /\
  length (buf (ctx (snd (bmw64_close sc 0 0 out)))) = length (buf (ctx sc)).
Proof.
  intros [Ha Hc] Hout. pose proof (bmw64_close_last sc out) as E.
  set (trailer := sph_enc64le (SPH_T64 (bit_count sc + 0))) in *.
  assert (Ht : trailer = le_bytes 8 (8 * Z.of_nat (length m)))
    by (unfold trailer; rewrite Z.add_0_r, SPH_T64_mod, Hc, Zmod_mod, sph_enc64le_bytes; apply (le_bytes_mod 8)).
  pose proof (md_last_absorb 128 8 compress_big ltac:(lia) iv m (ctx sc) 0x80 trailer Ha eq_refl) as Hmd.
  pose proof (length_md_last 128 8 compress_big ltac:(lia) (ctx sc) 0x80 trailer (absorbed_buf _ _ _ _ _ Ha)
    (absorbed_ptr_lt 128 compress_big ltac:(lia) _ _ _ Ha) eq_refl) as Hlen.
  pose proof (absorbed_buf _ _ _ _ _ Ha) as Hb. clearbody trailer. subst trailer. fold (bmw_pad m) in Hmd.
  destruct (md_last 128 8 compress_big (ctx sc) 0x80 _) as [b h2]. cbn [fst snd] in *.
  rewrite E. clear E. cbn [fst snd ctx buf].
  assert (Hh2 : length h2 = 16%nat).
  { rewrite Hmd. destruct (length_md_pad 128 8 ltac:(lia) m 0x80 (le_bytes 8 (8 * Z.of_nat (length m))) eq_refl) as [_ Eq].
    unfold bmw_pad. rewrite Eq. destruct (_ <? _)%nat;
      [rewrite Nat.add_1_r | rewrite Nat.add_succ_r]; rewrite absorb_succ by lia; apply length_compress_big. }
  rewrite (flat_map_nth_seq sph_enc64le 0 h2 16 Hh2), (flat_map_ext _ _ sph_enc64le_bytes).
  assert (Hd : length (flat_map (le_bytes 8) h2) = 128%nat)
    by (rewrite (flat_map_constant_length (c := 8%nat)), Hh2 by (intros; apply length_le_bytes); reflexivity).
  split; [|rewrite length_memcpy; lia].
  assert (Eb : firstn 128 (memcpy b 0 (flat_map (le_bytes 8) h2)) = flat_map (le_bytes 8) h2)
    by (rewrite <- Hd; apply (firstn_memcpy b _ 0); lia).
  rewrite Eb, (bmw_spec_unrolled iv out m h2 Hmd). set (h1 := compress_big _ final_b).
  assert (Hh1 : length h1 = 16%nat) by apply length_compress_big.
  pose proof (flat_map_skipn_seq sph_enc64le 0 out h1 ltac:(lia)) as F. rewrite Hh1 in F.
  rewrite F. apply flat_map_ext, sph_enc64le_bytes.
Qed.

(** ** Main result *)

(** The BMW functions of the code compute the reference digest, for 384 and 512
    bits: whatever the memory the context is placed in and however the message
    is cut into pieces, init, updates and close return the output words of the
    final compression of the chaining value after the padded message, where the
    reference compression is the one that computes its indices in loops. *)
Theorem bmw_functions_correct sc pieces :
  (128 <= length (buf (ctx sc)))%nat ->
  fst (sph_bmw384_close (fold_left sph_bmw384 pieces (sph_bmw384_init sc))) = bmw_spec IV384 6 (concat pieces) /\
  fst (sph_bmw512_close (fold_left sph_bmw512 pieces (sph_bmw512_init sc))) = bmw_spec IV512 8 (concat pieces).
Proof.
  intros Hb.
  pose proof (fun iv => proj1 (bmw_updates_absorbed iv pieces [] _ (bmw_init_absorbed iv sc Hb))) as H.
  cbn [app] in H. split.
  - rewrite <- (proj1 (bmw64_close_absorbed _ _ _ 6 (H IV384) ltac:(lia))).
    unfold sph_bmw384_close, sph_bmw384_addbits_and_close. fold sph_bmw384.
    now destruct (bmw64_close _ 0 0 6).
  - rewrite <- (proj1 (bmw64_close_absorbed _ _ _ 8 (H IV512) ltac:(lia))).
    unfold sph_bmw512_close, sph_bmw512_addbits_and_close. now destruct (bmw64_close _ 0 0 8).
Qed.

Lemma bmw_functions_correct_witness :
  let sc := mkBmw (mkContext (repeat 1 128) 5 []) 3 in
  let pieces := [repeat 7 100; repeat 8 25] in
  fst (sph_bmw384_close (fold_left sph_bmw384 pieces (sph_bmw384_init sc))) = bmw_spec IV384 6 (concat pieces) /\
  fst (sph_bmw512_close (fold_left sph_bmw512 pieces (sph_bmw512_init sc))) = bmw_spec IV512 8 (concat pieces).
Proof.
  intros sc pieces. apply bmw_functions_correct. apply Nat.leb_le. reflexivity.
Defined.

(** ** The interface *)

Definition bmw512 : sph_hash :=
  mkHash sph_bmw_big_context (fun sc => length (buf (ctx sc)) = 128%nat)
    sph_bmw512_init sph_bmw512 sph_bmw512_close.

#[export] Instance bmw512_hasher : Hasher bmw512 (bmw_spec IV512 8).
Proof.
  assert (Hd : forall d h, length (skipn (16 - 8) (compress_big_small d h)) = 8%nat)
    by (intros; rewrite <- compress_big_small_eq, length_skipn, length_compress_big; reflexivity).
  split.
  - intros sc pieces Hal _ _. cbn [h_ctx h_alloc h_init h_update h_close bmw512] in *.
    destruct (bmw_updates_absorbed IV512 pieces [] _ (bmw_init_absorbed IV512 sc ltac:(lia))) as [Ha Hl].
    destruct (bmw64_close_absorbed _ _ _ 8 Ha ltac:(lia)) as [Hf Hs].
    exists (snd (bmw64_close (fold_left bmw64 pieces (bmw64_init sc IV512)) 0 0 8)). split.
    + rewrite Hs, Hl. exact Hal.
    + change (concat pieces) with ([] ++ concat pieces). rewrite <- Hf.
      unfold sph_bmw512_close, sph_bmw512_addbits_and_close. now destruct (bmw64_close _ 0 0 8).
  - intros m. unfold bmw_spec.
    rewrite (flat_map_constant_length (c := 8%nat)) by (intros; apply length_le_bytes). now rewrite Hd.
  - intros m. apply Forall_flat_map, Forall_forall. intros x _. apply le_bytes_byte.
  - intros c Hc. exact Hc.
Qed.

End Bmw.
