(* ===== verification/CubeHash.v ===== *)
(** * src/crypto/cubehash.c: CubeHash16/32 with outputs of 224 to 512 bits

    The state is the array of 32 words that the code names [x0] .. [xv]
    ([READ_STATE], [WRITE_STATE] and the macros of [SPH_CUBEHASH_NOCOPY] only
    relate the two).  [ROUND_EVEN] and [ROUND_ODD] are straight-line code in
    which the word swaps of a CubeHash round are absorbed into the choice of the
    operands, so that the swaps cancel over two rounds.  The reference is the ten
    steps of a round of the CubeHash specification, with its swaps, and the
    initialisation by ten times sixteen rounds from the parameters. *)

From Stdlib Require Import ZArith List Lia Bool.
From S2P Require Import Prelude SphTypes SphStream.
Import ListNotations.
Open Scope Z_scope.

Module CubeHash.

(** ** Constants *)

Definition IV224 : list Z :=
  [0xB0FC8217; 0x1BEE1A90; 0x829E1A22; 0x6362C342; 0x24D91C30; 0x03A7AA24; 0xA63721C8; 0x85B0E2EF;
   0xF35D13F3; 0x41DA807D; 0x21A70CA6; 0x1F4E9774; 0xB3E1C932; 0xEB0A79A8; 0xCDDAAA66; 0xE2F6ECAA;
   0x0A713362; 0xAA3080E0; 0xD8F23A32; 0xCEF15E28; 0xDB086314; 0x7F709DF7; 0xACD228A4; 0x704D6ECE;
   0xAA3EC95F; 0xE387C214; 0x3A6445FF; 0x9CAB81C3; 0xC73D4B98; 0xD277AEBE; 0xFD20151C; 0x00CB573E].

Definition IV256 : list Z :=
  [0xEA2BD4B4; 0xCCD6F29F; 0x63117E71; 0x35481EAE; 0x22512D5B; 0xE5D94E63; 0x7E624131; 0xF4CC12BE;
   0xC2D0B696; 0x42AF2070; 0xD0720C35; 0x3361DA8C; 0x28CCECA4; 0x8EF8AD83; 0x4680AC00; 0x40E5FBAB;
   0xD89041C3; 0x6107FBD5; 0x6C859D41; 0xF0B26679; 0x09392549; 0x5FA25603; 0x65C892FD; 0x93CB6285;
   0x2AF2B5AE; 0x9E4B4E60; 0x774ABFDD; 0x85254725; 0x15815AEB; 0x4AB6AAD6; 0x9CDAF8AF; 0xD6032C0A].

Definition IV384 : list Z :=
  [0xE623087E; 0x04C00C87; 0x5EF46453; 0x69524B13; 0x1A05C7A9; 0x3528DF88; 0x6BDD01B5; 0x5057B792;
   0x6AA7A922; 0x649C7EEE; 0xF426309F; 0xCB629052; 0xFC8E20ED; 0xB3482BAB; 0xF89E5E7E; 0xD83D4DE4;
   0x44BFC10D; 0x5FC1E63D; 0x2104E6CB; 0x17958F7F; 0xDBEAEF70; 0xB4B97E1E; 0x32C195F6; 0x6184A8E4;
   0x796C2543; 0x23DE176D; 0xD33BBAEC; 0x0C12E5D2; 0x4EB95A7B; 0x2D18BA01; 0x04EE475F; 0x1FC5F22E].

Definition IV512 : list Z :=
  [0x2AEA2A61; 0x50F494D4; 0x2D538B8B; 0x4167D83E; 0x3FEE2313; 0xC701CF8C; 0xCC39968E; 0x50AC5695;
   0x4D42C787; 0xA647A8B3; 0x97CF0BEF; 0x825B4537; 0xEEF864D2; 0xF22090C4; 0xD0E5CD33; 0xA23911AE;
   0xFCD398D9; 0x148FE485; 0x1B017BEF; 0xB6444532; 0x6A536159; 0x2FF5781C; 0x91FA7934; 0x0DBADEA9;
   0xD65C8A2B; 0xA5A70E75; 0xB1C62456; 0xBC796576; 0x1921C8F7; 0xE7989AF1; 0x7795D246; 0xD43E3B44].

(** ** The rounds *)

(** [INPUT_BLOCK]: xor a block into the first eight words. *)
Definition INPUT_BLOCK (buf s : list Z) : list Z :=
  map (fun i => if (i <? 8)%nat then nth i s 0 .^ sph_dec32le (skipn (4 * i) buf) else nth i s 0) (seq 0 32).

Definition ROUND_EVEN (s : list Z) : list Z :=
  match s with
  | [x0; x1; x2; x3; x4; x5; x6; x7; x8; x9; xa; xb; xc; xd; xe; xf;
     xg; xh; xi; xj; xk; xl; xm; xn; xo; xp; xq; xr; xs; xt; xu; xv] =>
      let xg := SPH_T32 (x0 + xg) in
      let x0 := SPH_ROTL32 x0 7 in
      let xh := SPH_T32 (x1 + xh) in
      let x1 := SPH_ROTL32 x1 7 in
      let xi := SPH_T32 (x2 + xi) in
      let x2 := SPH_ROTL32 x2 7 in
      let xj := SPH_T32 (x3 + xj) in
      let x3 := SPH_ROTL32 x3 7 in
      let xk := SPH_T32 (x4 + xk) in
      let x4 := SPH_ROTL32 x4 7 in
      let xl := SPH_T32 (x5 + xl) in
      let x5 := SPH_ROTL32 x5 7 in
      let xm := SPH_T32 (x6 + xm) in
      let x6 := SPH_ROTL32 x6 7 in
      let xn := SPH_T32 (x7 + xn) in
      let x7 := SPH_ROTL32 x7 7 in
      let xo := SPH_T32 (x8 + xo) in
      let x8 := SPH_ROTL32 x8 7 in
      let xp := SPH_T32 (x9 + xp) in
      let x9 := SPH_ROTL32 x9 7 in
      let xq := SPH_T32 (xa + xq) in
      let xa := SPH_ROTL32 xa 7 in
      let xr := SPH_T32 (xb + xr) in
      let xb := SPH_ROTL32 xb 7 in
      let xs := SPH_T32 (xc + xs) in
      let xc := SPH_ROTL32 xc 7 in
      let xt := SPH_T32 (xd + xt) in
      let xd := SPH_ROTL32 xd 7 in
      let xu := SPH_T32 (xe + xu) in
      let xe := SPH_ROTL32 xe 7 in
      let xv := SPH_T32 (xf + xv) in
      let xf := SPH_ROTL32 xf 7 in
      let x8 := x8 .^ xg in
      let x9 := x9 .^ xh in
      let xa := xa .^ xi in
      let xb := xb .^ xj in
      let xc := xc .^ xk in
      let xd := xd .^ xl in
      let xe := xe .^ xm in
      let xf := xf .^ xn in
      let x0 := x0 .^ xo in
      let x1 := x1 .^ xp in
      let x2 := x2 .^ xq in
      let x3 := x3 .^ xr in
      let x4 := x4 .^ xs in
      let x5 := x5 .^ xt in
      let x6 := x6 .^ xu in
      let x7 := x7 .^ xv in
      let xi := SPH_T32 (x8 + xi) in
      let x8 := SPH_ROTL32 x8 11 in
      let xj := SPH_T32 (x9 + xj) in
      let x9 := SPH_ROTL32 x9 11 in
      let xg := SPH_T32 (xa + xg) in
      let xa := SPH_ROTL32 xa 11 in
      let xh := SPH_T32 (xb + xh) in
      let xb := SPH_ROTL32 xb 11 in
      let xm := SPH_T32 (xc + xm) in
      let xc := SPH_ROTL32 xc 11 in
      let xn := SPH_T32 (xd + xn) in
      let xd := SPH_ROTL32 xd 11 in
      let xk := SPH_T32 (xe + xk) in
      let xe := SPH_ROTL32 xe 11 in
      let xl := SPH_T32 (xf + xl) in
      let xf := SPH_ROTL32 xf 11 in
      let xq := SPH_T32 (x0 + xq) in
      let x0 := SPH_ROTL32 x0 11 in
      let xr := SPH_T32 (x1 + xr) in
      let x1 := SPH_ROTL32 x1 11 in
      let xo := SPH_T32 (x2 + xo) in
      let x2 := SPH_ROTL32 x2 11 in
      let xp := SPH_T32 (x3 + xp) in
      let x3 := SPH_ROTL32 x3 11 in
      let xu := SPH_T32 (x4 + xu) in
      let x4 := SPH_ROTL32 x4 11 in
      let xv := SPH_T32 (x5 + xv) in
      let x5 := SPH_ROTL32 x5 11 in
      let xs := SPH_T32 (x6 + xs) in
      let x6 := SPH_ROTL32 x6 11 in
      let xt := SPH_T32 (x7 + xt) in
      let x7 := SPH_ROTL32 x7 11 in
      let xc := xc .^ xi in
      let xd := xd .^ xj in
      let xe := xe .^ xg in
      let xf := xf .^ xh in
      let x8 := x8 .^ xm in
      let x9 := x9 .^ xn in
      let xa := xa .^ xk in
      let xb := xb .^ xl in
      let x4 := x4 .^ xq in
      let x5 := x5 .^ xr in
      let x6 := x6 .^ xo in
      let x7 := x7 .^ xp in
      let x0 := x0 .^ xu in
      let x1 := x1 .^ xv in
      let x2 := x2 .^ xs in
      let x3 := x3 .^ xt in
      [x0; x1; x2; x3; x4; x5; x6; x7; x8; x9; xa; xb; xc; xd; xe; xf;
       xg; xh; xi; xj; xk; xl; xm; xn; xo; xp; xq; xr; xs; xt; xu; xv]
  | _ => s
  end.

Definition ROUND_ODD (s : list Z) : list Z :=
  match s with
  | [x0; x1; x2; x3; x4; x5; x6; x7; x8; x9; xa; xb; xc; xd; xe; xf;
     xg; xh; xi; xj; xk; xl; xm; xn; xo; xp; xq; xr; xs; xt; xu; xv] =>
      let xj := SPH_T32 (xc + xj) in
      let xc := SPH_ROTL32 xc 7 in
      let xi := SPH_T32 (xd + xi) in
      let xd := SPH_ROTL32 xd 7 in
      let xh := SPH_T32 (xe + xh) in
      let xe := SPH_ROTL32 xe 7 in
      let xg := SPH_T32 (xf + xg) in
      let xf := SPH_ROTL32 xf 7 in
      let xn := SPH_T32 (x8 + xn) in
      let x8 := SPH_ROTL32 x8 7 in
      let xm := SPH_T32 (x9 + xm) in
      let x9 := SPH_ROTL32 x9 7 in
      let xl := SPH_T32 (xa + xl) in
      let xa := SPH_ROTL32 xa 7 in
      let xk := SPH_T32 (xb + xk) in
      let xb := SPH_ROTL32 xb 7 in
      let xr := SPH_T32 (x4 + xr) in
      let x4 := SPH_ROTL32 x4 7 in
      let xq := SPH_T32 (x5 + xq) in
      let x5 := SPH_ROTL32 x5 7 in
      let xp := SPH_T32 (x6 + xp) in
      let x6 := SPH_ROTL32 x6 7 in
      let xo := SPH_T32 (x7 + xo) in
      let x7 := SPH_ROTL32 x7 7 in
      let xv := SPH_T32 (x0 + xv) in
      let x0 := SPH_ROTL32 x0 7 in
      let xu := SPH_T32 (x1 + xu) in
      let x1 := SPH_ROTL32 x1 7 in
      let xt := SPH_T32 (x2 + xt) in
      let x2 := SPH_ROTL32 x2 7 in
      let xs := SPH_T32 (x3 + xs) in
      let x3 := SPH_ROTL32 x3 7 in
      let x4 := x4 .^ xj in
      let x5 := x5 .^ xi in
      let x6 := x6 .^ xh in
      let x7 := x7 .^ xg in
      let x0 := x0 .^ xn in
      let x1 := x1 .^ xm in
      let x2 := x2 .^ xl in
      let x3 := x3 .^ xk in
      let xc := xc .^ xr in
      let xd := xd .^ xq in
      let xe := xe .^ xp in
      let xf := xf .^ xo in
      let x8 := x8 .^ xv in
      let x9 := x9 .^ xu in
      let xa := xa .^ xt in
      let xb := xb .^ xs in
      let xh := SPH_T32 (x4 + xh) in
      let x4 := SPH_ROTL32 x4 11 in
      let xg := SPH_T32 (x5 + xg) in
      let x5 := SPH_ROTL32 x5 11 in
      let xj := SPH_T32 (x6 + xj) in
      let x6 := SPH_ROTL32 x6 11 in
      let xi := SPH_T32 (x7 + xi) in
      let x7 := SPH_ROTL32 x7 11 in
      let xl := SPH_T32 (x0 + xl) in
      let x0 := SPH_ROTL32 x0 11 in
      let xk := SPH_T32 (x1 + xk) in
      let x1 := SPH_ROTL32 x1 11 in
      let xn := SPH_T32 (x2 + xn) in
      let x2 := SPH_ROTL32 x2 11 in
      let xm := SPH_T32 (x3 + xm) in
      let x3 := SPH_ROTL32 x3 11 in
      let xp := SPH_T32 (xc + xp) in
      let xc := SPH_ROTL32 xc 11 in
      let xo := SPH_T32 (xd + xo) in
      let xd := SPH_ROTL32 xd 11 in
      let xr := SPH_T32 (xe + xr) in
      let xe := SPH_ROTL32 xe 11 in
      let xq := SPH_T32 (xf + xq) in
      let xf := SPH_ROTL32 xf 11 in
      let xt := SPH_T32 (x8 + xt) in
      let x8 := SPH_ROTL32 x8 11 in
      let xs := SPH_T32 (x9 + xs) in
      let x9 := SPH_ROTL32 x9 11 in
      let xv := SPH_T32 (xa + xv) in
      let xa := SPH_ROTL32 xa 11 in
      let xu := SPH_T32 (xb + xu) in
      let xb := SPH_ROTL32 xb 11 in
      let x0 := x0 .^ xh in
      let x1 := x1 .^ xg in
      let x2 := x2 .^ xj in
      let x3 := x3 .^ xi in
      let x4 := x4 .^ xl in
      let x5 := x5 .^ xk in
      let x6 := x6 .^ xn in
      let x7 := x7 .^ xm in
      let x8 := x8 .^ xp in
      let x9 := x9 .^ xo in
      let xa := xa .^ xr in
      let xb := xb .^ xq in
      let xc := xc .^ xt in
      let xd := xd .^ xs in
      let xe := xe .^ xv in
      let xf := xf .^ xu in
      [x0; x1; x2; x3; x4; x5; x6; x7; x8; x9; xa; xb; xc; xd; xe; xf;
       xg; xh; xi; xj; xk; xl; xm; xn; xo; xp; xq; xr; xs; xt; xu; xv]
  | _ => s
  end.

(** [SIXTEEN_ROUNDS] for [SPH_CUBEHASH_UNROLL] 2, 4, 8 and the default. *)
Definition SIXTEEN_ROUNDS_2 (s : list Z) : list Z :=
  fold_left (fun s _ =>
    let s := ROUND_EVEN s in
    ROUND_ODD s) (seq 0 8) s.

Definition SIXTEEN_ROUNDS_4 (s : list Z) : list Z :=
  fold_left (fun s _ =>
    let s := ROUND_EVEN s in let s := ROUND_ODD s in
    let s := ROUND_EVEN s in
    ROUND_ODD s) (seq 0 4) s.

Definition SIXTEEN_ROUNDS_8 (s : list Z) : list Z :=
  fold_left (fun s _ =>
    let s := ROUND_EVEN s in let s := ROUND_ODD s in
    let s := ROUND_EVEN s in let s := ROUND_ODD s in
    let s := ROUND_EVEN s in let s := ROUND_ODD s in
    let s := ROUND_EVEN s in
    ROUND_ODD s) (seq 0 2) s.

Definition SIXTEEN_ROUNDS (s : list Z) : list Z :=
  let s := ROUND_EVEN s in
  let s := ROUND_ODD s in
  let s := ROUND_EVEN s in
  let s := ROUND_ODD s in
  let s := ROUND_EVEN s in
  let s := ROUND_ODD s in
  let s := ROUND_EVEN s in
  let s := ROUND_ODD s in
  let s := ROUND_EVEN s in
  let s := ROUND_ODD s in
  let s := ROUND_EVEN s in
  let s := ROUND_ODD s in
  let s := ROUND_EVEN s in
  let s := ROUND_ODD s in
  let s := ROUND_EVEN s in
  ROUND_ODD s.

(** ** The functions over the context *)

Definition sph_cubehash_context : Type := context (list Z).

Definition cubehash_init (sc : sph_cubehash_context) (iv : list Z) : sph_cubehash_context :=
  mkContext (buf sc) 0 iv.

(** What runs when the buffer is full. *)
Definition cubehash_block (b s : list Z) : list Z := SIXTEEN_ROUNDS (INPUT_BLOCK b s).

Definition cubehash_core (sc : sph_cubehash_context) (data : list Z) : sph_cubehash_context :=
  core 32 cubehash_block sc data.

Definition cubehash_close (sc : sph_cubehash_context) (ub : Z) (n : nat) (out_size_w32 : nat)
  : list Z * sph_cubehash_context :=
  let z := 0x80 >> Z.of_nat n in
  let buf1 := memcpy (buf sc) (ptr sc) [((ub .& - z) .| z) .& 0xFF] in
  let ptr1 := S (ptr sc) in
  let buf2 := memcpy buf1 ptr1 (repeat 0 (32 - ptr1)) in
  let s := INPUT_BLOCK (firstn 32 buf2) (st sc) in
  let s := fold_left (fun s i =>
      let s := SIXTEEN_ROUNDS s in
      if (i =? 0)%nat then upd 31 (nth 31 s 0 .^ 1) s else s) (seq 0 11) s in
  (flat_map (fun z => sph_enc32le (nth z s 0)) (seq 0 out_size_w32), mkContext buf2 (ptr sc) s).

Definition sph_cubehash224_init (cc : sph_cubehash_context) : sph_cubehash_context := cubehash_init cc IV224.
Definition sph_cubehash224 (cc : sph_cubehash_context) (data : list Z) : sph_cubehash_context :=
  cubehash_core cc data.
Definition sph_cubehash224_addbits_and_close (cc : sph_cubehash_context) (ub : Z) (n : nat)
  : list Z * sph_cubehash_context :=
  let '(dst, cc) := cubehash_close cc ub n 7 in (dst, sph_cubehash224_init cc).
Definition sph_cubehash224_close (cc : sph_cubehash_context) : list Z * sph_cubehash_context :=
  sph_cubehash224_addbits_and_close cc 0 0.

Definition sph_cubehash256_init (cc : sph_cubehash_context) : sph_cubehash_context := cubehash_init cc IV256.
Definition sph_cubehash256 (cc : sph_cubehash_context) (data : list Z) : sph_cubehash_context :=
  cubehash_core cc data.
Definition sph_cubehash256_addbits_and_close (cc : sph_cubehash_context) (ub : Z) (n : nat)
  : list Z * sph_cubehash_context :=
  let '(dst, cc) := cubehash_close cc ub n 8 in (dst, sph_cubehash256_init cc).
Definition sph_cubehash256_close (cc : sph_cubehash_context) : list Z * sph_cubehash_context :=
  sph_cubehash256_addbits_and_close cc 0 0.

Definition sph_cubehash384_init (cc : sph_cubehash_context) : sph_cubehash_context := cubehash_init cc IV384.
Definition sph_cubehash384 (cc : sph_cubehash_context) (data : list Z) : sph_cubehash_context :=
  cubehash_core cc data.
Definition sph_cubehash384_addbits_and_close (cc : sph_cubehash_context) (ub : Z) (n : nat)
  : list Z * sph_cubehash_context :=
  let '(dst, cc) := cubehash_close cc ub n 12 in (dst, sph_cubehash384_init cc).
Definition sph_cubehash384_close (cc : sph_cubehash_context) : list Z * sph_cubehash_context :=
  sph_cubehash384_addbits_and_close cc 0 0.

Definition sph_cubehash512_init (cc : sph_cubehash_context) : sph_cubehash_context := cubehash_init cc IV512.
Definition sph_cubehash512 (cc : sph_cubehash_context) (data : list Z) : sph_cubehash_context :=
  cubehash_core cc data.
Definition sph_cubehash512_addbits_and_close (cc : sph_cubehash_context) (ub : Z) (n : nat)
  : list Z * sph_cubehash_context :=
  let '(dst, cc) := cubehash_close cc ub n 16 in (dst, sph_cubehash512_init cc).
Definition sph_cubehash512_close (cc : sph_cubehash_context) : list Z * sph_cubehash_context :=
  sph_cubehash512_addbits_and_close cc 0 0.

(** ** The CubeHash specification *)

(** Word [i] of the result is word [f i] of [s], in the first ([lo]) or in the
    second half. *)
Definition swap_lo (f : nat -> nat) (s : list Z) : list Z :=
  map (fun i => nth (f i) s 0) (seq 0 16) ++ skipn 16 s.
Definition swap_hi (f : nat -> nat) (s : list Z) : list Z :=
  firstn 16 s ++ map (fun i => nth (16 + f i) s 0) (seq 0 16).

Definition add_hi (s : list Z) : list Z :=
  firstn 16 s ++ map (fun i => SPH_T32 (nth i s 0 + nth (16 + i) s 0)) (seq 0 16).
Definition rotl_lo (r : Z) (s : list Z) : list Z :=
  map (fun i => SPH_ROTL32 (nth i s 0) r) (seq 0 16) ++ skipn 16 s.
Definition xor_lo (s : list Z) : list Z :=
  map (fun i => nth i s 0 .^ nth (16 + i) s 0) (seq 0 16) ++ skipn 16 s.

(** A round, in ten steps. *)
Definition cube_round (s : list Z) : list Z :=
  let s := add_hi s in
  let s := rotl_lo 7 s in
  let s := swap_lo (Nat.lxor 8) s in
  let s := xor_lo s in
  let s := swap_hi (Nat.lxor 2) s in
  let s := add_hi s in
  let s := rotl_lo 11 s in
  let s := swap_lo (Nat.lxor 4) s in
  let s := xor_lo s in
  swap_hi (Nat.lxor 1) s.

Definition cube_rounds (n : nat) (s : list Z) : list Z := Nat.iter n cube_round s.

(** The initial state for an output of [h] bits: output bytes, block bytes,
    rounds per block, then 160 rounds. *)
Definition cube_init (h : Z) : list Z := cube_rounds 160 ([h / 8; 32; 16] ++ repeat 0 29).

Definition cube_block (b s : list Z) : list Z := cube_rounds 16 (INPUT_BLOCK b s).

(** The message, a one bit and zeros to a multiple of 32 bytes; at the end the
    last word is xored with 1 and 160 rounds run. *)
Definition cubehash_spec (h : Z) (m : list Z) : list Z :=
  let p := md_pad 32 0 m 0x80 [] in
  let s := absorb 32 cube_block (length p / 32) p (cube_init h) in
  let s := cube_rounds 160 (upd 31 (nth 31 s 0 .^ 1) s) in
  firstn (Z.to_nat (h / 8)) (flat_map (le_bytes 4) s).

(** ** Two rounds of the code are two rounds of the specification *)

Lemma two_rounds s : length s = 32%nat -> ROUND_ODD (ROUND_EVEN s) = cube_round (cube_round s).
Proof.
  intros Hs. do 32 (let x := fresh "x" in destruct s as [|x s]; [discriminate|]).
  destruct s; [|discriminate].
  cbv -[SPH_T32 SPH_ROTL32 Z.lxor Z.add]. reflexivity.
Qed.

Ltac length_step := rewrite length_app, ?length_firstn, ?length_skipn, length_map, length_seq; lia.

Lemma length_swap_lo f s : length s = 32%nat -> length (swap_lo f s) = 32%nat.
Proof. intros. unfold swap_lo. length_step. Qed.
Lemma length_swap_hi f s : length s = 32%nat -> length (swap_hi f s) = 32%nat.
Proof. intros. unfold swap_hi. length_step. Qed.
Lemma length_add_hi s : length s = 32%nat -> length (add_hi s) = 32%nat.
Proof. intros. unfold add_hi. length_step. Qed.
Lemma length_rotl_lo r s : length s = 32%nat -> length (rotl_lo r s) = 32%nat.
Proof. intros. unfold rotl_lo. length_step. Qed.
Lemma length_xor_lo s : length s = 32%nat -> length (xor_lo s) = 32%nat.
Proof. intros. unfold xor_lo. length_step. Qed.

Lemma length_cube_round s : length s = 32%nat -> length (cube_round s) = 32%nat.
Proof.
  intros Hs. unfold cube_round.
  do 2 apply length_swap_hi, length_xor_lo, length_swap_lo, length_rotl_lo, length_add_hi. exact Hs.
Qed.

Lemma length_cube_rounds n s : length s = 32%nat -> length (cube_rounds n s) = 32%nat.
Proof. intros Hs. unfold cube_rounds. apply Nat.iter_invariant; auto using length_cube_round. Qed.

#[local] Opaque cube_round ROUND_EVEN ROUND_ODD INPUT_BLOCK.

Lemma cube_rounds_add n k s : cube_rounds (n + k) s = cube_rounds n (cube_rounds k s).
Proof. apply Nat.iter_add. Qed.

Lemma two_rounds_iter n s :
  length s = 32%nat -> Nat.iter n (fun s => ROUND_ODD (ROUND_EVEN s)) s = cube_rounds (2 * n) s.
Proof.
  intros Hs. induction n as [|n IH]; [reflexivity|].
  change (Nat.iter (S n) ?f s) with (f (Nat.iter n f s)). cbv beta. rewrite IH.
  rewrite two_rounds by now apply length_cube_rounds.
  replace (2 * S n)%nat with (S (S (2 * n))) by lia. reflexivity.
Qed.

(** Every unrolling of the sixteen rounds. *)
Lemma SIXTEEN_ROUNDS_iter s :
  SIXTEEN_ROUNDS s = Nat.iter 8 (fun s => ROUND_ODD (ROUND_EVEN s)) s /\
  SIXTEEN_ROUNDS_2 s = SIXTEEN_ROUNDS s /\ SIXTEEN_ROUNDS_4 s = SIXTEEN_ROUNDS s /\
  SIXTEEN_ROUNDS_8 s = SIXTEEN_ROUNDS s.
Proof.
  unfold SIXTEEN_ROUNDS, SIXTEEN_ROUNDS_2, SIXTEEN_ROUNDS_4, SIXTEEN_ROUNDS_8.
  generalize ROUND_EVEN ROUND_ODD. intros even odd. repeat split.
Qed.

Lemma SIXTEEN_ROUNDS_ref s : length s = 32%nat -> SIXTEEN_ROUNDS s = cube_rounds 16 s.
Proof. intros Hs. rewrite (proj1 (SIXTEEN_ROUNDS_iter s)). now apply two_rounds_iter. Qed.

(** Every unrolling of the sixteen rounds in cubehash.c computes sixteen rounds
    of the CubeHash specification: the code, which swaps no words and chooses
    its operands by the parity of the round instead, agrees with the ten steps
    of a round, swaps included, because the swaps of two rounds cancel. *)
Theorem sixteen_rounds_correct s :
  length s = 32%nat ->
  SIXTEEN_ROUNDS s = cube_rounds 16 s /\ SIXTEEN_ROUNDS_2 s = cube_rounds 16 s /\
  SIXTEEN_ROUNDS_4 s = cube_rounds 16 s /\ SIXTEEN_ROUNDS_8 s = cube_rounds 16 s.
Proof.
  intros Hs. destruct (SIXTEEN_ROUNDS_iter s) as (_ & H2 & H4 & H8).
  now rewrite H2, H4, H8, SIXTEEN_ROUNDS_ref.
Qed.

Lemma sixteen_rounds_correct_witness :
  SIXTEEN_ROUNDS IV512 = cube_rounds 16 IV512 /\ SIXTEEN_ROUNDS_2 IV512 = cube_rounds 16 IV512 /\
  SIXTEEN_ROUNDS_4 IV512 = cube_rounds 16 IV512 /\ SIXTEEN_ROUNDS_8 IV512 = cube_rounds 16 IV512.
Proof. apply sixteen_rounds_correct. reflexivity. Defined.

(** ** Initial values *)

#[local] Transparent cube_round.
Lemma IV_init :
  cube_init 224 = IV224 /\ cube_init 256 = IV256 /\ cube_init 384 = IV384 /\ cube_init 512 = IV512.
Proof. refine (conj _ (conj _ (conj _ _))); vm_compute; reflexivity. Qed.
#[local] Opaque cube_round SIXTEEN_ROUNDS cube_rounds cube_init.

(** ** Updates and close *)

Lemma length_INPUT_BLOCK b s : length (INPUT_BLOCK b s) = 32%nat.
Proof. reflexivity. Qed.

Lemma cubehash_block_ref b s : cubehash_block b s = cube_block b s.
Proof. apply SIXTEEN_ROUNDS_ref, length_INPUT_BLOCK. Qed.

Lemma sixteen_rounds_iter n s :
  length s = 32%nat -> Nat.iter n SIXTEEN_ROUNDS s = cube_rounds (16 * n) s.
Proof.
  intros Hs. induction n as [|n IH]; [reflexivity|].
  change (Nat.iter (S n) ?f s) with (f (Nat.iter n f s)).
  rewrite IH, SIXTEEN_ROUNDS_ref by now apply length_cube_rounds.
  now replace (16 * S n)%nat with (16 + 16 * n)%nat by lia; rewrite cube_rounds_add.
Qed.

(** The ten last blocks of rounds. *)
Lemma close_rounds s :
  length s = 32%nat ->
  fold_left (fun s i =>
      let s := SIXTEEN_ROUNDS s in
      if (i =? 0)%nat then upd 31 (nth 31 s 0 .^ 1) s else s) (seq 0 11) s
  = cube_rounds 160 (let s := SIXTEEN_ROUNDS s in upd 31 (nth 31 s 0 .^ 1) s).
Proof.
  intros Hs. cbn [seq fold_left Nat.eqb].
  set (s0 := upd 31 _ _). assert (H0 : length s0 = 32%nat)
    by (unfold s0; rewrite length_upd, SIXTEEN_ROUNDS_ref by exact Hs; now apply length_cube_rounds).
  exact (sixteen_rounds_iter 10 s0 H0).
Qed.

Lemma cubehash_close_absorbed h iv m sc out :
  absorbed 32 cubehash_block iv m sc -> length iv = 32%nat -> iv = cube_init h ->
  (out <= 32)%nat -> Z.to_nat (h / 8) = (4 * out)%nat ->
  fst (cubehash_close sc 0 0 out) = cubehash_spec h m /\
  length (buf (snd (cubehash_close sc 0 0 out))) = length (buf sc).
Proof.
  intros Ha Hl Hiv Hout Hh. pose proof (absorbed_ptr_lt 32 cubehash_block ltac:(lia) _ _ _ Ha) as Hp.
  pose proof (absorbed_buf _ _ _ _ _ Ha) as Hb.
  pose proof (md_last_absorb 32 0 cubehash_block ltac:(lia) iv m sc 0x80 [] Ha eq_refl) as Hmd.
  pose proof (length_md_last 32 0 cubehash_block ltac:(lia) sc 0x80 [] Hb Hp eq_refl) as Hlen.
  unfold md_last in Hmd, Hlen. cbv zeta in Hmd, Hlen.
  destruct (Nat.ltb_spec (32 - 0) (S (ptr sc))); [lia|]. rewrite memcpy_nil in Hmd, Hlen. cbn [fst snd] in Hmd, Hlen.
  unfold cubehash_close. cbn [fst snd buf].
  change (((0 .& - (0x80 >> Z.of_nat 0)) .| (0x80 >> Z.of_nat 0)) .& 0xFF) with 0x80.
  change (32 - 0 - S (ptr sc))%nat with (32 - S (ptr sc))%nat in Hmd, Hlen.
  split; [|exact Hlen]. rewrite close_rounds by apply length_INPUT_BLOCK.
  change (SIXTEEN_ROUNDS (INPUT_BLOCK ?b (st sc))) with (cubehash_block b (st sc)).
  rewrite Hmd, (absorb_ext 32 cubehash_block cube_block) by apply cubehash_block_ref.
  unfold cubehash_spec. rewrite <- Hiv, Hh. set (p := md_pad 32 0 m 0x80 []).
  assert (Hs : length (absorb 32 cube_block (length p / 32) p iv) = 32%nat).
  { apply (absorb_inv (fun s => length s = 32%nat)); [|exact Hl]. intros b s _.
    apply length_cube_rounds, length_INPUT_BLOCK. }
  set (s := absorb 32 cube_block _ _ _) in *. cbv zeta. set (s' := cube_rounds 160 _).
  assert (Hs' : length s' = 32%nat) by (apply length_cube_rounds; now rewrite length_upd).
  clearbody s'. rewrite (flat_map_firstn_seq sph_enc32le 0 4) by (reflexivity || lia).
  f_equal. apply flat_map_ext, sph_enc32le_bytes.
Qed.

(** ** Main result *)

Definition cubehash_functions : list (Z * (sph_cubehash_context -> sph_cubehash_context)
    * (sph_cubehash_context -> list Z -> sph_cubehash_context)
    * (sph_cubehash_context -> list Z * sph_cubehash_context)) :=
  [(224, sph_cubehash224_init, sph_cubehash224, sph_cubehash224_close);
   (256, sph_cubehash256_init, sph_cubehash256, sph_cubehash256_close);
   (384, sph_cubehash384_init, sph_cubehash384, sph_cubehash384_close);
   (512, sph_cubehash512_init, sph_cubehash512, sph_cubehash512_close)].

Lemma cubehash_updates_absorbed iv sc pieces :
  (32 <= length (buf sc))%nat ->
  let sc' := fold_left cubehash_core pieces (cubehash_init sc iv) in
  absorbed 32 cubehash_block iv (concat pieces) sc' /\ length (buf sc') = length (buf sc).
Proof.
  intros Hb.
  assert (Hu : forall m c d, absorbed 32 cubehash_block iv m c ->
      absorbed 32 cubehash_block iv (m ++ d) (cubehash_core c d))
    by (intros; apply core_absorbed; [lia | assumption]).
  assert (Hi : absorbed 32 cubehash_block iv [] (cubehash_init sc iv)) by (apply absorbed_init; lia).
  split; [exact (fold_update_absorbed _ _ _ _ [] _ pieces Hu Hi)|].
  rewrite (fold_update_length 32 cubehash_block cubehash_core iv [] _ pieces Hu); [reflexivity | | exact Hi].
  intros. eapply core_length; [lia | eassumption].
Qed.

(** The CubeHash functions of the code are CubeHash16/32 of the specification,
    for each of the four output lengths: whatever the memory the context is
    placed in and however the message is cut into pieces, init, updates and
    close return the reference digest.  The tables of initial values are the
    states after the 160 initial rounds, and the eleven turns of the closing
    loop are the last block and the 160 final rounds. *)
Theorem cubehash_functions_correct sc pieces :
  (32 <= length (buf sc))%nat ->
  Forall (fun '(h, init, update, close) =>
      fst (close (fold_left update pieces (init sc))) = cubehash_spec h (concat pieces)) cubehash_functions.
Proof.
  intros Hb. destruct IV_init as (H224 & H256 & H384 & H512).
  pose proof (fun iv => proj1 (cubehash_updates_absorbed iv sc pieces Hb)) as A.
  pose proof (fun h iv out Hl Hi Ho Hz =>
    proj1 (cubehash_close_absorbed h iv _ _ out (A iv) Hl Hi Ho Hz)) as C.
  repeat constructor.
  - rewrite <- (C 224 IV224 7%nat eq_refl (eq_sym H224) ltac:(lia) eq_refl).
    unfold sph_cubehash224_close, sph_cubehash224_addbits_and_close. now destruct (cubehash_close _ _ _ _).
  - rewrite <- (C 256 IV256 8%nat eq_refl (eq_sym H256) ltac:(lia) eq_refl).
    unfold sph_cubehash256_close, sph_cubehash256_addbits_and_close. now destruct (cubehash_close _ _ _ _).
  - rewrite <- (C 384 IV384 12%nat eq_refl (eq_sym H384) ltac:(lia) eq_refl).
    unfold sph_cubehash384_close, sph_cubehash384_addbits_and_close. now destruct (cubehash_close _ _ _ _).
  - rewrite <- (C 512 IV512 16%nat eq_refl (eq_sym H512) ltac:(lia) eq_refl).
    unfold sph_cubehash512_close, sph_cubehash512_addbits_and_close. now destruct (cubehash_close _ _ _ _).
Qed.

Lemma cubehash_functions_correct_witness :
  Forall (fun '(h, init, update, close) =>
      fst (close (fold_left update [repeat 7 40; repeat 8 4] (init (mkContext (repeat 1 32) 5 []))))
      = cubehash_spec h (concat [repeat 7 40; repeat 8 4])) cubehash_functions.
Proof. apply cubehash_functions_correct. apply Nat.leb_le. reflexivity. Defined.

(** ** The interface *)

Definition cubehash512 : sph_hash :=
  mkHash sph_cubehash_context (fun sc => length (buf sc) = 32%nat)
    sph_cubehash512_init sph_cubehash512 sph_cubehash512_close.

#[export] Instance cubehash512_hasher : Hasher cubehash512 (cubehash_spec 512).
Proof.
  destruct IV_init as (_ & _ & _ & H512).
  split.
  - intros sc pieces Hal _ _. cbn [h_ctx h_alloc h_init h_update h_close cubehash512] in *.
    destruct (cubehash_updates_absorbed IV512 sc pieces ltac:(lia)) as [Ha Hl].
    destruct (cubehash_close_absorbed 512 IV512 _ _ 16 Ha eq_refl (eq_sym H512) ltac:(lia) eq_refl) as [Hf Hs].
    exists (snd (cubehash_close (fold_left cubehash_core pieces (cubehash_init sc IV512)) 0 0 16)). split.
    + rewrite Hs, Hl. exact Hal.
    + rewrite <- Hf. unfold sph_cubehash512_close, sph_cubehash512_addbits_and_close.
      now destruct (cubehash_close _ 0 0 16).
  - intros m. unfold cubehash_spec. change (Z.to_nat (512 / 8)) with 64%nat. rewrite length_firstn.
    rewrite (flat_map_constant_length (c := 4%nat)) by (intros; apply length_le_bytes).
    set (p := md_pad _ _ _ _ _). set (s := upd _ _ _). assert (Hs : length s = 32%nat).
    { unfold s. rewrite length_upd. apply (absorb_inv (fun s => length s = 32%nat)).
      - intros b s' _. apply length_cube_rounds, length_INPUT_BLOCK.
      - now rewrite H512. }
    rewrite length_cube_rounds by exact Hs. reflexivity.
  - intros m. apply Forall_firstn_skipn, Forall_flat_map, Forall_forall. intros x _. apply le_bytes_byte.
  - intros c Hc. exact Hc.
Qed.

End CubeHash.
