(* ===== verification/Luffa.v ===== *)
(** * src/crypto/luffa.c: Luffa-512 (the five-row functions)

    The state [V[5][8]] is a list of five rows of eight words.  [MI5] injects a
    block, [P5] permutes every row.  Under [SPH_LUFFA_PARALLEL], the
    configuration of 64-bit platforms, [P5] runs two rows at a time in 64-bit
    words, row 0 or 2 in the low halves and row 1 or 3 in the high halves, with
    packed round constants; [P5_serial] is the other configuration.

    The reference is the Luffa v2 specification: message injection over the ring
    with multiplication by 2, the sub-crumb layer as a table of 16 nibbles applied
    at every bit position, round constants from their generator, and two blank
    rounds for the output. *)

From Stdlib Require Import ZArith List Lia Bool Btauto.
From S2P Require Import Prelude SphTypes SphStream.
Import ListNotations.
Open Scope Z_scope.

Module Luffa.

(** ** Constants *)

Definition V_INIT : list (list Z) :=
  [[0x6d251e69; 0x44b051e0; 0x4eaa6fb4; 0xdbf78465; 0x6e292011; 0x90152df4; 0xee058139; 0xdef610bb];
   [0xc3b44b95; 0xd9d2f256; 0x70eee9a0; 0xde099fa3; 0x5d9b0557; 0x8fc944b3; 0xcf1ccf0e; 0x746cd581];
   [0xf7efc89d; 0x5dba5781; 0x04016ce5; 0xad659c05; 0x0306194f; 0x666d1836; 0x24aa230a; 0x8b264ae7];
   [0x858075d5; 0x36d79cce; 0xe571f7d7; 0x204b1f67; 0x35870c6a; 0x57e9e923; 0x14bcb808; 0x7cde72ce];
   [0x6c68e9be; 0x5ec41e22; 0xc825b7c7; 0xaffb4363; 0xf5df3999; 0x0fc688f1; 0xb07224cc; 0x03e86cea]].

Definition RC00 : list Z :=
  [0x303994a6; 0xc0e65299; 0x6cc33a12; 0xdc56983e; 0x1e00108f; 0x7800423d; 0x8f5b7882; 0x96e1db12].
Definition RC04 : list Z :=
  [0xe0337818; 0x441ba90d; 0x7f34d442; 0x9389217f; 0xe5a8bce6; 0x5274baf4; 0x26889ba7; 0x9a226e9d].
Definition RC10 : list Z :=
  [0xb6de10ed; 0x70f47aae; 0x0707a3d4; 0x1c1e8f51; 0x707a3d45; 0xaeb28562; 0xbaca1589; 0x40a46f3e].
Definition RC14 : list Z :=
  [0x01685f3d; 0x05a17cf4; 0xbd09caca; 0xf4272b28; 0x144ae5cc; 0xfaa7ae2b; 0x2e48f1c1; 0xb923c704].
Definition RC20 : list Z :=
  [0xfc20d9d2; 0x34552e25; 0x7ad8818f; 0x8438764a; 0xbb6de032; 0xedb780c8; 0xd9847356; 0xa2c78434].
Definition RC24 : list Z :=
  [0xe25e72c1; 0xe623bb72; 0x5c58a4a4; 0x1e38e2e7; 0x78e38b9d; 0x27586719; 0x36eda57f; 0x703aace7].
Definition RC30 : list Z :=
  [0xb213afa5; 0xc84ebe95; 0x4e608a22; 0x56d858fe; 0x343b138f; 0xd0ec4e3d; 0x2ceb4882; 0xb3ad2208].
Definition RC34 : list Z :=
  [0xe028c9bf; 0x44756f91; 0x7e8fce32; 0x956548be; 0xfe191be2; 0x3cb226e5; 0x5944a28e; 0xa1c4c355].
Definition RC40 : list Z :=
  [0xf0d2e9e3; 0xac11d7fa; 0x1bcb66f2; 0x6f2d9bc9; 0x78602649; 0x8edae952; 0x3b6ba548; 0xedae9520].
Definition RC44 : list Z :=
  [0x5090d577; 0x2d1925ab; 0xb46496ac; 0xd1925ab0; 0x29131ab6; 0x0fc053c3; 0x3f014f0c; 0xfc053c31].
Definition RCW010 : list Z :=
  [0xb6de10ed303994a6; 0x70f47aaec0e65299; 0x0707a3d46cc33a12; 0x1c1e8f51dc56983e;
   0x707a3d451e00108f; 0xaeb285627800423d; 0xbaca15898f5b7882; 0x40a46f3e96e1db12].
Definition RCW014 : list Z :=
  [0x01685f3de0337818; 0x05a17cf4441ba90d; 0xbd09caca7f34d442; 0xf4272b289389217f;
   0x144ae5cce5a8bce6; 0xfaa7ae2b5274baf4; 0x2e48f1c126889ba7; 0xb923c7049a226e9d].
Definition RCW230 : list Z :=
  [0xb213afa5fc20d9d2; 0xc84ebe9534552e25; 0x4e608a227ad8818f; 0x56d858fe8438764a;
   0x343b138fbb6de032; 0xd0ec4e3dedb780c8; 0x2ceb4882d9847356; 0xb3ad2208a2c78434].
Definition RCW234 : list Z :=
  [0xe028c9bfe25e72c1; 0x44756f91e623bb72; 0x7e8fce325c58a4a4; 0x956548be1e38e2e7;
   0xfe191be278e38b9d; 0x3cb226e527586719; 0x5944a28e36eda57f; 0xa1c4c355703aace7].

(** ** Word operations *)

(** [SUB_CRUMB_GEN], with the truncation [T] of the width; [SUB_CRUMB] has the same body. *)
Definition SUB_CRUMB_GEN (T : Z -> Z) (a0 a1 a2 a3 : Z) : Z * Z * Z * Z :=
  let tmp := a0 in
  let a0 := a0 .| a1 in
  let a2 := a2 .^ a3 in
  let a1 := T (Z.lnot a1) in
  let a0 := a0 .^ a3 in
  let a3 := a3 .& tmp in
  let a1 := a1 .^ a3 in
  let a3 := a3 .^ a2 in
  let a2 := a2 .& a0 in
  let a0 := T (Z.lnot a0) in
  let a2 := a2 .^ a1 in
  let a1 := a1 .| a3 in
  let tmp := tmp .^ a1 in
  let a3 := a3 .^ a2 in
  let a2 := a2 .& a1 in
  let a1 := a1 .^ a0 in
  let a0 := tmp in
  (a0, a1, a2, a3).

Definition SUB_CRUMB := SUB_CRUMB_GEN SPH_T32.
Definition SUB_CRUMBW := SUB_CRUMB_GEN SPH_T64.

Definition MIX_WORD (u v : Z) : Z * Z :=
  let v := v .^ u in
  let u := SPH_ROTL32 u 2 .^ v in
  let v := SPH_ROTL32 v 14 .^ u in
  let u := SPH_ROTL32 u 10 .^ v in
  let v := SPH_ROTL32 v 1 in
  (u, v).

Definition MIX_WORDW (u v : Z) : Z * Z :=
  let v := v .^ u in
  let ul := SPH_T32 u in
  let uh := SPH_T32 (u >> 32) in
  let vl := SPH_T32 v in
  let vh := SPH_T32 (v >> 32) in
  let ul := SPH_ROTL32 ul 2 .^ vl in
  let vl := SPH_ROTL32 vl 14 .^ ul in
  let ul := SPH_ROTL32 ul 10 .^ vl in
  let vl := SPH_ROTL32 vl 1 in
  let uh := SPH_ROTL32 uh 2 .^ vh in
  let vh := SPH_ROTL32 vh 14 .^ uh in
  let uh := SPH_ROTL32 uh 10 .^ vh in
  let vh := SPH_ROTL32 vh 1 in
  (ul .| (uh << 32), vl .| (vh << 32)).

(** [M2(d, s)] and [XOR(d, s1, s2)] on rows: the new [d]. *)
Definition M2 (s : list Z) : list Z :=
  match s with
  | [s0; s1; s2; s3; s4; s5; s6; s7] =>
      let tmp := s7 in
      [tmp; s0 .^ tmp; s1; s2 .^ tmp; s3 .^ tmp; s4; s5; s6]
  | _ => s
  end.

Definition XOR (s1 s2 : list Z) : list Z := map (fun i => nth i s1 0 .^ nth i s2 0) (seq 0 8).

(** ** Message injection *)

(** [M0] .. [M7]. *)
Definition M_words (buf : list Z) : list Z := map (fun i => sph_dec32be (skipn (4 * i) buf)) (seq 0 8).

Definition MI5 (buf : list Z) (V : list (list Z)) : list (list Z) :=
  let M := M_words buf in
  let V0 := nth 0 V [] in let V1 := nth 1 V [] in let V2 := nth 2 V [] in
  let V3 := nth 3 V [] in let V4 := nth 4 V [] in
  let a := XOR V0 V1 in
  let b := XOR V2 V3 in
  let a := XOR a b in
  let a := XOR a V4 in
  let a := M2 a in
  let V0 := XOR a V0 in
  let V1 := XOR a V1 in
  let V2 := XOR a V2 in
  let V3 := XOR a V3 in
  let V4 := XOR a V4 in
  let b := M2 V0 in
  let b := XOR b V1 in
  let V1 := M2 V1 in
  let V1 := XOR V1 V2 in
  let V2 := M2 V2 in
  let V2 := XOR V2 V3 in
  let V3 := M2 V3 in
  let V3 := XOR V3 V4 in
  let V4 := M2 V4 in
  let V4 := XOR V4 V0 in
  let V0 := M2 b in
  let V0 := XOR V0 V4 in
  let V4 := M2 V4 in
  let V4 := XOR V4 V3 in
  let V3 := M2 V3 in
  let V3 := XOR V3 V2 in
  let V2 := M2 V2 in
  let V2 := XOR V2 V1 in
  let V1 := M2 V1 in
  let V1 := XOR V1 b in
  let V0 := XOR V0 M in
  let M := M2 M in
  let V1 := XOR V1 M in
  let M := M2 M in
  let V2 := XOR V2 M in
  let M := M2 M in
  let V3 := XOR V3 M in
  let M := M2 M in
  let V4 := XOR V4 M in
  [V0; V1; V2; V3; V4].

(** ** The permutation *)

(** [V14] .. [V17] rotated by 1, ..., [V44] .. [V47] by 4. *)
Definition TWEAK_row (n : Z) (v : list Z) : list Z :=
  match v with
  | [v0; v1; v2; v3; v4; v5; v6; v7] =>
      [v0; v1; v2; v3; SPH_ROTL32 v4 n; SPH_ROTL32 v5 n; SPH_ROTL32 v6 n; SPH_ROTL32 v7 n]
  | _ => v
  end.
Definition TWEAK5 (V : list (list Z)) : list (list Z) :=
  [nth 0 V []; TWEAK_row 1 (nth 1 V []); TWEAK_row 2 (nth 2 V []); TWEAK_row 3 (nth 3 V []);
   TWEAK_row 4 (nth 4 V [])].

(** The body of the loops over [r], with the macros of either width. *)
Definition ROUND (sub : Z -> Z -> Z -> Z -> Z * Z * Z * Z) (mix : Z -> Z -> Z * Z) (c0 c4 : Z) (v : list Z)
  : list Z :=
  match v with
  | [v0; v1; v2; v3; v4; v5; v6; v7] =>
      let '(v0, v1, v2, v3) := sub v0 v1 v2 v3 in
      let '(v5, v6, v7, v4) := sub v5 v6 v7 v4 in
      let '(v0, v4) := mix v0 v4 in
      let '(v1, v5) := mix v1 v5 in
      let '(v2, v6) := mix v2 v6 in
      let '(v3, v7) := mix v3 v7 in
      let v0 := v0 .^ c0 in
      let v4 := v4 .^ c4 in
      [v0; v1; v2; v3; v4; v5; v6; v7]
  | _ => v
  end.

(** [for (r = 0; r < 8; r ++)] on a row, and on two packed rows. *)
Definition ROUNDS (RC0 RC4 v : list Z) : list Z :=
  fold_left (fun v r => ROUND SUB_CRUMB MIX_WORD (nth r RC0 0) (nth r RC4 0) v) (seq 0 8) v.
Definition ROUNDSW (RC0 RC4 v : list Z) : list Z :=
  fold_left (fun v r => ROUND SUB_CRUMBW MIX_WORDW (nth r RC0 0) (nth r RC4 0) v) (seq 0 8) v.

Definition P5_serial (V : list (list Z)) : list (list Z) :=
  let V := TWEAK5 V in
  [ROUNDS RC00 RC04 (nth 0 V []); ROUNDS RC10 RC14 (nth 1 V []); ROUNDS RC20 RC24 (nth 2 V []);
   ROUNDS RC30 RC34 (nth 3 V []); ROUNDS RC40 RC44 (nth 4 V [])].

(** [W = (sph_u64)V0 | ((sph_u64)V1 << 32)] and its halves. *)
Definition pack (x y : Z) : Z := x .| (y << 32).
Definition pack_rows (u v : list Z) : list Z := map (fun i => pack (nth i u 0) (nth i v 0)) (seq 0 8).
Definition low_row (W : list Z) : list Z := map (fun i => SPH_T32 (nth i W 0)) (seq 0 8).
Definition high_row (W : list Z) : list Z := map (fun i => SPH_T32 (nth i W 0 >> 32)) (seq 0 8).

Definition P5 (V : list (list Z)) : list (list Z) :=
  let V := TWEAK5 V in
  let W := pack_rows (nth 0 V []) (nth 1 V []) in
  let W := ROUNDSW RCW010 RCW014 W in
  let V0 := low_row W in let V1 := high_row W in
  let W := pack_rows (nth 2 V []) (nth 3 V []) in
  let W := ROUNDSW RCW230 RCW234 W in
  let V2 := low_row W in let V3 := high_row W in
  let V4 := ROUNDS RC40 RC44 (nth 4 V []) in
  [V0; V1; V2; V3; V4].

(** ** The functions over the context *)

Definition sph_luffa512_context : Type := context (list (list Z)).

Definition sph_luffa512_init (cc : sph_luffa512_context) : sph_luffa512_context :=
  mkContext (buf cc) 0 V_INIT.

(** What runs when the buffer is full. *)
Definition luffa5_block (b : list Z) (V : list (list Z)) : list (list Z) := P5 (MI5 b V).

Definition luffa5 (sc : sph_luffa512_context) (data : list Z) : sph_luffa512_context :=
  core 32 luffa5_block sc data.

(** [V00 ^ V10 ^ V20 ^ V30 ^ V40] and so on. *)
Definition row_sum (V : list (list Z)) : list Z :=
  map (fun i => nth i (nth 0 V []) 0 .^ nth i (nth 1 V []) 0 .^ nth i (nth 2 V []) 0
       .^ nth i (nth 3 V []) 0 .^ nth i (nth 4 V []) 0) (seq 0 8).

Definition luffa5_close (sc : sph_luffa512_context) (ub : Z) (n : nat)
  : list Z * sph_luffa512_context :=
  let z := 0x80 >> Z.of_nat n in
  let buf1 := memcpy (buf sc) (ptr sc) [((ub .& - z) .| z) .& 0xFF] in
  let ptr1 := S (ptr sc) in
  let buf2 := memcpy buf1 ptr1 (repeat 0 (32 - ptr1)) in
  let V := luffa5_block (firstn 32 buf2) (st sc) in
  let buf3 := memcpy buf2 0 (repeat 0 32) in
  let V := luffa5_block (firstn 32 buf3) V in
  let out1 := flat_map sph_enc32be (row_sum V) in
  let V := luffa5_block (firstn 32 buf3) V in
  let out2 := flat_map sph_enc32be (row_sum V) in
  (out1 ++ out2, mkContext buf3 (ptr sc) (st sc)).

Definition sph_luffa512 (cc : sph_luffa512_context) (data : list Z) : sph_luffa512_context := luffa5 cc data.
Definition sph_luffa512_addbits_and_close (cc : sph_luffa512_context) (ub : Z) (n : nat)
  : list Z * sph_luffa512_context :=
  let '(dst, cc) := luffa5_close cc ub n in (dst, sph_luffa512_init cc).
Definition sph_luffa512_close (cc : sph_luffa512_context) : list Z * sph_luffa512_context :=
  sph_luffa512_addbits_and_close cc 0 0.

(** ** The Luffa v2 specification *)

(** A word from its bits. *)
Definition of_bits (n : nat) (f : Z -> bool) : Z :=
  fold_left (fun x i => x .| (Z.b2z (f (Z.of_nat i)) << Z.of_nat i)) (seq 0 n) 0.

(** The S-box, and its layer: the nibble at every bit position. *)
Definition SBOX : list Z := [13; 14; 0; 1; 5; 10; 7; 6; 11; 3; 9; 12; 15; 8; 2; 4].

Definition nibble (b0 b1 b2 b3 : bool) : nat :=
  (Nat.b2n b0 + 2 * Nat.b2n b1 + 4 * Nat.b2n b2 + 8 * Nat.b2n b3)%nat.

Definition sub_crumb (a0 a1 a2 a3 : Z) : Z * Z * Z * Z :=
  let s i := nth (nibble (Z.testbit a0 i) (Z.testbit a1 i) (Z.testbit a2 i) (Z.testbit a3 i)) SBOX 0 in
  let out j := of_bits 32 (fun i => Z.testbit (s i) j) in
  (out 0, out 1, out 2, out 3).

(** The generator of the round constants: a 64-bit shift register whose halves
    are exchanged after every step. *)
Definition rc_shift (t : Z * Z) : Z * Z :=
  let '(l, r) := t in
  let l' := SPH_T32 (l << 1) .| (r >> 31) in
  let r' := SPH_T32 (r << 1) in
  if Z.testbit l 31 then (l' .^ 0xc4d6496c, r' .^ 0x55c61c8d) else (l', r').
Definition rc_swap (t : Z * Z) : Z * Z := (snd t, fst t).

Fixpoint round_constants (n : nat) (t : Z * Z) : list (Z * Z) :=
  match n with
  | O => []
  | S n =>
      let t0 := rc_shift t in
      let t4 := rc_shift (rc_swap t0) in
      (fst t0, fst t4) :: round_constants n (rc_swap t4)
  end.

Definition rc_seed : list (Z * Z) :=
  [(0x181cca53, 0x380cde06); (0x5b6f0876, 0xf16f8594); (0x7e106ce9, 0x38979cb0);
   (0xbb62f364, 0x92e93c29); (0x9a025047, 0xcff2a940)].

(** The permutation of row [j]: tweak, then eight steps. *)
Definition luffa_Q (j : nat) (v : list Z) : list Z :=
  let v := if (j =? 0)%nat then v else TWEAK_row (Z.of_nat j) v in
  fold_left (fun v c => ROUND sub_crumb MIX_WORD (fst c) (snd c) v)
    (round_constants 8 (nth j rc_seed (0, 0))) v.

(** Injection: add twice the sum of the rows, then two cyclic passes
    [2 V_i + V_(i+1)] and [2 V_i + V_(i-1)], then [2^i M] to row [i]. *)
Definition luffa_MI (M : list Z) (V : list (list Z)) : list (list Z) :=
  let row i := nth (i mod 5) V [] in
  let sum := fold_left XOR (tl V) (row 0%nat) in
  let V1 := map (fun i => XOR (row i) (M2 sum)) (seq 0 5) in
  let V2 := map (fun i => XOR (M2 (nth i V1 [])) (nth ((i + 1) mod 5) V1 [])) (seq 0 5) in
  let V3 := map (fun i => XOR (M2 (nth i V2 [])) (nth ((i + 4) mod 5) V2 [])) (seq 0 5) in
  map (fun i => XOR (nth i V3 []) (Nat.iter i M2 M)) (seq 0 5).

Definition luffa_round (b : list Z) (V : list (list Z)) : list (list Z) :=
  let V := luffa_MI (map (fun i => le_word (rev (firstn 4 (skipn (4 * i) b)))) (seq 0 8)) V in
  map (fun j => luffa_Q j (nth j V [])) (seq 0 5).

Definition luffa_out (V : list (list Z)) : list Z :=
  flat_map (fun x => rev (le_bytes 4 x)) (fold_left XOR (tl V) (nth 0 V [])).

(** The message, a one bit, zeros to a multiple of 32 bytes; then two blank
    rounds with an output of 256 bits each. *)
Definition luffa_spec (m : list Z) : list Z :=
  let p := md_pad 32 0 m 0x80 [] in
  let V := absorb 32 luffa_round (length p / 32) p V_INIT in
  let V1 := luffa_round (repeat 0 32) V in
  let V2 := luffa_round (repeat 0 32) V1 in
  luffa_out V1 ++ luffa_out V2.

(** ** The sub-crumb layer *)

Lemma testbit_of_bits n f i :
  0 <= i -> Z.testbit (of_bits n f) i = if i <? Z.of_nat n then f i else false.
Proof.
  intros Hi. unfold of_bits. induction n as [|n IH].
  - cbn [seq fold_left]. rewrite Z.testbit_0_l. destruct (Z.ltb_spec i (Z.of_nat 0)); [lia | reflexivity].
  - rewrite seq_S, fold_left_app. cbn [fold_left Nat.add]. rewrite Z.lor_spec, IH, testbit_shiftl.
    destruct (Z.ltb_spec i 0); [lia|].
    destruct (Z.ltb_spec (i - Z.of_nat n) 0), (Z.ltb_spec i (Z.of_nat n)), (Z.ltb_spec i (Z.of_nat (S n)));
      try lia.
    + apply orb_false_r.
    + replace i with (Z.of_nat n) by lia. rewrite Z.sub_diag. now destruct (f _).
    + apply (word_testbit_high 1); [lia | destruct (f _); unfold word; cbn; lia | lia].
Qed.

Lemma u32_of_bits f : u32 (of_bits 32 f).
Proof.
  apply word_of_bits; [lia | |].
  - unfold of_bits. apply (fold_left_inv (fun x => 0 <= x)); [|lia]. intros x i Hx.
    apply Z.lor_nonneg. split; [exact Hx|]. apply Z.shiftl_nonneg. destruct (f _); cbn; lia.
  - intros i Hi. rewrite testbit_of_bits by lia. destruct (Z.ltb_spec i (Z.of_nat 32)); [lia | reflexivity].
Qed.

Lemma u32_SUB_CRUMB a0 a1 a2 a3 b0 b1 b2 b3 :
  u32 a0 -> u32 a1 -> u32 a2 -> u32 a3 -> SUB_CRUMB a0 a1 a2 a3 = (b0, b1, b2, b3) ->
  u32 b0 /\ u32 b1 /\ u32 b2 /\ u32 b3.
Proof.
  intros H0 H1 H2 H3 E. injection E as <- <- <- <-.
  refine (conj _ (conj _ (conj _ _))); auto 20 with words.
Qed.

(** The logical operations of [SUB_CRUMB] apply the S-box at every bit. *)
Lemma SUB_CRUMB_table a0 a1 a2 a3 :
  u32 a0 -> u32 a1 -> u32 a2 -> u32 a3 -> SUB_CRUMB a0 a1 a2 a3 = sub_crumb a0 a1 a2 a3.
Proof.
  intros H0 H1 H2 H3. destruct (SUB_CRUMB a0 a1 a2 a3) as [[[b0 b1] b2] b3] eqn:E.
  destruct (u32_SUB_CRUMB _ _ _ _ _ _ _ _ H0 H1 H2 H3 E) as (B0 & B1 & B2 & B3).
  injection E as <- <- <- <-.
  unfold sub_crumb. repeat f_equal; apply (word_ext 32); try assumption; try lia; try apply u32_of_bits;
    intros i Hi; rewrite testbit_of_bits by lia;
    (destruct (Z.ltb_spec i (Z.of_nat 32)); [|lia]);
    repeat progress rewrite ?Z.lxor_spec, ?Z.lor_spec, ?Z.land_spec, ?SPH_T32_testbit, ?Z.lnot_spec by lia;
    destruct (Z.testbit a0 i), (Z.testbit a1 i), (Z.testbit a2 i), (Z.testbit a3 i); reflexivity.
Qed.

(** ** Two rows in one *)

Lemma pack_testbit x y i :
  u32 x -> Z.testbit (pack x y) i = if i <? 32 then Z.testbit x i else Z.testbit y (i - 32).
Proof.
  intros Hx. unfold pack. rewrite Z.lor_spec, testbit_shiftl.
  destruct (Z.ltb_spec i 32), (Z.ltb_spec i 0), (Z.ltb_spec (i - 32) 0); try lia.
  - now rewrite !Z.testbit_neg_r by lia.
  - apply orb_false_r.
  - now rewrite (word_testbit_high 32 x) by (lia || assumption).
Qed.

Ltac pack_bits :=
  intros; apply Z.bits_inj'; intros i Hi; rewrite ?Z.lxor_spec, ?Z.lor_spec, ?Z.land_spec;
  rewrite !pack_testbit by auto with words;
  destruct (Z.ltb_spec i 32); now rewrite ?Z.lxor_spec, ?Z.lor_spec, ?Z.land_spec.

Lemma pack_lxor a b c d : u32 a -> u32 c -> pack a b .^ pack c d = pack (a .^ c) (b .^ d).
Proof. pack_bits. Qed.
Lemma pack_lor a b c d : u32 a -> u32 c -> pack a b .| pack c d = pack (a .| c) (b .| d).
Proof. pack_bits. Qed.
Lemma pack_land a b c d : u32 a -> u32 c -> pack a b .& pack c d = pack (a .& c) (b .& d).
Proof. pack_bits. Qed.

Lemma u64_pack x y : u32 x -> u32 y -> u64 (pack x y).
Proof.
  intros Hx Hy. unfold pack. apply word_lor; [lia | |].
  - eapply (word_mono 32); [lia | exact Hx].
  - apply word_shiftl; [lia | exact Hy].
Qed.

Lemma pack_lnot a b :
  u32 a -> u32 b -> SPH_T64 (Z.lnot (pack a b)) = pack (SPH_T32 (Z.lnot a)) (SPH_T32 (Z.lnot b)).
Proof.
  intros Ha Hb. apply (word_ext 64); [lia | auto with words | apply u64_pack; auto with words |].
  intros i Hi. rewrite SPH_T64_testbit, Z.lnot_spec, !pack_testbit by (lia || auto with words).
  destruct (Z.ltb_spec i 32); now rewrite SPH_T32_testbit, Z.lnot_spec by lia.
Qed.

Lemma low_pack x y : u32 x -> SPH_T32 (pack x y) = x.
Proof.
  intros Hx. apply (word_ext 32); [lia | auto with words | exact Hx |]. intros i Hi.
  rewrite SPH_T32_testbit, pack_testbit by (lia || exact Hx). destruct (Z.ltb_spec i 32); [reflexivity | lia].
Qed.

Lemma high_pack x y : u32 x -> u32 y -> SPH_T32 (pack x y >> 32) = y.
Proof.
  intros Hx Hy. apply (word_ext 32); [lia | auto with words | exact Hy |]. intros i Hi.
  rewrite SPH_T32_testbit, Z.shiftr_spec, pack_testbit by (lia || exact Hx).
  destruct (Z.ltb_spec (i + 32) 32); [lia|]. f_equal. lia.
Qed.

#[local] Hint Resolve u64_pack : words.

Definition pack4 (p q : Z * Z * Z * Z) : Z * Z * Z * Z :=
  let '(a0, a1, a2, a3) := p in let '(b0, b1, b2, b3) := q in (pack a0 b0, pack a1 b1, pack a2 b2, pack a3 b3).

Lemma SUB_CRUMBW_pack a0 a1 a2 a3 b0 b1 b2 b3 :
  u32 a0 -> u32 a1 -> u32 a2 -> u32 a3 -> u32 b0 -> u32 b1 -> u32 b2 -> u32 b3 ->
  SUB_CRUMBW (pack a0 b0) (pack a1 b1) (pack a2 b2) (pack a3 b3)
  = pack4 (SUB_CRUMB a0 a1 a2 a3) (SUB_CRUMB b0 b1 b2 b3).
Proof.
  intros. unfold SUB_CRUMBW, SUB_CRUMB, SUB_CRUMB_GEN, pack4.
  repeat progress rewrite ?pack_lor, ?pack_lxor, ?pack_land, ?pack_lnot by auto 20 with words.
  reflexivity.
Qed.

Lemma MIX_WORDW_pack u v u' v' :
  u32 u -> u32 v -> u32 u' -> u32 v' ->
  MIX_WORDW (pack u u') (pack v v')
  = (pack (fst (MIX_WORD u v)) (fst (MIX_WORD u' v')), pack (snd (MIX_WORD u v)) (snd (MIX_WORD u' v'))).
Proof.
  intros. unfold MIX_WORDW. rewrite pack_lxor by assumption.
  rewrite !low_pack, !high_pack by auto with words. reflexivity.
Qed.

(** ** Rows *)

Definition wf_row (v : list Z) : Prop := length v = 8%nat /\ Forall u32 v.

(** The words of a row, all in range. *)
Ltac row8 v H :=
  let Hl := fresh in let Hf := fresh in destruct H as [Hl Hf];
  do 8 (let x := fresh "x" in destruct v as [|x v]; [discriminate Hl|]);
  destruct v; [clear Hl; forall_inv | discriminate Hl].

Ltac crumb_cases :=
  repeat match goal with
  | |- context [SUB_CRUMB ?a ?b ?c ?d] =>
      let E := fresh "E" in let r := fresh "r" in
      destruct (SUB_CRUMB a b c d) as [[[? ?] ?] ?] eqn:E;
      apply u32_SUB_CRUMB in E; [|assumption..]; destruct E as (? & ? & ? & ?)
  end.

Lemma u32_MIX_WORD u v : u32 u -> u32 v -> u32 (fst (MIX_WORD u v)) /\ u32 (snd (MIX_WORD u v)).
Proof. intros. unfold MIX_WORD. split; cbn [fst snd]; auto 10 with words. Qed.

Lemma wf_ROUND c0 c4 v : u32 c0 -> u32 c4 -> wf_row v -> wf_row (ROUND SUB_CRUMB MIX_WORD c0 c4 v).
Proof.
  intros H0 H4 Hv. row8 v Hv. unfold ROUND. crumb_cases.
  repeat match goal with
  | |- context [MIX_WORD ?a ?b] =>
      let F := fresh "F" in pose proof (u32_MIX_WORD a b ltac:(assumption) ltac:(assumption)) as F;
      destruct (MIX_WORD a b); cbn [fst snd] in F; destruct F
  end.
  split; [reflexivity|]. repeat apply Forall_cons; auto with words.
Qed.

Lemma ROUND_table c0 c4 v :
  wf_row v -> ROUND SUB_CRUMB MIX_WORD c0 c4 v = ROUND sub_crumb MIX_WORD c0 c4 v.
Proof. intros Hv. row8 v Hv. unfold ROUND. now rewrite <- !SUB_CRUMB_table by assumption. Qed.

Lemma ROUND_pack c0 c4 d0 d4 u v :
  u32 c0 -> u32 c4 -> wf_row u -> wf_row v ->
  ROUND SUB_CRUMBW MIX_WORDW (pack c0 d0) (pack c4 d4) (pack_rows u v)
  = pack_rows (ROUND SUB_CRUMB MIX_WORD c0 c4 u) (ROUND SUB_CRUMB MIX_WORD d0 d4 v).
Proof.
  intros Hc0 Hc4 Hu Hv. row8 u Hu. row8 v Hv. unfold pack_rows at 1. cbn [map seq nth].
  unfold ROUND. rewrite !SUB_CRUMBW_pack by assumption.
  crumb_cases. cbn [pack4]. rewrite !MIX_WORDW_pack by assumption.
  repeat match goal with
  | |- context [MIX_WORD ?a ?b] =>
      let F := fresh "F" in pose proof (u32_MIX_WORD a b ltac:(assumption) ltac:(assumption)) as F;
      destruct (MIX_WORD a b); cbn [fst snd] in F; destruct F
  end.
  cbn [fst snd]. rewrite !pack_lxor by assumption. reflexivity.
Qed.

Lemma low_row_pack u v : wf_row u -> wf_row v -> low_row (pack_rows u v) = u /\ high_row (pack_rows u v) = v.
Proof.
  intros Hu Hv. row8 u Hu. row8 v Hv. unfold low_row, high_row, pack_rows. cbn [map seq nth].
  now rewrite !low_pack, !high_pack by assumption.
Qed.

(** ** The loops over the rounds *)

Definition round_step (RC0 RC4 : list Z) (v : list Z) (r : nat) : list Z :=
  ROUND SUB_CRUMB MIX_WORD (nth r RC0 0) (nth r RC4 0) v.

Lemma wf_ROUNDS_aux RC0 RC4 l v :
  Forall u32 RC0 -> Forall u32 RC4 -> wf_row v -> wf_row (fold_left (round_step RC0 RC4) l v).
Proof.
  intros H0 H4. apply (fold_left_inv wf_row). intros a r Ha.
  apply wf_ROUND; try apply Forall_nth_default; auto with words.
Qed.

Lemma wf_ROUNDS RC0 RC4 v :
  Forall u32 RC0 -> Forall u32 RC4 -> wf_row v -> wf_row (ROUNDS RC0 RC4 v).
Proof. apply (wf_ROUNDS_aux RC0 RC4 (seq 0 8) v). Qed.

Lemma ROUNDSW_pack RC0 RC4 RD0 RD4 u v :
  Forall u32 RC0 -> Forall u32 RC4 -> Forall u32 RD0 -> Forall u32 RD4 -> wf_row u -> wf_row v ->
  ROUNDSW (pack_rows RC0 RD0) (pack_rows RC4 RD4) (pack_rows u v)
  = pack_rows (ROUNDS RC0 RC4 u) (ROUNDS RD0 RD4 v).
Proof.
  intros HC0 HC4 HD0 HD4. unfold ROUNDSW, ROUNDS.
  assert (Hn : forall a b r, (r < 8)%nat -> nth r (pack_rows a b) 0 = pack (nth r a 0) (nth r b 0))
    by (intros a b r Hr; do 8 (destruct r as [|r]; [reflexivity|]); lia).
  assert (Hle : (8 <= 8)%nat) by lia. revert Hle. generalize 8%nat at 1 3 4 5. intros n Hn8 Hu Hv.
  induction n as [|n IH]; [reflexivity|].
  rewrite seq_S, !fold_left_app, IH by lia. cbn [fold_left Nat.add]. rewrite !Hn by lia.
  apply ROUND_pack.
  - apply Forall_nth_default; auto with words.
  - apply Forall_nth_default; auto with words.
  - now apply (wf_ROUNDS_aux RC0 RC4).
  - now apply (wf_ROUNDS_aux RD0 RD4).
Qed.

(** ** The permutation *)

(** A well-formed state. *)
Definition wf (V : list (list Z)) : Prop := length V = 5%nat /\ Forall wf_row V.

Ltac u32_table := repeat apply Forall_cons; auto with words.

Lemma RC_u32 :
  Forall (Forall u32) [RC00; RC04; RC10; RC14; RC20; RC24; RC30; RC34; RC40; RC44].
Proof. repeat apply Forall_cons; try apply Forall_nil; u32_table. Qed.

(** The packed constants, and the tables as the output of the generator. *)
Lemma RCW_pack :
  RCW010 = pack_rows RC00 RC10 /\ RCW014 = pack_rows RC04 RC14 /\
  RCW230 = pack_rows RC20 RC30 /\ RCW234 = pack_rows RC24 RC34.
Proof. repeat split. Qed.

Lemma RC_generated :
  map (round_constants 8) rc_seed
  = [combine RC00 RC04; combine RC10 RC14; combine RC20 RC24; combine RC30 RC34; combine RC40 RC44].
Proof. reflexivity. Qed.

Lemma wf_TWEAK_row n v : wf_row v -> wf_row (TWEAK_row n v).
Proof. intros Hv. row8 v Hv. split; [reflexivity|]. repeat apply Forall_cons; auto with words. Qed.

Lemma wf_nth V j : wf V -> (j < 5)%nat -> wf_row (nth j V []).
Proof. intros [Hl Hf] Hj. rewrite Forall_forall in Hf. apply Hf, nth_In. lia. Qed.

#[local] Opaque ROUND sub_crumb SUB_CRUMB MIX_WORD.

(** Rows under a table of constants are rows under the generated constants. *)
Lemma ROUNDS_table RC0 RC4 v :
  length RC0 = 8%nat -> length RC4 = 8%nat -> Forall u32 RC0 -> Forall u32 RC4 -> wf_row v ->
  wf_row (ROUNDS RC0 RC4 v) /\
  ROUNDS RC0 RC4 v = fold_left (fun v c => ROUND sub_crumb MIX_WORD (fst c) (snd c) v) (combine RC0 RC4) v.
Proof.
  intros L0 L4 H0 H4 Hv. split; [now apply wf_ROUNDS|].
  unfold ROUNDS.
  rewrite (fold_left_ext_inv wf_row _ (fun v r => ROUND sub_crumb MIX_WORD (nth r RC0 0) (nth r RC4 0) v)).
  - do 8 (destruct RC0 as [|? RC0]; [discriminate|]; destruct RC4 as [|? RC4]; [discriminate|]).
    destruct RC0, RC4; [|discriminate..]. generalize (ROUND sub_crumb MIX_WORD). reflexivity.
  - intros a r _ Ha. pose proof (ROUND_table (nth r RC0 0) (nth r RC4 0) a Ha) as E. split; [exact E|].
    refine (eq_ind _ wf_row _ _ E). apply wf_ROUND; try apply Forall_nth_default; auto with words.
  - exact Hv.
Qed.

(** The permutation as five reference rows. *)
Definition luffa_P (V : list (list Z)) : list (list Z) := map (fun j => luffa_Q j (nth j V [])) (seq 0 5).

Lemma luffa_Q_table j v :
  luffa_Q j v = fold_left (fun v c => ROUND sub_crumb MIX_WORD (fst c) (snd c) v)
    (nth j (map (round_constants 8) rc_seed) (round_constants 8 (0, 0)))
    (if (j =? 0)%nat then v else TWEAK_row (Z.of_nat j) v).
Proof. unfold luffa_Q. now rewrite map_nth. Qed.

Lemma P5_serial_ref V : wf V -> P5_serial V = luffa_P V /\ wf (P5_serial V).
Proof.
  intros HV. pose proof RC_u32 as HR. forall_inv. unfold P5_serial, TWEAK5, luffa_P. cbn [nth map seq].
  rewrite !luffa_Q_table, RC_generated. cbn [nth Nat.eqb].
  assert (HT : forall n j, (j < 5)%nat -> wf_row (TWEAK_row n (nth j V [])))
    by (intros; apply wf_TWEAK_row, wf_nth; auto).
  destruct (ROUNDS_table RC00 RC04 (nth 0 V []) eq_refl eq_refl ltac:(assumption) ltac:(assumption) ltac:(apply wf_nth; auto; lia)) as [W0 E0].
  destruct (ROUNDS_table RC10 RC14 (TWEAK_row 1 (nth 1 V [])) eq_refl eq_refl ltac:(assumption) ltac:(assumption) ltac:(apply HT; lia)) as [W1 E1].
  destruct (ROUNDS_table RC20 RC24 (TWEAK_row 2 (nth 2 V [])) eq_refl eq_refl ltac:(assumption) ltac:(assumption) ltac:(apply HT; lia)) as [W2 E2].
  destruct (ROUNDS_table RC30 RC34 (TWEAK_row 3 (nth 3 V [])) eq_refl eq_refl ltac:(assumption) ltac:(assumption) ltac:(apply HT; lia)) as [W3 E3].
  destruct (ROUNDS_table RC40 RC44 (TWEAK_row 4 (nth 4 V [])) eq_refl eq_refl ltac:(assumption) ltac:(assumption) ltac:(apply HT; lia)) as [W4 E4].
  change (Z.of_nat 1) with 1. change (Z.of_nat 2) with 2. change (Z.of_nat 3) with 3. change (Z.of_nat 4) with 4.
  rewrite <- E0, <- E1, <- E2, <- E3, <- E4. split; [reflexivity|].
  split; [reflexivity|]. repeat apply Forall_cons; auto.
Qed.

#[local] Opaque ROUNDS ROUNDSW.

Lemma P5_packed V : wf V -> P5 V = P5_serial V.
Proof.
  intros HV. pose proof RC_u32 as HR. forall_inv. destruct RCW_pack as (W1 & W2 & W3 & W4).
  assert (HT : forall n j, (j < 5)%nat -> wf_row (TWEAK_row n (nth j V [])))
    by (intros; apply wf_TWEAK_row, wf_nth; auto).
  unfold P5, P5_serial, TWEAK5. cbn [nth]. rewrite W1, W2, W3, W4.
  pose proof (wf_nth V 0 HV ltac:(lia)) as H0.
  rewrite (ROUNDSW_pack RC00 RC04 RC10 RC14), (ROUNDSW_pack RC20 RC24 RC30 RC34); auto using HT with arith.
  destruct (low_row_pack (ROUNDS RC00 RC04 (nth 0 V [])) (ROUNDS RC10 RC14 (TWEAK_row 1 (nth 1 V []))))
    as [-> ->]; auto using wf_ROUNDS with arith.
  destruct (low_row_pack (ROUNDS RC20 RC24 (TWEAK_row 2 (nth 2 V []))) (ROUNDS RC30 RC34 (TWEAK_row 3 (nth 3 V []))))
    as [-> ->]; auto using wf_ROUNDS with arith.
Qed.

(** ** Message injection *)

Lemma wf_M2 v : wf_row v -> wf_row (M2 v).
Proof. intros Hv. row8 v Hv. split; [reflexivity|]. repeat apply Forall_cons; auto with words. Qed.

Lemma wf_XOR u v : wf_row u -> wf_row v -> wf_row (XOR u v).
Proof.
  intros Hu Hv. row8 u Hu. row8 v Hv. split; [reflexivity|].
  repeat apply Forall_cons; auto; apply word_lxor; (lia || assumption).
Qed.

Lemma wf_M_words b : Forall byte b -> wf_row (M_words b).
Proof.
  intros Hb. split; [reflexivity|]. apply Forall_map, Forall_forall. intros i _.
  apply u32_sph_dec32be, Forall_firstn_skipn, Hb.
Qed.

#[local] Hint Resolve wf_M2 wf_XOR wf_M_words : words.

Lemma XOR_comm u v : XOR u v = XOR v u.
Proof. apply map_ext. intros i. apply Z.lxor_comm. Qed.

Lemma XOR_assoc u v w : XOR (XOR u v) w = XOR u (XOR v w).
Proof. unfold XOR. cbn [map seq nth]. now rewrite !Z.lxor_assoc. Qed.

#[local] Opaque M2 XOR M_words.

(** The straight-line code of the macro computes the cyclic passes. *)
Lemma MI5_ref b V : length V = 5%nat -> MI5 b V = luffa_MI (M_words b) V.
Proof.
  intros HV. destruct V as [|V0 [|V1 [|V2 [|V3 [|V4 [|]]]]]]; try discriminate.
  unfold MI5, luffa_MI. cbn [map seq nth tl fold_left Nat.iter Nat.modulo Nat.divmod Nat.add Nat.sub fst snd].
  rewrite <- (XOR_assoc (XOR V0 V1) V2 V3). set (s := M2 (XOR (XOR (XOR (XOR V0 V1) V2) V3) V4)).
  rewrite !(XOR_comm s). reflexivity.
Qed.

Lemma wf_MI5 b V : Forall byte b -> wf V -> wf (MI5 b V).
Proof.
  intros Hb HV. pose proof (fun j => wf_nth V j HV) as H. split; [reflexivity|].
  unfold MI5. repeat apply Forall_cons; try apply Forall_nil;
    repeat apply wf_XOR; repeat apply wf_M2; repeat apply wf_XOR; repeat apply wf_M2;
    repeat apply wf_XOR; auto 20 with words arith.
Qed.

#[local] Opaque MI5 luffa_MI P5 P5_serial luffa_Q.
#[local] Transparent M_words XOR.

(** ** Blocks *)

Lemma M_words_be b :
  Forall byte b -> length b = 32%nat ->
  M_words b = map (fun i => le_word (rev (firstn 4 (skipn (4 * i) b)))) (seq 0 8).
Proof.
  intros Hb Hl. unfold M_words. apply map_ext_in. intros i Hi. apply in_seq in Hi.
  apply sph_dec32be_word; [|now apply Forall_firstn_skipn]. rewrite length_skipn. lia.
Qed.

(** A block of the code is a round of the reference, on well-formed states. *)
Lemma luffa5_block_ref b V :
  Forall byte b -> length b = 32%nat -> wf V ->
  luffa5_block b V = luffa_round b V /\ wf (luffa5_block b V).
Proof.
  intros Hb Hl HV. pose proof (wf_MI5 b V Hb HV) as HM. unfold luffa5_block, luffa_round.
  rewrite (P5_packed _ HM). destruct (P5_serial_ref _ HM) as [E W]. split; [|exact W].
  rewrite E, (MI5_ref b V (proj1 HV)), (M_words_be b Hb Hl). reflexivity.
Qed.

(** Both configurations of the permutation in luffa.c compute the reference
    one: the loops over packed pairs of rows (64-bit words, packed constants,
    bit operations on both halves at once) and the loops over single rows give,
    for every state of words in range, the tweak and the eight steps of Luffa v2
    with the S-box applied at each bit position and the round constants taken
    from their generator. *)
Theorem luffa_permutation_correct V :
  wf V -> P5 V = luffa_P V /\ P5_serial V = luffa_P V.
Proof.
  intros HV. destruct (P5_serial_ref V HV) as [E _]. now rewrite (P5_packed V HV), E.
Qed.

Lemma wf_V_INIT : wf V_INIT.
Proof.
  split; [reflexivity|]. repeat apply Forall_cons; try apply Forall_nil;
    (split; [reflexivity | repeat apply Forall_cons; auto with words]).
Qed.

Lemma luffa_permutation_correct_witness :
  P5 V_INIT = luffa_P V_INIT /\ P5_serial V_INIT = luffa_P V_INIT.
Proof. apply luffa_permutation_correct. exact wf_V_INIT. Defined.

Lemma row_sum_out V :
  wf V -> flat_map sph_enc32be (row_sum V) = luffa_out V.
Proof.
  intros [Hl _]. destruct V as [|V0 [|V1 [|V2 [|V3 [|V4 [|]]]]]]; try discriminate.
  unfold luffa_out. rewrite (flat_map_ext _ _ sph_enc32be_bytes). f_equal.
Qed.

Lemma luffa_absorb k m :
  (k * 32 <= length m)%nat -> Forall byte m ->
  absorb 32 luffa5_block k m V_INIT = absorb 32 luffa_round k m V_INIT /\
  wf (absorb 32 luffa5_block k m V_INIT).
Proof.
  intros Hk Hm.
  apply (absorb_rel (fun V1 V2 => V1 = V2 /\ wf V1) (Forall byte) 32); auto using wf_V_INIT.
  - intros b V1 V2 Hl Hb [<- HV]. destruct (luffa5_block_ref b V1 Hb Hl HV) as [E W]. now split.
  - intros n l Hl. now apply Forall_firstn_skipn.
Qed.

(** ** Updates and close *)

Lemma luffa_updates_absorbed sc pieces :
  (32 <= length (buf sc))%nat ->
  let sc' := fold_left luffa5 pieces (sph_luffa512_init sc) in
  absorbed 32 luffa5_block V_INIT (concat pieces) sc' /\ length (buf sc') = length (buf sc).
Proof.
  intros Hb.
  assert (Hu : forall m c d, absorbed 32 luffa5_block V_INIT m c ->
      absorbed 32 luffa5_block V_INIT (m ++ d) (luffa5 c d))
    by (intros; apply core_absorbed; [lia | assumption]).
  assert (Hi : absorbed 32 luffa5_block V_INIT [] (sph_luffa512_init sc)) by (apply absorbed_init; lia).
  split; [exact (fold_update_absorbed _ _ _ _ [] _ pieces Hu Hi)|].
  rewrite (fold_update_length 32 luffa5_block luffa5 V_INIT [] _ pieces Hu); [reflexivity | | exact Hi].
  intros. eapply core_length; [lia | eassumption].
Qed.

Lemma luffa5_close_absorbed m sc :
  absorbed 32 luffa5_block V_INIT m sc -> Forall byte m ->
  fst (luffa5_close sc 0 0) = luffa_spec m /\
  length (buf (snd (luffa5_close sc 0 0))) = length (buf sc).
Proof.
  intros Ha Hm. pose proof (absorbed_ptr_lt 32 luffa5_block ltac:(lia) _ _ _ Ha) as Hp.
  pose proof (absorbed_buf _ _ _ _ _ Ha) as Hb.
  pose proof (md_last_absorb 32 0 luffa5_block ltac:(lia) V_INIT m sc 0x80 [] Ha eq_refl) as Hmd.
  pose proof (length_md_last 32 0 luffa5_block ltac:(lia) sc 0x80 [] Hb Hp eq_refl) as Hlen.
  unfold md_last in Hmd, Hlen. cbv zeta in Hmd, Hlen.
  destruct (Nat.ltb_spec (32 - 0) (S (ptr sc))); [lia|]. rewrite memcpy_nil in Hmd, Hlen. cbn [fst snd] in Hmd, Hlen.
  change (32 - 0 - S (ptr sc))%nat with (32 - S (ptr sc))%nat in Hmd, Hlen.
  unfold luffa5_close. cbn [fst snd buf].
  change (((0 .& - (0x80 >> Z.of_nat 0)) .| (0x80 >> Z.of_nat 0)) .& 0xFF) with 0x80.
  set (b2 := memcpy _ (S (ptr sc)) _) in *. rewrite Hmd. set (p := md_pad 32 0 m 0x80 []).
  assert (E3 : firstn 32 (memcpy b2 0 (repeat 0 32)) = repeat 0 32)
    by (exact (firstn_memcpy b2 (repeat 0 32) 0 ltac:(lia))).
  split; [|rewrite length_memcpy; [exact Hlen | rewrite repeat_length; lia]].
  assert (Hpb : Forall byte p).
  { unfold p, md_pad. apply Forall_app. split; [exact Hm|]. apply Forall_cons; [unfold word; lia|].
    apply Forall_app. split; [apply Forall_repeat; unfold word; lia | constructor]. }
  destruct (luffa_absorb (length p / 32) p) as [E W]; [rewrite Nat.mul_comm; apply Nat.Div0.mul_div_le | exact Hpb |].
  rewrite E3. unfold luffa_spec. fold p. rewrite <- E.
  set (V := absorb 32 luffa5_block _ p V_INIT) in *. cbv zeta.
  assert (Hz : Forall byte (repeat 0 32)) by (apply Forall_repeat; unfold word; lia).
  destruct (luffa5_block_ref (repeat 0 32) V Hz eq_refl W) as [E1 W1].
  destruct (luffa5_block_ref (repeat 0 32) _ Hz eq_refl W1) as [E2 W2].
  rewrite <- E1, <- E2. now rewrite !row_sum_out by assumption.
Qed.

(** ** Main result *)

(** Luffa-512 of the code is Luffa-512 of the specification: whatever the memory
    the context is placed in and however a message of bytes is cut into pieces,
    init, updates and close return the reference digest, the two halves of the
    output coming from the first and the second blank round. *)
Theorem luffa512_correct sc pieces :
  (32 <= length (buf sc))%nat -> Forall (Forall byte) pieces ->
  fst (sph_luffa512_close (fold_left sph_luffa512 pieces (sph_luffa512_init sc))) = luffa_spec (concat pieces).
Proof.
  intros Hb Hps.
  rewrite <- (proj1 (luffa5_close_absorbed _ _ (proj1 (luffa_updates_absorbed sc pieces Hb))
    (proj2 (Forall_concat _ _) Hps))).
  unfold sph_luffa512_close, sph_luffa512_addbits_and_close. now destruct (luffa5_close _ 0 0).
Qed.

Lemma luffa512_correct_witness :
  fst (sph_luffa512_close (fold_left sph_luffa512 [repeat 7 30; repeat 8 4]
        (sph_luffa512_init (mkContext (repeat 1 32) 5 []))))
  = luffa_spec (concat [repeat 7 30; repeat 8 4]).
Proof.
  apply luffa512_correct; [apply Nat.leb_le; reflexivity|].
  repeat constructor; intros H; discriminate H.
Defined.

(** ** The interface *)

Definition luffa512 : sph_hash :=
  mkHash sph_luffa512_context (fun sc => length (buf sc) = 32%nat)
    sph_luffa512_init sph_luffa512 sph_luffa512_close.

#[export] Instance luffa512_hasher : Hasher luffa512 luffa_spec.
Proof.
  assert (Ho : forall b V, length (luffa_out (luffa_round b V)) = 32%nat) by reflexivity.
  split.
  - intros sc pieces Hal Hps _. cbn [h_ctx h_alloc h_init h_update h_close luffa512] in *.
    destruct (luffa_updates_absorbed sc pieces ltac:(lia)) as [Ha Hl].
    destruct (luffa5_close_absorbed _ _ Ha (proj2 (Forall_concat _ _) Hps)) as [Hf Hs].
    exists (snd (luffa5_close (fold_left luffa5 pieces (sph_luffa512_init sc)) 0 0)). split.
    + rewrite Hs, Hl. exact Hal.
    + rewrite <- Hf. unfold sph_luffa512_close, sph_luffa512_addbits_and_close.
      now destruct (luffa5_close _ 0 0).
  - intros m. unfold luffa_spec. now rewrite length_app, !Ho.
  - intros m. apply Forall_app. split; apply Forall_flat_map, Forall_forall; intros x _;
      apply Forall_rev, le_bytes_byte.
  - intros c Hc. exact Hc.
Qed.

End Luffa.
