(* ===== verification/Jh.v ===== *)
(** * src/crypto/jh.c: JH-224, JH-256, JH-384, JH-512

    The 64-bit implementation ([SPH_JH_64], little-endian): a bit-sliced [E8] on
    sixteen 64-bit words, fully unrolled ([E8]) or as a loop over seven rounds
    ([E8_small], the small-footprint configuration).

    The reference is the JH specification, on bits: the 1024-bit state is grouped
    into 256 four-bit elements, a round substitutes every element by one of two
    S-boxes, selected by a bit of the round constant, mixes pairs by an MDS code
    over GF(2^4) and moves the elements by the permutation P8; the round
    constants come from their generator, the function R6 iterated from the square
    root of 2; the initial states are one compression of the block that holds the
    digest size.  The code never moves the elements: bit swaps in half of its
    words do the work of P8, its elements are in another order in every round,
    and its constants are permuted accordingly. *)

From Stdlib Require Import ZArith List Lia Bool Arith.
From S2P Require Import Prelude SphTypes SphStream.
Import ListNotations.
Open Scope Z_scope.

Module Jh.

(** ** Constants *)

(** A constant in the byte order of the words. *)
Definition C64e (x : Z) : Z :=
  (x >> 56)
  .| ((x >> 40) .& 0x000000000000FF00)
  .| ((x >> 24) .& 0x0000000000FF0000)
  .| ((x >> 8) .& 0x00000000FF000000)
  .| (SPH_T64 (x << 8) .& 0x000000FF00000000)
  .| (SPH_T64 (x << 24) .& 0x0000FF0000000000)
  .| (SPH_T64 (x << 40) .& 0x00FF000000000000)
  .| (SPH_T64 (x << 56) .& 0xFF00000000000000).

Definition C : list Z := map C64e
  [0x72d5dea2df15f867; 0x7b84150ab7231557; 0x81abd6904d5a87f6; 0x4e9f4fc5c3d12b40;
   0xea983ae05c45fa9c; 0x03c5d29966b2999a; 0x660296b4f2bb538a; 0xb556141a88dba231;
   0x03a35a5c9a190edb; 0x403fb20a87c14410; 0x1c051980849e951d; 0x6f33ebad5ee7cddc;
   0x10ba139202bf6b41; 0xdc786515f7bb27d0; 0x0a2c813937aa7850; 0x3f1abfd2410091d3;
   0x422d5a0df6cc7e90; 0xdd629f9c92c097ce; 0x185ca70bc72b44ac; 0xd1df65d663c6fc23;
   0x976e6c039ee0b81a; 0x2105457e446ceca8; 0xeef103bb5d8e61fa; 0xfd9697b294838197;
   0x4a8e8537db03302f; 0x2a678d2dfb9f6a95; 0x8afe7381f8b8696c; 0x8ac77246c07f4214;
   0xc5f4158fbdc75ec4; 0x75446fa78f11bb80; 0x52de75b7aee488bc; 0x82b8001e98a6a3f4;
   0x8ef48f33a9a36315; 0xaa5f5624d5b7f989; 0xb6f1ed207c5ae0fd; 0x36cae95a06422c36;
   0xce2935434efe983d; 0x533af974739a4ba7; 0xd0f51f596f4e8186; 0x0e9dad81afd85a9f;
   0xa7050667ee34626a; 0x8b0b28be6eb91727; 0x47740726c680103f; 0xe0a07e6fc67e487b;
   0x0d550aa54af8a4c0; 0x91e3e79f978ef19e; 0x8676728150608dd4; 0x7e9e5a41f3e5b062;
   0xfc9f1fec4054207a; 0xe3e41a00cef4c984; 0x4fd794f59dfa95d8; 0x552e7e1124c354a5;
   0x5bdf7228bdfe6e28; 0x78f57fe20fa5c4b2; 0x05897cefee49d32e; 0x447e9385eb28597f;
   0x705f6937b324314a; 0x5e8628f11dd6e465; 0xc71b770451b920e7; 0x74fe43e823d4878a;
   0x7d29e8a3927694f2; 0xddcb7a099b30d9c1; 0x1d1b30fb5bdc1be0; 0xda24494ff29c82bf;
   0xa4e7ba31b470bfff; 0x0d324405def8bc48; 0x3baefc3253bbd339; 0x459fc3c1e0298ba0;
   0xe5c905fdf7ae090f; 0x947034124290f134; 0xa271b701e344ed95; 0xe93b8e364f2f984a;
   0x88401d63a06cf615; 0x47c1444b8752afff; 0x7ebb4af1e20ac630; 0x4670b6c5cc6e8ce6;
   0xa4d5a456bd4fca00; 0xda9d844bc83e18ae; 0x7357ce453064d1ad; 0xe8a6ce68145c2567;
   0xa3da8cf2cb0ee116; 0x33e906589a94999a; 0x1f60b220c26f847b; 0xd1ceac7fa0d18518;
   0x32595ba18ddd19d3; 0x509a1cc0aaa5b446; 0x9f3d6367e4046bba; 0xf6ca19ab0b56ee7e;
   0x1fb179eaa9282174; 0xe9bdf7353b3651ee; 0x1d57ac5a7550d376; 0x3a46c2fea37d7001;
   0xf735c1af98a4d842; 0x78edec209e6b6779; 0x41836315ea3adba8; 0xfac33b4d32832c83;
   0xa7403b1f1c2747f3; 0x5940f034b72d769a; 0xe73e4e6cd2214ffd; 0xb8fd8d39dc5759ef;
   0x8d9b0c492b49ebda; 0x5ba2d74968f3700d; 0x7d3baed07a8d5584; 0xf5a5e9f0e4f88e65;
   0xa0b8a2f436103b53; 0x0ca8079e753eec5a; 0x9168949256e8884f; 0x5bb05c55f8babc4c;
   0xe3bb3b99f387947b; 0x75daf4d6726b1c5d; 0x64aeac28dc34b36d; 0x6c34a550b828db71;
   0xf861e2f2108d512a; 0xe3db643359dd75fc; 0x1cacbcf143ce3fa2; 0x67bbd13c02e843b0;
   0x330a5bca8829a175; 0x7f34194db416535c; 0x923b94c30e794d1e; 0x797475d7b6eeaf3f;
   0xeaa8d4f7be1a3921; 0x5cf47e094c232751; 0x26a32453ba323cd2; 0x44a3174a6da6d5ad;
   0xb51d3ea6aff2c908; 0x83593d98916b3c56; 0x4cf87ca17286604d; 0x46e23ecc086ec7f6;
   0x2f9833b3b1bc765e; 0x2bd666a5efc4e62a; 0x06f4b6e8bec1d436; 0x74ee8215bcef2163;
   0xfdc14e0df453c969; 0xa77d5ac406585826; 0x7ec1141606e0fa16; 0x7e90af3d28639d3f;
   0xd2c9f2e3009bd20c; 0x5faace30b7d40c30; 0x742a5116f2e03298; 0x0deb30d8e3cef89a;
   0x4bc59e7bb5f17992; 0xff51e66e048668d3; 0x9b234d57e6966731; 0xcce6a6f3170a7505;
   0xb17681d913326cce; 0x3c175284f805a262; 0xf42bcbb378471547; 0xff46548223936a48;
   0x38df58074e5e6565; 0xf2fc7c89fc86508e; 0x31702e44d00bca86; 0xf04009a23078474e;
   0x65a0ee39d1f73883; 0xf75ee937e42c3abd; 0x2197b2260113f86f; 0xa344edd1ef9fdee7;
   0x8ba0df15762592d9; 0x3c85f7f612dc42be; 0xd8a7ec7cab27b07e; 0x538d7ddaaa3ea8de;
   0xaa25ce93bd0269d8; 0x5af643fd1a7308f9; 0xc05fefda174a19a5; 0x974d66334cfd216a;
   0x35b49831db411570; 0xea1e0fbbedcd549b; 0x9ad063a151974072; 0xf6759dbf91476fe2].

Definition IV224 : list Z := map C64e
  [0x2dfedd62f99a98ac; 0xae7cacd619d634e7; 0xa4831005bc301216; 0xb86038c6c9661494;
   0x66d9899f2580706f; 0xce9ea31b1d9b1adc; 0x11e8325f7b366e10; 0xf994857f02fa06c1;
   0x1b4f1b5cd8c840b3; 0x97f6a17f6e738099; 0xdcdf93a5adeaa3d3; 0xa431e8dec9539a68;
   0x22b4a98aec86a1e4; 0xd574ac959ce56cf0; 0x15960deab5ab2bbf; 0x9611dcf0dd64ea6e].

Definition IV256 : list Z := map C64e
  [0xeb98a3412c20d3eb; 0x92cdbe7b9cb245c1; 0x1c93519160d4c7fa; 0x260082d67e508a03;
   0xa4239e267726b945; 0xe0fb1a48d41a9477; 0xcdb5ab26026b177a; 0x56f024420fff2fa8;
   0x71a396897f2e4d75; 0x1d144908f77de262; 0x277695f776248f94; 0x87d5b6574780296c;
   0x5c5e272dac8e0d6c; 0x518450c657057a0f; 0x7be4d367702412ea; 0x89e3ab13d31cd769].

Definition IV384 : list Z := map C64e
  [0x481e3bc6d813398a; 0x6d3b5e894ade879b; 0x63faea68d480ad2e; 0x332ccb21480f8267;
   0x98aec84d9082b928; 0xd455ea3041114249; 0x36f555b2924847ec; 0xc7250a93baf43ce1;
   0x569b7f8a27db454c; 0x9efcbd496397af0e; 0x589fc27d26aa80cd; 0x80c08b8c9deb2eda;
   0x8a7981e8f8d5373a; 0xf43967adddd17a71; 0xa9b4d3bda475d394; 0x976c3fba9842737f].

Definition IV512 : list Z := map C64e
  [0x6fd14b963e00aa17; 0x636a2e057a15d543; 0x8a225e8d0c97ef0b; 0xe9341259f2b3c361;
   0x891da0c1536f801e; 0x2aa9056bea2b6d80; 0x588eccdb2075baa6; 0xa90f3a76baf83bf7;
   0x0169e60541e34a69; 0x46b58a8e2e6fe65a; 0x1047a7d0c1843c24; 0x3b6e71b12d5ac199;
   0xcf57f6ec9db1f856; 0xa706887c5716b156; 0xe3c2fcdfe68517fb; 0x545a4678cc8cdd4b].

Definition Ceven_hi (r : nat) : Z := nth (4 * r + 0) C 0.
Definition Ceven_lo (r : nat) : Z := nth (4 * r + 1) C 0.
Definition Codd_hi (r : nat) : Z := nth (4 * r + 2) C 0.
Definition Codd_lo (r : nat) : Z := nth (4 * r + 3) C 0.

(** ** The round function *)

Definition Sb (x0 x1 x2 x3 c : Z) : Z * Z * Z * Z :=
  let x3 := SPH_T64 (Z.lnot x3) in
  let x0 := x0 .^ (c .& SPH_T64 (Z.lnot x2)) in
  let tmp := c .^ (x0 .& x1) in
  let x0 := x0 .^ (x2 .& x3) in
  let x3 := x3 .^ (SPH_T64 (Z.lnot x1) .& x2) in
  let x1 := x1 .^ (x0 .& x2) in
  let x2 := x2 .^ (x0 .& SPH_T64 (Z.lnot x3)) in
  let x0 := x0 .^ (x1 .| x3) in
  let x3 := x3 .^ (x1 .& x2) in
  let x1 := x1 .^ (tmp .& x0) in
  let x2 := x2 .^ tmp in
  (x0, x1, x2, x3).

(** [Sb] on the variables [a], [b], [c], [d] of a row. *)
Definition Sb_row (a b c d : nat) (k : Z) (v : list Z) : list Z :=
  let '(x0, x1, x2, x3) := Sb (nth a v 0) (nth b v 0) (nth c v 0) (nth d v 0) k in
  upd d x3 (upd c x2 (upd b x1 (upd a x0 v))).

Definition Lb (a0 a1 a2 a3 a4 a5 a6 a7 : nat) (v : list Z) : list Z :=
  let x i v := nth i v 0 in
  let v := upd a4 (x a4 v .^ x a1 v) v in
  let v := upd a5 (x a5 v .^ x a2 v) v in
  let v := upd a6 (x a6 v .^ (x a3 v .^ x a0 v)) v in
  let v := upd a7 (x a7 v .^ x a0 v) v in
  let v := upd a0 (x a0 v .^ x a5 v) v in
  let v := upd a1 (x a1 v .^ x a6 v) v in
  let v := upd a2 (x a2 v .^ (x a7 v .^ x a4 v)) v in
  let v := upd a3 (x a3 v .^ x a4 v) v in
  v.

(** [DECL_STATE]: the rows [h0h] .. [h7h] and [h0l] .. [h7l]. *)
Definition rows : Type := list Z * list Z.

(** The macros [S], [L], [Wz], [W0] .. [W6]; their arguments are numbers of variables. *)
Definition S_ (x0 x1 x2 x3 : nat) (chi clo : nat -> Z) (r : nat) (H : rows) : rows :=
  (Sb_row x0 x1 x2 x3 (chi r) (fst H), Sb_row x0 x1 x2 x3 (clo r) (snd H)).

Definition L (x0 x1 x2 x3 x4 x5 x6 x7 : nat) (H : rows) : rows :=
  (Lb x0 x1 x2 x3 x4 x5 x6 x7 (fst H), Lb x0 x1 x2 x3 x4 x5 x6 x7 (snd H)).

Definition Wz_word (c n : Z) (x : Z) : Z :=
  let t := SPH_T64 ((x .& c) << n) in
  ((x >> n) .& c) .| t.

Definition Wz (x : nat) (c n : Z) (H : rows) : rows :=
  (upd x (Wz_word c n (nth x (fst H) 0)) (fst H), upd x (Wz_word c n (nth x (snd H) 0)) (snd H)).

Definition W6 (x : nat) (H : rows) : rows :=
  let t := nth x (fst H) 0 in
  (upd x (nth x (snd H) 0) (fst H), upd x t (snd H)).

Definition W (ro : nat) (x : nat) (H : rows) : rows :=
  match ro with
  | 0 => Wz x 0x5555555555555555 1 H
  | 1 => Wz x 0x3333333333333333 2 H
  | 2 => Wz x 0x0F0F0F0F0F0F0F0F 4 H
  | 3 => Wz x 0x00FF00FF00FF00FF 8 H
  | 4 => Wz x 0x0000FFFF0000FFFF 16 H
  | 5 => Wz x 0x00000000FFFFFFFF 32 H
  | _ => W6 x H
  end%nat.

Definition SLu (r ro : nat) (H : rows) : rows :=
  let H := S_ 0 2 4 6 Ceven_hi Ceven_lo r H in
  let H := S_ 1 3 5 7 Codd_hi Codd_lo r H in
  let H := L 0 2 4 6 1 3 5 7 H in
  let H := W ro 1 H in
  let H := W ro 3 H in
  let H := W ro 5 H in
  W ro 7 H.

Definition E8 (H : rows) : rows :=
  let H := SLu 0 0 H in let H := SLu 1 1 H in let H := SLu 2 2 H in let H := SLu 3 3 H in let H := SLu 4 4 H in let H := SLu 5 5 H in let H := SLu 6 6 H in
  let H := SLu 7 0 H in let H := SLu 8 1 H in let H := SLu 9 2 H in let H := SLu 10 3 H in let H := SLu 11 4 H in let H := SLu 12 5 H in let H := SLu 13 6 H in
  let H := SLu 14 0 H in let H := SLu 15 1 H in let H := SLu 16 2 H in let H := SLu 17 3 H in let H := SLu 18 4 H in let H := SLu 19 5 H in let H := SLu 20 6 H in
  let H := SLu 21 0 H in let H := SLu 22 1 H in let H := SLu 23 2 H in let H := SLu 24 3 H in let H := SLu 25 4 H in let H := SLu 26 5 H in let H := SLu 27 6 H in
  let H := SLu 28 0 H in let H := SLu 29 1 H in let H := SLu 30 2 H in let H := SLu 31 3 H in let H := SLu 32 4 H in let H := SLu 33 5 H in let H := SLu 34 6 H in
  let H := SLu 35 0 H in let H := SLu 36 1 H in let H := SLu 37 2 H in let H := SLu 38 3 H in let H := SLu 39 4 H in let H := SLu 40 5 H in let H := SLu 41 6 H in
  H.

Definition SL (r ro : nat) (H : rows) : rows := SLu (r + ro) ro H.

(** [for (r = 0; r < 42; r += 7)]. *)
Definition E8_small (H : rows) : rows :=
  fold_left (fun H r =>
    let H := SL r 0 H in let H := SL r 1 H in let H := SL r 2 H in let H := SL r 3 H in
    let H := SL r 4 H in let H := SL r 5 H in SL r 6 H)
    (map (fun i => 7 * i)%nat (seq 0 6)) H.

(** ** The functions over the context *)

Record state : Type := mkState { wide : list Z; block_count : Z }.
Definition sph_jh_context : Type := context state.

Definition READ_STATE (wide : list Z) : rows :=
  (map (fun i => nth (2 * i) wide 0) (seq 0 8), map (fun i => nth (2 * i + 1) wide 0) (seq 0 8)).
Definition WRITE_STATE (H : rows) : list Z :=
  flat_map (fun i => [nth i (fst H) 0; nth i (snd H) 0]) (seq 0 8).

(** The words [m0h], [m0l], .., [m3h], [m3l] of the buffer; the xor of them into
    the variables from [h0] ([INPUT_BUF1]) or from [h4] ([INPUT_BUF2]) on. *)
Definition m_h (b : list Z) (i : nat) : Z := sph_dec64le (skipn (16 * i) b).
Definition m_l (b : list Z) (i : nat) : Z := sph_dec64le (skipn (16 * i + 8) b).

Definition INPUT_BUF (k : nat) (b : list Z) (H : rows) : rows :=
  (fold_left (fun v i => upd (k + i) (nth (k + i) v 0 .^ m_h b i) v) (seq 0 4) (fst H),
   fold_left (fun v i => upd (k + i) (nth (k + i) v 0 .^ m_l b i) v) (seq 0 4) (snd H)).
Definition INPUT_BUF1 := INPUT_BUF 0.
Definition INPUT_BUF2 := INPUT_BUF 4.

Definition jh_init (sc : sph_jh_context) (iv : list Z) : sph_jh_context :=
  mkContext (buf sc) 0 (mkState iv 0).

(** What runs when the buffer is full. *)
Definition jh_block (b : list Z) (s : state) : state :=
  let H := READ_STATE (wide s) in
  let H := INPUT_BUF1 b H in
  let H := E8 H in
  let H := INPUT_BUF2 b H in
  mkState (WRITE_STATE H) (SPH_T64 (block_count s + 1)).

Definition jh_core (sc : sph_jh_context) (data : list Z) : sph_jh_context := core 64 jh_block sc data.

(** The local [buf] of [jh_close] up to the bytes it passes to [jh_core]. *)
Definition jh_padding (sc : sph_jh_context) (ub : Z) (n : nat) : list Z :=
  let z := 0x80 >> Z.of_nat n in
  let b0 := ((ub .& - z) .| z) .& 0xFF in
  let numz := if ((ptr sc =? 0) && (n =? 0))%nat then 47%nat else (111 - ptr sc)%nat in
  let bc := block_count (st sc) in
  let l0 := SPH_T64 (SPH_T64 (bc << 9) + (Z.of_nat (ptr sc) << 3) + Z.of_nat n) in
  let l1 := SPH_T64 (bc >> 55) in
  [b0] ++ repeat 0 numz ++ sph_enc64be l1 ++ sph_enc64be l0.

Definition jh_close (sc : sph_jh_context) (ub : Z) (n : nat) (out_size_w32 : nat) (iv : list Z)
  : list Z * sph_jh_context :=
  let sc := jh_core sc (jh_padding sc ub n) in
  let out := flat_map (fun u => sph_enc64le (nth (u + 8) (wide (st sc)) 0)) (seq 0 8) in
  (firstn (4 * out_size_w32) (skipn (4 * (16 - out_size_w32)) out), jh_init sc iv).

Definition sph_jh224_init (cc : sph_jh_context) : sph_jh_context := jh_init cc IV224.
Definition sph_jh224 (cc : sph_jh_context) (data : list Z) : sph_jh_context := jh_core cc data.
Definition sph_jh224_close (cc : sph_jh_context) : list Z * sph_jh_context := jh_close cc 0 0 7 IV224.
Definition sph_jh224_addbits_and_close (cc : sph_jh_context) (ub : Z) (n : nat)
  : list Z * sph_jh_context := jh_close cc ub n 7 IV224.

Definition sph_jh256_init (cc : sph_jh_context) : sph_jh_context := jh_init cc IV256.
Definition sph_jh256 (cc : sph_jh_context) (data : list Z) : sph_jh_context := jh_core cc data.
Definition sph_jh256_close (cc : sph_jh_context) : list Z * sph_jh_context := jh_close cc 0 0 8 IV256.
Definition sph_jh256_addbits_and_close (cc : sph_jh_context) (ub : Z) (n : nat)
  : list Z * sph_jh_context := jh_close cc ub n 8 IV256.

Definition sph_jh384_init (cc : sph_jh_context) : sph_jh_context := jh_init cc IV384.
Definition sph_jh384 (cc : sph_jh_context) (data : list Z) : sph_jh_context := jh_core cc data.
Definition sph_jh384_close (cc : sph_jh_context) : list Z * sph_jh_context := jh_close cc 0 0 12 IV384.
Definition sph_jh384_addbits_and_close (cc : sph_jh_context) (ub : Z) (n : nat)
  : list Z * sph_jh_context := jh_close cc ub n 12 IV384.

Definition sph_jh512_init (cc : sph_jh_context) : sph_jh_context := jh_init cc IV512.
Definition sph_jh512 (cc : sph_jh_context) (data : list Z) : sph_jh_context := jh_core cc data.
Definition sph_jh512_close (cc : sph_jh_context) : list Z * sph_jh_context := jh_close cc 0 0 16 IV512.
Definition sph_jh512_addbits_and_close (cc : sph_jh_context) (ub : Z) (n : nat)
  : list Z * sph_jh_context := jh_close cc ub n 16 IV512.

(** ** The JH specification *)

(** Four-bit elements, most significant bit first, and the S-boxes. *)
Definition elt : Type := bool * bool * bool * bool.
Definition elt0 : elt := (false, false, false, false).

Definition SBOX0 : list nat := [9; 0; 4; 11; 13; 12; 3; 15; 1; 10; 2; 6; 7; 5; 8; 14]%nat.
Definition SBOX1 : list nat := [3; 12; 6; 13; 5; 7; 1; 9; 15; 2; 0; 4; 11; 10; 14; 8]%nat.

Definition elt_nat (e : elt) : nat :=
  let '(a, b, c, d) := e in (8 * Nat.b2n a + 4 * Nat.b2n b + 2 * Nat.b2n c + Nat.b2n d)%nat.
Definition nat_elt (n : nat) : elt := (Nat.testbit n 3, Nat.testbit n 2, Nat.testbit n 1, Nat.testbit n 0).

Definition sbox (c : bool) (e : elt) : elt := nat_elt (nth (elt_nat e) (if c then SBOX1 else SBOX0) 0%nat).

(** Sum and multiplication by 2 in GF(2^4) modulo [x^4 + x + 1]; the code [L]. *)
Definition elt_add (e f : elt) : elt :=
  let '(a, b, c, d) := e in let '(a', b', c', d') := f in (xorb a a', xorb b b', xorb c c', xorb d d').
Definition elt_mul2 (e : elt) : elt := let '(a, b, c, d) := e in (b, c, xorb a d, a).
Definition mds (e f : elt) : elt * elt :=
  let f := elt_add f (elt_mul2 e) in
  let e := elt_add e (elt_mul2 f) in
  (e, f).

(** Element [k] of the substituted and mixed state. *)
Definition subst_mix (c : nat -> bool) (a : list elt) (k : nat) : elt :=
  let v i := sbox (c i) (nth i a elt0) in
  let p := mds (v (2 * (k / 2))%nat) (v (2 * (k / 2) + 1)%nat) in
  if Nat.even k then fst p else snd p.

(** The permutation [P_d] on [N = 2^d] elements is [phi_d o P'_d o pi_d]: the
    element that it moves to place [k]. *)
Definition pi_d (k : nat) : nat := match (k mod 4)%nat with 2 => k + 1 | 3 => k - 1 | _ => k end%nat.
Definition P'_d (N k : nat) : nat := (if k <? N / 2 then 2 * k else 2 * (k - N / 2) + 1)%nat.
Definition phi_d (N k : nat) : nat :=
  (if k <? N / 2 then k else if Nat.even k then k + 1 else k - 1)%nat.
Definition P_d (N k : nat) : nat := pi_d (P'_d N (phi_d N k)).

(** The round function on [N] elements. *)
Definition jh_round (N : nat) (c : nat -> bool) (a : list elt) : list elt :=
  map (fun k => subst_mix c a (P_d N k)) (seq 0 N).

(** The round constants: 64 elements, the first 256 bits of the fractional part
    of the square root of 2, then [R6] with a zero constant. *)
Definition bit_of (l : list elt) (i : nat) : bool :=
  let '(a, b, c, d) := nth (i / 4) l elt0 in
  match (i mod 4)%nat with 0 => a | 1 => b | 2 => c | _ => d end%nat.
Definition C0 : list elt :=
  let x := Z.sqrt (2 * 2 ^ 512) mod 2 ^ 256 in
  map (fun k => let b i := Z.testbit x (255 - Z.of_nat (4 * k + i)) in (b 0, b 1, b 2, b 3)%nat) (seq 0 64).

Definition next_constant (l : list elt) : list elt := jh_round 64 (fun _ => false) l.

(** [n] rounds on 256 elements from the round constant [l]. *)
Fixpoint jh_rounds (n : nat) (l a : list elt) : list elt :=
  match n with
  | O => a
  | S n => jh_rounds n (next_constant l) (jh_round 256 (bit_of l) a)
  end.

(** Grouping of 1024 bits into elements and back; [E8]. *)
Definition jh_group (A : list bool) : list elt :=
  map (fun k => let b i := nth (128 * (2 * i + k mod 2) + k / 2) A false in (b 0, b 1, b 2, b 3)%nat) (seq 0 256).
Definition jh_degroup (a : list elt) : list bool :=
  map (fun p => let w := (p / 128)%nat in
         let '(b0, b1, b2, b3) := nth (2 * (p mod 128) + w mod 2) a elt0 in
         match (w / 2)%nat with 0 => b0 | 1 => b1 | 2 => b2 | _ => b3 end%nat) (seq 0 1024).
Definition jh_E8 (A : list bool) : list bool := jh_degroup (jh_rounds 42 C0 (jh_group A)).

(** Bytes as bits, most significant first. *)
Definition to_bits (l : list Z) : list bool :=
  map (fun p => Z.testbit (nth (p / 8) l 0) (Z.of_nat (7 - p mod 8))) (seq 0 (8 * length l)).
Definition of_bits (l : list bool) : list Z :=
  map (fun k => fold_left (fun x i => 2 * x + Z.b2z (nth (8 * k + i) l false)) (seq 0 8) 0)
    (seq 0 (length l / 8)).

(** The compression function [F8]: the 512-bit block is added to the first half
    of the state before [E8] and to the second half after it. *)
Definition bits_add (k : nat) (b : list bool) (A : list bool) : list bool :=
  map (fun p => xorb (nth p A false)
                     (if ((k <=? p) && (p <? k + 512))%nat then nth (p - k) b false else false)) (seq 0 1024).
Definition jh_F8 (b : list Z) (A : list bool) : list bool :=
  bits_add 512 (to_bits b) (jh_E8 (bits_add 0 (to_bits b) A)).

(** The initial state for digests of [n] bits. *)
Definition jh_iv (n : Z) : list bool :=
  jh_F8 (repeat 0 64) (to_bits (rev (le_bytes 2 n) ++ repeat 0 126)).

(** A one bit, at least 383 zeros, the length on 128 bits. *)
Definition jh_pad (m : list Z) : list Z :=
  m ++ [0x80] ++ repeat 0 (47 + (64 - length m mod 64) mod 64) ++ rev (le_bytes 16 (8 * Z.of_nat (length m))).

Definition jh_spec (n : Z) (m : list Z) : list Z :=
  let p := jh_pad m in
  let A := absorb 64 jh_F8 (length p / 64) p (jh_iv n) in
  of_bits (skipn (1024 - Z.to_nat n) A).

(** ** Bits of the rows *)

Lemma nth_map_seq {A} (f : nat -> A) n k d : (k < n)%nat -> nth k (map f (seq 0 n)) d = f k.
Proof.
  intros Hk. rewrite (nth_indep _ d (f 0%nat)) by (rewrite length_map, length_seq; exact Hk).
  rewrite map_nth, seq_nth by exact Hk. reflexivity.
Qed.

Lemma map_seq_ext {A} (f g : nat -> A) n : (forall k, (k < n)%nat -> f k = g k) -> map f (seq 0 n) = map g (seq 0 n).
Proof. intros H. apply map_ext_in. intros k Hk. apply in_seq in Hk. apply H. lia. Qed.

Lemma forallb_seq f n k : forallb f (seq 0 n) = true -> (k < n)%nat -> f k = true.
Proof. intros H Hk. rewrite forallb_forall in H. apply H, in_seq. lia. Qed.

(** Bit [j] of the 128-bit variable [w], most significant bit of the first byte first. *)
Definition pos (j : nat) : nat := (8 * ((j mod 64) / 8) + (7 - j mod 8))%nat.
Definition half (H : rows) (j : nat) : list Z := if (j <? 64)%nat then fst H else snd H.
Definition bitat (H : rows) (w j : nat) : bool := Z.testbit (nth w (half H j) 0) (Z.of_nat (pos j)).
Definition bits (H : rows) : list bool := map (fun p => bitat H (p / 128) (p mod 128)) (seq 0 1024).

Definition wf (H : rows) : Prop := length (fst H) = 8%nat /\ length (snd H) = 8%nat.

(** Element [k] of the code: bit [k / 2] of the even or of the odd variables. *)
Definition slot (H : rows) (k : nat) : elt :=
  let b i := bitat H (2 * i + k mod 2) (k / 2) in (b 0, b 1, b 2, b 3)%nat.
Definition slots (H : rows) : list elt := map (slot H) (seq 0 256).

Lemma jh_group_bits H : jh_group (bits H) = slots H.
Proof.
  apply map_seq_ext. intros k Hk.
  assert (Hb : forall i, (i < 4)%nat ->
      nth (128 * (2 * i + k mod 2) + k / 2) (bits H) false = bitat H (2 * i + k mod 2) (k / 2)).
  { intros i Hi. pose proof (Nat.mod_upper_bound k 2 ltac:(lia)).
    assert (k / 2 < 128)%nat by (apply Nat.Div0.div_lt_upper_bound; lia).
    unfold bits. rewrite nth_map_seq by lia. rewrite (Nat.mul_comm 128), Nat.div_add_l by lia.
    rewrite (Nat.div_small (k / 2)), Nat.add_0_r by lia. f_equal.
    rewrite Nat.add_comm, Nat.Div0.mod_add. now apply Nat.mod_small. }
  unfold slot. rewrite !Hb by lia. reflexivity.
Qed.

Lemma jh_degroup_slots H : jh_degroup (slots H) = bits H.
Proof.
  apply map_seq_ext. intros p Hp. cbv zeta.
  pose proof (Nat.mod_upper_bound p 128 ltac:(lia)) as Hm.
  assert (Hw : (p / 128 < 8)%nat) by (apply Nat.Div0.div_lt_upper_bound; lia).
  set (w := (p / 128)%nat) in *. set (j := (p mod 128)%nat) in *. clearbody w j.
  pose proof (Nat.mod_upper_bound w 2 ltac:(lia)) as H2.
  unfold slots. rewrite nth_map_seq by lia. unfold slot.
  replace ((2 * j + w mod 2) / 2)%nat with j
    by (rewrite (Nat.mul_comm 2), Nat.div_add_l, Nat.div_small by lia; lia).
  replace ((2 * j + w mod 2) mod 2)%nat with (w mod 2)%nat
    by (rewrite Nat.add_comm, Nat.mul_comm, Nat.Div0.mod_add, Nat.Div0.mod_mod; reflexivity).
  do 8 (destruct w as [|w]; [reflexivity|]). lia.
Qed.

(** ** Substitution and mixing of a row *)

Definition column (v : list Z) (e : nat) (q : Z) : elt :=
  let b i := Z.testbit (nth (2 * i + e) v 0) q in (b 0, b 1, b 2, b 3)%nat.

(** The logical operations of [Sb] apply the S-box that the constant selects. *)
Lemma Sb_sbox x0 x1 x2 x3 c q :
  0 <= q < 64 ->
  let '(y0, y1, y2, y3) := Sb x0 x1 x2 x3 c in
  (Z.testbit y0 q, Z.testbit y1 q, Z.testbit y2 q, Z.testbit y3 q)
  = sbox (Z.testbit c q) (Z.testbit x0 q, Z.testbit x1 q, Z.testbit x2 q, Z.testbit x3 q).
Proof.
  intros Hq. unfold Sb.
  repeat progress rewrite ?Z.lxor_spec, ?Z.lor_spec, ?Z.land_spec, ?SPH_T64_testbit, ?Z.lnot_spec by lia.
  destruct (Z.testbit x0 q), (Z.testbit x1 q), (Z.testbit x2 q), (Z.testbit x3 q), (Z.testbit c q); reflexivity.
Qed.

Definition row_step (ce co : Z) (v : list Z) : list Z :=
  Lb 0 2 4 6 1 3 5 7 (Sb_row 1 3 5 7 co (Sb_row 0 2 4 6 ce v)).

#[local] Opaque Sb sbox.

Lemma row_step_column ce co v q :
  length v = 8%nat -> 0 <= q < 64 ->
  let p := mds (sbox (Z.testbit ce q) (column v 0 q)) (sbox (Z.testbit co q) (column v 1 q)) in
  length (row_step ce co v) = 8%nat /\
  column (row_step ce co v) 0 q = fst p /\ column (row_step ce co v) 1 q = snd p.
Proof.
  intros Hv Hq. destruct v as [|v0 [|v1 [|v2 [|v3 [|v4 [|v5 [|v6 [|v7 [|]]]]]]]]]; try discriminate.
  unfold row_step, Sb_row, column. cbn [nth Nat.mul Nat.add].
  pose proof (Sb_sbox v0 v2 v4 v6 ce q Hq) as He. destruct (Sb v0 v2 v4 v6 ce) as [[[a b] c] d].
  cbn [upd nth].
  pose proof (Sb_sbox v1 v3 v5 v7 co q Hq) as Ho. destruct (Sb v1 v3 v5 v7 co) as [[[a' b'] c'] d'].
  cbv zeta. rewrite <- He, <- Ho. unfold Lb. cbn [upd nth].
  split; [reflexivity|]. cbn [nth]. rewrite !Z.lxor_spec. cbn [mds elt_add elt_mul2 fst snd].
  destruct (Z.testbit a q), (Z.testbit b q), (Z.testbit c q), (Z.testbit d q),
    (Z.testbit a' q), (Z.testbit b' q), (Z.testbit c' q), (Z.testbit d' q); split; reflexivity.
Qed.

(** ** The bit swaps *)

Definition W_mask (t : nat) : Z :=
  nth t [0x5555555555555555; 0x3333333333333333; 0x0F0F0F0F0F0F0F0F; 0x00FF00FF00FF00FF;
         0x0000FFFF0000FFFF; 0x00000000FFFFFFFF] 0.

(** Bit [q] of the mask is set when bit [t] of [q] is not, and exchanging is the xor with [2^t]. *)
Definition W_check (t q : nat) : bool :=
  let c := Z.testbit (W_mask t) in
  if c (Z.of_nat q)
  then (Nat.lxor q (2 ^ t) =? q + 2 ^ t)%nat && ((q <? 2 ^ t)%nat || negb (c (Z.of_nat (q - 2 ^ t))))
  else (2 ^ t <=? q)%nat && (Nat.lxor q (2 ^ t) =? q - 2 ^ t)%nat && c (Z.of_nat (q - 2 ^ t)).

Lemma W_check_all : forallb (fun t => forallb (W_check t) (seq 0 64)) (seq 0 6) = true.
Proof. vm_compute. reflexivity. Qed.

Lemma Wz_word_bit t x q :
  (t < 6)%nat -> (q < 64)%nat ->
  Z.testbit (Wz_word (W_mask t) (Z.of_nat (2 ^ t)) x) (Z.of_nat q)
  = Z.testbit x (Z.of_nat (Nat.lxor q (2 ^ t))).
Proof.
  intros Ht Hq. pose proof (forallb_seq _ _ _ (forallb_seq _ _ _ W_check_all Ht) Hq) as Hc.
  unfold W_check in Hc. unfold Wz_word.
  rewrite Z.lor_spec, Z.land_spec, SPH_T64_testbit, Z.shiftr_spec, testbit_shiftl by lia.
  destruct (Z.ltb_spec (Z.of_nat q) 0); [lia|].
  destruct (Z.testbit (W_mask t) (Z.of_nat q)).
  - apply andb_true_iff in Hc. destruct Hc as [He Hn]. apply Nat.eqb_eq in He. rewrite He, andb_true_r.
    replace (Z.of_nat (q + 2 ^ t)) with (Z.of_nat q + Z.of_nat (2 ^ t)) by lia.
    destruct (Z.ltb_spec (Z.of_nat q - Z.of_nat (2 ^ t)) 0); [apply orb_false_r|].
    destruct (Nat.ltb_spec q (2 ^ t)); [lia|]. cbn [orb] in Hn.
    rewrite Z.land_spec. replace (Z.of_nat q - Z.of_nat (2 ^ t)) with (Z.of_nat (q - 2 ^ t)) by lia.
    destruct (Z.testbit (W_mask t) _); [discriminate|]. now rewrite andb_false_r, orb_false_r.
  - apply andb_true_iff in Hc. destruct Hc as [Hc Hn]. apply andb_true_iff in Hc. destruct Hc as [Hl He].
    apply Nat.eqb_eq in He. apply Nat.leb_le in Hl. rewrite He, andb_false_r.
    destruct (Z.ltb_spec (Z.of_nat q - Z.of_nat (2 ^ t)) 0); [lia|].
    rewrite Z.land_spec. replace (Z.of_nat q - Z.of_nat (2 ^ t)) with (Z.of_nat (q - 2 ^ t)) by lia.
    now rewrite Hn, andb_true_r.
Qed.

Lemma W_Wz t x H : (t < 6)%nat -> W t x H = Wz x (W_mask t) (Z.of_nat (2 ^ t)) H.
Proof. intros Ht. do 6 (destruct t as [|t]; [reflexivity|]). lia. Qed.

(** The swap with [2^t] on the 128 positions of a variable. *)
Definition swap (t j : nat) : nat := Nat.lxor j (2 ^ t).

Definition swap_check (t j : nat) : bool :=
  (swap t j <? 128)%nat && (swap t (swap t j) =? j)%nat &&
  if (t <? 6)%nat then (pos (swap t j) =? Nat.lxor (pos j) (2 ^ t))%nat && eqb (swap t j <? 64)%nat (j <? 64)%nat
  else (pos (swap t j) =? pos j)%nat && eqb (swap t j <? 64)%nat (negb (j <? 64)%nat).

Lemma swap_check_all : forallb (fun t => forallb (swap_check t) (seq 0 128)) (seq 0 7) = true.
Proof. vm_compute. reflexivity. Qed.

Lemma pos_lt j : (pos j < 64)%nat.
Proof.
  unfold pos. pose proof (Nat.mod_upper_bound j 64 ltac:(lia)).
  assert (j mod 64 / 8 < 8)%nat by (apply Nat.Div0.div_lt_upper_bound; lia). lia.
Qed.

(** [W t x] permutes the bits of the variable [x] and no other. *)
Lemma W_bit t x H w j :
  (t < 7)%nat -> (j < 128)%nat -> (x < 8)%nat -> wf H ->
  wf (W t x H) /\
  bitat (W t x H) w j = if (w =? x)%nat then bitat H w (swap t j) else bitat H w j.
Proof.
  intros Ht Hj Hx [Hh Hl]. pose proof (forallb_seq _ _ _ (forallb_seq _ _ _ swap_check_all Ht) Hj) as Hc.
  unfold swap_check in Hc. apply andb_true_iff in Hc. destruct Hc as [_ Hc].
  destruct (Nat.ltb_spec t 6) as [H6|H6]; apply andb_true_iff in Hc; destruct Hc as [Hp Hf];
    apply Nat.eqb_eq in Hp; apply eqb_prop in Hf.
  - rewrite (W_Wz t x H H6). unfold Wz. split; [split; cbn [fst snd]; now rewrite length_upd|].
    unfold bitat, half. rewrite Hf, Hp. cbn [fst snd].
    destruct (j <? 64)%nat; destruct (Nat.eqb_spec w x) as [->|Hn];
      rewrite ?nth_upd_eq by lia; rewrite ?nth_upd_ne by lia; try reflexivity;
      apply Wz_word_bit; try exact H6; apply pos_lt.
  - assert (t = 6%nat) as -> by lia. unfold W, W6. cbv zeta.
    split; [split; cbn [fst snd]; now rewrite length_upd|].
    unfold bitat, half. rewrite Hf, Hp. cbn [fst snd].
    destruct (j <? 64)%nat; cbn [negb]; destruct (Nat.eqb_spec w x) as [->|Hn];
      rewrite ?nth_upd_eq by lia; rewrite ?nth_upd_ne by lia; reflexivity.
Qed.

(** ** A round of the code on its elements *)

(** The bit of the round constant at element [k], and where a round moves it. *)
Definition cbit (r k : nat) : bool :=
  let j := (k / 2)%nat in
  let c := if Nat.even k then if (j <? 64)%nat then Ceven_hi r else Ceven_lo r
           else if (j <? 64)%nat then Codd_hi r else Codd_lo r in
  Z.testbit c (Z.of_nat (pos j)).
Definition omega (t k : nat) : nat := if Nat.even k then k else (2 * swap t (k / 2) + 1)%nat.

#[local] Opaque Lb Sb_row swap W Nat.div.

Lemma SLu_rows r t H :
  SLu r t H = W t 7 (W t 5 (W t 3 (W t 1
    (row_step (Ceven_hi r) (Codd_hi r) (fst H), row_step (Ceven_lo r) (Codd_lo r) (snd H))))).
Proof. reflexivity. Qed.

#[local] Opaque row_step SLu.

Lemma half2 j e : (e < 2)%nat -> ((2 * j + e) / 2 = j /\ (2 * j + e) mod 2 = e /\ Nat.even (2 * j + e) = (e =? 0))%nat.
Proof.
  intros He. assert (e = 0 \/ e = 1)%nat as [-> | ->] by lia.
  - rewrite Nat.add_0_r, Nat.mul_comm, Nat.div_mul, Nat.Div0.mod_mul, Nat.even_mul, orb_true_r by lia. auto.
  - rewrite Nat.add_comm, Nat.mul_comm, Nat.div_add, Nat.Div0.mod_add, Nat.mul_comm, Nat.even_add_mul_2 by lia. auto.
Qed.

Lemma split2 k : (k = 2 * (k / 2) + k mod 2 /\ k mod 2 < 2)%nat.
Proof. split; [apply Nat.div_mod_eq | apply Nat.mod_upper_bound; lia]. Qed.

Lemma slot_column H j e : (e < 2)%nat -> slot H (2 * j + e) = column (half H j) e (Z.of_nat (pos j)).
Proof. intros He. unfold slot. destruct (half2 j e He) as (-> & -> & _). reflexivity. Qed.

Lemma swap_lt t j : (t < 7)%nat -> (j < 128)%nat -> (swap t j < 128)%nat /\ swap t (swap t j) = j.
Proof.
  intros Ht Hj. pose proof (forallb_seq _ _ _ (forallb_seq _ _ _ swap_check_all Ht) Hj) as Hc.
  unfold swap_check in Hc. apply andb_true_iff in Hc. destruct Hc as [Hc _].
  apply andb_true_iff in Hc. destruct Hc as [H1 H2]. apply Nat.ltb_lt in H1. apply Nat.eqb_eq in H2. auto.
Qed.

Lemma W_odd_bit t H w j :
  (t < 7)%nat -> (j < 128)%nat -> wf H ->
  let H' := W t 7 (W t 5 (W t 3 (W t 1 H))) in
  wf H' /\ bitat H' w j = if existsb (Nat.eqb w) [1; 3; 5; 7]%nat then bitat H w (swap t j) else bitat H w j.
Proof.
  intros Ht Hj HH. cbv zeta.
  pose proof (proj1 (swap_lt t j Ht Hj)) as Hs.
  destruct (W_bit t 1 H w j Ht Hj ltac:(lia) HH) as [W1 E1].
  destruct (W_bit t 3 _ w j Ht Hj ltac:(lia) W1) as [W3 E3].
  destruct (W_bit t 5 _ w j Ht Hj ltac:(lia) W3) as [W5 E5].
  destruct (W_bit t 7 _ w j Ht Hj ltac:(lia) W5) as [W7 E7].
  split; [exact W7|]. rewrite E7.
  destruct (W_bit t 1 H w _ Ht Hs ltac:(lia) HH) as [_ S1].
  destruct (W_bit t 3 _ w _ Ht Hs ltac:(lia) W1) as [_ S3].
  destruct (W_bit t 5 _ w _ Ht Hs ltac:(lia) W3) as [_ S5].
  cbn [existsb]. rewrite E5, S5, E3, S3, E1, S1.
  destruct (Nat.eqb_spec w 7), (Nat.eqb_spec w 5), (Nat.eqb_spec w 3), (Nat.eqb_spec w 1); try lia; reflexivity.
Qed.

Lemma SLu_slots r t H :
  (t < 7)%nat -> wf H ->
  wf (SLu r t H) /\
  slots (SLu r t H) = map (fun k => subst_mix (cbit r) (slots H) (omega t k)) (seq 0 256).
Proof.
  intros Ht HH. rewrite SLu_rows.
  set (H1 := (row_step (Ceven_hi r) (Codd_hi r) (fst H), row_step (Ceven_lo r) (Codd_lo r) (snd H))).
  assert (HH1 : wf H1).
  { split; [apply (row_step_column _ _ _ 0 (proj1 HH)) | apply (row_step_column _ _ _ 0 (proj2 HH))]; lia. }
  split; [exact (proj1 (W_odd_bit t H1 0 0 Ht ltac:(lia) HH1))|].
  assert (Hstep : forall j e, (j < 128)%nat -> (e < 2)%nat ->
      slot H1 (2 * j + e) = subst_mix (cbit r) (slots H) (2 * j + e)).
  { intros j e Hj He. unfold subst_mix. destruct (half2 j e He) as (-> & _ & ->).
    unfold slots. rewrite !nth_map_seq by lia. rewrite slot_column by exact He.
    pose proof (slot_column H j 0 ltac:(lia)) as S0. pose proof (half2 j 0 ltac:(lia)) as D0.
    rewrite Nat.add_0_r in S0, D0. rewrite S0, (slot_column H j 1) by lia.
    unfold cbit. destruct (half2 j 1 ltac:(lia)) as (-> & _ & ->). destruct D0 as (-> & _ & ->). cbn [Nat.eqb].
    pose proof (pos_lt j) as Hp.
    assert (e = 0 \/ e = 1)%nat as [-> | ->] by lia; unfold half; cbn [Nat.eqb]; destruct (j <? 64)%nat; cbn [fst snd H1];
      first [apply (row_step_column _ _ _ _ (proj1 HH)) | apply (row_step_column _ _ _ _ (proj2 HH))]; lia. }
  apply map_seq_ext. intros k Hk. destruct (split2 k) as [Ek He].
  assert (Hj : (k / 2 < 128)%nat) by (apply Nat.Div0.div_lt_upper_bound; lia).
  rewrite Ek. set (j := (k / 2)%nat) in *. set (e := (k mod 2)%nat) in *. clearbody j e.
  unfold omega. destruct (half2 j e He) as (-> & _ & ->).
  pose proof (fun w => proj2 (W_odd_bit t H1 w j Ht Hj HH1)) as HW.
  assert (e = 0 \/ e = 1)%nat as [-> | ->] by lia; cbn [Nat.eqb].
  - rewrite <- Hstep by lia. rewrite !slot_column by lia.
    unfold bitat in HW. unfold column. cbn [Nat.mul Nat.add].
    now rewrite (HW 0%nat), (HW 2%nat), (HW 4%nat), (HW 6%nat).
  - rewrite <- Hstep by (try apply swap_lt; lia). rewrite !slot_column by lia.
    unfold bitat in HW. unfold column. cbn [Nat.mul Nat.add].
    now rewrite (HW 1%nat), (HW 3%nat), (HW 5%nat), (HW 7%nat).
Qed.

(** ** The order of the elements

    Before round [r], element [k] of the specification is element [sig k] of the
    code.  [sig] keeps pairs together, and the constant of the code is the one of
    the specification in that order; both are checked for the 42 rounds. *)

Definition reorder (sig : list nat) (x : list elt) : list elt :=
  map (fun k => nth (nth k sig 0%nat) x elt0) (seq 0 256).

Definition paired (sig : list nat) : bool :=
  forallb (fun i => let s := nth (2 * i) sig 0%nat in
    (Nat.even s && (s <? 256) && (nth (2 * i + 1) sig 0 =? s + 1))%nat) (seq 0 128).
Definition same_constant (r : nat) (sig : list nat) (l : list elt) : bool :=
  forallb (fun k => eqb (cbit r (nth k sig 0%nat)) (bit_of l k)) (seq 0 256).
Definition next_order (t : nat) (sig : list nat) : list nat :=
  map (fun k => omega t (nth (P_d 256 k) sig 0%nat)) (seq 0 256).

Fixpoint orders_ok (n r : nat) (sig : list nat) (l : list elt) : bool :=
  match n with
  | O => if list_eq_dec Nat.eq_dec sig (seq 0 256) then true else false
  | S n => paired sig && same_constant r sig l && orders_ok n (S r) (next_order (r mod 7) sig) (next_constant l)
  end.

#[local] Transparent swap Nat.div.

Lemma JH_orders : orders_ok 42 0 (seq 0 256) C0 = true.
Proof. vm_compute. reflexivity. Qed.

#[local] Opaque swap Nat.div.

Lemma P_d_lt k : (k < 256)%nat -> (P_d 256 k < 256)%nat.
Proof.
  intros Hk. assert (H : forallb (fun k => P_d 256 k <? 256)%nat (seq 0 256) = true) by (vm_compute; reflexivity).
  apply Nat.ltb_lt. exact (forallb_seq _ _ _ H Hk).
Qed.

Lemma paired_spec sig i :
  paired sig = true -> (i < 128)%nat ->
  exists t, (t < 128)%nat /\ forall e, (e < 2)%nat -> nth (2 * i + e) sig 0%nat = (2 * t + e)%nat.
Proof.
  intros Hp Hi. pose proof (forallb_seq _ _ _ Hp Hi) as Hc. cbv beta zeta in Hc.
  apply andb_true_iff in Hc. destruct Hc as [Hc Hn]. apply andb_true_iff in Hc. destruct Hc as [He Hl].
  apply Nat.even_spec in He. destruct He as [t Et]. apply Nat.ltb_lt in Hl. apply Nat.eqb_eq in Hn.
  exists t. split; [lia|]. intros e He. assert (e = 0 \/ e = 1)%nat as [-> | ->] by lia; rewrite ?Nat.add_0_r; lia.
Qed.

(** Substitution and mixing commute with the order. *)
Lemma subst_mix_reorder sig c d x k :
  paired sig = true -> (forall k, (k < 256)%nat -> d (nth k sig 0%nat) = c k) -> (k < 256)%nat ->
  subst_mix c (reorder sig x) k = subst_mix d x (nth k sig 0%nat) /\ (nth k sig 0 < 256)%nat.
Proof.
  intros Hs Hc Hk. destruct (split2 k) as [Ek He].
  assert (Hj : (k / 2 < 128)%nat) by (apply Nat.Div0.div_lt_upper_bound; lia).
  rewrite Ek. set (j := (k / 2)%nat) in *. set (e := (k mod 2)%nat) in *. clearbody j e.
  destruct (paired_spec sig j Hs Hj) as (t & Ht & Hn). rewrite (Hn e He). split; [|lia].
  pose proof (Hn 0%nat ltac:(lia)) as H0. pose proof (Hn 1%nat ltac:(lia)) as H1. rewrite !Nat.add_0_r in H0.
  unfold subst_mix. destruct (half2 j e He) as (-> & _ & ->). destruct (half2 t e He) as (-> & _ & ->).
  unfold reorder. rewrite !nth_map_seq by lia. rewrite <- !Hc by lia. now rewrite H0, H1.
Qed.

Lemma omega_lt t k : (t < 7)%nat -> (k < 256)%nat -> (omega t k < 256)%nat /\ omega t (omega t k) = k.
Proof.
  intros Ht Hk. destruct (split2 k) as [Ek He].
  assert (Hj : (k / 2 < 128)%nat) by (apply Nat.Div0.div_lt_upper_bound; lia).
  rewrite Ek. set (j := (k / 2)%nat) in *. set (e := (k mod 2)%nat) in *. clearbody j e.
  destruct (swap_lt t j Ht Hj) as [Hs Hi]. unfold omega. destruct (half2 j e He) as (-> & _ & ->).
  assert (e = 0 \/ e = 1)%nat as [-> | ->] by lia; cbn [Nat.eqb].
  - rewrite Nat.add_0_r, Nat.mul_comm, Nat.even_mul, orb_true_r. lia.
  - destruct (half2 (swap t j) 1 ltac:(lia)) as (-> & _ & ->). cbn [Nat.eqb]. lia.
Qed.

(** A round of the specification is a round of the code in the next order. *)
Lemma jh_round_reorder r t sig l x :
  (t < 7)%nat -> paired sig = true -> same_constant r sig l = true ->
  jh_round 256 (bit_of l) (reorder sig x)
  = reorder (next_order t sig) (map (fun k => subst_mix (cbit r) x (omega t k)) (seq 0 256)).
Proof.
  intros Ht Hs Hc. apply map_seq_ext. intros k Hk. pose proof (P_d_lt k Hk) as HP.
  destruct (subst_mix_reorder sig (bit_of l) (cbit r) x (P_d 256 k) Hs) as [-> Hlt]; [|exact HP|].
  - intros i Hi. apply eqb_prop. exact (forallb_seq _ _ _ Hc Hi).
  - unfold next_order. rewrite (nth_map_seq (fun k => omega t (nth (P_d 256 k) sig 0%nat)) 256 k) by exact Hk.
    destruct (omega_lt t _ Ht Hlt) as [Ho Hi]. now rewrite nth_map_seq, Hi by exact Ho.
Qed.

#[local] Opaque jh_round next_constant next_order paired same_constant.

Lemma reorder_id H : reorder (seq 0 256) (slots H) = slots H.
Proof.
  transitivity (map (fun k => nth k (slots H) elt0) (seq 0 256)).
  - apply map_seq_ext. intros k Hk. now rewrite seq_nth.
  - apply map_nth_seq. unfold slots. now rewrite length_map, length_seq.
Qed.

Lemma orders_ok_inv n r sig l :
  orders_ok n r sig l = true ->
  match n with
  | O => sig = seq 0 256
  | S n => paired sig = true /\ same_constant r sig l = true /\
           orders_ok n (S r) (next_order (r mod 7) sig) (next_constant l) = true
  end.
Proof.
  destruct n as [|n]; cbn [orders_ok].
  - now destruct (list_eq_dec Nat.eq_dec sig (seq 0 256)).
  - intros Ho. apply andb_true_iff in Ho. destruct Ho as [Ho Hn]. now apply andb_true_iff in Ho.
Qed.

#[local] Opaque orders_ok slots reorder.

Lemma jh_rounds_S n l a : jh_rounds (S n) l a = jh_rounds n (next_constant l) (jh_round 256 (bit_of l) a).
Proof. reflexivity. Qed.

Lemma jh_rounds_0 l a : jh_rounds 0 l a = a.
Proof. reflexivity. Qed.

Lemma fold_seq_S {A} (f : A -> nat -> A) r n a : fold_left f (seq r (S n)) a = fold_left f (seq (S r) n) (f a r).
Proof. reflexivity. Qed.

#[local] Opaque jh_rounds.

Lemma jh_rounds_code n : forall r sig l H,
  wf H -> orders_ok n r sig l = true ->
  let H' := fold_left (fun H r => SLu r (r mod 7) H) (seq r n) H in
  jh_rounds n l (reorder sig (slots H)) = slots H' /\ wf H'.
Proof.
  induction n as [|n IH]; intros r sig l H HH Ho; apply orders_ok_inv in Ho.
  - rewrite Ho, jh_rounds_0. split; [apply reorder_id | exact HH].
  - destruct Ho as (Hp & Hc & Hn).
    pose proof (Nat.mod_upper_bound r 7 ltac:(lia)) as H7.
    destruct (SLu_slots r (r mod 7) H H7 HH) as [Hw Es].
    pose proof (IH (S r) _ _ _ Hw Hn) as IHr. rewrite Es in IHr.
    rewrite <- (jh_round_reorder r (r mod 7) sig l (slots H) H7 Hp Hc) in IHr.
    rewrite fold_seq_S, jh_rounds_S. exact IHr.
Qed.

Lemma E8_fold H :
  E8 H = fold_left (fun H r => SLu r (r mod 7) H) (seq 0 42) H /\
  E8_small H = fold_left (fun H r => SLu r (r mod 7) H) (seq 0 42) H.
Proof. unfold E8, E8_small, SL. generalize SLu. intros f. split; reflexivity. Qed.

#[local] Opaque E8 jh_rounds.

Lemma E8_ref H : wf H -> bits (E8 H) = jh_E8 (bits H) /\ wf (E8 H).
Proof.
  intros HH. rewrite (proj1 (E8_fold H)). unfold jh_E8. rewrite jh_group_bits.
  destruct (jh_rounds_code 42 0 (seq 0 256) C0 H HH JH_orders) as [E W].
  rewrite reorder_id in E. rewrite E, jh_degroup_slots. split; [reflexivity | exact W].
Qed.

(** Both bodies of [E8] compute the function [E8] of the specification, although
    they keep the elements in an order of their own. *)
Theorem E8_correct H : wf H -> bits (E8 H) = jh_E8 (bits H) /\ E8_small H = E8 H.
Proof. intros HH. split; [now apply E8_ref|]. destruct (E8_fold H) as [-> ->]. reflexivity. Qed.

Lemma E8_correct_witness :
  let H := (map Z.of_nat (seq 0 8), map Z.of_nat (seq 5 8)) in
  bits (E8 H) = jh_E8 (bits H) /\ E8_small H = E8 H.
Proof. apply E8_correct. split; reflexivity. Defined.

(** ** Bytes and bits *)

Lemma testbit_le_word l : forall a c,
  Forall byte l -> 0 <= c < 8 ->
  Z.testbit (le_word l) (8 * Z.of_nat a + c) = Z.testbit (nth a l 0) c.
Proof.
  induction l as [|b t IH]; intros a c Hl Hc.
  - destruct a; cbn [nth le_word]; now rewrite !Z.testbit_0_l.
  - apply Forall_cons_iff in Hl. destruct Hl as [Hb Ht]. cbn [le_word].
    change 256 with (2 ^ 8). rewrite <- (lor_disjoint_add b (le_word t) 8) by (lia || exact Hb).
    rewrite Z.lor_spec, testbit_shiftl. destruct (Z.ltb_spec (8 * Z.of_nat a + c) 0); [lia|].
    destruct a as [|a]; cbn [nth].
    + destruct (Z.ltb_spec (8 * Z.of_nat 0 + c - 8) 0); [|lia]. rewrite orb_false_r. f_equal; lia.
    + destruct (Z.ltb_spec (8 * Z.of_nat (S a) + c - 8) 0); [lia|].
      rewrite (word_testbit_high 8 b) by (lia || exact Hb). cbn [orb]. rewrite <- IH by assumption.
      f_equal. lia.
Qed.

Lemma nth_le_bytes n : forall a x, (a < n)%nat -> nth a (le_bytes n x) 0 = x / 2 ^ (8 * Z.of_nat a) mod 2 ^ 8.
Proof.
  induction n as [|n IH]; intros a x Ha; [lia|]. cbn [le_bytes]. destruct a as [|a]; cbn [nth].
  - now rewrite Z.div_1_r.
  - rewrite IH by lia. rewrite Z.div_div by (try apply Z.pow_pos_nonneg; lia). f_equal. f_equal.
    change 256 with (2 ^ 8). rewrite <- Z.pow_add_r by lia. f_equal. lia.
Qed.

Lemma testbit_le_bytes n a x c :
  (a < n)%nat -> 0 <= c < 8 -> Z.testbit (nth a (le_bytes n x) 0) c = Z.testbit x (8 * Z.of_nat a + c).
Proof.
  intros Ha Hc. rewrite nth_le_bytes by exact Ha. rewrite Z.mod_pow2_bits_low by lia.
  rewrite Z.div_pow2_bits by lia. f_equal. lia.
Qed.

(** A byte from its bits. *)
Lemma byte_from_bits y :
  byte y -> fold_left (fun x i => 2 * x + Z.b2z (Z.testbit y (Z.of_nat (7 - i)))) (seq 0 8) 0 = y.
Proof.
  intros Hy. assert (Hc : forallb (fun y => fold_left (fun x i => 2 * x + Z.b2z (Z.testbit (Z.of_nat y) (Z.of_nat (7 - i))))
      (seq 0 8) 0 =? Z.of_nat y) (seq 0 256) = true) by (vm_compute; reflexivity).
  unfold word in Hy. change (2 ^ 8) with 256 in Hy.
  pose proof (forallb_seq _ _ (Z.to_nat y) Hc ltac:(lia)) as H. cbv beta in H. rewrite Z2Nat.id in H by lia.
  now apply Z.eqb_eq.
Qed.

Lemma nth_to_bits l p : (p < 8 * length l)%nat ->
  nth p (to_bits l) false = Z.testbit (nth (p / 8) l 0) (Z.of_nat (7 - p mod 8)).
Proof. intros Hp. unfold to_bits. now rewrite nth_map_seq. Qed.

(** The word read at byte [8 i]. *)
Lemma testbit_dec64le b i j :
  Forall byte b -> (8 * i + 8 <= length b)%nat -> (j < 64)%nat ->
  Z.testbit (sph_dec64le (skipn (8 * i) b)) (Z.of_nat (pos j)) = nth (64 * i + j) (to_bits b) false.
Proof.
  intros Hb Hl Hj. rewrite sph_dec64le_word
    by (try (rewrite length_skipn; lia); now apply Forall_firstn_skipn).
  rewrite nth_to_bits by lia.
  pose proof (Nat.mod_upper_bound j 8 ltac:(lia)).
  assert (Hd : (j / 8 < 8)%nat) by (apply Nat.Div0.div_lt_upper_bound; lia).
  unfold pos. rewrite (Nat.mod_small j 64) by lia.
  replace (Z.of_nat (8 * (j / 8) + (7 - j mod 8))) with (8 * Z.of_nat (j / 8) + Z.of_nat (7 - j mod 8)) by lia.
  rewrite testbit_le_word by (try lia; now apply Forall_firstn_skipn, Forall_firstn_skipn).
  rewrite nth_firstn. destruct (Nat.ltb_spec (j / 8) 8); [|lia]. rewrite nth_skipn.
  replace (64 * i + j)%nat with (j + (8 * i) * 8)%nat by lia.
  rewrite Nat.div_add, Nat.Div0.mod_add by lia. do 2 f_equal. lia.
Qed.

(** ** A block of the code *)

Lemma fold_xor_row k (f : nat -> Z) v w :
  length v = 8%nat -> (k <= 4)%nat ->
  length (fold_left (fun v i => upd (k + i) (nth (k + i) v 0 .^ f i) v) (seq 0 4) v) = 8%nat /\
  nth w (fold_left (fun v i => upd (k + i) (nth (k + i) v 0 .^ f i) v) (seq 0 4) v) 0
  = if ((k <=? w) && (w <? k + 4))%nat then nth w v 0 .^ f (w - k)%nat else nth w v 0.
Proof.
  intros Hv Hk. split; [cbn [fold_left seq]; now rewrite !length_upd|].
  assert (Hn : forall n, (n <= 4)%nat ->
      length (fold_left (fun v i => upd (k + i) (nth (k + i) v 0 .^ f i) v) (seq 0 n) v) = 8%nat /\
      nth w (fold_left (fun v i => upd (k + i) (nth (k + i) v 0 .^ f i) v) (seq 0 n) v) 0
      = if ((k <=? w) && (w <? k + n))%nat then nth w v 0 .^ f (w - k)%nat else nth w v 0);
    [|now apply Hn].
  induction n as [|n IH]; intros Hn4.
  - split; [exact Hv|]. destruct (Nat.leb_spec k w), (Nat.ltb_spec w (k + 0)); try lia; reflexivity.
  - rewrite seq_S, fold_left_app. cbn [fold_left Nat.add].
    destruct (IH ltac:(lia)) as [Hl Hw]. set (u := fold_left _ (seq 0 n) v) in *. rewrite length_upd.
    split; [exact Hl|]. destruct (Nat.eq_dec (k + n) w) as [E|E].
    + rewrite <- E in *. rewrite nth_upd_eq by lia. rewrite Hw.
      destruct (Nat.leb_spec k (k + n)), (Nat.ltb_spec (k + n) (k + n)), (Nat.ltb_spec (k + n) (k + S n)); try lia.
      cbn [andb]. do 2 f_equal. lia.
    + rewrite nth_upd_ne, Hw by lia.
      destruct (Nat.leb_spec k w), (Nat.ltb_spec w (k + n)), (Nat.ltb_spec w (k + S n)); try lia; reflexivity.
Qed.

Lemma INPUT_BUF_bits k b H :
  (k <= 4)%nat -> wf H -> Forall byte b -> length b = 64%nat ->
  bits (INPUT_BUF k b H) = bits_add (128 * k) (to_bits b) (bits H) /\ wf (INPUT_BUF k b H).
Proof.
  intros Hk [Hh Hl] Hb Hlb.
  pose proof (fun w => fold_xor_row k (m_h b) (fst H) w Hh Hk) as Rh.
  pose proof (fun w => fold_xor_row k (m_l b) (snd H) w Hl Hk) as Rl.
  split; [|exact (conj (proj1 (Rh 0%nat)) (proj1 (Rl 0%nat)))].
  apply map_seq_ext. intros p Hp. unfold bits. rewrite nth_map_seq by exact Hp.
  pose proof (Nat.div_mod_eq p 128) as Ep. pose proof (Nat.mod_upper_bound p 128 ltac:(lia)) as Hj.
  set (w := (p / 128)%nat) in *. set (j := (p mod 128)%nat) in *. clearbody w j.
  assert (Hm : forall i, (i < 4)%nat -> Z.testbit (if (j <? 64)%nat then m_h b i else m_l b i) (Z.of_nat (pos j))
      = nth (128 * i + j) (to_bits b) false).
  { intros i Hi. unfold m_h, m_l. destruct (Nat.ltb_spec j 64).
    - replace (16 * i)%nat with (8 * (2 * i))%nat by lia. rewrite testbit_dec64le by (assumption || lia).
      f_equal. lia.
    - replace (16 * i + 8)%nat with (8 * (2 * i + 1))%nat by lia.
      replace (pos j) with (pos (j - 64)).
      + rewrite testbit_dec64le by (assumption || lia). f_equal. lia.
      + replace j with (j - 64 + 1 * 64)%nat at 2 by lia. unfold pos. rewrite Nat.Div0.mod_add.
        replace (j - 64 + 1 * 64)%nat with (j - 64 + 8 * 8)%nat by lia. now rewrite Nat.Div0.mod_add. }
  unfold bitat at 1, half, INPUT_BUF. cbn [fst snd].
  assert (Ew : ((128 * k <=? p) && (p <? 128 * k + 512) = (k <=? w) && (w <? k + 4))%nat).
  { f_equal; [destruct (Nat.leb_spec (128 * k) p), (Nat.leb_spec k w) |
      destruct (Nat.ltb_spec p (128 * k + 512)), (Nat.ltb_spec w (k + 4))]; try reflexivity; lia. }
  rewrite Ew. unfold bitat, half. specialize (Hm (w - k)%nat).
  destruct (Nat.ltb_spec j 64) as [H64|H64];
    [rewrite (proj2 (Rh w)) | rewrite (proj2 (Rl w))];
    (destruct (Nat.leb_spec k w), (Nat.ltb_spec w (k + 4)); cbn [andb]; rewrite ?xorb_false_r; try reflexivity;
     rewrite Z.lxor_spec, Hm by lia; f_equal; f_equal; lia).
Qed.

#[local] Opaque Nat.modulo.

Lemma wf_READ_STATE w : wf (READ_STATE w).
Proof. split; apply length_map. Qed.

Lemma READ_WRITE_STATE H : wf H -> READ_STATE (WRITE_STATE H) = H.
Proof.
  destruct H as [h l]. intros [Hh Hl]. cbn [fst snd] in *.
  destruct h as [|h0 [|h1 [|h2 [|h3 [|h4 [|h5 [|h6 [|h7 [|]]]]]]]]]; try discriminate.
  destruct l as [|l0 [|l1 [|l2 [|l3 [|l4 [|l5 [|l6 [|l7 [|]]]]]]]]]; try discriminate. reflexivity.
Qed.

#[local] Opaque INPUT_BUF READ_STATE WRITE_STATE bits jh_E8 jh_F8.

(** A block of the code is the compression function of the specification. *)
Lemma jh_block_ref b s :
  Forall byte b -> length b = 64%nat ->
  bits (READ_STATE (wide (jh_block b s))) = jh_F8 b (bits (READ_STATE (wide s))).
Proof.
  intros Hb Hl. unfold jh_block, INPUT_BUF1, INPUT_BUF2. cbn [wide].
  destruct (INPUT_BUF_bits 0 b _ ltac:(lia) (wf_READ_STATE (wide s)) Hb Hl) as [E1 W1].
  destruct (E8_ref _ W1) as [E2 W2].
  destruct (INPUT_BUF_bits 4 b _ ltac:(lia) W2 Hb Hl) as [E3 W3].
  rewrite READ_WRITE_STATE by exact W3. rewrite E3, E2, E1. reflexivity.
Qed.

Lemma block_count_absorb k m s :
  u64 (block_count s) ->
  block_count (absorb 64 jh_block k m s) = (block_count s + Z.of_nat k) mod 2 ^ 64.
Proof.
  revert m s. induction k as [|k IH]; intros m s Hs; cbn [absorb].
  - now rewrite Z.add_0_r, Z.mod_small.
  - rewrite IH by apply u64_T64. cbn [block_count jh_block]. rewrite SPH_T64_mod, Z.add_mod_idemp_l by lia.
    f_equal. lia.
Qed.

(** ** Initial states *)

(** The block that holds the digest size, as words. *)
Definition size_state (n : Z) : state :=
  mkState (map (fun i => sph_dec64le (skipn (8 * i) (rev (le_bytes 2 n) ++ repeat 0 126))) (seq 0 16)) 0.

#[local] Transparent INPUT_BUF READ_STATE WRITE_STATE bits E8 SLu W row_step Lb Sb_row Sb Nat.modulo Nat.div.

Lemma size_state_bits :
  Forall (fun n => bits (READ_STATE (wide (size_state n))) = to_bits (rev (le_bytes 2 n) ++ repeat 0 126))
    [224; 256; 384; 512].
Proof. repeat apply Forall_cons; try apply Forall_nil; vm_compute; reflexivity. Qed.

Lemma size_state_block :
  Forall (fun '(n, iv) => wide (jh_block (repeat 0 64) (size_state n)) = iv)
    [(224, IV224); (256, IV256); (384, IV384); (512, IV512)].
Proof. repeat apply Forall_cons; try apply Forall_nil; vm_compute; reflexivity. Qed.

#[local] Opaque INPUT_BUF READ_STATE WRITE_STATE bits E8 SLu W row_step Lb Sb_row Sb Nat.modulo Nat.div size_state.

Lemma IV_ref :
  Forall (fun '(n, iv) => bits (READ_STATE iv) = jh_iv n) [(224, IV224); (256, IV256); (384, IV384); (512, IV512)].
Proof.
  assert (H : forall n, bits (READ_STATE (wide (size_state n))) = to_bits (rev (le_bytes 2 n) ++ repeat 0 126) ->
      bits (READ_STATE (wide (jh_block (repeat 0 64) (size_state n)))) = jh_iv n).
  { intros n Hn. rewrite jh_block_ref; [rewrite Hn; reflexivity | apply Forall_repeat; unfold word; lia | reflexivity]. }
  pose proof size_state_bits as Hb. pose proof size_state_block as Hw.
  repeat match goal with
  | Hb : Forall _ (_ :: _) |- _ => apply Forall_cons_iff in Hb; destruct Hb
  end.
  repeat apply Forall_cons; try apply Forall_nil; match goal with E : _ = ?iv |- _ = jh_iv _ => rewrite <- E end;
    now apply H.
Qed.

(** ** The output *)

Lemma nth_flat_map_const {A B} (f : A -> list B) c d d' l : forall k,
  (forall x, length (f x) = c) -> (0 < c)%nat -> (k < c * length l)%nat ->
  nth k (flat_map f l) d = nth (k mod c) (f (nth (k / c) l d')) d.
Proof.
  induction l as [|x l IH]; intros k Hf Hc Hk; cbn [length] in Hk; [lia|]. cbn [flat_map].
  destruct (Nat.lt_ge_cases k c) as [H|H].
  - rewrite app_nth1 by (rewrite Hf; exact H). now rewrite Nat.mod_small, Nat.div_small.
  - rewrite app_nth2, Hf by (rewrite Hf; exact H). rewrite IH by (auto; lia).
    replace k with (k - c + 1 * c)%nat at 3 4 by lia.
    rewrite Nat.Div0.mod_add, Nat.div_add by lia. now rewrite Nat.add_1_r.
Qed.

Lemma fold_left_ext_seq {A} (f g : A -> nat -> A) n a :
  (forall a i, (i < n)%nat -> f a i = g a i) -> fold_left f (seq 0 n) a = fold_left g (seq 0 n) a.
Proof. intros H. apply fold_left_ext_in. intros x i Hi. apply in_seq in Hi. apply H. lia. Qed.

#[local] Transparent WRITE_STATE Nat.div.

Lemma nth_WRITE_STATE H w e :
  (w < 8)%nat -> (e < 2)%nat -> nth (2 * w + e) (WRITE_STATE H) 0 = nth w (if (e =? 0)%nat then fst H else snd H) 0.
Proof.
  intros Hw He. unfold WRITE_STATE.
  rewrite (nth_flat_map_const _ 2 0 0%nat) by (try rewrite length_seq; try lia; reflexivity).
  destruct (half2 w e He) as (-> & -> & _). rewrite seq_nth by exact Hw.
  assert (e = 0 \/ e = 1)%nat as [-> | ->] by lia; reflexivity.
Qed.

#[local] Transparent bits.

(** The bits of the state, read back as bytes, are the bytes of its words. *)
Lemma of_bits_bits H : of_bits (bits H) = flat_map sph_enc64le (WRITE_STATE H).
Proof.
  assert (HL : length (flat_map sph_enc64le (WRITE_STATE H)) = 128%nat).
  { rewrite (flat_map_constant_length (c := 8%nat)) by reflexivity.
    unfold WRITE_STATE. rewrite (flat_map_constant_length (c := 2%nat)) by reflexivity. reflexivity. }
  rewrite <- (map_nth_seq 0 _ 128 HL). unfold of_bits.
  replace (length (bits H) / 8)%nat with 128%nat by (unfold bits; rewrite length_map, length_seq; reflexivity).
  apply map_seq_ext. intros k Hk.
  pose proof (Nat.div_mod_eq k 16) as Ek. pose proof (Nat.mod_upper_bound k 16 ltac:(lia)) as Hm.
  assert (Hw : (k / 16 < 8)%nat) by (apply Nat.Div0.div_lt_upper_bound; lia).
  set (w := (k / 16)%nat) in *. set (r := (k mod 16)%nat) in *. clearbody w r.
  assert (exists e a, r = 8 * e + a /\ e < 2 /\ a < 8)%nat as (e & a & Er & He & Ha).
  { exists (r / 8)%nat, (r mod 8)%nat. repeat split; [apply Nat.div_mod_eq | | apply Nat.mod_upper_bound; lia].
    apply Nat.Div0.div_lt_upper_bound. lia. }
  assert (HW : length (WRITE_STATE H) = 16%nat).
  { unfold WRITE_STATE. rewrite (flat_map_constant_length (c := 2%nat)) by reflexivity. reflexivity. }
  rewrite (nth_flat_map_const sph_enc64le 8 0 0) by (try rewrite HW; try lia; reflexivity).
  assert (Ed : (k / 8 = 2 * w + e)%nat) by (symmetry; apply (Nat.div_unique k 8 _ a); lia).
  assert (Em : (k mod 8 = a)%nat) by (symmetry; apply (Nat.mod_unique k 8 (2 * w + e)); lia).
  rewrite Ed, Em, nth_WRITE_STATE by assumption. rewrite sph_enc64le_bytes.
  set (x := nth w (if (e =? 0)%nat then fst H else snd H) 0).
  rewrite <- (byte_from_bits (nth a (le_bytes 8 x) 0)) by apply byte_nth, le_bytes_byte.
  apply fold_left_ext_seq. intros acc i Hi. do 2 f_equal. unfold bits. rewrite nth_map_seq by lia.
  assert (D1 : ((8 * k + i) / 128 = w)%nat) by (symmetry; apply (Nat.div_unique _ 128 _ (64 * e + 8 * a + i)); lia).
  assert (D2 : ((8 * k + i) mod 128 = 64 * e + 8 * a + i)%nat) by (symmetry; apply (Nat.mod_unique _ 128 w); lia).
  rewrite D1, D2, testbit_le_bytes by lia. unfold bitat. f_equal.
  - unfold x, half. assert (e = 0 \/ e = 1)%nat as [-> | ->] by lia; cbn [Nat.eqb];
      destruct (Nat.ltb_spec (64 * 0 + 8 * a + i) 64), (Nat.ltb_spec (64 * 1 + 8 * a + i) 64); try lia; reflexivity.
  - unfold pos.
    assert (P1 : ((64 * e + 8 * a + i) mod 64 = 8 * a + i)%nat) by (symmetry; apply (Nat.mod_unique _ 64 e); lia).
    assert (P2 : ((8 * a + i) / 8 = a)%nat) by (symmetry; apply (Nat.div_unique _ 8 _ i); lia).
    assert (P3 : ((64 * e + 8 * a + i) mod 8 = i)%nat) by (symmetry; apply (Nat.mod_unique _ 8 (8 * e + a)); lia).
    rewrite P1, P2, P3. lia.
Qed.

#[local] Opaque bits WRITE_STATE.

Lemma of_bits_skipn j l : of_bits (skipn (8 * j) l) = skipn j (of_bits l).
Proof.
  unfold of_bits. rewrite length_skipn, skipn_map, skipn_seq.
  replace ((length l - 8 * j) / 8)%nat with (length l / 8 - j)%nat.
  - rewrite Nat.add_0_r || rewrite Nat.add_0_l. rewrite <- (map_add_seq j), map_map.
    apply map_ext. intros k. apply fold_left_ext_seq. intros a i Hi. rewrite nth_skipn. do 3 f_equal. lia.
  - destruct (Nat.le_gt_cases (8 * j) (length l)) as [H|H].
    + replace (length l) with (length l - 8 * j + j * 8)%nat at 1 by lia. rewrite Nat.div_add by lia. lia.
    + replace (length l - 8 * j)%nat with 0%nat by lia. rewrite Nat.Div0.div_0_l.
      assert (length l / 8 < j)%nat by (apply Nat.Div0.div_lt_upper_bound; lia). lia.
Qed.

(** ** Updates and close *)

Lemma jh_updates_absorbed iv sc pieces :
  (64 <= length (buf sc))%nat ->
  let sc' := fold_left jh_core pieces (jh_init sc iv) in
  absorbed 64 jh_block (mkState iv 0) (concat pieces) sc' /\ length (buf sc') = length (buf sc).
Proof.
  intros Hb. set (s0 := mkState iv 0).
  assert (Hu : forall m c d, absorbed 64 jh_block s0 m c -> absorbed 64 jh_block s0 (m ++ d) (jh_core c d))
    by (intros; apply core_absorbed; [lia | assumption]).
  assert (Hi : absorbed 64 jh_block s0 [] (jh_init sc iv)) by (apply absorbed_init; lia).
  split; [exact (fold_update_absorbed _ _ _ _ [] _ pieces Hu Hi)|].
  rewrite (fold_update_length 64 jh_block jh_core s0 [] _ pieces Hu); [reflexivity | | exact Hi].
  intros. eapply core_length; [lia | eassumption].
Qed.

(** The bytes the close appends are the padding of the specification. *)
Lemma jh_padding_spec iv m sc :
  absorbed 64 jh_block (mkState iv 0) m sc -> Z.of_nat (length m) < 2 ^ 70 ->
  m ++ jh_padding sc 0 0 = jh_pad m /\ Forall byte (jh_padding sc 0 0).
Proof.
  intros Ha Hm. pose proof (absorbed_ptr_lt 64 jh_block ltac:(lia) _ _ _ Ha) as Hp.
  destruct Ha as [_ Ep Es _]. unfold jh_padding, jh_pad. rewrite Es, block_count_absorb by (cbn; lia || apply word_0; lia).
  cbn [block_count]. rewrite Z.add_0_l, !sph_enc64be_bytes.
  pose proof (Nat.div_mod_eq (length m) 64) as E. rewrite Ep in *.
  set (q := (length m / 64)%nat) in *. set (r := (length m mod 64)%nat) in *. clearbody q r.
  rewrite (Z.mod_small (Z.of_nat q)) by lia. rewrite !SPH_T64_mod, !Z.shiftl_mul_pow2, (Z.shiftr_div_pow2 (Z.of_nat q)) by lia.
  change (Z.of_nat 0) with 0. rewrite Z.add_0_r.
  assert (En : (if ((r =? 0) && (0 =? 0))%nat then 47 else 111 - r)%nat = (47 + (64 - r) mod 64)%nat).
  { destruct (Nat.eqb_spec r 0) as [->|Hr]; cbn [andb Nat.eqb]; [reflexivity|]. rewrite Nat.mod_small by lia. lia. }
  assert (El : rev (le_bytes 8 ((Z.of_nat q / 2 ^ 55) mod 2 ^ 64))
      ++ rev (le_bytes 8 (((Z.of_nat q * 2 ^ 9) mod 2 ^ 64 + Z.of_nat r * 2 ^ 3) mod 2 ^ 64))
      = rev (le_bytes 16 (8 * Z.of_nat (length m)))).
  { rewrite <- rev_app_distr. f_equal. rewrite (le_bytes_app 8 8).
    rewrite Z.add_mod_idemp_l by lia. f_equal.
    - rewrite (le_bytes_mod 8). f_equal. lia.
    - rewrite (le_bytes_mod 8). f_equal. change (8 * Z.of_nat 8) with (9 + 55). rewrite Z.pow_add_r by lia.
      rewrite <- Z.div_div by lia. f_equal.
      rewrite (Z.div_unique (8 * Z.of_nat (length m)) (2 ^ 9) (Z.of_nat q) (8 * Z.of_nat r)); lia. }
  rewrite En, El. change (((0 .& - (0x80 >> 0)) .| (0x80 >> 0)) .& 0xFF) with 0x80.
  split; [reflexivity|]. apply Forall_cons; [unfold word; lia|]. apply Forall_app.
  split; [apply Forall_repeat; unfold word; lia | apply Forall_rev, le_bytes_byte].
Qed.

Lemma jh_absorb_ref iv n k m :
  bits (READ_STATE iv) = jh_iv n -> (k * 64 <= length m)%nat -> Forall byte m ->
  bits (READ_STATE (wide (absorb 64 jh_block k m (mkState iv 0)))) = absorb 64 jh_F8 k m (jh_iv n).
Proof.
  intros Hiv Hk Hm.
  apply (absorb_rel (fun s A => bits (READ_STATE (wide s)) = A) (Forall byte) 64).
  - intros b s A Hl Hb <-. now apply jh_block_ref.
  - intros i l Hl. now apply Forall_firstn_skipn.
  - exact Hk.
  - exact Hm.
  - exact Hiv.
Qed.

Lemma length_jh_block b s : length (wide (jh_block b s)) = 16%nat.
Proof. reflexivity. Qed.

#[local] Opaque jh_block jh_padding.

Lemma jh_close_absorbed iv n w iv' m sc :
  absorbed 64 jh_block (mkState iv 0) m sc ->
  bits (READ_STATE iv) = jh_iv n -> n = 32 * Z.of_nat w -> (w <= 16)%nat ->
  Forall byte m -> Z.of_nat (length m) < 2 ^ 70 ->
  fst (jh_close sc 0 0 w iv') = jh_spec n m /\
  exists c0, length (buf c0) = length (buf sc) /\ snd (jh_close sc 0 0 w iv') = jh_init c0 iv'.
Proof.
  intros Ha Hiv Hn Hw Hm Hlen. destruct (jh_padding_spec iv m sc Ha Hlen) as [Ep Hpad].
  unfold jh_close. cbn [fst snd]. set (sc' := jh_core sc (jh_padding sc 0 0)).
  assert (Ha' : absorbed 64 jh_block (mkState iv 0) (jh_pad m) sc')
    by (rewrite <- Ep; apply core_absorbed; [lia | exact Ha]).
  split; [|exists sc'; split; [exact (core_length 64 jh_block ltac:(lia) _ _ _ (jh_padding sc 0 0) Ha) | reflexivity]].
  assert (Hbytes : Forall byte (jh_pad m)) by (rewrite <- Ep; exact (proj2 (Forall_app _ _ _) (conj Hm Hpad))).
  pose proof (absorbed_st _ _ _ _ _ Ha') as Es.
  unfold jh_spec. rewrite <- (jh_absorb_ref iv n _ (jh_pad m) Hiv) by
    (try exact Hbytes; rewrite Nat.mul_comm; apply Nat.Div0.mul_div_le).
  rewrite <- Es. set (H := READ_STATE (wide (st sc'))).
  replace (1024 - Z.to_nat n)%nat with (8 * (128 - 4 * w))%nat by lia.
  rewrite of_bits_skipn, of_bits_bits.
  assert (Ew : flat_map (fun u => sph_enc64le (nth (u + 8) (wide (st sc')) 0)) (seq 0 8)
      = skipn 64 (flat_map sph_enc64le (WRITE_STATE H))).
  { unfold H. reflexivity. }
  rewrite Ew, skipn_skipn. replace (4 * (16 - w) + 64)%nat with (128 - 4 * w)%nat by lia.
  apply firstn_all2. rewrite length_skipn.
  rewrite (flat_map_constant_length (c := 8%nat)) by reflexivity.
  change (length (WRITE_STATE H)) with 16%nat. lia.
Qed.

(** ** Main results *)

(** The four functions: digest size, init, update, close. *)
Definition jh_functions :=
  [(224, sph_jh224_init, sph_jh224, sph_jh224_close);
   (256, sph_jh256_init, sph_jh256, sph_jh256_close);
   (384, sph_jh384_init, sph_jh384, sph_jh384_close);
   (512, sph_jh512_init, sph_jh512, sph_jh512_close)].

(** The four JH functions of the code are JH: whatever the memory the context is
    placed in and however a message of less than 2^70 bytes is cut into pieces,
    init, updates and close return the digest of the specification; the stored
    initial states are the compressions of the block with the digest size, and
    the 64-bit block counter yields the 128-bit length field. *)
Theorem jh_functions_correct sc pieces :
  (64 <= length (buf sc))%nat -> Forall (Forall byte) pieces -> Z.of_nat (length (concat pieces)) < 2 ^ 70 ->
  Forall (fun '(n, init, update, close) =>
      fst (close (fold_left update pieces (init sc))) = jh_spec n (concat pieces)) jh_functions.
Proof.
  intros Hb Hps Hlen. apply Forall_concat in Hps. pose proof IV_ref as HIV.
  repeat match goal with H : Forall _ (_ :: _) |- _ => apply Forall_cons_iff in H; destruct H end.
  repeat apply Forall_cons; try apply Forall_nil;
    match goal with |- fst (_ (fold_left _ _ (_ sc))) = jh_spec ?n _ =>
      match goal with Hiv : bits (READ_STATE ?iv) = jh_iv n |- _ =>
        exact (proj1 (jh_close_absorbed iv n (Z.to_nat (n / 32)) iv _ _
          (proj1 (jh_updates_absorbed iv sc pieces Hb)) Hiv eq_refl ltac:(cbn; lia) Hps Hlen))
      end
    end.
Qed.

Lemma jh_functions_correct_witness :
  Forall (fun '(n, init, update, close) =>
      fst (close (fold_left update [repeat 7 60; repeat 8 10] (init (mkContext (repeat 1 64) 5 (mkState [] 3)))))
      = jh_spec n (concat [repeat 7 60; repeat 8 10])) jh_functions.
Proof.
  apply jh_functions_correct; [apply Nat.leb_le; reflexivity | | reflexivity].
  refine (Forall_cons _ (Forall_repeat _ _ _ _) (Forall_cons _ (Forall_repeat _ _ _ _) (Forall_nil _))); unfold word; lia.
Defined.

(** ** The interface *)

Definition jh512 : sph_hash :=
  mkHash sph_jh_context (fun sc => length (buf sc) = 64%nat) sph_jh512_init sph_jh512 sph_jh512_close.

Lemma jh_spec_bytes n m : Forall byte (jh_spec n m).
Proof.
  apply Forall_map, Forall_forall. intros k _. cbn [fold_left seq].
  repeat match goal with |- context [nth ?i ?l ?d] => destruct (nth i l d) end; unfold word; cbn; lia.
Qed.

#[local] Transparent jh_F8.

Lemma length_jh_F8 b A : length (jh_F8 b A) = 1024%nat.
Proof. unfold jh_F8, bits_add. rewrite length_map, length_seq. reflexivity. Qed.

#[local] Opaque jh_F8.

Lemma length_jh_spec m : length (jh_spec 512 m) = 64%nat.
Proof.
  unfold jh_spec, of_bits. rewrite length_map, length_seq, length_skipn.
  assert (H : length (absorb 64 jh_F8 (length (jh_pad m) / 64) (jh_pad m) (jh_iv 512)) = 1024%nat)
    by (apply (absorb_inv (fun A => length A = 1024%nat)); intros; apply length_jh_F8).
  now rewrite H.
Qed.

#[export] Instance jh512_hasher : Hasher jh512 (jh_spec 512).
Proof.
  split; [| apply length_jh_spec | apply jh_spec_bytes | auto].
  intros sc pieces Hal Hps Hl. cbn [h_ctx h_alloc h_init h_update h_close jh512] in *.
  apply Forall_concat in Hps.
  assert (Hiv : bits (READ_STATE IV512) = jh_iv 512)
    by (pose proof IV_ref as HIV; repeat (apply Forall_cons_iff in HIV; destruct HIV as [? HIV]); assumption).
  destruct (jh_updates_absorbed IV512 sc pieces ltac:(lia)) as [Ha Hb].
  destruct (jh_close_absorbed IV512 512 16 IV512 _ _ Ha Hiv eq_refl ltac:(lia) Hps ltac:(lia)) as (Hf & c0 & Hc & Hs).
  exists c0. split; [rewrite Hc, Hb; exact Hal|].
  unfold sph_jh512_close. rewrite (surjective_pairing (jh_close _ _ _ _ _)). f_equal; [exact Hf | exact Hs].
Qed.

End Jh.
