(* ===== verification/Sha256.v ===== *)
(** * src/crypto/sha256.cpp and [CHash256] of src/hash.h: SHA-256 and double SHA-256

    [Transform] is straight-line code: 64 calls of [Round] whose arguments rotate
    through the registers [a] .. [h], and a message schedule kept in 16 words that
    are overwritten in turn (the last two schedule words are not stored).  The
    registers are a list of eight words, the schedule a list of sixteen.  The
    reference is FIPS 180-4.  [Write] compresses full chunks directly from its
    input and buffers the rest; [Finalize] pads through [Write]. *)

From Stdlib Require Import ZArith List Lia Bool.
From S2P Require Import Prelude SphTypes SphStream.
Import ListNotations.
Open Scope Z_scope.

Module Sha256.

(** ** crypto/common.h *)

(** [be32toh] of the word at [ptr]: its four bytes, most significant first. *)
Definition ReadBE32 (ptr : list Z) : Z := le_word (rev (firstn 4 ptr)).
Definition WriteBE32 (x : Z) : list Z := rev (le_bytes 4 x).
Definition WriteBE64 (x : Z) : list Z := rev (le_bytes 8 x).

(** ** Functions on [uint32_t] *)

Definition Ch (x y z : Z) : Z := z .^ (x .& (y .^ z)).
Definition Maj (x y z : Z) : Z := (x .& y) .| (z .& (x .| y)).
Definition Sigma0 (x : Z) : Z := ((x >> 2) .| SPH_T32 (x << 30)) .^ ((x >> 13) .| SPH_T32 (x << 19)) .^ ((x >> 22) .| SPH_T32 (x << 10)).
Definition Sigma1 (x : Z) : Z := ((x >> 6) .| SPH_T32 (x << 26)) .^ ((x >> 11) .| SPH_T32 (x << 21)) .^ ((x >> 25) .| SPH_T32 (x << 7)).
Definition sigma0 (x : Z) : Z := ((x >> 7) .| SPH_T32 (x << 25)) .^ ((x >> 18) .| SPH_T32 (x << 14)) .^ (x >> 3).
Definition sigma1 (x : Z) : Z := ((x >> 17) .| SPH_T32 (x << 15)) .^ ((x >> 19) .| SPH_T32 (x << 13)) .^ (x >> 10).

(** [Round(a, b, c, d, e, f, g, h, k, w)] with the numbers of the registers; it
    changes [d] and [h]. *)
Definition Round (a b c d e f g h : nat) (k w : Z) (V : list Z) : list Z :=
  let r i := nth i V 0 in
  let t1 := SPH_T32 (r h + Sigma1 (r e) + Ch (r e) (r f) (r g) + k + w) in
  let t2 := SPH_T32 (Sigma0 (r a) + Maj (r a) (r b) (r c)) in
  let V := upd d (SPH_T32 (nth d V 0 + t1)) V in
  upd h (SPH_T32 (t1 + t2)) V.

Definition Initialize : list Z :=
  [0x6a09e667; 0xbb67ae85; 0x3c6ef372; 0xa54ff53a; 0x510e527f; 0x9b05688c; 0x1f83d9ab; 0x5be0cd19].

(** [w + x] for a schedule word. *)
Definition sched (w : list Z) (i i14 i9 i1 : nat) : Z :=
  SPH_T32 (nth i w 0 + (sigma1 (nth i14 w 0) + nth i9 w 0 + sigma0 (nth i1 w 0))).

(** The three forms of the lines of [Transform], on the registers [a] .. [h] and
    the words [w0] .. [w15]: the last argument of [Round] is [w_i = ReadBE32(chunk + off)],
    [w_i += sigma1(..) + .. + sigma0(..)] or [w_i + sigma1(..) + .. + sigma0(..)]. *)
Definition Round_read (a b c d e f g h : nat) (k : Z) (i off : nat) (chunk : list Z) (x : list Z * list Z)
  : list Z * list Z :=
  let '(V, w) := x in
  let w := upd i (ReadBE32 (skipn off chunk)) w in
  (Round a b c d e f g h k (nth i w 0) V, w).

Definition Round_sched (a b c d e f g h : nat) (k : Z) (i i14 i9 i1 : nat) (x : list Z * list Z)
  : list Z * list Z :=
  let '(V, w) := x in
  let w := upd i (sched w i i14 i9 i1) w in
  (Round a b c d e f g h k (nth i w 0) V, w).

Definition Round_last (a b c d e f g h : nat) (k : Z) (i i14 i9 i1 : nat) (x : list Z * list Z)
  : list Z * list Z :=
  let '(V, w) := x in
  (Round a b c d e f g h k (sched w i i14 i9 i1) V, w).

(** The 64 rounds. *)
Definition rounds (chunk : list Z) (x : list Z * list Z) : list Z * list Z :=
  let x := Round_read 0 1 2 3 4 5 6 7 0x428a2f98 0 0 chunk x in
  let x := Round_read 7 0 1 2 3 4 5 6 0x71374491 1 4 chunk x in
  let x := Round_read 6 7 0 1 2 3 4 5 0xb5c0fbcf 2 8 chunk x in
  let x := Round_read 5 6 7 0 1 2 3 4 0xe9b5dba5 3 12 chunk x in
  let x := Round_read 4 5 6 7 0 1 2 3 0x3956c25b 4 16 chunk x in
  let x := Round_read 3 4 5 6 7 0 1 2 0x59f111f1 5 20 chunk x in
  let x := Round_read 2 3 4 5 6 7 0 1 0x923f82a4 6 24 chunk x in
  let x := Round_read 1 2 3 4 5 6 7 0 0xab1c5ed5 7 28 chunk x in
  let x := Round_read 0 1 2 3 4 5 6 7 0xd807aa98 8 32 chunk x in
  let x := Round_read 7 0 1 2 3 4 5 6 0x12835b01 9 36 chunk x in
  let x := Round_read 6 7 0 1 2 3 4 5 0x243185be 10 40 chunk x in
  let x := Round_read 5 6 7 0 1 2 3 4 0x550c7dc3 11 44 chunk x in
  let x := Round_read 4 5 6 7 0 1 2 3 0x72be5d74 12 48 chunk x in
  let x := Round_read 3 4 5 6 7 0 1 2 0x80deb1fe 13 52 chunk x in
  let x := Round_read 2 3 4 5 6 7 0 1 0x9bdc06a7 14 56 chunk x in
  let x := Round_read 1 2 3 4 5 6 7 0 0xc19bf174 15 60 chunk x in
  let x := Round_sched 0 1 2 3 4 5 6 7 0xe49b69c1 0 14 9 1 x in
  let x := Round_sched 7 0 1 2 3 4 5 6 0xefbe4786 1 15 10 2 x in
  let x := Round_sched 6 7 0 1 2 3 4 5 0x0fc19dc6 2 0 11 3 x in
  let x := Round_sched 5 6 7 0 1 2 3 4 0x240ca1cc 3 1 12 4 x in
  let x := Round_sched 4 5 6 7 0 1 2 3 0x2de92c6f 4 2 13 5 x in
  let x := Round_sched 3 4 5 6 7 0 1 2 0x4a7484aa 5 3 14 6 x in
  let x := Round_sched 2 3 4 5 6 7 0 1 0x5cb0a9dc 6 4 15 7 x in
  let x := Round_sched 1 2 3 4 5 6 7 0 0x76f988da 7 5 0 8 x in
  let x := Round_sched 0 1 2 3 4 5 6 7 0x983e5152 8 6 1 9 x in
  let x := Round_sched 7 0 1 2 3 4 5 6 0xa831c66d 9 7 2 10 x in
  let x := Round_sched 6 7 0 1 2 3 4 5 0xb00327c8 10 8 3 11 x in
  let x := Round_sched 5 6 7 0 1 2 3 4 0xbf597fc7 11 9 4 12 x in
  let x := Round_sched 4 5 6 7 0 1 2 3 0xc6e00bf3 12 10 5 13 x in
  let x := Round_sched 3 4 5 6 7 0 1 2 0xd5a79147 13 11 6 14 x in
  let x := Round_sched 2 3 4 5 6 7 0 1 0x06ca6351 14 12 7 15 x in
  let x := Round_sched 1 2 3 4 5 6 7 0 0x14292967 15 13 8 0 x in
  let x := Round_sched 0 1 2 3 4 5 6 7 0x27b70a85 0 14 9 1 x in
  let x := Round_sched 7 0 1 2 3 4 5 6 0x2e1b2138 1 15 10 2 x in
  let x := Round_sched 6 7 0 1 2 3 4 5 0x4d2c6dfc 2 0 11 3 x in
  let x := Round_sched 5 6 7 0 1 2 3 4 0x53380d13 3 1 12 4 x in
  let x := Round_sched 4 5 6 7 0 1 2 3 0x650a7354 4 2 13 5 x in
  let x := Round_sched 3 4 5 6 7 0 1 2 0x766a0abb 5 3 14 6 x in
  let x := Round_sched 2 3 4 5 6 7 0 1 0x81c2c92e 6 4 15 7 x in
  let x := Round_sched 1 2 3 4 5 6 7 0 0x92722c85 7 5 0 8 x in
  let x := Round_sched 0 1 2 3 4 5 6 7 0xa2bfe8a1 8 6 1 9 x in
  let x := Round_sched 7 0 1 2 3 4 5 6 0xa81a664b 9 7 2 10 x in
  let x := Round_sched 6 7 0 1 2 3 4 5 0xc24b8b70 10 8 3 11 x in
  let x := Round_sched 5 6 7 0 1 2 3 4 0xc76c51a3 11 9 4 12 x in
  let x := Round_sched 4 5 6 7 0 1 2 3 0xd192e819 12 10 5 13 x in
  let x := Round_sched 3 4 5 6 7 0 1 2 0xd6990624 13 11 6 14 x in
  let x := Round_sched 2 3 4 5 6 7 0 1 0xf40e3585 14 12 7 15 x in
  let x := Round_sched 1 2 3 4 5 6 7 0 0x106aa070 15 13 8 0 x in
  let x := Round_sched 0 1 2 3 4 5 6 7 0x19a4c116 0 14 9 1 x in
  let x := Round_sched 7 0 1 2 3 4 5 6 0x1e376c08 1 15 10 2 x in
  let x := Round_sched 6 7 0 1 2 3 4 5 0x2748774c 2 0 11 3 x in
  let x := Round_sched 5 6 7 0 1 2 3 4 0x34b0bcb5 3 1 12 4 x in
  let x := Round_sched 4 5 6 7 0 1 2 3 0x391c0cb3 4 2 13 5 x in
  let x := Round_sched 3 4 5 6 7 0 1 2 0x4ed8aa4a 5 3 14 6 x in
  let x := Round_sched 2 3 4 5 6 7 0 1 0x5b9cca4f 6 4 15 7 x in
  let x := Round_sched 1 2 3 4 5 6 7 0 0x682e6ff3 7 5 0 8 x in
  let x := Round_sched 0 1 2 3 4 5 6 7 0x748f82ee 8 6 1 9 x in
  let x := Round_sched 7 0 1 2 3 4 5 6 0x78a5636f 9 7 2 10 x in
  let x := Round_sched 6 7 0 1 2 3 4 5 0x84c87814 10 8 3 11 x in
  let x := Round_sched 5 6 7 0 1 2 3 4 0x8cc70208 11 9 4 12 x in
  let x := Round_sched 4 5 6 7 0 1 2 3 0x90befffa 12 10 5 13 x in
  let x := Round_sched 3 4 5 6 7 0 1 2 0xa4506ceb 13 11 6 14 x in
  let x := Round_last 2 3 4 5 6 7 0 1 0xbef9a3f7 14 12 7 15 x in
  let x := Round_last 1 2 3 4 5 6 7 0 0xc67178f2 15 13 8 0 x in
  x.

(** The words [w0] .. [w15] start uninitialised; each is assigned before it is read. *)
Definition Transform (s chunk : list Z) : list Z :=
  let V := fst (rounds chunk (s, repeat 0 16)) in
  map (fun i => SPH_T32 (nth i s 0 + nth i V 0)) (seq 0 8).

(** ** The class [CSHA256] *)

Record CSHA256 : Type := mkSHA { s : list Z; buf : list Z; bytes : Z }.

(** The constructor leaves [buf] uninitialised. *)
Definition CSHA256_init (mem : list Z) : CSHA256 := mkSHA Initialize mem 0.

(** [while (end >= data + 64)]: chunks are compressed from the input; the rest is returned. *)
Fixpoint Write_chunks (fuel : nat) (sh : CSHA256) (data : list Z) : CSHA256 * list Z :=
  match fuel with
  | O => (sh, data)
  | S fuel =>
      if (64 <=? length data)%nat
      then Write_chunks fuel (mkSHA (Transform (s sh) (firstn 64 data)) (buf sh) (SPH_T64 (bytes sh + 64))) (skipn 64 data)
      else (sh, data)
  end.

(** A turn of the loop consumes 64 bytes, so [length data] turns are enough. *)
Definition Write (sh : CSHA256) (data : list Z) : CSHA256 :=
  let bufsize := Z.to_nat (bytes sh mod 64) in
  let '(sh, data, bufsize) :=
    if (negb (bufsize =? 0) && (64 <=? bufsize + length data))%nat%bool
    then
      let buf1 := memcpy (buf sh) bufsize (firstn (64 - bufsize) data) in
      (mkSHA (Transform (s sh) (firstn 64 buf1)) buf1 (SPH_T64 (bytes sh + Z.of_nat (64 - bufsize))),
       skipn (64 - bufsize) data, 0%nat)
    else (sh, data, bufsize) in
  let '(sh, data) := Write_chunks (length data) sh data in
  if (0 <? length data)%nat
  then mkSHA (s sh) (memcpy (buf sh) bufsize data) (SPH_T64 (bytes sh + Z.of_nat (length data)))
  else sh.

(** [FinalizeNoPadding(hash, enforce_compression)]: [None] when it throws. *)
Definition FinalizeNoPadding (sh : CSHA256) (enforce_compression : bool) : option (list Z) :=
  if (enforce_compression && negb (bytes sh =? 64))%bool then None
  else Some (flat_map (fun i => WriteBE32 (nth i (s sh) 0)) (seq 0 8)).

Definition pad : list Z := 0x80 :: repeat 0 63.

Definition Finalize (sh : CSHA256) : option (list Z) * CSHA256 :=
  let sizedesc := WriteBE64 (SPH_T64 (bytes sh << 3)) in
  let sh := Write sh (firstn (1 + Z.to_nat ((119 - bytes sh mod 64) mod 64)) pad) in
  let sh := Write sh sizedesc in
  (FinalizeNoPadding sh false, sh).

Definition Reset (sh : CSHA256) : CSHA256 := mkSHA Initialize (buf sh) 0.

(** ** [CHash256] and [Hash] of hash.h *)

Definition CHash256_Finalize (sh : CSHA256) : option (list Z) :=
  let '(h, sh) := Finalize sh in
  match h with
  | None => None
  | Some hash1 => fst (Finalize (Write (Reset sh) hash1))
  end.

(** [Hash(p1begin, p1end, ...)]: the double hash of the concatenated ranges. *)
Definition Hash (mem : list Z) (ranges : list (list Z)) : option (list Z) :=
  CHash256_Finalize (fold_left Write ranges (CSHA256_init mem)).


(** ** FIPS 180-4 *)

(** The constants of the standard: the first 32 bits of the fractional parts of
    the square roots of the first 8 primes (initial state) and of the cube roots
    of the first 64 primes (rounds).  [root e n] is the integer [e]-th root of
    [n < 2^(36 e)], bit by bit. *)
Definition root (e n : Z) : Z :=
  fold_left (fun r i => let r' := r + 2 ^ (35 - Z.of_nat i) in if r' ^ e <=? n then r' else r) (seq 0 36) 0.
Definition is_prime (p : Z) : bool :=
  forallb (fun i => negb (p mod (2 + Z.of_nat i) =? 0)) (seq 0 (Z.to_nat (Z.sqrt p) - 1)).
Definition first_primes (n : nat) : list Z := firstn n (filter is_prime (map (fun i => 2 + Z.of_nat i) (seq 0 310))).
Definition frac_root (e p : Z) : Z := root e (p * 2 ^ (32 * e)) mod 2 ^ 32.

Definition fips_H0 : list Z := map (frac_root 2) (first_primes 8).
Definition fips_K : list Z := map (frac_root 3) (first_primes 64).

(** The round constants, evaluated. *)
Definition sha_K : list Z := Eval vm_compute in fips_K.

Definition ROTR (n x : Z) : Z := SPH_ROTR32 x n.
Definition fips_Ch (x y z : Z) : Z := (x .& y) .^ (Z.lnot x .& z).
Definition fips_Maj (x y z : Z) : Z := (x .& y) .^ (x .& z) .^ (y .& z).
Definition fips_Sigma0 (x : Z) : Z := ROTR 2 x .^ ROTR 13 x .^ ROTR 22 x.
Definition fips_Sigma1 (x : Z) : Z := ROTR 6 x .^ ROTR 11 x .^ ROTR 25 x.
Definition fips_sigma0 (x : Z) : Z := ROTR 7 x .^ ROTR 18 x .^ (x >> 3).
Definition fips_sigma1 (x : Z) : Z := ROTR 17 x .^ ROTR 19 x .^ (x >> 10).

(** The message schedule: 16 words of the block, then 48 more. *)
Definition fips_next (W : list Z) (t : nat) : Z :=
  (fips_sigma1 (nth (t - 2) W 0) + nth (t - 7) W 0 + fips_sigma0 (nth (t - 15) W 0) + nth (t - 16) W 0) mod 2 ^ 32.
Definition fips_schedule (b : list Z) : list Z :=
  fold_left (fun W t => W ++ [fips_next W t]) (seq 16 48)
    (map (fun t => ReadBE32 (skipn (4 * t) b)) (seq 0 16)).

Definition fips_round (k w : Z) (v : list Z) : list Z :=
  match v with
  | [a; b; c; d; e; f; g; h] =>
      let t1 := (h + fips_Sigma1 e + fips_Ch e f g + k + w) mod 2 ^ 32 in
      let t2 := (fips_Sigma0 a + fips_Maj a b c) mod 2 ^ 32 in
      [(t1 + t2) mod 2 ^ 32; a; b; c; (d + t1) mod 2 ^ 32; e; f; g]
  | _ => v
  end.

Definition sha_compress (b h : list Z) : list Z :=
  let W := fips_schedule b in
  let v := fold_left (fun v t => fips_round (nth t fips_K 0) (nth t W 0) v) (seq 0 64) h in
  map (fun i => (nth i h 0 + nth i v 0) mod 2 ^ 32) (seq 0 8).

(** SHA-256 of a message: one bit, zeros, 64-bit length. *)
Definition sha256 (m : list Z) : list Z :=
  let p := md_pad 64 8 m 0x80 (rev (le_bytes 8 (8 * Z.of_nat (length m)))) in
  flat_map (fun x => rev (le_bytes 4 x)) (absorb 64 sha_compress (length p / 64) p fips_H0).

Definition sha256d (m : list Z) : list Z := sha256 (sha256 m).

(** ** The functions on words *)

Lemma Ch_fips x y z : Ch x y z = fips_Ch x y z.
Proof.
  apply Z.bits_inj'. intros i Hi. unfold Ch, fips_Ch.
  rewrite !Z.lxor_spec, !Z.land_spec, Z.lxor_spec, Z.lnot_spec by exact Hi.
  destruct (Z.testbit x i), (Z.testbit y i), (Z.testbit z i); reflexivity.
Qed.

Lemma Maj_fips x y z : Maj x y z = fips_Maj x y z.
Proof.
  apply Z.bits_inj'. intros i Hi. unfold Maj, fips_Maj.
  rewrite !Z.lor_spec, !Z.lxor_spec, !Z.land_spec, Z.lor_spec.
  destruct (Z.testbit x i), (Z.testbit y i), (Z.testbit z i); reflexivity.
Qed.

(** [x >> n | x << (32 - n)] on [uint32_t] is a rotation. *)
Lemma rotr_expr n m x : 0 <= n -> m = 32 - n -> u32 x -> (x >> n) .| SPH_T32 (x << m) = ROTR n x.
Proof.
  intros Hn -> Hx. unfold ROTR, SPH_ROTR32, SPH_ROTL32, SPH_T32.
  rewrite Z.land_lor_distr_l, Z.lor_comm. f_equal.
  replace (32 - (32 - n)) with n by lia. symmetry. apply SPH_T32_id. now apply word_shiftr.
Qed.

Lemma Sigma0_fips x : u32 x -> Sigma0 x = fips_Sigma0 x.
Proof. intros Hx. unfold Sigma0. now rewrite !rotr_expr by (lia || assumption). Qed.
Lemma Sigma1_fips x : u32 x -> Sigma1 x = fips_Sigma1 x.
Proof. intros Hx. unfold Sigma1. now rewrite !rotr_expr by (lia || assumption). Qed.
Lemma sigma0_fips x : u32 x -> sigma0 x = fips_sigma0 x.
Proof. intros Hx. unfold sigma0. now rewrite !rotr_expr by (lia || assumption). Qed.
Lemma sigma1_fips x : u32 x -> sigma1 x = fips_sigma1 x.
Proof. intros Hx. unfold sigma1. now rewrite !rotr_expr by (lia || assumption). Qed.

(** ** The 64 rounds as a loop *)

(** Step [t] on the registers and the schedule words. *)
Definition code_step (K : list Z) (chunk : list Z) (x : list Z * list Z) (t : nat) : list Z * list Z :=
  let r j := ((j + (64 - t)) mod 8)%nat in
  let i := (t mod 16)%nat in
  let k := nth t K 0 in
  if (t <? 16)%nat then Round_read (r 0%nat) (r 1%nat) (r 2%nat) (r 3%nat) (r 4%nat) (r 5%nat) (r 6%nat) (r 7%nat)
          k t (4 * t) chunk x
  else if (t <? 62)%nat
  then Round_sched (r 0%nat) (r 1%nat) (r 2%nat) (r 3%nat) (r 4%nat) (r 5%nat) (r 6%nat) (r 7%nat)
          k i ((i + 14) mod 16) ((i + 9) mod 16) ((i + 1) mod 16) x
  else Round_last (r 0%nat) (r 1%nat) (r 2%nat) (r 3%nat) (r 4%nat) (r 5%nat) (r 6%nat) (r 7%nat)
          k i ((i + 14) mod 16) ((i + 9) mod 16) ((i + 1) mod 16) x.

Lemma sha_K_fips : fips_K = sha_K.
Proof. vm_compute. reflexivity. Qed.

Lemma Initialize_fips : Initialize = fips_H0.
Proof. vm_compute. reflexivity. Qed.

Lemma rounds_loop chunk x : rounds chunk x = fold_left (code_step fips_K chunk) (seq 0 64) x.
Proof.
  rewrite sha_K_fips. unfold rounds, code_step. generalize Round_read Round_sched Round_last. intros. reflexivity.
Qed.

(** ** The registers *)

(** The registers of the code before round [t]: role [j] sits in register [j - t]. *)
Definition spin (t : nat) (v : list Z) : list Z := map (fun p => nth ((p + t) mod 8) v 0) (seq 0 8).

Definition wf (v : list Z) : Prop := length v = 8%nat /\ Forall u32 v.

Ltac eight v H :=
  let Hl := fresh in let Hf := fresh in destruct H as [Hl Hf];
  do 8 (let x := fresh "x" in destruct v as [|x v]; [discriminate Hl|]);
  destruct v; [clear Hl; forall_inv | discriminate Hl].

Lemma u32_mod x : u32 (x mod 2 ^ 32).
Proof. apply word_mod. lia. Qed.
#[local] Hint Resolve u32_mod : words.

Lemma wf_fips_round k w v : wf v -> wf (fips_round k w v).
Proof.
  intros Hv. eight v Hv. split; [reflexivity|]. unfold fips_round. cbv zeta.
  repeat apply Forall_cons; try apply Forall_nil; try assumption; apply u32_mod.
Qed.

Lemma Round_spin_small j k w v :
  (j < 8)%nat -> wf v ->
  let r i := ((i + (8 - j)) mod 8)%nat in
  Round (r 0%nat) (r 1%nat) (r 2%nat) (r 3%nat) (r 4%nat) (r 5%nat) (r 6%nat) (r 7%nat) k w (spin j v)
  = spin (S j) (fips_round k w v).
Proof.
  intros Hj Hv. eight v Hv.
  do 8 (destruct j as [|j]; [
    unfold Round, fips_round;
    cbn [spin map seq Nat.add Nat.sub Nat.modulo Nat.divmod fst snd nth upd];
    now rewrite Sigma0_fips, Sigma1_fips, Ch_fips, Maj_fips, !SPH_T32_mod by assumption |]). lia.
Qed.

Lemma spin_mod t v : spin (t mod 8) v = spin t v.
Proof. apply map_ext. intros p. now rewrite Nat.Div0.add_mod_idemp_r. Qed.

Lemma Round_spin t k w v :
  (t < 64)%nat -> wf v ->
  let r j := ((j + (64 - t)) mod 8)%nat in
  Round (r 0%nat) (r 1%nat) (r 2%nat) (r 3%nat) (r 4%nat) (r 5%nat) (r 6%nat) (r 7%nat) k w (spin t v)
  = spin (S t) (fips_round k w v).
Proof.
  intros Ht Hv r. pose proof (Nat.div_mod_eq t 8) as E. pose proof (Nat.mod_upper_bound t 8 ltac:(lia)) as B.
  assert (Hr : forall i, r i = ((i + (8 - t mod 8)) mod 8)%nat).
  { intros i. unfold r.
    replace (i + (64 - t))%nat with (i + (8 - t mod 8) + (7 - t / 8) * 8)%nat by lia. apply Nat.Div0.mod_add. }
  rewrite !Hr, <- (spin_mod t), (Round_spin_small (t mod 8) k w v B Hv), <- (spin_mod (S (t mod 8))), <- (spin_mod (S t)).
  f_equal. rewrite <- (Nat.add_1_r (t mod 8)), Nat.Div0.add_mod_idemp_l. now rewrite Nat.add_1_r.
Qed.

(** ** The schedule *)

(** A list grown by one element per step. *)
Lemma grow_spec (f : list Z -> nat -> Z) n W k :
  length W = n ->
  let R := fold_left (fun W t => W ++ [f W t]) (seq n k) W in
  length R = (n + k)%nat /\ firstn n R = W /\
  forall t, (n <= t < n + k)%nat -> nth t R 0 = f (firstn t R) t.
Proof.
  intros HW. induction k as [|k IH].
  - cbn [seq fold_left]. repeat split; [lia | apply firstn_all2; lia | lia].
  - rewrite seq_S, fold_left_app. cbn [fold_left]. cbv zeta in *.
    destruct IH as (Hl & Hf & Hn). set (R := fold_left _ (seq n k) W) in *.
    rewrite length_app. cbn [length]. repeat split; [lia | |].
    + rewrite firstn_firstn_app by lia. exact Hf.
    + intros t Ht. destruct (Nat.eq_dec t (n + k)) as [->|Hne].
      * rewrite app_nth2, Hl, Nat.sub_diag by lia. cbn [nth].
        rewrite firstn_firstn_app, firstn_all2 by lia. reflexivity.
      * rewrite app_nth1 by lia. rewrite firstn_firstn_app by lia. apply Hn. lia.
Qed.

Lemma u32_ReadBE32 p : Forall byte p -> u32 (ReadBE32 p).
Proof.
  intros Hp. unfold ReadBE32. apply (word_mono (8 * Z.of_nat (length (rev (firstn 4 p))))).
  - rewrite length_rev, length_firstn. lia.
  - apply le_word_bound. now apply Forall_rev, Forall_firstn_skipn.
Qed.

Lemma fips_schedule_spec b :
  Forall byte b ->
  let W := fips_schedule b in
  (forall t, (t < 16)%nat -> nth t W 0 = ReadBE32 (skipn (4 * t) b)) /\
  (forall t, (16 <= t < 64)%nat -> nth t W 0 = fips_next W t) /\ (forall t, u32 (nth t W 0)).
Proof.
  intros Hb. unfold fips_schedule. set (W0 := map (fun t => ReadBE32 (skipn (4 * t) b)) (seq 0 16)).
  pose proof (grow_spec fips_next 16 W0 48 eq_refl) as G. cbv zeta in G |- *.
  set (W := fold_left _ (seq 16 48) W0) in *. clearbody W. destruct G as (Hl & Hf & Hn).
  assert (H1 : forall t, (t < 16)%nat -> nth t W 0 = ReadBE32 (skipn (4 * t) b)).
  { intros t Ht. rewrite <- (firstn_skipn 16 W), Hf, app_nth1 by (cbn; lia). unfold W0.
    do 16 (destruct t as [|t]; [reflexivity|]). lia. }
  assert (H2 : forall t, (16 <= t < 64)%nat -> nth t W 0 = fips_next W t).
  { intros t Ht. rewrite Hn by lia. unfold fips_next. rewrite !nth_firstn.
    repeat match goal with |- context [if (?a <? ?b)%nat then _ else _] =>
      destruct (Nat.ltb_spec a b); [|lia] end. reflexivity. }
  refine (conj H1 (conj H2 _)). intros t. destruct (Nat.lt_ge_cases t 16) as [L|G].
  - rewrite H1 by lia. now apply u32_ReadBE32, Forall_firstn_skipn.
  - destruct (Nat.lt_ge_cases t 64).
    + rewrite H2 by lia. apply u32_mod.
    + rewrite nth_overflow by lia. auto with words.
Qed.

(** ** The compression function *)

(** What holds before round [t]: the registers are those of the reference, and
    word [u mod 16] is schedule word [u] for the last 16 words computed. *)
Definition in_step (b h : list Z) (t : nat) (x : list Z * list Z) : Prop :=
  let W := fips_schedule b in
  fst x = spin t (fold_left (fun v t => fips_round (nth t fips_K 0) (nth t W 0) v) (seq 0 t) h) /\
  length (snd x) = 16%nat /\
  forall u, (u < Nat.min t 62)%nat -> (Nat.min t 62 <= u + 16)%nat -> nth (u mod 16) (snd x) 0 = nth u W 0.

Lemma wf_fips_rounds f g l v :
  wf v -> wf (fold_left (fun v t => fips_round (f t : Z) (g t) v) (l : list nat) v).
Proof. apply (fold_left_inv wf). intros a t Ha. now apply wf_fips_round. Qed.

(** Schedule word [t] from the words kept in [w]. *)
Lemma sched_next b w t :
  Forall byte b -> (16 <= t < 64)%nat ->
  (forall u, (u < Nat.min t 62)%nat -> (Nat.min t 62 <= u + 16)%nat ->
     nth (u mod 16) w 0 = nth u (fips_schedule b) 0) ->
  let i := (t mod 16)%nat in
  sched w i ((i + 14) mod 16) ((i + 9) mod 16) ((i + 1) mod 16) = nth t (fips_schedule b) 0.
Proof.
  intros Hb Ht Hw i. destruct (fips_schedule_spec b Hb) as (_ & Hn & Hu).
  rewrite (Hn t Ht). unfold sched, fips_next, i.
  assert (Hi : forall d, (1 <= d < 16)%nat -> (t <= 62 \/ 2 <= d)%nat ->
      nth ((t mod 16 + (16 - d)) mod 16) w 0 = nth (t - d) (fips_schedule b) 0).
  { intros d Hd H2. rewrite Nat.Div0.add_mod_idemp_l.
    replace (t + (16 - d))%nat with (t - d + 1 * 16)%nat by lia. rewrite Nat.Div0.mod_add.
    apply Hw; lia. }
  assert (H0 : nth (t mod 16) w 0 = nth (t - 16) (fips_schedule b) 0).
  { replace (t mod 16)%nat with ((t - 16) mod 16)%nat; [apply Hw; lia|].
    replace t with (t - 16 + 1 * 16)%nat at 2 by lia. now rewrite Nat.Div0.mod_add. }
  assert (H2 : nth ((t mod 16 + 14) mod 16) w 0 = nth (t - 2) (fips_schedule b) 0) by (apply (Hi 2%nat); lia).
  assert (H7 : nth ((t mod 16 + 9) mod 16) w 0 = nth (t - 7) (fips_schedule b) 0) by (apply (Hi 7%nat); lia).
  assert (H15 : nth ((t mod 16 + 1) mod 16) w 0 = nth (t - 15) (fips_schedule b) 0) by (apply (Hi 15%nat); lia).
  rewrite H2, H7, H15, H0.
  rewrite sigma0_fips, sigma1_fips, SPH_T32_mod by apply Hu. f_equal. lia.
Qed.

#[local] Opaque fips_schedule fips_K Round sched.

Lemma code_step_in b h t x :
  Forall byte b -> wf h -> (t < 64)%nat -> in_step b h t x -> in_step b h (S t) (code_step fips_K b x t).
Proof.
  intros Hb Hh Ht (HV & Hl & Hw). destruct x as [V w]. cbn [fst snd] in *.
  destruct (fips_schedule_spec b Hb) as (Hr & Hn & _).
  pose proof (wf_fips_rounds (fun t => nth t fips_K 0) (fun t => nth t (fips_schedule b) 0) (seq 0 t) h Hh) as Hv.
  unfold in_step. rewrite seq_S, fold_left_app. cbn [fold_left Nat.add]. set (v := fold_left _ (seq 0 t) h) in *.
  pose proof (fun x => Round_spin t (nth t fips_K 0) x v Ht Hv) as HR. cbv zeta in HR.
  pose proof (Nat.mod_upper_bound t 16 ltac:(lia)) as Hm.
  assert (Hupd : (t < 62)%nat -> forall u, (u < Nat.min (S t) 62)%nat -> (Nat.min (S t) 62 <= u + 16)%nat ->
      nth (u mod 16) (upd (t mod 16) (nth t (fips_schedule b) 0) w) 0 = nth u (fips_schedule b) 0).
  { intros H62 u Hu1 Hu2. destruct (Nat.eq_dec u t) as [->|Hne].
    - now rewrite nth_upd_eq by lia.
    - rewrite nth_upd_ne; [apply Hw; lia|]. intros E.
      pose proof (Nat.div_mod_eq u 16). pose proof (Nat.div_mod_eq t 16). lia. }
  unfold code_step. destruct (Nat.ltb_spec t 16) as [H16|H16]; [|destruct (Nat.ltb_spec t 62) as [H62|H62]].
  - unfold Round_read. cbn [fst snd]. rewrite <- Hr by exact H16.
    rewrite HV, HR, length_upd, nth_upd_eq by lia. refine (conj eq_refl (conj Hl _)).
    rewrite (Nat.mod_small t 16) in Hupd by lia. apply Hupd. lia.
  - unfold Round_sched. cbn [fst snd].
    rewrite (sched_next b w t Hb) by (auto || lia).
    rewrite HV, HR, length_upd, nth_upd_eq by lia. refine (conj eq_refl (conj Hl _)). apply Hupd. lia.
  - unfold Round_last. cbn [fst snd].
    rewrite (sched_next b w t Hb) by (auto || lia).
    rewrite HV, HR. refine (conj eq_refl (conj Hl _)). intros u Hu1 Hu2. apply Hw; lia.
Qed.

Lemma rounds_in b h t :
  Forall byte b -> wf h -> (t <= 64)%nat ->
  in_step b h t (fold_left (code_step fips_K b) (seq 0 t) (h, repeat 0 16)).
Proof.
  intros Hb Hh. induction t as [|t IH]; intros Ht.
  - refine (conj _ (conj eq_refl _)); [|intros u Hu; cbn in Hu; lia].
    cbn [fold_left seq fst]. eight h Hh. reflexivity.
  - rewrite seq_S, fold_left_app. cbn [fold_left Nat.add]. apply code_step_in; auto with arith.
Qed.

(** [Transform] is the SHA-256 compression function. *)
Lemma Transform_fips b h : Forall byte b -> wf h -> Transform h b = sha_compress b h /\ wf (Transform h b).
Proof.
  intros Hb Hh. unfold Transform. rewrite rounds_loop.
  destruct (rounds_in b h 64 Hb Hh ltac:(lia)) as [-> _].
  split.
  - unfold sha_compress. cbv zeta. set (v := fold_left _ (seq 0 64) h).
    assert (Hv : wf v) by (apply (wf_fips_rounds (fun t => nth t fips_K 0) (fun t => nth t (fips_schedule b) 0)); exact Hh).
    clearbody v. eight v Hv. cbn [spin map seq Nat.add Nat.modulo Nat.divmod Nat.sub fst snd nth].
    now rewrite !SPH_T32_mod.
  - split; [reflexivity|]. apply Forall_map, Forall_forall. intros i _. auto with words.
Qed.

(** ** Write *)

#[local] Opaque Transform sha_compress.

Definition sha_block (b h : list Z) : list Z := Transform h b.

(** [sh] has hashed [m]. *)
Definition hashed (m : list Z) (sh : CSHA256) : Prop :=
  absorbed 64 sha_block Initialize m (mkContext (buf sh) (length m mod 64) (s sh)) /\
  bytes sh = Z.of_nat (length m).

(** A chunk compressed from the input, when the buffer is empty. *)
Lemma absorbed_direct {St} B (block : list Z -> St -> St) s0 m b st chunk :
  (0 < B)%nat -> absorbed B block s0 m (mkContext b 0 st) -> length chunk = B ->
  absorbed B block s0 (m ++ chunk) (mkContext b 0 (block chunk st)).
Proof.
  intros HB [Hb Hp Hs Hr] Hc. cbn [SphStream.buf ptr SphStream.st] in *.
  destruct (div_mod_full B HB (length m) (length chunk)) as [Hd Hm]; [lia|].
  pose proof (Nat.div_mod_eq (length m) B) as E.
  split; cbn [SphStream.buf ptr SphStream.st]; rewrite ?length_app, ?Hd, ?Hm; auto.
  - rewrite absorb_succ, absorb_app by lia. rewrite skipn_skipn_app, skipn_all2, Hs by lia.
    cbn [app]. now rewrite firstn_all2 by lia.
  - symmetry. apply skipn_all2. rewrite length_app. lia.
Qed.

Lemma Write_chunks_hashed fuel : forall m sh data,
  hashed m sh -> (length m mod 64 = 0 \/ length data < 64)%nat -> (length data <= fuel)%nat ->
  Z.of_nat (length (m ++ data)) < 2 ^ 64 ->
  let '(sh', rest) := Write_chunks fuel sh data in
  buf sh' = buf sh /\ (length rest < 64)%nat /\ (length m mod 64 = 0 \/ rest = data)%nat /\
  exists done, data = done ++ rest /\ hashed (m ++ done) sh' /\ (length (m ++ done) mod 64 = length m mod 64)%nat.
Proof.
  induction fuel as [|fuel IH]; intros m sh data Hh Hor Hfuel Hlen; cbn [Write_chunks].
  - refine (conj eq_refl (conj _ (conj (or_intror eq_refl) _))); [lia|]. exists [].
    rewrite app_nil_r. auto.
  - destruct (Nat.leb_spec 64 (length data)) as [H64|H64].
    + assert (Hm : (length m mod 64 = 0)%nat) by lia. destruct Hh as [Ha Hb]. rewrite Hm in Ha.
      set (chunk := firstn 64 data). assert (Hc : length chunk = 64%nat) by (unfold chunk; rewrite length_firstn; lia).
      assert (Hm' : (length (m ++ chunk) mod 64 = 0)%nat)
        by (rewrite length_app, Hc, (Nat.Div0.add_mod (length m)), Hm; reflexivity).
      rewrite length_app in Hlen.
      set (sh1 := mkSHA _ _ _).
      assert (H1 : hashed (m ++ chunk) sh1).
      { split; [|cbn [sh1 bytes]; rewrite Hb, SPH_T64_id, length_app by (unfold word; lia); lia].
        rewrite Hm'. apply (absorbed_direct 64 sha_block); [lia | exact Ha | exact Hc]. }
      specialize (IH (m ++ chunk) sh1 (skipn 64 data) H1 (or_introl Hm')).
      destruct (Write_chunks fuel sh1 (skipn 64 data)) as [sh' rest].
      destruct IH as (E1 & E2 & _ & done & Ed & Hd & Em).
      * rewrite length_skipn. lia.
      * rewrite length_app, length_app, Hc, length_skipn. lia.
      * refine (conj E1 (conj E2 (conj (or_introl Hm) _))). exists (chunk ++ done).
        rewrite <- app_assoc, <- Ed, (app_assoc m chunk done). split; [symmetry; apply firstn_skipn|].
        split; [exact Hd | congruence].
    + refine (conj eq_refl (conj H64 (conj (or_intror eq_refl) _))). exists [].
      rewrite app_nil_r. auto.
Qed.

(** Buffering a piece that does not fill the block. *)
Lemma hashed_buffer m sh piece :
  hashed m sh -> (length m mod 64 + length piece < 64)%nat -> Z.of_nat (length (m ++ piece)) < 2 ^ 64 ->
  hashed (m ++ piece)
    (mkSHA (s sh) (memcpy (buf sh) (length m mod 64) piece) (SPH_T64 (bytes sh + Z.of_nat (length piece)))).
Proof.
  intros [Ha Hb] Hlt Hlen. rewrite length_app in Hlen.
  pose proof (absorbed_turn 64 sha_block ltac:(lia) _ _ _ piece Ha) as Ht. unfold core_turn in Ht.
  cbn [SphStream.buf ptr SphStream.st] in Ht.
  destruct (Nat.eqb_spec (length m mod 64 + length piece) 64); [lia|].
  destruct (div_mod_add 64 ltac:(lia) (length m) (length piece) Hlt) as [_ Em].
  split; cbn [buf s bytes].
  - rewrite length_app, Em. apply Ht. lia.
  - rewrite Hb, SPH_T64_id, length_app by (unfold word; lia). lia.
Qed.

Lemma hashed_buf m sh : hashed m sh -> (64 <= length (buf sh))%nat.
Proof. intros [Ha _]. exact (absorbed_buf _ _ _ _ _ Ha). Qed.

(** [Write] hashes its data, however they fall on chunk boundaries. *)
Lemma Write_hashed m sh data :
  hashed m sh -> Z.of_nat (length (m ++ data)) < 2 ^ 64 ->
  hashed (m ++ data) (Write sh data) /\ length (buf (Write sh data)) = length (buf sh).
Proof.
  intros Hh Hlen. pose proof (hashed_buf _ _ Hh) as Hbuf. pose proof Hlen as Hlen2. rewrite length_app in Hlen2.
  unfold Write.
  assert (Ebs : Z.to_nat (bytes sh mod 64) = (length m mod 64)%nat).
  { rewrite (proj2 Hh). change 64 with (Z.of_nat 64). rewrite <- Nat2Z.inj_mod. apply Nat2Z.id. }
  rewrite Ebs. pose proof (Nat.mod_upper_bound (length m) 64 ltac:(lia)) as Hr.
  set (r := (length m mod 64)%nat) in *. set (filled := if _ : bool then _ else _).
  assert (Hfill : let '(sh1, data1, bs1) := filled in
      length (buf sh1) = length (buf sh) /\ exists m1, m ++ data = m1 ++ data1 /\ hashed m1 sh1 /\
      bs1 = (length m1 mod 64)%nat /\ (length m1 mod 64 = 0 \/ length m1 mod 64 + length data1 < 64)%nat).
  { unfold filled. destruct (Nat.eqb_spec r 0) as [H0|H0]; cbn [negb andb].
    - split; [reflexivity|]. exists m. repeat split; auto; apply Hh.
    - destruct (Nat.leb_spec 64 (r + length data)) as [Hge|Hlt].
      + set (piece := firstn (64 - r) data).
        assert (Hp : length piece = (64 - r)%nat) by (unfold piece; rewrite length_firstn; lia).
        destruct (div_mod_full 64 ltac:(lia) (length m) (length piece)) as [_ Em]; [fold r; lia|].
        split; [cbn [buf]; apply length_memcpy; lia|]. exists (m ++ piece). rewrite length_app, Em.
        split; [rewrite <- app_assoc; f_equal; symmetry; apply firstn_skipn|].
        refine (conj _ (conj eq_refl (or_introl eq_refl))). destruct Hh as [Ha Hb]. split; cbn [buf s bytes].
        * pose proof (absorbed_turn 64 sha_block ltac:(lia) _ _ _ piece Ha) as Ht. unfold core_turn in Ht.
          cbn [SphStream.buf ptr SphStream.st] in Ht. fold r in Ht.
          destruct (Nat.eqb_spec (r + length piece) 64); [|lia]. rewrite length_app, Em. apply Ht. lia.
        * rewrite Hb, SPH_T64_id, length_app by (unfold word; lia). lia.
      + split; [reflexivity|]. exists m. repeat split; auto; apply Hh. }
  destruct filled as [[sh1 data1] bs1]. destruct Hfill as (Hb1 & m1 & Em & Hh1 & -> & Hor).
  rewrite Em in *.
  pose proof (Write_chunks_hashed (length data1) m1 sh1 data1 Hh1 ltac:(lia) ltac:(lia) Hlen) as Hc.
  destruct (Write_chunks (length data1) sh1 data1) as [sh2 rest].
  destruct Hc as (E2 & Hrest & Hor2 & done & Ed & Hh2 & Em2).
  assert (Hfit : (length m1 mod 64 + length rest < 64)%nat) by (destruct Hor2 as [Hz | ->]; lia).
  clear Hor Hor2. rewrite Ed, app_assoc in *. rewrite <- Em2 in *.
  destruct (Nat.ltb_spec 0 (length rest)) as [Hpos|Hz].
  - split; [apply hashed_buffer; auto|].
    cbn [buf]. rewrite length_memcpy, E2; [exact Hb1|]. pose proof (hashed_buf _ _ Hh2). lia.
  - destruct rest; [|cbn in Hz; lia]. rewrite app_nil_r. split; [exact Hh2 | congruence].
Qed.

(** ** Finalize *)

Lemma wf_Initialize : wf Initialize.
Proof. split; [reflexivity|]. repeat apply Forall_cons; auto with words. Qed.

Lemma absorb_fips k m :
  (k * 64 <= length m)%nat -> Forall byte m ->
  absorb 64 sha_block k m Initialize = absorb 64 sha_compress k m Initialize /\
  wf (absorb 64 sha_block k m Initialize).
Proof.
  intros Hk Hm.
  apply (absorb_rel (fun h1 h2 => h1 = h2 /\ wf h1) (Forall byte) 64); auto using wf_Initialize.
  - intros b h1 h2 _ Hb [<- Hh]. exact (Transform_fips b h1 Hb Hh).
  - intros n l Hl. now apply Forall_firstn_skipn.
Qed.

(** The padding written by [Finalize] completes the message as [md_pad] does. *)
Lemma sha_padding m :
  let bytes := Z.of_nat (length m) in
  m ++ firstn (1 + Z.to_nat ((119 - bytes mod 64) mod 64)) pad ++ WriteBE64 (SPH_T64 (bytes << 3))
  = md_pad 64 8 m 0x80 (rev (le_bytes 8 (8 * Z.of_nat (length m)))).
Proof.
  intros bytes. unfold md_pad, bytes. change 64 with (Z.of_nat 64). rewrite <- Nat2Z.inj_mod. change (Z.of_nat 64) with 64.
  pose proof (Nat.mod_upper_bound (length m) 64 ltac:(lia)) as Hr. set (r := (length m mod 64)%nat) in *.
  assert (Et : WriteBE64 (SPH_T64 (Z.of_nat (length m) << 3)) = rev (le_bytes 8 (8 * Z.of_nat (length m)))).
  { unfold WriteBE64. rewrite SPH_T64_mod, (le_bytes_mod 8), Z.shiftl_mul_pow2 by lia. do 2 f_equal. lia. }
  rewrite Et. f_equal. cbn [Nat.add]. unfold pad. rewrite firstn_cons. cbn [app]. do 2 f_equal.
  set (z := if _ : bool then _ else _).
  assert (Ez : Z.to_nat ((119 - Z.of_nat r) mod 64) = z).
  { unfold z. destruct (Nat.ltb_spec r (64 - 8)).
    - rewrite <- (Z.mod_unique (119 - Z.of_nat r) 64 1 (55 - Z.of_nat r)); lia.
    - rewrite Z.mod_small; lia. }
  assert (Hz : (z <= 63)%nat) by (unfold z; destruct (Nat.ltb_spec r (64 - 8)); lia).
  rewrite Ez. replace 63%nat with (z + (63 - z))%nat by lia. rewrite repeat_app.
  rewrite firstn_firstn_app by (rewrite repeat_length; lia). apply firstn_all2. rewrite repeat_length. lia.
Qed.

Lemma Finalize_hashed m sh :
  hashed m sh -> Forall byte m -> Z.of_nat (length m) < 2 ^ 61 ->
  fst (Finalize sh) = Some (sha256 m) /\ length (buf (snd (Finalize sh))) = length (buf sh).
Proof.
  intros Hh Hm Hlen. unfold Finalize. rewrite (proj2 Hh).
  set (d1 := firstn _ pad). set (d2 := WriteBE64 _).
  assert (Ep : (m ++ d1) ++ d2 = md_pad 64 8 m 0x80 (rev (le_bytes 8 (8 * Z.of_nat (length m)))))
    by (rewrite <- app_assoc; apply sha_padding).
  assert (L1 : (length d1 <= 64)%nat)
    by (unfold d1; rewrite length_firstn; cbn [length pad]; rewrite repeat_length; lia).
  assert (L2 : length d2 = 8%nat) by (unfold d2, WriteBE64; now rewrite length_rev, length_le_bytes).
  destruct (Write_hashed m sh d1 Hh) as [H1 B1]; [rewrite length_app; lia|].
  destruct (Write_hashed (m ++ d1) _ d2 H1) as [H2 B2]; [rewrite !length_app; lia|].
  rewrite Ep in H2. set (sh2 := Write _ d2) in *. cbn [fst snd].
  split; [|congruence]. unfold FinalizeNoPadding. cbn [andb]. f_equal.
  unfold sha256. rewrite <- Initialize_fips. set (p := md_pad _ _ _ _ _) in *.
  assert (Hp : Forall byte p).
  { unfold p, md_pad. apply Forall_app. split; [exact Hm|]. apply Forall_cons; [unfold word; lia|].
    apply Forall_app. split; [apply Forall_repeat; unfold word; lia | apply Forall_rev, le_bytes_byte]. }
  destruct (absorb_fips (length p / 64) p) as [E [W _]];
    [rewrite Nat.mul_comm; apply Nat.Div0.mul_div_le | exact Hp |].
  destruct H2 as [Ha _]. pose proof (absorbed_st _ _ _ _ _ Ha) as Es. cbn [SphStream.st] in Es.
  rewrite <- E, <- Es in *. exact (flat_map_nth_seq WriteBE32 0 (s sh2) 8 W).
Qed.

Lemma hashed_init mem : (64 <= length mem)%nat -> hashed [] (CSHA256_init mem).
Proof. intros Hmem. split; [apply absorbed_init; exact Hmem | reflexivity]. Qed.

Lemma Writes_hashed ranges : forall m sh,
  hashed m sh -> Z.of_nat (length (m ++ concat ranges)) < 2 ^ 64 ->
  hashed (m ++ concat ranges) (fold_left Write ranges sh) /\
  length (buf (fold_left Write ranges sh)) = length (buf sh).
Proof.
  induction ranges as [|d ds IH]; intros m sh Hh Hlen; cbn [fold_left concat] in *.
  - now rewrite app_nil_r.
  - rewrite app_assoc in *. destruct (Write_hashed m sh d Hh) as [H1 B1]; [rewrite length_app in Hlen; lia|].
    destruct (IH _ _ H1 Hlen) as [H2 B2]. split; [exact H2 | congruence].
Qed.

Lemma sha256_output m : length (sha256 m) = 32%nat /\ Forall byte (sha256 m).
Proof.
  split.
  - unfold sha256. set (p := md_pad _ _ _ _ _). rewrite (flat_map_constant_length (c := 4%nat)).
    + assert (H : length (absorb 64 sha_compress (length p / 64) p fips_H0) = 8%nat)
        by (apply (absorb_inv (fun h => length h = 8%nat)); reflexivity).
      now rewrite H.
    + intros. now rewrite length_rev, length_le_bytes.
  - apply Forall_flat_map, Forall_forall. intros x _. apply Forall_rev, le_bytes_byte.
Qed.

(** ** Main result *)

Lemma Hash_sha256d mem ranges :
  (64 <= length mem)%nat -> Forall (Forall byte) ranges -> Z.of_nat (length (concat ranges)) < 2 ^ 61 ->
  Hash mem ranges = Some (sha256d (concat ranges)).
Proof.
  intros Hmem Hr Hlen. unfold Hash, CHash256_Finalize.
  destruct (Writes_hashed ranges [] _ (hashed_init mem Hmem)) as [H1 B1]; [cbn [app]; lia|].
  destruct (Finalize_hashed _ _ H1 (proj2 (Forall_concat _ _) Hr) Hlen) as [F1 L1].
  destruct (Finalize (fold_left Write ranges (CSHA256_init mem))) as [h sh1]. cbn [fst snd] in *. subst h.
  destruct (sha256_output (concat ranges)) as [Hl Hb].
  destruct (Write_hashed [] (Reset sh1) (sha256 (concat ranges))) as [H2 _].
  - apply hashed_init. rewrite L1, B1. exact Hmem.
  - cbn [app]. rewrite Hl. reflexivity.
  - cbn [app] in H2. apply Finalize_hashed; [exact H2 | exact Hb | rewrite Hl; reflexivity].
Qed.

(** C37: [CSHA256] and [Hash] compute SHA-256 and double SHA-256 of FIPS 180-4: for any
    number of byte ranges, of less than 2^61 bytes together, and any contents of
    the uninitialised buffer, writing the ranges and finalizing does not throw and
    returns SHA-256 of the concatenation, and the two passes of [CHash256] return
    SHA-256 of SHA-256.  It covers the unrolled compression with its in-place
    schedule, the three ways [Write] handles chunk boundaries, and the padding
    length [1 + (119 - bytes % 64) % 64]. *)
Theorem sha256_correct mem ranges :
  (64 <= length mem)%nat -> Forall (Forall byte) ranges -> Z.of_nat (length (concat ranges)) < 2 ^ 61 ->
  fst (Finalize (fold_left Write ranges (CSHA256_init mem))) = Some (sha256 (concat ranges)) /\
  Hash mem ranges = Some (sha256d (concat ranges)).
Proof.
  intros Hmem Hr Hlen. split; [|now apply Hash_sha256d].
  destruct (Writes_hashed ranges [] _ (hashed_init mem Hmem)) as [H1 _]; [cbn [app]; lia|].
  exact (proj1 (Finalize_hashed _ _ H1 (proj2 (Forall_concat _ _) Hr) Hlen)).
Qed.

Lemma sha256_correct_witness :
  let ranges := [repeat 7 60; repeat 8 70; []] in
  fst (Finalize (fold_left Write ranges (CSHA256_init (repeat 1 64)))) = Some (sha256 (concat ranges)) /\
  Hash (repeat 1 64) ranges = Some (sha256d (concat ranges)).
Proof.
  intros ranges. apply sha256_correct; [apply Nat.leb_le; reflexivity | | reflexivity].
  repeat constructor; intros H; discriminate H.
Defined.

End Sha256.
