(* ===== verification/X11kvs.v ===== *)
(** * src/hash.h: the proof-of-work hash functions [HashX11KV] and [HashX11KVS]

    [HashX11KV] runs one of eleven 512-bit hash functions at a time, each on the
    64 bytes the last one produced; the bytes select the function and the number
    of iterations.  Its local contexts are declared and not initialised, and a
    context is used again when its function is selected again.  [HashX11KVS]
    hashes a block header, derives two headers with other nonces from the digest,
    recurses on them, and combines the three digests with double SHA-256.

    Both are modelled over the interface [Hasher]: the theorems hold for any
    implementation of the eleven functions that satisfies it, and [Section
    Instances] lists the implementations of this library.  Memory that C leaves
    uninitialised is an argument: [mem] gives the contexts of each call of
    [HashX11KV] and [sha_mem] the buffer of each call of [Hash], by the path of
    the call in the recursion. *)

From Stdlib Require Import ZArith List Lia Bool.
From S2P Require Import Prelude SphTypes SphStream Sha256.
Import ListNotations.
Open Scope Z_scope.

Module X11kvs.

(** ** Constants *)

Definition HASHX11KV_MIN_NUMBER_ITERATIONS : Z := 2.
Definition HASHX11KV_MAX_NUMBER_ITERATIONS : Z := 6.
Definition HASHX11KV_NUMBER_ALGOS : Z := 11.
Definition HASHX11KVS_MAX_LEVEL : nat := 7.
Definition HASHX11KVS_MIN_LEVEL : nat := 1.
Definition HASHX11KVS_MAX_DRIFT : Z := 0xFFFF.

(** ** Helpers *)

Definition le32dec (p : list Z) : Z :=
  nth 0 p 0 .| (nth 1 p 0 << 8) .| (nth 2 p 0 << 16) .| (nth 3 p 0 << 24).

Definition le32enc (x : Z) : list Z :=
  [x .& 0xff; (x >> 8) .& 0xff; (x >> 16) .& 0xff; (x >> 24) .& 0xff].

(** [uint512::trim256]: the eight low words, the first 32 bytes. *)
Definition trim256 (hash : list Z) : list Z := firstn 32 hash.

(** [sph_X512_init(&ctx); sph_X512(&ctx, data, len); sph_X512_close(&ctx, dst)]. *)
Definition run (f : sph_hash) (c : h_ctx f) (data : list Z) : list Z * h_ctx f :=
  h_close f (h_update f (h_init f c) data).

Section Pow.
Context {blake bmw groestl skein jh keccak luffa cubehash shavite simd echo : sph_hash}.

(** The local variables [ctx_blake] .. [ctx_echo]. *)
Record contexts : Type := mkContexts {
  ctx_blake : h_ctx blake; ctx_bmw : h_ctx bmw; ctx_groestl : h_ctx groestl; ctx_jh : h_ctx jh;
  ctx_keccak : h_ctx keccak; ctx_skein : h_ctx skein; ctx_luffa : h_ctx luffa;
  ctx_cubehash : h_ctx cubehash; ctx_shavite : h_ctx shavite; ctx_simd : h_ctx simd; ctx_echo : h_ctx echo
}.

(** The switch on [hash.begin()[i % 64] % HASHX11KV_NUMBER_ALGOS]. *)
Definition switch (k : Z) (hash : list Z) (C : contexts) : list Z * contexts :=
  let '(mkContexts c0 c1 c2 c4 c5 c3 c6 c7 c8 c9 c10) := C in
  match k with
  | 0 => let '(hash, c) := run blake c0 hash in (hash, mkContexts c c1 c2 c4 c5 c3 c6 c7 c8 c9 c10)
  | 1 => let '(hash, c) := run bmw c1 hash in (hash, mkContexts c0 c c2 c4 c5 c3 c6 c7 c8 c9 c10)
  | 2 => let '(hash, c) := run groestl c2 hash in (hash, mkContexts c0 c1 c c4 c5 c3 c6 c7 c8 c9 c10)
  | 3 => let '(hash, c) := run skein c3 hash in (hash, mkContexts c0 c1 c2 c4 c5 c c6 c7 c8 c9 c10)
  | 4 => let '(hash, c) := run jh c4 hash in (hash, mkContexts c0 c1 c2 c c5 c3 c6 c7 c8 c9 c10)
  | 5 => let '(hash, c) := run keccak c5 hash in (hash, mkContexts c0 c1 c2 c4 c c3 c6 c7 c8 c9 c10)
  | 6 => let '(hash, c) := run luffa c6 hash in (hash, mkContexts c0 c1 c2 c4 c5 c3 c c7 c8 c9 c10)
  | 7 => let '(hash, c) := run cubehash c7 hash in (hash, mkContexts c0 c1 c2 c4 c5 c3 c6 c c8 c9 c10)
  | 8 => let '(hash, c) := run shavite c8 hash in (hash, mkContexts c0 c1 c2 c4 c5 c3 c6 c7 c c9 c10)
  | 9 => let '(hash, c) := run simd c9 hash in (hash, mkContexts c0 c1 c2 c4 c5 c3 c6 c7 c8 c c10)
  | 10 => let '(hash, c) := run echo c10 hash in (hash, mkContexts c0 c1 c2 c4 c5 c3 c6 c7 c8 c9 c)
  | _ => (hash, C)
  end.

(** The number of iterations, from byte 63 of the first digest. *)
Definition iterations (hash : list Z) : nat :=
  Z.to_nat (HASHX11KV_MIN_NUMBER_ITERATIONS
    + nth 63 hash 0 mod (HASHX11KV_MAX_NUMBER_ITERATIONS - HASHX11KV_MIN_NUMBER_ITERATIONS + 1)).

Definition HashX11KV (C : contexts) (data : list Z) : list Z :=
  let '(hash, c) := run blake (ctx_blake C) data in
  let C := mkContexts c (ctx_bmw C) (ctx_groestl C) (ctx_jh C) (ctx_keccak C) (ctx_skein C) (ctx_luffa C)
             (ctx_cubehash C) (ctx_shavite C) (ctx_simd C) (ctx_echo C) in
  let n := iterations hash in
  let '(hash, C) :=
    fold_left (fun '(hash, C) i => switch (nth (i mod 64) hash 0 mod HASHX11KV_NUMBER_ALGOS) hash C)
      (seq 1 (n - 1)) (hash, C) in
  trim256 hash.

(** [nonce + (le32dec(hash.begin() + off) % HASHX11KVS_MAX_DRIFT)] as [uint32_t]. *)
Definition nextnonce (nonce : Z) (hash : list Z) (off : nat) : Z :=
  SPH_T32 (nonce + le32dec (skipn off hash) mod HASHX11KVS_MAX_DRIFT).

(** [memcpy(nextheader, pbegin, 76); le32enc(nextheader + 76, nextnonce)]. *)
Definition nextheader (data : list Z) (nonce : Z) : list Z := firstn 76 data ++ le32enc nonce.

(** [HashX11KVS(pbegin, pend, level)].  [None] is a failed assertion in [Hash].
    No caller passes level 0; there the code's unsigned [level - 1] wraps around
    to 2^32 - 1 levels, which the model does not follow: it gives [None]. *)
Fixpoint HashX11KVS (mem : list bool -> contexts) (sha_mem : list bool -> list Z) (path : list bool)
    (level : nat) (data : list Z) : option (list Z) :=
  match level with
  | O => None
  | S level' =>
      let hash := HashX11KV (mem path) data in
      if (level =? HASHX11KVS_MIN_LEVEL)%nat then Some hash
      else
        let nonce := le32dec (skipn 76 data) in
        let nextnonce1 := nextnonce nonce hash 24 in
        let nextnonce2 := nextnonce nonce hash 28 in
        let hash1 := HashX11KVS mem sha_mem (false :: path) level' (nextheader data nextnonce1) in
        let hash2 := HashX11KVS mem sha_mem (true :: path) level' (nextheader data nextnonce2) in
        match hash1, hash2 with
        | Some hash1, Some hash2 => Sha256.Hash (sha_mem path) [hash; hash1; hash2]
        | _, _ => None
        end
  end.

(** The headers a call of [HashX11KVS] passes to [HashX11KV], in order. *)
Fixpoint hashed_headers (mem : list bool -> contexts) (path : list bool) (level : nat) (data : list Z)
  : list (list Z) :=
  match level with
  | O => []
  | S level' =>
      let hash := HashX11KV (mem path) data in
      if (level =? HASHX11KVS_MIN_LEVEL)%nat then [data]
      else
        let nonce := le32dec (skipn 76 data) in
        data :: hashed_headers mem (false :: path) level' (nextheader data (nextnonce nonce hash 24))
             ++ hashed_headers mem (true :: path) level' (nextheader data (nextnonce nonce hash 28))
  end.

(** ** Specification *)

Context {d_blake d_bmw d_groestl d_skein d_jh d_keccak d_luffa d_cubehash d_shavite d_simd d_echo
  : list Z -> list Z}.

(** The digest function number [k]. *)
Definition digest (k : Z) : list Z -> list Z :=
  match k with
  | 0 => d_blake | 1 => d_bmw | 2 => d_groestl | 3 => d_skein | 4 => d_jh | 5 => d_keccak
  | 6 => d_luffa | 7 => d_cubehash | 8 => d_shavite | 9 => d_simd | 10 => d_echo | _ => fun m => m
  end.

(** The functions applied after the first one: the digest of step [i] selects
    the function of the next step by its byte [i]. *)
Fixpoint chain (n i : nat) (h : list Z) : list Z :=
  match n with
  | O => h
  | S n => chain n (S i) (digest (nth i h 0 mod 11) h)
  end.

Definition x11kv_spec (m : list Z) : list Z :=
  let h := d_blake m in
  firstn 32 (chain (Z.to_nat (1 + nth 63 h 0 mod 5)) 1 h).

(** A header with its nonce moved by the word at [off] of a digest, modulo 65535. *)
Definition drift (header h : list Z) (off : nat) : list Z :=
  let nonce := le_word (firstn 4 (skipn 76 header)) in
  firstn 76 header
  ++ le_bytes 4 ((nonce + le_word (firstn 4 (skipn off h)) mod 65535) mod 2 ^ 32).

Fixpoint x11kvs_spec (level : nat) (header : list Z) : list Z :=
  let h := x11kv_spec header in
  match level with
  | O | S O => h
  | S l => Sha256.sha256d (h ++ x11kvs_spec l (drift header h 24) ++ x11kvs_spec l (drift header h 28))
  end.

(** ** The helpers *)

Lemma le32dec_word p : (4 <= length p)%nat -> Forall byte p -> le32dec p = le_word (firstn 4 p).
Proof.
  intros Hl Hp. rewrite <- sph_dec32le_word by assumption. reflexivity.
Qed.

Lemma le32enc_bytes x : le32enc x = le_bytes 4 x.
Proof. rewrite <- sph_enc32le_bytes. reflexivity. Qed.

(** ** The interface gives digests *)

Context {H_blake : Hasher blake d_blake} {H_bmw : Hasher bmw d_bmw} {H_groestl : Hasher groestl d_groestl}
  {H_skein : Hasher skein d_skein} {H_jh : Hasher jh d_jh} {H_keccak : Hasher keccak d_keccak}
  {H_luffa : Hasher luffa d_luffa} {H_cubehash : Hasher cubehash d_cubehash}
  {H_shavite : Hasher shavite d_shavite} {H_simd : Hasher simd d_simd} {H_echo : Hasher echo d_echo}.

(** The contexts are memory of the right shape. *)
Definition allocated (C : contexts) : Prop :=
  h_alloc blake (ctx_blake C) /\ h_alloc bmw (ctx_bmw C) /\ h_alloc groestl (ctx_groestl C) /\
  h_alloc jh (ctx_jh C) /\ h_alloc keccak (ctx_keccak C) /\ h_alloc skein (ctx_skein C) /\
  h_alloc luffa (ctx_luffa C) /\ h_alloc cubehash (ctx_cubehash C) /\ h_alloc shavite (ctx_shavite C) /\
  h_alloc simd (ctx_simd C) /\ h_alloc echo (ctx_echo C).

Lemma run_digest {f d} {Hf : Hasher f d} c data :
  h_alloc f c -> Forall byte data -> 8 * Z.of_nat (length data) < 2 ^ 64 ->
  exists c', h_alloc f c' /\ run f c data = (d data, c').
Proof.
  intros Hc Hd Hl. destruct (hasher_streams c [data]) as (c0 & H0 & E).
  - exact Hc.
  - now constructor.
  - cbn [concat]. now rewrite app_nil_r.
  - cbn [concat fold_left] in E. rewrite app_nil_r in E.
    exists (h_init f c0). split; [now apply (hasher_init (digest := d)) | exact E].
Qed.

(** A value of a 512-bit digest. *)
Definition is_hash (h : list Z) : Prop := length h = 64%nat /\ Forall byte h.

Lemma digest_hash k h : 0 <= k < 11 -> is_hash (digest k h).
Proof.
  intros Hk. assert (k = 0 \/ k = 1 \/ k = 2 \/ k = 3 \/ k = 4 \/ k = 5 \/ k = 6 \/ k = 7 \/ k = 8 \/ k = 9 \/ k = 10)
    as Hc by lia.
  repeat destruct Hc as [-> | Hc]; try rewrite Hc; split; (apply hasher_length || apply hasher_bytes).
Qed.

Lemma switch_digest k h C :
  0 <= k < 11 -> is_hash h -> allocated C ->
  exists C', allocated C' /\ switch k h C = (digest k h, C').
Proof.
  intros Hk [Hl Hb] HC. destruct C as [c0 c1 c2 c4 c5 c3 c6 c7 c8 c9 c10].
  destruct HC as (A0 & A1 & A2 & A4 & A5 & A3 & A6 & A7 & A8 & A9 & A10).
  cbn [ctx_blake ctx_bmw ctx_groestl ctx_jh ctx_keccak ctx_skein ctx_luffa ctx_cubehash ctx_shavite ctx_simd ctx_echo] in *.
  assert (H64 : 8 * Z.of_nat (length h) < 2 ^ 64) by (rewrite Hl; reflexivity).
  assert (k = 0 \/ k = 1 \/ k = 2 \/ k = 3 \/ k = 4 \/ k = 5 \/ k = 6 \/ k = 7 \/ k = 8 \/ k = 9 \/ k = 10)
    as Hc by lia.
  repeat destruct Hc as [-> | Hc]; try subst k; unfold switch, digest;
    match goal with |- context [run ?f ?c h] =>
      let E := fresh in destruct (run_digest (f := f) c h) as (c' & Ha & E); [assumption..|]; rewrite E end;
    eexists; (split; [|reflexivity]); repeat split; assumption.
Qed.

(** ** HashX11KV *)

Lemma loop_chain n : forall i h C,
  (i + n <= 64)%nat -> is_hash h -> allocated C ->
  exists C', fold_left (fun '(hash, C) i => switch (nth (i mod 64) hash 0 mod HASHX11KV_NUMBER_ALGOS) hash C)
    (seq i n) (h, C) = (chain n i h, C') /\ is_hash (chain n i h).
Proof.
  induction n as [|n IH]; intros i h C Hi Hh HC; [exists C; split; auto|].
  cbn [seq fold_left chain]. rewrite Nat.mod_small by lia. unfold HASHX11KV_NUMBER_ALGOS.
  pose proof (Z.mod_pos_bound (nth i h 0) 11 ltac:(lia)) as Hk.
  destruct (switch_digest (nth i h 0 mod 11) h C Hk Hh HC) as (C1 & HC1 & ->).
  apply IH; [lia | now apply digest_hash | exact HC1].
Qed.

Lemma HashX11KV_spec C m :
  allocated C -> Forall byte m -> 8 * Z.of_nat (length m) < 2 ^ 64 ->
  HashX11KV C m = x11kv_spec m /\ length (x11kv_spec m) = 32%nat /\ Forall byte (x11kv_spec m).
Proof.
  intros HC Hm Hl. unfold HashX11KV, x11kv_spec.
  destruct HC as (A0 & A).
  destruct (run_digest (f := blake) (ctx_blake C) m A0 Hm Hl) as (c' & Hc' & ->).
  assert (Hn : (iterations (d_blake m) - 1)%nat = Z.to_nat (1 + nth 63 (d_blake m) 0 mod 5)).
  { unfold iterations. pose proof (Z.mod_pos_bound (nth 63 (d_blake m) 0) 5 ltac:(lia)).
    change (HASHX11KV_MAX_NUMBER_ITERATIONS - HASHX11KV_MIN_NUMBER_ITERATIONS + 1) with 5.
    unfold HASHX11KV_MIN_NUMBER_ITERATIONS. lia. }
  rewrite Hn. set (n := Z.to_nat _) in *.
  assert (Hn5 : (n <= 5)%nat) by (unfold n; pose proof (Z.mod_pos_bound (nth 63 (d_blake m) 0) 5 ltac:(lia)); lia).
  destruct (loop_chain n 1 (d_blake m) (mkContexts c' (ctx_bmw C) (ctx_groestl C) (ctx_jh C) (ctx_keccak C)
      (ctx_skein C) (ctx_luffa C) (ctx_cubehash C) (ctx_shavite C) (ctx_simd C) (ctx_echo C)))
    as (C' & -> & Hlen & Hbyte); [lia | exact (digest_hash 0 m ltac:(lia)) | split; assumption |].
  refine (conj eq_refl (conj _ _)).
  - rewrite length_firstn, Hlen. reflexivity.
  - now apply Forall_firstn_skipn.
Qed.

(** ** HashX11KVS *)

Definition is_header (h : list Z) : Prop := length h = 80%nat /\ Forall byte h.

Lemma nextheader_drift m h off :
  is_header m -> length h = 32%nat -> Forall byte h -> (off <= 28)%nat ->
  nextheader m (nextnonce (le32dec (skipn 76 m)) h off) = drift m h off /\ is_header (drift m h off).
Proof.
  intros [Hl Hb] Hhl Hhb Hoff.
  assert (Hskip : forall k l, Forall byte l -> Forall byte (skipn k l)) by (intros; now apply Forall_firstn_skipn).
  split.
  - unfold nextheader, drift, nextnonce. rewrite !le32dec_word, le32enc_bytes, SPH_T32_mod; auto;
      rewrite length_skipn; lia.
  - split.
    + unfold drift. rewrite length_app, length_firstn, length_le_bytes. lia.
    + apply Forall_app. split; [now apply Forall_firstn_skipn | apply le_bytes_byte].
Qed.

Lemma HashX11KVS_spec mem sha_mem level : forall path m,
  (forall p, allocated (mem p)) -> (forall p, (64 <= length (sha_mem p))%nat) -> is_header m -> (1 <= level)%nat ->
  HashX11KVS mem sha_mem path level m = Some (x11kvs_spec level m) /\
  length (x11kvs_spec level m) = 32%nat /\ Forall byte (x11kvs_spec level m).
Proof.
  induction level as [|level IH]; intros path m Hmem Hsha Hm Hle; [lia|].
  destruct (HashX11KV_spec (mem path) m (Hmem path) (proj2 Hm)) as (E & Hl & Hb);
    [rewrite (proj1 Hm); reflexivity|].
  cbn [HashX11KVS x11kvs_spec]. rewrite E. unfold HASHX11KVS_MIN_LEVEL.
  destruct (Nat.eqb_spec (S level) 1) as [E1|E1].
  - assert (level = 0%nat) as -> by lia. auto.
  - destruct (nextheader_drift m (x11kv_spec m) 24 Hm Hl Hb ltac:(lia)) as [-> Hd1].
    destruct (nextheader_drift m (x11kv_spec m) 28 Hm Hl Hb ltac:(lia)) as [-> Hd2].
    destruct (IH (false :: path) _ Hmem Hsha Hd1 ltac:(lia)) as (-> & Hl1 & Hb1).
    destruct (IH (true :: path) _ Hmem Hsha Hd2 ltac:(lia)) as (-> & Hl2 & Hb2).
    destruct level as [|level]; [lia|].
    set (h1 := x11kvs_spec (S level) _) in *. set (h2 := x11kvs_spec (S level) (drift m _ 28)) in *.
    rewrite Sha256.Hash_sha256d; [|apply Hsha | repeat constructor; assumption |].
    + cbn [concat]. rewrite app_nil_r. refine (conj eq_refl _). apply Sha256.sha256_output.
    + cbn [concat]. rewrite !length_app, Hl, Hl1, Hl2. reflexivity.
Qed.

(** ** The headers that are hashed *)

Definition header_nonce (h : list Z) : Z := le_word (firstn 4 (skipn 76 h)).

Lemma drift_nonce m h off :
  is_header m -> header_nonce (drift m h off)
  = (header_nonce m + le_word (firstn 4 (skipn off h)) mod 65535) mod 2 ^ 32.
Proof.
  intros [Hl _]. unfold header_nonce at 1, drift.
  rewrite skipn_app, length_firstn, skipn_all2 by (rewrite length_firstn; lia).
  replace (76 - Nat.min 76 (length m))%nat with 0%nat by lia. cbn [skipn app].
  rewrite firstn_all2 by (rewrite length_le_bytes; lia). rewrite le_word_le_bytes.
  change (8 * Z.of_nat 4) with 32. apply Z.mod_mod. lia.
Qed.

(** [h] is [m] with its nonce moved by at most [d]. *)
Definition near (d : Z) (m h : list Z) : Prop :=
  is_header h /\ firstn 76 h = firstn 76 m /\
  exists e, 0 <= e <= d /\ header_nonce h = (header_nonce m + e) mod 2 ^ 32.

Lemma near_drift m h off : is_header m -> is_header (drift m h off) -> near 65534 m (drift m h off).
Proof.
  intros Hm Hd. refine (conj Hd (conj _ _)).
  - unfold drift. rewrite firstn_firstn_app by (rewrite length_firstn; destruct Hm; lia). apply firstn_firstn.
  - exists (le_word (firstn 4 (skipn off h)) mod 65535). split; [|now apply drift_nonce].
    pose proof (Z.mod_pos_bound (le_word (firstn 4 (skipn off h))) 65535 ltac:(lia)). lia.
Qed.

Lemma near_trans d1 d2 m1 m2 m3 : near d1 m1 m2 -> near d2 m2 m3 -> near (d1 + d2) m1 m3.
Proof.
  intros (_ & E1 & e1 & H1 & N1) (Hh & E2 & e2 & H2 & N2). refine (conj Hh (conj _ _)); [congruence|].
  exists (e1 + e2). split; [lia|]. rewrite N2, N1, Z.add_mod_idemp_l by lia. f_equal. lia.
Qed.

Lemma near_mono d1 d2 m h : d1 <= d2 -> near d1 m h -> near d2 m h.
Proof. intros Hd (Hh & E & e & H & N). refine (conj Hh (conj E _)). exists e. split; [lia | exact N]. Qed.

Lemma header_nonce_u32 m : is_header m -> 0 <= header_nonce m < 2 ^ 32.
Proof.
  intros [Hl Hb]. assert (H : Forall byte (firstn 4 (skipn 76 m))) by (repeat apply Forall_firstn_skipn; exact Hb).
  apply le_word_bound in H. rewrite length_firstn, length_skipn, Hl in H. exact H.
Qed.

Lemma near_refl m : is_header m -> near 0 m m.
Proof.
  intros Hm. refine (conj Hm (conj eq_refl _)). exists 0. split; [lia|]. rewrite Z.add_0_r, Z.mod_small; [reflexivity|].
  now apply header_nonce_u32.
Qed.

(** ** Main results *)

(** The intermediate digests: the first one, then one per selected function. *)
Fixpoint selected (n i : nat) (h : list Z) : list Z :=
  match n with
  | O => []
  | S n => let k := nth i h 0 mod 11 in k :: selected n (S i) (digest k h)
  end.

Lemma chain_selected n : forall i h, chain n i h = fold_left (fun h k => digest k h) (selected n i h) h.
Proof. induction n as [|n IH]; intros i h; [reflexivity|]. cbn [chain selected fold_left]. apply IH. Qed.

Lemma length_selected n : forall i h, length (selected n i h) = n.
Proof. induction n as [|n IH]; intros i h; [reflexivity|]. cbn [selected length]. now rewrite IH. Qed.

Lemma selected_range n : forall i h, Forall (fun k => 0 <= k < 11) (selected n i h).
Proof.
  induction n as [|n IH]; intros i h; constructor; auto. apply Z.mod_pos_bound. lia.
Qed.

Lemma nth_selected n : forall i h j,
  (j < n)%nat ->
  nth j (selected n i h) 0
  = nth (i + j) (fold_left (fun h k => digest k h) (firstn j (selected n i h)) h) 0 mod 11.
Proof.
  induction n as [|n IH]; intros i h j Hj; [lia|]. cbn [selected]. destruct j as [|j].
  - cbn [nth firstn fold_left]. now rewrite Nat.add_0_r.
  - cbn [nth firstn fold_left]. rewrite IH by lia. now rewrite Nat.add_succ_l, Nat.add_succ_r.
Qed.

(** [HashX11KV] computes a chain of two to six digests, whatever its
    uninitialised contexts hold and although it reuses them: BLAKE-512 of the
    data, then one to five functions out of eleven, the function of step [j]
    being the byte [j + 1] modulo 11 of the digest before it and their number one
    more than the last byte of the first digest modulo 5; the result is the first
    32 bytes of the last digest. *)
Theorem HashX11KV_correct C m :
  allocated C -> Forall byte m -> 8 * Z.of_nat (length m) < 2 ^ 64 ->
  exists ks,
    Z.of_nat (length ks) = 1 + nth 63 (d_blake m) 0 mod 5 /\ (1 <= length ks <= 5)%nat /\
    Forall (fun k => 0 <= k < 11) ks /\
    (forall j, (j < length ks)%nat ->
       nth j ks 0 = nth (1 + j) (fold_left (fun h k => digest k h) (firstn j ks) (d_blake m)) 0 mod 11) /\
    HashX11KV C m = firstn 32 (fold_left (fun h k => digest k h) ks (d_blake m)).
Proof.
  intros HC Hm Hl. destruct (HashX11KV_spec C m HC Hm Hl) as (E & _). rewrite E. unfold x11kv_spec.
  pose proof (Z.mod_pos_bound (nth 63 (d_blake m) 0) 5 ltac:(lia)) as Hb.
  exists (selected (Z.to_nat (1 + nth 63 (d_blake m) 0 mod 5)) 1 (d_blake m)).
  rewrite length_selected. repeat split; try lia.
  - apply selected_range.
  - intros j Hj. now apply nth_selected.
  - now rewrite chain_selected.
Qed.

(** [HashX11KVS] returns at every level from 1 on, and what it returns does not
    depend on uninitialised memory: the recursive combination of [HashX11KV] of
    the header and of two headers derived from it, by double SHA-256. *)
Theorem HashX11KVS_correct mem sha_mem path level m :
  (forall p, allocated (mem p)) -> (forall p, (64 <= length (sha_mem p))%nat) -> is_header m ->
  (HASHX11KVS_MIN_LEVEL <= level)%nat ->
  HashX11KVS mem sha_mem path level m = Some (x11kvs_spec level m) /\
  length (x11kvs_spec level m) = 32%nat /\ Forall byte (x11kvs_spec level m).
Proof. intros Hmem Hsha Hm Hl. now apply HashX11KVS_spec. Qed.

(** A call of [HashX11KVS] at level [n] evaluates [HashX11KV] on exactly
    [2^n - 1] headers; each is the given header up to its nonce, which moved
    forward by at most [65534] per level (modulo 2^32). *)
Theorem hashed_headers_near mem path level m :
  (forall p, allocated (mem p)) -> is_header m -> (HASHX11KVS_MIN_LEVEL <= level)%nat ->
  length (hashed_headers mem path level m) = (2 ^ level - 1)%nat /\
  Forall (near (65534 * (Z.of_nat level - 1)) m) (hashed_headers mem path level m).
Proof.
  intros Hmem. unfold HASHX11KVS_MIN_LEVEL.
  revert path m. induction level as [|level IH]; intros path m Hm Hl; [lia|].
  cbn [hashed_headers]. unfold HASHX11KVS_MIN_LEVEL. destruct (Nat.eqb_spec (S level) 1) as [E1|E1].
  - assert (level = 0%nat) as -> by lia. split; [reflexivity|]. constructor; [|constructor]. now apply near_refl.
  - destruct (HashX11KV_spec (mem path) m (Hmem path) (proj2 Hm)) as (E & Hhl & Hhb);
      [rewrite (proj1 Hm); reflexivity|].
    rewrite E. set (h := x11kv_spec m) in *.
    destruct (nextheader_drift m h 24 Hm Hhl Hhb ltac:(lia)) as [-> Hd1].
    destruct (nextheader_drift m h 28 Hm Hhl Hhb ltac:(lia)) as [-> Hd2].
    destruct (IH (false :: path) _ Hd1 ltac:(lia)) as [L1 N1].
    destruct (IH (true :: path) _ Hd2 ltac:(lia)) as [L2 N2].
    split.
    + cbn [length]. rewrite length_app, L1, L2. cbn [Nat.pow].
      assert (0 < 2 ^ level)%nat by (apply Nat.neq_0_lt_0, Nat.pow_nonzero; lia). lia.
    + constructor; [apply (near_mono 0); [lia | now apply near_refl]|].
      apply Forall_app. split.
      * eapply Forall_impl; [|exact N1]. intros x Hx.
        eapply near_mono; [|exact (near_trans _ _ _ _ _ (near_drift m h 24 Hm Hd1) Hx)]. lia.
      * eapply Forall_impl; [|exact N2]. intros x Hx.
        eapply near_mono; [|exact (near_trans _ _ _ _ _ (near_drift m h 28 Hm Hd2) Hx)]. lia.
Qed.

End Pow.

Arguments contexts : clear implicits.

End X11kvs.
