(* ===== verification/Pow.v ===== *)
(** * The proof-of-work hash with the functions of this library

    The interface [Hasher] of [X11kvs] instantiated with the functions modelled
    here, and the results of [X11kvs] at a concrete header: contexts whose
    memory holds the byte 0xA5 everywhere, a buffer of the same bytes for
    SHA-256, and the eighty-byte header [0, 1, .., 79].  Functions without a
    model of their own yet are stood in for by one that has one. *)

From Stdlib Require Import ZArith List Lia Bool.
From S2P Require Import Prelude SphTypes SphStream Keccak Blake Skein Bmw CubeHash Luffa Jh Sha256 X11kvs.
Import ListNotations.
Open Scope Z_scope.

Module Pow.

#[export] Existing Instances Blake.blake512_hasher Bmw.bmw512_hasher Skein.skein512_hasher
  Keccak.keccak512_hasher Luffa.luffa512_hasher CubeHash.cubehash512_hasher Jh.jh512_hasher.

(** A context of the given buffer size and state with old bytes in its buffer. *)
Definition garbage {St : Type} (n : nat) (s : St) : context St := mkContext (repeat 0xA5 n) 3 s.

Definition some_blake : h_ctx Blake.blake512 := garbage 128 (Blake.mkState [] [] 7 7).
Definition some_bmw : h_ctx Bmw.bmw512 := Bmw.mkBmw (garbage 128 []) 7.
Definition some_skein : h_ctx Skein.skein512 := garbage 64 (Skein.mkState [] 7).
Definition some_keccak : h_ctx Keccak.keccak512 := garbage 144 (Keccak.mkState [] 7).
Definition some_jh : h_ctx Jh.jh512 := garbage 64 (Jh.mkState [] 7).
Definition some_luffa : h_ctx Luffa.luffa512 := garbage 32 [].
Definition some_cubehash : h_ctx CubeHash.cubehash512 := garbage 32 [].

Definition some_contexts :=
  X11kvs.mkContexts (blake := Blake.blake512) (bmw := Bmw.bmw512) (groestl := Bmw.bmw512)
    (jh := Jh.jh512) (keccak := Keccak.keccak512) (skein := Skein.skein512) (luffa := Luffa.luffa512)
    (cubehash := CubeHash.cubehash512) (shavite := Blake.blake512) (simd := Luffa.luffa512)
    (echo := Skein.skein512)
    some_blake some_bmw some_bmw some_jh some_keccak some_skein some_luffa some_cubehash some_blake
    some_luffa some_skein.

Definition some_header : list Z := map Z.of_nat (seq 0 80).

Lemma some_allocated : X11kvs.allocated some_contexts.
Proof. repeat split. Qed.

Lemma some_is_header : X11kvs.is_header some_header.
Proof. 
  split; [reflexivity|]. apply Forall_forall. intros x Hx.
  apply in_map_iff in Hx. destruct Hx as (n & <- & Hn). apply in_seq in Hn. unfold byte. lia.
Qed.

Lemma HashX11KV_correct_witness :
  exists ks, (1 <= length ks <= 5)%nat /\
    X11kvs.HashX11KV some_contexts some_header
    = firstn 32 (fold_left (fun h k => X11kvs.digest (d_blake := Blake.blake_spec Blake.IV512)
        (d_bmw := Bmw.bmw_spec Bmw.IV512 8) (d_groestl := Bmw.bmw_spec Bmw.IV512 8)
        (d_skein := Skein.skein_spec 512) (d_jh := Jh.jh_spec 512)
        (d_keccak := Keccak.keccak_spec 64 72) (d_luffa := Luffa.luffa_spec)
        (d_cubehash := CubeHash.cubehash_spec 512) (d_shavite := Blake.blake_spec Blake.IV512)
        (d_simd := Luffa.luffa_spec) (d_echo := Skein.skein_spec 512) k h) ks (Blake.blake_spec Blake.IV512 some_header)).
Proof.
  destruct (X11kvs.HashX11KV_correct some_contexts some_header) as (ks & _ & Hl & _ & _ & E);
    [apply some_allocated | apply some_is_header | reflexivity |].
  exists ks. exact (conj Hl E).
Defined.

Lemma HashX11KVS_correct_witness :
  exists digest,
    X11kvs.HashX11KVS (fun _ => some_contexts) (fun _ => repeat 0xA5 64) [] X11kvs.HASHX11KVS_MAX_LEVEL some_header
    = Some digest /\ length digest = 32%nat.
Proof.
  eexists.
  destruct (X11kvs.HashX11KVS_correct (fun _ => some_contexts) (fun _ => repeat 0xA5 64) []
              X11kvs.HASHX11KVS_MAX_LEVEL some_header) as (E & Hl & _);
    [intros; apply some_allocated | intros; cbn; lia | apply some_is_header
    | unfold X11kvs.HASHX11KVS_MIN_LEVEL, X11kvs.HASHX11KVS_MAX_LEVEL; lia |].
  exact (conj E Hl).
Defined.

Lemma hashed_headers_near_witness :
  length (X11kvs.hashed_headers (fun _ => some_contexts) [] 7 some_header) = 127%nat.
Proof.
  apply (X11kvs.hashed_headers_near (fun _ => some_contexts) [] 7 some_header);
    [intros; apply some_allocated | apply some_is_header | unfold X11kvs.HASHX11KVS_MIN_LEVEL; lia].
Defined.

End Pow.
