(* ===== verification/Merkle.v ===== *)
(** * src/consensus/merkle.cpp, src/merkleblock.{h,cpp}: Merkle trees

    [MerkleComputation] computes the root, the mutation flag and the branch of a
    leaf in one pass over the leaves with an array [inner] of subtree hashes; its
    counter is a [uint32_t].  [CPartialMerkleTree] encodes the part of the tree
    above some matched leaves as bits and hashes in depth-first order.

    Everything is over a type [U] of hash values and the function [H] on pairs of
    them, [CHash256().Write(l, 32).Write(r, 32).Finalize(..)] in the code, which
    [Sha256] models; [MerkleBlock.hash_pair] is its instance at double SHA-256.
    The reference is [CalcHash l p], the hash at level [l] and position [p] of the
    tree in which a level of odd width repeats its last node. *)

From Stdlib Require Import ZArith List Lia Bool.
From S2P Require Import Prelude.
Import ListNotations.
Open Scope Z_scope.

Module Merkle.

Section Merkle.
Context {U : Type} (zero : U) (ueq : U -> U -> bool) (H : U -> U -> U).

(** ** MerkleComputation *)

(** [count & (((uint32_t)1) << level)] is not zero. *)
Definition bit_set (count : Z) (level : nat) : bool := negb (count .& (1 << Z.of_nat level) =? 0).
Definition u32_add (x y : Z) : Z := (x + y) mod 2 ^ 32.

(** The local variables [inner], [matchlevel], [mutated] and the vector [*pbranch]. *)
Record locals : Type := mkLocals { inner : list U; matchlevel : Z; mutated : bool; branch : list U }.

Definition push_back (x : U) (s : locals) : locals :=
  mkLocals (inner s) (matchlevel s) (mutated s) (branch s ++ [x]).

(** [if (pbranch) { if (matchh) .. else if (matchlevel == level) .. }]; [pbranch]
    says whether the pointer is set. *)
Definition extend_branch (pbranch : bool) (level : nat) (h : U) (matchh : bool) (s : locals) : bool * locals :=
  if pbranch then
    if matchh then (matchh, push_back (nth level (inner s) zero) s)
    else if matchlevel s =? Z.of_nat level then (true, push_back h s)
    else (matchh, s)
  else (matchh, s).

(** The loops over the levels whose bit of [count] is clear: the [for] of the
    first phase ([check = true], it updates [mutated]) and the inner [while] of
    the final sweep.  [None]: past the end of [inner]. *)
Fixpoint climb (check pbranch : bool) (fuel : nat) (count : Z) (level : nat) (h : U) (matchh : bool) (s : locals)
  : option (nat * U * bool * locals) :=
  if bit_set count level then Some (level, h, matchh, s)
  else
    match fuel with
    | O => None
    | S fuel =>
        let '(matchh, s) := extend_branch pbranch level h matchh s in
        let l := nth level (inner s) zero in
        let s := if check then mkLocals (inner s) (matchlevel s) (mutated s || ueq l h) (branch s) else s in
        climb check pbranch fuel count (S level) (H l h) matchh s
    end.

(** [inner] has 32 entries. *)
Definition LEVELS : nat := 32.

(** One turn of [while (count < leaves.size())]. *)
Definition add_leaf (pbranch : bool) (branchpos : Z) (x : Z * locals) (h : U) : option (Z * locals) :=
  let '(count, s) := x in
  let matchh := count =? branchpos in
  let count := u32_add count 1 in
  match climb true pbranch (LEVELS - 1) count 0 h matchh s with
  | Some (level, h, matchh, s) =>
      Some (count, mkLocals (upd level h (inner s)) (if matchh then Z.of_nat level else matchlevel s)
                     (mutated s) (branch s))
  | None => None
  end.

Fixpoint add_leaves (pbranch : bool) (branchpos : Z) (x : Z * locals) (leaves : list U) : option (Z * locals) :=
  match leaves with
  | [] => Some x
  | h :: leaves =>
      match add_leaf pbranch branchpos x h with
      | Some x => add_leaves pbranch branchpos x leaves
      | None => None
      end
  end.

(** [while (!(count & (((uint32_t)1) << level))) level++;] *)
Fixpoint skip_levels (fuel : nat) (count : Z) (level : nat) : option nat :=
  if bit_set count level then Some level
  else match fuel with O => None | S fuel => skip_levels fuel count (S level) end.

(** [while (count != (((uint32_t)1) << level))]: the final sweep. *)
Fixpoint sweep (pbranch : bool) (fuel : nat) (count : Z) (level : nat) (h : U) (matchh : bool) (s : locals)
  : option (U * locals) :=
  if count =? 1 << Z.of_nat level then Some (h, s)
  else
    match fuel with
    | O => None
    | S fuel =>
        let s := if pbranch && matchh then push_back h s else s in
        let h := H h h in
        let count := u32_add count (1 << Z.of_nat level) in
        match climb false pbranch (LEVELS - S level) count (S level) h matchh s with
        | Some (level, h, matchh, s) => sweep pbranch fuel count level h matchh s
        | None => None
        end
    end.

(** The root, the flag and the branch; [None] is an access out of [inner]. *)
Definition MerkleComputation (leaves : list U) (branchpos : Z) (pbranch : bool) : option (U * bool * list U) :=
  match leaves with
  | [] => Some (zero, false, [])
  | _ =>
      match add_leaves pbranch branchpos (0, mkLocals (repeat zero LEVELS) (-1) false []) leaves with
      | Some (count, s) =>
          match skip_levels (LEVELS - 1) count 0 with
          | Some level =>
              let matchh := matchlevel s =? Z.of_nat level in
              match sweep pbranch LEVELS count level (nth level (inner s) zero) matchh s with
              | Some (h, s) => Some (h, mutated s, branch s)
              | None => None
              end
          | None => None
          end
      | None => None
      end
  end.

Definition ComputeMerkleRoot (leaves : list U) : option (U * bool) :=
  match MerkleComputation leaves (2 ^ 32 - 1) false with
  | Some (hash, mutated, _) => Some (hash, mutated)
  | None => None
  end.

Definition ComputeMerkleBranch (leaves : list U) (position : Z) : option (list U) :=
  match MerkleComputation leaves position true with
  | Some (_, _, ret) => Some ret
  | None => None
  end.

Fixpoint ComputeMerkleRootFromBranch (hash : U) (vMerkleBranch : list U) (nIndex : Z) : U :=
  match vMerkleBranch with
  | [] => hash
  | it :: rest =>
      let hash := if negb (nIndex .& 1 =? 0) then H it hash else H hash it in
      ComputeMerkleRootFromBranch hash rest (nIndex >> 1)
  end.

(** ** The tree *)

(** Width of level [l] over [n] leaves, and the hash of node [p] of level [l]. *)
Definition CalcTreeWidth (n : Z) (l : nat) : Z := (n + 2 ^ Z.of_nat l - 1) / 2 ^ Z.of_nat l.

Fixpoint CalcHash (leaves : list U) (l : nat) (p : Z) : U :=
  match l with
  | O => nth (Z.to_nat p) leaves zero
  | S l =>
      H (CalcHash leaves l (2 * p))
        (if 2 * p + 1 <? CalcTreeWidth (Z.of_nat (length leaves)) l then CalcHash leaves l (2 * p + 1) else CalcHash leaves l (2 * p))
  end.

(** The sibling of the ancestor of leaf [pos] at level [l]; the ancestor itself
    when it is the last of an odd level. *)
Definition sibling (leaves : list U) (pos : Z) (l : nat) : U :=
  let p := pos / 2 ^ Z.of_nat l in
  let q := if Z.even p then p + 1 else p - 1 in
  CalcHash leaves l (if q <? CalcTreeWidth (Z.of_nat (length leaves)) l then q else p).

Definition siblings (leaves : list U) (pos : Z) (l : nat) : list U := map (sibling leaves pos) (seq 0 l).

(** ** Arithmetic of levels *)

Lemma pow2_pos l : 0 < 2 ^ Z.of_nat l.
Proof. apply Z.pow_pos_nonneg; lia. Qed.

Lemma pow2_S l : 2 ^ Z.of_nat (S l) = 2 ^ Z.of_nat l * 2.
Proof. rewrite Nat2Z.inj_succ, Z.pow_succ_r by lia. lia. Qed.

Lemma div_pow2_S x l : x / 2 ^ Z.of_nat (S l) = x / 2 ^ Z.of_nat l / 2.
Proof. rewrite pow2_S, Z.div_div; [reflexivity | pose proof (pow2_pos l); lia | lia]. Qed.

Lemma bit_set_odd x l : bit_set x l = Z.odd (x / 2 ^ Z.of_nat l).
Proof.
  unfold bit_set. rewrite Z.shiftl_1_l, <- Z.shiftr_div_pow2 by lia.
  rewrite <- Z.testbit_odd. destruct (Z.eqb_spec (x .& 2 ^ Z.of_nat l) 0) as [E|E]; cbn [negb].
  - assert (Hb : Z.testbit (x .& 2 ^ Z.of_nat l) (Z.of_nat l) = false) by (rewrite E; apply Z.testbit_0_l).
    rewrite Z.land_spec, Z.pow2_bits_true, andb_true_r in Hb by lia. now rewrite Hb.
  - destruct (Z.testbit x (Z.of_nat l)) eqn:Hb; [reflexivity|]. exfalso. apply E.
    apply Z.bits_inj'. intros i Hi. rewrite Z.land_spec, Z.bits_0, Z.pow2_bits_eqb by lia.
    destruct (Z.eqb_spec (Z.of_nat l) i) as [<-|]; [now rewrite Hb | apply andb_false_r].
Qed.

(** [x] is a multiple of [2^l]. *)
Definition mult (x : Z) (l : nat) : Prop := x mod 2 ^ Z.of_nat l = 0.

Lemma mult_S x l : mult x l -> Z.odd (x / 2 ^ Z.of_nat l) = false -> mult x (S l).
Proof.
  unfold mult. intros Hm Ho. rewrite pow2_S, Z.rem_mul_r by (pose proof (pow2_pos l); lia).
  rewrite Hm. rewrite Zmod_odd, Ho. lia.
Qed.

Lemma mult_eq x l : mult x l -> x = x / 2 ^ Z.of_nat l * 2 ^ Z.of_nat l.
Proof.
  unfold mult. intros Hm. pose proof (pow2_pos l).
  pose proof (Z.div_mod x (2 ^ Z.of_nat l) ltac:(lia)). lia.
Qed.

Lemma mult_lt x l k : mult x l -> 0 < x < 2 ^ Z.of_nat k -> (l < k)%nat.
Proof.
  intros Hm Hx. pose proof (mult_eq x l Hm) as E. pose proof (pow2_pos l) as Hp.
  apply Nat.nle_gt. intros Hk. assert (2 ^ Z.of_nat k <= 2 ^ Z.of_nat l) by (apply Z.pow_le_mono_r; lia).
  assert (0 < x / 2 ^ Z.of_nat l) by nia. nia.
Qed.

Lemma mult_0 x : mult x 0.
Proof. unfold mult. cbn. apply Z.mod_1_r. Qed.

Lemma odd_false_even x : Z.odd x = false -> exists y, x = 2 * y.
Proof. intros Ho. exists (x / 2). pose proof (Zmod_odd x) as Hm. rewrite Ho in Hm. pose proof (Z.div_mod x 2). lia. Qed.

Lemma odd_true_succ x : Z.odd x = true -> exists y, x = 2 * y + 1.
Proof. intros Ho. exists (x / 2). pose proof (Zmod_odd x) as Hm. rewrite Ho in Hm. pose proof (Z.div_mod x 2). lia. Qed.

Lemma div2_even y : 2 * y / 2 = y.
Proof. rewrite Z.mul_comm. apply Z.div_mul. lia. Qed.

Lemma div2_odd y : (2 * y + 1) / 2 = y.
Proof. symmetry. apply (Z.div_unique _ 2 _ 1); lia. Qed.

Lemma width_S n l : 0 <= n -> CalcTreeWidth n (S l) = (CalcTreeWidth n l + 1) / 2.
Proof.
  intros Hn. unfold CalcTreeWidth. pose proof (pow2_pos l) as Hp.
  rewrite pow2_S. rewrite <- Z.div_div by lia. f_equal.
  replace (n + 2 ^ Z.of_nat l * 2 - 1) with (n + 2 ^ Z.of_nat l - 1 + 1 * 2 ^ Z.of_nat l) by lia.
  now rewrite Z.div_add by lia.
Qed.

Lemma width_mult n l : mult n l -> CalcTreeWidth n l = n / 2 ^ Z.of_nat l.
Proof.
  intros Hm. unfold CalcTreeWidth. pose proof (pow2_pos l) as Hp. pose proof (mult_eq n l Hm) as E.
  symmetry. apply (Z.div_unique _ _ _ (2 ^ Z.of_nat l - 1)); lia.
Qed.

Lemma width_ge n l x : x <= n -> x / 2 ^ Z.of_nat l <= CalcTreeWidth n l.
Proof. intros Hx. pose proof (pow2_pos l). apply Z.div_le_mono; lia. Qed.

(** An incomplete level has one node more than complete subtrees. *)
Lemma width_floor n l : ~ mult n l -> CalcTreeWidth n l = n / 2 ^ Z.of_nat l + 1.
Proof.
  unfold mult, CalcTreeWidth. intros Hm. pose proof (pow2_pos l) as Hp.
  pose proof (Z.div_mod n (2 ^ Z.of_nat l) ltac:(lia)) as E.
  pose proof (Z.mod_pos_bound n (2 ^ Z.of_nat l) Hp) as Hb.
  symmetry. apply (Z.div_unique _ _ _ (n mod 2 ^ Z.of_nat l - 1)); lia.
Qed.

Lemma mult_le n l k : (k <= l)%nat -> mult n l -> mult n k.
Proof.
  intros Hk Hm. pose proof (mult_eq n l Hm) as E. unfold mult. rewrite E.
  replace (2 ^ Z.of_nat l) with (2 ^ Z.of_nat (l - k) * 2 ^ Z.of_nat k)
    by (rewrite <- Z.pow_add_r by lia; f_equal; lia).
  rewrite Z.mul_assoc. apply Z.mod_mul. pose proof (pow2_pos k). lia.
Qed.

Lemma MerkleComputation_nonempty ls branchpos pbranch :
  ls <> [] -> MerkleComputation ls branchpos pbranch =
  match add_leaves pbranch branchpos (0, mkLocals (repeat zero LEVELS) (-1) false []) ls with
  | Some (count, s) =>
      match skip_levels (LEVELS - 1) count 0 with
      | Some level =>
          match sweep pbranch LEVELS count level (nth level (inner s) zero) (matchlevel s =? Z.of_nat level) s with
          | Some (h, s) => Some (h, mutated s, branch s)
          | None => None
          end
      | None => None
      end
  | None => None
  end.
Proof. intros Hne. now destruct ls. Qed.

(** ** Climbing *)

Context (ueq_spec : forall x y, ueq x y = true <-> x = y).
Context (leaves : list U).
Let n : Z := Z.of_nat (length leaves).
Let N : nat -> Z -> U := CalcHash leaves.
Let w : nat -> Z := CalcTreeWidth n.

Lemma node_pair l p : 0 <= p -> 2 * p + 1 < w l -> N (S l) p = H (N l (2 * p)) (N l (2 * p + 1)).
Proof. intros Hp Hw. unfold N. cbn [CalcHash]. fold n. fold w. destruct (Z.ltb_spec (2 * p + 1) (w l)); [reflexivity | lia]. Qed.

Lemma node_last l p : 0 <= p -> w l = 2 * p + 1 -> N (S l) p = H (N l (2 * p)) (N l (2 * p)).
Proof. intros Hp Hw. unfold N. cbn [CalcHash]. fold n. fold w. destruct (Z.ltb_spec (2 * p + 1) (w l)); [lia | reflexivity]. Qed.

Definition equal_pair (c : Z) (l : nat) : bool :=
  ueq (N l (c / 2 ^ Z.of_nat l - 2)) (N l (c / 2 ^ Z.of_nat l - 1)).

(** What a climb from level [l] needs of the counter and of [inner]. *)
Record climbable (c : Z) (l : nat) (inn : list U) : Prop := {
  cl_range : 0 < c < 2 ^ Z.of_nat 32;
  cl_mult : mult c l;
  cl_inner : forall k, (l <= k < 32)%nat -> mult c k -> Z.odd (c / 2 ^ Z.of_nat k) = false ->
               nth k inn zero = N k (c / 2 ^ Z.of_nat k - 2);
  cl_width : forall k, (l <= k)%nat -> mult c k -> c / 2 ^ Z.of_nat k <= w k
}.

Lemma climbable_S c l inn : climbable c l inn -> Z.odd (c / 2 ^ Z.of_nat l) = false -> climbable c (S l) inn.
Proof.
  intros [Hr Hm Hi Hw] Ho. split; [exact Hr | now apply mult_S | |]; intros; [apply Hi | apply Hw]; auto; lia.
Qed.

(** The quotient at a level whose bit is clear. *)
Lemma climbable_even c l inn :
  climbable c l inn -> Z.odd (c / 2 ^ Z.of_nat l) = false ->
  exists q, c / 2 ^ Z.of_nat l = 2 * q + 2 /\ 0 <= q /\ c / 2 ^ Z.of_nat (S l) = q + 1 /\ (l < 31)%nat.
Proof.
  intros [Hr Hm Hi Hw] Ho. destruct (odd_false_even _ Ho) as [y Ey]. exists (y - 1).
  pose proof (mult_eq c l Hm) as E. pose proof (pow2_pos l) as Hp. rewrite Ey in E.
  assert (0 < y) by nia. rewrite div_pow2_S, Ey, div2_even.
  repeat split; try lia. pose proof (mult_lt _ _ _ (mult_S _ _ Hm Ho) Hr). lia.
Qed.

(** The loops end, at the lowest set bit, with the hash of the subtree there. *)
Lemma climb_root check pbranch fuel : forall c l m s,
  climbable c l (inner s) -> (32 <= fuel + l + 1)%nat ->
  exists l' m' s',
    climb check pbranch fuel c l (N l (c / 2 ^ Z.of_nat l - 1)) m s
      = Some (l', N l' (c / 2 ^ Z.of_nat l' - 1), m', s') /\
    (l <= l' < 32)%nat /\ mult c l' /\ Z.odd (c / 2 ^ Z.of_nat l') = true /\
    inner s' = inner s /\ matchlevel s' = matchlevel s /\
    mutated s' = (mutated s || (check && existsb (equal_pair c) (seq l (l' - l)))) /\
    (pbranch = false -> branch s' = branch s /\ m' = m).
Proof.
  induction fuel as [|fuel IH]; intros c l m s Hc Hf; cbn [climb]; rewrite bit_set_odd;
    destruct (Z.odd (c / 2 ^ Z.of_nat l)) eqn:Ho.
  1, 3: exists l, m, s; rewrite Nat.sub_diag; cbn [seq existsb]; rewrite andb_false_r, orb_false_r;
    refine (conj eq_refl (conj _ (conj (cl_mult _ _ _ Hc) (conj Ho (conj eq_refl (conj eq_refl (conj eq_refl _)))))));
    [|auto]; split; [lia | exact (mult_lt _ _ _ (cl_mult _ _ _ Hc) (cl_range _ _ _ Hc))].
  - destruct (climbable_even _ _ _ Hc Ho) as (q & _ & _ & _ & Hl). lia.
  - destruct (climbable_even _ _ _ Hc Ho) as (q & Eq & Hq & Eq' & Hl).
    pose proof (cl_inner _ _ _ Hc l ltac:(lia) (cl_mult _ _ _ Hc) Ho) as Ei.
    pose proof (cl_width _ _ _ Hc l ltac:(lia) (cl_mult _ _ _ Hc)) as Hw.
    destruct (extend_branch pbranch l _ m s) as [m1 s1] eqn:Ex.
    assert (X1 : inner s1 = inner s /\ matchlevel s1 = matchlevel s /\ mutated s1 = mutated s /\
                 (pbranch = false -> branch s1 = branch s /\ m1 = m)).
    { unfold extend_branch in Ex. destruct pbranch; [destruct m; [|destruct (matchlevel s =? Z.of_nat l)]|];
        inversion Ex; subst; repeat split; auto; discriminate. }
    destruct X1 as (Xi & Xl & Xm & Xb). rewrite Xi, Ei.
    assert (EH : H (N l (c / 2 ^ Z.of_nat l - 2)) (N l (c / 2 ^ Z.of_nat l - 1))
        = N (S l) (c / 2 ^ Z.of_nat (S l) - 1)).
    { rewrite Eq', node_pair, Eq by lia. do 2 f_equal; lia. }
    rewrite EH.
    set (s2 := if check then _ else s1).
    assert (X2 : inner s2 = inner s /\ matchlevel s2 = matchlevel s /\ branch s2 = branch s1 /\
                 mutated s2 = (mutated s || (check && equal_pair c l))).
    { unfold s2, equal_pair. destruct check; cbn [inner matchlevel branch mutated andb];
        rewrite ?orb_false_r, Xm; auto. }
    destruct X2 as (Yi & Yl & Yb & Ym).
    destruct (IH c (S l) m1 s2) as (l' & m' & s' & E & Hl' & Hm' & Ho' & Zi & Zl & Zm & Zb);
      [rewrite Yi; now apply climbable_S | lia |].
    exists l', m', s'. rewrite E. refine (conj eq_refl (conj _ (conj Hm' (conj Ho' _)))); [lia|].
    rewrite Zi, Zl, Zm, Yi, Yl, Ym. refine (conj eq_refl (conj eq_refl (conj _ _))).
    + replace (l' - l)%nat with (S (l' - S l)) by lia. cbn [seq existsb].
      destruct check; cbn [andb]; now rewrite ?orb_assoc, ?orb_false_r.
    + intros Hp. destruct (Zb Hp) as [-> ->]. rewrite Yb. auto.
Qed.

(** ** The branch during a climb *)

Context (pos : Z).
Let sibs : nat -> list U := siblings leaves pos.

Lemma sibs_S l : sibs (S l) = sibs l ++ [sibling leaves pos l].
Proof. unfold sibs, siblings. now rewrite seq_S, map_app. Qed.

Lemma sibling_at l p :
  pos / 2 ^ Z.of_nat l = p -> sibling leaves pos l = N l (let q := if Z.even p then p + 1 else p - 1 in if q <? w l then q else p).
Proof. intros <-. reflexivity. Qed.

(** The subtree of [h] at level [l] holds leaf [pos]. *)
Definition covered (c : Z) (l : nat) : Prop := pos / 2 ^ Z.of_nat l = c / 2 ^ Z.of_nat l - 1.

Definition on_branch (b0 : list U) (c : Z) (l : nat) (m : bool) (s : locals) : Prop :=
  (covered c l /\ m = true /\ branch s = sibs l) \/ (~ covered c l /\ m = false /\ branch s = b0).

Lemma even_double q : Z.even (2 * q) = true.
Proof. now rewrite Z.even_mul. Qed.

Lemma even_double_1 q : Z.even (2 * q + 1) = false.
Proof. now rewrite Z.even_add, even_double. Qed.

Lemma extend_branch_on b0 c l h m s :
  climbable c l (inner s) -> Z.odd (c / 2 ^ Z.of_nat l) = false -> h = N l (c / 2 ^ Z.of_nat l - 1) ->
  (matchlevel s = Z.of_nat l <-> pos / 2 ^ Z.of_nat l = c / 2 ^ Z.of_nat l - 2) ->
  (matchlevel s = Z.of_nat l -> b0 = sibs l) ->
  on_branch b0 c l m s ->
  on_branch b0 c (S l) (fst (extend_branch true l h m s)) (snd (extend_branch true l h m s)).
Proof.
  intros Hc Ho -> Hml Hb0 Hon.
  destruct (climbable_even _ _ _ Hc Ho) as (q & Eq & Hq & Eq' & _).
  pose proof (cl_inner _ _ _ Hc l ltac:(pose proof (climbable_even _ _ _ Hc Ho) as (? & _ & _ & _ & ?); lia)
                (cl_mult _ _ _ Hc) Ho) as Ei.
  pose proof (cl_width _ _ _ Hc l ltac:(lia) (cl_mult _ _ _ Hc)) as Hw.
  rewrite Eq in *. unfold on_branch, covered in *. rewrite Eq', div_pow2_S, Eq in *.
  destruct Hon as [(Hp & -> & Hb) | (Hp & -> & Hb)]; cbn [extend_branch].
  - left. cbn [fst snd push_back branch]. replace (2 * q + 2 - 1) with (2 * q + 1) in Hp by lia.
    rewrite Hp, div2_odd, Hb, sibs_S, Ei, (sibling_at l _ Hp), even_double_1.
    replace (2 * q + 1 - 1) with (2 * q) by lia. cbv zeta. destruct (Z.ltb_spec (2 * q) (w l)); [|lia].
    replace (2 * q + 2 - 2) with (2 * q) by lia. repeat split. lia.
  - destruct (Z.eqb_spec (matchlevel s) (Z.of_nat l)) as [E|E]; cbn [fst snd push_back branch].
    + left. rewrite (proj1 Hml E) in *. replace (2 * q + 2 - 2) with (2 * q) in * by lia.
      assert (Ep : pos / 2 ^ Z.of_nat l = 2 * q) by (apply Hml; exact E).
      rewrite div2_even, Hb, sibs_S, (Hb0 E), (sibling_at l _ Ep), even_double. cbv zeta.
      destruct (Z.ltb_spec (2 * q + 1) (w l)); [|lia]. replace (2 * q + 2 - 1) with (2 * q + 1) by lia.
      repeat split. lia.
    + right. refine (conj _ (conj eq_refl Hb)). intros Hd.
      assert (pos / 2 ^ Z.of_nat l <> 2 * q + 2 - 2) by (intros Hx; apply E, Hml, Hx).
      pose proof (Z.div_mod (pos / 2 ^ Z.of_nat l) 2 ltac:(lia)).
      pose proof (Z.mod_pos_bound (pos / 2 ^ Z.of_nat l) 2 ltac:(lia)). lia.
Qed.

Lemma climb_branch b0 check fuel : forall c l m s r,
  climbable c l (inner s) ->
  (forall k, (l <= k)%nat -> mult c k -> Z.odd (c / 2 ^ Z.of_nat k) = false ->
     (matchlevel s = Z.of_nat k <-> pos / 2 ^ Z.of_nat k = c / 2 ^ Z.of_nat k - 2)) ->
  (forall k, matchlevel s = Z.of_nat k -> b0 = sibs k) ->
  on_branch b0 c l m s ->
  climb check true fuel c l (N l (c / 2 ^ Z.of_nat l - 1)) m s = Some r ->
  let '(l', _, m', s') := r in on_branch b0 c l' m' s'.
Proof.
  induction fuel as [|fuel IH]; intros c l m s r Hc Hml Hb0 Hon; cbn [climb]; rewrite bit_set_odd;
    destruct (Z.odd (c / 2 ^ Z.of_nat l)) eqn:Ho; intros E; try (injection E as <-; exact Hon); [discriminate|].
  destruct (climbable_even _ _ _ Hc Ho) as (q & Eq & Hq & Eq' & Hl).
  pose proof (extend_branch_on b0 c l _ m s Hc Ho eq_refl (Hml l ltac:(lia) (cl_mult _ _ _ Hc) Ho) (Hb0 l) Hon) as Hx.
  pose proof (cl_inner _ _ _ Hc l ltac:(lia) (cl_mult _ _ _ Hc) Ho) as Ei.
  pose proof (cl_width _ _ _ Hc l ltac:(lia) (cl_mult _ _ _ Hc)) as Hw.
  destruct (extend_branch true l _ m s) as [m1 s1] eqn:Ex. cbn [fst snd] in Hx.
  assert (X1 : inner s1 = inner s /\ matchlevel s1 = matchlevel s).
  { unfold extend_branch in Ex. destruct m; [|destruct (matchlevel s =? Z.of_nat l)];
      inversion Ex; subst; split; reflexivity. }
  destruct X1 as [Xi Xl]. rewrite Xi, Ei in E.
  assert (EH : H (N l (c / 2 ^ Z.of_nat l - 2)) (N l (c / 2 ^ Z.of_nat l - 1))
      = N (S l) (c / 2 ^ Z.of_nat (S l) - 1)).
  { rewrite Eq', node_pair, Eq by lia. do 2 f_equal; lia. }
  rewrite EH in E. set (s2 := if check then _ else s1) in E.
  assert (X2 : inner s2 = inner s /\ matchlevel s2 = matchlevel s /\ branch s2 = branch s1)
    by (unfold s2; destruct check; cbn [inner matchlevel branch]; auto).
  destruct X2 as (Yi & Yl & Yb).
  apply (IH c (S l) m1 s2 r); [rewrite Yi; now apply climbable_S | | | | exact E].
  - intros k Hk. rewrite Yl. apply Hml. lia.
  - intros k. rewrite Yl. apply Hb0.
  - unfold on_branch in *. now rewrite Yb.
Qed.

(** ** The first phase *)

Lemma div_pred c k : mult (c + 1) k -> c / 2 ^ Z.of_nat k = (c + 1) / 2 ^ Z.of_nat k - 1.
Proof.
  intros Hm. pose proof (mult_eq _ _ Hm) as E. pose proof (pow2_pos k) as Hp.
  symmetry. apply (Z.div_unique _ _ _ (2 ^ Z.of_nat k - 1)); lia.
Qed.

Lemma div_pow2_le x a b : (a <= b)%nat -> x / 2 ^ Z.of_nat b = x / 2 ^ Z.of_nat a / 2 ^ Z.of_nat (b - a).
Proof.
  intros Hab. pose proof (pow2_pos a). pose proof (pow2_pos (b - a)). rewrite Z.div_div by lia. f_equal.
  rewrite <- Z.pow_add_r by lia. f_equal. lia.
Qed.

(** Equal above a level, equal above it. *)
Lemma div_pow2_eq x y a b : (a <= b)%nat -> x / 2 ^ Z.of_nat a = y / 2 ^ Z.of_nat a -> x / 2 ^ Z.of_nat b = y / 2 ^ Z.of_nat b.
Proof. intros Hab E. now rewrite !(div_pow2_le _ a b Hab), E. Qed.

Lemma div_above c l k :
  mult (c + 1) l -> Z.odd ((c + 1) / 2 ^ Z.of_nat l) = true -> (l < k)%nat ->
  c / 2 ^ Z.of_nat k = (c + 1) / 2 ^ Z.of_nat k.
Proof.
  intros Hm Ho Hk. apply (div_pow2_eq _ _ (S l)); [lia|]. destruct (odd_true_succ _ Ho) as [y Ey].
  rewrite !div_pow2_S, div_pred, Ey by exact Hm. replace (2 * y + 1 - 1) with (2 * y) by lia.
  now rewrite div2_even, div2_odd.
Qed.

Lemma odd_below c l k : mult c l -> (k < l)%nat -> Z.odd (c / 2 ^ Z.of_nat k) = false.
Proof.
  intros Hm Hk. pose proof (mult_eq c l Hm) as E. pose proof (pow2_pos k) as Hp.
  assert (Ek : c / 2 ^ Z.of_nat k = 2 * (c / 2 ^ Z.of_nat l * 2 ^ Z.of_nat (l - S k))).
  { rewrite E at 1. replace (2 ^ Z.of_nat l) with (2 * 2 ^ Z.of_nat (l - S k) * 2 ^ Z.of_nat k) at 2.
    - rewrite (Z.mul_assoc (c / _)), Z.div_mul by lia. lia.
    - rewrite <- Z.mul_assoc, <- Z.pow_add_r by lia. replace (Z.of_nat l) with (Z.succ (Z.of_nat (l - S k) + Z.of_nat k)) by lia.
      rewrite Z.pow_succ_r by lia. reflexivity. }
  rewrite Ek, Z.odd_mul. reflexivity.
Qed.

(** Two equal siblings among the complete subtrees of the first [c] leaves. *)
Definition duplicates (c : Z) : Prop :=
  exists l p, 0 <= p /\ (2 * p + 2) * 2 ^ Z.of_nat l <= c /\ N l (2 * p) = N l (2 * p + 1).

Record processed (c : Z) (s : locals) : Prop := {
  pr_length : length (inner s) = 32%nat;
  pr_inner : forall k, (k < 32)%nat -> Z.odd (c / 2 ^ Z.of_nat k) = true ->
               nth k (inner s) zero = N k (c / 2 ^ Z.of_nat k - 1);
  pr_mutated : mutated s = true <-> duplicates c
}.

Lemma processed_climbable c s :
  0 <= c < n -> n <= 2 ^ 31 -> processed c s -> climbable (c + 1) 0 (inner s).
Proof.
  intros Hc Hn [Hl Hi _]. split.
  - change (Z.of_nat 32) with 32. lia.
  - apply mult_0.
  - intros k Hk Hm Ho. rewrite Hi; [|lia|].
    + f_equal. rewrite div_pred by exact Hm. lia.
    + rewrite div_pred, Z.odd_sub, Ho by exact Hm. reflexivity.
  - intros k _ _. apply width_ge. lia.
Qed.

Lemma duplicates_next c l :
  0 <= c -> mult (c + 1) l -> Z.odd ((c + 1) / 2 ^ Z.of_nat l) = true ->
  (duplicates (c + 1) <-> duplicates c \/ existsb (equal_pair (c + 1)) (seq 0 l) = true).
Proof.
  intros Hc Hm Ho. split.
  - intros (k & p & Hp & Hle & E). pose proof (pow2_pos k) as Hpk.
    destruct (Z.eq_dec ((2 * p + 2) * 2 ^ Z.of_nat k) (c + 1)) as [Ec|Ec].
    + right. apply existsb_exists. exists k.
      assert (Ed : (c + 1) / 2 ^ Z.of_nat k = 2 * p + 2) by (rewrite <- Ec; apply Z.div_mul; lia).
      split.
      * apply in_seq. split; [lia|]. cbn [Nat.add]. apply Nat.nle_gt. intros Hkl.
        assert (Hmk : mult (c + 1) (S k)).
        { apply mult_S; [unfold mult; rewrite <- Ec; apply Z.mod_mul; lia|]. rewrite Ed.
          replace (2 * p + 2) with (2 * (p + 1)) by lia. now rewrite Z.odd_mul. }
        rewrite (odd_below (c + 1) (S k) l Hmk) in Ho by lia. discriminate.
      * unfold equal_pair. apply ueq_spec. rewrite Ed.
        replace (2 * p + 2 - 2) with (2 * p) by lia. replace (2 * p + 2 - 1) with (2 * p + 1) by lia. exact E.
    + left. exists k, p. repeat split; auto. lia.
  - intros [(k & p & Hp & Hle & E) | He]; [exists k, p; repeat split; auto; lia|].
    apply existsb_exists in He. destruct He as (k & Hk & E). apply in_seq in Hk. apply ueq_spec in E.
    assert (Hmk : mult (c + 1) k) by (apply (mult_le _ l); [lia | exact Hm]).
    destruct (odd_false_even _ (odd_below _ l k Hm ltac:(lia))) as [y Ey].
    pose proof (mult_eq _ _ Hmk) as Ec. rewrite Ey in *. pose proof (pow2_pos k) as Hpk.
    exists k, (y - 1). replace (2 * (y - 1)) with (2 * y - 2) by lia.
    replace (2 * y - 2 + 1) with (2 * y - 1) by lia. repeat split; [nia | | exact E].
    replace (2 * y - 2 + 2) with (2 * y) by lia. lia.
Qed.

Lemma add_leaf_processed pbranch branchpos c s :
  0 <= c < n -> n <= 2 ^ 31 -> processed c s ->
  exists s', add_leaf pbranch branchpos (c, s) (N 0 c) = Some (c + 1, s') /\ processed (c + 1) s'.
Proof.
  intros Hc Hn Hs. unfold add_leaf, u32_add. rewrite Z.mod_small by lia.
  pose proof (processed_climbable c s Hc Hn Hs) as Hcl.
  destruct (climb_root true pbranch (LEVELS - 1) (c + 1) 0 (c =? branchpos) s Hcl ltac:(unfold LEVELS; lia))
    as (l & m & s1 & E & Hl & Hm & Ho & Ei & _ & Emu & _).
  rewrite Z.div_1_r in E. replace (c + 1 - 1) with c in E by lia. rewrite E.
  eexists. split; [reflexivity|]. destruct Hs as [Hlen Hi Hmu]. rewrite Ei.
  split; cbn [inner mutated].
  - now rewrite length_upd.
  - intros k Hk Hok. destruct (Nat.lt_trichotomy k l) as [Hkl | [-> | Hkl]].
    + rewrite (odd_below _ l k Hm Hkl) in Hok. discriminate.
    + now rewrite nth_upd_eq by lia.
    + rewrite nth_upd_ne by lia. rewrite <- (div_above c l k Hm Ho Hkl) in *. now apply Hi.
  - rewrite Emu, Nat.sub_0_r. cbn [andb]. rewrite orb_true_iff, Hmu. symmetry. apply duplicates_next; [lia | exact Hm | exact Ho].
Qed.

Lemma processed_0 : processed 0 (mkLocals (repeat zero LEVELS) (-1) false []).
Proof.
  split; cbn [inner mutated].
  - reflexivity.
  - intros k _ Ho. rewrite Z.div_0_l in Ho by (pose proof (pow2_pos k); lia). discriminate.
  - split; [discriminate|]. intros (l & p & Hp & Hle & _). pose proof (pow2_pos l). nia.
Qed.

Lemma leaf_skipn k : (k < length leaves)%nat -> skipn k leaves = N 0 (Z.of_nat k) :: skipn (S k) leaves.
Proof.
  intros Hk. unfold N. cbn [CalcHash]. rewrite Nat2Z.id. clear -Hk. revert k Hk.
  induction leaves as [|x t IH]; intros [|k] Hk; cbn [length] in Hk; try lia; [reflexivity|].
  change (skipn (S k) (x :: t)) with (skipn k t). rewrite IH by lia. reflexivity.
Qed.

(** An invariant of one turn is one of the first phase. *)
Lemma add_leaves_inv pbranch branchpos (I : Z -> locals -> Prop) k s :
  (forall c s, 0 <= c < n -> I c s -> exists s', add_leaf pbranch branchpos (c, s) (N 0 c) = Some (c + 1, s') /\ I (c + 1) s') ->
  (k <= length leaves)%nat -> I (Z.of_nat k) s ->
  exists s', add_leaves pbranch branchpos (Z.of_nat k, s) (skipn k leaves) = Some (n, s') /\ I n s'.
Proof.
  intros Hstep. remember (length leaves - k)%nat as d eqn:Ed. revert k s Ed.
  induction d as [|d IH]; intros k s Ed Hk Hs.
  - assert (k = length leaves) as -> by lia. rewrite skipn_all2 by lia. exists s. split; [reflexivity | exact Hs].
  - rewrite leaf_skipn by lia. cbn [add_leaves].
    destruct (Hstep (Z.of_nat k) s) as (s1 & -> & H1); [unfold n; lia | exact Hs |].
    replace (Z.of_nat k + 1) with (Z.of_nat (S k)) in * by lia. apply IH; [lia | lia | exact H1].
Qed.

(** ** The branch in the first phase *)

(** Where the leaf [pos] is after [c] leaves. *)
Definition located (c : Z) (s : locals) : Prop :=
  if pos <? c
  then exists l, matchlevel s = Z.of_nat l /\ Z.odd (c / 2 ^ Z.of_nat l) = true /\
                 pos / 2 ^ Z.of_nat l = c / 2 ^ Z.of_nat l - 1 /\ branch s = sibs l
  else matchlevel s = -1 /\ branch s = [].

(** A leaf before a complete subtree is in that subtree's ancestors' left sibling at one level only. *)
Lemma before_above c a b :
  Z.odd (c / 2 ^ Z.of_nat a) = true -> pos / 2 ^ Z.of_nat a = c / 2 ^ Z.of_nat a - 1 -> (a < b)%nat ->
  pos / 2 ^ Z.of_nat b = c / 2 ^ Z.of_nat b.
Proof.
  intros Ho E Hab. apply (div_pow2_eq _ _ (S a)); [lia|]. destruct (odd_true_succ _ Ho) as [y Ey].
  rewrite !div_pow2_S, E, Ey. replace (2 * y + 1 - 1) with (2 * y) by lia. now rewrite div2_even, div2_odd.
Qed.

Lemma located_level c s k :
  located c s -> Z.odd (c / 2 ^ Z.of_nat k) = true ->
  (matchlevel s = Z.of_nat k <-> pos / 2 ^ Z.of_nat k = c / 2 ^ Z.of_nat k - 1).
Proof.
  intros Hs Ho. unfold located in Hs. destruct (Z.ltb_spec pos c) as [Hp|Hp].
  - destruct Hs as (l & -> & Hol & El & _). destruct (Nat.lt_trichotomy l k) as [Hlk | [-> | Hlk]].
    + pose proof (before_above c l k Hol El Hlk). split; lia.
    + split; auto.
    + split; [lia|]. intros Ek. pose proof (before_above c k l Ho Ek Hlk). lia.
  - destruct Hs as [-> _]. split; [lia|]. intros Ek.
    pose proof (pow2_pos k). pose proof (Z.div_le_mono c pos (2 ^ Z.of_nat k) ltac:(lia) Hp). lia.
Qed.

Lemma located_branch c s k : located c s -> matchlevel s = Z.of_nat k -> branch s = sibs k.
Proof.
  intros Hs E. unfold located in Hs. destruct (pos <? c).
  - destruct Hs as (l & El & _ & _ & Hb). rewrite El in E. apply Nat2Z.inj in E. now subst.
  - destruct Hs as [El _]. lia.
Qed.

Lemma add_leaf_located c s s' :
  0 <= c < n -> n <= 2 ^ 31 -> 0 <= pos -> processed c s -> located c s ->
  add_leaf true pos (c, s) (N 0 c) = Some (c + 1, s') -> located (c + 1) s'.
Proof.
  intros Hc Hn Hpos Hs Hloc E. unfold add_leaf, u32_add in E. rewrite Z.mod_small in E by lia.
  pose proof (processed_climbable c s Hc Hn Hs) as Hcl.
  destruct (climb_root true true (LEVELS - 1) (c + 1) 0 (c =? pos) s Hcl ltac:(unfold LEVELS; lia))
    as (l & m & s1 & Ec & Hl & Hm & Ho & Ei & Eml & _ & _).
  assert (Hon : on_branch (branch s) (c + 1) l m s1).
  { refine (climb_branch (branch s) true (LEVELS - 1) (c + 1) 0 (c =? pos) s _ Hcl _ _ _ Ec).
    - intros k _ Hmk Hok. rewrite (located_level c s k Hloc).
      + rewrite (div_pred c k Hmk). lia.
      + rewrite (div_pred c k Hmk), Z.odd_sub, Hok. reflexivity.
    - intros k Hk. now apply (located_branch c).
    - unfold on_branch, covered. change (Z.of_nat 0) with 0. rewrite !Z.div_1_r.
      destruct (Z.eqb_spec c pos) as [Epc|Hne].
      + left. repeat split; [lia|]. unfold located in Hloc.
        destruct (Z.ltb_spec pos c); [lia|]. apply Hloc.
      + right. repeat split. lia. }
  rewrite Z.div_1_r in Ec. replace (c + 1 - 1) with c in Ec by lia. rewrite Ec in E. injection E as <-.
  unfold located. cbn [matchlevel branch]. pose proof (pow2_pos l) as Hpl.
  pose proof (div_pred c l Hm) as Ed.
  destruct Hon as [(Hcov & -> & Hb) | (Hcov & -> & Hb)]; unfold covered in Hcov.
  - destruct (Z.ltb_spec pos (c + 1)) as [Hlt|Hge].
    + exists l. auto.
    + pose proof (Z.div_le_mono (c + 1) pos (2 ^ Z.of_nat l) ltac:(lia) Hge). lia.
  - rewrite Eml, Hb. unfold located in Hloc. destruct (Z.ltb_spec pos (c + 1)) as [Hlt|Hge].
    + destruct (Z.ltb_spec pos c) as [Hlt'|Hge'].
      * destruct Hloc as (k & Ek & Hok & Epk & Hbk).
        assert (Hlk : (l < k)%nat).
        { apply Nat.nle_gt. intros Hkl. destruct (Nat.eq_dec k l) as [->|Hne].
          - rewrite Ed, Z.odd_sub, Ho in Hok. discriminate.
          - apply Hcov. rewrite (before_above c k l Hok Epk ltac:(lia)). exact Ed. }
        exists k. rewrite <- (div_above c l k Hm Ho Hlk). auto.
      * exfalso. apply Hcov. assert (Epc : pos = c) by lia. rewrite Epc. exact Ed.
    + destruct (Z.ltb_spec pos c); [lia|]. exact Hloc.
Qed.

(** ** The final sweep *)

(** Level [l] with its last node in [h]: what the counter is then. *)
Record swept (c : Z) (l : nat) : Prop := {
  sw_count : c = w l * 2 ^ Z.of_nat l;
  sw_range : n <= c < n + 2 ^ Z.of_nat l;
  sw_odd : Z.odd (w l) = true;
  sw_below : forall k, (k < l)%nat -> 1 < w k
}.

Lemma swept_le c l : n <= 2 ^ 31 -> (l <= 31)%nat -> swept c l -> c <= 2 ^ 31.
Proof.
  intros Hn Hl [Hc _ _ _]. pose proof (pow2_pos l) as Hp.
  assert (E31 : 2 ^ 31 = 2 ^ Z.of_nat (31 - l) * 2 ^ Z.of_nat l) by (rewrite <- Z.pow_add_r by lia; f_equal; lia).
  assert (w l <= 2 ^ Z.of_nat (31 - l)).
  { unfold w, CalcTreeWidth. apply Z.lt_succ_r. apply Z.div_lt_upper_bound; [exact Hp|]. lia. }
  nia.
Qed.

Lemma mul_next P q r a :
  0 < P -> 0 <= r < P -> q * P + r < a * P < q * P + r + P -> a = q + 1 /\ 0 < r.
Proof.
  intros HP Hr Ha. assert (q < a) by (apply (Z.mul_lt_mono_pos_r P); lia).
  assert (a < q + 2) by (apply (Z.mul_lt_mono_pos_r P); lia). assert (a = q + 1) by lia. subst a. lia.
Qed.

(** The counter after the sweep combined the last node of an odd level with itself. *)
Lemma swept_next c l k s :
  0 < n -> n <= 2 ^ 31 -> (l <= 31)%nat -> processed n s -> swept c l -> w l <> 1 ->
  let c' := c + 2 ^ Z.of_nat l in
  0 < c' <= 2 ^ 31 /\ climbable c' (S l) (inner s) /\ n < c' < n + 2 ^ Z.of_nat (S l) /\
  ((S l <= k)%nat -> mult c' k -> c' / 2 ^ Z.of_nat k = w k /\ w k = n / 2 ^ Z.of_nat k + 1) /\
  exists y, w l = 2 * y + 1 /\ 1 <= y /\ c' / 2 ^ Z.of_nat (S l) = y + 1.
Proof.
  intros Hpos Hn Hl Hs Hsw Hw1 c'. pose proof (swept_le c l Hn Hl Hsw) as Hle.
  destruct Hsw as [Hc Hr Ho Hb]. pose proof (pow2_pos l) as Hp. pose proof (pow2_S l) as HS.
  destruct (odd_true_succ _ Ho) as [y Ey]. rewrite Ey in *.
  assert (Hy : 1 <= y) by nia.
  assert (Hc' : c' = (y + 1) * 2 ^ Z.of_nat (S l)) by (unfold c'; lia).
  assert (Hr' : n < c' < n + 2 ^ Z.of_nat (S l)) by (unfold c'; lia).
  assert (Hw : forall k, (S l <= k)%nat -> mult c' k -> c' / 2 ^ Z.of_nat k = w k /\ w k = n / 2 ^ Z.of_nat k + 1).
  { clear k. intros k Hk Hm. pose proof (mult_eq c' k Hm) as Ek. pose proof (pow2_pos k) as Hpk.
    assert (Hlk : 2 ^ Z.of_nat (S l) <= 2 ^ Z.of_nat k) by (apply Z.pow_le_mono_r; lia).
    assert (Hnm : ~ mult n k).
    { intros Hmn. pose proof (mult_eq n k Hmn) as En.
      pose proof (mul_next (2 ^ Z.of_nat k) (n / 2 ^ Z.of_nat k) 0 (c' / 2 ^ Z.of_nat k) Hpk ltac:(lia) ltac:(lia)). lia. }
    pose proof (width_floor n k Hnm) as Ew. unfold w. rewrite Ew. split; [|reflexivity].
    pose proof (Z.div_mod n (2 ^ Z.of_nat k) ltac:(lia)). pose proof (Z.mod_pos_bound n (2 ^ Z.of_nat k) Hpk).
    assert (n mod 2 ^ Z.of_nat k <> 0) by exact Hnm.
    destruct (mul_next (2 ^ Z.of_nat k) (n / 2 ^ Z.of_nat k) (n mod 2 ^ Z.of_nat k) (c' / 2 ^ Z.of_nat k)); lia. }
  assert (Hle' : c' <= 2 ^ 31).
  { destruct (Nat.eq_dec l 31) as [->|Hne]; [exfalso; change (2 ^ Z.of_nat 31) with (2 ^ 31) in *; nia|].
    assert (E31 : 2 ^ 31 = 2 ^ Z.of_nat (31 - S l) * 2 ^ Z.of_nat (S l)) by (rewrite <- Z.pow_add_r by lia; f_equal; lia).
    assert (y + 1 <= 2 ^ Z.of_nat (31 - S l)) by nia. nia. }
  split; [lia|]. split.
  - split.
    + change (Z.of_nat 32) with 32. lia.
    + unfold mult. rewrite Hc'. apply Z.mod_mul. lia.
    + intros j Hj Hm Hoj. destruct (Hw j ltac:(lia) Hm) as [E1 E2]. rewrite E1, E2 in *.
      rewrite (pr_inner _ _ Hs j) by (try lia; rewrite Z.odd_add in Hoj; now destruct (Z.odd (n / _))).
      f_equal. lia.
    + intros j Hj Hm. destruct (Hw j Hj Hm) as [-> _]. lia.
  - split; [exact Hr'|]. split; [apply Hw|]. exists y. repeat split; auto.
    rewrite Hc'. apply Z.div_mul. lia.
Qed.

(** After the climb the counter is again the one of a level with its last node in [h]. *)
Lemma swept_climbed c l l' s :
  0 < n -> n <= 2 ^ 31 -> (l <= 31)%nat -> processed n s -> swept c l -> w l <> 1 ->
  let c' := c + 2 ^ Z.of_nat l in
  (S l <= l')%nat -> mult c' l' -> Z.odd (c' / 2 ^ Z.of_nat l') = true ->
  swept c' l' /\ c' / 2 ^ Z.of_nat l' = w l'.
Proof.
  intros Hpos Hn Hl Hs Hsw Hw1 c' Hl' Hm Ho.
  destruct (swept_next c l l' s Hpos Hn Hl Hs Hsw Hw1) as (Hc' & Hcl & Hr & Hw & y & Ey & Hy & _). fold c' in Hc', Hcl, Hr, Hw.
  destruct (Hw Hl' Hm) as [E1 E2]. split; [|exact E1]. split.
  - rewrite <- E1. now apply mult_eq.
  - assert (2 ^ Z.of_nat (S l) <= 2 ^ Z.of_nat l') by (apply Z.pow_le_mono_r; lia). lia.
  - now rewrite <- E1.
  - intros k Hk. destruct (Nat.lt_trichotomy k l) as [Hkl | [-> | Hkl]].
    + now apply (sw_below _ _ Hsw).
    + lia.
    + pose proof (mult_le _ l' k ltac:(lia) Hm) as Hmk. pose proof (odd_below _ l' k Hm Hk) as Hok.
      destruct (swept_next c l k s Hpos Hn Hl Hs Hsw Hw1) as (_ & _ & _ & Hwk & _). fold c' in Hwk.
      destruct (Hwk ltac:(lia) Hmk) as [Ek _]. rewrite Ek in Hok. destruct (odd_false_even _ Hok) as [z Ez].
      pose proof (mult_eq _ _ Hmk) as Ec. pose proof (pow2_pos k). rewrite Ek, Ez in Ec.
      assert (0 < z) by nia. lia.
Qed.

(** A level of one node with wider levels below is the top. *)
Definition is_height (l : nat) : Prop := w l = 1 /\ forall k, (k < l)%nat -> 1 < w k.

Lemma count_top l : (w l * 2 ^ Z.of_nat l =? 1 << Z.of_nat l) = (w l =? 1).
Proof.
  rewrite Z.shiftl_1_l. pose proof (pow2_pos l).
  destruct (Z.eqb_spec (w l * 2 ^ Z.of_nat l) (2 ^ Z.of_nat l)), (Z.eqb_spec (w l) 1); try reflexivity; nia.
Qed.

(** What the sweep knows of the branch: [ml] and [b0] are the values of
    [matchlevel] and of the branch before it. *)
Definition branch_known (ml : Z) (b0 : list U) : Prop :=
  0 <= pos < n /\
  (forall k, Z.odd (n / 2 ^ Z.of_nat k) = true ->
     (ml = Z.of_nat k <-> pos / 2 ^ Z.of_nat k = n / 2 ^ Z.of_nat k - 1)) /\
  (forall k, ml = Z.of_nat k -> b0 = sibs k).

Definition on_sweep (b0 : list U) (l : nat) (m : bool) (s : locals) : Prop :=
  (pos / 2 ^ Z.of_nat l = w l - 1 /\ m = true /\ branch s = sibs l) \/
  (pos / 2 ^ Z.of_nat l <> w l - 1 /\ m = false /\ branch s = b0).

(** At the top the branch is complete. *)
Lemma on_sweep_top b0 c l m s :
  0 <= pos < n -> swept c l -> w l = 1 -> on_sweep b0 l m s -> branch s = sibs l.
Proof.
  intros Hpn Hsw E1 [(_ & _ & Hb) | (Hne & _)]; [exact Hb|]. exfalso. apply Hne. rewrite E1.
  apply Z.div_small. pose proof (sw_count _ _ Hsw). pose proof (sw_range _ _ Hsw). rewrite E1 in *. lia.
Qed.

(** Combining the last node of an odd level with itself. *)
Lemma on_sweep_double b0 c l m s y :
  0 <= pos < n -> swept c l -> w l = 2 * y + 1 -> (c + 2 ^ Z.of_nat l) / 2 ^ Z.of_nat (S l) = y + 1 ->
  on_sweep b0 l m s ->
  on_branch b0 (c + 2 ^ Z.of_nat l) (S l) m (if m then push_back (N l (w l - 1)) s else s).
Proof.
  intros Hpn Hsw Ey Ey' Hon. unfold on_branch, covered, on_sweep in *. rewrite Ey', div_pow2_S. rewrite Ey in Hon.
  destruct Hon as [(Hp1 & -> & Hb) | (Hp1 & -> & Hb)].
  - left. replace (2 * y + 1 - 1) with (2 * y) in Hp1 by lia. rewrite Hp1, div2_even.
    repeat split; [lia|]. cbn [push_back branch]. rewrite Hb, sibs_S. do 2 f_equal.
    rewrite (sibling_at l _ Hp1), even_double. cbv zeta. destruct (Z.ltb_spec (2 * y + 1) (w l)); [lia|].
    f_equal. lia.
  - right. refine (conj _ (conj eq_refl Hb)). intros Hd. pose proof (pow2_pos l) as Hp.
    pose proof (sw_range _ _ Hsw). pose proof (sw_count _ _ Hsw).
    assert (pos / 2 ^ Z.of_nat l < w l) by (apply Z.div_lt_upper_bound; lia).
    pose proof (Z.div_mod (pos / 2 ^ Z.of_nat l) 2 ltac:(lia)).
    pose proof (Z.mod_pos_bound (pos / 2 ^ Z.of_nat l) 2 ltac:(lia)). lia.
Qed.

(** The climb of the sweep keeps the branch. *)
Lemma on_sweep_climb b0 c l m m' s s1 s2 l' h fuel :
  0 < n -> n <= 2 ^ 31 -> (l <= 31)%nat -> processed n s -> swept c l -> w l <> 1 ->
  branch_known (matchlevel s1) b0 -> climbable (c + 2 ^ Z.of_nat l) (S l) (inner s1) ->
  on_branch b0 (c + 2 ^ Z.of_nat l) (S l) m s1 ->
  climb false true fuel (c + 2 ^ Z.of_nat l) (S l) (N (S l) ((c + 2 ^ Z.of_nat l) / 2 ^ Z.of_nat (S l) - 1)) m s1
    = Some (l', h, m', s2) ->
  (c + 2 ^ Z.of_nat l) / 2 ^ Z.of_nat l' = w l' -> on_sweep b0 l' m' s2.
Proof.
  intros Hpos Hn Hl Hs Hsw E1 (_ & Hml & Hb0) Hcl Hon E Ew.
  assert (Hres : on_branch b0 (c + 2 ^ Z.of_nat l) l' m' s2).
  { refine (climb_branch b0 false fuel _ (S l) m s1 _ Hcl _ Hb0 Hon E). intros k Hk Hmk Hok.
    destruct (swept_next c l k s Hpos Hn Hl Hs Hsw E1) as (_ & _ & _ & Hwk & _).
    destruct (Hwk Hk Hmk) as [E1k E2k]. rewrite (Hml k).
    - rewrite E1k, E2k. lia.
    - rewrite E1k, E2k, Z.odd_add in Hok. now destruct (Z.odd (n / _)). }
  unfold on_branch, covered in Hres. rewrite Ew in Hres. exact Hres.
Qed.

Lemma sweep_top pbranch fuel : forall b0 ml c l m s,
  0 < n -> n <= 2 ^ 31 -> processed n s -> swept c l -> (l <= 31)%nat -> (32 <= fuel + l)%nat ->
  matchlevel s = ml ->
  exists l' s', sweep pbranch fuel c l (N l (w l - 1)) m s = Some (N l' 0, s') /\ is_height l' /\
    mutated s' = mutated s /\
    (pbranch = true -> branch_known ml b0 -> on_sweep b0 l m s -> branch s' = sibs l').
Proof.
  induction fuel as [|fuel IH]; intros b0 ml c l m s Hpos Hn Hs Hsw Hl Hf Eml; [lia|].
  cbn [sweep]. pose proof (count_top l) as Ect. rewrite <- (sw_count _ _ Hsw) in Ect. rewrite Ect.
  pose proof (pow2_pos l) as Hp. destruct (Z.eqb_spec (w l) 1) as [E1|E1].
  - exists l, s. rewrite E1 at 1.
    refine (conj eq_refl (conj (conj E1 (sw_below _ _ Hsw)) (conj eq_refl _))).
    intros _ [Hpn _] Hon. exact (on_sweep_top b0 c l m s Hpn Hsw E1 Hon).
  - destruct (swept_next c l 0 s Hpos Hn Hl Hs Hsw E1) as (Hc' & Hcl & Hr & _ & y & Ey & Hy & Ey').
    rewrite Z.shiftl_1_l. unfold u32_add. rewrite Z.mod_small by lia.
    set (s1 := if pbranch && m then push_back (N l (w l - 1)) s else s).
    assert (S1 : inner s1 = inner s /\ matchlevel s1 = ml /\ mutated s1 = mutated s)
      by (unfold s1; destruct (pbranch && m); auto). destruct S1 as (Si & Sm & Su).
    assert (EH : H (N l (w l - 1)) (N l (w l - 1)) = N (S l) ((c + 2 ^ Z.of_nat l) / 2 ^ Z.of_nat (S l) - 1)).
    { rewrite Ey'. replace (y + 1 - 1) with y by lia. rewrite node_last by lia. do 2 f_equal; lia. }
    rewrite EH. rewrite <- Si in Hcl.
    destruct (climb_root false pbranch (LEVELS - S l) _ (S l) m s1 Hcl ltac:(unfold LEVELS; lia))
      as (l' & m' & s2 & Ec & Hl' & Hm' & Ho' & Ti & Tm & Tu & _).
    destruct (swept_climbed c l l' s Hpos Hn Hl Hs Hsw E1 ltac:(lia) Hm' Ho') as [Hsw' Ew'].
    rewrite Ec, Ew'. rewrite orb_false_r in Tu.
    assert (Hs2 : processed n s2)
      by (destruct Hs as [A1 A2 A3]; split; rewrite ?Ti, ?Si, ?Tu, ?Su; assumption).
    destruct (IH b0 ml _ l' m' s2 Hpos Hn Hs2 Hsw' ltac:(lia) ltac:(lia) ltac:(congruence))
      as (l'' & s3 & E & Hh & Um & Ub).
    exists l'', s3. refine (conj E (conj Hh (conj _ _))); [congruence|].
    intros -> Hk Hon. apply (Ub eq_refl Hk). rewrite <- Sm in Hk.
    refine (on_sweep_climb b0 c l m m' s s1 s2 l' _ _ Hpos Hn Hl Hs Hsw E1 Hk Hcl _ Ec Ew').
    exact (on_sweep_double b0 c l m s y (proj1 Hk) Hsw Ey Ey' Hon).
Qed.

Lemma skip_levels_odd fuel : forall l,
  0 < n -> n <= 2 ^ 31 -> mult n l -> (32 <= fuel + l + 1)%nat ->
  exists l', skip_levels fuel n l = Some l' /\ (l' <= 31)%nat /\ mult n l' /\ Z.odd (n / 2 ^ Z.of_nat l') = true.
Proof.
  induction fuel as [|fuel IH]; intros l Hpos Hn Hm Hf; cbn [skip_levels]; rewrite bit_set_odd;
    destruct (Z.odd (n / 2 ^ Z.of_nat l)) eqn:Ho.
  1, 3: exists l; refine (conj eq_refl (conj _ (conj Hm Ho)));
    pose proof (mult_lt n l 32 Hm ltac:(change (Z.of_nat 32) with 32; lia)); lia.
  - pose proof (mult_lt n (S l) 32 (mult_S _ _ Hm Ho) ltac:(change (Z.of_nat 32) with 32; lia)). lia.
  - apply IH; auto using mult_S. lia.
Qed.

Lemma swept_start l : 0 < n -> mult n l -> Z.odd (n / 2 ^ Z.of_nat l) = true -> swept n l /\ w l = n / 2 ^ Z.of_nat l.
Proof.
  intros Hpos Hm Ho. pose proof (width_mult n l Hm) as Ew. split; [|exact Ew].
  split; unfold w; rewrite ?Ew; auto using mult_eq.
  - pose proof (pow2_pos l). lia.
  - intros k Hk. rewrite (width_mult n k) by (apply (mult_le _ l); [lia | exact Hm]).
    destruct (odd_false_even _ (odd_below n l k Hm Hk)) as [z Ez]. rewrite Ez.
    pose proof (mult_eq n k (mult_le _ l k ltac:(lia) Hm)) as En. rewrite Ez in En. pose proof (pow2_pos k).
    assert (0 < z) by nia. lia.
Qed.

(** The whole computation: for up to 2^31 leaves it returns the top node, the
    flag of equal complete siblings and the siblings on the way up. *)
Lemma MerkleComputation_top pbranch :
  0 < n -> n <= 2 ^ 31 ->
  exists l r b mu, MerkleComputation leaves pos pbranch = Some (r, mu, b) /\ is_height l /\ r = N l 0 /\
    (mu = true <-> duplicates n) /\ (pbranch = true -> 0 <= pos < n -> b = sibs l).
Proof.
  intros Hpos Hn.
  rewrite MerkleComputation_nonempty by (intros El; unfold n in Hpos; rewrite El in Hpos; cbn in Hpos; lia).
  set (s0 := mkLocals _ _ _ _).
  destruct (add_leaves_inv pbranch pos
    (fun c s => processed c s /\ (pbranch = true -> 0 <= pos < n -> located c s)) 0 s0) as (s & Es & Hs & Hloc).
  { intros c s Hc [Hs Hloc]. destruct (add_leaf_processed pbranch pos c s Hc Hn Hs) as (s' & E & Hs').
    exists s'. refine (conj E (conj Hs' _)). intros Hb Hpn. subst pbranch.
    exact (add_leaf_located c s s' Hc Hn (proj1 Hpn) Hs (Hloc eq_refl Hpn) E). }
  { lia. }
  { split; [exact processed_0|]. intros _ Hpn. unfold located. change (Z.of_nat 0) with 0.
    destruct (Z.ltb_spec pos 0); [lia | split; reflexivity]. }
  change (Z.of_nat 0) with 0 in Es. cbn [skipn] in Es. rewrite Es.
  destruct (skip_levels_odd (LEVELS - 1) 0 Hpos Hn (mult_0 n) ltac:(unfold LEVELS; lia)) as (l & -> & Hl & Hm & Ho).
  destruct (swept_start l Hpos Hm Ho) as [Hsw Ew].
  rewrite (pr_inner _ _ Hs l ltac:(lia) Ho), <- Ew.
  destruct (sweep_top pbranch LEVELS (branch s) (matchlevel s) n l (matchlevel s =? Z.of_nat l) s
              Hpos Hn Hs Hsw Hl ltac:(unfold LEVELS; lia) eq_refl) as (l' & s' & -> & Hh & Hmu & Hb).
  exists l', (N l' 0), (branch s'), (mutated s'). refine (conj eq_refl (conj Hh (conj eq_refl (conj _ _)))).
  - rewrite Hmu. apply (pr_mutated _ _ Hs).
  - intros Hbt Hpn. specialize (Hloc Hbt Hpn). apply (Hb Hbt).
    + split; [exact Hpn|]. split; intros k Hk; [now apply located_level | now apply (located_branch n)].
    + unfold on_sweep. rewrite Ew. destruct (Z.eqb_spec (matchlevel s) (Z.of_nat l)) as [Eml|Eml].
      * left. refine (conj _ (conj eq_refl (located_branch n s l Hloc Eml))). now apply (located_level n s l Hloc Ho).
      * right. refine (conj _ (conj eq_refl eq_refl)). intros Hx. apply Eml. now apply (located_level n s l Hloc Ho).
Qed.

(** ** The branch leads back to the root *)

Lemma CalcHash_up l p : 0 <= p ->
  N (S l) (p / 2) = if Z.even p then H (N l p) (if p + 1 <? w l then N l (p + 1) else N l p)
                    else if p <? w l then H (N l (p - 1)) (N l p) else N (S l) (p / 2).
Proof.
  intros Hp. destruct (Z.even p) eqn:He.
  - rewrite Z.even_spec in He. destruct He as [y ->]. rewrite div2_even. reflexivity.
  - assert (Ho : Z.odd p = true) by (rewrite <- Z.negb_even, He; reflexivity).
    destruct (odd_true_succ _ Ho) as [y ->]. rewrite div2_odd.
    destruct (Z.ltb_spec (2 * y + 1) (w l)); [|reflexivity]. rewrite node_pair by lia. do 2 f_equal; lia.
Qed.

Lemma width_half l p : 0 <= n -> p < w l -> p / 2 < w (S l).
Proof.
  intros Hn Hp. unfold w. rewrite width_S by exact Hn. fold (w l).
  pose proof (Z.div_mod p 2 ltac:(lia)). pose proof (Z.mod_pos_bound p 2 ltac:(lia)).
 pose proof (Z.div_mod (w l + 1) 2 ltac:(lia)).
  pose proof (Z.mod_pos_bound (w l + 1) 2 ltac:(lia)). lia.
Qed.

Lemma branch_up d : forall l,
  0 <= pos -> pos / 2 ^ Z.of_nat l < w l ->
  ComputeMerkleRootFromBranch (N l (pos / 2 ^ Z.of_nat l)) (map (sibling leaves pos) (seq l d)) (pos / 2 ^ Z.of_nat l)
  = N (l + d) (pos / 2 ^ Z.of_nat (l + d)).
Proof.
  induction d as [|d IH]; intros l Hpos Hw; [now rewrite Nat.add_0_r|].
  cbn [seq map ComputeMerkleRootFromBranch]. rewrite Z.shiftr_div_pow2 by lia. change (2 ^ 1) with 2.
  pose proof (pow2_pos l) as Hp2. set (p := pos / 2 ^ Z.of_nat l) in *.
  assert (Hp : 0 <= p) by (apply Z.div_pos; lia).
  assert (Hstep : (if negb (p .& 1 =? 0) then H (sibling leaves pos l) (N l p) else H (N l p) (sibling leaves pos l))
      = N (S l) (p / 2)).
  { rewrite (CalcHash_up l p Hp). assert (Ep : p .& 1 = p mod 2) by exact (Z.land_ones p 1 ltac:(lia)).
    rewrite Ep, Zmod_even, (sibling_at l p eq_refl). destruct (Z.even p); cbn [negb Z.eqb].
    - change (negb true) with false. cbv iota zeta. destruct (p + 1 <? w l); reflexivity.
    - destruct (Z.ltb_spec p (w l)); [|lia]. cbv iota zeta.
      destruct (Z.ltb_spec (p - 1) (w l)); [reflexivity | lia]. }
  rewrite Hstep. replace (p / 2) with (pos / 2 ^ Z.of_nat (S l)) by apply div_pow2_S.
  rewrite IH; [|exact Hpos|].
  - now replace (l + S d)%nat with (S l + d)%nat by lia.
  - rewrite div_pow2_S. apply width_half; [unfold n; lia | exact Hw].
Qed.

(** ** The height *)

Lemma is_height_unique l l' : is_height l -> is_height l' -> l = l'.
Proof.
  intros [H1 B1] [H2 B2]. destruct (Nat.lt_trichotomy l l') as [Hl | [Hl | Hl]]; [|exact Hl|].
  - specialize (B2 l Hl). lia.
  - specialize (B1 l' Hl). lia.
Qed.

Lemma is_height_le l : 0 < n -> n <= 2 ^ 31 -> is_height l -> (l <= 31)%nat.
Proof.
  intros Hpos Hn [_ Hb]. apply Nat.nlt_ge. intros Hl. specialize (Hb 31%nat Hl). unfold w, CalcTreeWidth in Hb.
  change (2 ^ Z.of_nat 31) with (2 ^ 31) in Hb.
  assert ((n + 2 ^ 31 - 1) / 2 ^ 31 < 2) by (apply Z.div_lt_upper_bound; lia). lia.
Qed.

Lemma pos_height l : 0 <= pos < n -> is_height l -> pos / 2 ^ Z.of_nat l = 0.
Proof.
  intros Hpos [Hl _]. apply Z.div_small. unfold w, CalcTreeWidth in Hl. pose proof (pow2_pos l) as Hp.
  pose proof (Z.div_mod (n + 2 ^ Z.of_nat l - 1) (2 ^ Z.of_nat l) ltac:(lia)) as E.
  pose proof (Z.mod_pos_bound (n + 2 ^ Z.of_nat l - 1) (2 ^ Z.of_nat l) Hp). rewrite Hl in E. lia.
Qed.

End Merkle.

Arguments bit_set : clear implicits.

Section Results.
Context {U : Type} (zero : U) (ueq : U -> U -> bool) (H : U -> U -> U).
Context (ueq_spec : forall x y, ueq x y = true <-> x = y).

(** ** Main results on MerkleComputation *)

(** C25: For up to 2^31 leaves the one-pass computation never leaves its array of 32
    hashes and returns the root of the tree that [CPartialMerkleTree::CalcHash]
    defines recursively, and it raises the mutation flag exactly when two sibling
    complete subtrees have the same hash. *)
Theorem ComputeMerkleRoot_correct leaves :
  let n := Z.of_nat (length leaves) in
  0 < n <= 2 ^ 31 ->
  exists l mutated, is_height leaves l /\
    ComputeMerkleRoot zero ueq H leaves = Some (CalcHash zero H leaves l 0, mutated) /\
    (mutated = true <-> duplicates zero H leaves n).
Proof.
  intros n [Hpos Hn]. unfold ComputeMerkleRoot.
  destruct (MerkleComputation_top zero ueq H ueq_spec leaves (2 ^ 32 - 1) false Hpos Hn)
    as (l & r & b & mu & -> & Hh & -> & Hm & _).
  exists l, mu. auto.
Qed.

(** The branch of a leaf, folded from the leaf with the bits of its position,
    gives the root: [ComputeMerkleRootFromBranch] inverts [ComputeMerkleBranch]. *)
Theorem ComputeMerkleBranch_correct leaves pos :
  0 <= pos < Z.of_nat (length leaves) -> Z.of_nat (length leaves) <= 2 ^ 31 ->
  exists root mutated branch,
    ComputeMerkleRoot zero ueq H leaves = Some (root, mutated) /\
    ComputeMerkleBranch zero ueq H leaves pos = Some branch /\
    ComputeMerkleRootFromBranch H (nth (Z.to_nat pos) leaves zero) branch pos = root.
Proof.
  intros Hp Hn. assert (Hpos : 0 < Z.of_nat (length leaves)) by lia.
  unfold ComputeMerkleRoot, ComputeMerkleBranch.
  destruct (MerkleComputation_top zero ueq H ueq_spec leaves (2 ^ 32 - 1) false Hpos Hn)
    as (l & r & b & mu & -> & Hh & -> & _ & _).
  destruct (MerkleComputation_top zero ueq H ueq_spec leaves pos true Hpos Hn)
    as (l' & r' & b' & mu' & -> & Hh' & -> & _ & Hb).
  exists (CalcHash zero H leaves l 0), mu, b'. refine (conj eq_refl (conj eq_refl _)).
  rewrite (Hb eq_refl Hp), (is_height_unique leaves _ _ Hh' Hh).
  pose proof (branch_up zero H leaves pos l 0 ltac:(lia)) as E.
  change (2 ^ Z.of_nat 0) with 1 in E. rewrite Z.div_1_r, Nat.add_0_l in E.
  unfold siblings. cbn [CalcHash] in E. rewrite E.
  - f_equal. exact (pos_height leaves pos l Hp Hh).
  - unfold CalcTreeWidth. change (2 ^ Z.of_nat 0) with 1. rewrite Z.div_1_r. lia.
Qed.

End Results.



End Merkle.
