(* ===== verification/MerkleBlock.v ===== *)
(** * src/merkleblock.{h,cpp}: partial Merkle trees

    [CPartialMerkleTree] encodes the transactions of a block that a client asked
    for, with the hashes needed to recompute the Merkle root: a depth-first
    traversal writes a bit per node and a hash per node it does not descend into;
    [ExtractMatches] reads them back.  [fBad] marks malformed input, the result
    is then the zero hash.

    [CalcTreeWidth] and [CalcHash] are those of [Merkle]; positions and counts
    are [unsigned int] in the code and stay below 2^31 in the trees that
    [ExtractMatches] accepts, so that they are integers here. *)

From Stdlib Require Import ZArith List Lia Bool Arith.
From S2P Require Import Prelude Sha256 Merkle.
Import ListNotations.
Open Scope Z_scope.

Module MerkleBlock.
Import Merkle.

Definition MAX_BLOCK_SIZE_CURRENT : Z := 2000000.

Section Partial.
Context {U : Type} (zero : U) (H : U -> U -> U).

Record CPartialMerkleTree : Type := mkTree {
  nTransactions : Z; vBits : list bool; vHash : list U; fBad : bool
}.

(** ** Encoding *)

(** [fParentOfMatch]: some [vMatch[p]] with [pos << height <= p < (pos + 1) << height] and [p < nTransactions]. *)
Definition parent_of_match (n : Z) (vMatch : list bool) (height : nat) (pos : Z) : bool :=
  existsb (fun i => let p := (pos << Z.of_nat height) + Z.of_nat i in (p <? n) && nth (Z.to_nat p) vMatch false)
    (seq 0 (2 ^ height)).

Fixpoint TraverseAndBuild (vTxid : list U) (vMatch : list bool) (height : nat) (pos : Z)
    (t : CPartialMerkleTree) : CPartialMerkleTree :=
  let n := nTransactions t in
  let fParentOfMatch := parent_of_match n vMatch height pos in
  let t := mkTree n (vBits t ++ [fParentOfMatch]) (vHash t) (fBad t) in
  match height with
  | O => mkTree n (vBits t) (vHash t ++ [CalcHash zero H vTxid height pos]) (fBad t)
  | S height' =>
      if fParentOfMatch then
        let t := TraverseAndBuild vTxid vMatch height' (pos * 2) t in
        if pos * 2 + 1 <? CalcTreeWidth n height'
        then TraverseAndBuild vTxid vMatch height' (pos * 2 + 1) t else t
      else mkTree n (vBits t) (vHash t ++ [CalcHash zero H vTxid height pos]) (fBad t)
  end.

(** [while (CalcTreeWidth(nHeight) > 1) nHeight++;] (32 turns are enough for a [uint32_t]). *)
Fixpoint tree_height (fuel : nat) (n : Z) (nHeight : nat) : nat :=
  match fuel with
  | O => nHeight
  | S fuel => if 1 <? CalcTreeWidth n nHeight then tree_height fuel n (S nHeight) else nHeight
  end.

(** The constructor from the transaction ids and the matches. *)
Definition build (vTxid : list U) (vMatch : list bool) : CPartialMerkleTree :=
  let n := Z.of_nat (length vTxid) in
  TraverseAndBuild vTxid vMatch (tree_height 32 n 0) 0 (mkTree n [] [] false).

(** ** Decoding *)

(** The arguments by reference [nBitsUsed], [nHashUsed], [vMatch], and [fBad]. *)
Record cursor : Type := mkCursor { nBitsUsed : nat; nHashUsed : nat; matches : list U; bad : bool }.

Fixpoint TraverseAndExtract (t : CPartialMerkleTree) (height : nat) (pos : Z) (c : cursor) : U * cursor :=
  if (length (vBits t) <=? nBitsUsed c)%nat
  then (zero, mkCursor (nBitsUsed c) (nHashUsed c) (matches c) true)
  else
    let fParentOfMatch := nth (nBitsUsed c) (vBits t) false in
    let c := mkCursor (S (nBitsUsed c)) (nHashUsed c) (matches c) (bad c) in
    let leaf :=
      if (length (vHash t) <=? nHashUsed c)%nat
      then (zero, mkCursor (nBitsUsed c) (nHashUsed c) (matches c) true)
      else
        let hash := nth (nHashUsed c) (vHash t) zero in
        (hash, mkCursor (nBitsUsed c) (S (nHashUsed c))
                 (if (height =? 0)%nat && fParentOfMatch then matches c ++ [hash] else matches c) (bad c)) in
    match height with
    | O => leaf
    | S height' =>
        if fParentOfMatch then
          let '(left_, c) := TraverseAndExtract t height' (pos * 2) c in
          let '(right_, c) :=
            if pos * 2 + 1 <? CalcTreeWidth (nTransactions t) height'
            then TraverseAndExtract t height' (pos * 2 + 1) c else (left_, c) in
          (H left_ right_, c)
        else leaf
    end.

(** The root and the matches; the root is zero for malformed trees. *)
Definition ExtractMatches (t : CPartialMerkleTree) : U * list U :=
  if nTransactions t =? 0 then (zero, [])
  else if MAX_BLOCK_SIZE_CURRENT / 60 <? nTransactions t then (zero, [])
  else if nTransactions t <? Z.of_nat (length (vHash t)) then (zero, [])
  else if (length (vBits t) <? length (vHash t))%nat then (zero, [])
  else
    let nHeight := tree_height 32 (nTransactions t) 0 in
    let '(hashMerkleRoot, c) := TraverseAndExtract t nHeight 0 (mkCursor 0 0 [] (fBad t)) in
    if bad c then (zero, matches c)
    else if negb ((nBitsUsed c + 7) / 8 =? (length (vBits t) + 7) / 8)%nat then (zero, matches c)
    else if negb (nHashUsed c =? length (vHash t))%nat then (zero, matches c)
    else (hashMerkleRoot, matches c).

(** ** The flag bits as bytes *)

(** [vBytes[p / 8] |= vBits[p] << (p % 8)] over [vBytes] of [(vBits.size() + 7) / 8] zeros, and back. *)
Definition bits_to_bytes (bits : list bool) : list Z :=
  fold_left (fun bytes p => upd (p / 8) (nth (p / 8) bytes 0 .| (Z.b2z (nth p bits false) << Z.of_nat (p mod 8))) bytes)
    (seq 0 (length bits)) (repeat 0 ((length bits + 7) / 8)).
Definition bytes_to_bits (bytes : list Z) : list bool :=
  map (fun p => negb (nth (p / 8) bytes 0 .& (1 << Z.of_nat (p mod 8)) =? 0)) (seq 0 (length bytes * 8)).

(** What a receiver has after serialization: the same tree with the bits padded. *)
Definition transmit (t : CPartialMerkleTree) : CPartialMerkleTree :=
  mkTree (nTransactions t) (bytes_to_bits (bits_to_bytes (vBits t))) (vHash t) false.

(** ** Segments of the leaves *)

(** The elements whose flag is set. *)
Fixpoint select {A : Type} (flags : list bool) (l : list A) : list A :=
  match flags, l with
  | f :: flags, x :: l => if f then x :: select flags l else select flags l
  | _, _ => []
  end.

(** The part of a list below node [pos] of level [height]. *)
Definition segment {A : Type} (l : list A) (height : nat) (pos : Z) : list A :=
  firstn (2 ^ height) (skipn (Z.to_nat (pos * 2 ^ Z.of_nat height)) l).

(** ** Segments *)

Lemma pow2_nat h : Z.of_nat (2 ^ h) = 2 ^ Z.of_nat h.
Proof. now rewrite Nat2Z.inj_pow. Qed.

Lemma firstn_split {A} a b (l : list A) : firstn (a + b) l = firstn a l ++ firstn b (skipn a l).
Proof.
  revert l. induction a as [|a IH]; intros [|x l]; cbn [Nat.add firstn skipn app]; try reflexivity.
  - now rewrite firstn_nil.
  - now rewrite IH.
Qed.

Lemma segment_S {A} (l : list A) h p :
  0 <= p -> segment l (S h) p = segment l h (p * 2) ++ segment l h (p * 2 + 1).
Proof.
  intros Hp. unfold segment. rewrite <- !pow2_nat. rewrite Nat.pow_succ_r'.
  replace (2 * 2 ^ h)%nat with (2 ^ h + 2 ^ h)%nat by lia. rewrite firstn_split, skipn_skipn.
  f_equal; do 2 f_equal; lia.
Qed.

Lemma segment_beyond {A} (l : list A) h p :
  0 <= p -> CalcTreeWidth (Z.of_nat (length l)) h <= p -> segment l h p = [].
Proof.
  intros Hp Hw. unfold segment. rewrite skipn_all2; [apply firstn_nil|].
  unfold CalcTreeWidth in Hw. pose proof (pow2_pos h) as H2. set (q := 2 ^ Z.of_nat h) in *.
  pose proof (Z.div_mod (Z.of_nat (length l) + q - 1) q ltac:(lia)).
  pose proof (Z.mod_pos_bound (Z.of_nat (length l) + q - 1) q H2). nia.
Qed.

Lemma segment_0 {A} (l : list A) p d : 0 <= p < Z.of_nat (length l) -> segment l 0 p = [nth (Z.to_nat p) l d].
Proof.
  intros Hp. unfold segment. change (2 ^ Z.of_nat 0) with 1. rewrite Z.mul_1_r. change (2 ^ 0)%nat with 1%nat.
  assert (Hk : (Z.to_nat p < length l)%nat) by lia. revert Hk. generalize (Z.to_nat p). clear.
  induction l as [|x l IH]; intros k Hk; cbn [length] in Hk; [lia|].
  destruct k as [|k]; [reflexivity|]. cbn [skipn nth]. apply IH. lia.
Qed.

Lemma segment_length {A B} (l : list A) (m : list B) h p :
  length l = length m -> length (segment l h p) = length (segment m h p).
Proof. intros E. unfold segment. now rewrite !length_firstn, !length_skipn, E. Qed.

Lemma segment_nonempty {A} (l : list A) h p :
  0 <= p < CalcTreeWidth (Z.of_nat (length l)) h -> (1 <= length (segment l h p))%nat.
Proof.
  intros [Hp Hw]. unfold segment. rewrite length_firstn, length_skipn.
  assert (1 <= 2 ^ h)%nat by (apply Nat.neq_0_lt_0, Nat.pow_nonzero; lia).
  unfold CalcTreeWidth in Hw. pose proof (pow2_pos h) as H2. set (q := 2 ^ Z.of_nat h) in *.
  assert ((p + 1) * q <= Z.of_nat (length l) + q - 1).
  { pose proof (Z.div_mod (Z.of_nat (length l) + q - 1) q ltac:(lia)).
    pose proof (Z.mod_pos_bound (Z.of_nat (length l) + q - 1) q H2). nia. }
  nia.
Qed.

(** The whole list is below the top. *)
Lemma segment_top {A} (l : list A) h : CalcTreeWidth (Z.of_nat (length l)) h = 1 -> segment l h 0 = l.
Proof.
  intros Hw. unfold segment. rewrite Z.mul_0_l. cbn [Z.to_nat skipn]. apply firstn_all2.
  unfold CalcTreeWidth in Hw. pose proof (pow2_pos h) as H2. pose proof (pow2_nat h) as E. set (q := 2 ^ Z.of_nat h) in *.
  pose proof (Z.div_mod (Z.of_nat (length l) + q - 1) q ltac:(lia)).
  pose proof (Z.mod_pos_bound (Z.of_nat (length l) + q - 1) q H2). nia.
Qed.

Lemma width_child n h p :
  0 <= n -> 0 <= p < CalcTreeWidth n (S h) -> 0 <= p * 2 < CalcTreeWidth n h.
Proof.
  intros Hn [Hp Hw]. rewrite width_S in Hw by exact Hn.
  pose proof (Z.div_mod (CalcTreeWidth n h + 1) 2 ltac:(lia)).
  pose proof (Z.mod_pos_bound (CalcTreeWidth n h + 1) 2 ltac:(lia)). lia.
Qed.

Lemma select_app {A} (f1 f2 : list bool) (l1 l2 : list A) :
  length f1 = length l1 -> select (f1 ++ f2) (l1 ++ l2) = select f1 l1 ++ select f2 l2.
Proof.
  revert l1. induction f1 as [|f f1 IH]; intros [|x l1] Hl; try discriminate; [reflexivity|].
  cbn [app select]. injection Hl as Hl. rewrite IH by exact Hl. now destruct f.
Qed.

Lemma select_none {A} (f : list bool) (l : list A) : existsb (fun b => b) f = false -> select f l = [].
Proof.
  revert l. induction f as [|b f IH]; intros [|x l] Hf; try reflexivity.
  cbn [existsb] in Hf. apply orb_false_iff in Hf. destruct Hf as [-> Hf]. cbn [select]. auto.
Qed.

(** ** Encoding below a node *)

Lemma existsb_firstn (l : list bool) m k :
  existsb (fun b => b) (firstn (S k) (skipn m l)) = nth m l false || existsb (fun b => b) (firstn k (skipn (S m) l)).
Proof.
  revert l. induction m as [|m IH]; intros [|x l]; try reflexivity.
  - cbn. now rewrite firstn_nil.
  - cbn [skipn nth]. rewrite !firstn_nil. reflexivity.
  - exact (IH l).
Qed.

Lemma existsb_nth (l : list bool) a k : forall s,
  existsb (fun i => nth (a + i) l false) (seq s k) = existsb (fun b => b) (firstn k (skipn (a + s) l)).
Proof.
  induction k as [|k IH]; intros s; [reflexivity|].
  rewrite existsb_firstn. cbn [seq existsb]. rewrite IH. now rewrite Nat.add_succ_r.
Qed.

Lemma existsb_same {A} (f g : A -> bool) l : (forall x, f x = g x) -> existsb f l = existsb g l.
Proof. intros E. induction l as [|x l IH]; [reflexivity|]. cbn [existsb]. now rewrite E, IH. Qed.

Lemma parent_of_match_segment (vMatch : list bool) h p :
  0 <= p -> parent_of_match (Z.of_nat (length vMatch)) vMatch h p = existsb (fun b => b) (segment vMatch h p).
Proof.
  intros Hp. unfold parent_of_match, segment. rewrite <- (Nat.add_0_r (Z.to_nat (p * _))), <- existsb_nth.
  apply existsb_same. intros i.
  rewrite Z.shiftl_mul_pow2 by lia. pose proof (pow2_pos h).
  assert (0 <= p * 2 ^ Z.of_nat h) by nia.
  rewrite Z2Nat.inj_add, Nat2Z.id by lia. destruct (Z.ltb_spec (p * 2 ^ Z.of_nat h + Z.of_nat i) (Z.of_nat (length vMatch))); [reflexivity|].
  cbn [andb]. symmetry. apply nth_overflow. lia.
Qed.

(** ** The flag bits as bytes *)

Lemma bit_test x j : negb (x .& (1 << Z.of_nat j) =? 0) = Z.testbit x (Z.of_nat j).
Proof. change (bit_set x j = Z.testbit x (Z.of_nat j)). now rewrite bit_set_odd, <- Z.shiftr_div_pow2, <- Z.testbit_odd by lia. Qed.

Lemma bits_to_bytes_inv bits k :
  (k <= length bits)%nat ->
  let bytes := fold_left (fun bytes p => upd (p / 8) (nth (p / 8) bytes 0 .| (Z.b2z (nth p bits false) << Z.of_nat (p mod 8))) bytes)
    (seq 0 k) (repeat 0 ((length bits + 7) / 8)) in
  length bytes = ((length bits + 7) / 8)%nat /\
  forall q, Z.testbit (nth (q / 8) bytes 0) (Z.of_nat (q mod 8)) = (q <? k)%nat && nth q bits false.
Proof.
  induction k as [|k IH]; intros Hk; cbv zeta.
  - cbn [seq fold_left]. rewrite repeat_length. split; [reflexivity|]. intros q.
    destruct (Nat.ltb_spec q 0); [lia|]. cbn [andb].
    assert (E : nth (q / 8) (repeat 0 ((length bits + 7) / 8)) 0 = 0) by apply nth_repeat.
    rewrite E. apply Z.testbit_0_l.
  - destruct (IH ltac:(lia)) as [Hl Hb]. cbv zeta in Hl, Hb. rewrite seq_S, fold_left_app. cbn [fold_left Nat.add].
    set (bytes := fold_left _ (seq 0 k) _) in *. rewrite length_upd. split; [exact Hl|]. intros q.
    assert (Hk8 : (k / 8 < (length bits + 7) / 8)%nat).
    { apply Nat.Div0.div_lt_upper_bound. pose proof (Nat.div_mod_eq (length bits + 7) 8).
      pose proof (Nat.mod_upper_bound (length bits + 7) 8 ltac:(lia)). lia. }
    pose proof (Nat.div_mod_eq q 8) as Eq. pose proof (Nat.div_mod_eq k 8) as Ek.
    pose proof (Nat.mod_upper_bound q 8 ltac:(lia)) as Mq. pose proof (Nat.mod_upper_bound k 8 ltac:(lia)) as Mk.
    specialize (Hb q). destruct (Nat.eq_dec (q / 8) (k / 8)) as [E|E].
    + rewrite E in *. rewrite nth_upd_eq by lia. rewrite Z.lor_spec, Hb, testbit_shiftl.
      destruct (Z.ltb_spec (Z.of_nat (q mod 8)) 0); [lia|].
      destruct (Nat.ltb_spec q k), (Nat.ltb_spec q (S k)); try lia; cbn [andb].
      * destruct (Z.ltb_spec (Z.of_nat (q mod 8) - Z.of_nat (k mod 8)) 0); [apply orb_false_r | lia].
      * assert (q = k) as -> by lia. rewrite Z.sub_diag. cbn [Z.ltb Z.compare orb]. now destruct (nth k bits false).
      * destruct (Z.ltb_spec (Z.of_nat (q mod 8) - Z.of_nat (k mod 8)) 0); [lia|].
        destruct (nth k bits false); cbn [Z.b2z orb]; [|apply Z.testbit_0_l].
        apply Z.bits_above_log2; [lia|]. change (Z.log2 1) with 0. lia.
    + rewrite nth_upd_ne, Hb by lia. destruct (Nat.ltb_spec q k), (Nat.ltb_spec q (S k)); try lia; reflexivity.
Qed.

(** The bits come back, followed by less than eight false ones. *)
Lemma bytes_to_bits_padding bits :
  exists k, bytes_to_bits (bits_to_bytes bits) = bits ++ repeat false k /\
    ((length bits + k + 7) / 8 = (length bits + 7) / 8)%nat.
Proof.
  destruct (bits_to_bytes_inv bits (length bits) ltac:(lia)) as [Hl Hb]. cbv zeta in Hl, Hb.
  fold (bits_to_bytes bits) in Hl, Hb.
  set (k := ((length bits + 7) / 8 * 8 - length bits)%nat). exists k.
  pose proof (Nat.div_mod_eq (length bits + 7) 8). pose proof (Nat.mod_upper_bound (length bits + 7) 8 ltac:(lia)).
  assert (Hk : (length bits + k = (length bits + 7) / 8 * 8)%nat) by (unfold k; lia). split.
  - unfold bytes_to_bits. rewrite Hl, <- Hk.
    rewrite <- (map_nth_seq false (bits ++ repeat false k) (length bits + k)) by (rewrite length_app, repeat_length; reflexivity).
    apply map_ext_in. intros q Hq. apply in_seq in Hq. rewrite bit_test, Hb.
    destruct (Nat.ltb_spec q (length bits)).
    + now rewrite app_nth1 by lia.
    + rewrite app_nth2 by lia. symmetry. apply nth_repeat.
  - rewrite Hk. rewrite Nat.add_comm, Nat.div_add by lia. reflexivity.
Qed.


Lemma skipn_cons_nth {A} (l : list A) k x r d : skipn k l = x :: r -> (k < length l)%nat /\ nth k l d = x /\ skipn (S k) l = r.
Proof.
  revert k. induction l as [|y l IH]; intros [|k] E; cbn [skipn] in E; try discriminate.
  - injection E as -> ->. cbn. repeat split. lia.
  - destruct (IH k E) as (A1 & A2 & A3). cbn [length nth]. repeat split; auto. lia.
Qed.

Lemma skipn_app_length {A} (l : list A) k a b : skipn k l = a ++ b -> skipn (k + length a) l = b.
Proof. intros E. rewrite Nat.add_comm, <- skipn_skipn, E, skipn_app, skipn_all, Nat.sub_diag. reflexivity. Qed.

Context (vTxid : list U).
Let n : Z := Z.of_nat (length vTxid).


Lemma CalcHash_child h p : 0 <= p ->
  CalcHash zero H vTxid (S h) p =
  H (CalcHash zero H vTxid h (p * 2))
    (if p * 2 + 1 <? CalcTreeWidth n h then CalcHash zero H vTxid h (p * 2 + 1) else CalcHash zero H vTxid h (p * 2)).
Proof. intros Hp. cbn [CalcHash]. now rewrite (Z.mul_comm 2 p). Qed.

(** ** The height *)

Lemma tree_height_spec fuel : forall k,
  0 < n <= 2 ^ 31 -> (forall j, (j < k)%nat -> 1 < CalcTreeWidth n j) -> (32 <= fuel + k)%nat ->
  is_height vTxid (tree_height fuel n k).
Proof.
  assert (Hpos : forall k, 0 < n -> 1 <= CalcTreeWidth n k).
  { intros k Hn. unfold CalcTreeWidth. pose proof (pow2_pos k). apply Z.div_le_lower_bound; lia. }
  induction fuel as [|fuel IH]; intros k Hn Hk Hf; cbn [tree_height].
  - exfalso. specialize (Hk 31%nat ltac:(lia)). unfold CalcTreeWidth in Hk. change (2 ^ Z.of_nat 31) with (2 ^ 31) in Hk.
    assert ((n + 2 ^ 31 - 1) / 2 ^ 31 < 2) by (apply Z.div_lt_upper_bound; lia). lia.
  - destruct (Z.ltb_spec 1 (CalcTreeWidth n k)) as [Hw|Hw].
    + apply IH; [exact Hn | | lia]. intros j Hj. destruct (Nat.eq_dec j k) as [->|]; [exact Hw | apply Hk; lia].
    + split; [fold n; specialize (Hpos k ltac:(lia)); lia | exact Hk].
Qed.

(** ** Soundness of decoding *)

Lemma extract_bad t h : forall p c, bad (snd (TraverseAndExtract t h p c)) = false -> bad c = false.
Proof.
  induction h as [|h IH]; intros p c; cbn [TraverseAndExtract];
    (destruct (Nat.leb_spec (length (vBits t)) (nBitsUsed c)); [discriminate|]);
    [|destruct (nth (nBitsUsed c) (vBits t) false)]; cbn [nHashUsed].
  - destruct (length (vHash t) <=? nHashUsed c)%nat; [discriminate | auto].
  - specialize (IH (p * 2) (mkCursor (S (nBitsUsed c)) (nHashUsed c) (matches c) (bad c))) as IHl.
    destruct (TraverseAndExtract t h (p * 2) _) as [l c1]. cbn [snd bad] in IHl.
    destruct (p * 2 + 1 <? CalcTreeWidth (nTransactions t) h).
    + specialize (IH (p * 2 + 1) c1) as IHr. destruct (TraverseAndExtract t h (p * 2 + 1) c1) as [r c2].
      cbn [snd] in *. auto.
    + cbn [snd]. exact IHl.
  - destruct (length (vHash t) <=? nHashUsed c)%nat; [discriminate | auto].
Qed.

(** The nodes that the decoding of [t] from a cursor hashes: height, position, and the
    two children it computed there. *)
Fixpoint extract_nodes (t : CPartialMerkleTree) (height : nat) (pos : Z) (c : cursor) : list (nat * Z * (U * U)) :=
  match height with
  | O => []
  | S height' =>
      if negb (length (vBits t) <=? nBitsUsed c)%nat && nth (nBitsUsed c) (vBits t) false then
        let c1 := mkCursor (S (nBitsUsed c)) (nHashUsed c) (matches c) (bad c) in
        let '(left_, c2) := TraverseAndExtract t height' (pos * 2) c1 in
        let two := pos * 2 + 1 <? CalcTreeWidth (nTransactions t) height' in
        (height, pos, (left_, if two then fst (TraverseAndExtract t height' (pos * 2 + 1) c2) else left_)) ::
        extract_nodes t height' (pos * 2) c1 ++ (if two then extract_nodes t height' (pos * 2 + 1) c2 else [])
      else []
  end.

(** The two children of a node in the tree of the block. *)
Definition block_children (height : nat) (pos : Z) : U * U :=
  let left_ := CalcHash zero H vTxid (height - 1) (pos * 2) in
  (left_, if pos * 2 + 1 <? CalcTreeWidth n (height - 1) then CalcHash zero H vTxid (height - 1) (pos * 2 + 1) else left_).

Lemma block_children_S h p :
  block_children (S h) p =
  (CalcHash zero H vTxid h (p * 2),
   if p * 2 + 1 <? CalcTreeWidth n h then CalcHash zero H vTxid h (p * 2 + 1) else CalcHash zero H vTxid h (p * 2)).
Proof. unfold block_children. now rewrite Nat.sub_1_r. Qed.

(** A collision of the node hash that the decoding exhibits: at one of the nodes it
    hashes, its two children are not those of the block and have the same hash. *)
Definition node_collision (t : CPartialMerkleTree) (h : nat) (p : Z) (c : cursor) : Prop :=
  exists h' p' l r, In (h', p', (l, r)) (extract_nodes t h p c) /\
    (l, r) <> block_children h' p' /\ H l r = H (fst (block_children h' p')) (snd (block_children h' p')).

Lemma collision_in (P : nat -> Z -> U -> U -> Prop) (l l' : list (nat * Z * (U * U))) :
  (forall x, In x l -> In x l') ->
  (exists h' p' a b, In (h', p', (a, b)) l /\ P h' p' a b) -> exists h' p' a b, In (h', p', (a, b)) l' /\ P h' p' a b.
Proof. intros Hl (h' & p' & a & b & Hin & Hp). exists h', p', a, b. auto. Qed.

Section Sound.
Hypothesis U_dec : forall x y : U, {x = y} + {x <> y}.

(** Where the hash of a node is that of the block, so are its children, or there is a collision. *)
Lemma node_decide t h p c : 0 <= p ->
  forall l r, In (S h, p, (l, r)) (extract_nodes t (S h) p c) -> H l r = CalcHash zero H vTxid (S h) p ->
  node_collision t (S h) p c \/ (l, r) = block_children (S h) p.
Proof using U_dec.
  intros Hp l r Hin E. rewrite CalcHash_child in E by exact Hp.
  assert (Hd : {(l, r) = block_children (S h) p} + {(l, r) <> block_children (S h) p}) by (decide equality).
  destruct Hd as [Hd|Hd]; [now right|]. left. exists (S h), p, l, r. split; [exact Hin|]. split; [exact Hd|].
  rewrite block_children_S. exact E.
Qed.

(** A traversal that arrives at the hash of the node only reports leaves below it, in
    order, or exhibits a collision. *)
Lemma extract_sound t h : nTransactions t = n -> forall p c,
  0 <= p < CalcTreeWidth n h ->
  bad (snd (TraverseAndExtract t h p c)) = false ->
  fst (TraverseAndExtract t h p c) = CalcHash zero H vTxid h p ->
  node_collision t h p c \/
  exists flags, length flags = length (segment vTxid h p) /\
    matches (snd (TraverseAndExtract t h p c)) = matches c ++ select flags (segment vTxid h p).
Proof using U_dec.
  intros Hn. induction h as [|h IH]; intros p c Hp.
  - cbn [TraverseAndExtract]. destruct (Nat.leb_spec (length (vBits t)) (nBitsUsed c)); [discriminate|].
    cbn [nHashUsed nBitsUsed matches bad]. destruct (length (vHash t) <=? nHashUsed c)%nat; [discriminate|].
    cbn [fst snd matches CalcHash Nat.eqb andb].
    intros _ E. right. assert (Hpn : 0 <= p < Z.of_nat (length vTxid)).
    { unfold CalcTreeWidth in Hp. change (2 ^ Z.of_nat 0) with 1 in Hp. rewrite Z.div_1_r in Hp. unfold n in Hp. lia. }
    rewrite (segment_0 vTxid p zero Hpn), <- E.
    destruct (nth (nBitsUsed c) (vBits t) false); [exists [true] | exists [false]]; cbn [select length]; [auto|].
    now rewrite app_nil_r.
  - pose proof (node_decide t h p c ltac:(lia)) as Hnode. revert Hnode.
    unfold node_collision. cbn [TraverseAndExtract extract_nodes].
    destruct (Nat.leb_spec (length (vBits t)) (nBitsUsed c)); [discriminate|].
    destruct (nth (nBitsUsed c) (vBits t) false); cbn [nHashUsed nBitsUsed matches bad negb andb].
    + pose proof (width_child n h p ltac:(unfold n; lia) Hp) as Hc.
      set (c1 := mkCursor (S (nBitsUsed c)) (nHashUsed c) (matches c) (bad c)).
      specialize (IH (p * 2) c1 Hc) as IHl. unfold node_collision in IHl.
      destruct (TraverseAndExtract t h (p * 2) c1) as [l c2]. cbn [fst snd] in IHl.
      rewrite Hn, (segment_S vTxid), (block_children_S h p) by lia.
      destruct (Z.ltb_spec (p * 2 + 1) (CalcTreeWidth n h)) as [Hw|Hw].
      * specialize (IH (p * 2 + 1) c2 ltac:(lia)) as IHr. unfold node_collision in IHr. pose proof (extract_bad t h (p * 2 + 1) c2) as Hbad.
        destruct (TraverseAndExtract t h (p * 2 + 1) c2) as [r c3]. cbn [fst snd] in *. intros Hnode Hb E.
        destruct (Hnode l r (or_introl eq_refl) E) as [Hcol|Eq]; [left; exact Hcol|]. injection Eq as E1 E2.
        destruct (IHl (Hbad Hb) E1) as [Hcol|(f1 & F1 & M1)]; [left; apply (collision_in _ _ _ (fun x Hx => in_cons _ x _ (in_or_app _ _ x (or_introl Hx))) Hcol)|].
        destruct (IHr Hb E2) as [Hcol|(f2 & F2 & M2)]; [left; apply (collision_in _ _ _ (fun x Hx => in_cons _ x _ (in_or_app _ _ x (or_intror Hx))) Hcol)|].
        right. exists (f1 ++ f2). rewrite !length_app, F1, F2. split; [reflexivity|].
        rewrite M2, M1, select_app, <- app_assoc by exact F1. reflexivity.
      * rewrite (segment_beyond vTxid h (p * 2 + 1)), !app_nil_r by (fold n; lia). cbn [fst snd]. intros Hnode Hb E.
        destruct (Hnode l l (or_introl eq_refl) E) as [Hcol|Eq]; [left; exact Hcol|]. injection Eq as E1.
        destruct (IHl Hb E1) as [Hcol|Hf]; [left|right; exact Hf]. apply (collision_in _ _ _ (fun x Hx => in_cons _ x _ Hx) Hcol).
    + intros _. destruct (length (vHash t) <=? nHashUsed c)%nat; [discriminate|]. cbn [fst snd matches Nat.eqb andb]. intros _ _.
      right. exists (repeat false (length (segment vTxid (S h) p))). rewrite repeat_length. split; [reflexivity|].
      rewrite select_none, app_nil_r; [reflexivity|].
      clear. induction (length _) as [|k IHk]; [reflexivity | exact IHk].
Qed.

End Sound.

(** ** Decoding what was encoded *)

Context (vMatch : list bool).
Hypothesis same_length : length vMatch = length vTxid.

(** The bits and hashes that a traversal writes. *)
Fixpoint enc (h : nat) (p : Z) : list bool * list U :=
  let f := existsb (fun b => b) (segment vMatch h p) in
  match h with
  | O => ([f], [CalcHash zero H vTxid h p])
  | S h' =>
      if f then
        let l := enc h' (p * 2) in
        let r := if p * 2 + 1 <? CalcTreeWidth n h' then enc h' (p * 2 + 1) else ([], []) in
        (f :: fst l ++ fst r, snd l ++ snd r)
      else ([f], [CalcHash zero H vTxid h p])
  end.

Lemma build_enc h : forall p t,
  0 <= p -> nTransactions t = n ->
  TraverseAndBuild vTxid vMatch h p t = mkTree n (vBits t ++ fst (enc h p)) (vHash t ++ snd (enc h p)) (fBad t).
Proof.
  induction h as [|h IH]; intros p t Hp Hn; cbn [TraverseAndBuild enc]; rewrite Hn;
    pose proof (parent_of_match_segment vMatch) as Hpm; rewrite same_length in Hpm; fold n in Hpm; rewrite Hpm by exact Hp;
    [reflexivity|].
  destruct (existsb (fun b => b) (segment vMatch (S h) p)); [|reflexivity].
  rewrite (IH (p * 2)) by (lia || reflexivity). cbn [vBits vHash fBad nTransactions].
  destruct (p * 2 + 1 <? CalcTreeWidth n h).
  - rewrite (IH (p * 2 + 1)) by (lia || reflexivity). cbn [vBits vHash fBad nTransactions fst snd].
    f_equal; now rewrite <- !app_assoc.
  - cbn [fst snd]. rewrite !app_nil_r. now rewrite <- app_assoc.
Qed.

(** One bit or more per hash, one leaf or more per hash. *)
Lemma enc_length h : forall p,
  0 <= p < CalcTreeWidth n h ->
  (1 <= length (snd (enc h p)) <= length (fst (enc h p)))%nat /\
  (length (snd (enc h p)) <= length (segment vTxid h p))%nat.
Proof.
  induction h as [|h IH]; intros p Hp; cbn [enc].
  - cbn [fst snd length]. split; [lia|]. now apply segment_nonempty.
  - pose proof (segment_nonempty vTxid (S h) p Hp) as Hne.
    destruct (existsb (fun b => b) (segment vMatch (S h) p)); cbn [fst snd length]; [|split; lia].
    destruct (IH (p * 2) (width_child n h p ltac:(unfold n; lia) Hp)) as [L1 L2].
    rewrite segment_S, !length_app by lia. destruct (Z.ltb_spec (p * 2 + 1) (CalcTreeWidth n h)).
    + destruct (IH (p * 2 + 1) ltac:(lia)) as [R1 R2]. lia.
    + cbn [fst snd length]. lia.
Qed.

Lemma extract_enc t h : nTransactions t = n -> forall p c rb rh,
  0 <= p < CalcTreeWidth n h ->
  skipn (nBitsUsed c) (vBits t) = fst (enc h p) ++ rb -> skipn (nHashUsed c) (vHash t) = snd (enc h p) ++ rh ->
  TraverseAndExtract t h p c =
  (CalcHash zero H vTxid h p,
   mkCursor (nBitsUsed c + length (fst (enc h p))) (nHashUsed c + length (snd (enc h p)))
     (matches c ++ select (segment vMatch h p) (segment vTxid h p)) (bad c)).
Proof.
  intros Hn. induction h as [|h IH]; intros p c rb rh Hp Eb Eh; cbn [TraverseAndExtract enc] in *.
  - cbn [fst snd app length] in *.
    destruct (skipn_cons_nth _ _ _ _ false Eb) as (Lb & -> & _). destruct (skipn_cons_nth _ _ _ _ zero Eh) as (Lh & Nh & _).
    destruct (Nat.leb_spec (length (vBits t)) (nBitsUsed c)); [lia|]. cbn [nHashUsed nBitsUsed matches bad].
    destruct (Nat.leb_spec (length (vHash t)) (nHashUsed c)); [lia|]. rewrite Nh. cbn [Nat.eqb andb]. f_equal.
    assert (Hpn : 0 <= p < Z.of_nat (length vTxid)).
    { unfold CalcTreeWidth in Hp. change (2 ^ Z.of_nat 0) with 1 in Hp. rewrite Z.div_1_r in Hp. unfold n in Hp. lia. }
    rewrite (segment_0 vTxid p zero), (segment_0 vMatch p false) by lia. cbn [existsb orb select].
    rewrite orb_false_r. f_equal; try lia. destruct (nth _ vMatch false); [reflexivity | now rewrite app_nil_r].
  - destruct (existsb (fun b => b) (segment vMatch (S h) p)) eqn:Ef; cbn [fst snd app] in Eb, Eh |- *;
      destruct (skipn_cons_nth _ _ _ _ false Eb) as (Lb & -> & Eb');
      (destruct (Nat.leb_spec (length (vBits t)) (nBitsUsed c)); [lia|]); cbn [nHashUsed nBitsUsed matches bad].
    + pose proof (width_child n h p ltac:(unfold n; lia) Hp) as Hc. rewrite CalcHash_child by lia.
      rewrite <- app_assoc in Eb'. rewrite <- app_assoc in Eh.
      rewrite (IH (p * 2) (mkCursor (S (nBitsUsed c)) (nHashUsed c) (matches c) (bad c)) _ _ Hc Eb' Eh).
      cbn [nBitsUsed nHashUsed matches bad].
      apply skipn_app_length in Eb', Eh. rewrite Hn, !segment_S by lia.
      rewrite select_app by (now apply segment_length).
      destruct (Z.ltb_spec (p * 2 + 1) (CalcTreeWidth n h)) as [Hw|Hw].
      * erewrite (IH (p * 2 + 1)) by (lia || exact Eb' || exact Eh).
        cbn [nBitsUsed nHashUsed matches bad length].
        rewrite !length_app, <- app_assoc. f_equal. f_equal; lia.
      * rewrite (segment_beyond vMatch h (p * 2 + 1)) by (rewrite ?same_length; fold n; lia).
        cbn [fst snd select length]. rewrite !app_nil_r. f_equal. f_equal; lia.
    + destruct (skipn_cons_nth _ _ _ _ zero Eh) as (Lh & Nh & _).
      destruct (Nat.leb_spec (length (vHash t)) (nHashUsed c)); [lia|]. rewrite Nh. cbn [Nat.eqb andb length].
      rewrite select_none, app_nil_r by exact Ef. f_equal. f_equal; lia.
Qed.

(** ** Decoding with padding *)

Lemma extract_build t k :
  0 < n <= MAX_BLOCK_SIZE_CURRENT / 60 ->
  nTransactions t = n -> vBits t = vBits (build vTxid vMatch) ++ repeat false k ->
  vHash t = vHash (build vTxid vMatch) -> fBad t = false ->
  ((length (vBits (build vTxid vMatch)) + k + 7) / 8 = (length (vBits (build vTxid vMatch)) + 7) / 8)%nat ->
  ExtractMatches t = (CalcHash zero H vTxid (tree_height 32 n 0) 0, select vMatch vTxid).
Proof.
  intros Hn Et Eb Eh Ef Ek. change (MAX_BLOCK_SIZE_CURRENT / 60) with 33333 in Hn.
  destruct (tree_height_spec 32 0 ltac:(lia) ltac:(intros; lia) ltac:(lia)) as [Hw _]. fold n in Hw.
  unfold build in Eb, Eh, Ek. fold n in Eb, Eh, Ek. set (h := tree_height 32 n 0) in *.
  rewrite build_enc in Eb, Eh, Ek by (reflexivity || lia). cbn [vBits vHash app] in Eb, Eh, Ek.
  destruct (enc_length h 0 ltac:(lia)) as [L1 L2]. rewrite (segment_top vTxid h Hw) in L2.
  unfold ExtractMatches. rewrite Et, Eh, Eb, length_app, repeat_length.
  change (MAX_BLOCK_SIZE_CURRENT / 60) with 33333. fold h.
  destruct (Z.eqb_spec n 0); [lia|]. destruct (Z.ltb_spec 33333 n); [lia|].
  destruct (Z.ltb_spec n (Z.of_nat (length (snd (enc h 0))))); [unfold n in *; lia|].
  destruct (Nat.ltb_spec (length (fst (enc h 0)) + k) (length (snd (enc h 0)))); [lia|].
  rewrite (extract_enc t h Et 0 _ (repeat false k) []) by (cbn [nBitsUsed nHashUsed skipn]; rewrite ?app_nil_r; auto; lia).
  cbn [bad nBitsUsed nHashUsed matches Nat.add app]. rewrite Ef, Ek, !Nat.eqb_refl. cbn [negb].
  now rewrite !segment_top by (rewrite ?same_length; exact Hw).
Qed.

End Partial.

Section Results.
Context {U : Type} (zero : U) (ueq : U -> U -> bool) (H : U -> U -> U).
Context (ueq_spec : forall x y, ueq x y = true <-> x = y).

Lemma ueq_dec (x y : U) : {x = y} + {x <> y}.
Proof. destruct (ueq x y) eqn:E; [left; now apply ueq_spec | right; intros Hxy; apply ueq_spec in Hxy; congruence]. Defined.

Lemma root_of_height vTxid root mutated :
  let n := Z.of_nat (length vTxid) in
  0 < n <= 2 ^ 31 -> ComputeMerkleRoot zero ueq H vTxid = Some (root, mutated) ->
  root = CalcHash zero H vTxid (tree_height 32 n 0) 0 /\ CalcTreeWidth n (tree_height 32 n 0) = 1.
Proof.
  intros n Hn E. pose proof (tree_height_spec vTxid 32 0 Hn ltac:(intros; lia) ltac:(lia)) as Hh.
  unfold ComputeMerkleRoot in E.
  destruct (MerkleComputation_top zero ueq H ueq_spec vTxid (2 ^ 32 - 1) false ltac:(fold n; lia) ltac:(fold n; lia))
    as (l & r & b & mu & El & Hl & Er & _ & _).
  rewrite El in E. injection E as <- <-. fold n in Hh. rewrite <- (is_height_unique vTxid _ _ Hl Hh).
  split; [exact Er | exact (proj1 Hl)].
Qed.

(** ** Main results *)

(** A partial tree over a block of at most 33333 transactions decodes to the
    Merkle root that [ComputeMerkleRoot] gives and to the matched transactions in
    block order, both directly and after serialization, which pads the bits. *)
Theorem partial_tree_roundtrip vTxid vMatch :
  length vMatch = length vTxid -> 0 < Z.of_nat (length vTxid) <= MAX_BLOCK_SIZE_CURRENT / 60 ->
  exists root mutated, ComputeMerkleRoot zero ueq H vTxid = Some (root, mutated) /\
    ExtractMatches zero H (build zero H vTxid vMatch) = (root, select vMatch vTxid) /\
    ExtractMatches zero H (transmit (build zero H vTxid vMatch)) = (root, select vMatch vTxid).
Proof.
  intros Hl Hn. pose proof Hn as Hn'. change (MAX_BLOCK_SIZE_CURRENT / 60) with 33333 in Hn'.
  destruct (MerkleComputation_top zero ueq H ueq_spec vTxid (2 ^ 32 - 1) false ltac:(lia) ltac:(lia))
    as (l & r & b & mu & El & _).
  assert (Er : ComputeMerkleRoot zero ueq H vTxid = Some (r, mu)) by (unfold ComputeMerkleRoot; now rewrite El).
  exists r, mu. destruct (root_of_height vTxid r mu ltac:(lia) Er) as [-> _]. split; [exact Er|].
  assert (Hb : nTransactions (build zero H vTxid vMatch) = Z.of_nat (length vTxid) /\ fBad (build zero H vTxid vMatch) = false).
  { unfold build. now rewrite (build_enc zero H vTxid vMatch Hl) by (reflexivity || lia). }
  destruct Hb as [Hb1 Hb2]. split.
  - apply (extract_build zero H vTxid vMatch Hl _ 0 Hn Hb1); [|reflexivity | exact Hb2 | now rewrite Nat.add_0_r].
    cbn [repeat]. now rewrite app_nil_r.
  - destruct (bytes_to_bits_padding (vBits (build zero H vTxid vMatch))) as (k & E & Ek).
    exact (extract_build zero H vTxid vMatch Hl (transmit (build zero H vTxid vMatch)) k Hn Hb1 E eq_refl eq_refl Ek).
Qed.

(** C26: A partial tree from an untrusted peer that decodes to the Merkle root of a block
    (other than the zero that reports a malformed tree), with the number of transactions
    of that block, only reports transactions of the block, in block order; or the
    decoding itself exhibits a collision of the node hash, two children that differ from
    the children of the same node of the block and have the same hash. *)
Theorem partial_tree_sound vTxid t root mutated txids :
  0 < Z.of_nat (length vTxid) -> nTransactions t = Z.of_nat (length vTxid) ->
  ComputeMerkleRoot zero ueq H vTxid = Some (root, mutated) -> root <> zero ->
  ExtractMatches zero H t = (root, txids) ->
  node_collision zero H vTxid t (tree_height 32 (nTransactions t) 0) 0 (mkCursor 0 0 [] (fBad t)) \/
  exists flags, length flags = length vTxid /\ txids = select flags vTxid.
Proof.
  intros Hn Et Er Hz E. unfold ExtractMatches in E. rewrite Et in E |- *.
  destruct (Z.eqb_spec (Z.of_nat (length vTxid)) 0); [lia|].
  destruct (Z.ltb_spec (MAX_BLOCK_SIZE_CURRENT / 60) (Z.of_nat (length vTxid))) as [|Hmax]; [congruence|].
  change (MAX_BLOCK_SIZE_CURRENT / 60) with 33333 in Hmax.
  destruct (root_of_height vTxid root mutated ltac:(lia) Er) as [Eroot Hw].
  set (h := tree_height 32 _ 0) in *.
  destruct (Z.of_nat (length vTxid) <? Z.of_nat (length (vHash t))); [congruence|].
  destruct (length (vBits t) <? length (vHash t))%nat; [congruence|].
  pose proof (extract_sound zero H vTxid (ueq_dec) t h Et 0 (mkCursor 0 0 [] (fBad t)) ltac:(lia)) as Hs.
  destruct (TraverseAndExtract zero H t h 0 _) as [r c]. cbn [fst snd matches app] in Hs.
  destruct (bad c); [congruence|]. destruct (negb _); [congruence|]. destruct (negb _); [congruence|].
  injection E as -> <-. destruct (Hs eq_refl Eroot) as [Hcol|(flags & Hl & Em)]; [left; exact Hcol|right].
  rewrite (segment_top vTxid h Hw) in Hl, Em. exists flags. auto.
Qed.

End Results.

(** ** The node hash of the code *)

Definition UINT256_ZERO : list Z := repeat 0 32.
Definition hash_eq (a b : list Z) : bool := if list_eq_dec Z.eq_dec a b then true else false.

Lemma hash_eq_spec a b : hash_eq a b = true <-> a = b.
Proof. unfold hash_eq. destruct (list_eq_dec Z.eq_dec a b); split; congruence. Qed.

(** [Hash(BEGIN(left), END(left), BEGIN(right), END(right))]. *)
Definition hash_pair (left right : list Z) : list Z := Sha256.sha256d (left ++ right).

Lemma hash_pair_code mem l r :
  (64 <= length mem)%nat -> length l = 32%nat -> length r = 32%nat -> Forall byte l -> Forall byte r ->
  Sha256.Hash mem [l; r] = Some (hash_pair l r).
Proof.
  intros Hm Hl Hr Bl Br. rewrite Sha256.Hash_sha256d.
  - unfold hash_pair. cbn [concat]. now rewrite app_nil_r.
  - exact Hm.
  - repeat constructor; assumption.
  - cbn [concat]. rewrite app_nil_r, length_app, Hl, Hr. reflexivity.
Qed.

(** ** Examples *)

Definition some_txids : list (list Z) := map (fun i => repeat (Z.of_nat i) 32) (seq 1 5).
Definition some_matches : list bool := [false; true; false; false; true].

Lemma ComputeMerkleRoot_correct_witness :
  exists l mutated, is_height some_txids l /\
    ComputeMerkleRoot UINT256_ZERO hash_eq hash_pair some_txids
    = Some (CalcHash UINT256_ZERO hash_pair some_txids l 0, mutated) /\
    (mutated = true <-> duplicates UINT256_ZERO hash_pair some_txids 5).
Proof. apply (ComputeMerkleRoot_correct UINT256_ZERO hash_eq hash_pair hash_eq_spec some_txids). cbn. lia. Defined.

Lemma ComputeMerkleBranch_correct_witness :
  exists root mutated branch,
    ComputeMerkleRoot UINT256_ZERO hash_eq hash_pair some_txids = Some (root, mutated) /\
    ComputeMerkleBranch UINT256_ZERO hash_eq hash_pair some_txids 4 = Some branch /\
    ComputeMerkleRootFromBranch hash_pair (repeat 5 32) branch 4 = root.
Proof.
  apply (ComputeMerkleBranch_correct UINT256_ZERO hash_eq hash_pair hash_eq_spec some_txids 4); cbn; lia.
Defined.

Lemma partial_tree_roundtrip_witness :
  exists root mutated, ComputeMerkleRoot UINT256_ZERO hash_eq hash_pair some_txids = Some (root, mutated) /\
    ExtractMatches UINT256_ZERO hash_pair (build UINT256_ZERO hash_pair some_txids some_matches)
    = (root, [repeat 2 32; repeat 5 32]) /\
    ExtractMatches UINT256_ZERO hash_pair (transmit (build UINT256_ZERO hash_pair some_txids some_matches))
    = (root, [repeat 2 32; repeat 5 32]).
Proof.
  apply (partial_tree_roundtrip UINT256_ZERO hash_eq hash_pair hash_eq_spec some_txids some_matches); [reflexivity|].
  change (0 < 5 <= MAX_BLOCK_SIZE_CURRENT / 60). split; [reflexivity | discriminate].
Defined.

Definition two_txids : list (list Z) := [repeat 1 32; repeat 2 32].

Lemma partial_tree_sound_witness :
  let t := transmit (build UINT256_ZERO hash_pair two_txids [false; true]) in
  node_collision UINT256_ZERO hash_pair two_txids t 1 0 (mkCursor 0 0 [] false) \/
  exists flags, length flags = 2%nat /\ [repeat 2 32] = select flags two_txids.
Proof.
  destruct (partial_tree_roundtrip UINT256_ZERO hash_eq hash_pair hash_eq_spec two_txids [false; true] eq_refl)
    as (root & mutated & E1 & _ & E2); [split; [reflexivity | discriminate]|].
  apply (partial_tree_sound UINT256_ZERO hash_eq hash_pair hash_eq_spec two_txids
    (transmit (build UINT256_ZERO hash_pair two_txids [false; true])) root mutated); [reflexivity | reflexivity | exact E1 | | exact E2].
  destruct (root_of_height UINT256_ZERO hash_eq hash_pair hash_eq_spec two_txids root mutated ltac:(split; [reflexivity | discriminate]) E1) as [-> _].
  vm_compute. discriminate.
Defined.

End MerkleBlock.
