(* ===== verification/Arith.v ===== *)
(** * src/arith_uint256.{h,cpp}, src/uint256.{h,cpp}: unsigned big integers

    [base_uint<BITS>] is an array [pn] of [WIDTH = BITS/32] limbs of 32 bits, the
    least significant first; the model is a list of limbs, so that one definition
    covers the instances of 160, 256 and 512 bits.  [uint256] adds the compact
    format of difficulty targets.  An operation that throws, or an assertion that
    fails, is [None].

    The reference is the integer [val pn]: the operators compute modulo 2^BITS,
    the comparison is that of integers, and the long division is [Z.div]. *)

From Stdlib Require Import ZArith List Lia Bool.
From S2P Require Import Prelude.
Import ListNotations.
Open Scope Z_scope.

Module Arith.

(** Conversion to [uint32_t] and to [uint64_t]. *)
Definition to_u32 (x : Z) : Z := x mod 2 ^ 32.
Definition to_u64 (x : Z) : Z := x mod 2 ^ 64.

(** ** Construction, tests and bitwise operators *)

Definition zero (WIDTH : nat) : list Z := repeat 0 WIDTH.

(** [base_uint(uint64_t b)]. *)
Definition of_uint64 (WIDTH : nat) (b : Z) : list Z := to_u32 b :: to_u32 (b >> 32) :: repeat 0 (WIDTH - 2).

Fixpoint IsNull (pn : list Z) : bool :=
  match pn with
  | [] => true
  | x :: t => if negb (x =? 0) then false else IsNull t
  end.

Definition op_not (pn : list Z) : list Z := map (fun x => x .^ 0xffffffff) pn.

Fixpoint map2 (f : Z -> Z -> Z) (a b : list Z) : list Z :=
  match a, b with
  | x :: a, y :: b => f x y :: map2 f a b
  | _, _ => []
  end.

Definition op_xor : list Z -> list Z -> list Z := map2 Z.lxor.
Definition op_and : list Z -> list Z -> list Z := map2 Z.land.
Definition op_or : list Z -> list Z -> list Z := map2 Z.lor.

(** ** Addition and subtraction *)

(** [while (++pn[i] == 0 && i < WIDTH-1) i++;] *)
Fixpoint increment (pn : list Z) : list Z :=
  match pn with
  | [] => []
  | x :: t =>
      let x := to_u32 (x + 1) in
      if x =? 0 then x :: increment t else x :: t
  end.

(** [while (--pn[i] == (uint32_t)-1 && i < WIDTH-1) i++;] *)
Fixpoint decrement (pn : list Z) : list Z :=
  match pn with
  | [] => []
  | x :: t =>
      let x := to_u32 (x - 1) in
      if x =? to_u32 (-1) then x :: decrement t else x :: t
  end.

Definition op_neg (pn : list Z) : list Z := increment (op_not pn).

(** The loop of [operator+=]; [carry] and [n] are [uint64_t]. *)
Fixpoint add_loop (carry : Z) (a b : list Z) : list Z :=
  match a, b with
  | x :: a, y :: b =>
      let n := to_u64 (carry + x + y) in
      n .& 0xffffffff :: add_loop (n >> 32) a b
  | _, _ => []
  end.

Definition op_add (a b : list Z) : list Z := add_loop 0 a b.
Definition op_sub (a b : list Z) : list Z := op_add a (op_neg b).

(** ** Multiplication *)

(** [operator*=(uint32_t b32)]. *)
Fixpoint mul32_loop (carry b32 : Z) (pn : list Z) : list Z :=
  match pn with
  | [] => []
  | x :: t =>
      let n := to_u64 (carry + to_u64 (b32 * x)) in
      n .& 0xffffffff :: mul32_loop (n >> 32) b32 t
  end.

Definition op_mul32 (pn : list Z) (b32 : Z) : list Z := mul32_loop 0 b32 pn.

(** The inner loop of [operator*=(const base_uint& b)] on the limbs of [pn] from
    [j] on: it ends with the array, [i + j < WIDTH]. *)
Fixpoint mul_row (carry aj : Z) (pn b : list Z) : list Z :=
  match pn, b with
  | x :: pn, y :: b =>
      let n := to_u64 (to_u64 (carry + x) + to_u64 (aj * y)) in
      n .& 0xffffffff :: mul_row (n >> 32) aj pn b
  | _, _ => []
  end.

Fixpoint mul_loop (j : nat) (a : list Z) (b pn : list Z) : list Z :=
  match a with
  | [] => pn
  | aj :: a => mul_loop (S j) a b (firstn j pn ++ mul_row 0 aj (skipn j pn) b)
  end.

Definition op_mul (a b : list Z) : list Z := mul_loop 0 a b (zero (length a)).

(** ** Shifts *)

(** [pn[i] |= v]. *)
Definition or_at (i : nat) (v : Z) (pn : list Z) : list Z := upd i (nth i pn 0 .| v) pn.

Definition shl_step (a : list Z) (k : nat) (shift : Z) (pn : list Z) (i : nat) : list Z :=
  let pn := if (i + k + 1 <? length a)%nat && negb (shift =? 0)
            then or_at (i + k + 1) (nth i a 0 >> (32 - shift)) pn else pn in
  if (i + k <? length a)%nat then or_at (i + k) (to_u32 (nth i a 0 << shift)) pn else pn.

Definition op_shl (a : list Z) (shift : Z) : list Z :=
  fold_left (shl_step a (Z.to_nat (shift / 32)) (shift mod 32)) (seq 0 (length a)) (zero (length a)).

(** [i - k - 1 >= 0] and [i - k >= 0] compare [int]s. *)
Definition shr_step (a : list Z) (k : nat) (shift : Z) (pn : list Z) (i : nat) : list Z :=
  let pn := if (k + 1 <=? i)%nat && negb (shift =? 0)
            then or_at (i - k - 1) (to_u32 (nth i a 0 << (32 - shift))) pn else pn in
  if (k <=? i)%nat then or_at (i - k) (nth i a 0 >> shift) pn else pn.

Definition op_shr (a : list Z) (shift : Z) : list Z :=
  fold_left (shr_step a (Z.to_nat (shift / 32)) (shift mod 32)) (seq 0 (length a)) (zero (length a)).

(** ** Comparison *)

(** The loop runs from the most significant limb: it is given the limbs in that order. *)
Fixpoint compare_loop (a b : list Z) : Z :=
  match a, b with
  | x :: a, y :: b => if x <? y then -1 else if x >? y then 1 else compare_loop a b
  | _, _ => 0
  end.

Definition CompareTo (a b : list Z) : Z := compare_loop (rev a) (rev b).

(** [memcmp(a.pn, b.pn, sizeof(a.pn)) == 0]. *)
Fixpoint op_eq (a b : list Z) : bool :=
  match a, b with
  | x :: a, y :: b => (x =? y) && op_eq a b
  | _, _ => true
  end.

(** The limbs from 2 on are read from the top; the order does not matter to the answer. *)
Definition EqualTo (pn : list Z) (b : Z) : bool :=
  if negb (forallb (fun x => x =? 0) (rev (skipn 2 pn))) then false
  else if negb (nth 1 pn 0 =? b >> 32) then false
  else if negb (nth 0 pn 0 =? b .& 0xffffffff) then false
  else true.

(** ** Bit length *)

(** [for (int bits = 31; bits > 0; bits--)], from [bits] on. *)
Fixpoint bits_loop (x : Z) (pos : nat) (bits : nat) : Z :=
  match bits with
  | O => 32 * Z.of_nat pos + 1
  | S bits' =>
      if negb (x .& (1 << Z.of_nat bits) =? 0) then 32 * Z.of_nat pos + Z.of_nat bits + 1
      else bits_loop x pos bits'
  end.

(** The limbs from the most significant one, the first at [pos]. *)
Fixpoint bits_pos (pn : list Z) (pos : nat) : Z :=
  match pos with
  | O => 0
  | S pos => if negb (nth pos pn 0 =? 0) then bits_loop (nth pos pn 0) pos 31 else bits_pos pn pos
  end.

Definition bits (pn : list Z) : Z := bits_pos pn (length pn).

(** ** Division *)

(** [while (shift >= 0)]: the quotient and the remainder; the turns are those of
    [shift + 1] down to 0. *)
Fixpoint div_loop (turns : nat) (num div pn : list Z) : list Z * list Z :=
  match turns with
  | O => (pn, num)
  | S shift =>
      let '(num, pn) :=
        if CompareTo num div >=? 0
        then (op_sub num div, or_at (shift / 32) (1 << Z.of_nat (shift mod 32)) pn)
        else (num, pn) in
      div_loop shift num (op_shr div 1) pn
  end.

(** [None] is the exception "Division by zero". *)
Definition op_div (a b : list Z) : option (list Z) :=
  let num_bits := bits a in
  let div_bits := bits b in
  if div_bits =? 0 then None
  else if div_bits >? num_bits then Some (zero (length a))
  else
    let shift := num_bits - div_bits in
    Some (fst (div_loop (Z.to_nat (shift + 1)) a (op_shl b shift) (zero (length a)))).

(** ** uint256: the compact format *)

Definition WIDTH : nat := 8.

Definition GetLow64 (pn : list Z) : Z := nth 0 pn 0 .| (nth 1 pn 0 << 32).

(** The target, [*pfNegative] and [*pfOverflow]. *)
Definition SetCompact (nCompact : Z) : list Z * bool * bool :=
  let nSize := nCompact >> 24 in
  let nWord := nCompact .& 0x007fffff in
  let '(this, nWord) :=
    if nSize <=? 3 then
      let nWord := nWord >> (8 * (3 - nSize)) in (of_uint64 WIDTH nWord, nWord)
    else (op_shl (of_uint64 WIDTH nWord) (8 * (nSize - 3)), nWord) in
  (this,
   negb (nWord =? 0) && negb (nCompact .& 0x00800000 =? 0),
   negb (nWord =? 0) && ((nSize >? 34) || ((nWord >? 0xff) && (nSize >? 33)) || ((nWord >? 0xffff) && (nSize >? 32)))).

(** [None] is a failed assertion. *)
Definition GetCompact (this : list Z) (fNegative : bool) : option Z :=
  let nSize := (bits this + 7) / 8 in
  let nCompact :=
    if nSize <=? 3 then to_u32 (to_u64 (GetLow64 this << (8 * (3 - nSize))))
    else to_u32 (GetLow64 (op_shr this (8 * (nSize - 3)))) in
  let '(nCompact, nSize) :=
    if negb (nCompact .& 0x00800000 =? 0) then (nCompact >> 8, nSize + 1) else (nCompact, nSize) in
  if negb (nCompact .& (0x007fffff .^ 0xffffffff) =? 0) then None
  else if negb (nSize <? 256) then None
  else
    let nCompact := nCompact .| to_u32 (nSize << 24) in
    Some (nCompact .| (if fNegative && negb (nCompact .& 0x007fffff =? 0) then 0x00800000 else 0)).

(** ** Values *)

(** The integer a list of limbs stands for. *)
Fixpoint val (pn : list Z) : Z :=
  match pn with
  | [] => 0
  | x :: t => x + 2 ^ 32 * val t
  end.

(** 2^BITS, for the width of the list. *)
Definition modulus (pn : list Z) : Z := 2 ^ (32 * Z.of_nat (length pn)).

Abbreviation limbs := (Forall u32).

(** ** Lemmas on limbs and values *)

Lemma val_bound pn : limbs pn -> 0 <= val pn < modulus pn.
Proof.
  induction 1 as [|x t Hx Ht IH]; [cbn; lia|]. unfold modulus, word in *. cbn [val length].
  rewrite Nat2Z.inj_succ. replace (32 * Z.succ (Z.of_nat (length t))) with (32 + 32 * Z.of_nat (length t)) by lia.
  rewrite Z.pow_add_r by lia. nia.
Qed.

Lemma modulus_cons x t : modulus (x :: t) = 2 ^ 32 * modulus t.
Proof.
  unfold modulus. cbn [length]. rewrite Nat2Z.inj_succ, <- Z.pow_add_r by lia. f_equal. lia.
Qed.

Lemma modulus_nil : modulus [] = 1.
Proof. reflexivity. Qed.

Lemma modulus_pos pn : 0 < modulus pn.
Proof. unfold modulus. apply Z.pow_pos_nonneg; lia. Qed.

Lemma modulus_length a b : length a = length b -> modulus a = modulus b.
Proof. unfold modulus. now intros ->. Qed.

Lemma val_zero n : val (zero n) = 0.
Proof. unfold zero. induction n as [|n IH]; [reflexivity|]. cbn [repeat val]. rewrite IH. reflexivity. Qed.

Lemma limbs_zero n : limbs (zero n).
Proof. apply Forall_repeat. split; lia. Qed.

Lemma length_zero n : length (zero n) = n.
Proof. apply repeat_length. Qed.

Lemma val_app a b : val (a ++ b) = val a + modulus a * val b.
Proof.
  induction a as [|x a IH]; [unfold modulus; cbn [app val length Z.of_nat]; lia|].
  cbn [app val]. rewrite IH, modulus_cons. lia.
Qed.

(** A limb and a carry out of a 64-bit sum. *)
Lemma limb_split n : u64 n -> (n .& 0xffffffff) + 2 ^ 32 * (n >> 32) = n /\ u32 (n .& 0xffffffff) /\ u32 (n >> 32).
Proof.
  intros Hn. change 0xffffffff with (Z.ones 32). rewrite Z.land_ones, Z.shiftr_div_pow2 by lia.
  unfold word in *. pose proof (Z.div_mod n (2 ^ 32) ltac:(lia)). pose proof (Z.mod_pos_bound n (2 ^ 32) ltac:(lia)).
  pose proof (Z.div_lt_upper_bound n (2 ^ 32) (2 ^ 32) ltac:(lia) ltac:(lia)).
  pose proof (Z.div_pos n (2 ^ 32) ltac:(lia) ltac:(lia)). lia.
Qed.

Lemma to_u64_id n : u64 n -> to_u64 n = n.
Proof. apply Z.mod_small. Qed.

Lemma to_u32_id n : u32 n -> to_u32 n = n.
Proof. apply Z.mod_small. Qed.

Lemma u32_to_u32 n : u32 (to_u32 n).
Proof. apply (word_mod 32). lia. Qed.

(** Equal values of limbs are equal lists. *)
Lemma val_inj a b : limbs a -> limbs b -> length a = length b -> val a = val b -> a = b.
Proof.
  intros Ha. revert b. induction Ha as [|x a Hx Ha IH]; intros [|y b] Hb Hl E; try discriminate; [reflexivity|].
  apply Forall_cons_iff in Hb. destruct Hb as [Hy Hb]. cbn [val] in E. unfold word in *.
  assert (x = y) as -> by lia. f_equal. apply IH; [exact Hb | now injection Hl | lia].
Qed.

Lemma mod_unique x m r q : 0 <= r < m -> x = r + m * q -> x mod m = r.
Proof. intros Hr ->. rewrite Z.mul_comm, Z_mod_plus_full. now apply Z.mod_small. Qed.

(** ** Addition *)

(** A loop of the class with a carry: the digits and the carry out make the sum. *)
Lemma add_loop_spec a : forall b carry,
  limbs a -> limbs b -> length a = length b -> u32 carry ->
  limbs (add_loop carry a b) /\ length (add_loop carry a b) = length a /\
  exists q, carry + val a + val b = val (add_loop carry a b) + modulus a * q.
Proof.
  induction a as [|x a IH]; intros [|y b] carry Ha Hb Hl Hc; try discriminate.
  - split; [constructor|]. split; [reflexivity|]. exists carry. rewrite modulus_nil. cbn [val add_loop mul32_loop mul_row]. lia.
  - apply Forall_cons_iff in Ha, Hb. destruct Ha as [Hx Ha], Hb as [Hy Hb]. cbn [add_loop].
    rewrite to_u64_id by (unfold word in *; lia).
    destruct (limb_split (carry + x + y)) as (E & H1 & H2); [unfold word in *; lia|].
    set (lo := _ .& _) in *. set (hi := _ >> 32) in *.
    destruct (IH b hi Ha Hb ltac:(now injection Hl) H2) as (IHl & IHn & q & IHq).
    split; [now constructor|]. split; [cbn [length]; now rewrite IHn|].
    exists q. rewrite modulus_cons. cbn [val]. lia.
Qed.

Lemma op_add_spec a b :
  limbs a -> limbs b -> length a = length b ->
  limbs (op_add a b) /\ length (op_add a b) = length a /\ val (op_add a b) = (val a + val b) mod modulus a.
Proof.
  intros Ha Hb Hl. destruct (add_loop_spec a b 0 Ha Hb Hl ltac:(now apply word_0)) as (H1 & H2 & q & Hq).
  fold (op_add a b) in *. split; [exact H1|]. split; [exact H2|].
  symmetry. apply mod_unique with q; [|lia]. rewrite <- (modulus_length _ _ H2). now apply val_bound.
Qed.

(** Complement of a limb. *)
Lemma lxor_ones x : u32 x -> x .^ 0xffffffff = 2 ^ 32 - 1 - x.
Proof.
  intros Hx. assert (E : Z.lnot x mod 2 ^ 32 = x .^ 0xffffffff).
  { apply (word_ext 32); [lia | apply (word_mod 32); lia | apply word_lxor; [lia | exact Hx | split; lia]|].
    intros i Hi. rewrite Z.mod_pow2_bits_low, Z.lnot_spec, Z.lxor_spec by lia.
    change 0xffffffff with (Z.ones 32). rewrite Z.ones_spec_low by lia. now destruct (Z.testbit x i). }
  rewrite <- E. unfold Z.lnot, word in *. apply mod_unique with (-1); lia.
Qed.

Lemma op_not_spec a :
  limbs a -> limbs (op_not a) /\ length (op_not a) = length a /\ val (op_not a) = modulus a - 1 - val a.
Proof.
  induction 1 as [|x a Hx Ha (IH1 & IH2 & IH3)]; [repeat split; constructor|].
  unfold op_not in *. cbn [map val length]. rewrite modulus_cons, lxor_ones by exact Hx.
  split; [constructor; [unfold word in *; lia | exact IH1]|]. split; [now rewrite IH2 | lia].
Qed.

Lemma increment_spec a :
  limbs a -> limbs (increment a) /\ length (increment a) = length a /\
  val (increment a) = (val a + 1) mod modulus a.
Proof.
  induction 1 as [|x a Hx Ha (IH1 & IH2 & IH3)]; [repeat split; constructor|].
  pose proof (val_bound a Ha) as Hb. pose proof (modulus_pos a) as Hm.
  cbn [increment]. unfold word in Hx. destruct (Z.eq_dec x (2 ^ 32 - 1)) as [->|Hne].
  - change (to_u32 (2 ^ 32 - 1 + 1)) with 0. cbn [Z.eqb].
    split; [constructor; [split; lia | exact IH1]|]. split; [cbn [length]; now rewrite IH2|].
    cbn [val]. rewrite IH3, modulus_cons. symmetry.
    apply mod_unique with ((val a + 1) / modulus a).
    + pose proof (Z.mod_pos_bound (val a + 1) (modulus a) Hm). lia.
    + pose proof (Z.div_mod (val a + 1) (modulus a) ltac:(lia)). lia.
  - rewrite to_u32_id by (unfold word; lia). destruct (Z.eqb_spec (x + 1) 0); [lia|].
    split; [constructor; [unfold word; lia | exact Ha]|]. split; [reflexivity|].
    cbn [val]. rewrite modulus_cons, Z.mod_small; nia.
Qed.

Lemma decrement_spec a :
  limbs a -> limbs (decrement a) /\ length (decrement a) = length a /\
  val (decrement a) = (val a - 1) mod modulus a.
Proof.
  induction 1 as [|x a Hx Ha (IH1 & IH2 & IH3)]; [repeat split; constructor|].
  pose proof (val_bound a Ha) as Hb. pose proof (modulus_pos a) as Hm.
  cbn [decrement]. change (to_u32 (-1)) with (2 ^ 32 - 1). unfold word in Hx. destruct (Z.eq_dec x 0) as [->|Hne].
  - change (to_u32 (0 - 1)) with (2 ^ 32 - 1). rewrite Z.eqb_refl.
    split; [constructor; [split; lia | exact IH1]|]. split; [cbn [length]; now rewrite IH2|].
    cbn [val]. rewrite IH3, modulus_cons. symmetry.
    apply mod_unique with ((val a - 1) / modulus a).
    + pose proof (Z.mod_pos_bound (val a - 1) (modulus a) Hm). lia.
    + pose proof (Z.div_mod (val a - 1) (modulus a) ltac:(lia)). lia.
  - rewrite to_u32_id by (unfold word; lia). destruct (Z.eqb_spec (x - 1) (2 ^ 32 - 1)); [lia|].
    split; [constructor; [unfold word; lia | exact Ha]|]. split; [reflexivity|].
    cbn [val]. rewrite modulus_cons, Z.mod_small; nia.
Qed.

Lemma op_neg_spec a :
  limbs a -> limbs (op_neg a) /\ length (op_neg a) = length a /\ val (op_neg a) = (- val a) mod modulus a.
Proof.
  intros Ha. destruct (op_not_spec a Ha) as (H1 & H2 & H3).
  destruct (increment_spec (op_not a) H1) as (H4 & H5 & H6). fold (op_neg a) in *.
  split; [exact H4|]. split; [congruence|]. rewrite H6, H3, (modulus_length _ _ H2).
  replace (modulus a - 1 - val a + 1) with (- val a + 1 * modulus a) by lia. apply Z_mod_plus_full.
Qed.

Lemma op_sub_spec a b :
  limbs a -> limbs b -> length a = length b ->
  limbs (op_sub a b) /\ length (op_sub a b) = length a /\ val (op_sub a b) = (val a - val b) mod modulus a.
Proof.
  intros Ha Hb Hl. destruct (op_neg_spec b Hb) as (H1 & H2 & H3).
  destruct (op_add_spec a (op_neg b) Ha H1 ltac:(congruence)) as (H4 & H5 & H6). fold (op_sub a b) in *.
  split; [exact H4|]. split; [exact H5|]. rewrite H6, H3, <- (modulus_length _ _ Hl), Zplus_mod_idemp_r. f_equal.
Qed.

(** ** Multiplication *)

Lemma mul32_loop_spec a : forall carry b32,
  limbs a -> u32 b32 -> u32 carry ->
  limbs (mul32_loop carry b32 a) /\ length (mul32_loop carry b32 a) = length a /\
  exists q, carry + b32 * val a = val (mul32_loop carry b32 a) + modulus a * q.
Proof.
  induction a as [|x a IH]; intros carry b32 Ha Hb Hc.
  - split; [constructor|]. split; [reflexivity|]. exists carry. rewrite modulus_nil. cbn [val add_loop mul32_loop mul_row]. lia.
  - apply Forall_cons_iff in Ha. destruct Ha as [Hx Ha]. cbn [mul32_loop].
    assert (Hp : 0 <= b32 * x <= (2 ^ 32 - 1) * (2 ^ 32 - 1)) by (unfold word in *; nia).
    rewrite (to_u64_id (b32 * x)), to_u64_id by (unfold word in *; lia).
    destruct (limb_split (carry + b32 * x)) as (E & H1 & H2); [unfold word in *; lia|].
    set (lo := _ .& _) in *. set (hi := _ >> 32) in *.
    destruct (IH hi b32 Ha Hb H2) as (IHl & IHn & q & IHq).
    split; [now constructor|]. split; [cbn [length]; now rewrite IHn|].
    exists q. rewrite modulus_cons. cbn [val]. lia.
Qed.

Lemma op_mul32_spec a b32 :
  limbs a -> u32 b32 ->
  limbs (op_mul32 a b32) /\ length (op_mul32 a b32) = length a /\
  val (op_mul32 a b32) = (val a * b32) mod modulus a.
Proof.
  intros Ha Hb. destruct (mul32_loop_spec a 0 b32 Ha Hb ltac:(now apply word_0)) as (H1 & H2 & q & Hq).
  fold (op_mul32 a b32) in *. split; [exact H1|]. split; [exact H2|].
  symmetry. apply mod_unique with q; [|lia]. rewrite <- (modulus_length _ _ H2). now apply val_bound.
Qed.

(** One row: the limbs of [b] beyond the end of [pn] are not read. *)
Lemma mul_row_spec pn : forall b carry aj,
  limbs pn -> limbs b -> (length pn <= length b)%nat -> u32 aj -> u32 carry ->
  limbs (mul_row carry aj pn b) /\ length (mul_row carry aj pn b) = length pn /\
  exists q, carry + val pn + aj * val b = val (mul_row carry aj pn b) + modulus pn * q.
Proof.
  induction pn as [|x pn IH]; intros [|y b] carry aj Hp Hb Hl Ha Hc; cbn [length] in Hl; try lia.
  - split; [constructor|]. split; [reflexivity|]. exists carry. rewrite modulus_nil. cbn [val add_loop mul32_loop mul_row]. lia.
  - split; [constructor|]. split; [reflexivity|]. exists (carry + aj * val (y :: b)). rewrite modulus_nil. cbn [mul_row val]. lia.
  - apply Forall_cons_iff in Hp, Hb. destruct Hp as [Hx Hp], Hb as [Hy Hb]. cbn [mul_row].
    assert (H0 : 0 <= aj * y <= (2 ^ 32 - 1) * (2 ^ 32 - 1)) by (unfold word in *; nia).
    rewrite (to_u64_id (aj * y)), (to_u64_id (carry + x)), to_u64_id by (unfold word in *; lia).
    destruct (limb_split (carry + x + aj * y)) as (E & H1 & H2); [unfold word in *; lia|].
    set (lo := _ .& _) in *. set (hi := _ >> 32) in *.
    destruct (IH b hi aj Hp Hb ltac:(lia) Ha H2) as (IHl & IHn & q & IHq).
    split; [now constructor|]. split; [cbn [length]; now rewrite IHn|].
    exists q. rewrite modulus_cons. cbn [val]. lia.
Qed.

Lemma modulus_firstn_skipn pn j : modulus (firstn j pn) * modulus (skipn j pn) = modulus pn.
Proof.
  unfold modulus. rewrite <- Z.pow_add_r by lia. rewrite <- (firstn_skipn j pn) at 3.
  rewrite length_app. f_equal. lia.
Qed.

Lemma mul_loop_spec a : forall j b pn,
  limbs a -> limbs b -> limbs pn -> length pn = length b -> (j + length a = length b)%nat ->
  limbs (mul_loop j a b pn) /\ length (mul_loop j a b pn) = length pn /\
  exists q, val pn + 2 ^ (32 * Z.of_nat j) * val a * val b = val (mul_loop j a b pn) + modulus pn * q.
Proof.
  induction a as [|aj a IH]; intros j b pn Ha Hb Hp Hl Hj.
  - split; [exact Hp|]. split; [reflexivity|]. exists 0. cbn [val mul_loop]. lia.
  - apply Forall_cons_iff in Ha. destruct Ha as [Hx Ha]. cbn [length] in Hj. cbn [mul_loop].
    destruct (Forall_firstn_skipn u32 j pn Hp) as [Hf Hs].
    destruct (mul_row_spec (skipn j pn) b 0 aj Hs Hb ltac:(rewrite length_skipn; lia) Hx ltac:(now apply word_0)) as (H1 & H2 & q & Hq).
    set (row := mul_row _ _ _ _) in *.
    assert (Hlen : length (firstn j pn ++ row) = length pn).
    { rewrite length_app, H2, <- length_app, firstn_skipn. reflexivity. }
    destruct (IH (S j) b (firstn j pn ++ row) Ha Hb ltac:(apply Forall_app; split; assumption) ltac:(lia) ltac:(lia)) as (H3 & H4 & q' & Hq').
    split; [exact H3|]. split; [congruence|]. exists (q' + q).
    rewrite (modulus_length _ _ Hlen) in Hq'. rewrite val_app in Hq'.
    assert (Em : modulus (firstn j pn) = 2 ^ (32 * Z.of_nat j)).
    { unfold modulus. rewrite length_firstn. do 3 f_equal. lia. }
    pose proof (modulus_firstn_skipn pn j) as Ep. pose proof (val_app (firstn j pn) (skipn j pn)) as Ev.
    rewrite firstn_skipn in Ev. rewrite Em in *.
    replace (2 ^ (32 * Z.of_nat (S j))) with (2 ^ 32 * 2 ^ (32 * Z.of_nat j)) in Hq'
      by (rewrite <- Z.pow_add_r by lia; f_equal; lia).
    cbn [val]. set (m := 2 ^ (32 * Z.of_nat j)) in *. rewrite Ev, <- Ep. rewrite <- Ep in Hq'.
    transitivity (val (firstn j pn) + m * (0 + val (skipn j pn) + aj * val b) + 2 ^ 32 * m * val a * val b); [ring|].
    rewrite Hq. lia.
Qed.

Lemma op_mul_spec a b :
  limbs a -> limbs b -> length a = length b ->
  limbs (op_mul a b) /\ length (op_mul a b) = length a /\ val (op_mul a b) = (val a * val b) mod modulus a.
Proof.
  intros Ha Hb Hl.
  destruct (mul_loop_spec a 0 b (zero (length a)) Ha Hb (limbs_zero _)) as (H1 & H2 & q & Hq);
    [rewrite length_zero; lia | lia |]. fold (op_mul a b) in *. rewrite length_zero in H2.
  split; [exact H1|]. split; [exact H2|]. symmetry. apply mod_unique with q.
  - rewrite <- (modulus_length _ _ H2). now apply val_bound.
  - rewrite val_zero in Hq. rewrite (modulus_length a (zero (length a))) by now rewrite length_zero.
    change (2 ^ (32 * Z.of_nat 0)) with 1 in Hq. lia.
Qed.

(** ** Bits of a value *)

Lemma val_testbit pn i :
  limbs pn -> 0 <= i -> Z.testbit (val pn) i = Z.testbit (nth (Z.to_nat (i / 32)) pn 0) (i mod 32).
Proof.
  intros Hp. revert i. induction Hp as [|x t Hx Ht IH]; intros i Hi.
  - cbn [val]. destruct (Z.to_nat (i / 32)); cbn [nth]; now rewrite !Z.bits_0.
  - cbn [val]. rewrite Z.mul_comm, <- lor_disjoint_add, Z.lor_spec, testbit_shiftl by (lia || exact Hx).
    destruct (Z.ltb_spec i 0); [lia|]. destruct (Z.ltb_spec (i - 32) 0).
    + rewrite Z.div_small, Z.mod_small by lia. now rewrite orb_false_r.
    + rewrite (word_testbit_high 32 x) by (lia || exact Hx). rewrite orb_false_l, IH by lia.
      replace i with (i - 32 + 1 * 32) at 3 4 by lia. rewrite Z.div_add, Z_mod_plus_full by lia.
      rewrite Z.add_1_r, Z2Nat.inj_succ by (apply Z.div_pos; lia). reflexivity.
Qed.

(** Two lists of limbs of one value, by the bits of each limb. *)
Lemma val_ext pn y :
  limbs pn -> 0 <= y < modulus pn ->
  (forall m r, (m < length pn)%nat -> 0 <= r < 32 ->
     Z.testbit (nth m pn 0) r = Z.testbit y (32 * Z.of_nat m + r)) ->
  val pn = y.
Proof.
  intros Hp Hy Hbits. apply (word_ext (32 * Z.of_nat (length pn))); [lia | now apply val_bound | exact Hy |].
  intros i Hi. rewrite val_testbit by (assumption || lia).
  pose proof (Z.mod_pos_bound i 32 ltac:(lia)). pose proof (Z.div_mod i 32 ltac:(lia)).
  pose proof (Z.div_pos i 32 ltac:(lia) ltac:(lia)).
  rewrite Hbits by lia. f_equal. lia.
Qed.

Lemma nth_or_at i v pn m :
  (i < length pn)%nat -> nth m (or_at i v pn) 0 = if (m =? i)%nat then nth m pn 0 .| v else nth m pn 0.
Proof.
  intros Hi. unfold or_at. destruct (Nat.eqb_spec m i) as [->|Hne].
  - now apply nth_upd_eq.
  - apply nth_upd_ne. lia.
Qed.

Lemma length_or_at i v pn : length (or_at i v pn) = length pn.
Proof. apply length_upd. Qed.

Lemma limbs_or_at i v pn : u32 v -> limbs pn -> limbs (or_at i v pn).
Proof.
  intros Hv Hp. apply Forall_upd; [|exact Hp]. apply word_lor; [lia | | exact Hv].
  apply Forall_nth_default; [split; lia | exact Hp].
Qed.

Lemma nth_limb i pn : limbs pn -> u32 (nth i pn 0).
Proof. apply Forall_nth_default. split; lia. Qed.

(** A guarded [pn[i] |= v]. *)
Lemma nth_or_if (g : bool) i v pn m :
  (g = true -> (i < length pn)%nat) ->
  nth m (if g then or_at i v pn else pn) 0 = if g && (m =? i)%nat then nth m pn 0 .| v else nth m pn 0.
Proof. intros Hg. destruct g; cbn [andb]; [apply nth_or_at; auto | reflexivity]. Qed.

Lemma or_if_ok (g : bool) i v pn :
  u32 v -> limbs pn -> limbs (if g then or_at i v pn else pn) /\ length (if g then or_at i v pn else pn) = length pn.
Proof. intros. destruct g; split; auto using limbs_or_at, length_or_at. Qed.

(** Decide the comparisons of naturals of the goal. *)
Ltac nat_cases :=
  repeat match goal with
  | |- context [(?x <? ?y)%nat] => destruct (Nat.ltb_spec x y); try lia
  | |- context [(?x <=? ?y)%nat] => destruct (Nat.leb_spec x y); try lia
  | |- context [(?x =? ?y)%nat] => destruct (Nat.eqb_spec x y); try lia
  end.

(** ** Shifts *)

Section Shift.
Context (a : list Z) (k : nat) (s : Z) (Ha : limbs a) (Hs : 0 <= s < 32).

(** The part of limb [j] that goes to the limb above, or below, and the part that
    goes to the limb at distance [k]. *)
Definition shl_hi (j : nat) : Z := if s =? 0 then 0 else nth j a 0 >> (32 - s).
Definition shl_lo (j : nat) : Z := to_u32 (nth j a 0 << s).
Definition shr_lo (j : nat) : Z := if s =? 0 then 0 else to_u32 (nth j a 0 << (32 - s)).
Definition shr_hi (j : nat) : Z := nth j a 0 >> s.

(** What the first [n] turns put in limb [m]. *)
Definition shl_limb (n m : nat) : Z :=
  (if (k + 1 <=? m)%nat && (m - k - 1 <? n)%nat then shl_hi (m - k - 1) else 0)
  .| (if (k <=? m)%nat && (m - k <? n)%nat then shl_lo (m - k) else 0).

Definition shr_limb (n m : nat) : Z :=
  (if (m + k + 1 <? n)%nat then shr_lo (m + k + 1) else 0) .| (if (m + k <? n)%nat then shr_hi (m + k) else 0).

Lemma shl_loop n :
  (n <= length a)%nat ->
  let pn := fold_left (shl_step a k s) (seq 0 n) (zero (length a)) in
  limbs pn /\ length pn = length a /\ forall m, (m < length a)%nat -> nth m pn 0 = shl_limb n m.
Proof.
  induction n as [|n IH]; intros Hn.
  - cbn [seq fold_left]. split; [apply limbs_zero|]. split; [apply length_zero|].
    intros m Hm. unfold zero, shl_limb. rewrite nth_repeat_lt by exact Hm. nat_cases; reflexivity.
  - destruct (IH ltac:(lia)) as (IH1 & IH2 & IH3).
    rewrite seq_S, fold_left_app. cbn [Nat.add fold_left]. set (pn := fold_left _ _ _) in *.
    assert (Hx : u32 (nth n a 0)) by now apply nth_limb.
    unfold shl_step. cbv zeta.
    destruct (or_if_ok ((n + k + 1 <? length a)%nat && negb (s =? 0)) (n + k + 1) (nth n a 0 >> (32 - s)) pn) as [J1 J2];
      [apply word_shiftr; lia || assumption | exact IH1 |].
    pose proof (nth_or_if ((n + k + 1 <? length a)%nat && negb (s =? 0)) (n + k + 1) (nth n a 0 >> (32 - s)) pn) as J3.
    set (pn' := if _ && _ then _ else _) in *.
    destruct (or_if_ok (n + k <? length a)%nat (n + k) (to_u32 (nth n a 0 << s)) pn') as [K1 K2];
      [apply u32_to_u32 | exact J1 |].
    split; [exact K1|]. split; [congruence|]. intros m Hm.
    rewrite nth_or_if by (intros Hlt; apply Nat.ltb_lt in Hlt; lia).
    rewrite J3, IH3 by (lia || intros Hlt; apply andb_true_iff in Hlt; destruct Hlt as [Hlt _]; apply Nat.ltb_lt in Hlt; lia).
    fold (shl_lo n). unfold shl_limb. replace (nth n a 0 >> (32 - s)) with (if s =? 0 then nth n a 0 >> (32 - s) else shl_hi n)
      by (unfold shl_hi; now destruct (s =? 0)).
    destruct (Nat.eq_dec m (n + k + 1)) as [->|E1]; [|destruct (Nat.eq_dec m (n + k)) as [->|E2]].
    + replace (n + k + 1 - k - 1)%nat with n by lia. replace (n + k + 1 - k)%nat with (S n) by lia.
      nat_cases. unfold shl_hi. destruct (s =? 0); cbn [andb negb]; rewrite ?Z.lor_0_l, ?Z.lor_0_r; reflexivity.
    + replace (n + k - k)%nat with n by lia. nat_cases; rewrite ?andb_false_r; cbn [andb]; rewrite ?Z.lor_0_r; reflexivity.
    + nat_cases; rewrite ?andb_false_r; reflexivity.
Qed.

Lemma shr_loop n :
  (n <= length a)%nat ->
  let pn := fold_left (shr_step a k s) (seq 0 n) (zero (length a)) in
  limbs pn /\ length pn = length a /\ forall m, (m < length a)%nat -> nth m pn 0 = shr_limb n m.
Proof.
  induction n as [|n IH]; intros Hn.
  - cbn [seq fold_left]. split; [apply limbs_zero|]. split; [apply length_zero|].
    intros m Hm. unfold zero, shr_limb. rewrite nth_repeat_lt by exact Hm. nat_cases; reflexivity.
  - destruct (IH ltac:(lia)) as (IH1 & IH2 & IH3).
    rewrite seq_S, fold_left_app. cbn [Nat.add fold_left]. set (pn := fold_left _ _ _) in *.
    assert (Hx : u32 (nth n a 0)) by now apply nth_limb.
    unfold shr_step. cbv zeta.
    destruct (or_if_ok ((k + 1 <=? n)%nat && negb (s =? 0)) (n - k - 1) (to_u32 (nth n a 0 << (32 - s))) pn) as [J1 J2];
      [apply u32_to_u32 | exact IH1 |].
    pose proof (nth_or_if ((k + 1 <=? n)%nat && negb (s =? 0)) (n - k - 1) (to_u32 (nth n a 0 << (32 - s))) pn) as J3.
    set (pn' := if _ && _ then _ else _) in *.
    destruct (or_if_ok (k <=? n)%nat (n - k) (nth n a 0 >> s) pn') as [K1 K2];
      [apply word_shiftr; lia || assumption | exact J1 |].
    split; [exact K1|]. split; [congruence|]. intros m Hm.
    rewrite nth_or_if, J3, IH3 by lia.
    fold (shr_hi n). unfold shr_limb.
    replace (to_u32 (nth n a 0 << (32 - s))) with (if s =? 0 then to_u32 (nth n a 0 << (32 - s)) else shr_lo n)
      by (unfold shr_lo; now destruct (s =? 0)).
    destruct (Nat.eq_dec (m + k + 1) n) as [E1|E1]; [|destruct (Nat.eq_dec (m + k) n) as [E2|E2]].
    + nat_cases; cbn [andb]. rewrite E1. unfold shr_lo. destruct (s =? 0); cbn [andb negb]; rewrite ?Z.lor_0_l; [reflexivity|].
      apply Z.lor_comm.
    + nat_cases; rewrite ?andb_false_r; cbn [andb]; rewrite E2, ?Z.lor_0_r; reflexivity.
    + nat_cases; rewrite ?andb_false_r; reflexivity.
Qed.

(** Bits of the parts. *)
Lemma testbit_shl_lo j r : 0 <= r < 32 -> Z.testbit (shl_lo j) r = if r <? s then false else Z.testbit (nth j a 0) (r - s).
Proof.
  intros Hr. unfold shl_lo, to_u32. rewrite Z.mod_pow2_bits_low, testbit_shiftl by lia.
  destruct (Z.ltb_spec r 0), (Z.ltb_spec r s), (Z.ltb_spec (r - s) 0); reflexivity || lia.
Qed.

Lemma testbit_shl_hi j r : 0 <= r < 32 -> Z.testbit (shl_hi j) r = if r <? s then Z.testbit (nth j a 0) (32 + r - s) else false.
Proof.
  intros Hr. unfold shl_hi. destruct (Z.eqb_spec s 0).
  - rewrite Z.bits_0. destruct (Z.ltb_spec r s); [lia | reflexivity].
  - rewrite testbit_shiftr. destruct (Z.ltb_spec r 0); [lia|]. replace (r + (32 - s)) with (32 + r - s) by lia.
    destruct (Z.ltb_spec r s); [reflexivity|]. apply (word_testbit_high 32); [lia | now apply nth_limb | lia].
Qed.

Lemma testbit_shr_lo j r : 0 <= r < 32 -> Z.testbit (shr_lo j) r = if r + s <? 32 then false else Z.testbit (nth j a 0) (r + s - 32).
Proof.
  intros Hr. unfold shr_lo, to_u32. destruct (Z.eqb_spec s 0).
  - rewrite Z.bits_0. destruct (Z.ltb_spec (r + s) 32); [reflexivity | lia].
  - rewrite Z.mod_pow2_bits_low, testbit_shiftl by lia. replace (r - (32 - s)) with (r + s - 32) by lia.
    destruct (Z.ltb_spec r 0), (Z.ltb_spec (r + s) 32), (Z.ltb_spec (r + s - 32) 0); reflexivity || lia.
Qed.

Lemma testbit_shr_hi j r : 0 <= r < 32 -> Z.testbit (shr_hi j) r = if r + s <? 32 then Z.testbit (nth j a 0) (r + s) else false.
Proof.
  intros Hr. unfold shr_hi. rewrite testbit_shiftr. destruct (Z.ltb_spec r 0); [lia|].
  destruct (Z.ltb_spec (r + s) 32); [reflexivity|]. apply (word_testbit_high 32); [lia | now apply nth_limb | lia].
Qed.

(** Bit [32j + r] of the value. *)
Lemma testbit_limb j r : 0 <= r < 32 -> Z.testbit (val a) (32 * Z.of_nat j + r) = Z.testbit (nth j a 0) r.
Proof.
  intros Hr. rewrite val_testbit by (assumption || lia). replace (32 * Z.of_nat j + r) with (r + Z.of_nat j * 32) by lia.
  now rewrite Z.div_add, Z_mod_plus_full, Z.div_small, Z.mod_small, Z.add_0_l, Nat2Z.id by lia.
Qed.

Lemma testbit_shl_limb m r :
  (m < length a)%nat -> 0 <= r < 32 ->
  Z.testbit (shl_limb (length a) m) r = Z.testbit (val a << (32 * Z.of_nat k + s)) (32 * Z.of_nat m + r).
Proof.
  intros Hm Hr. unfold shl_limb. rewrite testbit_shiftl, Z.lor_spec.
  destruct (Z.ltb_spec (32 * Z.of_nat m + r) 0); [lia|].
  replace (m - k - 1 <? length a)%nat with true by (symmetry; apply Nat.ltb_lt; lia).
  replace (m - k <? length a)%nat with true by (symmetry; apply Nat.ltb_lt; lia). rewrite !andb_true_r.
  destruct (Z.ltb_spec (32 * Z.of_nat m + r - (32 * Z.of_nat k + s)) 0) as [Hneg|Hpos].
  - nat_cases; rewrite ?testbit_shl_lo, ?testbit_shl_hi, ?Z.bits_0 by lia;
      destruct (Z.ltb_spec r s); reflexivity || lia.
  - destruct (Z.ltb_spec r s) as [Hrs|Hrs].
    + replace (32 * Z.of_nat m + r - (32 * Z.of_nat k + s)) with (32 * Z.of_nat (m - k - 1) + (32 + r - s)) by lia.
      rewrite testbit_limb by lia. nat_cases. rewrite testbit_shl_lo, testbit_shl_hi by lia.
      destruct (Z.ltb_spec r s); [apply orb_false_r | lia].
    + replace (32 * Z.of_nat m + r - (32 * Z.of_nat k + s)) with (32 * Z.of_nat (m - k) + (r - s)) by lia.
      rewrite testbit_limb by lia. nat_cases; rewrite ?testbit_shl_lo, ?testbit_shl_hi, ?Z.bits_0 by lia;
      destruct (Z.ltb_spec r s); reflexivity || lia.
Qed.

Lemma testbit_shr_limb m r :
  (m < length a)%nat -> 0 <= r < 32 ->
  Z.testbit (shr_limb (length a) m) r = Z.testbit (val a >> (32 * Z.of_nat k + s)) (32 * Z.of_nat m + r).
Proof.
  intros Hm Hr. unfold shr_limb. rewrite testbit_shiftr, Z.lor_spec.
  destruct (Z.ltb_spec (32 * Z.of_nat m + r) 0); [lia|].
  assert (Elo : (if (m + k + 1 <? length a)%nat then shr_lo (m + k + 1) else 0) = shr_lo (m + k + 1)).
  { nat_cases. unfold shr_lo. rewrite nth_overflow, Z.shiftl_0_l by lia. now destruct (s =? 0). }
  assert (Ehi : (if (m + k <? length a)%nat then shr_hi (m + k) else 0) = shr_hi (m + k)).
  { nat_cases. unfold shr_hi. rewrite nth_overflow by lia. symmetry. apply Z.shiftr_0_l. }
  rewrite Elo, Ehi, testbit_shr_lo, testbit_shr_hi by lia. destruct (Z.ltb_spec (r + s) 32).
  - replace (32 * Z.of_nat m + r + (32 * Z.of_nat k + s)) with (32 * Z.of_nat (m + k) + (r + s)) by lia.
    now rewrite testbit_limb by lia.
  - replace (32 * Z.of_nat m + r + (32 * Z.of_nat k + s)) with (32 * Z.of_nat (m + k + 1) + (r + s - 32)) by lia.
    rewrite testbit_limb by lia. apply orb_false_r.
Qed.
End Shift.

Lemma shift_split shift : 0 <= shift ->
  0 <= shift mod 32 < 32 /\ shift = 32 * Z.of_nat (Z.to_nat (shift / 32)) + shift mod 32.
Proof.
  intros H. pose proof (Z.mod_pos_bound shift 32 ltac:(lia)). pose proof (Z.div_mod shift 32 ltac:(lia)).
  pose proof (Z.div_pos shift 32 ltac:(lia) ltac:(lia)). lia.
Qed.

Lemma op_shl_spec a shift :
  limbs a -> 0 <= shift ->
  limbs (op_shl a shift) /\ length (op_shl a shift) = length a /\
  val (op_shl a shift) = (val a * 2 ^ shift) mod modulus a.
Proof.
  intros Ha Hshift. destruct (shift_split shift Hshift) as [Hs Hd].
  destruct (shl_loop a (Z.to_nat (shift / 32)) (shift mod 32) Ha Hs (length a) ltac:(lia)) as (H1 & H2 & H3).
  fold (op_shl a shift) in *. split; [exact H1|]. split; [exact H2|].
  apply val_ext; [exact H1 | rewrite (modulus_length _ _ H2); apply Z.mod_pos_bound, modulus_pos|].
  intros m r Hm Hr. rewrite H2 in Hm. rewrite H3, testbit_shl_limb by assumption. unfold modulus.
  now rewrite Z.mod_pow2_bits_low, <- Z.shiftl_mul_pow2, <- Hd by lia.
Qed.

Lemma op_shr_spec a shift :
  limbs a -> 0 <= shift ->
  limbs (op_shr a shift) /\ length (op_shr a shift) = length a /\ val (op_shr a shift) = val a / 2 ^ shift.
Proof.
  intros Ha Hshift. destruct (shift_split shift Hshift) as [Hs Hd].
  destruct (shr_loop a (Z.to_nat (shift / 32)) (shift mod 32) Ha Hs (length a) ltac:(lia)) as (H1 & H2 & H3).
  fold (op_shr a shift) in *. split; [exact H1|]. split; [exact H2|].
  pose proof (val_bound a Ha). assert (0 < 2 ^ shift) by (apply Z.pow_pos_nonneg; lia).
  apply val_ext; [exact H1 | rewrite (modulus_length _ _ H2); split; [now apply Z.div_pos | apply Z.div_lt_upper_bound; nia] |].
  intros m r Hm Hr. rewrite H2 in Hm. rewrite H3, testbit_shr_limb by assumption.
  now rewrite <- Z.shiftr_div_pow2, <- Hd by lia.
Qed.

(** ** Comparison and bit length *)

Lemma compare_loop_last a : forall b x y,
  length a = length b ->
  compare_loop (a ++ [x]) (b ++ [y]) =
  if compare_loop a b =? 0 then (if x <? y then -1 else if x >? y then 1 else 0) else compare_loop a b.
Proof.
  induction a as [|u a IH]; intros [|v b] x y Hl; try discriminate; [reflexivity|].
  cbn [app compare_loop]. destruct (u <? v); [reflexivity|]. destruct (u >? v); [reflexivity|].
  apply IH. now injection Hl.
Qed.

(** [CompareTo] is the comparison of the values. *)
Lemma CompareTo_spec a b :
  limbs a -> limbs b -> length a = length b ->
  CompareTo a b = match val a ?= val b with Lt => -1 | Eq => 0 | Gt => 1 end.
Proof.
  intros Ha. revert b. induction Ha as [|x a Hx Ha IH]; intros [|y b] Hb Hl; try discriminate; [reflexivity|].
  apply Forall_cons_iff in Hb. destruct Hb as [Hy Hb]. injection Hl as Hl.
  unfold CompareTo. cbn [rev val]. rewrite compare_loop_last by now rewrite !length_rev.
  fold (CompareTo a b). rewrite IH by assumption. unfold word in *.
  destruct (Z.compare_spec (val a) (val b)); cbn [Z.eqb].
  - destruct (Z.ltb_spec x y); [|rewrite Z.gtb_ltb; destruct (Z.ltb_spec y x)];
      destruct (Z.compare_spec (x + 2 ^ 32 * val a) (y + 2 ^ 32 * val b)); reflexivity || lia.
  - destruct (Z.compare_spec (x + 2 ^ 32 * val a) (y + 2 ^ 32 * val b)); reflexivity || lia.
  - destruct (Z.compare_spec (x + 2 ^ 32 * val a) (y + 2 ^ 32 * val b)); reflexivity || lia.
Qed.

Lemma CompareTo_geb a b :
  limbs a -> limbs b -> length a = length b -> (CompareTo a b >=? 0) = (val b <=? val a).
Proof.
  intros Ha Hb Hl. rewrite CompareTo_spec by assumption.
  destruct (Z.compare_spec (val a) (val b)), (Z.leb_spec (val b) (val a)); reflexivity || lia.
Qed.

Lemma CompareTo_gtb a b :
  limbs a -> limbs b -> length a = length b -> (CompareTo a b >? 0) = (val b <? val a).
Proof.
  intros Ha Hb Hl. rewrite CompareTo_spec by assumption.
  destruct (Z.compare_spec (val a) (val b)), (Z.ltb_spec (val b) (val a)); reflexivity || lia.
Qed.

Lemma CompareTo_ltb a b :
  limbs a -> limbs b -> length a = length b -> (CompareTo a b <? 0) = (val a <? val b).
Proof.
  intros Ha Hb Hl. rewrite CompareTo_spec by assumption.
  destruct (Z.compare_spec (val a) (val b)), (Z.ltb_spec (val a) (val b)); reflexivity || lia.
Qed.

Lemma IsNull_spec a : limbs a -> IsNull a = (val a =? 0).
Proof.
  induction 1 as [|x a Hx Ha IH]; [reflexivity|]. cbn [IsNull val]. pose proof (val_bound a Ha). unfold word in Hx.
  destruct (Z.eqb_spec x 0) as [->|]; cbn [negb].
  - rewrite IH. destruct (Z.eqb_spec (val a) 0), (Z.eqb_spec (0 + 2 ^ 32 * val a) 0); reflexivity || lia.
  - destruct (Z.eqb_spec (x + 2 ^ 32 * val a) 0); [lia | reflexivity].
Qed.

(** The number of bits of an integer. *)
Definition bit_length (x : Z) : Z := if x =? 0 then 0 else Z.log2 x + 1.

Lemma bit_length_spec x : 0 <= x -> 0 <= bit_length x /\ x < 2 ^ bit_length x /\ (0 < x -> 2 ^ (bit_length x - 1) <= x).
Proof.
  intros Hx. unfold bit_length. destruct (Z.eqb_spec x 0) as [->|Hne]; [split; [lia|]; split; lia|].
  pose proof (Z.log2_spec x ltac:(lia)). pose proof (Z.log2_nonneg x). rewrite Z.add_1_r.
  split; [lia|]. split; [lia|]. intros _. rewrite Z.sub_1_r, Z.pred_succ. lia.
Qed.

Lemma land_pow2_testbit x n : 0 <= n -> negb (x .& (1 << n) =? 0) = Z.testbit x n.
Proof.
  intros Hn. rewrite Z.shiftl_1_l. destruct (Z.testbit x n) eqn:E.
  - destruct (Z.eqb_spec (x .& 2 ^ n) 0) as [E0|]; [|reflexivity].
    assert (H : Z.testbit (x .& 2 ^ n) n = false) by (rewrite E0; apply Z.bits_0).
    rewrite Z.land_spec, E, Z.pow2_bits_true in H by exact Hn. discriminate.
  - replace (x .& 2 ^ n) with 0; [reflexivity|]. symmetry. apply Z.bits_inj'. intros i Hi.
    rewrite Z.land_spec, Z.bits_0. destruct (Z.eq_dec i n) as [->|Hne]; [now rewrite E|].
    rewrite Z.pow2_bits_false by lia. apply andb_false_r.
Qed.

Lemma bits_loop_spec x pos n :
  0 < x -> Z.log2 x <= Z.of_nat n -> bits_loop x pos n = 32 * Z.of_nat pos + Z.log2 x + 1.
Proof.
  intros Hx. induction n as [|n IH]; intros Hn.
  - pose proof (Z.log2_nonneg x). cbn [bits_loop]. lia.
  - cbn [bits_loop]. rewrite land_pow2_testbit by lia. destruct (Z.eq_dec (Z.log2 x) (Z.of_nat (S n))) as [E|E].
    + rewrite <- E, Z.bit_log2 by exact Hx. lia.
    + rewrite Z.bits_above_log2 by lia. apply IH. lia.
Qed.

Lemma firstn_S_nth {A} (d : A) n l : (n < length l)%nat -> firstn (S n) l = firstn n l ++ [nth n l d].
Proof.
  revert n. induction l as [|x l IH]; intros n Hn; [cbn in Hn; lia|]. destruct n as [|n]; [reflexivity|].
  change (firstn (S (S n)) (x :: l)) with (x :: firstn (S n) l). rewrite IH by (cbn in Hn; lia). reflexivity.
Qed.

Lemma log2_add_high v x w : 0 <= w -> 0 <= v < 2 ^ w -> 0 < x -> Z.log2 (v + 2 ^ w * x) = w + Z.log2 x.
Proof.
  intros Hw Hv Hx. pose proof (Z.log2_spec x Hx) as [H1 H2]. pose proof (Z.log2_nonneg x).
  apply Z.log2_unique; [lia|]. rewrite <- Z.add_succ_r, !Z.pow_add_r by lia. nia.
Qed.

Lemma bits_pos_spec pn pos : limbs pn -> (pos <= length pn)%nat -> bits_pos pn pos = bit_length (val (firstn pos pn)).
Proof.
  intros Hp. induction pos as [|pos IH]; intros Hl; [reflexivity|].
  cbn [bits_pos]. rewrite (firstn_S_nth 0), val_app by lia. set (x := nth pos pn 0).
  assert (Hx : u32 x) by now apply nth_limb. unfold word in Hx.
  destruct (Forall_firstn_skipn u32 pos pn Hp) as [Hf _]. pose proof (val_bound _ Hf) as Hb.
  assert (Em : modulus (firstn pos pn) = 2 ^ (32 * Z.of_nat pos)) by (unfold modulus; rewrite length_firstn; do 3 f_equal; lia).
  rewrite Em in *. cbn [val]. rewrite Z.mul_0_r, Z.add_0_r.
  assert (0 < 2 ^ (32 * Z.of_nat pos)) by (apply Z.pow_pos_nonneg; lia).
  destruct (Z.eqb_spec x 0) as [->|Hne]; cbn [negb].
  - rewrite Z.mul_0_r, Z.add_0_r. apply IH. lia.
  - rewrite bits_loop_spec; [|lia|]. 2: { apply Z.lt_succ_r, Z.log2_lt_pow2; lia. }
    unfold bit_length. destruct (Z.eqb_spec (val (firstn pos pn) + 2 ^ (32 * Z.of_nat pos) * x) 0); [nia|].
    rewrite log2_add_high by lia. lia.
Qed.

Lemma bits_spec pn : limbs pn -> bits pn = bit_length (val pn).
Proof. intros Hp. unfold bits. rewrite bits_pos_spec by (assumption || lia). now rewrite firstn_all. Qed.

Lemma bit_length_le_width pn : limbs pn -> bit_length (val pn) <= 32 * Z.of_nat (length pn).
Proof.
  intros Hp. pose proof (val_bound pn Hp) as Hb. unfold modulus in Hb. unfold bit_length.
  destruct (Z.eqb_spec (val pn) 0); [lia|]. assert (Z.log2 (val pn) < 32 * Z.of_nat (length pn)); [|lia].
  apply Z.log2_lt_pow2; lia.
Qed.

(** ** Division *)

Lemma val_or_at i : forall v pn,
  limbs pn -> u32 v -> (i < length pn)%nat -> val (or_at i v pn) = val pn .| (v << (32 * Z.of_nat i)).
Proof.
  intros v pn Hp Hv Hi. pose proof (limbs_or_at i v pn Hv Hp) as Hl.
  assert (Hm : modulus (or_at i v pn) = 2 ^ (32 * Z.of_nat (length pn))) by (unfold modulus; now rewrite length_or_at).
  apply val_ext; [exact Hl | rewrite Hm; apply word_lor; [lia | now apply val_bound |]|].
  - apply word_shiftl; [lia|]. apply (word_mono 32); [lia | exact Hv].
  - intros m r Hm' Hr. rewrite length_or_at in Hm'. rewrite nth_or_at, Z.lor_spec, testbit_shiftl by exact Hi.
    rewrite testbit_limb by assumption. destruct (Z.ltb_spec (32 * Z.of_nat m + r) 0); [lia|].
    destruct (Nat.eqb_spec m i) as [->|Hne].
    + rewrite Z.lor_spec. destruct (Z.ltb_spec (32 * Z.of_nat i + r - 32 * Z.of_nat i) 0); [lia|]. do 2 f_equal. lia.
    + destruct (Z.ltb_spec (32 * Z.of_nat m + r - 32 * Z.of_nat i) 0); [now rewrite orb_false_r|].
      rewrite (word_testbit_high 32 v) by (lia || exact Hv). now rewrite orb_false_r.
Qed.

(** Setting a bit below a multiple of a power of two adds it. *)
Lemma val_set_bit n pn y :
  limbs pn -> (n < 32 * length pn)%nat -> val pn = y * 2 ^ Z.of_nat (S n) ->
  limbs (or_at (n / 32) (1 << Z.of_nat (n mod 32)) pn) /\
  val (or_at (n / 32) (1 << Z.of_nat (n mod 32)) pn) = val pn + 2 ^ Z.of_nat n.
Proof.
  intros Hp Hn E. pose proof (Nat.div_mod_eq n 32) as Hd. pose proof (Nat.mod_upper_bound n 32 ltac:(lia)) as Hm.
  assert (Hu : u32 (1 << Z.of_nat (n mod 32))).
  { rewrite Z.shiftl_1_l. split; [apply Z.pow_nonneg; lia | apply Z.pow_lt_mono_r; lia]. }
  split; [now apply limbs_or_at|]. rewrite val_or_at by (assumption || lia).
  rewrite Z.shiftl_shiftl by lia. replace (Z.of_nat (n mod 32) + 32 * Z.of_nat (n / 32)) with (Z.of_nat n) by lia.
  rewrite Z.shiftl_1_l, E, Z.lor_comm, <- Z.shiftl_mul_pow2 by lia.
  rewrite lor_disjoint_add; [rewrite Z.shiftl_mul_pow2; lia | lia |].
  split; [apply Z.pow_nonneg; lia | apply Z.pow_lt_mono_r; lia].
Qed.

Lemma div_loop_spec turns : forall num div pn b y,
  limbs num -> limbs div -> limbs pn -> length num = length pn -> length div = length pn ->
  (turns <= 32 * length pn)%nat -> 0 < b ->
  val num < b * 2 ^ Z.of_nat turns -> val pn = y * 2 ^ Z.of_nat turns ->
  (turns <> 0%nat -> val div = b * 2 ^ (Z.of_nat turns - 1)) ->
  let '(q, r) := div_loop turns num div pn in
  limbs q /\ length q = length pn /\ val q * b + val r = val pn * b + val num /\ 0 <= val r < b.
Proof.
  induction turns as [|n IH]; intros num div pn b y Hnum Hdiv Hpn L1 L2 Hn Hb Hlt Ey Hd.
  - cbn [div_loop]. pose proof (val_bound num Hnum). change (2 ^ Z.of_nat 0) with 1 in Hlt.
    split; [exact Hpn|]. split; [reflexivity|]. lia.
  - specialize (Hd ltac:(discriminate)). replace (Z.of_nat (S n) - 1) with (Z.of_nat n) in Hd by lia.
    assert (E2 : 2 ^ Z.of_nat (S n) = 2 * 2 ^ Z.of_nat n) by (rewrite Nat2Z.inj_succ, Z.pow_succ_r; lia).
    assert (Hp2 : 0 < 2 ^ Z.of_nat n) by (apply Z.pow_pos_nonneg; lia).
    destruct (op_shr_spec div 1 Hdiv ltac:(lia)) as (S1 & S2 & S3).
    assert (Hd' : n <> 0%nat -> val (op_shr div 1) = b * 2 ^ (Z.of_nat n - 1)).
    { intros Hnz. rewrite S3, Hd. replace (Z.of_nat n) with (Z.succ (Z.of_nat n - 1)) at 1 by lia.
      rewrite Z.pow_succ_r by lia. change (2 ^ 1) with 2.
      replace (b * (2 * 2 ^ (Z.of_nat n - 1))) with (b * 2 ^ (Z.of_nat n - 1) * 2) by ring. apply Z.div_mul. lia. }
    cbn [div_loop]. rewrite CompareTo_geb by (assumption || congruence).
    destruct (Z.leb_spec (val div) (val num)) as [Hge|Hlt'].
    + destruct (op_sub_spec num div Hnum Hdiv ltac:(congruence)) as (T1 & T2 & T3).
      destruct (val_set_bit n pn y Hpn ltac:(lia) Ey) as [V1 V2].
      pose proof (val_bound num Hnum). pose proof (val_bound div Hdiv).
      rewrite Z.mod_small in T3 by lia.
      pose proof (IH (op_sub num div) (op_shr div 1) (or_at (n / 32) (1 << Z.of_nat (n mod 32)) pn) b (2 * y + 1)) as G.
      rewrite length_or_at in G.
      specialize (G T1 S1 V1 ltac:(congruence) ltac:(congruence) ltac:(lia) Hb ltac:(nia) ltac:(nia) Hd').
      destruct (div_loop n _ _ _) as [q r]. destruct G as (G1 & G2 & G3 & G4).
      split; [exact G1|]. split; [exact G2|]. split; [|exact G4]. rewrite G3, V2, T3, Hd. ring.
    + apply (IH num (op_shr div 1) pn b (2 * y)); try assumption; try congruence; lia.
Qed.

Lemma op_div_spec a b :
  limbs a -> limbs b -> length a = length b ->
  match op_div a b with
  | None => val b = 0
  | Some q => val b <> 0 /\ limbs q /\ length q = length a /\ val q = val a / val b
  end.
Proof.
  intros Ha Hb Hl. pose proof (val_bound a Ha) as Ba. pose proof (val_bound b Hb) as Bb.
  unfold op_div. rewrite !bits_spec by assumption.
  destruct (bit_length_spec (val a) ltac:(lia)) as (A1 & A2 & A3).
  destruct (bit_length_spec (val b) ltac:(lia)) as (B1 & B2 & B3).
  destruct (Z.eqb_spec (bit_length (val b)) 0) as [E|E].
  { rewrite E in B2. change (2 ^ 0) with 1 in B2. lia. }
  assert (Hbz : 0 < val b). { destruct (Z.eq_dec (val b) 0) as [Ez|]; [rewrite Ez in E; now contradiction E | lia]. }
  specialize (B3 Hbz). rewrite Z.gtb_ltb. destruct (Z.ltb_spec (bit_length (val a)) (bit_length (val b))) as [Hlt|Hge].
  - split; [lia|]. split; [apply limbs_zero|]. split; [apply length_zero|]. rewrite val_zero. symmetry. apply Z.div_small.
    assert (2 ^ bit_length (val a) <= 2 ^ (bit_length (val b) - 1)) by (apply Z.pow_le_mono_r; lia). lia.
  - set (sh := bit_length (val a) - bit_length (val b)) in *.
    destruct (op_shl_spec b sh Hb ltac:(lia)) as (S1 & S2 & S3).
    pose proof (bit_length_le_width a Ha) as Wa.
    assert (Hfit : val b * 2 ^ sh < 2 ^ bit_length (val a)).
    { replace (bit_length (val a)) with (bit_length (val b) + sh) by lia. rewrite Z.pow_add_r by lia.
      apply Z.mul_lt_mono_pos_r; [apply Z.pow_pos_nonneg; lia | exact B2]. }
    rewrite Z.mod_small in S3.
    2: { split; [apply Z.mul_nonneg_nonneg; [lia | apply Z.pow_nonneg; lia]|]. unfold modulus. rewrite <- Hl.
         apply Z.lt_le_trans with (1 := Hfit). apply Z.pow_le_mono_r; lia. }
    pose proof (div_loop_spec (Z.to_nat (sh + 1)) a (op_shl b sh) (zero (length a)) (val b) 0) as G.
    rewrite Z2Nat.id, length_zero in G by lia.
    assert (Hup : val a < val b * 2 ^ (sh + 1)).
    { apply Z.lt_le_trans with (1 := A2).
      replace (bit_length (val a)) with (bit_length (val b) - 1 + (sh + 1)) by lia. rewrite Z.pow_add_r by lia.
      apply Z.mul_le_mono_nonneg_r; [apply Z.pow_nonneg; lia | exact B3]. }
    specialize (G Ha S1 (limbs_zero _) eq_refl ltac:(congruence) ltac:(lia) Hbz Hup (val_zero _)).
    destruct (div_loop _ _ _ _) as [q r]. cbn [fst].
    destruct G as (G1 & G2 & G3 & G4); [intros _; rewrite S3; do 2 f_equal; lia|].
    split; [lia|]. split; [exact G1|]. split; [exact G2|].
    rewrite val_zero in G3. apply Z.div_unique with (val r); [left; lia | lia].
Qed.

(** ** The compact format *)

(** The magnitude of a compact number: mantissa times 256^(exponent - 3), rounded down. *)
Definition compact_exponent (nCompact : Z) : Z := nCompact >> 24.
Definition compact_mantissa (nCompact : Z) : Z := nCompact .& 0x007fffff.
Definition compact_abs (nCompact : Z) : Z :=
  compact_mantissa nCompact * 256 ^ compact_exponent nCompact / 256 ^ 3.

Lemma compact_parts c :
  u32 c -> 0 <= compact_exponent c < 256 /\ 0 <= compact_mantissa c < 2 ^ 23.
Proof.
  intros Hc. unfold compact_exponent, compact_mantissa. change 0x007fffff with (Z.ones 23).
  rewrite Z.land_ones, Z.shiftr_div_pow2 by lia. unfold word in Hc.
  pose proof (Z.mod_pos_bound c (2 ^ 23) ltac:(lia)). pose proof (Z.div_pos c (2 ^ 24) ltac:(lia) ltac:(lia)).
  pose proof (Z.div_lt_upper_bound c (2 ^ 24) 256 ltac:(lia) ltac:(lia)). lia.
Qed.

Lemma pow256 n : 0 <= n -> 256 ^ n = 2 ^ (8 * n).
Proof. intros Hn. change 256 with (2 ^ 8). now rewrite <- Z.pow_mul_r by lia. Qed.

(** The magnitude on the two sides of the exponent 3. *)
Lemma compact_abs_small c :
  0 <= compact_exponent c <= 3 -> compact_abs c = compact_mantissa c >> (8 * (3 - compact_exponent c)).
Proof.
  intros He. unfold compact_abs. rewrite Z.shiftr_div_pow2, <- pow256 by lia.
  replace 3 with (3 - compact_exponent c + compact_exponent c) at 1 by lia.
  rewrite Z.pow_add_r by lia. apply Z.div_mul_cancel_r; apply Z.pow_nonzero; lia.
Qed.

Lemma compact_abs_large c :
  3 <= compact_exponent c -> compact_abs c = compact_mantissa c * 2 ^ (8 * (compact_exponent c - 3)).
Proof.
  intros He. unfold compact_abs. rewrite <- pow256 by lia.
  replace (compact_exponent c) with (compact_exponent c - 3 + 3) at 1 by lia.
  rewrite Z.pow_add_r, Z.mul_assoc by lia. apply Z.div_mul. apply Z.pow_nonzero; lia.
Qed.

Lemma of_uint64_spec n x :
  (2 <= n)%nat -> u64 x -> limbs (of_uint64 n x) /\ length (of_uint64 n x) = n /\ val (of_uint64 n x) = x.
Proof.
  intros Hn Hx. unfold of_uint64. split; [|split].
  - constructor; [apply u32_to_u32|]. constructor; [apply u32_to_u32|]. apply limbs_zero.
  - cbn [length]. rewrite repeat_length. lia.
  - cbn [val]. fold (zero (n - 2)). rewrite val_zero. destruct (limb_split x Hx) as (E & H1 & H2).
    change 0xffffffff with (Z.ones 32) in E. rewrite Z.land_ones in E by lia. unfold to_u32 at 1.
    rewrite (to_u32_id (x >> 32) H2). lia.
Qed.

(** The overflow test of [SetCompact] on the exponent and the mantissa. *)
Lemma overflow_test m e :
  0 < m < 2 ^ 23 -> 3 < e < 256 ->
  ((e >? 34) || ((m >? 0xff) && (e >? 33)) || ((m >? 0xffff) && (e >? 32))) = (2 ^ 256 <=? m * 2 ^ (8 * (e - 3))).
Proof.
  intros Hm He. rewrite !Z.gtb_ltb.
  destruct (Z.le_gt_cases e 32) as [H32|H32].
  - assert (2 ^ (8 * (e - 3)) <= 2 ^ 232) by (apply Z.pow_le_mono_r; lia).
    assert (0 < 2 ^ (8 * (e - 3))) by (apply Z.pow_pos_nonneg; lia).
    replace (2 ^ 256 <=? m * 2 ^ (8 * (e - 3))) with false by (symmetry; apply Z.leb_gt; nia).
    destruct (Z.ltb_spec 34 e), (Z.ltb_spec 33 e), (Z.ltb_spec 32 e); try lia; now rewrite !andb_false_r.
  - destruct (Z.eq_dec e 33) as [->|]; [|destruct (Z.eq_dec e 34) as [->|]].
    + change (8 * (33 - 3)) with 240. cbn [Z.ltb Z.compare Pos.compare Pos.compare_cont].
      destruct (Z.ltb_spec 0xffff m), (Z.leb_spec (2 ^ 256) (m * 2 ^ 240)); rewrite ?andb_false_r; reflexivity || lia.
    + change (8 * (34 - 3)) with 248. cbn [Z.ltb Z.compare Pos.compare Pos.compare_cont].
      destruct (Z.ltb_spec 0xff m), (Z.ltb_spec 0xffff m), (Z.leb_spec (2 ^ 256) (m * 2 ^ 248)); reflexivity || lia.
    + destruct (Z.ltb_spec 34 e); [|lia]. cbn [orb].
      assert (2 ^ 256 <= 2 ^ (8 * (e - 3))) by (apply Z.pow_le_mono_r; lia).
      symmetry. apply Z.leb_le. nia.
Qed.

Lemma SetCompact_spec c :
  u32 c ->
  let '(t, neg, ovf) := SetCompact c in
  limbs t /\ length t = WIDTH /\ val t = compact_abs c mod 2 ^ 256 /\
  neg = negb (compact_abs c =? 0) && Z.testbit c 23 /\ ovf = (2 ^ 256 <=? compact_abs c).
Proof.
  intros Hc. destruct (compact_parts c Hc) as [He Hm]. unfold SetCompact.
  change (c .& 0x00800000) with (c .& (1 << 23)). rewrite land_pow2_testbit by lia.
  fold (compact_exponent c) (compact_mantissa c).
  set (e := compact_exponent c) in *. set (m := compact_mantissa c) in *.
  destruct (Z.leb_spec e 3) as [H3|H3].
  - rewrite compact_abs_small by (fold e; lia). fold e m.
    assert (Hw : 0 <= m >> (8 * (3 - e)) < 2 ^ 23).
    { rewrite Z.shiftr_div_pow2 by lia. split; [apply Z.div_pos; [lia | apply Z.pow_pos_nonneg; lia]|].
      apply Z.le_lt_trans with m; [|lia]. apply Z.div_le_upper_bound; [apply Z.pow_pos_nonneg; lia|].
      assert (1 <= 2 ^ (8 * (3 - e))) by (apply (Z.pow_le_mono_r 2 0); lia). nia. }
    set (w := m >> _) in *.
    destruct (of_uint64_spec WIDTH w ltac:(unfold WIDTH; lia) ltac:(unfold word; lia)) as (H1 & H2 & Hv).
    split; [exact H1|]. split; [exact H2|]. split; [rewrite Hv, Z.mod_small; lia|]. split; [reflexivity|].
    rewrite !Z.gtb_ltb. destruct (Z.ltb_spec 34 e), (Z.ltb_spec 33 e), (Z.ltb_spec 32 e); lia.
  - rewrite compact_abs_large by (fold e; lia). fold e m.
    destruct (of_uint64_spec WIDTH m ltac:(unfold WIDTH; lia) ltac:(unfold word; lia)) as (H1 & H2 & Hv).
    destruct (op_shl_spec _ (8 * (e - 3)) H1 ltac:(lia)) as (S1 & S2 & S3).
    split; [exact S1|]. split; [congruence|]. split; [rewrite S3, Hv; unfold modulus; now rewrite H2|].
    assert (Hp : 0 < 2 ^ (8 * (e - 3))) by (apply Z.pow_pos_nonneg; lia).
    destruct (Z.eqb_spec m 0) as [E0|E0].
    + rewrite E0, Z.mul_0_l. split; reflexivity.
    + destruct (Z.eqb_spec (m * 2 ^ (8 * (e - 3))) 0); [nia|]. split; [reflexivity|].
      cbn [negb andb]. apply overflow_test; lia.
Qed.

(** The compact form of a number: the least exponent that leaves the sign bit
    clear, and the three leading bytes at that exponent. *)
Definition mpi_exponent (x : Z) : Z := if x =? 0 then 0 else bit_length x / 8 + 1.
Definition mpi_mantissa (x : Z) : Z := x * 256 ^ 3 / 256 ^ mpi_exponent x.
Definition mpi (x : Z) (fNegative : bool) : Z :=
  mpi_mantissa x + (if fNegative && negb (mpi_mantissa x =? 0) then 2 ^ 23 else 0) + mpi_exponent x * 2 ^ 24.

Lemma GetLow64_spec pn : limbs pn -> GetLow64 pn = val pn mod 2 ^ 64.
Proof.
  intros Hp. unfold GetLow64. destruct Hp as [|x t Hx Ht]; [reflexivity|]. destruct Ht as [|y t Hy Ht].
  - cbn [nth val]. rewrite Z.shiftl_0_l, Z.lor_0_r. unfold word in Hx. rewrite Z.mod_small; lia.
  - cbn [nth val]. rewrite lor_disjoint_add by (lia || exact Hx). symmetry. unfold word in *.
    apply mod_unique with (val t); lia.
Qed.

Lemma testbit_top x n : 0 <= n -> 0 <= x < 2 ^ (n + 1) -> Z.testbit x n = (2 ^ n <=? x).
Proof.
  intros Hn Hx. rewrite Z.pow_add_r in Hx by lia. assert (0 < 2 ^ n) by (apply Z.pow_pos_nonneg; lia).
  rewrite Z.testbit_odd, Z.shiftr_div_pow2 by exact Hn. destruct (Z.leb_spec (2 ^ n) x).
  - rewrite <- (Z.div_unique x (2 ^ n) 1 (x - 2 ^ n)) by lia. reflexivity.
  - rewrite Z.div_small by lia. reflexivity.
Qed.

Lemma land_high_zero x : 0 <= x < 2 ^ 23 -> x .& (0x007fffff .^ 0xffffffff) = 0.
Proof.
  intros Hx. apply Z.bits_inj'. intros i Hi. rewrite Z.land_spec, Z.bits_0.
  change (0x007fffff .^ 0xffffffff) with (Z.ones 9 << 23). rewrite testbit_shiftl.
  destruct (Z.lt_ge_cases i 23).
  - destruct (Z.ltb_spec i 0), (Z.ltb_spec (i - 23) 0); try lia; apply andb_false_r.
  - rewrite (word_testbit_high 23) by (lia || exact Hx). reflexivity.
Qed.

(** The bytes of a number before the sign bit is considered, and the leading three. *)
Lemma byte_count x : 0 <= x < 2 ^ 256 ->
  0 <= (bit_length x + 7) / 8 <= 32 /\ x < 256 ^ ((bit_length x + 7) / 8) /\
  (0 < x -> (256 ^ ((bit_length x + 7) / 8) <= 2 * x <-> bit_length x mod 8 = 0)).
Proof.
  intros Hx. destruct (bit_length_spec x ltac:(lia)) as (H0 & H1 & H2).
  assert (H3 : bit_length x <= 256).
  { unfold bit_length. destruct (Z.eqb_spec x 0); [lia|]. assert (Z.log2 x < 256); [apply Z.log2_lt_pow2|]; lia. }
  set (b := bit_length x) in *. pose proof (Z.div_mod (b + 7) 8 ltac:(lia)). pose proof (Z.mod_pos_bound (b + 7) 8 ltac:(lia)).
  pose proof (Z.div_mod b 8 ltac:(lia)). pose proof (Z.mod_pos_bound b 8 ltac:(lia)).
  set (n := (b + 7) / 8) in *. rewrite pow256 by lia.
  split; [lia|]. split; [apply Z.lt_le_trans with (1 := H1); apply Z.pow_le_mono_r; lia|].
  intros Hpos. specialize (H2 Hpos).
  assert (b <> 0) by (intros Eb; rewrite Eb in H1; change (2 ^ 0) with 1 in H1; lia). split.
  - intros Hle. destruct (Z.eq_dec (b mod 8) 0) as [|Hne]; [assumption|]. exfalso.
    assert (2 * 2 ^ b <= 2 ^ (8 * n)) by (rewrite <- Z.pow_succ_r by lia; apply Z.pow_le_mono_r; lia). lia.
  - intros Hz. replace (8 * n) with (Z.succ (b - 1)) by lia. rewrite Z.pow_succ_r by lia. lia.
Qed.

(** The three leading bytes, as the code extracts them. *)
Lemma leading_bytes this :
  limbs this -> length this = WIDTH ->
  let nSize := (bit_length (val this) + 7) / 8 in
  (if nSize <=? 3 then to_u32 (to_u64 (GetLow64 this << (8 * (3 - nSize))))
   else to_u32 (GetLow64 (op_shr this (8 * (nSize - 3))))) = val this * 256 ^ 3 / 256 ^ nSize
  /\ 0 <= val this * 256 ^ 3 / 256 ^ nSize < 2 ^ 24.
Proof.
  intros Hp Hl nSize. pose proof (val_bound this Hp) as Hb. unfold modulus in Hb. rewrite Hl in Hb.
  change (2 ^ (32 * Z.of_nat WIDTH)) with (2 ^ 256) in Hb.
  destruct (byte_count (val this) Hb) as (N1 & N2 & _). fold nSize in N1, N2. set (x := val this) in *.
  assert (Hn : 0 < 256 ^ nSize) by (apply Z.pow_pos_nonneg; lia).
  assert (Hq : 0 <= x * 256 ^ 3 / 256 ^ nSize < 2 ^ 24).
  { split; [apply Z.div_pos; lia|]. apply Z.div_lt_upper_bound; lia. }
  split; [|exact Hq]. destruct (Z.leb_spec nSize 3) as [H3|H3].
  - assert (E : x * 256 ^ 3 / 256 ^ nSize = x * 2 ^ (8 * (3 - nSize))).
    { rewrite <- pow256 by lia. replace 3 with (3 - nSize + nSize) at 1 by lia.
      rewrite Z.pow_add_r, Z.mul_assoc by lia. apply Z.div_mul. lia. }
    assert (256 ^ nSize <= 256 ^ 3) by (apply Z.pow_le_mono_r; lia).
    rewrite GetLow64_spec by exact Hp. fold x. rewrite (Z.mod_small x) by lia. rewrite Z.shiftl_mul_pow2 by lia.
    rewrite <- E, to_u64_id, to_u32_id; unfold word; lia.
  - destruct (op_shr_spec this (8 * (nSize - 3)) Hp ltac:(lia)) as (S1 & S2 & S3).
    assert (E : x * 256 ^ 3 / 256 ^ nSize = x / 2 ^ (8 * (nSize - 3))).
    { rewrite <- pow256 by lia. replace nSize with (nSize - 3 + 3) at 1 by lia. rewrite Z.pow_add_r by lia.
      apply Z.div_mul_cancel_r; apply Z.pow_nonzero; lia. }
    rewrite GetLow64_spec, S3 by exact S1. fold x. rewrite <- E, Z.mod_small, to_u32_id; unfold word; lia.
Qed.

Lemma lor_sign m e (s : bool) :
  0 <= m < 2 ^ 23 -> 0 <= e < 256 ->
  (m .| to_u32 (e << 24)) .| (if s && negb ((m .| to_u32 (e << 24)) .& 0x007fffff =? 0) then 0x00800000 else 0)
  = m + (if s && negb (m =? 0) then 2 ^ 23 else 0) + e * 2 ^ 24.
Proof.
  intros Hm He. rewrite to_u32_id by (rewrite Z.shiftl_mul_pow2; unfold word; lia).
  assert (El : (m .| (e << 24)) .& 0x007fffff = m).
  { change 0x007fffff with (Z.ones 23). rewrite Z.land_ones, lor_disjoint_add by (lia || (unfold word; lia)).
    apply mod_unique with (e * 2); lia. }
  rewrite El. destruct (s && negb (m =? 0)).
  - rewrite <- Z.lor_assoc, (Z.lor_comm (e << 24)), Z.lor_assoc.
    change 0x00800000 with (1 << 23). rewrite (lor_disjoint_add m 1 23) by (lia || exact Hm).
    rewrite lor_disjoint_add; [lia | lia | unfold word; lia].
  - rewrite Z.lor_0_r, lor_disjoint_add by (lia || (unfold word; lia)). lia.
Qed.

(** [GetCompact] passes its assertions and returns the compact form of the value. *)
Lemma GetCompact_spec this fNegative :
  limbs this -> length this = WIDTH -> GetCompact this fNegative = Some (mpi (val this) fNegative).
Proof.
  intros Hp Hl. destruct (leading_bytes this Hp Hl) as [E1 E2].
  pose proof (val_bound this Hp) as Hb. unfold modulus in Hb. rewrite Hl in Hb.
  change (2 ^ (32 * Z.of_nat WIDTH)) with (2 ^ 256) in Hb.
  destruct (byte_count (val this) Hb) as (N1 & N2 & N3).
  unfold GetCompact. rewrite bits_spec by exact Hp. rewrite E1. set (x := val this) in *.
  set (n := (bit_length x + 7) / 8) in *. set (q := x * 256 ^ 3 / 256 ^ n) in *.
  change (q .& 0x00800000) with (q .& (1 << 23)). rewrite land_pow2_testbit, testbit_top by lia.
  assert (Hn : 0 < 256 ^ n) by (apply Z.pow_pos_nonneg; lia).
  assert (Hr : exists m e, (if 2 ^ 23 <=? q then (q >> 8, n + 1) else (q, n)) = (m, e) /\
                 e = mpi_exponent x /\ m = mpi_mantissa x /\ 0 <= m < 2 ^ 23 /\ 0 <= e < 256).
  { unfold mpi_mantissa, mpi_exponent. destruct (Z.eqb_spec x 0) as [E0|E0].
    - unfold q. rewrite E0. change (0 * 256 ^ 3) with 0. rewrite Z.div_0_l by lia.
      exists 0, n. assert (n = 0) as -> by (unfold n; rewrite E0; reflexivity). repeat split; reflexivity || lia.
    - specialize (N3 ltac:(lia)). pose proof (Z.div_mod (bit_length x) 8 ltac:(lia)).
      pose proof (Z.mod_pos_bound (bit_length x) 8 ltac:(lia)).
      pose proof (Z.div_mod (bit_length x + 7) 8 ltac:(lia)). pose proof (Z.mod_pos_bound (bit_length x + 7) 8 ltac:(lia)).
      fold n in H1. pose proof (Z.mul_div_le (x * 256 ^ 3) (256 ^ n) Hn) as D1. fold q in D1.
      pose proof (Z.mul_succ_div_gt (x * 256 ^ 3) (256 ^ n) Hn) as D2. fold q in D2.
      destruct (Z.leb_spec (2 ^ 23) q) as [Hq|Hq].
      + assert (bit_length x mod 8 = 0) by (apply N3; nia).
        exists (q >> 8), (n + 1). replace (bit_length x / 8 + 1) with (n + 1) by lia.
        assert (Ed : q >> 8 = x * 256 ^ 3 / 256 ^ (n + 1)).
        { rewrite Z.shiftr_div_pow2 by lia. unfold q. rewrite Z.div_div by lia. f_equal.
          rewrite Z.pow_add_r by lia. reflexivity. }
        split; [reflexivity|]. split; [reflexivity|]. split; [exact Ed|]. split; [|lia].
        rewrite Z.shiftr_div_pow2 by lia. split; [apply Z.div_pos; lia | apply Z.div_lt_upper_bound; lia].
      + assert (bit_length x mod 8 <> 0) by (intros Ez; apply N3 in Ez; nia).
        exists q, n. replace (bit_length x / 8 + 1) with n by lia. repeat split; reflexivity || lia. }
  destruct Hr as (m & e & -> & Ee & Em & Hm & He).
  rewrite land_high_zero by exact Hm. cbn [Z.eqb negb]. destruct (Z.ltb_spec e 256); [cbn [negb]|lia].
  rewrite lor_sign by assumption. now rewrite Ee, Em.
Qed.

(** ** Main results *)

(** [pn] is the array of [n] limbs that holds [x] modulo 2^(32n). *)
Definition holds (n : nat) (pn : list Z) (x : Z) : Prop :=
  limbs pn /\ length pn = n /\ val pn = x mod 2 ^ (32 * Z.of_nat n).

Lemma holds_intro n pn x y :
  limbs pn /\ length pn = n /\ val pn = y mod 2 ^ (32 * Z.of_nat n) ->
  y mod 2 ^ (32 * Z.of_nat n) = x mod 2 ^ (32 * Z.of_nat n) -> holds n pn x.
Proof. intros (H1 & H2 & H3) E. split; [exact H1|]. split; congruence. Qed.

Lemma holds_val n pn : limbs pn -> length pn = n -> holds n pn (val pn).
Proof.
  intros Hp Hl. split; [exact Hp|]. split; [exact Hl|]. symmetry. apply Z.mod_small.
  rewrite <- Hl. now apply val_bound.
Qed.

(** Arrays that hold the same number are equal. *)
Lemma holds_unique n a b x : holds n a x -> holds n b x -> a = b.
Proof. intros (A1 & A2 & A3) (B1 & B2 & B3). apply val_inj; congruence. Qed.

(** The arithmetic operators of [base_uint], at any width, compute with integers
    modulo 2^BITS: they map arrays that hold [x] and [y] to arrays that hold the
    sum, the difference, the product and so on. *)
Theorem base_uint_ring n a b x y b32 shift :
  holds n a x -> holds n b y -> u32 b32 -> 0 <= shift ->
  holds n (op_add a b) (x + y) /\ holds n (op_sub a b) (x - y) /\ holds n (op_mul a b) (x * y) /\
  holds n (op_mul32 a b32) (x * b32) /\ holds n (op_neg a) (- x) /\ holds n (op_not a) (- x - 1) /\
  holds n (increment a) (x + 1) /\ holds n (decrement a) (x - 1) /\ holds n (op_shl a shift) (x * 2 ^ shift).
Proof.
  intros (A1 & A2 & A3) (B1 & B2 & B3) H32 Hs.
  assert (Em : modulus a = 2 ^ (32 * Z.of_nat n)) by (unfold modulus; now rewrite A2).
  pose proof (op_add_spec a b A1 B1 ltac:(congruence)) as P1. pose proof (op_sub_spec a b A1 B1 ltac:(congruence)) as P2.
  pose proof (op_mul_spec a b A1 B1 ltac:(congruence)) as P3. pose proof (op_mul32_spec a b32 A1 H32) as P4.
  pose proof (op_neg_spec a A1) as P5. pose proof (increment_spec a A1) as P7. pose proof (decrement_spec a A1) as P8.
  pose proof (op_shl_spec a shift A1 Hs) as P9. destruct (op_not_spec a A1) as (N1 & N2 & N3).
  rewrite Em, ?A2 in *. set (m := 2 ^ (32 * Z.of_nat n)) in *.
  repeat match goal with |- _ /\ _ => split end.
  - eapply holds_intro; [exact P1|]. rewrite A3, B3. symmetry. apply Zplus_mod.
  - eapply holds_intro; [exact P2|]. rewrite A3, B3. symmetry. apply Zminus_mod.
  - eapply holds_intro; [exact P3|]. rewrite A3, B3. symmetry. apply Zmult_mod.
  - eapply holds_intro; [exact P4|]. rewrite A3. apply Zmult_mod_idemp_l.
  - eapply holds_intro; [exact P5|]. rewrite A3. rewrite <- !Z.sub_0_l. apply Zminus_mod_idemp_r.
  - split; [exact N1|]. split; [exact N2|]. rewrite N3, A3.
    assert (Hm : 0 < m) by (rewrite <- Em; apply modulus_pos). pose proof (Z.mod_pos_bound x m Hm).
    symmetry. apply mod_unique with (- (x / m) - 1); [lia|]. pose proof (Z.div_mod x m ltac:(lia)). fold m. nia.
  - eapply holds_intro; [exact P7|]. rewrite A3. apply Zplus_mod_idemp_l.
  - eapply holds_intro; [exact P8|]. rewrite A3. apply Zminus_mod_idemp_l.
  - eapply holds_intro; [exact P9|]. rewrite A3. apply Zmult_mod_idemp_l.
Qed.

(** Comparison, the zero test, [bits] and the right shift are those of the values. *)
Theorem base_uint_order a b shift :
  limbs a -> limbs b -> length a = length b -> 0 <= shift ->
  CompareTo a b = match val a ?= val b with Lt => -1 | Eq => 0 | Gt => 1 end /\
  op_eq a b = (val a =? val b) /\ IsNull a = (val a =? 0) /\ bits a = bit_length (val a) /\
  val (op_shr a shift) = val a / 2 ^ shift.
Proof.
  intros Ha Hb Hl Hs. split; [now apply CompareTo_spec|]. split.
  - revert b Hb Hl. induction Ha as [|x a Hx Ha IH]; intros [|y b] Hb Hl; try discriminate; [reflexivity|].
    apply Forall_cons_iff in Hb. destruct Hb as [Hy Hb]. injection Hl as Hl. cbn [op_eq val]. rewrite IH by assumption.
    unfold word in *. destruct (Z.eqb_spec x y), (Z.eqb_spec (val a) (val b)),
      (Z.eqb_spec (x + 2 ^ 32 * val a) (y + 2 ^ 32 * val b)); reflexivity || lia.
  - split; [now apply IsNull_spec|]. split; [now apply bits_spec|]. now apply op_shr_spec.
Qed.

(** The shift-and-subtract division throws exactly when the divisor is zero, and
    otherwise terminates with the integer quotient. *)
Theorem base_uint_div a b :
  limbs a -> limbs b -> length a = length b ->
  (op_div a b = None <-> val b = 0) /\
  (val b <> 0 -> exists q, op_div a b = Some q /\ holds (length a) q (val a / val b)).
Proof.
  intros Ha Hb Hl. pose proof (op_div_spec a b Ha Hb Hl) as Hd. destruct (op_div a b) as [q|].
  - destruct Hd as (H1 & H2 & H3 & H4). split; [split; [discriminate | contradiction]|].
    intros _. exists q. split; [reflexivity|]. rewrite <- H4. now apply holds_val.
  - split; [tauto | contradiction].
Qed.

(** C17: [SetCompact] decodes the exponent, the mantissa and the sign: it yields the
    magnitude modulo 2^256, and its overflow flag tells exactly that the magnitude
    does not fit in 256 bits. *)
Theorem SetCompact_correct c :
  u32 c ->
  let '(t, neg, ovf) := SetCompact c in
  holds WIDTH t (compact_abs c) /\ neg = negb (compact_abs c =? 0) && Z.testbit c 23 /\
  ovf = (2 ^ 256 <=? compact_abs c).
Proof.
  intros Hc. pose proof (SetCompact_spec c Hc) as H. destruct (SetCompact c) as [[t neg] ovf].
  destruct H as (H1 & H2 & H3 & H4). split; [|exact H4]. now split.
Qed.

(** ** Round trip of the compact format *)

Lemma bit_length_unique x b : 0 <= b -> 2 ^ b <= x < 2 ^ (b + 1) -> bit_length x = b + 1.
Proof.
  intros Hb Hx. assert (0 < 2 ^ b) by (apply Z.pow_pos_nonneg; lia). unfold bit_length.
  destruct (Z.eqb_spec x 0); [lia|]. f_equal. apply Z.log2_unique; [lia|]. rewrite <- Z.add_1_r. exact Hx.
Qed.

(** The exponent of the compact form leaves room for the sign. *)
Lemma mpi_bounds x : 0 <= x -> 0 <= mpi_exponent x /\
  0 <= mpi_mantissa x < 2 ^ 23 /\ (x < 2 ^ 256 -> mpi_exponent x < 256).
Proof.
  intros Hx. unfold mpi_mantissa, mpi_exponent. destruct (Z.eqb_spec x 0) as [->|Hne].
  { change (0 * 256 ^ 3 / 256 ^ 0) with 0. lia. }
  destruct (bit_length_spec x Hx) as (H0 & H1 & H2). set (b := bit_length x) in *.
  pose proof (Z.div_mod b 8 ltac:(lia)). pose proof (Z.mod_pos_bound b 8 ltac:(lia)).
  assert (Hp : 2 * x < 256 ^ (b / 8 + 1)).
  { rewrite pow256 by lia. assert (Hm : 2 ^ (b + 1) <= 2 ^ (8 * (b / 8 + 1))) by (apply Z.pow_le_mono_r; lia).
    rewrite Z.pow_add_r in Hm by lia. lia. }
  split; [lia|]. split.
  - split; [apply Z.div_pos; lia | apply Z.div_lt_upper_bound; lia].
  - intros H256. assert (b <= 256); [|lia]. destruct (Z.le_gt_cases b 256); [assumption|].
    assert (2 ^ 256 <= 2 ^ (b - 1)) by (apply Z.pow_le_mono_r; lia). lia.
Qed.

Lemma mpi_parts x s :
  0 <= x < 2 ^ 256 ->
  u32 (mpi x s) /\ compact_exponent (mpi x s) = mpi_exponent x /\ compact_mantissa (mpi x s) = mpi_mantissa x /\
  Z.testbit (mpi x s) 23 = s && negb (mpi_mantissa x =? 0).
Proof.
  intros Hx. destruct (mpi_bounds x ltac:(lia)) as (E1 & E3 & E4). specialize (E4 ltac:(lia)).
  unfold mpi, compact_exponent, compact_mantissa. set (m := mpi_mantissa x) in *. set (e := mpi_exponent x) in *.
  set (g := s && negb (m =? 0)). set (sg := if g then 2 ^ 23 else 0).
  assert (Hs : sg = 0 \/ sg = 2 ^ 23) by (unfold sg; destruct g; auto).
  split; [unfold word; lia|]. change 0x007fffff with (Z.ones 23). rewrite Z.land_ones, Z.shiftr_div_pow2 by lia.
  split; [|split].
  - symmetry. apply Z.div_unique with (m + sg); lia.
  - apply mod_unique with ((if g then 1 else 0) + 2 * e); [lia|]. unfold sg. destruct g; lia.
  - rewrite Z.testbit_odd, Z.shiftr_div_pow2 by lia.
    rewrite <- (Z.div_unique _ (2 ^ 23) ((if g then 1 else 0) + 2 * e) m) by (unfold sg; destruct g; lia).
    rewrite Z.odd_add_mul_2. now destruct g.
Qed.

(** The number of low bytes the compact form drops. *)
Definition dropped (x : Z) : Z := Z.max 0 (mpi_exponent x - 3).

Lemma mpi_mantissa_dropped x :
  0 <= x -> mpi_mantissa x = x / 256 ^ dropped x * 256 ^ (dropped x + 3 - mpi_exponent x).
Proof.
  intros Hx. destruct (mpi_bounds x Hx) as (E1 & _). unfold mpi_mantissa, dropped.
  destruct (Z.max_spec 0 (mpi_exponent x - 3)) as [[H ->]|[H ->]].
  - replace (mpi_exponent x - 3 + 3 - mpi_exponent x) with 0 by lia.
    replace (mpi_exponent x) with (mpi_exponent x - 3 + 3) at 1 by lia. rewrite Z.pow_add_r by lia.
    rewrite Z.mul_1_r. apply Z.div_mul_cancel_r; apply Z.pow_nonzero; lia.
  - change (256 ^ 0) with 1. rewrite Z.div_1_r. replace 3 with (0 + 3 - mpi_exponent x + mpi_exponent x) at 1 by lia.
    rewrite Z.pow_add_r, Z.mul_assoc by lia. apply Z.div_mul. apply Z.pow_nonzero; lia.
Qed.

Lemma compact_abs_mpi x s :
  0 <= x < 2 ^ 256 -> compact_abs (mpi x s) = x - x mod 256 ^ dropped x.
Proof.
  intros Hx. destruct (mpi_parts x s Hx) as (_ & Pe & Pm & _). destruct (mpi_bounds x ltac:(lia)) as (E1 & _).
  unfold compact_abs. rewrite Pe, Pm, mpi_mantissa_dropped by lia.
  assert (Hd : 0 < 256 ^ dropped x) by (apply Z.pow_pos_nonneg; unfold dropped; lia).
  pose proof (Z.div_mod x (256 ^ dropped x) ltac:(lia)) as Ex.
  replace (x / 256 ^ dropped x * 256 ^ (dropped x + 3 - mpi_exponent x) * 256 ^ mpi_exponent x)
    with (x / 256 ^ dropped x * 256 ^ dropped x * 256 ^ 3).
  - rewrite Z.div_mul by lia. lia.
  - rewrite <- !Z.mul_assoc, <- !Z.pow_add_r by (unfold dropped; lia). do 2 f_equal. lia.
Qed.

(** Only low bits are dropped: fifteen significant bits are kept at least. *)
Lemma dropped_precision x : 0 <= x -> dropped x = 0 \/ 2 ^ 15 * 256 ^ dropped x <= x.
Proof.
  intros Hx. unfold dropped. destruct (Z.max_spec 0 (mpi_exponent x - 3)) as [[H ->]|[H ->]]; [right | now left].
  unfold mpi_exponent in *. destruct (Z.eqb_spec x 0); [lia|].
  destruct (bit_length_spec x Hx) as (H0 & H1 & H2). specialize (H2 ltac:(lia)).
  pose proof (Z.div_mod (bit_length x) 8 ltac:(lia)). pose proof (Z.mod_pos_bound (bit_length x) 8 ltac:(lia)).
  apply Z.le_trans with (2 := H2). rewrite pow256, <- Z.pow_add_r by lia. apply Z.pow_le_mono_r; lia.
Qed.

(** Dropping the low bytes does not change the compact form. *)
Lemma mpi_truncated x s : 0 <= x -> mpi (x - x mod 256 ^ dropped x) s = mpi x s.
Proof.
  intros Hx. pose proof (dropped_precision x Hx) as Hp. set (d := dropped x) in *. destruct Hp as [Hz|Hp].
  { rewrite Hz. change (256 ^ 0) with 1. now rewrite Z.mod_1_r, Z.sub_0_r. }
  assert (H0 : 0 <= d) by (unfold d, dropped; lia). assert (Hd : 0 < 256 ^ d) by (apply Z.pow_pos_nonneg; lia).
  pose proof (Z.div_mod x (256 ^ d) ltac:(lia)) as Ex. pose proof (Z.mod_pos_bound x (256 ^ d) Hd).
  set (y := x - x mod 256 ^ d).
  assert (Eb : bit_length y = bit_length x).
  { destruct (bit_length_spec x Hx) as (B0 & B1 & B2). specialize (B2 ltac:(lia)).
    rewrite (bit_length_unique y (bit_length x - 1)); [lia | | ].
    - destruct (Z.eq_dec (bit_length x) 0) as [E|]; [rewrite E in B1; change (2 ^ 0) with 1 in B1; nia | lia].
    - replace (bit_length x - 1 + 1) with (bit_length x) by lia. split; [|lia].
      assert (Hle : 8 * d <= bit_length x - 1).
      { destruct (Z.le_gt_cases (8 * d) (bit_length x - 1)); [assumption|].
        assert (Hlt : 2 ^ bit_length x <= 2 ^ (8 * d)) by (apply Z.pow_le_mono_r; lia). rewrite <- pow256 in Hlt by lia. lia. }
      replace (bit_length x - 1) with (bit_length x - 1 - 8 * d + 8 * d) in * by lia.
      rewrite Z.pow_add_r, <- pow256 in * by lia. set (p := 2 ^ (bit_length x - 1 - 8 * d)) in *.
      assert (p <= x / 256 ^ d) by (apply Z.div_le_lower_bound; lia). unfold y. nia. }
  assert (Ey : 0 < y) by (unfold y; lia).
  assert (Ee : mpi_exponent y = mpi_exponent x).
  { unfold mpi_exponent. rewrite Eb. destruct (Z.eqb_spec y 0), (Z.eqb_spec x 0); reflexivity || lia. }
  assert (Em : mpi_mantissa y = mpi_mantissa x).
  { rewrite !mpi_mantissa_dropped by lia. unfold dropped at 1 2. rewrite Ee. fold (dropped x). fold d. f_equal.
    unfold y. replace (x - x mod 256 ^ d) with (x / 256 ^ d * 256 ^ d) by lia. apply Z.div_mul. lia. }
  unfold mpi. now rewrite Ee, Em.
Qed.

(** Encoding a target in the compact format and decoding it drops only the low
    bytes that do not fit in the mantissa, keeps the sign, never overflows, and
    re-encoding gives the same compact number. *)
Theorem compact_roundtrip this fNegative :
  limbs this -> length this = WIDTH ->
  exists c t d,
    GetCompact this fNegative = Some c /\ u32 c /\ 0 <= d /\ (d = 0 \/ 2 ^ 15 * 256 ^ d <= val this) /\
    holds WIDTH t (val this - val this mod 256 ^ d) /\
    SetCompact c = (t, fNegative && negb (val t =? 0), false) /\ GetCompact t fNegative = Some c.
Proof.
  intros Hp Hl. pose proof (val_bound this Hp) as Hb. unfold modulus in Hb. rewrite Hl in Hb.
  change (2 ^ (32 * Z.of_nat WIDTH)) with (2 ^ 256) in Hb. set (x := val this) in *.
  destruct (mpi_parts x fNegative Hb) as (P1 & P2 & P3 & P4).
  pose proof (SetCompact_spec (mpi x fNegative) P1) as Hset.
  destruct (SetCompact (mpi x fNegative)) as [[t neg] ovf] eqn:Es. destruct Hset as (S1 & S2 & S3 & S4 & S5).
  pose proof (compact_abs_mpi x fNegative Hb) as Ec. rewrite Ec in *. pose proof (dropped_precision x ltac:(lia)) as Hprec. set (d := dropped x) in *.
  assert (H0 : 0 <= d) by (unfold d, dropped; lia). assert (Hd : 0 < 256 ^ d) by (apply Z.pow_pos_nonneg; lia).
  pose proof (Z.mod_pos_bound x (256 ^ d) Hd). pose proof (Z.mod_le x (256 ^ d) ltac:(lia) Hd).
  assert (Hy : val t = x - x mod 256 ^ d) by (rewrite S3; apply Z.mod_small; lia).
  exists (mpi x fNegative), t, d. split; [now apply GetCompact_spec|]. split; [exact P1|].
  split; [exact H0|]. split; [exact Hprec|].
  split; [rewrite <- Hy; now apply holds_val|]. split.
  - rewrite Es, S5, S4, P4, Hy. replace (2 ^ 256 <=? x - x mod 256 ^ d) with false by (symmetry; apply Z.leb_gt; lia).
    do 2 f_equal. destruct (Z.eqb_spec (mpi_mantissa x) 0) as [Em|Em]; [|cbn [negb]; rewrite andb_true_r; apply andb_comm].
    assert (Ez : x - x mod 256 ^ d = 0) by (rewrite <- Ec; unfold compact_abs; rewrite P2, P3, Em, Z.mul_0_l; reflexivity).
    rewrite Ez. cbn. now rewrite andb_false_r.
  - rewrite GetCompact_spec by assumption. rewrite Hy. now rewrite mpi_truncated by lia.
Qed.

(** ** The results at concrete numbers *)

(** 2^224 - 1 and 10^20, as arrays. *)
Definition some_limbs : list Z := repeat 0xffffffff 7 ++ [0].
Definition other_limbs : list Z := [1661992960; 1808227885; 5; 0; 0; 0; 0; 0].

Lemma some_limbs_ok : limbs some_limbs /\ limbs other_limbs.
Proof. split; repeat constructor; lia. Qed.

Lemma base_uint_ring_witness :
  holds 8 (op_mul some_limbs other_limbs) ((2 ^ 224 - 1) * 10 ^ 20) /\
  op_mul some_limbs other_limbs
  = [2632974336; 2486739410; 4294967290; 4294967295; 4294967295; 4294967295; 4294967295; 1661992959].
Proof.
  split; [|vm_compute; reflexivity].
  assert (H1 : holds 8 some_limbs (2 ^ 224 - 1))
    by (split; [exact (proj1 some_limbs_ok)|]; split; vm_compute; reflexivity).
  assert (H2 : holds 8 other_limbs (10 ^ 20))
    by (split; [exact (proj2 some_limbs_ok)|]; split; vm_compute; reflexivity).
  exact (proj1 (proj2 (proj2 (base_uint_ring 8 some_limbs other_limbs (2 ^ 224 - 1) (10 ^ 20) 60 4 H1 H2
    ltac:(split; lia) ltac:(lia))))).
Defined.

Lemma base_uint_order_witness :
  CompareTo some_limbs other_limbs = 1 /\ bits some_limbs = 224 /\ val (op_shr other_limbs 3) = 10 ^ 20 / 2 ^ 3.
Proof.
  destruct (base_uint_order some_limbs other_limbs 3 (proj1 some_limbs_ok) (proj2 some_limbs_ok) eq_refl ltac:(lia))
    as (H1 & _ & _ & H4 & _).
  destruct (base_uint_order other_limbs some_limbs 3 (proj2 some_limbs_ok) (proj1 some_limbs_ok) eq_refl ltac:(lia))
    as (_ & _ & _ & _ & H5).
  split; [rewrite H1; vm_compute; reflexivity|]. split; [rewrite H4; vm_compute; reflexivity|].
  rewrite H5. vm_compute. reflexivity.
Defined.

Lemma base_uint_div_witness :
  (exists q, op_div some_limbs other_limbs = Some q /\ holds 8 q ((2 ^ 224 - 1) / 10 ^ 20)) /\
  op_div some_limbs (zero 8) = None.
Proof.
  split.
  - destruct (base_uint_div some_limbs other_limbs (proj1 some_limbs_ok) (proj2 some_limbs_ok) eq_refl) as [_ H].
    exact (H ltac:(vm_compute; discriminate)).
  - apply (proj1 (base_uint_div some_limbs (zero 8) (proj1 some_limbs_ok) (limbs_zero 8) eq_refl)). reflexivity.
Defined.

(** The limit of the main network, and a compact number that overflows. *)
Lemma SetCompact_correct_witness :
  (let '(t, neg, ovf) := SetCompact 0x1e0ffff0 in holds 8 t (0x0ffff0 * 256 ^ 27) /\ neg = false /\ ovf = false) /\
  (let '(t, neg, ovf) := SetCompact 0x23800001 in neg = true /\ ovf = true).
Proof.
  split.
  - pose proof (SetCompact_correct 0x1e0ffff0 ltac:(split; lia)) as H. destruct (SetCompact 0x1e0ffff0) as [[t neg] ovf].
    destruct H as (H1 & H2 & H3). split; [exact H1|]. split; [rewrite H2 | rewrite H3]; vm_compute; reflexivity.
  - pose proof (SetCompact_correct 0x23800001 ltac:(split; lia)) as H. destruct (SetCompact 0x23800001) as [[t neg] ovf].
    destruct H as (_ & H2 & H3). split; [rewrite H2 | rewrite H3]; vm_compute; reflexivity.
Defined.

Lemma compact_roundtrip_witness :
  exists c t d,
    GetCompact some_limbs false = Some c /\ c = 0x1d00ffff /\ d = 26 /\ 
    holds WIDTH t (val some_limbs - val some_limbs mod 256 ^ d) /\ SetCompact c = (t, false, false).
Proof.
  destruct (compact_roundtrip some_limbs false (proj1 some_limbs_ok) eq_refl)
    as (c & t & d & H1 & H2 & H3 & H4 & H5 & H6 & _).
  exists c, t, 26. vm_compute in H1. injection H1 as <-.
  split; [vm_compute; reflexivity|]. split; [reflexivity|]. split; [reflexivity|].
  split; [|exact H6].
  destruct H5 as (L1 & L2 & L3). split; [exact L1|]. split; [exact L2|].
  vm_compute in H6. injection H6 as <-. vm_compute. reflexivity.
Defined.

End Arith.
