(* ===== verification/Work.v ===== *)
(** * src/pow.cpp: proof of work and the work of a block

    [CheckProofOfWork] and [GetBlockProof] on the arrays of [Arith].  The network
    parameters they read ([IsRegTestNet], [powLimit]) are arguments; [None] is the
    exception of a division by zero. *)

From Stdlib Require Import ZArith List Lia Bool.
From S2P Require Import Prelude Arith.
Import ListNotations.
Import Arith.
Open Scope Z_scope.

Module Work.

Definition CheckProofOfWork (fRegTest : bool) (powLimit : list Z) (hash : list Z) (nBits : Z) : bool :=
  if fRegTest then true
  else
    let '(bnTarget, fNegative, fOverflow) := SetCompact nBits in
    if fNegative || IsNull bnTarget || fOverflow || (CompareTo bnTarget powLimit >? 0) then false
    else if CompareTo hash bnTarget >? 0 then false
    else true.

Definition GetBlockProof (nBits : Z) : option (list Z) :=
  let '(bnTarget, fNegative, fOverflow) := SetCompact nBits in
  if fNegative || fOverflow || IsNull bnTarget then Some (zero WIDTH)
  else
    match op_div (op_not bnTarget) (op_add bnTarget (of_uint64 WIDTH 1)) with
    | Some q => Some (op_add q (of_uint64 WIDTH 1))
    | None => None
    end.

(** A compact number that stands for a target: positive, and below 2^256. *)
Definition valid_target (nBits : Z) : bool :=
  negb (Z.testbit nBits 23) && (0 <? compact_abs nBits) && (compact_abs nBits <? 2 ^ 256).

(** The expected number of hashes to meet a target. *)
Definition work (nBits : Z) : Z := if valid_target nBits then 2 ^ 256 / (compact_abs nBits + 1) else 0.

(** The flags of [SetCompact], as one test. *)
Lemma SetCompact_target c :
  u32 c ->
  let '(t, neg, ovf) := SetCompact c in
  limbs t /\ length t = WIDTH /\ neg || IsNull t || ovf = negb (valid_target c) /\
  (valid_target c = true -> val t = compact_abs c).
Proof.
  intros Hc. pose proof (SetCompact_spec c Hc) as H. destruct (SetCompact c) as [[t neg] ovf].
  destruct H as (H1 & H2 & H3 & -> & ->). rewrite IsNull_spec, H3 by exact H1. unfold valid_target.
  assert (H0 : 0 <= compact_abs c).
  { destruct (compact_parts c Hc). apply Z.div_pos; [apply Z.mul_nonneg_nonneg; [lia | apply Z.pow_nonneg; lia] | lia]. }
  set (x := compact_abs c) in *. split; [exact H1|]. split; [exact H2|]. split.
  - destruct (Z.leb_spec (2 ^ 256) x), (Z.ltb_spec x (2 ^ 256)); try lia; rewrite ?orb_true_r, ?andb_false_r; try reflexivity.
    rewrite Z.mod_small by lia. destruct (Z.eqb_spec x 0), (Z.ltb_spec 0 x), (Z.testbit c 23); reflexivity || lia.
  - intros Hv. apply andb_true_iff in Hv. destruct Hv as [Hv Hlt]. apply Z.ltb_lt in Hlt. apply Z.mod_small. lia.
Qed.

Lemma length_modulus t : length t = WIDTH -> modulus t = 2 ^ 256.
Proof. unfold modulus. now intros ->. Qed.

(** A block passes exactly when its target is one, is at most the limit, and the
    hash is at most the target; on a regression test network every block passes. *)
Theorem CheckProofOfWork_correct fRegTest powLimit hash nBits :
  limbs powLimit -> length powLimit = WIDTH -> limbs hash -> length hash = WIDTH -> u32 nBits ->
  CheckProofOfWork fRegTest powLimit hash nBits = true <->
  fRegTest = true \/
  valid_target nBits = true /\ compact_abs nBits <= val powLimit /\ val hash <= compact_abs nBits.
Proof.
  intros L1 L2 H1 H2 Hn. unfold CheckProofOfWork. destruct fRegTest; [tauto|].
  pose proof (SetCompact_target nBits Hn) as H. destruct (SetCompact nBits) as [[t neg] ovf].
  destruct H as (T1 & T2 & T3 & T4). rewrite T3, !CompareTo_gtb by (assumption || congruence).
  destruct (valid_target nBits); cbn [negb orb].
  - rewrite (T4 eq_refl). destruct (Z.ltb_spec (val powLimit) (compact_abs nBits)); [split; [discriminate | intuition (discriminate || lia)]|].
    destruct (Z.ltb_spec (compact_abs nBits) (val hash)); split; intuition (discriminate || lia).
  - split; [discriminate | intuition discriminate].
Qed.

(** A compact number that fits in 256 bits is below 2^255: one more does not wrap. *)
Lemma valid_target_bound c : u32 c -> compact_abs c < 2 ^ 256 -> compact_abs c < 2 ^ 256 - 1.
Proof.
  intros Hc Hlt. destruct (compact_parts c Hc) as [He Hm].
  destruct (Z.le_gt_cases (compact_exponent c) 3) as [H3|H3].
  - rewrite compact_abs_small by lia. rewrite Z.shiftr_div_pow2 by lia.
    assert (0 < 2 ^ (8 * (3 - compact_exponent c))) by (apply Z.pow_pos_nonneg; lia).
    assert (compact_mantissa c / 2 ^ (8 * (3 - compact_exponent c)) <= compact_mantissa c)
      by (apply Z.div_le_upper_bound; nia). lia.
  - rewrite compact_abs_large in * by lia. 
    assert (E : 2 ^ (8 * (compact_exponent c - 3)) = 2 * 2 ^ (8 * (compact_exponent c - 3) - 1)).
    { rewrite <- Z.pow_succ_r by lia. f_equal. lia. }
    rewrite E in *. lia.
Qed.

(** [(~t / (t + 1)) + 1] is 2^256 / (t + 1), although 2^256 is not a 256-bit number;
    the division never throws. *)
Lemma GetBlockProof_spec nBits :
  u32 nBits -> exists w, GetBlockProof nBits = Some w /\ limbs w /\ length w = WIDTH /\ val w = work nBits.
Proof.
  intros Hn. unfold GetBlockProof, work. pose proof (SetCompact_target nBits Hn) as H.
  destruct (SetCompact nBits) as [[t neg] ovf]. destruct H as (T1 & T2 & T3 & T4).
  rewrite <- orb_assoc, (orb_comm ovf), orb_assoc, T3.
  destruct (valid_target nBits) eqn:Ev; cbn [negb].
  - specialize (T4 eq_refl). unfold valid_target in Ev. apply andb_true_iff in Ev. destruct Ev as [Ev Hlt].
    apply andb_true_iff in Ev. destruct Ev as [_ Hpos]. apply Z.ltb_lt in Hlt, Hpos.
    pose proof (valid_target_bound nBits Hn Hlt) as Hb. set (T := compact_abs nBits) in *.
    destruct (of_uint64_spec WIDTH 1 ltac:(unfold WIDTH; lia) ltac:(split; lia)) as (O1 & O2 & O3).
    destruct (op_not_spec t T1) as (N1 & N2 & N3). rewrite length_modulus, T4 in N3 by exact T2.
    destruct (op_add_spec t _ T1 O1 ltac:(congruence)) as (A1 & A2 & A3).
    rewrite length_modulus, O3, T4, Z.mod_small in A3 by (exact T2 || lia).
    pose proof (op_div_spec _ _ N1 A1 ltac:(congruence)) as D. destruct (op_div _ _) as [q|]; [|lia].
    destruct D as (_ & D2 & D3 & D4). rewrite N3, A3 in D4.
    assert (Eq : 2 ^ 256 / (T + 1) = (2 ^ 256 - 1 - T) / (T + 1) + 1).
    { rewrite <- Z.div_add by lia. f_equal. lia. }
    assert (Hq : 0 <= (2 ^ 256 - 1 - T) / (T + 1) < 2 ^ 256 - 1).
    { split; [apply Z.div_pos; lia | apply Z.div_lt_upper_bound; nia]. }
    destruct (op_add_spec q _ D2 O1 ltac:(congruence)) as (B1 & B2 & B3).
    rewrite length_modulus, O3, D4, Z.mod_small in B3 by (congruence || lia).
    eexists. split; [reflexivity|]. split; [exact B1|]. split; [congruence|]. now rewrite B3, Eq.
  - exists (zero WIDTH). split; [reflexivity|]. split; [apply limbs_zero|]. split; [reflexivity | apply val_zero].
Qed.

(** [GetBlockProof] never throws and returns the work of the target, 0 when it is not one. *)
Theorem GetBlockProof_correct nBits :
  u32 nBits -> exists w, GetBlockProof nBits = Some w /\ holds WIDTH w (work nBits).
Proof.
  intros Hn. destruct (GetBlockProof_spec nBits Hn) as (w & E & H1 & H2 & H3).
  exists w. split; [exact E|]. rewrite <- H3. now apply holds_val.
Qed.

(** The work of the limit of the main network, and of an invalid target. *)
Lemma GetBlockProof_correct_witness :
  (exists w, GetBlockProof 0x1e0ffff0 = Some w /\ holds WIDTH w 0x100010) /\
  (exists w, GetBlockProof 0x1e8ffff0 = Some w /\ holds WIDTH w 0).
Proof.
  split.
  - exact (GetBlockProof_correct 0x1e0ffff0 ltac:(split; lia)).
  - exact (GetBlockProof_correct 0x1e8ffff0 ltac:(split; lia)).
Defined.

(** A hash of 2^200 meets the target 2^224 - 1 (rounded) under a limit of 2^236. *)
Lemma CheckProofOfWork_correct_witness :
  CheckProofOfWork false (op_shl (of_uint64 WIDTH 1) 236) (op_shl (of_uint64 WIDTH 1) 200) 0x1d00ffff = true.
Proof.
  destruct (of_uint64_spec WIDTH 1 ltac:(unfold WIDTH; lia) ltac:(split; lia)) as (O1 & O2 & O3).
  destruct (op_shl_spec _ 236 O1 ltac:(lia)) as (L1 & L2 & _). destruct (op_shl_spec _ 200 O1 ltac:(lia)) as (H1 & H2 & _).
  apply (CheckProofOfWork_correct false _ _ 0x1d00ffff L1 ltac:(congruence) H1 ltac:(congruence) ltac:(split; lia)).
  right. vm_compute. split; [reflexivity|]. split; discriminate.
Defined.

End Work.
