(* ===== verification/Consensus.v ===== *)
(** * src/consensus/params.h, src/consensus/upgrades.cpp: consensus parameters

    The parameters the consensus code reads and the schedule of the network
    upgrades.  Upgrades are numbered as in [UpgradeIndex]; [vUpgrades] holds their
    activation heights.  [None] is a failed assertion. *)

From Stdlib Require Import ZArith List Lia Bool.
From S2P Require Import Prelude Arith.
Import ListNotations.
Open Scope Z_scope.

Module Consensus.

(** ** Parameters *)

Inductive UpgradeIndex : Type :=
| BASE_NETWORK | UPGRADE_POS | UPGRADE_POS_V2 | UPGRADE_BIP65 | UPGRADE_STAKE_MODIFIER_V2
| UPGRADE_TIME_PROTOCOL_V2 | UPGRADE_P2PKH_BLOCK_SIGNATURES | UPGRADE_STAKE_MIN_DEPTH_V2
| UPGRADE_DYNAMIC_REWARDS | UPGRADE_DYNAMIC_COLLATERALS | UPGRADE_POS_V3 | UPGRADE_TESTDUMMY.

Definition index_of (idx : UpgradeIndex) : nat :=
  match idx with
  | BASE_NETWORK => 0 | UPGRADE_POS => 1 | UPGRADE_POS_V2 => 2 | UPGRADE_BIP65 => 3
  | UPGRADE_STAKE_MODIFIER_V2 => 4 | UPGRADE_TIME_PROTOCOL_V2 => 5 | UPGRADE_P2PKH_BLOCK_SIGNATURES => 6
  | UPGRADE_STAKE_MIN_DEPTH_V2 => 7 | UPGRADE_DYNAMIC_REWARDS => 8 | UPGRADE_DYNAMIC_COLLATERALS => 9
  | UPGRADE_POS_V3 => 10 | UPGRADE_TESTDUMMY => 11
  end.

Definition MAX_NETWORK_UPGRADES : nat := 12.
Definition ALWAYS_ACTIVE : Z := 0.
Definition NO_ACTIVATION_HEIGHT : Z := -1.

Record Params : Type := mkParams {
  powLimit : list Z; posLimitV1 : list Z; posLimitV2 : list Z;
  nFutureTimeDriftPoW : Z; nFutureTimeDriftPoS : Z; nCoinbaseMaturity : Z; nMaxMoneyOut : Z;
  nStakeMinAge : Z; nStakeMinDepth : Z; nStakeMinDepthV2 : Z;
  nTargetTimespan : Z; nTargetTimespanV2 : Z; nTargetSpacing : Z; nTimeSlotLength : Z;
  vUpgrades : list Z
}.

(** ** Upgrades *)

Inductive UpgradeState : Type := UPGRADE_DISABLED | UPGRADE_PENDING | UPGRADE_ACTIVE.

Definition activation (params : Params) (idx : nat) : Z := nth idx (vUpgrades params) NO_ACTIVATION_HEIGHT.

Definition NetworkUpgradeState (nHeight : Z) (params : Params) (idx : nat) : option UpgradeState :=
  if negb (nHeight >=? 0) then None
  else if negb (idx <? MAX_NETWORK_UPGRADES)%nat then None
  else
    let nActivationHeight := activation params idx in
    if nActivationHeight =? NO_ACTIVATION_HEIGHT then Some UPGRADE_DISABLED
    else if nHeight >=? nActivationHeight then Some UPGRADE_ACTIVE
    else Some UPGRADE_PENDING.

Definition upgrade_active (nHeight : Z) (params : Params) (idx : nat) : option bool :=
  match NetworkUpgradeState nHeight params idx with
  | Some UPGRADE_ACTIVE => Some true
  | Some _ => Some false
  | None => None
  end.

Definition NetworkUpgradeActive (nHeight : Z) (params : Params) (idx : UpgradeIndex) : option bool :=
  upgrade_active nHeight params (index_of idx).

(** [for (idxInt = ...; idxInt > BASE_NETWORK; idxInt--)], from [idxInt]. *)
Fixpoint epoch_loop (nHeight : Z) (params : Params) (idxInt : nat) : option nat :=
  match idxInt with
  | O => Some 0%nat
  | S idx =>
      match upgrade_active nHeight params idxInt with
      | Some true => Some idxInt
      | Some false => epoch_loop nHeight params idx
      | None => None
      end
  end.

Definition CurrentEpoch (nHeight : Z) (params : Params) : option nat :=
  epoch_loop nHeight params (MAX_NETWORK_UPGRADES - 1).

Definition IsActivationHeight (nHeight : Z) (params : Params) (idx : nat) : option bool :=
  if negb (idx <? MAX_NETWORK_UPGRADES)%nat then None
  else if (idx =? 0)%nat then Some false
  else Some ((nHeight >=? 0) && (nHeight =? activation params idx)).

Fixpoint any_loop (nHeight : Z) (params : Params) (idxs : list nat) : bool :=
  match idxs with
  | [] => false
  | idx :: idxs => if nHeight =? activation params idx then true else any_loop nHeight params idxs
  end.

Definition IsActivationHeightForAnyUpgrade (nHeight : Z) (params : Params) : bool :=
  if nHeight <? 0 then false else any_loop nHeight params (seq 1 (MAX_NETWORK_UPGRADES - 1)).

(** The outer option is the assertion, the inner one the value returned. *)
Fixpoint next_loop (nHeight : Z) (params : Params) (idxs : list nat) : option (option nat) :=
  match idxs with
  | [] => Some None
  | idx :: idxs =>
      match NetworkUpgradeState nHeight params idx with
      | Some UPGRADE_PENDING => Some (Some idx)
      | Some _ => next_loop nHeight params idxs
      | None => None
      end
  end.

Definition NextEpoch (nHeight : Z) (params : Params) : option (option nat) :=
  if nHeight <? 0 then Some None else next_loop nHeight params (seq 1 (MAX_NETWORK_UPGRADES - 1)).

Definition NextActivationHeight (nHeight : Z) (params : Params) : option (option Z) :=
  match NextEpoch nHeight params with
  | Some (Some idx) => Some (Some (activation params idx))
  | Some None => Some None
  | None => None
  end.

(** ** Methods of Params *)

Definition IsTimeProtocolV2 (params : Params) (nHeight : Z) : option bool :=
  NetworkUpgradeActive nHeight params UPGRADE_TIME_PROTOCOL_V2.

Definition TargetTimespan (params : Params) (nHeight : Z) : option Z :=
  option_map (fun fV2 : bool => if fV2 then nTargetTimespanV2 params else nTargetTimespan params)
    (IsTimeProtocolV2 params nHeight).

Definition ProofOfStakeLimit (params : Params) (fV2 : bool) : list Z :=
  if fV2 then posLimitV2 params else posLimitV1 params.

Definition MoneyRange (params : Params) (nValue : Z) : bool := (nValue >=? 0) && (nValue <=? nMaxMoneyOut params).

Definition TimeSlotLength (params : Params) (nHeight : Z) : option Z :=
  option_map (fun fV2 : bool => if fV2 then nTimeSlotLength params else 1) (IsTimeProtocolV2 params nHeight).

Definition FutureBlockTimeDrift (params : Params) (nHeight : Z) : option Z :=
  match IsTimeProtocolV2 params nHeight with
  | Some true => Some (nTimeSlotLength params - 1)
  | Some false =>
      option_map (fun fPoS : bool => if fPoS then nFutureTimeDriftPoS params else nFutureTimeDriftPoW params)
        (NetworkUpgradeActive nHeight params UPGRADE_POS)
  | None => None
  end.

(** [%] is the remainder of the truncated division. *)
Definition IsValidBlockTimeStamp (params : Params) (nTime nHeight : Z) : option bool :=
  option_map (fun fV2 : bool => if negb fV2 then true else Z.rem nTime (nTimeSlotLength params) =? 0)
    (IsTimeProtocolV2 params nHeight).

Definition bool_to_int (b : bool) : Z := if b then 1 else 0.

(** The sum of the age is one of [uint32_t].  In the last expression [>=] binds
    stronger than [?:]: the comparison is the condition, and the depth chosen by it
    is the value, converted to [bool]. *)
Definition HasStakeMinAgeOrDepth (params : Params)
  (contextHeight contextTime utxoFromBlockHeight utxoFromBlockTime : Z) : option bool :=
  match NetworkUpgradeActive contextHeight params UPGRADE_STAKE_MODIFIER_V2 with
  | None => None
  | Some false => Some ((utxoFromBlockTime + nStakeMinAge params) mod 2 ^ 32 <=? contextTime)
  | Some true =>
      match NetworkUpgradeActive contextHeight params UPGRADE_STAKE_MIN_DEPTH_V2 with
      | None => None
      | Some v2 =>
          Some (negb ((if contextHeight - utxoFromBlockHeight >=? bool_to_int v2
                       then nStakeMinDepthV2 params else nStakeMinDepth params) =? 0))
      end
  end.

(** ** The main network *)

Definition COIN : Z := 100000000.

(** [~UINT256_ZERO >> n]. *)
Definition limit (n : Z) : list Z := Arith.op_shr (Arith.op_not (Arith.zero Arith.WIDTH)) n.

Definition main_params : Params := {|
  powLimit := limit 20; posLimitV1 := limit 24; posLimitV2 := limit 20;
  nFutureTimeDriftPoW := 7200; nFutureTimeDriftPoS := 180; nCoinbaseMaturity := 100; nMaxMoneyOut := 9999999999 * COIN;
  nStakeMinAge := 30 * 60; nStakeMinDepth := 100; nStakeMinDepthV2 := 600;
  nTargetTimespan := 40 * 60; nTargetTimespanV2 := 30 * 60; nTargetSpacing := 1 * 60; nTimeSlotLength := 15;
  vUpgrades := [ALWAYS_ACTIVE; 1001; 1441; 1441; 1541; 1641; 1741; 110000; 1900001; NO_ACTIVATION_HEIGHT; 1900001;
                NO_ACTIVATION_HEIGHT]
|}.

(** ** The schedule *)

Lemma NetworkUpgradeState_spec nHeight params idx :
  0 <= nHeight -> (idx < MAX_NETWORK_UPGRADES)%nat ->
  NetworkUpgradeState nHeight params idx =
  Some (if activation params idx =? NO_ACTIVATION_HEIGHT then UPGRADE_DISABLED
        else if activation params idx <=? nHeight then UPGRADE_ACTIVE else UPGRADE_PENDING).
Proof.
  intros Hh Hi. unfold NetworkUpgradeState. rewrite !Z.geb_leb.
  destruct (Z.leb_spec 0 nHeight); [|lia]. destruct (Nat.ltb_spec idx MAX_NETWORK_UPGRADES); [|lia]. cbn [negb].
  destruct (_ =? _); [reflexivity|]. now destruct (_ <=? _).
Qed.

Definition is_active (nHeight : Z) (params : Params) (idx : nat) : Prop :=
  activation params idx <> NO_ACTIVATION_HEIGHT /\ activation params idx <= nHeight.
Definition is_pending (nHeight : Z) (params : Params) (idx : nat) : Prop :=
  activation params idx <> NO_ACTIVATION_HEIGHT /\ nHeight < activation params idx.

Lemma upgrade_active_spec nHeight params idx :
  0 <= nHeight -> (idx < MAX_NETWORK_UPGRADES)%nat ->
  exists b, upgrade_active nHeight params idx = Some b /\ (b = true <-> is_active nHeight params idx).
Proof.
  intros Hh Hi. unfold upgrade_active, is_active. rewrite NetworkUpgradeState_spec by assumption.
  destruct (Z.eqb_spec (activation params idx) NO_ACTIVATION_HEIGHT).
  - exists false. split; [reflexivity|]. split; [discriminate | tauto].
  - destruct (Z.leb_spec (activation params idx) nHeight); eexists; (split; [reflexivity|]); split; (discriminate || lia || tauto).
Qed.

Lemma epoch_loop_spec nHeight params n :
  0 <= nHeight -> (n < MAX_NETWORK_UPGRADES)%nat ->
  exists e, epoch_loop nHeight params n = Some e /\ (e <= n)%nat /\ (e <> 0%nat -> is_active nHeight params e) /\
    forall i, (e < i <= n)%nat -> ~ is_active nHeight params i.
Proof.
  intros Hh. induction n as [|n IH]; intros Hn.
  - exists 0%nat. split; [reflexivity|]. split; [lia|]. split; [lia|]. intros i Hi. lia.
  - cbn [epoch_loop]. destruct (upgrade_active_spec nHeight params (S n) Hh Hn) as ([|] & -> & Hb).
    + exists (S n). split; [reflexivity|]. split; [lia|]. split; [intros _; now apply Hb|]. intros i Hi. lia.
    + destruct (IH ltac:(lia)) as (e & -> & H1 & H2 & H3). exists e. split; [reflexivity|]. split; [lia|].
      split; [exact H2|]. intros i Hi. destruct (Nat.eq_dec i (S n)) as [->|]; [|apply H3; lia].
      intros Ha. apply Hb in Ha. discriminate.
Qed.

Lemma next_loop_spec nHeight params n : forall k,
  0 <= nHeight -> (n + k <= MAX_NETWORK_UPGRADES)%nat ->
  exists r, next_loop nHeight params (seq k n) = Some r /\
    match r with
    | Some e => (k <= e < k + n)%nat /\ is_pending nHeight params e /\ forall i, (k <= i < e)%nat -> ~ is_pending nHeight params i
    | None => forall i, (k <= i < k + n)%nat -> ~ is_pending nHeight params i
    end.
Proof.
  induction n as [|n IH]; intros k Hh Hk.
  - exists None. split; [reflexivity|]. intros i Hi. lia.
  - cbn [seq next_loop]. rewrite NetworkUpgradeState_spec by lia.
    destruct (IH (S k) Hh ltac:(lia)) as (r & Er & Hr).
    assert (Hskip : ~ is_pending nHeight params k ->
      exists r, next_loop nHeight params (seq (S k) n) = Some r /\
        match r with
        | Some e => (k <= e < k + S n)%nat /\ is_pending nHeight params e /\ forall i, (k <= i < e)%nat -> ~ is_pending nHeight params i
        | None => forall i, (k <= i < k + S n)%nat -> ~ is_pending nHeight params i
        end).
    { intros Hn. exists r. split; [exact Er|]. destruct r as [e|].
      - destruct Hr as (H1 & H2 & H3). split; [lia|]. split; [exact H2|]. intros i Hi.
        destruct (Nat.eq_dec i k) as [->|]; [exact Hn | apply H3; lia].
      - intros i Hi. destruct (Nat.eq_dec i k) as [->|]; [exact Hn | apply Hr; lia]. }
    unfold is_pending in *. destruct (Z.eqb_spec (activation params k) NO_ACTIVATION_HEIGHT); [apply Hskip; tauto|].
    destruct (Z.leb_spec (activation params k) nHeight); [apply Hskip; lia|].
    exists (Some k). split; [reflexivity|]. split; [lia|]. split; [tauto|]. intros i Hi. lia.
Qed.

(** The assertions never fail at a height of a block; an upgrade stays active once
    it is; [CurrentEpoch] is the last upgrade that is active, and [NextEpoch] the
    first one that is still to come. *)
Theorem upgrades_correct params nHeight idx :
  0 <= nHeight ->
  (exists b, NetworkUpgradeActive nHeight params idx = Some b /\
     (b = true -> forall h, nHeight <= h -> NetworkUpgradeActive h params idx = Some true)) /\
  (exists e, CurrentEpoch nHeight params = Some e /\ (e <> 0%nat -> is_active nHeight params e) /\
     forall i, (e < i < MAX_NETWORK_UPGRADES)%nat -> ~ is_active nHeight params i) /\
  (exists r, NextEpoch nHeight params = Some r /\
     match r with
     | Some e => is_pending nHeight params e /\ forall i, (0 < i < e)%nat -> ~ is_pending nHeight params i
     | None => forall i, (0 < i < MAX_NETWORK_UPGRADES)%nat -> ~ is_pending nHeight params i
     end).
Proof.
  intros Hh. assert (Hi : (index_of idx < MAX_NETWORK_UPGRADES)%nat) by (unfold MAX_NETWORK_UPGRADES; destruct idx; cbn; lia).
  split; [|split].
  - destruct (upgrade_active_spec nHeight params (index_of idx) Hh Hi) as (b & Eb & Hb). exists b. split; [exact Eb|].
    intros -> h Hle. destruct (upgrade_active_spec h params (index_of idx) ltac:(lia) Hi) as (b' & Eb' & Hb').
    unfold NetworkUpgradeActive. rewrite Eb'. f_equal. apply Hb'. destruct (proj1 Hb eq_refl). split; [assumption | lia].
  - destruct (epoch_loop_spec nHeight params (MAX_NETWORK_UPGRADES - 1) Hh ltac:(unfold MAX_NETWORK_UPGRADES; lia))
      as (e & E & H1 & H2 & H3). exists e. split; [exact E|]. split; [exact H2|]. intros i Hi'. apply H3. lia.
  - destruct (next_loop_spec nHeight params (MAX_NETWORK_UPGRADES - 1) 1 Hh ltac:(unfold MAX_NETWORK_UPGRADES; lia))
      as (r & E & Hr). exists r. unfold NextEpoch. destruct (Z.ltb_spec nHeight 0); [lia|]. split; [exact E|].
    destruct r as [e|]; [destruct Hr as (_ & H2 & H3); split; [exact H2|]; intros i Hi'; apply H3; lia|].
    intros i Hi'. apply Hr. unfold MAX_NETWORK_UPGRADES in *. lia.
Qed.

Lemma upgrades_correct_witness :
  CurrentEpoch 110000 main_params = Some 7%nat /\ NextEpoch 110000 main_params = Some (Some 8%nat) /\
  forall h, 110000 <= h -> NetworkUpgradeActive h main_params UPGRADE_POS = Some true.
Proof.
  destruct (upgrades_correct main_params 110000 UPGRADE_POS ltac:(lia)) as ((b & Eb & Hb) & _ & _).
  vm_compute in Eb. injection Eb as <-. split; [reflexivity|]. split; [reflexivity | exact (Hb eq_refl)].
Defined.

(** After the stake modifier V2 the minimum depth is not enforced: when both depths
    are positive, an output of any depth, even of the current height, is accepted. *)
Theorem stake_depth_unchecked params contextHeight contextTime utxoHeight utxoTime :
  0 <= contextHeight -> 0 < nStakeMinDepth params -> 0 < nStakeMinDepthV2 params ->
  NetworkUpgradeActive contextHeight params UPGRADE_STAKE_MODIFIER_V2 = Some true ->
  HasStakeMinAgeOrDepth params contextHeight contextTime utxoHeight utxoTime = Some true.
Proof.
  intros Hh H1 H2 Ha. unfold HasStakeMinAgeOrDepth. rewrite Ha.
  destruct (upgrade_active_spec contextHeight params (index_of UPGRADE_STAKE_MIN_DEPTH_V2) Hh
    ltac:(unfold MAX_NETWORK_UPGRADES; cbn; lia)) as (v2 & Ev & _).
  unfold NetworkUpgradeActive. rewrite Ev. f_equal. apply negb_true_iff, Z.eqb_neq. destruct (_ >=? _); lia.
Qed.

(** On the main network, an output created in the block of height 200000 itself. *)
Lemma stake_depth_unchecked_witness :
  HasStakeMinAgeOrDepth main_params 200000 1700000000 200000 1700000000 = Some true.
Proof. apply (stake_depth_unchecked main_params); [lia | reflexivity | reflexivity | reflexivity]. Defined.

End Consensus.
