(* ===== verification/Chain.v ===== *)
(** * src/chain.{h,cpp}, src/main.cpp: the block index and the active chain

    The block index is a heap of [CBlockIndex] objects that point to their
    predecessor ([pprev]) and to a further ancestor ([pskip]); [GetAncestor]
    follows both.  [CChain] is the vector of the blocks of the active branch by
    height.  Pointers are keys of a finite map, [None] is the null pointer.  The
    functions return an option whose [None] is a dereference of a null or unknown
    pointer, a failed assertion, or the end of the fuel; the theorems show that
    none of them happens on an index that [AddToBlockIndex] built.

    The reference is the relation [anc], the reflexive and transitive closure of
    [pprev].  Heights are [int] in the code: the invariant keeps them below 2^31 - 1. *)

From stdpp Require Import base gmap list fin_maps relations.
From Stdlib Require Import ZArith Lia Sorted.
From S2P Require Import Prelude Arith Work.
Open Scope Z_scope.

Module Chain.

Abbreviation ptr := positive.

(** The fields of [CBlockIndex] that the functions below read or write. *)
Record CBlockIndex : Type := mkIndex {
  phashBlock : list Z; pprev : option ptr; pskip : option ptr; nHeight : Z;
  nChainWork : list Z; nStatus : Z; nTime : Z; nBits : Z
}.

Definition set_link (q : option ptr) (h : Z) (e : CBlockIndex) : CBlockIndex :=
  mkIndex (phashBlock e) q (pskip e) h (nChainWork e) (nStatus e) (nTime e) (nBits e).
Definition set_skip (s : option ptr) (e : CBlockIndex) : CBlockIndex :=
  mkIndex (phashBlock e) (pprev e) s (nHeight e) (nChainWork e) (nStatus e) (nTime e) (nBits e).
Definition set_work (w : list Z) (e : CBlockIndex) : CBlockIndex :=
  mkIndex (phashBlock e) (pprev e) (pskip e) (nHeight e) w (nStatus e) (nTime e) (nBits e).
Definition set_status (s : Z) (e : CBlockIndex) : CBlockIndex :=
  mkIndex (phashBlock e) (pprev e) (pskip e) (nHeight e) (nChainWork e) s (nTime e) (nBits e).

Abbreviation heap := (gmap ptr CBlockIndex).

(** [p->..]: the object, if [p] is a pointer to one. *)
Definition deref (hp : heap) (p : option ptr) : option CBlockIndex := p ≫= λ p, hp !! p.

(** ** Validity levels *)

Definition BLOCK_VALID_TREE : Z := 2.
Definition BLOCK_VALID_MASK : Z := 1 .| 2 .| 3 .| 4 .| 5.
Definition BLOCK_FAILED_MASK : Z := 32 .| 64.

(** [None] is the failed assertion. *)
Definition IsValid (e : CBlockIndex) (nUpTo : Z) : option bool :=
  if negb (nUpTo .& Z.lnot BLOCK_VALID_MASK =? 0) then None
  else if negb (nStatus e .& BLOCK_FAILED_MASK =? 0) then Some false
  else Some (nStatus e .& BLOCK_VALID_MASK >=? nUpTo).

Definition RaiseValidity (e : CBlockIndex) (nUpTo : Z) : option (CBlockIndex * bool) :=
  if negb (nUpTo .& Z.lnot BLOCK_VALID_MASK =? 0) then None
  else if negb (nStatus e .& BLOCK_FAILED_MASK =? 0) then Some (e, false)
  else if nStatus e .& BLOCK_VALID_MASK <? nUpTo
       then Some (set_status ((nStatus e .& Z.lnot BLOCK_VALID_MASK) .| nUpTo) e, true)
       else Some (e, false).

(** ** Skip heights *)

Definition InvertLowestOne (n : Z) : Z := n .& (n - 1).

Definition GetSkipHeight (height : Z) : Z :=
  if height <? 2 then 0
  else if negb (height .& 1 =? 0) then InvertLowestOne (InvertLowestOne (height - 1)) + 1
  else InvertLowestOne height.

(** ** CBlockIndex::GetAncestor *)

(** [while (heightWalk > height)]. *)
Fixpoint ancestor_loop (fuel : nat) (hp : heap) (pindexWalk : option ptr) (heightWalk height : Z)
  : option (option ptr) :=
  if heightWalk >? height then
    match fuel, deref hp pindexWalk with
    | S fuel, Some w =>
        let heightSkip := GetSkipHeight heightWalk in
        let heightSkipPrev := GetSkipHeight (heightWalk - 1) in
        if (heightSkip =? height) ||
           ((heightSkip >? height) && negb ((heightSkipPrev <? heightSkip - 2) && (heightSkipPrev >=? height)))
        then ancestor_loop fuel hp (pskip w) heightSkip height
        else ancestor_loop fuel hp (pprev w) (heightWalk - 1) height
    | _, _ => None
    end
  else Some pindexWalk.

(** A turn of the loop lowers the height: [nHeight] turns are enough. *)
Definition GetAncestor (hp : heap) (this : ptr) (height : Z) : option (option ptr) :=
  e ← hp !! this;
  if (height >? nHeight e) || (height <? 0) then Some None
  else ancestor_loop (Z.to_nat (nHeight e)) hp (Some this) (nHeight e) height.

Definition BuildSkip (hp : heap) (this : ptr) : option heap :=
  e ← hp !! this;
  match pprev e with
  | Some q =>
      s ← GetAncestor hp q (GetSkipHeight (nHeight e));
      Some (<[this := set_skip s e]> hp)
  | None => Some hp
  end.

(** ** AddToBlockIndex *)

(** The objects, [mapBlockIndex], [pindexBestHeader] and [setDirtyBlockIndex]. *)
Record index : Type := mkIdx {
  objects : heap; mapBlockIndex : gmap (list Z) ptr; pindexBestHeader : option ptr; setDirtyBlockIndex : gset ptr
}.

(** What [AddToBlockIndex] reads of the block: its hash and its header. *)
Record header : Type := mkHeader { hash : list Z; hashPrevBlock : list Z; hTime : Z; hBits : Z }.

(** The link to the predecessor, if it is known. *)
Definition link (hp : heap) (map : gmap (list Z) ptr) (block : header) (pindexNew : ptr) : option heap :=
  match map !! hashPrevBlock block with
  | Some q =>
      prev ← hp !! q;
      BuildSkip (alter (set_link (Some q) (nHeight prev + 1)) pindexNew hp) pindexNew
  | None => Some hp
  end.

(** [pindexNew->nChainWork = ...; pindexNew->RaiseValidity(BLOCK_VALID_TREE);] *)
Definition accumulate (hp : heap) (pindexNew : ptr) : option heap :=
  e ← hp !! pindexNew;
  before ← match pprev e with
           | Some q => nChainWork <$> hp !! q
           | None => Some (Arith.of_uint64 Arith.WIDTH 0)
           end;
  proof ← Work.GetBlockProof (nBits e);
  r ← RaiseValidity (set_work (Arith.op_add before proof) e) BLOCK_VALID_TREE;
  Some (<[pindexNew := r.1]> hp).

(** [pindexBestHeader == NULL || pindexBestHeader->nChainWork < pindexNew->nChainWork]. *)
Definition best_header (hp : heap) (best : option ptr) (pindexNew : ptr) : option (option ptr) :=
  match best with
  | None => Some (Some pindexNew)
  | Some b =>
      eb ← hp !! b;
      e ← hp !! pindexNew;
      Some (if Arith.CompareTo (nChainWork eb) (nChainWork e) <? 0 then Some pindexNew else Some b)
  end.

(** [pindexNew] is the address of the new object.  The fields of the proof of stake
    (flags and stake modifier) are those of [Stake]: nothing here reads them. *)
Definition AddToBlockIndex (st : index) (block : header) (pindexNew : ptr) : option (index * ptr) :=
  match mapBlockIndex st !! hash block with
  | Some p => Some (st, p)
  | None =>
      let hp := <[pindexNew := mkIndex (hash block) None None 0 (Arith.zero Arith.WIDTH) 0 (hTime block) (hBits block)]>
                  (objects st) in
      let map := <[hash block := pindexNew]> (mapBlockIndex st) in
      hp ← link hp map block pindexNew;
      hp ← accumulate hp pindexNew;
      best ← best_header hp (pindexBestHeader st) pindexNew;
      Some (mkIdx hp map best ({[pindexNew]} ∪ setDirtyBlockIndex st), pindexNew)
  end.

(** ** LastCommonAncestor *)

(** [while (pa != pb && pa && pb)]. *)
Fixpoint common_loop (fuel : nat) (hp : heap) (pa pb : option ptr) : option (option ptr * option ptr) :=
  match pa, pb with
  | Some a, Some b =>
      if decide (a = b) then Some (pa, pb)
      else
        match fuel with
        | O => None
        | S fuel => ea ← hp !! a; eb ← hp !! b; common_loop fuel hp (pprev ea) (pprev eb)
        end
  | _, _ => Some (pa, pb)
  end.

(** [None] also stands for the failed assertion [pa == pb]. *)
Definition LastCommonAncestor (hp : heap) (pa pb : ptr) : option (option ptr) :=
  ea ← hp !! pa;
  eb ← hp !! pb;
  pa' ← (if nHeight ea >? nHeight eb then GetAncestor hp pa (nHeight eb) else Some (Some pa));
  pb' ← (if nHeight ea >? nHeight eb then Some (Some pb)
         else if nHeight eb >? nHeight ea then GetAncestor hp pb (nHeight ea) else Some (Some pb));
  r ← common_loop (S (Z.to_nat (Z.min (nHeight ea) (nHeight eb)))) hp pa' pb';
  if decide (r.1 = r.2) then Some (r.1) else None.

(** ** CChain *)

(** [vChain]: null pointers only during [SetTip]. *)
Abbreviation chain := (list (option ptr)).

Definition Tip (vChain : chain) : option ptr :=
  match length vChain with O => None | S s => mjoin (vChain !! s) end.

(** [operator[]]. *)
Definition at_height (vChain : chain) (h : Z) : option ptr :=
  if (h <? 0) || (h >=? Z.of_nat (length vChain)) then None else mjoin (vChain !! Z.to_nat h).

Definition Height (vChain : chain) : Z := Z.of_nat (length vChain) - 1.

Definition Contains (hp : heap) (vChain : chain) (p : ptr) : option bool :=
  e ← hp !! p; Some (bool_decide (at_height vChain (nHeight e) = Some p)).

Definition Next (hp : heap) (vChain : chain) (p : ptr) : option (option ptr) :=
  e ← hp !! p; c ← Contains hp vChain p; Some (if (c : bool) then at_height vChain (nHeight e + 1) else None).

(** [vChain.resize(n)]: cut, or padded with null pointers. *)
Definition chain_resize (n : nat) (vChain : chain) : chain :=
  take n vChain ++ replicate (n - length vChain) None.

(** [while (pindex && vChain[pindex->nHeight] != pindex)]; [None] for an index out of [vChain]. *)
Fixpoint tip_loop (fuel : nat) (hp : heap) (vChain : chain) (pindex : option ptr) : option chain :=
  match pindex with
  | None => Some vChain
  | Some p =>
      e ← hp !! p;
      old ← vChain !! Z.to_nat (nHeight e);
      if decide (old = Some p) then Some vChain
      else
        match fuel with
        | O => None
        | S fuel => tip_loop fuel hp (<[Z.to_nat (nHeight e) := Some p]> vChain) (pprev e)
        end
  end.

Definition SetTip (hp : heap) (vChain : chain) (pindex : option ptr) : option chain :=
  match pindex with
  | None => Some []
  | Some p =>
      e ← hp !! p;
      tip_loop (S (Z.to_nat (nHeight e))) hp (chain_resize (Z.to_nat (nHeight e + 1)) vChain) pindex
  end.

(** [while (pindex && !Contains(pindex)) pindex = pindex->pprev;] *)
Fixpoint fork_loop (fuel : nat) (hp : heap) (vChain : chain) (pindex : option ptr) : option (option ptr) :=
  match pindex with
  | None => Some None
  | Some p =>
      c ← Contains hp vChain p;
      if (c : bool) then Some pindex
      else match fuel with O => None | S fuel => e ← hp !! p; fork_loop fuel hp vChain (pprev e) end
  end.

Definition FindFork (hp : heap) (vChain : chain) (pindex : option ptr) : option (option ptr) :=
  match pindex with
  | None => Some None
  | Some p =>
      e ← hp !! p;
      q ← (if nHeight e >? Height vChain then GetAncestor hp p (Height vChain) else Some pindex);
      fork_loop (S (Z.to_nat (nHeight e))) hp vChain q
  end.

(** The loop of [GetLocator]: the pointers whose hashes are pushed; [None] also
    stands for an overflow of the [int] [nStep]. *)
Fixpoint locator_loop (fuel : nat) (hp : heap) (vChain : chain) (have : list ptr) (nStep : Z) (pindex : option ptr)
  : option (list ptr) :=
  match pindex with
  | None => Some have
  | Some p =>
      e ← hp !! p;
      let have := have ++ [p] in
      if nHeight e =? 0 then Some have
      else
        match fuel with
        | O => None
        | S fuel =>
            let height := Z.max (nHeight e - nStep) 0 in
            c ← Contains hp vChain p;
            pindex ← (if (c : bool) then Some (at_height vChain height) else GetAncestor hp p height);
            let nStep := if (10 <? length have)%nat then nStep * 2 else nStep in
            if nStep <? 2 ^ 31 then locator_loop fuel hp vChain have nStep pindex else None
        end
  end.

Definition GetLocator (hp : heap) (vChain : chain) (pindex : option ptr) : option (list (list Z)) :=
  let pindex := match pindex with None => Tip vChain | _ => pindex end in
  e ← match pindex with None => Some 0 | Some p => nHeight <$> hp !! p end;
  have ← locator_loop (S (Z.to_nat e)) hp vChain [] 1 pindex;
  mapM (λ p, phashBlock <$> hp !! p) have.



(** ** Ancestors *)

(** [q] is [p] or an ancestor of [p]. *)
Inductive anc (hp : heap) : ptr → ptr → Prop :=
| anc_refl p : anc hp p p
| anc_prev p e q r : hp !! p = Some e → pprev e = Some q → anc hp q r → anc hp p r.

(** [q] is the ancestor of [p] of height [h]. *)
Definition ancestor_at (hp : heap) (p : ptr) (h : Z) (q : ptr) : Prop :=
  anc hp p q ∧ ∃ e, hp !! q = Some e ∧ nHeight e = h.

(** The links of an object: heights count the predecessors, and [pskip] is the
    ancestor at the skip height. *)
Definition entry_ok (hp : heap) (e : CBlockIndex) : Prop :=
  0 <= nHeight e < 2 ^ 31 - 1 ∧
  match pprev e with
  | None => nHeight e = 0 ∧ pskip e = None
  | Some q =>
      (∃ e', hp !! q = Some e' ∧ nHeight e = nHeight e' + 1) ∧
      ∃ s, pskip e = Some s ∧ ancestor_at hp q (GetSkipHeight (nHeight e)) s
  end.

Definition linked (hp : heap) : Prop := ∀ p e, hp !! p = Some e → entry_ok hp e.

Create HintDb chain discriminated.
#[export] Hint Constructors anc : chain.

Lemma anc_trans hp p q r : anc hp p q → anc hp q r → anc hp p r.
Proof. induction 1; eauto with chain. Qed.

(** More objects keep the ancestors. *)
Lemma anc_mono hp hp' p q : hp ⊆ hp' → anc hp p q → anc hp' p q.
Proof. intros Hs. induction 1; eauto using lookup_weaken with chain. Qed.

Lemma ancestor_at_mono hp hp' p h q : hp ⊆ hp' → ancestor_at hp p h q → ancestor_at hp' p h q.
Proof.
  intros Hs [Ha (e & He & Hh)]. split; [by eapply anc_mono|]. exists e. split; [by eapply lookup_weaken | done].
Qed.

Lemma entry_ok_mono hp hp' e : hp ⊆ hp' → entry_ok hp e → entry_ok hp' e.
Proof.
  intros Hs [Hr Hl]. split; [done|]. destruct (pprev e) as [q|]; [|done].
  destruct Hl as [(e' & He' & Hh) (s & Es & Ha)].
  split; [exists e'; split; [by eapply lookup_weaken | done] | exists s; split; [done | by eapply ancestor_at_mono]].
Qed.

(** [n & (n - 1)] is smaller than [n]. *)
Lemma land_le_l x y : 0 <= x → 0 <= y → 0 <= x .& y <= x.
Proof.
  intros Hx Hy. split; [apply Z.land_nonneg; auto|].
  assert (E : x = (x .& y) + Z.ldiff x y).
  { rewrite Z.add_nocarry_lxor, Z.lxor_lor; apply Z.bits_inj'; intros i _;
      rewrite ?Z.lor_spec, ?Z.land_spec, ?Z.lor_spec, ?Z.ldiff_spec, ?Z.land_spec, ?Z.bits_0;
      destruct (Z.testbit x i), (Z.testbit y i); reflexivity. }
  assert (0 <= Z.ldiff x y) by (apply Z.ldiff_nonneg; auto). lia.
Qed.

Lemma InvertLowestOne_range n : 0 < n → 0 <= InvertLowestOne n < n.
Proof.
  intros Hn. unfold InvertLowestOne. rewrite Z.land_comm. pose proof (land_le_l (n - 1) n). lia.
Qed.

Lemma GetSkipHeight_range h : 1 <= h → 0 <= GetSkipHeight h < h.
Proof.
  intros Hh. unfold GetSkipHeight. destruct (Z.ltb_spec h 2); [lia|]. destruct (negb _).
  - pose proof (InvertLowestOne_range (h - 1) ltac:(lia)) as H1.
    destruct (Z.eq_dec (InvertLowestOne (h - 1)) 0) as [E|].
    + rewrite E. change (InvertLowestOne 0) with 0. lia.
    + pose proof (InvertLowestOne_range (InvertLowestOne (h - 1)) ltac:(lia)). lia.
  - pose proof (InvertLowestOne_range h ltac:(lia)). lia.
Qed.

Section Linked.
Context (hp : heap) (Hok : linked hp).

Lemma entry_prev p e q : hp !! p = Some e → pprev e = Some q → ∃ e', hp !! q = Some e' ∧ nHeight e = nHeight e' + 1.
Proof. intros He Hq. destruct (Hok _ _ He) as [_ Hl]. rewrite Hq in Hl. exact (proj1 Hl). Qed.

Lemma entry_height p e : hp !! p = Some e → 0 <= nHeight e < 2 ^ 31 - 1.
Proof. intros He. by destruct (Hok _ _ He). Qed.

Lemma entry_root p e : hp !! p = Some e → pprev e = None ↔ nHeight e = 0.
Proof.
  intros He. destruct (Hok _ _ He) as [_ Hl]. destruct (pprev e) as [q|]; [|split; [intros _; apply Hl | done]].
  destruct Hl as [(e' & He' & Hh) _]. pose proof (entry_height _ _ He'). split; [done | lia].
Qed.

(** An ancestor of an object is one. *)
Lemma anc_object p q e : anc hp p q → hp !! p = Some e → ∃ e', hp !! q = Some e'.
Proof.
  intros Ha. revert e. induction Ha as [p | p ep r q Hp Hr Ha IH]; intros e He; [by eauto|].
  destruct (entry_prev _ _ _ Hp Hr) as (er & Her & _). by eapply IH.
Qed.

(** Every ancestor is lower, strictly unless it is the block itself. *)
Lemma anc_height p q e e' :
  anc hp p q → hp !! p = Some e → hp !! q = Some e' → nHeight e' <= nHeight e ∧ (nHeight e' = nHeight e → p = q).
Proof.
  intros Ha. revert e. induction Ha as [p | p ep r q Hp Hr Ha IH]; intros e He He'.
  - simplify_eq. split; [lia | done].
  - simplify_eq. destruct (entry_prev _ _ _ Hp Hr) as (er & Her & Hh). destruct (IH er Her He'). split; lia.
Qed.

(** Ancestors are unique by height. *)
Lemma ancestor_unique p h q q' : ancestor_at hp p h q → ancestor_at hp p h q' → q = q'.
Proof.
  intros [Ha (e & He & Hh)] [Ha' (e' & He' & Hh')]. revert Ha'.
  induction Ha as [p | p ep r q Hp Hr Ha IH]; intros Ha'.
  - destruct (anc_height p q' e e' Ha' He He') as [_ Heq]. apply Heq. lia.
  - inversion Ha' as [|? ep' r' ? Hp' Hr' Ha'']; simplify_eq; [|auto].
    destruct (entry_prev _ _ _ Hp Hr) as (er & Her & Hhr). destruct (anc_height r q er e Ha Her He). lia.
Qed.

(** A proper ancestor of a block is an ancestor of its predecessor. *)
Lemma ancestor_prev p e h q :
  hp !! p = Some e → h < nHeight e → ancestor_at hp p h q → ∃ r, pprev e = Some r ∧ ancestor_at hp r h q.
Proof.
  intros He Hlt [Ha (eq & Heq & Hh)]. inversion Ha as [|? ep r ? Hp Hr Ha']; simplify_eq; [lia|].
  exists r. split; [exact Hr|]. split; eauto.
Qed.

(** The loop walks along ancestors down to the wanted height. *)
Lemma ancestor_loop_spec fuel : ∀ p e h,
  hp !! p = Some e → 0 <= h <= nHeight e → (Z.to_nat (nHeight e - h) <= fuel)%nat →
  ∃ q, ancestor_loop fuel hp (Some p) (nHeight e) h = Some (Some q) ∧ ancestor_at hp p h q.
Proof.
  induction fuel as [|fuel IH]; intros p e h He Hh Hf; cbn [ancestor_loop];
    destruct (Z.gtb_spec (nHeight e) h) as [Hgt|Hle].
  1: lia.
  1, 3: exists p; split; [reflexivity|]; split; [apply anc_refl|]; exists e; split; [done | lia].
  destruct (Hok _ _ He) as [_ Hl]. unfold deref. cbn [mbind option_bind]. rewrite He.
  destruct (pprev e) as [q|] eqn:Eq; [|lia].
  destruct Hl as [(e' & He' & Hh') (s & Es & Ha & es & Hes & Hhs)].
  pose proof (GetSkipHeight_range (nHeight e) ltac:(lia)) as Hr.
  destruct (_ || _) eqn:Ec.
  - rewrite Es. assert (Hsh : h <= GetSkipHeight (nHeight e)) by lia.
    destruct (IH s es h Hes ltac:(lia) ltac:(lia)) as (r & Er & Har & Hhr).
    exists r. rewrite <- Hhs. split; [exact Er|]. split; [|done].
    eapply anc_prev; [done..|]. by eapply anc_trans.
  - destruct (IH q e' h He' ltac:(lia) ltac:(lia)) as (r & Er & Har & Hhr).
    exists r. replace (nHeight e - 1) with (nHeight e') by lia. split; [exact Er|]. split; [|done].
    by eapply anc_prev.
Qed.

Lemma GetAncestor_spec p e h :
  hp !! p = Some e → 0 <= h <= nHeight e → ∃ q, GetAncestor hp p h = Some (Some q) ∧ ancestor_at hp p h q.
Proof.
  intros He Hh. unfold GetAncestor. rewrite He. cbn [mbind option_bind].
  destruct (Z.gtb_spec h (nHeight e)); [lia|]. destruct (Z.ltb_spec h 0); [lia|]. cbn [orb].
  apply ancestor_loop_spec; [done | done | lia].
Qed.

(** A block of height [h] has an ancestor at every height up to [h]. *)
Lemma ancestor_exists p e h : hp !! p = Some e → 0 <= h <= nHeight e → ∃ q, ancestor_at hp p h q.
Proof. intros He Hh. destruct (GetAncestor_spec p e h He Hh) as (q & _ & Ha). by exists q. Qed.

(** Two ancestors of one block are on one branch. *)
Lemma anc_linear p q r e er eq :
  hp !! p = Some e → hp !! q = Some eq → hp !! r = Some er →
  anc hp p q → anc hp p r → nHeight er <= nHeight eq → anc hp q r.
Proof.
  intros He Hq Hr Haq Har Hle. pose proof (entry_height _ _ Hr).
  destruct (ancestor_exists q eq (nHeight er) Hq ltac:(lia)) as (r' & Ha' & Hr').
  replace r with r'; [done|]. apply (ancestor_unique p (nHeight er)); split; eauto using anc_trans.
Qed.
End Linked.

(** ** The invariant of the index *)

(** [nChainWork] is the work of the block added to that of its predecessor. *)
Definition work_before (hp : heap) (e : CBlockIndex) : Z :=
  match deref hp (pprev e) with Some e' => Arith.val (nChainWork e') | None => 0 end.

Definition work_ok (hp : heap) (e : CBlockIndex) : Prop :=
  word 32 (nBits e) ∧ Arith.holds Arith.WIDTH (nChainWork e) (work_before hp e + Work.work (nBits e)).

(** [pindexBestHeader] is a block of most work, if there is a block. *)
Definition best_ok (hp : heap) (best : option ptr) : Prop :=
  match best with
  | None => hp = ∅
  | Some b => ∃ eb, hp !! b = Some eb ∧
                ∀ p e, hp !! p = Some e → Arith.val (nChainWork e) <= Arith.val (nChainWork eb)
  end.

(** Without the validity and the dirty entries. *)
Record index_core (st : index) : Prop := {
  ok_linked : linked (objects st);
  ok_work : ∀ p e, objects st !! p = Some e → work_ok (objects st) e;
  ok_map : ∀ h p, mapBlockIndex st !! h = Some p ↔ ∃ e, objects st !! p = Some e ∧ phashBlock e = h;
  ok_best : best_ok (objects st) (pindexBestHeader st);
  ok_time : ∀ p e, objects st !! p = Some e → word 32 (nTime e)
}.

Record index_ok (st : index) : Prop := {
  ok_core :> index_core st;
  ok_dirty : ∀ p, p ∈ setDirtyBlockIndex st → is_Some (objects st !! p);
  ok_valid : ∀ p e, objects st !! p = Some e → IsValid e BLOCK_VALID_TREE = Some true
}.

Lemma ancestor_loop_mono hp hp' fuel : hp ⊆ hp' → ∀ p w h r,
  ancestor_loop fuel hp p w h = Some r → ancestor_loop fuel hp' p w h = Some r.
Proof.
  intros Hs. induction fuel as [|fuel IH]; intros p w h r; cbn [ancestor_loop]; [done|].
  destruct (w >? h); [|done]. destruct p as [p|]; [|done]. cbn [deref mbind option_bind]. unfold deref. cbn [mbind option_bind].
  destruct (hp !! p) as [e|] eqn:E; [|done]. rewrite (lookup_weaken _ _ _ _ E Hs). destruct (_ || _); apply IH.
Qed.

Lemma GetAncestor_mono hp hp' p h r : hp ⊆ hp' → GetAncestor hp p h = Some r → GetAncestor hp' p h = Some r.
Proof.
  intros Hs. unfold GetAncestor. destruct (hp !! p) as [e|] eqn:E; [|done]. rewrite (lookup_weaken _ _ _ _ E Hs).
  cbn [mbind option_bind]. destruct (_ || _); [done|]. by apply ancestor_loop_mono.
Qed.

Lemma RaiseValidity_fresh e :
  nStatus e = 0 → RaiseValidity e BLOCK_VALID_TREE = Some (set_status BLOCK_VALID_TREE e, true).
Proof. intros Hs. unfold RaiseValidity. by rewrite Hs. Qed.

(** The height the new block gets. *)
Definition new_height (st : index) (block : header) : Z :=
  match deref (objects st) (mapBlockIndex st !! hashPrevBlock block) with Some e => nHeight e + 1 | None => 0 end.

(** What a call may assume: a fresh address, a hash that is not that of its
    predecessor, 32-bit [nBits] and [nTime], and room for one more height. *)
Record admissible (st : index) (block : header) (n : ptr) : Prop := {
  adm_fresh : objects st !! n = None;
  adm_prev : hash block ≠ hashPrevBlock block;
  adm_bits : word 32 (hBits block);
  adm_time : word 32 (hTime block);
  adm_height : new_height st block < 2 ^ 31 - 1
}.

Section Add.
Context (st : index) (block : header) (n : ptr) (Hst : index_core st) (Hadm : admissible st block n).

Definition fresh_entry : CBlockIndex :=
  mkIndex (hash block) None None 0 (Arith.zero Arith.WIDTH) 0 (hTime block) (hBits block).

Lemma objects_insert e : objects st ⊆ <[n := e]> (objects st).
Proof. apply insert_subseteq, (adm_fresh _ _ _ Hadm). Qed.

(** After [link] the new object has its place in the tree. *)
Lemma link_spec :
  ∃ e, link (<[n := fresh_entry]> (objects st)) (<[hash block := n]> (mapBlockIndex st)) block n
       = Some (<[n := e]> (objects st)) ∧
  entry_ok (objects st) e ∧ pprev e = mapBlockIndex st !! hashPrevBlock block ∧ nHeight e = new_height st block ∧
  phashBlock e = hash block ∧ nBits e = hBits block ∧ nTime e = hTime block ∧ nStatus e = 0.
Proof.
  unfold link, new_height. rewrite lookup_insert_ne by apply (adm_prev _ _ _ Hadm).
  destruct (mapBlockIndex st !! hashPrevBlock block) as [q|] eqn:Eq; cbn [deref mbind option_bind].
  - pose proof Eq as Hq. apply (ok_map _ Hst) in Hq. destruct Hq as (eq & Hq & _).
    assert (Hne : n ≠ q) by (intros ->; rewrite (adm_fresh _ _ _ Hadm) in Hq; done).
    assert (Hh : nHeight eq + 1 < 2 ^ 31 - 1).
    { pose proof (adm_height _ _ _ Hadm) as H. unfold new_height in H. rewrite Eq in H.
      cbn [deref mbind option_bind] in H. unfold deref in H. cbn [mbind option_bind] in H. by rewrite Hq in H. }
    pose proof (entry_height _ (ok_linked _ Hst) _ _ Hq) as H0.
    rewrite lookup_insert_ne by done. rewrite Hq. cbn [mbind option_bind].
    rewrite alter_insert_eq. unfold BuildSkip. rewrite lookup_insert_eq. cbn [mbind option_bind set_link pprev nHeight].
    destruct (GetAncestor_spec _ (ok_linked _ Hst) q eq (GetSkipHeight (nHeight eq + 1)) Hq) as (s & Es & Ha).
    { pose proof (GetSkipHeight_range (nHeight eq + 1) ltac:(lia)). lia. }
    rewrite (GetAncestor_mono _ _ _ _ _ (objects_insert _) Es). cbn [mbind option_bind].
    rewrite insert_insert_eq. eexists. split; [reflexivity|].
    split; [|done]. split; cbn; [lia|]. split; [by eauto|]. by exists s.
  - exists fresh_entry. split; [done|]. split; [|done]. split; cbn; [lia | done].
Qed.

Lemma work_before_insert e' e : pprev e ≠ Some n → work_before (<[n := e']> (objects st)) e = work_before (objects st) e.
Proof.
  intros Hne. unfold work_before, deref. destruct (pprev e) as [q|]; [|done]. cbn [mbind option_bind].
  rewrite lookup_insert_ne by congruence. done.
Qed.

Lemma prev_not_new p e : objects st !! p = Some e → pprev e ≠ Some n.
Proof.
  intros He Hn. destruct (entry_prev _ (ok_linked _ Hst) _ _ _ He Hn) as (e' & He' & _).
  rewrite (adm_fresh _ _ _ Hadm) in He'. done.
Qed.

Lemma map_not_new : mapBlockIndex st !! hashPrevBlock block ≠ Some n.
Proof.
  intros Hn. apply (ok_map _ Hst) in Hn. destruct Hn as (e & He & _). rewrite (adm_fresh _ _ _ Hadm) in He. done.
Qed.

(** [accumulate] adds the work of the new block and marks it valid. *)
Lemma accumulate_spec e :
  pprev e = mapBlockIndex st !! hashPrevBlock block → nBits e = hBits block → nStatus e = 0 →
  ∃ w, accumulate (<[n := e]> (objects st)) n
       = Some (<[n := set_status BLOCK_VALID_TREE (set_work w e)]> (objects st)) ∧
       Arith.holds Arith.WIDTH w (work_before (objects st) e + Work.work (nBits e)).
Proof.
  intros Hp Hb Hs. unfold accumulate. rewrite lookup_insert_eq. cbn [mbind option_bind].
  destruct (Work.GetBlockProof_spec (nBits e)) as (w & Ew & W1 & W2 & W3); [rewrite Hb; apply (adm_bits _ _ _ Hadm)|].
  assert (Hbefore : ∃ b, match pprev e with
                         | Some q => nChainWork <$> <[n := e]> (objects st) !! q
                         | None => Some (Arith.of_uint64 Arith.WIDTH 0)
                         end = Some b ∧ Arith.limbs b ∧ length b = Arith.WIDTH ∧ Arith.val b = work_before (objects st) e).
  { unfold work_before, deref. pose proof map_not_new as Hn. destruct (pprev e) as [q|]; cbn [mbind option_bind].
    - symmetry in Hp. rewrite lookup_insert_ne by congruence. apply (ok_map _ Hst) in Hp. destruct Hp as (eq & Hq & _).
      destruct (ok_work _ Hst _ _ Hq) as [_ (L1 & L2 & _)]. rewrite Hq. exists (nChainWork eq). done.
    - eexists. split; [reflexivity|]. apply Arith.of_uint64_spec; [unfold Arith.WIDTH; lia | split; lia]. }
  destruct Hbefore as (b & -> & B1 & B2 & B3). cbn [mbind option_bind]. rewrite Ew. cbn [mbind option_bind].
  rewrite RaiseValidity_fresh by done. cbn [mbind option_bind fst]. rewrite insert_insert_eq.
  exists (Arith.op_add b w). split; [done|].
  destruct (Arith.op_add_spec b w B1 W1 ltac:(congruence)) as (A1 & A2 & A3).
  split; [done|]. split; [congruence|]. rewrite A3, B3, W3. unfold Arith.modulus. by rewrite B2.
Qed.

(** The state after the call, for a hash that is not known yet. *)
Lemma AddToBlockIndex_spec :
  mapBlockIndex st !! hash block = None →
  ∃ e best, AddToBlockIndex st block n
    = Some (mkIdx (<[n := e]> (objects st)) (<[hash block := n]> (mapBlockIndex st)) best
                  ({[n]} ∪ setDirtyBlockIndex st), n) ∧
  entry_ok (objects st) e ∧ work_ok (objects st) e ∧ best_ok (<[n := e]> (objects st)) best ∧
  IsValid e BLOCK_VALID_TREE = Some true ∧
  pprev e = mapBlockIndex st !! hashPrevBlock block ∧ nHeight e = new_height st block ∧
  phashBlock e = hash block ∧ nBits e = hBits block ∧ nTime e = hTime block.
Proof.
  intros Hnew. unfold AddToBlockIndex. rewrite Hnew. fold fresh_entry.
  destruct link_spec as (e & -> & Hok & Hp & Hh & Hph & Hb & Ht & Hs). cbn [mbind option_bind].
  destruct (accumulate_spec e Hp Hb Hs) as (w & -> & Hw). cbn [mbind option_bind].
  set (e' := set_status BLOCK_VALID_TREE (set_work w e)).
  assert (Hbest : ∃ best, best_header (<[n := e']> (objects st)) (pindexBestHeader st) n = Some best ∧
                          best_ok (<[n := e']> (objects st)) best).
  { pose proof (ok_best _ Hst) as Hb'. unfold best_header. destruct (pindexBestHeader st) as [b|].
    - destruct Hb' as (eb & Heb & Hmax).
      assert (n ≠ b) by (intros ->; rewrite (adm_fresh _ _ _ Hadm) in Heb; done).
      rewrite (lookup_insert_ne _ n b) by done. rewrite Heb, lookup_insert_eq. cbn [mbind option_bind].
      destruct (ok_work _ Hst _ _ Heb) as [_ (L1 & L2 & _)]. destruct Hw as (W1 & W2 & _).
      change (nChainWork e') with w. rewrite Arith.CompareTo_ltb by (done || congruence).
      destruct (Z.ltb_spec (Arith.val (nChainWork eb)) (Arith.val w)) as [Hlt|Hge];
        eexists; (split; [reflexivity|]); cbn [best_ok].
      + exists e'. rewrite lookup_insert_eq. split; [done|]. change (nChainWork e') with w.
        intros p ep Hep. destruct (decide (p = n)) as [->|]; [rewrite lookup_insert_eq in Hep; by simplify_eq|].
        rewrite lookup_insert_ne in Hep by done. specialize (Hmax _ _ Hep). lia.
      + exists eb. rewrite lookup_insert_ne by done. split; [done|].
        intros p ep Hep. destruct (decide (p = n)) as [->|]; [rewrite lookup_insert_eq in Hep; by simplify_eq|].
        rewrite lookup_insert_ne in Hep by done. by eapply Hmax.
    - cbn [best_ok] in Hb'. eexists. split; [reflexivity|]. cbn [best_ok]. exists e'. rewrite lookup_insert_eq.
      split; [done|]. intros p ep. rewrite Hb', insert_empty, lookup_singleton_Some. by intros [_ <-]. }
  destruct Hbest as (best & -> & Hbest). cbn [mbind option_bind].
  exists e', best. split; [done|]. split; [exact Hok|]. split; [|done].
  split; [|exact Hw]. cbn. rewrite Hb. apply (adm_bits _ _ _ Hadm).
Qed.

(** The new entry has no flag. *)
Lemma AddToBlockIndex_status st' p e :
  mapBlockIndex st !! hash block = None → AddToBlockIndex st block n = Some (st', p) → objects st' !! n = Some e → nStatus e = BLOCK_VALID_TREE.
Proof.
  intros Hnew. unfold AddToBlockIndex. rewrite Hnew. fold fresh_entry.
  destruct link_spec as (e0 & -> & _ & Hp & _ & _ & Hb & _ & Hs). cbn [mbind option_bind].
  destruct (accumulate_spec e0 Hp Hb Hs) as (w & -> & _). cbn [mbind option_bind].
  destruct (best_header _ _ _) as [best|]; [|done]. cbn [mbind option_bind]. intros [= <- <-]. cbn [objects]. rewrite lookup_insert_eq. by intros [= <-].
Qed.

(** The invariant is kept. *)
Lemma AddToBlockIndex_core st' p : AddToBlockIndex st block n = Some (st', p) → index_core st'.
Proof.
  destruct (mapBlockIndex st !! hash block) as [q|] eqn:Eq.
  { unfold AddToBlockIndex. rewrite Eq. intros [= <- <-]. done. }
  destruct (AddToBlockIndex_spec Eq) as (e & best & -> & Hok & Hw & Hbest & Hv & Hp & _ & Hh & _ & Ht). intros [= <- <-].
  split; cbn [objects mapBlockIndex pindexBestHeader setDirtyBlockIndex].
  - intros p ep Hep. apply (entry_ok_mono _ _ _ (objects_insert e)).
    apply lookup_insert_Some in Hep as [[_ <-]|[_ Hep]]; [done | by eapply ok_linked].
  - intros p ep Hep.
    assert (Hold : work_ok (objects st) ep ∧ pprev ep ≠ Some n).
    { apply lookup_insert_Some in Hep as [[_ <-]|[_ Hep]].
      - split; [done|]. rewrite Hp. exact map_not_new.
      - split; [by eapply ok_work | by eapply prev_not_new]. }
    destruct Hold as [[H1 H2] Hn]. split; [done|]. by rewrite work_before_insert.
  - intros h p. rewrite lookup_insert_Some. split.
    + intros [[<- <-]|[Hne Hm]]; [exists e; by rewrite lookup_insert_eq|].
      apply (ok_map _ Hst) in Hm. destruct Hm as (e' & He' & Hh'). exists e'.
      rewrite lookup_insert_ne; [done|]. intros ->. rewrite (adm_fresh _ _ _ Hadm) in He'. done.
    + intros (e' & He' & Hh'). apply lookup_insert_Some in He' as [[<- <-]|[Hne He']]; [left; by rewrite Hh in Hh'|].
      right. assert (Hm : mapBlockIndex st !! h = Some p) by (apply (ok_map _ Hst); eauto).
      split; [|done]. intros <-. by rewrite Eq in Hm.
  - exact Hbest.
  - intros p ep Hep. apply lookup_insert_Some in Hep as [[_ <-]|[_ Hep]]; [rewrite Ht; apply (adm_time _ _ _ Hadm) | by eapply ok_time].
Qed.
Lemma AddToBlockIndex_keeps st' p : index_ok st → AddToBlockIndex st block n = Some (st', p) → index_ok st'.
Proof.
  intros Hok E. split; [exact (AddToBlockIndex_core _ _ E) | | ]; revert E;
    (destruct (mapBlockIndex st !! hash block) as [q|] eqn:Eq; [unfold AddToBlockIndex; rewrite Eq; intros [= <- <-]; apply Hok|]);
    destruct (AddToBlockIndex_spec Eq) as (e & best & -> & _ & _ & _ & Hv & _); intros [= <- <-]; cbn [objects setDirtyBlockIndex].
  - intros y Hin. apply elem_of_union in Hin as [Hin|Hin].
    + apply elem_of_singleton in Hin as ->. rewrite lookup_insert_eq. by eexists.
    + destruct (decide (y = n)) as [->|]; [rewrite lookup_insert_eq; by eexists|].
      rewrite lookup_insert_ne by done. by apply (ok_dirty _ Hok).
  - intros y ep Hep. apply lookup_insert_Some in Hep as [[_ <-]|[_ Hep]]; [done | by eapply ok_valid].
Qed.
End Add.

Lemma AddToBlockIndex_ok st block n (Hst : index_ok st) (Hadm : admissible st block n) st' p :
  AddToBlockIndex st block n = Some (st', p) → index_ok st'.
Proof. exact (AddToBlockIndex_keeps st block n Hst Hadm st' p Hst). Qed.

(** ** Reachable indexes *)

Definition empty_index : index := mkIdx ∅ ∅ None ∅.

(** One call of [AddToBlockIndex]. *)
Inductive add_step : index → index → Prop :=
| add_block st block n st' p :
    admissible st block n → AddToBlockIndex st block n = Some (st', p) → add_step st st'.

Lemma empty_index_ok : index_ok empty_index.
Proof. split; [split|..]; cbn; try done. intros h p. split; [done | by intros (e & He & _)]. Qed.

Lemma reachable_ok st : rtc add_step empty_index st → index_ok st.
Proof.
  intros H. cut (index_ok empty_index → index_ok st); [intros Hc; apply Hc, empty_index_ok|].
  induction H as [|st1 st2 st3 [st block n st' p Hadm Ha] _ IH]; [done|].
  intros Hok. apply IH. by eapply AddToBlockIndex_ok.
Qed.

(** ** The active chain *)

(** [vChain] is the branch of [tip]: its ancestors by height. *)
Definition branch_of (hp : heap) (tip : option ptr) (vChain : chain) : Prop :=
  match tip with
  | None => vChain = []
  | Some p =>
      ∃ e, hp !! p = Some e ∧ length vChain = Z.to_nat (nHeight e + 1) ∧
           ∀ i, (i < length vChain)%nat → ∃ q, vChain !! i = Some (Some q) ∧ ancestor_at hp p (Z.of_nat i) q
  end.

Section Active.
Context (hp : heap) (Hok : linked hp).

Lemma at_height_Some vChain h q :
  at_height vChain h = Some q ↔ 0 <= h ∧ vChain !! Z.to_nat h = Some (Some q).
Proof.
  unfold at_height. destruct (Z.ltb_spec h 0); cbn [orb]; [split; [done | lia]|].
  destruct (Z.geb_spec h (Z.of_nat (length vChain))).
  - split; [done|]. intros [_ Hl]. apply lookup_lt_Some in Hl. lia.
  - destruct (vChain !! Z.to_nat h) as [[x|]|]; cbn; split; [intros [= ->]; done | by intros [_ [= ->]] | done | by intros [_ ?] | done | by intros [_ ?]].
Qed.

(** Being in the chain, in a chain that is a branch. *)
Lemma branch_elem tip vChain q eq :
  branch_of hp tip vChain → hp !! q = Some eq →
  at_height vChain (nHeight eq) = Some q ↔ ∃ p, tip = Some p ∧ anc hp p q.
Proof.
  intros Hb Hq. pose proof (entry_height _ Hok _ _ Hq) as H0. rewrite at_height_Some. split.
  - intros [_ Hl]. destruct tip as [p|]; [|cbn in Hb; by rewrite Hb in Hl].
    destruct Hb as (e & He & Hlen & Hi). exists p. split; [done|].
    destruct (Hi (Z.to_nat (nHeight eq))) as (q' & Hl' & Ha & _); [by eapply lookup_lt_Some|]. by simplify_eq.
  - intros (p & -> & Ha). split; [lia|]. destruct Hb as (e & He & Hlen & Hi).
    destruct (anc_height _ Hok _ _ _ _ Ha He Hq) as [Hle _].
    destruct (Hi (Z.to_nat (nHeight eq)) ltac:(lia)) as (q' & Hl & Ha').
    rewrite Hl. do 2 f_equal. rewrite Z2Nat.id in Ha' by lia. apply (ancestor_unique _ Hok _ _ _ _ Ha'). split; eauto.
Qed.

Lemma Contains_spec tip vChain q eq :
  branch_of hp tip vChain → hp !! q = Some eq →
  Contains hp vChain q = Some (bool_decide (at_height vChain (nHeight eq) = Some q)).
Proof. intros Hb Hq. unfold Contains. by rewrite Hq. Qed.

(** [SetTip]: what is left of the old chain below a block of the new branch is right. *)
Lemma old_part old vChain p r er i q :
  branch_of hp old vChain → hp !! r = Some er → anc hp p r →
  vChain !! Z.to_nat (nHeight er) = Some (Some r) → (i <= Z.to_nat (nHeight er))%nat → vChain !! i = Some (Some q) →
  ancestor_at hp p (Z.of_nat i) q.
Proof.
  intros Hb Hr Ha Hk Hi Hq. pose proof (entry_height _ Hok _ _ Hr) as H0.
  destruct old as [o|]; [|cbn in Hb; by rewrite Hb in Hq]. destruct Hb as (eo & Heo & Hlen & Hall).
  destruct (Hall i) as (q' & Hq' & Ha' & eq' & Heq & Hh); [by eapply lookup_lt_Some|]. simplify_eq.
  destruct (Hall (Z.to_nat (nHeight er))) as (r' & Hr' & Har & _); [by eapply lookup_lt_Some|]. simplify_eq.
  split; [|by eauto]. eapply anc_trans; [exact Ha|]. eapply (anc_linear _ Hok o); eauto. lia.
Qed.

Lemma lookup_resize n vChain i q :
  chain_resize n vChain !! i = Some (Some q) → vChain !! i = Some (Some q).
Proof.
  unfold chain_resize. intros H. apply lookup_app_Some in H as [H|[_ H]].
  - apply lookup_take_Some in H. by destruct H.
  - apply lookup_replicate in H. by destruct H.
Qed.

Lemma resize_lookup n vChain i :
  (i < n)%nat → (i < length vChain)%nat → chain_resize n vChain !! i = vChain !! i.
Proof.
  intros Hi Hl. unfold chain_resize. rewrite lookup_app_l by (rewrite length_take; lia). by apply lookup_take_lt.
Qed.

Lemma length_resize n vChain : length (chain_resize n vChain) = n.
Proof. unfold chain_resize. rewrite length_app, length_take, length_replicate. lia. Qed.

Lemma tip_loop_spec old vChain p e fuel : ∀ v r er,
  branch_of hp old vChain → hp !! p = Some e → hp !! r = Some er → anc hp p r →
  (Z.to_nat (nHeight er) < fuel)%nat → length v = Z.to_nat (nHeight e + 1) →
  (∀ i, (Z.to_nat (nHeight er) < i < length v)%nat → ∃ q, v !! i = Some (Some q) ∧ ancestor_at hp p (Z.of_nat i) q) →
  (∀ i, (i <= Z.to_nat (nHeight er))%nat → v !! i = chain_resize (length v) vChain !! i) →
  ∃ v', tip_loop fuel hp v (Some r) = Some v' ∧ length v' = length v ∧
        ∀ i, (i < length v)%nat → ∃ q, v' !! i = Some (Some q) ∧ ancestor_at hp p (Z.of_nat i) q.
Proof.
  induction fuel as [|fuel IH]; intros v r er Hb He Hr Ha Hf Hlen Habove Hbelow; [lia|].
  pose proof (entry_height _ Hok _ _ Hr) as H0. destruct (anc_height _ Hok _ _ _ _ Ha He Hr) as [Hle _].
  set (k := Z.to_nat (nHeight er)) in *. assert (Hk : (k < length v)%nat) by lia.
  destruct (lookup_lt_is_Some_2 v k Hk) as [x Hx].
  cbn [tip_loop]. rewrite Hr. cbn [mbind option_bind]. fold k. rewrite Hx. cbn [mbind option_bind].
  destruct (decide (x = Some r)) as [->|Hne].
  - exists v. split; [done|]. split; [done|]. intros i Hi.
    destruct (decide (i <= k)%nat) as [Hik|Hik]; [|apply Habove; lia].
    pose proof Hx as Hx'. rewrite (Hbelow k) in Hx' by lia. apply lookup_resize in Hx'.
    pose proof (lookup_lt_Some _ _ _ Hx') as Hlt.
    destruct (lookup_lt_is_Some_2 vChain i ltac:(lia)) as [y Hy].
    assert (∃ q, y = Some q) as [q ->].
    { destruct old as [o|]; [|cbn in Hb; by rewrite Hb in Hy]. destruct Hb as (eo & _ & _ & Hall).
      destruct (Hall i ltac:(lia)) as (q & Hq & _). simplify_eq. by eauto. }
    exists q. split; [rewrite (Hbelow i Hik), resize_lookup by lia; exact Hy|]. by eapply old_part.
  - assert (Hown : ancestor_at hp p (Z.of_nat k) r) by (split; [done|]; exists er; split; [done | lia]).
    destruct (pprev er) as [s|] eqn:Es.
    + destruct (entry_prev _ Hok _ _ _ Hr Es) as (es & Hes & Hh). pose proof (entry_height _ Hok _ _ Hes).
      destruct (IH (<[k := Some r]> v) s es Hb He Hes) as (v' & Ev & Hl & Hall).
      * eapply anc_trans; [exact Ha|]. eapply anc_prev; [done | done | apply anc_refl].
      * lia.
      * by rewrite length_insert.
      * intros i Hi. rewrite length_insert in Hi. destruct (decide (i = k)) as [->|].
        -- exists r. by rewrite list_lookup_insert_eq.
        -- rewrite list_lookup_insert_ne by done. apply Habove. lia.
      * intros i Hi. rewrite length_insert, list_lookup_insert_ne by lia. apply Hbelow. lia.
      * exists v'. rewrite length_insert in *. done.
    + apply (entry_root _ Hok _ _ Hr) in Es as Ez.
      assert (Ek : k = 0%nat) by lia.
      exists (<[k := Some r]> v). split; [destruct fuel; cbn [tip_loop]; reflexivity|]. rewrite length_insert. split; [done|].
      intros i Hi. destruct (decide (i = k)) as [->|].
      * exists r. by rewrite list_lookup_insert_eq.
      * rewrite list_lookup_insert_ne by done. apply Habove. lia.
Qed.

Lemma SetTip_spec old vChain p e :
  branch_of hp old vChain → hp !! p = Some e → ∃ v, SetTip hp vChain (Some p) = Some v ∧ branch_of hp (Some p) v.
Proof.
  intros Hb He. unfold SetTip. rewrite He. cbn [mbind option_bind]. pose proof (entry_height _ Hok _ _ He).
  destruct (tip_loop_spec old vChain p e (S (Z.to_nat (nHeight e))) (chain_resize (Z.to_nat (nHeight e + 1)) vChain) p e)
    as (v & Ev & Hl & Hall); rewrite ?length_resize; try done; try lia.
  { apply anc_refl. }
  exists v. split; [done|]. exists e. rewrite length_resize in *. rewrite Hl. done.
Qed.

(** ** The fork point *)

Lemma fork_loop_spec tip vChain fuel : ∀ p e,
  branch_of hp tip vChain → hp !! p = Some e → (Z.to_nat (nHeight e) < fuel)%nat →
  ∃ r, fork_loop fuel hp vChain (Some p) = Some r ∧
    match r with
    | Some q => anc hp p q ∧ (∃ t, tip = Some t ∧ anc hp t q) ∧
                ∀ t q', tip = Some t → anc hp p q' → anc hp t q' → anc hp q q'
    | None => ∀ t q', tip = Some t → anc hp p q' → ¬ anc hp t q'
    end.
Proof.
  induction fuel as [|fuel IH]; intros p e Hb He Hf; [lia|].
  pose proof (branch_elem tip vChain p e Hb He) as Hiff.
  cbn [fork_loop]. rewrite (Contains_spec tip vChain p e Hb He). cbn [mbind option_bind].
  case_bool_decide as Hd.
  - exists (Some p). split; [done|]. apply Hiff in Hd. split; [apply anc_refl|]. split; [done|]. done.
  - rewrite He. cbn [mbind option_bind].
    assert (Hself : ∀ t, tip = Some t → ¬ anc hp t p) by (intros t -> Ha; apply Hd, Hiff; eauto).
    destruct (pprev e) as [s|] eqn:Es.
    + destruct (entry_prev _ Hok _ _ _ He Es) as (es & Hes & Hh). pose proof (entry_height _ Hok _ _ Hes).
      destruct (IH s es Hb Hes ltac:(lia)) as (r & Er & Hr). exists r. split; [done|].
      destruct r as [q|].
      * destruct Hr as (Ha & Ht & Hmax). split; [by eapply anc_prev|]. split; [done|].
        intros t q' -> Hp Ht'. inversion Hp; simplify_eq; [by apply Hself in Ht'|]. by eapply Hmax.
      * intros t q' -> Hp Ht'. inversion Hp; simplify_eq; [by apply Hself in Ht'|]. by eapply Hr.
    + exists None. split; [by destruct fuel|]. intros t q' -> Hp Ht'.
      inversion Hp; simplify_eq. by apply Hself in Ht'.
Qed.

Lemma Height_branch t et vChain : branch_of hp (Some t) vChain → hp !! t = Some et → Height vChain = nHeight et.
Proof.
  intros (e & He & Hl & _) Ht. simplify_eq. pose proof (entry_height _ Hok _ _ He). unfold Height. rewrite Hl. lia.
Qed.

Lemma FindFork_spec tip vChain p e :
  branch_of hp tip vChain → hp !! p = Some e →
  ∃ r, FindFork hp vChain (Some p) = Some r ∧
    match r with
    | Some q => anc hp p q ∧ (∃ t, tip = Some t ∧ anc hp t q) ∧
                ∀ t q', tip = Some t → anc hp p q' → anc hp t q' → anc hp q q'
    | None => ∀ t q', tip = Some t → anc hp p q' → ¬ anc hp t q'
    end.
Proof.
  intros Hb He. unfold FindFork. rewrite He. cbn [mbind option_bind]. pose proof (entry_height _ Hok _ _ He) as H0.
  rewrite Z.gtb_ltb. destruct (Z.ltb_spec (Height vChain) (nHeight e)) as [Hlt|Hge].
  2: { cbn [mbind option_bind]. eapply fork_loop_spec; [done..|lia]. }
  destruct tip as [t|].
  - pose proof Hb as (et & Ht & _). rewrite (Height_branch t et vChain Hb Ht) in *.
    pose proof (entry_height _ Hok _ _ Ht) as Ht0.
    destruct (GetAncestor_spec _ Hok p e (nHeight et) He ltac:(lia)) as (s & -> & Ha & es & Hes & Hh).
    cbn [mbind option_bind].
    destruct (fork_loop_spec (Some t) vChain (S (Z.to_nat (nHeight e))) s es Hb Hes ltac:(lia)) as (r & Er & Hr).
    assert (Hvia : ∀ q', anc hp p q' → anc hp t q' → anc hp s q').
    { intros q' Hp Ht'. destruct (anc_object _ Hok _ _ _ Ht' Ht) as [eq' Hq'].
      destruct (anc_height _ Hok _ _ _ _ Ht' Ht Hq') as [Hle _].
      eapply (anc_linear _ Hok p); eauto. lia. }
    exists r. split; [done|]. destruct r as [q|].
    + destruct Hr as (Hs & Htq & Hmax). split; [by eapply anc_trans|]. split; [done|].
      intros t' q' [= <-] Hp Ht'. eapply Hmax; eauto.
    + intros t' q' [= <-] Hp Ht'. eapply Hr; eauto.
  - cbn in Hb. subst vChain. change (Height []) with (-1). unfold GetAncestor. rewrite He. cbn [mbind option_bind].
    change (-1 <? 0) with true. rewrite orb_true_r. exists None. split; [done|]. done.
Qed.
End Active.

Section Common.
Context (hp : heap) (Hok : linked hp).

(** ** The last common ancestor *)

(** [r] is the highest common ancestor of [a] and [b], null if there is none. *)
Definition last_common (a b : ptr) (r : option ptr) : Prop :=
  match r with
  | Some q => anc hp a q ∧ anc hp b q ∧ ∀ q', anc hp a q' → anc hp b q' → anc hp q q'
  | None => ∀ q', anc hp a q' → ¬ anc hp b q'
  end.

Lemma common_loop_spec fuel : ∀ a b ea eb,
  hp !! a = Some ea → hp !! b = Some eb → nHeight ea = nHeight eb → (Z.to_nat (nHeight ea) < fuel)%nat →
  ∃ r, common_loop fuel hp (Some a) (Some b) = Some (r, r) ∧ last_common a b r.
Proof.
  induction fuel as [|fuel IH]; intros a b ea eb Ha Hb Hh Hf; [lia|]. cbn [common_loop].
  destruct (decide (a = b)) as [->|Hne].
  { exists (Some b). split; [done|]. split; [apply anc_refl|]. split; [apply anc_refl | done]. }
  rewrite Ha. cbn [mbind option_bind]. rewrite Hb. cbn [mbind option_bind].
  destruct (pprev ea) as [a'|] eqn:Ea, (pprev eb) as [b'|] eqn:Eb.
  - destruct (entry_prev _ Hok _ _ _ Ha Ea) as (ea' & Ha' & Hha), (entry_prev _ Hok _ _ _ Hb Eb) as (eb' & Hb' & Hhb).
    pose proof (entry_height _ Hok _ _ Ha').
    destruct (IH a' b' ea' eb' Ha' Hb' ltac:(lia) ltac:(lia)) as (r & Er & Hr).
    assert (Hvia : ∀ q', anc hp a q' → anc hp b q' → anc hp a' q' ∧ anc hp b' q').
    { intros q' Ka Kb. destruct (anc_object _ Hok _ _ _ Ka Ha) as [eq' Hq'].
      assert (nHeight eq' ≠ nHeight ea).
      { intros Heq. destruct (anc_height _ Hok _ _ _ _ Ka Ha Hq') as [_ E1], (anc_height _ Hok _ _ _ _ Kb Hb Hq') as [_ E2].
        apply Hne. transitivity q'; [auto | symmetry; apply E2; lia]. }
      inversion Ka; simplify_eq; try done. inversion Kb; simplify_eq; try lia. done. }
    exists r. split; [done|]. destruct r as [q|]; cbn [last_common] in *.
    + destruct Hr as (H1 & H2 & H3). split; [by eapply anc_prev|]. split; [by eapply anc_prev|].
      intros q' Ka Kb. destruct (Hvia q' Ka Kb). auto.
    + intros q' Ka Kb. destruct (Hvia q' Ka Kb). by eapply Hr.
  - apply (entry_root _ Hok _ _ Hb) in Eb. destruct (entry_prev _ Hok _ _ _ Ha Ea) as (ea' & Ha' & Hha).
    pose proof (entry_height _ Hok _ _ Ha'). lia.
  - apply (entry_root _ Hok _ _ Ha) in Ea. destruct (entry_prev _ Hok _ _ _ Hb Eb) as (eb' & Hb' & Hhb).
    pose proof (entry_height _ Hok _ _ Hb'). lia.
  - exists None. split; [by destruct fuel|]. intros q' Ka Kb. inversion Ka; inversion Kb; by simplify_eq.
Qed.

(** Walking the higher of two blocks down to the height of the other loses no common ancestor. *)
Lemma last_common_down a b s ea eb es r :
  hp !! a = Some ea → hp !! b = Some eb → hp !! s = Some es → anc hp a s → nHeight es = nHeight eb →
  last_common s b r → last_common a b r.
Proof.
  intros Ha Hb Hs Has Hh Hr.
  assert (Hvia : ∀ q', anc hp a q' → anc hp b q' → anc hp s q').
  { intros q' Ka Kb. destruct (anc_object _ Hok _ _ _ Kb Hb) as [eq' Hq'].
    destruct (anc_height _ Hok _ _ _ _ Kb Hb Hq') as [Hle _]. eapply (anc_linear _ Hok a); eauto. lia. }
  destruct r as [q|]; cbn [last_common] in *.
  - destruct Hr as (H1 & H2 & H3). split; [by eapply anc_trans|]. split; [done|]. eauto.
  - intros q' Ka Kb. eapply Hr; eauto.
Qed.

Lemma last_common_sym a b r : last_common a b r → last_common b a r.
Proof. destruct r as [q|]; cbn [last_common]; [intros (H1 & H2 & H3); auto | intros H q' Ha Hb; by eapply H]. Qed.

Lemma LastCommonAncestor_spec a b ea eb :
  hp !! a = Some ea → hp !! b = Some eb → ∃ r, LastCommonAncestor hp a b = Some r ∧ last_common a b r.
Proof.
  intros Ha Hb. unfold LastCommonAncestor. rewrite Ha. cbn [mbind option_bind]. rewrite Hb. cbn [mbind option_bind].
  pose proof (entry_height _ Hok _ _ Ha). pose proof (entry_height _ Hok _ _ Hb).
  rewrite !Z.gtb_ltb. destruct (Z.ltb_spec (nHeight eb) (nHeight ea)) as [Hlt|Hge].
  - destruct (GetAncestor_spec _ Hok a ea (nHeight eb) Ha ltac:(lia)) as (s & -> & Has & es & Hs & Hh).
    cbn [mbind option_bind]. destruct (common_loop_spec (S (Z.to_nat (Z.min (nHeight ea) (nHeight eb)))) s b es eb Hs Hb Hh ltac:(lia))
      as (r & -> & Hr). cbn [mbind option_bind fst snd]. rewrite decide_True by done.
    exists r. split; [done|]. eapply last_common_down; eauto.
  - cbn [mbind option_bind]. destruct (Z.ltb_spec (nHeight ea) (nHeight eb)) as [Hlt|Hge'].
    + destruct (GetAncestor_spec _ Hok b eb (nHeight ea) Hb ltac:(lia)) as (s & -> & Hbs & es & Hs & Hh).
      cbn [mbind option_bind]. destruct (common_loop_spec (S (Z.to_nat (Z.min (nHeight ea) (nHeight eb)))) a s ea es Ha Hs ltac:(done) ltac:(lia))
        as (r & -> & Hr). cbn [mbind option_bind fst snd]. rewrite decide_True by done.
      exists r. split; [done|]. apply last_common_sym. eapply last_common_down; eauto. by apply last_common_sym.
    + cbn [mbind option_bind]. destruct (common_loop_spec (S (Z.to_nat (Z.min (nHeight ea) (nHeight eb)))) a b ea eb Ha Hb ltac:(lia) ltac:(lia))
        as (r & -> & Hr). cbn [mbind option_bind fst snd]. rewrite decide_True by done. by exists r.
Qed.

(** ** Locators *)

Definition height_of (p : ptr) : Z := from_option nHeight 0 (hp !! p).

(** A locator from [p]: blocks of its branch from [p] down to the root. *)
Record locates (p : ptr) (ps : list ptr) : Prop := {
  loc_first : head ps = Some p;
  loc_anc : Forall (anc hp p) ps;
  loc_down : Sorted (λ a b, height_of b < height_of a) ps;
  loc_last : ∃ g, last ps = Some g ∧ height_of g = 0
}.

(** The next block, from the chain or by the skip list, is the ancestor at the height. *)
Lemma locator_next tip vChain p e h :
  branch_of hp tip vChain → hp !! p = Some e → 0 <= h <= nHeight e →
  ∃ c q, Contains hp vChain p = Some c ∧
    (if (c : bool) then Some (at_height vChain h) else GetAncestor hp p h) = Some (Some q) ∧ ancestor_at hp p h q.
Proof.
  intros Hb He Hh. rewrite (Contains_spec _ tip vChain p e Hb He).
  destruct (ancestor_exists _ Hok p e h He Hh) as (q & Ha). case_bool_decide as Hd.
  - exists true, q. split; [done|]. split; [|done]. f_equal.
    destruct (branch_elem _ Hok tip vChain p e Hb He) as [Hf _]. destruct (Hf Hd) as (t & -> & Htp).
    destruct Ha as [Ha (eq & Heq & Hhq)]. rewrite <- Hhq.
    apply (branch_elem _ Hok (Some t) vChain q eq Hb Heq). exists t. split; [done|]. by eapply anc_trans.
  - destruct (GetAncestor_spec _ Hok p e h He Hh) as (q' & E & Ha'). exists false, q'. done.
Qed.

Lemma locator_loop_spec tip vChain H fuel : ∀ have nStep p e,
  branch_of hp tip vChain → hp !! p = Some e → (Z.to_nat (nHeight e) < fuel)%nat → H < 2 ^ 30 →
  nStep = 2 ^ Z.of_nat (length have - 10) → nHeight e = 0 ∨ nHeight e + nStep <= H + 1 →
  ∃ ps, locator_loop fuel hp vChain have nStep (Some p) = Some (have ++ ps) ∧ locates p ps ∧
        (nHeight e = 0 → length ps = 1%nat) ∧
        (0 < nHeight e → Z.of_nat (length have + length ps) <= Z.log2 H + 12).
Proof.
  induction fuel as [|fuel IH]; intros have nStep p e Hb He Hf HH Hs Hinv; [lia|].
  pose proof (entry_height _ Hok _ _ He) as H0. assert (Hp : 1 <= nStep) by (subst nStep; apply (Z.pow_le_mono_r 2 0); lia).
  cbn [locator_loop]. rewrite He. cbn [mbind option_bind].
  assert (Hhp : height_of p = nHeight e) by (unfold height_of; by rewrite He).
  destruct (Z.eqb_spec (nHeight e) 0) as [Ez|Ez].
  - exists [p]. split; [done|]. split.
    { split; [done | repeat constructor | repeat constructor | exists p; split; [done | lia]]. }
    split; [done | lia].
  - destruct (locator_next tip vChain p e (Z.max (nHeight e - nStep) 0) Hb He ltac:(lia)) as (c & q & -> & Eq & Ha & eq & Hq & Hh).
    cbn [mbind option_bind]. rewrite Eq. cbn [mbind option_bind].
    set (have' := have ++ [p]). set (nStep' := if (10 <? length have')%nat then nStep * 2 else nStep).
    assert (Hl : length have' = S (length have)) by (unfold have'; rewrite length_app; cbn; lia).
    assert (Hs' : nStep' = 2 ^ Z.of_nat (length have' - 10) ∧ nStep' <= 2 * nStep).
    { unfold nStep'. rewrite Hl. destruct (Nat.ltb_spec 10 (S (length have))).
      - split; [|lia]. rewrite Hs. replace (S (length have) - 10)%nat with (S (length have - 10)) by lia.
        rewrite Nat2Z.inj_succ, Z.pow_succ_r by lia. lia.
      - split; [|lia]. rewrite Hs. do 2 f_equal. lia. }
    destruct Hs' as [Hs1 Hs2]. destruct (Z.ltb_spec nStep' (2 ^ 31)); [|lia].
    destruct (IH have' nStep' q eq Hb Hq ltac:(lia) HH Hs1 ltac:(lia)) as (ps & Eps & [L1 L2 L3 L4] & Hone & Hlen).
    exists (p :: ps). split; [rewrite Eps; unfold have'; by rewrite <- app_assoc|].
    assert (Hhq : height_of q = nHeight eq) by (unfold height_of; by rewrite Hq).
    split; [|split; [lia|]].
    + split; [done | | | ].
      * constructor; [apply anc_refl|]. eapply Forall_impl; [exact L2|]. intros x Hx. by eapply anc_trans.
      * destruct ps as [|x ps]; [done|]. cbn in L1. injection L1 as ->. constructor; [done|]. constructor. lia.
      * destruct L4 as (g & Hg & Hg0). exists g. split; [|done]. destruct ps; [done|]. exact Hg.
    + intros _. destruct (Z.eq_dec (nHeight eq) 0) as [E0|E0].
      * rewrite (Hone E0) in *. cbn [length]. rewrite (Hone E0).
        assert (Hk : 2 ^ Z.of_nat (length have - 10) <= H) by lia.
        assert (Z.of_nat (length have - 10) <= Z.log2 H); [|lia].
        apply Z.log2_le_pow2; lia.
      * specialize (Hlen ltac:(lia)). cbn [length] in *. lia.
Qed.

(** The block a locator starts from: the argument, or the tip. *)
Lemma GetLocator_spec tip vChain pindex p e :
  branch_of hp tip vChain → match pindex with Some q => Some q | None => tip end = Some p →
  hp !! p = Some e → nHeight e < 2 ^ 30 →
  ∃ ps hs, GetLocator hp vChain pindex = Some hs ∧ locates p ps ∧
    Forall2 (λ q h, phashBlock <$> hp !! q = Some h) ps hs ∧ Z.of_nat (length hs) <= Z.log2 (nHeight e) + 12.
Proof.
  intros Hb Hp He HH. unfold GetLocator. pose proof (entry_height _ Hok _ _ He) as H0.
  replace (match pindex with Some _ => pindex | None => Tip vChain end) with (Some p).
  2: { destruct pindex as [q|]; [by rewrite <- Hp|]. subst tip. destruct Hb as (e' & He' & Hl & Hall). simplify_eq.
       unfold Tip. destruct (length vChain) as [|s] eqn:El; [lia|].
       destruct (Hall s ltac:(lia)) as (q & -> & Ha & eq & Hq & Hh). cbn. f_equal.
       destruct (anc_height _ Hok _ _ _ _ Ha He' Hq) as [_ Heq]. apply Heq. lia. }
  rewrite He. cbn [fmap option_fmap option_map mbind option_bind].
  destruct (locator_loop_spec tip vChain (nHeight e) (S (Z.to_nat (nHeight e))) [] 1 p e Hb He ltac:(lia) HH eq_refl ltac:(lia))
    as (ps & -> & Hloc & Hone & Hlen). cbn [app mbind option_bind].
  assert (Hmap : is_Some (mapM (λ p, phashBlock <$> hp !! p) ps)).
  { apply mapM_is_Some. eapply Forall_impl; [exact (loc_anc _ _ Hloc)|]. intros q Ha.
    destruct (anc_object _ Hok _ _ _ Ha He) as [eq Hq]. cbn. rewrite Hq. by eexists. }
  destruct Hmap as [hs Hhs]. exists ps, hs. split; [done|]. split; [done|]. apply mapM_Some in Hhs. split; [done|].
  apply Forall2_length in Hhs. rewrite <- Hhs. destruct (Z.eq_dec (nHeight e) 0) as [E0|].
  - rewrite (Hone E0). pose proof (Z.log2_nonneg (nHeight e)). lia.
  - specialize (Hlen ltac:(lia)). cbn [length Nat.add] in Hlen. lia.
Qed.
End Common.

(** ** Main results *)

(** C15: On every index that calls of [AddToBlockIndex] build from the empty one: heights
    count the predecessors, [pskip] points to the ancestor at the skip height,
    [nChainWork] is the accumulated work, [mapBlockIndex] maps exactly the hashes of
    the objects to them, and [pindexBestHeader] is a block of most work. *)
Theorem block_index_invariant st : rtc add_step empty_index st → index_ok st.
Proof. apply reachable_ok. Qed.

(** [AddToBlockIndex] always returns: the known block and an unchanged index if the
    hash is known, and otherwise a new block below its predecessor, all the other
    blocks being unchanged. *)
Theorem AddToBlockIndex_correct st block n :
  index_ok st → admissible st block n →
  ∃ st' p, AddToBlockIndex st block n = Some (st', p) ∧ index_ok st' ∧ mapBlockIndex st' !! hash block = Some p ∧
    (mapBlockIndex st !! hash block = Some p ∧ st' = st ∨
     mapBlockIndex st !! hash block = None ∧ p = n ∧
     ∃ e, objects st' = <[n := e]> (objects st) ∧ pprev e = mapBlockIndex st !! hashPrevBlock block ∧
          nHeight e = new_height st block).
Proof.
  intros Hst Hadm. destruct (mapBlockIndex st !! hash block) as [q|] eqn:Eq.
  - exists st, q. split; [unfold AddToBlockIndex; by rewrite Eq|]. split; [done|]. split; [done|]. by left.
  - destruct (AddToBlockIndex_spec st block n Hst Hadm Eq) as (e & best & E & _ & _ & _ & _ & Hp & Hh & _).
    eexists _, n. split; [exact E|]. split; [by eapply AddToBlockIndex_ok|]. cbn [objects mapBlockIndex].
    split; [apply lookup_insert_eq|]. right. split; [done|]. split; [done|]. by exists e.
Qed.

(** C22: [GetAncestor] terminates without a null dereference and finds the ancestor of
    the given height, null exactly when the height is out of range. *)
Theorem GetAncestor_correct st p e h :
  index_ok st → objects st !! p = Some e →
  (0 <= h <= nHeight e ∧ ∃ q, GetAncestor (objects st) p h = Some (Some q) ∧ ancestor_at (objects st) p h q ∧
                             ∀ q', ancestor_at (objects st) p h q' → q' = q) ∨
  (¬ 0 <= h <= nHeight e ∧ GetAncestor (objects st) p h = Some None).
Proof.
  intros Hst He. destruct (decide (0 <= h <= nHeight e)) as [Hh|Hh]; [left | right]; (split; [done|]).
  - destruct (GetAncestor_spec _ (ok_linked _ Hst) p e h He Hh) as (q & E & Ha). exists q. split; [done|]. split; [done|].
    intros q' Ha'. by eapply (ancestor_unique _ (ok_linked _ Hst)).
  - unfold GetAncestor. rewrite He. cbn [mbind option_bind].
    destruct (Z.gtb_spec h (nHeight e)), (Z.ltb_spec h 0); try done; lia.
Qed.

(** [SetTip] turns the vector of one branch into that of another one, although it
    stops at the first block that is already in place. *)
Theorem SetTip_correct st old vChain p e :
  index_ok st → branch_of (objects st) old vChain → objects st !! p = Some e →
  ∃ v, SetTip (objects st) vChain (Some p) = Some v ∧ branch_of (objects st) (Some p) v.
Proof. intros Hst. apply SetTip_spec, (ok_linked _ Hst). Qed.

(** [FindFork] returns the highest ancestor of a block that is on the active chain,
    null if there is none. *)
Theorem FindFork_correct st tip vChain p e :
  index_ok st → branch_of (objects st) (Some tip) vChain → objects st !! p = Some e →
  ∃ r, FindFork (objects st) vChain (Some p) = Some r ∧ last_common (objects st) p tip r.
Proof.
  intros Hst Hb He. destruct (FindFork_spec _ (ok_linked _ Hst) (Some tip) vChain p e Hb He) as (r & E & Hr).
  exists r. split; [done|]. destruct r as [q|]; cbn [last_common].
  - destruct Hr as (H1 & (t & [= <-] & H2) & H3). split; [done|]. split; [done|]. eauto.
  - intros q' Hp. by eapply Hr.
Qed.

(** [LastCommonAncestor] terminates, passes its assertion and returns the highest
    common ancestor, null if there is none. *)
Theorem LastCommonAncestor_correct st a b ea eb :
  index_ok st → objects st !! a = Some ea → objects st !! b = Some eb →
  ∃ r, LastCommonAncestor (objects st) a b = Some r ∧ last_common (objects st) a b r.
Proof. intros Hst. apply LastCommonAncestor_spec, (ok_linked _ Hst). Qed.

(** A locator lists hashes of blocks of one branch, from the given block (or the tip)
    down to the root, in strictly decreasing heights, at most log2 of the height plus
    twelve of them; the step does not overflow below a height of 2^30. *)
Theorem GetLocator_correct st tip vChain pindex p e :
  index_ok st → branch_of (objects st) tip vChain →
  match pindex with Some q => Some q | None => tip end = Some p →
  objects st !! p = Some e → nHeight e < 2 ^ 30 →
  ∃ ps hs, GetLocator (objects st) vChain pindex = Some hs ∧ locates (objects st) p ps ∧
    Forall2 (λ q h, mapBlockIndex st !! h = Some q) ps hs ∧ Z.of_nat (length hs) <= Z.log2 (nHeight e) + 12.
Proof.
  intros Hst Hb Hp He Hh.
  destruct (GetLocator_spec _ (ok_linked _ Hst) tip vChain pindex p e Hb Hp He Hh) as (ps & hs & E & Hl & Hf & Hn).
  exists ps, hs. split; [done|]. split; [done|]. split; [|done]. eapply Forall2_impl; [exact Hf|].
  intros q h Hq. cbn in Hq. apply fmap_Some in Hq as (eq & Hq & ->). apply (ok_map _ Hst). eauto.
Qed.

(** ** The results on a small index *)

(** Five blocks with a fork above the second one. *)
Definition some_header (h prev : Z) : header := mkHeader [h] [prev] (1000 + 60 * h) 0x207fffff.
Definition added (st : index) (h prev : Z) (n : ptr) : index :=
  match AddToBlockIndex st (some_header h prev) n with Some (st', _) => st' | None => st end.

Definition index1 : index := Eval vm_compute in added empty_index 1 0 1.
Definition index2 : index := Eval vm_compute in added index1 2 1 2.
Definition index3 : index := Eval vm_compute in added index2 3 2 3.
Definition index4 : index := Eval vm_compute in added index3 4 2 4.
Definition index5 : index := Eval vm_compute in added index4 5 4 5.

(** The side conditions of a call on a concrete index. *)
Ltac small_admissible :=
  split; [reflexivity | discriminate | split; [discriminate | reflexivity] | split; [discriminate | reflexivity] | vm_compute; reflexivity].

Lemma index5_reachable : rtc add_step empty_index index5.
Proof.
  apply rtc_l with index1; [apply (add_block _ (some_header 1 0) 1 _ 1); [small_admissible | vm_compute; reflexivity]|].
  apply rtc_l with index2; [apply (add_block _ (some_header 2 1) 2 _ 2); [small_admissible | vm_compute; reflexivity]|].
  apply rtc_l with index3; [apply (add_block _ (some_header 3 2) 3 _ 3); [small_admissible | vm_compute; reflexivity]|].
  apply rtc_l with index4; [apply (add_block _ (some_header 4 2) 4 _ 4); [small_admissible | vm_compute; reflexivity]|].
  apply rtc_l with index5; [apply (add_block _ (some_header 5 4) 5 _ 5); [small_admissible | vm_compute; reflexivity]|].
  apply rtc_refl.
Qed.

(** The best header is the tip of the longer branch, 5, at height 3. *)
Lemma block_index_invariant_witness : index_ok index5 ∧ pindexBestHeader index5 = Some 5%positive.
Proof. split; [exact (block_index_invariant index5 index5_reachable) | reflexivity]. Defined.

Lemma index5_ok : index_ok index5.
Proof. exact (reachable_ok index5 index5_reachable). Qed.

(** A block on the other branch, and a block that is known. *)
Lemma AddToBlockIndex_correct_witness :
  (∃ st', AddToBlockIndex index5 (some_header 6 3) 6 = Some (st', 6%positive)) ∧
  AddToBlockIndex index5 (some_header 4 2) 7 = Some (index5, 4%positive).
Proof.
  split.
  - destruct (AddToBlockIndex_correct index5 (some_header 6 3) 6 index5_ok ltac:(small_admissible))
      as (st' & p & E & _ & _ & [[H _]|(_ & -> & _)]); [discriminate H | by exists st'].
  - destruct (AddToBlockIndex_correct index5 (some_header 4 2) 7 index5_ok ltac:(small_admissible))
      as (st' & p & E & _ & _ & [[H ->]|[H _]]); [|discriminate H].
    vm_compute in H. injection H as <-. exact E.
Defined.

Definition entry_of (p : ptr) : CBlockIndex :=
  default (mkIndex [] None None 0 [] 0 0 0) (objects index5 !! p).

(** Block 5, at height 3, has the root as ancestor of height 0 and none of height 4. *)
Lemma GetAncestor_correct_witness :
  GetAncestor (objects index5) 5 0 = Some (Some 1%positive) ∧ GetAncestor (objects index5) 5 4 = Some None.
Proof.
  split.
  - destruct (GetAncestor_correct index5 5 (entry_of 5) 0 index5_ok ltac:(reflexivity)) as [(_ & q & E & _)|[H _]].
    + rewrite E. vm_compute in E. congruence.
    + destruct H. vm_compute. split; discriminate.
  - destruct (GetAncestor_correct index5 5 (entry_of 5) 4 index5_ok ltac:(reflexivity)) as [([_ H] & _)|[_ E]];
      [vm_compute in H; destruct (H eq_refl) | exact E].
Defined.

Definition chain3 : chain := [Some 1%positive; Some 2%positive; Some 3%positive].
Definition chain5 : chain := [Some 1%positive; Some 2%positive; Some 4%positive; Some 5%positive].

Lemma chain3_branch : branch_of (objects index5) (Some 3%positive) chain3.
Proof.
  exists (entry_of 3). split; [reflexivity|]. split; [reflexivity|].
  intros [|[|[|i]]] Hi; [| | |cbn in Hi; lia]; eexists; (split; [reflexivity|]);
    (split; [|eexists; split; [reflexivity | reflexivity]]).
  - do 2 (eapply anc_prev; [reflexivity | reflexivity |]). apply anc_refl.
  - eapply anc_prev; [reflexivity | reflexivity |]. apply anc_refl.
  - apply anc_refl.
Qed.

(** From the branch of 3 to that of 5. *)
Lemma SetTip_correct_witness :
  SetTip (objects index5) chain3 (Some 5%positive) = Some chain5 ∧ branch_of (objects index5) (Some 5%positive) chain5.
Proof.
  destruct (SetTip_correct index5 (Some 3%positive) chain3 5 (entry_of 5) index5_ok chain3_branch ltac:(reflexivity))
    as (v & E & Hb). vm_compute in E. injection E as <-. split; [vm_compute; reflexivity | exact Hb].
Defined.

(** The branches of 3 and 5 fork at 2. *)
Lemma FindFork_correct_witness :
  FindFork (objects index5) chain3 (Some 5%positive) = Some (Some 2%positive) ∧
  last_common (objects index5) 5 3 (Some 2%positive).
Proof.
  destruct (FindFork_correct index5 3 chain3 5 (entry_of 5) index5_ok chain3_branch ltac:(reflexivity)) as (r & E & Hr).
  vm_compute in E. injection E as <-. split; [vm_compute; reflexivity | exact Hr].
Defined.

Lemma LastCommonAncestor_correct_witness :
  LastCommonAncestor (objects index5) 3 5 = Some (Some 2%positive) ∧ last_common (objects index5) 3 5 (Some 2%positive).
Proof.
  destruct (LastCommonAncestor_correct index5 3 5 (entry_of 3) (entry_of 5) index5_ok ltac:(reflexivity) ltac:(reflexivity))
    as (r & E & Hr). vm_compute in E. injection E as <-. split; [vm_compute; reflexivity | exact Hr].
Defined.

Lemma GetLocator_correct_witness :
  GetLocator (objects index5) chain3 (Some 5%positive) = Some [[5]; [4]; [2]; [1]] ∧
  ∃ ps, locates (objects index5) 5 ps.
Proof.
  destruct (GetLocator_correct index5 (Some 3%positive) chain3 (Some 5%positive) 5 (entry_of 5) index5_ok chain3_branch
    eq_refl ltac:(reflexivity) ltac:(vm_compute; reflexivity)) as (ps & hs & E & Hl & _).
  split; [|exists ps; exact Hl]. rewrite E. vm_compute in E. congruence.
Defined.

End Chain.
