(* ===== verification/Retarget.v ===== *)
(** * src/pow.cpp: the required difficulty of the next block

    The three retargeting rules and their choice by the height, on the block index
    of [Chain] and the parameters of [Consensus].  [int64_t] arithmetic is checked:
    [None] is a signed overflow or a division by zero, as well as a dereference of a
    null pointer, a failed assertion or an exception.  A factor of type [int64_t]
    selects [operator*=(uint32_t)] and is truncated to 32 bits. *)

From stdpp Require Import base gmap list fin_maps.
From Stdlib Require Import ZArith Lia.
From S2P Require Import Prelude Arith Work Consensus Chain.
Import Chain Consensus.
Open Scope Z_scope.

Module Retarget.

(** ** Checked [int64_t] *)

Definition i64 (x : Z) : option Z := if (- 2 ^ 63 <=? x) && (x <? 2 ^ 63) then Some x else None.
Definition add64 (x y : Z) : option Z := i64 (x + y).
Definition sub64 (x y : Z) : option Z := i64 (x - y).
Definition mul64 (x y : Z) : option Z := i64 (x * y).
Definition div64 (x y : Z) : option Z := if y =? 0 then None else i64 (Z.quot x y).

Definition DAY_IN_SECONDS : Z := 24 * (60 * 60).
Definition WEEK_IN_SECONDS : Z := 7 * DAY_IN_SECONDS.
Definition MONTH_IN_SECONDS : Z := 30 * DAY_IN_SECONDS.

Definition target_of (nBits : Z) : list Z := (Arith.SetCompact nBits).1.1.

(** [if (bnNew > limit) bnNew = limit; return bnNew.GetCompact();] *)
Definition limited (limit bnNew : list Z) : option Z :=
  Arith.GetCompact (if Arith.CompareTo bnNew limit >? 0 then limit else bnNew) false.

(** [bnNew *= num; bnNew /= den;] *)
Definition scale (bnNew : list Z) (num den : Z) : option (list Z) :=
  Arith.op_div (Arith.op_mul32 bnNew (Arith.to_u32 num)) (Arith.of_uint64 Arith.WIDTH (Arith.to_u64 den)).

(** ** GetNextWorkRequiredPOW *)

Definition PastBlocks : Z := 24.

(** The state of the loop over the past blocks. *)
Record past : Type := mkPast {
  BlockReading : option ptr; CountBlocks : Z; PastDifficultyAverage : list Z;
  nActualTimespan : Z; LastBlockTime : Z
}.

(** The average after one more block; before the first one it is that block's target. *)
Definition average (s : past) (count : Z) (nBits : Z) : option (list Z) :=
  if count =? 1 then Some (target_of nBits)
  else Arith.op_div (Arith.op_add (Arith.op_mul32 (PastDifficultyAverage s) (Arith.to_u32 count)) (target_of nBits))
         (Arith.of_uint64 Arith.WIDTH (count + 1)).

(** [for (unsigned int i = 1; BlockReading && BlockReading->nHeight > 0; i++)]. *)
Fixpoint past_loop (fuel : nat) (hp : heap) (i : Z) (s : past) : option past :=
  match fuel, BlockReading s with
  | S fuel, Some p =>
      e ← hp !! p;
      if nHeight e >? 0 then
        if i >? PastBlocks then Some s
        else
          let count := CountBlocks s + 1 in
          avg ← (if count <=? PastBlocks then average s count (nBits e) else Some (PastDifficultyAverage s));
          span ← (if LastBlockTime s >? 0
                  then diff ← sub64 (LastBlockTime s) (nTime e); add64 (nActualTimespan s) diff
                  else Some (nActualTimespan s));
          match pprev e with
          | None => Some (mkPast (Some p) count avg span (nTime e))
          | Some q => past_loop fuel hp (i + 1) (mkPast (Some q) count avg span (nTime e))
          end
      else Some s
  | _, None => Some s
  | O, Some _ => None
  end.

Definition clamp_timespan (nActualTimespan nTargetTimespan : Z) : Z :=
  let t := if nActualTimespan <? Z.quot nTargetTimespan 3 then Z.quot nTargetTimespan 3 else nActualTimespan in
  if t >? nTargetTimespan * 3 then nTargetTimespan * 3 else t.

Definition GetNextWorkRequiredPOW (params : Params) (hp : heap) (pindexLast : option ptr) : option Z :=
  match pindexLast with
  | None => Arith.GetCompact (powLimit params) false
  | Some p =>
      e ← hp !! p;
      if (nHeight e =? 0) || (nHeight e <? PastBlocks) then Arith.GetCompact (powLimit params) false
      else
        s ← past_loop 26 hp 1 (mkPast (Some p) 0 (Arith.zero Arith.WIDTH) 0 0);
        target ← mul64 (CountBlocks s) (nTargetSpacing params);
        bnNew ← scale (PastDifficultyAverage s) (clamp_timespan (nActualTimespan s) target) target;
        limited (powLimit params) bnNew
  end.

(** ** GetNextWorkRequiredPOS *)

Definition GetNextWorkRequiredPOS (params : Params) (hp : heap) (pindexLast : ptr) : option Z :=
  e ← hp !! pindexLast;
  fIsTimeProtocolV2 ← IsTimeProtocolV2 params (nHeight e + 1);
  nTargetTimespan ← TargetTimespan params (nHeight e + 1);
  let posLimit := ProofOfStakeLimit params fIsTimeProtocolV2 in
  spacing ← (if negb (nHeight e =? 0) then prev ← deref hp (pprev e); sub64 (nTime e) (nTime prev) else Some 0);
  let spacing := if spacing <? 0 then 1 else spacing in
  let spacing := if fIsTimeProtocolV2 && (spacing >? nTargetSpacing params * 10) then nTargetSpacing params * 10
                 else spacing in
  before ← IsTimeProtocolV2 params (nHeight e);
  let bnNew := target_of (nBits e) in
  let bnNew := if fIsTimeProtocolV2 && negb before then Arith.op_shl bnNew 4 else bnNew in
  nInterval ← div64 nTargetTimespan (nTargetSpacing params);
  num ← i64 ((nInterval - 1) * nTargetSpacing params + spacing + spacing);
  den ← i64 ((nInterval + 1) * nTargetSpacing params);
  bnNew ← scale bnNew num den;
  limited posLimit bnNew.

(** ** GetNextWorkRequiredPOSV2 *)

(** The time the last [window] seconds' worth of blocks took. *)
Definition accumulated (params : Params) (hp : heap) (chainActive : chain) (e : CBlockIndex) (nBlocks window : Z)
  : option Z :=
  if nHeight e + 1 >? nBlocks
  then old ← deref hp (at_height chainActive (nHeight e - nBlocks)); sub64 (nTime e) (nTime old)
  else Some window.

(** [t = window * t / spent]. *)
Definition damp (window spent t : Z) : option Z := x ← mul64 window t; div64 x spent.

(** The spacing a window asks for: the target spacing in milliseconds, times the
    fourth power of the ratio of the window to the time spent. *)
Definition window_spacing (params : Params) (window spent : Z) : option Z :=
  a ← mul64 window (nTargetSpacing params);
  a ← mul64 a 1000;
  t ← div64 a spent;
  t ← damp window spent t;
  t ← damp window spent t;
  damp window spent t.

Definition final_spacing (params : Params) (day week biweek month : Z) : option Z :=
  d ← mul64 day 60; w ← mul64 week 24; b ← mul64 biweek 10; m ← mul64 month 6;
  s ← add64 d w; s ← add64 s b; s ← add64 s m;
  let t := Z.quot s 100 in
  Some (Z.max (Z.min t (Z.quot (nTargetSpacing params * 1000 * 110) 100)) (Z.quot (nTargetSpacing params * 1000 * 90) 100)).

Definition GetNextWorkRequiredPOSV2 (params : Params) (hp : heap) (chainActive : chain) (pIndexLast : ptr) : option Z :=
  e ← hp !! pIndexLast;
  fIsTimeProtocolV2 ← IsTimeProtocolV2 params (nHeight e + 1);
  let posLimit := ProofOfStakeLimit params fIsTimeProtocolV2 in
  nDay ← div64 DAY_IN_SECONDS (nTargetSpacing params);
  nWeek ← div64 WEEK_IN_SECONDS (nTargetSpacing params);
  nMonth ← div64 MONTH_IN_SECONDS (nTargetSpacing params);
  spacing ← (if nHeight e + 1 >? 1 then prev ← deref hp (pprev e); sub64 (nTime e) (nTime prev)
             else Some (nTargetSpacing params));
  day ← accumulated params hp chainActive e nDay DAY_IN_SECONDS;
  week ← accumulated params hp chainActive e nWeek WEEK_IN_SECONDS;
  biweek ← accumulated params hp chainActive e (2 * nWeek) (2 * WEEK_IN_SECONDS);
  month ← accumulated params hp chainActive e nMonth MONTH_IN_SECONDS;
  spacing ← mul64 spacing 1000;
  day ← window_spacing params DAY_IN_SECONDS day;
  week ← window_spacing params WEEK_IN_SECONDS week;
  biweek ← window_spacing params (2 * WEEK_IN_SECONDS) biweek;
  month ← window_spacing params MONTH_IN_SECONDS month;
  final ← final_spacing params day week biweek month;
  let nK := 60 in
  num ← i64 (spacing + (nK - 1) * final);
  den ← mul64 nK final;
  bnNew ← scale (target_of (nBits e)) num den;
  limited posLimit bnNew.

(** ** GetNextWorkRequired *)

Definition GetNextWorkRequired (fRegTest : bool) (params : Params) (hp : heap) (chainActive : chain) (pindexLast : ptr)
  : option Z :=
  e ← hp !! pindexLast;
  if fRegTest then Some (nBits e)
  else
    v3 ← NetworkUpgradeActive (nHeight e + 1) params UPGRADE_POS_V3;
    if (v3 : bool) then GetNextWorkRequiredPOSV2 params hp chainActive pindexLast
    else
      pos ← NetworkUpgradeActive (nHeight e + 1) params UPGRADE_POS;
      if (pos : bool) then GetNextWorkRequiredPOS params hp pindexLast
      else GetNextWorkRequiredPOW params hp (Some pindexLast).

(** ** Lemmas *)

Lemma i64_Some x : - 2 ^ 63 <= x < 2 ^ 63 → i64 x = Some x.
Proof. intros Hx. unfold i64. destruct (Z.leb_spec (- 2 ^ 63) x), (Z.ltb_spec x (2 ^ 63)); try lia. done. Qed.

Lemma bind_none {A B} (o : option A) (f : A → option B) : (∀ x, f x = None) → o ≫= f = None.
Proof. intros Hf. destruct o; [apply Hf|done]. Qed.

Lemma div64_Some x y : 0 <= x < 2 ^ 63 → 0 < y → div64 x y = Some (x / y).
Proof.
  intros Hx Hy. unfold div64. destruct (Z.eqb_spec y 0); [lia|]. rewrite Z.quot_div_nonneg by lia.
  apply i64_Some. split; [pose proof (Z.div_pos x y); lia|]. apply Z.le_lt_trans with x; [|lia].
  apply Z.div_le_upper_bound; nia.
Qed.

Lemma mul64_Some x y : 0 <= x → 0 <= y → x * y < 2 ^ 63 → mul64 x y = Some (x * y).
Proof. intros. apply i64_Some. nia. Qed.

(** A compact number that stands for a nonnegative target of at most [limit]. *)
Definition within (limit : list Z) (c : Z) : Prop :=
  word 32 c ∧ Z.testbit c 23 = false ∧ Arith.compact_abs c <= Arith.val limit.

Abbreviation num256 a := (Arith.limbs a ∧ length a = Arith.WIDTH).

Lemma num256_bound a : num256 a → 0 <= Arith.val a < 2 ^ 256.
Proof. intros [H1 H2]. pose proof (Arith.val_bound a H1) as H. unfold Arith.modulus in H. by rewrite H2 in H. Qed.

Lemma GetCompact_within limit a :
  num256 a → Arith.val a <= Arith.val limit → ∃ c, Arith.GetCompact a false = Some c ∧ within limit c.
Proof.
  intros Ha Hle. pose proof (num256_bound a Ha) as Hb. destruct Ha as [H1 H2].
  exists (Arith.mpi (Arith.val a) false). split; [by apply Arith.GetCompact_spec|].
  destruct (Arith.mpi_parts (Arith.val a) false Hb) as (P1 & _ & _ & P4).
  split; [done|]. split; [by rewrite P4|]. rewrite Arith.compact_abs_mpi by done.
  assert (0 < 256 ^ Arith.dropped (Arith.val a)) as Hp by (apply Z.pow_pos_nonneg; unfold Arith.dropped; lia).
  pose proof (Z.mod_pos_bound (Arith.val a) _ Hp). lia.
Qed.

Lemma limited_within limit a : num256 limit → num256 a → ∃ c, limited limit a = Some c ∧ within limit c.
Proof.
  intros Hl Ha. unfold limited. rewrite Arith.CompareTo_gtb by (apply Hl || apply Ha || (destruct Hl, Ha; congruence)).
  destruct (Z.ltb_spec (Arith.val limit) (Arith.val a)); apply GetCompact_within; try done; lia.
Qed.

Lemma scale_spec a num den :
  num256 a → 0 < den < 2 ^ 63 →
  ∃ r, scale a num den = Some r ∧ num256 r ∧
       Arith.val r = (Arith.val a * Arith.to_u32 num) mod 2 ^ 256 / den.
Proof.
  intros [A1 A2] Hd. unfold scale. rewrite (Arith.to_u64_id den) by (split; lia).
  destruct (Arith.op_mul32_spec a (Arith.to_u32 num) A1 (Arith.u32_to_u32 num)) as (M1 & M2 & M3).
  destruct (Arith.of_uint64_spec Arith.WIDTH den ltac:(unfold Arith.WIDTH; lia) ltac:(split; lia)) as (D1 & D2 & D3).
  pose proof (Arith.op_div_spec _ _ M1 D1 ltac:(congruence)) as H.
  destruct (Arith.op_div _ _) as [r|]; [|lia]. destruct H as (_ & R1 & R2 & R3).
  exists r. split; [done|]. split; [split; [done | congruence]|]. rewrite R3, M3, D3. unfold Arith.modulus. by rewrite A2.
Qed.

Lemma target_of_spec c :
  word 32 c → num256 (target_of c) ∧ Arith.val (target_of c) = Arith.compact_abs c mod 2 ^ 256.
Proof.
  intros Hc. pose proof (Arith.SetCompact_spec c Hc) as H. unfold target_of. destruct (Arith.SetCompact c) as [[t n] o].
  destruct H as (H1 & H2 & H3 & _). done.
Qed.

(** What the rules assume of the parameters. *)
Record params_ok (params : Params) : Prop := {
  pok_pow : num256 (powLimit params);
  pok_pos1 : num256 (posLimitV1 params);
  pok_pos2 : num256 (posLimitV2 params);
  pok_spacing : 0 < nTargetSpacing params <= 86400;
  pok_span1 : nTargetSpacing params <= nTargetTimespan params < 2 ^ 31;
  pok_span2 : nTargetSpacing params <= nTargetTimespanV2 params < 2 ^ 31
}.

Lemma pos_limit_ok params b : params_ok params → num256 (ProofOfStakeLimit params b).
Proof. intros H. destruct b; [apply (pok_pos2 _ H) | apply (pok_pos1 _ H)]. Qed.

Lemma upgrade_Some params h idx : 0 <= h → ∃ b, NetworkUpgradeActive h params idx = Some b.
Proof.
  intros Hh. destruct (upgrade_active_spec h params (index_of idx) Hh) as (b & E & _); [|by exists b].
  unfold MAX_NETWORK_UPGRADES. destruct idx; cbn; lia.
Qed.

(** ** The proof-of-stake rule *)

Section Rules.
Context (st : index) (params : Params) (Hst : index_ok st) (Hparams : params_ok params).
Abbreviation hp := (objects st).

Lemma previous p e :
  hp !! p = Some e → nHeight e ≠ 0 → ∃ q eq, pprev e = Some q ∧ hp !! q = Some eq ∧ word 32 (nTime eq) ∧ nHeight e = nHeight eq + 1.
Proof.
  intros He Hz. destruct (pprev e) as [q|] eqn:Eq.
  - destruct (entry_prev _ (ok_linked _ Hst) _ _ _ He Eq) as (eq & Hq & Hh). exists q, eq.
    split; [done|]. split; [done|]. split; [by eapply (ok_time _ Hst) | done].
  - by apply (entry_root _ (ok_linked _ Hst) _ _ He) in Eq.
Qed.

Lemma GetNextWorkRequiredPOS_spec p e :
  hp !! p = Some e →
  ∃ c v2, GetNextWorkRequiredPOS params hp p = Some c ∧ IsTimeProtocolV2 params (nHeight e + 1) = Some v2 ∧
          within (ProofOfStakeLimit params v2) c.
Proof.
  intros He. pose proof (entry_height _ (ok_linked _ Hst) _ _ He) as Hh. pose proof (ok_time _ Hst _ _ He) as Ht.
  destruct (ok_work _ Hst _ _ He) as [Hb _]. unfold word in Ht.
  unfold GetNextWorkRequiredPOS. rewrite He. cbn [mbind option_bind].
  destruct (upgrade_Some params (nHeight e + 1) UPGRADE_TIME_PROTOCOL_V2 ltac:(lia)) as [v2 Ev].
  destruct (upgrade_Some params (nHeight e) UPGRADE_TIME_PROTOCOL_V2 ltac:(lia)) as [v1 Ev1].
  unfold TargetTimespan, IsTimeProtocolV2. rewrite Ev, Ev1. cbn [mbind option_bind option_map].
  assert (Hspan : nTargetSpacing params <= (if v2 then nTargetTimespanV2 params else nTargetTimespan params) < 2 ^ 31)
    by (destruct v2; [apply (pok_span2 _ Hparams) | apply (pok_span1 _ Hparams)]).
  set (span := if v2 then _ else _) in *. pose proof (pok_spacing _ Hparams) as Hs.
  assert (Hsp : ∃ s, (if negb (nHeight e =? 0) then prev ← deref hp (pprev e); sub64 (nTime e) (nTime prev) else Some 0)
                     = Some s ∧ - 2 ^ 32 < s < 2 ^ 32).
  { destruct (Z.eqb_spec (nHeight e) 0) as [E|E]; cbn [negb]; [exists 0; split; [done | lia]|].
    destruct (previous p e He E) as (q & eq & Eq & Hq & Htq & _). unfold word in Htq.
    rewrite Eq. cbn [deref mbind option_bind]. unfold deref. cbn [mbind option_bind]. rewrite Hq. cbn [mbind option_bind].
    unfold sub64. rewrite i64_Some by lia. eexists. split; [done | lia]. }
  destruct Hsp as (s & -> & Hs2). cbn [mbind option_bind].
  set (s1 := if s <? 0 then 1 else s). assert (Hs1 : 0 <= s1 < 2 ^ 32) by (unfold s1; destruct (Z.ltb_spec s 0); lia).
  set (s2 := if v2 && (s1 >? nTargetSpacing params * 10) then nTargetSpacing params * 10 else s1).
  assert (Hs3 : 0 <= s2 < 2 ^ 32) by (unfold s2; destruct (v2 && _); lia).
  destruct (target_of_spec _ Hb) as [Hn _].
  set (bn := if v2 && negb v1 then Arith.op_shl (target_of (nBits e)) 4 else target_of (nBits e)).
  assert (Hbn : num256 bn).
  { unfold bn. destruct (v2 && negb v1); [|done]. destruct Hn as [H1 H2].
    destruct (Arith.op_shl_spec (target_of (nBits e)) 4 H1 ltac:(lia)) as (S1 & S2 & _). split; [done | congruence]. }
  rewrite div64_Some by lia. cbn [mbind option_bind].
  pose proof (Z.div_le_lower_bound span (nTargetSpacing params) 1 ltac:(lia) ltac:(lia)) as Hi1.
  pose proof (Z.mul_div_le span (nTargetSpacing params) ltac:(lia)) as Hi2.
  set (iv := span / nTargetSpacing params) in *.
  assert (Hiv : nTargetSpacing params <= iv * nTargetSpacing params < 2 ^ 31) by nia.
  rewrite i64_Some by lia. cbn [mbind option_bind]. rewrite i64_Some by lia. cbn [mbind option_bind].
  destruct (scale_spec bn ((iv - 1) * nTargetSpacing params + s2 + s2) ((iv + 1) * nTargetSpacing params) Hbn ltac:(lia))
    as (r & -> & Hr & _). cbn [mbind option_bind].
  destruct (limited_within (ProofOfStakeLimit params v2) r (pos_limit_ok _ _ Hparams) Hr) as (c & Ec & Hc).
  exists c, v2. done.
Qed.

(** ** The proof-of-work rule *)

Lemma average_spec s count c :
  num256 (PastDifficultyAverage s) → 1 <= count <= 24 → word 32 c → ∃ a, average s count c = Some a ∧ num256 a.
Proof.
  intros [A1 A2] Hc Hb. unfold average. destruct (target_of_spec c Hb) as [[T1 T2] _].
  destruct (Z.eqb_spec count 1); [by eexists|].
  destruct (Arith.op_mul32_spec _ (Arith.to_u32 count) A1 (Arith.u32_to_u32 count)) as (M1 & M2 & _).
  destruct (Arith.op_add_spec _ _ M1 T1 ltac:(congruence)) as (S1 & S2 & _).
  destruct (Arith.of_uint64_spec Arith.WIDTH (count + 1) ltac:(unfold Arith.WIDTH; lia) ltac:(split; lia)) as (D1 & D2 & D3).
  pose proof (Arith.op_div_spec _ _ S1 D1 ltac:(congruence)) as H.
  destruct (Arith.op_div _ _) as [r|]; [|lia]. destruct H as (_ & R1 & R2 & _). exists r. split; [done|]. split; [done | congruence].
Qed.

Lemma past_loop_spec fuel : ∀ i s p e,
  BlockReading s = Some p → hp !! p = Some e → i = CountBlocks s + 1 → 0 <= CountBlocks s <= 24 →
  24 - CountBlocks s <= nHeight e → num256 (PastDifficultyAverage s) →
  Z.abs (nActualTimespan s) <= CountBlocks s * 2 ^ 32 → 0 <= LastBlockTime s < 2 ^ 32 →
  25 - CountBlocks s <= Z.of_nat fuel →
  ∃ s', past_loop fuel hp i s = Some s' ∧ CountBlocks s' = 24 ∧ num256 (PastDifficultyAverage s') ∧
        Z.abs (nActualTimespan s') <= 24 * 2 ^ 32.
Proof.
  induction fuel as [|fuel IH]; intros i s p e Ep He Hi Hcnt Hh Havg Hspan Hlast Hf; [lia|].
  cbn [past_loop]. rewrite Ep, He. cbn [mbind option_bind]. rewrite !Z.gtb_ltb.
  pose proof (ok_time _ Hst _ _ He) as Ht. unfold word in Ht. destruct (ok_work _ Hst _ _ He) as [Hb _].
  destruct (Z.ltb_spec 0 (nHeight e)) as [Hpos|Hz]; [|exists s; split; [done|]; split; [lia | split; [done | lia]]].
  unfold PastBlocks. destruct (Z.ltb_spec 24 i) as [Hbreak|Hgo]; [exists s; split; [done|]; split; [lia | split; [done | lia]]|].
  destruct (Z.leb_spec (CountBlocks s + 1) 24); [|lia].
  destruct (average_spec s (CountBlocks s + 1) (nBits e) Havg ltac:(lia) Hb) as (a & -> & Ha). cbn [mbind option_bind].
  assert (Hnew : ∃ t, (if 0 <? LastBlockTime s then diff ← sub64 (LastBlockTime s) (nTime e); add64 (nActualTimespan s) diff
                       else Some (nActualTimespan s)) = Some t ∧ Z.abs t <= (CountBlocks s + 1) * 2 ^ 32).
  { destruct (0 <? LastBlockTime s); [|by eexists; split; [done | lia]].
    unfold sub64, add64. rewrite i64_Some by lia. cbn [mbind option_bind]. rewrite i64_Some by lia.
    eexists. split; [done | lia]. }
  destruct Hnew as (t & -> & Habs). cbn [mbind option_bind].
  destruct (previous p e He ltac:(lia)) as (q & eq & -> & Hq & _ & Hhq).
  apply (IH (i + 1) _ q eq); cbn; try done; lia.
Qed.

Lemma GetNextWorkRequiredPOW_spec p e :
  hp !! p = Some e → ∃ c, GetNextWorkRequiredPOW params hp (Some p) = Some c ∧ within (powLimit params) c.
Proof.
  intros He. unfold GetNextWorkRequiredPOW. rewrite He. cbn [mbind option_bind].
  destruct ((nHeight e =? 0) || (nHeight e <? PastBlocks)) eqn:Ec.
  { apply GetCompact_within; [apply (pok_pow _ Hparams) | lia]. }
  apply orb_false_iff in Ec as [_ Ec]. apply Z.ltb_ge in Ec. unfold PastBlocks in Ec.
  destruct (past_loop_spec 26 1 (mkPast (Some p) 0 (Arith.zero Arith.WIDTH) 0 0) p e) as (s & Es & Hc & Ha & Hs);
    cbn [BlockReading CountBlocks PastDifficultyAverage nActualTimespan LastBlockTime]; try done; try lia.
  { split; [apply Arith.limbs_zero | apply Arith.length_zero]. }
  rewrite Es. cbn [mbind option_bind]. rewrite Hc. pose proof (pok_spacing _ Hparams).
  rewrite mul64_Some by lia. cbn [mbind option_bind].
  destruct (scale_spec (PastDifficultyAverage s) (clamp_timespan (nActualTimespan s) (24 * nTargetSpacing params))
    (24 * nTargetSpacing params) Ha ltac:(lia)) as (r & -> & Hr & _). cbn [mbind option_bind].
  apply limited_within; [apply (pok_pow _ Hparams) | done].
Qed.

(** ** The second proof-of-stake rule *)

Lemma damp_spec window spent t :
  0 < window <= MONTH_IN_SECONDS → window <= 4 * spent → 0 <= t < 2 ^ 40 →
  ∃ r, damp window spent t = Some r ∧ 0 <= r <= 4 * t.
Proof.
  intros Hw Hs Ht. unfold MONTH_IN_SECONDS, DAY_IN_SECONDS in Hw. unfold damp.
  rewrite mul64_Some by nia. cbn [mbind option_bind]. rewrite div64_Some by nia.
  eexists. split; [done|]. split; [apply Z.div_pos; nia | apply Z.div_le_upper_bound; nia].
Qed.

Lemma window_spacing_spec window spent :
  0 < window <= MONTH_IN_SECONDS → window <= 4 * spent →
  ∃ r, window_spacing params window spent = Some r ∧ 0 <= r < 2 ^ 40.
Proof.
  intros Hw Hs. pose proof (pok_spacing _ Hparams) as Hp. pose proof Hw as Hw'.
  unfold MONTH_IN_SECONDS, DAY_IN_SECONDS in Hw'. unfold window_spacing.
  rewrite mul64_Some by nia. cbn [mbind option_bind]. rewrite mul64_Some by nia. cbn [mbind option_bind].
  rewrite div64_Some by nia. cbn [mbind option_bind]. set (t := _ / spent).
  assert (Ht : 0 <= t <= 4 * 86400000).
  { split; [apply Z.div_pos; nia | apply Z.div_le_upper_bound; nia]. }
  destruct (damp_spec window spent t Hw Hs ltac:(lia)) as (t1 & -> & H1). cbn [mbind option_bind].
  destruct (damp_spec window spent t1 Hw Hs ltac:(lia)) as (t2 & -> & H2). cbn [mbind option_bind].
  destruct (damp_spec window spent t2 Hw Hs ltac:(lia)) as (t3 & -> & H3). exists t3. split; [done | lia].
Qed.

Lemma final_spacing_spec day week biweek month :
  0 <= day < 2 ^ 40 → 0 <= week < 2 ^ 40 → 0 <= biweek < 2 ^ 40 → 0 <= month < 2 ^ 40 →
  ∃ f, final_spacing params day week biweek month = Some f ∧
       900 * nTargetSpacing params <= f <= 1100 * nTargetSpacing params.
Proof.
  intros H1 H2 H3 H4. pose proof (pok_spacing _ Hparams) as Hp. unfold final_spacing, add64.
  rewrite !mul64_Some by lia. cbn [mbind option_bind]. do 3 (rewrite i64_Some by lia; cbn [mbind option_bind]).
  eexists. split; [done|]. rewrite !Z.quot_div_nonneg by lia.
  replace (nTargetSpacing params * 1000 * 110) with (nTargetSpacing params * 1100 * 100) by lia.
  replace (nTargetSpacing params * 1000 * 90) with (nTargetSpacing params * 900 * 100) by lia.
  rewrite !Z.div_mul by lia. lia.
Qed.

(** The last [n] blocks of the active chain took a quarter of their time at least. *)
Definition window_ok (vChain : chain) (e : CBlockIndex) (n window : Z) : Prop :=
  n <= nHeight e →
  ∃ q eq, at_height vChain (nHeight e - n) = Some q ∧ hp !! q = Some eq ∧ window <= 4 * (nTime e - nTime eq).

Record windows_ok (vChain : chain) (e : CBlockIndex) : Prop := {
  wok_day : window_ok vChain e (DAY_IN_SECONDS / nTargetSpacing params) DAY_IN_SECONDS;
  wok_week : window_ok vChain e (WEEK_IN_SECONDS / nTargetSpacing params) WEEK_IN_SECONDS;
  wok_biweek : window_ok vChain e (2 * (WEEK_IN_SECONDS / nTargetSpacing params)) (2 * WEEK_IN_SECONDS);
  wok_month : window_ok vChain e (MONTH_IN_SECONDS / nTargetSpacing params) MONTH_IN_SECONDS
}.

Lemma accumulated_spec vChain p e n window :
  hp !! p = Some e → window_ok vChain e n window → 0 <= window →
  ∃ s, accumulated params hp vChain e n window = Some s ∧ window <= 4 * s.
Proof.
  intros He Hw H0. unfold accumulated. rewrite Z.gtb_ltb. destruct (Z.ltb_spec n (nHeight e + 1)).
  - destruct (Hw ltac:(lia)) as (q & eq & -> & Hq & Hle). cbn [deref mbind option_bind]. unfold deref. cbn [mbind option_bind].
    rewrite Hq. cbn [mbind option_bind]. pose proof (ok_time _ Hst _ _ He) as H1. pose proof (ok_time _ Hst _ _ Hq) as H2.
    unfold word in *. unfold sub64. rewrite i64_Some by lia. by eexists.
  - eexists. split; [done | lia].
Qed.

(** The spacing divides a day, and is at most four time slots. *)
Record slots_ok : Prop := {
  slot_day : nTargetSpacing params * (DAY_IN_SECONDS / nTargetSpacing params) = DAY_IN_SECONDS;
  slot_length : 0 < nTimeSlotLength params ∧ nTargetSpacing params <= 4 * nTimeSlotLength params
}.

(** What [CheckBlockTime] demands of blocks under the second time protocol, above height
    [h] up to [p]: they are later than the block before ([MinPastBlockTime]), in whole
    time slots ([IsValidBlockTimeStamp]). *)
Definition paced_from (h : Z) (p : ptr) : Prop :=
  ∀ q eq r er, anc hp p q → hp !! q = Some eq → pprev eq = Some r → hp !! r = Some er → h < nHeight eq →
    nTime er < nTime eq ∧ nTime er mod nTimeSlotLength params = 0 ∧ nTime eq mod nTimeSlotLength params = 0.

(** The same over the last month of blocks. *)
Definition paced (p : ptr) (e : CBlockIndex) : Prop := paced_from (nHeight e - MONTH_IN_SECONDS / nTargetSpacing params) p.

Lemma paced_time h p e : slots_ok → hp !! p = Some e → paced_from h p → ∀ q eq, anc hp p q → hp !! q = Some eq → h <= nHeight eq →
  nTime eq + (nHeight e - nHeight eq) * nTimeSlotLength params <= nTime e.
Proof using Hst.
  intros [_ [Hs _]] He Hp q eq Ha. revert eq. revert e He Hp. induction Ha as [p|p ep r q Hpe Hpr Ha IH]; intros e He Hp eq Hq Hm.
  { simplify_eq. lia. }
  assert (ep = e) as -> by congruence. destruct (entry_prev _ (ok_linked _ Hst) _ _ _ He Hpr) as (er & Her & Hh).
  destruct (anc_height _ (ok_linked _ Hst) _ _ _ _ Ha Her Hq) as [Hle _].
  destruct (Hp p e r er (anc_refl _ _) He Hpr Her ltac:(lia)) as (Hlt & Hm1 & Hm2).
  assert (Hstep : nTime er + nTimeSlotLength params <= nTime e).
  { apply Z.mod_divide in Hm1 as [a Ea]; [|lia]. apply Z.mod_divide in Hm2 as [b Eb]; [|lia]. rewrite Ea, Eb in Hlt |- *. assert (a < b) by nia. nia. }
  specialize (IH er Her). replace (nHeight e - nHeight eq) with (nHeight er - nHeight eq + 1) by lia. rewrite Z.mul_add_distr_r, Z.mul_1_l.
  enough (nTime eq + (nHeight er - nHeight eq) * nTimeSlotLength params <= nTime er) by lia.
  apply IH; [|done|lia]. intros x ex y ey Hx Hxe Hxy Hye Hxm. apply (Hp x ex y ey); try done. by eapply anc_prev.
Qed.

(** A window inside the last month, on the active chain, took a quarter of its time. *)
Lemma paced_window vChain tip p e n :
  slots_ok → branch_of hp (Some tip) vChain → anc hp tip p → hp !! p = Some e → paced p e →
  0 <= n <= MONTH_IN_SECONDS / nTargetSpacing params → window_ok vChain e n (n * nTargetSpacing params).
Proof using Hst.
  intros Hs Hb Ha He Hp Hn Hle. destruct Hb as (et & Het & Hlen & Hi). destruct (anc_height _ (ok_linked _ Hst) _ _ _ _ Ha Het He) as [Hte _].
  destruct (Hi (Z.to_nat (nHeight e - n)) ltac:(lia)) as (q & Hl & Hq & eq & Heq & Hhq). rewrite Z2Nat.id in Hhq by lia.
  exists q, eq. split; [apply at_height_Some; split; [lia|done]|]. split; [done|].
  assert (Hpq : anc hp p q). { apply (anc_linear _ (ok_linked _ Hst) tip p q et eq e Het He Heq Ha Hq). lia. }
  pose proof (paced_time _ p e Hs He Hp q eq Hpq Heq ltac:(lia)) as Ht. destruct Hs as [_ [Hs1 Hs2]]. rewrite Hhq in Ht. nia.
Qed.

Lemma paced_windows vChain tip p e :
  params_ok params → slots_ok → branch_of hp (Some tip) vChain → anc hp tip p → hp !! p = Some e → paced p e → windows_ok vChain e.
Proof using Hst.
  intros Hpar Hs Hb Ha He Hp. pose proof (paced_window vChain tip p e) as Hw. pose proof (slot_day Hs) as Hd. pose proof (pok_spacing _ Hpar) as Hsp.
  assert (Hk : ∀ k, 0 <= k → (k * DAY_IN_SECONDS) / nTargetSpacing params = k * (DAY_IN_SECONDS / nTargetSpacing params)).
  { intros k Hk. rewrite <- Hd at 1. replace (k * (nTargetSpacing params * (DAY_IN_SECONDS / nTargetSpacing params)))
      with (k * (DAY_IN_SECONDS / nTargetSpacing params) * nTargetSpacing params) by lia. apply Z.div_mul. lia. }
  assert (Hn : 0 <= DAY_IN_SECONDS / nTargetSpacing params) by (apply Z.div_pos; [done|lia]).
  assert (EW : WEEK_IN_SECONDS / nTargetSpacing params = 7 * (DAY_IN_SECONDS / nTargetSpacing params)) by (rewrite <- Hk by lia; done).
  assert (EM : MONTH_IN_SECONDS / nTargetSpacing params = 30 * (DAY_IN_SECONDS / nTargetSpacing params)) by (rewrite <- Hk by lia; done).
  assert (WEEK_IN_SECONDS = 7 * DAY_IN_SECONDS) by done. assert (MONTH_IN_SECONDS = 30 * DAY_IN_SECONDS) by done.
  rewrite EM in Hw. set (d := DAY_IN_SECONDS / nTargetSpacing params) in *.
  split; rewrite ?EW, ?EM; fold d;
    [pose proof (Hw d) as H1|pose proof (Hw (7 * d)) as H1|pose proof (Hw (2 * (7 * d))) as H1|pose proof (Hw (30 * d)) as H1];
    (intros Hle; destruct (H1 Hs Hb Ha He Hp ltac:(lia) Hle) as (q & eq & E1 & E2 & E3); exists q, eq; split; [done|]; split; [done|lia]).
Qed.

Lemma GetNextWorkRequiredPOSV2_spec vChain p e :
  hp !! p = Some e → windows_ok vChain e →
  ∃ c v2, GetNextWorkRequiredPOSV2 params hp vChain p = Some c ∧ IsTimeProtocolV2 params (nHeight e + 1) = Some v2 ∧
          within (ProofOfStakeLimit params v2) c.
Proof.
  intros He [W1 W2 W3 W4]. pose proof (entry_height _ (ok_linked _ Hst) _ _ He) as Hh.
  pose proof (ok_time _ Hst _ _ He) as Ht. unfold word in Ht. destruct (ok_work _ Hst _ _ He) as [Hb _].
  pose proof (pok_spacing _ Hparams) as Hp. unfold GetNextWorkRequiredPOSV2. rewrite He. cbn [mbind option_bind].
  destruct (upgrade_Some params (nHeight e + 1) UPGRADE_TIME_PROTOCOL_V2 ltac:(lia)) as [v2 Ev].
  unfold IsTimeProtocolV2. rewrite Ev. cbn [mbind option_bind].
  rewrite !div64_Some by (unfold MONTH_IN_SECONDS, WEEK_IN_SECONDS, DAY_IN_SECONDS; lia). cbn [mbind option_bind].
  assert (Hsp : ∃ s, (if nHeight e + 1 >? 1 then prev ← deref hp (pprev e); sub64 (nTime e) (nTime prev)
                      else Some (nTargetSpacing params)) = Some s ∧ - 2 ^ 32 < s < 2 ^ 32).
  { rewrite Z.gtb_ltb. destruct (Z.ltb_spec 1 (nHeight e + 1)); [|eexists; split; [done | lia]].
    destruct (previous p e He ltac:(lia)) as (q & eq & Eq & Hq & Htq & _). unfold word in Htq.
    rewrite Eq. cbn [deref mbind option_bind]. unfold deref. cbn [mbind option_bind]. rewrite Hq. cbn [mbind option_bind].
    unfold sub64. rewrite i64_Some by lia. eexists. split; [done | lia]. }
  destruct Hsp as (s & -> & Hs). cbn [mbind option_bind].
  destruct (accumulated_spec vChain p e _ _ He W1) as (a1 & -> & A1); [done|]. cbn [mbind option_bind].
  destruct (accumulated_spec vChain p e _ _ He W2) as (a2 & -> & A2); [done|]. cbn [mbind option_bind].
  destruct (accumulated_spec vChain p e _ _ He W3) as (a3 & -> & A3); [done|]. cbn [mbind option_bind].
  destruct (accumulated_spec vChain p e _ _ He W4) as (a4 & -> & A4); [done|]. cbn [mbind option_bind].
  change (mul64 s 1000) with (i64 (s * 1000)). rewrite i64_Some by lia. cbn [mbind option_bind].
  destruct (window_spacing_spec DAY_IN_SECONDS a1) as (d & -> & D1); [split; done | done|]. cbn [mbind option_bind].
  destruct (window_spacing_spec WEEK_IN_SECONDS a2) as (w & -> & D2); [split; done | done|]. cbn [mbind option_bind].
  destruct (window_spacing_spec (2 * WEEK_IN_SECONDS) a3) as (b & -> & D3); [split; done | done|]. cbn [mbind option_bind].
  destruct (window_spacing_spec MONTH_IN_SECONDS a4) as (m & -> & D4); [split; done | done|]. cbn [mbind option_bind].
  destruct (final_spacing_spec d w b m D1 D2 D3 D4) as (f & -> & Hf). cbn [mbind option_bind].
  rewrite i64_Some by lia. cbn [mbind option_bind]. rewrite mul64_Some by lia. cbn [mbind option_bind].
  destruct (target_of_spec _ Hb) as [Hn _].
  destruct (scale_spec (target_of (nBits e)) (s * 1000 + (60 - 1) * f) (60 * f) Hn ltac:(lia)) as (r & -> & Hr & _).
  cbn [mbind option_bind].
  destruct (limited_within (ProofOfStakeLimit params v2) r (pos_limit_ok _ _ Hparams) Hr) as (c & Ec & Hc).
  exists c, v2. done.
Qed.
End Rules.

(** ** Main results *)

(** The limit of the rule that is in force above a block. *)
Definition limit_above (params : Params) (h : Z) : list Z :=
  match NetworkUpgradeActive h params UPGRADE_POS_V3, NetworkUpgradeActive h params UPGRADE_POS,
        IsTimeProtocolV2 params h with
  | Some false, Some false, _ => powLimit params
  | _, _, v2 => ProofOfStakeLimit params (default false v2)
  end.

(** The conditions of the rule of [UPGRADE_POS_V3]: the block is on the active chain, and
    the blocks of the last month keep the second time protocol. *)
Definition on_schedule (st : index) (params : Params) (vChain : chain) (p : ptr) (e : CBlockIndex) : Prop :=
  slots_ok params ∧ paced st params p e ∧ ∃ tip, branch_of (objects st) (Some tip) vChain ∧ anc (objects st) tip p.

(** C31: On every block of an index the rules compute a compact target, with no null
    pointer, overflow, division by zero or failed assertion, and it is nonnegative
    and at most the limit of the rule that is in force.  Where that is the rule of
    [UPGRADE_POS_V3], the block must be [on_schedule]: on the active chain, from which the
    rule takes the first blocks of its windows, with the blocks of the last month later
    than the one before and in whole time slots (as [CheckBlockTime] demands under the
    second time protocol), of at least a quarter of the spacing. *)
Theorem GetNextWorkRequired_bounded st params vChain p e :
  index_ok st → params_ok params → objects st !! p = Some e →
  (NetworkUpgradeActive (nHeight e + 1) params UPGRADE_POS_V3 = Some true → on_schedule st params vChain p e) →
  ∃ c, GetNextWorkRequired false params (objects st) vChain p = Some c ∧ within (limit_above params (nHeight e + 1)) c.
Proof.
  intros Hst Hp He Hw. pose proof (entry_height _ (ok_linked _ Hst) _ _ He) as Hh.
  unfold GetNextWorkRequired, limit_above. rewrite He. cbn [mbind option_bind].
  destruct (upgrade_Some params (nHeight e + 1) UPGRADE_POS_V3 ltac:(lia)) as [v3 E3].
  destruct (upgrade_Some params (nHeight e + 1) UPGRADE_POS ltac:(lia)) as [pos Ep].
  rewrite E3, Ep. cbn [mbind option_bind]. destruct v3.
  - destruct (Hw E3) as (Hs & Hpace & tip & Hb & Ha).
    destruct (GetNextWorkRequiredPOSV2_spec st params Hst Hp vChain p e He (paced_windows st params Hst vChain tip p e Hp Hs Hb Ha He Hpace)) as (c & v2 & Ec & -> & Hc).
    exists c. split; [done|]. destruct pos; exact Hc.
  - destruct pos.
    + destruct (GetNextWorkRequiredPOS_spec st params Hst Hp p e He) as (c & v2 & Ec & -> & Hc). by exists c.
    + destruct (GetNextWorkRequiredPOW_spec st params Hst Hp p e He) as (c & Ec & Hc). exists c. split; [done|].
      destruct (IsTimeProtocolV2 params (nHeight e + 1)); exact Hc.
Qed.

(** Outside these conditions the rule fails: where the active chain has no block a day of
    blocks before [p] (which need not be on it), or that block has the time of [p], the
    code reads a null pointer or divides by zero. *)
Lemma GetNextWorkRequired_fails st params vChain p e :
  params_ok params → objects st !! p = Some e → NetworkUpgradeActive (nHeight e + 1) params UPGRADE_POS_V3 = Some true →
  DAY_IN_SECONDS / nTargetSpacing params <= nHeight e →
  (at_height vChain (nHeight e - DAY_IN_SECONDS / nTargetSpacing params) = None ∨
   ∃ q eq, at_height vChain (nHeight e - DAY_IN_SECONDS / nTargetSpacing params) = Some q ∧ objects st !! q = Some eq ∧ nTime eq = nTime e) →
  GetNextWorkRequired false params (objects st) vChain p = None.
Proof.
  intros Hp He E3 Hd Hw. pose proof (pok_spacing _ Hp) as Hs. unfold GetNextWorkRequired. rewrite He. cbn [mbind option_bind]. rewrite E3. cbn [mbind option_bind].
  assert (Hacc : accumulated params (objects st) vChain e (DAY_IN_SECONDS / nTargetSpacing params) DAY_IN_SECONDS = None ∨
    accumulated params (objects st) vChain e (DAY_IN_SECONDS / nTargetSpacing params) DAY_IN_SECONDS = Some 0).
  { unfold accumulated. rewrite Z.gtb_ltb. destruct (Z.ltb_spec (DAY_IN_SECONDS / nTargetSpacing params) (nHeight e + 1)); [|lia].
    unfold deref. destruct Hw as [->|(q & eq & -> & Hq & Et)]; [by left|right]. cbn [mbind option_bind]. rewrite Hq. cbn [mbind option_bind].
    rewrite Et. unfold sub64. by rewrite Z.sub_diag. }
  unfold GetNextWorkRequiredPOSV2. rewrite He. cbn [mbind option_bind]. destruct (IsTimeProtocolV2 _ _); [|done]. cbn [mbind option_bind].
  rewrite !div64_Some by (unfold MONTH_IN_SECONDS, WEEK_IN_SECONDS, DAY_IN_SECONDS; lia). cbn [mbind option_bind].
  destruct (if _ >? _ then _ else _); [|done]. cbn [mbind option_bind]. destruct Hacc as [->| ->]; [done|]. cbn [mbind option_bind].
  assert (Hz : window_spacing params DAY_IN_SECONDS 0 = None) by (unfold window_spacing; by do 2 (apply bind_none; intros ?)).
  do 4 (apply bind_none; intros ?). by rewrite Hz.
Qed.

Lemma num256_limit n : 0 <= n → num256 (limit n).
Proof.
  intros Hn. unfold limit. destruct (Arith.op_not_spec (Arith.zero Arith.WIDTH) (Arith.limbs_zero _)) as (N1 & N2 & _).
  destruct (Arith.op_shr_spec _ n N1 Hn) as (S1 & S2 & _). split; [done|]. rewrite S2, N2. apply Arith.length_zero.
Qed.

Lemma main_params_ok : params_ok main_params.
Proof.
  split; [exact (num256_limit 20 ltac:(lia)) | exact (num256_limit 24 ltac:(lia)) | exact (num256_limit 20 ltac:(lia)) | | |];
    vm_compute; split; congruence.
Qed.

(** The main network's parameters with every upgrade active from the first block. *)
Definition early_params : Params := mkParams (limit 20) (limit 24) (limit 20) 7200 180 100 (9999999999 * COIN) 1800 100 600
  2400 1800 60 15 (repeat ALWAYS_ACTIVE 12).

(** A network with one block per day, in slots of six hours, and two blocks of it. *)
Definition daily_params : Params := mkParams (limit 20) (limit 24) (limit 20) 7200 180 100 (9999999999 * COIN) 1800 100 600
  172800 172800 86400 21600 (repeat ALWAYS_ACTIVE 12).
Definition daily_header (h prev : Z) : header := mkHeader [h] [prev] (43200 * h) 0x1d0fffff.
Definition day1 : index := Eval vm_compute in
  match AddToBlockIndex empty_index (daily_header 1 0) 1 with Some (st, _) => st | None => empty_index end.
Definition day2 : index := Eval vm_compute in
  match AddToBlockIndex day1 (daily_header 2 1) 2 with Some (st, _) => st | None => empty_index end.
Definition day_chain : chain := [Some 1%positive; Some 2%positive].
Definition day_entry (p : ptr) : CBlockIndex := default (mkIndex [] None None 0 [] 0 0 0) (objects day2 !! p).

Lemma daily_params_ok : params_ok daily_params.
Proof.
  split; [exact (num256_limit 20 ltac:(lia)) | exact (num256_limit 24 ltac:(lia)) | exact (num256_limit 20 ltac:(lia)) | | |];
    vm_compute; split; congruence.
Qed.

Lemma day2_ok : index_ok day2.
Proof.
  apply reachable_ok.
  apply rtc_l with day1; [apply (add_block _ (daily_header 1 0) 1 _ 1); [Chain.small_admissible | vm_compute; reflexivity]|].
  apply rtc_l with day2; [apply (add_block _ (daily_header 2 1) 2 _ 2); [Chain.small_admissible | vm_compute; reflexivity]|].
  apply rtc_refl.
Qed.

Lemma day_chain_ok : branch_of (objects day2) (Some 2%positive) day_chain.
Proof.
  exists (day_entry 2). split; [vm_compute; reflexivity|]. split; [vm_compute; reflexivity|].
  intros [|[|i]] Hi; cbn in Hi; [| |lia].
  - exists 1%positive. split; [done|]. split; [|exists (day_entry 1); split; vm_compute; reflexivity].
    apply (Chain.anc_prev _ 2 (day_entry 2) 1 1); [vm_compute; reflexivity | vm_compute; reflexivity | apply Chain.anc_refl].
  - exists 2%positive. split; [done|]. split; [apply Chain.anc_refl|]. exists (day_entry 2). split; vm_compute; reflexivity.
Qed.

Lemma day2_on_schedule : on_schedule day2 daily_params day_chain 2 (day_entry 2).
Proof.
  split; [split; [vm_compute; reflexivity | split; vm_compute; congruence]|]. split; [|exists 2%positive; split; [apply day_chain_ok | apply Chain.anc_refl]].
  intros q eq r er Ha Hq Hr Her _. inversion Ha as [|? e2 q2 ? He2 Hq2 Ha']; subst.
  - vm_compute in Hq. injection Hq as <-. vm_compute in Hr. injection Hr as <-. vm_compute in Her. injection Her as <-. split; [|split]; vm_compute; reflexivity.
  - vm_compute in He2. injection He2 as <-. vm_compute in Hq2. injection Hq2 as <-. inversion Ha' as [|? e3 q3 ? He3 Hq3 Ha'']; subst.
    + vm_compute in Hq. injection Hq as <-. vm_compute in Hr. discriminate Hr.
    + vm_compute in He3. injection He3 as <-. vm_compute in Hq3. discriminate Hq3.
Qed.

(** The second block of the daily network, half a day after the first, under the rule of
    [UPGRADE_POS_V3], whose first window is then half its nominal time; and block 5 of the
    small index under the rule of the proof of work with the main network's heights. *)
Lemma GetNextWorkRequired_bounded_witness :
  (∃ c, GetNextWorkRequired false daily_params (objects day2) day_chain 2 = Some c ∧ within (limit 20) c) ∧
  accumulated daily_params (objects day2) day_chain (day_entry 2) 1 DAY_IN_SECONDS = Some 43200 ∧
  (∃ c, GetNextWorkRequired false main_params (objects Chain.index5) Chain.chain5 5 = Some c ∧ within (limit 20) c).
Proof.
  split; [|split; [vm_compute; reflexivity|]].
  - exact (GetNextWorkRequired_bounded day2 daily_params day_chain 2 (day_entry 2) day2_ok daily_params_ok ltac:(vm_compute; reflexivity) (λ _, day2_on_schedule)).
  - apply (GetNextWorkRequired_bounded Chain.index5 main_params Chain.chain5 5 (Chain.entry_of 5)
      Chain.index5_ok main_params_ok ltac:(reflexivity)). intros H. vm_compute in H. discriminate H.
Defined.

(** Two blocks at the limit of the proof of stake, sixty seconds apart. *)
Definition limit_header (h prev t : Z) : header := mkHeader [h] [prev] t 0x1e0fffff.
Definition one_block : index := Eval vm_compute in
  match AddToBlockIndex empty_index (limit_header 1 0 1000) 1 with Some (st, _) => st | None => empty_index end.
Definition two_blocks : index := Eval vm_compute in
  match AddToBlockIndex one_block (limit_header 2 1 1060) 2 with Some (st, _) => st | None => empty_index end.

(** In milliseconds the factor of the rule of [UPGRADE_POS_V3] is 3600000 for a block
    on time, and a target at the limit 2^236 - 1 times this factor exceeds 2^256: the
    product wraps, and a chain at the limit whose blocks are on time gets a target
    about eight times smaller, where the rule before kept it. *)
Theorem POSV2_wraps_at_limit :
  rtc add_step empty_index two_blocks ∧
  GetNextWorkRequiredPOSV2 early_params (objects two_blocks) [Some 1%positive; Some 2%positive] 2 = Some 0x1e0204db ∧
  GetNextWorkRequiredPOS early_params (objects two_blocks) 2 = Some 0x1e0fffff.
Proof.
  split; [|split; vm_compute; reflexivity].
  apply rtc_l with one_block; [apply (add_block _ (limit_header 1 0 1000) 1 _ 1); [Chain.small_admissible | vm_compute; reflexivity]|].
  apply rtc_l with two_blocks; [apply (add_block _ (limit_header 2 1 1060) 2 _ 2); [Chain.small_admissible | vm_compute; reflexivity]|].
  apply rtc_refl.
Qed.

End Retarget.
