(* ===== verification/Serialize.v ===== *)
(** * src/serialize.h, src/streams.h: the wire format

    A stream is the list of its unread bytes; a read past the end throws, which is
    [None] here.  A type that can be written and read is a [format]: its [Serialize],
    its [Unserialize], and the values it can carry.  [Lawful] and [Canonical] are the
    two promises the rest of the program relies on: what is written is read back, and
    (for formats without VARINT) whatever is read is what would have been written, so
    that an object has one encoding only. *)

From stdpp Require Import base option numbers list.
From Stdlib Require Import ZArith Lia.
From S2P Require Import Prelude.
Open Scope Z_scope.

Module Serialize.

Abbreviation stream := (list Z).

(** ** Streams *)

(** [CBaseDataStream::read]. *)
Definition read (nSize : Z) (s : stream) : option (list Z * stream) :=
  if decide (nSize <= Z.of_nat (length s)) then Some (take (Z.to_nat nSize) s, drop (Z.to_nat nSize) s) else None.

(** ** Integers, little endian *)

Definition ser_writedata8 (obj : Z) : list Z := le_bytes 1 obj.
Definition ser_writedata16 (obj : Z) : list Z := le_bytes 2 obj.
Definition ser_writedata32 (obj : Z) : list Z := le_bytes 4 obj.
Definition ser_writedata64 (obj : Z) : list Z := le_bytes 8 obj.

Definition readdata (n : Z) (s : stream) : option (Z * stream) :=
  '(b, s) ← read n s; Some (le_word b, s).
Definition ser_readdata8 : stream → option (Z * stream) := readdata 1.
Definition ser_readdata16 : stream → option (Z * stream) := readdata 2.
Definition ser_readdata32 : stream → option (Z * stream) := readdata 4.
Definition ser_readdata64 : stream → option (Z * stream) := readdata 8.

(** An unsigned value of [w] bits read as a signed one. *)
Definition signed (w x : Z) : Z := if x <? 2 ^ (w - 1) then x else x - 2 ^ w.

(** ** Compact sizes *)

Definition MAX_SIZE : Z := 0x02000000.

Definition GetSizeOfCompactSize (nSize : Z) : Z :=
  if nSize <? 253 then 1 else if nSize <=? 0xffff then 3 else if nSize <=? 0xffffffff then 5 else 9.

Definition WriteCompactSize (nSize : Z) : list Z :=
  if nSize <? 253 then ser_writedata8 nSize
  else if nSize <=? 0xffff then ser_writedata8 253 ++ ser_writedata16 nSize
  else if nSize <=? 0xffffffff then ser_writedata8 254 ++ ser_writedata32 nSize
  else ser_writedata8 255 ++ ser_writedata64 nSize.

Definition ReadCompactSize (s : stream) : option (Z * stream) :=
  '(chSize, s) ← ser_readdata8 s;
  '(nSizeRet, s) ←
    (if chSize <? 253 then Some (chSize, s)
     else if chSize =? 253 then
       '(n, s) ← ser_readdata16 s; if n <? 253 then None else Some (n, s)
     else if chSize =? 254 then
       '(n, s) ← ser_readdata32 s; if n <? 0x10000 then None else Some (n, s)
     else
       '(n, s) ← ser_readdata64 s; if n <? 0x100000000 then None else Some (n, s));
  if nSizeRet >? MAX_SIZE then None else Some (nSizeRet, s).

(** ** Variable-length integers *)

(** The digits [tmp[len], tmp[len+1], ...] of [n]; [room] is what is left of the array
    [tmp], and [None] would be a write past its end. *)
Fixpoint varint_digits (room : nat) (len : Z) (n : Z) : option (list Z) :=
  match room with
  | O => None
  | S room =>
      let d := (n .& 0x7F) .| (if len =? 0 then 0x00 else 0x80) in
      if n <=? 0x7F then Some [d]
      else tmp ← varint_digits room (len + 1) ((n >> 7) - 1); Some (d :: tmp)
  end.

(** [WriteVarInt<Stream, I>] for an unsigned [I] of [w] bits. *)
Definition WriteVarInt (w n : Z) : option (list Z) :=
  tmp ← varint_digits (Z.to_nat ((w + 6) / 7)) 0 n; Some (reverse tmp).

(** The loop of [ReadVarInt], with the value so far. *)
Fixpoint read_varint (w n : Z) (s : stream) : option (Z * stream) :=
  match s with
  | [] => None
  | chData :: s =>
      let n := ((n << 7) .| (chData .& 0x7F)) mod 2 ^ w in
      if chData .& 0x80 =? 0 then Some (n, s) else read_varint w ((n + 1) mod 2 ^ w) s
  end.

Definition ReadVarInt (w : Z) (s : stream) : option (Z * stream) := read_varint w 0 s.

(** [GetSizeOfVarInt]; the fuel is the greatest number of digits. *)
Fixpoint size_of_varint (fuel : nat) (n : Z) : Z :=
  match fuel with
  | O => 0
  | S fuel => if n <=? 0x7F then 1 else 1 + size_of_varint fuel ((n >> 7) - 1)
  end.
Definition GetSizeOfVarInt (w n : Z) : Z := size_of_varint (Z.to_nat ((w + 6) / 7)) n.

(** ** Formats *)

Record format (A : Type) : Type := Format {
  Serialize : A → list Z;
  Unserialize : stream → option (A * stream);
  valid : A → Prop
}.
Arguments Format {A} _ _ _.
Arguments Serialize {A} _ _.
Arguments Unserialize {A} _ _.
Arguments valid {A} _ _.

(** What is written is read back. *)
Class Lawful {A} (f : format A) : Prop := {
  ser_bytes x : valid f x → Forall byte (Serialize f x);
  roundtrip x s : valid f x → Unserialize f (Serialize f x ++ s) = Some (x, s)
}.

(** What is read is the one encoding of a value. *)
Class Canonical {A} (f : format A) : Prop :=
  canonical s x t : Forall byte s → Unserialize f s = Some (x, t) → valid f x ∧ s = Serialize f x ++ t.

(** [GetSerializeSize]: a [CSizeComputer] counts the bytes. *)
Definition GetSerializeSize {A} (f : format A) (x : A) : Z := Z.of_nat (length (Serialize f x)).

Definition u8 : format Z := Format ser_writedata8 ser_readdata8 (word 8).
Definition u16 : format Z := Format ser_writedata16 ser_readdata16 (word 16).
Definition u32 : format Z := Format ser_writedata32 ser_readdata32 (word 32).
Definition u64 : format Z := Format ser_writedata64 ser_readdata64 (word 64).

(** Signed integers are converted to unsigned ones of the same width and back. *)
Definition i32 : format Z :=
  Format ser_writedata32 (λ s, '(x, s) ← ser_readdata32 s; Some (signed 32 x, s)) (λ x, - 2 ^ 31 <= x < 2 ^ 31).
Definition i64 : format Z :=
  Format ser_writedata64 (λ s, '(x, s) ← ser_readdata64 s; Some (signed 64 x, s)) (λ x, - 2 ^ 63 <= x < 2 ^ 63).

Definition compact_size : format Z := Format WriteCompactSize ReadCompactSize (λ n, 0 <= n <= MAX_SIZE).

(** [VARINT(n)] for an unsigned type of [w] bits. *)
Definition varint (w : Z) : format Z := Format (λ n, default [] (WriteVarInt w n)) (ReadVarInt w) (word w).

(** [CFlatData] and the blobs of fixed size. *)
Definition flat (n : Z) : format (list Z) :=
  Format id (read n) (λ b, Forall byte b ∧ Z.of_nat (length b) = n).

(** [READWRITE(a); READWRITE(b)]. *)
Definition pair_format {A B} (f : format A) (g : format B) : format (A * B) :=
  Format (λ p, Serialize f p.1 ++ Serialize g p.2)
         (λ s, '(a, s) ← Unserialize f s; '(b, s) ← Unserialize g s; Some ((a, b), s))
         (λ p, valid f p.1 ∧ valid g p.2).

(** The members of an object, in the order of its [SerializationOp]. *)
Definition object {A B} (to : A → B) (from : B → A) (f : format B) : format A :=
  Format (λ a, Serialize f (to a))
         (λ s, '(b, s) ← Unserialize f s; Some (from b, s))
         (λ a, valid f (to a) ∧ from (to a) = a).

(** *** Vectors *)

(** Vectors of bytes are read in blocks; [fuel] bounds the number of blocks. *)
Fixpoint read_blocks (fuel : nat) (i nSize : Z) (v : list Z) (s : stream) : option (list Z * stream) :=
  match fuel with
  | O => None
  | S fuel =>
      if i <? nSize then
        let blk := Z.min (nSize - i) (1 + 4999999) in
        '(b, s) ← read blk s;
        read_blocks fuel (i + blk) nSize (v ++ b) s
      else Some (v, s)
  end.

Definition Unserialize_bytes (s : stream) : option (list Z * stream) :=
  '(nSize, s) ← ReadCompactSize s;
  read_blocks (Z.to_nat (nSize / 5000000 + 2)) 0 nSize [] s.

Definition Serialize_bytes (v : list Z) : list Z := WriteCompactSize (Z.of_nat (length v)) ++ v.

(** Vectors of unsigned char, strings and scripts. *)
Definition bytes : format (list Z) :=
  Format Serialize_bytes Unserialize_bytes (λ v, Forall byte v ∧ Z.of_nat (length v) <= MAX_SIZE).

Section Vector.
Context {A : Type} (f : format A).

(** [for (; i < nMid; i++) Unserialize(s, v[i])]. *)
Fixpoint read_items (count : nat) (v : list A) (s : stream) : option (list A * stream) :=
  match count with
  | O => Some (v, s)
  | S count => '(x, s) ← Unserialize f s; read_items count (v ++ [x]) s
  end.

(** The objects of a vector are read in blocks of [5000000 / sizeof(T)]. *)
Fixpoint read_vector (fuel : nat) (sizeof nMid nSize : Z) (v : list A) (s : stream) : option (list A * stream) :=
  match fuel with
  | O => None
  | S fuel =>
      if nMid <? nSize then
        let nMid' := Z.min (nMid + 5000000 / sizeof) nSize in
        '(v, s) ← read_items (Z.to_nat (nMid' - nMid)) v s;
        read_vector fuel sizeof nMid' nSize v s
      else Some (v, s)
  end.

Definition Unserialize_vector (sizeof : Z) (s : stream) : option (list A * stream) :=
  '(nSize, s) ← ReadCompactSize s;
  read_vector (Z.to_nat (nSize / (5000000 / sizeof) + 2)) sizeof 0 nSize [] s.

Definition Serialize_vector (v : list A) : list Z :=
  WriteCompactSize (Z.of_nat (length v)) ++ flat_map (Serialize f) v.

Definition vector (sizeof : Z) : format (list A) :=
  Format Serialize_vector (Unserialize_vector sizeof) (λ v, Forall (valid f) v ∧ Z.of_nat (length v) <= MAX_SIZE).
End Vector.

(** An optional value follows a byte; every byte but 0 announces it. *)
Definition optional {A} (f : format A) : format (option A) :=
  Format (λ x, match x with Some x => Serialize u8 1 ++ Serialize f x | None => Serialize u8 0 end)
         (λ s, '(d, s) ← Unserialize u8 s;
               if d =? 0 then Some (None, s) else '(x, s) ← Unserialize f s; Some (Some x, s))
         (λ x, match x with Some x => valid f x | None => True end).

(** ** Reading *)

Lemma read_app n b s : Z.of_nat (length b) = n → read n (b ++ s) = Some (b, s).
Proof.
  intros Hn. unfold read. rewrite decide_True by (rewrite length_app; lia).
  rewrite take_app_length', drop_app_length' by lia. done.
Qed.

Lemma read_Some n s b t : 0 <= n → read n s = Some (b, t) → s = b ++ t ∧ Z.of_nat (length b) = n.
Proof.
  intros Hn. unfold read. case_decide; [|done]. intros [= <- <-].
  rewrite take_drop, length_take. split; [done | lia].
Qed.

Lemma readdata_le k x s : readdata (Z.of_nat k) (le_bytes k x ++ s) = Some (x mod 2 ^ (8 * Z.of_nat k), s).
Proof. unfold readdata. rewrite read_app by (by rewrite length_le_bytes). cbn. by rewrite le_word_le_bytes. Qed.

Lemma readdata_Some k s x t :
  Forall byte s → readdata (Z.of_nat k) s = Some (x, t) → word (8 * Z.of_nat k) x ∧ s = le_bytes k x ++ t.
Proof.
  intros Hs. unfold readdata. destruct (read _ s) as [[b u]|] eqn:E; [|done]. cbn. intros [= <- <-].
  apply read_Some in E as [-> Hl]; [|lia]. apply Forall_app in Hs as [Hb _].
  split; [rewrite <- Hl; by apply le_word_bound|]. replace k with (length b) by lia. by rewrite le_bytes_le_word.
Qed.

(** One rule for the integers of every width. *)
Lemma uint_lawful k f :
  f = Format (le_bytes k) (readdata (Z.of_nat k)) (word (8 * Z.of_nat k)) → Lawful f ∧ Canonical f.
Proof.
  intros ->. split; [split; cbn|].
  - intros x _. apply le_bytes_byte.
  - intros x s Hx. rewrite readdata_le, Z.mod_small by exact Hx. done.
  - intros s x t Hs. apply readdata_Some, Hs.
Qed.

Lemma signed_mod w x : 0 < w → - 2 ^ (w - 1) <= x < 2 ^ (w - 1) → signed w (x mod 2 ^ w) = x.
Proof.
  intros Hw Hx. unfold signed. assert (E : 2 ^ w = 2 * 2 ^ (w - 1)) by (rewrite <- Z.pow_succ_r by lia; f_equal; lia).
  destruct (Z.lt_ge_cases x 0) as [Hn|Hp].
  - replace (x mod 2 ^ w) with (x + 2 ^ w) by (apply Z.mod_unique with (-1); [left; lia | lia]).
    destruct (Z.ltb_spec (x + 2 ^ w) (2 ^ (w - 1))); lia.
  - rewrite Z.mod_small by lia. destruct (Z.ltb_spec x (2 ^ (w - 1))); lia.
Qed.

Lemma signed_range w x : 0 < w → word w x → - 2 ^ (w - 1) <= signed w x < 2 ^ (w - 1) ∧ signed w x mod 2 ^ w = x.
Proof.
  unfold word, signed. intros Hw Hx.
  assert (E : 2 ^ w = 2 * 2 ^ (w - 1)) by (rewrite <- Z.pow_succ_r by lia; f_equal; lia).
  destruct (Z.ltb_spec x (2 ^ (w - 1))); (split; [lia|]).
  - by apply Z.mod_small.
  - symmetry. apply Z.mod_unique with (-1); [left; lia | lia].
Qed.

Lemma sint_lawful k f :
  (0 < k)%nat →
  f = Format (le_bytes k) (λ s, '(x, s) ← readdata (Z.of_nat k) s; Some (signed (8 * Z.of_nat k) x, s))
        (λ x, - 2 ^ (8 * Z.of_nat k - 1) <= x < 2 ^ (8 * Z.of_nat k - 1)) →
  Lawful f ∧ Canonical f.
Proof.
  intros Hk ->. split; [split; cbn|].
  - intros x _. apply le_bytes_byte.
  - intros x s Hx. rewrite readdata_le. cbn. by rewrite signed_mod by lia.
  - intros s x t Hs. cbn. destruct (readdata _ s) as [[u t']|] eqn:E; [|done]. cbn. intros [= <- <-].
    apply readdata_Some in E as [Hu ->]; [|done].
    destruct (signed_range (8 * Z.of_nat k) u ltac:(lia) Hu) as [Hr Hm]. split; [exact Hr|].
    by rewrite <- (le_bytes_mod k (signed _ u)), Hm.
Qed.

#[export] Instance u8_lawful : Lawful u8 := proj1 (uint_lawful 1 _ eq_refl).
#[export] Instance u16_lawful : Lawful u16 := proj1 (uint_lawful 2 _ eq_refl).
#[export] Instance u32_lawful : Lawful u32 := proj1 (uint_lawful 4 _ eq_refl).
#[export] Instance u64_lawful : Lawful u64 := proj1 (uint_lawful 8 _ eq_refl).
#[export] Instance u8_canonical : Canonical u8 := proj2 (uint_lawful 1 _ eq_refl).
#[export] Instance u16_canonical : Canonical u16 := proj2 (uint_lawful 2 _ eq_refl).
#[export] Instance u32_canonical : Canonical u32 := proj2 (uint_lawful 4 _ eq_refl).
#[export] Instance u64_canonical : Canonical u64 := proj2 (uint_lawful 8 _ eq_refl).
#[export] Instance i32_lawful : Lawful i32 := proj1 (sint_lawful 4 _ ltac:(lia) eq_refl).
#[export] Instance i64_lawful : Lawful i64 := proj1 (sint_lawful 8 _ ltac:(lia) eq_refl).
#[export] Instance i32_canonical : Canonical i32 := proj2 (sint_lawful 4 _ ltac:(lia) eq_refl).
#[export] Instance i64_canonical : Canonical i64 := proj2 (sint_lawful 8 _ ltac:(lia) eq_refl).

#[export] Instance flat_lawful n : Lawful (flat n).
Proof. split; cbn; [by intros x [? _]|]. intros x s [_ Hl]. by apply read_app. Qed.

Lemma flat_canonical n : 0 <= n → Canonical (flat n).
Proof.
  intros Hn s x t Hs E. cbn in *. apply read_Some in E as [-> Hl]; [|done].
  apply Forall_app in Hs as [Hx _]. done.
Qed.
#[export] Hint Extern 1 (Canonical (flat _)) => (apply flat_canonical; lia) : typeclass_instances.

#[export] Instance pair_lawful {A B} (f : format A) (g : format B) : Lawful f → Lawful g → Lawful (pair_format f g).
Proof.
  intros Hf Hg. split; cbn.
  - intros [a b] [Ha Hb]. cbn. apply Forall_app. split; by apply ser_bytes.
  - intros [a b] s [Ha Hb]. cbn in *. rewrite <- (assoc_L app), roundtrip by done. cbn. by rewrite roundtrip.
Qed.

#[export] Instance pair_canonical {A B} (f : format A) (g : format B) : Canonical f → Canonical g → Canonical (pair_format f g).
Proof.
  intros Hf Hg s [a b] t Hs. cbn. destruct (Unserialize f s) as [[a' s1]|] eqn:Ea; [|done]. cbn.
  destruct (Unserialize g s1) as [[b' s2]|] eqn:Eb; [|done]. cbn. intros [= -> -> ->].
  apply canonical in Ea as [Ha ->]; [|done]. apply Forall_app in Hs as [_ Hs].
  apply canonical in Eb as [Hb ->]; [|done]. split; [done|]. by rewrite (assoc_L app).
Qed.

#[export] Instance object_lawful {A B} (to : A → B) from (f : format B) : Lawful f → Lawful (object to from f).
Proof.
  intros Hf. split; cbn.
  - intros a [Ha _]. by apply ser_bytes.
  - intros a s [Ha Hto]. rewrite roundtrip by done. cbn. by rewrite Hto.
Qed.

Lemma object_canonical {A B} (to : A → B) from (f : format B) :
  (∀ b, to (from b) = b) → Canonical f → Canonical (object to from f).
Proof.
  intros Hto Hf s a t Hs. cbn. destruct (Unserialize f s) as [[b u]|] eqn:E; [|done]. cbn. intros [= <- <-].
  apply canonical in E as [Hb ->]; [|done]. by rewrite !Hto.
Qed.

(** ** Compact sizes *)

Lemma readdata8_write x s : word 8 x → ser_readdata8 (ser_writedata8 x ++ s) = Some (x, s).
Proof. apply (roundtrip (f := u8)). Qed.
Lemma readdata16_write x s : word 16 x → ser_readdata16 (ser_writedata16 x ++ s) = Some (x, s).
Proof. apply (roundtrip (f := u16)). Qed.
Lemma readdata32_write x s : word 32 x → ser_readdata32 (ser_writedata32 x ++ s) = Some (x, s).
Proof. apply (roundtrip (f := u32)). Qed.

(** The four cases of the writer, as the reader sees them. *)
Lemma WriteCompactSize_read n s : 0 <= n <= MAX_SIZE → ReadCompactSize (WriteCompactSize n ++ s) = Some (n, s).
Proof.
  intros Hn. assert (Hmax : (n >? MAX_SIZE) = false) by (rewrite Z.gtb_ltb; apply Z.ltb_ge; lia).
  unfold MAX_SIZE in Hn. unfold WriteCompactSize, ReadCompactSize.
  destruct (Z.ltb_spec n 253) as [H1|H1]; [|destruct (Z.leb_spec n 0xffff) as [H2|H2]; [|destruct (Z.leb_spec n 0xffffffff); [|lia]]];
    rewrite <- ?(assoc_L app).
  - rewrite readdata8_write by (split; cbn; lia). cbn [mbind option_bind].
    rewrite (proj2 (Z.ltb_lt n 253) H1). cbn [mbind option_bind]. by rewrite Hmax.
  - rewrite readdata8_write by done. cbn [mbind option_bind Z.ltb Z.eqb Z.compare Pos.compare Pos.compare_cont Pos.eqb].
    rewrite readdata16_write by (split; cbn; lia). cbn [mbind option_bind].
    rewrite (proj2 (Z.ltb_ge n 253) H1). cbn [mbind option_bind]. by rewrite Hmax.
  - rewrite readdata8_write by done. cbn [mbind option_bind Z.ltb Z.eqb Z.compare Pos.compare Pos.compare_cont Pos.eqb].
    rewrite readdata32_write by (split; cbn; lia). cbn [mbind option_bind].
    rewrite (proj2 (Z.ltb_ge n 0x10000)) by lia. cbn [mbind option_bind]. by rewrite Hmax.
Qed.

(** A size has no second encoding: the longer ones are refused. *)
#[export] Instance compact_canonical : Canonical compact_size.
Proof.
  intros s n t Hs. cbn [Unserialize compact_size valid Serialize]. unfold ReadCompactSize.
  destruct (ser_readdata8 s) as [[ch s1]|] eqn:E1; [|done]. apply (canonical (f := u8)) in E1 as [Hch ->]; [|done].
  apply Forall_app in Hs as [_ Hs]. cbn [mbind option_bind]. cbn [u8 valid Serialize] in *. unfold word in Hch.
  set (r := if ch <? 253 then _ else _). destruct r as [[n' s2]|] eqn:Er; [|done]. cbn [mbind option_bind]. subst r.
  destruct (Z.gtb_spec n' MAX_SIZE) as [|Hmax]; [done|]. intros [= <- <-]. unfold MAX_SIZE in *. unfold WriteCompactSize.
  destruct (Z.ltb_spec ch 253) as [|H1]; [injection Er as <- <-; destruct (Z.ltb_spec ch 253); [split; [lia | done] | lia]|].
  destruct (Z.eqb_spec ch 253) as [->|H2]; [|destruct (Z.eqb_spec ch 254) as [->|H3]].
  - destruct (ser_readdata16 s1) as [[m s3]|] eqn:E; [|done]. apply (canonical (f := u16)) in E as [Hm ->]; [|done].
    cbn [mbind option_bind] in Er. cbn [u16 valid Serialize] in *. unfold word in Hm.
    destruct (Z.ltb_spec m 253); [done|]. injection Er as <- <-.
    destruct (Z.ltb_spec m 253); [lia|]. destruct (Z.leb_spec m 0xffff); [|lia]. split; [lia | by rewrite (assoc_L app)].
  - destruct (ser_readdata32 s1) as [[m s3]|] eqn:E; [|done]. apply (canonical (f := u32)) in E as [Hm ->]; [|done].
    cbn [mbind option_bind] in Er. cbn [u32 valid Serialize] in *. unfold word in Hm.
    destruct (Z.ltb_spec m 0x10000); [done|]. injection Er as <- <-.
    destruct (Z.ltb_spec m 253); [lia|]. destruct (Z.leb_spec m 0xffff); [lia|]. destruct (Z.leb_spec m 0xffffffff); [|lia].
    split; [lia | by rewrite (assoc_L app)].
  - destruct (ser_readdata64 s1) as [[m s3]|] eqn:E; [|done]. cbn [mbind option_bind] in Er.
    destruct (Z.ltb_spec m 0x100000000); [done|]. injection Er as <- <-. lia.
Qed.

#[export] Instance compact_lawful : Lawful compact_size.
Proof.
  split; cbn.
  - intros n _. unfold WriteCompactSize. repeat case_match; rewrite ?Forall_app; repeat split; apply le_bytes_byte.
  - intros n s Hn. by apply WriteCompactSize_read.
Qed.

(** ** Vectors *)

(** The blocks are what one read of the whole would give. *)
Lemma read_blocks_spec fuel i nSize v s :
  0 <= i <= nSize → nSize - i <= 5000000 * (Z.of_nat fuel - 1) →
  read_blocks fuel i nSize v s = '(b, s) ← read (nSize - i) s; Some (v ++ b, s).
Proof.
  revert i v s. induction fuel as [|fuel IH]; intros i v s Hi Hf; [lia|]. cbn [read_blocks].
  destruct (Z.ltb_spec i nSize) as [Hlt|Hge].
  2: { replace (nSize - i) with 0 by lia. unfold read. rewrite decide_True by lia. change (Z.to_nat 0) with 0%nat. rewrite drop_0, take_0. cbn [mbind option_bind]. by rewrite (right_id_L [] app). }
  set (blk := Z.min (nSize - i) (1 + 4999999)). assert (Hb : 0 < blk <= nSize - i) by (unfold blk; lia).
  unfold read. destruct (decide (nSize - i <= Z.of_nat (length s))) as [Hl|Hl].
  - rewrite decide_True by lia. cbn [mbind option_bind].
    rewrite IH by (unfold blk; lia). unfold read. rewrite decide_True by (rewrite length_drop; lia). cbn [mbind option_bind].
    rewrite drop_drop, <- (assoc_L app), take_take_drop. do 3 f_equal; [f_equal|]; f_equal; lia.
  - destruct (decide (blk <= Z.of_nat (length s))); [|done]. cbn [mbind option_bind].
    rewrite IH by (unfold blk; lia). unfold read. rewrite decide_False; [done|]. rewrite length_drop. lia.
Qed.

Lemma Unserialize_bytes_spec s :
  Forall byte s → Unserialize_bytes s = '(n, s) ← ReadCompactSize s; read n s.
Proof.
  intros Hs. unfold Unserialize_bytes. destruct (ReadCompactSize s) as [[n t]|] eqn:E; [|done]. cbn [mbind option_bind].
  apply (canonical (f := compact_size)) in E as [Hn _]; [|done]. cbn in Hn.
  rewrite read_blocks_spec by (Z.to_euclidean_division_equations; lia). rewrite Z.sub_0_r. by destruct (read n t) as [[b u]|].
Qed.

#[export] Instance bytes_lawful : Lawful bytes.
Proof.
  split; cbn; unfold Serialize_bytes.
  - intros v [Hv Hl]. apply Forall_app. split; [|done]. apply (ser_bytes (f := compact_size)). cbn. lia.
  - intros v s [Hv Hl]. unfold Unserialize_bytes. rewrite <- (assoc_L app), WriteCompactSize_read by lia.
    cbn [mbind option_bind]. rewrite read_blocks_spec by (Z.to_euclidean_division_equations; lia). rewrite Z.sub_0_r, read_app by done. done.
Qed.

#[export] Instance bytes_canonical : Canonical bytes.
Proof.
  intros s v t Hs. cbn. rewrite Unserialize_bytes_spec by done.
  destruct (ReadCompactSize s) as [[n u]|] eqn:E; [|done]. cbn [mbind option_bind].
  apply (canonical (f := compact_size)) in E as [Hn ->]; [|done]. cbn in Hn.
  apply Forall_app in Hs as [_ Hs]. intros [-> <-]%read_Some; [|lia]. apply Forall_app in Hs as [Hv _].
  split; [split; [done | lia]|]. unfold Serialize_bytes. by rewrite <- (assoc_L app).
Qed.

Section VectorLaws.
Context {A : Type} (f : format A).

Lemma read_items_add j k v s :
  read_items f (j + k) v s = '(v, s) ← read_items f j v s; read_items f k v s.
Proof.
  revert v s. induction j as [|j IH]; intros v s; [done|]. cbn [Nat.add read_items].
  destruct (Unserialize f s) as [[x t]|]; [|done]. cbn [mbind option_bind]. apply IH.
Qed.

(** The blocks do not matter here either. *)
Lemma read_vector_spec fuel sizeof nMid nSize v s :
  0 < sizeof <= 5000000 → 0 <= nMid <= nSize → nSize - nMid <= 5000000 / sizeof * (Z.of_nat fuel - 1) →
  read_vector f fuel sizeof nMid nSize v s = read_items f (Z.to_nat (nSize - nMid)) v s.
Proof.
  intros Hs. assert (Hq : 0 < 5000000 / sizeof) by (apply Z.div_str_pos; lia).
  revert nMid v s. induction fuel as [|fuel IH]; intros nMid v s Hm Hf; [nia|]. cbn [read_vector].
  set (q := 5000000 / sizeof) in *.
  destruct (Z.ltb_spec nMid nSize) as [Hlt|Hge]; [|by replace (Z.to_nat (nSize - nMid)) with 0%nat by lia].
  set (nMid' := Z.min (nMid + q) nSize). assert (Hb : nMid < nMid' <= nSize) by (unfold nMid'; lia).
  replace (Z.to_nat (nSize - nMid)) with (Z.to_nat (nMid' - nMid) + Z.to_nat (nSize - nMid'))%nat by lia.
  rewrite read_items_add. destruct (read_items f (Z.to_nat (nMid' - nMid)) v s) as [[v1 s1]|]; [|done].
  cbn [mbind option_bind]. apply IH; [lia|]. unfold nMid'. clearbody q.
  assert (1 <= Z.of_nat fuel) by (destruct fuel; [cbn in Hf; lia | lia]).
  assert (0 <= q * (Z.of_nat fuel - 1)) by (apply Z.mul_nonneg_nonneg; lia). lia.
Qed.

Lemma Unserialize_vector_spec sizeof n s t :
  0 < sizeof <= 5000000 → 0 <= n → ReadCompactSize s = Some (n, t) →
  Unserialize_vector f sizeof s = read_items f (Z.to_nat n) [] t.
Proof.
  intros Hs Hn E. unfold Unserialize_vector. rewrite E. cbn [mbind option_bind].
  assert (Hq : 0 < 5000000 / sizeof) by (apply Z.div_str_pos; lia).
  rewrite read_vector_spec; [by rewrite Z.sub_0_r | done | lia|].
  set (q := 5000000 / sizeof) in *. pose proof (Z.div_mod n q ltac:(lia)). pose proof (Z.mod_pos_bound n q Hq).
  assert (0 <= n / q) by (apply Z.div_pos; lia). nia.
Qed.

Lemma read_items_write `{Lawful A f} w : ∀ v s,
  Forall (valid f) w → read_items f (length w) v (flat_map (Serialize f) w ++ s) = Some (v ++ w, s).
Proof.
  induction w as [|x w IH]; intros v s Hw; [by rewrite (right_id_L [] app)|].
  apply Forall_cons_1 in Hw as [Hx Hw]. cbn [length flat_map read_items].
  rewrite <- (assoc_L app), roundtrip by done. cbn [mbind option_bind]. rewrite IH by done. by rewrite <- (assoc_L app).
Qed.

Lemma read_items_Some `{Canonical A f} k : ∀ v s w t,
  Forall byte s → read_items f k v s = Some (w, t) →
  ∃ u, w = v ++ u ∧ length u = k ∧ Forall (valid f) u ∧ s = flat_map (Serialize f) u ++ t.
Proof.
  induction k as [|k IH]; intros v s w t Hs; cbn [read_items].
  - intros [= <- <-]. exists []. by rewrite (right_id_L [] app).
  - destruct (Unserialize f s) as [[x s1]|] eqn:E; [|done]. cbn [mbind option_bind].
    apply canonical in E as [Hx ->]; [|done]. apply Forall_app in Hs as [_ Hs].
    intros (u & -> & <- & Hu & ->)%IH; [|done]. exists (x :: u). cbn. rewrite <- !(assoc_L app).
    split; [done|]. split; [done|]. split; [by constructor | done].
Qed.

Lemma vector_lawful sizeof : 0 < sizeof <= 5000000 → Lawful f → Lawful (vector f sizeof).
Proof.
  intros Hs Hf. split; cbn; unfold Serialize_vector.
  - intros v [Hv Hl]. apply Forall_app. split; [apply (ser_bytes (f := compact_size)); cbn; lia|].
    induction Hv as [|x v Hx Hv IH]; [constructor|]. cbn in Hl |- *. apply Forall_app.
    split; [by apply ser_bytes | apply IH; lia].
  - intros v s [Hv Hl]. rewrite <- (assoc_L app).
    erewrite Unserialize_vector_spec; [|done| |apply WriteCompactSize_read; lia]; [|lia].
    rewrite Nat2Z.id. by apply read_items_write.
Qed.

Lemma vector_canonical sizeof : 0 < sizeof <= 5000000 → Canonical f → Canonical (vector f sizeof).
Proof.
  intros Hs Hf s v t Hb. cbn. intros E.
  destruct (ReadCompactSize s) as [[n u]|] eqn:En; [|unfold Unserialize_vector in E; by rewrite En in E].
  pose proof En as Hn. apply (canonical (f := compact_size)) in Hn as [Hn ->]; [|done]. cbn in Hn.
  erewrite Unserialize_vector_spec in E; [|done| |done]; [|lia]. apply Forall_app in Hb as [_ Hb].
  apply read_items_Some in E as (w & -> & Hl & Hw & ->); [|done]. cbn [app].
  split; [split; [done | lia]|]. unfold Serialize_vector. rewrite <- (assoc_L app). cbn. do 2 f_equal. lia.
Qed.
End VectorLaws.
#[export] Hint Extern 1 (Lawful (vector _ _)) => (apply vector_lawful; [lia|]) : typeclass_instances.
#[export] Hint Extern 1 (Canonical (vector _ _)) => (apply vector_canonical; [lia|]) : typeclass_instances.

#[export] Instance optional_lawful {A} (f : format A) : Lawful f → Lawful (optional f).
Proof.
  intros Hf. split.
  - intros [x|] Hx; cbn [optional Serialize valid] in *; [|apply (ser_bytes (f := u8)); done].
    apply Forall_app. split; [apply (ser_bytes (f := u8)); done | by apply ser_bytes].
  - intros [x|] s Hx; cbn [optional Serialize Unserialize valid] in *; rewrite <- ?(assoc_L app), (roundtrip (f := u8)) by done;
      cbn [mbind option_bind Z.eqb]; [by rewrite roundtrip | done].
Qed.

(** ** Variable-length integers *)

(** A digit without and with the continuation bit. *)
Lemma digit_last n : (n .& 0x7F) .& 0x80 = 0 ∧ (n .& 0x7F) .& 0x7F = n .& 0x7F.
Proof. rewrite <- !Z.land_assoc. change (0x7F .& 0x80) with 0. change (0x7F .& 0x7F) with 0x7F. by rewrite Z.land_0_r. Qed.

Lemma digit_more n : ((n .& 0x7F) .| 0x80) .& 0x80 = 0x80 ∧ ((n .& 0x7F) .| 0x80) .& 0x7F = n .& 0x7F.
Proof.
  rewrite !Z.land_lor_distr_l. destruct (digit_last n) as [-> ->].
  change (0x80 .& 0x80) with 0x80. change (0x80 .& 0x7F) with 0. by rewrite Z.lor_0_r.
Qed.

Lemma digit_join n : 0 <= n → ((n >> 7) << 7) .| (n .& 0x7F) = n.
Proof.
  intros Hn. rewrite Z.lor_comm. change 0x7F with (Z.ones 7). rewrite Z.land_ones by lia.
  rewrite lor_disjoint_add by (try apply word_mod; lia). rewrite Z.shiftr_div_pow2 by lia.
  pose proof (Z.div_mod n (2 ^ 7) ltac:(lia)). lia.
Qed.

Lemma mod_step w a x : 0 <= w → ((a mod 2 ^ w) << 7) mod 2 ^ w = (a << 7) mod 2 ^ w ∧ (a mod 2 ^ w + x) mod 2 ^ w = (a + x) mod 2 ^ w.
Proof.
  intros Hw. assert (2 ^ w ≠ 0) by (apply Z.pow_nonzero; lia). rewrite !Z.shiftl_mul_pow2 by lia.
  by rewrite Z.mul_mod_idemp_l, Z.add_mod_idemp_l.
Qed.

(** One turn of the reader, on the value so far modulo the width. *)
Lemma read_turn w a d : 7 <= w → (((a mod 2 ^ w) << 7) .| (d .& 0x7F)) mod 2 ^ w = ((a << 7) .| (d .& 0x7F)) mod 2 ^ w.
Proof.
  intros Hw. assert (Hm : word 7 (d .& 0x7F)) by (change 0x7F with (Z.ones 7); rewrite Z.land_ones by lia; apply word_mod; lia).
  rewrite !(Z.lor_comm (_ << 7)), !lor_disjoint_add by (done || lia).
  rewrite <- Z.add_mod_idemp_r by (apply Z.pow_nonzero; lia). rewrite Z.mul_mod_idemp_l by (apply Z.pow_nonzero; lia).
  by rewrite Z.add_mod_idemp_r by (apply Z.pow_nonzero; lia).
Qed.

(** The digits of [n] with every continuation bit set bring the reader to [n + 1]. *)
Lemma read_more w room : 7 <= w → ∀ s len n tmp,
  0 < len → 0 <= n → varint_digits room len n = Some tmp →
  read_varint w 0 (reverse tmp ++ s) = read_varint w ((n + 1) mod 2 ^ w) s.
Proof.
  intros Hw. induction room as [|room IH]; intros s len n tmp Hl Hn; [done|]. cbn [varint_digits].
  destruct (Z.eqb_spec len 0) as [|_]; [lia|]. destruct (digit_more n) as [E1 E2].
  assert (Hturn : ∀ a, a = n >> 7 → read_varint w (a mod 2 ^ w) (((n .& 0x7F) .| 0x80) :: s) = read_varint w ((n + 1) mod 2 ^ w) s).
  { intros a ->. cbn [read_varint]. rewrite read_turn, E1, E2, digit_join by lia.
    change (0x80 =? 0) with false. cbv iota. by rewrite (proj2 (mod_step w n 1 ltac:(lia))). }
  destruct (Z.leb_spec n 0x7F) as [Hle|Hgt].
  - intros [= <-]. rewrite reverse_singleton. cbn [app]. rewrite <- (Hturn 0); [by rewrite Zmod_0_l|].
    rewrite Z.shiftr_div_pow2 by lia. symmetry. apply Z.div_small. cbn. lia.
  - destruct (varint_digits room (len + 1) ((n >> 7) - 1)) as [t|] eqn:Et; [|done]. intros [= <-].
    rewrite reverse_cons, <- (assoc_L app). rewrite (IH _ (len + 1) ((n >> 7) - 1)); [|lia| |done].
    + cbn [app]. rewrite Z.sub_add. by apply Hturn.
    + rewrite Z.shiftr_div_pow2 by lia. assert (1 <= n / 2 ^ 7) by (apply Z.div_le_lower_bound; lia). lia.
Qed.

(** The array [tmp] has room for every digit. *)
Lemma varint_digits_room room len n :
  0 <= n < 2 ^ (7 * Z.of_nat (S room)) →
  ∃ tmp, varint_digits (S room) len n = Some tmp ∧ Z.of_nat (length tmp) = size_of_varint (S room) n.
Proof.
  revert len n. induction room as [|room IH]; intros len n Hn.
  - cbn [varint_digits size_of_varint]. destruct (Z.leb_spec n 0x7F); [by eexists|]. change (2 ^ _) with 128 in Hn. lia.
  - remember (S room) as k eqn:Ek. cbn [varint_digits size_of_varint]. destruct (Z.leb_spec n 0x7F) as [|Hgt]; [by eexists|].
    destruct (IH (len + 1) ((n >> 7) - 1)) as (t & -> & Hl).
    + rewrite Z.shiftr_div_pow2 by lia. replace (7 * Z.of_nat (S k)) with (7 * Z.of_nat k + 7) in Hn by lia.
      rewrite Z.pow_add_r in Hn by lia. assert (1 <= n / 2 ^ 7) by (apply Z.div_le_lower_bound; lia).
      assert (n / 2 ^ 7 < 2 ^ (7 * Z.of_nat k)) by (apply Z.div_lt_upper_bound; lia). lia.
    + cbn [mbind option_bind]. eexists. split; [done|]. cbn [length]. lia.
Qed.

Lemma varint_digits_byte room : ∀ len n tmp, 0 <= n → varint_digits room len n = Some tmp → Forall byte tmp.
Proof.
  induction room as [|room IH]; intros len n tmp Hn; [done|]. cbn [varint_digits].
  assert (Hd : byte ((n .& 0x7F) .| (if len =? 0 then 0x00 else 0x80))).
  { apply word_lor; [lia| |by case_match]. apply word_land_r; [lia | done]. }
  destruct (Z.leb_spec n 0x7F) as [|Hgt]; [intros [= <-]; by apply Forall_singleton|].
  destruct (varint_digits room _ _) as [t|] eqn:E; [|done]. intros [= <-]. constructor; [done|]. eapply IH; [|exact E].
  rewrite Z.shiftr_div_pow2 by lia. assert (1 <= n / 2 ^ 7) by (apply Z.div_le_lower_bound; lia). lia.
Qed.

(** Written for one width and read for another. *)
Lemma ReadVarInt_spec v w n :
  0 < v → 7 <= w → word v n →
  ∃ b, WriteVarInt v n = Some b ∧ Z.of_nat (length b) = GetSizeOfVarInt v n ∧ Forall byte b ∧ ∀ s, ReadVarInt w (b ++ s) = Some (n mod 2 ^ w, s).
Proof.
  intros Hv Hw Hn. unfold WriteVarInt, ReadVarInt. remember (Z.to_nat ((v + 6) / 7)) as room eqn:Eroom.
  assert (Hroom : Z.of_nat room = (v + 6) / 7) by (subst room; apply Z2Nat.id, Z.div_pos; lia).
  assert (Hr : v <= 7 * Z.of_nat room).
  { rewrite Hroom. pose proof (Z.div_mod (v + 6) 7 ltac:(lia)).
    pose proof (Z.mod_pos_bound (v + 6) 7 ltac:(lia)). lia. }
  destruct room as [|room]; [lia|]. destruct (varint_digits_room room 0 n) as (tmp & E & Hl).
  { destruct Hn as [Hn1 Hn2]. split; [lia|]. eapply Z.lt_le_trans; [exact Hn2|]. apply Z.pow_le_mono_r; lia. }
  unfold GetSizeOfVarInt. rewrite <- Eroom, E. cbn [mbind option_bind]. exists (reverse tmp). split; [done|].
  split; [rewrite length_reverse; exact Hl|].
  split; [apply Forall_reverse; eapply varint_digits_byte; [|exact E]; destruct Hn; lia|].
  intros s. destruct Hn as [Hn0 _]. cbn [varint_digits Z.eqb] in E. rewrite Z.lor_0_r in E.
  destruct (digit_last n) as [E1 E2].
  assert (Hturn : ∀ a, a = n >> 7 → read_varint w (a mod 2 ^ w) ((n .& 0x7F) :: s) = Some (n mod 2 ^ w, s)).
  { intros a ->. cbn [read_varint]. by rewrite read_turn, E1, E2, digit_join by lia. }
  destruct (Z.leb_spec n 0x7F) as [Hle|Hgt].
  - injection E as <-. rewrite reverse_singleton. cbn [app]. rewrite <- (Hturn 0); [by rewrite Zmod_0_l|].
    rewrite Z.shiftr_div_pow2 by lia. symmetry. apply Z.div_small. cbn. lia.
  - destruct (varint_digits room (0 + 1) ((n >> 7) - 1)) as [t|] eqn:Et; [|done]. injection E as <-.
    rewrite reverse_cons, <- (assoc_L app). rewrite (read_more w room Hw _ (0 + 1) ((n >> 7) - 1)); [|lia| |done].
    + cbn [app]. rewrite Z.sub_add. by apply Hturn.
    + rewrite Z.shiftr_div_pow2 by lia. assert (1 <= n / 2 ^ 7) by (apply Z.div_le_lower_bound; lia). lia.
Qed.

#[export] Instance varint_lawful w : TCEq (7 <=? w) true → Lawful (varint w).
Proof.
  intros Hw%TCEq_eq%Z.leb_le. split; cbn [varint Serialize Unserialize valid].
  - intros n Hn. destruct (ReadVarInt_spec w w n ltac:(lia) Hw Hn) as (b & -> & _ & Hb & _). exact Hb.
  - intros n s Hn. destruct (ReadVarInt_spec w w n ltac:(lia) Hw Hn) as (b & -> & _ & _ & E). change (default [] (Some b)) with b.
    by rewrite E, Z.mod_small by exact Hn.
Qed.

(** ** Theorems *)

(** Every number of an unsigned type fits in the array of [WriteVarInt], takes as many
    bytes as [GetSizeOfVarInt] says, and is read back. *)
Theorem VarInt_roundtrip w n :
  7 <= w → word w n →
  ∃ b, WriteVarInt w n = Some b ∧ Z.of_nat (length b) = GetSizeOfVarInt w n ∧ Forall byte b ∧
       ∀ s, ReadVarInt w (b ++ s) = Some (n, s).
Proof.
  intros Hw Hn. destruct (ReadVarInt_spec w w n ltac:(lia) Hw Hn) as (b & E & Hl & Hb & Hr). exists b.
  split; [done|]. split; [done|]. split; [done|]. intros s. by rewrite Hr, Z.mod_small by exact Hn.
Qed.

(** The reader does not check for overflow: a second byte string, the encoding of
    [n + 2^32], is read as [n] too by the 32-bit reader. *)
Theorem ReadVarInt_aliases n :
  word 32 n →
  ∃ b b', b ≠ b' ∧ WriteVarInt 32 n = Some b ∧ ReadVarInt 32 b = Some (n, []) ∧ ReadVarInt 32 b' = Some (n, []).
Proof.
  intros Hn. destruct (ReadVarInt_spec 32 32 n ltac:(lia) ltac:(lia) Hn) as (b & E & _ & _ & Hr).
  assert (Hn' : word 64 (n + 2 ^ 32)) by (destruct Hn; split; [lia|]; change (2 ^ 64) with (2 ^ 32 * 2 ^ 32); lia).
  destruct (ReadVarInt_spec 64 32 _ ltac:(lia) ltac:(lia) Hn') as (b' & E' & _ & _ & Hr').
  destruct (ReadVarInt_spec 64 64 _ ltac:(lia) ltac:(lia) Hn') as (b'' & E'' & _ & _ & H64).
  replace b'' with b' in * by congruence. clear E''.
  destruct (ReadVarInt_spec 32 64 n ltac:(lia) ltac:(lia) Hn) as (b3 & E3 & _ & _ & H3). replace b3 with b in * by congruence.
  exists b, b'. specialize (Hr []). specialize (Hr' []). specialize (H64 []). specialize (H3 []).
  rewrite !(right_id_L [] app) in *. split; [|split; [done|split]].
  - intros ->. rewrite H3 in H64. injection H64 as H64. rewrite !Z.mod_small in H64 by (destruct Hn; split; lia). lia.
  - by rewrite Hr, Z.mod_small by exact Hn.
  - rewrite Hr'. replace (n + 2 ^ 32) with (n + 1 * 2 ^ 32) by lia. by rewrite Z.mod_add, Z.mod_small by (exact Hn || lia).
Qed.

(** Sizes are read back, and no other byte string is read as the same size. *)
Theorem CompactSize_canonical s n t :
  Forall byte s → (ReadCompactSize s = Some (n, t) ↔ 0 <= n <= MAX_SIZE ∧ s = WriteCompactSize n ++ t).
Proof.
  intros Hs. split; [intros E; by apply (canonical (f := compact_size)) in E|].
  intros [Hn ->]. by apply WriteCompactSize_read.
Qed.

(** ** Examples from the comments of the source *)

Example varint_examples :
  map (WriteVarInt 64) [0; 127; 128; 255; 16384; 2 ^ 32] =
  map Some [[0]; [0x7F]; [0x80; 0x00]; [0x80; 0x7F]; [0xFF; 0x00]; [0x8E; 0xFE; 0xFE; 0xFF; 0x00]].
Proof. reflexivity. Qed.

Lemma VarInt_roundtrip_witness :
  ∃ b, WriteVarInt 64 65535 = Some b ∧ Z.of_nat (length b) = GetSizeOfVarInt 64 65535 ∧ Forall byte b ∧
       ∀ s, ReadVarInt 64 (b ++ s) = Some (65535, s).
Proof. apply (VarInt_roundtrip 64 65535); [lia | split; reflexivity || discriminate]. Defined.

Lemma ReadVarInt_aliases_witness :
  ∃ b b', b ≠ b' ∧ WriteVarInt 32 0 = Some b ∧ ReadVarInt 32 b = Some (0, []) ∧ ReadVarInt 32 b' = Some (0, []).
Proof. apply (ReadVarInt_aliases 0). split; reflexivity || discriminate. Defined.

Lemma CompactSize_canonical_witness : 0 <= 515 <= MAX_SIZE ∧ [0xFD; 0x03; 0x02; 0x07] = WriteCompactSize 515 ++ [0x07].
Proof.
  apply (CompactSize_canonical [0xFD; 0x03; 0x02; 0x07] 515 [0x07]); [|reflexivity].
  repeat constructor; reflexivity || discriminate.
Defined.

End Serialize.
