(* ===== verification/Script.v ===== *)
(** * src/script/script.{h,cpp}: scripts and script numbers

    A script is a list of bytes, and an iterator into it is the rest of the script.
    [GetOp] moves the iterator even when it fails, as the function of the source does:
    its result is the opcode with the data it pushes (or a failure) and the new
    iterator.  An exception is [None].

    The theorems relate the reader to the builder [operator<<], show that minimal
    script numbers are in one-to-one correspondence with the integers, and give
    [FindAndDelete] its meaning. *)

From stdpp Require Import base option list.
From Stdlib Require Import ZArith Lia.
From S2P Require Import Prelude.
Open Scope Z_scope.

Module Script.

Abbreviation CScript := (list Z).
Abbreviation valtype := (list Z).

Definition MAX_SCRIPT_ELEMENT_SIZE : Z := 520.
Definition MAX_SCRIPT_SIZE : Z := 10000.

(** ** Opcodes *)

Definition OP_0 : Z := 0x00.
Definition OP_PUSHDATA1 : Z := 0x4c.
Definition OP_PUSHDATA2 : Z := 0x4d.
Definition OP_PUSHDATA4 : Z := 0x4e.
Definition OP_1NEGATE : Z := 0x4f.
Definition OP_RESERVED : Z := 0x50.
Definition OP_1 : Z := 0x51.
Definition OP_16 : Z := 0x60.
Definition OP_NOP : Z := 0x61.
Definition OP_IF : Z := 0x63.
Definition OP_NOTIF : Z := 0x64.
Definition OP_ELSE : Z := 0x67.
Definition OP_ENDIF : Z := 0x68.
Definition OP_VERIFY : Z := 0x69.
Definition OP_RETURN : Z := 0x6a.
Definition OP_TOALTSTACK : Z := 0x6b.
Definition OP_FROMALTSTACK : Z := 0x6c.
Definition OP_2DROP : Z := 0x6d.
Definition OP_2DUP : Z := 0x6e.
Definition OP_3DUP : Z := 0x6f.
Definition OP_2OVER : Z := 0x70.
Definition OP_2ROT : Z := 0x71.
Definition OP_2SWAP : Z := 0x72.
Definition OP_IFDUP : Z := 0x73.
Definition OP_DEPTH : Z := 0x74.
Definition OP_DROP : Z := 0x75.
Definition OP_DUP : Z := 0x76.
Definition OP_NIP : Z := 0x77.
Definition OP_OVER : Z := 0x78.
Definition OP_PICK : Z := 0x79.
Definition OP_ROLL : Z := 0x7a.
Definition OP_ROT : Z := 0x7b.
Definition OP_SWAP : Z := 0x7c.
Definition OP_TUCK : Z := 0x7d.
Definition OP_CAT : Z := 0x7e.
Definition OP_SUBSTR : Z := 0x7f.
Definition OP_LEFT : Z := 0x80.
Definition OP_RIGHT : Z := 0x81.
Definition OP_SIZE : Z := 0x82.
Definition OP_INVERT : Z := 0x83.
Definition OP_AND : Z := 0x84.
Definition OP_OR : Z := 0x85.
Definition OP_XOR : Z := 0x86.
Definition OP_EQUAL : Z := 0x87.
Definition OP_EQUALVERIFY : Z := 0x88.
Definition OP_1ADD : Z := 0x8b.
Definition OP_1SUB : Z := 0x8c.
Definition OP_2MUL : Z := 0x8d.
Definition OP_2DIV : Z := 0x8e.
Definition OP_NEGATE : Z := 0x8f.
Definition OP_ABS : Z := 0x90.
Definition OP_NOT : Z := 0x91.
Definition OP_0NOTEQUAL : Z := 0x92.
Definition OP_ADD : Z := 0x93.
Definition OP_SUB : Z := 0x94.
Definition OP_MUL : Z := 0x95.
Definition OP_DIV : Z := 0x96.
Definition OP_MOD : Z := 0x97.
Definition OP_LSHIFT : Z := 0x98.
Definition OP_RSHIFT : Z := 0x99.
Definition OP_BOOLAND : Z := 0x9a.
Definition OP_BOOLOR : Z := 0x9b.
Definition OP_NUMEQUAL : Z := 0x9c.
Definition OP_NUMEQUALVERIFY : Z := 0x9d.
Definition OP_NUMNOTEQUAL : Z := 0x9e.
Definition OP_LESSTHAN : Z := 0x9f.
Definition OP_GREATERTHAN : Z := 0xa0.
Definition OP_LESSTHANOREQUAL : Z := 0xa1.
Definition OP_GREATERTHANOREQUAL : Z := 0xa2.
Definition OP_MIN : Z := 0xa3.
Definition OP_MAX : Z := 0xa4.
Definition OP_WITHIN : Z := 0xa5.
Definition OP_RIPEMD160 : Z := 0xa6.
Definition OP_SHA1 : Z := 0xa7.
Definition OP_SHA256 : Z := 0xa8.
Definition OP_HASH160 : Z := 0xa9.
Definition OP_HASH256 : Z := 0xaa.
Definition OP_CODESEPARATOR : Z := 0xab.
Definition OP_CHECKSIG : Z := 0xac.
Definition OP_CHECKSIGVERIFY : Z := 0xad.
Definition OP_CHECKMULTISIG : Z := 0xae.
Definition OP_CHECKMULTISIGVERIFY : Z := 0xaf.
Definition OP_NOP1 : Z := 0xb0.
Definition OP_CHECKLOCKTIMEVERIFY : Z := 0xb1.
Definition OP_NOP3 : Z := 0xb2.
Definition OP_NOP10 : Z := 0xb9.
Definition OP_INVALIDOPCODE : Z := 0xff.

(** ** Script numbers *)

(** The loop of [set_vch] from byte [i] on. *)
Fixpoint or_bytes (i : Z) (vch : valtype) (result : Z) : Z :=
  match vch with
  | [] => result
  | b :: vch => or_bytes (i + 1) vch (result .| (b << (8 * i)))
  end.

Definition back (v : valtype) : Z := default 0 (last v).

Definition set_vch (vch : valtype) : Z :=
  match vch with
  | [] => 0
  | _ =>
      let result := or_bytes 0 vch 0 in
      if back vch .& 0x80 =? 0 then result
      else - Z.ldiff result (0x80 << (8 * (Z.of_nat (length vch) - 1)))
  end.

(** [CScriptNum(vch, fRequireMinimal, nMaxNumSize)]; [None] is [scriptnum_error]. *)
Definition CScriptNum (vch : valtype) (fRequireMinimal : bool) (nMaxNumSize : Z) : option Z :=
  if Z.of_nat (length vch) >? nMaxNumSize then None
  else if fRequireMinimal && (Z.of_nat (length vch) >? 0) && (back vch .& 0x7f =? 0) &&
          ((Z.of_nat (length vch) <=? 1) || (nth (length vch - 2) vch 0 .& 0x80 =? 0)) then None
  else Some (set_vch vch).

Definition nDefaultMaxNumSize : Z := 4.

Definition INT_MAX : Z := 2 ^ 31 - 1.
Definition INT_MIN : Z := - 2 ^ 31.

Definition getint (m_value : Z) : Z :=
  if m_value >? INT_MAX then INT_MAX else if m_value <? INT_MIN then INT_MIN else m_value.

(** [while (absvalue)]: at most 8 bytes. *)
Fixpoint push_bytes (fuel : nat) (absvalue : Z) : valtype :=
  match fuel with
  | O => []
  | S fuel => if absvalue =? 0 then [] else (absvalue .& 0xff) :: push_bytes fuel (absvalue >> 8)
  end.

Definition serialize (value : Z) : valtype :=
  if value =? 0 then []
  else
    let neg := value <? 0 in
    let result := push_bytes 8 (if neg then - value else value) in
    if negb (back result .& 0x80 =? 0) then result ++ [if neg then 0x80 else 0]
    else if neg then take (length result - 1) result ++ [back result .| 0x80]
    else result.

(** ** Building scripts *)

(** [operator<<(const std::vector<unsigned char>&)]. *)
Definition push_data (b : valtype) : CScript :=
  let size := Z.of_nat (length b) in
  (if size <? OP_PUSHDATA1 then [size]
   else if size <=? 0xff then [OP_PUSHDATA1; size]
   else if size <=? 0xffff then OP_PUSHDATA2 :: le_bytes 2 size
   else OP_PUSHDATA4 :: le_bytes 4 size) ++ b.

Definition push_int64 (n : Z) : CScript :=
  if (n =? -1) || ((1 <=? n) && (n <=? 16)) then [n + (OP_1 - 1)]
  else if n =? 0 then [OP_0]
  else push_data (serialize n).

(** ** Reading scripts *)

(** The data of a push of [nSize] bytes. *)
Definition push_of (opcode nSize : Z) (pc : CScript) : option (Z * valtype) * CScript :=
  if Z.of_nat (length pc) <? nSize then (None, pc)
  else (Some (opcode, take (Z.to_nat nSize) pc), drop (Z.to_nat nSize) pc).

Definition GetOp (pc : CScript) : option (Z * valtype) * CScript :=
  match pc with
  | [] => (None, [])
  | opcode :: pc =>
      if opcode <=? OP_PUSHDATA4 then
        if opcode <? OP_PUSHDATA1 then push_of opcode opcode pc
        else if opcode =? OP_PUSHDATA1 then
          match pc with
          | [] => (None, [])
          | nSize :: pc => push_of opcode nSize pc
          end
        else if opcode =? OP_PUSHDATA2 then
          if Z.of_nat (length pc) <? 2 then (None, pc)
          else push_of opcode (le_word (take 2 pc)) (drop 2 pc)
        else
          if Z.of_nat (length pc) <? 4 then (None, pc)
          else push_of opcode (le_word (take 4 pc)) (drop 4 pc)
      else (Some (opcode, []), pc)
  end.

Definition DecodeOP_N (opcode : Z) : option Z :=
  if opcode =? OP_0 then Some 0
  else if (opcode >=? OP_1) && (opcode <=? OP_16) then Some (opcode - (OP_1 - 1)) else None.
Definition EncodeOP_N (n : Z) : option Z :=
  if (n >=? 0) && (n <=? 16) then Some (if n =? 0 then OP_0 else OP_1 + n - 1) else None.

(** The loops over a script take its length plus one as fuel: every [GetOp] that
    succeeds moves the iterator. *)

(** [GetSigOpCount(fAccurate)]. *)
Fixpoint sigop_loop (fuel : nat) (fAccurate : bool) (pc : CScript) (lastOpcode n : Z) : Z :=
  match fuel with
  | O => n
  | S fuel =>
      match pc with
      | [] => n
      | _ =>
          match GetOp pc with
          | (None, _) => n
          | (Some (opcode, _), pc) =>
              let n :=
                if (opcode =? OP_CHECKSIG) || (opcode =? OP_CHECKSIGVERIFY) then n + 1
                else if (opcode =? OP_CHECKMULTISIG) || (opcode =? OP_CHECKMULTISIGVERIFY) then
                  if fAccurate && (lastOpcode >=? OP_1) && (lastOpcode <=? OP_16)
                  then n + default 0 (DecodeOP_N lastOpcode) else n + 20
                else n in
              sigop_loop fuel fAccurate pc opcode n
          end
      end
  end.
Definition GetSigOpCount (fAccurate : bool) (script : CScript) : Z :=
  sigop_loop (S (length script)) fAccurate script OP_INVALIDOPCODE 0.

Definition IsPayToScriptHash (script : CScript) : bool :=
  (Z.of_nat (length script) =? 23) && (nth 0 script 0 =? OP_HASH160) && (nth 1 script 0 =? 0x14) && (nth 22 script 0 =? OP_EQUAL).

(** The last item a script of pushes leaves; [None] if it is not one. *)
Fixpoint last_push (fuel : nat) (pc : CScript) (data : valtype) : option valtype :=
  match fuel with
  | O => None
  | S fuel =>
      match pc with
      | [] => Some data
      | _ =>
          match GetOp pc with
          | (None, _) => None
          | (Some (opcode, data), pc) => if opcode >? OP_16 then None else last_push fuel pc data
          end
      end
  end.

(** [GetSigOpCount(scriptSig)]. *)
Definition GetSigOpCountP2SH (script scriptSig : CScript) : Z :=
  if negb (IsPayToScriptHash script) then GetSigOpCount true script
  else match last_push (S (length scriptSig)) scriptSig [] with
       | None => 0
       | Some data => GetSigOpCount true data
       end.

Definition StartsWithOpcode (script : CScript) (opcode : Z) : bool :=
  match script with [] => false | b :: _ => b =? opcode end.

Fixpoint push_only (fuel : nat) (pc : CScript) : bool :=
  match fuel with
  | O => false
  | S fuel =>
      match pc with
      | [] => true
      | _ =>
          match GetOp pc with
          | (None, _) => false
          | (Some (opcode, _), pc) => if opcode >? OP_16 then false else push_only fuel pc
          end
      end
  end.
Definition IsPushOnly (script : CScript) : bool := push_only (S (length script)) script.

(** [IsNormalPaymentScript]: the iterator moves on even when [GetOp] fails. *)
Fixpoint normal_loop (fuel : nat) (i : Z) (pc : CScript) : bool :=
  match fuel with
  | O => false
  | S fuel =>
      match pc with
      | [] => true
      | _ =>
          let '(r, pc) := GetOp pc in
          let opcode := match r with Some (opcode, _) => opcode | None => OP_INVALIDOPCODE end in
          if (i =? 0) && negb (opcode =? OP_DUP) then false
          else if (i =? 1) && negb (opcode =? OP_HASH160) then false
          else if (i =? 3) && negb (opcode =? OP_EQUALVERIFY) then false
          else if (i =? 4) && negb (opcode =? OP_CHECKSIG) then false
          else if i =? 5 then false
          else normal_loop fuel (i + 1) pc
      end
  end.
Definition IsNormalPaymentScript (script : CScript) : bool :=
  (Z.of_nat (length script) =? 25) && normal_loop (S (length script)) 0 script.

Definition IsUnspendable (script : CScript) : bool :=
  match script with b :: _ => b =? OP_RETURN | [] => false end || (Z.of_nat (length script) >? MAX_SCRIPT_SIZE).

(** [FindAndDelete].  The inner loop skips copies of [b]; [None] is out of fuel. *)
Fixpoint skip_copies (fuel : nat) (b pc : CScript) (nFound : Z) : option (CScript * Z) :=
  match fuel with
  | O => None
  | S fuel =>
      if bool_decide (take (length b) pc = b) then skip_copies fuel b (drop (length b) pc) (nFound + 1)
      else Some (pc, nFound)
  end.

(** [pc2] is the part that is copied next; the result so far is [result]. *)
Fixpoint delete_loop (fuel : nat) (b : CScript) (pc pc2 result : CScript) (nFound : Z) : option (CScript * Z) :=
  match fuel with
  | O => None
  | S fuel =>
      let result := result ++ take (length pc2 - length pc) pc2 in
      '(pc, nFound) ← skip_copies (S (length pc)) b pc nFound;
      match GetOp pc with
      | (Some _, pc') => delete_loop fuel b pc' pc result nFound
      | (None, _) => Some (result ++ pc, nFound)
      end
  end.

(** The script after the call and the number of copies. *)
Definition FindAndDelete (script b : CScript) : option (CScript * Z) :=
  match b with
  | [] => Some (script, 0)
  | _ =>
      '(result, nFound) ← delete_loop (S (length script)) b script script [] 0;
      Some (if nFound >? 0 then result else script, nFound)
  end.

(** ** Script numbers *)

Lemma byte_range b : byte b → 0 <= b < 256.
Proof. unfold word. by change (2 ^ 8) with 256. Qed.

Lemma range_byte b : 0 <= b < 256 → byte b.
Proof. unfold word. by change (2 ^ 8) with 256. Qed.

(** A property of all bytes can be checked byte by byte. *)
Lemma byte_check (P : Z → bool) b : forallb P (map Z.of_nat (seq 0 256)) = true → byte b → P b = true.
Proof.
  intros Hp Hb%byte_range. rewrite forallb_forall in Hp. apply Hp. apply in_map_iff. exists (Z.to_nat b).
  rewrite Z2Nat.id by lia. split; [done|]. apply in_seq. lia.
Qed.

Lemma land_0x80 b : byte b → (b .& 0x80 =? 0) = (b <? 128) ∧ b .& 0x7f = b mod 128 ∧ (b < 128 → b .| 0x80 = b + 128).
Proof.
  intros Hb. apply (byte_check (λ b, bool_decide ((b .& 0x80 =? 0) = (b <? 128)) && (b .& 0x7f =? b mod 128) &&
    (implb (b <? 128) (b .| 0x80 =? b + 128))) b) in Hb; [|reflexivity].
  apply andb_true_iff in Hb as [[?%bool_decide_eq_true ?%Z.eqb_eq]%andb_true_iff Himp]. split; [done|]. split; [done|].
  intros Hlt%Z.ltb_lt. rewrite Hlt in Himp. by apply Z.eqb_eq.
Qed.

Lemma or_bytes_spec vch : ∀ i r,
  Forall byte vch → 0 <= i → word (8 * i) r → or_bytes i vch r = r + le_word vch * 2 ^ (8 * i).
Proof.
  induction vch as [|b vch IH]; intros i r Hb Hi Hr; cbn [or_bytes le_word]; [lia|].
  apply Forall_cons in Hb as [Hb Hv]. rewrite lor_disjoint_add by (done || lia).
  rewrite IH; [|done|lia|].
  - replace (8 * (i + 1)) with (8 * i + 8) by lia. rewrite Z.pow_add_r by lia. change (2 ^ 8) with 256. lia.
  - replace (8 * (i + 1)) with (8 * i + 8) by lia. apply word_shiftl_add; [lia | lia | done | done].
Qed.

Lemma back_snoc t b : back (t ++ [b]) = b.
Proof. unfold back. by rewrite last_snoc. Qed.

Lemma snoc_cases {A} (l : list A) : l = [] ∨ ∃ t x, l = t ++ [x].
Proof. destruct l as [|x l _] using rev_ind; [by left | right; by exists l, x]. Qed.

(** Clearing the bit above a word. *)
Lemma ldiff_top m x : 0 <= m → word m x → Z.ldiff (x + 1 * 2 ^ m) (1 << m) = x.
Proof.
  intros Hm Hx. rewrite <- lor_disjoint_add by done. apply Z.bits_inj'. intros i Hi.
  rewrite Z.ldiff_spec, Z.lor_spec, Z.shiftl_1_l. destruct (Z.eq_dec i m) as [->|].
  - rewrite Z.pow2_bits_true by lia. rewrite (word_testbit_high m x) by (done || lia). done.
  - rewrite Z.pow2_bits_false by lia. by rewrite orb_false_r, andb_true_r.
Qed.

(** The value of an encoding: magnitude and sign bit of the last byte. *)
Lemma set_vch_snoc t b :
  Forall byte (t ++ [b]) →
  set_vch (t ++ [b]) = (if b <? 128 then 1 else -1) * (le_word t + b mod 128 * 2 ^ (8 * Z.of_nat (length t))).
Proof.
  intros Hv. pose proof (proj1 (Forall_app _ _ _) Hv) as [Ht Hb%Forall_inv].
  assert (E : ∀ v, v = t ++ [b] → set_vch v = if back v .& 0x80 =? 0 then or_bytes 0 v 0
      else - Z.ldiff (or_bytes 0 v 0) (0x80 << (8 * (Z.of_nat (length v) - 1)))).
  { intros v ->. unfold set_vch. by destruct t. }
  rewrite (E _ eq_refl), back_snoc, (or_bytes_spec _ 0 0) by (done || (cbn; lia)).
  rewrite Z.mul_0_r, Z.add_0_l, Z.mul_1_r, length_app, le_word_app. cbn [le_word length].
  destruct (land_0x80 b Hb) as [-> _]. apply byte_range in Hb. set (k := 8 * Z.of_nat (length t)).
  replace (8 * (Z.of_nat (length t + 1) - 1)) with k by (unfold k; lia).
  assert (Hk : word k (le_word t)) by (unfold k; by apply le_word_bound).
  destruct (Z.ltb_spec b 128).
  - rewrite Z.mod_small by lia. lia.
  - replace (le_word t + (b + 0 * 256) * 2 ^ k) with ((le_word t + (b mod 128) * 2 ^ k) + 1 * 2 ^ (k + 7)).
    2: { rewrite Z.pow_add_r by (unfold k; lia). change (2 ^ 7) with 128. replace (b mod 128) with (b - 128) by
          (apply Z.mod_unique with 1; lia). lia. }
    assert (Hw : word (k + 7) (le_word t + b mod 128 * 2 ^ k)).
    { apply word_shiftl_add; [unfold k; lia | lia | done | apply (word_mod 7); lia]. }
    change 0x80 with (1 << 7). rewrite Z.shiftl_shiftl by lia. replace (7 + k) with (k + 7) by lia.
    rewrite ldiff_top by (done || (unfold k; lia)). lia.
Qed.

(** The bytes of a magnitude: the last one is not zero. *)
Lemma push_bytes_spec fuel : ∀ a,
  0 <= a < 256 ^ Z.of_nat fuel →
  Forall byte (push_bytes fuel a) ∧ le_word (push_bytes fuel a) = a ∧ (a ≠ 0 → back (push_bytes fuel a) ≠ 0).
Proof.
  induction fuel as [|fuel IH]; intros a Ha; [cbn in Ha; cbn; repeat split; [done | lia | lia]|].
  cbn [push_bytes]. destruct (Z.eqb_spec a 0) as [->|Hne]; [cbn; repeat split; done|].
  assert (E : a .& 0xff = a mod 256) by (change 0xff with (Z.ones 8); by rewrite Z.land_ones by lia).
  rewrite Nat2Z.inj_succ, Z.pow_succ_r in Ha by lia. rewrite E, Z.shiftr_div_pow2 by lia. change (2 ^ 8) with 256.
  pose proof (Z.div_mod a 256 ltac:(lia)) as Hdm. pose proof (Z.mod_pos_bound a 256 ltac:(lia)) as Hm.
  destruct (IH (a / 256)) as (B1 & B2 & B3).
  { split; [apply Z.div_pos; lia | apply Z.div_lt_upper_bound; lia]. }
  split; [constructor; [apply range_byte; lia | done]|]. cbn [le_word]. rewrite B2. split; [lia|]. intros _.
  destruct (Z.eq_dec (a / 256) 0) as [Hz|Hz].
  - rewrite Hz. replace (push_bytes fuel 0) with (@nil Z) by (by destruct fuel). unfold back. cbn. lia.
  - specialize (B3 Hz). destruct (push_bytes fuel (a / 256)) as [|x l]; [done|]. exact B3.
Qed.

(** A list of bytes whose last one is not zero is determined by its value. *)
Lemma push_bytes_le_word fuel r :
  Forall byte r → (length r <= fuel)%nat → (r ≠ [] → back r ≠ 0) → push_bytes fuel (le_word r) = r.
Proof.
  intros Hr. revert fuel. induction Hr as [|b r Hb Hr IH]; intros fuel Hl Hback; [by destruct fuel|].
  destruct fuel as [|fuel]; [cbn in Hl; lia|]. cbn [push_bytes le_word length] in *. apply byte_range in Hb.
  assert (Hpos : le_word r ≠ 0 ∨ r = []).
  { destruct r as [|x r'] eqn:Er; [by right | left]. rewrite <- Er in *. assert (back r ≠ 0) by (subst; by apply Hback).
    intros Hz. destruct (snoc_cases r) as [->|(t & y & ->)]; [done|]. rewrite back_snoc in *.
    apply Forall_app in Hr as [Ht Hy%Forall_inv]. rewrite le_word_app in Hz. apply byte_range in Hy. cbn in Hz.
    pose proof (le_word_bound t Ht) as [? _]. assert (0 < 2 ^ (8 * Z.of_nat (length t))) by (apply Z.pow_pos_nonneg; lia). nia. }
  assert (Hr0 : 0 <= le_word r) by (destruct (le_word_bound r Hr); lia).
  destruct (Z.eqb_spec (b + le_word r * 256) 0) as [Hz|_].
  { destruct Hpos as [|Hn]; [lia|]. subst r. cbn in Hz. destruct (Hback ltac:(done)). unfold back. cbn. lia. }
  change 0xff with (Z.ones 8). rewrite Z.land_ones, Z.shiftr_div_pow2 by lia. change (2 ^ 8) with 256.
  rewrite Z.mod_add, Z.mod_small, Z.div_add, Z.div_small by lia. rewrite Z.add_0_l, IH; [done | lia|].
  intros Hn. destruct r; [done|]. by apply Hback.
Qed.

(** The shape of an encoding: the bytes of the magnitude, with the sign in the top bit
    of the last one or in a byte of its own. *)
Lemma serialize_spec n :
  n ≠ 0 → - 2 ^ 63 < n < 2 ^ 63 →
  ∃ t c, Forall byte (t ++ [c]) ∧ c ≠ 0 ∧ Z.abs n = le_word (t ++ [c]) ∧
    serialize n = if c <? 128 then t ++ [if n <? 0 then c + 128 else c] else t ++ [c; if n <? 0 then 128 else 0].
Proof.
  intros Hn Hr. unfold serialize. destruct (Z.eqb_spec n 0) as [|_]; [done|].
  assert (Ha : (if n <? 0 then - n else n) = Z.abs n) by (destruct (Z.ltb_spec n 0); lia). rewrite Ha.
  destruct (push_bytes_spec 8 (Z.abs n)) as (B1 & B2 & B3); [change (256 ^ Z.of_nat 8) with (2 * 2 ^ 63); lia|].
  specialize (B3 ltac:(lia)). destruct (snoc_cases (push_bytes 8 (Z.abs n))) as [E|(t & c & E)].
  { rewrite E in B2. cbn in B2. lia. }
  rewrite E in *. rewrite back_snoc in *. exists t, c. split; [done|]. split; [done|]. split; [done|].
  apply Forall_app in B1 as [_ Hc%Forall_inv]. destruct (land_0x80 c Hc) as (-> & _ & Hor).
  destruct (Z.ltb_spec c 128) as [Hlt|Hge]; cbn [negb].
  - destruct (n <? 0); [|done]. rewrite length_app. cbn [length]. replace (length t + 1 - 1)%nat with (length t) by lia.
    by rewrite take_app_length, Hor.
  - rewrite <- (assoc_L app). by destruct (n <? 0).
Qed.

(** The test for minimal encodings, on the last two bytes. *)
Lemma CScriptNum_snoc t b k :
  byte b → Z.of_nat (length t) < k →
  CScriptNum (t ++ [b]) true k =
    if (b mod 128 =? 0) && ((Z.of_nat (length t) <=? 0) || (back t .& 0x80 =? 0)) then None else Some (set_vch (t ++ [b])).
Proof.
  intros Hb Hl. unfold CScriptNum. rewrite back_snoc. destruct (land_0x80 b Hb) as (_ & -> & _).
  assert (Hlen : Z.of_nat (length (t ++ [b])) = Z.of_nat (length t) + 1) by (rewrite length_app; cbn; lia). rewrite Hlen.
  destruct (Z.gtb_spec (Z.of_nat (length t) + 1) k); [lia|]. destruct (Z.gtb_spec (Z.of_nat (length t) + 1) 0); [|lia].
  cbn [andb]. replace (Z.of_nat (length t) + 1 <=? 1) with (Z.of_nat (length t) <=? 0)
    by (destruct (Z.leb_spec (Z.of_nat (length t)) 0), (Z.leb_spec (Z.of_nat (length t) + 1) 1); lia).
  destruct (snoc_cases t) as [->|(t' & c & ->)]; [done|].
  replace (nth (length ((t' ++ [c]) ++ [b]) - 2) ((t' ++ [c]) ++ [b]) 0) with (back (t' ++ [c])); [done|].
  rewrite back_snoc, <- (assoc_L app), !length_app. cbn [length app].
  replace (length t' + (1 + 1) - 2)%nat with (length t') by lia. by rewrite nth_middle.
Qed.

Lemma le_word_snoc t b : le_word (t ++ [b]) = le_word t + b * 2 ^ (8 * Z.of_nat (length t)).
Proof. rewrite le_word_app. cbn [le_word]. lia. Qed.

Lemma CScriptNum_serialize k n :
  1 <= k <= 8 → - 2 ^ (8 * k - 1) < n < 2 ^ (8 * k - 1) → CScriptNum (serialize n) true k = Some n ∧ Forall byte (serialize n).
Proof.
  intros Hk Hn. destruct (Z.eq_dec n 0) as [->|Hnz].
  { split; [|constructor]. change (serialize 0) with (@nil Z). unfold CScriptNum.
    destruct (Z.gtb_spec (Z.of_nat (length (@nil Z))) k); [cbn in *; lia | reflexivity]. }
  assert (H63 : 2 ^ (8 * k - 1) <= 2 ^ 63) by (apply Z.pow_le_mono_r; lia).
  destruct (serialize_spec n Hnz ltac:(lia)) as (t & c & Hb & Hc0 & Habs & ->).
  apply Forall_app in Hb as [Ht Hc%Forall_inv]. pose proof (byte_range _ Hc) as Hcr. rewrite le_word_snoc in Habs.
  set (P := 2 ^ (8 * Z.of_nat (length t))) in *. assert (HP : 0 < P) by (apply Z.pow_pos_nonneg; lia).
  assert (Hw : 0 <= le_word t < P) by (exact (le_word_bound t Ht)).
  destruct (Z.ltb_spec c 128) as [Hlt|Hge].
  - assert (Hl : Z.of_nat (length t) < k).
    { destruct (Z.lt_ge_cases (Z.of_nat (length t)) k) as [|Hge]; [done|].
      assert (2 ^ (8 * k - 1) <= P) by (apply Z.pow_le_mono_r; lia). nia. }
    assert (Hb' : byte (if n <? 0 then c + 128 else c)) by (apply range_byte; destruct (n <? 0); lia).
    split; [|apply Forall_app; split; [done | by constructor]].
    rewrite CScriptNum_snoc by done. rewrite set_vch_snoc by (apply Forall_app; split; [done | by constructor]).
    assert (Em : (if n <? 0 then c + 128 else c) mod 128 = c).
    { destruct (n <? 0); [|by apply Z.mod_small; lia]. symmetry. apply Z.mod_unique with 1; lia. }
    rewrite Em. destruct (Z.eqb_spec c 0); [done|]. cbn [andb]. f_equal. fold P.
    destruct (Z.ltb_spec n 0); [destruct (Z.ltb_spec (c + 128) 128) | destruct (Z.ltb_spec c 128)]; lia.
  - assert (Hl : Z.of_nat (length (t ++ [c])) < k).
    { rewrite length_app. cbn [length]. destruct (Z.lt_ge_cases (Z.of_nat (length t + 1)) k) as [|Hgk]; [done|].
      assert (E : 2 ^ (8 * Z.of_nat (length t) + 7) = P * 128) by (rewrite Z.pow_add_r by lia; done).
      assert (2 ^ (8 * k - 1) <= 2 ^ (8 * Z.of_nat (length t) + 7)) by (apply Z.pow_le_mono_r; lia). nia. }
    assert (Hs : byte (if n <? 0 then 128 else 0)) by (apply range_byte; destruct (n <? 0); lia).
    change (t ++ [c; if n <? 0 then 128 else 0]) with (t ++ [c] ++ [if n <? 0 then 128 else 0]). rewrite (assoc_L app).
    assert (Hall : Forall byte ((t ++ [c]) ++ [if n <? 0 then 128 else 0])).
    { rewrite !Forall_app. split; [split; [done | by constructor] | by constructor]. }
    split; [|exact Hall]. rewrite CScriptNum_snoc by done. rewrite set_vch_snoc by done. rewrite back_snoc.
    destruct (land_0x80 c Hc) as (-> & _). destruct (Z.ltb_spec c 128); [lia|].
    destruct (Z.leb_spec (Z.of_nat (length (t ++ [c]))) 0); [rewrite length_app in *; cbn in *; lia|].
    cbn [orb]. rewrite andb_false_r. f_equal. rewrite le_word_snoc. fold P.
    destruct (Z.ltb_spec n 0); [change (128 <? 128) with false; change (128 mod 128) with 0 | change (0 <? 128) with true; change (0 mod 128) with 0]; lia.
Qed.

(** A minimal encoding is the one of its value. *)
Lemma CScriptNum_Some k vch n :
  1 <= k <= 8 → Forall byte vch → CScriptNum vch true k = Some n →
  - 2 ^ (8 * k - 1) < n < 2 ^ (8 * k - 1) ∧ vch = serialize n.
Proof.
  intros Hk Hv E. destruct (snoc_cases vch) as [->|(t & b & ->)].
  { unfold CScriptNum in E. destruct (Z.gtb_spec (Z.of_nat (length (@nil Z))) k); [cbn in *; lia|]. injection E as <-.
    split; [|done]. assert (0 < 2 ^ (8 * k - 1)) by (apply Z.pow_pos_nonneg; lia). cbn. lia. }
  assert (Hlk : Z.of_nat (length t) < k).
  { unfold CScriptNum in E. rewrite length_app in E. cbn [length] in E.
    destruct (Z.gtb_spec (Z.of_nat (length t + 1)) k); [done | lia]. }
  pose proof Hv as Hv'. apply Forall_app in Hv' as [Ht Hb%Forall_inv]. pose proof (byte_range _ Hb) as Hbr.
  rewrite CScriptNum_snoc in E by done. rewrite set_vch_snoc in E by done.
  set (P := 2 ^ (8 * Z.of_nat (length t))) in *. assert (HP : 0 < P) by (apply Z.pow_pos_nonneg; lia).
  assert (Hw : 0 <= le_word t < P) by (exact (le_word_bound t Ht)).
  pose proof (Z.mod_pos_bound b 128 ltac:(lia)) as Hm. set (m := le_word t + b mod 128 * P) in *.
  assert (Hmk : 0 <= m < 2 ^ (8 * k - 1)).
  { assert (E7 : 2 ^ (8 * Z.of_nat (length t) + 7) = P * 128) by (rewrite Z.pow_add_r by lia; done).
    assert (2 ^ (8 * Z.of_nat (length t) + 7) <= 2 ^ (8 * k - 1)) by (apply Z.pow_le_mono_r; lia). unfold m. nia. }
  destruct (Z.eqb_spec (b mod 128) 0) as [Hz|Hnz]; cbn [andb] in E.
  - destruct (Z.leb_spec (Z.of_nat (length t)) 0); [done|]. cbn [orb] in E.
    destruct (snoc_cases t) as [->|(t' & c & ->)]; [cbn in *; lia|]. rewrite back_snoc in E.
    apply Forall_app in Ht as [Ht' Hc%Forall_inv]. destruct (land_0x80 c Hc) as (Ec & _). rewrite Ec in E.
    destruct (Z.ltb_spec c 128); [done|]. injection E as <-.
    assert (Hmeq : m = le_word (t' ++ [c])) by (unfold m; rewrite Hz; lia).
    assert (Hpos : 0 < m). { rewrite Hmeq, le_word_snoc. pose proof (le_word_bound t' Ht') as [? _].
      assert (0 < 2 ^ (8 * Z.of_nat (length t'))) by (apply Z.pow_pos_nonneg; lia). nia. }
    assert (Hb2 : b = 0 ∨ b = 128) by (pose proof (Z.div_mod b 128 ltac:(lia)); assert (0 <= b / 128 < 2) by (split; [apply Z.div_pos; lia | apply Z.div_lt_upper_bound; lia]); lia).
    set (n := (if b <? 128 then 1 else -1) * m). assert (Hsg : (n <? 0) = (b =? 128) ∧ Z.abs n = m ∧ n ≠ 0).
    { unfold n. destruct Hb2 as [-> | ->]; cbn; destruct m; try lia; done. }
    destruct Hsg as (Hsg & Habs & Hn0). split; [lia|]. unfold serialize. destruct (Z.eqb_spec n 0); [done|].
    replace (if n <? 0 then - n else n) with m by (destruct (Z.ltb_spec n 0); lia).
    rewrite Hmeq, push_bytes_le_word; [| |rewrite length_app in *; cbn in *; lia | intros _; rewrite back_snoc; lia].
    + rewrite back_snoc, Ec. destruct (Z.ltb_spec c 128); [lia|]. cbn [negb]. rewrite Hsg. by destruct Hb2 as [-> | ->].
    + apply Forall_app. split; [done | by constructor].
  - injection E as <-. set (n := (if b <? 128 then 1 else -1) * m).
    assert (Hpos : 0 < m) by (unfold m; nia). assert (Hsg : (n <? 0) = negb (b <? 128) ∧ Z.abs n = m ∧ n ≠ 0).
    { unfold n. destruct (b <? 128); cbn; destruct m; try lia; done. }
    destruct Hsg as (Hsg & Habs & Hn0). split; [lia|]. unfold serialize. destruct (Z.eqb_spec n 0); [done|].
    replace (if n <? 0 then - n else n) with m by (destruct (Z.ltb_spec n 0); lia).
    replace m with (le_word (t ++ [b mod 128])) by (rewrite le_word_snoc; done).
    assert (Hc : byte (b mod 128)) by (apply range_byte; lia).
    rewrite push_bytes_le_word; [| |rewrite length_app; cbn; lia | intros _; rewrite back_snoc; lia].
    + rewrite back_snoc. destruct (land_0x80 _ Hc) as (-> & _ & Hor). destruct (Z.ltb_spec (b mod 128) 128); [|lia].
      cbn [negb]. rewrite Hsg. destruct (Z.ltb_spec b 128); cbn [negb]; [by rewrite Z.mod_small by lia|].
      rewrite length_app. cbn [length]. replace (length t + 1 - 1)%nat with (length t) by lia.
      rewrite take_app_length, Hor by lia. do 2 f_equal. pose proof (Z.div_mod b 128 ltac:(lia)).
      assert (1 = b / 128) by (apply Z.div_unique with (b - 128); lia). lia.
    + apply Forall_app. split; [done | by constructor].
Qed.

(** ** Reading *)

(** The iterator moves forward, whether or not there is an opcode. *)
Lemma push_of_suffix op n pc : ∃ h, pc = h ++ (push_of op n pc).2.
Proof. unfold push_of. case_match; [by exists [] | eexists; symmetry; apply take_drop]. Qed.

Lemma GetOp_suffix pc : pc ≠ [] → ∃ b h, pc = b :: h ++ (GetOp pc).2.
Proof.
  destruct pc as [|b pc]; [done|]. intros _. exists b. cbn [GetOp]. cut (∃ h, pc = h ++ (GetOp (b :: pc)).2).
  { intros [h E]. exists h. f_equal. exact E. }
  cbn [GetOp]. destruct (b <=? OP_PUSHDATA4); [|by exists []]. destruct (b <? OP_PUSHDATA1); [apply push_of_suffix|].
  assert (Hk : ∀ k, ∃ h, pc = h ++ (push_of b (le_word (take k pc)) (drop k pc)).2).
  { intros k. destruct (push_of_suffix b (le_word (take k pc)) (drop k pc)) as [h E]. exists (take k pc ++ h).
    by rewrite <- (assoc_L app), <- E, take_drop. }
  destruct (b =? OP_PUSHDATA1); [|destruct (b =? OP_PUSHDATA2); case_match; first [by exists [] | apply Hk]].
  destruct pc as [|x pc]; [by exists []|]. destruct (push_of_suffix b x pc) as [h E]. exists (x :: h). cbn. by f_equal.
Qed.

Lemma GetOp_shorter pc : pc ≠ [] → (length (GetOp pc).2 < length pc)%nat.
Proof. intros Hn. destruct (GetOp_suffix pc Hn) as (b & h & E). rewrite E at 2. cbn. rewrite length_app. lia. Qed.

(** What [operator<<] writes is read back. *)
Lemma push_of_app op b s : push_of op (Z.of_nat (length b)) (b ++ s) = (Some (op, b), s).
Proof.
  unfold push_of. rewrite length_app. destruct (Z.ltb_spec (Z.of_nat (length b + length s)) (Z.of_nat (length b))); [lia|].
  rewrite Nat2Z.id. by rewrite take_app_length, drop_app_length.
Qed.

Lemma GetOp_push b s :
  Z.of_nat (length b) < 2 ^ 32 → ∃ op, 0 <= op <= OP_PUSHDATA4 ∧ GetOp (push_data b ++ s) = (Some (op, b), s).
Proof.
  intros Hb. unfold push_data. set (n := Z.of_nat (length b)) in *. assert (Hn : 0 <= n) by lia.
  assert (Hle : ∀ k, n < 2 ^ (8 * Z.of_nat k) → le_word (take k (le_bytes k n ++ b ++ s)) = n ∧ drop k (le_bytes k n ++ b ++ s) = b ++ s ∧
    Z.of_nat k <= Z.of_nat (length (le_bytes k n ++ b ++ s))).
  { intros k Hk. rewrite take_app_length' , drop_app_length', le_word_le_bytes, Z.mod_small, length_app, length_le_bytes
      by (rewrite ?length_le_bytes; done || lia). split; [done|]. split; [done | lia]. }
  unfold OP_PUSHDATA1. destruct (Z.ltb_spec n 0x4c) as [H1|H1]; [|destruct (Z.leb_spec n 0xff) as [H2|H2]; [|destruct (Z.leb_spec n 0xffff) as [H3|H3]]];
    rewrite <- (assoc_L app); cbn [app].
  - exists n. split; [unfold OP_PUSHDATA4; lia|]. cbn [GetOp]. unfold OP_PUSHDATA4, OP_PUSHDATA1.
    destruct (Z.leb_spec n 0x4e); [|lia]. destruct (Z.ltb_spec n 0x4c); [|lia]. apply push_of_app.
  - exists 0x4c. split; [done|]. apply push_of_app.
  - exists OP_PUSHDATA2. split; [done|]. destruct (Hle 2%nat) as (E1 & E2 & E3); [change (2 ^ (8 * Z.of_nat 2)) with 65536; lia|].
    cbn [GetOp]. change (OP_PUSHDATA2 <=? OP_PUSHDATA4) with true. change (OP_PUSHDATA2 <? OP_PUSHDATA1) with false.
    change (OP_PUSHDATA2 =? OP_PUSHDATA1) with false. change (OP_PUSHDATA2 =? OP_PUSHDATA2) with true. cbv iota.
    destruct (Z.ltb_spec (Z.of_nat (length (le_bytes 2 n ++ b ++ s))) 2); [lia|]. rewrite E1, E2. apply push_of_app.
  - exists OP_PUSHDATA4. split; [done|]. destruct (Hle 4%nat) as (E1 & E2 & E3); [exact Hb|].
    cbn [GetOp]. change (OP_PUSHDATA4 <=? OP_PUSHDATA4) with true. change (OP_PUSHDATA4 <? OP_PUSHDATA1) with false.
    change (OP_PUSHDATA4 =? OP_PUSHDATA1) with false. change (OP_PUSHDATA4 =? OP_PUSHDATA2) with false. cbv iota.
    destruct (Z.ltb_spec (Z.of_nat (length (le_bytes 4 n ++ b ++ s))) 4); [lia|]. rewrite E1, E2. apply push_of_app.
Qed.

(** ** [FindAndDelete] *)

(** Deleting the copies of [b] that start where an opcode does: what is left, and how
    many there were. *)
Inductive deleted (b : CScript) : CScript → CScript → Z → Prop :=
| deleted_copy s r k : deleted b s r k → deleted b (b ++ s) r (k + 1)
| deleted_keep s h s' op r k :
    take (length b) s ≠ b → GetOp s = (Some op, s') → s = h ++ s' → deleted b s' r k → deleted b s (h ++ r) k
| deleted_end s : take (length b) s ≠ b → (GetOp s).1 = None → deleted b s s 0.

Lemma skip_copies_spec b fuel : b ≠ [] → ∀ pc n,
  (length pc < fuel)%nat →
  ∃ pc' j, skip_copies fuel b pc n = Some (pc', n + j) ∧ (length pc' <= length pc)%nat ∧ take (length b) pc' ≠ b ∧
    ∀ r k, deleted b pc' r k → deleted b pc r (j + k).
Proof.
  intros Hb. induction fuel as [|fuel IH]; intros pc n Hf; [lia|]. cbn [skip_copies]. case_bool_decide as Ht.
  - assert (E : pc = b ++ drop (length b) pc) by (rewrite <- Ht at 1; by rewrite take_drop).
    assert (Hl : (length (drop (length b) pc) < length pc)%nat).
    { rewrite length_drop. destruct b; [done|]. destruct pc; [by rewrite take_nil in Ht|]. cbn. lia. }
    destruct (IH (drop (length b) pc) (n + 1)) as (pc' & j & -> & Hl' & Hn & Hd); [lia|].
    exists pc', (j + 1). split; [do 2 f_equal; lia|]. split; [lia|]. split; [done|]. intros r k Hr.
    rewrite E. replace (j + 1 + k) with (j + k + 1) by lia. constructor. by apply Hd.
  - exists pc, 0. rewrite Z.add_0_r. split; [done|]. split; [lia|]. split; [done|]. intros r k Hr. by rewrite Z.add_0_l.
Qed.

Lemma delete_loop_spec b fuel : b ≠ [] → ∀ pc h result n,
  (length pc < fuel)%nat →
  ∃ r k, deleted b pc r k ∧ 0 <= k ∧ delete_loop fuel b pc (h ++ pc) result n = Some (result ++ h ++ r, n + k).
Proof.
  intros Hb. induction fuel as [|fuel IH]; intros pc h result n Hf; [lia|]. cbn [delete_loop].
  rewrite length_app. replace (length h + length pc - length pc)%nat with (length h) by lia. rewrite take_app_length.
  assert (H0 : ∀ pc n pc' m, skip_copies (S (length pc)) b pc n = Some (pc', m) → n <= m).
  { clear. intros pc. generalize (S (length pc)) as fuel. intros fuel. revert pc. induction fuel as [|fuel IH]; intros pc n pc' m; [done|].
    cbn [skip_copies]. case_bool_decide; [intros E; apply IH in E; lia | intros [= <- <-]; lia]. }
  destruct (skip_copies_spec b (S (length pc)) Hb pc n) as (pc' & j & E & Hl & Hn & Hd); [lia|].
  rewrite E. apply H0 in E. cbn [mbind option_bind].
  destruct (GetOp pc') as [[op|] pc''] eqn:Eg.
  - assert (Hne : pc' ≠ []) by (intros ->; done). destruct (GetOp_suffix pc' Hne) as (x & h' & Eh). rewrite Eg in Eh. cbn [snd] in Eh.
    destruct (IH pc'' (x :: h') (result ++ h) (n + j)) as (r & k & Hr & Hk & Er).
    { rewrite Eh in Hl. cbn in Hl. rewrite length_app in Hl. lia. }
    exists ((x :: h') ++ r), (j + k). split; [apply Hd; by eapply deleted_keep|]. split; [lia|].
    change (x :: h' ++ pc'') with ((x :: h') ++ pc'') in Eh. rewrite <- Eh in Er. rewrite Er. rewrite <- (assoc_L app). do 2 f_equal. lia.
  - exists pc', (j + 0). split; [apply Hd; constructor; [done | by rewrite Eg]|]. split; [lia|].
    rewrite <- (assoc_L app). do 2 f_equal. lia.
Qed.

Lemma deleted_none b s r k : deleted b s r k → 0 <= k ∧ (k = 0 → r = s).
Proof.
  induction 1 as [s r k _ [IH _]|s h s' op r k _ _ -> _ [IH1 IH2]|s _ _]; [split; lia | split; [done|]; intros Hk; f_equal; auto | done].
Qed.

(** ** Signature operations *)

Lemma sigop_loop_bounds fuel : ∀ pc l n m,
  n <= m → (length pc < fuel)%nat →
  sigop_loop fuel true pc l n <= sigop_loop fuel false pc l m ∧
  n <= sigop_loop fuel true pc l n ∧ sigop_loop fuel false pc l m <= m + 20 * Z.of_nat (length pc).
Proof.
  induction fuel as [|fuel IH]; intros pc l n m Hnm Hf; [lia|]. cbn [sigop_loop].
  destruct pc as [|x pc]; [split; [done|]; split; lia|]. pose proof (GetOp_shorter (x :: pc) ltac:(done)) as Hs.
  destruct (GetOp (x :: pc)) as [[[op d]|] pc'] eqn:Eg; cbn [snd] in Hs; [|split; [done|]; split; lia].
  assert (Hd : ∀ l, (l >=? OP_1) && (l <=? OP_16) = true → 0 <= default 0 (DecodeOP_N l) <= 20).
  { intros l' H. unfold DecodeOP_N. destruct (l' =? OP_0); [cbn; lia|]. rewrite H. cbn. unfold OP_1, OP_16 in *. lia. }
  specialize (Hd l). cbn [andb].
  destruct ((op =? OP_CHECKSIG) || _); [destruct (IH pc' op (n + 1) (m + 1) ltac:(lia) ltac:(lia)) as (? & ? & ?); split; [done | lia]|].
  destruct ((op =? OP_CHECKMULTISIG) || _); [|destruct (IH pc' op n m ltac:(lia) ltac:(lia)) as (? & ? & ?); split; [done | lia]].
  destruct ((l >=? OP_1) && (l <=? OP_16)).
  - specialize (Hd eq_refl). destruct (IH pc' op (n + default 0 (DecodeOP_N l)) (m + 20) ltac:(lia) ltac:(lia)) as (? & ? & ?); split; [done | lia].
  - destruct (IH pc' op (n + 20) (m + 20) ltac:(lia) ltac:(lia)) as (? & ? & ?); split; [done | lia].
Qed.

(** ** Theorems *)

(** With the demand for minimal encodings, the byte vectors of at most [k] bytes that
    are accepted as numbers are exactly the encodings of the numbers of magnitude below
    2^(8k-1): every number has one, and only one. *)
Theorem CScriptNum_bijection k vch n :
  1 <= k <= 8 → Forall byte vch →
  (CScriptNum vch true k = Some n ↔ - 2 ^ (8 * k - 1) < n < 2 ^ (8 * k - 1) ∧ vch = serialize n).
Proof.
  intros Hk Hv. split; [intros E; by apply CScriptNum_Some|]. intros [Hn ->]. by apply CScriptNum_serialize.
Qed.

(** The data written by [operator<<] is read back by [GetOp] as one push. *)
Theorem push_data_roundtrip b s :
  Z.of_nat (length b) < 2 ^ 32 → ∃ op, 0 <= op <= OP_PUSHDATA4 ∧ GetOp (push_data b ++ s) = (Some (op, b), s).
Proof. apply GetOp_push. Qed.

(** [FindAndDelete] terminates and removes exactly the copies that start at an opcode. *)
Theorem FindAndDelete_correct script b :
  b ≠ [] → ∃ r k, FindAndDelete script b = Some (r, k) ∧ deleted b script r k.
Proof.
  intros Hb. destruct (delete_loop_spec b (S (length script)) Hb script [] [] 0) as (r & k & Hr & Hk & E); [lia|].
  exists r, k. split; [|done]. unfold FindAndDelete. destruct b as [|x b]; [done|]. cbn [app] in E. rewrite E. cbn [mbind option_bind].
  rewrite Z.add_0_l. destruct (Z.gtb_spec k 0) as [|Hk0]; [done|]. replace k with 0 in * by lia.
  by rewrite (proj2 (deleted_none _ _ _ _ Hr) eq_refl).
Qed.

(** The count of signature operations does not overflow on any script of less than
    2^27 bytes, and the accurate count is at most the other one. *)
Theorem GetSigOpCount_bounds script :
  0 <= GetSigOpCount true script <= GetSigOpCount false script ∧
  GetSigOpCount false script <= 20 * Z.of_nat (length script).
Proof.
  unfold GetSigOpCount. destruct (sigop_loop_bounds (S (length script)) script OP_INVALIDOPCODE 0 0) as (H1 & H2 & H3); lia.
Qed.

(** ** Examples *)

Example serialize_examples :
  map serialize [0; 1; -1; 127; 128; 255; -255; 256; -2147483648] =
  [[]; [1]; [0x81]; [0x7f]; [0x80; 0]; [0xff; 0]; [0xff; 0x80]; [0; 1]; [0; 0; 0; 0x80; 0x80]].
Proof. reflexivity. Qed.

Lemma CScriptNum_bijection_witness : - 2 ^ 31 < -255 < 2 ^ 31 ∧ [0xff; 0x80] = serialize (-255).
Proof.
  apply (CScriptNum_bijection 4 [0xff; 0x80] (-255)); [lia | | reflexivity].
  repeat (apply Forall_cons; split); [by split.. | done].
Defined.

Lemma push_data_roundtrip_witness :
  ∃ op, 0 <= op <= OP_PUSHDATA4 ∧ GetOp (push_data (repeat 7 80) ++ [OP_DUP]) = (Some (op, repeat 7 80), [OP_DUP]).
Proof. apply (push_data_roundtrip (repeat 7 80) [OP_DUP]). reflexivity. Defined.

(** A copy inside the data of a push is kept. *)
Lemma FindAndDelete_correct_witness :
  ∃ r k, FindAndDelete [2; 1; 7; 1; 7; OP_DUP; 1; 7] [1; 7] = Some (r, k) ∧ deleted [1; 7] [2; 1; 7; 1; 7; OP_DUP; 1; 7] r k ∧
    r = [2; 1; 7; OP_DUP] ∧ k = 2.
Proof.
  destruct (FindAndDelete_correct [2; 1; 7; 1; 7; OP_DUP; 1; 7] [1; 7] ltac:(discriminate)) as (r & k & E & Hd).
  exists r, k. split; [exact E|]. split; [exact Hd|]. vm_compute in E. injection E as <- <-. split; reflexivity.
Defined.

End Script.
