(* ===== verification/Tx.v ===== *)
(** * src/primitives/transaction.{h,cpp}, src/consensus/{tx_verify.cpp,validation.h}: transactions

    The data of a transaction with the fields that are kept in memory only, its wire
    format, the sums over its outputs, and the checks that need no context.  An
    exception, a failed assertion and the undefined overflow of a signed sum are
    [None]. *)

From stdpp Require Import base option gmap list.
From Stdlib Require Import ZArith Lia.
From Stdlib Require String.
Import (notations) String.
From S2P Require Import Prelude Serialize Script Sha256 Consensus.
Import Serialize Consensus.
Open Scope Z_scope.

Module Tx.

Abbreviation string := String.string.

(** ** Data *)

(** Hash and index of an output. *)
Abbreviation uint256 := (list Z).
Abbreviation CScript := Script.CScript.
Abbreviation COutPoint := (uint256 * Z)%type.

Definition UINT256_ZERO : uint256 := replicate 32 0.
Definition UINT32_MAX : Z := 0xffffffff.

(** [COutPoint()] and [SetNull]. *)
Definition null_outpoint : COutPoint := (UINT256_ZERO, UINT32_MAX).
Definition outpoint_IsNull (o : COutPoint) : bool := bool_decide (o.1 = UINT256_ZERO) && (o.2 =? UINT32_MAX).

Record CTxIn : Type := mkTxIn { prevout : COutPoint; scriptSig : CScript; nSequence : Z; prevPubKey : CScript }.

Definition txin_IsFinal (txin : CTxIn) : bool := nSequence txin =? UINT32_MAX.

Record CTxOut : Type := mkTxOut { nValue : Z; scriptPubKey : CScript; nRounds : Z }.

(** [CTxOut(nValueIn, scriptPubKeyIn)]. *)
Definition TxOut (v : Z) (s : CScript) : CTxOut := mkTxOut v s (-10).

Definition SetNull : CTxOut := mkTxOut (-1) [] (-10).
Definition IsNull (out : CTxOut) : bool := nValue out =? -1.
Definition SetEmpty (out : CTxOut) : CTxOut := mkTxOut 0 [] (nRounds out).
Definition IsEmpty (out : CTxOut) : bool := (nValue out =? 0) && bool_decide (scriptPubKey out = []).

#[export] Instance CTxIn_eq_dec : EqDecision CTxIn.
Proof. solve_decision. Defined.
#[export] Instance CTxOut_eq_dec : EqDecision CTxOut.
Proof. solve_decision. Defined.

(** The hash is kept in memory. *)
Record CTransaction : Type := mkTx { hash : uint256; nVersion : Z; vin : list CTxIn; vout : list CTxOut; nLockTime : Z }.

(** ** Wire format *)

Definition COutPoint_format : format COutPoint := pair_format (flat 32) u32.

Definition CTxIn_format : format CTxIn :=
  object (λ i, (prevout i, (scriptSig i, nSequence i))) (λ '(p, (s, n)), mkTxIn p s n [])
    (pair_format COutPoint_format (pair_format bytes u32)).

Definition CTxOut_format : format CTxOut :=
  object (λ o, (nValue o, scriptPubKey o)) (λ '(v, s), mkTxOut v s (-10)) (pair_format i64 bytes).

(** [sizeof] on a 64-bit target, which only sets the size of the blocks a vector is
    read in. *)
Definition sizeof_CTxIn : Z := 104.
Definition sizeof_CTxOut : Z := 48.

Definition CTransaction_fields : format (Z * (list CTxIn * (list CTxOut * Z))) :=
  pair_format i32 (pair_format (vector CTxIn_format sizeof_CTxIn) (pair_format (vector CTxOut_format sizeof_CTxOut) u32)).

Definition fields (tx : CTransaction) : Z * (list CTxIn * (list CTxOut * Z)) := (nVersion tx, (vin tx, (vout tx, nLockTime tx))).

(** [UpdateHash]: the double hash of the serialization; the initial contents of the
    hasher's buffer do not matter. *)
Definition UpdateHash (f : Z * (list CTxIn * (list CTxOut * Z))) : uint256 :=
  default [] (Sha256.Hash (replicate 64 0) [Serialize CTransaction_fields f]).

Definition CTransaction_format : format CTransaction :=
  object fields (λ f, mkTx (UpdateHash f) f.1 f.2.1 f.2.2.1 f.2.2.2) CTransaction_fields.

Definition GetHash (tx : CTransaction) : uint256 := hash tx.

(** ** Coinbase and coinstake, sums *)

Definition IsCoinBase (tx : CTransaction) : bool :=
  match vin tx with [i] => outpoint_IsNull (prevout i) | _ => false end.

Definition IsCoinStake (tx : CTransaction) : bool :=
  match vin tx with
  | [] => false
  | i :: _ =>
      if outpoint_IsNull (prevout i) then false
      else match vout tx with o :: _ :: _ => IsEmpty o | _ => false end
  end.

(** The sum of two [int64_t] as the machine computes it. *)
Definition wrap64 (x : Z) : Z := signed 64 (x mod 2 ^ 64).

Fixpoint value_out (vout : list CTxOut) (nValueOut : Z) : option Z :=
  match vout with
  | [] => Some nValueOut
  | it :: vout =>
      if nValue it <? 0 then None
      else if wrap64 (nValueOut + nValue it) <? nValueOut then None
      else value_out vout (wrap64 (nValueOut + nValue it))
  end.
Definition GetValueOut (tx : CTransaction) : option Z := value_out (vout tx) 0.

Definition GetUnspendableValueOut (tx : CTransaction) : Z :=
  fold_left (λ n it, if Script.IsUnspendable (scriptPubKey it) then wrap64 (n + nValue it) else n) (vout tx) 0.

(** [CalculateModifiedSize]; a size of 0 asks for the size of the serialization. *)
Definition CalculateModifiedSize (tx : CTransaction) (nTxSize : Z) : Z :=
  let nTxSize := if nTxSize =? 0 then GetSerializeSize CTransaction_format tx else nTxSize in
  fold_left (λ n it, let offset := 41 + Z.min 110 (Z.of_nat (length (scriptSig it))) in
                     if n >? offset then n - offset else n) (vin tx) nTxSize.

Definition GetTotalSize (tx : CTransaction) : Z := GetSerializeSize CTransaction_format tx.

(** ** The state of a validation *)

Inductive mode_state : Type := MODE_VALID | MODE_INVALID | MODE_ERROR.

Record CValidationState : Type := mkState {
  mode : mode_state; nDoS : Z; strRejectReason : string; chRejectCode : Z; corruptionPossible : bool; strDebugMessage : string
}.

Definition CValidationState_init : CValidationState := mkState MODE_VALID 0 String.EmptyString 0 false String.EmptyString.

Definition DoS (level : Z) (ret : bool) (code : Z) (reason : string) (corruption : bool) (debug : string)
    (state : CValidationState) : bool * CValidationState :=
  match mode state with
  | MODE_ERROR => (ret, mkState MODE_ERROR (nDoS state) reason code corruption debug)
  | _ => (ret, mkState MODE_INVALID (nDoS state + level) reason code corruption debug)
  end.

Definition Invalid (ret : bool) (code : Z) (reason debug : string) (state : CValidationState) : bool * CValidationState :=
  DoS 0 ret code reason false debug state.

Definition Error (reason : string) (state : CValidationState) : bool * CValidationState :=
  (false, mkState MODE_ERROR (nDoS state)
    (match mode state with MODE_VALID => reason | _ => strRejectReason state end)
    (chRejectCode state) (corruptionPossible state) (strDebugMessage state)).

Definition IsValid (state : CValidationState) : bool := match mode state with MODE_VALID => true | _ => false end.

Definition REJECT_INVALID : Z := 0x10.

(** [return state.DoS(level, false, REJECT_INVALID, reason)]. *)
Definition reject (level : Z) (reason : string) (state : CValidationState) : bool * CValidationState :=
  DoS level false REJECT_INVALID reason false String.EmptyString state.

(** ** Checks without context *)

Definition MAX_STANDARD_TX_SIZE : Z := 150000.
Definition LOCKTIME_THRESHOLD : Z := 500000000.

(** [nBlockHeight] and [nBlockTime] are replaced by those of the tip and the clock
    when they are 0. *)
Definition IsFinalTx (tx : CTransaction) (nBlockHeight nBlockTime tipHeight adjustedTime : Z) : bool :=
  if nLockTime tx =? 0 then true
  else
    let nBlockHeight := if nBlockHeight =? 0 then tipHeight else nBlockHeight in
    let nBlockTime := if nBlockTime =? 0 then adjustedTime else nBlockTime in
    if nLockTime tx <? (if nLockTime tx <? LOCKTIME_THRESHOLD then nBlockHeight else nBlockTime) then true
    else forallb txin_IsFinal (vin tx).

Section Check.
Variable consensus : Params.

(** The loop over the outputs; the rest of the function is [k]. *)
Fixpoint check_outputs (tx : CTransaction) (outs : list CTxOut) (nValueOut : Z)
    (k : CValidationState → bool * CValidationState) (state : CValidationState) : bool * CValidationState :=
  match outs with
  | [] => k state
  | txout :: outs =>
      if IsEmpty txout && negb (IsCoinBase tx) && negb (IsCoinStake tx) then reject 100 "bad-txns-vout-empty"%string state
      else if nValue txout <? 0 then reject 100 "bad-txns-vout-negative"%string state
      else if nValue txout >? nMaxMoneyOut consensus then reject 100 "bad-txns-vout-toolarge"%string state
      else if negb (MoneyRange consensus (nValueOut + nValue txout)) then reject 100 "bad-txns-txouttotal-toolarge"%string state
      else check_outputs tx outs (nValueOut + nValue txout) k state
  end.

(** The loop over the inputs, with the set of the outpoints seen. *)
Fixpoint check_duplicates (ins : list CTxIn) (vInOutPoints : gset COutPoint)
    (k : CValidationState → bool * CValidationState) (state : CValidationState) : bool * CValidationState :=
  match ins with
  | [] => k state
  | txin :: ins =>
      if bool_decide (prevout txin ∈ vInOutPoints) then reject 100 "bad-txns-inputs-duplicate"%string state
      else check_duplicates ins ({[prevout txin]} ∪ vInOutPoints) k state
  end.

Definition CheckTransaction (tx : CTransaction) (state : CValidationState) : bool * CValidationState :=
  if bool_decide (vin tx = []) then reject 10 "bad-txns-vin-empty"%string state
  else if bool_decide (vout tx = []) then reject 10 "bad-txns-vout-empty"%string state
  else if GetSerializeSize CTransaction_format tx >? MAX_STANDARD_TX_SIZE then reject 100 "bad-txns-oversize"%string state
  else
    check_outputs tx (vout tx) 0 (λ state,
    check_duplicates (vin tx) ∅ (λ state,
      if IsCoinBase tx then
        let len := Z.of_nat (length (match vin tx with i :: _ => scriptSig i | [] => [] end)) in
        if (len <? 2) || (len >? 150) then reject 100 "bad-cb-length"%string state else (true, state)
      else if existsb (λ txin, outpoint_IsNull (prevout txin)) (vin tx)
           then reject 10 "bad-txns-prevout-null"%string state else (true, state)) state) state.
End Check.

(** ** The wire format *)

#[export] Instance COutPoint_lawful : Lawful COutPoint_format.
Proof. unfold COutPoint_format. apply _. Qed.
#[export] Instance COutPoint_canonical : Canonical COutPoint_format.
Proof. unfold COutPoint_format. apply _. Qed.
#[export] Instance CTxIn_lawful : Lawful CTxIn_format.
Proof. unfold CTxIn_format. apply _. Qed.
#[export] Instance CTxIn_canonical : Canonical CTxIn_format.
Proof. unfold CTxIn_format. apply object_canonical; [by intros [? [? ?]] | apply _]. Qed.
#[export] Instance CTxOut_lawful : Lawful CTxOut_format.
Proof. unfold CTxOut_format. apply _. Qed.
#[export] Instance CTxOut_canonical : Canonical CTxOut_format.
Proof. unfold CTxOut_format. apply object_canonical; [by intros [? ?] | apply _]. Qed.
#[export] Instance CTransaction_fields_lawful : Lawful CTransaction_fields.
Proof. unfold CTransaction_fields, sizeof_CTxIn, sizeof_CTxOut. apply _. Qed.
#[export] Instance CTransaction_fields_canonical : Canonical CTransaction_fields.
Proof. unfold CTransaction_fields, sizeof_CTxIn, sizeof_CTxOut. apply _. Qed.
#[export] Instance CTransaction_lawful : Lawful CTransaction_format.
Proof. unfold CTransaction_format. apply _. Qed.
#[export] Instance CTransaction_canonical : Canonical CTransaction_format.
Proof. unfold CTransaction_format. apply object_canonical; [by intros [? [? [? ?]]] | apply _]. Qed.

(** ** Sums *)

Definition sum_values (outs : list CTxOut) : Z := foldr (λ o n, nValue o + n) 0 outs.

Lemma sum_values_app a b : sum_values (a ++ b) = sum_values a + sum_values b.
Proof. unfold sum_values. induction a as [|o a IH]; [done|]. cbn. rewrite IH. lia. Qed.

Lemma sum_values_nonneg outs : Forall (λ o, 0 <= nValue o) outs → 0 <= sum_values outs.
Proof. unfold sum_values. induction 1; cbn; lia. Qed.

Lemma wrap64_small x : - 2 ^ 63 <= x < 2 ^ 63 → wrap64 x = x.
Proof. intros Hx. unfold wrap64. apply signed_mod; [lia | exact Hx]. Qed.

(** The sum of two values that are not negative is smaller than the first exactly
    when it leaves the range. *)
Lemma wrap64_overflow a b : 0 <= a < 2 ^ 63 → 0 <= b < 2 ^ 63 → wrap64 (a + b) < a ↔ 2 ^ 63 <= a + b.
Proof.
  intros Ha Hb. destruct (Z.lt_ge_cases (a + b) (2 ^ 63)) as [Hlt|Hge].
  - rewrite wrap64_small by lia. lia.
  - unfold wrap64, signed. rewrite Z.mod_small by lia. destruct (Z.ltb_spec (a + b) (2 ^ (64 - 1))); cbn in *; lia.
Qed.

Lemma value_out_spec outs n :
  Forall (λ o, - 2 ^ 63 <= nValue o < 2 ^ 63) outs → 0 <= n < 2 ^ 63 →
  value_out outs n =
    if decide (Forall (λ o, 0 <= nValue o) outs ∧ n + sum_values outs < 2 ^ 63) then Some (n + sum_values outs) else None.
Proof.
  intros Ho. revert n. induction Ho as [|o outs Hv Ho IH]; intros n Hn; cbn [value_out].
  { rewrite decide_True by (split; [constructor | cbn; lia]). cbn. f_equal. lia. }
  change (sum_values (o :: outs)) with (nValue o + sum_values outs).
  destruct (Z.ltb_spec (nValue o) 0) as [Hneg|Hpos].
  { rewrite decide_False; [done|]. intros [Hf _]. inversion Hf. lia. }
  destruct (wrap64_overflow n (nValue o) Hn ltac:(lia)) as [W1 W2].
  destruct (Z.ltb_spec (wrap64 (n + nValue o)) n) as [Hw|Hw].
  - rewrite decide_False; [done|]. intros [Hf Hs]. apply Forall_cons_1 in Hf as [_ Hf].
    pose proof (sum_values_nonneg _ Hf). specialize (W1 Hw). lia.
  - assert (Hr : n + nValue o < 2 ^ 63) by (destruct (Z.lt_ge_cases (n + nValue o) (2 ^ 63)); [done | specialize (W2 ltac:(done)); lia]).
    rewrite wrap64_small, IH by lia. destruct (decide (Forall _ outs ∧ _)) as [[Hf Hs]|Hnot].
    + rewrite decide_True; [f_equal; lia | split; [by constructor | lia]].
    + rewrite decide_False; [done|]. intros [Hf Hs]. apply Hnot. apply Forall_cons_1 in Hf as [_ Hf]. split; [done | lia].
Qed.

(** ** The checks *)

Section CheckLaws.
Variable consensus : Params.
Abbreviation MAX := (nMaxMoneyOut consensus).

(** What the loop over the outputs demands of them. *)
Definition outputs_ok (tx : CTransaction) (outs : list CTxOut) : Prop :=
  Forall (λ o, (IsEmpty o = true → IsCoinBase tx = true ∨ IsCoinStake tx = true) ∧ 0 <= nValue o <= MAX) outs.

(** What a rejection leaves: the verdict is [false], and the peer is charged. *)
Definition rejected (state : CValidationState) (r : bool * CValidationState) : Prop :=
  ∃ level reason, (level = 10 ∨ level = 100) ∧ r = reject level reason state.

Lemma reject_rejected level reason state : level = 10 ∨ level = 100 → rejected state (reject level reason state).
Proof. intros Hl. by exists level, reason. Qed.

(** A list of outputs in range whose sum is in range has every partial sum in range. *)
Lemma check_outputs_spec tx outs n k state :
  0 <= n <= MAX →
  (outputs_ok tx outs ∧ n + sum_values outs <= MAX) ∧ check_outputs consensus tx outs n k state = k state ∨
  ¬ (outputs_ok tx outs ∧ n + sum_values outs <= MAX) ∧ rejected state (check_outputs consensus tx outs n k state).
Proof.
  revert n. induction outs as [|o outs IH]; intros n Hn; cbn [check_outputs].
  { left. split; [split; [constructor | cbn; lia] | done]. }
  change (sum_values (o :: outs)) with (nValue o + sum_values outs).
  assert (Hcons : outputs_ok tx (o :: outs) ↔
    ((IsEmpty o = true → IsCoinBase tx = true ∨ IsCoinStake tx = true) ∧ 0 <= nValue o <= MAX) ∧ outputs_ok tx outs).
  { split; [intros Hc; by apply Forall_cons_1 in Hc | intros [? ?]; by constructor]. }
  assert (Hnn : outputs_ok tx outs → 0 <= sum_values outs).
  { intros Ho. apply sum_values_nonneg. eapply Forall_impl; [exact Ho|]. cbn. lia. }
  rewrite Hcons. clear Hcons.
  destruct (IsEmpty o && negb (IsCoinBase tx) && negb (IsCoinStake tx)) eqn:Ee.
  { right. split; [|apply reject_rejected; by right]. intros [[[He _] _] _].
    destruct (IsEmpty o), (IsCoinBase tx), (IsCoinStake tx); try done. by destruct (He eq_refl). }
  assert (He : IsEmpty o = true → IsCoinBase tx = true ∨ IsCoinStake tx = true).
  { destruct (IsEmpty o), (IsCoinBase tx), (IsCoinStake tx); try done; auto. }
  destruct (Z.ltb_spec (nValue o) 0); [right; split; [lia | apply reject_rejected; by right]|].
  destruct (Z.gtb_spec (nValue o) MAX); [right; split; [lia | apply reject_rejected; by right]|].
  unfold MoneyRange at 1 2. destruct (Z.geb_spec (n + nValue o) 0); [|lia].
  destruct (Z.leb_spec (n + nValue o) MAX); cbn [andb negb].
  - destruct (IH (n + nValue o) ltac:(lia)) as [[[I1 I2] I3]|[I1 I3]]; [left | right]; (split; [|exact I3]).
    + split; [split; [split; [exact He | lia] | exact I1] | lia].
    + intros [[_ Ho] Hs]. apply I1. split; [done | lia].
  - right. split; [|apply reject_rejected; by right]. intros [[_ Ho] Hs]. specialize (Hnn Ho). lia.
Qed.

Lemma check_duplicates_spec ins seen k state :
  (NoDup (map prevout ins) ∧ ∀ o, o ∈ map prevout ins → o ∉ seen) ∧ check_duplicates ins seen k state = k state ∨
  ¬ (NoDup (map prevout ins) ∧ ∀ o, o ∈ map prevout ins → o ∉ seen) ∧ rejected state (check_duplicates ins seen k state).
Proof.
  revert seen. induction ins as [|i ins IH]; intros seen; cbn [check_duplicates map].
  { left. split; [split; [constructor | set_solver] | done]. }
  case_bool_decide as Hin.
  { right. split; [|apply reject_rejected; by right]. intros [_ Hs]. by destruct (Hs (prevout i) ltac:(set_solver)). }
  rewrite NoDup_cons. destruct (IH ({[prevout i]} ∪ seen)) as [[[I1 I2] I3]|[I1 I3]]; [left | right]; (split; [|exact I3]).
  - set_solver.
  - intros [[Hn Hd] Hs]. apply I1. set_solver.
Qed.

(** The conditions on a transaction, without the order in which they are tested. *)
Definition tx_ok (tx : CTransaction) : Prop :=
  vin tx ≠ [] ∧ vout tx ≠ [] ∧ GetSerializeSize CTransaction_format tx <= MAX_STANDARD_TX_SIZE ∧
  (outputs_ok tx (vout tx) ∧ sum_values (vout tx) <= MAX) ∧ NoDup (map prevout (vin tx)) ∧
  if IsCoinBase tx then ∀ i, vin tx = [i] → 2 <= Z.of_nat (length (scriptSig i)) <= 150
  else Forall (λ i, outpoint_IsNull (prevout i) = false) (vin tx).

Lemma IsCoinBase_one tx : IsCoinBase tx = true → ∃ i, vin tx = [i].
Proof. unfold IsCoinBase. destruct (vin tx) as [|i [|]]; try done. by exists i. Qed.

Lemma existsb_Forall {A} (p : A → bool) l : existsb p l = false ↔ Forall (λ x, p x = false) l.
Proof.
  induction l as [|x l IH]; cbn; [split; [constructor | done]|]. rewrite orb_false_iff, IH.
  split; [intros [? ?]; by constructor | intros Hc; by apply Forall_cons_1 in Hc].
Qed.

Lemma CheckTransaction_spec tx state :
  0 <= MAX → tx_ok tx ∧ CheckTransaction consensus tx state = (true, state) ∨
             ¬ tx_ok tx ∧ rejected state (CheckTransaction consensus tx state).
Proof.
  intros Hmax. unfold CheckTransaction, tx_ok.
  case_bool_decide; [right; split; [tauto | apply reject_rejected; by left]|].
  case_bool_decide; [right; split; [tauto | apply reject_rejected; by left]|].
  destruct (Z.gtb_spec (GetSerializeSize CTransaction_format tx) MAX_STANDARD_TX_SIZE);
    [right; split; [lia | apply reject_rejected; by right]|].
  match goal with |- context [check_outputs _ _ _ _ ?k _] => destruct (check_outputs_spec tx (vout tx) 0 k state ltac:(lia)) as [[Ho ->]|[Ho Hr]] end;
    rewrite Z.add_0_l in Ho; [|right; by split; [tauto|]].
  match goal with |- context [check_duplicates _ _ ?k _] => destruct (check_duplicates_spec (vin tx) ∅ k state) as [[[Hd Hd'] ->]|[Hd Hr]] end.
  2: { right. split; [|done]. intros (_ & _ & _ & _ & Hn & _). apply Hd. split; [done | set_solver]. }
  destruct (IsCoinBase tx) eqn:Ecb.
  - destruct (IsCoinBase_one tx Ecb) as [i Ei].
    replace (match vin tx with [] => [] | i :: _ => scriptSig i end) with (scriptSig i) by (by rewrite Ei).
    destruct (Z.ltb_spec (Z.of_nat (length (scriptSig i))) 2) as [Hlt|Hge]; cbn [orb].
    { right. split; [|apply reject_rejected; by right]. intros (_ & _ & _ & _ & _ & Hl). specialize (Hl i Ei). lia. }
    destruct (Z.gtb_spec (Z.of_nat (length (scriptSig i))) 150).
    { right. split; [|apply reject_rejected; by right]. intros (_ & _ & _ & _ & _ & Hl). specialize (Hl i Ei). lia. }
    left. split; [|done]. do 5 (split; [done|]). intros j Ej. rewrite Ei in Ej. injection Ej as <-. lia.
  - destruct (existsb _ _) eqn:Ex.
    + right. split; [|apply reject_rejected; by left]. intros (_ & _ & _ & _ & _ & Hf). apply existsb_Forall in Hf. congruence.
    + left. apply existsb_Forall in Ex. split; [|done]. by do 5 (split; [done|]).
Qed.
End CheckLaws.

(** ** Theorems *)

(** A byte string is read as a transaction exactly when it is the serialization of it
    (followed by the rest of the stream): transactions are read back as they were
    written, with their hash, and no transaction has a second encoding. *)
Theorem CTransaction_codec s tx t :
  Forall byte s →
  (Unserialize CTransaction_format s = Some (tx, t) ↔ valid CTransaction_format tx ∧ s = Serialize CTransaction_format tx ++ t).
Proof.
  intros Hs. split; [intros E; by apply canonical in E|]. intros [Hv ->]. by apply roundtrip.
Qed.

(** [GetValueOut] is the sum of the outputs, and throws exactly when an output is
    negative or the sum leaves the range of [int64_t] (the sum taken as the machine
    wraps it). *)
Theorem GetValueOut_correct tx :
  Forall (λ o, - 2 ^ 63 <= nValue o < 2 ^ 63) (vout tx) →
  GetValueOut tx =
    if decide (Forall (λ o, 0 <= nValue o) (vout tx) ∧ sum_values (vout tx) < 2 ^ 63) then Some (sum_values (vout tx)) else None.
Proof. intros Hv. apply (value_out_spec (vout tx) 0 Hv). lia. Qed.

Lemma tx_ok_value consensus tx : nMaxMoneyOut consensus < 2 ^ 63 → tx_ok consensus tx → GetValueOut tx = Some (sum_values (vout tx)).
Proof.
  intros Hmax (_ & _ & _ & [Ho Hs] & _). unfold GetValueOut. rewrite value_out_spec; [|eapply Forall_impl; [exact Ho|]; cbn; lia | lia].
  rewrite decide_True; [done|]. split; [eapply Forall_impl; [exact Ho|]; cbn; lia | lia].
Qed.

(** C32: [CheckTransaction] accepts exactly the transactions that are well formed, without
    touching the state, and their value does not overflow; every other one is rejected
    with a charge of 10 or 100 to the peer. *)
Theorem CheckTransaction_correct consensus tx state :
  0 <= nMaxMoneyOut consensus < 2 ^ 62 →
  (CheckTransaction consensus tx state = (true, state) ∧ tx_ok consensus tx ∧ GetValueOut tx = Some (sum_values (vout tx))) ∨
  (¬ tx_ok consensus tx ∧ ∃ level reason, (level = 10 ∨ level = 100) ∧ CheckTransaction consensus tx state = reject level reason state).
Proof.
  intros Hmax. destruct (CheckTransaction_spec consensus tx state ltac:(lia)) as [[Hok E]|[Hnot Hr]]; [left | by right].
  split; [done|]. split; [done|]. apply (tx_ok_value consensus); [lia | done].
Qed.

(** ** A transaction *)

Definition some_fields : Z * (list CTxIn * (list CTxOut * Z)) :=
  (1, ([mkTxIn (replicate 32 7, 1) [1; 2; 3] UINT32_MAX []], ([TxOut 5 [0x51]; TxOut 6 [0x52]], 0))).
Definition some_tx : CTransaction :=
  mkTx (UpdateHash some_fields) some_fields.1 some_fields.2.1 some_fields.2.2.1 some_fields.2.2.2.

Lemma some_tx_valid : valid CTransaction_format some_tx.
Proof.
  assert (Hw : ∀ w x, (0 <=? x) && (x <? 2 ^ w) = true → word w x) by (intros w x [?%Z.leb_le ?%Z.ltb_lt]%andb_true_iff; by split).
  split; [|reflexivity]. split; [by split|]. split; [|split; [|by apply Hw]].
  - split; [|done]. apply Forall_singleton. split; [|reflexivity].
    split; [split; [split; [by apply Forall_replicate, Hw | done] | by apply Hw]|].
    split; [split; [by repeat (apply Forall_cons; split; [by apply Hw|]) | done] | by apply Hw].
  - split; [|done]. repeat (apply Forall_cons; split); [split; [|reflexivity].. | done];
      (split; [by split | split; [by apply Forall_singleton, Hw | done]]).
Qed.

Lemma CTransaction_codec_witness :
  Unserialize CTransaction_format (Serialize CTransaction_format some_tx ++ [9]) = Some (some_tx, [9]).
Proof.
  apply (CTransaction_codec (Serialize CTransaction_format some_tx ++ [9]) some_tx [9]).
  - apply Forall_app. split; [apply ser_bytes, some_tx_valid | by apply Forall_singleton].
  - split; [apply some_tx_valid | reflexivity].
Defined.

Lemma GetValueOut_correct_witness :
  GetValueOut some_tx = Some 11 ∧ GetValueOut (mkTx [] 1 [] [TxOut (2 ^ 63 - 1) []; TxOut 1 []] 0) = None.
Proof.
  split.
  - rewrite GetValueOut_correct; [reflexivity | repeat (apply Forall_cons; split); [by split.. | done]].
  - rewrite GetValueOut_correct; [reflexivity | repeat (apply Forall_cons; split); [by split.. | done]].
Defined.

Lemma CheckTransaction_correct_witness :
  CheckTransaction main_params some_tx CValidationState_init = (true, CValidationState_init).
Proof.
  destruct (CheckTransaction_correct main_params some_tx CValidationState_init) as [[E _]|[Hnot _]];
    [split; reflexivity || discriminate | exact E | ].
  exfalso. apply Hnot. split; [done|]. split; [done|]. split; [apply Z.leb_le; reflexivity|].
  split; [split; [|done]|].
  - repeat (apply Forall_cons; split); [by split.. | done].
  - split; [apply NoDup_singleton | by apply Forall_singleton].
Defined.

End Tx.
