(* ===== verification/Coins.v ===== *)
(** * src/coins.{h,cpp}, src/txdb.cpp: the set of unspent outputs and its caches

    [CCoinsView] is an interface with two implementations: the database
    [CCoinsViewDB], and [CCoinsViewCache], a map of entries with the flags DIRTY and
    FRESH over another view.  The interface is the class [CoinsView] with its laws
    [CoinsViewLaws]; the cache is an instance over every instance, so that the
    theorems hold for the stacks of caches the program builds.

    [const] methods fill the cache: every operation takes and returns the view.
    [None] is an exception or a failed assertion.  The loop of [BatchWrite] over the
    hash map is a fold in an order that does not matter.  The memory accounting
    ([cachedCoinsUsage]) is left out: nothing that concerns coins reads it.

    The reference is the unspent set itself, a function from outpoints to coins. *)

From stdpp Require Import base option gmap list fin_maps.
From Stdlib Require Import ZArith Lia.
From S2P Require Import Prelude Serialize Script Consensus Tx.
Import Tx.
Open Scope Z_scope.

Module Coins.

(** ** Data *)

Record Coin : Type := mkCoin { fCoinBase : bool; fCoinStake : bool; out : CTxOut; nHeight : Z }.

(** [Coin()] and [Clear()]. *)
Definition coinEmpty : Coin := mkCoin false false SetNull 0.

Definition IsSpent (coin : Coin) : bool := IsNull (out coin).

(** The two bits of [flags]. *)
Record CCoinsCacheEntry : Type := mkEntry { coin : Coin; DIRTY : bool; FRESH : bool }.

Abbreviation CCoinsMap := (gmap COutPoint CCoinsCacheEntry).

(** The coin of an entry, unless it is spent. *)
Definition visible (c : Coin) : option Coin := if IsSpent c then None else Some c.

(** ** The interface *)

Class CoinsView (V : Type) : Type := {
  GetCoin : COutPoint → V → option Coin * V;
  GetBestBlock : V → list Z * V;
  BatchWrite : CCoinsMap → list Z → V → option (bool * V);
  (** The unspent set the view stands for, and its invariant. *)
  utxo : V → COutPoint → option Coin;
  view_ok : V → Prop
}.

(** The set after the dirty entries of a map are written. *)
Definition written (m : CCoinsMap) (U : COutPoint → option Coin) (o : COutPoint) : option Coin :=
  match m !! o with
  | Some e => if DIRTY e then visible (coin e) else U o
  | None => U o
  end.

(** The promise of an entry that is FRESH: the view below has no such coin. *)
Definition fresh_ok (m : CCoinsMap) (U : COutPoint → option Coin) : Prop :=
  ∀ o e, m !! o = Some e → FRESH e = true → U o = None.

Class CoinsViewLaws (V : Type) `{CoinsView V} : Prop := {
  get_law v o : view_ok v →
    view_ok (GetCoin o v).2 ∧ (∀ o', utxo (GetCoin o v).2 o' = utxo v o') ∧ (GetCoin o v).1 ≫= visible = utxo v o;
  best_law v : view_ok v → view_ok (GetBestBlock v).2 ∧ ∀ o, utxo (GetBestBlock v).2 o = utxo v o;
  batch_law v m h : view_ok v → fresh_ok m (utxo v) →
    ∃ v', BatchWrite m h v = Some (true, v') ∧ view_ok v' ∧ ∀ o, utxo v' o = written m (utxo v) o;
  utxo_unspent v o c : view_ok v → utxo v o = Some c → IsSpent c = false
}.

(** ** The database *)

(** What the key-value store holds; writes succeed. *)
Record CCoinsViewDB : Type := mkDB { coins : gmap COutPoint Coin; best : option (list Z) }.

Definition db_write (o : COutPoint) (e : CCoinsCacheEntry) (m : gmap COutPoint Coin) : gmap COutPoint Coin :=
  if DIRTY e then (if IsSpent (coin e) then delete o m else <[o := coin e]> m) else m.

Definition db_BatchWrite (mapCoins : CCoinsMap) (hashBlock : list Z) (db : CCoinsViewDB) : option (bool * CCoinsViewDB) :=
  Some (true, mkDB (map_fold db_write (coins db) mapCoins)
                   (if decide (hashBlock = UINT256_ZERO) then best db else Some hashBlock)).

#[export] Instance db_view : CoinsView CCoinsViewDB := {
  GetCoin o db := (coins db !! o, db);
  GetBestBlock db := (default UINT256_ZERO (best db), db);
  BatchWrite := db_BatchWrite;
  utxo db o := coins db !! o;
  view_ok db := ∀ o c, coins db !! o = Some c → IsSpent c = false
}.

(** ** The cache *)

Record cache (V : Type) : Type := mkCache { base : V; cacheCoins : CCoinsMap; hashBlock : list Z }.
Arguments mkCache {V} _ _ _.
Arguments base {V} _.
Arguments cacheCoins {V} _.
Arguments hashBlock {V} _.

Section Cache.
Context {V : Type} `{CoinsView V}.
Implicit Types c : cache V.

(** The entry of an outpoint, which is read from the base if it is not in the cache. *)
Definition FetchCoin (o : COutPoint) (c : cache V) : option CCoinsCacheEntry * cache V :=
  match cacheCoins c !! o with
  | Some e => (Some e, c)
  | None =>
      let '(tmp, b) := GetCoin o (base c) in
      match tmp with
      | None => (None, mkCache b (cacheCoins c) (hashBlock c))
      | Some tmp =>
          let e := mkEntry tmp false (IsSpent tmp) in
          (Some e, mkCache b (<[o := e]> (cacheCoins c)) (hashBlock c))
      end
  end.

Definition cache_GetCoin (o : COutPoint) (c : cache V) : option Coin * cache V :=
  let '(it, c) := FetchCoin o c in (coin <$> it, c).

(** [None] is the assertion or the exception. *)
Definition AddCoin (o : COutPoint) (new : Coin) (possible_overwrite : bool) (c : cache V) : option (cache V) :=
  if IsSpent new then None
  else if Script.IsUnspendable (scriptPubKey (out new)) then Some c
  else
    let it := default (mkEntry coinEmpty false false) (cacheCoins c !! o) in
    if negb possible_overwrite && negb (IsSpent (coin it)) then None
    else
      let fresh := if possible_overwrite then false else negb (DIRTY it) in
      Some (mkCache (base c) (<[o := mkEntry new true (FRESH it || fresh)]> (cacheCoins c)) (hashBlock c)).

(** The coin that is moved out, and the cache. *)
Definition SpendCoin (o : COutPoint) (c : cache V) : option Coin * cache V :=
  let '(it, c) := FetchCoin o c in
  match it with
  | None => (None, c)
  | Some e =>
      (Some (coin e),
       if FRESH e then mkCache (base c) (delete o (cacheCoins c)) (hashBlock c)
       else mkCache (base c) (<[o := mkEntry coinEmpty true (FRESH e)]> (cacheCoins c)) (hashBlock c))
  end.

Definition AccessCoin (o : COutPoint) (c : cache V) : Coin * cache V :=
  let '(it, c) := FetchCoin o c in
  (match it with None => coinEmpty | Some e => coin e end, c).

Definition HaveCoin (o : COutPoint) (c : cache V) : bool * cache V :=
  let '(it, c) := FetchCoin o c in
  (match it with None => false | Some e => negb (IsSpent (coin e)) end, c).

Definition HaveCoinInCache (o : COutPoint) (c : cache V) : bool := bool_decide (is_Some (cacheCoins c !! o)).

Definition cache_GetBestBlock (c : cache V) : list Z * cache V :=
  if decide (hashBlock c = UINT256_ZERO)
  then let '(h, b) := GetBestBlock (base c) in (h, mkCache b (cacheCoins c) h)
  else (hashBlock c, c).

Definition SetBestBlock (h : list Z) (c : cache V) : cache V := mkCache (base c) (cacheCoins c) h.

(** One turn of the loop of [BatchWrite]: an entry of the child is merged. *)
Definition merge (o : COutPoint) (it : CCoinsCacheEntry) (m : option CCoinsMap) : option CCoinsMap :=
  m ← m;
  if DIRTY it then
    match m !! o with
    | None =>
        if FRESH it && IsSpent (coin it) then Some m
        else Some (<[o := mkEntry (coin it) true (FRESH it)]> m)
    | Some itUs =>
        if FRESH it && negb (IsSpent (coin itUs)) then None
        else if FRESH itUs && IsSpent (coin it) then Some (delete o m)
        else Some (<[o := mkEntry (coin it) true (FRESH itUs)]> m)
    end
  else Some m.

Definition cache_BatchWrite (mapCoins : CCoinsMap) (hashBlockIn : list Z) (c : cache V) : option (bool * cache V) :=
  m ← map_fold merge (Some (cacheCoins c)) mapCoins;
  Some (true, mkCache (base c) m hashBlockIn).

Definition Flush (c : cache V) : option (bool * cache V) :=
  r ← BatchWrite (cacheCoins c) (hashBlock c) (base c);
  Some (r.1, mkCache r.2 ∅ (hashBlock c)).

Definition Uncache (o : COutPoint) (c : cache V) : cache V :=
  match cacheCoins c !! o with
  | Some e =>
      if negb (DIRTY e) && negb (FRESH e) then mkCache (base c) (delete o (cacheCoins c)) (hashBlock c) else c
  | None => c
  end.

(** [AddCoins]: the outputs of a transaction from index [i] on. *)
Fixpoint add_coins (txid : uint256) (fCoinbase fCoinstake : bool) (nHeight : Z) (i : Z) (vout : list CTxOut) (c : cache V)
  : option (cache V) :=
  match vout with
  | [] => Some c
  | txout :: vout =>
      c ← AddCoin (txid, i) (mkCoin fCoinbase fCoinstake txout nHeight) false c;
      add_coins txid fCoinbase fCoinstake nHeight (i + 1) vout c
  end.
Definition AddCoins (tx : CTransaction) (nHeight : Z) (c : cache V) : option (cache V) :=
  add_coins (GetHash tx) (IsCoinBase tx) (IsCoinStake tx) nHeight 0 (vout tx) c.

(** [GetValueIn]; the sum of [int64_t] is the machine's. *)
Fixpoint value_in (vin : list CTxIn) (nResult : Z) (c : cache V) : Z * cache V :=
  match vin with
  | [] => (nResult, c)
  | i :: vin => let '(coin, c) := AccessCoin (prevout i) c in value_in vin (wrap64 (nResult + nValue (out coin))) c
  end.
Definition GetValueIn (tx : CTransaction) (c : cache V) : Z * cache V :=
  if IsCoinBase tx then (0, c) else value_in (vin tx) 0 c.

Fixpoint have_inputs (vin : list CTxIn) (c : cache V) : bool * cache V :=
  match vin with
  | [] => (true, c)
  | i :: vin =>
      let '(have, c) := HaveCoin (prevout i) c in
      if negb have then (false, c) else have_inputs vin c
  end.
Definition HaveInputs (tx : CTransaction) (c : cache V) : bool * cache V :=
  if negb (IsCoinBase tx) then have_inputs (vin tx) c else (true, c).

Definition GetCoinDepthAtHeight (output : COutPoint) (nHeight' : Z) (c : cache V) : Z * cache V :=
  let '(coin, c) := AccessCoin output c in
  (if negb (IsSpent coin) then nHeight' - nHeight coin + 1 else -1, c).

(** [AccessByTxid]: the first unspent output among the first [count]. *)
Fixpoint access_by_txid (count : nat) (txid : uint256) (n : Z) (c : cache V) : Coin * cache V :=
  match count with
  | O => (coinEmpty, c)
  | S count =>
      let '(alternate, c) := AccessCoin (txid, n) c in
      if negb (IsSpent alternate) then (alternate, c) else access_by_txid count txid (n + 1) c
  end.

(** [MAX_BLOCK_SIZE_CURRENT] over the size of an empty output. *)
Definition MAX_OUTPUTS_PER_BLOCK : Z := 2000000 / Serialize.GetSerializeSize CTxOut_format SetNull.
Definition AccessByTxid (txid : uint256) (c : cache V) : Coin * cache V :=
  access_by_txid (Z.to_nat MAX_OUTPUTS_PER_BLOCK) txid 0 c.

(** ** The invariant of the cache *)

(** What the cache stands for: its entries first, then the base. *)
Definition cache_utxo (c : cache V) (o : COutPoint) : option Coin :=
  match cacheCoins c !! o with
  | Some e => visible (coin e)
  | None => utxo (base c) o
  end.

(** An entry that is not dirty agrees with the base; one that is fresh is not in it. *)
Definition entry_ok (b : V) (o : COutPoint) (e : CCoinsCacheEntry) : Prop :=
  (DIRTY e = false → utxo b o = visible (coin e)) ∧ (FRESH e = true → utxo b o = None).

Definition cache_ok (c : cache V) : Prop :=
  view_ok (base c) ∧ ∀ o e, cacheCoins c !! o = Some e → entry_ok (base c) o e.
End Cache.

#[export] Instance cache_view {V : Type} `{CoinsView V} : CoinsView (cache V) := {
  GetCoin := cache_GetCoin;
  GetBestBlock := cache_GetBestBlock;
  BatchWrite := cache_BatchWrite;
  utxo := cache_utxo;
  view_ok := cache_ok
}.

(** ** The database implements the interface *)

Lemma visible_unspent c : IsSpent c = false → visible c = Some c.
Proof. unfold visible. by intros ->. Qed.

Lemma visible_Some c d : visible c = Some d → d = c ∧ IsSpent c = false.
Proof. unfold visible. destruct (IsSpent c) eqn:E; [done|]. by intros [= <-]. Qed.

Lemma db_write_spec db m o :
  map_fold db_write (coins db) m !! o = written m (λ o, coins db !! o) o ∧
  ((∀ o c, coins db !! o = Some c → IsSpent c = false) →
   ∀ c, map_fold db_write (coins db) m !! o = Some c → IsSpent c = false).
Proof.
  revert o. apply (map_fold_weak_ind (λ r m, ∀ o, r !! o = written m (λ o, coins db !! o) o ∧
    ((∀ o c, coins db !! o = Some c → IsSpent c = false) → ∀ c, r !! o = Some c → IsSpent c = false))).
  - intros o. split; [done | eauto].
  - intros o' e m' r Hn IH o. unfold db_write, written in *. destruct (decide (o = o')) as [->|Hne].
    + rewrite lookup_insert_eq. destruct (IH o') as [E Hs]. rewrite Hn in E. destruct (DIRTY e); [|split; [done | exact Hs]].
      unfold visible. destruct (IsSpent (coin e)) eqn:Es; [rewrite lookup_delete_eq; split; done|].
      rewrite lookup_insert_eq. split; [done|]. by intros _ c [= <-].
    + rewrite (lookup_insert_ne m') by done. destruct (DIRTY e); [|apply IH].
      destruct (IsSpent (coin e)); [rewrite lookup_delete_ne by done | rewrite lookup_insert_ne by done]; apply IH.
Qed.

#[export] Instance db_laws : CoinsViewLaws CCoinsViewDB.
Proof.
  split; cbn.
  - intros db o Hok. split; [done|]. split; [done|]. destruct (coins db !! o) as [c|] eqn:E; [|done].
    cbn. apply visible_unspent. by eapply Hok.
  - done.
  - intros db m h Hok _. eexists. split; [done|]. split; cbn.
    + intros o c. by apply db_write_spec.
    + intros o. apply db_write_spec.
  - intros db o c Hok. apply Hok.
Qed.

(** ** The cache implements the interface *)

Section CacheLaws.
Context {V : Type} `{CoinsViewLaws V}.
Implicit Types c : cache V.

(** The base may be replaced by one with the same coins. *)
Lemma entry_ok_ext (b b' : V) o e : utxo b' o = utxo b o → entry_ok b o e → entry_ok b' o e.
Proof. intros E. unfold entry_ok. by rewrite E. Qed.

Lemma FetchCoin_spec o c :
  cache_ok c →
  let '(it, c') := FetchCoin o c in
  cache_ok c' ∧ (∀ o', cache_utxo c' o' = cache_utxo c o') ∧ cacheCoins c' !! o = it ∧
  (it ≫= λ e, visible (coin e)) = cache_utxo c o ∧ hashBlock c' = hashBlock c.
Proof.
  intros [Hb He]. unfold FetchCoin, cache_utxo. destruct (cacheCoins c !! o) as [e|] eqn:E.
  { split; [done|]. split; [done|]. split; [done|]. split; done. }
  destruct (get_law (base c) o Hb) as (G1 & G2 & G3). destruct (GetCoin o (base c)) as [tmp b]. cbn [fst snd] in *.
  destruct tmp as [tmp|]; cbn [mbind option_bind] in G3; cbn.
  - rewrite lookup_insert_eq. split; [|split; [|split; [done|]; split; [exact G3 | done]]].
    + split; [done|]. intros o' e'. cbn. intros [[<- <-]|[Hne Hl]]%lookup_insert_Some.
      * split; cbn; [intros _; by rewrite G2 | rewrite G2, <- G3; unfold visible; by intros ->].
      * eapply entry_ok_ext; [apply G2 | by apply He].
    + intros o'. destruct (decide (o' = o)) as [->|Hne].
      * rewrite lookup_insert_eq, E. cbn. exact G3.
      * rewrite lookup_insert_ne by done. destruct (cacheCoins c !! o'); [done | apply G2].
  - split; [|split; [|split; [exact E|]; split; [exact G3 | done]]].
    + split; [done|]. intros o' e' Hl. eapply entry_ok_ext; [apply G2 | by apply He].
    + intros o'. destruct (cacheCoins c !! o'); [done | apply G2].
Qed.

(** A change of one entry. *)
Lemma cache_utxo_insert c o e o' h :
  cache_utxo (mkCache (base c) (<[o := e]> (cacheCoins c)) h) o' = if decide (o' = o) then visible (coin e) else cache_utxo c o'.
Proof.
  unfold cache_utxo. cbn. destruct (decide (o' = o)) as [->|]; [by rewrite lookup_insert_eq | by rewrite lookup_insert_ne].
Qed.

Lemma cache_ok_insert c o e h :
  cache_ok c → entry_ok (base c) o e → cache_ok (mkCache (base c) (<[o := e]> (cacheCoins c)) h).
Proof.
  intros [Hb He] Ho. split; [done|]. cbn. intros o' e' [[<- <-]|[_ Hl]]%lookup_insert_Some; [done | by apply He].
Qed.

(** An entry may be dropped when the base agrees with it. *)
Lemma cache_delete c o h :
  cache_ok c → cache_ok (mkCache (base c) (delete o (cacheCoins c)) h) ∧
  ∀ o', cache_utxo (mkCache (base c) (delete o (cacheCoins c)) h) o' = if decide (o' = o) then utxo (base c) o else cache_utxo c o'.
Proof.
  intros [Hb He]. split.
  - split; [done|]. cbn. intros o' e' [_ Hl]%lookup_delete_Some. by apply He.
  - intros o'. unfold cache_utxo. cbn. destruct (decide (o' = o)) as [->|]; [by rewrite lookup_delete_eq | by rewrite lookup_delete_ne].
Qed.

(** Without [possible_overwrite] the caller promises that there is no such coin. *)
Lemma AddCoin_spec o new ow c :
  cache_ok c → IsSpent new = false → (ow = false → cache_utxo c o = None) →
  ∃ c', AddCoin o new ow c = Some c' ∧ cache_ok c' ∧
    ∀ o', cache_utxo c' o' = if decide (o' = o ∧ Script.IsUnspendable (scriptPubKey (out new)) = false) then Some new else cache_utxo c o'.
Proof.
  intros Hok Hs How. unfold AddCoin. rewrite Hs. destruct (Script.IsUnspendable _) eqn:Eu.
  { exists c. split; [done|]. split; [done|]. intros o'. rewrite decide_False; [done|]. by intros [_ ?]. }
  set (it := default _ _). set (fresh := if ow then false else negb (DIRTY it)).
  assert (Hit : entry_ok (base c) o (mkEntry new true (FRESH it || fresh)) ∧ negb ow && negb (IsSpent (coin it)) = false).
  { unfold entry_ok, fresh, it. cbn. unfold cache_utxo in How. destruct Hok as [_ He].
    destruct (cacheCoins c !! o) as [e|] eqn:El; cbn in *.
    - destruct (He o e El) as [E1 E2]. destruct ow; cbn.
      + rewrite orb_false_r. split; [|done]. split; [done | exact E2].
      + specialize (How eq_refl). unfold visible in *. destruct (IsSpent (coin e)); [|done].
        split; [|done]. split; [done|]. destruct (FRESH e); [auto|]. destruct (DIRTY e); [done|]. cbn. auto.
    - destruct ow; cbn; [done|]. split; [|done]. split; [done|]. by intros _; apply How. }
  destruct Hit as [Hit ->]. eexists. split; [done|]. split; [by apply cache_ok_insert|].
  intros o'. rewrite cache_utxo_insert. cbn [coin]. rewrite (visible_unspent new Hs).
  destruct (decide (o' = o)) as [->|]; [by rewrite decide_True | rewrite decide_False; [done | by intros [? _]]].
Qed.

Lemma SpendCoin_spec o c :
  cache_ok c →
  cache_ok (SpendCoin o c).2 ∧ (SpendCoin o c).1 ≫= visible = cache_utxo c o ∧
  ∀ o', cache_utxo (SpendCoin o c).2 o' = if decide (o' = o) then None else cache_utxo c o'.
Proof.
  intros Hok. unfold SpendCoin. pose proof (FetchCoin_spec o c Hok) as Hf. destruct (FetchCoin o c) as [it c'].
  destruct Hf as (F1 & F2 & F3 & F4 & _). destruct it as [e|]; cbn [fst snd]; cbn [mbind option_bind] in *.
  - destruct F1 as [Fb Fe]. destruct (Fe o e F3) as [E1 E2]. destruct (FRESH e).
    + destruct (cache_delete c' o (hashBlock c') (conj Fb Fe)) as [D1 D2]. split; [done|]. split; [done|].
      intros o'. rewrite D2. destruct (decide (o' = o)); [auto | apply F2].
    + split; [apply cache_ok_insert; [done | split; done]|]. split; [done|].
      intros o'. rewrite cache_utxo_insert. destruct (decide (o' = o)); [done | apply F2].
  - split; [done|]. split; [done|]. intros o'. rewrite F2. destruct (decide (o' = o)) as [->|]; done.
Qed.

Lemma Uncache_spec o c : cache_ok c → cache_ok (Uncache o c) ∧ ∀ o', cache_utxo (Uncache o c) o' = cache_utxo c o'.
Proof.
  intros Hok. unfold Uncache. destruct (cacheCoins c !! o) as [e|] eqn:El; [|done].
  destruct (DIRTY e) eqn:Ed; [done|]. destruct (FRESH e); [done|]. cbn [negb andb].
  destruct (cache_delete c o (hashBlock c) Hok) as [D1 D2]. split; [done|]. intros o'. rewrite D2.
  destruct (decide (o' = o)) as [->|]; [|done]. unfold cache_utxo. rewrite El. destruct Hok as [_ He].
  by apply (He o e El).
Qed.

(** Merging the entries of a child, one by one. *)
Lemma merge_spec c m :
  cache_ok c → fresh_ok m (cache_utxo c) →
  ∃ r, map_fold merge (Some (cacheCoins c)) m = Some r ∧
    cache_ok (mkCache (base c) r (hashBlock c)) ∧
    ∀ o, cache_utxo (mkCache (base c) r (hashBlock c)) o = written m (cache_utxo c) o.
Proof.
  intros Hok.
  apply (map_fold_weak_ind (λ x m, fresh_ok m (cache_utxo c) → ∃ r, x = Some r ∧
    cache_ok (mkCache (base c) r (hashBlock c)) ∧
    ∀ o, cache_utxo (mkCache (base c) r (hashBlock c)) o = written m (cache_utxo c) o)).
  - intros _. exists (cacheCoins c). split; [done|]. split; [by destruct c|]. intros o. by destruct c.
  - intros o e m' x Hn IH Hf. destruct IH as (r & -> & Rok & Ru).
    { intros o' e' Hl. apply Hf. rewrite lookup_insert_ne; [done|]. intros ->. by rewrite Hn in Hl. }
    set (cr := mkCache (base c) r (hashBlock c)) in *.
    assert (Hsame : cache_utxo cr o = cache_utxo c o) by (rewrite Ru; unfold written; by rewrite Hn).
    assert (Hw : ∀ o', written (<[o := e]> m') (cache_utxo c) o' =
                       if decide (o' = o) then (if DIRTY e then visible (coin e) else cache_utxo c o) else cache_utxo cr o').
    { intros o'. unfold written. destruct (decide (o' = o)) as [->|]; [by rewrite lookup_insert_eq|].
      rewrite lookup_insert_ne by done. by rewrite Ru. }
    assert (Hfe : FRESH e = true → cache_utxo cr o = None).
    { intros Hfr. rewrite Hsame. eapply Hf; [apply lookup_insert_eq | done]. }
    cbn [merge mbind option_bind]. destruct (DIRTY e) eqn:Ed.
    2: { exists r. split; [done|]. split; [done|]. intros o'. rewrite Hw. destruct (decide (o' = o)) as [->|]; done. }
    pose proof (cache_delete cr o (hashBlock c) Rok) as [D1 D2]. destruct Rok as [Rb Re].
    destruct (r !! o) as [us|] eqn:Eus.
    + destruct (Re o us Eus) as [U1 U2].
      assert (Hnot : FRESH e && negb (IsSpent (coin us)) = false).
      { destruct (FRESH e); [|done]. specialize (Hfe eq_refl). unfold cache_utxo in Hfe. cbn in Hfe. rewrite Eus in Hfe.
        unfold visible in Hfe. by destruct (IsSpent (coin us)). }
      rewrite Hnot. destruct (FRESH us && IsSpent (coin e)) eqn:Edel.
      * apply andb_true_iff in Edel as [E1 E2]. eexists. split; [done|]. split; [exact D1|].
        intros o'. rewrite Hw. etransitivity; [apply D2|]. destruct (decide (o' = o)) as [->|]; [|done].
        unfold visible. rewrite E2. auto.
      * eexists. split; [done|]. split.
        { apply (cache_ok_insert cr); [done|]. split; [done | exact U2]. }
        intros o'. rewrite Hw. etransitivity; [apply (cache_utxo_insert cr)|]. done.
    + assert (Hbase : cache_utxo cr o = utxo (base c) o) by (unfold cache_utxo; cbn; by rewrite Eus).
      destruct (FRESH e && IsSpent (coin e)) eqn:Eskip.
      * apply andb_true_iff in Eskip as [E1 E2]. eexists. split; [done|]. split; [done|].
        intros o'. rewrite Hw. destruct (decide (o' = o)) as [->|]; [|done]. unfold visible. rewrite E2. auto.
      * eexists. split; [done|]. split.
        { apply (cache_ok_insert cr); [done|]. split; [done|]. cbn. intros Hfr. rewrite <- Hbase. auto. }
        intros o'. rewrite Hw. etransitivity; [apply (cache_utxo_insert cr)|]. done.
Qed.

Lemma cache_fresh_ok c : cache_ok c → fresh_ok (cacheCoins c) (utxo (base c)).
Proof. intros [_ He] o e Hl Hf. by apply (He o e Hl). Qed.

Lemma cache_written c o : cache_ok c → written (cacheCoins c) (utxo (base c)) o = cache_utxo c o.
Proof.
  intros [_ He]. unfold written, cache_utxo. destruct (cacheCoins c !! o) as [e|] eqn:El; [|done].
  destruct (DIRTY e) eqn:Ed; [done|]. by apply (He o e El).
Qed.

(** A flush moves the whole set to the base. *)
Lemma Flush_spec c :
  cache_ok c → ∃ c', Flush c = Some (true, c') ∧ cache_ok c' ∧ cacheCoins c' = ∅ ∧
    (∀ o, utxo (base c') o = cache_utxo c o) ∧ ∀ o, cache_utxo c' o = cache_utxo c o.
Proof.
  intros Hok. unfold Flush.
  destruct (batch_law (base c) (cacheCoins c) (hashBlock c) (proj1 Hok) (cache_fresh_ok c Hok)) as (b & -> & Hb & Hu).
  cbn [mbind option_bind fst snd]. eexists. split; [done|]. split; [split; [done | cbn; by intros]|]. split; [done|].
  assert (E : ∀ o, utxo b o = cache_utxo c o) by (intros o; by rewrite Hu, cache_written). done.
Qed.

Lemma cache_laws : CoinsViewLaws (cache V).
Proof.
  split; cbn.
  - intros c o Hok. unfold cache_GetCoin. pose proof (FetchCoin_spec o c Hok) as Hf. destruct (FetchCoin o c) as [it c'].
    destruct Hf as (F1 & F2 & _ & F4 & _). cbn [fst snd]. split; [done|]. split; [done|]. by destruct it.
  - intros c [Hb He]. unfold cache_GetBestBlock. destruct (decide _) as [Hd|Hd]; [|done].
    destruct (best_law (base c) Hb) as [B1 B2]. destruct (GetBestBlock (base c)) as [h b]. cbn [fst snd] in *.
    split; [split; [done|]; intros o e Hl; eapply entry_ok_ext; [apply B2 | by apply He]|].
    intros o. unfold cache_utxo. cbn. destruct (cacheCoins c !! o); [done | apply B2].
  - intros c m h Hok Hf. unfold cache_BatchWrite. destruct (merge_spec c m Hok Hf) as (r & -> & Rok & Ru).
    cbn [mbind option_bind]. eexists. split; [done|]. split; [exact Rok|]. intros o. apply Ru.
  - intros c o d [Hb He] E. unfold cache_utxo in E. destruct (cacheCoins c !! o) as [e|].
    + apply visible_Some in E as [-> E]. done.
    + by eapply utxo_unspent.
Qed.
End CacheLaws.

#[export] Existing Instance cache_laws.

(** ** Operations on the unspent set *)

Abbreviation uset := (COutPoint → option Coin).

Definition set_coin (o : COutPoint) (x : option Coin) (U : uset) : uset := λ o', if decide (o' = o) then x else U o'.

(** Adding a coin: outputs that cannot be spent are not kept. *)
Definition add_coin (o : COutPoint) (new : Coin) (U : uset) : uset :=
  if Script.IsUnspendable (scriptPubKey (out new)) then U else set_coin o (Some new) U.

Fixpoint add_outputs (txid : list Z) (cb cs : bool) (h i : Z) (vout : list CTxOut) (U : uset) : uset :=
  match vout with
  | [] => U
  | txout :: vout => add_outputs txid cb cs h (i + 1) vout (add_coin (txid, i) (mkCoin cb cs txout h) U)
  end.

Definition add_tx (tx : CTransaction) (h : Z) (U : uset) : uset :=
  add_outputs (GetHash tx) (IsCoinBase tx) (IsCoinStake tx) h 0 (vout tx) U.

Definition have_all (tx : CTransaction) (U : uset) : bool :=
  IsCoinBase tx || forallb (λ i, bool_decide (is_Some (U (prevout i)))) (vin tx).

(** The outputs of a transaction are neither null nor in the set. *)
Definition new_outputs (tx : CTransaction) (U : uset) : Prop :=
  Forall (λ txout, IsNull txout = false) (vout tx) ∧ ∀ i, 0 <= i < Z.of_nat (length (vout tx)) → U (GetHash tx, i) = None.

Inductive op : Type :=
| OpHave (o : COutPoint) | OpAccess (o : COutPoint) | OpAdd (o : COutPoint) (new : Coin) (possible_overwrite : bool)
| OpSpend (o : COutPoint) | OpUncache (o : COutPoint) | OpFlush | OpBest | OpSetBest (h : list Z)
| OpAddCoins (tx : CTransaction) (h : Z) | OpHaveInputs (tx : CTransaction).

Inductive result : Type := RBool (b : bool) | RCoin (c : option Coin) | RNone.

(** The answer and the set after an operation. *)
Definition spec (x : op) (U : uset) : result * uset :=
  match x with
  | OpHave o => (RBool (bool_decide (is_Some (U o))), U)
  | OpAccess o => (RCoin (U o), U)
  | OpAdd o new _ => (RNone, add_coin o new U)
  | OpSpend o => (RCoin (U o), set_coin o None U)
  | OpUncache _ | OpBest | OpSetBest _ => (RNone, U)
  | OpFlush => (RBool true, U)
  | OpAddCoins tx h => (RNone, add_tx tx h U)
  | OpHaveInputs tx => (RBool (have_all tx U), U)
  end.

(** What the caller promises: a coin that is added is not spent, and it is not there
    already unless it may be overwritten. *)
Definition contract (x : op) (U : uset) : Prop :=
  match x with
  | OpAdd o new ow => IsSpent new = false ∧ (ow = false → U o = None)
  | OpAddCoins tx h => new_outputs tx U
  | _ => True
  end.

Section Run.
Context {V : Type} `{CoinsViewLaws V}.
Implicit Types c : cache V.

Definition run (x : op) (c : cache V) : option (result * cache V) :=
  match x with
  | OpHave o => let '(b, c) := HaveCoin o c in Some (RBool b, c)
  | OpAccess o => let '(d, c) := AccessCoin o c in Some (RCoin (visible d), c)
  | OpAdd o new ow => c ← AddCoin o new ow c; Some (RNone, c)
  | OpSpend o => let '(d, c) := SpendCoin o c in Some (RCoin (d ≫= visible), c)
  | OpUncache o => Some (RNone, Uncache o c)
  | OpFlush => r ← Flush c; Some (RBool r.1, r.2)
  | OpBest => Some (RNone, (cache_GetBestBlock c).2)
  | OpSetBest h => Some (RNone, SetBestBlock h c)
  | OpAddCoins tx h => c ← AddCoins tx h c; Some (RNone, c)
  | OpHaveInputs tx => let '(b, c) := HaveInputs tx c in Some (RBool b, c)
  end.

(** [c] stands for [U]. *)
Definition represents (c : cache V) (U : uset) : Prop := cache_ok c ∧ ∀ o, cache_utxo c o = U o.

Lemma HaveCoin_spec o c :
  cache_ok c → (HaveCoin o c).1 = bool_decide (is_Some (cache_utxo c o)) ∧ represents (HaveCoin o c).2 (cache_utxo c).
Proof.
  intros Hok. unfold HaveCoin. pose proof (FetchCoin_spec o c Hok) as Hf. destruct (FetchCoin o c) as [it c'].
  destruct Hf as (F1 & F2 & _ & F4 & _). cbn [fst snd]. split; [|done]. rewrite <- F4.
  destruct it as [e|]; cbn; [|done]. unfold visible. by destruct (IsSpent (coin e)).
Qed.

Lemma AccessCoin_spec o c :
  cache_ok c → visible (AccessCoin o c).1 = cache_utxo c o ∧ represents (AccessCoin o c).2 (cache_utxo c).
Proof.
  intros Hok. unfold AccessCoin. pose proof (FetchCoin_spec o c Hok) as Hf. destruct (FetchCoin o c) as [it c'].
  destruct Hf as (F1 & F2 & _ & F4 & _). cbn [fst snd]. split; [|done]. rewrite <- F4. by destruct it.
Qed.

Lemma AddCoin_represents o new ow c U :
  represents c U → contract (OpAdd o new ow) U → ∃ c', AddCoin o new ow c = Some c' ∧ represents c' (add_coin o new U).
Proof.
  intros [Hok Hu] [Hs How]. destruct (AddCoin_spec o new ow c Hok Hs) as (c' & E & Hok' & Hu').
  { intros Eow. rewrite Hu. auto. }
  exists c'. split; [done|]. split; [done|]. intros o'. rewrite Hu'. unfold add_coin, set_coin.
  destruct (Script.IsUnspendable _); [rewrite decide_False by (by intros [_ ?]); apply Hu|].
  destruct (decide (o' = o)) as [->|]; [by rewrite decide_True | rewrite decide_False by (by intros [? _]); apply Hu].
Qed.

Lemma add_coins_represents txid cb cs h vout : ∀ i c U,
  represents c U → Forall (λ txout, IsNull txout = false) vout →
  (∀ j, i <= j < i + Z.of_nat (length vout) → U (txid, j) = None) →
  ∃ c', add_coins txid cb cs h i vout c = Some c' ∧ represents c' (add_outputs txid cb cs h i vout U).
Proof.
  induction vout as [|txout vout IH]; intros i c U Hr Hs Hn; [by eexists|].
  apply Forall_cons in Hs as [Hs1 Hs2]. cbn [add_coins add_outputs length] in *.
  destruct (AddCoin_represents (txid, i) (mkCoin cb cs txout h) false c U Hr) as (c' & -> & Hr').
  { split; [done|]. intros _. apply Hn. lia. }
  cbn [mbind option_bind]. apply IH; [done | done|]. intros j Hj. unfold add_coin, set_coin.
  destruct (Script.IsUnspendable _); [apply Hn; lia|]. rewrite decide_False; [apply Hn; lia|]. intros [= ->]. lia.
Qed.

Lemma AddCoins_represents tx h c U :
  represents c U → new_outputs tx U → ∃ c', AddCoins tx h c = Some c' ∧ represents c' (add_tx tx h U).
Proof. intros Hr [Hs Hn]. apply add_coins_represents; [done | done|]. intros j Hj. apply Hn. lia. Qed.

Lemma have_inputs_represents vin : ∀ c U,
  represents c U → (have_inputs vin c).1 = forallb (λ i, bool_decide (is_Some (U (prevout i)))) vin ∧ represents (have_inputs vin c).2 U.
Proof.
  induction vin as [|i vin IH]; intros c U [Hok Hu]; [done|]. cbn [have_inputs forallb].
  destruct (HaveCoin_spec (prevout i) c Hok) as [E [Hok' Hu']]. destruct (HaveCoin (prevout i) c) as [b c']. cbn [fst snd] in *.
  rewrite Hu in E. subst b. assert (Hr : represents c' U) by (split; [done|]; intros o'; by rewrite Hu').
  destruct (bool_decide (is_Some (U (prevout i)))); cbn [negb andb]; [by apply IH | done].
Qed.

Lemma HaveInputs_represents tx c U :
  represents c U → (HaveInputs tx c).1 = have_all tx U ∧ represents (HaveInputs tx c).2 U.
Proof. unfold HaveInputs, have_all. destruct (IsCoinBase tx); [done | apply have_inputs_represents]. Qed.

(** One operation. *)
Lemma run_spec x c U :
  represents c U → contract x U → ∃ c', run x c = Some ((spec x U).1, c') ∧ represents c' (spec x U).2.
Proof.
  intros Hr Hc. pose proof Hr as [Hok Hu]. destruct x; cbn [run spec fst snd].
  - destruct (HaveCoin_spec o c Hok) as [E [Hok' Hu']]. destruct (HaveCoin o c) as [b c']. cbn [fst snd] in *.
    rewrite Hu in E. subst b. exists c'. split; [done|]. split; [done|]. intros o'. by rewrite Hu'.
  - destruct (AccessCoin_spec o c Hok) as [E [Hok' Hu']]. destruct (AccessCoin o c) as [d c']. cbn [fst snd] in *.
    rewrite Hu in E. exists c'. split; [by rewrite E|]. split; [done|]. intros o'. by rewrite Hu'.
  - destruct (AddCoin_represents o new possible_overwrite c U Hr Hc) as (c' & -> & Hr'). by exists c'.
  - destruct (SpendCoin_spec o c Hok) as (S1 & S2 & S3). destruct (SpendCoin o c) as [d c']. cbn [fst snd] in *.
    rewrite Hu in S2. exists c'. split; [by rewrite S2|]. split; [done|]. intros o'. rewrite S3. unfold set_coin.
    destruct (decide (o' = o)); [done | apply Hu].
  - destruct (Uncache_spec o c Hok) as [U1 U2]. eexists. split; [done|]. split; [done|]. intros o'. by rewrite U2.
  - destruct (Flush_spec c Hok) as (c' & -> & Hok' & _ & _ & Hu'). exists c'. split; [done|]. split; [done|].
    intros o'. by rewrite Hu'.
  - destruct (@best_law _ _ cache_laws c Hok) as [B1 B2]. eexists. split; [done|]. split; [exact B1|]. intros o'. rewrite <- Hu. apply B2.
  - eexists. split; [done|]. split; [exact Hok | exact Hu].
  - destruct (AddCoins_represents tx h c U Hr Hc) as (c' & -> & Hr'). by exists c'.
  - destruct (HaveInputs_represents tx c U Hr) as [E Hr']. destruct (HaveInputs tx c) as [b c']. cbn [fst snd] in *.
    exists c'. by rewrite E.
Qed.

(** Sequences of operations. *)
Fixpoint run_all (xs : list op) (c : cache V) : option (list result * cache V) :=
  match xs with
  | [] => Some ([], c)
  | x :: xs => r ← run x c; rs ← run_all xs r.2; Some (r.1 :: rs.1, rs.2)
  end.

Fixpoint spec_all (xs : list op) (U : uset) : list result * uset :=
  match xs with
  | [] => ([], U)
  | x :: xs => let r := spec x U in let rs := spec_all xs r.2 in (r.1 :: rs.1, rs.2)
  end.

Fixpoint contract_all (xs : list op) (U : uset) : Prop :=
  match xs with
  | [] => True
  | x :: xs => contract x U ∧ contract_all xs (spec x U).2
  end.

(** C10: A cache over any view, through any sequence of reads, additions, spendings,
    flushes and evictions, answers as the set of unspent outputs does, and never
    throws as long as the callers keep their promise on new coins. *)
Theorem coins_cache_refines xs c U :
  represents c U → contract_all xs U →
  ∃ c', run_all xs c = Some ((spec_all xs U).1, c') ∧ represents c' (spec_all xs U).2.
Proof.
  revert c U. induction xs as [|x xs IH]; intros c U Hr Hc; [by exists c|]. destruct Hc as [Hc Hcs].
  destruct (run_spec x c U Hr Hc) as (c1 & E1 & Hr1). destruct (IH c1 _ Hr1 Hcs) as (c2 & E2 & Hr2).
  exists c2. split; [|exact Hr2]. cbn [run_all]. rewrite E1. cbn [mbind option_bind snd fst]. rewrite E2. done.
Qed.

(** C21: [Flush] does not throw, empties the cache and leaves its whole set in the base. *)
Theorem coins_flush_correct c U :
  represents c U → ∃ c', Flush c = Some (true, c') ∧ cacheCoins c' = ∅ ∧ view_ok (base c') ∧
    (∀ o, utxo (base c') o = U o) ∧ represents c' U.
Proof.
  intros [Hok Hu]. destruct (Flush_spec c Hok) as (c' & E & [Hb He] & Hc0 & Hu1 & Hu2). exists c'.
  split; [done|]. split; [done|]. split; [done|].
  split; [intros o; by rewrite Hu1|]. split; [done|]. intros o. by rewrite Hu2.
Qed.

(** Adding a coin without the permission to overwrite fails exactly on a coin whose
    entry is in the cache and unspent (or on a coin that is null). *)
Theorem AddCoin_error o new ow c :
  AddCoin o new ow c = None ↔
  IsSpent new = true ∨
  (Script.IsUnspendable (scriptPubKey (out new)) = false ∧ ow = false ∧ ∃ e, cacheCoins c !! o = Some e ∧ IsSpent (coin e) = false).
Proof.
  unfold AddCoin. destruct (IsSpent new); [tauto|]. destruct (Script.IsUnspendable _).
  { split; [done|]. by intros [?|(? & _)]. }
  destruct ow; cbn [negb andb].
  { split; [done|]. by intros [?|(_ & ? & _)]. }
  destruct (cacheCoins c !! o) as [e|]; cbn.
  - destruct (IsSpent (coin e)) eqn:Es; cbn.
    + split; [done|]. intros [?|(_ & _ & e' & [= <-] & He)]; [done|]. by rewrite Es in He.
    + split; [|done]. intros _. right. split; [done|]. split; [done|]. by exists e.
  - split; [done|]. by intros [?|(_ & _ & e' & ? & _)].
Qed.
End Run.

(** ** A stack of two caches over the database *)

Definition some_coin (v : Z) : Coin := mkCoin false false (TxOut v [1; 2; 3]) 7.
Definition op1 : COutPoint := ([1], 0).
Definition op2 : COutPoint := ([2], 0).

Definition some_db : CCoinsViewDB := mkDB {[op1 := some_coin 10]} None.
Definition tip_cache : cache CCoinsViewDB := mkCache some_db ∅ UINT256_ZERO.
Definition block_cache : cache (cache CCoinsViewDB) := mkCache tip_cache ∅ UINT256_ZERO.

Lemma some_db_ok : view_ok some_db.
Proof. intros o c. cbn. intros [<- <-]%lookup_singleton_Some. done. Qed.

Lemma tip_cache_ok : cache_ok tip_cache.
Proof. split; [exact some_db_ok | by intros o e]. Qed.

Lemma block_cache_ok : cache_ok block_cache.
Proof. split; [exact tip_cache_ok | by intros o e]. Qed.

(** Spend a coin of the database, add another one, spend it, flush. *)
Lemma coins_cache_refines_witness :
  ∃ c', run_all [OpHave op1; OpSpend op1; OpAdd op2 (some_coin 20) false; OpAccess op2; OpSpend op2; OpFlush; OpHave op1]
          block_cache
        = Some ([RBool true; RCoin (Some (some_coin 10)); RNone; RCoin (Some (some_coin 20)); RCoin (Some (some_coin 20));
                 RBool true; RBool false], c') ∧
        represents c' (set_coin op2 None (set_coin op2 (Some (some_coin 20)) (set_coin op1 None (cache_utxo block_cache)))).
Proof.
  destruct (coins_cache_refines
    [OpHave op1; OpSpend op1; OpAdd op2 (some_coin 20) false; OpAccess op2; OpSpend op2; OpFlush; OpHave op1]
    block_cache (cache_utxo block_cache) (conj block_cache_ok (λ o, eq_refl))) as (c' & E & Hr).
  - cbn. repeat split.
  - exists c'. split; [exact E | exact Hr].
Defined.

Lemma coins_flush_correct_witness :
  ∃ c c', AddCoin op2 (some_coin 20) false block_cache = Some c ∧ Flush c = Some (true, c') ∧
    utxo (base c') op2 = Some (some_coin 20) ∧ utxo (base c') op1 = Some (some_coin 10).
Proof.
  destruct (AddCoin_represents op2 (some_coin 20) false block_cache (cache_utxo block_cache)
    (conj block_cache_ok (λ o, eq_refl)) (conj eq_refl (λ _, eq_refl))) as (c & E & Hr).
  destruct (coins_flush_correct c _ Hr) as (c' & Ef & _ & _ & Hu & _). exists c, c'.
  split; [exact E|]. split; [exact Ef|]. rewrite !Hu. split; reflexivity.
Defined.

End Coins.
