(* ===== verification/Block.v ===== *)
(** * src/primitives/block.{h,cpp} and [CheckBlock] of src/main.cpp: blocks

    Headers and blocks with their wire formats (two of whose fields are present only
    for some values of the others), the hash of a header, and the checks of a block
    that need no context beyond the active chain: header, Merkle root, size, position of
    coinbase and coinstake, payee, transactions, signature operations.

    The proof-of-work hash, the masternode payments and the formatting of messages are
    arguments.  [CheckBlock] also sets a flag of the block or records a rejection; that is
    the [effect] it returns.  [None] is an access out of range. *)

From stdpp Require Import base option gmap list.
From Stdlib Require Import ZArith Lia.
From Stdlib Require String.
Import (notations) String.
From S2P Require Import Prelude Sha256 Merkle Work Consensus Serialize Script Tx.
Import Serialize Consensus Tx.
Open Scope Z_scope.

(** ** Fields that depend on others *)

(** [READWRITE(a); if (..a..) READWRITE(b)]: the format of the second member depends on
    the first. *)
Definition dep_format {A B} (f : format A) (g : A → format B) : format (A * B) :=
  Format (λ p, Serialize f p.1 ++ Serialize (g p.1) p.2)
         (λ s, '(a, s) ← Unserialize f s; '(b, s) ← Unserialize (g a) s; Some ((a, b), s))
         (λ p, valid f p.1 ∧ valid (g p.1) p.2).

(** A member that is left at its initial value. *)
Definition absent {A} (x : A) : format A := Format (λ _, []) (λ s, Some (x, s)) (λ y, y = x).

#[export] Instance dep_lawful {A B} (f : format A) (g : A → format B) : Lawful f → (∀ a, Lawful (g a)) → Lawful (dep_format f g).
Proof.
  intros Hf Hg. split; cbn.
  - intros [a b] [Ha Hb]. cbn. apply Forall_app. split; by apply ser_bytes.
  - intros [a b] s [Ha Hb]. cbn in *. rewrite <- (assoc_L app), roundtrip by done. cbn. by rewrite roundtrip.
Qed.

#[export] Instance dep_canonical {A B} (f : format A) (g : A → format B) :
  Canonical f → (∀ a, Canonical (g a)) → Canonical (dep_format f g).
Proof.
  intros Hf Hg s [a b] t Hs. cbn. destruct (Unserialize f s) as [[a' s1]|] eqn:Ea; [|done]. cbn.
  destruct (Unserialize (g a') s1) as [[b' s2]|] eqn:Eb; [|done]. cbn. intros [= -> -> ->].
  apply canonical in Ea as [Ha ->]; [|done]. apply Forall_app in Hs as [_ Hs].
  apply canonical in Eb as [Hb ->]; [|done]. split; [done|]. by rewrite (assoc_L app).
Qed.

#[export] Instance absent_lawful {A} (x : A) : Lawful (absent x).
Proof. split; cbn; [by intros | by intros ? s ->]. Qed.
#[export] Instance absent_canonical {A} (x : A) : Canonical (absent x).
Proof. intros s y t _. cbn. by intros [= <- <-]. Qed.

Module Block.

(** ** Data *)

Record CBlockHeader : Type := mkHeader {
  nVersion : Z; hashPrevBlock : uint256; hashMerkleRoot : uint256; nTime : Z; nBits : Z; nNonce : Z; nAccumulatorCheckpoint : uint256
}.

(** [CBlockHeader::SetNull]. *)
Definition header_null : CBlockHeader := mkHeader 7 UINT256_ZERO UINT256_ZERO 0 0 0 UINT256_ZERO.
Definition header_IsNull (h : CBlockHeader) : bool := nBits h =? 0.

(** [fChecked] is kept in memory only. *)
Record CBlock : Type := mkBlock { header : CBlockHeader; vtx : list CTransaction; vchBlockSig : list Z; fChecked : bool }.

(** [vtx.size() > 1 && vtx[1].IsCoinStake()]. *)
Definition staked (vtx : list CTransaction) : bool := match vtx with _ :: tx :: _ => IsCoinStake tx | _ => false end.
Definition IsProofOfStake (block : CBlock) : bool := staked (vtx block).
Definition IsProofOfWork (block : CBlock) : bool := negb (IsProofOfStake block).

(** [GetPaidPayee]: the last output of the amount, else the last one; [None] is
    [vtx[0]] of an empty block. *)
Definition GetPaidPayee (block : CBlock) (nAmount : Z) : option CScript :=
  tx ← vtx block !! (if IsProofOfWork block then 0 else 1)%nat;
  Some match List.find (λ o, nValue o =? nAmount) (reverse (vout tx)) with
       | Some o => scriptPubKey o
       | None => match reverse (vout tx) with o :: _ => scriptPubKey o | [] => [] end
       end.

(** ** Wire format *)

Definition has_checkpoint (nVersion : Z) : bool := (nVersion >? 3) && (nVersion <? 7).

Definition CBlockHeader_format : format CBlockHeader :=
  object (λ h, ((nVersion h, (hashPrevBlock h, (hashMerkleRoot h, (nTime h, (nBits h, nNonce h))))), nAccumulatorCheckpoint h))
    (λ '((v, (p, (m, (t, (b, n))))), a), mkHeader v p m t b n a)
    (dep_format (pair_format i32 (pair_format (flat 32) (pair_format (flat 32) (pair_format u32 (pair_format u32 u32)))))
       (λ p, if has_checkpoint p.1 then flat 32 else absent UINT256_ZERO)).

Definition sizeof_CTransaction : Z := 96.

Definition CBlock_format : format CBlock :=
  object (λ b, ((header b, vtx b), vchBlockSig b)) (λ '((h, v), s), mkBlock h v s false)
    (dep_format (pair_format CBlockHeader_format (vector CTransaction_format sizeof_CTransaction))
       (λ p, if staked p.2 then bytes else absent [])).

#[export] Instance header_lawful : Lawful CBlockHeader_format.
Proof. unfold CBlockHeader_format. apply object_lawful, dep_lawful; [apply _|]. intros p. destruct (has_checkpoint p.1); apply _. Qed.
#[export] Instance header_canonical : Canonical CBlockHeader_format.
Proof.
  unfold CBlockHeader_format. apply object_canonical; [by intros [(? & ? & ? & ? & ? & ?) ?]|].
  apply dep_canonical; [apply _|]. intros p. destruct (has_checkpoint p.1); apply _.
Qed.
#[export] Instance block_lawful : Lawful CBlock_format.
Proof.
  unfold CBlock_format, sizeof_CTransaction. apply object_lawful, dep_lawful; [apply _|]. intros p. destruct (staked p.2); apply _.
Qed.
#[export] Instance block_canonical : Canonical CBlock_format.
Proof.
  unfold CBlock_format, sizeof_CTransaction. apply object_canonical; [by intros [[? ?] ?]|].
  apply dep_canonical; [apply _|]. intros p. destruct (staked p.2); apply _.
Qed.

(** ** Hashes *)

Definition Hash (ranges : list (list Z)) : uint256 := default [] (Sha256.Hash (replicate 64 0) ranges).

(** The bytes from [nVersion] to [nNonce], as they lie in memory. *)
Definition header_bytes (h : CBlockHeader) : list Z :=
  le_bytes 4 (nVersion h) ++ hashPrevBlock h ++ hashMerkleRoot h ++ le_bytes 4 (nTime h) ++ le_bytes 4 (nBits h) ++ le_bytes 4 (nNonce h).

Definition header_GetHash (HashX11KVS : list Z → uint256) (h : CBlockHeader) : uint256 :=
  if nVersion h <? 4 then HashX11KVS (header_bytes h) else Hash [Serialize CBlockHeader_format h].

Definition BlockMerkleRoot (vtx : list CTransaction) : option (uint256 * bool) :=
  Merkle.ComputeMerkleRoot UINT256_ZERO (λ a b, bool_decide (a = b)) (λ a b, Hash [a; b]) (map GetHash vtx).

(** [UintToArith256]: eight little-endian words. *)
Definition UintToArith256 (h : uint256) : list Z := map (λ i, le_word (take 4 (drop (4 * i) h))) (seq 0 8).

(** ** Signature operations *)

(** [unsigned int] sums. *)
Definition GetLegacySigOpCount (tx : CTransaction) : Z :=
  let nSigOps := fold_left (λ n i, (n + Script.GetSigOpCount false (scriptSig i)) mod 2 ^ 32) (vin tx) 0 in
  fold_left (λ n o, (n + Script.GetSigOpCount false (scriptPubKey o)) mod 2 ^ 32) (vout tx) nSigOps.

Definition MAX_BLOCK_SIZE_CURRENT : Z := 2000000.
Definition MAX_BLOCK_SIZE_LEGACY : Z := 1000000.
Definition MAX_BLOCK_SIGOPS_CURRENT : Z := MAX_BLOCK_SIZE_CURRENT / 50.
Definition MAX_BLOCK_SIGOPS_LEGACY : Z := MAX_BLOCK_SIZE_LEGACY / 50.

(** ** The checks of a block *)

Inductive effect : Type := NoEffect | SetChecked | InsertRejected.

Section Check.
Variable consensus : Params.
Variable fRegTest : bool.
Variable HashX11KVS : list Z → uint256.
(** The tip of the active chain (hash and height), the index by hash (heights), the state
    of the synchronization, and the payments to masternodes. *)
Variable tip : option (uint256 * Z).
Variable LookupBlockIndex : uint256 → option Z.
Variable IsInitialBlockDownload : bool.
Variable IsBlockPayeeValid : CBlock → Z → bool.
(** [strprintf] of a transaction check that failed. *)
Variable tx_failed : CTransaction → string → string.

Definition GetHash (block : CBlock) : uint256 := header_GetHash HashX11KVS (header block).

Definition CheckBlockHeader (block : CBlock) (fCheckPOW : bool) (state : CValidationState) : bool * CValidationState :=
  if fCheckPOW && negb (Work.CheckProofOfWork fRegTest (powLimit consensus) (UintToArith256 (GetHash block)) (nBits (header block)))
  then DoS 50 false REJECT_INVALID "high-hash"%string false "proof of work failed"%string state
  else (true, state).

(** The loop over the transactions. *)
Fixpoint check_transactions (txs : list CTransaction) (state : CValidationState) : bool * CValidationState :=
  match txs with
  | [] => (true, state)
  | tx :: txs =>
      let '(ok, state) := CheckTransaction consensus tx state in
      if ok then check_transactions txs state
      else Invalid false (chRejectCode state) (strRejectReason state) (tx_failed tx (strDebugMessage state)) state
  end.

(** The payee of a block on a known one; [inl] is a rejection. *)
Definition check_payee (block : CBlock) (state : CValidationState) : (bool * CValidationState * effect) + unit :=
  match tip with
  | None => inr ()
  | Some (tipHash, tipHeight) =>
      if bool_decide (hashPrevBlock (header block) = UINT256_ZERO) then inr ()
      else
        let pindexPrev := if bool_decide (tipHash = hashPrevBlock (header block)) then Some tipHeight
                          else LookupBlockIndex (hashPrevBlock (header block)) in
        match pindexPrev with
        | None => inl (Error "blk-out-of-order"%string state, NoEffect)
        | Some height =>
            if negb IsInitialBlockDownload && negb (IsBlockPayeeValid block height)
            then inl (DoS 0 false REJECT_INVALID "bad-cb-payee"%string false "Couldn't find masternode payment"%string state, InsertRejected)
            else inr ()
        end
  end.

(** The Merkle root; [Some None] lets the block pass. *)
Definition check_merkle (block : CBlock) (state : CValidationState) : option (option (bool * CValidationState)) :=
  '(hashMerkleRoot2, mutated) ← BlockMerkleRoot (vtx block);
  Some (if negb (bool_decide (hashMerkleRoot (header block) = hashMerkleRoot2))
        then Some (DoS 100 false REJECT_INVALID "bad-txnmrklroot"%string true "hashMerkleRoot mismatch"%string state)
        else if (mutated : bool)
        then Some (DoS 100 false REJECT_INVALID "bad-txns-duplicate"%string true "duplicate transaction"%string state)
        else None).

(** The size, and the places of coinbase and coinstake. *)
Definition check_layout (block : CBlock) (state : CValidationState) : option (bool * CValidationState) :=
  let dos reason debug := Some (DoS 100 false REJECT_INVALID reason false debug state) in
  match vtx block with
  | [] => dos "bad-blk-length"%string "size limits failed"%string
  | tx0 :: txs =>
      if (Z.of_nat (length (vtx block)) >? MAX_BLOCK_SIZE_CURRENT) || (GetSerializeSize CBlock_format block >? MAX_BLOCK_SIZE_CURRENT)
      then dos "bad-blk-length"%string "size limits failed"%string
      else if negb (IsCoinBase tx0) then dos "bad-cb-missing"%string "first tx is not coinbase"%string
      else if existsb IsCoinBase txs then dos "bad-cb-multiple"%string "more than one coinbase"%string
      else if IsProofOfStake block then
        if negb (match vout tx0 with [o] => IsEmpty o | _ => false end)
        then dos "bad-cb-pos"%string "coinbase output not empty for proof-of-stake block"%string
        else if negb (match txs with tx1 :: _ => IsCoinStake tx1 | [] => false end)
        then dos "bad-cs-missing"%string "second tx is not coinstake"%string
        else if existsb IsCoinStake (drop 1 txs) then dos "bad-cs-multiple"%string "more than one coinstake"%string
        else None
      else None
  end.

Definition CheckBlock (block : CBlock) (fCheckPOW fCheckMerkleRoot fCheckSig : bool) (state : CValidationState)
  : option (bool * CValidationState * effect) :=
  if fChecked block then Some (true, state, NoEffect)
  else
    let '(ok, state) := CheckBlockHeader block (negb (IsProofOfStake block) && fCheckPOW) state in
    if negb ok then Some (false, state, NoEffect)
    else
      merkle ← (if fCheckMerkleRoot then check_merkle block state else Some None);
      match merkle with
      | Some r => Some (r, NoEffect)
      | None =>
          match check_layout block state with
          | Some r => Some (r, NoEffect)
          | None =>
              match check_payee block state with
              | inl r => Some r
              | inr _ =>
                  let '(ok, state) := check_transactions (vtx block) state in
                  if negb ok then Some (false, state, NoEffect)
                  else
                    let nSigOps := fold_left (λ n tx, (n + GetLegacySigOpCount tx) mod 2 ^ 32) (vtx block) 0 in
                    if nSigOps >? MAX_BLOCK_SIGOPS_LEGACY
                    then Some (DoS 100 false REJECT_INVALID "bad-blk-sigops"%string true String.EmptyString state, NoEffect)
                    else Some (true, state, if fCheckPOW && fCheckMerkleRoot && fCheckSig then SetChecked else NoEffect)
              end
          end
      end.
End Check.

(** ** What the checks demand *)

Section CheckLaws.
Variable consensus : Params.
Variable fRegTest : bool.
Variable HashX11KVS : list Z → uint256.
Variable tip : option (uint256 * Z).
Variable LookupBlockIndex : uint256 → option Z.
Variable IsInitialBlockDownload : bool.
Variable IsBlockPayeeValid : CBlock → Z → bool.
Variable tx_failed : CTransaction → string → string.

Abbreviation CheckBlock :=
  (CheckBlock consensus fRegTest HashX11KVS tip LookupBlockIndex IsInitialBlockDownload IsBlockPayeeValid tx_failed).

(** One coinbase, in the first place; in a block with a coinstake in the second place the
    coinbase is empty and no other coinstake follows. *)
Definition layout_ok (block : CBlock) : Prop :=
  GetSerializeSize CBlock_format block <= MAX_BLOCK_SIZE_CURRENT ∧ Z.of_nat (length (vtx block)) <= MAX_BLOCK_SIZE_CURRENT ∧
  ∃ tx0 txs, vtx block = tx0 :: txs ∧ IsCoinBase tx0 = true ∧ Forall (λ tx, IsCoinBase tx = false) txs ∧
    (IsProofOfStake block = true →
      (∃ o, vout tx0 = [o] ∧ IsEmpty o = true) ∧ Forall (λ tx, IsCoinStake tx = false) (drop 1 txs)).

(** The payee is right, or it cannot be judged: no chain, the first block, or a node that
    is catching up. *)
Definition payee_ok (block : CBlock) : Prop :=
  tip = None ∨ hashPrevBlock (header block) = UINT256_ZERO ∨
  ∃ height, ((∃ h, tip = Some (h, height) ∧ h = hashPrevBlock (header block)) ∨
             ((∀ h x, tip = Some (h, x) → h ≠ hashPrevBlock (header block)) ∧ LookupBlockIndex (hashPrevBlock (header block)) = Some height)) ∧
            (IsInitialBlockDownload = true ∨ IsBlockPayeeValid block height = true).

Definition block_sigops (txs : list CTransaction) : Z := fold_left (λ n tx, (n + GetLegacySigOpCount tx) mod 2 ^ 32) txs 0.

Definition block_ok (block : CBlock) (fCheckPOW fCheckMerkleRoot : bool) : Prop :=
  (fCheckPOW = true → IsProofOfStake block = false →
     Work.CheckProofOfWork fRegTest (powLimit consensus) (UintToArith256 (GetHash HashX11KVS block)) (nBits (header block)) = true) ∧
  (fCheckMerkleRoot = true → BlockMerkleRoot (vtx block) = Some (hashMerkleRoot (header block), false)) ∧
  layout_ok block ∧ payee_ok block ∧ Forall (tx_ok consensus) (vtx block) ∧ block_sigops (vtx block) <= MAX_BLOCK_SIGOPS_LEGACY.

(** A verdict against the block: the state is no longer valid. *)
Definition refused (r : bool * CValidationState) : Prop := r.1 = false ∧ mode r.2 ≠ MODE_VALID.

Lemma DoS_refused level code reason corruption debug state : refused (DoS level false code reason corruption debug state).
Proof. unfold refused, DoS. by destruct (mode state). Qed.

Lemma check_transactions_spec txs : ∀ state, 0 <= nMaxMoneyOut consensus →
  Forall (tx_ok consensus) txs ∧ check_transactions consensus tx_failed txs state = (true, state) ∨
  ¬ Forall (tx_ok consensus) txs ∧ refused (check_transactions consensus tx_failed txs state).
Proof.
  intros state Hmax. induction txs as [|tx txs IH]; cbn [check_transactions]; [by left|].
  destruct (CheckTransaction_spec consensus tx state Hmax) as [[Hok ->]|[Hnot (level & reason & _ & ->)]].
  - destruct IH as [[Hf E]|[Hf E]]; [left | right]; (split; [|done]); [by constructor|]. intros Hc. by apply Forall_cons_1 in Hc as [_ Hc].
  - right. split; [intros Hc; by apply Forall_cons_1 in Hc as [Hc _]|]. unfold reject, Invalid, DoS.
    by destruct (mode state).
Qed.

Lemma check_payee_spec block state :
  payee_ok block ∧ check_payee tip LookupBlockIndex IsInitialBlockDownload IsBlockPayeeValid block state = inr () ∨
  ¬ payee_ok block ∧ ∃ r e, refused r ∧ check_payee tip LookupBlockIndex IsInitialBlockDownload IsBlockPayeeValid block state = inl (r, e).
Proof.
  unfold check_payee, payee_ok. destruct tip as [[h x]|]; [|left; split; [by left | done]].
  case_bool_decide as Hz; [left; split; [by right; left | done]|].
  set (prev := if bool_decide _ then Some x else _).
  assert (Hprev : ∀ height, ((∃ h', Some (h, x) = Some (h', height) ∧ h' = hashPrevBlock (header block)) ∨
    ((∀ h' x', Some (h, x) = Some (h', x') → h' ≠ hashPrevBlock (header block)) ∧ LookupBlockIndex (hashPrevBlock (header block)) = Some height))
    ↔ prev = Some height).
  { intros height. unfold prev. case_bool_decide as Hb.
    - split; [|intros [= <-]; left; by exists h]. intros [(h' & [= <- <-] & _)|[Hn _]]; [done|]. by destruct (Hn h x eq_refl).
    - split; [intros [(h' & [= <- _] & Hc)|[_ ?]]; done|]. intros E. right. split; [by intros h' x' [= <- <-] | done]. }
  destruct prev as [height|] eqn:Ep.
  - destruct IsInitialBlockDownload eqn:Ei; cbn [negb andb].
    { left. split; [|done]. right. right. exists height. split; [by apply Hprev | by left]. }
    destruct (IsBlockPayeeValid block height) eqn:Ev; cbn [negb].
    { left. split; [|done]. right. right. exists height. split; [by apply Hprev | by right]. }
    right. split; [|eexists _, _; split; [apply DoS_refused | done]].
    intros [|[|(y & Hy & [|Hp])]]; [done.. | ]. apply Hprev in Hy as [= <-]. congruence.
  - right. split; [|eexists _, _; split; [|done]; unfold refused, Error; done].
    intros [|[|(y & Hy & _)]]; [done.. | ]. by apply Hprev in Hy.
Qed.

Lemma check_layout_spec block state :
  layout_ok block ∧ check_layout block state = None ∨
  ¬ layout_ok block ∧ ∃ r, refused r ∧ check_layout block state = Some r.
Proof.
  unfold check_layout, layout_ok, IsProofOfStake. destruct (vtx block) as [|tx0 txs].
  { right. split; [by intros (_ & _ & ? & ? & ? & _) | eexists; split; [apply DoS_refused | done]]. }
  destruct (Z.gtb_spec (Z.of_nat (length (tx0 :: txs))) MAX_BLOCK_SIZE_CURRENT) as [Hl|Hl]; cbn [orb];
    [right; split; [lia | eexists; split; [apply DoS_refused | done]]|].
  destruct (Z.gtb_spec (GetSerializeSize CBlock_format block) MAX_BLOCK_SIZE_CURRENT) as [Hs|Hs];
    [right; split; [lia | eexists; split; [apply DoS_refused | done]]|].
  destruct (IsCoinBase tx0) eqn:E0; cbn [negb].
  2: { right. split; [intros (_ & _ & ? & ? & [= <- <-] & Hc & _); congruence | eexists; split; [apply DoS_refused | done]]. }
  destruct (existsb IsCoinBase txs) eqn:E1.
  { right. split; [|eexists; split; [apply DoS_refused | done]]. intros (_ & _ & ? & ? & [= <- <-] & _ & Hf & _).
    apply existsb_Forall in Hf. congruence. }
  apply existsb_Forall in E1. destruct (staked (tx0 :: txs)) eqn:Est.
  2: { left. split; [|done]. split; [done|]. split; [done|]. exists tx0, txs. by do 3 (split; [done|]). }
  destruct (match vout tx0 with [o] => IsEmpty o | _ => false end) eqn:Ev; cbn [negb].
  2: { right. split; [|eexists; split; [apply DoS_refused | done]]. intros (_ & _ & ? & ? & [= <- <-] & _ & _ & Hp).
       destruct (Hp eq_refl) as [(o & Eo & Ho) _]. by rewrite Eo, Ho in Ev. }
  assert (Et : match txs with tx1 :: _ => IsCoinStake tx1 | [] => false end = true) by (by destruct txs).
  rewrite Et. cbn [negb]. destruct (existsb IsCoinStake (drop 1 txs)) eqn:Ex.
  { right. split; [|eexists; split; [apply DoS_refused | done]]. intros (_ & _ & ? & ? & [= <- <-] & _ & _ & Hp).
    destruct (Hp eq_refl) as [_ Hf]. apply existsb_Forall in Hf. congruence. }
  left. split; [|done]. split; [done|]. split; [done|]. exists tx0, txs. do 3 (split; [done|]). intros _.
  split; [|by apply existsb_Forall]. destruct (vout tx0) as [|o [|]]; try done. by exists o.
Qed.

Lemma CheckBlockHeader_spec block fCheckPOW state :
  let ok := Work.CheckProofOfWork fRegTest (powLimit consensus) (UintToArith256 (GetHash HashX11KVS block)) (nBits (header block)) in
  (fCheckPOW = true → ok = true) ∧ CheckBlockHeader consensus fRegTest HashX11KVS block fCheckPOW state = (true, state) ∨
  ¬ (fCheckPOW = true → ok = true) ∧ refused (CheckBlockHeader consensus fRegTest HashX11KVS block fCheckPOW state).
Proof.
  intros ok. unfold CheckBlockHeader. fold ok. destruct fCheckPOW; [|by left]. destruct ok; [by left|]. right.
  split; [by intros Hc; specialize (Hc eq_refl) | apply DoS_refused].
Qed.

Lemma check_merkle_spec block state root mutated :
  BlockMerkleRoot (vtx block) = Some (root, mutated) →
  BlockMerkleRoot (vtx block) = Some (hashMerkleRoot (header block), false) ∧ check_merkle block state = Some None ∨
  BlockMerkleRoot (vtx block) ≠ Some (hashMerkleRoot (header block), false) ∧ ∃ r, refused r ∧ check_merkle block state = Some (Some r).
Proof.
  intros E. unfold check_merkle. rewrite E. cbn [mbind option_bind]. case_bool_decide as Hb; cbn [negb]; [destruct mutated|].
  - right. split; [done | eexists; split; [apply DoS_refused | done]].
  - left. by rewrite Hb.
  - right. split; [by intros [= -> _] | eexists; split; [apply DoS_refused | done]].
Qed.

Lemma CheckBlock_spec block pow merkle sig root mutated state :
  0 <= nMaxMoneyOut consensus → fChecked block = false → BlockMerkleRoot (vtx block) = Some (root, mutated) →
  (block_ok block pow merkle ∧ CheckBlock block pow merkle sig state = Some (true, state, if pow && merkle && sig then SetChecked else NoEffect)) ∨
  (¬ block_ok block pow merkle ∧ ∃ r e, refused r ∧ CheckBlock block pow merkle sig state = Some (r, e)).
Proof.
  intros Hmax Hchk Hroot. unfold Block.CheckBlock, block_ok. rewrite Hchk.
  destruct (CheckBlockHeader_spec block (negb (IsProofOfStake block) && pow) state) as [[Hpow ->]|[Hpow Hr]].
  2: { destruct (CheckBlockHeader _ _ _ _ _ _) as [ok st]. destruct Hr as [Hok Hst]. cbn in Hok, Hst. subst ok. cbn [negb].
       right. split; [|by exists (false, st), NoEffect]. intros [Hw _]. apply Hpow. intros [Hs%negb_true_iff ->]%andb_true_iff. auto. }
  cbn [negb]. set (m := if merkle then _ else _).
  assert (Hm : (merkle = true → BlockMerkleRoot (vtx block) = Some (hashMerkleRoot (header block), false)) ∧ m = Some None ∨
    ¬ (merkle = true → BlockMerkleRoot (vtx block) = Some (hashMerkleRoot (header block), false)) ∧ ∃ r, refused r ∧ m = Some (Some r)).
  { unfold m. destruct merkle; [|by left]. destruct (check_merkle_spec block state root mutated Hroot); [left | right]; tauto. }
  destruct Hm as [[Hm ->]|[Hm (r & Hr & ->)]]; [|right; split; [tauto | exists r, NoEffect; by split]]. cbn [mbind option_bind].
  destruct (check_layout_spec block state) as [[Hl ->]|[Hl (r & Hr & ->)]]; [|right; split; [tauto | exists r, NoEffect; by split]].
  destruct (check_payee_spec block state) as [[Hp ->]|[Hp (r & e & Hr & ->)]]; [|right; split; [tauto | exists r, e; by split]].
  destruct (check_transactions_spec (vtx block) state Hmax) as [[Ht ->]|[Ht Hr]]; cbn [negb].
  2: { destruct (check_transactions _ _ _ _) as [ok st]. destruct Hr as [Hok Hst]. cbn in Hok, Hst. subst ok.
       right. split; [tauto | by exists (false, st), NoEffect]. }
  fold (block_sigops (vtx block)). destruct (Z.gtb_spec (block_sigops (vtx block)) MAX_BLOCK_SIGOPS_LEGACY);
    [right; split; [lia | eexists _, _; split; [apply DoS_refused | done]] | left; split; [|done]].
  split; [|by do 4 (split; [done|])]. intros -> Hs. apply Hpow. by rewrite Hs.
Qed.
End CheckLaws.

(** ** Theorems *)

(** C33: A byte string is read as a block exactly when it is its serialization: the
    checkpoint of the header is present exactly for the versions 4 to 6 and the signature
    exactly for a block whose second transaction is a coinstake, and no block has a second
    encoding. *)
Theorem CBlock_codec s block t :
  Forall byte s →
  (Unserialize CBlock_format s = Some (block, t) ↔ valid CBlock_format block ∧ s = Serialize CBlock_format block ++ t).
Proof. intros Hs. split; [intros E; by apply canonical in E|]. intros [Hv ->]. by apply roundtrip. Qed.

(** C18: [CheckBlock] accepts exactly the blocks that satisfy its conditions, without touching
    the state, and then remembers the verdict only if everything was checked; every other
    block is refused with a state that is no longer valid. *)
Theorem CheckBlock_correct consensus fRegTest HashX11KVS tip LookupBlockIndex IsInitialBlockDownload IsBlockPayeeValid tx_failed
    block pow merkle sig root mutated state :
  0 <= nMaxMoneyOut consensus → fChecked block = false → BlockMerkleRoot (vtx block) = Some (root, mutated) →
  let check := CheckBlock consensus fRegTest HashX11KVS tip LookupBlockIndex IsInitialBlockDownload IsBlockPayeeValid tx_failed in
  let ok := block_ok consensus fRegTest HashX11KVS tip LookupBlockIndex IsInitialBlockDownload IsBlockPayeeValid block pow merkle in
  (ok ∧ check block pow merkle sig state = Some (true, state, if pow && merkle && sig then SetChecked else NoEffect)) ∨
  (¬ ok ∧ ∃ state' e, mode state' ≠ MODE_VALID ∧ check block pow merkle sig state = Some (false, state', e)).
Proof.
  intros Hmax Hchk Hroot check ok.
  destruct (CheckBlock_spec consensus fRegTest HashX11KVS tip LookupBlockIndex IsInitialBlockDownload IsBlockPayeeValid tx_failed
    block pow merkle sig root mutated state Hmax Hchk Hroot) as [?|[Hn ([b st] & e & [Hb Hst] & E)]]; [by left|].
  right. split; [done|]. exists st, e. cbn in Hb, Hst. subst b. by split.
Qed.

(** ** A block *)

Definition some_coinbase : CTransaction :=
  let f := (1, ([mkTxIn null_outpoint [1; 2; 3] UINT32_MAX []], ([TxOut 50 [0x51]], 0))) in
  mkTx (UpdateHash f) f.1 f.2.1 f.2.2.1 f.2.2.2.

Definition some_block : CBlock := mkBlock (mkHeader 3 (replicate 32 9) (hash some_coinbase) 100 0x207fffff 5 UINT256_ZERO) [some_coinbase] [] false.

Lemma CBlock_codec_witness :
  Unserialize CBlock_format (Serialize CBlock_format some_block ++ [7]) = Some (some_block, [7]).
Proof.
  assert (Hw : ∀ w x, (0 <=? x) && (x <? 2 ^ w) = true → word w x) by (intros w x [?%Z.leb_le ?%Z.ltb_lt]%andb_true_iff; by split).
  assert (Hb : ∀ l, forallb (λ b, (0 <=? b) && (b <? 256)) l = true → Forall byte l).
  { intros l Hl. apply List.Forall_forall. intros x Hx. apply Hw. by apply (proj1 (List.forallb_forall _ _) Hl). }
  apply (CBlock_codec (Serialize CBlock_format some_block ++ [7]) some_block [7]).
  - apply Hb. vm_compute. reflexivity.
  - split; [|done]. split; [|done]. split; [split|done].
    + split; [|done]. split; [|done]. split; [by split|]. split; [split; [by apply Hb | done]|].
      split; [split; [apply Hb; vm_compute; reflexivity | vm_compute; reflexivity]|]. split; [by apply Hw | split; by apply Hw].
    + split; [|done]. apply Forall_singleton. split; [|reflexivity]. split; [by split|]. split; [|split; [|by apply Hw]].
      * split; [|done]. apply Forall_singleton. split; [|reflexivity]. split; [split; [split; [by apply Hb | done] | by apply Hw]|].
        split; [split; [by apply Hb | done] | by apply Hw].
      * split; [|done]. apply Forall_singleton. split; [|reflexivity]. split; [by split | split; [by apply Hb | done]].
Defined.

Lemma CheckBlock_correct_witness :
  CheckBlock main_params true (λ _, UINT256_ZERO) None (λ _, None) false (λ _ _, false) (λ _ s, s) some_block true true true
    CValidationState_init = Some (true, CValidationState_init, SetChecked).
Proof.
  destruct (CheckBlock_correct main_params true (λ _, UINT256_ZERO) None (λ _, None) false (λ _ _, false) (λ _ s, s) some_block true true true
    (hash some_coinbase) false CValidationState_init) as [[_ E]|[Hn _]];
    [discriminate | reflexivity | vm_compute; reflexivity | exact E |].
  exfalso. apply Hn. split; [done|]. split; [intros _; vm_compute; reflexivity|].
  split; [|split; [by left|split]].
  - split; [vm_compute; discriminate|]. split; [vm_compute; discriminate|]. exists some_coinbase, []. by repeat split.
  - apply Forall_singleton. split; [done|]. split; [done|]. split; [vm_compute; discriminate|].
    split; [split; [by apply Forall_singleton | done]|]. split; [apply NoDup_singleton|]. change (∀ i, vin some_coinbase = [i] → 2 <= Z.of_nat (length (scriptSig i)) <= 150). by intros i [= <-].
  - vm_compute. discriminate.
Defined.

End Block.
