(* ===== verification/Undo.v ===== *)
(** * src/compressor.{h,cpp}, src/undo.h, the format of coins and undo files

    The compact formats of amounts, scripts and outputs, the coins of the database and
    the undo data of a block on disk.  [CPubKey] of pubkey.{h,cpp} is modelled as far as
    the compression uses it, over the two functions of secp256k1 that parse and print a
    point.  An object that is read starts as its default constructor leaves it.  The
    undo file is the list of its bytes; opening and writing it does not fail here. *)

From stdpp Require Import base option numbers list.
From Stdlib Require Import ZArith Lia.
From S2P Require Import Prelude Serialize Script Sha256 Consensus Tx Coins Block.
Import Serialize Tx.
Open Scope Z_scope.

Module Undo.

Abbreviation Coin := Coins.Coin.
Abbreviation mkCoin := Coins.mkCoin.
Abbreviation nHeight := Coins.nHeight.
Abbreviation fCoinBase := Coins.fCoinBase.
Abbreviation fCoinStake := Coins.fCoinStake.
Abbreviation MAX_SCRIPT_SIZE := Script.MAX_SCRIPT_SIZE.
Abbreviation OP_DUP := Script.OP_DUP.
Abbreviation OP_HASH160 := Script.OP_HASH160.
Abbreviation OP_EQUAL := Script.OP_EQUAL.
Abbreviation OP_EQUALVERIFY := Script.OP_EQUALVERIFY.
Abbreviation OP_CHECKSIG := Script.OP_CHECKSIG.
Abbreviation OP_RETURN := Script.OP_RETURN.

(** ** Amounts *)

Definition uint64 (x : Z) : Z := x mod 2 ^ 64.

(** [while (((n % 10) == 0) && e < 9)]; [fuel] is [9 - e]. *)
Fixpoint strip_zeros (fuel : nat) (n e : Z) : Z * Z :=
  match fuel with
  | O => (n, e)
  | S fuel => if n mod 10 =? 0 then strip_zeros fuel (n / 10) (e + 1) else (n, e)
  end.

(** [None] is the failed assertion on the digit. *)
Definition CompressAmount (n : Z) : option Z :=
  if n =? 0 then Some 0
  else
    let (n, e) := strip_zeros 9 n 0 in
    if e <? 9 then
      let d := n mod 10 in
      if (1 <=? d) && (d <=? 9) then
        let n := n / 10 in
        Some (uint64 (1 + (n * 9 + d - 1) * 10 + e))
      else None
    else Some (uint64 (1 + (n - 1) * 10 + 9)).

(** [while (e) { n *= 10; e--; }] *)
Fixpoint add_zeros (e : nat) (n : Z) : Z :=
  match e with O => n | S e => add_zeros e (uint64 (n * 10)) end.

Definition DecompressAmount (x : Z) : Z :=
  if x =? 0 then 0
  else
    let x := x - 1 in
    let e := x mod 10 in
    let x := x / 10 in
    let n :=
      if e <? 9 then
        let d := x mod 9 + 1 in
        let x := x / 9 in
        uint64 (x * 10 + d)
      else uint64 (x + 1) in
    add_zeros (Z.to_nat e) n.

(** ** Public keys *)

(** secp256k1_ec_pubkey_parse, and secp256k1_ec_pubkey_serialize in the uncompressed
    form. *)
Class Secp256k1 : Type := {
  secp256k1_pubkey : Type;
  ec_pubkey_parse : list Z → option secp256k1_pubkey;
  ec_pubkey_serialize : secp256k1_pubkey → list Z
}.

(** The uncompressed form has 65 bytes, 04 and the two coordinates; the compressed form
    of the same point, the parity of the second coordinate and the first coordinate, is
    parsed to the same point; what is parsed from the uncompressed form prints as it. *)
Class Secp256k1Laws (secp : Secp256k1) : Prop := {
  serialize_size p : length (ec_pubkey_serialize p) = 65%nat;
  serialize_header p : head (ec_pubkey_serialize p) = Some 4;
  parse_uncompressed x y p :
    length x = 32%nat → length y = 32%nat → ec_pubkey_parse (4 :: x ++ y) = Some p →
    ec_pubkey_serialize p = 4 :: x ++ y ∧ ec_pubkey_parse (2 + (nth 31 y 0 .& 1) :: x) = Some p
}.

(** A key is kept as its bytes; its length follows from the first byte. *)
Definition GetLen (chHeader : Z) : Z :=
  if (chHeader =? 2) || (chHeader =? 3) then 33
  else if (chHeader =? 4) || (chHeader =? 6) || (chHeader =? 7) then 65
  else 0.

Definition Invalid : list Z := [0xFF].

Definition Set_key (b : list Z) : list Z :=
  let len := match b with [] => 0 | h :: _ => GetLen h end in
  if negb (len =? 0) && (len =? Z.of_nat (length b)) then b else Invalid.

Definition key_size (vch : list Z) : Z := GetLen (nth 0 vch 0xFF).
Definition IsValid (vch : list Z) : bool := key_size vch >? 0.

Section Compressor.
Context `{secp : Secp256k1}.

Definition IsFullyValid (vch : list Z) : bool :=
  if negb (IsValid vch) then false else match ec_pubkey_parse vch with Some _ => true | None => false end.

Definition Decompress_key (vch : list Z) : option (list Z) :=
  if negb (IsValid vch) then None
  else pubkey ← ec_pubkey_parse vch; Some (Set_key (ec_pubkey_serialize pubkey)).

(** ** Scripts *)

Abbreviation size := (λ l : list Z, Z.of_nat (length l)).

Definition IsToKeyID (script : CScript) : option (list Z) :=
  if (size script =? 25) && (nth 0 script 0 =? OP_DUP) && (nth 1 script 0 =? OP_HASH160) && (nth 2 script 0 =? 20)
     && (nth 23 script 0 =? OP_EQUALVERIFY) && (nth 24 script 0 =? OP_CHECKSIG)
  then Some (take 20 (drop 3 script)) else None.

Definition IsToScriptID (script : CScript) : option (list Z) :=
  if (size script =? 23) && (nth 0 script 0 =? OP_HASH160) && (nth 1 script 0 =? 20) && (nth 22 script 0 =? OP_EQUAL)
  then Some (take 20 (drop 2 script)) else None.

Definition IsToPubKey (script : CScript) : option (list Z) :=
  if (size script =? 35) && (nth 0 script 0 =? 33) && (nth 34 script 0 =? OP_CHECKSIG)
     && ((nth 1 script 0 =? 0x02) || (nth 1 script 0 =? 0x03))
  then Some (Set_key (take 33 (drop 1 script)))
  else if (size script =? 67) && (nth 0 script 0 =? 65) && (nth 66 script 0 =? OP_CHECKSIG) && (nth 1 script 0 =? 0x04)
  then let pubkey := Set_key (take 65 (drop 1 script)) in
       if IsFullyValid pubkey then Some pubkey else None
  else None.

Definition Compress (script : CScript) : option (list Z) :=
  match IsToKeyID script with
  | Some keyID => Some (0x00 :: keyID)
  | None =>
      match IsToScriptID script with
      | Some scriptID => Some (0x01 :: scriptID)
      | None =>
          match IsToPubKey script with
          | Some pubkey =>
              let x := take 32 (drop 1 pubkey) in
              if (nth 0 pubkey 0 =? 0x02) || (nth 0 pubkey 0 =? 0x03) then Some (nth 0 pubkey 0 :: x)
              else if nth 0 pubkey 0 =? 0x04 then Some ((0x04 .| (nth 64 pubkey 0 .& 0x01)) :: x)
              else None
          | None => None
          end
      end
  end.

Definition nSpecialScripts : Z := 6.

Definition GetSpecialSize (nSize : Z) : Z :=
  if (nSize =? 0) || (nSize =? 1) then 20
  else if (nSize =? 2) || (nSize =? 3) || (nSize =? 4) || (nSize =? 5) then 32
  else 0.

(** The new script; a failed decompression leaves the old one.  The outer [None] is the
    failed assertion on the size of the key. *)
Definition Decompress (nSize : Z) (vch : list Z) (script : CScript) : option CScript :=
  if nSize =? 0x00 then Some ([OP_DUP; OP_HASH160; 20] ++ take 20 vch ++ [OP_EQUALVERIFY; OP_CHECKSIG])
  else if nSize =? 0x01 then Some ([OP_HASH160; 20] ++ take 20 vch ++ [OP_EQUAL])
  else if (nSize =? 0x02) || (nSize =? 0x03) then Some ([33; nSize] ++ take 32 vch ++ [OP_CHECKSIG])
  else if (nSize =? 0x04) || (nSize =? 0x05) then
    match Decompress_key (Set_key ((nSize - 2) :: take 32 vch)) with
    | None => Some script
    | Some pubkey => if key_size pubkey =? 65 then Some ([65] ++ pubkey ++ [OP_CHECKSIG]) else None
    end
  else Some script.

Definition Serialize_script (script : CScript) : list Z :=
  match Compress script with
  | Some compr => compr
  | None => Serialize (varint 32) ((size script + nSpecialScripts) mod 2 ^ 32) ++ script
  end.

Definition Unserialize_script (script : CScript) (s : stream) : option (CScript * stream) :=
  '(nSize, s) ← Unserialize (varint 32) s;
  if nSize <? nSpecialScripts then
    '(vch, s) ← read (GetSpecialSize nSize) s;
    script ← Decompress nSize vch script;
    Some (script, s)
  else
    let nSize := nSize - nSpecialScripts in
    if nSize >? MAX_SCRIPT_SIZE then
      '(_, s) ← read nSize s;
      Some (script ++ [OP_RETURN], s)
    else read nSize s.

Definition CScriptCompressor : format CScript :=
  Format Serialize_script (Unserialize_script []) (λ script, Forall byte script ∧ size script <= MAX_SCRIPT_SIZE).

(** ** Outputs and coins *)

(** The amounts whose compressed form fits in 64 bits. *)
Definition amount_ok (n : Z) : Prop := 0 <= n ∧ 9 * n < 2 ^ 64.

(** The values are converted to unsigned 64-bit ones and back. *)
Definition amount_format : format Z :=
  Format (λ n, Serialize (varint 64) (default 0 (CompressAmount (uint64 n))))
         (λ s, '(nVal, s) ← Unserialize (varint 64) s; Some (signed 64 (DecompressAmount nVal), s))
         amount_ok.

Definition CTxOutCompressor : format CTxOut :=
  object (λ o, (nValue o, scriptPubKey o)) (λ '(v, s), mkTxOut v s (-10)) (pair_format amount_format CScriptCompressor).

(** Height and flags in one number. *)
Definition coin_code (c : Coin) : Z :=
  (nHeight c * 4 + (if fCoinBase c then 2 else 0) + (if fCoinStake c then 1 else 0)) mod 2 ^ 32.

(** What can be written: an output of a valid amount with a script of valid size. *)
Definition coin_ok (c : Coin) : Prop :=
  0 <= nHeight c < 2 ^ 30 ∧ valid CTxOutCompressor (Coins.out c).

(** The assertion [!IsSpent()] holds for every coin the format carries: its amount is not
    negative. *)
Definition Coin_format : format Coin :=
  Format (λ c, Serialize (varint 32) (coin_code c) ++ Serialize CTxOutCompressor (Coins.out c))
         (λ s, '(code, s) ← Unserialize (varint 32) s;
               '(out, s) ← Unserialize CTxOutCompressor s;
               Some (mkCoin (negb (code .& 2 =? 0)) (negb (code .& 1 =? 0)) out (code >> 2), s))
         coin_ok.

(** [TxInUndoSerializer] and [TxInUndoDeserializer]: for heights above 0 a number
    follows that older versions used. *)
Definition TxInUndo_format : format Coin :=
  Format (λ c, Serialize (varint 32) (coin_code c) ++ (if nHeight c >? 0 then Serialize u8 0 else [])
               ++ Serialize CTxOutCompressor (Coins.out c))
         (λ s, '(nCode, s) ← Unserialize (varint 32) s;
               s ← (if nCode >> 2 >? 0 then '(_, s) ← Unserialize (varint 32) s; Some s else Some s);
               '(out, s) ← Unserialize CTxOutCompressor s;
               Some (mkCoin (negb (nCode .& 2 =? 0)) (negb (nCode .& 1 =? 0)) out (nCode >> 2), s))
         coin_ok.

Definition MAX_INPUTS_PER_BLOCK : Z :=
  Block.MAX_BLOCK_SIZE_CURRENT / GetSerializeSize CTxIn_format (mkTxIn null_outpoint [] UINT32_MAX []).

Definition CTxUndo_format : format (list Coin) :=
  Format (λ vprevout, WriteCompactSize (Z.of_nat (length vprevout)) ++ flat_map (Serialize TxInUndo_format) vprevout)
         (λ s, '(count, s) ← ReadCompactSize s;
               if count >? MAX_INPUTS_PER_BLOCK then None
               else read_items TxInUndo_format (Z.to_nat count) [] s)
         (λ vprevout, Forall coin_ok vprevout ∧ Z.of_nat (length vprevout) <= MAX_INPUTS_PER_BLOCK).

Definition sizeof_CTxUndo : Z := 24.
Definition CBlockUndo_format : format (list (list Coin)) := vector CTxUndo_format sizeof_CTxUndo.

(** ** The undo file *)

(** Bytes written over a file from a position on. *)
Definition write_at (pos : nat) (b file : list Z) : list Z := take pos file ++ b ++ drop (pos + length b) file.

(** [CHashWriter], [CHashVerifier]: the double hash of all the bytes that were written to
    it; how they were split does not matter. *)
Definition GetHash (ranges : list (list Z)) : uint256 := default [] (Sha256.Hash (replicate 64 0) ranges).

(** The file after the write, and the position of the data in it. *)
Definition UndoWriteToDisk (MessageStart : list Z) (blockundo : list (list Coin)) (pos : nat) (hashBlock : uint256) (file : list Z)
  : list Z * nat :=
  let nSize := GetSerializeSize CBlockUndo_format blockundo mod 2 ^ 32 in
  let header := MessageStart ++ Serialize u32 nSize in
  let data := Serialize CBlockUndo_format blockundo in
  let hasher := GetHash [hashBlock; data] in
  (write_at pos (header ++ data ++ hasher) file, (pos + length header)%nat).

Definition UndoReadFromDisk (file : list Z) (pos : nat) (hashBlock : uint256) : option (list (list Coin)) :=
  let filein := drop pos file in
  '(blockundo, s) ← Unserialize CBlockUndo_format filein;
  let verified := take (length filein - length s) filein in
  '(hashChecksum, _) ← Unserialize (flat 32) s;
  if bool_decide (hashChecksum = GetHash [hashBlock; verified]) then Some blockundo else None.

(** ** Amounts are read back *)

Lemma uint64_small x : 0 <= x < 2 ^ 64 → uint64 x = x.
Proof. intros H. by apply Z.mod_small. Qed.

(** The loop divides by the powers of ten it counts. *)
Lemma strip_zeros_spec fuel n e : 0 < n → ∃ m k,
  strip_zeros fuel n e = (m, e + Z.of_nat k) ∧ (k <= fuel)%nat ∧ n = m * 10 ^ Z.of_nat k ∧ 0 < m ∧ ((k < fuel)%nat → m mod 10 ≠ 0).
Proof.
  revert n e. induction fuel as [|fuel IH]; intros n e Hn; cbn [strip_zeros].
  - exists n, 0%nat. rewrite Z.add_0_r, Z.pow_0_r. repeat split; lia.
  - destruct (Z.eqb_spec (n mod 10) 0) as [E|E].
    + assert (Hd : n = 10 * (n / 10)) by (apply Z.div_exact; lia).
      destruct (IH (n / 10) (e + 1) ltac:(lia)) as (m & k & -> & Hk & Hm & Hp & Hz). exists m, (S k).
      split; [f_equal; lia|]. split; [lia|]. split; [|split; [done|intros; apply Hz; lia]].
      rewrite Nat2Z.inj_succ, Z.pow_succ_r by lia. lia.
    + exists n, 0%nat. rewrite Z.add_0_r, Z.pow_0_r. repeat split; lia.
Qed.

Lemma add_zeros_spec e n : 0 <= n → n * 10 ^ Z.of_nat e < 2 ^ 64 → add_zeros e n = n * 10 ^ Z.of_nat e.
Proof.
  revert n. induction e as [|e IH]; intros n Hn Hb; cbn [add_zeros]; [by rewrite Z.pow_0_r, Z.mul_1_r|].
  rewrite Nat2Z.inj_succ, Z.pow_succ_r in Hb |- * by lia. assert (1 <= 10 ^ Z.of_nat e) by (apply (Z.pow_le_mono_r 10 0); lia).
  rewrite uint64_small by nia. rewrite IH by lia. lia.
Qed.

(** Every amount up to a ninth of 2^64 is compressed to a number that is not greater
    than nine times it (up to the constant), and restored. *)
Lemma CompressAmount_spec n :
  amount_ok n → ∃ x, CompressAmount n = Some x ∧ word 64 x ∧ DecompressAmount x = n.
Proof.
  intros [Hn Hb]. unfold CompressAmount. destruct (Z.eqb_spec n 0) as [->|Hn0]; [by exists 0|].
  destruct (strip_zeros_spec 9 n 0 ltac:(lia)) as (m & k & -> & Hk & Hm & Hp & Hz). rewrite Z.add_0_l.
  assert (Hpow : 1 <= 10 ^ Z.of_nat k) by (apply (Z.pow_le_mono_r 10 0); lia).
  assert (Hmn : m <= n) by nia. destruct (Z.ltb_spec (Z.of_nat k) 9) as [Hk9|Hk9].
  - specialize (Hz ltac:(lia)). pose proof (Z.mod_pos_bound m 10 ltac:(lia)) as Hd. pose proof (Z.div_mod m 10 ltac:(lia)) as Em.
    rewrite (proj2 (Z.leb_le 1 (m mod 10))), (proj2 (Z.leb_le (m mod 10) 9)) by lia. cbn [andb].
    assert (Hq : 0 <= m / 10) by (apply Z.div_pos; lia). set (q := m / 10) in *. set (d := m mod 10) in *.
    rewrite uint64_small by lia. eexists. split; [done|]. split; [split; lia|]. unfold DecompressAmount.
    destruct (Z.eqb_spec (1 + (q * 9 + d - 1) * 10 + Z.of_nat k) 0) as [|_]; [lia|].
    replace (1 + (q * 9 + d - 1) * 10 + Z.of_nat k - 1) with (Z.of_nat k + (q * 9 + d - 1) * 10) by lia.
    rewrite (Z.mod_add _ _ 10), (Z.div_add _ _ 10), (Z.mod_small _ 10), (Z.div_small _ 10), Z.add_0_l by lia.
    rewrite (proj2 (Z.ltb_lt (Z.of_nat k) 9)) by lia. replace (q * 9 + d - 1) with (d - 1 + q * 9) by lia.
    rewrite (Z.mod_add _ _ 9), (Z.div_add _ _ 9), (Z.mod_small _ 9), (Z.div_small _ 9), Z.add_0_l by lia.
    rewrite uint64_small by lia. replace (q * 10 + (d - 1 + 1)) with m by lia.
    rewrite Nat2Z.id, add_zeros_spec by lia. lia.
  - assert (k = 9%nat) as -> by lia. change (10 ^ Z.of_nat 9) with 1000000000 in *.
    rewrite uint64_small by lia. eexists. split; [done|]. split; [split; lia|]. unfold DecompressAmount.
    destruct (Z.eqb_spec (1 + (m - 1) * 10 + 9) 0) as [|_]; [lia|].
    replace (1 + (m - 1) * 10 + 9 - 1) with (9 + (m - 1) * 10) by lia.
    rewrite Z.mod_add, Z.div_add, (Z.mod_small 9), (Z.div_small 9), Z.add_0_l by lia.
    change (9 <? 9) with false. cbv iota. rewrite uint64_small by lia. change (Z.to_nat 9) with 9%nat.
    rewrite add_zeros_spec by (change (10 ^ Z.of_nat 9) with 1000000000; lia). change (10 ^ Z.of_nat 9) with 1000000000. lia.
Qed.

#[export] Instance amount_lawful : Lawful amount_format.
Proof.
  assert (H : ∀ n, amount_ok n → ∃ x, CompressAmount (uint64 n) = Some x ∧ word 64 x ∧ signed 64 (DecompressAmount x) = n).
  { intros n Hn. assert (Hu : uint64 n = n) by (apply uint64_small; destruct Hn; lia). rewrite Hu.
    destruct (CompressAmount_spec n Hn) as (x & -> & Hx & E). exists x. split; [done|]. split; [done|]. rewrite E.
    destruct Hn as [H1 H2]. unfold signed. destruct (Z.ltb_spec n (2 ^ (64 - 1))); [done|].
    change (2 ^ (64 - 1)) with (2 ^ 63) in *. change (2 ^ 64) with (2 * 2 ^ 63) in *. lia. }
  split; cbn [amount_format Serialize Unserialize valid].
  - intros n Hn. destruct (H n Hn) as (x & -> & Hx & _). cbn [default]. by apply (ser_bytes (f := varint 64)).
  - intros n s Hn. destruct (H n Hn) as (x & -> & Hx & E). change (default 0 (Some x)) with x.
    rewrite (roundtrip (f := varint 64)) by done. cbn [mbind option_bind]. by rewrite E.
Qed.

(** ** Scripts are read back *)

Lemma varint_small n s : 0 <= n <= 0x7F → Unserialize (varint 32) (n :: s) = Some (n, s).
Proof.
  intros Hn. change (n :: s) with ([n] ++ s). replace [n] with (Serialize (varint 32) n).
  - apply roundtrip. split; [lia|]. change (2 ^ 32) with 4294967296. lia.
  - assert (En : n .& 0x7F = n) by (change 0x7F with (Z.ones 7); rewrite Z.land_ones by lia; apply Z.mod_small; lia).
    cbn [varint Serialize]. unfold WriteVarInt. change (Z.to_nat ((32 + 6) / 7)) with 5%nat. cbn [varint_digits].
    rewrite (proj2 (Z.leb_le n 0x7F)), En by lia. change (0 =? 0) with true. cbv iota. rewrite Z.lor_0_r. reflexivity.
Qed.

(** The first byte of a key gives its length. *)
Lemma Set_key_valid h b : GetLen h = Z.of_nat (Datatypes.S (length b)) → Set_key (h :: b) = h :: b ∧ IsValid (h :: b) = true.
Proof.
  intros E. unfold Set_key, IsValid, key_size. cbn [nth length]. rewrite E, Z.eqb_refl.
  destruct (Z.eqb_spec (Z.of_nat (Datatypes.S (length b))) 0); [lia|]. split; [done|]. rewrite Z.gtb_ltb. apply Z.ltb_lt. lia.
Qed.

(** A list with its first and its last element. *)
Lemma ends (l : list Z) n : length l = Datatypes.S (Datatypes.S n) → ∃ a b z, l = a :: b ++ [z] ∧ length b = n.
Proof.
  intros H. destruct l as [|a l]; [done|]. destruct l as [|z b _] using rev_ind; [done|].
  rewrite length_cons, length_app in H. cbn in H. exists a, b, z. split; [done|lia].
Qed.

Lemma nth_end (b : list Z) z n : length b = n → nth n (b ++ [z]) 0 = z.
Proof. intros <-. by rewrite nth_middle. Qed.

Ltac split_tests := repeat (rewrite andb_true_iff in * || rewrite orb_true_iff in * || rewrite Z.eqb_eq in *).

Lemma IsToKeyID_Some script h : IsToKeyID script = Some h →
  script = [OP_DUP; OP_HASH160; 20] ++ h ++ [OP_EQUALVERIFY; OP_CHECKSIG] ∧ length h = 20%nat.
Proof.
  unfold IsToKeyID. destruct (_ && _) eqn:E; [|done]. split_tests. destruct E as [[[[[Hl H0] H1] H2] H3] H4]. intros [= <-].
  assert (Hl' : length script = 25%nat) by lia. do 3 (destruct script as [|? script]; [done|]).
  do 20 (destruct script as [|? script]; [done|]). destruct script as [|? [|? [|]]]; try done.
  cbn in *. by subst.
Qed.

Lemma IsToScriptID_Some script h : IsToScriptID script = Some h →
  script = [OP_HASH160; 20] ++ h ++ [OP_EQUAL] ∧ length h = 20%nat.
Proof.
  unfold IsToScriptID. destruct (_ && _) eqn:E; [|done]. split_tests. destruct E as [[[Hl H0] H1] H2]. intros [= <-].
  assert (Hl' : length script = 23%nat) by lia. do 2 (destruct script as [|? script]; [done|]).
  do 20 (destruct script as [|? script]; [done|]). destruct script as [|? [|]]; try done.
  cbn in *. by subst.
Qed.

(** A compressed key, or an uncompressed one that is a point. *)
Lemma IsToPubKey_Some script k : IsToPubKey script = Some k →
  ∃ h x, script = [Z.of_nat (length k)] ++ k ++ [OP_CHECKSIG] ∧ k = h :: x ∧
  ((h = 2 ∨ h = 3) ∧ length x = 32%nat ∨ h = 4 ∧ length x = 64%nat ∧ ∃ p, ec_pubkey_parse k = Some p).
Proof.
  unfold IsToPubKey. destruct (_ && _) eqn:E; [clear -E; intros [= <-]|].
  - split_tests. destruct E as [[[Hl H0] H1] H2]. destruct (ends script 33 ltac:(lia)) as (a & b & z & -> & Hb).
    change (nth 34 (a :: b ++ [z]) 0) with (nth 33 (b ++ [z]) 0) in H1. rewrite (nth_end _ _ _ Hb) in H1.
    destruct b as [|h x]; [done|]. cbn [nth app] in H0, H2. cbn [length] in Hb. injection Hb as Hb.
    change (drop 1 (a :: (h :: x) ++ [z])) with ((h :: x) ++ [z]) in *. rewrite take_app_length' by (cbn [length]; lia). assert (E : Set_key (h :: x) = h :: x).
    { apply Set_key_valid. rewrite Hb. destruct H2 as [-> | ->]; reflexivity. }
    rewrite E. exists h, x. subst a z. split; [cbn [length]; rewrite Hb; done|]. split; [done|]. left. done.
  - match goal with |- (if ?c then _ else _) = _ → _ => destruct c eqn:E2 end; [clear E; rename E2 into E|done]. split_tests. destruct E as [[[Hl H0] H1] H2].
    destruct (ends script 65 ltac:(lia)) as (a & b & z & -> & Hb).
    change (nth 66 (a :: b ++ [z]) 0) with (nth 65 (b ++ [z]) 0) in H1. rewrite (nth_end _ _ _ Hb) in H1.
    destruct b as [|h x]; [done|]. cbn [nth app] in H0, H2. cbn [length] in Hb. injection Hb as Hb.
    change (drop 1 (a :: (h :: x) ++ [z])) with ((h :: x) ++ [z]) in *. rewrite take_app_length' by (cbn [length]; lia). subst h.
    destruct (Set_key_valid 4 x) as [-> Hv]; [by rewrite Hb|]. unfold IsFullyValid. rewrite Hv. cbn [negb].
    destruct (ec_pubkey_parse (4 :: x)) as [p|] eqn:Ep; [|done]. intros [= <-].
    exists 4, x. subst a z. split; [cbn [length]; by rewrite Hb|]. split; [done|]. right. eauto.
Qed.

Lemma low_bit y : (0x04 .| (y .& 1)) - 2 = 2 + (y .& 1) ∧ ((y .& 1) = 0 ∨ (y .& 1) = 1).
Proof.
  change 1 with (Z.ones 1). rewrite Z.land_ones by lia. change (2 ^ 1) with 2. pose proof (Z.mod_pos_bound y 2 ltac:(lia)).
  assert (y mod 2 = 0 ∨ y mod 2 = 1) as [-> | ->] by lia; auto.
Qed.

Lemma Decompress_pubkey `{!Secp256k1Laws secp} y x p script :
  length x = 32%nat → length y = 32%nat → ec_pubkey_parse (4 :: x ++ y) = Some p →
  Decompress (0x04 .| (nth 31 y 0 .& 1)) x script = Some ([65] ++ (4 :: x ++ y) ++ [OP_CHECKSIG]).
Proof.
  intros Hx Hy Ep. destruct (parse_uncompressed x y p Hx Hy Ep) as [Hs Hc]. destruct (low_bit (nth 31 y 0)) as [E2 Hb].
  unfold Decompress. rewrite E2, (take_ge x 32) by lia.
  assert (Hk : Set_key (2 + (nth 31 y 0 .& 1) :: x) = 2 + (nth 31 y 0 .& 1) :: x ∧ IsValid (2 + (nth 31 y 0 .& 1) :: x) = true).
  { apply Set_key_valid. rewrite Hx. destruct Hb as [-> | ->]; reflexivity. }
  destruct Hk as [Hk Hv]. rewrite Hk. unfold Decompress_key. rewrite Hv, Hc. cbn [negb mbind option_bind]. rewrite Hs.
  destruct (Set_key_valid 4 (x ++ y)) as [Hk4 _]; [by rewrite length_app, Hx, Hy|]. rewrite Hk4. change (key_size (4 :: x ++ y)) with 65.
  destruct Hb as [-> | ->]; reflexivity.
Qed.

Context `{!Secp256k1Laws secp}.

(** A special script is a number below 6 and the bytes that number asks for. *)
Lemma Compress_spec script compr old :
  Compress script = Some compr → Forall byte script →
  ∃ n x, compr = n :: x ∧ 0 <= n < nSpecialScripts ∧ Z.of_nat (length x) = GetSpecialSize n ∧ Forall byte x ∧
         Decompress n x old = Some script.
Proof.
  unfold Compress. destruct (IsToKeyID script) as [h|] eqn:E1; [|destruct (IsToScriptID script) as [h|] eqn:E2; [|destruct (IsToPubKey script) as [k|] eqn:E3; [|done]]].
  - apply IsToKeyID_Some in E1 as [-> Hl]. intros [= <-] Hb. exists 0, h. split; [done|]. split; [done|]. split; [by rewrite Hl|].
    apply Forall_app in Hb as [_ Hb]. apply Forall_app in Hb as [Hb _]. split; [done|]. cbn -[take app]. by rewrite take_ge by lia.
  - apply IsToScriptID_Some in E2 as [-> Hl]. intros [= <-] Hb. exists 1, h. split; [done|]. split; [done|]. split; [by rewrite Hl|].
    apply Forall_app in Hb as [_ Hb]. apply Forall_app in Hb as [Hb _]. split; [done|]. cbn -[take app]. by rewrite take_ge by lia.
  - apply IsToPubKey_Some in E3 as (h & x & -> & -> & Hk). cbn [nth]. intros E Hb.
    apply Forall_app in Hb as [_ Hb]. apply Forall_app in Hb as [Hb _]. apply Forall_cons_1 in Hb as [Hh Hb].
    change (drop 1 (h :: x)) with x in E. destruct Hk as [[Hh' Hl]|(-> & Hl & p & Ep)].
    + rewrite (take_ge x 32) in E by lia. exists h, x. split; [destruct Hh' as [-> | ->]; by injection E as <-|].
      split; [destruct Hh' as [-> | ->]; done|]. split; [rewrite Hl; destruct Hh' as [-> | ->]; done|]. split; [done|].
      unfold Decompress. rewrite (take_ge x 32) by lia. cbn [length]. rewrite Hl. destruct Hh' as [-> | ->]; reflexivity.
    + rewrite <- (take_drop 32 x) in Ep, Hb, E |- *. set (a := take 32 x) in *. set (y := drop 32 x) in *.
      assert (Ha : length a = 32%nat) by (subst a; rewrite length_take; lia).
      assert (Hy : length y = 32%nat) by (subst y; rewrite length_drop; lia).
      cbn -[Z.lor Z.land nth take app] in E. rewrite take_app_length' in E by done. injection E as <-.
      change (nth 64 (4 :: a ++ y) 0) with (nth 63 (a ++ y) 0). rewrite app_nth2 by lia. rewrite Ha. change (63 - 32)%nat with 31%nat.
      destruct (low_bit (nth 31 y 0)) as [E4 Hbit]. eexists _, a. split; [done|].
      assert (Hn : (0x04 .| (nth 31 y 0 .& 1)) = 4 ∨ (0x04 .| (nth 31 y 0 .& 1)) = 5) by lia.
      split; [destruct Hn as [-> | ->]; done|]. split; [rewrite Ha; destruct Hn as [-> | ->]; done|].
      split; [by apply Forall_app in Hb as [? _]|].
      rewrite (Decompress_pubkey y a p old Ha Hy Ep). cbn [length]. by rewrite length_app, Ha, Hy.
Qed.

#[export] Instance script_lawful : Lawful CScriptCompressor.
Proof.
  unfold MAX_SCRIPT_SIZE. split; cbn [CScriptCompressor Serialize Unserialize valid]; intros script; [intros [Hb Hl]|intros s [Hb Hl]]; unfold Serialize_script;
    destruct (Compress script) as [compr|] eqn:E.
  - destruct (Compress_spec _ _ [] E Hb) as (n & x & -> & Hn & _ & Hx & _). constructor; [|done]. unfold nSpecialScripts in Hn. split; [lia|]. change (2 ^ 8) with 256. lia.
  - apply Forall_app. split; [|done]. apply (ser_bytes (f := varint 32)). apply word_mod. lia.
  - destruct (Compress_spec _ _ [] E Hb) as (n & x & -> & Hn & Hx & _ & Hd). unfold nSpecialScripts in Hn.
    unfold Unserialize_script. rewrite <- app_comm_cons, varint_small by lia. cbn [mbind option_bind].
    rewrite (proj2 (Z.ltb_lt n nSpecialScripts)) by (unfold nSpecialScripts; lia).
    rewrite read_app by done. cbn [mbind option_bind]. by rewrite Hd.
  - unfold nSpecialScripts, Unserialize_script. rewrite Z.mod_small by (change (2 ^ 32) with 4294967296; unfold Script.MAX_SCRIPT_SIZE in Hl; lia).
    unfold Script.MAX_SCRIPT_SIZE in *. rewrite <- (assoc_L app), (roundtrip (f := varint 32)) by (split; change (2 ^ 32) with 4294967296; lia).
    cbn [mbind option_bind]. unfold nSpecialScripts. destruct (Z.ltb_spec (Z.of_nat (length script) + 6) 6) as [|_]; [lia|].
    replace (Z.of_nat (length script) + 6 - 6) with (Z.of_nat (length script)) by lia.
    rewrite Z.gtb_ltb, (proj2 (Z.ltb_ge 10000 _)) by lia. by apply read_app.
Qed.

#[export] Instance txout_lawful : Lawful CTxOutCompressor.
Proof. apply _. Qed.

(** ** Coins and undo data are read back *)

Lemma coin_code_spec c : 0 <= nHeight c < 2 ^ 30 →
  word 32 (coin_code c) ∧ coin_code c >> 2 = nHeight c ∧ negb (coin_code c .& 2 =? 0) = fCoinBase c ∧ negb (coin_code c .& 1 =? 0) = fCoinStake c.
Proof.
  intros Hh. unfold coin_code. set (b := if fCoinBase c then 2 else 0). set (t := if fCoinStake c then 1 else 0).
  assert (Hbt : 0 <= b + t < 4) by (subst b t; destruct (fCoinBase c), (fCoinStake c); lia).
  change (2 ^ 30) with 1073741824 in Hh. split; [apply word_mod; lia|].
  rewrite Z.mod_small by (change (2 ^ 32) with 4294967296; lia).
  replace (nHeight c * 4 + b + t) with (b + t + nHeight c * 2 ^ 2) by lia. split.
  - rewrite Z.shiftr_div_pow2 by lia. change (2 ^ 2) with 4. rewrite Z.div_add, Z.div_small by lia. done.
  - assert (Hlow : ∀ m, m = 1 ∨ m = 2 → (b + t + nHeight c * 2 ^ 2) .& m = (b + t) .& m).
    { intros m Hm. apply Z.bits_inj'. intros i Hi. rewrite !Z.land_spec.
      destruct (Z.lt_ge_cases i 2) as [H2|H2].
      - f_equal. rewrite <- (Z.mod_pow2_bits_low (b + t + nHeight c * 2 ^ 2) 2 i), <- (Z.mod_pow2_bits_low (b + t) 2 i) by lia.
        by rewrite Z.mod_add by lia.
      - replace (Z.testbit m i) with false; [by rewrite !andb_false_r|]. symmetry.
        destruct Hm as [-> | ->]; (apply Z.bits_above_log2; [lia|cbn; lia]). }
    rewrite !Hlow by auto. subst b t. by destruct (fCoinBase c), (fCoinStake c).
Qed.

Lemma coin_eta c : mkCoin (fCoinBase c) (fCoinStake c) (Coins.out c) (nHeight c) = c.
Proof. by destruct c. Qed.

#[export] Instance coin_lawful : Lawful Coin_format.
Proof.
  split; cbn [Coin_format Serialize Unserialize valid].
  - intros c [Hh Hc]. destruct (coin_code_spec c Hh) as [Hw _]. apply Forall_app. split; [by apply (ser_bytes (f := varint 32))|by apply (ser_bytes (f := CTxOutCompressor))].
  - intros c s [Hh Hc]. destruct (coin_code_spec c Hh) as (Hw & E1 & E2 & E3).
    rewrite <- (assoc_L app), (roundtrip (f := varint 32)) by done. cbn [mbind option_bind].
    rewrite (roundtrip (f := CTxOutCompressor)) by done. cbn [mbind option_bind]. by rewrite E1, E2, E3, coin_eta.
Qed.

#[export] Instance txinundo_lawful : Lawful TxInUndo_format.
Proof.
  split; cbn [TxInUndo_format Serialize Unserialize valid].
  - intros c [Hh Hc]. destruct (coin_code_spec c Hh) as [Hw _]. apply Forall_app. split; [by apply (ser_bytes (f := varint 32))|].
    apply Forall_app. split; [|by apply (ser_bytes (f := CTxOutCompressor))].
    destruct (nHeight c >? 0); [|done]. by apply (ser_bytes (f := u8)).
  - intros c s [Hh Hc]. destruct (coin_code_spec c Hh) as (Hw & E1 & E2 & E3).
    rewrite <- !(assoc_L app), (roundtrip (f := varint 32)) by done. cbn [mbind option_bind]. rewrite E1, E2, E3.
    destruct (nHeight c >? 0).
    + change (Serialize u8 0) with [0]. cbn [app]. rewrite varint_small by lia. cbn [mbind option_bind].
      rewrite (roundtrip (f := CTxOutCompressor)) by done. cbn [mbind option_bind]. by rewrite coin_eta.
    + cbn [mbind option_bind app]. rewrite (roundtrip (f := CTxOutCompressor)) by done. cbn [mbind option_bind]. by rewrite coin_eta.
Qed.

Lemma MAX_INPUTS_value : MAX_INPUTS_PER_BLOCK = 48780.
Proof. vm_compute. reflexivity. Qed.

#[export] Instance txundo_lawful : Lawful CTxUndo_format.
Proof.
  split; cbn [CTxUndo_format Serialize Unserialize valid]; rewrite MAX_INPUTS_value.
  - intros l [Hl Hn]. apply Forall_app. split; [apply (ser_bytes (f := compact_size)); cbn; unfold MAX_SIZE; lia|].
    clear Hn. induction Hl as [|c l Hc Hl IH]; [constructor|]. cbn [flat_map]. apply Forall_app. split; [by apply (ser_bytes (f := TxInUndo_format))|done].
  - intros l s [Hl Hn]. rewrite <- (assoc_L app), WriteCompactSize_read by (unfold MAX_SIZE; lia). cbn [mbind option_bind].
    rewrite Z.gtb_ltb, (proj2 (Z.ltb_ge 48780 _)), Nat2Z.id by lia.
    by apply (read_items_write TxInUndo_format).
Qed.

#[export] Instance blockundo_lawful : Lawful CBlockUndo_format.
Proof. unfold CBlockUndo_format, sizeof_CTxUndo. apply vector_lawful; [lia|apply _]. Qed.

(** ** The inputs of a block fit *)

Lemma length_WriteCompactSize n : (1 <= length (WriteCompactSize n))%nat.
Proof. unfold WriteCompactSize, ser_writedata8, ser_writedata16, ser_writedata32, ser_writedata64. repeat case_match; rewrite ?length_app, ?length_le_bytes; lia. Qed.

Lemma txin_size i : valid CTxIn_format i → (41 <= length (Serialize CTxIn_format i))%nat.
Proof.
  intros [[[[_ Hh] _] _] _]. cbn in Hh. cbn -[WriteCompactSize le_bytes]. unfold Serialize_bytes, ser_writedata32, id.
  rewrite !length_app, !length_le_bytes. pose proof (length_WriteCompactSize (Z.of_nat (length (scriptSig i)))). lia.
Qed.

Lemma flat_map_size {A} (f : A → list Z) k l : Forall (λ x, k <= length (f x))%nat l → (k * length l <= length (flat_map f l))%nat.
Proof. induction 1 as [|x l Hx Hl IH]; cbn [flat_map length]; [lia|]. rewrite length_app. lia. Qed.

Lemma flat_map_elem {A} (f : A → list Z) x l : x ∈ l → (length (f x) <= length (flat_map f l))%nat.
Proof. induction 1; cbn [flat_map]; rewrite length_app; lia. Qed.

Lemma block_inputs block tx :
  valid Block.CBlock_format block → GetSerializeSize Block.CBlock_format block <= Block.MAX_BLOCK_SIZE_CURRENT →
  tx ∈ Block.vtx block → Z.of_nat (length (vin tx)) <= MAX_INPUTS_PER_BLOCK.
Proof.
  intros [[[_ [Hv _]] _] _] Hsize Htx. cbn [fst snd] in Hv. rewrite MAX_INPUTS_value. unfold Block.MAX_BLOCK_SIZE_CURRENT in Hsize.
  assert (H1 : (length (Serialize CTransaction_format tx) <= length (Serialize Block.CBlock_format block))%nat).
  { cbn -[Block.CBlockHeader_format CTransaction_format WriteCompactSize bytes absent]. unfold Serialize_vector. rewrite !length_app.
    pose proof (flat_map_elem (Serialize CTransaction_format) tx _ Htx). lia. }
  apply (proj1 (Forall_forall _ _) Hv) in Htx as [Ht _]. destruct Ht as (_ & [Hin _] & _). cbn [fields fst snd] in Hin.
  assert (H2 : (41 * length (vin tx) <= length (Serialize CTransaction_format tx))%nat).
  { cbn -[CTxIn_format CTxOut_format WriteCompactSize le_bytes]. unfold Serialize_vector at 1. rewrite !length_app.
    pose proof (flat_map_size (Serialize CTxIn_format) 41 (vin tx)) as H. etransitivity; [apply H|lia].
    eapply Forall_impl; [exact Hin|]. apply txin_size. }
  unfold GetSerializeSize in Hsize. lia.
Qed.

(** ** Theorems *)

(** What [UpdateCoins] stores for the transactions of a block after the first: one coin
    per input. *)
Definition undo_of_block (block : Block.CBlock) (u : list (list Coin)) : Prop :=
  Forall2 (λ tx l, length l = length (vin tx) ∧ Forall coin_ok l) (tail (Block.vtx block)) u.

Lemma undo_of_block_valid block u :
  valid Block.CBlock_format block → GetSerializeSize Block.CBlock_format block <= Block.MAX_BLOCK_SIZE_CURRENT →
  undo_of_block block u → valid CBlockUndo_format u.
Proof.
  intros Hb Hs Hu. split.
  - assert (Hall : Forall (λ tx, Z.of_nat (length (vin tx)) <= MAX_INPUTS_PER_BLOCK) (tail (Block.vtx block))).
    { apply Forall_forall. intros tx Htx. apply (block_inputs block); [done|done|]. destruct (Block.vtx block); [done|]. by right. }
    red in Hu. clear Hb Hs. induction Hu as [|tx l txs u [Hl Hc] Hu IH]; [constructor|]. apply Forall_cons_1 in Hall as [H1 H2].
    constructor; [split; [done|lia]|by apply IH].
  - apply Forall2_length in Hu. destruct Hb as [[[_ [_ Hl]] _] _]. cbn [fst snd] in Hl. rewrite <- Hu.
    destruct (Block.vtx block); cbn [tail length] in *; lia.
Qed.

Lemma GetHash_spec h data : Forall byte h → Forall byte data → Z.of_nat (length h + length data) < 2 ^ 61 →
  GetHash [h; data] = Sha256.sha256d (h ++ data) ∧ length (GetHash [h; data]) = 32%nat.
Proof.
  intros Hh Hd Hl. unfold GetHash. rewrite Sha256.Hash_sha256d.
  - cbn [concat]. rewrite app_nil_r. split; [done|]. apply Sha256.sha256_output.
  - rewrite length_replicate. lia.
  - repeat constructor; done.
  - cbn [concat]. rewrite app_nil_r, length_app. lia.
Qed.

(** The compact formats lose nothing.  Every amount up to 2^64 / 9 (more than any amount
    of money) is compressed without wrapping and restored.  A coin of such an amount,
    with a script that can be spent (at most 10000 bytes) and a height below 2^30, is
    read back from the database, and from the undo data with its extra field; scripts
    that pay to a key hash, a script hash or a key take the special forms. *)
Theorem compressed_coin_roundtrip c s :
  coin_ok c →
  (∃ x, CompressAmount (nValue (Coins.out c)) = Some x ∧ word 64 x ∧ DecompressAmount x = nValue (Coins.out c)) ∧
  Unserialize Coin_format (Serialize Coin_format c ++ s) = Some (c, s) ∧
  Unserialize TxInUndo_format (Serialize TxInUndo_format c ++ s) = Some (c, s) ∧
  (∀ h, length h = 20%nat →
     Serialize CScriptCompressor ([OP_DUP; OP_HASH160; 20] ++ h ++ [OP_EQUALVERIFY; OP_CHECKSIG]) = 0 :: h ∧
     Serialize CScriptCompressor ([OP_HASH160; 20] ++ h ++ [OP_EQUAL]) = 1 :: h).
Proof.
  intros Hc. split; [apply CompressAmount_spec; apply Hc|]. split; [by apply roundtrip|]. split; [by apply roundtrip|].
  intros h Hh. do 20 (destruct h as [|? h]; [done|]). destruct h; [|done]. split; reflexivity.
Qed.

(** C35: The undo data of a block on disk.  For every block that passed the size check of
    [CheckBlock], the undo data written for it is read back whole from the position
    [UndoWriteToDisk] returns, the bytes of the file before it are untouched, and the
    checksum binds it to the hash of the previous block: a read for another hash gives
    the data only if double SHA-256 collides, and fails otherwise. *)
Theorem undo_file_roundtrip block u MessageStart pos hashBlock file :
  valid Block.CBlock_format block → GetSerializeSize Block.CBlock_format block <= Block.MAX_BLOCK_SIZE_CURRENT →
  undo_of_block block u → GetSerializeSize CBlockUndo_format u < 2 ^ 32 →
  Forall byte hashBlock → length hashBlock = 32%nat → (pos <= length file)%nat →
  let '(file', pos') := UndoWriteToDisk MessageStart u pos hashBlock file in
  UndoReadFromDisk file' pos' hashBlock = Some u ∧
  take pos file' = take pos file ∧
  ∀ other, Forall byte other → length other = 32%nat →
    UndoReadFromDisk file' pos' other =
    if bool_decide (Sha256.sha256d (hashBlock ++ Serialize CBlockUndo_format u) = Sha256.sha256d (other ++ Serialize CBlockUndo_format u))
    then Some u else None.
Proof.
  intros Hb Hs Hu Hsize Hh Hlh Hpos. pose proof (undo_of_block_valid _ _ Hb Hs Hu) as Hv. unfold GetSerializeSize in Hsize.
  change (2 ^ 32) with 4294967296 in Hsize. unfold UndoWriteToDisk. set (head := MessageStart ++ _).
  pose proof (ser_bytes (f := CBlockUndo_format) u Hv) as Hby. set (data := Serialize CBlockUndo_format u) in *.
  assert (Hrt : ∀ t, Unserialize CBlockUndo_format (data ++ t) = Some (u, t)) by (intros t; by apply roundtrip).
  assert (Hhash : ∀ h, Forall byte h → length h = 32%nat → GetHash [h; data] = Sha256.sha256d (h ++ data) ∧ length (GetHash [h; data]) = 32%nat).
  { intros h H1 H2. apply GetHash_spec; [done|done|]. rewrite H2. change (2 ^ 61) with 2305843009213693952. lia. }
  assert (Hread : ∀ other, Forall byte other → length other = 32%nat →
    UndoReadFromDisk (write_at pos (head ++ data ++ GetHash [hashBlock; data]) file) (pos + length head) other =
    if bool_decide (Sha256.sha256d (hashBlock ++ data) = Sha256.sha256d (other ++ data)) then Some u else None).
  { intros other Ho Hlo. destruct (Hhash _ Hh Hlh) as [E1 L1]. destruct (Hhash _ Ho Hlo) as [E2 L2].
    unfold UndoReadFromDisk, write_at. set (rest := drop (pos + _) file).
    assert (Hlt : length (take pos file) = pos) by (rewrite length_take; lia).
    rewrite <- drop_drop, drop_app_length' by done. rewrite <- !(assoc_L app), drop_app_length.
    rewrite Hrt. cbn [mbind option_bind].
    rewrite (length_app data). replace (length data + _ - _)%nat with (length data) by lia. rewrite take_app_length.
    cbn [flat Unserialize]. rewrite read_app by (rewrite L1; done). cbn [mbind option_bind]. by rewrite E1, E2. }
  split; [rewrite Hread by done; by rewrite bool_decide_true|]. split; [|exact Hread].
  unfold write_at. rewrite take_app_le by (rewrite length_take; lia). rewrite take_take. f_equal. lia.
Qed.

End Compressor.

(** ** Witnesses *)

(** A toy curve: the points are the keys whose second coordinate is 0 or 1. *)
Definition toy_curve : Secp256k1 := {|
  secp256k1_pubkey := bool * list Z;
  ec_pubkey_parse k :=
    match k with
    | h :: b =>
        if bool_decide (h = 2 ∧ length b = 32%nat) || bool_decide (h = 4 ∧ drop 32 b = replicate 31 0 ++ [0]) then Some (false, take 32 b)
        else if bool_decide (h = 3 ∧ length b = 32%nat) || bool_decide (h = 4 ∧ drop 32 b = replicate 31 0 ++ [1]) then Some (true, take 32 b)
        else None
    | [] => None
    end;
  ec_pubkey_serialize '(odd, x) := 4 :: take 32 (x ++ replicate 32 0) ++ replicate 31 0 ++ [if odd : bool then 1 else 0]
|}.

Lemma toy_laws : Secp256k1Laws toy_curve.
Proof.
  split.
  - intros [odd x]. cbn [toy_curve ec_pubkey_serialize length]. rewrite !length_app, length_take, length_app, !length_replicate. cbn [length]. lia.
  - by intros [odd x].
  - intros x y [odd x'] Hx Hy. cbn [toy_curve ec_pubkey_parse ec_pubkey_serialize].
    assert (H24 : ∀ P : Prop, ∀ d : Decision (4 = 2 ∧ P), bool_decide (4 = 2 ∧ P) = false) by (intros; apply bool_decide_false; by intros [? _]).
    assert (H34 : ∀ P : Prop, ∀ d : Decision (4 = 3 ∧ P), bool_decide (4 = 3 ∧ P) = false) by (intros; apply bool_decide_false; by intros [? _]).
    rewrite H24, H34. cbn [orb]. rewrite drop_app_length', take_app_length' by done.
    assert (Hpad : take 32 (x ++ replicate 32 0) = x) by (by rewrite take_app_length').
    destruct (bool_decide_reflect (4 = 4 ∧ y = replicate 31 0 ++ [0])) as [[_ ->]|_];
      [|destruct (bool_decide_reflect (4 = 4 ∧ y = replicate 31 0 ++ [1])) as [[_ ->]|_]; [|done]]; intros [= <- <-]; rewrite Hpad; (split; [done|]).
    + rewrite (bool_decide_true (_ ∧ length x = 32%nat)) by done. cbn [orb]. by rewrite take_ge by lia.
    + rewrite (bool_decide_false (_ = 2 ∧ _)) by (by intros [? _]). rewrite (bool_decide_false (_ = 4 ∧ _)) by (by intros [? _]).
      rewrite (bool_decide_true (_ = 3 ∧ length x = 32%nat)) by done. cbn [orb]. by rewrite take_ge by lia.
Qed.

(** A coin that pays to the key of x-coordinate 7, in the uncompressed form. *)
Definition some_coin : Coin :=
  mkCoin false true (TxOut 123450000000 ([65] ++ (4 :: (replicate 31 0 ++ [7]) ++ replicate 31 0 ++ [1]) ++ [OP_CHECKSIG])) 1000.

Lemma some_coin_ok : @coin_ok toy_curve some_coin.
Proof.
  split; [cbn; lia|]. split; [|reflexivity]. split.
  - split; cbn; lia.
  - split; [|vm_compute; discriminate]. apply Forall_forall. intros x Hx.
    assert (Hb : forallb (λ x, (0 <=? x) && (x <? 256)) (scriptPubKey (Coins.out some_coin)) = true) by (vm_compute; reflexivity).
    rewrite forallb_forall in Hb. apply list_elem_of_In, Hb in Hx. apply andb_true_iff in Hx as [H1%Z.leb_le H2%Z.ltb_lt]. split; [done|].
    exact H2.
Qed.

Lemma compressed_coin_roundtrip_witness :
  @Serialize _ (@CScriptCompressor toy_curve) (scriptPubKey (Coins.out some_coin)) = 5 :: replicate 31 0 ++ [7] ∧
  Unserialize (@Coin_format toy_curve) (Serialize (@Coin_format toy_curve) some_coin ++ [9]) = Some (some_coin, [9]).
Proof.
  split; [vm_compute; reflexivity|]. apply (@compressed_coin_roundtrip toy_curve toy_laws some_coin [9] some_coin_ok).
Defined.

Definition two_block : Block.CBlock := Block.mkBlock Block.header_null [some_tx; some_tx] [] false.

Lemma two_block_valid : valid Block.CBlock_format two_block.
Proof.
  split; [|reflexivity]. split; [|by vm_compute]. split.
  - assert (Hz : Forall byte UINT256_ZERO) by (apply Forall_replicate; by split).
    split; [|reflexivity]. split; [|reflexivity]. repeat split; try done; vm_compute; discriminate.
  - split; [|vm_compute; discriminate]. repeat constructor; apply some_tx_valid.
Qed.

Lemma undo_file_roundtrip_witness :
  let '(file', pos') := @UndoWriteToDisk toy_curve [1; 2; 3; 4] [[some_coin]] 2 (replicate 32 8) [5; 6] in
  pos' = 10%nat ∧ @UndoReadFromDisk toy_curve file' pos' (replicate 32 8) = Some [[some_coin]].
Proof.
  assert (Hb : Forall byte (replicate 32 8)) by (apply Forall_replicate; by split).
  assert (Hs : GetSerializeSize Block.CBlock_format two_block <= Block.MAX_BLOCK_SIZE_CURRENT) by (vm_compute; discriminate).
  assert (Hu : @undo_of_block toy_curve two_block [[some_coin]]) by (constructor; [split; [done|apply Forall_singleton, some_coin_ok]|constructor]).
  assert (Hn : GetSerializeSize (@CBlockUndo_format toy_curve) [[some_coin]] < 2 ^ 32) by (vm_compute; reflexivity).
  pose proof (@undo_file_roundtrip toy_curve toy_laws two_block [[some_coin]] [1; 2; 3; 4] 2 (replicate 32 8) [5; 6] two_block_valid Hs Hu Hn Hb
    eq_refl ltac:(cbn; lia)) as H.
  split; [reflexivity|exact (proj1 H)].
Defined.

End Undo.
