(* ===== verification/CheckQueue.v ===== *)
(** * src/checkqueue.h: the queue of script checks and its worker threads

    ConnectBlock hands the checks of the scripts of a block to a pool of threads.  The
    state below is the one the mutex protects, with the place of every thread in
    [Loop]; thread 0 is the master, the thread that adds the checks and then joins the
    workers in [Wait].  A step of the relation is one critical section of one thread,
    or the work a thread does on its own batch outside the lock: what two threads do at
    once is some interleaving of these steps.

    A thread that blocks on a condition variable is [Waiting]; a notification marks it,
    and a later step of that thread takes the lock again.  A wake-up without a
    notification is a step too: condition variables allow it.  [notify_one] wakes any
    one of the threads that wait.  A check is a value of any type with a test
    ([operator()]) that always gives the same answer and does not throw; the
    interruption of the threads at shutdown is left out.  [nTodo] is an unsigned int
    and wraps. *)

From stdpp Require Import base option list.
From Stdlib Require Import ZArith Lia.
From S2P Require Import Prelude.
Open Scope Z_scope.

Create HintDb checkqueue.

Module CheckQueue.

(** [unsigned int] *)
Definition uint (x : Z) : Z := x mod 2 ^ 32.

(** Where a thread is: not in [Loop]; about to take the lock for the first time; blocked
    in [cond.wait]; executing a batch; about to take the lock after a batch (the code
    keeps the size [nNow] of the batch and [fOk]); back from [Loop]. *)
Inductive phase (T : Type) : Type :=
| Outside
| Start
| Waiting (notified : bool)
| Working (vChecks : list T) (fOk : bool)
| Finished (vChecks : list T) (fOk : bool)
| Returned (fRet : bool).

Arguments Outside {T}.
Arguments Start {T}.
Arguments Waiting {T} _.
Arguments Working {T} _ _.
Arguments Finished {T} _ _.
Arguments Returned {T} _.

Record CCheckQueue (T : Type) : Type := mkQueue {
  queue : list T;
  nIdle : Z;
  nTotal : Z;
  fAllOk : bool;
  nTodo : Z;
  fQuit : bool;
  nBatchSize : Z;
  threads : list (phase T)
}.

Arguments mkQueue {T} _ _ _ _ _ _ _ _.
Arguments queue {T} _.
Arguments nIdle {T} _.
Arguments nTotal {T} _.
Arguments fAllOk {T} _.
Arguments nTodo {T} _.
Arguments fQuit {T} _.
Arguments nBatchSize {T} _.
Arguments threads {T} _.

Section Queue.
Context {T : Type} (check : T → bool).
Implicit Types (s : CCheckQueue T) (q b v : list T) (ts : list (phase T)) (p : phase T) (i j : nat).

(** ** The operations *)

Definition newQueue (nBatchSizeIn : Z) (n : nat) : CCheckQueue T :=
  mkQueue [] 0 0 true 0 false nBatchSizeIn (replicate n Outside).

Definition set_threads ts s : CCheckQueue T :=
  mkQueue (queue s) (nIdle s) (nTotal s) (fAllOk s) (nTodo s) (fQuit s) (nBatchSize s) ts.

Definition set_thread i p s : CCheckQueue T := set_threads (<[i := p]> (threads s)) s.

Definition fMaster i : bool := (i =? 0)%nat.

Definition notify p : phase T := match p with Waiting _ => Waiting true | _ => p end.

(** Only the master waits on [condMaster]. *)
Definition notify_master s : CCheckQueue T := set_threads (alter notify 0%nat (threads s)) s.

(** [if (nNow) ... else ...]: the first part of the critical section. *)
Definition cleanup i (nNow : Z) (fOk : bool) s : CCheckQueue T :=
  if nNow =? 0 then mkQueue (queue s) (nIdle s) (nTotal s + 1) (fAllOk s) (nTodo s) (fQuit s) (nBatchSize s) (threads s)
  else
    let s := mkQueue (queue s) (nIdle s) (nTotal s) (fAllOk s && fOk) (uint (nTodo s - nNow)) (fQuit s) (nBatchSize s) (threads s) in
    if (nTodo s =? 0) && negb (fMaster i) then notify_master s else s.

Definition batch_size s : Z :=
  Z.max 1 (Z.min (nBatchSize s) (uint (Z.of_nat (length (queue s))) / uint (nTotal s + nIdle s + 1))).

(** The loop that swaps jobs from the back of the queue. *)
Fixpoint take_back (n : nat) q : list T * list T :=
  match n with
  | O => ([], q)
  | S n =>
      match last q with
      | Some x => let (b, q) := take_back n (removelast q) in (x :: b, q)
      | None => ([], q)
      end
  end.

(** From [while (queue.empty())] to the end of the critical section. *)
Definition take_work i s : CCheckQueue T :=
  if decide (queue s = []) then
    if (fMaster i || fQuit s) && (nTodo s =? 0) then
      set_thread i (Returned (fAllOk s))
        (mkQueue (queue s) (nIdle s) (nTotal s - 1) (if fMaster i then true else fAllOk s) (nTodo s) (fQuit s) (nBatchSize s) (threads s))
    else
      set_thread i (Waiting false)
        (mkQueue (queue s) (nIdle s + 1) (nTotal s) (fAllOk s) (nTodo s) (fQuit s) (nBatchSize s) (threads s))
  else
    let (b, q) := take_back (Z.to_nat (batch_size s)) (queue s) in
    set_thread i (Working b (fAllOk s))
      (mkQueue q (nIdle s) (nTotal s) (fAllOk s) (nTodo s) (fQuit s) (nBatchSize s) (threads s)).

(** The return from [cond.wait]. *)
Definition wake_up i s : CCheckQueue T :=
  take_work i (mkQueue (queue s) (nIdle s - 1) (nTotal s) (fAllOk s) (nTodo s) (fQuit s) (nBatchSize s) (threads s)).

(** [for (T& check : vChecks) if (fOk) fOk = check();] *)
Definition execute (fOk : bool) b : bool := fold_left (λ (ok : bool) (c : T), if ok then check c else ok) b fOk.

(** What thread [i] does next in [Loop]; [None] where it is blocked or not in it. *)
Definition Loop_step (spurious : bool) i s : option (CCheckQueue T) :=
  match threads s !! i with
  | Some Start => Some (take_work i (cleanup i 0 true s))
  | Some (Finished b fOk) => Some (take_work i (cleanup i (Z.of_nat (length b)) fOk s))
  | Some (Waiting notified) => if notified || spurious then Some (wake_up i s) else None
  | Some (Working b fOk) => Some (set_thread i (Finished b (execute fOk b)) s)
  | _ => None
  end.

(** [condWorker.notify_one()], [notify_all()]. *)
Definition notify_one_worker s s' : Prop :=
  (∃ i, threads s !! S i = Some (Waiting false) ∧ s' = set_thread (S i) (Waiting true) s) ∨
  (∀ i, threads s !! S i ≠ Some (Waiting false)) ∧ s' = s.

Definition notify_all_workers s : CCheckQueue T :=
  set_threads (match threads s with [] => [] | m :: ws => m :: map notify ws end) s.

Definition Add v s s' : Prop :=
  let s1 := mkQueue (queue s ++ v) (nIdle s) (nTotal s) (fAllOk s) (uint (nTodo s + Z.of_nat (length v)))
              (fQuit s) (nBatchSize s) (threads s) in
  match v with
  | [] => s' = s1
  | [_] => notify_one_worker s1 s'
  | _ => s' = notify_all_workers s1
  end.

Definition IsIdle s : bool := (nTotal s =? nIdle s) && (nTodo s =? 0) && fAllOk s.

End Queue.

(** ** Runs of the program *)

(** The queue with the [CCheckQueueControl] that uses it ([fDone], while one lives), and
    the checks added through it. *)
Record config (T : Type) : Type := mkConfig { cqueue : CCheckQueue T; fDone : option bool; added : list T }.
Arguments mkConfig {T} _ _ _.
Arguments cqueue {T} _.
Arguments fDone {T} _.
Arguments added {T} _.

Section Runs.
Context {T : Type} (check : T → bool).
Implicit Types (s : CCheckQueue T) (q b v : list T) (ts : list (phase T)) (p : phase T) (i j : nat) (c : config T).

Definition phase_of i c : option (phase T) := threads (cqueue c) !! i.

(** The steps of the threads in [Loop], and a worker that enters it ([Thread]). *)
Inductive loop_step (spurious : bool) : config T → config T → Prop :=
| step_thread i s s' d a :
    Loop_step check spurious i s = Some s' →
    loop_step spurious (mkConfig s d a) (mkConfig s' d a)
| step_enter i s d a :
    threads s !! S i = Some Outside →
    loop_step spurious (mkConfig s d a) (mkConfig (set_thread (S i) Start s) d a).

(** The life of a control object: the constructor (its assertion is a theorem below);
    [Add] before [Wait]; [Wait], called by the owner or by the destructor, which enters
    [Loop]; its return; the end of the object after it.  The checks of a block are fewer
    than 2^32. *)
Inductive step : config T → config T → Prop :=
| step_loop spurious c c' : loop_step spurious c c' → step c c'
| step_control s :
    threads s !! 0%nat = Some Outside →
    step (mkConfig s None []) (mkConfig s (Some false) [])
| step_add v s s' a :
    threads s !! 0%nat = Some Outside →
    Z.of_nat (length (a ++ v)) < 2 ^ 32 →
    Add v s s' →
    step (mkConfig s (Some false) a) (mkConfig s' (Some false) (a ++ v))
| step_wait s a :
    threads s !! 0%nat = Some Outside →
    step (mkConfig s (Some false) a) (mkConfig (set_thread 0%nat Start s) (Some false) a)
| step_return s a fRet :
    threads s !! 0%nat = Some (Returned fRet) →
    step (mkConfig s (Some false) a) (mkConfig (set_thread 0%nat Outside s) (Some true) a)
| step_destroy s a :
    step (mkConfig s (Some true) a) (mkConfig s None []).

Definition initial (nBatchSizeIn : Z) (n : nat) : config T := mkConfig (newQueue nBatchSizeIn (S n)) None [].

(** What a program with [n] workers and one master can reach. *)
Inductive reachable (nBatchSizeIn : Z) (n : nat) : config T → Prop :=
| reachable_initial : reachable nBatchSizeIn n (initial nBatchSizeIn n)
| reachable_step c c' : reachable nBatchSizeIn n c → step c c' → reachable nBatchSizeIn n c'.

(** The master is inside [Wait]. *)
Definition in_wait c : Prop :=
  match phase_of 0%nat c with
  | Some Start | Some (Waiting _) | Some (Working _ _) | Some (Finished _ _) => True
  | _ => False
  end.

(** Whatever the scheduler does, [P] holds after finitely many steps: some step is
    possible as long as it does not hold. *)
Inductive eventually (P : config T → Prop) c : Prop :=
| now : P c → eventually P c
| later : (∃ c', loop_step false c c') → (∀ c', loop_step false c c' → eventually P c') → eventually P c.

(** ** The invariant *)

Definition batch p : list T := match p with Working b _ | Finished b _ => b | _ => [] end.
Definition size p : Z := Z.of_nat (length (batch p)).
Definition in_loop p : Z := match p with Waiting _ | Working _ _ | Finished _ _ => 1 | _ => 0 end.
Definition idle p : Z := match p with Waiting _ => 1 | _ => 0 end.

(** The answer a batch will give. *)
Definition thread_ok p : bool :=
  match p with Working b fOk => fOk && forallb check b | Finished _ fOk => fOk | _ => true end.

(** The answer of the whole state. *)
Definition verdict s : bool := fAllOk s && forallb check (queue s) && forallb thread_ok (threads s).

Fixpoint sum (f : phase T → Z) ts : Z := match ts with [] => 0 | p :: ts => f p + sum f ts end.

(** The counters count what their comments say, and no thread holds an empty batch. *)
Record queue_ok (A : Z) s : Prop := {
  todo_ok : nTodo s = Z.of_nat (length (queue s)) + sum size (threads s);
  todo_bound : nTodo s ≤ A;
  bound_ok : A < 2 ^ 32;
  total_ok : nTotal s = sum in_loop (threads s);
  idle_ok : nIdle s = sum idle (threads s);
  batches_ok : Forall (λ p, match p with Working b _ | Finished b _ => b ≠ [] | _ => True end) (threads s);
  quit_ok : fQuit s = false
}.

Definition at_rest s : Prop := nTodo s = 0 ∧ fAllOk s = true.

(** What the place of the master says. *)
Definition master_ok c : Prop :=
  match fDone c, phase_of 0%nat c with
  | None, Some Outside => at_rest (cqueue c) ∧ added c = []
  | Some true, Some Outside => at_rest (cqueue c)
  | Some false, Some (Returned fRet) => at_rest (cqueue c) ∧ fRet = forallb check (added c)
  | Some false, Some (Waiting notified) =>
      forallb check (added c) = verdict (cqueue c) ∧ queue (cqueue c) = [] ∧ (notified = false → nTodo (cqueue c) ≠ 0)
  | Some false, Some _ => forallb check (added c) = verdict (cqueue c)
  | _, _ => False
  end.

Definition Inv c : Prop := queue_ok (Z.of_nat (length (added c))) (cqueue c) ∧ master_ok c.

(** The termination measure of [Wait]. *)
Definition weight p : Z :=
  match p with Outside | Working _ _ => 3 | Start | Finished _ _ => 2 | Waiting notified => if notified then 1 else 0 | Returned _ => 0 end.

Definition potential s : Z := 4 * Z.of_nat (length (queue s)) + sum weight (threads s).

(** ** Lists of threads *)

Lemma sum_insert f ts i p p' : ts !! i = Some p → sum f (<[i := p']> ts) = sum f ts - f p + f p'.
Proof.
  revert i. induction ts as [|x ts IH]; intros [|i]; simpl; [done|done| |].
  - intros [= ->]. lia.
  - intros H. rewrite (IH _ H). lia.
Qed.

Lemma sum_alter f g ts i : (∀ p, f (g p) = f p) → sum f (alter g i ts) = sum f ts.
Proof.
  intros H. revert i. induction ts as [|x ts IH]; intros [|i]; simpl; [done|done|by rewrite H|]. f_equal. apply IH.
Qed.

Lemma sum_map f g ts : (∀ p, f (g p) = f p) → sum f (map g ts) = sum f ts.
Proof. intros H. induction ts as [|x ts IH]; cbn; [done|]. by rewrite H, IH. Qed.

Lemma sum_nonneg f ts : (∀ p, 0 ≤ f p) → 0 ≤ sum f ts.
Proof. intros H. induction ts as [|x ts IH]; cbn; [done|]. specialize (H x). lia. Qed.

Lemma sum_elem f ts i p : (∀ p, 0 ≤ f p) → ts !! i = Some p → f p ≤ sum f ts.
Proof.
  intros H. revert i. induction ts as [|x ts IH]; intros [|i]; simpl; [done|done| |].
  - intros [= ->]. pose proof (sum_nonneg f ts H). lia.
  - intros Hi. pose proof (IH _ Hi). specialize (H x). lia.
Qed.

Lemma sum_zero f ts i p : (∀ p, 0 ≤ f p) → sum f ts = 0 → ts !! i = Some p → f p = 0.
Proof. intros H E Hi. pose proof (sum_elem f ts i p H Hi). specialize (H p). lia. Qed.

Lemma forallb_split (f : phase T → bool) ts i p :
  ts !! i = Some p → ∃ r, forallb f ts = f p && r ∧ ∀ p', forallb f (<[i := p']> ts) = f p' && r.
Proof.
  revert i. induction ts as [|x ts IH]; intros [|i]; simpl; [done|done| |].
  - intros [= ->]. by exists (forallb f ts).
  - intros H. destruct (IH _ H) as (r & -> & Hr). exists (f x && r). split; [by destruct (f x), (f p)|].
    intros p'. rewrite Hr. by destruct (f x), (f p').
Qed.

Lemma forallb_alter (f : phase T → bool) g ts i : (∀ p, f (g p) = f p) → forallb f (alter g i ts) = forallb f ts.
Proof.
  intros H. revert i. induction ts as [|x ts IH]; intros [|i]; simpl; [done|done|by rewrite H|]. f_equal. apply IH.
Qed.

Lemma forallb_map' (f : phase T → bool) g ts : (∀ p, f (g p) = f p) → forallb f (map g ts) = forallb f ts.
Proof. intros H. induction ts as [|x ts IH]; cbn; [done|]. by rewrite H, IH. Qed.

Lemma size_nonneg p : 0 ≤ size p.
Proof. unfold size. lia. Qed.

Lemma weight_nonneg p : 0 ≤ weight p.
Proof. destruct p as [| |[|]| | |]; cbn; lia. Qed.

(** A notification concerns no counter. *)
Lemma notify_size p : size (notify p) = size p.
Proof. by destruct p. Qed.
Lemma notify_in_loop p : in_loop (notify p) = in_loop p.
Proof. by destruct p. Qed.
Lemma notify_idle p : idle (notify p) = idle p.
Proof. by destruct p. Qed.
Lemma notify_ok p : thread_ok (notify p) = thread_ok p.
Proof. by destruct p. Qed.

#[local] Hint Resolve notify_size notify_in_loop notify_idle notify_ok size_nonneg weight_nonneg : checkqueue.

Lemma take_back_spec n q : (n ≤ length q)%nat → ∃ b q', take_back n q = (b, q') ∧ q = q' ++ reverse b ∧ length b = n.
Proof.
  revert q. induction n as [|n IH]; intros q Hn; cbn [take_back].
  - exists [], q. rewrite reverse_nil, app_nil_r. done.
  - destruct q as [|x q _] using rev_ind; [cbn in Hn; lia|]. rewrite last_snoc, removelast_last.
    rewrite length_app in Hn; cbn in Hn. destruct (IH q ltac:(lia)) as (b & q' & -> & -> & <-).
    exists (x :: b), q'. rewrite reverse_cons, <- app_assoc. done.
Qed.

Lemma execute_spec fOk b : execute check fOk b = fOk && forallb check b.
Proof.
  unfold execute. revert fOk. induction b as [|x b IH]; intros fOk; cbn [fold_left forallb]; [by rewrite andb_true_r|].
  rewrite IH. by destruct fOk.
Qed.

Lemma batch_size_bound s : queue s ≠ [] → Z.of_nat (length (queue s)) < 2 ^ 32 → 1 ≤ batch_size s ≤ Z.of_nat (length (queue s)).
Proof.
  intros Hq Hb. assert (Hl : 1 ≤ Z.of_nat (length (queue s))) by (destruct (queue s); [done|cbn; lia]).
  unfold batch_size, uint. rewrite (Z.mod_small (Z.of_nat _)) by lia.
  set (d := _ mod _). assert (0 ≤ d) by (apply Z.mod_pos_bound; lia).
  assert (Z.of_nat (length (queue s)) / d ≤ Z.of_nat (length (queue s))); [|lia].
  destruct (decide (d = 0)) as [->|]; [rewrite Z.div_0_r; lia|]. apply Z.div_le_upper_bound; [lia|]. nia.
Qed.

(** ** One critical section *)

(** The state while thread [i] holds the lock, between [cleanup] and [take_work]: its
    batch is gone and it is counted in [nTotal]. *)
Definition parked i s : CCheckQueue T :=
  set_thread i Start (mkQueue (queue s) (nIdle s) (nTotal s - 1) (fAllOk s) (nTodo s) (fQuit s) (nBatchSize s) (threads s)).

Lemma queue_ok_set A s i p p' q nI nT ok td :
  queue_ok A s → threads s !! i = Some p →
  match p' with Working b _ | Finished b _ => b ≠ [] | _ => True end →
  td - Z.of_nat (length q) - size p' = nTodo s - Z.of_nat (length (queue s)) - size p → td ≤ A →
  nT - in_loop p' = nTotal s - in_loop p → nI - idle p' = nIdle s - idle p →
  queue_ok A (mkQueue q nI nT ok td (fQuit s) (nBatchSize s) (<[i := p']> (threads s))).
Proof.
  intros [H1 H2 H3 H4 H5 H6 H7] Hi Hp' E1 E2 E3 E4.
  constructor; cbn [nTodo queue threads nTotal nIdle fQuit]; rewrite ?(sum_insert _ _ _ _ _ Hi); try lia; [|done].
  by apply Forall_insert.
Qed.

Lemma verdict_set s i p p' q nI nT ok td :
  threads s !! i = Some p →
  ok && forallb check q && thread_ok p' = fAllOk s && forallb check (queue s) && thread_ok p →
  verdict (mkQueue q nI nT ok td (fQuit s) (nBatchSize s) (<[i := p']> (threads s))) = verdict s.
Proof.
  intros Hi E. unfold verdict. cbn [fAllOk queue threads]. destruct (forallb_split thread_ok _ _ _ Hi) as (r & -> & ->).
  by rewrite !andb_assoc, E.
Qed.

Lemma potential_set s i p p' q nI nT ok td :
  threads s !! i = Some p →
  potential (mkQueue q nI nT ok td (fQuit s) (nBatchSize s) (<[i := p']> (threads s))) =
  potential s + 4 * (Z.of_nat (length q) - Z.of_nat (length (queue s))) - weight p + weight p'.
Proof. intros Hi. unfold potential. cbn [queue threads]. rewrite (sum_insert _ _ _ _ _ Hi). lia. Qed.

Lemma todo_nonneg A s : queue_ok A s → 0 ≤ sum size (threads s) ∧ 0 ≤ nTodo s.
Proof. intros H. pose proof (sum_nonneg size (threads s) size_nonneg). rewrite (todo_ok _ _ H). lia. Qed.

(** Nothing is left to do: the queue is empty, no thread has a batch, and the answer is
    in [fAllOk]. *)
Lemma nothing_left A s : queue_ok A s → nTodo s = 0 → queue s = [] ∧ verdict s = fAllOk s.
Proof.
  intros H E. pose proof (todo_nonneg _ _ H) as [Hs _]. pose proof (todo_ok _ _ H) as Et.
  assert (Hq : queue s = []) by (destruct (queue s) in Et |- *; [done|cbn [length] in Et; lia]).
  split; [done|]. unfold verdict. rewrite Hq. cbn [forallb]. rewrite andb_true_r.
  assert (Ht : forallb thread_ok (threads s) = true); [|by rewrite Ht, andb_true_r].
  apply forallb_forall. intros p Hp. apply list_elem_of_In, list_elem_of_lookup in Hp as [i Hi].
  assert (Hz : size p = 0) by (eapply sum_zero; [apply size_nonneg| |exact Hi]; lia).
  pose proof (Forall_lookup_1 _ _ _ _ (batches_ok _ _ H) Hi). unfold size in Hz.
  destruct p as [| | |[]|[]|]; cbn in *; done || lia.
Qed.

(** At rest every thread in the loop waits. *)
Lemma rest_is_idle A s : queue_ok A s → nTodo s = 0 → nTotal s = nIdle s.
Proof.
  intros H E. rewrite (total_ok _ _ H), (idle_ok _ _ H). pose proof (todo_ok _ _ H) as Et.
  assert (Hz : sum size (threads s) = 0) by (pose proof (todo_nonneg _ _ H); lia).
  pose proof (batches_ok _ _ H) as Hb. clear -Hz Hb. induction Hb as [|p ts Hp Hb IH]; [done|].
  cbn [sum] in *. pose proof (sum_nonneg size ts size_nonneg). pose proof (size_nonneg p).
  rewrite IH by lia. unfold size in *. destruct p as [| | |[]|[]|]; cbn [in_loop idle batch length] in *; done || lia.
Qed.

(** What [take_work] does. *)
Inductive worked i s : CCheckQueue T → Prop :=
| worked_return :
    queue s = [] → i = 0%nat → nTodo s = 0 →
    worked i s (mkQueue [] (nIdle s) (nTotal s - 1) true (nTodo s) false (nBatchSize s) (<[i := Returned (fAllOk s)]> (threads s)))
| worked_wait :
    queue s = [] → (i = 0%nat → nTodo s ≠ 0) →
    worked i s (mkQueue [] (nIdle s + 1) (nTotal s) (fAllOk s) (nTodo s) false (nBatchSize s) (<[i := Waiting false]> (threads s)))
| worked_take b q :
    queue s = q ++ reverse b → b ≠ [] →
    worked i s (mkQueue q (nIdle s) (nTotal s) (fAllOk s) (nTodo s) false (nBatchSize s) (<[i := Working b (fAllOk s)]> (threads s))).

Lemma take_work_spec A i s : queue_ok A (parked i s) → worked i s (take_work i s).
Proof.
  intros H. pose proof (quit_ok _ _ H) as Hq. cbn in Hq. unfold take_work, fMaster. rewrite Hq, orb_false_r.
  destruct (decide (queue s = [])) as [E|E].
  - destruct (Nat.eqb_spec i 0) as [->|Hi]; cbn [andb].
    + destruct (Z.eqb_spec (nTodo s) 0); unfold set_thread, set_threads; cbn [queue nIdle nTotal fAllOk nTodo fQuit nBatchSize threads];
        rewrite E; [by apply worked_return|by apply worked_wait].
    + unfold set_thread, set_threads; cbn [queue nIdle nTotal fAllOk nTodo fQuit nBatchSize threads]. rewrite E. by apply worked_wait.
  - pose proof (todo_ok _ _ H) as Ht. pose proof (todo_bound _ _ H) as Hb. pose proof (bound_ok _ _ H) as Ha.
    pose proof (todo_nonneg _ _ H) as [Hs _]. cbn [nTodo queue parked set_thread set_threads threads] in Ht, Hb, Hs.
    destruct (batch_size_bound s E ltac:(lia)) as [H1 H2].
    destruct (take_back_spec (Z.to_nat (batch_size s)) (queue s) ltac:(lia)) as (b & q & -> & Eq & El).
    unfold set_thread, set_threads; cbn [queue nIdle nTotal fAllOk nTodo fQuit nBatchSize threads].
    apply worked_take; [done|]. intros ->. cbn in El. lia.
Qed.

Lemma parked_lookup i s p : threads s !! i = Some p → threads (parked i s) !! i = Some Start.
Proof. intros H. apply list_lookup_insert_eq, (lookup_lt_Some _ _ _ H). Qed.

Lemma parked_insert i s p : <[i := p]> (threads (parked i s)) = <[i := p]> (threads s).
Proof. apply list_insert_insert_eq. Qed.

(** The end of a critical section keeps the invariant, and costs two units of potential. *)
Lemma worked_ok A i s p s' :
  queue_ok A (parked i s) → threads s !! i = Some p → worked i s s' → queue_ok A s' ∧ potential s' ≤ potential (parked i s) - 2.
Proof.
  intros H Hi W. apply parked_lookup in Hi. pose proof (quit_ok _ _ H) as Hq. pose proof (todo_bound _ _ H) as Hb.
  destruct W as [E ? ?|E ?|b q E Hn]; rewrite <- parked_insert, <- Hq;
    (split; [eapply (queue_ok_set _ (parked i s)); [exact H|exact Hi|..]|rewrite (potential_set _ _ _ _ _ _ _ _ _ Hi)]);
    cbn [parked set_thread set_threads queue nTodo nTotal nIdle in_loop idle weight length] in *;
    unfold size; cbn [batch length]; rewrite ?Hq, ?E, ?length_app, ?length_reverse; cbn [length]; try done; try lia.
  destruct b; [done|cbn [length]; lia].
Qed.

Lemma forallb_reverse b : forallb check (reverse b) = forallb check b.
Proof.
  induction b as [|x b IH]; [done|]. rewrite reverse_cons, forallb_app, IH. cbn [forallb].
  by destruct (check x), (forallb check b).
Qed.

(** Unless [Wait] returns, it does not change the answer. *)
Lemma worked_verdict i s p s' :
  threads s !! i = Some p → worked i s s' → (∀ r, threads s' !! i ≠ Some (Returned r)) →
  fQuit s = false → verdict s' = verdict (parked i s).
Proof.
  intros Hi W Hr Hq. assert (Hl := lookup_lt_Some _ _ _ Hi). apply parked_lookup in Hi. change (fQuit (parked i s) = false) in Hq.
  destruct W as [E ? ?|E ?|b q E Hn]; cbn [threads] in Hr.
  - exfalso. eapply Hr. by apply list_lookup_insert_eq.
  - rewrite <- parked_insert, <- Hq. apply (verdict_set (parked i s) _ _ _ _ _ _ _ _ Hi). cbn. by rewrite E.
  - rewrite <- parked_insert, <- Hq. apply (verdict_set (parked i s) _ _ _ _ _ _ _ _ Hi). cbn.
    rewrite E, forallb_app.
    rewrite forallb_reverse. by destruct (fAllOk s), (forallb check q), (forallb check b).
Qed.

(** The start of a critical section of thread [i], from [s] to [s1]. *)
Record entered A i s s1 : Prop := {
  entered_ok : queue_ok A (parked i s1);
  entered_verdict : verdict (parked i s1) = verdict s;
  entered_potential p : threads s !! i = Some p → 1 ≤ weight p → potential (parked i s1) ≤ potential s + 1;
  entered_queue : queue s1 = queue s;
  entered_rest : at_rest s → at_rest s1;
  entered_self : threads s1 !! i = threads s !! i;
  entered_master : i ≠ 0%nat →
    match threads s !! 0%nat with
    | Some (Waiting n) =>
        ∃ n', threads s1 !! 0%nat = Some (Waiting n') ∧ (n' = false → n = false ∧ (nTodo s ≠ 0 → nTodo s1 ≠ 0))
    | x => threads s1 !! 0%nat = x
    end
}.

(** A change of the counters and of thread [i] alone. *)
Lemma entered_plain A i s p nI nT :
  queue_ok A s → threads s !! i = Some p → size p = 0 → thread_ok p = true →
  nT - 1 = nTotal s - in_loop p → nI = nIdle s - idle p → weight p ≤ 2 →
  entered A i s (mkQueue (queue s) nI nT (fAllOk s) (nTodo s) (fQuit s) (nBatchSize s) (threads s)).
Proof.
  intros H Hi Hs Ho E1 E2 Hw. constructor; cbn [queue threads nTodo fAllOk at_rest]; try done.
  - apply (queue_ok_set _ s _ p); cbn [in_loop idle nTotal nIdle]; try done; [by rewrite Hs|apply (todo_bound _ _ H)|lia|lia].
  - apply (verdict_set s _ p); [done|]. by rewrite Ho.
  - intros p' Hp' Hw'. rewrite Hi in Hp'. injection Hp' as <-.
    unfold parked, set_thread, set_threads. cbn [queue nIdle nTotal fAllOk nTodo fQuit nBatchSize threads].
    rewrite (potential_set s _ p) by done. cbn [weight]. lia.
  - intros _. destruct (threads s !! 0%nat) as [[| |n| | |]|]; try done. exists n. done.
Qed.

Lemma notify_master_ok A s : queue_ok A s → queue_ok A (notify_master s).
Proof.
  intros [H1 H2 H3 H4 H5 H6 H7].
  constructor; cbn [notify_master set_threads nTodo queue threads nTotal nIdle fQuit]; rewrite ?sum_alter by auto with checkqueue; try done.
  apply Forall_alter; [done|]. intros [] ? ?; done.
Qed.

Lemma notify_master_verdict s : verdict (notify_master s) = verdict s.
Proof. unfold verdict. cbn. by rewrite (forallb_alter _ notify) by apply notify_ok. Qed.

Lemma notify_master_potential s : potential (notify_master s) ≤ potential s + 1.
Proof.
  unfold potential. cbn [notify_master set_threads queue threads]. destruct (threads s) as [|m ts]; cbn [sum]; [cbn; lia|].
  change (alter notify 0%nat (m :: ts)) with (notify m :: ts). cbn [sum]. destruct m as [| |[]| | |]; cbn [notify weight]; lia.
Qed.

Lemma parked_notify i s : i ≠ 0%nat → parked i (notify_master s) = notify_master (parked i s).
Proof.
  intros Hi. unfold parked, notify_master, set_thread, set_threads. cbn [queue nIdle nTotal fAllOk nTodo fQuit nBatchSize threads].
  f_equal. destruct i as [|i]; [done|]. by destruct (threads s).
Qed.

Lemma uint_small x : 0 ≤ x < 2 ^ 32 → uint x = x.
Proof. intros H. by apply Z.mod_small. Qed.

Lemma entered_finished A i s b fOk :
  queue_ok A s → threads s !! i = Some (Finished b fOk) → entered A i s (cleanup i (Z.of_nat (length b)) fOk s).
Proof.
  intros H Hi. pose proof (Forall_lookup_1 _ _ _ _ (batches_ok _ _ H) Hi) as Hb. cbn in Hb.
  assert (Hl : 0 < Z.of_nat (length b)) by (destruct b; [done|cbn [length]; lia]).
  pose proof (sum_elem size _ _ _ size_nonneg Hi) as Hs. unfold size at 1 in Hs. cbn [batch] in Hs.
  pose proof (todo_ok _ _ H). pose proof (todo_bound _ _ H). pose proof (bound_ok _ _ H).
  unfold cleanup. destruct (Z.eqb_spec (Z.of_nat (length b)) 0); [lia|]. rewrite uint_small by lia.
  set (s2 := mkQueue _ _ _ _ _ _ _ _).
  assert (Hok : queue_ok A (parked i s2)).
  { apply (queue_ok_set _ s _ _ _ _ _ _ _ _ H Hi); subst s2; unfold size; cbn [in_loop idle nTotal nIdle nTodo queue batch length]; try done; lia. }
  assert (Hv : verdict (parked i s2) = verdict s).
  { apply (verdict_set s _ _ _ _ _ _ _ _ Hi). cbn. by destruct (fAllOk s), fOk, (forallb check (queue s)). }
  assert (Hp : potential (parked i s2) = potential s).
  { unfold parked, set_thread, set_threads, s2. cbn [queue nIdle nTotal fAllOk nTodo fQuit nBatchSize threads].
    rewrite (potential_set s _ _ _ _ _ _ _ _ Hi). cbn [weight]. lia. }
  destruct (Z.eqb_spec (nTodo s2) 0) as [E|E]; unfold fMaster; [destruct (Nat.eqb_spec i 0) as [->|Hm]|]; cbn [negb andb].
  all: constructor; try done; try (intros [Hr _]; lia); try (intros; rewrite Hp; lia).
  - by rewrite parked_notify by done; apply notify_master_ok.
  - by rewrite parked_notify, notify_master_verdict by done.
  - intros. rewrite parked_notify by done. pose proof (notify_master_potential (parked i s2)). lia.
  - cbn. by rewrite list_lookup_alter_ne.
  - intros _. cbn. rewrite list_lookup_alter_eq. destruct (threads s !! 0%nat) as [[]|]; cbn; try done. by eexists.
  - intros _. cbn. destruct (threads s !! 0%nat) as [[| |n'| | |]|]; try done. by exists n'.
Qed.

(** Every step of a thread is work on its batch, or a critical section. *)
Inductive stepped A i s s' : Prop :=
| stepped_run b fOk :
    threads s !! i = Some (Working b fOk) → s' = set_thread i (Finished b (execute check fOk b)) s → stepped A i s s'
| stepped_section s1 p :
    threads s !! i = Some p → match p with Outside | Returned _ => False | _ => True end →
    entered A i s s1 → worked i s1 s' → stepped A i s s'.

Lemma Loop_step_spec A spurious i s s' : queue_ok A s → Loop_step check spurious i s = Some s' → stepped A i s s'.
Proof.
  intros H. unfold Loop_step. destruct (threads s !! i) as [[| |n|b fOk|b fOk|]|] eqn:Hi; try done.
  - intros [= <-]. cut (entered A i s (cleanup i 0 true s)).
    { intros He. exact (stepped_section _ _ _ _ _ _ Hi I He (take_work_spec _ _ _ (entered_ok _ _ _ _ He))). }
    apply (entered_plain _ _ _ _ _ _ H Hi); cbn [in_loop idle weight]; done || lia.
  - destruct (n || spurious); [|done]. intros [= <-]. unfold wake_up. set (s1 := mkQueue _ _ _ _ _ _ _ _).
    cut (entered A i s s1).
    { intros He. exact (stepped_section _ _ _ _ _ _ Hi I He (take_work_spec _ _ _ (entered_ok _ _ _ _ He))). }
    apply (entered_plain _ _ _ _ _ _ H Hi); cbn [in_loop idle weight]; try done; try lia. destruct n; lia.
  - intros [= <-]. by apply (stepped_run _ _ _ _ b fOk).
  - intros [= <-]. pose proof (entered_finished _ _ _ _ _ H Hi) as He.
    exact (stepped_section _ _ _ _ _ _ Hi I He (take_work_spec _ _ _ (entered_ok _ _ _ _ He))).
Qed.

(** ** Every step keeps the invariant *)

(** What the master cannot tell from a step of another thread. *)
Record other s s' : Prop := {
  other_master :
    match threads s !! 0%nat with
    | Some (Waiting n) =>
        ∃ n', threads s' !! 0%nat = Some (Waiting n') ∧ (n' = false → n = false ∧ (nTodo s ≠ 0 → nTodo s' ≠ 0))
    | x => threads s' !! 0%nat = x
    end;
  other_verdict : verdict s' = verdict s;
  other_rest : at_rest s → at_rest s';
  other_queue : queue s = [] → queue s' = []
}.

Lemma master_ok_other s s' d a : other s s' → master_ok (mkConfig s d a) → master_ok (mkConfig s' d a).
Proof.
  intros [H1 H2 H3 H4]. unfold master_ok, phase_of. cbn [cqueue fDone added]. rewrite H2.
  destruct (threads s !! 0%nat) as [[| |n| | |]|], d as [[]|]; try done; try (rewrite H1; by intuition auto);
    destruct H1 as (n' & -> & Hn); naive_solver.
Qed.

Lemma master_lookup i s p : i ≠ 0%nat → <[i := p]> (threads s) !! 0%nat = threads s !! 0%nat.
Proof. intros H. by apply list_lookup_insert_ne. Qed.

Lemma same_master s s' : threads s' !! 0%nat = threads s !! 0%nat → nTodo s' = nTodo s → other s s' ↔
  verdict s' = verdict s ∧ (at_rest s → at_rest s') ∧ (queue s = [] → queue s' = []).
Proof.
  intros E1 E2. split; [by intros []|]. intros (H1 & H2 & H3). constructor; try done. rewrite E1, E2.
  destruct (threads s !! 0%nat) as [[| |n| | |]|]; try done. by exists n.
Qed.

Lemma stepped_other A i s s' : i ≠ 0%nat → queue_ok A s → stepped A i s s' → other s s'.
Proof.
  intros Hi Hok [b fOk Hp ->|s1 p Hp _ He Hw].
  - apply same_master; [by apply master_lookup|done|]. split; [|done].
    apply (verdict_set s _ _ _ _ _ _ _ _ Hp). cbn [thread_ok]. by rewrite execute_spec.
  - pose proof (quit_ok _ _ (entered_ok _ _ _ _ He)) as Hq. cbn in Hq.
    assert (Hp1 : threads s1 !! i = Some p) by (by rewrite (entered_self _ _ _ _ He)).
    assert (Hl := lookup_lt_Some _ _ _ Hp1).
    assert (Hv : verdict s' = verdict s).
    { rewrite <- (entered_verdict _ _ _ _ He). apply (worked_verdict _ _ _ _ Hp1 Hw); [|done].
      intros r. destruct Hw; [done|..]; cbn; rewrite list_lookup_insert_eq by done; done. }
    pose proof (entered_master _ _ _ _ He Hi) as Hm. pose proof (entered_rest _ _ _ _ He) as Hr.
    pose proof (entered_queue _ _ _ _ He) as Hqu.
    destruct Hw as [|E ?|b q E Hb]; [done|..]; constructor; cbn [threads nTodo fAllOk queue at_rest]; try done;
      rewrite ?master_lookup by done; try done.
    intros Es. rewrite <- Hqu, E in Es. by apply app_eq_nil in Es as [-> _].
Qed.

Lemma master_section A s s1 s' p a :
  queue_ok A s → entered A 0 s s1 → worked 0 s1 s' → threads s !! 0%nat = Some p → forallb check a = verdict s →
  master_ok (mkConfig s' (Some false) a).
Proof.
  intros Hok He Hw Hp Ev. pose proof (entered_ok _ _ _ _ He) as H1. pose proof (quit_ok _ _ H1) as Hq. cbn in Hq.
  assert (Hp1 : threads s1 !! 0%nat = Some p) by (by rewrite (entered_self _ _ _ _ He)).
  assert (Hl := lookup_lt_Some _ _ _ Hp1). rewrite <- (entered_verdict _ _ _ _ He) in Ev.
  pose proof (worked_verdict _ _ _ _ Hp1 Hw) as Hv. unfold master_ok, phase_of. cbn [cqueue fDone added].
  destruct Hw as [E ? E0|E Hn|b q E Hb]; cbn [threads] in Hv |- *; rewrite list_lookup_insert_eq in Hv |- * by done.
  - split; [done|]. rewrite Ev. symmetry. by apply (nothing_left _ _ H1).
  - rewrite Hv by done. cbn. auto.
  - by rewrite Hv by done.
Qed.

Lemma stepped_ok A i s s' : queue_ok A s → stepped A i s s' → queue_ok A s'.
Proof.
  intros H [b fOk Hp ->|s1 p Hp _ He Hw].
  - pose proof (Forall_lookup_1 _ _ _ _ (batches_ok _ _ H) Hp) as Hb. pose proof (todo_bound _ _ H).
    apply (queue_ok_set _ s _ _ _ _ _ _ _ _ H Hp); cbn [in_loop idle]; done.
  - eapply worked_ok; [exact (entered_ok _ _ _ _ He)| |exact Hw]. by rewrite (entered_self _ _ _ _ He).
Qed.

Lemma Inv_loop spurious c c' : Inv c → loop_step spurious c c' → Inv c'.
Proof.
  intros HI Hst. revert HI. destruct Hst as [i s s' d a E|i s d a E]; intros [Hok Hm]; cbn [cqueue added] in *.
  - pose proof (Loop_step_spec _ _ _ _ _ Hok E) as Hs. split; [by eapply stepped_ok|].
    destruct (decide (i = 0%nat)) as [->|Hi]; [|eapply master_ok_other; [by eapply stepped_other|done]].
    unfold master_ok, phase_of in Hm. cbn [cqueue fDone added] in Hm.
    destruct Hs as [b fOk Hp ->|s1 p Hp Hb He Hw].
    + rewrite Hp in Hm. destruct d as [[]|]; [done| |done]. unfold master_ok, phase_of. cbn [cqueue fDone added].
      cbn [threads set_thread set_threads]. rewrite list_lookup_insert_eq by by eapply lookup_lt_Some. rewrite Hm. symmetry.
      apply (verdict_set s _ _ _ _ _ _ _ _ Hp). cbn [thread_ok]. by rewrite execute_spec.
    + rewrite Hp in Hm. assert (d = Some false ∧ forallb check a = verdict s) as [-> Hv].
      { destruct p, d as [[]|]; done || naive_solver. }
      by eapply master_section.
  - split.
    + pose proof (todo_bound _ _ Hok). by apply (queue_ok_set _ s _ _ _ _ _ _ _ _ Hok E).
    + eapply master_ok_other; [|done]. apply same_master; [by apply master_lookup|done|]. split; [|done].
      by apply (verdict_set s _ _ _ _ _ _ _ _ E).
Qed.

Lemma notify_all_ok A s : queue_ok A s → queue_ok A (notify_all_workers s).
Proof.
  intros [H1 H2 H3 H4 H5 H6 H7]. unfold notify_all_workers.
  constructor; cbn [set_threads nTodo queue threads nTotal nIdle fQuit]; try done;
    destruct (threads s) as [|m ws]; cbn [sum] in *; rewrite ?sum_map by auto with checkqueue; try done.
  inversion_clear H6 as [|? ? Hm Hw]. constructor; [done|]. clear -Hw. induction Hw as [|[] ts]; constructor; done.
Qed.

Lemma notify_all_verdict s : verdict (notify_all_workers s) = verdict s.
Proof.
  unfold verdict, notify_all_workers. destruct (threads s) as [|m ws] eqn:E; cbn [set_threads threads fAllOk queue forallb]; [done|].
  by rewrite (forallb_map' _ notify) by apply notify_ok.
Qed.

Lemma add_state A s v :
  queue_ok A s → A + Z.of_nat (length v) < 2 ^ 32 →
  let s1 := mkQueue (queue s ++ v) (nIdle s) (nTotal s) (fAllOk s) (uint (nTodo s + Z.of_nat (length v)))
              (fQuit s) (nBatchSize s) (threads s) in
  queue_ok (A + Z.of_nat (length v)) s1 ∧ verdict s1 = verdict s && forallb check v.
Proof.
  intros H Hb s1. pose proof (todo_nonneg _ _ H). destruct H as [H1 H2 H3 H4 H5 H6 H7]. split.
  - constructor; subst s1; cbn [nTodo queue threads nTotal nIdle fQuit]; rewrite ?uint_small by lia; rewrite ?length_app; try done; lia.
  - subst s1. unfold verdict. cbn [fAllOk queue threads]. rewrite forallb_app.
    by destruct (fAllOk s), (forallb check (queue s)), (forallb check v), (forallb thread_ok (threads s)).
Qed.

Lemma Add_spec A s v s' :
  queue_ok A s → A + Z.of_nat (length v) < 2 ^ 32 → Add v s s' →
  queue_ok (A + Z.of_nat (length v)) s' ∧ verdict s' = verdict s && forallb check v ∧ threads s' !! 0%nat = threads s !! 0%nat.
Proof.
  intros H Hb Ha. pose proof (add_state _ _ _ H Hb) as [H1 Hv]. unfold Add in Ha. rewrite <- Hv. set (s1 := mkQueue _ _ _ _ _ _ _ _) in *.
  change (threads s) with (threads s1). clearbody s1. clear -H1 Ha.
  destruct v as [|x [|y v]]; [by subst s'| |].
  - destruct Ha as [(i & Hi & ->)|[_ ->]]; [|done]. pose proof (todo_bound _ _ H1). split; [|split].
    + by apply (queue_ok_set _ s1 _ _ _ _ _ _ _ _ H1 Hi).
    + by apply (verdict_set s1 _ _ _ _ _ _ _ _ Hi).
    + by apply master_lookup.
  - subst s'. split; [by apply notify_all_ok|]. split; [apply notify_all_verdict|].
    unfold notify_all_workers. cbn [set_threads threads]. by destruct (threads s1).
Qed.

Lemma Inv_step c c' : Inv c → step c c' → Inv c'.
Proof.
  intros HI Hst. revert HI. destruct Hst as [sp c c' Hs|s E|v s s' a E Hb Ha|s a E|s a r E|s a]; intros HI; [by eapply Inv_loop|..];
    destruct HI as [Hok Hm]; unfold master_ok, phase_of in Hm; cbn [cqueue fDone added] in *; rewrite ?E in Hm.
  - split; [done|]. unfold master_ok, phase_of. cbn [cqueue fDone added]. rewrite E. destruct Hm as [[Ht Ho] _].
    destruct (nothing_left _ _ Hok Ht) as [_ Hv]. by rewrite Hv, Ho.
  - rewrite length_app, Nat2Z.inj_add in Hb. destruct (Add_spec _ _ _ _ Hok Hb Ha) as (H1 & Hv & H0).
    split; cbn [cqueue added]; [by rewrite length_app, Nat2Z.inj_add|].
    unfold master_ok, phase_of. cbn [cqueue fDone added]. by rewrite H0, E, Hv, <- Hm, forallb_app.
  - pose proof (todo_bound _ _ Hok). split; [by apply (queue_ok_set _ s _ _ _ _ _ _ _ _ Hok E)|].
    unfold master_ok, phase_of. cbn [cqueue fDone added threads set_thread set_threads].
    rewrite list_lookup_insert_eq by by eapply lookup_lt_Some. rewrite Hm. symmetry. by apply (verdict_set s _ _ _ _ _ _ _ _ E).
  - pose proof (todo_bound _ _ Hok). split; [by apply (queue_ok_set _ s _ _ _ _ _ _ _ _ Hok E)|].
    unfold master_ok, phase_of. cbn [cqueue fDone added threads set_thread set_threads].
    rewrite list_lookup_insert_eq by by eapply lookup_lt_Some. by destruct Hm as [[] _].
  - destruct (threads s !! 0%nat) as [[]|] eqn:E; try done. destruct Hm as [Ht Ho]. split.
    + destruct Hok. cbn [cqueue added length]. constructor; try done. by rewrite Ht.
    + unfold master_ok, phase_of. cbn [cqueue fDone added]. by rewrite E.
Qed.

Lemma sum_replicate f n p : sum f (replicate n p) = Z.of_nat n * f p.
Proof. induction n as [|n IH]; cbn [replicate sum]; [done|]. rewrite IH. lia. Qed.

Lemma Inv_initial nB n : Inv (initial nB n).
Proof.
  split; [|done]. constructor; cbn [initial newQueue cqueue nTodo queue threads nTotal nIdle fQuit added]; rewrite ?sum_replicate; try done; try (cbn; lia).
  apply Forall_replicate. done.
Qed.

Lemma reachable_Inv nB n c : reachable nB n c → Inv c.
Proof. induction 1; [apply Inv_initial|by eapply Inv_step]. Qed.

(** ** Progress *)

Lemma potential_nonneg s : 0 ≤ potential s.
Proof. pose proof (sum_nonneg weight (threads s) weight_nonneg). unfold potential. lia. Qed.

Lemma loop_step_decreases c c' : Inv c → loop_step false c c' → potential (cqueue c') < potential (cqueue c).
Proof.
  intros HI Hst. revert HI. destruct Hst as [i s s' d a E|i s d a E]; intros [Hok _]; cbn [cqueue added] in *.
  - pose proof (Loop_step_spec _ _ _ _ _ Hok E) as [b fOk Hp ->|s1 p Hp Hb He Hw].
    + unfold set_thread, set_threads. rewrite (potential_set s _ _ _ _ _ _ _ _ Hp). cbn [weight]. lia.
    + assert (Hp1 : threads s1 !! i = Some p) by (by rewrite (entered_self _ _ _ _ He)).
      pose proof (worked_ok _ _ _ _ _ (entered_ok _ _ _ _ He) Hp1 Hw) as [_ H1].
      assert (Hwt : 1 ≤ weight p).
      { unfold Loop_step in E. rewrite Hp in E. destruct p as [| |[]| | |]; cbn [weight orb] in *; done || lia. }
      pose proof (entered_potential _ _ _ _ He _ Hp Hwt). lia.
  - unfold set_thread, set_threads. rewrite (potential_set s _ _ _ _ _ _ _ _ E). cbn [weight]. lia.
Qed.

(** The master does not leave [Wait] but by returning. *)
Lemma loop_step_in_wait spurious c c' :
  Inv c → loop_step spurious c c' → in_wait c → in_wait c' ∨ ∃ r, phase_of 0%nat c' = Some (Returned r).
Proof.
  intros HI Hst. revert HI. unfold in_wait, phase_of. destruct Hst as [i s s' d a E|i s d a E]; intros [Hok _]; cbn [cqueue added] in *.
  - pose proof (Loop_step_spec _ _ _ _ _ Hok E) as Hs. destruct (decide (i = 0%nat)) as [->|Hi].
    + intros _. destruct Hs as [b fOk Hp ->|s1 p Hp Hb He Hw].
      * cbn. rewrite list_lookup_insert_eq by by eapply lookup_lt_Some. by left.
      * assert (Hl : (0 < length (threads s1))%nat) by (eapply lookup_lt_Some; rewrite (entered_self _ _ _ _ He); exact Hp).
        destruct Hw; cbn [threads]; rewrite list_lookup_insert_eq by done; eauto.
    + pose proof (other_master _ _ (stepped_other _ _ _ _ Hi Hok Hs)) as Hm.
      destruct (threads s !! 0%nat) as [[| |n| | |]|]; try done; try (rewrite Hm; auto; fail). destruct Hm as (n' & -> & _). auto.
  - cbn. rewrite master_lookup by done. auto.
Qed.

(** While the master is in [Wait], some thread can go on. *)
Lemma wait_progress c : Inv c → in_wait c → ∃ c', loop_step false c c'.
Proof.
  destruct c as [s d a]. intros [Hok Hm]. unfold in_wait, master_ok, phase_of in *. cbn [cqueue fDone added] in *.
  assert (Hgo : ∀ i s', Loop_step check false i s = Some s' → ∃ c', loop_step false (mkConfig s d a) c').
  { intros i s' H. eexists. by eapply step_thread. }
  destruct (threads s !! 0%nat) as [[| |[]| | |]|] eqn:E; try done; intros _;
    try (apply (Hgo 0%nat (default s (Loop_step check false 0%nat s))); unfold Loop_step; rewrite E; done).
  destruct d as [[]|]; [done| |done]. destruct Hm as (_ & Hq & Hn). specialize (Hn eq_refl).
  assert (Hs : ∃ i p, threads s !! i = Some p ∧ size p ≠ 0).
  { pose proof (todo_ok _ _ Hok) as Ht. rewrite Hq in Ht. cbn [length] in Ht.
    assert (Hz : sum size (threads s) ≠ 0) by lia. clear -Hz. induction (threads s) as [|p ts IH]; [done|].
    destruct (decide (size p = 0)) as [Hp|Hp]; [|by exists 0%nat, p]. cbn [sum] in Hz.
    destruct IH as (i & p' & Hi & Hp'); [lia|]. by exists (S i), p'. }
  destruct Hs as (i & p & Hi & Hp). apply (Hgo i (default s (Loop_step check false i s))). unfold Loop_step. rewrite Hi.
  by destruct p.
Qed.

Lemma added_loop spurious c c' : loop_step spurious c c' → added c' = added c.
Proof. by intros []. Qed.

Lemma Inv_returned c r : Inv c → phase_of 0%nat c = Some (Returned r) → r = forallb check (added c) ∧ nTodo (cqueue c) = 0.
Proof. intros [_ Hm] E. unfold master_ok in Hm. rewrite E in Hm. destruct (fDone c) as [[]|]; try done. destruct Hm as [[Ht _] Hr]. done. Qed.

Lemma Inv_eventually c : Inv c → in_wait c →
  eventually (λ c', phase_of 0%nat c' = Some (Returned (forallb check (added c)))) c.
Proof.
  remember (Z.to_nat (potential (cqueue c))) as m eqn:Em. revert c Em.
  induction (lt_wf m) as [m _ IH]. intros c Em HI Hw. apply later; [by apply wait_progress|]. intros c' Hs.
  pose proof (loop_step_decreases _ _ HI Hs). pose proof (potential_nonneg (cqueue c')).
  pose proof (Inv_loop _ _ _ HI Hs) as HI'. rewrite <- (added_loop _ _ _ Hs).
  destruct (loop_step_in_wait _ _ _ HI Hs Hw) as [Hw'|[r Hr]].
  - by eapply IH; [|reflexivity|..]; [lia|..].
  - apply now. rewrite Hr. by rewrite (proj1 (Inv_returned _ _ HI' Hr)).
Qed.

(** ** Theorems *)

(** C16: The value of [Wait].  Whatever the number of threads, the batch size, the order in
    which the threads take the lock, the notifications and the wake-ups without one:
    when [Wait] returns it returns whether all the checks added through the control
    object passed, and nothing is left in the queue or in the batches of the workers.
    The counters mean what their comments say: [nTodo] is the number of checks that
    are in the queue or in a batch, [nTotal] the number of threads in the loop and
    [nIdle] of those that wait.  The assertion of the constructor of
    [CCheckQueueControl] never fails. *)
Theorem check_queue_correct nBatchSizeIn n c :
  reachable nBatchSizeIn n c →
  (∀ fRet, phase_of 0%nat c = Some (Returned fRet) →
     fRet = forallb check (added c) ∧ queue (cqueue c) = [] ∧ ∀ i p, phase_of i c = Some p → batch p = []) ∧
  nTodo (cqueue c) = Z.of_nat (length (queue (cqueue c))) + sum size (threads (cqueue c)) ∧
  nTotal (cqueue c) = sum in_loop (threads (cqueue c)) ∧
  nIdle (cqueue c) = sum idle (threads (cqueue c)) ∧
  (fDone c = None → IsIdle (cqueue c) = true).
Proof.
  intros H. apply reachable_Inv in H. destruct (proj1 H) as [H1 H2 H3 H4 H5 H6 H7].
  split; [|split; [done|]; split; [done|]; split; [done|]].
  - intros r Hr. destruct (Inv_returned _ _ H Hr) as [-> E]. destruct (nothing_left _ _ (proj1 H) E) as [Hq _].
    split; [done|]. split; [done|]. intros i p Hp. rewrite E, Hq in H1. cbn [length] in H1.
    assert (Hz : size p = 0) by (eapply sum_zero; [apply size_nonneg| |exact Hp]; lia). unfold size in Hz. by destruct (batch p).
  - intros Hd. destruct H as [Hok Hm]. unfold master_ok in Hm. rewrite Hd in Hm.
    destruct (phase_of 0%nat c) as [[]|]; try done. destruct Hm as [[Ht Ho] _].
    unfold IsIdle. by rewrite (rest_is_idle _ _ Hok Ht), Ht, Ho, Z.eqb_refl.
Qed.

(** C12: [Wait] returns.  From every reachable state in which the master is inside [Wait],
    every schedule of the threads (without wake-ups that nothing caused) brings it to
    return, with the conjunction of the checks, after finitely many steps: no schedule
    deadlocks and no notification is lost. *)
Theorem check_queue_wait_returns nBatchSizeIn n c :
  reachable nBatchSizeIn n c → in_wait c →
  eventually (λ c', phase_of 0%nat c' = Some (Returned (forallb check (added c)))) c.
Proof. intros H. apply Inv_eventually. by eapply reachable_Inv. Qed.

End Runs.

(** ** Witnesses *)

(** A master with one worker; the checks are numbers that must be positive. *)
Definition positive (x : Z) : bool := 0 <? x.

(** Two checks, one of which fails, are added and the master calls [Wait]. *)
Definition after_wait : config Z :=
  mkConfig (mkQueue [3; -1] 0 0 true 2 false 128 [Start; Outside]) (Some false) [3; -1].

Lemma after_wait_reachable : reachable positive 128 1 after_wait.
Proof.
  set (s0 := newQueue 128 2 : CCheckQueue Z). set (s1 := mkQueue [3; -1] 0 0 true 2 false 128 [Outside; Outside]).
  apply (reachable_step _ _ _ (mkConfig s1 (Some false) [3; -1])); [|by apply (step_wait positive s1)].
  apply (reachable_step _ _ _ (mkConfig s0 (Some false) [])); [|by apply (step_add positive [3; -1] s0 s1 [])].
  apply (reachable_step _ _ _ (mkConfig s0 None [])); [apply reachable_initial|by apply step_control].
Qed.

Lemma run_thread {T : Type} (check : T → bool) nB n i s d a :
  reachable check nB n (mkConfig s d a) → reachable check nB n (mkConfig (default s (Loop_step check false i s)) d a).
Proof.
  intros H. destruct (Loop_step check false i s) as [s'|] eqn:E; [|done].
  eapply reachable_step; [exact H|]. apply (step_loop check false), (step_thread check false i). exact E.
Qed.

(** The master alone: it takes one check, runs it, takes the other and returns. *)
Definition after_return : config Z :=
  mkConfig (mkQueue [] 0 0 true 0 false 128 [Returned false; Outside]) (Some false) [3; -1].

Lemma after_return_reachable : reachable positive 128 1 after_return.
Proof.
  pose proof after_wait_reachable as H. do 5 apply (run_thread positive 128 1 0%nat) in H. exact H.
Qed.

Lemma check_queue_correct_witness : phase_of 0%nat after_return = Some (Returned false) ∧ forallb positive (added after_return) = false.
Proof.
  split; [reflexivity|]. symmetry. apply (proj1 (check_queue_correct positive 128 1 after_return after_return_reachable) false). reflexivity.
Defined.

Lemma check_queue_wait_returns_witness :
  in_wait after_wait ∧ eventually positive (λ c', phase_of 0%nat c' = Some (Returned false)) after_wait.
Proof.
  split; [exact I|]. exact (check_queue_wait_returns positive 128 1 after_wait after_wait_reachable I).
Defined.

End CheckQueue.
