(* ===== verification/Interp.v ===== *)
(** * src/script/interpreter.{h,cpp}: the script machine

    A stack is a list whose head is its top: [stacktop(-i)] is element [i - 1].  A
    result is an error code or a value; an exception is caught by [EvalScript] and is
    the error [SCRIPT_ERR_UNKNOWN_ERROR].  [None] is a failed assertion or a loop out of
    fuel, which the theorems show to be impossible.

    The machine is parameterized by what it calls: the signature checker (the interface
    [BaseSignatureChecker]), the hash functions RIPEMD-160 and SHA-1, and the test of the
    elliptic curve library for low S values. *)

From stdpp Require Import base option list.
From Stdlib Require Import ZArith Lia.
From S2P Require Import Prelude Serialize Script Sha256 Consensus Tx.
Import Script.
Open Scope Z_scope.

Module Interp.

Inductive ScriptError : Type :=
| SCRIPT_ERR_UNKNOWN_ERROR | SCRIPT_ERR_EVAL_FALSE | SCRIPT_ERR_OP_RETURN
| SCRIPT_ERR_SCRIPT_SIZE | SCRIPT_ERR_PUSH_SIZE | SCRIPT_ERR_OP_COUNT | SCRIPT_ERR_STACK_SIZE
| SCRIPT_ERR_SIG_COUNT | SCRIPT_ERR_PUBKEY_COUNT
| SCRIPT_ERR_VERIFY | SCRIPT_ERR_EQUALVERIFY | SCRIPT_ERR_CHECKMULTISIGVERIFY | SCRIPT_ERR_CHECKSIGVERIFY | SCRIPT_ERR_NUMEQUALVERIFY
| SCRIPT_ERR_BAD_OPCODE | SCRIPT_ERR_DISABLED_OPCODE | SCRIPT_ERR_INVALID_STACK_OPERATION
| SCRIPT_ERR_INVALID_ALTSTACK_OPERATION | SCRIPT_ERR_UNBALANCED_CONDITIONAL
| SCRIPT_ERR_NEGATIVE_LOCKTIME | SCRIPT_ERR_UNSATISFIED_LOCKTIME
| SCRIPT_ERR_SIG_HASHTYPE | SCRIPT_ERR_SIG_DER | SCRIPT_ERR_MINIMALDATA | SCRIPT_ERR_SIG_PUSHONLY
| SCRIPT_ERR_SIG_HIGH_S | SCRIPT_ERR_SIG_NULLDUMMY | SCRIPT_ERR_PUBKEYTYPE
| SCRIPT_ERR_DISCOURAGE_UPGRADABLE_NOPS.

Definition res (A : Type) : Type := (ScriptError + A)%type.
Definition bindr {A B} (x : res A) (f : A → res B) : res B := match x with inl e => inl e | inr a => f a end.
Notation "'let*' x ':=' a 'in' b" := (bindr a (λ x, b)) (at level 10, x binder, a at level 100, b at level 200).

(** ** Flags *)

Definition SCRIPT_VERIFY_P2SH : Z := 1 << 0.
Definition SCRIPT_VERIFY_STRICTENC : Z := 1 << 1.
Definition SCRIPT_VERIFY_DERSIG : Z := 1 << 2.
Definition SCRIPT_VERIFY_LOW_S : Z := 1 << 3.
Definition SCRIPT_VERIFY_NULLDUMMY : Z := 1 << 4.
Definition SCRIPT_VERIFY_SIGPUSHONLY : Z := 1 << 5.
Definition SCRIPT_VERIFY_MINIMALDATA : Z := 1 << 6.
Definition SCRIPT_VERIFY_DISCOURAGE_UPGRADABLE_NOPS : Z := 1 << 7.
Definition SCRIPT_VERIFY_CHECKLOCKTIMEVERIFY : Z := 1 << 9.

Definition has (flags f : Z) : bool := negb (flags .& f =? 0).

Inductive SigVersion : Type := SIGVERSION_BASE | SIGVERSION_WITNESS_V0.

(** [BaseSignatureChecker]. *)
Class SignatureChecker : Type := {
  CheckSig : valtype → valtype → CScript → SigVersion → bool;
  CheckLockTime : Z → bool
}.

(** ** Encodings of booleans, keys and signatures *)

Fixpoint CastToBool (vch : valtype) : bool :=
  match vch with
  | [] => false
  | [b] => negb (b =? 0) && negb (b =? 0x80)
  | b :: vch => if negb (b =? 0) then true else CastToBool vch
  end.

Definition at_ (v : valtype) (i : Z) : Z := nth (Z.to_nat i) v 0.
Definition size (v : valtype) : Z := Z.of_nat (length v).

Definition IsCompressedOrUncompressedPubKey (vchPubKey : valtype) : bool :=
  if size vchPubKey <? 33 then false
  else if at_ vchPubKey 0 =? 0x04 then size vchPubKey =? 65
  else if (at_ vchPubKey 0 =? 0x02) || (at_ vchPubKey 0 =? 0x03) then size vchPubKey =? 33
  else false.

Definition IsValidSignatureEncoding (sig : valtype) : bool :=
  if size sig <? 9 then false
  else if size sig >? 73 then false
  else if negb (at_ sig 0 =? 0x30) then false
  else if negb (at_ sig 1 =? size sig - 3) then false
  else
    let lenR := at_ sig 3 in
    if 5 + lenR >=? size sig then false
    else
      let lenS := at_ sig (5 + lenR) in
      if negb (lenR + lenS + 7 =? size sig) then false
      else if negb (at_ sig 2 =? 0x02) then false
      else if lenR =? 0 then false
      else if negb (at_ sig 4 .& 0x80 =? 0) then false
      else if (lenR >? 1) && (at_ sig 4 =? 0x00) && (at_ sig 5 .& 0x80 =? 0) then false
      else if negb (at_ sig (lenR + 4) =? 0x02) then false
      else if lenS =? 0 then false
      else if negb (at_ sig (lenR + 6) .& 0x80 =? 0) then false
      else if (lenS >? 1) && (at_ sig (lenR + 6) =? 0x00) && (at_ sig (lenR + 7) .& 0x80 =? 0) then false
      else true.

Definition SIGHASH_ALL : Z := 1.
Definition SIGHASH_NONE : Z := 2.
Definition SIGHASH_SINGLE : Z := 3.
Definition SIGHASH_ANYONECANPAY : Z := 0x80.

Definition IsDefinedHashtypeSignature (vchSig : valtype) : bool :=
  if size vchSig =? 0 then false
  else
    let nHashType := Z.ldiff (back vchSig) SIGHASH_ANYONECANPAY in
    negb ((nHashType <? SIGHASH_ALL) || (nHashType >? SIGHASH_SINGLE)).

Definition CheckMinimalPush (data : valtype) (opcode : Z) : bool :=
  if size data =? 0 then opcode =? OP_0
  else if (size data =? 1) && (at_ data 0 >=? 1) && (at_ data 0 <=? 16) then opcode =? OP_1 + (at_ data 0 - 1)
  else if (size data =? 1) && (at_ data 0 =? 0x81) then opcode =? OP_1NEGATE
  else if size data <=? 75 then opcode =? size data
  else if size data <=? 255 then opcode =? OP_PUSHDATA1
  else if size data <=? 65535 then opcode =? OP_PUSHDATA2
  else true.

Definition vchFalse : valtype := [].
Definition vchTrue : valtype := [1].
Definition of_bool (b : bool) : valtype := if b then vchTrue else vchFalse.

Definition disabled : list Z :=
  [OP_CAT; OP_SUBSTR; OP_LEFT; OP_RIGHT; OP_INVERT; OP_AND; OP_OR; OP_XOR; OP_2MUL; OP_2DIV; OP_MUL; OP_DIV; OP_MOD; OP_LSHIFT; OP_RSHIFT].

(** ** The machine *)

Record machine : Type := mkMachine {
  stack : list valtype; altstack : list valtype; vfExec : list bool; nOpCount : Z; pc : CScript; pbegincodehash : CScript
}.

Definition set_stack (m : machine) (s : list valtype) : machine :=
  mkMachine s (altstack m) (vfExec m) (nOpCount m) (pc m) (pbegincodehash m).
Definition set_vfExec (m : machine) (v : list bool) : machine :=
  mkMachine (stack m) (altstack m) v (nOpCount m) (pc m) (pbegincodehash m).

Definition invalid_stack {A} : res A := inl SCRIPT_ERR_INVALID_STACK_OPERATION.

Section Eval.
Context {checker : SignatureChecker}.
Variables ripemd160 sha1 : valtype → valtype.
Variable CheckLowS : valtype → bool.
Variable flags : Z.
Variable sigversion : SigVersion.

Definition fRequireMinimal : bool := has flags SCRIPT_VERIFY_MINIMALDATA.

Definition IsLowDERSignature (vchSig : valtype) : res unit :=
  if negb (IsValidSignatureEncoding vchSig) then inl SCRIPT_ERR_SIG_DER
  else if negb (CheckLowS (take (length vchSig - 1) vchSig)) then inl SCRIPT_ERR_SIG_HIGH_S
  else inr ().

Definition CheckSignatureEncoding (vchSig : valtype) : res unit :=
  if size vchSig =? 0 then inr ()
  else if has flags (SCRIPT_VERIFY_DERSIG .| SCRIPT_VERIFY_LOW_S .| SCRIPT_VERIFY_STRICTENC) && negb (IsValidSignatureEncoding vchSig)
  then inl SCRIPT_ERR_SIG_DER
  else
    let low := if has flags SCRIPT_VERIFY_LOW_S then IsLowDERSignature vchSig else inr () in
    match low with
    | inl e => inl e
    | inr _ =>
        if has flags SCRIPT_VERIFY_STRICTENC && negb (IsDefinedHashtypeSignature vchSig) then inl SCRIPT_ERR_SIG_HASHTYPE
        else inr ()
    end.

Definition CheckPubKeyEncoding (vchPubKey : valtype) : res unit :=
  if has flags SCRIPT_VERIFY_STRICTENC && negb (IsCompressedOrUncompressedPubKey vchPubKey) then inl SCRIPT_ERR_PUBKEYTYPE
  else inr ().

(** [CScriptNum(vch, fRequireMinimal, n)]: its exception reaches the handler. *)
Definition num (vch : valtype) (n : Z) : res Z :=
  match CScriptNum vch fRequireMinimal n with Some x => inr x | None => inl SCRIPT_ERR_UNKNOWN_ERROR end.
Definition num4 (vch : valtype) : res Z := num vch nDefaultMaxNumSize.

(** *** Operations that only move items of the stack *)

(** [OP_PICK] and [OP_ROLL], after [n] has been taken from the stack. *)
Definition pick_op (opcode : Z) (v : valtype) (stack : list valtype) : res (list valtype) :=
  let* x := num4 v in
  let n := getint x in
  if (n <? 0) || (n >=? Z.of_nat (length stack)) then invalid_stack
  else
    let vch := nth (Z.to_nat n) stack [] in
    inr (vch :: if opcode =? OP_ROLL then take (Z.to_nat n) stack ++ drop (S (Z.to_nat n)) stack else stack).

Definition stack_op (opcode : Z) (stack : list valtype) : option (res (list valtype)) :=
  if opcode =? OP_2DROP then Some match stack with _ :: _ :: s => inr s | _ => invalid_stack end
  else if opcode =? OP_2DUP then
    Some match stack with v2 :: v1 :: s => inr (v2 :: v1 :: v2 :: v1 :: s) | _ => invalid_stack end
  else if opcode =? OP_3DUP then
    Some match stack with v3 :: v2 :: v1 :: s => inr (v3 :: v2 :: v1 :: v3 :: v2 :: v1 :: s) | _ => invalid_stack end
  else if opcode =? OP_2OVER then
    Some match stack with v4 :: v3 :: v2 :: v1 :: s => inr (v2 :: v1 :: v4 :: v3 :: v2 :: v1 :: s) | _ => invalid_stack end
  else if opcode =? OP_2ROT then
    Some match stack with
         | v6 :: v5 :: v4 :: v3 :: v2 :: v1 :: s => inr (v2 :: v1 :: v6 :: v5 :: v4 :: v3 :: s)
         | _ => invalid_stack
         end
  else if opcode =? OP_2SWAP then
    Some match stack with v4 :: v3 :: v2 :: v1 :: s => inr (v2 :: v1 :: v4 :: v3 :: s) | _ => invalid_stack end
  else if opcode =? OP_IFDUP then
    Some match stack with v :: s => inr (if CastToBool v then v :: v :: s else v :: s) | _ => invalid_stack end
  else if opcode =? OP_DEPTH then Some (inr (serialize (Z.of_nat (length stack)) :: stack))
  else if opcode =? OP_DROP then Some match stack with _ :: s => inr s | _ => invalid_stack end
  else if opcode =? OP_DUP then Some match stack with v :: s => inr (v :: v :: s) | _ => invalid_stack end
  else if opcode =? OP_NIP then Some match stack with v2 :: _ :: s => inr (v2 :: s) | _ => invalid_stack end
  else if opcode =? OP_OVER then Some match stack with v2 :: v1 :: s => inr (v1 :: v2 :: v1 :: s) | _ => invalid_stack end
  else if (opcode =? OP_PICK) || (opcode =? OP_ROLL) then
    Some match stack with
         | v :: ((_ :: _) as s) => pick_op opcode v s
         | _ => invalid_stack
         end
  else if opcode =? OP_ROT then
    Some match stack with v3 :: v2 :: v1 :: s => inr (v1 :: v3 :: v2 :: s) | _ => invalid_stack end
  else if opcode =? OP_SWAP then Some match stack with v2 :: v1 :: s => inr (v1 :: v2 :: s) | _ => invalid_stack end
  else if opcode =? OP_TUCK then Some match stack with v2 :: v1 :: s => inr (v2 :: v1 :: v2 :: s) | _ => invalid_stack end
  else if opcode =? OP_SIZE then
    Some match stack with v :: s => inr (serialize (size v) :: v :: s) | _ => invalid_stack end
  else None.

(** *** Comparison and arithmetic *)

Definition bit (b : bool) : Z := if b then 1 else 0.

Definition unary (opcode bn : Z) : Z :=
  if opcode =? OP_1ADD then bn + 1
  else if opcode =? OP_1SUB then bn - 1
  else if opcode =? OP_NEGATE then - bn
  else if opcode =? OP_ABS then (if bn <? 0 then - bn else bn)
  else if opcode =? OP_NOT then bit (bn =? 0)
  else bit (negb (bn =? 0)).

Definition binary (opcode bn1 bn2 : Z) : Z :=
  if opcode =? OP_ADD then bn1 + bn2
  else if opcode =? OP_SUB then bn1 - bn2
  else if opcode =? OP_BOOLAND then bit (negb (bn1 =? 0) && negb (bn2 =? 0))
  else if opcode =? OP_BOOLOR then bit (negb (bn1 =? 0) || negb (bn2 =? 0))
  else if opcode =? OP_NUMEQUAL then bit (bn1 =? bn2)
  else if opcode =? OP_NUMEQUALVERIFY then bit (bn1 =? bn2)
  else if opcode =? OP_NUMNOTEQUAL then bit (negb (bn1 =? bn2))
  else if opcode =? OP_LESSTHAN then bit (bn1 <? bn2)
  else if opcode =? OP_GREATERTHAN then bit (bn1 >? bn2)
  else if opcode =? OP_LESSTHANOREQUAL then bit (bn1 <=? bn2)
  else if opcode =? OP_GREATERTHANOREQUAL then bit (bn1 >=? bn2)
  else if opcode =? OP_MIN then (if bn1 <? bn2 then bn1 else bn2)
  else (if bn1 >? bn2 then bn1 else bn2).

Definition one_of (opcode : Z) (l : list Z) : bool := existsb (Z.eqb opcode) l.

Definition unary_ops : list Z := [OP_1ADD; OP_1SUB; OP_NEGATE; OP_ABS; OP_NOT; OP_0NOTEQUAL].
Definition binary_ops : list Z :=
  [OP_ADD; OP_SUB; OP_BOOLAND; OP_BOOLOR; OP_NUMEQUAL; OP_NUMEQUALVERIFY; OP_NUMNOTEQUAL; OP_LESSTHAN; OP_GREATERTHAN;
   OP_LESSTHANOREQUAL; OP_GREATERTHANOREQUAL; OP_MIN; OP_MAX].

Definition arith_op (opcode : Z) (stack : list valtype) : option (res (list valtype)) :=
  if (opcode =? OP_EQUAL) || (opcode =? OP_EQUALVERIFY) then
    Some match stack with
         | v2 :: v1 :: s =>
             let fEqual := bool_decide (v1 = v2) in
             if opcode =? OP_EQUALVERIFY then (if fEqual then inr s else inl SCRIPT_ERR_EQUALVERIFY)
             else inr (of_bool fEqual :: s)
         | _ => invalid_stack
         end
  else if one_of opcode unary_ops then
    Some match stack with
         | v :: s => let* bn := num4 v in inr (serialize (unary opcode bn) :: s)
         | _ => invalid_stack
         end
  else if one_of opcode binary_ops then
    Some match stack with
         | v2 :: v1 :: s =>
             let* bn1 := num4 v1 in
             let* bn2 := num4 v2 in
             let r := serialize (binary opcode bn1 bn2) in
             if opcode =? OP_NUMEQUALVERIFY then (if CastToBool r then inr s else inl SCRIPT_ERR_NUMEQUALVERIFY)
             else inr (r :: s)
         | _ => invalid_stack
         end
  else if opcode =? OP_WITHIN then
    Some match stack with
         | v3 :: v2 :: v1 :: s =>
             let* bn1 := num4 v1 in
             let* bn2 := num4 v2 in
             let* bn3 := num4 v3 in
             inr (of_bool ((bn2 <=? bn1) && (bn1 <? bn3)) :: s)
         | _ => invalid_stack
         end
  else None.

(** *** Hashes and signatures *)

Definition SHA256 (vch : valtype) : valtype :=
  default [] (Sha256.Finalize (Sha256.Write (Sha256.CSHA256_init (replicate 64 0)) vch)).1.
Definition HASH256 (vch : valtype) : valtype := default [] (Sha256.Hash (replicate 64 0) [vch]).
Definition HASH160 (vch : valtype) : valtype := ripemd160 (SHA256 vch).

Definition hash_op (opcode : Z) (stack : list valtype) : option (res (list valtype)) :=
  if one_of opcode [OP_RIPEMD160; OP_SHA1; OP_SHA256; OP_HASH160; OP_HASH256] then
    Some match stack with
         | vch :: s =>
             inr ((if opcode =? OP_RIPEMD160 then ripemd160 vch
                   else if opcode =? OP_SHA1 then sha1 vch
                   else if opcode =? OP_SHA256 then SHA256 vch
                   else if opcode =? OP_HASH160 then HASH160 vch
                   else HASH256 vch) :: s)
         | _ => invalid_stack
         end
  else None.

(** [scriptCode.FindAndDelete(CScript(vchSig))]. *)
Definition drop_sig (scriptCode : CScript) (vchSig : valtype) : CScript :=
  match FindAndDelete scriptCode (push_data vchSig) with Some (r, _) => r | None => scriptCode end.

Definition checksig_op (opcode : Z) (m : machine) : res machine :=
  match stack m with
  | vchPubKey :: vchSig :: s =>
      let scriptCode := drop_sig (pbegincodehash m) vchSig in
      let* _ := CheckSignatureEncoding vchSig in
      let* _ := CheckPubKeyEncoding vchPubKey in
      let fSuccess := CheckSig vchSig vchPubKey scriptCode sigversion in
      if opcode =? OP_CHECKSIGVERIFY then (if fSuccess then inr (set_stack m s) else inl SCRIPT_ERR_CHECKSIGVERIFY)
      else inr (set_stack m (of_bool fSuccess :: s))
  | _ => invalid_stack
  end.

(** [stacktop(-i)]; [at] throws out of range. *)
Definition stacktop (stack : list valtype) (i : Z) : res valtype :=
  match stack !! Z.to_nat (i - 1) with Some v => inr v | None => inl SCRIPT_ERR_UNKNOWN_ERROR end.

(** The loop that matches signatures with keys; there are at most [nKeysCount] turns. *)
Fixpoint multisig_loop (fuel : nat) (stack : list valtype) (scriptCode : CScript) (isig ikey nSigsCount nKeysCount : Z)
    (fSuccess : bool) : res bool :=
  if fSuccess && (nSigsCount >? 0) then
    match fuel with
    | O => inl SCRIPT_ERR_UNKNOWN_ERROR
    | S fuel =>
        let* vchSig := stacktop stack isig in
        let* vchPubKey := stacktop stack ikey in
        let* _ := CheckSignatureEncoding vchSig in
        let* _ := CheckPubKeyEncoding vchPubKey in
        let fOk := CheckSig vchSig vchPubKey scriptCode sigversion in
        let isig := if fOk then isig + 1 else isig in
        let nSigsCount := if fOk then nSigsCount - 1 else nSigsCount in
        let nKeysCount := nKeysCount - 1 in
        multisig_loop fuel stack scriptCode isig (ikey + 1) nSigsCount nKeysCount (negb (nSigsCount >? nKeysCount))
    end
  else inr fSuccess.

(** The signatures [k .. nSigsCount - 1] are dropped from the script. *)
Fixpoint drop_sigs (count : nat) (stack : list valtype) (scriptCode : CScript) (isig : Z) : res CScript :=
  match count with
  | O => inr scriptCode
  | S count => let* vchSig := stacktop stack isig in drop_sigs count stack (drop_sig scriptCode vchSig) (isig + 1)
  end.

Definition multisig_op (opcode : Z) (m : machine) : res machine :=
  let s := stack m in
  let len := Z.of_nat (length s) in
  if len <? 1 then invalid_stack
  else
    let* v := stacktop s 1 in
    let* x := num4 v in
    let nKeysCount := getint x in
    if (nKeysCount <? 0) || (nKeysCount >? 20) then inl SCRIPT_ERR_PUBKEY_COUNT
    else
      let nOpCount := nOpCount m + nKeysCount in
      if nOpCount >? 201 then inl SCRIPT_ERR_OP_COUNT
      else
        let ikey := 2 in
        let i := 2 + nKeysCount in
        if len <? i then invalid_stack
        else
          let* v := stacktop s i in
          let* x := num4 v in
          let nSigsCount := getint x in
          if (nSigsCount <? 0) || (nSigsCount >? nKeysCount) then inl SCRIPT_ERR_SIG_COUNT
          else
            let isig := i + 1 in
            let i := i + 1 + nSigsCount in
            if len <? i then invalid_stack
            else
              let* scriptCode := drop_sigs (Z.to_nat nSigsCount) s (pbegincodehash m) isig in
              let* fSuccess := multisig_loop (Z.to_nat nKeysCount) s scriptCode isig ikey nSigsCount nKeysCount true in
              match drop (Z.to_nat (i - 1)) s with
              | [] => invalid_stack
              | dummy :: s =>
                  if has flags SCRIPT_VERIFY_NULLDUMMY && negb (size dummy =? 0) then inl SCRIPT_ERR_SIG_NULLDUMMY
                  else
                    let m' s := mkMachine s (altstack m) (vfExec m) nOpCount (pc m) (pbegincodehash m) in
                    if opcode =? OP_CHECKMULTISIGVERIFY
                    then (if fSuccess then inr (m' s) else inl SCRIPT_ERR_CHECKMULTISIGVERIFY)
                    else inr (m' (of_bool fSuccess :: s))
              end.

(** *** Control flow, locks and the alternative stack *)

Definition cltv (m : machine) : res machine :=
  if negb (has flags SCRIPT_VERIFY_CHECKLOCKTIMEVERIFY) then
    if has flags SCRIPT_VERIFY_DISCOURAGE_UPGRADABLE_NOPS then inl SCRIPT_ERR_DISCOURAGE_UPGRADABLE_NOPS else inr m
  else match stack m with
       | [] => invalid_stack
       | v :: _ =>
           let* nLockTime := num v 5 in
           if nLockTime <? 0 then inl SCRIPT_ERR_NEGATIVE_LOCKTIME
           else if negb (CheckLockTime nLockTime) then inl SCRIPT_ERR_UNSATISFIED_LOCKTIME
           else inr m
       end.

Definition if_op (opcode : Z) (fExec : bool) (m : machine) : res machine :=
  if fExec then
    match stack m with
    | [] => inl SCRIPT_ERR_UNBALANCED_CONDITIONAL
    | v :: s =>
        let fValue := CastToBool v in
        inr (set_vfExec (set_stack m s) ((if opcode =? OP_NOTIF then negb fValue else fValue) :: vfExec m))
    end
  else inr (set_vfExec m (false :: vfExec m)).

Definition control_op (opcode : Z) (fExec : bool) (m : machine) : option (res machine) :=
  if opcode =? OP_NOP then Some (inr m)
  else if opcode =? OP_CHECKLOCKTIMEVERIFY then Some (cltv m)
  else if (opcode =? OP_NOP1) || ((OP_NOP3 <=? opcode) && (opcode <=? OP_NOP10)) then
    Some (if has flags SCRIPT_VERIFY_DISCOURAGE_UPGRADABLE_NOPS then inl SCRIPT_ERR_DISCOURAGE_UPGRADABLE_NOPS else inr m)
  else if (opcode =? OP_IF) || (opcode =? OP_NOTIF) then Some (if_op opcode fExec m)
  else if opcode =? OP_ELSE then
    Some match vfExec m with [] => inl SCRIPT_ERR_UNBALANCED_CONDITIONAL | b :: v => inr (set_vfExec m (negb b :: v)) end
  else if opcode =? OP_ENDIF then
    Some match vfExec m with [] => inl SCRIPT_ERR_UNBALANCED_CONDITIONAL | _ :: v => inr (set_vfExec m v) end
  else if opcode =? OP_VERIFY then
    Some match stack m with
         | [] => invalid_stack
         | v :: s => if CastToBool v then inr (set_stack m s) else inl SCRIPT_ERR_VERIFY
         end
  else if opcode =? OP_RETURN then Some (inl SCRIPT_ERR_OP_RETURN)
  else if opcode =? OP_TOALTSTACK then
    Some match stack m with
         | [] => invalid_stack
         | v :: s => inr (mkMachine s (v :: altstack m) (vfExec m) (nOpCount m) (pc m) (pbegincodehash m))
         end
  else if opcode =? OP_FROMALTSTACK then
    Some match altstack m with
         | [] => inl SCRIPT_ERR_INVALID_ALTSTACK_OPERATION
         | v :: a => inr (mkMachine (v :: stack m) a (vfExec m) (nOpCount m) (pc m) (pbegincodehash m))
         end
  else if opcode =? OP_CODESEPARATOR then
    Some (inr (mkMachine (stack m) (altstack m) (vfExec m) (nOpCount m) (pc m) (pc m)))
  else None.

Definition on_stack (m : machine) (r : res (list valtype)) : res machine := let* s := r in inr (set_stack m s).

(** [switch (opcode)]. *)
Definition exec (opcode : Z) (fExec : bool) (m : machine) : res machine :=
  if (opcode =? OP_1NEGATE) || ((OP_1 <=? opcode) && (opcode <=? OP_16))
  then inr (set_stack m (serialize (opcode - (OP_1 - 1)) :: stack m))
  else match control_op opcode fExec m with Some r => r | None =>
       match stack_op opcode (stack m) with Some r => on_stack m r | None =>
       match arith_op opcode (stack m) with Some r => on_stack m r | None =>
       match hash_op opcode (stack m) with Some r => on_stack m r | None =>
         if (opcode =? OP_CHECKSIG) || (opcode =? OP_CHECKSIGVERIFY) then checksig_op opcode m
         else if (opcode =? OP_CHECKMULTISIG) || (opcode =? OP_CHECKMULTISIGVERIFY) then multisig_op opcode m
         else inl SCRIPT_ERR_BAD_OPCODE
       end end end end.

(** One turn of the loop of [EvalScript]. *)
Definition step (m : machine) : res machine :=
  let fExec := forallb id (vfExec m) in
  match GetOp (pc m) with
  | (None, _) => inl SCRIPT_ERR_BAD_OPCODE
  | (Some (opcode, vchPushValue), pc) =>
      if size vchPushValue >? MAX_SCRIPT_ELEMENT_SIZE then inl SCRIPT_ERR_PUSH_SIZE
      else
        let n := if opcode >? OP_16 then nOpCount m + 1 else nOpCount m in
        if (opcode >? OP_16) && (n >? 201) then inl SCRIPT_ERR_OP_COUNT
        else if one_of opcode disabled then inl SCRIPT_ERR_DISABLED_OPCODE
        else
          let m := mkMachine (stack m) (altstack m) (vfExec m) n pc (pbegincodehash m) in
          let* m :=
            if fExec && (0 <=? opcode) && (opcode <=? OP_PUSHDATA4) then
              if fRequireMinimal && negb (CheckMinimalPush vchPushValue opcode) then inl SCRIPT_ERR_MINIMALDATA
              else inr (set_stack m (vchPushValue :: stack m))
            else if fExec || ((OP_IF <=? opcode) && (opcode <=? OP_ENDIF)) then exec opcode fExec m
            else inr m in
          if Z.of_nat (length (stack m)) + Z.of_nat (length (altstack m)) >? 1000 then inl SCRIPT_ERR_STACK_SIZE
          else inr m
  end.

(** [while (pc < pend)]; [None] is out of fuel. *)
Fixpoint eval_loop (fuel : nat) (m : machine) : option (res machine) :=
  match pc m with
  | [] => Some (inr m)
  | _ =>
      match fuel with
      | O => None
      | S fuel => match step m with inl e => Some (inl e) | inr m => eval_loop fuel m end
      end
  end.

(** The stack after the script; every turn takes a byte at least. *)
Definition EvalScript (stk : list valtype) (script : CScript) : option (res (list valtype)) :=
  if size script >? MAX_SCRIPT_SIZE then Some (inl SCRIPT_ERR_SCRIPT_SIZE)
  else
    match eval_loop (length script) (mkMachine stk [] [] 0 script script) with
    | None => None
    | Some (inl e) => Some (inl e)
    | Some (inr m) =>
        match vfExec m with
        | [] => Some (inr (stack m))
        | _ => Some (inl SCRIPT_ERR_UNBALANCED_CONDITIONAL)
        end
    end.
End Eval.

(** [VerifyScript]; [None] is the failed assertion on [stackCopy] (or out of fuel). *)
Definition VerifyScript {checker : SignatureChecker} (ripemd160 sha1 : valtype → valtype) (CheckLowS : valtype → bool)
    (scriptSig scriptPubKey : CScript) (flags : Z) : option (res unit) :=
  let eval := EvalScript ripemd160 sha1 CheckLowS flags SIGVERSION_BASE in
  if has flags SCRIPT_VERIFY_SIGPUSHONLY && negb (IsPushOnly scriptSig) then Some (inl SCRIPT_ERR_SIG_PUSHONLY)
  else
    r ← eval [] scriptSig;
    match r with
    | inl e => Some (inl e)
    | inr stackCopy =>
        r ← eval stackCopy scriptPubKey;
        match r with
        | inl e => Some (inl e)
        | inr [] => Some (inl SCRIPT_ERR_EVAL_FALSE)
        | inr (v :: _) =>
            if negb (CastToBool v) then Some (inl SCRIPT_ERR_EVAL_FALSE)
            else if has flags SCRIPT_VERIFY_P2SH && IsPayToScriptHash scriptPubKey then
              if negb (IsPushOnly scriptSig) then Some (inl SCRIPT_ERR_SIG_PUSHONLY)
              else match stackCopy with
                   | [] => None
                   | pubKeySerialized :: stackCopy =>
                       r ← eval stackCopy pubKeySerialized;
                       match r with
                       | inl e => Some (inl e)
                       | inr [] => Some (inl SCRIPT_ERR_EVAL_FALSE)
                       | inr (v :: _) => if negb (CastToBool v) then Some (inl SCRIPT_ERR_EVAL_FALSE) else Some (inr ())
                       end
                   end
            else Some (inr ())
        end
    end.

(** ** The machine as a whole *)

Section Laws.
Context {checker : SignatureChecker}.
Variables ripemd160 sha1 : valtype → valtype.
Variable CheckLowS : valtype → bool.
Variable flags : Z.
Variable sigversion : SigVersion.

Abbreviation exec := (exec ripemd160 sha1 CheckLowS flags sigversion).
Abbreviation step := (step ripemd160 sha1 CheckLowS flags sigversion).
Abbreviation eval_loop := (eval_loop ripemd160 sha1 CheckLowS flags sigversion).
Abbreviation EvalScript := (EvalScript ripemd160 sha1 CheckLowS flags sigversion).

Lemma bindr_inr {A B} (x : res A) (f : A → res B) b : bindr x f = inr b ↔ ∃ a, x = inr a ∧ f a = inr b.
Proof. destruct x as [e|a]; cbn; [split; [done | by intros (? & ? & _)]|]. split; [by exists a | by intros (? & [= <-] & ?)]. Qed.

(** An item may be as long as a push, and no longer. *)
Definition item_ok (v : valtype) : Prop := size v <= MAX_SCRIPT_ELEMENT_SIZE.

(** The hash functions return short values. *)
Definition hashes_ok : Prop := (∀ v, item_ok (ripemd160 v)) ∧ ∀ v, item_ok (sha1 v).

(** What an operation may do: it does not move the instruction pointer, keeps the items
    short, and counts upwards within the limit. *)
Definition bounded (m m' : machine) : Prop :=
  pc m' = pc m ∧
  (hashes_ok → Forall item_ok (stack m) → Forall item_ok (altstack m) → Forall item_ok (stack m') ∧ Forall item_ok (altstack m')) ∧
  nOpCount m <= nOpCount m' ∧ (nOpCount m <= 201 → nOpCount m' <= 201).

Lemma serialize_short n : item_ok (serialize n).
Proof.
  assert (Hp : ∀ fuel a, (length (push_bytes fuel a) <= fuel)%nat).
  { induction fuel as [|fuel IH]; intros a; cbn [push_bytes]; [done|]. destruct (a =? 0); cbn; [lia | specialize (IH (a >> 8)); lia]. }
  unfold item_ok, size, MAX_SCRIPT_ELEMENT_SIZE, serialize. destruct (n =? 0); [cbn; lia|].
  set (a := if n <? 0 then - n else n). pose proof (Hp 8%nat a).
  repeat case_match; rewrite ?length_app, ?length_take; cbn [length]; lia.
Qed.

Lemma of_bool_short b : item_ok (of_bool b).
Proof. unfold item_ok, size, MAX_SCRIPT_ELEMENT_SIZE. destruct b; cbn; lia. Qed.

Lemma sha_short sh : item_ok (default [] (Sha256.Finalize sh).1).
Proof.
  unfold Sha256.Finalize, Sha256.FinalizeNoPadding. cbn [fst andb]. unfold item_ok, size.
  match goal with |- context [default [] (Some ?x)] => change (default [] (Some x)) with x end.
  rewrite (flat_map_constant_length (c := 4%nat)) by (intros; unfold Sha256.WriteBE32; by rewrite length_rev, length_le_bytes).
  unfold MAX_SCRIPT_ELEMENT_SIZE. rewrite length_seq. lia.
Qed.

Lemma HASH256_short v : item_ok (HASH256 v).
Proof.
  unfold HASH256, Sha256.Hash, Sha256.CHash256_Finalize. destruct (Sha256.Finalize _) as [[h|] sh]; [apply sha_short|].
  unfold item_ok, size, MAX_SCRIPT_ELEMENT_SIZE. cbn. lia.
Qed.

Lemma pick_op_short op v s s' : pick_op flags op v s = inr s' → Forall item_ok s → Forall item_ok s'.
Proof.
  unfold pick_op, invalid_stack. intros (x & _ & E)%bindr_inr Hs. case_match; [done|]. injection E as <-. apply Forall_cons. split.
  - apply Forall_nth_default; [unfold item_ok, size, MAX_SCRIPT_ELEMENT_SIZE; cbn; lia | done].
  - case_match; [|done]. apply Forall_app. split; [by apply Forall_take | by apply Forall_drop].
Qed.

(** Case analysis on a chain of tests, with the items of the stack at hand. *)
Ltac chain :=
  simplify_eq; repeat (case_match; simplify_eq; try done);
  repeat match goal with H : Forall _ (_ :: _) |- _ => apply Forall_cons in H as [? ?] end;
  repeat (apply Forall_cons; split); try done.

Lemma stack_op_short op s s' : stack_op flags op s = Some (inr s') → Forall item_ok s → Forall item_ok s'.
Proof.
  unfold stack_op, invalid_stack. intros E Hs. chain; try apply serialize_short.
  all: match goal with H : pick_op _ _ _ _ = inr _ |- _ => apply pick_op_short in H; [done | by constructor] end.
Qed.

Lemma arith_op_short op s s' : arith_op flags op s = Some (inr s') → Forall item_ok s → Forall item_ok s'.
Proof.
  unfold arith_op, invalid_stack. intros E Hs. chain; try apply of_bool_short.
  all: repeat match goal with H : bindr _ _ = inr _ |- _ => apply bindr_inr in H as (? & _ & H) end; chain;
    apply serialize_short || apply of_bool_short.
Qed.

Lemma hash_op_short op s s' :
  hashes_ok → hash_op ripemd160 sha1 op s = Some (inr s') → Forall item_ok s → Forall item_ok s'.
Proof.
  intros [Hr Hs1]. unfold hash_op, invalid_stack. intros E Hs. case_match; [|done]. destruct s as [|v s]; [done|].
  injection E as <-. apply Forall_cons in Hs as [_ Hs]. apply Forall_cons. split; [|done].
  repeat case_match; first [apply Hr | apply Hs1 | apply sha_short | apply HASH256_short].
Qed.

Lemma set_stack_bounded m s : (hashes_ok → Forall item_ok (stack m) → Forall item_ok s) → bounded m (set_stack m s).
Proof. intros Hs. split; [done|]. split; [auto|]. split; [cbn; lia | done]. Qed.

Lemma on_stack_bounded m r m' :
  (∀ s, r = inr s → hashes_ok → Forall item_ok (stack m) → Forall item_ok s) → on_stack m r = inr m' → bounded m m'.
Proof. unfold on_stack. intros Hr (s & -> & [= <-])%bindr_inr. apply set_stack_bounded. auto. Qed.

Lemma control_op_bounded op f m m' : control_op flags op f m = Some (inr m') → bounded m m'.
Proof.
  unfold control_op, cltv, if_op, invalid_stack. intros E.
  repeat (case_match; simplify_eq; try done); try (apply bindr_inr in E as (? & _ & E); repeat (case_match; simplify_eq; try done)).
  all: (split; [done|]; split; [|split; [cbn; lia | done]]); cbn [stack altstack set_stack set_vfExec]; try done.
  all: repeat match goal with H : stack _ = _ |- _ => rewrite H | H : altstack _ = _ |- _ => rewrite H end; intros; chain.
  all: split; repeat (apply Forall_cons; split); done.
Qed.

Lemma checksig_op_bounded op m m' : checksig_op CheckLowS flags sigversion op m = inr m' → bounded m m'.
Proof.
  unfold checksig_op, invalid_stack. destruct (stack m) as [|k [|v s]] eqn:Es; [done..|].
  intros (? & _ & (? & _ & E)%bindr_inr)%bindr_inr.
  assert (Hs : ∀ b, bounded m (set_stack m s) ∧ bounded m (set_stack m (of_bool b :: s))).
  { intros b. split; apply set_stack_bounded; rewrite Es; intros _ [_ [_ ?]%Forall_cons]%Forall_cons; [done|].
    apply Forall_cons. split; [apply of_bool_short | done]. }
  repeat case_match; simplify_eq; by apply (Hs true) || apply Hs.
Qed.

Lemma multisig_op_bounded op m m' : 0 <= nOpCount m → multisig_op CheckLowS flags sigversion op m = inr m' → bounded m m'.
Proof.
  intros Hn. unfold multisig_op, invalid_stack. case_match; [done|]. intros (v & _ & (x & _ & E)%bindr_inr)%bindr_inr.
  destruct (Z.ltb_spec (getint x) 0); [done|]. destruct (Z.gtb_spec (getint x) 20); [done|]. cbn [orb] in E.
  destruct (Z.gtb_spec (nOpCount m + getint x) 201); [done|]. case_match; [done|].
  apply bindr_inr in E as (v' & _ & (x' & _ & E)%bindr_inr). do 2 (case_match; [done|]).
  apply bindr_inr in E as (code & _ & (ok & _ & E)%bindr_inr).
  destruct (drop _ (stack m)) as [|d s] eqn:Ed; [done|]. case_match; [done|].
  assert (Hs : Forall item_ok (stack m) → Forall item_ok s).
  { intros Hs. apply (Forall_drop _ (Z.to_nat (2 + getint x + 1 + getint x' - 1))) in Hs. rewrite Ed in Hs.
    by apply Forall_cons in Hs as [_ Hs]. }
  assert (Hm : ∀ s', (Forall item_ok s → Forall item_ok s') →
    bounded m (mkMachine s' (altstack m) (vfExec m) (nOpCount m + getint x) (pc m) (pbegincodehash m))).
  { intros s' Hs'. split; [done|]. split; [auto|]. cbn. split; [lia | done]. }
  repeat case_match; simplify_eq; apply Hm; [done|]. intros. apply Forall_cons. split; [apply of_bool_short | done].
Qed.

Lemma exec_bounded op f m m' : 0 <= nOpCount m → exec op f m = inr m' → bounded m m'.
Proof.
  intros Hn. unfold Interp.exec. case_match.
  { intros [= <-]. apply set_stack_bounded. intros. apply Forall_cons. split; [apply serialize_short | done]. }
  destruct (control_op _ op f m) eqn:Ec; [intros ->; by eapply control_op_bounded|].
  destruct (stack_op _ op (stack m)) eqn:Es; [apply on_stack_bounded; intros s -> _; by eapply stack_op_short|].
  destruct (arith_op _ op (stack m)) eqn:Ea; [apply on_stack_bounded; intros s -> _; by eapply arith_op_short|].
  destruct (hash_op _ _ op (stack m)) eqn:Eh; [apply on_stack_bounded; intros s -> Hh; by eapply hash_op_short|].
  case_match; [apply checksig_op_bounded|]. case_match; [by apply multisig_op_bounded | done].
Qed.

(** The limits that hold between two instructions. *)
Definition machine_ok (m : machine) : Prop :=
  Forall item_ok (stack m) ∧ Forall item_ok (altstack m) ∧ 0 <= nOpCount m <= 201 ∧
  Z.of_nat (length (stack m)) + Z.of_nat (length (altstack m)) <= 1000.

(** One instruction reads at least a byte and keeps the limits. *)
Lemma step_ok m m' :
  pc m ≠ [] → 0 <= nOpCount m → step m = inr m' →
  (length (pc m') < length (pc m))%nat ∧ 0 <= nOpCount m' ∧ (hashes_ok → machine_ok m → machine_ok m').
Proof.
  intros Hpc Hn. unfold Interp.step. pose proof (GetOp_shorter (pc m) Hpc) as Hlt.
  destruct (GetOp (pc m)) as [[[op d]|] rest]; [|done]. cbn [snd] in Hlt.
  destruct (Z.gtb_spec (size d) MAX_SCRIPT_ELEMENT_SIZE) as [|Hd]; [done|].
  set (n := if op >? OP_16 then nOpCount m + 1 else nOpCount m). assert (Hn0 : 0 <= n) by (unfold n; case_match; lia).
  destruct ((op >? OP_16) && (n >? 201)) eqn:Ecount; [done|]. case_match; [done|].
  set (m1 := mkMachine (stack m) (altstack m) (vfExec m) n rest (pbegincodehash m)).
  intros (m2 & E & Hsize)%bindr_inr.
  assert (Hb : bounded m1 m2).
  { destruct (forallb id (vfExec m) && (0 <=? op) && (op <=? OP_PUSHDATA4)).
    - destruct (fRequireMinimal flags && _); [done|]. injection E as <-. apply set_stack_bounded. intros. by apply Forall_cons.
    - destruct (forallb id (vfExec m) || _); [by eapply exec_bounded|]. injection E as <-. split; [done|]. split; [done|]. split; [lia | done]. }
  cbv beta in Hsize. destruct (Z.gtb_spec (Z.of_nat (length (stack m2)) + Z.of_nat (length (altstack m2))) 1000); [done|].
  injection Hsize as <-.
  destruct Hb as (Epc & Hit & Hn1 & Hn2). cbn [nOpCount stack altstack pc m1] in *. split; [rewrite Epc; exact Hlt|]. split; [lia|].
  intros Hh (S1 & S2 & S3 & S4). destruct (Hit Hh S1 S2) as [T1 T2]. split; [done|]. split; [done|]. split; [|lia].
  split; [lia|]. apply Hn2. unfold n in *. destruct (op >? OP_16); [|lia]. destruct (Z.gtb_spec (nOpCount m + 1) 201); [done | lia].
Qed.

Lemma eval_loop_ok fuel : ∀ m,
  (length (pc m) <= fuel)%nat → 0 <= nOpCount m →
  ∃ r, eval_loop fuel m = Some r ∧ ∀ m', r = inr m' → hashes_ok → machine_ok m → machine_ok m'.
Proof.
  induction fuel as [|fuel IH]; intros m Hf Hn; cbn [Interp.eval_loop]; destruct (pc m) as [|b rest] eqn:Epc; try (cbn in Hf; lia);
    try (eexists; split; [done|]; by intros m' [= <-] _).
  destruct (step m) as [e|m1] eqn:Es; [eexists; split; [done|]; done|].
  destruct (step_ok m m1) as (Hlt & Hn1 & Hok); [by rewrite Epc | done | done|]. rewrite Epc in Hlt. cbn in Hlt, Hf.
  destruct (IH m1) as (r & Er & Hr); [lia | done|]. exists r. split; [done|]. auto.
Qed.
End Laws.

(** ** Evaluating scripts *)

Section Eval.
Context {checker : SignatureChecker}.
Variables ripemd160 sha1 : valtype → valtype.
Variable CheckLowS : valtype → bool.
Variable flags : Z.
Variable sigversion : SigVersion.

Abbreviation step := (step ripemd160 sha1 CheckLowS flags sigversion).
Abbreviation eval_loop := (eval_loop ripemd160 sha1 CheckLowS flags sigversion).
Abbreviation EvalScript := (EvalScript ripemd160 sha1 CheckLowS flags sigversion).

(** The stack of the caller is within the limits. *)
Definition stack_ok (s : list valtype) : Prop := Forall item_ok s ∧ Z.of_nat (length s) <= 1000.

Lemma EvalScript_spec stk script :
  ∃ r, EvalScript stk script = Some r ∧ ∀ s, r = inr s → hashes_ok ripemd160 sha1 → stack_ok stk → stack_ok s.
Proof.
  unfold Interp.EvalScript. case_match; [eexists; split; [done|]; done|].
  destruct (eval_loop_ok ripemd160 sha1 CheckLowS flags sigversion (length script) (mkMachine stk [] [] 0 script script)) as (r & -> & Hr);
    [done | done|].
  destruct r as [e|m]; [eexists; split; [done|]; done|]. destruct (vfExec m); [|eexists; split; [done|]; done].
  eexists. split; [done|]. intros s [= <-] Hh [Hi Hl]. destruct (Hr m eq_refl Hh) as (H1 & H2 & _ & H4); [|split; [done | lia]].
  split; [done|]. split; [constructor|]. split; [cbn; lia | cbn; lia].
Qed.

(** Reading the first instruction. *)
Lemma eval_loop_step fuel m m' : pc m ≠ [] → step m = inr m' → eval_loop (S fuel) m = eval_loop fuel m'.
Proof. intros Hpc Es. cbn [Interp.eval_loop]. destruct (pc m); [done|]. by rewrite Es. Qed.

Lemma eval_loop_fail fuel m e : pc m ≠ [] → step m = inl e → eval_loop (S fuel) m = Some (inl e).
Proof. intros Hpc Es. cbn [Interp.eval_loop]. destruct (pc m); [done|]. by rewrite Es. Qed.

(** A script whose first instruction fails. *)
Lemma EvalScript_first stk b rest e :
  size (b :: rest) <= MAX_SCRIPT_SIZE → step (mkMachine stk [] [] 0 (b :: rest) (b :: rest)) = inl e →
  EvalScript stk (b :: rest) = Some (inl e).
Proof.
  intros Hs Es. unfold Interp.EvalScript. destruct (Z.gtb_spec (size (b :: rest)) MAX_SCRIPT_SIZE); [lia|].
  cbn [length]. by rewrite (eval_loop_fail _ _ e).
Qed.

Lemma EvalScript_unspendable stk script : IsUnspendable script = true → ∃ e, EvalScript stk script = Some (inl e).
Proof.
  unfold IsUnspendable. intros Hu. destruct (Z.gtb_spec (Z.of_nat (length script)) MAX_SCRIPT_SIZE) as [Hgt|Hle].
  { exists SCRIPT_ERR_SCRIPT_SIZE. unfold Interp.EvalScript, size. by rewrite (proj2 (Z.gtb_lt _ _) Hgt). }
  destruct script as [|b rest]; [done|]. rewrite orb_false_r in Hu. apply Z.eqb_eq in Hu as ->.
  exists SCRIPT_ERR_OP_RETURN. by apply EvalScript_first.
Qed.

(** A pay-to-script-hash output fails on the empty stack. *)
Lemma EvalScript_p2sh_empty script : IsPayToScriptHash script = true → ∃ e, EvalScript [] script = Some (inl e).
Proof.
  unfold IsPayToScriptHash. destruct (Z.eqb_spec (Z.of_nat (length script)) 23) as [Hl|]; [|done]. destruct script as [|b rest]; [done|].
  cbn [andb nth]. destruct (Z.eqb_spec b OP_HASH160) as [->|]; [|done]. intros _. exists SCRIPT_ERR_INVALID_STACK_OPERATION.
  apply EvalScript_first; [unfold size, MAX_SCRIPT_SIZE; lia | reflexivity].
Qed.
End Eval.

(** [VerifyScript] always gives a verdict: the assertion on [stackCopy] cannot fail. *)
Lemma VerifyScript_total {checker : SignatureChecker} ripemd160 sha1 CheckLowS scriptSig scriptPubKey flags :
  ∃ r, VerifyScript ripemd160 sha1 CheckLowS scriptSig scriptPubKey flags = Some r.
Proof.
  unfold VerifyScript. case_match; [by eexists|].
  destruct (EvalScript_spec ripemd160 sha1 CheckLowS flags SIGVERSION_BASE [] scriptSig) as ([e|s1] & -> & _);
    cbn [mbind option_bind]; [by eexists|].
  destruct (EvalScript_spec ripemd160 sha1 CheckLowS flags SIGVERSION_BASE s1 scriptPubKey) as ([e|s2] & E2 & _); rewrite E2;
    cbn [mbind option_bind]; [by eexists|].
  destruct s2 as [|v s2]; [by eexists|]. case_match; [by eexists|].
  destruct (has flags SCRIPT_VERIFY_P2SH && IsPayToScriptHash scriptPubKey) eqn:Ep; [|by eexists]. case_match; [by eexists|].
  destruct s1 as [|k s1].
  { apply andb_true_iff in Ep as [_ Ep].
    destruct (EvalScript_p2sh_empty ripemd160 sha1 CheckLowS flags SIGVERSION_BASE scriptPubKey Ep) as [e Ee]. congruence. }
  destruct (EvalScript_spec ripemd160 sha1 CheckLowS flags SIGVERSION_BASE s1 k) as ([e|[|v' s3]] & -> & _);
    cbn [mbind option_bind]; [by eexists..|]. case_match; by eexists.
Qed.

(** ** Multisignatures *)

Section Multisig.
Context {checker : SignatureChecker}.
Variable CheckLowS : valtype → bool.
Variable flags : Z.
Variable sigversion : SigVersion.

(** Signatures can be matched with keys in order: keys may be left out. *)
Definition matched (scriptCode : CScript) (sigs keys : list valtype) : Prop :=
  ∃ keys', sublist keys' keys ∧ Forall2 (λ s k, CheckSig s k scriptCode sigversion = true) sigs keys'.

(** The strategy of the loop on lists: the next key is tried on the next signature. *)
Fixpoint greedy (scriptCode : CScript) (sigs keys : list valtype) : bool :=
  match keys with
  | [] => match sigs with [] => true | _ => false end
  | k :: keys =>
      match sigs with
      | [] => true
      | s :: sigs' => if CheckSig s k scriptCode sigversion then greedy scriptCode sigs' keys else greedy scriptCode sigs keys
      end
  end.

Lemma matched_nil code keys : matched code [] keys.
Proof. exists []. split; [apply sublist_nil_l | constructor]. Qed.

(** Taking the first key that fits is never a mistake. *)
Lemma greedy_spec code keys : ∀ sigs, greedy code sigs keys = true ↔ matched code sigs keys.
Proof.
  induction keys as [|k keys IH]; intros sigs; cbn [greedy].
  - destruct sigs as [|s sigs]; [split; [intros; apply matched_nil | done]|]. split; [done|].
    intros (keys' & ->%sublist_nil_r & Hf). inversion Hf.
  - destruct sigs as [|s sigs]; [split; [intros; apply matched_nil | done]|].
    destruct (CheckSig s k code sigversion) eqn:Ec; rewrite IH; split.
    + intros (keys' & Hs & Hf). exists (k :: keys'). split; [by constructor | by constructor].
    + intros (keys' & Hs & Hf). inversion Hf as [|? k' ? ks' Hk Hf' E1 E2]; subst. exists ks'. split; [|done].
      inversion Hs; subst; [done|]. etransitivity; [|eassumption]. by apply sublist_cons.
    + intros (keys' & Hs & Hf). exists keys'. split; [by apply sublist_cons | done].
    + intros (keys' & Hs & Hf). exists keys'. split; [|done]. inversion Hs; subst; [|done]. inversion Hf; subst. congruence.
Qed.

Lemma greedy_short code keys : ∀ sigs, (length keys < length sigs)%nat → greedy code sigs keys = false.
Proof.
  induction keys as [|k keys IH]; intros [|s sigs] Hl; cbn in *; try lia; try done.
  case_match; apply IH; cbn; lia.
Qed.

(** Every signature and key is well encoded for the flags. *)
Definition encoded (sigs keys : list valtype) : Prop :=
  Forall (λ s, CheckSignatureEncoding CheckLowS flags s = inr ()) sigs ∧ Forall (λ k, CheckPubKeyEncoding flags k = inr ()) keys.

(** The loop of the source walks through the two lists on the stack. *)
Lemma multisig_loop_spec stack code : ∀ fuel sigs keys isig ikey fS,
  encoded sigs keys → 1 <= isig → 1 <= ikey →
  (∀ j s, sigs !! j = Some s → stack !! (Z.to_nat (isig - 1) + j)%nat = Some s) →
  (∀ j k, keys !! j = Some k → stack !! (Z.to_nat (ikey - 1) + j)%nat = Some k) →
  (length keys <= fuel)%nat → fS = (length sigs <=? length keys)%nat →
  multisig_loop CheckLowS flags sigversion fuel stack code isig ikey (Z.of_nat (length sigs)) (Z.of_nat (length keys)) fS
  = inr (greedy code sigs keys).
Proof.
  induction fuel as [|fuel IH]; intros sigs keys isig ikey fS [Hs Hk] Hi1 Hi2 Hsig Hkey Hf ->; cbn [multisig_loop].
  - destruct keys; [|cbn in Hf; lia]. destruct sigs; done.
  - destruct (Nat.leb_spec (length sigs) (length keys)) as [Hle|Hgt]; cbn [andb]; [|by rewrite greedy_short].
    destruct (Z.gtb_spec (Z.of_nat (length sigs)) 0) as [Hpos|Hz].
    2: { destruct sigs; [by destruct keys | cbn in Hz; lia]. }
    destruct sigs as [|s sigs]; [cbn in Hpos; lia|]. destruct keys as [|k keys]; [cbn in Hle; lia|].
    unfold stacktop. pose proof (Hsig 0%nat s eq_refl) as E1. pose proof (Hkey 0%nat k eq_refl) as E2.
    rewrite Nat.add_0_r in E1, E2. rewrite E1, E2. cbn [bindr].
    apply Forall_cons in Hs as [Hs1 Hs2]. apply Forall_cons in Hk as [Hk1 Hk2]. rewrite Hs1, Hk1. cbn [bindr greedy length].
    destruct (CheckSig s k code sigversion).
    + rewrite <- (IH sigs keys (isig + 1) (ikey + 1) (length sigs <=? length keys)%nat); try lia; try done.
      * f_equal; [lia | lia|]. destruct (Nat.leb_spec (length sigs) (length keys)), (Z.gtb_spec (Z.of_nat (S (length sigs)) - 1) (Z.of_nat (S (length keys)) - 1)); lia.
      * intros j x Hj. rewrite <- (Hsig (S j) x Hj). f_equal. lia.
      * intros j x Hj. rewrite <- (Hkey (S j) x Hj). f_equal. lia.
      * cbn in Hf. lia.
    + rewrite <- (IH (s :: sigs) keys isig (ikey + 1) (length (s :: sigs) <=? length keys)%nat); try lia; try done.
      * cbn [length]. f_equal; [lia|].
        destruct (Nat.leb_spec (S (length sigs)) (length keys)), (Z.gtb_spec (Z.of_nat (S (length sigs))) (Z.of_nat (S (length keys)) - 1)); lia.
      * split; [by constructor | done].
      * intros j x Hj. rewrite <- (Hkey (S j) x Hj). f_equal. lia.
      * cbn in Hf. lia.
Qed.
End Multisig.

(** ** The operation on a stack laid out for it *)

Section MultisigOp.
Context {checker : SignatureChecker}.
Variable CheckLowS : valtype → bool.
Variable flags : Z.
Variable sigversion : SigVersion.

Lemma num4_serialize n : - 2 ^ 31 < n < 2 ^ 31 → num4 flags (serialize n) = inr n.
Proof.
  intros Hn. destruct (CScriptNum_serialize 4 n ltac:(lia) Hn) as [E _]. unfold num4, num, nDefaultMaxNumSize.
  assert (E' : CScriptNum (serialize n) (fRequireMinimal flags) 4 = Some n); [|by rewrite E'].
  destruct (fRequireMinimal flags); [done|]. unfold CScriptNum in *. cbn [andb] in *. by repeat case_match.
Qed.

Lemma drop_sigs_spec stack : ∀ sigs code isig,
  1 <= isig → (∀ j s, sigs !! j = Some s → stack !! (Z.to_nat (isig - 1) + j)%nat = Some s) →
  drop_sigs (length sigs) stack code isig = inr (foldl drop_sig code sigs).
Proof.
  induction sigs as [|s sigs IH]; intros code isig Hi Hs; [done|]. cbn [length drop_sigs foldl].
  unfold stacktop. pose proof (Hs 0%nat s eq_refl) as E. rewrite Nat.add_0_r in E. rewrite E. cbn [bindr].
  apply IH; [lia|]. intros j x Hj. rewrite <- (Hs (S j) x Hj). f_equal. lia.
Qed.

Lemma multisig_op_spec m keys sigs dummy s :
  stack m = serialize (Z.of_nat (length keys)) :: keys ++ serialize (Z.of_nat (length sigs)) :: sigs ++ dummy :: s →
  (length sigs <= length keys <= 20)%nat → nOpCount m + Z.of_nat (length keys) <= 201 →
  encoded CheckLowS flags sigs keys → (has flags SCRIPT_VERIFY_NULLDUMMY = true → dummy = []) →
  multisig_op CheckLowS flags sigversion OP_CHECKMULTISIG m =
  inr (mkMachine (of_bool (greedy sigversion (foldl drop_sig (pbegincodehash m) sigs) sigs keys) :: s)
         (altstack m) (vfExec m) (nOpCount m + Z.of_nat (length keys)) (pc m) (pbegincodehash m)).
Proof.
  intros Es Hlen Hops Henc Hdummy. unfold multisig_op, invalid_stack. rewrite Es.
  set (n := length keys) in *. set (k := length sigs) in *. set (full := serialize (Z.of_nat n) :: _).
  assert (Hfull : length full = (3 + n + k + length s)%nat).
  { unfold full. cbn [length]. rewrite length_app. cbn [length]. rewrite length_app. cbn [length]. lia. }
  assert (Hat : ∀ i x, full !! i = Some x → stacktop full (Z.of_nat i + 1) = inr x).
  { intros i x Hx. unfold stacktop. replace (Z.to_nat (Z.of_nat i + 1 - 1)) with i by lia. by rewrite Hx. }
  assert (Hkeys : ∀ j x, keys !! j = Some x → full !! (1 + j)%nat = Some x).
  { intros j x Hj. change ((keys ++ serialize (Z.of_nat k) :: sigs ++ dummy :: s) !! j = Some x). by apply lookup_app_l_Some. }
  assert (Hm : full !! (1 + n)%nat = Some (serialize (Z.of_nat k))).
  { change ((keys ++ serialize (Z.of_nat k) :: sigs ++ dummy :: s) !! n = Some (serialize (Z.of_nat k))). rewrite lookup_app_r by (unfold n; lia). unfold n. by rewrite Nat.sub_diag. }
  assert (Hsigs : ∀ j x, sigs !! j = Some x → full !! (2 + n + j)%nat = Some x).
  { intros j x Hj. change ((keys ++ serialize (Z.of_nat k) :: sigs ++ dummy :: s) !! (S (n + j)) = Some x). rewrite lookup_app_r by (unfold n; lia).
    replace (S (n + j) - length keys)%nat with (S j) by (unfold n; lia). change ((sigs ++ dummy :: s) !! j = Some x). by apply lookup_app_l_Some. }
  assert (Hdrop : drop (2 + n + k) full = dummy :: s).
  { change (drop (S (n + k)) (keys ++ serialize (Z.of_nat k) :: sigs ++ dummy :: s) = dummy :: s). rewrite drop_app_ge by (unfold n; lia).
    replace (S (n + k) - length keys)%nat with (S k) by (unfold n; lia). change (drop k (sigs ++ dummy :: s) = dummy :: s).
    rewrite drop_app_ge by (unfold k; lia). unfold k. by rewrite Nat.sub_diag. }
  destruct (Z.ltb_spec (Z.of_nat (length full)) 1); [lia|]. change 1 with (Z.of_nat 0 + 1) at 1. rewrite (Hat 0%nat _ eq_refl). cbn [bindr].
  rewrite num4_serialize by lia. cbn [bindr].
  assert (Hg : ∀ x : nat, (x <= 20)%nat → getint (Z.of_nat x) = Z.of_nat x).
  { intros x Hx. unfold getint, INT_MAX, INT_MIN. destruct (Z.gtb_spec (Z.of_nat x) (2 ^ 31 - 1)), (Z.ltb_spec (Z.of_nat x) (- 2 ^ 31)); lia. }
  rewrite Hg by lia. destruct (Z.ltb_spec (Z.of_nat n) 0); [lia|]. destruct (Z.gtb_spec (Z.of_nat n) 20); [lia|]. cbn [orb].
  destruct (Z.gtb_spec (nOpCount m + Z.of_nat n) 201); [lia|]. destruct (Z.ltb_spec (Z.of_nat (length full)) (2 + Z.of_nat n)); [lia|].
  replace (2 + Z.of_nat n) with (Z.of_nat (1 + n) + 1) by lia. rewrite (Hat _ _ Hm). cbn [bindr].
  rewrite num4_serialize by lia. cbn [bindr]. rewrite Hg by lia.
  destruct (Z.ltb_spec (Z.of_nat k) 0); [lia|]. destruct (Z.gtb_spec (Z.of_nat k) (Z.of_nat n)); [lia|]. cbn [orb].
  destruct (Z.ltb_spec (Z.of_nat (length full)) (Z.of_nat (1 + n) + 1 + 1 + Z.of_nat k)); [lia|].
  rewrite !Nat2Z.id. unfold k at 1. rewrite drop_sigs_spec; [|lia | intros j x Hj; rewrite <- (Hsigs j x Hj); f_equal; lia]. cbn [bindr].
  pose proof (multisig_loop_spec CheckLowS flags sigversion full (foldl drop_sig (pbegincodehash m) sigs) n sigs keys
    (Z.of_nat (1 + n) + 1 + 1) 2 true Henc ltac:(lia) ltac:(lia)) as El. fold n k in El. rewrite El; clear El.
  - cbn [bindr]. replace (Z.to_nat (Z.of_nat (1 + n) + 1 + 1 + Z.of_nat k - 1)) with (2 + n + k)%nat by lia. rewrite Hdrop.
    destruct (has flags SCRIPT_VERIFY_NULLDUMMY); [rewrite (Hdummy eq_refl); done | done].
  - intros j x Hj. rewrite <- (Hsigs j x Hj). f_equal; lia.
  - exact Hkeys.
  - done.
  - symmetry. apply Nat.leb_le. lia.
Qed.
End MultisigOp.

(** ** Pay to public key hash *)

Section P2PKH.
Context {checker : SignatureChecker}.
Variables ripemd160 sha1 : valtype → valtype.
Variable CheckLowS : valtype → bool.
Variable flags : Z.

Abbreviation step := (step ripemd160 sha1 CheckLowS flags SIGVERSION_BASE).
Abbreviation eval_loop := (eval_loop ripemd160 sha1 CheckLowS flags SIGVERSION_BASE).
Abbreviation EvalScript := (EvalScript ripemd160 sha1 CheckLowS flags SIGVERSION_BASE).

Lemma push_not_disabled op : op <= OP_PUSHDATA4 → one_of op disabled = false.
Proof.
  intros Hop. unfold one_of. apply Tx.existsb_Forall. unfold OP_PUSHDATA4 in Hop.
  repeat (apply Forall_cons; split); [apply Z.eqb_neq; unfold OP_CAT, OP_SUBSTR, OP_LEFT, OP_RIGHT, OP_INVERT, OP_AND, OP_OR, OP_XOR,
    OP_2MUL, OP_2DIV, OP_MUL, OP_DIV, OP_MOD, OP_LSHIFT, OP_RSHIFT; lia.. | constructor].
Qed.

(** A push executes as one, if it is the shortest where this is demanded. *)
Definition minimal_push (b : valtype) (rest : CScript) : Prop :=
  fRequireMinimal flags = true → ∀ op, (GetOp (push_data b ++ rest)).1 = Some (op, b) → CheckMinimalPush b op = true.

Lemma step_push b s vf n rest p :
  size b <= MAX_SCRIPT_ELEMENT_SIZE → forallb id vf = true → minimal_push b rest →
  step (mkMachine s [] vf n (push_data b ++ rest) p) =
  if Z.of_nat (length (b :: s)) >? 1000 then inl SCRIPT_ERR_STACK_SIZE else inr (mkMachine (b :: s) [] vf n rest p).
Proof.
  intros Hb Hvf Hmin. unfold Interp.step. cbn [pc stack altstack vfExec nOpCount pbegincodehash].
  destruct (GetOp_push b rest) as (op & Hop & Eop); [unfold size, MAX_SCRIPT_ELEMENT_SIZE in Hb; lia|].
  assert (Hm : fRequireMinimal flags && negb (CheckMinimalPush b op) = false).
  { destruct (fRequireMinimal flags) eqn:Ef; [|done]. by rewrite (Hmin Ef op) by (by rewrite Eop). }
  rewrite Eop. destruct (Z.gtb_spec (size b) MAX_SCRIPT_ELEMENT_SIZE); [lia|].
  assert (E16 : (op >? OP_16) = false) by (rewrite Z.gtb_ltb; apply Z.ltb_ge; unfold OP_PUSHDATA4, OP_16 in *; lia).
  rewrite E16. cbn [andb]. rewrite push_not_disabled by lia. rewrite Hvf.
  rewrite (proj2 (Z.leb_le 0 op)), (proj2 (Z.leb_le op OP_PUSHDATA4)) by lia. rewrite Hm. cbn [andb bindr stack altstack set_stack].
  by rewrite Z.add_0_r.
Qed.

Lemma step_push_room b s vf n rest p :
  size b <= MAX_SCRIPT_ELEMENT_SIZE → forallb id vf = true → minimal_push b rest → Z.of_nat (length s) < 1000 →
  step (mkMachine s [] vf n (push_data b ++ rest) p) = inr (mkMachine (b :: s) [] vf n rest p).
Proof.
  intros Hb Hvf Hmin Hs. rewrite step_push by done. cbn [length]. destruct (Z.gtb_spec (Z.of_nat (S (length s))) 1000); [lia | done].
Qed.

(** The push of a hash of 20 bytes is the shortest. *)
Lemma minimal_hash h rest : length h = 20%nat → minimal_push h rest.
Proof.
  intros Hh _ op. unfold push_data, CheckMinimalPush, size. rewrite Hh. cbn [Z.of_nat Z.ltb app]. unfold GetOp.
  change (Z.of_nat 20) with 20. change (20 <? OP_PUSHDATA1) with true. cbn [app]. change (20 <=? OP_PUSHDATA4) with true. change (20 <? OP_PUSHDATA1) with true.
  cbv iota. unfold push_of. case_match; cbn [fst]; [done|]. by intros [= <-].
Qed.

Lemma length_push_data b : ∃ k, length (push_data b) = S k.
Proof. unfold push_data. repeat case_match; cbn; by eexists. Qed.

Definition p2pkh_sig (sig key : valtype) : CScript := push_data sig ++ push_data key.
Definition p2pkh_script (h : valtype) : CScript := [OP_DUP; OP_HASH160] ++ push_data h ++ [OP_EQUALVERIFY; OP_CHECKSIG].

Lemma eval_p2pkh_sig sig key :
  fRequireMinimal flags = false → size sig <= MAX_SCRIPT_ELEMENT_SIZE → size key <= MAX_SCRIPT_ELEMENT_SIZE →
  EvalScript [] (p2pkh_sig sig key) = Some (inr [key; sig]).
Proof.
  intros Hf Hs Hk. assert (Hmin : ∀ b rest, minimal_push b rest) by (intros b rest ?; congruence). unfold Interp.EvalScript, p2pkh_sig.
  assert (Hlen : ∀ b, size b <= MAX_SCRIPT_ELEMENT_SIZE → size (push_data b) <= 600).
  { intros b Hb. unfold size, MAX_SCRIPT_ELEMENT_SIZE in *. unfold push_data. rewrite length_app.
    repeat case_match; cbn [length]; rewrite ?length_le_bytes; lia. }
  pose proof (Hlen _ Hs) as L1. pose proof (Hlen _ Hk) as L2. unfold size in L1, L2.
  destruct (Z.gtb_spec (size (push_data sig ++ push_data key)) MAX_SCRIPT_SIZE) as [Hgt|_].
  { unfold size, MAX_SCRIPT_SIZE in Hgt. rewrite length_app in Hgt. lia. }
  rewrite length_app. destruct (length_push_data sig) as [i Hi], (length_push_data key) as [j Hj].
  replace (length (push_data sig) + length (push_data key))%nat with (S (S (i + j))) by lia.
  rewrite (eval_loop_step _ _ _ _ _ _ _ (mkMachine [sig] [] [] 0 (push_data key) (push_data sig ++ push_data key)));
    [|cbn [pc]; destruct (push_data sig); [done | done] | by apply step_push_room].
  rewrite (eval_loop_step _ _ _ _ _ _ _ (mkMachine [key; sig] [] [] 0 [] (push_data sig ++ push_data key)));
    [|cbn [pc]; destruct (push_data key); [done | done] | rewrite <- (right_id_L [] app (push_data key)) at 1; by apply step_push_room].
  by destruct (i + j)%nat.
Qed.

(** The five instructions of the output, on a stack with a key and a signature on top. *)
Lemma eval_p2pkh_script sig key s h :
  length h = 20%nat →
  EvalScript (key :: sig :: s) (p2pkh_script h) = Some (
    if Z.of_nat (length s) >? 996 then inl SCRIPT_ERR_STACK_SIZE
    else if bool_decide (HASH160 ripemd160 key = h) then
      let* _ := CheckSignatureEncoding CheckLowS flags sig in
      let* _ := CheckPubKeyEncoding flags key in
      inr (of_bool (CheckSig sig key (drop_sig (p2pkh_script h) sig) SIGVERSION_BASE) :: s)
    else inl SCRIPT_ERR_EQUALVERIFY).
Proof.
  intros Hh. set (script := p2pkh_script h). unfold Interp.EvalScript.
  assert (Es : script = OP_DUP :: OP_HASH160 :: push_data h ++ [OP_EQUALVERIFY; OP_CHECKSIG]) by done.
  assert (Hp : length (push_data h) = 21%nat) by (unfold push_data; rewrite length_app, Hh; reflexivity).
  assert (Hl : length script = 25%nat) by (rewrite Es; cbn [length]; rewrite length_app, Hp; reflexivity).
  destruct (Z.gtb_spec (size script) MAX_SCRIPT_SIZE) as [Hgt|_]; [unfold size, MAX_SCRIPT_SIZE in Hgt; lia|].
  rewrite Hl, Es. set (code := OP_DUP :: _). change code with script at 2. clear Es.
  assert (Hsz : ∀ k, (Z.of_nat (k + length s) + Z.of_nat 0 >? 1000) = (Z.of_nat (length s) >? 1000 - Z.of_nat k)).
  { intros k. apply eq_true_iff_eq. rewrite !Z.gtb_lt. lia. }
  assert (E1 : step (mkMachine (key :: sig :: s) [] [] 0 code script) =
    if Z.of_nat (3 + length s) + Z.of_nat 0 >? 1000 then inl SCRIPT_ERR_STACK_SIZE
    else inr (mkMachine (key :: key :: sig :: s) [] [] 1 (OP_HASH160 :: push_data h ++ [OP_EQUALVERIFY; OP_CHECKSIG]) script)) by reflexivity.
  rewrite Hsz in E1. destruct (Z.gtb_spec (Z.of_nat (length s)) (1000 - Z.of_nat 3)) as [H997|H997].
  { erewrite eval_loop_fail; [|done | exact E1]. destruct (Z.gtb_spec (Z.of_nat (length s)) 996); [done | lia]. }
  erewrite eval_loop_step; [|done | exact E1].
  assert (E2 : ∀ rest, step (mkMachine (key :: key :: sig :: s) [] [] 1 (OP_HASH160 :: rest) script) =
    if Z.of_nat (3 + length s) + Z.of_nat 0 >? 1000 then inl SCRIPT_ERR_STACK_SIZE
    else inr (mkMachine (HASH160 ripemd160 key :: key :: sig :: s) [] [] 2 rest script)) by reflexivity.
  rewrite Hsz in E2. destruct (Z.gtb_spec (Z.of_nat (length s)) (1000 - Z.of_nat 3)) as [|_]; [lia|].
  erewrite eval_loop_step; [|done | apply E2].
  assert (E3 := step_push h (HASH160 ripemd160 key :: key :: sig :: s) [] 2 [OP_EQUALVERIFY; OP_CHECKSIG] script
    ltac:(unfold size, MAX_SCRIPT_ELEMENT_SIZE; lia) eq_refl (minimal_hash h _ Hh)).
  assert (Hne : push_data h ++ [OP_EQUALVERIFY; OP_CHECKSIG] ≠ []) by (destruct (push_data h); done).
  change (length (h :: _)) with (4 + length s)%nat in E3.
  destruct (Z.gtb_spec (Z.of_nat (length s)) 996) as [H996|H996].
  { destruct (Z.gtb_spec (Z.of_nat (4 + length s)) 1000); [|lia]. erewrite eval_loop_fail; [done | exact Hne | exact E3]. }
  destruct (Z.gtb_spec (Z.of_nat (4 + length s)) 1000); [lia|].
  erewrite eval_loop_step; [|exact Hne | exact E3].
  assert (E4 : step (mkMachine (h :: HASH160 ripemd160 key :: key :: sig :: s) [] [] 2 [OP_EQUALVERIFY; OP_CHECKSIG] script) =
    if bool_decide (HASH160 ripemd160 key = h) then inr (mkMachine (key :: sig :: s) [] [] 3 [OP_CHECKSIG] script)
    else inl SCRIPT_ERR_EQUALVERIFY).
  { transitivity (if bool_decide (HASH160 ripemd160 key = h) then
      if Z.of_nat (2 + length s) + Z.of_nat 0 >? 1000 then inl SCRIPT_ERR_STACK_SIZE
      else inr (mkMachine (key :: sig :: s) [] [] 3 [OP_CHECKSIG] script) else inl SCRIPT_ERR_EQUALVERIFY).
    - cbn -[HASH160 bool_decide Z.gtb Z.add Z.of_nat]. by case_bool_decide.
    - rewrite Hsz. destruct (Z.gtb_spec (Z.of_nat (length s)) (1000 - Z.of_nat 2)); [lia | done]. }
  case_bool_decide; [|erewrite eval_loop_fail; [done | done | exact E4]].
  erewrite eval_loop_step; [|done | exact E4].
  assert (E5 : step (mkMachine (key :: sig :: s) [] [] 3 [OP_CHECKSIG] script) =
    let* _ := CheckSignatureEncoding CheckLowS flags sig in
    let* _ := CheckPubKeyEncoding flags key in
    if Z.of_nat (1 + length s) + Z.of_nat 0 >? 1000 then inl SCRIPT_ERR_STACK_SIZE
    else inr (mkMachine (of_bool (CheckSig sig key (drop_sig script sig) SIGVERSION_BASE) :: s) [] [] 4 [] script)).
  { cbn -[CheckSignatureEncoding CheckPubKeyEncoding drop_sig of_bool Z.gtb Z.add Z.of_nat].
    destruct (CheckSignatureEncoding CheckLowS flags sig); [done|]. cbn [bindr].
    by destruct (CheckPubKeyEncoding flags key). }
  rewrite Hsz in E5. destruct (Z.gtb_spec (Z.of_nat (length s)) (1000 - Z.of_nat 1)) as [|_]; [lia|].
  destruct (CheckSignatureEncoding CheckLowS flags sig) as [e|]; cbn [bindr] in *; [erewrite eval_loop_fail; [done | done | exact E5]|].
  destruct (CheckPubKeyEncoding flags key) as [e|]; cbn [bindr] in *; [erewrite eval_loop_fail; [done | done | exact E5]|].
  erewrite eval_loop_step; [|done | exact E5]. reflexivity.
Qed.

(** On a shorter stack the output fails. *)
Lemma eval_p2pkh_short s h : length h = 20%nat → (length s < 2)%nat → ∃ e, EvalScript s (p2pkh_script h) = Some (inl e).
Proof.
  intros Hh Hs. assert (Hp : length (push_data h) = 21%nat) by (unfold push_data; rewrite length_app, Hh; reflexivity).
  assert (Hne : push_data h ++ [OP_EQUALVERIFY; OP_CHECKSIG] ≠ []) by (destruct (push_data h); done).
  unfold Interp.EvalScript, p2pkh_script. set (script := [OP_DUP; OP_HASH160] ++ _).
  assert (Hl : length script = 25%nat) by (unfold script; rewrite !length_app, Hp; reflexivity).
  destruct (Z.gtb_spec (size script) MAX_SCRIPT_SIZE) as [|_]; [by eexists|]. rewrite Hl.
  destruct s as [|key [|x s]]; [| |cbn in Hs; lia].
  { exists SCRIPT_ERR_INVALID_STACK_OPERATION. erewrite eval_loop_fail; [done | done | reflexivity]. }
  assert (E1 : step (mkMachine [key] [] [] 0 script script) = inr (mkMachine [key; key] [] [] 1 (OP_HASH160 :: push_data h ++ [OP_EQUALVERIFY; OP_CHECKSIG]) script)) by reflexivity.
  erewrite eval_loop_step; [|done | exact E1].
  assert (E2 : ∀ rest, step (mkMachine [key; key] [] [] 1 (OP_HASH160 :: rest) script) = inr (mkMachine [HASH160 ripemd160 key; key] [] [] 2 rest script)) by reflexivity.
  erewrite eval_loop_step; [|done | apply E2].
  erewrite eval_loop_step; [|exact Hne | apply step_push_room; [unfold size, MAX_SCRIPT_ELEMENT_SIZE; lia | done | by apply minimal_hash | cbn; lia]].
  assert (E4 : step (mkMachine [h; HASH160 ripemd160 key; key] [] [] 2 [OP_EQUALVERIFY; OP_CHECKSIG] script) =
    if bool_decide (HASH160 ripemd160 key = h) then inr (mkMachine [key] [] [] 3 [OP_CHECKSIG] script) else inl SCRIPT_ERR_EQUALVERIFY).
  { cbn -[HASH160 bool_decide]. by case_bool_decide. }
  case_bool_decide; [|eexists; erewrite eval_loop_fail; [done | done | exact E4]].
  erewrite eval_loop_step; [|done | exact E4]. eexists. erewrite eval_loop_fail; [done | done | reflexivity].
Qed.
End P2PKH.

(** ** Theorems *)

(** [EvalScript] returns on every script and stack, and keeps the limits of the machine:
    if it starts within them (no item above 520 bytes, no more than 1000 items), so does
    the stack it leaves. *)
Theorem EvalScript_limits {checker : SignatureChecker} ripemd160 sha1 CheckLowS flags sigversion stk script :
  hashes_ok ripemd160 sha1 → stack_ok stk →
  ∃ r, EvalScript ripemd160 sha1 CheckLowS flags sigversion stk script = Some r ∧ ∀ s, r = inr s → stack_ok s.
Proof.
  intros Hh Hs. destruct (EvalScript_spec ripemd160 sha1 CheckLowS flags sigversion stk script) as (r & E & Hr).
  exists r. split; [done|]. intros s Es. by apply Hr.
Qed.

(** [VerifyScript] returns a verdict on every pair of scripts: its loops end, and the
    assertion that the copied stack is not empty holds whenever it is reached. *)
Theorem VerifyScript_returns {checker : SignatureChecker} ripemd160 sha1 CheckLowS scriptSig scriptPubKey flags :
  ∃ r, VerifyScript ripemd160 sha1 CheckLowS scriptSig scriptPubKey flags = Some r.
Proof. apply VerifyScript_total. Qed.

(** An output that [IsUnspendable] calls unspendable (and that the coins cache therefore
    never stores) cannot be spent: no input script and no flags make [VerifyScript]
    succeed on it. *)
Theorem unspendable_never_verifies {checker : SignatureChecker} ripemd160 sha1 CheckLowS scriptSig scriptPubKey flags :
  IsUnspendable scriptPubKey = true →
  ∃ e, VerifyScript ripemd160 sha1 CheckLowS scriptSig scriptPubKey flags = Some (inl e).
Proof.
  intros Hu. unfold VerifyScript. case_match; [by eexists|].
  destruct (EvalScript_spec ripemd160 sha1 CheckLowS flags SIGVERSION_BASE [] scriptSig) as ([e|s1] & -> & _);
    cbn [mbind option_bind]; [by eexists|].
  destruct (EvalScript_unspendable ripemd160 sha1 CheckLowS flags SIGVERSION_BASE s1 scriptPubKey Hu) as [e ->]. by eexists.
Qed.

(** C20: [OP_CHECKMULTISIG] on a stack laid out for it pushes true exactly when the signatures
    can be matched, in order, with some of the keys; it never rejects a set of signatures
    because a key was given to the wrong one.  It counts every key as an operation and
    removes all its arguments, the extra one included. *)
Theorem CHECKMULTISIG_correct {checker : SignatureChecker} CheckLowS flags sigversion m keys sigs dummy s :
  stack m = serialize (Z.of_nat (length keys)) :: keys ++ serialize (Z.of_nat (length sigs)) :: sigs ++ dummy :: s →
  (length sigs <= length keys <= 20)%nat → nOpCount m + Z.of_nat (length keys) <= 201 →
  encoded CheckLowS flags sigs keys → (has flags SCRIPT_VERIFY_NULLDUMMY = true → dummy = []) →
  ∃ b, multisig_op CheckLowS flags sigversion OP_CHECKMULTISIG m =
         inr (mkMachine (of_bool b :: s) (altstack m) (vfExec m) (nOpCount m + Z.of_nat (length keys)) (pc m) (pbegincodehash m)) ∧
       (b = true ↔ matched sigversion (foldl drop_sig (pbegincodehash m) sigs) sigs keys).
Proof. intros. eexists. split; [by eapply multisig_op_spec | apply greedy_spec]. Qed.

Lemma push_only_push fuel b s : size b <= MAX_SCRIPT_ELEMENT_SIZE → push_only (S fuel) (push_data b ++ s) = push_only fuel s.
Proof.
  intros Hb. destruct (GetOp_push b s) as (op & Hop & E); [unfold size, MAX_SCRIPT_ELEMENT_SIZE in Hb; lia|].
  cbn [push_only]. rewrite E. destruct (push_data b ++ s) eqn:Ep.
  { destruct (length_push_data b) as [k Hk]. apply (f_equal length) in Ep. rewrite length_app in Ep. cbn in Ep. lia. }
  destruct (Z.gtb_spec op OP_16) as [Hgt|]; [unfold OP_16, OP_PUSHDATA4 in *; lia | done].
Qed.

Lemma p2pkh_sig_push_only sig key :
  size sig <= MAX_SCRIPT_ELEMENT_SIZE → size key <= MAX_SCRIPT_ELEMENT_SIZE → IsPushOnly (p2pkh_sig sig key) = true.
Proof.
  intros Hs Hk. unfold IsPushOnly, p2pkh_sig. destruct (length_push_data sig) as [i Hi], (length_push_data key) as [j Hj].
  rewrite length_app, Hi, Hj. replace (S (S i + S j)) with (S (S (S (i + j)))) by lia.
  rewrite push_only_push by done. rewrite <- (right_id_L [] app (push_data key)). by rewrite push_only_push.
Qed.

(** What a spend of a payment to a public key hash [h] needs of the stack that the input
    script leaves: on top a key with that hash and a signature that the checker accepts for
    it, both encoded as the flags demand, and room for two more items. *)
Definition pays_to_hash {checker : SignatureChecker} (ripemd160 : valtype → valtype) (CheckLowS : valtype → bool) (flags : Z)
    (h : valtype) (stk : list valtype) : Prop :=
  ∃ key sig rest, stk = key :: sig :: rest ∧ Z.of_nat (length stk) <= 998 ∧ HASH160 ripemd160 key = h ∧
    CheckSignatureEncoding CheckLowS flags sig = inr () ∧ CheckPubKeyEncoding flags key = inr () ∧
    CheckSig sig key (drop_sig (p2pkh_script h) sig) SIGVERSION_BASE = true.

Lemma P2PKH_stack {checker : SignatureChecker} ripemd160 sha1 CheckLowS flags h scriptSig :
  length h = 20%nat →
  (r ← EvalScript ripemd160 sha1 CheckLowS flags SIGVERSION_BASE [] scriptSig;
   match r with
   | inl e => Some (inl e)
   | inr stackCopy =>
       r ← EvalScript ripemd160 sha1 CheckLowS flags SIGVERSION_BASE stackCopy (p2pkh_script h);
       match r with
       | inl e => Some (inl e)
       | inr [] => Some (inl SCRIPT_ERR_EVAL_FALSE)
       | inr (v :: _) => if negb (CastToBool v) then Some (inl SCRIPT_ERR_EVAL_FALSE) else Some (inr ())
       end
   end) = Some (inr ()) ↔
  ∃ stk, EvalScript ripemd160 sha1 CheckLowS flags SIGVERSION_BASE [] scriptSig = Some (inr stk) ∧ pays_to_hash ripemd160 CheckLowS flags h stk.
Proof.
  intros Hh. destruct (EvalScript_spec ripemd160 sha1 CheckLowS flags SIGVERSION_BASE [] scriptSig) as ([e|stk] & -> & _);
    cbn [mbind option_bind]; [split; [done | by intros (? & ? & _)]|].
  transitivity (pays_to_hash ripemd160 CheckLowS flags h stk); [|split; [eauto | by intros (? & [= <-] & ?)]].
  destruct (decide (length stk < 2)%nat) as [Hs|Hs].
  { destruct (eval_p2pkh_short ripemd160 sha1 CheckLowS flags stk h Hh Hs) as [e E]. rewrite E. cbn [mbind option_bind].
    split; [done|]. intros (? & ? & ? & -> & _). cbn in Hs. lia. }
  destruct stk as [|key [|sig rest]]; [cbn in Hs; lia | cbn in Hs; lia|].
  rewrite (eval_p2pkh_script ripemd160 sha1 CheckLowS flags sig key rest h Hh). cbn [mbind option_bind]. unfold pays_to_hash.
  destruct (Z.gtb_spec (Z.of_nat (length rest)) 996).
  { split; [done|]. intros (? & ? & ? & [= <- <- <-] & Hl & _). cbn in Hl. lia. }
  transitivity (HASH160 ripemd160 key = h ∧ CheckSignatureEncoding CheckLowS flags sig = inr () ∧ CheckPubKeyEncoding flags key = inr () ∧
    CheckSig sig key (drop_sig (p2pkh_script h) sig) SIGVERSION_BASE = true).
  2: { split; [intros H'; exists key, sig, rest; split; [done|]; split; [cbn; lia | done] | by intros (? & ? & ? & [= <- <- <-] & _ & H')]. }
  case_bool_decide; [|by split; [|intros (? & _)]].
  destruct (CheckSignatureEncoding CheckLowS flags sig) as [e|[]]; cbn [bindr]; [by split; [|intros (_ & ? & _)]|].
  destruct (CheckPubKeyEncoding flags key) as [e|[]]; cbn [bindr]; [by split; [|intros (_ & _ & ? & _)]|].
  destruct (CheckSig _ _ _ _); cbn; split; auto; [by intros [=] | by intros (_ & _ & _ & ?)].
Qed.

(** C13: A payment to a public key hash is spent, under any flags and by any input script,
    exactly when the input script runs (on its own, and of pushes only where the flags
    demand it) and leaves on top of its stack a key with that hash and a signature that the
    checker accepts for it over the script of the output.  Two pushes, of a signature and
    a key, are such a script, where shortest pushes are not demanded. *)
Theorem P2PKH_correct {checker : SignatureChecker} ripemd160 sha1 CheckLowS flags h :
  length h = 20%nat →
  (∀ scriptSig, VerifyScript ripemd160 sha1 CheckLowS scriptSig (p2pkh_script h) flags = Some (inr ()) ↔
     (has flags SCRIPT_VERIFY_SIGPUSHONLY = true → IsPushOnly scriptSig = true) ∧
     ∃ stk, EvalScript ripemd160 sha1 CheckLowS flags SIGVERSION_BASE [] scriptSig = Some (inr stk) ∧
            pays_to_hash ripemd160 CheckLowS flags h stk) ∧
  (∀ sig key, has flags SCRIPT_VERIFY_MINIMALDATA = false → size sig <= MAX_SCRIPT_ELEMENT_SIZE → size key <= MAX_SCRIPT_ELEMENT_SIZE →
     IsPushOnly (p2pkh_sig sig key) = true ∧
     EvalScript ripemd160 sha1 CheckLowS flags SIGVERSION_BASE [] (p2pkh_sig sig key) = Some (inr [key; sig])).
Proof.
  intros Hh. split; [|intros sig key Hmin Hs Hk; split; [by apply p2pkh_sig_push_only | by apply eval_p2pkh_sig]].
  intros scriptSig. unfold VerifyScript.
  assert (Hp : IsPayToScriptHash (p2pkh_script h) = false).
  { unfold IsPayToScriptHash. replace (Z.of_nat _ =? 23) with false; [done|]. symmetry. apply Z.eqb_neq.
    unfold p2pkh_script, push_data. rewrite !length_app, Hh. cbn. lia. }
  rewrite Hp, andb_false_r. destruct (has flags SCRIPT_VERIFY_SIGPUSHONLY) eqn:Ef, (IsPushOnly scriptSig) eqn:Epo; cbn [andb negb].
  2: { split; [done|]. intros [H _]. by specialize (H eq_refl). }
  all: rewrite P2PKH_stack by done; split; [intros H; split; [done | exact H] | by intros [_ H]].
Qed.

(** A clean stack is not demanded: the flag [SCRIPT_VERIFY_CLEANSTACK] of interpreter.h is
    never tested, so a script that leaves two items is accepted under it. *)
Definition SCRIPT_VERIFY_CLEANSTACK : Z := 1 << 8.

Theorem CLEANSTACK_ignored {checker : SignatureChecker} ripemd160 sha1 CheckLowS :
  VerifyScript ripemd160 sha1 CheckLowS [OP_1; OP_1] [OP_1] (SCRIPT_VERIFY_P2SH .| SCRIPT_VERIFY_CLEANSTACK) = Some (inr ()).
Proof. reflexivity. Qed.

(** ** Witnesses *)

(** A checker that accepts a signature equal to the key. *)
Definition toy_checker : SignatureChecker := {| CheckSig s k _ _ := bool_decide (s = k); CheckLockTime _ := true |}.

Lemma EvalScript_limits_witness :
  ∃ r, EvalScript (checker := toy_checker) (take 20) (take 20) (λ _, true) 0 SIGVERSION_BASE [] [OP_1; OP_DUP; OP_ADD; OP_SHA1] = Some r ∧
    r = inr [[2]] ∧ stack_ok [[2]].
Proof.
  destruct (EvalScript_limits (checker := toy_checker) (take 20) (take 20) (λ _, true) 0 SIGVERSION_BASE [] [OP_1; OP_DUP; OP_ADD; OP_SHA1])
    as (r & E & Hr).
  - split; intros v; unfold item_ok, size, MAX_SCRIPT_ELEMENT_SIZE; rewrite length_take; lia.
  - split; [constructor | cbn; lia].
  - assert (E' : r = inr [[2]]) by (injection E as <-; reflexivity). exists r. split; [done|]. split; [done|]. by apply Hr.
Defined.

Lemma unspendable_never_verifies_witness :
  IsUnspendable [OP_RETURN; OP_1] = true ∧
  ∃ e, VerifyScript (checker := toy_checker) (take 20) (take 20) (λ _, true) [OP_1] [OP_RETURN; OP_1] SCRIPT_VERIFY_P2SH = Some (inl e).
Proof. split; [reflexivity|]. apply (unspendable_never_verifies (checker := toy_checker)). reflexivity. Defined.

(** Two of three: the second key is left out. *)
Lemma CHECKMULTISIG_correct_witness :
  ∃ b, multisig_op (checker := toy_checker) (λ _, true) 0 SIGVERSION_BASE OP_CHECKMULTISIG
         (mkMachine ([3] :: [[5]; [6]; [7]] ++ [2] :: [[5]; [7]] ++ [[]]) [] [] 1 [] [OP_CHECKMULTISIG]) =
         inr (mkMachine [of_bool b] [] [] 4 [] [OP_CHECKMULTISIG]) ∧
       (b = true ↔ matched (checker := toy_checker) SIGVERSION_BASE (foldl drop_sig [OP_CHECKMULTISIG] [[5]; [7]]) [[5]; [7]] [[5]; [6]; [7]]).
Proof.
  apply (CHECKMULTISIG_correct (checker := toy_checker) (λ _, true) 0 SIGVERSION_BASE
    (mkMachine ([3] :: [[5]; [6]; [7]] ++ [2] :: [[5]; [7]] ++ [[]]) [] [] 1 [] [OP_CHECKMULTISIG]) [[5]; [6]; [7]] [[5]; [7]] [] []);
    [reflexivity | cbn; lia | cbn; lia | split; repeat constructor | done].
Defined.

Lemma P2PKH_correct_witness :
  let key := replicate 33 2 in
  let h := HASH160 (take 20) key in
  VerifyScript (checker := toy_checker) (take 20) (take 20) (λ _, true) (p2pkh_sig key key) (p2pkh_script h) SCRIPT_VERIFY_P2SH = Some (inr ()).
Proof.
  intros key h. destruct (P2PKH_correct (checker := toy_checker) (take 20) (take 20) (λ _, true) SCRIPT_VERIFY_P2SH h) as [H1 H2]; [vm_compute; reflexivity|].
  apply H1. split; [discriminate|]. exists [key; key]. split; [apply H2; [reflexivity | vm_compute; discriminate | vm_compute; discriminate]|].
  exists key, key, []. split; [reflexivity|]. split; [vm_compute; discriminate|]. split; [reflexivity|]. split; [reflexivity|]. split; reflexivity.
Defined.

End Interp.
