(* ===== verification/SigHash.v ===== *)
(** * src/script/interpreter.{h,cpp}, src/script/sigcache.cpp: what a signature signs

    The hash of a transaction that a signature commits to, the checker of signatures and
    lock times of an input, and the cache of signatures that were found valid.  The
    checker is an instance of the interface [SignatureChecker] the script machine is
    written over.  [None] is an access out of range or a loop out of fuel; the theorems
    show that neither happens.  [CPubKey::Verify] is an argument: it is the curve
    library. *)

From stdpp Require Import base option numbers list.
From Stdlib Require Import ZArith Lia.
From S2P Require Import Prelude Serialize Script Sha256 Consensus Tx Coins Block Undo Interp.
Import Serialize Tx.
Open Scope Z_scope.

Module SigHash.

Abbreviation valtype := Script.valtype.
Abbreviation GetOp := Script.GetOp.
Abbreviation OP_CODESEPARATOR := Script.OP_CODESEPARATOR.
Abbreviation SIGHASH_ALL := Interp.SIGHASH_ALL.
Abbreviation SIGHASH_NONE := Interp.SIGHASH_NONE.
Abbreviation SIGHASH_SINGLE := Interp.SIGHASH_SINGLE.
Abbreviation SIGHASH_ANYONECANPAY := Interp.SIGHASH_ANYONECANPAY.
Abbreviation SigVersion := Interp.SigVersion.
Abbreviation SIGVERSION_BASE := Interp.SIGVERSION_BASE.
Abbreviation SIGVERSION_WITNESS_V0 := Interp.SIGVERSION_WITNESS_V0.
Abbreviation Hash := Undo.GetHash.

Definition UINT256_ONE : uint256 := 1 :: replicate 31 0.

(** ** CTransactionSignatureSerializer *)

Record CTransactionSignatureSerializer : Type := mkSerializer {
  txTo : CTransaction; scriptCode : CScript; nIn : nat; fAnyoneCanPay : bool; fHashSingle : bool; fHashNone : bool
}.

Definition Serializer (txToIn : CTransaction) (scriptCodeIn : CScript) (nInIn : nat) (nHashTypeIn : Z) : CTransactionSignatureSerializer :=
  mkSerializer txToIn scriptCodeIn nInIn
    (negb (nHashTypeIn .& SIGHASH_ANYONECANPAY =? 0))
    (nHashTypeIn .& 0x1f =? SIGHASH_SINGLE)
    (nHashTypeIn .& 0x1f =? SIGHASH_NONE).

(** The first loop: the separators of the script. *)
Fixpoint count_separators (fuel : nat) (it : CScript) (nCodeSeparators : Z) : option Z :=
  match fuel with
  | O => None
  | S fuel =>
      match GetOp it with
      | (Some (opcode, _), it) => count_separators fuel it (if opcode =? OP_CODESEPARATOR then nCodeSeparators + 1 else nCodeSeparators)
      | (None, _) => Some nCodeSeparators
      end
  end.

(** The second loop, with what it has written; an iterator is the rest of the script it
    points to. *)
Fixpoint write_parts (fuel : nat) (it itBegin s : CScript) : option (list Z) :=
  match fuel with
  | O => None
  | S fuel =>
      match GetOp it with
      | (Some (opcode, _), it) =>
          if opcode =? OP_CODESEPARATOR then write_parts fuel it it (s ++ take (length itBegin - length it - 1) itBegin)
          else write_parts fuel it itBegin s
      | (None, it) => Some (if decide (itBegin = []) then s else s ++ take (length itBegin - length it) itBegin)
      end
  end.

Definition SerializeScriptCode (t : CTransactionSignatureSerializer) : option (list Z) :=
  let script := scriptCode t in
  nCodeSeparators ← count_separators (S (length script)) script 0;
  parts ← write_parts (S (length script)) script script [];
  Some (WriteCompactSize (Z.of_nat (length script) - nCodeSeparators) ++ parts).

Definition SerializeInput (t : CTransactionSignatureSerializer) (nInput : nat) : option (list Z) :=
  let nInput := if fAnyoneCanPay t then nIn t else nInput in
  txin ← vin (txTo t) !! nInput;
  script ← (if negb (nInput =? nIn t)%nat then Some (Serialize bytes []) else SerializeScriptCode t);
  let sequence :=
    if negb (nInput =? nIn t)%nat && (fHashSingle t || fHashNone t) then Serialize i32 0 else Serialize u32 (nSequence txin) in
  Some (Serialize COutPoint_format (prevout txin) ++ script ++ sequence).

Definition SerializeOutput (t : CTransactionSignatureSerializer) (nOutput : nat) : option (list Z) :=
  if fHashSingle t && negb (nOutput =? nIn t)%nat then Some (Serialize CTxOut_format SetNull)
  else txout ← vout (txTo t) !! nOutput; Some (Serialize CTxOut_format txout).

(** [for (unsigned int n = 0; n < count; n++) f(s, n)]. *)
Fixpoint serialize_from (f : nat → option (list Z)) (n count : nat) : option (list Z) :=
  match count with
  | O => Some []
  | S count => a ← f n; b ← serialize_from f (S n) count; Some (a ++ b)
  end.

Definition Serialize_tx (t : CTransactionSignatureSerializer) : option (list Z) :=
  let nInputs := if fAnyoneCanPay t then 1%nat else length (vin (txTo t)) in
  inputs ← serialize_from (SerializeInput t) 0 nInputs;
  let nOutputs := if fHashNone t then 0%nat else if fHashSingle t then S (nIn t) else length (vout (txTo t)) in
  outputs ← serialize_from (SerializeOutput t) 0 nOutputs;
  Some (Serialize i32 (nVersion (txTo t)) ++ WriteCompactSize (Z.of_nat nInputs) ++ inputs
        ++ WriteCompactSize (Z.of_nat nOutputs) ++ outputs ++ Serialize u32 (nLockTime (txTo t))).

(** ** SignatureHash *)

Definition GetPrevoutHash (txTo : CTransaction) : uint256 := Hash (map (λ i, Serialize COutPoint_format (prevout i)) (vin txTo)).
Definition GetSequenceHash (txTo : CTransaction) : uint256 := Hash (map (λ i, Serialize u32 (nSequence i)) (vin txTo)).
Definition GetOutputsHash (txTo : CTransaction) : uint256 := Hash (map (Serialize CTxOut_format) (vout txTo)).

Record PrecomputedTransactionData : Type := mkPrecomputed { hashPrevouts : uint256; hashSequence : uint256; hashOutputs : uint256 }.

Definition Precompute (txTo : CTransaction) : PrecomputedTransactionData :=
  mkPrecomputed (GetPrevoutHash txTo) (GetSequenceHash txTo) (GetOutputsHash txTo).

(** The first three hashes of the second signature version. *)
Definition witness_hashes (txTo : CTransaction) (nIn : nat) (nHashType : Z) (cache : option PrecomputedTransactionData) : PrecomputedTransactionData :=
  let anyone := negb (nHashType .& SIGHASH_ANYONECANPAY =? 0) in
  let single := nHashType .& 0x1f =? SIGHASH_SINGLE in
  let none := nHashType .& 0x1f =? SIGHASH_NONE in
  mkPrecomputed
    (if negb anyone then match cache with Some c => hashPrevouts c | None => GetPrevoutHash txTo end else UINT256_ZERO)
    (if negb anyone && negb single && negb none then match cache with Some c => hashSequence c | None => GetSequenceHash txTo end else UINT256_ZERO)
    (if negb single && negb none then match cache with Some c => hashOutputs c | None => GetOutputsHash txTo end
     else if single then match vout txTo !! nIn with Some o => Hash [Serialize CTxOut_format o] | None => UINT256_ZERO end
     else UINT256_ZERO).

Definition SignatureHash (scriptCode : CScript) (txTo : CTransaction) (nIn : nat) (nHashType amount : Z) (sigversion : SigVersion)
    (cache : option PrecomputedTransactionData) : option uint256 :=
  match vin txTo !! nIn with
  | None => Some UINT256_ONE
  | Some txin =>
      match sigversion with
      | SIGVERSION_WITNESS_V0 =>
          let h := witness_hashes txTo nIn nHashType cache in
          Some (Hash [Serialize i32 (nVersion txTo); hashPrevouts h; hashSequence h; Serialize COutPoint_format (prevout txin);
                      Serialize bytes scriptCode; Serialize i64 amount; Serialize u32 (nSequence txin); hashOutputs h;
                      Serialize u32 (nLockTime txTo); Serialize i32 nHashType])
      | SIGVERSION_BASE =>
          if (nHashType .& 0x1f =? SIGHASH_SINGLE) && (length (vout txTo) <=? nIn)%nat then Some UINT256_ONE
          else
            s ← Serialize_tx (Serializer txTo scriptCode nIn nHashType);
            Some (Hash [s; Serialize i32 nHashType])
      end
  end.

(** ** The checkers and the signature cache *)

(** [CuckooCache::cache]: a set that may forget.  [contains] may mark an element for
    removal. *)
Class CacheSet (C : Type) : Type := {
  contains : uint256 → bool → C → bool * C;
  insert : uint256 → C → C;
  member : C → uint256 → Prop
}.

(** It holds nothing that was not inserted. *)
Class CacheLaws (C : Type) (cs : CacheSet C) : Prop := {
  contains_member e erase st : (contains e erase st).1 = true → member st e;
  contains_keeps e erase st x : member (contains e erase st).2 x → member st x;
  insert_member e st x : member (insert e st) x → x = e ∨ member st x
}.

Section Checkers.
(** [CPubKey::Verify(hash, vchSig)]. *)
Variable Verify : list Z → uint256 → valtype → bool.

Definition VerifySignature (vchSig : valtype) (pubkey : list Z) (sighash : uint256) : bool := Verify pubkey sighash vchSig.

Record TransactionSignatureChecker : Type := mkChecker {
  checker_tx : CTransaction; checker_nIn : nat; amount : Z; precomTxData : option PrecomputedTransactionData
}.

(** [CheckSig] over the virtual [VerifySignature], which may use a state. *)
Definition CheckSig_with {C} (verify : valtype → list Z → uint256 → C → bool * C) (c : TransactionSignatureChecker)
    (vchSigIn vchPubKey : valtype) (scriptCode : CScript) (sigversion : SigVersion) (st : C) : bool * C :=
  let pubkey := Undo.Set_key vchPubKey in
  if negb (Undo.IsValid pubkey) then (false, st)
  else
    match vchSigIn with
    | [] => (false, st)
    | _ =>
        let nHashType := List.last vchSigIn 0 in
        let vchSig := removelast vchSigIn in
        match SignatureHash scriptCode (checker_tx c) (checker_nIn c) nHashType (amount c) sigversion (precomTxData c) with
        | Some sighash => verify vchSig pubkey sighash st
        | None => (false, st)
        end
    end.

Definition CheckSig (c : TransactionSignatureChecker) (vchSigIn vchPubKey : valtype) (scriptCode : CScript) (sigversion : SigVersion) : bool :=
  (CheckSig_with (λ s k h (u : unit), (VerifySignature s k h, u)) c vchSigIn vchPubKey scriptCode sigversion ()).1.

Definition CheckLockTime (c : TransactionSignatureChecker) (n : Z) : bool :=
  let txTo := checker_tx c in
  if negb (((nLockTime txTo <? LOCKTIME_THRESHOLD) && (n <? LOCKTIME_THRESHOLD))
           || ((nLockTime txTo >=? LOCKTIME_THRESHOLD) && (n >=? LOCKTIME_THRESHOLD))) then false
  else if n >? nLockTime txTo then false
  else if match vin txTo !! checker_nIn c with Some i => txin_IsFinal i | None => true end then false
  else true.

(** The virtual methods the machine calls. *)
Definition checker_of (c : TransactionSignatureChecker) : Interp.SignatureChecker :=
  {| Interp.CheckSig := CheckSig c; Interp.CheckLockTime := CheckLockTime c |}.

(** *** The signature cache *)

Context {C : Type} {cs : CacheSet C}.
Variable nonce : uint256.

Definition ComputeEntry (hash : uint256) (vchSig : valtype) (pubkey : list Z) : uint256 :=
  default [] (Sha256.Finalize (fold_left Sha256.Write
    [nonce; hash; take (Z.to_nat (Undo.key_size pubkey)) pubkey; vchSig] (Sha256.CSHA256_init (replicate 64 0)))).1.

(** [CachingTransactionSignatureChecker::VerifySignature]. *)
Definition Caching_VerifySignature (store : bool) (vchSig : valtype) (pubkey : list Z) (sighash : uint256) (st : C) : bool * C :=
  let entry := ComputeEntry sighash vchSig pubkey in
  let (found, st) := contains entry (negb store) st in
  if found then (true, st)
  else if negb (VerifySignature vchSig pubkey sighash) then (false, st)
  else (true, if store then insert entry st else st).

Definition Caching_CheckSig (store : bool) (c : TransactionSignatureChecker) (vchSigIn vchPubKey : valtype) (scriptCode : CScript)
    (sigversion : SigVersion) (st : C) : bool * C :=
  CheckSig_with (Caching_VerifySignature store) c vchSigIn vchPubKey scriptCode sigversion st.
End Checkers.

(** ** The reference: a modified transaction *)

(** The original definition: the transaction with the script code (without separators)
    in the signed input, the other scripts blank, and inputs and outputs dropped or
    blanked as the hash type says. *)
Definition sig_input (t : CTransactionSignatureSerializer) (code : CScript) (i : nat) (txin : CTxIn) : CTxIn :=
  if (i =? nIn t)%nat then mkTxIn (prevout txin) code (nSequence txin) []
  else mkTxIn (prevout txin) [] (if fHashSingle t || fHashNone t then 0 else nSequence txin) [].

Definition sig_inputs (t : CTransactionSignatureSerializer) (code : CScript) : list CTxIn :=
  let inputs := imap (sig_input t code) (vin (txTo t)) in
  if fAnyoneCanPay t then take 1 (drop (nIn t) inputs) else inputs.

Definition sig_outputs (t : CTransactionSignatureSerializer) : list CTxOut :=
  if fHashNone t then []
  else if fHashSingle t then replicate (nIn t) SetNull ++ take 1 (drop (nIn t) (vout (txTo t)))
  else vout (txTo t).

Definition sig_fields (t : CTransactionSignatureSerializer) (code : CScript) : Z * (list CTxIn * (list CTxOut * Z)) :=
  (nVersion (txTo t), (sig_inputs t code, (sig_outputs t, nLockTime (txTo t)))).

(** The script can be read to its end. *)
Inductive parses : CScript → Prop :=
| parses_nil : parses []
| parses_op s op s' : GetOp s = (Some op, s') → parses s' → parses s.

(** ** The script code *)

Abbreviation deleted := (Script.deleted [OP_CODESEPARATOR]).

Lemma GetOp_opcode b s op d s' : GetOp (b :: s) = (Some (op, d), s') → op = b.
Proof.
  unfold GetOp, Script.push_of. cbn [Script.GetOp]. intros H.
  repeat (case_match; try done); simplify_eq; done.
Qed.

Lemma GetOp_separator s : GetOp (OP_CODESEPARATOR :: s) = (Some (OP_CODESEPARATOR, []), s).
Proof. reflexivity. Qed.

(** One instruction of a script with the separators deleted. *)
Lemma deleted_step s op d s' r k :
  GetOp s = (Some (op, d), s') → deleted s r k →
  (op = OP_CODESEPARATOR ∧ s = OP_CODESEPARATOR :: s' ∧ ∃ k', k = k' + 1 ∧ deleted s' r k') ∨
  (op ≠ OP_CODESEPARATOR ∧ ∃ h r', s = h ++ s' ∧ r = h ++ r' ∧ deleted s' r' k).
Proof.
  intros E Hd. inversion Hd as [s0 r0 k0 Hd0 E1 E2|s0 h s1 op1 r0 k0 Ht Eg Es Hd0 E1 E2|s0 Ht Eg E1 E2]; subst.
  - cbn [app] in E. rewrite GetOp_separator in E. injection E as <- <- <-. left. eauto.
  - rewrite Eg in E. injection E as -> ->. right. split; [|eauto 6].
    intros ->. destruct (h ++ s') as [|b s] eqn:Eh; [done|]. apply GetOp_opcode in Eg. subst b. by cbn in Ht.
  - by rewrite E in Eg.
Qed.

Lemma deleted_nil r k : deleted [] r k → r = [] ∧ k = 0.
Proof.
  intros Hd. inversion Hd as [s0 r0 k0 Hd0 E1 E2|s0 h s1 op1 r0 k0 Ht Eg Es Hd0 E1 E2|s0 Ht Eg E1 E2]; [|done].
  destruct h, s1; done.
Qed.

Lemma count_separators_spec s : parses s → ∀ fuel r k n, (length s < fuel)%nat → deleted s r k → count_separators fuel s n = Some (n + k).
Proof.
  induction 1 as [|s [op d] s' E Hp IH]; intros fuel r k n Hf Hd; (destruct fuel as [|fuel]; [lia|]); cbn [count_separators].
  - apply deleted_nil in Hd as [_ ->]. cbn. by rewrite Z.add_0_r.
  - assert (Hl : (length s' < length s)%nat).
    { pose proof (Script.GetOp_shorter s) as H. rewrite E in H. apply H. by intros ->. }
    rewrite E. destruct (deleted_step _ _ _ _ _ _ E Hd) as [(-> & -> & k' & -> & Hd')|(Hop & h & r' & -> & -> & Hd')].
    + rewrite Z.eqb_refl, (IH fuel r k') by (done || lia). f_equal. lia.
    + rewrite (proj2 (Z.eqb_neq _ _) Hop). apply (IH fuel r'); [lia|done].
Qed.

Lemma write_parts_spec s : parses s → ∀ fuel h r k acc, (length s < fuel)%nat → deleted s r k →
  write_parts fuel s (h ++ s) acc = Some (acc ++ h ++ r).
Proof.
  induction 1 as [|s [op d] s' E Hp IH]; intros fuel h r k acc Hf Hd; (destruct fuel as [|fuel]; [lia|]); cbn [write_parts].
  - apply deleted_nil in Hd as [-> ->]. change (GetOp []) with (@None (Z * valtype), @nil Z). cbv iota beta. rewrite !app_nil_r.
    case_decide as Hh; [by rewrite Hh, app_nil_r|]. cbn [length]. by rewrite Nat.sub_0_r, firstn_all.
  - assert (Hl : (length s' < length s)%nat).
    { pose proof (Script.GetOp_shorter s) as H. rewrite E in H. apply H. by intros ->. }
    rewrite E. destruct (deleted_step _ _ _ _ _ _ E Hd) as [(-> & -> & k' & -> & Hd')|(Hop & h' & r' & -> & -> & Hd')].
    + rewrite Z.eqb_refl, length_app. cbn [length].
      replace (length h + S (length s') - length s' - 1)%nat with (length h) by lia. rewrite take_app_length.
      pose proof (IH fuel [] r k' (acc ++ h) ltac:(lia) Hd') as IH'. cbn [app] in IH'. by rewrite IH', <- (assoc_L app).
    + rewrite (proj2 (Z.eqb_neq _ _) Hop). pose proof (IH fuel (h ++ h') r' k acc ltac:(lia) Hd') as IH'.
      rewrite <- !(assoc_L app) in IH'. exact IH'.
Qed.

Lemma deleted_length s r k : deleted s r k → Z.of_nat (length r) = Z.of_nat (length s) - k.
Proof. induction 1 as [s r k _ IH|s h s' op r k _ _ -> _ IH|s _ _]; rewrite ?length_app; cbn [length]; lia. Qed.

(** On a script that can be read, the two loops write the script without separators. *)
Lemma SerializeScriptCode_spec t r k :
  parses (scriptCode t) → deleted (scriptCode t) r k → SerializeScriptCode t = Some (Serialize bytes r).
Proof.
  intros Hp Hd. unfold SerializeScriptCode. rewrite (count_separators_spec _ Hp (S (length (scriptCode t))) r k 0 ltac:(lia) Hd). cbn [mbind option_bind].
  pose proof (write_parts_spec _ Hp (S (length (scriptCode t))) [] r k [] ltac:(lia) Hd) as E. cbn [app] in E. rewrite E.
  cbn [mbind option_bind bytes Serialize]. unfold Serialize_bytes. by rewrite (deleted_length _ _ _ Hd), Z.add_0_l.
Qed.

(** ** The serializer writes the modified transaction *)

Lemma serialize_from_spec {A} (f : nat → option (list Z)) (g : A → list Z) l n :
  (∀ i x, l !! i = Some x → f (n + i)%nat = Some (g x)) → serialize_from f n (length l) = Some (flat_map g l).
Proof.
  revert n. induction l as [|x l IH]; intros n H; [done|]. cbn [length serialize_from flat_map].
  pose proof (H 0%nat x eq_refl) as H0. rewrite Nat.add_0_r in H0. rewrite H0. cbn [mbind option_bind].
  rewrite (IH (S n)); [done|]. intros i y Hi. replace (S n + i)%nat with (n + S i)%nat by lia. by apply H.
Qed.

Lemma SerializeInput_spec t code i txin :
  SerializeScriptCode t = Some (Serialize bytes code) → fAnyoneCanPay t = false → vin (txTo t) !! i = Some txin →
  SerializeInput t i = Some (Serialize CTxIn_format (sig_input t code i txin)).
Proof.
  intros Hc Ha Hi. unfold SerializeInput, sig_input. rewrite Ha, Hi, Hc. cbn [mbind option_bind].
  destruct (i =? nIn t)%nat; cbn [negb andb mbind option_bind]; [done|]. by destruct (fHashSingle t || fHashNone t).
Qed.

Lemma SerializeInput_anyone t code i txin :
  SerializeScriptCode t = Some (Serialize bytes code) → fAnyoneCanPay t = true → vin (txTo t) !! nIn t = Some txin →
  SerializeInput t i = Some (Serialize CTxIn_format (sig_input t code (nIn t) txin)).
Proof. intros Hc Ha Hi. unfold SerializeInput, sig_input. by rewrite Ha, Hi, Hc, Nat.eqb_refl. Qed.

Lemma take1_drop {A} (l : list A) i x : l !! i = Some x → take 1 (drop i l) = [x].
Proof. intros H. by rewrite (drop_S _ _ _ H). Qed.

Lemma Serialize_tx_spec t code txin :
  SerializeScriptCode t = Some (Serialize bytes code) → vin (txTo t) !! nIn t = Some txin →
  (fHashSingle t = true → is_Some (vout (txTo t) !! nIn t)) →
  Serialize_tx t = Some (Serialize CTransaction_fields (sig_fields t code)).
Proof.
  intros Hc Hi Hs. unfold Serialize_tx.
  assert (Ein : serialize_from (SerializeInput t) 0 (length (sig_inputs t code)) = Some (flat_map (Serialize CTxIn_format) (sig_inputs t code))).
  { apply serialize_from_spec. intros i x Hx. cbn [Nat.add]. unfold sig_inputs in Hx. destruct (fAnyoneCanPay t) eqn:Ea.
    - rewrite (take1_drop _ _ (sig_input t code (nIn t) txin)) in Hx by (by rewrite list_lookup_imap, Hi).
      destruct i; [|done]. injection Hx as <-. by apply SerializeInput_anyone.
    - rewrite list_lookup_imap in Hx. destruct (vin (txTo t) !! i) as [y|] eqn:Ey; [|done]. injection Hx as <-. by apply SerializeInput_spec. }
  assert (Lin : length (sig_inputs t code) = if fAnyoneCanPay t then 1%nat else length (vin (txTo t))).
  { unfold sig_inputs. destruct (fAnyoneCanPay t); [|by rewrite length_imap].
    by rewrite (take1_drop _ _ (sig_input t code (nIn t) txin)) by (by rewrite list_lookup_imap, Hi). }
  assert (Lout : length (sig_outputs t) = if fHashNone t then 0%nat else if fHashSingle t then S (nIn t) else length (vout (txTo t))).
  { unfold sig_outputs. destruct (fHashNone t); [done|]. destruct (fHashSingle t); [|done]. destruct (Hs eq_refl) as [o Ho].
    rewrite (take1_drop _ _ _ Ho), length_app, length_replicate. cbn. lia. }
  assert (Eout : serialize_from (SerializeOutput t) 0 (length (sig_outputs t)) = Some (flat_map (Serialize CTxOut_format) (sig_outputs t))).
  { apply serialize_from_spec. intros i x Hx. cbn [Nat.add]. unfold sig_outputs in Hx. unfold SerializeOutput.
    destruct (fHashNone t); [done|]. destruct (fHashSingle t); cbn [andb]; [|by rewrite Hx]. destruct (Hs eq_refl) as [o Ho].
    rewrite (take1_drop _ _ _ Ho) in Hx. apply lookup_app_Some in Hx as [Hx|[Hge Hx]].
    - apply lookup_replicate in Hx as [-> Hlt]. by rewrite (proj2 (Nat.eqb_neq i (nIn t))) by lia.
    - rewrite length_replicate in *. destruct (i - nIn t)%nat eqn:Ei; [|done]. injection Hx as <-. assert (i = nIn t) as -> by lia.
      rewrite Nat.eqb_refl. cbn [negb]. by rewrite Ho. }
  rewrite Lin in Ein. rewrite Lout in Eout. rewrite Ein. cbn [mbind option_bind]. rewrite Eout. cbn [mbind option_bind]. f_equal.
  unfold CTransaction_fields, sig_fields. cbn [pair_format Serialize fst snd vector]. unfold Serialize_vector. rewrite Lin, Lout.
  by rewrite <- !(assoc_L app).
Qed.

(** ** The hash of the modified transaction *)

Lemma land_1f_single n : n .& 0x1f = SIGHASH_SINGLE → n .& 0x1f ≠ SIGHASH_NONE.
Proof. by intros ->. Qed.

Lemma SignatureHash_fields code txTo nIn nHashType amount cache r k txin :
  vin txTo !! nIn = Some txin → parses code → deleted code r k →
  (nHashType .& 0x1f = SIGHASH_SINGLE → (nIn < length (vout txTo))%nat) →
  SignatureHash code txTo nIn nHashType amount SIGVERSION_BASE cache =
  Some (Hash [Serialize CTransaction_fields (sig_fields (Serializer txTo code nIn nHashType) r); Serialize i32 nHashType]).
Proof.
  intros Hi Hp Hd Hs. unfold SignatureHash. rewrite Hi.
  destruct (Z.eqb_spec (nHashType .& 0x1f) SIGHASH_SINGLE) as [E|E]; cbn [andb].
  - specialize (Hs E). destruct (Nat.leb_spec (length (vout txTo)) nIn); [lia|].
    rewrite (Serialize_tx_spec _ r txin); [done| |done|].
    + by apply (SerializeScriptCode_spec _ r k).
    + intros _. by apply lookup_lt_is_Some_2.
  - rewrite (Serialize_tx_spec _ r txin); [done| |done|].
    + by apply (SerializeScriptCode_spec _ r k).
    + intros Ht. cbn in Ht. by apply Z.eqb_eq in Ht.
Qed.

(** ** Validity and size of the modified transaction *)

Lemma deleted_bytes s r k : deleted s r k → Forall byte s → Forall byte r ∧ (length r <= length s)%nat.
Proof.
  induction 1 as [s r k _ IH|s h s' op r k _ _ -> _ IH|s _ _]; intros Hs; [| |by split].
  - apply Forall_app in Hs as [_ Hs]. destruct (IH Hs). split; [done|]. rewrite length_app. lia.
  - apply Forall_app in Hs as [Hh Hs]. destruct (IH Hs). split; [by apply Forall_app|]. rewrite !length_app. lia.
Qed.

Lemma sig_input_valid t code i txin :
  valid CTxIn_format txin → valid bytes code → valid CTxIn_format (sig_input t code i txin).
Proof.
  intros [[Hp [_ Hq]] _] Hc. cbn [fst snd] in *. unfold sig_input.
  assert (He : valid bytes []) by (split; [constructor|done]).
  assert (H0 : valid u32 0) by (by split).
  destruct (i =? nIn t)%nat; (split; [|reflexivity]); (split; [done|]); (split; [done|]); cbn [prevout scriptSig nSequence fst snd];
    [done|]. by destruct (fHashSingle t || fHashNone t).
Qed.

Lemma Forall_imap {A B} (P : B → Prop) (f : nat → A → B) l : (∀ i x, l !! i = Some x → P (f i x)) → Forall P (imap f l).
Proof.
  intros H. apply Forall_lookup_2. intros i y Hy. rewrite list_lookup_imap in Hy. destruct (l !! i) as [x|] eqn:E; [|done].
  injection Hy as <-. by apply H.
Qed.

Lemma sig_fields_valid txTo code nIn nHashType r k :
  valid CTransaction_fields (fields txTo) → Forall byte code → Z.of_nat (length code) <= MAX_SIZE → deleted code r k →
  (nIn < length (vin txTo))%nat →
  valid CTransaction_fields (sig_fields (Serializer txTo code nIn nHashType) r).
Proof.
  intros (Hv & [Hi Li] & [Ho Lo] & Ht) Hb Hl Hd Hn. cbn [fields fst snd] in *. destruct (deleted_bytes _ _ _ Hd Hb) as [Hr Hlr].
  assert (Hc : valid bytes r) by (split; [done|lia]).
  set (t := Serializer txTo code nIn nHashType).
  assert (Hin : Forall (valid CTxIn_format) (imap (sig_input t r) (vin txTo))).
  { apply Forall_imap. intros i x Hx. apply sig_input_valid; [|done]. exact (Forall_lookup_1 _ _ _ _ Hi Hx). }
  split; [done|]. split; [|split; [|done]].
  - unfold sig_fields, sig_inputs. cbn [fst snd]. change (vin (SigHash.txTo t)) with (vin txTo).
    destruct (fAnyoneCanPay t); [|split; [done|by rewrite length_imap]].
    split; [by apply Forall_take, Forall_drop|]. rewrite length_take, length_drop. unfold MAX_SIZE in *. lia.
  - assert (Hnull : valid CTxOut_format SetNull) by (split; [|reflexivity]; split; [by split|split; [constructor|done]]).
    unfold sig_fields, sig_outputs. cbn [fst snd]. change (vout (SigHash.txTo t)) with (vout txTo). change (SigHash.nIn t) with nIn.
    destruct (fHashNone t); [by split|]. destruct (fHashSingle t); [|by split]. split.
    + apply Forall_app. split; [by apply Forall_replicate|by apply Forall_take, Forall_drop].
    + rewrite length_app, length_replicate, length_take. unfold MAX_SIZE in *. lia.
Qed.

Lemma flat_map_le {A} (f : A → list Z) k l : Forall (λ x, Z.of_nat (length (f x)) <= k) l → Z.of_nat (length (flat_map f l)) <= k * Z.of_nat (length l).
Proof. induction 1 as [|x l Hx Hl IH]; cbn [flat_map length]; [lia|]. rewrite length_app. lia. Qed.

Lemma WriteCompactSize_le n : (length (WriteCompactSize n) <= 9)%nat.
Proof. unfold WriteCompactSize, ser_writedata8, ser_writedata16, ser_writedata32, ser_writedata64. repeat case_match; rewrite ?length_app, ?length_le_bytes; lia. Qed.

Lemma fields_size f : valid CTransaction_fields f → Z.of_nat (length (Serialize CTransaction_fields f)) < 2 ^ 60.
Proof.
  destruct f as (v & i & o & l). intros (_ & [Hi Li] & [Ho Lo] & _). cbn [fst snd] in *. unfold MAX_SIZE in *.
  assert (Si : Forall (λ x, Z.of_nat (length (Serialize CTxIn_format x)) <= 2 ^ 26) i).
  { eapply Forall_impl; [exact Hi|]. intros x [[[[_ Hh] _] [[_ Hs] _]] _]. cbn in Hh, Hs. unfold MAX_SIZE in Hs. cbn -[WriteCompactSize le_bytes Z.pow]. unfold Serialize_bytes, ser_writedata32, id.
    rewrite !length_app, !length_le_bytes. pose proof (WriteCompactSize_le (Z.of_nat (length (scriptSig x)))). change (2 ^ 26) with 67108864. lia. }
  assert (So : Forall (λ x, Z.of_nat (length (Serialize CTxOut_format x)) <= 2 ^ 26) o).
  { eapply Forall_impl; [exact Ho|]. intros x [[_ [_ Hs]] _]. cbn in Hs. unfold MAX_SIZE in Hs. cbn -[WriteCompactSize le_bytes Z.pow]. unfold Serialize_bytes, ser_writedata64.
    rewrite !length_app, !length_le_bytes. pose proof (WriteCompactSize_le (Z.of_nat (length (scriptPubKey x)))). change (2 ^ 26) with 67108864. lia. }
  apply flat_map_le in Si, So. unfold CTransaction_fields. cbn [pair_format Serialize fst snd vector i32 u32]. unfold Serialize_vector, ser_writedata32.
  rewrite !length_app, !length_le_bytes.
  pose proof (WriteCompactSize_le (Z.of_nat (length i))). pose proof (WriteCompactSize_le (Z.of_nat (length o))).
  change (2 ^ 26) with 67108864 in *. change (2 ^ 60) with 1152921504606846976. lia.
Qed.

#[export] Instance fields_lawful : Lawful CTransaction_fields.
Proof. unfold CTransaction_fields, sizeof_CTxIn, sizeof_CTxOut. apply _. Qed.

(** The bytes that are hashed. *)
Definition preimage (f : Z * (list CTxIn * (list CTxOut * Z))) (nHashType : Z) : list Z :=
  Serialize CTransaction_fields f ++ Serialize i32 nHashType.

Lemma Hash_preimage f ht : valid CTransaction_fields f → valid i32 ht →
  Hash [Serialize CTransaction_fields f; Serialize i32 ht] = Sha256.sha256d (preimage f ht).
Proof.
  intros Hf Hh. pose proof (fields_size f Hf) as Hs. unfold Undo.GetHash. rewrite Sha256.Hash_sha256d.
  - cbn [concat]. by rewrite app_nil_r.
  - rewrite length_replicate. lia.
  - constructor; [by apply (ser_bytes (f := CTransaction_fields))|]. constructor; [by apply (ser_bytes (f := i32))|constructor].
  - cbn [concat]. rewrite app_nil_r, length_app. change (length (Serialize i32 ht)) with 4%nat.
    change (2 ^ 60) with 1152921504606846976 in Hs. change (2 ^ 61) with 2305843009213693952. lia.
Qed.

Lemma preimage_inj f1 h1 f2 h2 :
  valid CTransaction_fields f1 → valid i32 h1 → valid CTransaction_fields f2 → valid i32 h2 →
  preimage f1 h1 = preimage f2 h2 → f1 = f2 ∧ h1 = h2.
Proof.
  intros V1 W1 V2 W2 E. unfold preimage in E. pose proof (roundtrip (f := CTransaction_fields) f1 (Serialize i32 h1) V1) as R1.
  rewrite E, (roundtrip (f := CTransaction_fields) f2) in R1 by done. assert (Eh : Serialize i32 h1 = Serialize i32 h2) by congruence.
  split; [congruence|].
  pose proof (roundtrip (f := i32) h1 [] W1) as R2. rewrite Eh, (roundtrip (f := i32) h2) in R2 by done. congruence.
Qed.

(** Equal modified inputs under [SIGHASH_ALL]. *)
Lemma sig_inputs_inj tx1 tx2 code1 code2 nIn1 nIn2 r1 r2 :
  imap (sig_input (Serializer tx1 code1 nIn1 SIGHASH_ALL) r1) (vin tx1) = imap (sig_input (Serializer tx2 code2 nIn2 SIGHASH_ALL) r2) (vin tx2) →
  (nIn1 < length (vin tx1))%nat →
  map prevout (vin tx1) = map prevout (vin tx2) ∧ map nSequence (vin tx1) = map nSequence (vin tx2) ∧ (r1 ≠ [] → nIn1 = nIn2 ∧ r1 = r2).
Proof.
  intros E Hn. set (s1 := sig_input _ _) in E. set (s2 := sig_input _ _) in E.
  assert (Hp : ∀ i x y, s1 i x = s2 i y → prevout x = prevout y ∧ nSequence x = nSequence y ∧ (i = nIn1 → r1 ≠ [] → nIn1 = nIn2 ∧ r1 = r2)).
  { intros i x y. subst s1 s2. unfold sig_input. cbn [nIn Serializer].
    change (fHashSingle _ || fHashNone _) with false. cbv iota.
    destruct (Nat.eqb_spec i nIn1), (Nat.eqb_spec i nIn2); intros H; injection H; intros; subst; done. }
  assert (Hl : ∀ i, s1 i <$> (vin tx1 !! i) = s2 i <$> (vin tx2 !! i)).
  { intros i. rewrite <- !list_lookup_imap. by rewrite E. }
  split; [|split].
  - apply list_eq. intros i. rewrite !list_lookup_fmap. specialize (Hl i). destruct (vin tx1 !! i), (vin tx2 !! i); try done.
    injection Hl as Hl. apply Hp in Hl as (H & _ & _). cbn. by rewrite H.
  - apply list_eq. intros i. rewrite !list_lookup_fmap. specialize (Hl i). destruct (vin tx1 !! i), (vin tx2 !! i); try done.
    injection Hl as Hl. apply Hp in Hl as (_ & H & _). cbn. by rewrite H.
  - intros Hr. specialize (Hl nIn1). destruct (lookup_lt_is_Some_2 _ _ Hn) as [x Hx]. rewrite Hx in Hl.
    destruct (vin tx2 !! nIn1); [|done]. injection Hl as Hl. apply Hp in Hl as (_ & _ & H). by apply H.
Qed.

(** ** Theorems *)

(** Two given byte strings that the hash [h] does not tell apart. *)
Definition collide (h : list Z → list Z) (a b : list Z) : Prop := a ≠ b ∧ h a = h b.

(** A call of [SignatureHash] as [CheckSig] makes it: a transaction and a script the node
    can hold, an input that exists, and an output for it where [SIGHASH_SINGLE] asks for
    one. *)
Record signable (code : CScript) (txTo : CTransaction) (nIn : nat) (nHashType : Z) : Prop := {
  signable_tx : valid CTransaction_format txTo;
  signable_bytes : Forall byte code;
  signable_size : Z.of_nat (length code) <= MAX_SIZE;
  signable_parses : parses code;
  signable_input : (nIn < length (vin txTo))%nat;
  signable_single : nHashType .& 0x1f = SIGHASH_SINGLE → (nIn < length (vout txTo))%nat;
  signable_type : 0 <= nHashType < 256
}.

Lemma signable_hash code txTo nIn nHashType amount cache :
  signable code txTo nIn nHashType →
  ∃ r k, Script.FindAndDelete code [OP_CODESEPARATOR] = Some (r, k) ∧
    valid CTransaction_fields (sig_fields (Serializer txTo code nIn nHashType) r) ∧ valid i32 nHashType ∧
    SignatureHash code txTo nIn nHashType amount SIGVERSION_BASE cache =
    Some (Sha256.sha256d (preimage (sig_fields (Serializer txTo code nIn nHashType) r) nHashType)).
Proof.
  intros [[Htx _] Hb Hl Hp Hi Hs Ht]. destruct (Script.FindAndDelete_correct code [OP_CODESEPARATOR]) as (r & k & E & Hd); [done|].
  assert (Hv : valid i32 nHashType) by (cbn; lia).
  pose proof (sig_fields_valid txTo code nIn nHashType r k Htx Hb Hl Hd Hi) as Hf.
  exists r, k. split; [done|]. split; [done|]. split; [done|]. destruct (lookup_lt_is_Some_2 _ _ Hi) as [txin Hx].
  by rewrite (SignatureHash_fields _ _ _ _ _ _ r k txin), Hash_preimage by done.
Qed.

(** [SignatureHash], which serializes the parts it needs in place, is the double hash of
    the modified transaction followed by the hash type: the definition the optimised one
    replaced (the script code after [FindAndDelete] of the separators, inputs and outputs
    blanked or dropped).  The precomputed hashes never change a result; an input that
    does not exist, or has no output under [SIGHASH_SINGLE], is hashed to the number one. *)
Theorem SignatureHash_correct code txTo nIn nHashType amount cache :
  (signable code txTo nIn nHashType →
   ∃ r k, Script.FindAndDelete code [OP_CODESEPARATOR] = Some (r, k) ∧
     SignatureHash code txTo nIn nHashType amount SIGVERSION_BASE cache =
     Some (Sha256.sha256d (preimage (sig_fields (Serializer txTo code nIn nHashType) r) nHashType))) ∧
  (∀ sigversion, SignatureHash code txTo nIn nHashType amount sigversion (Some (Precompute txTo)) =
                 SignatureHash code txTo nIn nHashType amount sigversion None) ∧
  ((length (vin txTo) <= nIn)%nat ∨ (nHashType .& 0x1f = SIGHASH_SINGLE ∧ (length (vout txTo) <= nIn)%nat) →
   SignatureHash code txTo nIn nHashType amount SIGVERSION_BASE cache = Some UINT256_ONE).
Proof.
  split; [|split].
  - intros H. destruct (signable_hash _ _ _ _ amount cache H) as (r & k & E & _ & _ & Es). eauto.
  - intros [|]; unfold SignatureHash; [done|]. by destruct (vin txTo !! nIn).
  - unfold SignatureHash. intros [H|[E H]].
    + by rewrite lookup_ge_None_2.
    + rewrite E. apply Nat.leb_le in H. rewrite H. by destruct (vin txTo !! nIn).
Qed.

(** C14: What a signature commits to.  Take two calls of [SignatureHash] on inputs that can
    be signed, and the bytes each of them hashes: its modified transaction and its hash
    type.  If the results are equal, these two byte strings are a collision of double
    SHA-256, or the hash types agree and the modified transactions are equal.  Under
    [SIGHASH_ALL] this fixes the version, the lock time, every outpoint and sequence
    number, every output, the index of the signed input and its script code (when it is
    not empty without its separators). *)
Theorem SignatureHash_binds code1 tx1 nIn1 ht1 amount1 cache1 code2 tx2 nIn2 ht2 amount2 cache2 :
  signable code1 tx1 nIn1 ht1 → signable code2 tx2 nIn2 ht2 →
  SignatureHash code1 tx1 nIn1 ht1 amount1 SIGVERSION_BASE cache1 = SignatureHash code2 tx2 nIn2 ht2 amount2 SIGVERSION_BASE cache2 →
  ∃ r1 k1 r2 k2,
    Script.FindAndDelete code1 [OP_CODESEPARATOR] = Some (r1, k1) ∧ Script.FindAndDelete code2 [OP_CODESEPARATOR] = Some (r2, k2) ∧
    let f1 := sig_fields (Serializer tx1 code1 nIn1 ht1) r1 in
    let f2 := sig_fields (Serializer tx2 code2 nIn2 ht2) r2 in
    (collide Sha256.sha256d (preimage f1 ht1) (preimage f2 ht2) ∨
     ht1 = ht2 ∧ f1 = f2 ∧
     (ht1 = SIGHASH_ALL →
       nVersion tx1 = nVersion tx2 ∧ nLockTime tx1 = nLockTime tx2 ∧ map prevout (vin tx1) = map prevout (vin tx2) ∧
       map nSequence (vin tx1) = map nSequence (vin tx2) ∧ vout tx1 = vout tx2 ∧ (r1 ≠ [] → nIn1 = nIn2 ∧ r1 = r2))).
Proof.
  intros S1 S2 E. destruct (signable_hash _ _ _ _ amount1 cache1 S1) as (r1 & k1 & F1 & V1 & W1 & E1).
  destruct (signable_hash _ _ _ _ amount2 cache2 S2) as (r2 & k2 & F2 & V2 & W2 & E2). rewrite E1, E2 in E. injection E as E.
  exists r1, k1, r2, k2. split; [done|]. split; [done|]. intros f1 f2.
  destruct (decide (preimage f1 ht1 = preimage f2 ht2)) as [Ep|Ep]; [|left; by split]. right.
  destruct (preimage_inj _ _ _ _ V1 W1 V2 W2 Ep) as [Ef <-]. split; [done|]. split; [done|]. intros ->.
  subst f1 f2. unfold sig_fields in Ef. injection Ef as Ev Ei Eo El. unfold sig_inputs, sig_outputs in Ei, Eo.
  change (fHashNone _) with false in Eo. change (fHashSingle _) with false in Eo. change (fAnyoneCanPay _) with false in Ei.
  cbv iota in Ei, Eo. cbn [SigHash.txTo Serializer] in Ev, Ei, Eo, El.
  split; [done|]. split; [done|]. apply sig_inputs_inj in Ei as (H1 & H2 & H3); [|apply (signable_input _ _ _ _ S1)].
  split; [done|]. split; [done|]. done.
Qed.

(** [OP_CHECKLOCKTIMEVERIFY] with the checker of an input.  If the machine passes it and
    the transaction is final for a block, the lock on the stack is a number that the
    height of the block (below the threshold) or its time (from the threshold on)
    exceeds, or zero: no coin moves before the time its script names. *)
Theorem CLTV_enforced Verify c flags m m' nBlockHeight nBlockTime tipHeight adjustedTime :
  Interp.has flags Interp.SCRIPT_VERIFY_CHECKLOCKTIMEVERIFY = true →
  Interp.cltv (checker := checker_of Verify c) flags m = inr m' →
  IsFinalTx (checker_tx c) nBlockHeight nBlockTime tipHeight adjustedTime = true →
  ∃ v stk n, Interp.stack m = v :: stk ∧ m' = m ∧ Interp.num flags v 5 = inr n ∧ 0 <= n ∧
    (n = 0 ∨ n < if n <? LOCKTIME_THRESHOLD then (if nBlockHeight =? 0 then tipHeight else nBlockHeight)
                 else (if nBlockTime =? 0 then adjustedTime else nBlockTime)).
Proof.
  intros Hf Hc Hfin. unfold Interp.cltv in Hc. rewrite Hf in Hc. cbn [negb] in Hc. destruct (Interp.stack m) as [|v stk]; [done|].
  destruct (Interp.num flags v 5) as [e|n] eqn:En; [done|]. cbn [Interp.bindr] in Hc. destruct (Z.ltb_spec n 0); [done|].
  exists v, stk, n. split; [done|]. cbn [checker_of Interp.CheckLockTime] in Hc.
  destruct (CheckLockTime c n) eqn:El; [|done]. injection Hc as <-. split; [done|]. split; [done|]. split; [done|].
  unfold CheckLockTime in El. unfold IsFinalTx in Hfin. set (tx := checker_tx c) in *.
  destruct (_ || _) eqn:Et in El; [|done]. cbn [negb] in El. destruct (Z.gtb_spec n (nLockTime tx)) as [|Hle]; [done|].
  destruct (vin tx !! checker_nIn c) as [i|] eqn:Ei; [|done]. destruct (txin_IsFinal i) eqn:Eif; [done|].
  assert (Hall : forallb txin_IsFinal (vin tx) = false).
  { apply not_true_iff_false. rewrite forallb_forall. intros Hall. rewrite Hall in Eif; [done|]. apply list_elem_of_In. by eapply list_elem_of_lookup_2. }
  rewrite Hall in Hfin. destruct (Z.eqb_spec (nLockTime tx) 0) as [E0|E0]; [left; lia|]. right.
  assert (Hsame : (n <? LOCKTIME_THRESHOLD) = (nLockTime tx <? LOCKTIME_THRESHOLD)).
  { apply orb_true_iff in Et as [Et|Et]; apply andb_true_iff in Et as [E1 E2]; [by rewrite E1, E2|].
    rewrite Z.geb_leb in E1, E2. apply Z.leb_le in E1, E2. by rewrite !(proj2 (Z.ltb_ge _ _)). }
  rewrite Hsame. destruct (Z.ltb_spec (nLockTime tx) LOCKTIME_THRESHOLD); (match type of Hfin with (if ?b then _ else _) = _ => destruct b eqn:E; [apply Z.ltb_lt in E; lia|done] end).
Qed.

(** ** The signature cache *)

Section Cache.
Variable Verify : list Z → uint256 → valtype → bool.
Context {C : Type} {cs : CacheSet C} {laws : CacheLaws C cs}.
Variable nonce : uint256.
Hypothesis nonce_ok : Forall byte nonce ∧ length nonce = 32%nat.

(** What is looked up: a hash, a key whose first byte gives its length, a signature. *)
Record query (sighash : uint256) (pubkey : list Z) (vchSig : valtype) : Prop := {
  query_hash : Forall byte sighash ∧ length sighash = 32%nat;
  query_key : Forall byte pubkey ∧ Z.of_nat (length pubkey) = Undo.key_size pubkey;
  query_sig : Forall byte vchSig ∧ Z.of_nat (length vchSig) < 2 ^ 60
}.

Lemma key_size_bound pubkey : 0 <= Undo.key_size pubkey <= 65.
Proof. unfold Undo.key_size, Undo.GetLen. repeat case_match; lia. Qed.

Lemma ComputeEntry_spec h k s : query h k s → ComputeEntry nonce h s k = Sha256.sha256 (nonce ++ h ++ k ++ s).
Proof using nonce_ok.
  intros [[Bh Lh] [Bk Lk] [Bs Ls]]. destruct nonce_ok as [Bn Ln]. unfold ComputeEntry. rewrite take_ge by lia.
  change (2 ^ 60) with 1152921504606846976 in Ls. pose proof (key_size_bound k).
  destruct (Sha256.Writes_hashed [nonce; h; k; s] [] _ (Sha256.hashed_init (replicate 64 0) ltac:(rewrite length_replicate; lia))) as [H1 _];
    cbn [concat app] in *; rewrite app_nil_r in *.
  { rewrite !length_app. change (2 ^ 64) with 18446744073709551616. lia. }
  rewrite (proj1 (Sha256.Finalize_hashed _ _ H1 ltac:(rewrite !Forall_app; done)
    ltac:(rewrite !length_app; change (2 ^ 61) with 2305843009213693952; lia))). done.
Qed.

(** The concatenation of key and signature can be split in one way only. *)
Lemma query_inj h1 k1 s1 h2 k2 s2 :
  query h1 k1 s1 → query h2 k2 s2 → nonce ++ h1 ++ k1 ++ s1 = nonce ++ h2 ++ k2 ++ s2 → h1 = h2 ∧ (k1 = [] ∨ k2 = [] ∨ (k1 = k2 ∧ s1 = s2)).
Proof using nonce_ok.
  intros [[_ L1] [_ K1] _] [[_ L2] [_ K2] _] E. apply app_inv_head in E. apply app_inj_1 in E as [-> E]; [|congruence].
  split; [done|]. destruct k1 as [|b1 k1]; [by left|]. destruct k2 as [|b2 k2]; [by right; left|]. right; right.
  injection E as <- E. assert (El : length k1 = length k2) by (unfold Undo.key_size in *; cbn [nth length] in *; lia).
  by apply app_inj_1 in E as [-> ->].
Qed.

(** A check as the checker makes it: whether its entry may be stored, the hash, the key
    and the signature; and the bytes its entry is the hash of. *)
Definition check : Type := bool * (uint256 * (list Z * valtype)).
Definition checks (q : check) : Prop := query q.2.1 q.2.2.1 q.2.2.2 ∧ q.2.2.1 ≠ [].
Definition entry_bytes (q : check) : list Z := nonce ++ q.2.1 ++ q.2.2.1 ++ q.2.2.2.
Definition verdict (q : check) : bool := VerifySignature Verify q.2.2.2 q.2.2.1 q.2.1.

(** The hash fails on the checks [qs]: two of them with different bytes have one entry, or
    the entry of one of them is zero. *)
Definition hash_fails (qs : list check) : Prop :=
  (∃ p q, p ∈ qs ∧ q ∈ qs ∧ collide Sha256.sha256 (entry_bytes p) (entry_bytes q)) ∨
  (∃ q, q ∈ qs ∧ Sha256.sha256 (entry_bytes q) = UINT256_ZERO).

(** Every entry stands for one of the checks made before that succeeded, or is the zero
    the table of the cache is filled with. *)
Definition cache_ok (past : list check) (st : C) : Prop :=
  ∀ e, member st e → e = UINT256_ZERO ∨ ∃ q, q ∈ past ∧ checks q ∧ e = Sha256.sha256 (entry_bytes q) ∧ verdict q = true.

Lemma hash_fails_mono qs qs' : qs ⊆ qs' → hash_fails qs → hash_fails qs'.
Proof. intros Hs [(p & q & Hp & Hq & H)|(q & Hq & H)]; [left; exists p, q|right; exists q]; auto. Qed.

(** With a cache of verified signatures, a lookup followed by a verification gives what
    the verification alone gives, and leaves such a cache, unless the hash fails on the
    checks made so far and this one. *)
Lemma signature_cache_step past store h k s st :
  let q := (store, (h, (k, s))) in
  checks q → cache_ok past st →
  hash_fails (q :: past) ∨
  ((Caching_VerifySignature Verify nonce store s k h st).1 = verdict q ∧
   cache_ok (q :: past) (Caching_VerifySignature Verify nonce store s k h st).2).
Proof using laws nonce_ok.
  intros q Hq Hok. pose proof (ComputeEntry_spec h k s (proj1 Hq)) as Ee. change (nonce ++ h ++ k ++ s) with (entry_bytes q) in Ee.
  unfold Caching_VerifySignature. rewrite Ee. set (e := Sha256.sha256 (entry_bytes q)).
  pose proof (contains_member e (negb store) st) as Hc. pose proof (contains_keeps e (negb store) st) as Hkeep.
  destruct (contains e (negb store) st) as [found st1]. cbn [fst snd] in *.
  assert (Hok1 : cache_ok (q :: past) st1).
  { intros x Hx. apply Hkeep, Hok in Hx as [?|(p & Hp & ?)]; [by left|]. right. exists p. split; [by right|done]. }
  destruct found.
  - destruct (Hok e (Hc eq_refl)) as [E0|(p & Hp & [Hq' Hk'] & Ep & Hv)].
    { left; right. exists q. split; [by left|done]. }
    destruct (decide (entry_bytes q = entry_bytes p)) as [E|E]; [|left; left; exists q, p; split; [by left|]; split; [by right|by split]].
    right. split; [|done]. cbn [fst]. symmetry. destruct (query_inj _ _ _ _ _ _ (proj1 Hq) Hq' E) as (E1 & [?|[?|[E2 E3]]]); [by destruct Hq|done|].
    unfold verdict in *. by rewrite E1, E2, E3.
  - right. change (VerifySignature Verify s k h) with (verdict q). destruct (verdict q) eqn:Ev; cbn [negb fst snd]; [|done]. split; [done|].
    destruct store; [|done]. intros x Hx. apply insert_member in Hx as [->|Hx]; [|by apply Hok1]. right. exists q. split; [by left|done].
Qed.

(** The answers to a sequence of checks. *)
Fixpoint cached_answers (qs : list check) (st : C) : list bool :=
  match qs with
  | [] => []
  | (store, (h, (k, s))) :: qs =>
      let (ok, st) := Caching_VerifySignature Verify nonce store s k h st in ok :: cached_answers qs st
  end.

Lemma cached_answers_spec qs : ∀ past st, cache_ok past st → Forall checks qs →
  hash_fails (qs ++ past) ∨ cached_answers qs st = map verdict qs.
Proof using laws nonce_ok.
  induction qs as [|[store [h [k s]]] qs IH]; intros past st Hst Hqs; [auto|]. apply Forall_cons_1 in Hqs as [Hq Hqs].
  cbn [cached_answers map]. pose proof (signature_cache_step past store h k s st Hq Hst) as H.
  destruct (Caching_VerifySignature Verify nonce store s k h st) as [ok st1]. cbn [fst snd] in H.
  destruct H as [Hf|[-> Hst1]]; [left; revert Hf; apply hash_fails_mono; intros x; rewrite ?elem_of_cons, ?elem_of_app, ?elem_of_cons; tauto|].
  destruct (IH _ st1 Hst1 Hqs) as [Hf|E]; [left; revert Hf; apply hash_fails_mono; intros x; rewrite ?elem_of_cons, ?elem_of_app, ?elem_of_cons; tauto|]. right. by rewrite E.
Qed.
End Cache.

(** ** Examples and witnesses *)

(** A push that runs over the end of the script stops both loops: the bytes behind it are
    counted, but not written. *)
Example truncated_push : SerializeScriptCode (Serializer some_tx [0xac; 5; 1] 0 SIGHASH_ALL) = Some [3; 0xac; 5].
Proof. reflexivity. Qed.

Definition some_code : CScript := [0x51; OP_CODESEPARATOR; 0xac].

Lemma some_signable : signable some_code some_tx 0 SIGHASH_ALL.
Proof.
  split; [apply some_tx_valid| | | | | |]; try done; [| |cbn; lia].
  - apply Forall_forall. intros x Hx. apply list_elem_of_In in Hx. cbn in Hx. destruct Hx as [<-|[<-|[<-|[]]]]; by split.
  - repeat (eapply parses_op; [reflexivity|]). constructor.
Qed.

Lemma SignatureHash_correct_witness :
  ∃ r k, Script.FindAndDelete some_code [OP_CODESEPARATOR] = Some (r, k) ∧
    SignatureHash some_code some_tx 0 SIGHASH_ALL 7 SIGVERSION_BASE None =
    Some (Sha256.sha256d (preimage (sig_fields (Serializer some_tx some_code 0 SIGHASH_ALL) r) SIGHASH_ALL)).
Proof. exact (proj1 (SignatureHash_correct some_code some_tx 0 SIGHASH_ALL 7 None) some_signable). Defined.

Lemma SignatureHash_binds_witness :
  ∃ r1 k1 r2 k2,
    Script.FindAndDelete some_code [OP_CODESEPARATOR] = Some (r1, k1) ∧ Script.FindAndDelete some_code [OP_CODESEPARATOR] = Some (r2, k2) ∧
    let f1 := sig_fields (Serializer some_tx some_code 0 SIGHASH_ALL) r1 in
    let f2 := sig_fields (Serializer some_tx some_code 0 SIGHASH_ALL) r2 in
    (collide Sha256.sha256d (preimage f1 SIGHASH_ALL) (preimage f2 SIGHASH_ALL) ∨
     SIGHASH_ALL = SIGHASH_ALL ∧ f1 = f2 ∧
     (SIGHASH_ALL = SIGHASH_ALL →
       nVersion some_tx = nVersion some_tx ∧ nLockTime some_tx = nLockTime some_tx ∧ map prevout (vin some_tx) = map prevout (vin some_tx) ∧
       map nSequence (vin some_tx) = map nSequence (vin some_tx) ∧ vout some_tx = vout some_tx ∧ (r1 ≠ [] → 0%nat = 0%nat ∧ r1 = r2))).
Proof.
  exact (SignatureHash_binds some_code some_tx 0 SIGHASH_ALL 7 None some_code some_tx 0 SIGHASH_ALL 8 (Some (Precompute some_tx))
    some_signable some_signable eq_refl).
Defined.

(** A transaction locked until height 150 meets a script locked until height 100. *)
Definition locked_tx : CTransaction := mkTx [] 1 [mkTxIn (replicate 32 7, 0) [] 0 []] [TxOut 5 [0x51]] 150.
Definition locked_checker : TransactionSignatureChecker := mkChecker locked_tx 0 5 None.
Definition locked_machine : Interp.machine := Interp.mkMachine [[100]] [] [] 0 [] [].

Lemma CLTV_enforced_witness :
  ∃ v stk n, Interp.stack locked_machine = v :: stk ∧ locked_machine = locked_machine ∧
    Interp.num Interp.SCRIPT_VERIFY_CHECKLOCKTIMEVERIFY v 5 = inr n ∧ 0 <= n ∧
    (n = 0 ∨ n < if n <? LOCKTIME_THRESHOLD then (if 200 =? 0 then 0 else 200) else (if 1000 =? 0 then 0 else 1000)).
Proof.
  apply (CLTV_enforced (λ _ _ _, false) locked_checker Interp.SCRIPT_VERIFY_CHECKLOCKTIMEVERIFY locked_machine locked_machine 200 1000 0 0);
    vm_compute; reflexivity.
Defined.

End SigHash.
