(* ===== verification/Cuckoo.v ===== *)
(** * src/cuckoocache.h: the cuckoo cache behind the signature cache

    A table of [2^depth_limit] elements, each of which may lie at one of eight places
    its hashes name, with one bit per place that says whether it may be overwritten and
    one that says whether it belongs to the current epoch.  The operations of one thread
    are atomic here: [insert] runs under an exclusive lock, and [contains] reads the
    table and sets single bits.  [std::log2] on floating-point numbers, which [setup]
    uses, is an argument.  Accesses are total functions; the invariant shows that all of
    them are in range. *)

From stdpp Require Import base option numbers list.
From Stdlib Require Import ZArith Lia.
From S2P Require Import Prelude Serialize Script Sha256 Tx Interp SigHash.
Import Tx.
Open Scope Z_scope.

Create HintDb cuckoo.

Module Cuckoo.

(** ** bit_packed_atomic_flags *)

Definition flags_of_size (size : Z) : list Z := replicate (Z.to_nat ((size + 7) / 8)) 0xFF.

Definition bit_set (s : Z) (mem : list Z) : list Z := alter (λ b, b .| (1 << (s .& 7))) (Z.to_nat (s >> 3)) mem.
Definition bit_unset (s : Z) (mem : list Z) : list Z := alter (λ b, Z.ldiff b (1 << (s .& 7))) (Z.to_nat (s >> 3)) mem.
Definition bit_is_set (s : Z) (mem : list Z) : bool := negb ((1 << (s .& 7)) .& nth (Z.to_nat (s >> 3)) mem 0 =? 0).

(** ** The cache *)

Record cache (Element : Type) : Type := mkCache {
  table : list Element; size : Z; collection_flags : list Z; epoch_flags : list bool;
  epoch_heuristic_counter : Z; epoch_size : Z; hash_mask : Z; depth_limit : nat
}.
Arguments mkCache {Element} _ _ _ _ _ _ _ _.
Arguments table {Element} _.
Arguments size {Element} _.
Arguments collection_flags {Element} _.
Arguments epoch_flags {Element} _.
Arguments epoch_heuristic_counter {Element} _.
Arguments epoch_size {Element} _.
Arguments hash_mask {Element} _.
Arguments depth_limit {Element} _.

Section Cache.
Context {Element : Type} `{EqDecision Element}.
(** [Element()], the eight hash functions, and [std::log2]. *)
Variable blank : Element.
Variable hash_function : nat → Element → Z.
Variable log2 : Z → nat.
Implicit Types (c : cache Element) (e : Element) (loc : Z).

Definition set_flags f c : cache Element :=
  mkCache (table c) (size c) f (epoch_flags c) (epoch_heuristic_counter c) (epoch_size c) (hash_mask c) (depth_limit c).
Definition set_epoch loc (b : bool) c : cache Element :=
  mkCache (table c) (size c) (collection_flags c) (<[Z.to_nat loc := b]> (epoch_flags c)) (epoch_heuristic_counter c) (epoch_size c) (hash_mask c) (depth_limit c).
Definition set_counter n c : cache Element :=
  mkCache (table c) (size c) (collection_flags c) (epoch_flags c) n (epoch_size c) (hash_mask c) (depth_limit c).
Definition set_table loc e c : cache Element :=
  mkCache (<[Z.to_nat loc := e]> (table c)) (size c) (collection_flags c) (epoch_flags c) (epoch_heuristic_counter c) (epoch_size c) (hash_mask c) (depth_limit c).

Definition table_at c loc : Element := nth (Z.to_nat loc) (table c) blank.
Definition epoch_at c loc : bool := nth (Z.to_nat loc) (epoch_flags c) false.

Definition compute_hashes c e : list Z := map (λ k, hash_function k e .& hash_mask c) (seq 0 8).

Definition allow_erase loc c : cache Element := set_flags (bit_set loc (collection_flags c)) c.
Definition please_keep loc c : cache Element := set_flags (bit_unset loc (collection_flags c)) c.

Definition places c : list Z := seqZ 0 (size c).

Definition epoch_check c : cache Element :=
  if negb (epoch_heuristic_counter c =? 0) then set_counter (epoch_heuristic_counter c - 1) c
  else
    let epoch_unused_count :=
      fold_left (λ n i, n + (if epoch_at c i && negb (bit_is_set i (collection_flags c)) then 1 else 0)) (places c) 0 in
    if epoch_unused_count >=? epoch_size c then
      set_counter (epoch_size c) (fold_left (λ c i, if epoch_at c i then set_epoch i false c else allow_erase i c) (places c) c)
    else set_counter (Z.max 1 (Z.max (epoch_size c / 16) (epoch_size c - epoch_unused_count))) c.

Definition empty_cache : cache Element := mkCache [] 0 [] [] 0 0 0 0.

(** [setup] on the cache the constructor makes. *)
Definition setup (new_size : Z) : cache Element :=
  let depth_limit := log2 (Z.max 2 new_size) in
  let size := 1 << Z.of_nat depth_limit in
  let epoch_size := Z.max 1 ((45 * size) mod 2 ^ 32 / 100) in
  mkCache (replicate (Z.to_nat size) blank) size (flags_of_size size) (replicate (Z.to_nat size) false) epoch_size epoch_size (size - 1) depth_limit.

Definition setup_bytes (sizeof_Element bytes : Z) : cache Element := setup ((bytes / sizeof_Element) mod 2 ^ 32).

(** The position of [last_loc] in [locs], or the length; [None] is [invalid()]. *)
Definition find_loc (last_loc : option Z) (locs : list Z) : Z :=
  match list_find (λ loc, Some loc = last_loc) locs with Some (i, _) => Z.of_nat i | None => Z.of_nat (length locs) end.

(** The loop over [depth]. *)
Fixpoint insert_loop (depth : nat) e (locs : list Z) (last_loc : option Z) (last_epoch : bool) c : cache Element :=
  match depth with
  | O => c
  | S depth =>
      match List.find (λ loc, bit_is_set loc (collection_flags c)) locs with
      | Some loc => set_epoch loc last_epoch (please_keep loc (set_table loc e c))
      | None =>
          let last_loc := nth (Z.to_nat ((1 + find_loc last_loc locs) .& 7)) locs 0 in
          let e' := table_at c last_loc in
          let last_epoch' := epoch_at c last_loc in
          let c := set_epoch last_loc last_epoch (set_table last_loc e c) in
          insert_loop depth e' (compute_hashes c e') (Some last_loc) last_epoch' c
      end
  end.

Definition insert e c : cache Element :=
  let c := epoch_check c in
  let locs := compute_hashes c e in
  match List.find (λ loc, bool_decide (table_at c loc = e)) locs with
  | Some loc => set_epoch loc true (please_keep loc c)
  | None => insert_loop (depth_limit c) e locs None true c
  end.

Definition contains e (erase : bool) c : bool * cache Element :=
  match List.find (λ loc, bool_decide (table_at c loc = e)) (compute_hashes c e) with
  | Some loc => (true, if erase then allow_erase loc c else c)
  | None => (false, c)
  end.

(** ** The packed flags are a vector of booleans *)

Lemma land_7 s : s .& 7 = s mod 8.
Proof. change 7 with (Z.ones 3). by rewrite Z.land_ones by lia. Qed.

Lemma shiftl_bit i j : 0 <= i → 0 <= j → Z.testbit (1 << i) j = (j =? i).
Proof. intros Hi Hj. rewrite Z.shiftl_1_l, Z.pow2_bits_eqb by lia. apply Z.eqb_sym. Qed.

Lemma bit_is_set_testbit s mem : 0 <= s → bit_is_set s mem = Z.testbit (nth (Z.to_nat (s >> 3)) mem 0) (s .& 7).
Proof.
  intros Hs. unfold bit_is_set. set (b := nth _ mem 0). set (i := s .& 7).
  assert (Hi : 0 <= i) by (subst i; rewrite land_7; apply Z.mod_pos_bound; lia).
  destruct (Z.testbit b i) eqn:E; [apply negb_true_iff, Z.eqb_neq|apply negb_false_iff, Z.eqb_eq].
  - intros H. assert (Hb : Z.testbit ((1 << i) .& b) i = false) by (by rewrite H, Z.bits_0).
    by rewrite Z.land_spec, E, shiftl_bit, Z.eqb_refl in Hb by lia.
  - apply Z.bits_inj'. intros j Hj. rewrite Z.land_spec, Z.bits_0, shiftl_bit by lia.
    destruct (Z.eqb_spec j i) as [->|]; [by rewrite E|done].
Qed.

Lemma same_bit s t : 0 <= s → 0 <= t → s >> 3 = t >> 3 → s .& 7 = t .& 7 → s = t.
Proof.
  intros Hs Ht. rewrite !land_7, !Z.shiftr_div_pow2 by lia. change (2 ^ 3) with 8. intros H1 H2.
  pose proof (Z.div_mod s 8 ltac:(lia)). pose proof (Z.div_mod t 8 ltac:(lia)). lia.
Qed.

Lemma nth_alter (f : Z → Z) i j (m : list Z) : (i < length m)%nat → nth j (alter f i m) 0 = if decide (i = j) then f (nth j m 0) else nth j m 0.
Proof.
  intros Hi. rewrite !nth_lookup. case_decide as E.
  - subst j. rewrite list_lookup_alter_eq. destruct (lookup_lt_is_Some_2 _ _ Hi) as [x ->]. done.
  - by rewrite list_lookup_alter_ne.
Qed.

Lemma bit_set_spec s t mem : 0 <= s → 0 <= t < 8 * Z.of_nat (length mem) → bit_is_set s (bit_set t mem) = (s =? t) || bit_is_set s mem.
Proof.
  intros Hs Ht. rewrite !bit_is_set_testbit by done. unfold bit_set.
  assert (Hi : (Z.to_nat (t >> 3) < length mem)%nat) by (rewrite Z.shiftr_div_pow2 by lia; change (2 ^ 3) with 8; Z.to_euclidean_division_equations; lia).
  rewrite nth_alter by done. pose proof (Z.shiftr_nonneg s 3). pose proof (Z.shiftr_nonneg t 3).
  assert (H7 : ∀ x, 0 <= x .& 7) by (intros x; rewrite land_7; apply Z.mod_pos_bound; lia).
  case_decide as E.
  - rewrite Z.lor_spec, shiftl_bit by done. rewrite orb_comm. f_equal. apply eq_true_iff_eq. rewrite !Z.eqb_eq.
    split; [intros E7; apply same_bit; [lia|lia|lia|done]|by intros ->].
  - destruct (Z.eqb_spec s t) as [->|]; [done|]. done.
Qed.

Lemma bit_unset_spec s t mem : 0 <= s → 0 <= t < 8 * Z.of_nat (length mem) → bit_is_set s (bit_unset t mem) = negb (s =? t) && bit_is_set s mem.
Proof.
  intros Hs Ht. rewrite !bit_is_set_testbit by done. unfold bit_unset.
  assert (Hi : (Z.to_nat (t >> 3) < length mem)%nat) by (rewrite Z.shiftr_div_pow2 by lia; change (2 ^ 3) with 8; Z.to_euclidean_division_equations; lia).
  rewrite nth_alter by done. pose proof (Z.shiftr_nonneg s 3). pose proof (Z.shiftr_nonneg t 3).
  assert (H7 : ∀ x, 0 <= x .& 7) by (intros x; rewrite land_7; apply Z.mod_pos_bound; lia).
  case_decide as E.
  - rewrite Z.ldiff_spec, shiftl_bit by done. rewrite andb_comm. f_equal. f_equal. apply eq_true_iff_eq. rewrite !Z.eqb_eq.
    split; [intros E7; apply same_bit; [lia|lia|lia|done]|by intros ->].
  - destruct (Z.eqb_spec s t) as [->|]; [done|]. done.
Qed.

(** ** The invariant *)

Record wf c : Prop := {
  wf_size : 2 <= size c;
  wf_mask : ∃ k, 0 <= k ∧ size c = 2 ^ k ∧ hash_mask c = 2 ^ k - 1;
  wf_table : Z.of_nat (length (table c)) = size c;
  wf_epochs : Z.of_nat (length (epoch_flags c)) = size c;
  wf_flags : size c <= 8 * Z.of_nat (length (collection_flags c));
  wf_depth : (0 < depth_limit c)%nat
}.

(** Every element lies where one of its hashes says. *)
Definition placed c : Prop := ∀ loc, 0 <= loc < size c → table_at c loc = blank ∨ loc ∈ compute_hashes c (table_at c loc).

Lemma compute_hashes_range c e loc : wf c → loc ∈ compute_hashes c e → 0 <= loc < size c.
Proof.
  intros Hw Hl. destruct (wf_mask c Hw) as (k & Hk & Es & Em). unfold compute_hashes in Hl.
  apply list_elem_of_In, in_map_iff in Hl as (i & <- & _). rewrite Em, Es.
  replace (2 ^ k - 1) with (Z.ones k) by (rewrite Z.ones_equiv; lia). rewrite Z.land_ones by done. apply Z.mod_pos_bound, Z.pow_pos_nonneg; lia.
Qed.

(** What the operations on flags leave alone. *)
Record same_shape c c' : Prop := {
  shape_table : table c' = table c; shape_size : size c' = size c; shape_mask : hash_mask c' = hash_mask c;
  shape_depth : depth_limit c' = depth_limit c;
  shape_epochs : length (epoch_flags c') = length (epoch_flags c); shape_flags : length (collection_flags c') = length (collection_flags c)
}.

#[local] Instance same_shape_preorder : PreOrder same_shape.
Proof.
  split; [by intros c; split|]. intros a b c [H1 H2 H3 H4 H5 H6] [K1 K2 K3 K4 K5 K6]. split; congruence.
Qed.

Lemma allow_erase_shape loc c : same_shape c (allow_erase loc c).
Proof. split; try done. cbn. apply length_alter. Qed.
Lemma please_keep_shape loc c : same_shape c (please_keep loc c).
Proof. split; try done. cbn. apply length_alter. Qed.
Lemma set_epoch_shape loc b c : same_shape c (set_epoch loc b c).
Proof. split; try done. cbn. apply length_insert. Qed.
Lemma set_counter_shape n c : same_shape c (set_counter n c).
Proof. by split. Qed.
Lemma keep_epoch_shape loc b c : same_shape c (set_epoch loc b (please_keep loc c)).
Proof. etransitivity; [apply please_keep_shape|apply set_epoch_shape]. Qed.
#[local] Hint Resolve allow_erase_shape please_keep_shape set_epoch_shape set_counter_shape : cuckoo.

Lemma epoch_check_shape c : same_shape c (epoch_check c).
Proof.
  unfold epoch_check. destruct (negb _); [auto with cuckoo|]. case_match; [|auto with cuckoo].
  etransitivity; [|apply set_counter_shape]. clear. generalize (places c) as l. intros l. revert c. induction l as [|i l IH]; intros c; [reflexivity|].
  cbn [fold_left]. etransitivity; [|apply IH]. destruct (epoch_at c i); auto with cuckoo.
Qed.

Lemma shape_wf c c' : same_shape c c' → wf c → wf c'.
Proof.
  intros [H1 H2 H3 H4 H5 H6] [K1 K2 K3 K4 K5 K6]. split; rewrite ?H1, ?H2, ?H3, ?H4, ?H5, ?H6; done.
Qed.
Lemma shape_at c c' loc : same_shape c c' → table_at c' loc = table_at c loc.
Proof. intros H. unfold table_at. by rewrite (shape_table _ _ H). Qed.
Lemma shape_hashes c c' e : same_shape c c' → compute_hashes c' e = compute_hashes c e.
Proof. intros H. unfold compute_hashes. by rewrite (shape_mask _ _ H). Qed.
Lemma shape_placed c c' : same_shape c c' → placed c → placed c'.
Proof. intros H Hp loc. rewrite (shape_size _ _ H), (shape_at _ _ _ H), (shape_hashes _ _ _ H). apply Hp. Qed.

Lemma set_table_wf loc e c : wf c → wf (set_table loc e c).
Proof. intros [K1 K2 K3 K4 K5 K6]. split; try done. cbn. by rewrite length_insert. Qed.

Lemma table_at_set c loc e j : wf c → 0 <= loc < size c → 0 <= j → table_at (set_table loc e c) j = if decide (j = loc) then e else table_at c j.
Proof.
  intros Hw Hl Hj. unfold table_at. cbn [set_table table]. rewrite !nth_lookup. pose proof (wf_table c Hw). case_decide as E.
  - subst j. by rewrite list_lookup_insert_eq by lia.
  - by rewrite list_lookup_insert_ne by lia.
Qed.

Lemma set_table_placed loc e c : wf c → loc ∈ compute_hashes c e → placed c → placed (set_table loc e c).
Proof.
  intros Hw Hl Hp j Hj. pose proof (compute_hashes_range _ _ _ Hw Hl). rewrite table_at_set by (done || lia).
  case_decide as E; [subst j; by right|]. exact (Hp j Hj).
Qed.

(** Elements are in the table, or blank. *)
Lemma table_at_elem c loc : table_at c loc ∈ table c ∨ table_at c loc = blank.
Proof.
  unfold table_at. rewrite nth_lookup. destruct (table c !! Z.to_nat loc) as [x|] eqn:E; [|by right]. left. cbn. by eapply list_elem_of_lookup_2.
Qed.

Lemma set_table_elem loc e c x : x ∈ table (set_table loc e c) → x = e ∨ x ∈ table c.
Proof.
  cbn. intros Hx. apply list_elem_of_lookup in Hx as [i Hi]. destruct (decide (i = Z.to_nat loc)) as [->|Hne].
  - apply list_lookup_insert_Some in Hi as [(_ & -> & _)|[Hn _]]; [by left|done].
  - rewrite list_lookup_insert_ne in Hi by done. right. by eapply list_elem_of_lookup_2.
Qed.

Lemma next_loc_elem last_loc c e : nth (Z.to_nat ((1 + find_loc last_loc (compute_hashes c e)) .& 7)) (compute_hashes c e) 0 ∈ compute_hashes c e.
Proof.
  apply list_elem_of_In, nth_In. unfold compute_hashes. rewrite length_map, length_seq, land_7.
  pose proof (Z.mod_pos_bound (1 + find_loc last_loc (map (λ k, hash_function k e .& hash_mask c) (seq 0 8))) 8 ltac:(lia)). lia.
Qed.

(** ** insert *)

Lemma find_elem (f : Z → bool) l loc : List.find f l = Some loc → loc ∈ l ∧ f loc = true.
Proof. intros H. apply find_some in H as [Hi Hf]. split; [by apply list_elem_of_In|done]. Qed.

Lemma insert_loop_ok depth : ∀ e last_loc last_epoch c, wf c → placed c →
  let c' := insert_loop depth e (compute_hashes c e) last_loc last_epoch c in
  wf c' ∧ placed c' ∧ size c' = size c ∧ hash_mask c' = hash_mask c.
Proof.
  induction depth as [|depth IH]; intros e last_loc last_epoch c Hw Hp; cbn [insert_loop]; [done|].
  destruct (List.find _ _) as [loc|] eqn:E.
  - apply find_elem in E as [Hl _]. pose proof (set_table_wf loc e c Hw) as Hw1. pose proof (set_table_placed _ _ _ Hw Hl Hp) as Hp1.
    assert (Hs : same_shape (set_table loc e c) (set_epoch loc last_epoch (please_keep loc (set_table loc e c)))) by apply keep_epoch_shape.
    split; [by eapply shape_wf|]. split; [by eapply shape_placed|]. done.
  - pose proof (next_loc_elem last_loc c e) as Hl. set (loc := nth _ _ 0) in *.
    pose proof (set_table_wf loc e c Hw) as Hw1. pose proof (set_table_placed _ _ _ Hw Hl Hp) as Hp1.
    pose proof (set_epoch_shape loc last_epoch (set_table loc e c)) as Hs.
    exact (IH (table_at c loc) (Some loc) (epoch_at c loc) _ (shape_wf _ _ Hs Hw1) (shape_placed _ _ Hs Hp1)).
Qed.

Lemma insert_loop_elem depth : ∀ e locs last_loc last_epoch c x,
  x ∈ table (insert_loop depth e locs last_loc last_epoch c) → x = e ∨ x = blank ∨ x ∈ table c.
Proof.
  induction depth as [|depth IH]; intros e locs last_loc last_epoch c x; cbn [insert_loop]; [auto|].
  destruct (List.find _ _) as [loc|].
  - intros Hx. apply (set_table_elem loc e c) in Hx as [?|?]; auto.
  - set (loc := nth _ _ 0). intros Hx. apply IH in Hx as [->|[->|Hx]]; [|auto|].
    + destruct (table_at_elem c loc) as [H|H]; auto.
    + apply (set_table_elem loc e c) in Hx as [H|H]; auto.
Qed.

Lemma insert_ok e c : wf c → placed c → wf (insert e c) ∧ placed (insert e c) ∧ size (insert e c) = size c.
Proof.
  intros Hw Hp. unfold insert. pose proof (epoch_check_shape c) as He. pose proof (shape_wf _ _ He Hw) as Hw1. pose proof (shape_placed _ _ He Hp) as Hp1.
  destruct (List.find _ _) as [loc|].
  - assert (Hs : same_shape (epoch_check c) (set_epoch loc true (please_keep loc (epoch_check c)))) by apply keep_epoch_shape.
    split; [by eapply shape_wf|]. split; [by eapply shape_placed|]. by rewrite (shape_size _ _ Hs), (shape_size _ _ He).
  - destruct (insert_loop_ok (depth_limit (epoch_check c)) e None true _ Hw1 Hp1) as (H1 & H2 & H3 & _).
    split; [done|]. split; [done|]. by rewrite H3, (shape_size _ _ He).
Qed.

Lemma insert_elem e c x : x ∈ table (insert e c) → x = e ∨ x = blank ∨ x ∈ table c.
Proof.
  unfold insert. rewrite <- (shape_table _ _ (epoch_check_shape c)). destruct (List.find _ _) as [loc|]; [auto|]. apply insert_loop_elem.
Qed.

(** ** contains *)

Lemma contains_shape e erase c : same_shape c (contains e erase c).2.
Proof. unfold contains. destruct (List.find _ _); [|reflexivity]. destruct erase; cbn; [auto with cuckoo|reflexivity]. Qed.

Lemma contains_true e erase c : (contains e erase c).1 = true ↔ ∃ loc, loc ∈ compute_hashes c e ∧ table_at c loc = e.
Proof.
  unfold contains. destruct (List.find _ _) as [loc|] eqn:E; cbn.
  - apply find_elem in E as [H1 H2]. apply bool_decide_eq_true in H2. split; [eauto|done].
  - split; [done|]. intros (loc & H1 & H2). apply list_elem_of_In in H1. pose proof (find_none _ _ E _ H1) as H3. cbn in H3.
    by apply bool_decide_eq_false in H3.
Qed.

(** For an element that is not blank, the eight places are enough. *)
Lemma contains_iff e erase c : wf c → placed c → e ≠ blank → (contains e erase c).1 = true ↔ e ∈ table c.
Proof.
  intros Hw Hp He. rewrite contains_true. split.
  - intros (loc & _ & E). destruct (table_at_elem c loc) as [H|H]; [by rewrite E in H|by rewrite E in H].
  - intros Hi. apply list_elem_of_lookup in Hi as [i Hi]. pose proof (wf_table c Hw). apply lookup_lt_Some in Hi as Hlt.
    assert (Ea : table_at c (Z.of_nat i) = e) by (unfold table_at; by rewrite Nat2Z.id, nth_lookup, Hi).
    destruct (Hp (Z.of_nat i) ltac:(lia)) as [Hb|Hb]; rewrite Ea in Hb; [done|]. eauto.
Qed.

(** An insertion with a free place, or of an element that is there. *)
Lemma insert_free e c : wf c →
  (∃ loc, loc ∈ compute_hashes c e ∧ (table_at c loc = e ∨ bit_is_set loc (collection_flags (epoch_check c)) = true)) →
  (contains e false (insert e c)).1 = true ∧
  ∃ at_, at_ ∈ compute_hashes c e ∧ ∀ j, 0 <= j < size c → j ≠ at_ → table_at (insert e c) j = table_at c j.
Proof.
  intros Hw (loc0 & Hl0 & Hor). unfold insert. pose proof (epoch_check_shape c) as He. pose proof (shape_wf _ _ He Hw) as Hw1.
  rewrite (shape_hashes _ _ _ He). destruct (List.find _ _) as [loc|] eqn:E.
  - apply find_elem in E as [Hl Ht]. apply bool_decide_eq_true in Ht.
    assert (Hs : same_shape (epoch_check c) (set_epoch loc true (please_keep loc (epoch_check c)))) by apply keep_epoch_shape.
    split.
    + apply contains_true. exists loc. rewrite (shape_hashes _ _ _ Hs), (shape_hashes _ _ _ He), (shape_at _ _ _ Hs). done.
    + exists loc. split; [done|]. intros j _ _. by rewrite (shape_at _ _ _ Hs), (shape_at _ _ _ He).
  - assert (Hfree : bit_is_set loc0 (collection_flags (epoch_check c)) = true).
    { destruct Hor as [Ht|]; [|done]. exfalso. apply list_elem_of_In in Hl0. pose proof (find_none _ _ E _ Hl0) as Hn. cbn in Hn.
      rewrite (shape_at _ _ _ He) in Hn. by apply bool_decide_eq_false in Hn. }
    destruct (depth_limit (epoch_check c)) as [|depth] eqn:Ed; [pose proof (wf_depth _ Hw1); lia|]. cbn [insert_loop].
    destruct (List.find (λ loc, bit_is_set loc (collection_flags (epoch_check c))) (compute_hashes c e)) as [loc|] eqn:E2; [|exfalso; apply list_elem_of_In in Hl0; pose proof (find_none _ _ E2 _ Hl0) as Hn; cbv beta in Hn; congruence].
    apply find_elem in E2 as [Hl _]. pose proof (compute_hashes_range _ _ _ Hw Hl) as Hr.
    assert (Hs : same_shape (set_table loc e (epoch_check c)) (set_epoch loc true (please_keep loc (set_table loc e (epoch_check c)))))
      by apply keep_epoch_shape.
    assert (Hr1 : 0 <= loc < size (epoch_check c)) by (by rewrite (shape_size _ _ He)). split.
    + apply contains_true. exists loc. rewrite (shape_hashes _ _ _ Hs), (shape_at _ _ _ Hs), table_at_set, decide_True by (done || lia).
      split; [|done]. exact (eq_rect_r (λ l, loc ∈ l) Hl (shape_hashes _ _ e He)).
    + exists loc. split; [done|]. intros j Hj Hne. by rewrite (shape_at _ _ _ Hs), table_at_set, decide_False, (shape_at _ _ _ He) by (done || lia).
Qed.

(** ** Runs *)

Inductive op : Type := Insert (e : Element) | Contains (e : Element) (erase : bool).

Definition run_op (o : op) c : cache Element := match o with Insert e => insert e c | Contains e erase => (contains e erase c).2 end.
Definition run (ops : list op) c : cache Element := fold_left (λ c o, run_op o c) ops c.

Lemma run_ok ops : ∀ c, wf c → placed c → wf (run ops c) ∧ placed (run ops c) ∧
  ∀ x, x ∈ table (run ops c) → x = blank ∨ Insert x ∈ ops ∨ x ∈ table c.
Proof.
  induction ops as [|o ops IH]; intros c Hw Hp; [split; [done|]; split; [done|]; auto|]. unfold run. cbn [fold_left].
  assert (Hstep : wf (run_op o c) ∧ placed (run_op o c) ∧ ∀ x, x ∈ table (run_op o c) → x = blank ∨ Insert x = o ∨ x ∈ table c).
  { destruct o as [e|e erase]; cbn [run_op].
    - destruct (insert_ok e c Hw Hp) as (H1 & H2 & _). split; [done|]. split; [done|]. intros x Hx. apply insert_elem in Hx as [->|[?|?]]; auto.
    - pose proof (contains_shape e erase c) as Hs. split; [by eapply shape_wf|]. split; [by eapply shape_placed|].
      intros x Hx. rewrite (shape_table _ _ Hs) in Hx. auto. }
  destruct Hstep as (H1 & H2 & H3). destruct (IH _ H1 H2) as (K1 & K2 & K3). split; [done|]. split; [done|].
  intros x Hx. apply K3 in Hx as [?|[?|Hx]]; [auto|right; left; by right|]. apply H3 in Hx as [?|[<-|?]]; [auto|right; left; by left|auto].
Qed.

Lemma setup_ok n : (1 <= log2 (Z.max 2 n) <= 30)%nat → wf (setup n) ∧ placed (setup n).
Proof.
  intros Hd. unfold setup. set (d := log2 (Z.max 2 n)) in *. rewrite Z.shiftl_1_l.
  assert (H2 : 2 <= 2 ^ Z.of_nat d) by (change 2 with (2 ^ 1) at 1; apply Z.pow_le_mono_r; lia).
  split.
  - split; cbn [size hash_mask table epoch_flags collection_flags depth_limit].
    + done.
    + exists (Z.of_nat d). split; [lia|done].
    + rewrite length_replicate. lia.
    + rewrite length_replicate. lia.
    + unfold flags_of_size. rewrite length_replicate. rewrite Z2Nat.id by (apply Z.div_pos; lia). Z.to_euclidean_division_equations; lia.
    + lia.
  - intros loc _. left. unfold table_at. cbn [table]. rewrite nth_lookup. destruct (_ !! _) as [x|] eqn:E; [|done]. by apply lookup_replicate in E as [-> _].
Qed.

(** ** Theorems *)

(** The cache is a set that may forget.  After any sequence of operations on a fresh
    cache: every place a hash names is inside the table, the bit fields and the epoch
    flags; [contains] finds an element (other than the blank one the table is filled
    with) exactly when it is in the table, whatever evictions moved it; and the table
    holds nothing that was not inserted.  An insertion that finds one of its eight
    places free, or the element present, is seen by the next lookup and moves no other
    element. *)
Theorem cuckoo_cache_correct new_size ops :
  (1 <= log2 (Z.max 2 new_size) <= 30)%nat →
  let c := run ops (setup new_size) in
  (∀ e loc, loc ∈ compute_hashes c e →
     0 <= loc < Z.of_nat (length (table c)) ∧ loc < Z.of_nat (length (epoch_flags c)) ∧ loc < 8 * Z.of_nat (length (collection_flags c))) ∧
  (∀ e erase, e ≠ blank → (contains e erase c).1 = true ↔ e ∈ table c) ∧
  (∀ e, e ∈ table c → e = blank ∨ Insert e ∈ ops) ∧
  (∀ e, (∃ loc, loc ∈ compute_hashes c e ∧ (table_at c loc = e ∨ bit_is_set loc (collection_flags (epoch_check c)) = true)) →
     (contains e false (insert e c)).1 = true ∧
     ∃ at_, at_ ∈ compute_hashes c e ∧ ∀ j, 0 <= j < size c → j ≠ at_ → table_at (insert e c) j = table_at c j).
Proof.
  intros Hd c. destruct (setup_ok new_size Hd) as [Hw0 Hp0]. destruct (run_ok ops _ Hw0 Hp0) as (Hw & Hp & Hi). fold c in Hw, Hp, Hi.
  split; [|split; [|split]].
  - intros e loc Hl. apply compute_hashes_range in Hl; [|done]. destruct Hw as [K1 K2 K3 K4 K5 K6]. lia.
  - intros e erase He. by apply contains_iff.
  - intros e He. apply Hi in He as [?|[?|He]]; [auto|auto|]. left. cbn [setup table] in He. by apply elem_of_replicate in He as [-> _].
  - intros e He. exact (insert_free e c Hw He).
Qed.
End Cache.

(** ** The signature cache *)

(** [SignatureCacheHasher]: word [k] of the entry. *)
Definition SignatureCacheHasher (k : nat) (key : uint256) : Z := le_word (take 4 (drop (4 * k) key)).

Definition signature_set : SigHash.CacheSet (cache uint256) :=
  {| SigHash.contains := contains UINT256_ZERO SignatureCacheHasher;
     SigHash.insert := insert UINT256_ZERO SignatureCacheHasher;
     SigHash.member c e := e ∈ table c ∨ e = UINT256_ZERO |}.

Lemma signature_set_laws : SigHash.CacheLaws (cache uint256) signature_set.
Proof.
  split; cbn [signature_set SigHash.contains SigHash.insert SigHash.member].
  - intros e erase c H. apply contains_true in H as (loc & _ & <-). apply table_at_elem.
  - intros e erase c x. by rewrite (shape_table _ _ (contains_shape _ _ e erase c)).
  - intros e c x [Hx|Hx]; [|auto]. apply insert_elem in Hx as [?|[?|?]]; auto.
Qed.

(** C34: The cuckoo cache behind the checker changes no answer: for every sequence of
    signature checks on a fresh cache, with any mix of [store], the answers are those of
    the verification alone, unless two of these very checks hash different bytes to one
    entry, or one of them to zero (the content of an unused place of the table, which
    [contains] does not tell from an entry). *)
Theorem signature_cache_transparent Verify nonce log2 new_size qs :
  Forall byte nonce → length nonce = 32%nat → Forall SigHash.checks qs →
  SigHash.hash_fails nonce qs ∨
  SigHash.cached_answers (cs := signature_set) Verify nonce qs (setup UINT256_ZERO log2 new_size) = map (SigHash.verdict Verify) qs.
Proof.
  intros Hn Hl Hq. rewrite <- (app_nil_r qs) at 1.
  apply (SigHash.cached_answers_spec (laws := signature_set_laws) Verify nonce (conj Hn Hl)); [|done].
  intros e [He|He]; [|by left]. cbn in He. apply elem_of_replicate in He as [-> _]. by left.
Qed.

(** ** Witnesses *)

Definition some_entry (n : Z) : uint256 := replicate 32 n.

Lemma cuckoo_cache_correct_witness :
  let c := run UINT256_ZERO SignatureCacheHasher [Insert (some_entry 5); Insert (some_entry 6); Contains (some_entry 5) true]
             (setup UINT256_ZERO (λ n, Z.to_nat (Z.log2 n)) 2) in
  (∀ e, e ∈ table c → e = UINT256_ZERO ∨ Insert e ∈ [Insert (some_entry 5); Insert (some_entry 6); Contains (some_entry 5) true]) ∧
  (contains UINT256_ZERO SignatureCacheHasher (some_entry 6) false c).1 = true.
Proof.
  destruct (cuckoo_cache_correct UINT256_ZERO SignatureCacheHasher (λ n, Z.to_nat (Z.log2 n)) 2
    [Insert (some_entry 5); Insert (some_entry 6); Contains (some_entry 5) true]) as (_ & _ & H & _); [vm_compute; lia|].
  split; [exact H|vm_compute; reflexivity].
Defined.

Definition some_query : SigHash.check := (true, (some_entry 2, (2 :: replicate 32 9, [48; 1]))).

Lemma signature_cache_transparent_witness :
  SigHash.hash_fails (some_entry 1) [some_query; some_query] ∨
  SigHash.cached_answers (cs := signature_set) (λ _ _ _, true) (some_entry 1) [some_query; some_query]
    (setup UINT256_ZERO (λ n, Z.to_nat (Z.log2 n)) 4) = [true; true].
Proof.
  assert (Hb : ∀ n x, (0 <=? x) && (x <? 256) = true → Forall byte (replicate n x)).
  { intros n x [H1%Z.leb_le H2%Z.ltb_lt]%andb_true_iff. apply Forall_replicate. by split. }
  assert (Hq : SigHash.checks some_query).
  { split; [|discriminate]. split.
    - split; [by apply Hb|reflexivity].
    - split; [constructor; [by split|by apply Hb]|reflexivity].
    - split; [|reflexivity]. by repeat (constructor; [by split|]). }
  apply (signature_cache_transparent (λ _ _ _, true) (some_entry 1) (λ n, Z.to_nat (Z.log2 n)) 4 [some_query; some_query]);
    [by apply Hb|reflexivity|constructor; [exact Hq|constructor; [exact Hq|constructor]]].
Defined.

End Cuckoo.
