(* ===== verification/Stake.v ===== *)
(** * src/chain.cpp, src/legacy/stakemodifier.cpp: block times and stake modifiers

    The times a block may have (the median of past times among them), and the stake
    modifier: the number that a kernel of proof of stake is hashed with, a value of 64 bits
    collected from the entropy bits of selected past blocks or, since the upgrade
    STAKE_MODIFIER_V2, a hash chain.  The fields of [CBlockIndex] for it are a heap beside
    that of [Chain].  [None] is undefined behaviour, a failed assertion or an exception;
    the printing of [-printstakemodifier] is left out. *)

From stdpp Require Import base option gmap sorting list fin_maps.
From Stdlib Require Import ZArith Lia.
From S2P Require Import Prelude Arith Consensus Chain Retarget Serialize Sha256 Undo.
Import Consensus.
Import Chain.
Open Scope Z_scope.

Module Stake.

Abbreviation uint256 := (list Z).
Abbreviation Hash := Undo.GetHash.
Definition UINT256_ZERO : uint256 := replicate 32 0.

(** The bytes of a [uint256] and its limbs are the same memory. *)
Definition limbs_of (h : uint256) : list Z := (λ i : nat, le_word (take 4 (drop (4 * i) h))) <$> seq 0 8.

(** ** Flags *)

Definition BLOCK_PROOF_OF_STAKE : Z := 1 << 0.
Definition BLOCK_STAKE_ENTROPY : Z := 1 << 1.
Definition BLOCK_STAKE_MODIFIER : Z := 1 << 2.

(** The fields of [CBlockIndex] for proof of stake. *)
Record fields : Type := mkFields { vStakeModifier : list Z; nFlags : Z }.
Abbreviation stakes := (gmap ptr fields).

Definition IsProofOfStake (f : fields) : bool := negb (nFlags f .& BLOCK_PROOF_OF_STAKE =? 0).
Definition SetProofOfStake (f : fields) : fields := mkFields (vStakeModifier f) (nFlags f .| BLOCK_PROOF_OF_STAKE).
Definition GeneratedStakeModifier (f : fields) : bool := negb (nFlags f .& BLOCK_STAKE_MODIFIER =? 0).

Definition GetStakeEntropyBit (e : CBlockIndex) : Z := Arith.GetLow64 (limbs_of (phashBlock e)) .& 1.
Definition SetStakeEntropyBit (nEntropyBit : Z) (f : fields) : bool * fields :=
  if nEntropyBit >? 1 then (false, f)
  else (true, mkFields (vStakeModifier f) (nFlags f .| (if negb (nEntropyBit =? 0) then BLOCK_STAKE_ENTROPY else 0))).

(** ** Times *)

Definition nMedianTimeSpan : nat := 11.

(** The array is filled from its end. *)
Fixpoint past_times (n : nat) (hp : heap) (pindex : option ptr) : option (list Z) :=
  match n, pindex with
  | S n, Some p => e ← hp !! p; earlier ← past_times n hp (pprev e); Some (earlier ++ [nTime e])
  | _, _ => Some []
  end.
Definition median (times : list Z) : option Z := merge_sort Z.le times !! (length times / 2)%nat.
Definition GetMedianTimePast (hp : heap) (this : ptr) : option Z := past_times nMedianTimeSpan hp (Some this) ≫= median.

Section Stake.
Variable consensus : Params.

Definition MaxFutureBlockTime (adjusted : Z) (hp : heap) (this : ptr) : option Z :=
  e ← hp !! this; drift ← FutureBlockTimeDrift consensus (nHeight e + 1); Some (adjusted + drift).

Definition MinPastBlockTime (hp : heap) (this : ptr) : option Z :=
  e ← hp !! this;
  v2 ← IsTimeProtocolV2 consensus (nHeight e + 1);
  if negb v2 then GetMedianTimePast hp this
  else if nHeight e + 1 =? activation consensus (index_of UPGRADE_TIME_PROTOCOL_V2) then
    before ← FutureBlockTimeDrift consensus (nHeight e);
    after ← FutureBlockTimeDrift consensus (nHeight e + 1);
    Some (nTime e - before + after)
  else Some (nTime e).

(** ** The modifier of a block *)

Definition SetStakeModifier (nStakeModifier : Z) (fGeneratedStakeModifier : bool) (f : fields) : fields :=
  mkFields (le_bytes 8 nStakeModifier) (if fGeneratedStakeModifier then nFlags f .| BLOCK_STAKE_MODIFIER else nFlags f).
Definition SetStakeModifierV2 (nStakeModifier : uint256) (f : fields) : fields := mkFields nStakeModifier (nFlags f).

(** [memcpy] into an uninitialised number: defined for the size of the number. *)
Definition GetStakeModifierV1 (e : CBlockIndex) (f : fields) : option Z :=
  v2 ← NetworkUpgradeActive (nHeight e) consensus UPGRADE_STAKE_MODIFIER_V2;
  if (match vStakeModifier f with [] => true | _ => false end) || v2 then Some 0
  else if (length (vStakeModifier f) =? 8)%nat then Some (le_word (vStakeModifier f)) else None.
Definition GetStakeModifierV2 (e : CBlockIndex) (f : fields) : option uint256 :=
  v2 ← NetworkUpgradeActive (nHeight e) consensus UPGRADE_STAKE_MODIFIER_V2;
  if (match vStakeModifier f with [] => true | _ => false end) || negb v2 then Some UINT256_ZERO
  else if (length (vStakeModifier f) =? 32)%nat then Some (vStakeModifier f) else None.

(** ** Selection of blocks *)

Definition MODIFIER_INTERVAL : Z := 60.
Definition MODIFIER_INTERVAL_RATIO : Z := 3.
Definition OLD_MODIFIER_INTERVAL : Z := 2087.

Definition GetStakeModifierSelectionIntervalSection (nSection : Z) : option Z :=
  if (nSection >=? 0) && (nSection <? 64)
  then Some (Z.quot (MODIFIER_INTERVAL * 63) (63 + (63 - nSection) * (MODIFIER_INTERVAL_RATIO - 1)))
  else None.

(** [operator<] of [uint256] and of [std::pair<int64_t, uint256>]. *)
Definition hash_lt (a b : uint256) : bool := Arith.CompareTo (limbs_of a) (limbs_of b) <? 0.
Definition pair_lt (a b : Z * uint256) : bool := (a.1 <? b.1) || (negb (b.1 <? a.1) && hash_lt a.2 b.2).
Definition pair_le (a b : Z * uint256) : Prop := pair_lt b a = false.
#[export] Instance pair_le_dec : RelDecision pair_le := λ a b, decide (pair_lt b a = false).

(** The hash a candidate is selected by: that of a proof-of-stake block is divided by 2^32. *)
Definition selection_hash (fModifierV2 : bool) (e : CBlockIndex) (f : fields) (nStakeModifierPrev : Z) : list Z :=
  let hashProof := if fModifierV2 then phashBlock e else if IsProofOfStake f then UINT256_ZERO else phashBlock e in
  let hashSelection := limbs_of (Hash [hashProof; le_bytes 8 nStakeModifierPrev]) in
  if IsProofOfStake f then Arith.op_shr hashSelection 32 else hashSelection.

(** [SelectBlockFromCandidates]: [Some None] is [return false].  [fModifierV2] is [None]
    before the first candidate, [best] is [hashBest] and [*pindexSelected] once [fSelected]
    is set. *)
Fixpoint select_loop (idx : index) (st : stakes) (vSortedByTimestamp : list (Z * uint256)) (mapSelectedBlocks : gset uint256)
    (nSelectionIntervalStop nStakeModifierPrev : Z) (fModifierV2 : option bool) (best : option (list Z * ptr)) : option (option ptr) :=
  match vSortedByTimestamp with
  | [] => Some (snd <$> best)
  | item :: rest =>
      match mapBlockIndex idx !! item.2 with
      | None => Some None
      | Some pindex =>
          e ← objects idx !! pindex;
          f ← st !! pindex;
          if match best with Some _ => nTime e >? nSelectionIntervalStop | None => false end then Some (snd <$> best)
          else
            v2 ← match fModifierV2 with Some b => Some b | None => NetworkUpgradeActive (nHeight e) consensus UPGRADE_POS_V2 end;
            if decide (phashBlock e ∈ mapSelectedBlocks)
            then select_loop idx st rest mapSelectedBlocks nSelectionIntervalStop nStakeModifierPrev (Some v2) best
            else
              let hashSelection := selection_hash v2 e f nStakeModifierPrev in
              let best :=
                match best with
                | Some (hashBest, p) => if Arith.CompareTo hashSelection hashBest <? 0 then Some (hashSelection, pindex) else Some (hashBest, p)
                | None => Some (hashSelection, pindex)
                end in
              select_loop idx st rest mapSelectedBlocks nSelectionIntervalStop nStakeModifierPrev (Some v2) best
      end
  end.
Definition SelectBlockFromCandidates idx st vSortedByTimestamp mapSelectedBlocks nSelectionIntervalStop nStakeModifierPrev : option (option ptr) :=
  select_loop idx st vSortedByTimestamp mapSelectedBlocks nSelectionIntervalStop nStakeModifierPrev None None.

(** ** ComputeNextStakeModifier *)

(** [while (p && p->pprev && !p->GeneratedStakeModifier()) p = p->pprev;] *)
Fixpoint last_generated (fuel : nat) (hp : heap) (st : stakes) (p : ptr) : option ptr :=
  match fuel with
  | O => None
  | S fuel =>
      e ← hp !! p; f ← st !! p;
      match pprev e with
      | Some q => if negb (GeneratedStakeModifier f) then last_generated fuel hp st q else Some p
      | None => Some p
      end
  end.

(** The candidates, from [pindexPrev] back. *)
Fixpoint candidates (fuel : nat) (hp : heap) (pindex : option ptr) (nSelectionIntervalStart : Z) : option (list (Z * uint256)) :=
  match fuel, pindex with
  | O, _ => None
  | _, None => Some []
  | S fuel, Some p =>
      e ← hp !! p;
      if nTime e >=? nSelectionIntervalStart then
        rest ← candidates fuel hp (pprev e) nSelectionIntervalStart; Some ((nTime e, phashBlock e) :: rest)
      else Some []
  end.
Definition sorted_candidates (l : list (Z * uint256)) : list (Z * uint256) := merge_sort pair_le (reverse l).

(** The rounds from [nRound] on; [Some None] is [return error]. *)
Fixpoint selection_rounds (fuel : nat) (idx : index) (st : stakes) (vSorted : list (Z * uint256)) (nStakeModifier : Z) (nRound : Z)
    (nSelectionIntervalStop : Z) (mapSelectedBlocks : gset uint256) (nStakeModifierNew : Z) : option (option Z) :=
  match fuel with
  | O => Some (Some nStakeModifierNew)
  | S fuel =>
      section ← GetStakeModifierSelectionIntervalSection nRound;
      let nSelectionIntervalStop := nSelectionIntervalStop + section in
      r ← SelectBlockFromCandidates idx st vSorted mapSelectedBlocks nSelectionIntervalStop nStakeModifier;
      match r with
      | None => Some None
      | Some pindex =>
          e ← objects idx !! pindex;
          selection_rounds fuel idx st vSorted nStakeModifier (nRound + 1) nSelectionIntervalStop ({[phashBlock e]} ∪ mapSelectedBlocks)
            (nStakeModifierNew .| ((GetStakeEntropyBit e << nRound) mod 2 ^ 64))
      end
  end.

(** The result, [nStakeModifier] and [fGeneratedStakeModifier].  [literal] is the address
    of the string literal that the code converts to a number for the first block. *)
Definition ComputeNextStakeModifier (literal : Z) (idx : index) (st : stakes) (pindexPrev : option ptr) : option (bool * Z * bool) :=
  match pindexPrev with
  | None => Some (true, 0, true)
  | Some prev =>
      e ← objects idx !! prev;
      if nHeight e =? 0 then Some (true, literal, true)
      else
        p ← last_generated (S (Z.to_nat (nHeight e))) (objects idx) st prev;
        ep ← objects idx !! p; fp ← st !! p;
        if negb (GeneratedStakeModifier fp) then Some (false, 0, false)
        else
          nStakeModifier ← GetStakeModifierV1 ep fp;
          if Z.quot (nTime ep) MODIFIER_INTERVAL >=? Z.quot (nTime e) MODIFIER_INTERVAL then Some (true, nStakeModifier, false)
          else
            let nSelectionIntervalStart := Z.quot (nTime e) MODIFIER_INTERVAL * MODIFIER_INTERVAL - OLD_MODIFIER_INTERVAL in
            cands ← candidates (S (S (Z.to_nat (nHeight e)))) (objects idx) (Some prev) nSelectionIntervalStart;
            let vSortedByTimestamp := sorted_candidates cands in
            r ← selection_rounds (Nat.min 64 (length vSortedByTimestamp)) idx st vSortedByTimestamp nStakeModifier 0 nSelectionIntervalStart ∅ 0;
            match r with
            | None => Some (false, nStakeModifier, false)
            | Some nStakeModifierNew => Some (true, nStakeModifierNew, true)
            end
  end.

(** ** New blocks *)

(** The state: the index of [Chain] and the fields for proof of stake. *)
Record sindex : Type := mkSIndex { idx : index; stake : stakes }.

(** [SetNewStakeModifier()]: an error of [ComputeNextStakeModifier] is only logged. *)
Definition SetNewStakeModifier (literal : Z) (i : index) (st : stakes) (this : ptr) : option stakes :=
  e ← objects i !! this; f ← st !! this;
  let f := (SetStakeEntropyBit (GetStakeEntropyBit e) f).2 in
  r ← ComputeNextStakeModifier literal i (<[this := f]> st) (pprev e);
  Some (<[this := SetStakeModifier r.1.2 r.2 f]> st).

(** [SetNewStakeModifier(prevoutId)]; without a predecessor it throws. *)
Definition SetNewStakeModifierV2 (prevoutId : uint256) (i : index) (st : stakes) (this : ptr) : option stakes :=
  e ← objects i !! this; f ← st !! this;
  v2 ← NetworkUpgradeActive (nHeight e) consensus UPGRADE_STAKE_MODIFIER_V2;
  if negb v2 then Some st
  else
    q ← pprev e; eq ← objects i !! q; fq ← st !! q;
    m ← GetStakeModifierV2 eq fq;
    Some (<[this := SetStakeModifierV2 (Hash [prevoutId; m]) f]> st).

(** [AddToBlockIndex] with what it does for proof of stake.  The modifiers read the links,
    heights, times and hashes only, which are final when the code computes them.
    [prevoutId] is [block.vtx[1].vin[0].prevout.hash], if there is such an input. *)
Definition AddToBlockIndex (literal : Z) (s : sindex) (block : header) (proofOfStake : bool) (prevoutId : option uint256) (pindexNew : ptr)
  : option (sindex * ptr) :=
  match mapBlockIndex (idx s) !! hash block with
  | Some p => Some (s, p)
  | None =>
      r ← Chain.AddToBlockIndex (idx s) block pindexNew;
      let f := if proofOfStake then SetProofOfStake (mkFields [] 0) else mkFields [] 0 in
      let st := <[pindexNew := f]> (stake s) in
      e ← objects r.1 !! pindexNew;
      st ← match pprev e with
           | None => Some st
           | Some _ =>
               v2 ← NetworkUpgradeActive (nHeight e) consensus UPGRADE_STAKE_MODIFIER_V2;
               if negb v2 then SetNewStakeModifier literal r.1 st pindexNew
               else prevoutId ← prevoutId; SetNewStakeModifierV2 prevoutId r.1 st pindexNew
           end;
      Some (mkSIndex r.1 st, r.2)
  end.

(** ** The median of past times *)

Definition at_least (m : Z) (ts : list Z) : nat := length (filter (λ t, m <= t) ts).

Lemma at_least_perm m l1 l2 : l1 ≡ₚ l2 → at_least m l1 = at_least m l2.
Proof. intros H. unfold at_least. by rewrite H. Qed.
Lemma at_least_app m l1 l2 : at_least m (l1 ++ l2) = (at_least m l1 + at_least m l2)%nat.
Proof. unfold at_least. by rewrite filter_app, length_app. Qed.
Lemma at_least_all m l : Forall (λ t, m <= t) l → at_least m l = length l.
Proof. intros H. unfold at_least. induction H as [|x l Hx _ IH]; [done|]. rewrite filter_cons_True by done. cbn. lia. Qed.
Lemma at_least_none m l : Forall (λ t, t < m) l → at_least m l = 0%nat.
Proof. intros H. unfold at_least. induction H as [|x l Hx _ IH]; [done|]. by rewrite filter_cons_False by lia. Qed.
Lemma at_least_le m l : (at_least m l <= length l)%nat.
Proof. apply length_filter. Qed.

(** The median is the largest number that half of the times reach. *)
Lemma median_spec ts m : median ts = Some m → m ∈ ts ∧ ∀ x, x <= m ↔ (length ts - length ts / 2 <= at_least x ts)%nat.
Proof.
  unfold median. intros H. pose proof (merge_sort_Permutation Z.le ts) as Hp. pose proof (StronglySorted_merge_sort Z.le ts) as Hs.
  set (s := merge_sort Z.le ts) in *. assert (length s = length ts) as Hl by by rewrite Hp.
  split; [rewrite <- Hp; by eapply list_elem_of_lookup_2|]. intros x. rewrite <- (at_least_perm x _ _ Hp).
  rewrite <- (take_drop_middle s _ m H) in Hs. apply StronglySorted_app in Hs as (Hlr & _ & Hs2).
  pose proof (lookup_lt_Some _ _ _ H) as Hlt. set (n := (length ts / 2)%nat) in *.
  rewrite <- (take_drop_middle s n m H), at_least_app.
  assert (Hll : length (take n s) = n) by (rewrite length_take; lia).
  assert (Hlr' : length (drop (S n) s) = (length ts - S n)%nat) by (rewrite length_drop; lia).
  apply StronglySorted_cons in Hs2 as [Hge _]. split.
  - intros Hx. rewrite (at_least_all x (m :: _)); [cbn [length]; lia|]. constructor; [done|].
    eapply Forall_impl; [exact Hge|]. cbn. lia.
  - intros Hc. destruct (Z.le_gt_cases x m) as [|Hx]; [done|exfalso].
    rewrite (at_least_none x (take n s)) in Hc.
    + unfold at_least in Hc. rewrite filter_cons_False in Hc by lia. pose proof (at_least_le x (drop (S n) s)). unfold at_least in *. lia.
    + apply Forall_forall. intros y Hy. specialize (Hlr y m Hy ltac:(left)). lia.
Qed.
Lemma median_total ts : ts ≠ [] → ∃ m, median ts = Some m.
Proof.
  intros H. unfold median. apply lookup_lt_is_Some_2. rewrite merge_sort_Permutation. destruct ts; [done|]. cbn [length].
  apply Nat.div_lt; lia.
Qed.

Lemma past_times_cons n hp p : past_times (S n) hp (Some p) = (e ← hp !! p; earlier ← past_times n hp (pprev e); Some (earlier ++ [nTime e])).
Proof. done. Qed.
Lemma past_times_total hp n p e : linked hp → hp !! p = Some e → ∃ ts, past_times n hp (Some p) = Some ts.
Proof.
  intros Hok. revert p e. induction n as [|n IH]; intros p e He; [by eexists|]. cbn [past_times]. rewrite He. cbn [mbind option_bind].
  destruct (pprev e) as [q|] eqn:Eq.
  - destruct (entry_prev hp Hok p e q He Eq) as (e' & He' & _). destruct (IH q e' He') as (ts & ->). by eexists.
  - destruct n; by eexists.
Qed.
Lemma median_defined hp p e : linked hp → hp !! p = Some e → ∃ ts m, past_times nMedianTimeSpan hp (Some p) = Some ts ∧ median ts = Some m.
Proof.
  intros Hok He. destruct (past_times_total hp nMedianTimeSpan p e Hok He) as (ts & E). exists ts. destruct (median_total ts) as (m & Hm); [|by exists m].
  change nMedianTimeSpan with (S 10) in E. rewrite past_times_cons, He in E. cbn [mbind option_bind] in E.
  destruct (past_times 10 _ _); cbn [mbind option_bind] in E; [|done]. simplify_eq. by destruct l.
Qed.
Lemma length_past_times n : ∀ hp p ts, past_times n hp p = Some ts → (length ts <= n)%nat.
Proof.
  induction n as [|n IH]; intros hp p ts H; cbn [past_times] in H; [by simplify_eq|]. destruct p as [p|]; [|by simplify_eq; cbn; lia].
  destruct (hp !! p) as [e|]; cbn [mbind option_bind] in H; [|done]. destruct (past_times n hp (pprev e)) as [l|] eqn:E; cbn [mbind option_bind] in H; [|done].
  simplify_eq. apply IH in E. rewrite length_app. cbn. lia.
Qed.
(** One more time is one older time, or none where the chain has ended. *)
Lemma past_times_succ n : ∀ hp p ts ts', past_times n hp p = Some ts → past_times (S n) hp p = Some ts' →
  (ts' = ts ∧ (length ts < n)%nat) ∨ (length ts = n ∧ ∃ o, ts' = o ++ ts ∧ (length o <= 1)%nat).
Proof.
  induction n as [|n IH]; intros hp p ts ts' H H'.
  - cbn [past_times] in H. simplify_eq. right. split; [done|]. exists ts'. rewrite app_nil_r. split; [done|]. by eapply length_past_times.
  - destruct p as [p|]; [|cbn in *; simplify_eq; left; split; [done|cbn; lia]].
    cbn [past_times] in H, H'. destruct (hp !! p) as [e|]; cbn [mbind option_bind] in *; [|done].
    destruct (past_times n hp (pprev e)) as [l|] eqn:E; cbn [mbind option_bind] in H; [|done].
    destruct (match pprev e with Some p0 => _ | None => Some [] end) as [l'|] eqn:E' in H'; cbn [mbind option_bind] in H'; [|done].
    change (past_times (S n) hp (pprev e) = Some l') in E'. simplify_eq. rewrite !length_app. cbn [length].
    destruct (IH hp (pprev e) l l' E E') as [[-> ?]|(? & o & -> & Ho)].
    + left. split; [done|lia].
    + right. split; [lia|]. exists o. by rewrite app_assoc.
Qed.

(** A block later than the median before it does not lower the median. *)
Lemma median_step hp p e q m :
  linked hp → hp !! p = Some e → pprev e = Some q → GetMedianTimePast hp q = Some m → m <= nTime e →
  ∃ m', GetMedianTimePast hp p = Some m' ∧ m <= m'.
Proof.
  intros Hok He Eq Hm Ht. unfold GetMedianTimePast in *.
  destruct (past_times nMedianTimeSpan hp (Some q)) as [ts|] eqn:Ets; cbn [mbind option_bind] in Hm; [|done].
  destruct (entry_prev hp Hok p e q He Eq) as (eq & Heq & _).
  destruct (past_times_total hp 10 q eq Hok Heq) as (l & El).
  assert (Ep : past_times nMedianTimeSpan hp (Some p) = Some (l ++ [nTime e])).
  { change nMedianTimeSpan with (S 10). rewrite past_times_cons, He. cbn [mbind option_bind]. by rewrite Eq, El. }
  rewrite Ep. cbn [mbind option_bind]. destruct (median_total (l ++ [nTime e])) as (m' & Hm'); [by destruct l|].
  exists m'. split; [done|]. apply (median_spec _ _ Hm'). destruct (median_spec _ _ Hm) as [_ Hc]. specialize (Hc m). destruct Hc as [Hc _]. specialize (Hc ltac:(lia)).
  rewrite at_least_app, (at_least_all m [nTime e]) by by constructor. rewrite length_app. cbn [length].
  pose proof (length_past_times _ _ _ _ El). pose proof (length_past_times _ _ _ _ Ets) as Hl11. unfold nMedianTimeSpan in *.
  destruct (past_times_succ 10 hp (Some q) l ts El Ets) as [[-> Hlt]|(Hl & o & -> & Ho)].
  - pose proof (Nat.div_mod (length l) 2 ltac:(lia)). pose proof (Nat.div_mod (length l + 1) 2 ltac:(lia)).
    pose proof (Nat.mod_upper_bound (length l) 2 ltac:(lia)). pose proof (Nat.mod_upper_bound (length l + 1) 2 ltac:(lia)). lia.
  - rewrite at_least_app, length_app in Hc. pose proof (at_least_le m o). rewrite Hl in *.
    destruct o as [|x [|]]; cbn [length] in *; [| |lia]; change (11 / 2)%nat with 5%nat in *; change ((0 + 10) / 2)%nat with 5%nat in *; change ((1 + 10) / 2)%nat with 5%nat in *; change ((10 + 1) / 2)%nat with 5%nat; lia.
Qed.

(** ** Hashes as numbers *)

Definition hash_ok (h : uint256) : Prop := length h = 32%nat ∧ Forall byte h.

Lemma chunks_val n : ∀ h, length h = (4 * n)%nat → Forall byte h →
  Forall (word 32) ((λ i : nat, le_word (take 4 (drop (4 * i) h))) <$> seq 0 n) ∧
  Arith.val ((λ i : nat, le_word (take 4 (drop (4 * i) h))) <$> seq 0 n) = le_word h.
Proof.
  induction n as [|n IH]; intros h Hl Hb; [destruct h; [by split|done]|]. cbn [seq fmap list_fmap]. rewrite <- fmap_S_seq, <- list_fmap_compose.
  destruct (IH (drop 4 h)) as [H1 H2]; [rewrite length_drop; lia|by apply Forall_drop|].
  assert (E : ((λ i : nat, le_word (take 4 (drop (4 * i) h))) ∘ S <$> seq 0 n) = ((λ i : nat, le_word (take 4 (drop (4 * i) (drop 4 h)))) <$> seq 0 n)).
  { apply list_fmap_ext. intros i x _. cbn. do 2 f_equal. rewrite drop_drop. f_equal. lia. }
  rewrite E. assert (Ht : Forall byte (take 4 h)) by by apply Forall_take. assert (Hlt : length (take 4 h) = 4%nat) by (rewrite length_take; lia).
  rewrite Nat.mul_0_r, drop_0. split.
  - constructor; [|exact H1]. pose proof (le_word_bound _ Ht) as Hw. rewrite Hlt in Hw. exact Hw.
  - cbn [Arith.val]. rewrite H2. rewrite <- (take_drop 4 h) at 3. rewrite le_word_app, Hlt. change (8 * Z.of_nat 4) with 32. lia.
Qed.
Lemma limbs_of_spec h : hash_ok h → Forall (word 32) (limbs_of h) ∧ length (limbs_of h) = 8%nat ∧ Arith.val (limbs_of h) = le_word h.
Proof. intros [Hl Hb]. destruct (chunks_val 8 h Hl Hb) as [H1 H2]. split; [exact H1|]. split; [reflexivity|exact H2]. Qed.

Lemma hash_lt_spec a b : hash_ok a → hash_ok b → hash_lt a b = (le_word a <? le_word b).
Proof.
  intros Ha Hb. destruct (limbs_of_spec a Ha) as (La & Na & Va), (limbs_of_spec b Hb) as (Lb & Nb & Vb).
  unfold hash_lt. rewrite Arith.CompareTo_spec by (done || congruence). rewrite Va, Vb. unfold Z.ltb at 2. by destruct (_ ?= _).
Qed.
Lemma Hash_ok l : Forall (Forall byte) l → Z.of_nat (length (concat l)) < 2 ^ 61 → hash_ok (Hash l).
Proof.
  intros Hb Hl. unfold Undo.GetHash. rewrite Sha256.Hash_sha256d; [|rewrite length_replicate; lia|done|done].
  destruct (Sha256.sha256_output (Sha256.sha256 (concat l))) as [H1 H2]. by split.
Qed.
Lemma zero_ok : hash_ok UINT256_ZERO.
Proof. split; [done|]. apply Forall_replicate. done. Qed.

(** ** The order of the candidates *)

Lemma compare_loop_opp a : ∀ b, Arith.compare_loop b a = - Arith.compare_loop a b.
Proof.
  induction a as [|x a IH]; intros [|y b]; try done. cbn [Arith.compare_loop]. rewrite !Z.gtb_ltb.
  destruct (Z.ltb_spec x y), (Z.ltb_spec y x); try lia. apply IH.
Qed.
#[export] Instance pair_le_total : Total pair_le.
Proof.
  intros a b. unfold pair_le, pair_lt, hash_lt, Arith.CompareTo. rewrite (compare_loop_opp (rev (limbs_of b.2))).
  destruct (Z.ltb_spec a.1 b.1), (Z.ltb_spec b.1 a.1); cbn [orb negb andb]; (auto || lia).
Qed.
Lemma pair_le_time a b : pair_le a b → a.1 <= b.1.
Proof. unfold pair_le, pair_lt. destruct (Z.ltb_spec b.1 a.1); [done|lia]. Qed.
Lemma sorted_times l : StronglySorted (λ a b : Z * uint256, a.1 <= b.1) (sorted_candidates l).
Proof.
  apply Sorted_StronglySorted; [intros a b c; cbn; lia|]. pose proof (Sorted_merge_sort pair_le (reverse l)) as H.
  unfold sorted_candidates. induction H as [|x t _ IH Hd]; constructor; [exact IH|]. destruct Hd as [|y t Hxy]; constructor. by apply pair_le_time.
Qed.
Lemma sorted_perm l : sorted_candidates l ≡ₚ l.
Proof. unfold sorted_candidates. by rewrite merge_sort_Permutation, reverse_Permutation. Qed.

(** ** One selection *)

Section Select.
Context (i : index) (st : stakes) (l : list (Z * uint256)).

(** [x] is the time and the hash of the block at [p]. *)
Definition block_at (x : Z * uint256) (p : ptr) (e : CBlockIndex) (f : fields) : Prop :=
  mapBlockIndex i !! x.2 = Some p ∧ objects i !! p = Some e ∧ st !! p = Some f ∧ phashBlock e = x.2 ∧ nTime e = x.1.

(** The number a candidate is selected by. *)
Definition key (v2 : bool) (prev : Z) (x : Z * uint256) : Z :=
  match mapBlockIndex i !! x.2 with
  | Some p => match objects i !! p, st !! p with Some e, Some f => Arith.val (selection_hash v2 e f prev) | _, _ => 0 end
  | None => 0
  end.

(** [p] is the block to select: the one of smallest key among the candidates up to [stop] that were not
    selected before, or the earliest one if there is none up to [stop]. *)
Definition picks (v2 : bool) (prev : Z) (selected : gset uint256) (stop : Z) (p : ptr) : Prop :=
  ∃ x e f, x ∈ l ∧ block_at x p e f ∧ (x.2 ∉ selected) ∧
    (∀ y, y ∈ l → y.2 ∉ selected → y.1 <= stop → key v2 prev x <= key v2 prev y) ∧
    (x.1 <= stop ∨ (∀ y, y ∈ l → y.2 ∉ selected → x.1 <= y.1)).

Hypothesis Hblocks : ∀ x, x ∈ l → ∃ p e f, block_at x p e f ∧ hash_ok x.2.
Hypothesis Hsorted : StronglySorted (λ a b : Z * uint256, a.1 <= b.1) l.

Lemma selection_hash_ok v2 e f prev : hash_ok (phashBlock e) →
  Forall (word 32) (selection_hash v2 e f prev) ∧ length (selection_hash v2 e f prev) = 8%nat.
Proof.
  intros He. unfold selection_hash. set (h := if v2 then _ else _).
  assert (Hh : hash_ok h) by (subst h; destruct v2; [done|]; destruct (IsProofOfStake f); [apply zero_ok|done]).
  destruct (limbs_of_spec (Hash [h; le_bytes 8 prev])) as (H1 & H2 & _).
  { apply Hash_ok.
    - apply Forall_cons_2; [exact (proj2 Hh)|]. apply Forall_cons_2; [apply le_bytes_byte|apply Forall_nil_2].
    - cbn [concat]. rewrite app_nil_r, length_app, length_le_bytes, (proj1 Hh). lia. }
  destruct (IsProofOfStake f); [|done]. destruct (Arith.op_shr_spec _ 32 H1 ltac:(lia)) as (S1 & S2 & _). by rewrite S2.
Qed.

(** What the loop knows after the candidates [seen]. *)
Definition best_so_far (v2 : bool) (prev : Z) (selected : gset uint256) (stop : Z) (seen : list (Z * uint256)) (best : option (list Z * ptr)) : Prop :=
  match best with
  | None => ∀ y, y ∈ seen → y.2 ∈ selected
  | Some (h, p) =>
      ∃ x e f, x ∈ seen ∧ block_at x p e f ∧ (x.2 ∉ selected) ∧ h = selection_hash v2 e f prev ∧
        (∀ y, y ∈ seen → y.2 ∉ selected → key v2 prev x <= key v2 prev y) ∧
        (x.1 <= stop ∨ (∀ y, y ∈ seen → y.2 ∉ selected → y = x))
  end.

Lemma elem_snoc {A} (y x : A) s : y ∈ s ++ [x] → y ∈ s ∨ y = x.
Proof. intros [Hy|Hy]%elem_of_app; [by left|right]. by apply list_elem_of_singleton in Hy. Qed.
Lemma key_at v2 prev x p e f : block_at x p e f → key v2 prev x = Arith.val (selection_hash v2 e f prev).
Proof. intros (H1 & H2 & H3 & _). unfold key. by rewrite H1, H2, H3. Qed.

Lemma best_picks v2 prev selected stop seen rest h p :
  l = seen ++ rest → best_so_far v2 prev selected stop seen (Some (h, p)) → (∀ y, y ∈ rest → y.2 ∉ selected → stop < y.1) →
  picks v2 prev selected stop p.
Proof using Hsorted.
  intros El (x & e & f & Hx & Hb & Hn & _ & Hmin & Ht) Hrest. exists x, e, f. split; [rewrite El; apply elem_of_app; by left|]. split; [done|]. split; [done|].
  pose proof Hsorted as Hs. rewrite El in Hs. apply StronglySorted_app in Hs as (Hlr & _ & _). split.
  - intros y Hy Hs Hst. rewrite El in Hy. apply elem_of_app in Hy as [Hy|Hy]; [by apply Hmin|]. specialize (Hrest y Hy Hs). lia.
  - destruct Ht as [Ht|Ht]; [by left|right]. intros y Hy Hs. rewrite El in Hy. apply elem_of_app in Hy as [Hy|Hy]; [rewrite (Ht y Hy Hs); lia|]. by apply Hlr.
Qed.

Lemma select_loop_spec v2 prev selected stop rest : ∀ seen best,
  l = seen ++ rest → best_so_far v2 prev selected stop seen best →
  ∃ r, select_loop i st rest selected stop prev (Some v2) best = Some r ∧
    match r with Some p => picks v2 prev selected stop p | None => ∀ y, y ∈ l → y.2 ∈ selected end.
Proof using Hblocks Hsorted.
  induction rest as [|x rest IH]; intros seen best El Hb.
  - cbn [select_loop]. eexists. split; [done|]. destruct best as [[h p]|]; cbn [fmap option_fmap option_map snd].
    + eapply best_picks; [exact El|exact Hb|]. intros y Hy. by apply elem_of_nil in Hy.
    + rewrite El, app_nil_r. exact Hb.
  - assert (Hx : x ∈ l) by (rewrite El; apply elem_of_app; right; left).
    destruct (Hblocks x Hx) as (p & e & f & Hat & Hok). pose proof Hat as (H1 & H2 & H3 & H4 & H5).
    assert (El' : l = (seen ++ [x]) ++ rest) by by rewrite <- app_assoc.
    assert (Hord : ∀ a b, a ∈ seen → b ∈ x :: rest → a.1 <= b.1) by (intros a b Ha Hb'; pose proof Hsorted as Hs; rewrite El in Hs; apply StronglySorted_app in Hs as (Hlr & _); by apply Hlr).
    assert (Hhead : ∀ b, b ∈ rest → x.1 <= b.1).
    { intros b Hb'. pose proof Hsorted as Hs. rewrite El in Hs. apply StronglySorted_app in Hs as (_ & _ & Hs2). apply StronglySorted_cons in Hs2 as [Hs2 _].
      exact (proj1 (Forall_forall _ _) Hs2 b Hb'). }
    cbn [select_loop]. rewrite H1. rewrite H2. cbn [mbind option_bind]. rewrite H3. cbn [mbind option_bind]. rewrite H5.
    destruct (match best with Some _ => _ | None => false end) eqn:Ebrk.
    { destruct best as [[h p']|]; [|done]. exists (Some p'). split; [done|]. apply Z.gtb_lt in Ebrk. eapply best_picks; [exact El|exact Hb|].
      intros y [-> |Hy]%elem_of_cons _; [lia|]. specialize (Hhead y Hy). lia. }
    rewrite H4. destruct (decide (x.2 ∈ selected)) as [Hsel|Hsel].
    { apply (IH (seen ++ [x])); [done|]. destruct best as [[h p']|]; cbn [best_so_far] in *.
      - destruct Hb as (z & ez & fz & Hz & Hbz & Hnz & Hhz & Hmin & Ht). exists z, ez, fz. split; [apply elem_of_app; by left|]. do 3 (split; [done|]). split.
        + intros y [Hy| ->]%elem_snoc Hs; [by apply Hmin|done].
        + destruct Ht as [Ht|Ht]; [by left|right]. intros y [Hy| ->]%elem_snoc Hs; [by apply Ht|done].
      - intros y [Hy| ->]%elem_snoc; [by apply Hb|done]. }
    apply (IH (seen ++ [x])); [done|]. destruct best as [[h p']|]; cbn [best_so_far] in *.
    + destruct Hb as (z & ez & fz & Hz & Hbz & Hnz & -> & Hmin & Ht). rewrite Z.gtb_ltb in Ebrk. apply Z.ltb_ge in Ebrk.
      assert (Hzs : z.1 <= stop) by (pose proof (Hord z x Hz ltac:(left)); lia).
      assert (Hokz : hash_ok (phashBlock ez)).
      { destruct Hbz as (Z1 & Z2 & Z3 & Z4 & Z5). destruct (Hblocks z) as (? & ? & ? & _ & Hk); [rewrite El; apply elem_of_app; by left|]. by rewrite Z4. }
      destruct (selection_hash_ok v2 e f prev) as [Hl1 Hn1]; [by rewrite H4|]. destruct (selection_hash_ok v2 ez fz prev Hokz) as [Hl2 Hn2].
      rewrite Arith.CompareTo_spec by (done || congruence). rewrite <- (key_at v2 prev x p e f Hat), <- (key_at v2 prev z p' ez fz Hbz).
      destruct (Z.compare_spec (key v2 prev x) (key v2 prev z)) as [Hc|Hc|Hc]; cbn [Z.ltb Z.compare].
      * exists z, ez, fz. split; [apply elem_of_app; by left|]. do 3 (split; [done|]). split; [|by left].
        intros y [Hy| ->]%elem_snoc Hs; [by apply Hmin|lia].
      * exists x, e, f. split; [apply elem_of_app; right; left|]. do 3 (split; [done|]). split; [|left; lia].
        intros y [Hy| ->]%elem_snoc Hs; [specialize (Hmin y Hy Hs); lia|lia].
      * exists z, ez, fz. split; [apply elem_of_app; by left|]. do 3 (split; [done|]). split; [|by left].
        intros y [Hy| ->]%elem_snoc Hs; [by apply Hmin|lia].
    + exists x, e, f. split; [apply elem_of_app; right; left|]. do 3 (split; [done|]). split.
      * intros y [Hy| ->]%elem_snoc Hs; [by destruct Hs; apply Hb|lia].
      * right. intros y [Hy| ->]%elem_snoc Hs; [by destruct Hs; apply Hb|done].
Qed.

Lemma Select_spec v2 prev selected stop x0 t p0 e0 f0 :
  l = x0 :: t → block_at x0 p0 e0 f0 → NetworkUpgradeActive (nHeight e0) consensus UPGRADE_POS_V2 = Some v2 →
  ∃ r, SelectBlockFromCandidates i st l selected stop prev = Some r ∧
    match r with Some p => picks v2 prev selected stop p | None => ∀ y, y ∈ l → y.2 ∈ selected end.
Proof using Hblocks Hsorted.
  intros El (H1 & H2 & H3 & H4 & _) Hv. destruct (select_loop_spec v2 prev selected stop l [] None eq_refl) as (r & Hr & Hp).
  { cbn [best_so_far]. intros y Hy. by apply elem_of_nil in Hy. }
  exists r. split; [|done]. rewrite <- Hr. unfold SelectBlockFromCandidates. rewrite El. cbn [select_loop]. rewrite H1, H2. cbn [mbind option_bind].
  rewrite H3. cbn [mbind option_bind]. by rewrite Hv.
Qed.

(** ** The rounds *)

Definition section_length (n : nat) : Z := Z.quot (MODIFIER_INTERVAL * 63) (63 + (63 - Z.of_nat n) * (MODIFIER_INTERVAL_RATIO - 1)).
(** The end of the selection interval of round [n]. *)
Definition stop_at (start : Z) (n : nat) : Z := foldl (λ s j, s + section_length j) start (seq 0 (S n)).
Definition hash_of (p : ptr) : uint256 := from_option phashBlock [] (objects i !! p).
Definition hashes (ps : list ptr) : gset uint256 := list_to_set (hash_of <$> ps).
(** The bit a block contributes: the lowest bit of its hash. *)
Definition entropy (p : ptr) : bool := Z.odd (le_word (hash_of p)).

Lemma picks_block v2 prev selected stop p :
  picks v2 prev selected stop p → ∃ x e, x ∈ l ∧ objects i !! p = Some e ∧ phashBlock e = x.2 ∧ hash_ok (phashBlock e) ∧ (x.2 ∉ selected).
Proof using Hblocks.
  intros (x & e & f & Hx & (H1 & H2 & H3 & H4 & H5) & Hn & _). exists x, e. do 3 (split; [done|]). split; [|done].
  destruct (Hblocks x Hx) as (_ & _ & _ & _ & Hk). by rewrite H4.
Qed.
Lemma entropy_bit p e : objects i !! p = Some e → hash_ok (phashBlock e) → GetStakeEntropyBit e = Z.b2z (entropy p).
Proof.
  intros He Hok. unfold GetStakeEntropyBit, entropy, hash_of. rewrite He. cbn [from_option]. destruct (limbs_of_spec _ Hok) as (H1 & _ & H3).
  rewrite Arith.GetLow64_spec, H3 by done. change 1 with (Z.ones 1). rewrite Z.land_ones by lia. change (2 ^ 1) with 2.
  change (2 ^ 64) with (2 * 2 ^ 63). rewrite Z.rem_mul_r by lia. rewrite Z.mul_comm, Z.mod_add by lia. rewrite Z.mod_mod by lia. apply Zmod_odd.
Qed.
Lemma stop_at_S start n : stop_at start (S n) = stop_at start n + section_length (S n).
Proof. unfold stop_at. rewrite (seq_S (S n)), foldl_app. done. Qed.

(** The blocks [ps] are the selections of the first rounds, and [m] is made of their bits. *)
Record selections (v2 : bool) (prev start : Z) (ps : list ptr) (m : Z) : Prop := {
  sel_picks : ∀ n p, ps !! n = Some p → picks v2 prev (hashes (take n ps)) (stop_at start n) p;
  sel_bits : ∀ n, Z.testbit m (Z.of_nat n) = from_option entropy false (ps !! n);
  sel_range : 0 <= m
}.

Lemma hashes_snoc ps p : hashes (ps ++ [p]) = {[hash_of p]} ∪ hashes ps.
Proof. unfold hashes. rewrite fmap_app, list_to_set_app_L. change (hash_of <$> [p]) with [hash_of p]. rewrite list_to_set_singleton_L. apply (comm_L (∪)). Qed.

Lemma rounds_spec v2 prev start x0 t p0 e0 f0 fuel : ∀ ps m,
  l = x0 :: t → block_at x0 p0 e0 f0 → NetworkUpgradeActive (nHeight e0) consensus UPGRADE_POS_V2 = Some v2 →
  NoDup l.*2 → selections v2 prev start ps m → (length ps + fuel <= 64)%nat → (length ps + fuel <= length l)%nat →
  ∃ ps' m', selection_rounds fuel i st l prev (Z.of_nat (length ps)) (match length ps with O => start | S n => stop_at start n end) (hashes ps) m = Some (Some m') ∧
    selections v2 prev start ps' m' ∧ length ps' = (length ps + fuel)%nat.
Proof using Hblocks Hsorted.
  induction fuel as [|fuel IH]; intros ps m El H0 Hv Hnd Hs H64 Hl; [exists ps, m; split; [done|]; split; [done|lia]|].
  cbn [selection_rounds]. unfold GetStakeModifierSelectionIntervalSection.
  destruct (Z.geb_spec (Z.of_nat (length ps)) 0), (Z.ltb_spec (Z.of_nat (length ps)) 64); try lia. cbn [andb mbind option_bind].
  fold (section_length (length ps)).
  assert (Hstop : match length ps with O => start | S n => stop_at start n end + section_length (length ps) = stop_at start (length ps)).
  { destruct (length ps) as [|n]; [done|]. by rewrite stop_at_S. }
  rewrite Hstop. destruct (Select_spec v2 prev (hashes ps) (stop_at start (length ps)) x0 t p0 e0 f0 El H0 Hv) as (r & -> & Hr). cbn [mbind option_bind].
  destruct r as [p|].
  2:{ exfalso. assert (Hsub : l.*2 ⊆+ hash_of <$> ps).
      { apply NoDup_submseteq; [done|]. intros h (y & -> & Hy)%list_elem_of_fmap. specialize (Hr y Hy). by apply elem_of_list_to_set in Hr. }
      apply submseteq_length in Hsub. rewrite !length_fmap in Hsub. lia. }
  destruct (picks_block _ _ _ _ _ Hr) as (x & e & Hx & He & Hh & Hok & Hn). rewrite He. cbn [mbind option_bind].
  rewrite (entropy_bit p e He Hok). set (m1 := m .| _).
  assert (Hs1 : selections v2 prev start (ps ++ [p]) m1).
  { split.
    - intros n q Hq. apply lookup_snoc_Some in Hq as [[Hn' Hq]|[-> ->]].
      + rewrite take_app_le by lia. by apply (sel_picks _ _ _ _ _ Hs).
      + by rewrite take_app_length.
    - intros n. subst m1. rewrite Z.mod_small.
      2:{ rewrite Z.shiftl_mul_pow2 by lia. assert (0 < 2 ^ Z.of_nat (length ps)) by (apply Z.pow_pos_nonneg; lia).
          assert (2 ^ Z.of_nat (length ps) <= 2 ^ 63) by (apply Z.pow_le_mono_r; lia). destruct (entropy p); cbn [Z.b2z]; lia. }
      rewrite Z.lor_spec, (sel_bits _ _ _ _ _ Hs), Z.shiftl_spec by lia. destruct (decide (n < length ps)%nat) as [Hlt|Hge].
      + rewrite lookup_app_l by done. rewrite Z.testbit_neg_r by lia. apply orb_false_r.
      + rewrite (lookup_ge_None_2 ps) by lia. cbn [from_option orb]. destruct (decide (n = length ps)) as [->|Hne].
        * rewrite list_lookup_middle by done. rewrite Z.sub_diag. cbn [from_option]. by destruct (entropy p).
        * rewrite lookup_ge_None_2 by (rewrite length_app; cbn; lia). cbn [from_option]. destruct (entropy p); cbn [Z.b2z]; [|apply Z.testbit_0_l].
          apply Z.bits_above_log2; cbn; lia.
    - subst m1. apply Z.lor_nonneg. split; [apply (sel_range _ _ _ _ _ Hs)|]. apply Z.mod_pos_bound. lia. }
  destruct (IH (ps ++ [p]) m1 El H0 Hv Hnd Hs1) as (ps' & m' & Hr' & Hs' & Hl'); [rewrite length_app; cbn; lia..|].
  exists ps', m'. rewrite length_app in Hr', Hl'. cbn [length] in Hr', Hl'. split; [|split; [done|lia]].
  rewrite <- Hr'. assert (Hhe : hash_of p = phashBlock e) by (unfold hash_of; by rewrite He). rewrite hashes_snoc, Hhe.
  rewrite Nat.add_1_r. f_equal; lia || done.
Qed.
End Select.

(** ** The stake fields of a chain *)

Lemma active_mono idx h h' : 0 <= h <= h' →
  NetworkUpgradeActive h' consensus idx = Some false → NetworkUpgradeActive h consensus idx = Some false.
Proof.
  intros Hh H. unfold NetworkUpgradeActive in *. assert (Hidx : (index_of idx < MAX_NETWORK_UPGRADES)%nat) by (destruct idx; cbn; unfold MAX_NETWORK_UPGRADES; lia).
  destruct (upgrade_active_spec h consensus _ ltac:(lia) Hidx) as (b & Eb & Hb), (upgrade_active_spec h' consensus _ ltac:(lia) Hidx) as (b' & Eb' & Hb').
  rewrite Eb' in H. injection H as ->. destruct b; [|done]. exfalso. assert (is_active h consensus (index_of idx)) as [H1 H2] by by apply Hb.
  assert (false = true); [|done]. apply Hb'. split; [done|lia].
Qed.

(** The fields of a block: the root has no modifier, then modifiers have 8 bytes and,
    after the upgrade, 32; the first block after the root has generated one. *)
Definition entry_fields (e : CBlockIndex) (f : fields) : Prop :=
  hash_ok (phashBlock e) ∧ Forall byte (vStakeModifier f) ∧
  match pprev e with
  | None => vStakeModifier f = []
  | Some _ => ∃ v2, NetworkUpgradeActive (nHeight e) consensus UPGRADE_STAKE_MODIFIER_V2 = Some v2 ∧
                length (vStakeModifier f) = (if v2 then 32 else 8)%nat ∧ (v2 = false → nHeight e = 1 → GeneratedStakeModifier f = true)
  end.
Definition chain_fields (i : index) (st : stakes) (p : ptr) : Prop :=
  ∀ q e, anc (objects i) p q → objects i !! q = Some e → ∃ f, st !! q = Some f ∧ entry_fields e f.

Lemma chain_fields_prev i st p e q : objects i !! p = Some e → pprev e = Some q → chain_fields i st p → chain_fields i st q.
Proof. intros He Hq H r er Hr Her. apply H; [|done]. by eapply anc_prev. Qed.

(** The nearest block with a generated modifier. *)
Lemma last_generated_spec i st : linked (objects i) → ∀ fuel p e, objects i !! p = Some e → 1 <= nHeight e → (Z.to_nat (nHeight e) < fuel)%nat →
  NetworkUpgradeActive (nHeight e) consensus UPGRADE_STAKE_MODIFIER_V2 = Some false → chain_fields i st p →
  ∃ q eq fq, last_generated fuel (objects i) st p = Some q ∧ anc (objects i) p q ∧ objects i !! q = Some eq ∧ st !! q = Some fq ∧
    entry_fields eq fq ∧ GeneratedStakeModifier fq = true ∧ 1 <= nHeight eq <= nHeight e ∧
    (∀ r fr, anc (objects i) p r → anc (objects i) r q → r ≠ q → st !! r = Some fr → GeneratedStakeModifier fr = false).
Proof.
  intros Hok. induction fuel as [|fuel IH]; intros p e He Hh Hf Ha Hc; [lia|]. cbn [last_generated]. rewrite He. cbn [mbind option_bind].
  destruct (Hc p e (anc_refl _ _) He) as (f & Ef & Hef). rewrite Ef. cbn [mbind option_bind].
  destruct (pprev e) as [q|] eqn:Eq; [|apply (entry_root _ Hok p e He) in Eq; lia].
  destruct (GeneratedStakeModifier f) eqn:Eg; cbn [negb].
  - exists p, e, f. split; [done|]. split; [apply anc_refl|]. do 4 (split; [done|]). split; [lia|]. intros r fr H1 H2 Hne Hr. exfalso. apply Hne.
    destruct (anc_object _ Hok p r e H1 He) as (er & Her). destruct (anc_height _ Hok p r e er H1 He Her) as [? Heq].
    destruct (anc_height _ Hok r p er e H2 Her He). symmetry. apply Heq. lia.
  - destruct (entry_prev _ Hok p e q He Eq) as (e' & He' & Hh'). assert (Hne1 : nHeight e ≠ 1).
    { intros H1. unfold entry_fields in Hef. rewrite Eq in Hef. destruct Hef as (_ & _ & v2 & Ev & _ & Hg). rewrite Ha in Ev. injection Ev as <-. rewrite Hg in Eg by done. done. }
    destruct (IH q e' He') as (r & er & fr & E & Hanc & Her & Hfr & Hefr & Hgr & Hhr & Hbetween); [lia|lia| |exact (chain_fields_prev i st p e q He Eq Hc)|].
    { apply (active_mono _ _ (nHeight e)); [lia|done]. }
    exists r, er, fr. split; [done|]. split; [by eapply anc_prev|]. do 4 (split; [done|]). split; [lia|].
    intros s fs H1 H2 Hne Hs. inversion H1 as [?|? e0 q0 ? He0 Hq0 H1']; subst.
    + congruence.
    + simplify_eq. by eapply Hbetween.
Qed.

(** The candidates are ancestors in the selection interval, with different hashes. *)
Lemma candidates_spec i : index_ok i → ∀ fuel start p e, objects i !! p = Some e → (Z.to_nat (nHeight e) + 1 < fuel)%nat →
  ∃ cs, candidates fuel (objects i) (Some p) start = Some cs ∧ NoDup cs.*2 ∧ (start <= nTime e → cs ≠ []) ∧
    ∀ x, x ∈ cs → ∃ q eq, anc (objects i) p q ∧ objects i !! q = Some eq ∧ x = (nTime eq, phashBlock eq) ∧ start <= nTime eq.
Proof.
  intros Hi. pose proof (ok_linked _ Hi) as Hok. induction fuel as [|fuel IH]; intros start p e He Hf; [lia|]. cbn [candidates]. rewrite He. cbn [mbind option_bind].
  destruct (Z.geb_spec (nTime e) start) as [Ht|Ht].
  2:{ exists []. split; [done|]. split; [constructor|]. split; [lia|]. intros x Hx. by apply elem_of_nil in Hx. }
  assert (∃ cs, candidates fuel (objects i) (pprev e) start = Some cs ∧ NoDup cs.*2 ∧
    ∀ x, x ∈ cs → ∃ q eq, anc (objects i) p q ∧ objects i !! q = Some eq ∧ x = (nTime eq, phashBlock eq) ∧ start <= nTime eq ∧ nHeight eq < nHeight e) as (cs & -> & Hnd & Hin).
  { destruct (pprev e) as [q|] eqn:Eq.
    - destruct (entry_prev _ Hok p e q He Eq) as (e' & He' & Hh'). pose proof (entry_height _ Hok q e' He').
      destruct (IH start q e' He' ltac:(lia)) as (cs & E & Hnd & _ & Hin). exists cs. split; [done|]. split; [done|]. intros x Hx.
      destruct (Hin x Hx) as (r & er & Hr & Her & -> & Htr). exists r, er. split; [by eapply anc_prev|]. do 3 (split; [done|]).
      pose proof (anc_height _ Hok q r e' er Hr He' Her). lia.
    - exists []. split; [destruct fuel; [lia|done]|]. split; [constructor|]. intros x Hx. by apply elem_of_nil in Hx. }
  cbn [mbind option_bind]. eexists. split; [done|]. split; [|split; [done|]].
  - cbn [fmap list_fmap snd]. constructor; [|done]. intros (x & Ex & Hx)%list_elem_of_fmap. destruct (Hin x Hx) as (q & eq & Hq & Heq & -> & _ & Hlt). cbn in Ex.
    assert (q = p); [|subst; simplify_eq; lia]. assert (mapBlockIndex i !! phashBlock e = Some p) as H1 by (apply (ok_map _ Hi); by exists e).
    assert (mapBlockIndex i !! phashBlock e = Some q) as H2 by (apply (ok_map _ Hi); by exists eq). congruence.
  - intros x [-> |Hx]%elem_of_cons; [exists p, e; split_and!; [apply anc_refl|done|done|lia]|]. destruct (Hin x Hx) as (q & eq & ? & ? & ? & ? & _). by exists q, eq.
Qed.

(** ** The next modifier, declaratively *)

(** [q] is the nearest block from [p] back that generated a modifier. *)
Record nearest (i : index) (st : stakes) (p q : ptr) (eq : CBlockIndex) (fq : fields) : Prop := {
  near_anc : anc (objects i) p q;
  near_object : objects i !! q = Some eq;
  near_fields : st !! q = Some fq;
  near_generated : GeneratedStakeModifier fq = true;
  near_first : ∀ r fr, anc (objects i) p r → anc (objects i) r q → r ≠ q → st !! r = Some fr → GeneratedStakeModifier fr = false
}.

Definition interval_start (t : Z) : Z := t / 60 * 60 - 2087.

(** The modifier of a block on [p] and whether it is a new one: it is kept within a minute of its generation,
    else generated from up to 64 selected blocks. *)
Inductive next_modifier (literal : Z) (i : index) (st : stakes) (p : ptr) (e : CBlockIndex) : Z → bool → Prop :=
| next_first : nHeight e = 0 → next_modifier literal i st p e literal true
| next_kept q eq fq :
    0 < nHeight e → nearest i st p q eq fq → nTime e / 60 <= nTime eq / 60 →
    next_modifier literal i st p e (le_word (vStakeModifier fq)) false
| next_new q eq fq cs x0 t p0 e0 f0 v2 ps m :
    0 < nHeight e → nearest i st p q eq fq → nTime eq / 60 < nTime e / 60 →
    candidates (S (S (Z.to_nat (nHeight e)))) (objects i) (Some p) (interval_start (nTime e)) = Some cs →
    sorted_candidates cs = x0 :: t → block_at i st x0 p0 e0 f0 → NetworkUpgradeActive (nHeight e0) consensus UPGRADE_POS_V2 = Some v2 →
    selections i st (sorted_candidates cs) v2 (le_word (vStakeModifier fq)) (interval_start (nTime e)) ps m →
    length ps = Nat.min 64 (length cs) →
    next_modifier literal i st p e m true.

Lemma ComputeNext_spec literal i st p e :
  index_ok i → objects i !! p = Some e → chain_fields i st p →
  NetworkUpgradeActive (nHeight e + 1) consensus UPGRADE_STAKE_MODIFIER_V2 = Some false →
  ∃ m g, ComputeNextStakeModifier literal i st (Some p) = Some (true, m, g) ∧ next_modifier literal i st p e m g.
Proof.
  intros Hi He Hc Ha. pose proof (ok_linked _ Hi) as Hok. pose proof (entry_height _ Hok p e He) as Hh. unfold ComputeNextStakeModifier. rewrite He. cbn [mbind option_bind].
  destruct (Z.eqb_spec (nHeight e) 0) as [Hz|Hz]; [exists literal, true; split; [done|by apply next_first]|].
  assert (Ha' : ∀ h, 0 <= h <= nHeight e + 1 → NetworkUpgradeActive h consensus UPGRADE_STAKE_MODIFIER_V2 = Some false) by (intros h Hr; by apply (active_mono _ _ (nHeight e + 1))).
  destruct (last_generated_spec i st Hok (S (Z.to_nat (nHeight e))) p e He) as (q & eq & fq & -> & Hanc & Heq & Hfq & Hef & Hg & Hhq & Hnear);
    [lia|lia|apply Ha'; lia|done|]. cbn [mbind option_bind]. rewrite Heq. cbn [mbind option_bind]. rewrite Hfq. cbn [mbind option_bind]. rewrite Hg. cbn [negb].
  assert (Hn : nearest i st p q eq fq) by by split.
  assert (Hmod : GetStakeModifierV1 eq fq = Some (le_word (vStakeModifier fq))).
  { unfold GetStakeModifierV1. rewrite (Ha' (nHeight eq)) by lia. cbn [mbind option_bind]. destruct Hef as (_ & _ & Hef).
    destruct (pprev eq) as [r|] eqn:Er; [|apply (entry_root _ Hok q eq Heq) in Er; lia]. destruct Hef as (v2 & Ev & Hlen & _).
    rewrite (Ha' (nHeight eq)) in Ev by lia. injection Ev as <-. rewrite Hlen. destruct (vStakeModifier fq); [done|]. done. }
  rewrite Hmod. cbn [mbind option_bind]. pose proof (ok_time _ Hi p e He) as Ht. pose proof (ok_time _ Hi q eq Heq) as Htq. unfold word in Ht, Htq.
  change MODIFIER_INTERVAL with 60. change OLD_MODIFIER_INTERVAL with 2087. rewrite !Z.quot_div_nonneg by lia. fold (interval_start (nTime e)).
  destruct (Z.geb_spec (nTime eq / 60) (nTime e / 60)) as [Hle|Hgt]; [eexists _, _; split; [done|]; eapply next_kept; [lia|exact Hn|lia]|].
  destruct (candidates_spec i Hi (S (S (Z.to_nat (nHeight e)))) (interval_start (nTime e)) p e He ltac:(lia)) as (cs & Ecs & Hnd & Hne & Hin).
  rewrite Ecs. cbn [mbind option_bind].
  assert (Hblocks : ∀ x, x ∈ sorted_candidates cs → ∃ p e f, block_at i st x p e f ∧ hash_ok x.2).
  { intros x Hx. rewrite sorted_perm in Hx. destruct (Hin x Hx) as (r & er & Hr & Her & -> & _). destruct (Hc r er Hr Her) as (fr & Efr & Hefr).
    exists r, er, fr. split; [|exact (proj1 Hefr)]. split_and!; try done. apply (ok_map _ Hi). by exists er. }
  assert (Hnil : cs ≠ []) by (apply Hne; unfold interval_start; pose proof (Z.mul_div_le (nTime e) 60 ltac:(lia)); lia).
  destruct (sorted_candidates cs) as [|x0 t] eqn:Es; [pose proof (sorted_perm cs) as Hp; rewrite Es in Hp; by apply Permutation_nil in Hp|].
  destruct (Hblocks x0 ltac:(left)) as (p0 & e0 & f0 & H0 & _).
  destruct (Retarget.upgrade_Some consensus (nHeight e0) UPGRADE_POS_V2) as (v2 & Ev2).
  { destruct H0 as (_ & H0 & _). pose proof (entry_height _ Hok p0 e0 H0). lia. }
  assert (Hlen : length (x0 :: t) = length cs) by (rewrite <- Es; by rewrite sorted_perm).
  destruct (rounds_spec i st (x0 :: t) Hblocks ltac:(rewrite <- Es; apply sorted_times) v2 (le_word (vStakeModifier fq)) (interval_start (nTime e)) x0 t p0 e0 f0
    (Nat.min 64 (length (x0 :: t))) [] 0 eq_refl H0 Ev2) as (ps & m & Er & Hsel & Hl).
  { rewrite <- Es. by rewrite sorted_perm. } { split; [by intros n r Hr|intros n; apply Z.testbit_0_l|done]. } { cbn [length plus]. lia. } { cbn [length plus]. lia. }
  cbn [length] in Er. change (Z.of_nat 0) with 0 in Er. change (hashes i []) with (∅ : gset uint256) in Er. cbn [length]. rewrite Er. cbn [mbind option_bind].
  exists m, true. split; [done|]. eapply (next_new literal i st p e q eq fq cs x0 t p0 e0 f0 v2 ps m); [lia|done|lia|done|done|done|done|by rewrite Es|by rewrite Hl, Hlen].
Qed.

(** ** The invariant *)

Record sindex_ok (s : sindex) : Prop := {
  sok_index : index_ok (idx s);
  sok_fields : ∀ p e, objects (idx s) !! p = Some e → ∃ f, stake s !! p = Some f ∧ entry_fields e f
}.

(** What a call may assume of the block, beside what [Chain] assumes: a hash of 32 bytes, and the hash of the
    staked output where modifiers are hashes. *)
Definition stake_admissible (s : sindex) (block : header) (prevoutId : option uint256) (n : ptr) : Prop :=
  admissible (idx s) block n ∧ hash_ok (hash block) ∧
  (NetworkUpgradeActive (new_height (idx s) block) consensus UPGRADE_STAKE_MODIFIER_V2 = Some true → ∃ id, prevoutId = Some id ∧ hash_ok id).

(** The same without the staked output: the block may have no second transaction, or one
    without inputs. *)
Definition stake_given (s : sindex) (block : header) (prevoutId : option uint256) (n : ptr) : Prop :=
  admissible (idx s) block n ∧ hash_ok (hash block) ∧
  (NetworkUpgradeActive (new_height (idx s) block) consensus UPGRADE_STAKE_MODIFIER_V2 = Some true → ∀ id, prevoutId = Some id → hash_ok id).

(** The read of [block.vtx[1].vin[0]] leaves the block: a new block on a known one, at a
    height where modifiers are hashes, without a staked output. *)
Definition stake_missing (s : sindex) (block : header) (prevoutId : option uint256) : Prop :=
  mapBlockIndex (idx s) !! hash block = None ∧ mapBlockIndex (idx s) !! hashPrevBlock block ≠ None ∧
  NetworkUpgradeActive (new_height (idx s) block) consensus UPGRADE_STAKE_MODIFIER_V2 = Some true ∧ prevoutId = None.

Lemma stake_admissible_given s block prevoutId n :
  stake_admissible s block prevoutId n → stake_given s block prevoutId n ∧ ¬ stake_missing s block prevoutId.
Proof.
  intros (Hadm & Hhash & Hid). split; [split; [done|]; split; [done|]; intros Ha id ->|intros (_ & _ & Ha & ->)];
    destruct (Hid Ha) as (id' & [= <-] & Hok). done.
Qed.

Lemma generated_set m f : GeneratedStakeModifier (SetStakeModifier m true f) = true.
Proof.
  unfold GeneratedStakeModifier, SetStakeModifier. cbn [nFlags]. change BLOCK_STAKE_MODIFIER with (2 ^ 2). apply negb_true_iff, Z.eqb_neq.
  intros H. apply (f_equal (λ x, Z.testbit x 2)) in H. rewrite Z.land_spec, Z.lor_spec, Z.pow2_bits_true, orb_true_r, Z.bits_0 in H by lia. done.
Qed.

Lemma GetStakeModifierV2_total e f : entry_fields e f → 0 <= nHeight e → ∃ m, GetStakeModifierV2 e f = Some m ∧ hash_ok m.
Proof.
  intros (_ & Hb & Hf) Hh. unfold GetStakeModifierV2. destruct (Retarget.upgrade_Some consensus (nHeight e) UPGRADE_STAKE_MODIFIER_V2 Hh) as (v2 & Ev2).
  rewrite Ev2. cbn [mbind option_bind]. assert (Hz : ∃ m, Some UINT256_ZERO = Some m ∧ hash_ok m) by (exists UINT256_ZERO; split; [done|apply zero_ok]).
  destruct (vStakeModifier f) as [|x t] eqn:Em; [exact Hz|]. destruct v2; cbn [orb negb]; [|exact Hz].
  destruct (pprev e) as [q|]; [|done]. destruct Hf as (v & Ev & Hl & _). rewrite Ev2 in Ev. injection Ev as <-. rewrite Hl. cbn [Nat.eqb].
  exists (x :: t). split; [done|]. by split.
Qed.

Lemma GetStakeModifierV1_total e f : entry_fields e f → 0 <= nHeight e → ∃ m, GetStakeModifierV1 e f = Some m.
Proof.
  intros (_ & _ & Hef) Hh. unfold GetStakeModifierV1. destruct (Retarget.upgrade_Some consensus (nHeight e) UPGRADE_STAKE_MODIFIER_V2 Hh) as (v2 & Ev). rewrite Ev. cbn [mbind option_bind].
  destruct (vStakeModifier f) as [|x t] eqn:Em; [by eexists|]. destruct v2; [by eexists|]. cbn [orb].
  destruct (pprev e); [|done]. destruct Hef as (v & Ev' & Hl & _). rewrite Ev in Ev'. injection Ev' as <-. rewrite Hl. by eexists.
Qed.

Section New.
Context (literal : Z) (s : sindex) (n : ptr).
Hypothesis Hs : sindex_ok s.

(** On the index that [Chain] gives, a block and its predecessor. *)
Context (e : CBlockIndex) (i : index) (f0 : fields) (q : ptr).
Hypothesis Hi : index_ok i.
Hypothesis Hobj : objects i = <[n := e]> (objects (idx s)).
Hypothesis Hq : pprev e = Some q.

Lemma new_prev : ∃ eq fq, objects (idx s) !! q = Some eq ∧ objects i !! q = Some eq ∧ q ≠ n ∧ nHeight e = nHeight eq + 1 ∧ stake s !! q = Some fq ∧ entry_fields eq fq.
Proof using Hs Hi Hobj Hq.
  assert (He : objects i !! n = Some e) by (rewrite Hobj; apply lookup_insert_eq).
  destruct (entry_prev _ (ok_linked _ Hi) n e q He Hq) as (eq & Heq & Hh). assert (Hne : q ≠ n) by (intros ->; simplify_eq; lia).
  assert (Heq' : objects (idx s) !! q = Some eq) by (rewrite Hobj, lookup_insert_ne in Heq by done; done).
  destruct (sok_fields _ Hs q eq Heq') as (fq & Hfq & Hefq). by exists eq, fq.
Qed.
Lemma new_chain f : chain_fields i (<[n := f]> (stake s)) q.
Proof using Hs Hi Hobj Hq.
  destruct new_prev as (eq & fq & _ & Heq & Hne & Hh & _). intros r er Hr Her.
  assert (Hrn : r ≠ n).
  { intros ->. destruct (anc_height _ (ok_linked _ Hi) q n eq er Hr Heq Her) as [Hle _]. rewrite Hobj, lookup_insert_eq in Her. simplify_eq. lia. }
  rewrite Hobj, lookup_insert_ne in Her by done. destruct (sok_fields _ Hs r er Her) as (fr & Hfr & Hefr). exists fr. by rewrite lookup_insert_ne.
Qed.

Hypothesis Hhash : hash_ok (phashBlock e).

Lemma SetNew_spec : NetworkUpgradeActive (nHeight e) consensus UPGRADE_STAKE_MODIFIER_V2 = Some false →
  ∃ f, SetNewStakeModifier literal i (<[n := f0]> (stake s)) n = Some (<[n := f]> (stake s)) ∧ entry_fields e f ∧
    ∃ st eq fq m g, objects (idx s) !! q = Some eq ∧ stake s !! q = Some fq ∧ next_modifier literal i st q eq m g ∧ vStakeModifier f = le_bytes 8 m ∧
      (g = true → GeneratedStakeModifier f = true) ∧ (∀ r, r ≠ n → st !! r = stake s !! r).
Proof using Hs Hi Hobj Hq Hhash.
  intros Hv. destruct new_prev as (eq & fq & Hoq & Heq & Hne & Hh & Hfq & Hefq).
  assert (He : objects i !! n = Some e) by (rewrite Hobj; apply lookup_insert_eq).
  unfold SetNewStakeModifier. rewrite He. cbn [mbind option_bind]. rewrite lookup_insert_eq. cbn [mbind option_bind].
  set (f1 := (SetStakeEntropyBit _ _).2). rewrite Hq, insert_insert_eq.
  destruct (ComputeNext_spec literal i (<[n := f1]> (stake s)) q eq Hi Heq (new_chain f1)) as (m & g & -> & Hm); [by rewrite <- Hh|].
  cbn [mbind option_bind]. rewrite insert_insert_eq. cbn [fst snd]. eexists. split; [done|]. split.
  - split; [done|]. split; [apply le_bytes_byte|]. rewrite Hq. exists false. split; [done|]. split; [apply length_le_bytes|].
    intros _ H1. assert (Hz : nHeight eq = 0) by lia. assert (g = true) as -> by (inversion Hm; subst; try done; lia). apply generated_set.
  - exists (<[n := f1]> (stake s)), eq, fq, m, g. do 4 (split; [done|]). split; [intros ->; apply generated_set|]. intros r Hr. by rewrite lookup_insert_ne.
Qed.
Lemma SetNewV2_spec id : NetworkUpgradeActive (nHeight e) consensus UPGRADE_STAKE_MODIFIER_V2 = Some true → hash_ok id →
  ∃ f, SetNewStakeModifierV2 id i (<[n := f0]> (stake s)) n = Some (<[n := f]> (stake s)) ∧ entry_fields e f ∧
    ∃ eq fq m, objects (idx s) !! q = Some eq ∧ stake s !! q = Some fq ∧ GetStakeModifierV2 eq fq = Some m ∧ vStakeModifier f = Hash [id; m].
Proof using Hs Hi Hobj Hq Hhash.
  intros Hv Hid. destruct new_prev as (eq & fq & Hoq & Heq & Hne & Hh & Hfq & Hefq).
  assert (He : objects i !! n = Some e) by (rewrite Hobj; apply lookup_insert_eq). pose proof (entry_height _ (ok_linked _ Hi) q eq Heq).
  unfold SetNewStakeModifierV2. rewrite He. cbn [mbind option_bind]. rewrite lookup_insert_eq. cbn [mbind option_bind]. rewrite Hv. cbn [mbind option_bind negb].
  rewrite Hq. cbn [mbind option_bind]. rewrite Heq. cbn [mbind option_bind]. rewrite lookup_insert_ne, Hfq by done. cbn [mbind option_bind].
  destruct (GetStakeModifierV2_total eq fq Hefq ltac:(lia)) as (m & Em & Hm). rewrite Em. cbn [mbind option_bind]. rewrite insert_insert_eq.
  assert (Hhm : hash_ok (Hash [id; m])).
  { destruct Hid as [Hl1 Hb1], Hm as [Hl2 Hb2]. apply Hash_ok; [by repeat apply Forall_cons_2|]. cbn [concat]. rewrite app_nil_r, length_app. lia. }
  eexists. split; [done|]. split; [|by exists eq, fq, m]. split; [done|]. split; [exact (proj2 Hhm)|]. rewrite Hq. exists true. split; [done|].
  split; [exact (proj1 Hhm)|done].
Qed.
End New.

Lemma AddToBlockIndex_step literal s block pos prevoutId n :
  sindex_ok s → stake_given s block prevoutId n → ¬ stake_missing s block prevoutId →
  ∃ s' p, AddToBlockIndex literal s block pos prevoutId n = Some (s', p) ∧ sindex_ok s' ∧ mapBlockIndex (idx s') !! hash block = Some p ∧
    (mapBlockIndex (idx s) !! hash block = None → mapBlockIndex (idx s) !! hashPrevBlock block ≠ None →
     ∃ q eq fq e f, p = n ∧ mapBlockIndex (idx s) !! hashPrevBlock block = Some q ∧ objects (idx s) !! q = Some eq ∧ stake s !! q = Some fq ∧
       objects (idx s') !! n = Some e ∧ nHeight e = nHeight eq + 1 ∧ stake s' !! n = Some f ∧
       ((NetworkUpgradeActive (nHeight e) consensus UPGRADE_STAKE_MODIFIER_V2 = Some false ∧
         ∃ st m g, next_modifier literal (idx s') st q eq m g ∧ (∀ r, r ≠ n → st !! r = stake s !! r) ∧ vStakeModifier f = le_bytes 8 m ∧ (g = true → GeneratedStakeModifier f = true)) ∨
        (NetworkUpgradeActive (nHeight e) consensus UPGRADE_STAKE_MODIFIER_V2 = Some true ∧
         ∃ id m, prevoutId = Some id ∧ GetStakeModifierV2 eq fq = Some m ∧ vStakeModifier f = Hash [id; m]))).
Proof.
  intros Hs (Hadm & Hhash & Hids) Hmiss. pose proof (sok_index _ Hs) as Hi. unfold AddToBlockIndex.
  destruct (mapBlockIndex (idx s) !! hash block) as [p|] eqn:Enew.
  { exists s, p. split; [done|]. split; [done|]. split; [done|]. intros H. congruence. }
  destruct (AddToBlockIndex_spec (idx s) block n Hi Hadm Enew) as (e & best & Eadd & Hek & _ & _ & _ & Hprev & Hheight & Hph & _ & _).
  pose proof (AddToBlockIndex_ok (idx s) block n Hi Hadm _ _ Eadd) as Hi'. rewrite Eadd. cbn [mbind option_bind fst snd objects].
  rewrite lookup_insert_eq. cbn [mbind option_bind]. set (i' := mkIdx _ _ _ _) in *. set (f0 := if pos then _ else _).
  assert (Hobj : objects i' = <[n := e]> (objects (idx s))) by done. assert (Hok : hash_ok (phashBlock e)) by by rewrite Hph.
  assert (Hfin : ∀ f, entry_fields e f → sindex_ok (mkSIndex i' (<[n := f]> (stake s)))).
  { intros f Hf. split; [done|]. cbn [idx stake]. intros r er Her. rewrite Hobj in Her. destruct (decide (r = n)) as [->|Hne].
    - rewrite lookup_insert_eq in Her. rewrite lookup_insert_eq. simplify_eq. by exists f.
    - rewrite lookup_insert_ne in Her by done. rewrite lookup_insert_ne by done. by apply (sok_fields _ Hs). }
  assert (Hmap : mapBlockIndex i' !! hash block = Some n) by apply lookup_insert_eq.
  destruct (pprev e) as [q|] eqn:Eq.
  - destruct (new_prev s n Hs e i' q Hi' Hobj Eq) as (eq & fq & Hoq & Heq & Hne & Hh & Hfq & Hefq).
    assert (Hid : NetworkUpgradeActive (nHeight e) consensus UPGRADE_STAKE_MODIFIER_V2 = Some true → ∃ id, prevoutId = Some id ∧ hash_ok id).
    { rewrite Hheight. intros Ha. destruct prevoutId as [id|]; [eauto|]. destruct Hmiss. split_and!; [done|congruence|done|done]. }
    assert (Hhe : 0 <= nHeight e) by (pose proof (entry_height _ (ok_linked _ Hi) q eq Hoq); lia).
    destruct (Retarget.upgrade_Some consensus (nHeight e) UPGRADE_STAKE_MODIFIER_V2 Hhe) as ([] & Ev); rewrite Ev; cbn [mbind option_bind negb].
    + destruct (Hid Ev) as (id & -> & Hidok). cbn [mbind option_bind].
      destruct (SetNewV2_spec s n Hs e i' f0 q Hi' Hobj Eq Hok id Ev Hidok) as (f & -> & Hef & eq' & fq' & m & H1 & H2 & H3 & H4). simplify_eq. cbn [mbind option_bind].
      eexists _, n. split; [done|]. split; [by apply Hfin|]. split; [exact Hmap|]. intros _ _. exists q, eq, fq, e, f. cbn [idx stake].
      rewrite Hobj, !lookup_insert_eq. do 7 (split; [done|]). right. split; [done|]. by exists id, m.
    + destruct (SetNew_spec literal s n Hs e i' f0 q Hi' Hobj Eq Hok Ev) as (f & -> & Hef & st & eq' & fq' & m & g & H1 & H2 & H3 & H4 & H5 & H6). simplify_eq. cbn [mbind option_bind].
      eexists _, n. split; [done|]. split; [by apply Hfin|]. split; [exact Hmap|]. intros _ _. exists q, eq, fq, e, f. cbn [idx stake].
      rewrite Hobj, !lookup_insert_eq. do 7 (split; [done|]). left. split; [done|]. by exists st, m, g.
  - cbn [mbind option_bind]. eexists _, n. split; [done|]. split; [|split; [exact Hmap|intros _ Hne; by rewrite <- Hprev in Hne]].
    apply Hfin. split; [done|]. split; [subst f0; destruct pos; apply Forall_nil_2|]. rewrite Eq. subst f0. by destruct pos.
Qed.

(** Adding a block fails exactly when the staked output is read and is not there. *)
Lemma AddToBlockIndex_None literal s block pos prevoutId n :
  sindex_ok s → stake_given s block prevoutId n → AddToBlockIndex literal s block pos prevoutId n = None ↔ stake_missing s block prevoutId.
Proof.
  intros Hs Hg. split.
  - intros E. destruct prevoutId as [id|] eqn:Ep.
    + destruct (AddToBlockIndex_step literal s block pos (Some id) n Hs Hg) as (s' & p & E' & _); [by intros (_ & _ & _ & ?)|congruence].
    + unfold stake_missing. destruct (decide (mapBlockIndex (idx s) !! hash block = None)) as [H1|H1];
        [destruct (decide (mapBlockIndex (idx s) !! hashPrevBlock block = None)) as [H2|H2];
          [|destruct (decide (NetworkUpgradeActive (new_height (idx s) block) consensus UPGRADE_STAKE_MODIFIER_V2 = Some true)) as [H3|H3]; [done|]]|];
        destruct (AddToBlockIndex_step literal s block pos None n Hs Hg) as (s' & p & E' & _); solve [by intros (? & ? & ? & _) | congruence].
  - intros (Hnew & Hprev & Ha & ->). unfold AddToBlockIndex. rewrite Hnew. destruct Hg as (Hadm & _ & _).
    destruct (AddToBlockIndex_spec (idx s) block n (sok_index _ Hs) Hadm Hnew) as (e & best & -> & _ & _ & _ & _ & Hp & Hheight & _ & _ & _).
    cbn [mbind option_bind fst snd objects]. rewrite lookup_insert_eq. cbn [mbind option_bind].
    destruct (pprev e); [by rewrite Hheight, Ha|congruence].
Qed.

Definition empty_sindex : sindex := mkSIndex empty_index ∅.
Inductive stake_step (literal : Z) : sindex → sindex → Prop :=
| stake_add s block pos prevoutId n s' p :
    stake_given s block prevoutId n → AddToBlockIndex literal s block pos prevoutId n = Some (s', p) → stake_step literal s s'.

Lemma empty_sindex_ok : sindex_ok empty_sindex.
Proof. split; [apply empty_index_ok|]. intros p e He. done. Qed.
Lemma stake_reachable literal s : rtc (stake_step literal) empty_sindex s → sindex_ok s.
Proof.
  intros H. cut (sindex_ok empty_sindex → sindex_ok s); [intros Hc; apply Hc, empty_sindex_ok|].
  induction H as [|s1 s2 s3 [s block pos prevoutId n s' p Hadm Ha] _ IH]; [done|]. intros Hok. apply IH.
  destruct (AddToBlockIndex_step literal s block pos prevoutId n Hok Hadm) as (s'' & p' & E & Hok' & _); [|by simplify_eq].
  rewrite <- (AddToBlockIndex_None literal s block pos prevoutId n Hok Hadm), Ha. done.
Qed.

(** ** Main results *)

(** C30: Whatever blocks are added to the index, the stake modifiers keep their types: the root has none, then
    they are 8 bytes and, from the upgrade on, 32 bytes, so that reading one back never leaves its buffer.  Adding a further
    block ([stake_given]: an admissible header with hashes of 32 bytes) fails in one case only, and always in it: the block is
    new, stands on a known block, modifiers are hashes at its height, and it has no second transaction with an input, of
    which the code reads the staked output. *)
Theorem stake_modifiers_typed literal s :
  rtc (stake_step literal) empty_sindex s →
  (∀ p e, objects (idx s) !! p = Some e → ∃ f, stake s !! p = Some f ∧ entry_fields e f ∧
     (∃ m, GetStakeModifierV1 e f = Some m) ∧ (∃ m, GetStakeModifierV2 e f = Some m)) ∧
  (∀ block pos prevoutId n, stake_given s block prevoutId n →
     AddToBlockIndex literal s block pos prevoutId n = None ↔ stake_missing s block prevoutId).
Proof.
  intros Hr. pose proof (stake_reachable literal s Hr) as Hs. split.
  - intros p e He. destruct (sok_fields _ Hs p e He) as (f & Hf & Hef). pose proof (entry_height _ (ok_linked _ (sok_index _ Hs)) p e He) as Hh.
    exists f. split; [done|]. split; [done|]. split; [apply GetStakeModifierV1_total; [done|lia]|].
    destruct (GetStakeModifierV2_total e f Hef ltac:(lia)) as (m & ? & _). by exists m.
  - intros block pos prevoutId n Hg. by apply AddToBlockIndex_None.
Qed.

(** C19: A block that is added on a known block gets its stake modifier.  Before the upgrade it is that of the nearest
    block that generated one, for as long as the minute of that block lasts, and else a new
    number: its bits are the lowest bits of the hashes of up to 64 different blocks, the
    block of each round being the one of smallest selection hash among the blocks of the
    selection interval that were not selected before.  From the upgrade on it is the hash of the
    staked output and the modifier before. *)
Theorem stake_modifier_correct literal s block pos prevoutId n q :
  rtc (stake_step literal) empty_sindex s → stake_admissible s block prevoutId n →
  mapBlockIndex (idx s) !! hash block = None → mapBlockIndex (idx s) !! hashPrevBlock block = Some q →
  ∃ s' eq fq e f, AddToBlockIndex literal s block pos prevoutId n = Some (s', n) ∧ objects (idx s) !! q = Some eq ∧ stake s !! q = Some fq ∧
    objects (idx s') !! n = Some e ∧ nHeight e = nHeight eq + 1 ∧ stake s' !! n = Some f ∧
    ((NetworkUpgradeActive (nHeight e) consensus UPGRADE_STAKE_MODIFIER_V2 = Some false ∧
      ∃ st m g, next_modifier literal (idx s') st q eq m g ∧ (∀ r, r ≠ n → st !! r = stake s !! r) ∧ vStakeModifier f = le_bytes 8 m ∧ (g = true → GeneratedStakeModifier f = true)) ∨
     (NetworkUpgradeActive (nHeight e) consensus UPGRADE_STAKE_MODIFIER_V2 = Some true ∧
      ∃ id m, prevoutId = Some id ∧ GetStakeModifierV2 eq fq = Some m ∧ vStakeModifier f = Hash [id; m])).
Proof.
  intros Hr Hadm Hnew Hprev. destruct (AddToBlockIndex_step literal s block pos prevoutId n (stake_reachable literal s Hr)) as (s' & p & E & _ & _ & H);
    [by apply stake_admissible_given in Hadm as [? ?]..|].
  destruct (H Hnew ltac:(by rewrite Hprev)) as (q' & eq & fq & e & f & -> & Hq' & H'). simplify_eq. by exists s', eq, fq, e, f.
Qed.

(** Every block later than the median of the eleven times up to its predecessor, as a block must be in the first time protocol. *)
Definition timely (hp : heap) (p : ptr) : Prop :=
  ∀ q e r, anc hp p q → hp !! q = Some e → pprev e = Some r → ∃ m, GetMedianTimePast hp r = Some m ∧ m < nTime e.

(** The median of past times is defined for every block, it is the largest number that half of the last
    eleven times reach, and it never decreases along a chain of timely blocks. *)
Theorem GetMedianTimePast_monotone literal s p e a :
  rtc (stake_step literal) empty_sindex s → objects (idx s) !! p = Some e → timely (objects (idx s)) p → anc (objects (idx s)) p a →
  ∃ ts m ma, past_times nMedianTimeSpan (objects (idx s)) (Some p) = Some ts ∧ GetMedianTimePast (objects (idx s)) p = Some m ∧
    m ∈ ts ∧ (∀ x, x <= m ↔ (length ts - length ts / 2 <= at_least x ts)%nat) ∧
    GetMedianTimePast (objects (idx s)) a = Some ma ∧ ma <= m.
Proof.
  intros Hr He Ht Ha. pose proof (ok_linked _ (sok_index _ (stake_reachable literal s Hr))) as Hok.
  destruct (median_defined _ p e Hok He) as (ts & m & Ets & Hm). exists ts, m. assert (Em : GetMedianTimePast (objects (idx s)) p = Some m) by (unfold GetMedianTimePast; by rewrite Ets).
  cut (∃ ma, GetMedianTimePast (objects (idx s)) a = Some ma ∧ ma <= m).
  { intros (ma & Ema & Hle). exists ma. destruct (median_spec ts m Hm). by split_and!. }
  clear Hr ts Ets Hm. revert m e He Em. induction Ha as [p|p ep r q Hp Hpr Ha IH]; intros m e He Em; [exists m; split; [done|lia]|].
  assert (ep = e) as -> by congruence. destruct (Ht p e r (anc_refl _ _) He Hpr) as (mr & Emr & Hlt).
  destruct (median_step _ p e r mr Hok He Hpr Emr ltac:(lia)) as (m' & Em' & Hle). rewrite Em in Em'. injection Em' as <-.
  destruct (entry_prev _ Hok p e r He Hpr) as (er & Her & _). destruct (IH ltac:(intros x ex y Hx; apply Ht; by eapply anc_prev) mr er Her Emr) as (ma & Ema & Hma).
  exists ma. split; [done|lia].
Qed.
End Stake.

(** ** Witnesses: the first three blocks of a chain *)

Definition small_hash (h : Z) : uint256 := h :: replicate 31 0.
Definition small_header (h : Z) : header := mkHeader (small_hash h) (small_hash (h - 1)) (1000 + 60 * h) 0x207fffff.
Definition small_added (s : sindex) (h : Z) (n : ptr) : sindex :=
  match AddToBlockIndex main_params 77 s (small_header h) false None n with Some (s', _) => s' | None => s end.

Definition sindex1 : sindex := Eval vm_compute in small_added empty_sindex 1 1.
Definition sindex2 : sindex := Eval vm_compute in small_added sindex1 2 2.
Definition sindex3 : sindex := Eval vm_compute in small_added sindex2 3 3.

Lemma small_hash_ok h : 0 <= h < 256 → hash_ok (small_hash h).
Proof. intros Hh. split; [done|]. apply Forall_cons_2; [unfold word; lia|]. apply Forall_replicate. unfold word. lia. Qed.

Ltac small_stake := split; [small_admissible | split; [apply small_hash_ok; lia | let H := fresh in intros H; vm_compute in H; discriminate H]].

Lemma sindex3_reachable : rtc (stake_step main_params 77) empty_sindex sindex3.
Proof.
  apply rtc_l with sindex1; [apply (stake_add _ _ _ (small_header 1) false None 1 _ 1); [small_stake | vm_compute; reflexivity]|].
  apply rtc_l with sindex2; [apply (stake_add _ _ _ (small_header 2) false None 2 _ 2); [small_stake | vm_compute; reflexivity]|].
  apply rtc_l with sindex3; [apply (stake_add _ _ _ (small_header 3) false None 3 _ 3); [small_stake | vm_compute; reflexivity]|].
  apply rtc_refl.
Qed.

(** The parameters of a test network whose modifiers are hashes from the start, and its first block. *)
Definition early_params : Params :=
  mkParams (powLimit main_params) (posLimitV1 main_params) (posLimitV2 main_params) 7200 180 100 (nMaxMoneyOut main_params) 1800 100 600 2400 1800 60 15
    (ALWAYS_ACTIVE :: replicate 11 ALWAYS_ACTIVE).
Definition early1 : sindex := Eval vm_compute in
  match AddToBlockIndex early_params 77 empty_sindex (small_header 1) false None 1 with Some (s', _) => s' | None => empty_sindex end.

Lemma early1_reachable : rtc (stake_step early_params 77) empty_sindex early1.
Proof.
  apply rtc_once, (stake_add _ _ _ (small_header 1) false None 1 _ 1); [|vm_compute; reflexivity].
  split; [small_admissible | split; [apply small_hash_ok; lia | done]].
Qed.

Lemma stake_modifiers_typed_witness :
  (∃ e f, objects (idx sindex3) !! 3%positive = Some e ∧ stake sindex3 !! 3%positive = Some f ∧ entry_fields main_params e f ∧ vStakeModifier f = le_bytes 8 77) ∧
  AddToBlockIndex early_params 77 early1 (small_header 2) false None 2 = None.
Proof.
  destruct (stake_modifiers_typed main_params 77 sindex3 sindex3_reachable) as [H1 _].
  destruct (stake_modifiers_typed early_params 77 early1 early1_reachable) as [_ H2]. split.
  - destruct (objects (idx sindex3) !! 3%positive) as [e|] eqn:E; [|vm_compute in E; discriminate E].
    destruct (H1 3%positive e E) as (f & Hf & Hef & _). exists e, f. split_and!; [done|done|done|]. vm_compute in Hf. injection Hf as <-. reflexivity.
  - apply H2; [split; [small_admissible | split; [apply small_hash_ok; lia | done]]|].
    split; [vm_compute; reflexivity|]. split; [vm_compute; discriminate|]. split; [vm_compute; reflexivity|done].
Defined.
Lemma stake_modifier_correct_witness :
  ∃ s' f, AddToBlockIndex main_params 77 sindex3 (small_header 4) true None 4 = Some (s', 4%positive) ∧ stake s' !! 4%positive = Some f.
Proof.
  destruct (stake_modifier_correct main_params 77 sindex3 (small_header 4) true None 4 3 sindex3_reachable) as (s' & eq & fq & e & f & E & _ & _ & _ & _ & Hf & _);
    [small_stake|vm_compute; reflexivity|vm_compute; reflexivity|]. by exists s', f.
Defined.
Lemma GetMedianTimePast_monotone_witness :
  ∃ m ma, GetMedianTimePast (objects (idx sindex3)) 3 = Some m ∧ GetMedianTimePast (objects (idx sindex3)) 1 = Some ma ∧ ma <= m.
Proof.
  destruct (objects (idx sindex3) !! 3%positive) as [e|] eqn:E; [|vm_compute in E; discriminate E].
  destruct (GetMedianTimePast_monotone main_params 77 sindex3 3 e 1 sindex3_reachable E) as (ts & m & ma & _ & E1 & _ & _ & E2 & Hle); [| |by exists m, ma].
  - intros q eq r Hq Heq Hr. inversion Hq as [|? e2 q2 ? He2 Hq2 Hq']; subst.
    + vm_compute in Heq. injection Heq as <-. vm_compute in Hr. injection Hr as <-. exists 1120. split; [vm_compute; reflexivity|done].
    + vm_compute in He2. injection He2 as <-. vm_compute in Hq2. injection Hq2 as <-. inversion Hq' as [|? e3 q3 ? He3 Hq3 Hq'']; subst.
      * vm_compute in Heq. injection Heq as <-. vm_compute in Hr. injection Hr as <-. exists 1060. split; [vm_compute; reflexivity|done].
      * vm_compute in He3. injection He3 as <-. vm_compute in Hq3. injection Hq3 as <-. inversion Hq'' as [|? e4 q4 ? He4 Hq4 Hq3]; subst.
        -- vm_compute in Heq. injection Heq as <-. vm_compute in Hr. discriminate Hr.
        -- vm_compute in He4. injection He4 as <-. vm_compute in Hq4. discriminate Hq4.
  - apply (anc_prev _ 3 e 2 1 E); [vm_compute in E; by injection E as <-|]. destruct (objects (idx sindex3) !! 2%positive) as [e2|] eqn:E2; [|vm_compute in E2; discriminate E2].
    apply (anc_prev _ 2 e2 1 1 E2); [vm_compute in E2; by injection E2 as <-|apply anc_refl].
Defined.

End Stake.
