(* ===== verification/Kernel.v ===== *)
(** * src/kernel.{h,cpp}, src/stakeinput.{h,cpp}: proof of stake

    A block of proof of stake is valid when the hash of its kernel (the stake modifier,
    the time of the block of the staked coin, its outpoint and the time of the new block)
    is below a target that grows with the value of the coin.  [Stake] searches a time for
    which this holds, [CheckProofOfStake] verifies a block.  The wallet's part of
    [CPivStake] ([CreateTxIn], [CreateTxOuts]) is left out.  Arguments: the lookup of
    transactions, the clock (which stands still during a call of [Stake]), the time of the
    last checkpoint and the cryptography of scripts.  [None] is undefined behaviour: a null
    pointer or an index out of range. *)

From stdpp Require Import base option gmap list strings.
From Stdlib Require Import ZArith Lia.
From S2P Require Import Prelude Arith Consensus Chain Retarget Serialize Sha256 Tx Block Undo Interp SigHash Stake.
Import (coercions) Chain.
Import Consensus.
Import Stake.
Open Scope Z_scope.

Module Kernel.

Abbreviation CTransaction := Tx.CTransaction.
Abbreviation CTxOut := Tx.CTxOut.
Abbreviation ptr := Chain.ptr.
Abbreviation chain := Chain.chain.
Abbreviation objects := Chain.objects.
Abbreviation mapBlockIndex := Chain.mapBlockIndex.
Abbreviation nHeight := Chain.nHeight.

(** The global state: the block index, its stake fields and the active chain. *)
Record world : Type := mkWorld { w_index : Chain.index; w_stakes : Stake.stakes; chainActive : chain }.

Section Kernel.
Variable consensus : Params.
(** [GetTransaction(hash, tx, hashBlock, true)]. *)
Variable GetTransaction : uint256 → option (CTransaction * uint256).
(** [CPubKey::Verify], the hash functions of scripts and the test of a low S. *)
Variable Verify : list Z → uint256 → list Z → bool.
Variable ripemd160 sha1 : list Z → list Z.
Variable CheckLowS : list Z → bool.
Variable nTimeLastCheckpoint : Z.

(** ** CPivStake *)

Record CPivStake : Type := mkStake { pindexFrom : option ptr; txFrom : CTransaction; nPosition : Z }.

(** [CTransaction()] and [IsNull]. *)
Definition tx_null : CTransaction := Tx.mkTx UINT256_ZERO 1 [] [] 0.
Definition tx_IsNull (tx : CTransaction) : bool := match Tx.vin tx, Tx.vout tx with [], [] => true | _, _ => false end.

(** The index of a block of the active chain. *)
Definition active_index (w : world) (hashBlock : uint256) : option (option ptr) :=
  match mapBlockIndex (w_index w) !! hashBlock with
  | Some pindex => c ← Chain.Contains (objects (w_index w)) (chainActive w) pindex; Some (if (c : bool) then Some pindex else None)
  | None => Some None
  end.

Definition SetPrevout (txPrev : CTransaction) (n : Z) (s : CPivStake) : CPivStake := mkStake (pindexFrom s) txPrev n.

Definition InitFromTxIn (w : world) (txin : Tx.CTxIn) : option (bool * CPivStake) :=
  let s := mkStake None tx_null 0 in
  match GetTransaction (Tx.prevout txin).1 with
  | None => Some (false, s)
  | Some (txPrev, hashBlock) =>
      let s := SetPrevout txPrev (Tx.prevout txin).2 s in
      p ← active_index w hashBlock;
      match p with
      | Some pindex => Some (true, mkStake (Some pindex) (txFrom s) (nPosition s))
      | None => Some (false, s)
      end
  end.

Definition GetTxFrom (s : CPivStake) : option CTransaction := if tx_IsNull (txFrom s) then None else Some (txFrom s).
Definition GetTxOutFrom (s : CPivStake) : option CTxOut :=
  if tx_IsNull (txFrom s) || (nPosition s >=? Z.of_nat (length (Tx.vout (txFrom s)))) then None
  else Tx.vout (txFrom s) !! Z.to_nat (nPosition s).

(** [txFrom.vout[nPosition].nValue], without a check of the index. *)
Definition GetValue (s : CPivStake) : option Z := Tx.nValue <$> Tx.vout (txFrom s) !! Z.to_nat (nPosition s).

Definition GetUniqueness (s : CPivStake) : list Z := le_bytes 4 (nPosition s) ++ Tx.GetHash (txFrom s).

(** The index is looked up once. *)
Definition GetIndexFrom (w : world) (s : CPivStake) : option (option ptr * CPivStake) :=
  match pindexFrom s with
  | Some p => Some (Some p, s)
  | None =>
      match GetTransaction (Tx.GetHash (txFrom s)) with
      | None => Some (None, s)
      | Some (_, hashBlock) => p ← active_index w hashBlock; Some (p, mkStake p (txFrom s) (nPosition s))
      end
  end.

Definition ContextCheck (w : world) (nHeight_ nTime_ : Z) (s : CPivStake) : option (bool * CPivStake) :=
  r ← GetIndexFrom w s;
  match r with
  | (None, s) => Some (false, s)
  | (Some p, s) =>
      e ← objects (w_index w) !! p;
      ok ← HasStakeMinAgeOrDepth consensus nHeight_ nTime_ (nHeight e) (Chain.nTime e);
      Some (ok, s)
  end.

(** ** The old modifier *)

(** The [do] loop: the block whose modifier is used, or [Some None] at the end of the chain. *)
Fixpoint old_modifier_loop (fuel : nat) (w : world) (tFrom nStakeModifierTime : Z) (pindexNext : option ptr) : option (option ptr) :=
  match fuel with
  | O => None
  | S fuel =>
      match pindexNext with
      | None => Some None
      | Some pindex =>
          e ← objects (w_index w) !! pindex; f ← w_stakes w !! pindex;
          let nStakeModifierTime := if GeneratedStakeModifier f then Chain.nTime e else nStakeModifierTime in
          if nStakeModifierTime <? tFrom + OLD_MODIFIER_INTERVAL
          then old_modifier_loop fuel w tFrom nStakeModifierTime (Chain.at_height (chainActive w) (nHeight e + 1))
          else Some (Some pindex)
      end
  end.
(** The result and the modifier, which keeps its value 0 on an error. *)
Definition GetOldModifier (w : world) (pFrom : ptr) : option (bool * Z) :=
  e ← objects (w_index w) !! pFrom;
  r ← old_modifier_loop (S (S (length (chainActive w)))) w (Chain.nTime e) (Chain.nTime e) (Chain.at_height (chainActive w) (nHeight e + 1));
  match r with
  | None => Some (false, 0)
  | Some pindex => ep ← objects (w_index w) !! pindex; f ← w_stakes w !! pindex; m ← GetStakeModifierV1 consensus ep f; Some (true, m)
  end.
Definition GetOldStakeModifier (w : world) (s : CPivStake) : option (bool * Z) :=
  r ← GetIndexFrom w s;
  match r.1 with None => Some (false, 0) | Some p => GetOldModifier w p end.

(** ** CStakeKernel *)

Record CStakeKernel : Type := mkKernel {
  stakeModifier : list Z; nTimeBlockFrom : Z; stakeUniqueness : list Z; nTime : Z; nBits : Z; stakeValue : Z
}.

(** The constructor; without the old modifier it goes on with 0. *)
Definition new_kernel (w : world) (pindexPrev : ptr) (s : CPivStake) (nBits_ nTimeTx : Z) : option CStakeKernel :=
  value ← GetValue s;
  e ← objects (w_index w) !! pindexPrev;
  v2 ← NetworkUpgradeActive (nHeight e + 1) consensus UPGRADE_STAKE_MODIFIER_V2;
  modifier ← (if negb v2 then r ← GetOldStakeModifier w s; Some (le_bytes 8 r.2)
              else f ← w_stakes w !! pindexPrev; GetStakeModifierV2 consensus e f);
  r ← GetIndexFrom w s;
  pFrom ← r.1;
  eFrom ← objects (w_index w) !! pFrom;
  Some (mkKernel modifier (Chain.nTime eFrom) (GetUniqueness s) nTimeTx nBits_ value).

(** Times are written as 32-bit integers. *)
Definition kernel_bytes (k : CStakeKernel) : list Z :=
  stakeModifier k ++ le_bytes 4 (nTimeBlockFrom k) ++ stakeUniqueness k ++ le_bytes 4 (nTime k).
Definition kernel_GetHash (k : CStakeKernel) : uint256 := Hash [kernel_bytes k].

(** [bnTarget.SetCompact(nBits); bnTarget *= (uint256(stakeValue) / 100);] *)
Definition weighted_target (k : CStakeKernel) : option (list Z) :=
  let bnTarget := (Arith.SetCompact (nBits k)).1.1 in
  weight ← Arith.op_div (Arith.of_uint64 Arith.WIDTH (stakeValue k mod 2 ^ 64)) (Arith.of_uint64 Arith.WIDTH 100);
  Some (Arith.op_mul bnTarget weight).
Definition CheckKernelHash (k : CStakeKernel) : option bool :=
  bnTarget ← weighted_target k; Some (Arith.CompareTo (limbs_of (kernel_GetHash k)) bnTarget <? 0).

(** ** Staking *)

Definition HASH_DRIFT : Z := 45.

Fixpoint advance (fuel : nat) (nTimeTx slotStep minPast : Z) : option Z :=
  match fuel with
  | O => None
  | S fuel => if nTimeTx <=? minPast then advance fuel (nTimeTx + slotStep) slotStep minPast else Some nTimeTx
  end.
Fixpoint stake_loop (fuel : nat) (w : world) (pindexPrev : ptr) (s : CPivStake) (nBits_ nTimeTx slotStep last : Z) : option (bool * Z) :=
  match fuel with
  | O => None
  | S fuel =>
      if nTimeTx <=? last then
        k ← new_kernel w pindexPrev s nBits_ nTimeTx;
        ok ← CheckKernelHash k;
        if (ok : bool) then Some (true, nTimeTx) else stake_loop fuel w pindexPrev s nBits_ (nTimeTx + slotStep) slotStep last
      else Some (false, nTimeTx)
  end.

(** The result and [nTimeTx].  The fuel is the number of seconds to go, which is enough:
    every step is at least one. *)
Definition Stake (fRegTest : bool) (adjusted : Z) (w : world) (pindexPrev : ptr) (s : CPivStake) (nBits_ : Z) : option (bool * Z) :=
  e ← objects (w_index w) !! pindexPrev;
  let nHeightTx := nHeight e + 1 in
  v2 ← IsTimeProtocolV2 consensus nHeightTx;
  let fTimeProtocolV2 := v2 && negb fRegTest in
  minPast ← MinPastBlockTime consensus (objects (w_index w)) pindexPrev;
  let nTimeTx := if fTimeProtocolV2 then minPast else adjusted in
  c ← ContextCheck w nHeightTx (nTimeTx mod 2 ^ 32) s;
  if negb c.1 then Some (false, nTimeTx)
  else
    let slotStep := if fTimeProtocolV2 then nTimeSlotLength consensus else 1 in
    t ← Retarget.div64 nTimeTx slotStep;
    let nTimeTx := t * slotStep in
    nTimeTx ← advance (S (Z.to_nat (minPast + 1 - nTimeTx))) nTimeTx slotStep minPast;
    last ← (if fTimeProtocolV2 then MaxFutureBlockTime consensus adjusted (objects (w_index w)) pindexPrev else Some (Chain.nTime e + HASH_DRIFT));
    stake_loop (S (Z.to_nat (last + 1 - nTimeTx))) w pindexPrev c.2 nBits_ nTimeTx slotStep last.

(** ** Verification *)

Definition MANDATORY_SCRIPT_VERIFY_FLAGS : Z := Interp.SCRIPT_VERIFY_P2SH.
Definition STANDARD_SCRIPT_VERIFY_FLAGS : Z :=
  MANDATORY_SCRIPT_VERIFY_FLAGS .| Interp.SCRIPT_VERIFY_DERSIG .| Interp.SCRIPT_VERIFY_STRICTENC .| Interp.SCRIPT_VERIFY_MINIMALDATA
  .| Interp.SCRIPT_VERIFY_NULLDUMMY .| Interp.SCRIPT_VERIFY_DISCOURAGE_UPGRADABLE_NOPS .| Interp.SCRIPT_VERIFY_LOW_S.

Definition LoadStakeInput (w : world) (block : Block.CBlock) (pindexPrev : option ptr) : option (bool * CPivStake) :=
  let none := mkStake None tx_null 0 in
  found ← match pindexPrev with
          | None => Some (match mapBlockIndex (w_index w) !! Block.hashPrevBlock (Block.header block) with Some _ => true | None => false end)
          | Some p => e ← objects (w_index w) !! p; Some (bool_decide (Block.hashPrevBlock (Block.header block) = Chain.phashBlock e))
          end;
  if negb found then Some (false, none)
  else if negb (Block.IsProofOfStake block) then Some (false, none)
  else
    tx ← Block.vtx block !! 1%nat;
    txin ← Tx.vin tx !! 0%nat;
    InitFromTxIn w txin.

(** The result and [strError]. *)
Definition CheckProofOfStake (w : world) (block : Block.CBlock) (pindexPrev : ptr) : option (bool * string) :=
  if Block.nTime (Block.header block) <=? nTimeLastCheckpoint then Some (true, ""%string)
  else
    e ← objects (w_index w) !! pindexPrev;
    let nHeight_ := nHeight e + 1 in
    l ← LoadStakeInput w block (Some pindexPrev);
    if negb l.1 then Some (false, "stake input initialization failed"%string)
    else
      c ← ContextCheck w nHeight_ (Block.nTime (Block.header block)) l.2;
      if negb c.1 then Some (false, "stake input failing contextual checks"%string)
      else
        k ← new_kernel w pindexPrev c.2 (Block.nBits (Block.header block)) (Block.nTime (Block.header block));
        ok ← CheckKernelHash k;
        if negb ok then Some (false, "kernel hash check fails"%string)
        else
          match GetTxOutFrom c.2 with
          | None => Some (false, "unable to get stake prevout for coinstake"%string)
          | Some stakePrevout =>
              tx ← Block.vtx block !! 1%nat;
              txin ← Tx.vin tx !! 0%nat;
              r ← Interp.VerifyScript (checker := SigHash.checker_of Verify (SigHash.mkChecker tx 0 (Tx.nValue stakePrevout) None))
                    ripemd160 sha1 CheckLowS (Tx.scriptSig txin) (Tx.scriptPubKey stakePrevout) STANDARD_SCRIPT_VERIFY_FLAGS;
              match r with
              | inl _ => Some (false, "signature fails"%string)
              | inr _ => Some (true, ""%string)
              end
          end.

(** The hash, if the kernel can be initialized. *)
Definition GetStakeKernelHash (w : world) (block : Block.CBlock) (pindexPrev : ptr) : option (option uint256) :=
  l ← LoadStakeInput w block (Some pindexPrev);
  if negb l.1 then Some None
  else k ← new_kernel w pindexPrev l.2 (Block.nBits (Block.header block)) (Block.nTime (Block.header block)); Some (Some (kernel_GetHash k)).

(** ** The kernel hash *)

(** The target of a kernel, as a number: the product is taken modulo 2^256. *)
Definition target (k : CStakeKernel) : Z := Arith.compact_abs (nBits k) mod 2 ^ 256 * (stakeValue k / 100).

(** A kernel as the constructor makes it. *)
Record kernel_ok (k : CStakeKernel) : Prop := {
  kernel_modifier : Forall byte (stakeModifier k) ∧ (length (stakeModifier k) <= 32)%nat;
  kernel_uniqueness : Forall byte (stakeUniqueness k) ∧ (length (stakeUniqueness k) <= 36)%nat;
  kernel_bits : word 32 (nBits k);
  kernel_value : 0 <= stakeValue k < 2 ^ 63
}.

Lemma kernel_hash_ok k : kernel_ok k → hash_ok (kernel_GetHash k).
Proof.
  intros [[Hm1 Hm2] [Hu1 Hu2] _ _]. apply Hash_ok.
  - apply Forall_cons_2; [|apply Forall_nil_2]. unfold kernel_bytes. rewrite !Forall_app. split_and!; try done; apply le_bytes_byte.
  - cbn [concat]. unfold kernel_bytes. rewrite app_nil_r, !length_app, !length_le_bytes. lia.
Qed.

Lemma weighted_target_spec k : kernel_ok k →
  ∃ t, weighted_target k = Some t ∧ Forall (word 32) t ∧ length t = 8%nat ∧ Arith.val t = target k mod 2 ^ 256.
Proof.
  intros [_ _ Hb Hv]. unfold weighted_target. pose proof (Arith.SetCompact_spec (nBits k) Hb) as Hc.
  destruct (Arith.SetCompact (nBits k)) as [[t neg] ovf]. destruct Hc as (T1 & T2 & T3 & _). cbn [fst].
  rewrite Z.mod_small by lia.
  destruct (Arith.of_uint64_spec Arith.WIDTH (stakeValue k) ltac:(unfold Arith.WIDTH; lia) ltac:(unfold word; lia)) as (V1 & V2 & V3).
  destruct (Arith.of_uint64_spec Arith.WIDTH 100 ltac:(unfold Arith.WIDTH; lia) ltac:(unfold word; lia)) as (H1 & H2 & H3).
  pose proof (Arith.op_div_spec _ _ V1 H1 ltac:(congruence)) as Hd. destruct (Arith.op_div _ _) as [q|]; [|rewrite H3 in Hd; done].
  destruct Hd as (_ & Q1 & Q2 & Q3). cbn [mbind option_bind]. destruct (Arith.op_mul_spec t q T1 Q1 ltac:(congruence)) as (M1 & M2 & M3).
  eexists. split; [done|]. split; [done|]. split; [by rewrite M2, T2|]. rewrite M3, T3, Q3, V3, H3. unfold Arith.modulus. rewrite T2. done.
Qed.
Lemma CheckKernelHash_spec k : kernel_ok k → CheckKernelHash k = Some (le_word (kernel_GetHash k) <? target k mod 2 ^ 256).
Proof.
  intros Hk. unfold CheckKernelHash. destruct (weighted_target_spec k Hk) as (t & -> & T1 & T2 & T3). cbn [mbind option_bind].
  destruct (limbs_of_spec _ (kernel_hash_ok k Hk)) as (L1 & L2 & L3). rewrite Arith.CompareTo_spec by (done || congruence). rewrite L3, T3.
  unfold Z.ltb at 2. by destruct (_ ?= _).
Qed.

(** ** Kernels of a well-formed state *)

Record world_ok (w : world) : Prop := {
  world_index : sindex_ok consensus (mkSIndex (w_index w) (w_stakes w));
  world_chain : ∃ tip, Chain.branch_of (objects (w_index w)) tip (chainActive w)
}.

(** A stake input that was found: its block is in the active chain, and the output exists. *)
Record stake_ok (w : world) (s : CPivStake) (eFrom : Chain.CBlockIndex) (out : CTxOut) : Prop := {
  stake_from : ∃ p, pindexFrom s = Some p ∧ objects (w_index w) !! p = Some eFrom;
  stake_out : Tx.vout (txFrom s) !! Z.to_nat (nPosition s) = Some out;
  stake_position : 0 <= nPosition s;
  stake_value : 0 <= Tx.nValue out < 2 ^ 63;
  stake_hash : hash_ok (Tx.GetHash (txFrom s))
}.

Section World.
Context (w : world) (Hw : world_ok w).

Lemma w_linked : Chain.linked (objects (w_index w)).
Proof using Hw. exact (Chain.ok_linked _ (sok_index _ _ (world_index _ Hw))). Qed.
Lemma w_fields p e : objects (w_index w) !! p = Some e → ∃ f, w_stakes w !! p = Some f ∧ entry_fields consensus e f.
Proof using Hw. exact (sok_fields _ _ (world_index _ Hw) p e). Qed.
Lemma w_at h q : Chain.at_height (chainActive w) h = Some q → 0 <= h < Z.of_nat (length (chainActive w)) ∧ ∃ e, objects (w_index w) !! q = Some e ∧ nHeight e = h.
Proof using Hw.
  intros [Hh Hl]%Chain.at_height_Some. pose proof (lookup_lt_Some _ _ _ Hl). split; [lia|]. destruct (world_chain _ Hw) as ([t|] & Hb).
  - destruct Hb as (et & Het & Hlen & Hi). destruct (Hi (Z.to_nat h) ltac:(lia)) as (q' & Hq' & _ & e & He & Hhe). simplify_eq. exists e. split; [done|lia].
  - cbn in Hb. by rewrite Hb in Hl.
Qed.

Lemma opt_self {A} (o : option A) : match o with Some q => o = Some q | None => True end.
Proof. by destruct o. Qed.
Lemma old_loop_total tFrom fuel : ∀ t next h,
  match next with Some q => Chain.at_height (chainActive w) h = Some q | None => True end → (Z.to_nat (Z.of_nat (length (chainActive w)) - h) < fuel)%nat →
  ∃ r, old_modifier_loop fuel w tFrom t next = Some r ∧ match r with Some p => is_Some (objects (w_index w) !! p) | None => True end.
Proof using Hw.
  induction fuel as [|fuel IH]; intros t next h Hn Hf; [lia|]. cbn [old_modifier_loop]. destruct next as [p|]; [|by exists None].
  destruct (w_at h p Hn) as (Hr & e & He & Hhe). destruct (w_fields p e He) as (f & Ef & _). rewrite He. cbn [mbind option_bind]. rewrite Ef. cbn [mbind option_bind].
  destruct (_ <? _); [|exists (Some p); by rewrite He]. apply (IH _ _ (nHeight e + 1)); [apply opt_self|lia].
Qed.
Lemma GetOldModifier_total p e : objects (w_index w) !! p = Some e → ∃ r, GetOldModifier w p = Some r.
Proof using Hw.
  intros He. unfold GetOldModifier. rewrite He. cbn [mbind option_bind]. pose proof (Chain.entry_height _ w_linked p e He).
  destruct (old_loop_total (Chain.nTime e) (S (S (length (chainActive w)))) (Chain.nTime e) (Chain.at_height (chainActive w) (nHeight e + 1)) (nHeight e + 1)) as (r & -> & Hr);
    [by destruct (Chain.at_height _ _)|lia|]. cbn [mbind option_bind]. destruct r as [q|]; [|by eexists]. destruct Hr as [eq Heq]. rewrite Heq. cbn [mbind option_bind].
  destruct (w_fields q eq Heq) as (f & Ef & Hf). rewrite Ef. cbn [mbind option_bind]. pose proof (Chain.entry_height _ w_linked q eq Heq).
  destruct (GetStakeModifierV1_total consensus eq f Hf ltac:(lia)) as (m & ->). by eexists.
Qed.

(** Only time and target of a kernel depend on them. *)
Lemma new_kernel_spec prev ePrev s eFrom out :
  objects (w_index w) !! prev = Some ePrev → stake_ok w s eFrom out →
  ∃ modifier, ∀ bits t, new_kernel w prev s bits t = Some (mkKernel modifier (Chain.nTime eFrom) (GetUniqueness s) t bits (Tx.nValue out)) ∧
    (word 32 bits → kernel_ok (mkKernel modifier (Chain.nTime eFrom) (GetUniqueness s) t bits (Tx.nValue out))).
Proof using Hw.
  intros He [(p & Hp & Hep) Hout Hpos Hval Hhash]. unfold new_kernel, GetValue, GetOldStakeModifier, GetIndexFrom. rewrite Hout, He, Hp. cbn [fmap option_fmap option_map mbind option_bind fst].
  pose proof (Chain.entry_height _ w_linked prev ePrev He) as Hh.
  destruct (Retarget.upgrade_Some consensus (nHeight ePrev + 1) UPGRADE_STAKE_MODIFIER_V2 ltac:(lia)) as (v2 & ->). cbn [mbind option_bind].
  assert (∃ modifier, (if negb v2 then r ← GetOldModifier w p; Some (le_bytes 8 r.2) else f ← w_stakes w !! prev; GetStakeModifierV2 consensus ePrev f) = Some modifier ∧
    Forall byte modifier ∧ (length modifier <= 32)%nat) as (modifier & Em & Hm1 & Hm2).
  { destruct v2; cbn [negb].
    - destruct (w_fields prev ePrev He) as (f & -> & Hf). cbn [mbind option_bind]. destruct (GetStakeModifierV2_total consensus ePrev f Hf ltac:(lia)) as (m & -> & Hl & Hb).
      exists m. split; [done|]. split; [done|]. by rewrite Hl.
    - destruct (GetOldModifier_total p eFrom Hep) as (r & ->). cbn [mbind option_bind]. eexists. split; [done|]. split; [apply le_bytes_byte|]. rewrite length_le_bytes. lia. }
  exists modifier. intros bits t. rewrite Em. cbn [mbind option_bind]. rewrite Hep. cbn [mbind option_bind]. split; [done|]. intros Hb. split; cbn [stakeModifier stakeUniqueness nBits stakeValue]; try done.
  unfold GetUniqueness. rewrite Forall_app, length_app, length_le_bytes, (proj1 Hhash). split; [|lia]. split; [apply le_bytes_byte|exact (proj2 Hhash)].
Qed.
End World.

(** ** The search *)

Definition passes (w : world) (prev : ptr) (s : CPivStake) (bits t : Z) : Prop :=
  ∃ k, new_kernel w prev s bits t = Some k ∧ CheckKernelHash k = Some true.

(** The times that are tried: multiples of [step] from [t0] on, in the window. *)
Definition slot (step t0 minPast last u : Z) : Prop := u mod step = 0 ∧ t0 <= u ∧ minPast < u <= last.

Lemma advance_spec step minPast fuel : ∀ t, 1 <= step → (Z.to_nat (minPast + 1 - t) < fuel)%nat →
  ∃ n, 0 <= n ∧ advance fuel t step minPast = Some (t + n * step) ∧ minPast < t + n * step ∧ ∀ j, 0 <= j < n → t + j * step <= minPast.
Proof.
  induction fuel as [|fuel IH]; intros t Hs Hf; [lia|]. cbn [advance]. destruct (Z.leb_spec t minPast).
  - destruct (IH (t + step) Hs ltac:(lia)) as (n & Hn & E & Hgt & Hlt). exists (n + 1). split; [lia|]. rewrite E. split; [f_equal; lia|]. split; [lia|].
    intros j Hj. destruct (decide (j = 0)) as [->|]; [lia|]. specialize (Hlt (j - 1) ltac:(lia)). lia.
  - exists 0. split; [lia|]. split; [f_equal; lia|]. split; [lia|]. lia.
Qed.

Lemma stake_loop_spec w prev s bits step last (Hd : ∀ t, ∃ k b, new_kernel w prev s bits t = Some k ∧ CheckKernelHash k = Some b) fuel : ∀ t,
  1 <= step → (Z.to_nat (last + 1 - t) < fuel)%nat →
  ∃ b n, 0 <= n ∧ stake_loop fuel w prev s bits t step last = Some (b, t + n * step) ∧ (∀ j, 0 <= j < n → ¬ passes w prev s bits (t + j * step)) ∧
    (if (b : bool) then t + n * step <= last ∧ passes w prev s bits (t + n * step) else last < t + n * step).
Proof.
  induction fuel as [|fuel IH]; intros t Hs Hf; [lia|]. cbn [stake_loop]. destruct (Z.leb_spec t last).
  - destruct (Hd t) as (k & b & Ek & Eb). rewrite Ek. cbn [mbind option_bind]. rewrite Eb. cbn [mbind option_bind]. destruct b.
    + exists true, 0. split; [lia|]. split; [do 2 f_equal; lia|]. split; [lia|]. replace (t + 0 * step) with t by lia. split; [done|]. by exists k.
    + destruct (IH (t + step) Hs ltac:(lia)) as (b & n & Hn & E & Hno & Hb). exists b, (n + 1). replace (t + (n + 1) * step) with (t + step + n * step) by lia.
      split; [lia|]. split; [done|]. split; [|done]. intros j Hj. destruct (decide (j = 0)) as [->|].
      * replace (t + 0 * step) with t by lia. intros (k' & Ek' & Eb'). congruence.
      * replace (t + j * step) with (t + step + (j - 1) * step) by lia. apply Hno. lia.
  - exists false, 0. split; [lia|]. split; [do 2 f_equal; lia|]. split; lia.
Qed.

(** The two loops of [Stake] on aligned times. *)
Lemma search_spec w prev s bits step t0 minPast last :
  (∀ t, ∃ k b, new_kernel w prev s bits t = Some k ∧ CheckKernelHash k = Some b) → 1 <= step → t0 mod step = 0 →
  ∃ b t, (u ← advance (S (Z.to_nat (minPast + 1 - t0))) t0 step minPast; stake_loop (S (Z.to_nat (last + 1 - u))) w prev s bits u step last) = Some (b, t) ∧
    if (b : bool) then slot step t0 minPast last t ∧ passes w prev s bits t ∧ (∀ u, slot step t0 minPast last u → u < t → ¬ passes w prev s bits u)
    else ∀ u, slot step t0 minPast last u → ¬ passes w prev s bits u.
Proof.
  intros Hd Hs Hm. destruct (advance_spec step minPast (S (Z.to_nat (minPast + 1 - t0))) t0 Hs ltac:(lia)) as (n & Hn & -> & Hgt & Hlt). cbn [mbind option_bind].
  destruct (stake_loop_spec w prev s bits step last Hd (S (Z.to_nat (last + 1 - (t0 + n * step)))) (t0 + n * step) Hs ltac:(lia)) as (b & m & Hm0 & -> & Hno & Hb).
  exists b, (t0 + n * step + m * step). split; [done|].
  assert (Hu : ∀ u, slot step t0 minPast last u → ∃ j, 0 <= j ∧ u = t0 + n * step + j * step).
  { intros u (Hu1 & Hu2 & Hu3). apply Z.mod_divide in Hu1 as [a ->]; [|lia]. apply Z.mod_divide in Hm as [c ->]; [|lia]. exists (a - c - n). split; [|lia].
    destruct (Z.le_gt_cases 0 (a - c - n)) as [|Hneg]; [done|]. specialize (Hlt (a - c) ltac:(nia)). lia. }
  assert (Hno' : ∀ u, slot step t0 minPast last u → u < t0 + n * step + m * step → ¬ passes w prev s bits u).
  { intros u Hsu Hlu. destruct (Hu u Hsu) as (j & Hj & ->). apply Hno. nia. }
  destruct b.
  - destruct Hb as [Hb1 Hb2]. split; [|by split]. split; [|nia]. rewrite <- Z.add_assoc, <- Z.mul_add_distr_r, Z.mod_add by lia. done.
  - intros u Hsu. apply Hno'; [done|]. destruct Hsu as (_ & _ & _ & Hl). lia.
Qed.

(** ** The parameters are defined *)

Lemma drift_total h : 0 <= h → ∃ d, FutureBlockTimeDrift consensus h = Some d.
Proof.
  intros Hh. unfold FutureBlockTimeDrift, IsTimeProtocolV2. destruct (Retarget.upgrade_Some consensus h UPGRADE_TIME_PROTOCOL_V2 Hh) as ([] & ->); [by eexists|].
  destruct (Retarget.upgrade_Some consensus h UPGRADE_POS Hh) as (b & ->). by eexists.
Qed.
Lemma HasStake_total h t uh ut : 0 <= h → ∃ b, HasStakeMinAgeOrDepth consensus h t uh ut = Some b.
Proof.
  intros Hh. unfold HasStakeMinAgeOrDepth. destruct (Retarget.upgrade_Some consensus h UPGRADE_STAKE_MODIFIER_V2 Hh) as ([] & ->); [|by eexists].
  destruct (Retarget.upgrade_Some consensus h UPGRADE_STAKE_MIN_DEPTH_V2 Hh) as (b & ->). by eexists.
Qed.
Lemma MinPast_total hp p e : Chain.linked hp → hp !! p = Some e → ∃ m, MinPastBlockTime consensus hp p = Some m.
Proof.
  intros Hok He. pose proof (Chain.entry_height hp Hok p e He) as Hh. unfold MinPastBlockTime. rewrite He. cbn [mbind option_bind]. unfold IsTimeProtocolV2.
  destruct (Retarget.upgrade_Some consensus (Chain.nHeight e + 1) UPGRADE_TIME_PROTOCOL_V2 ltac:(lia)) as ([] & Ev); rewrite Ev; cbn [mbind option_bind negb].
  - destruct (_ =? _); [|by eexists]. destruct (drift_total (Chain.nHeight e) ltac:(lia)) as (d & ->), (drift_total (Chain.nHeight e + 1) ltac:(lia)) as (d' & ->). by eexists.
  - destruct (median_defined hp p e Hok He) as (ts & m & E & Hm). exists m. unfold GetMedianTimePast. by rewrite E.
Qed.
Lemma ContextCheck_spec w s eFrom out h t :
  0 <= h → stake_ok w s eFrom out →
  ∃ b, HasStakeMinAgeOrDepth consensus h t (nHeight eFrom) (Chain.nTime eFrom) = Some b ∧ ContextCheck w h t s = Some (b, s).
Proof.
  intros Hh [(p & Hp & He) _ _ _ _]. unfold ContextCheck, GetIndexFrom. rewrite Hp. cbn [mbind option_bind]. rewrite He. cbn [mbind option_bind].
  destruct (HasStake_total h t (nHeight eFrom) (Chain.nTime eFrom) Hh) as (b & ->). by exists b.
Qed.

(** ** Main results *)

(** The step of the search, and the last time it tries. *)
Definition slot_step (v : bool) : Z := if v then nTimeSlotLength consensus else 1.
Definition last_time (v : bool) (adjusted : Z) (e : Chain.CBlockIndex) (hp : Chain.heap) (prev : ptr) : option Z :=
  if v then MaxFutureBlockTime consensus adjusted hp prev else Some (Chain.nTime e + HASH_DRIFT).

(** The parameters of time are of type [int], and a slot is at least a second. *)
Record time_params : Prop := {
  param_slot : 1 <= nTimeSlotLength consensus < 2 ^ 31;
  param_pos : 0 <= nFutureTimeDriftPoS consensus < 2 ^ 31;
  param_pow : 0 <= nFutureTimeDriftPoW consensus < 2 ^ 31
}.

Lemma drift_bound h d : time_params → FutureBlockTimeDrift consensus h = Some d → 0 <= d < 2 ^ 31.
Proof.
  intros [Hs Hp Hw]. unfold FutureBlockTimeDrift. destruct (IsTimeProtocolV2 consensus h) as [[]|]; intros H; [injection H as <-; lia| |done].
  destruct (NetworkUpgradeActive h consensus UPGRADE_POS) as [[]|]; cbn in H; simplify_eq; lia.
Qed.
Lemma MinPast_bound hp p e m : time_params → hp !! p = Some e → word 32 (Chain.nTime e) →
  IsTimeProtocolV2 consensus (Chain.nHeight e + 1) = Some true → MinPastBlockTime consensus hp p = Some m → - 2 ^ 33 <= m < 2 ^ 33.
Proof.
  intros Hp He Ht Hv. unfold MinPastBlockTime. rewrite He. cbn [mbind option_bind]. rewrite Hv. cbn [mbind option_bind negb]. unfold word in Ht. destruct (_ =? _); [|intros H; simplify_eq; lia].
  destruct (FutureBlockTimeDrift consensus (Chain.nHeight e)) as [d|] eqn:E1; cbn [mbind option_bind]; [|done].
  destruct (FutureBlockTimeDrift consensus (Chain.nHeight e + 1)) as [d'|] eqn:E2; cbn [mbind option_bind]; [|done].
  apply (drift_bound _ _ Hp) in E1, E2. intros H. simplify_eq. lia.
Qed.
Lemma quot_bound x y : 1 <= y → Z.abs (Z.quot x y) <= Z.abs x.
Proof.
  intros Hy. rewrite <- Z.quot_abs by lia. rewrite (Z.abs_eq y) by lia. rewrite Z.quot_div_nonneg by lia. apply Z.div_le_upper_bound; [lia|]. pose proof (Z.abs_nonneg x). nia.
Qed.

Lemma Stake_spec fRegTest adjusted w prev e s eFrom out bits :
  time_params → world_ok w → objects (w_index w) !! prev = Some e → stake_ok w s eFrom out → word 32 bits → 0 <= adjusted < 2 ^ 62 →
  ∃ v2 minPast last b t ctx, IsTimeProtocolV2 consensus (nHeight e + 1) = Some v2 ∧ MinPastBlockTime consensus (objects (w_index w)) prev = Some minPast ∧
    let v := v2 && negb fRegTest in let from := if v then minPast else adjusted in let t0 := Z.quot from (slot_step v) * slot_step v in
    last_time v adjusted e (objects (w_index w)) prev = Some last ∧
    HasStakeMinAgeOrDepth consensus (nHeight e + 1) (from mod 2 ^ 32) (nHeight eFrom) (Chain.nTime eFrom) = Some ctx ∧
    Stake fRegTest adjusted w prev s bits = Some (b, t) ∧
    if (b : bool) then ctx = true ∧ slot (slot_step v) t0 minPast last t ∧ passes w prev s bits t ∧ (∀ u, slot (slot_step v) t0 minPast last u → u < t → ¬ passes w prev s bits u)
    else ctx = true → ∀ u, slot (slot_step v) t0 minPast last u → ¬ passes w prev s bits u.
Proof.
  intros Hp Hw He Hs Hb Ha. pose proof (w_linked w Hw) as Hok. pose proof (Chain.entry_height _ Hok prev e He) as Hh.
  pose proof (Chain.ok_time _ (sok_index _ _ (world_index _ Hw)) prev e He) as Ht.
  destruct (Retarget.upgrade_Some consensus (nHeight e + 1) UPGRADE_TIME_PROTOCOL_V2 ltac:(lia)) as (v2 & Ev).
  destruct (MinPast_total _ prev e Hok He) as (minPast & Em). set (v := v2 && negb fRegTest). set (from := if v then minPast else adjusted).
  assert (Hfrom : Z.abs from < 2 ^ 63).
  { subst from. destruct v eqn:E; [|lia]. apply andb_true_iff in E as [-> _]. pose proof (MinPast_bound _ prev e minPast Hp He Ht Ev Em). lia. }
  assert (∃ last, last_time v adjusted e (objects (w_index w)) prev = Some last) as (last & El).
  { unfold last_time. destruct v; [|by eexists]. unfold MaxFutureBlockTime. rewrite He. cbn [mbind option_bind]. destruct (drift_total (nHeight e + 1) ltac:(lia)) as (d & ->). by eexists. }
  destruct (ContextCheck_spec w s eFrom out (nHeight e + 1) (from mod 2 ^ 32) ltac:(lia) Hs) as (ctx & Ectx & Ec).
  assert (Hstep : 1 <= slot_step v) by (unfold slot_step; destruct Hp; destruct v; lia).
  destruct (new_kernel_spec w Hw prev e s eFrom out He Hs) as (modifier & Hk).
  destruct (search_spec w prev s bits (slot_step v) (Z.quot from (slot_step v) * slot_step v) minPast last) as (b & t & Est & Hres); [|done|by apply Z.mod_mul; lia|].
  { intros t. destruct (Hk bits t) as [Ek Hok']. eexists _, _. split; [exact Ek|]. apply CheckKernelHash_spec. by apply Hok'. }
  assert (Estake : Stake fRegTest adjusted w prev s bits = if ctx then Some (b, t) else Some (false, from)).
  { unfold Stake. rewrite He. cbn [mbind option_bind]. unfold IsTimeProtocolV2. rewrite Ev. cbn [mbind option_bind]. rewrite Em. cbn [mbind option_bind]. fold v. fold from.
    rewrite Ec. cbn [mbind option_bind fst snd]. destruct ctx; cbn [negb]; [|done]. fold (slot_step v).
    assert (Eq : Retarget.div64 from (slot_step v) = Some (Z.quot from (slot_step v))).
    { unfold Retarget.div64. rewrite (proj2 (Z.eqb_neq _ _)) by lia. apply Retarget.i64_Some. pose proof (quot_bound from (slot_step v) Hstep). lia. }
    rewrite Eq. cbn [mbind option_bind]. unfold last_time in El. rewrite <- Est. destruct (advance _ _ _ _); cbn [mbind option_bind]; [|done]. by rewrite El. }
  exists v2, minPast, last, (if ctx then b else false), (if ctx then t else from), ctx. split; [done|]. split; [done|]. cbv zeta. fold v. fold from. split; [done|]. split; [done|].
  split; [rewrite Estake; by destruct ctx|]. destruct ctx; [|done]. destruct b; [by split|done].
Qed.

(** The kernel with another value of the coin. *)
Definition with_value (v : Z) (k : CStakeKernel) : CStakeKernel :=
  mkKernel (stakeModifier k) (nTimeBlockFrom k) (stakeUniqueness k) (nTime k) (nBits k) v.
Lemma with_value_ok v k : kernel_ok k → stakeValue k <= v < 2 ^ 63 → kernel_ok (with_value v k).
Proof. intros [? ? ? ?] Hv. split; cbn [with_value stakeModifier stakeUniqueness nBits stakeValue]; try done. lia. Qed.
Lemma with_value_hash v k : kernel_GetHash (with_value v k) = kernel_GetHash k.
Proof. unfold kernel_GetHash. assert (E : kernel_bytes (with_value v k) = kernel_bytes k) by reflexivity. by rewrite E. Qed.
Lemma target_mono v k : kernel_ok k → stakeValue k <= v < 2 ^ 63 → 0 <= target k <= target (with_value v k).
Proof.
  intros Hk Hv. unfold target. cbn [with_value nBits stakeValue]. pose proof (Z.mod_pos_bound (Arith.compact_abs (nBits k)) (2 ^ 256) ltac:(lia)). pose proof (kernel_value _ Hk).
  pose proof (Z.div_le_mono (stakeValue k) v 100 ltac:(lia) ltac:(lia)). pose proof (Z.div_pos (stakeValue k) 100 ltac:(lia) ltac:(lia)). nia.
Qed.

(** [CheckKernelHash] compares the hash of the kernel with the target times the weight of the coin, modulo 2^256; as long as the
    product stays below 2^256, a coin of more value meets every target that one of less value meets. *)
Theorem CheckKernelHash_correct k v :
  kernel_ok k → stakeValue k <= v < 2 ^ 63 →
  CheckKernelHash k = Some (le_word (kernel_GetHash k) <? target k mod 2 ^ 256) ∧
  (target (with_value v k) < 2 ^ 256 →
   CheckKernelHash k = Some (le_word (kernel_GetHash k) <? target k) ∧ (CheckKernelHash k = Some true → CheckKernelHash (with_value v k) = Some true)).
Proof.
  intros Hk Hv. pose proof (CheckKernelHash_spec k Hk) as E. split; [exact E|]. intros Ht. pose proof (CheckKernelHash_spec _ (with_value_ok v k Hk Hv)) as E'.
  pose proof (target_mono v k Hk Hv) as Hle. rewrite (Z.mod_small (target k)) in E by lia. rewrite (Z.mod_small (target (with_value v k))) in E' by lia.
  rewrite with_value_hash in E'. split; [exact E|]. rewrite E, E'. clear E E' Hk. generalize (le_word (kernel_GetHash k)). intros h H.
  apply (f_equal (default false)) in H. cbn [default from_option id] in H. apply Z.ltb_lt in H. f_equal. apply Z.ltb_lt. lia.
Qed.

(** At the easiest target of the second protocol, a coin of 1099511.627776 coins has weight 2^40 and a weighted target of 0: it never stakes. *)
Example kernel_weight_wraps k : kernel_ok k → nBits k = 0x1e0fffff → stakeValue k = 109951162777600 → CheckKernelHash k = Some false.
Proof.
  intros Hk Hb Hv. rewrite (CheckKernelHash_spec k Hk). unfold target. rewrite Hb, Hv. f_equal. apply Z.ltb_ge.
  change (Arith.compact_abs 0x1e0fffff mod 2 ^ 256 * (109951162777600 / 100) mod 2 ^ 256) with 0.
  destruct (kernel_hash_ok k Hk) as [_ Hby]. pose proof (le_word_bound _ Hby) as Hw. unfold word in Hw. lia.
Qed.

(** C29: [Stake] always ends.  It finds a time exactly when the coin passes the contextual checks and some time of the window that
    is aligned to the slots gives a kernel below the target, and then it returns the first such time. *)
Theorem Stake_correct fRegTest adjusted w prev e s eFrom out bits :
  time_params → world_ok w → objects (w_index w) !! prev = Some e → stake_ok w s eFrom out → word 32 bits → 0 <= adjusted < 2 ^ 62 →
  ∃ v2 minPast last b t ctx, IsTimeProtocolV2 consensus (nHeight e + 1) = Some v2 ∧ MinPastBlockTime consensus (objects (w_index w)) prev = Some minPast ∧
    let v := v2 && negb fRegTest in let from := if v then minPast else adjusted in let t0 := Z.quot from (slot_step v) * slot_step v in
    last_time v adjusted e (objects (w_index w)) prev = Some last ∧
    HasStakeMinAgeOrDepth consensus (nHeight e + 1) (from mod 2 ^ 32) (nHeight eFrom) (Chain.nTime eFrom) = Some ctx ∧
    Stake fRegTest adjusted w prev s bits = Some (b, t) ∧
    if (b : bool) then ctx = true ∧ slot (slot_step v) t0 minPast last t ∧ passes w prev s bits t ∧ (∀ u, slot (slot_step v) t0 minPast last u → u < t → ¬ passes w prev s bits u)
    else ctx = true → ∀ u, slot (slot_step v) t0 minPast last u → ¬ passes w prev s bits u.
Proof. apply Stake_spec. Qed.

(** The verdict on a block whose stake input and kernel are fine: that of the script. *)
Definition script_verdict (tx : CTransaction) (txin : Tx.CTxIn) (out : CTxOut) : option (bool * string) :=
  r ← Interp.VerifyScript (checker := SigHash.checker_of Verify (SigHash.mkChecker tx 0 (Tx.nValue out) None))
        ripemd160 sha1 CheckLowS (Tx.scriptSig txin) (Tx.scriptPubKey out) STANDARD_SCRIPT_VERIFY_FLAGS;
  match r with inl _ => Some (false, "signature fails"%string) | inr _ => Some (true, ""%string) end.

(** A block on [prev] with the coinstake [tx], whose first input is [txin]. *)
Record stakes_on (block : Block.CBlock) (e : Chain.CBlockIndex) (tx : CTransaction) (txin : Tx.CTxIn) (bits t : Z) : Prop := {
  on_prev : Block.hashPrevBlock (Block.header block) = Chain.phashBlock e;
  on_bits : Block.nBits (Block.header block) = bits;
  on_time : Block.nTime (Block.header block) = t;
  on_pos : Block.IsProofOfStake block = true;
  on_tx : Block.vtx block !! 1%nat = Some tx;
  on_txin : Tx.vin tx !! 0%nat = Some txin
}.

Lemma LoadStakeInput_on w block e prev tx txin bits t :
  objects (w_index w) !! prev = Some e → stakes_on block e tx txin bits t → LoadStakeInput w block (Some prev) = InitFromTxIn w txin.
Proof.
  intros He [H1 H2 H3 H4 H5 H6]. unfold LoadStakeInput. rewrite He. cbn [mbind option_bind]. rewrite bool_decide_eq_true_2 by done. cbn [negb]. rewrite H4. cbn [negb].
  rewrite H5. cbn [mbind option_bind]. by rewrite H6.
Qed.
Lemma GetTxOutFrom_ok w s eFrom out : stake_ok w s eFrom out → GetTxOutFrom s = Some out.
Proof.
  intros [_ Ho Hp _ _]. unfold GetTxOutFrom. pose proof (lookup_lt_Some _ _ _ Ho). unfold tx_IsNull.
  destruct (Z.geb_spec (nPosition s) (Z.of_nat (length (Tx.vout (txFrom s))))); [lia|].
  destruct (Tx.vin (txFrom s)), (Tx.vout (txFrom s)) eqn:E; cbn [orb]; try done; cbn in *; lia.
Qed.
Lemma CheckProofOfStake_ok w block e prev tx txin bits t s eFrom out :
  nTimeLastCheckpoint < t → objects (w_index w) !! prev = Some e → 0 <= nHeight e → stakes_on block e tx txin bits t → InitFromTxIn w txin = Some (true, s) → stake_ok w s eFrom out →
  HasStakeMinAgeOrDepth consensus (nHeight e + 1) t (nHeight eFrom) (Chain.nTime eFrom) = Some true → passes w prev s bits t →
  CheckProofOfStake w block prev = script_verdict tx txin out.
Proof.
  intros Hc He Hh Hon Hi Hs Hage (k & Ek & Eck). unfold CheckProofOfStake. rewrite (LoadStakeInput_on w block e prev tx txin bits t He Hon). destruct Hon as [H1 H2 H3 H4 H5 H6]. rewrite H3.
  destruct (Z.leb_spec t nTimeLastCheckpoint); [lia|]. rewrite He. cbn [mbind option_bind]. rewrite Hi. cbn [mbind option_bind fst snd negb].
  destruct (ContextCheck_spec w s eFrom out (nHeight e + 1) t ltac:(lia) Hs) as (b & Eb & ->). rewrite Hage in Eb. injection Eb as <-. cbn [mbind option_bind fst snd negb].
  rewrite H2, Ek. cbn [mbind option_bind]. rewrite Eck. cbn [mbind option_bind negb]. rewrite (GetTxOutFrom_ok w s eFrom out Hs), H5. cbn [mbind option_bind]. by rewrite H6.
Qed.

(** C5: What the staker finds, the network accepts: a block with the time that [Stake] returned passes [CheckProofOfStake] up to the verdict on its script,
    and its time is aligned to the slots and later than the past. *)
Theorem staked_block_accepted adjusted w block prev e tx txin bits t s eFrom out minPast :
  time_params → world_ok w → objects (w_index w) !! prev = Some e → stakes_on block e tx txin bits t → InitFromTxIn w txin = Some (true, s) → stake_ok w s eFrom out →
  word 32 bits → 0 <= adjusted < 2 ^ 62 → MinPastBlockTime consensus (objects (w_index w)) prev = Some minPast → 0 <= minPast → nTimeLastCheckpoint < t →
  Stake false adjusted w prev s bits = Some (true, t) →
  CheckProofOfStake w block prev = script_verdict tx txin out ∧ IsValidBlockTimeStamp consensus t (nHeight e + 1) = Some true ∧ minPast < t.
Proof.
  intros Hp Hw He Hon Hi Hs Hb Ha Hm Hm0 Hc Hst. pose proof (Chain.entry_height _ (w_linked w Hw) prev e He) as Hh.
  destruct (Stake_spec false adjusted w prev e s eFrom out bits Hp Hw He Hs Hb Ha) as (v2 & minPast' & last & b & t' & ctx & Ev & Hm' & Hr). cbv zeta in Hr. rewrite andb_true_r in Hr.
  destruct Hr as (El & Ectx & Est & Hr). rewrite Hst in Est. injection Est as <- <-. rewrite Hm in Hm'. injection Hm' as <-. destruct Hr as (-> & (Hs1 & Hs2 & Hs3) & Hpass & _).
  set (from := if v2 then minPast else adjusted) in *. assert (Hf : 0 <= from) by (subst from; destruct v2; lia). assert (Hft : from <= t).
  { subst from. unfold slot_step in *. destruct v2; [lia|]. rewrite Z.quot_1_r in Hs2. lia. }
  split; [|split; [|lia]].
  - apply (CheckProofOfStake_ok w block e prev tx txin bits t s eFrom out); try done; [lia|].
    unfold HasStakeMinAgeOrDepth in *. destruct (NetworkUpgradeActive (nHeight e + 1) consensus UPGRADE_STAKE_MODIFIER_V2) as [[]|]; [done| |done].
    apply (f_equal (default false)) in Ectx. cbn [default from_option id] in Ectx. apply Z.leb_le in Ectx. f_equal. apply Z.leb_le. pose proof (Z.mod_le from (2 ^ 32) Hf ltac:(lia)). lia.
  - unfold IsValidBlockTimeStamp. rewrite Ev. cbn [option_map]. destruct v2; [|done]. cbn [negb]. f_equal. apply Z.eqb_eq. unfold slot_step in Hs1.
    rewrite Z.rem_mod_nonneg by (destruct Hp; lia). done.
Qed.

Lemma InitFromTxIn_inv w txin s : InitFromTxIn w txin = Some (true, s) →
  ∃ txPrev hashBlock p, GetTransaction (Tx.prevout txin).1 = Some (txPrev, hashBlock) ∧ mapBlockIndex (w_index w) !! hashBlock = Some p ∧
    Chain.Contains (objects (w_index w)) (chainActive w) p = Some true ∧ s = mkStake (Some p) txPrev (Tx.prevout txin).2.
Proof.
  unfold InitFromTxIn. destruct (GetTransaction _) as [[txPrev hashBlock]|]; [|done]. unfold active_index.
  destruct (mapBlockIndex (w_index w) !! hashBlock) as [p|] eqn:Ep; cbn [mbind option_bind]; [|done].
  destruct (Chain.Contains _ _ p) as [[]|] eqn:Ec; cbn [mbind option_bind]; [|done|done]. intros H. exists txPrev, hashBlock, p. by simplify_eq.
Qed.
Lemma LoadStakeInput_inv w block prev e s : objects (w_index w) !! prev = Some e → LoadStakeInput w block (Some prev) = Some (true, s) →
  ∃ tx txin, stakes_on block e tx txin (Block.nBits (Block.header block)) (Block.nTime (Block.header block)) ∧ InitFromTxIn w txin = Some (true, s).
Proof.
  intros He. unfold LoadStakeInput. rewrite He. cbn [mbind option_bind]. destruct (bool_decide _) eqn:Eh; cbn [negb]; [|done]. destruct (Block.IsProofOfStake block) eqn:Epos; cbn [negb]; [|done].
  destruct (Block.vtx block !! 1%nat) as [tx|] eqn:Etx; cbn [mbind option_bind]; [|done]. destruct (Tx.vin tx !! 0%nat) as [txin|] eqn:Ein; cbn [mbind option_bind]; [|done].
  intros H. exists tx, txin. split; [|done]. split; try done. by apply bool_decide_eq_true in Eh.
Qed.
(** The modifier that a block on [prev] hashes with a coin of block [p]: the old one (zero
    where there is none) up to the upgrade, then zero for the first block and the modifier
    of [prev] for the others. *)
Definition modifier_of (w : world) (prev : ptr) (e : Chain.CBlockIndex) (p : ptr) (modifier : list Z) : Prop :=
  match NetworkUpgradeActive (nHeight e + 1) consensus UPGRADE_STAKE_MODIFIER_V2 with
  | Some true =>
      ∃ f, w_stakes w !! prev = Some f ∧
        modifier = if bool_decide (NetworkUpgradeActive (nHeight e) consensus UPGRADE_STAKE_MODIFIER_V2 = Some true ∧ Chain.pprev e ≠ None)
                   then vStakeModifier f else UINT256_ZERO
  | _ => ∃ r, GetOldModifier w p = Some r ∧ modifier = le_bytes 8 r.2
  end.

(** A valid proof of stake on block [prev]: the coinstake's first input spends an output of
    a transaction in a block of the active chain, old enough where age is asked for; the
    hash of modifier, time of that block, outpoint and time of the new block is below the
    target times a hundredth of the value; and the input script unlocks the output. *)
Record valid_stake (w : world) (block : Block.CBlock) (prev : ptr) (e : Chain.CBlockIndex) (tx : CTransaction) (txin : Tx.CTxIn)
    (txPrev : CTransaction) (hashBlock : uint256) (p : ptr) (eFrom : Chain.CBlockIndex) (out : CTxOut) (modifier : list Z) : Prop := {
  vs_on : stakes_on block e tx txin (Block.nBits (Block.header block)) (Block.nTime (Block.header block));
  vs_coin : GetTransaction (Tx.prevout txin).1 = Some (txPrev, hashBlock) ∧ Tx.vout txPrev !! Z.to_nat (Tx.prevout txin).2 = Some out;
  vs_block : mapBlockIndex (w_index w) !! hashBlock = Some p ∧ objects (w_index w) !! p = Some eFrom ∧
             Chain.at_height (chainActive w) (nHeight eFrom) = Some p;
  vs_age : NetworkUpgradeActive (nHeight e + 1) consensus UPGRADE_STAKE_MODIFIER_V2 = Some false →
           Chain.nTime eFrom + nStakeMinAge consensus <= Block.nTime (Block.header block);
  vs_modifier : modifier_of w prev e p modifier;
  vs_kernel : le_word (Sha256.sha256d (modifier ++ le_bytes 4 (Chain.nTime eFrom) ++ le_bytes 4 (Tx.prevout txin).2 ++ Tx.GetHash txPrev ++
                le_bytes 4 (Block.nTime (Block.header block)))) <
              (Arith.compact_abs (Block.nBits (Block.header block)) mod 2 ^ 256 * (Tx.nValue out / 100)) mod 2 ^ 256;
  vs_script : Interp.VerifyScript (checker := SigHash.checker_of Verify (SigHash.mkChecker tx 0 (Tx.nValue out) None))
                ripemd160 sha1 CheckLowS (Tx.scriptSig txin) (Tx.scriptPubKey out) STANDARD_SCRIPT_VERIFY_FLAGS = Some (inr ())
}.

(** What the verification relies on: positive depths, times that do not wrap when the age
    is added, and a transaction index that holds transactions with hashes of 32 bytes and
    values that are not negative. *)
Record stake_context (w : world) : Prop := {
  sc_depth : 0 < nStakeMinDepth consensus ∧ 0 < nStakeMinDepthV2 consensus;
  sc_age : 0 <= nStakeMinAge consensus ∧ ∀ p e, objects (w_index w) !! p = Some e → 0 <= Chain.nTime e ∧ Chain.nTime e + nStakeMinAge consensus < 2 ^ 32;
  sc_txs : ∀ h txPrev hashBlock, GetTransaction h = Some (txPrev, hashBlock) →
    hash_ok (Tx.GetHash txPrev) ∧ Forall (λ o, 0 <= Tx.nValue o < 2 ^ 63) (Tx.vout txPrev)
}.

(** A block whose fields have their types. *)
Definition staked_fields (block : Block.CBlock) : Prop :=
  word 32 (Block.nBits (Block.header block)) ∧
  ∀ tx txin, Block.vtx block !! 1%nat = Some tx → Tx.vin tx !! 0%nat = Some txin → 0 <= (Tx.prevout txin).2.

Section Valid.
Context (w : world) (Hw : world_ok w) (Hsc : stake_context w).

Lemma modifier_of_kernel prev e s eFrom out p bits t modifier :
  objects (w_index w) !! prev = Some e → stake_ok w s eFrom out → pindexFrom s = Some p →
  modifier_of w prev e p modifier ↔
  new_kernel w prev s bits t = Some (mkKernel modifier (Chain.nTime eFrom) (GetUniqueness s) t bits (Tx.nValue out)).
Proof using Hw.
  intros He [(p' & Hp & Hep) Hout Hpos Hval Hhash] Hp'. assert (p' = p) as -> by congruence.
  unfold new_kernel, GetValue, GetOldStakeModifier, GetIndexFrom, modifier_of. rewrite Hout, He, Hp. cbn [fmap option_fmap option_map mbind option_bind fst].
  pose proof (Chain.entry_height _ (w_linked w Hw) prev e He) as Hh.
  destruct (Retarget.upgrade_Some consensus (nHeight e + 1) UPGRADE_STAKE_MODIFIER_V2 ltac:(lia)) as (v2 & ->). cbn [mbind option_bind]. destruct v2; cbn [negb].
  - destruct (w_fields w Hw prev e He) as (f & Ef & Hf). rewrite Ef. cbn [mbind option_bind]. unfold GetStakeModifierV2.
    destruct Hf as (_ & _ & Hf). destruct (Retarget.upgrade_Some consensus (nHeight e) UPGRADE_STAKE_MODIFIER_V2 ltac:(lia)) as (v & Ev). rewrite Ev. cbn [mbind option_bind].
    assert (Em : (if (match vStakeModifier f with [] => true | _ => false end) || negb v then Some UINT256_ZERO
                  else if (length (vStakeModifier f) =? 32)%nat then Some (vStakeModifier f) else None) =
                 Some (if bool_decide (Some v = Some true ∧ Chain.pprev e ≠ None) then vStakeModifier f else UINT256_ZERO)).
    { destruct (Chain.pprev e) as [q|].
      - destruct Hf as (v' & Ev' & Hl & _). rewrite Ev in Ev'. injection Ev' as <-. destruct v.
        + rewrite bool_decide_eq_true_2 by done. destruct (vStakeModifier f) eqn:E; [done|]. cbn [orb negb]. rewrite Hl. done.
        + rewrite bool_decide_eq_false_2 by (by intros [? _]). by rewrite orb_true_r.
      - rewrite Hf, bool_decide_eq_false_2 by (by intros [_ ?]). done. }
    rewrite Em. cbn [mbind option_bind]. rewrite Hep. cbn [mbind option_bind].
    split; [intros (f' & [= <-] & ->); done|]. intros [= <-]. by exists f.
  - destruct (GetOldModifier_total w Hw p eFrom Hep) as (r & ->). cbn [mbind option_bind]. rewrite Hep. cbn [mbind option_bind].
    split; [intros (r' & [= <-] & ->); done|]. intros [= <-]. by exists r.
Qed.

Lemma kernel_below modifier eFrom s out bits t :
  kernel_ok (mkKernel modifier (Chain.nTime eFrom) (GetUniqueness s) t bits (Tx.nValue out)) →
  CheckKernelHash (mkKernel modifier (Chain.nTime eFrom) (GetUniqueness s) t bits (Tx.nValue out)) = Some true ↔
  le_word (Sha256.sha256d (modifier ++ le_bytes 4 (Chain.nTime eFrom) ++ le_bytes 4 (nPosition s) ++ Tx.GetHash (txFrom s) ++ le_bytes 4 t)) <
  (Arith.compact_abs bits mod 2 ^ 256 * (Tx.nValue out / 100)) mod 2 ^ 256.
Proof.
  intros Hk. rewrite CheckKernelHash_spec by done. unfold target. cbn [nBits stakeValue].
  assert (Eh : kernel_GetHash (mkKernel modifier (Chain.nTime eFrom) (GetUniqueness s) t bits (Tx.nValue out)) =
    Sha256.sha256d (modifier ++ le_bytes 4 (Chain.nTime eFrom) ++ le_bytes 4 (nPosition s) ++ Tx.GetHash (txFrom s) ++ le_bytes 4 t)).
  { destruct Hk as [[Hm1 Hm2] [Hu1 Hu2] _ _]. cbn [stakeModifier stakeUniqueness] in *. unfold kernel_GetHash, kernel_bytes. cbn [stakeModifier nTimeBlockFrom stakeUniqueness nTime].
    unfold Undo.GetHash. rewrite Sha256.Hash_sha256d.
    - cbn [concat default]. unfold GetUniqueness. by rewrite app_nil_r, <- !app_assoc.
    - rewrite length_replicate. lia.
    - apply Forall_cons_2; [|apply Forall_nil_2]. rewrite !Forall_app. split_and!; try done; apply le_bytes_byte.
    - cbn [concat]. rewrite app_nil_r, !length_app, !length_le_bytes. lia. }
  rewrite Eh. split; [intros [= H]; by apply Z.ltb_lt in H | intros H; by apply Z.ltb_lt in H as ->].
Qed.

Lemma age_iff h t p eFrom : 0 <= h → objects (w_index w) !! p = Some eFrom →
  HasStakeMinAgeOrDepth consensus h t (nHeight eFrom) (Chain.nTime eFrom) = Some true ↔
  (NetworkUpgradeActive h consensus UPGRADE_STAKE_MODIFIER_V2 = Some false → Chain.nTime eFrom + nStakeMinAge consensus <= t).
Proof using Hsc.
  intros Hh Hp. destruct Hsc as [[D1 D2] [A1 A2] _]. specialize (A2 p eFrom Hp) as [A2 A3].
  destruct (Retarget.upgrade_Some consensus h UPGRADE_STAKE_MODIFIER_V2 Hh) as ([] & Ev).
  - rewrite (stake_depth_unchecked consensus h t (nHeight eFrom) (Chain.nTime eFrom)) by done. rewrite Ev. done.
  - unfold HasStakeMinAgeOrDepth. rewrite Ev, Z.mod_small by lia.
    split; [intros [= H] _; by apply Z.leb_le in H | intros H; f_equal; apply Z.leb_le; by apply H].
Qed.
End Valid.

(** C4: [CheckProofOfStake] accepts a block after the last checkpoint exactly when it has a valid
    proof of stake.  From the upgrade of the stake modifier on, neither age nor depth of the
    coin is part of it, as the comparison of [HasStakeMinAgeOrDepth] with the minimum depth
    never fails. *)
Theorem CheckProofOfStake_correct w block prev e :
  world_ok w → stake_context w → staked_fields block → objects (w_index w) !! prev = Some e →
  nTimeLastCheckpoint < Block.nTime (Block.header block) →
  CheckProofOfStake w block prev = Some (true, ""%string) ↔
  ∃ tx txin txPrev hashBlock p eFrom out modifier, valid_stake w block prev e tx txin txPrev hashBlock p eFrom out modifier.
Proof.
  intros Hw Hsc [Hbits Hpos] He Hc. pose proof (Chain.entry_height _ (w_linked w Hw) prev e He) as Hh.
  set (bits := Block.nBits (Block.header block)) in *. set (t := Block.nTime (Block.header block)) in *.
  assert (Hst : ∀ tx txin txPrev hashBlock p eFrom out, stakes_on block e tx txin bits t → GetTransaction (Tx.prevout txin).1 = Some (txPrev, hashBlock) →
    objects (w_index w) !! p = Some eFrom → Tx.vout txPrev !! Z.to_nat (Tx.prevout txin).2 = Some out →
    stake_ok w (mkStake (Some p) txPrev (Tx.prevout txin).2) eFrom out).
  { intros tx txin txPrev hashBlock p eFrom out Hon Hg Hp Ho. destruct (sc_txs w Hsc _ _ _ Hg) as [Hhash Hvals].
    split; cbn [pindexFrom txFrom nPosition]; [by exists p | done | by eapply Hpos; [apply (on_tx _ _ _ _ _ _ Hon) | apply (on_txin _ _ _ _ _ _ Hon)] | | done].
    eapply Forall_lookup_1 in Hvals; [exact Hvals | exact Ho]. }
  split.
  - intros E. unfold CheckProofOfStake in E. fold t bits in E. destruct (Z.leb_spec t nTimeLastCheckpoint); [lia|]. rewrite He in E. cbn [mbind option_bind] in E.
    destruct (LoadStakeInput w block (Some prev)) as [[[] s]|] eqn:El; cbn [mbind option_bind fst snd negb] in E; [|done|done].
    destruct (LoadStakeInput_inv w block prev e s He El) as (tx & txin & Hon & Hi). destruct (InitFromTxIn_inv w txin s Hi) as (txPrev & hashBlock & p & H1 & H2 & H3 & ->).
    unfold ContextCheck, GetIndexFrom in E. cbn [pindexFrom mbind option_bind] in E. destruct (objects (w_index w) !! p) as [eFrom|] eqn:Ep; cbn [mbind option_bind] in E; [|done].
    destruct (HasStakeMinAgeOrDepth _ _ _ _ _) as [[]|] eqn:Ea; cbn [mbind option_bind fst snd negb] in E; [|done|done].
    destruct (new_kernel _ _ _ _ _) as [k|] eqn:Ek; cbn [mbind option_bind] in E; [|done]. destruct (CheckKernelHash k) as [[]|] eqn:Eck; cbn [mbind option_bind negb] in E; [|done|done].
    destruct (GetTxOutFrom _) as [out|] eqn:Eo; [|done]. rewrite (on_tx _ _ _ _ _ _ Hon) in E. cbn [mbind option_bind] in E. rewrite (on_txin _ _ _ _ _ _ Hon) in E. cbn [mbind option_bind] in E.
    assert (Ho : Tx.vout txPrev !! Z.to_nat (Tx.prevout txin).2 = Some out) by (unfold GetTxOutFrom in Eo; cbn [txFrom nPosition] in Eo; by destruct (_ || _)).
    pose proof (Hst tx txin txPrev hashBlock p eFrom out Hon H1 Ep Ho) as Hs.
    destruct (new_kernel_spec w Hw prev e _ eFrom out He Hs) as (modifier & Hk). destruct (Hk bits t) as [Ek' Hkok]. specialize (Hkok Hbits). rewrite Ek in Ek'. injection Ek' as ->.
    exists tx, txin, txPrev, hashBlock, p, eFrom, out, modifier. split; try done.
    + split; [done|]. split; [done|]. unfold Chain.Contains in H3. rewrite Ep in H3. cbn [mbind option_bind] in H3. injection H3 as H3. by apply bool_decide_eq_true in H3.
    + by apply (age_iff w Hsc (nHeight e + 1) t p eFrom ltac:(lia) Ep).
    + apply (modifier_of_kernel w Hw prev e _ eFrom out p bits t modifier He Hs eq_refl). exact Ek.
    + by apply (kernel_below modifier eFrom _ out bits t Hkok) in Eck.
    + destruct (Interp.VerifyScript _ _ _ _ _ _) as [[]|]; cbn [mbind option_bind] in E; [done | by destruct u | done].
  - intros (tx & txin & txPrev & hashBlock & p & eFrom & out & modifier & [Hon [H1 Ho] (H2 & Ep & H3) Hage Hmod Hker Hscr]). fold bits t in Hon, Hage, Hker.
    pose proof (Hst tx txin txPrev hashBlock p eFrom out Hon H1 Ep Ho) as Hs.
    assert (Hi : InitFromTxIn w txin = Some (true, mkStake (Some p) txPrev (Tx.prevout txin).2)).
    { unfold InitFromTxIn, active_index. rewrite H1, H2. cbn [mbind option_bind]. unfold Chain.Contains. rewrite Ep. cbn [mbind option_bind].
      by rewrite bool_decide_eq_true_2 by done. }
    rewrite (CheckProofOfStake_ok w block e prev tx txin bits t _ eFrom out Hc He ltac:(lia) Hon Hi Hs); [unfold script_verdict; by rewrite Hscr | |].
    + by apply (age_iff w Hsc (nHeight e + 1) t p eFrom ltac:(lia) Ep).
    + pose proof (proj1 (modifier_of_kernel w Hw prev e _ eFrom out p bits t modifier He Hs eq_refl) Hmod) as Ek.
      eexists. split; [exact Ek|]. destruct (new_kernel_spec w Hw prev e _ eFrom out He Hs) as (modifier' & Hk). destruct (Hk bits t) as [Ek' Hkok].
      rewrite Ek in Ek'. injection Ek' as ->. by apply (kernel_below modifier' eFrom _ out bits t (Hkok Hbits)).
Qed.

(** C39: The index of the staked output is used before it is checked: a coinstake that spends an output that the transaction does not have makes the verification
    read outside of the vector. *)
Theorem stake_position_unchecked w block prev e tx txin bits t txPrev hashBlock p eFrom :
  nTimeLastCheckpoint < t → objects (w_index w) !! prev = Some e → stakes_on block e tx txin bits t →
  GetTransaction (Tx.prevout txin).1 = Some (txPrev, hashBlock) → mapBlockIndex (w_index w) !! hashBlock = Some p →
  Chain.Contains (objects (w_index w)) (chainActive w) p = Some true → objects (w_index w) !! p = Some eFrom →
  HasStakeMinAgeOrDepth consensus (nHeight e + 1) t (nHeight eFrom) (Chain.nTime eFrom) = Some true →
  (length (Tx.vout txPrev) <= Z.to_nat (Tx.prevout txin).2)%nat →
  CheckProofOfStake w block prev = None.
Proof.
  intros Hc He Hon H1 H2 H3 Hp Ha Hl. unfold CheckProofOfStake. rewrite (LoadStakeInput_on w block e prev tx txin bits t He Hon). rewrite (on_time _ _ _ _ _ _ Hon).
  destruct (Z.leb_spec t nTimeLastCheckpoint); [lia|]. rewrite He. cbn [mbind option_bind]. unfold InitFromTxIn, active_index. rewrite H1, H2. cbn [mbind option_bind]. rewrite H3.
  cbn [mbind option_bind fst snd negb SetPrevout txFrom nPosition pindexFrom]. unfold ContextCheck, GetIndexFrom. cbn [pindexFrom mbind option_bind]. rewrite Hp. cbn [mbind option_bind].
  rewrite Ha. cbn [mbind option_bind fst snd negb]. unfold new_kernel, GetValue. cbn [txFrom nPosition]. rewrite (lookup_ge_None_2 (Tx.vout txPrev)) by exact Hl. reflexivity.
Qed.

(** Without a later block that generated a modifier the old modifier is 0, and kernels are made with it. *)
Lemma old_modifier_missing w p e : world_ok w → objects (w_index w) !! p = Some e →
  (∀ q eq, objects (w_index w) !! q = Some eq → Chain.nTime eq < Chain.nTime e + OLD_MODIFIER_INTERVAL) → GetOldModifier w p = Some (false, 0).
Proof.
  intros Hw He Hall. destruct (GetOldModifier_total w Hw p e He) as (r & Er). unfold GetOldModifier in *. rewrite He in Er |- *. cbn [mbind option_bind] in Er |- *.
  assert (Hloop : ∀ fuel t next r, t < Chain.nTime e + OLD_MODIFIER_INTERVAL → old_modifier_loop fuel w (Chain.nTime e) t next = Some r → r = None).
  { induction fuel as [|fuel IH]; intros t next r' Ht H; cbn [old_modifier_loop] in H; [done|]. destruct next as [q|]; [|by simplify_eq].
    destruct (objects (w_index w) !! q) as [eq|] eqn:Eq; cbn [mbind option_bind] in H; [|done]. destruct (w_stakes w !! q) as [f|]; cbn [mbind option_bind] in H; [|done].
    specialize (Hall q eq Eq). set (t' := if GeneratedStakeModifier f then _ else t) in H. assert (Ht' : t' < Chain.nTime e + OLD_MODIFIER_INTERVAL) by (subst t'; destruct (GeneratedStakeModifier f); assumption).
    rewrite (proj2 (Z.ltb_lt _ _) Ht') in H. by eapply IH. }
  destruct (old_modifier_loop _ _ _ _ _) as [r'|] eqn:E; cbn [mbind option_bind] in *; [|done]. assert (Ht0 : Chain.nTime e < Chain.nTime e + OLD_MODIFIER_INTERVAL) by (unfold OLD_MODIFIER_INTERVAL; lia). by rewrite (Hloop _ _ _ _ Ht0 E).
Qed.
End Kernel.

(** ** Witnesses: a coin of the first block staked on the second *)

Definition w_header (h t : Z) : Chain.header := Chain.mkHeader (small_hash h) (small_hash (h - 1)) t 0x207fffff.
Definition w_added (s : sindex) (h t : Z) (n : ptr) : sindex :=
  match AddToBlockIndex main_params 77 s (w_header h t) false None n with Some (s', _) => s' | None => s end.
Definition w1 : sindex := Eval vm_compute in w_added empty_sindex 1 1000 1.
Definition w2 : sindex := Eval vm_compute in w_added w1 2 4000 2.
Definition the_world : world := mkWorld (idx w2) (stake w2) [Some 1%positive; Some 2%positive].
Definition block_entry (p : ptr) : Chain.CBlockIndex := default (Chain.mkIndex [] None None 0 [] 0 0 0) (objects (w_index the_world) !! p).

Definition the_out : CTxOut := Tx.TxOut 200 [0x51].
Definition the_tx : CTransaction := Tx.mkTx (small_hash 9) 1 [] [the_out] 0.
Definition the_txin (n : Z) : Tx.CTxIn := Tx.mkTxIn (small_hash 9, n) [] 0 [].
Definition the_lookup (h : uint256) : option (CTransaction * uint256) := if decide (h = small_hash 9) then Some (the_tx, small_hash 1) else None.
Definition the_stake : CPivStake := mkStake (Some 1%positive) the_tx 0.
Definition the_bits : Z := 0x207fffff.

Ltac w_admissible := split; [Chain.small_admissible | split; [apply small_hash_ok; lia | let H := fresh in intros H; vm_compute in H; discriminate H]].

Lemma w2_reachable : rtc (stake_step main_params 77) empty_sindex w2.
Proof.
  apply rtc_l with w1; [apply (stake_add _ _ _ (w_header 1 1000) false None 1 _ 1); [w_admissible | vm_compute; reflexivity]|].
  apply rtc_l with w2; [apply (stake_add _ _ _ (w_header 2 4000) false None 2 _ 2); [w_admissible | vm_compute; reflexivity]|]. apply rtc_refl.
Qed.
Lemma lookup_entry p : is_Some (objects (w_index the_world) !! p) → objects (w_index the_world) !! p = Some (block_entry p).
Proof. intros [e He]. unfold block_entry. by rewrite He. Qed.
Lemma entry1 : objects (w_index the_world) !! 1%positive = Some (block_entry 1).
Proof. apply lookup_entry. vm_compute. by eexists. Qed.
Lemma entry2 : objects (w_index the_world) !! 2%positive = Some (block_entry 2).
Proof. apply lookup_entry. vm_compute. by eexists. Qed.
Lemma the_world_ok : world_ok main_params the_world.
Proof.
  split; [exact (stake_reachable main_params 77 w2 w2_reachable)|]. exists (Some 2%positive). exists (block_entry 2). split; [apply entry2|]. split; [vm_compute; reflexivity|].
  intros [|[|i]] Hi; cbn in Hi; [| |lia].
  - exists 1%positive. split; [done|]. split; [|exists (block_entry 1); split; [apply entry1|vm_compute; reflexivity]].
    apply (Chain.anc_prev _ 2 (block_entry 2) 1 1 entry2); [vm_compute; reflexivity|apply Chain.anc_refl].
  - exists 2%positive. split; [done|]. split; [apply Chain.anc_refl|]. exists (block_entry 2). split; [apply entry2|vm_compute; reflexivity].
Qed.
Lemma the_stake_ok : stake_ok the_world the_stake (block_entry 1) the_out.
Proof. split; [exists 1%positive; split; [done|apply entry1]|done|done|done|apply small_hash_ok; lia]. Qed.
Lemma the_params : time_params main_params.
Proof. by split. Qed.
Lemma the_bits_word : word 32 the_bits.
Proof. by split. Qed.

Definition the_header : Block.CBlockHeader := Block.mkHeader 7 (small_hash 2) Tx.UINT256_ZERO 4010 the_bits 0 Tx.UINT256_ZERO.
Definition the_coinstake (n : Z) : CTransaction := Tx.mkTx (small_hash 8) 1 [the_txin n] [Tx.mkTxOut 0 [] (-10); Tx.TxOut 200 [0x51]] 0.
Definition the_block (n : Z) : Block.CBlock := Block.mkBlock the_header [Tx.mkTx (small_hash 7) 1 [] [] 0; the_coinstake n] [] false.
Lemma the_block_stakes n : stakes_on (the_block n) (block_entry 2) (the_coinstake n) (the_txin n) the_bits 4010.
Proof. by split. Qed.

Definition the_kernel : CStakeKernel := mkKernel (le_bytes 8 77) 1000 (GetUniqueness the_stake) 4010 the_bits 200.
Lemma the_kernel_ok : kernel_ok the_kernel.
Proof.
  split; [split; [apply le_bytes_byte|cbn; lia]| |apply the_bits_word|done]. split; [|vm_compute; lia]. apply Forall_app. split; [apply le_bytes_byte|]. apply small_hash_ok. lia.
Qed.

Lemma CheckKernelHash_correct_witness :
  CheckKernelHash the_kernel = Some true ∧ CheckKernelHash (with_value 210 the_kernel) = Some true.
Proof.
  destruct (CheckKernelHash_correct the_kernel 210 the_kernel_ok ltac:(by split)) as [_ H]. destruct H as [_ H]; [vm_compute; reflexivity|].
  assert (E : CheckKernelHash the_kernel = Some true) by (vm_compute; reflexivity). split; [exact E|exact (H E)].
Defined.
Lemma Stake_correct_witness :
  ∃ b t, Stake main_params the_lookup false 4010 the_world 2 the_stake the_bits = Some (b, t) ∧ b = true ∧ passes main_params the_lookup the_world 2 the_stake the_bits t.
Proof.
  assert (E : Stake main_params the_lookup false 4010 the_world 2 the_stake the_bits = Some (true, 4010)) by (vm_compute; reflexivity).
  destruct (Stake_correct main_params the_lookup false 4010 the_world 2 (block_entry 2) the_stake (block_entry 1) the_out the_bits the_params the_world_ok entry2 the_stake_ok the_bits_word ltac:(by split))
    as (v2 & minPast & last & b & t & ctx & _ & _ & _ & _ & E' & H). rewrite E in E'. apply (f_equal (default (false, 0))) in E'. cbn [default from_option id] in E'.
  exists true, 4010. split; [exact E|]. split; [reflexivity|]. assert (b = true ∧ t = 4010) as [-> ->] by (split; congruence). exact (proj1 (proj2 (proj2 H))).
Defined.
Lemma staked_block_accepted_witness :
  CheckProofOfStake main_params the_lookup (λ _ _ _, false) (take 20) (take 20) (λ _, true) 0 the_world (the_block 0) 2
  = script_verdict (λ _ _ _, false) (take 20) (take 20) (λ _, true) (the_coinstake 0) (the_txin 0) the_out.
Proof.
  destruct (staked_block_accepted main_params the_lookup (λ _ _ _, false) (take 20) (take 20) (λ _, true) 0 4010 the_world (the_block 0) 2 (block_entry 2) (the_coinstake 0) (the_txin 0) the_bits 4010
    the_stake (block_entry 1) the_out 4000 the_params the_world_ok entry2 (the_block_stakes 0)) as [H _];
    first [exact the_stake_ok | exact the_bits_word | vm_compute; reflexivity | by split | vm_compute; discriminate | exact H].
Defined.
Lemma the_context : stake_context main_params the_lookup the_world.
Proof.
  split; [done| |].
  - split; [done|]. intros p e He.
    assert (H : bool_decide (map_Forall (λ (_ : ptr) e, 0 <= Chain.nTime e ∧ Chain.nTime e + 1800 < 2 ^ 32) (objects (w_index the_world))) = true) by (vm_compute; reflexivity).
    apply bool_decide_eq_true in H. exact (H p e He).
  - intros h txPrev hb. unfold the_lookup. case_decide; [|done]. intros [= <- <-]. split; [apply small_hash_ok; lia|]. by repeat constructor.
Qed.

(** The coinstake of the block found above: its script is [OP_1], so any input script will do. *)
Lemma CheckProofOfStake_correct_witness :
  ∃ tx txin txPrev hashBlock p eFrom out modifier,
    valid_stake main_params the_lookup (λ _ _ _, false) (take 20) (take 20) (λ _, true) the_world (the_block 0) 2 (block_entry 2)
      tx txin txPrev hashBlock p eFrom out modifier.
Proof.
  apply (CheckProofOfStake_correct main_params the_lookup (λ _ _ _, false) (take 20) (take 20) (λ _, true) 0 the_world (the_block 0) 2 (block_entry 2)
    the_world_ok the_context); [|exact entry2 | vm_compute; reflexivity | vm_compute; reflexivity].
  split; [exact the_bits_word|]. intros tx txin Htx Hin. injection Htx as <-. injection Hin as <-. done.
Defined.
Lemma stake_position_unchecked_witness :
  CheckProofOfStake main_params the_lookup (λ _ _ _, false) (take 20) (take 20) (λ _, true) 0 the_world (the_block 1) 2 = None.
Proof.
  apply (stake_position_unchecked main_params the_lookup (λ _ _ _, false) (take 20) (take 20) (λ _, true) 0 the_world (the_block 1) 2 (block_entry 2) (the_coinstake 1) (the_txin 1) the_bits 4010
    the_tx (small_hash 1) 1 (block_entry 1)); first [apply the_block_stakes | exact entry2 | exact entry1 | vm_compute; reflexivity | vm_compute; lia].
Defined.

End Kernel.
