(* ===== verification/Rewards.v ===== *)
(** * src/rewards.{h,cpp}: the block reward and its weekly adjustment

    From the upgrade DYNAMIC_REWARDS on, the reward of an epoch (a week of blocks) is
    computed by the block that starts it and kept in a map and in a table of a SQL
    database; the reward is the smaller of it and the static table.  [int64_t]
    arithmetic is checked: [None] is a signed overflow, a division by zero or a failed
    assertion.  Arguments: the hash rate (a floating-point quotient), the test for
    burn addresses, the coins of the database, and whether a SQL statement succeeds.  Opening the database ([Init]) is left out. *)

From stdpp Require Import base option gmap list fin_maps.
From Stdlib Require Import ZArith Lia.
From S2P Require Import Prelude Serialize Script Sha256 Consensus Chain Retarget Tx Coins.
Import Consensus.
Open Scope Z_scope.

Module Rewards.

Abbreviation Coin := Coins.Coin.
Abbreviation add64 := Retarget.add64.
Abbreviation sub64 := Retarget.sub64.
Abbreviation mul64 := Retarget.mul64.
Abbreviation div64 := Retarget.div64.

Definition TOT_SPLY_TRGT_EMISSION : Z := 50000.
Definition CIRC_SPLY_TRGT_EMISSION : Z := 100000.

(** The in-memory map and the table of the database. *)
Record rewards : Type := mkRewards { mDynamicRewards : gmap Z Z; rewards_table : gmap Z Z }.

(** [GetBlockSubsidy]. *)
Definition GetBlockSubsidy (nHeight : Z) : Z :=
  if nHeight >? 700000 then 380 * COIN
  else if nHeight >? 600000 then 520 * COIN
  else if nHeight >? 500000 then 760 * COIN
  else if nHeight >? 400000 then 900 * COIN
  else if nHeight >? 300000 then 600 * COIN
  else if nHeight >? 200000 then 380 * COIN
  else if nHeight >? 110000 then 180 * COIN
  else if nHeight >? 100000 then 120 * COIN
  else if nHeight >? 1 then 50 * COIN
  else if nHeight >? 0 then 7750000 * COIN
  else 0.

(** [CMasternode::GetMasternodeNodeCollateral]. *)
Definition GetMasternodeNodeCollateral (nHeight : Z) : Z :=
  if nHeight >? 400000 then 100000 * COIN
  else if nHeight >? 300000 then 70000 * COIN
  else if nHeight >? 200000 then 50000 * COIN
  else if nHeight >? 100000 then 30000 * COIN
  else if nHeight >? 0 then 20000 * COIN
  else 0.

Section Rewards.
Variable consensus : Params.
Variable nRewardAdjustmentInterval : Z.

Definition GetDynamicRewardsEpoch (nHeight : Z) : Z := Z.quot nHeight nRewardAdjustmentInterval.
Definition GetDynamicRewardsEpochHeight (nHeight : Z) : Z := GetDynamicRewardsEpoch nHeight * nRewardAdjustmentInterval.
Definition IsDynamicRewardsEpochHeight (nHeight : Z) : bool := GetDynamicRewardsEpochHeight nHeight =? nHeight.

(** [GetBlockValue] calls itself for the previous height at the start of an epoch. *)
Fixpoint block_value (fuel : nat) (s : rewards) (nHeight : Z) : option Z :=
  match fuel with
  | O => None
  | S fuel =>
      let nSubsidy := GetBlockSubsidy nHeight in
      active ← NetworkUpgradeActive nHeight consensus UPGRADE_DYNAMIC_REWARDS;
      if active : bool then
        if IsDynamicRewardsEpochHeight nHeight then block_value fuel s (nHeight - 1)
        else
          match mDynamicRewards s !! GetDynamicRewardsEpochHeight nHeight with
          | Some r => Some (Z.min nSubsidy r)
          | None => Some nSubsidy
          end
      else Some nSubsidy
  end.
Definition GetBlockValue (s : rewards) (nHeight : Z) : option Z := block_value (S (Z.to_nat nHeight)) s nHeight.

(** [CMasternode::GetMasternodePayment]. *)
Definition GetMasternodePayment (s : rewards) (nHeight : Z) : option Z :=
  if nHeight >? 110000 then v ← GetBlockValue s nHeight; p ← mul64 v 65; div64 p 100
  else if nHeight >? 3000 then v ← GetBlockValue s nHeight; p ← mul64 v 80; div64 p 100
  else Some 0.

(** ** The circulating supply *)

(** How much of a coin counts, in percent: all of it up to three months of age, nothing
    from twelve months on. *)
Definition supply_weight (nBlocksPerMonth nBlocksDiff : Z) : option Z :=
  let nMultiplier := 100000000 in
  months ← mul64 9 nBlocksPerMonth;
  slope ← div64 (100 * nMultiplier) months;
  three ← mul64 3 nBlocksPerMonth;
  age ← sub64 nBlocksDiff three;
  drop ← mul64 slope age;
  left_ ← sub64 (100 * nMultiplier) drop;
  ratio ← div64 left_ nMultiplier;
  Some (Z.min (Z.max ratio 0) 100).

(** One coin of the cursor. *)
Definition count_coin (burnt : Coin → bool) (collateral nextCollateral nBlocksPerMonth nHeight : Z) (nCirculatingSupply : Z) (coin : Coin) : option Z :=
  if Coins.IsSpent coin then Some nCirculatingSupply
  else if burnt coin then Some nCirculatingSupply
  else if (Tx.nValue (Coins.out coin) =? collateral) || (Tx.nValue (Coins.out coin) =? nextCollateral) then Some nCirculatingSupply
  else
    let nBlocksDiff := (nHeight - Coins.nHeight coin) mod 2 ^ 32 in
    ratio ← supply_weight nBlocksPerMonth nBlocksDiff;
    v ← mul64 (Tx.nValue (Coins.out coin)) ratio;
    part ← div64 v 100;
    add64 nCirculatingSupply part.

Definition circulating_supply burnt collateral nextCollateral nBlocksPerMonth nHeight (coins : list Coin) : option Z :=
  foldl (λ n coin, n ← n; count_coin burnt collateral nextCollateral nBlocksPerMonth nHeight n coin) (Some 0) coins.

(** ** The adjustment *)

(** [((supply / (365 * nBlocksPerDay)) / 1000000) * rate * nRewardAdjustmentInterval]. *)
Definition target_emission (supply nBlocksPerDay rate : Z) : option Z :=
  year ← mul64 365 nBlocksPerDay;
  perBlock ← div64 supply year;
  millionth ← div64 perBlock 1000000;
  rated ← mul64 millionth rate;
  mul64 rated nRewardAdjustmentInterval.

Definition new_subsidy (nSubsidy nMoneySupply nCirculatingSupply nBlocksPerDay : Z) : option Z :=
  nActualEmission ← mul64 nSubsidy nRewardAdjustmentInterval;
  nSupplyTargetEmission ← target_emission nMoneySupply nBlocksPerDay TOT_SPLY_TRGT_EMISSION;
  nCirculatingTargetEmission ← target_emission nCirculatingSupply nBlocksPerDay CIRC_SPLY_TRGT_EMISSION;
  both ← add64 nSupplyTargetEmission nCirculatingTargetEmission;
  nTargetEmission ← div64 both 2;
  excess ← sub64 nActualEmission nTargetEmission;
  nDelta ← div64 excess nRewardAdjustmentInterval;
  percent ← mul64 nDelta 100;
  quotient ← div64 percent nSubsidy;
  let nRatio := Z.abs quotient in
  let nWeightRatio := Z.quot (Z.min nRatio 100 * 9) 100 + 1 in
  weighted ← mul64 nDelta nWeightRatio;
  nDampedDelta ← div64 weighted 100;
  nNewSubsidy ← sub64 nSubsidy nDampedDelta;
  coins ← div64 nNewSubsidy COIN;
  mul64 coins COIN.

(** ** Connecting and disconnecting blocks *)

(** What the adjustment reads of other parts. *)
Record inputs : Type := mkInputs {
  nMoneySupply : Z; is_burnt : Coin → bool; cursor : list Coin; nNetworkHashPS : Z
}.

(** [INSERT OR REPLACE INTO rewards], [DELETE FROM rewards WHERE height >= ?]. *)
Definition store (sql : bool) (nEpochHeight r : Z) (s : rewards) : bool * rewards :=
  (sql, mkRewards (<[nEpochHeight := r]> (mDynamicRewards s)) (if sql then <[nEpochHeight := r]> (rewards_table s) else rewards_table s)).

Definition epoch_subsidy (inp : inputs) (nHeight nSubsidy : Z) : option Z :=
  nBlocksPerDay ← div64 Retarget.DAY_IN_SECONDS (nTargetSpacing consensus);
  nBlocksPerWeek ← div64 Retarget.WEEK_IN_SECONDS (nTargetSpacing consensus);
  nBlocksPerMonth ← div64 Retarget.MONTH_IN_SECONDS (nTargetSpacing consensus);
  nCirculatingSupply ← circulating_supply (is_burnt inp) (GetMasternodeNodeCollateral nHeight) (GetMasternodeNodeCollateral (nHeight + nBlocksPerWeek)) nBlocksPerMonth nHeight (cursor inp);
  nTimeSlotLength ← TimeSlotLength consensus nHeight;
  perSlot ← mul64 (nNetworkHashPS inp) nTimeSlotLength;
  nStakedCoins ← mul64 perSlot 100;
  free ← sub64 nCirculatingSupply nStakedCoins;
  new_subsidy nSubsidy (nMoneySupply inp) (Z.max free 0) nBlocksPerDay.

(** [CRewards::ConnectBlock], with the database open; [nSubsidy] is what the block
    minted. *)
Definition ConnectBlock (inp : inputs) (sql : bool) (nHeight nSubsidy : Z) (s : rewards) : option (bool * rewards) :=
  let nEpochHeight := GetDynamicRewardsEpochHeight nHeight in
  active ← NetworkUpgradeActive nHeight consensus UPGRADE_DYNAMIC_REWARDS;
  if active : bool then
    nNewSubsidy ← (if IsDynamicRewardsEpochHeight nHeight then epoch_subsidy inp nHeight nSubsidy else Some 0);
    let nNewSubsidy :=
      if negb (nHeight =? nEpochHeight) && match mDynamicRewards s !! nEpochHeight with None => true | Some _ => false end
      then nSubsidy else nNewSubsidy in
    Some (if nNewSubsidy >? 0 then store sql nEpochHeight nNewSubsidy s else (true, s))
  else Some (true, s).

(** [CRewards::DisconnectBlock]. *)
Definition DisconnectBlock (sql : bool) (nHeight : Z) (s : rewards) : option (bool * rewards) :=
  active ← NetworkUpgradeActive nHeight consensus UPGRADE_DYNAMIC_REWARDS;
  if (active : bool) && IsDynamicRewardsEpochHeight nHeight then
    match mDynamicRewards s !! nHeight with
    | Some _ =>
        Some (sql, mkRewards (delete nHeight (mDynamicRewards s))
                     (if sql then filter (λ kv, kv.1 < nHeight) (rewards_table s) else rewards_table s))
    | None => Some (true, s)
    end
  else Some (true, s).

(** ** The adjustment is bounded *)











(** ** The map of the rewards *)

(** After the block at height [h]: the map is the table, it has positive rewards for
    starts of epochs up to [h]. *)
Record rewards_ok (h : Z) (s : rewards) : Prop := {
  ok_table : rewards_table s = mDynamicRewards s;
  ok_entry : map_Forall (λ k r, k <= h ∧ IsDynamicRewardsEpochHeight k = true ∧ 0 < r) (mDynamicRewards s)
}.

Lemma epoch_height_le h : 0 < nRewardAdjustmentInterval → 0 <= h → 0 <= GetDynamicRewardsEpochHeight h <= h.
Proof.
  intros Hi Hh. unfold GetDynamicRewardsEpochHeight, GetDynamicRewardsEpoch. rewrite Z.quot_div_nonneg by lia.
  pose proof (Z.mul_div_le h nRewardAdjustmentInterval Hi). pose proof (Z.div_pos h nRewardAdjustmentInterval Hh Hi). nia.
Qed.
Lemma epoch_height_epoch h : 0 < nRewardAdjustmentInterval → IsDynamicRewardsEpochHeight (GetDynamicRewardsEpochHeight h) = true.
Proof.
  intros Hi. unfold IsDynamicRewardsEpochHeight, GetDynamicRewardsEpochHeight, GetDynamicRewardsEpoch.
  rewrite Z.quot_mul by lia. apply Z.eqb_refl.
Qed.
Lemma not_epoch_next h : 2 <= nRewardAdjustmentInterval → 1 <= h → IsDynamicRewardsEpochHeight h = true → IsDynamicRewardsEpochHeight (h - 1) = false.
Proof.
  unfold IsDynamicRewardsEpochHeight, GetDynamicRewardsEpochHeight, GetDynamicRewardsEpoch. intros Hi Hh H%Z.eqb_eq.
  apply Z.eqb_neq. rewrite Z.quot_div_nonneg in H |- * by lia. intros H'.
  set (q := h / nRewardAdjustmentInterval) in *. set (q' := (h - 1) / nRewardAdjustmentInterval) in *.
  assert (Hx : (q - q') * nRewardAdjustmentInterval = 1) by lia. clearbody q q'. revert Hx. generalize (q - q'). intros x Hx.
  destruct (Z.eq_mul_1 _ _ Hx); subst x; lia.
Qed.
Lemma rewards_ok_mono h h' s : h <= h' → rewards_ok h s → rewards_ok h' s.
Proof. intros Hh [Ht He]. split; [done|]. apply (map_Forall_impl _ _ _ He). intros k r (?&?&?). split_and!; [lia|done..]. Qed.

(** ** The block value *)

Lemma GetBlockSubsidy_nonneg h : 0 <= GetBlockSubsidy h <= 7750000 * COIN.
Proof. unfold GetBlockSubsidy. change COIN with 100000000. repeat match goal with |- context [?a >? ?b] => destruct (a >? b) end; lia. Qed.

(** The value of a block by its height and the entry of its epoch. *)
Definition value_at (s : rewards) (h : Z) : Z :=
  match mDynamicRewards s !! GetDynamicRewardsEpochHeight h with Some r => Z.min (GetBlockSubsidy h) r | None => GetBlockSubsidy h end.

Lemma block_value_plain fuel s h active :
  NetworkUpgradeActive h consensus UPGRADE_DYNAMIC_REWARDS = Some active → active && IsDynamicRewardsEpochHeight h = false →
  block_value (S fuel) s h = Some (if active then value_at s h else GetBlockSubsidy h).
Proof.
  intros Ha He. cbn [block_value]. rewrite Ha. cbn [mbind option_bind]. destruct active; [|done]. cbn in He. rewrite He.
  unfold value_at. by destruct (mDynamicRewards s !! _).
Qed.
Lemma GetBlockValue_spec s h :
  2 <= nRewardAdjustmentInterval → 1 <= h →
  ∃ a h', NetworkUpgradeActive h consensus UPGRADE_DYNAMIC_REWARDS = Some a ∧
    h' = (if a && IsDynamicRewardsEpochHeight h then h - 1 else h) ∧
    ∃ a', NetworkUpgradeActive h' consensus UPGRADE_DYNAMIC_REWARDS = Some a' ∧ GetBlockValue s h = Some (if a' then value_at s h' else GetBlockSubsidy h').
Proof.
  intros Hi Hh. destruct (Retarget.upgrade_Some consensus h UPGRADE_DYNAMIC_REWARDS ltac:(lia)) as [a Ha].
  exists a, (if a && IsDynamicRewardsEpochHeight h then h - 1 else h). split; [done|]. split; [done|].
  unfold GetBlockValue. destruct (a && IsDynamicRewardsEpochHeight h) eqn:E.
  - apply andb_true_iff in E as [-> E]. destruct (Retarget.upgrade_Some consensus (h - 1) UPGRADE_DYNAMIC_REWARDS ltac:(lia)) as [a' Ha'].
    exists a'. split; [done|]. replace (Z.to_nat h) with (S (Z.to_nat (h - 1))) by lia.
    remember (S (Z.to_nat (h - 1))) as n. cbn [block_value]. rewrite Ha. cbn [mbind option_bind]. rewrite E. subst n.
    apply block_value_plain; [done|]. rewrite not_epoch_next by done. by rewrite andb_false_r.
  - exists a. split; [done|]. by apply block_value_plain.
Qed.
Lemma value_at_bound h0 s h : rewards_ok h0 s → 0 <= value_at s h <= GetBlockSubsidy h.
Proof.
  intros [_ He]. unfold value_at. pose proof (GetBlockSubsidy_nonneg h). destruct (mDynamicRewards s !! _) as [r|] eqn:E; [|lia].
  destruct (He _ _ E) as (_ & _ & Hr). lia.
Qed.

(** ** A block connected and disconnected *)

Lemma store_ok h s r e :
  rewards_ok h s → e <= h → IsDynamicRewardsEpochHeight e = true → 0 < r → rewards_ok h (store true e r s).2.
Proof.
  intros [Ht He] Hle Hep Hr. cbn [store snd]. split; cbn [rewards_table mDynamicRewards]; [by rewrite Ht|].
  by apply map_Forall_insert_2.
Qed.
Lemma rewards_ok_fresh h s : rewards_ok (h - 1) s → mDynamicRewards s !! h = None ∧ filter (λ kv : Z * Z, kv.1 < h) (rewards_table s) = rewards_table s.
Proof.
  intros [Ht He]. split.
  - destruct (_ !! h) as [r|] eqn:E; [|done]. destruct (He _ _ E). lia.
  - apply map_filter_id. rewrite Ht. intros k r E. destruct (He _ _ E). cbn. lia.
Qed.

(** Connecting keeps the invariant, whatever the adjustment computes. *)
Lemma ConnectBlock_ok inp h S_ s b s' :
  0 < nRewardAdjustmentInterval → 0 <= h → rewards_ok (h - 1) s → ConnectBlock inp true h S_ s = Some (b, s') → b = true ∧ rewards_ok h s'.
Proof.
  intros Hi Hh Hs H. assert (Hs' : rewards_ok h s) by (apply (rewards_ok_mono (h - 1)); [lia|done]).
  unfold ConnectBlock in H. destruct (NetworkUpgradeActive _ _ _) as [[]|]; cbn [mbind option_bind] in H; [|by simplify_eq|done].
  destruct (if IsDynamicRewardsEpochHeight h then _ else _) as [n|]; cbn [mbind option_bind] in H; [|done].
  set (n' := if _ && _ then S_ else n) in H. destruct (Z.gtb_spec n' 0); [|by simplify_eq].
  apply (f_equal (from_option id (b, s'))) in H. cbn [from_option id] in H.
  pose proof (store_ok h s n' (GetDynamicRewardsEpochHeight h) Hs' (proj2 (epoch_height_le h Hi Hh)) (epoch_height_epoch h Hi) ltac:(lia)) as Ho.
  rewrite H in Ho. split; [|exact Ho]. apply (f_equal fst) in H. by cbn in H.
Qed.
Lemma DisconnectBlock_ok h s b s' :
  0 < nRewardAdjustmentInterval → 0 <= h → rewards_ok h s → NetworkUpgradeActive h consensus UPGRADE_DYNAMIC_REWARDS = Some true →
  DisconnectBlock true h s = Some (b, s') → b = true ∧ rewards_ok (h - 1) s'.
Proof.
  intros Hi Hh [Ht He] Ha H. unfold DisconnectBlock in H. rewrite Ha in H. cbn [mbind option_bind andb] in H.
  assert (Hnone : mDynamicRewards s !! h = None → rewards_ok (h - 1) s).
  { intros Hn. split; [done|]. intros k r E. destruct (He _ _ E) as (?&?&?). split_and!; [|done..]. destruct (decide (k = h)); [congruence|lia]. }
  destruct (IsDynamicRewardsEpochHeight h) eqn:Ee.
  - destruct (mDynamicRewards s !! h) as [r|] eqn:E; simplify_eq; [|by auto]. split; [done|]. split; cbn [rewards_table mDynamicRewards].
    + rewrite Ht. apply map_eq. intros k. destruct (decide (k = h)) as [->|Hne].
      * rewrite lookup_delete_eq. apply map_lookup_filter_None. right. intros ? _. cbn. lia.
      * rewrite lookup_delete_ne by done. destruct (mDynamicRewards s !! k) as [x|] eqn:Ek.
        -- apply map_lookup_filter_Some. split; [done|]. destruct (He _ _ Ek). cbn. lia.
        -- apply map_lookup_filter_None. by left.
    + intros k x Hk. apply lookup_delete_Some in Hk as [Hne Hk]. destruct (He _ _ Hk) as (?&?&?). split_and!; [lia|done..].
  - simplify_eq. split; [done|]. apply Hnone. destruct (mDynamicRewards s' !! h) as [r|] eqn:E; [|done].
    destruct (He _ _ E) as (_&?&_). congruence.
Qed.

(** ** The circulating supply is a part of the coins *)








(** The value of a block and the part of it for the masternode are defined at every height:
    the value is at most that of the static table, at the block's height or, for the first
    block of an epoch, at the height before; the masternode gets at most the value. *)
Theorem GetBlockValue_bounds s h0 h :
  2 <= nRewardAdjustmentInterval → 1 <= h → rewards_ok h0 s →
  ∃ v p h', GetBlockValue s h = Some v ∧ GetMasternodePayment s h = Some p ∧ 0 <= p <= v ∧
    0 <= v <= GetBlockSubsidy h' ∧ (h' = h ∨ h' = h - 1 ∧ IsDynamicRewardsEpochHeight h = true).
Proof.
  intros Hi Hh Hs. destruct (GetBlockValue_spec s h Hi Hh) as (a & h' & _ & Eh & a' & _ & Ev).
  set (v := if a' then value_at s h' else GetBlockSubsidy h') in Ev.
  assert (Hv : 0 <= v <= GetBlockSubsidy h') by (pose proof (value_at_bound h0 s h' Hs); subst v; destruct a'; lia).
  assert (Hmax : v <= 7750000 * 100000000) by (pose proof (GetBlockSubsidy_nonneg h') as Hb; change COIN with 100000000 in Hb; lia).
  assert (Hpart : ∀ k, 0 <= k <= 100 → ∃ p, (x ← GetBlockValue s h; y ← mul64 x k; div64 y 100) = Some p ∧ 0 <= p <= v).
  { intros k Hk. rewrite Ev. cbn [mbind option_bind]. rewrite Retarget.mul64_Some by nia. cbn [mbind option_bind].
    rewrite Retarget.div64_Some by nia. eexists. split; [done|]. split; [apply Z.div_pos; nia|apply Z.div_le_upper_bound; nia]. }
  assert (∃ p, GetMasternodePayment s h = Some p ∧ 0 <= p <= v) as (p & Ep & Hp).
  { unfold GetMasternodePayment. destruct (h >? 110000); [by apply Hpart|]. destruct (h >? 3000); [by apply Hpart|].
    exists 0. split; [done|lia]. }
  exists v, p, h'. split_and!; try done; try lia. subst h'. destruct (a && _) eqn:E; [|by left].
  right. by apply andb_true_iff in E as [_ E].
Qed.

(** The reward computed at the start of an epoch is stored in the map and in the table, and
    from the next block to the end of the epoch the value of a block is the smaller of it
    and the static table. *)
Theorem epoch_reward_takes_effect inp h S_ n s k :
  0 < nRewardAdjustmentInterval → 0 <= h < k → k < h + nRewardAdjustmentInterval → rewards_ok (h - 1) s →
  IsDynamicRewardsEpochHeight h = true →
  NetworkUpgradeActive h consensus UPGRADE_DYNAMIC_REWARDS = Some true →
  NetworkUpgradeActive k consensus UPGRADE_DYNAMIC_REWARDS = Some true →
  epoch_subsidy inp h S_ = Some n → 0 < n →
  ∃ s', ConnectBlock inp true h S_ s = Some (true, s') ∧ rewards_table s' !! h = Some n ∧ rewards_ok h s' ∧
    GetBlockValue s' k = Some (Z.min (GetBlockSubsidy k) n).
Proof.
  intros Hi Hk Hk' Hs He Ha Hak Hn Hpos. unfold IsDynamicRewardsEpochHeight in He. apply Z.eqb_eq in He as Eh.
  assert (Ec : ConnectBlock inp true h S_ s = Some (store true h n s)).
  { unfold ConnectBlock. rewrite Ha. cbn [mbind option_bind]. unfold IsDynamicRewardsEpochHeight. rewrite He, Hn. cbn [mbind option_bind].
    rewrite Eh, Z.eqb_refl. cbn [negb andb]. by destruct (Z.gtb_spec n 0); [|lia]. }
  exists (store true h n s).2. split; [exact Ec|]. split; [cbn; apply lookup_insert_eq|].
  split; [exact (proj2 (ConnectBlock_ok inp h S_ s true _ Hi ltac:(lia) Hs Ec))|].
  assert (Ek : GetDynamicRewardsEpochHeight k = h).
  { unfold GetDynamicRewardsEpochHeight, GetDynamicRewardsEpoch in *. rewrite Z.quot_div_nonneg in * by lia. rewrite <- Eh. f_equal. symmetry.
    apply (Z.div_unique k _ _ (k - h)); lia. }
  unfold GetBlockValue. rewrite (block_value_plain _ _ _ true Hak).
  - unfold value_at. rewrite Ek. cbn [store snd mDynamicRewards]. by rewrite lookup_insert_eq.
  - cbn [andb]. unfold IsDynamicRewardsEpochHeight. rewrite Ek. apply Z.eqb_neq. lia.
Qed.

(** C27: Disconnecting a block undoes what connecting it did to the rewards, in the map and in
    the table, where the block starts an epoch or its epoch has a reward; connecting keeps
    the two equal, with positive rewards for starts of epochs only. *)
Theorem rewards_connect_disconnect inp h S_ s b s' :
  0 < nRewardAdjustmentInterval → 0 <= h → rewards_ok (h - 1) s →
  IsDynamicRewardsEpochHeight h = true ∨ is_Some (mDynamicRewards s !! GetDynamicRewardsEpochHeight h) →
  ConnectBlock inp true h S_ s = Some (b, s') →
  b = true ∧ rewards_ok h s' ∧ DisconnectBlock true h s' = Some (true, s).
Proof.
  intros Hi Hh Hs Hcase H. destruct (ConnectBlock_ok inp h S_ s b s' Hi Hh Hs H) as [-> Hs']. split; [done|]. split; [done|].
  destruct (rewards_ok_fresh h s Hs) as [Hnone Hfil]. unfold ConnectBlock, DisconnectBlock in *.
  destruct (NetworkUpgradeActive _ _ _) as [[]|]; cbn [mbind option_bind andb] in *; [|by simplify_eq|done].
  destruct (IsDynamicRewardsEpochHeight h) eqn:Ee.
  - destruct (epoch_subsidy _ _ _) as [n|]; cbn [mbind option_bind] in H; [|done].
    unfold IsDynamicRewardsEpochHeight in Ee. apply Z.eqb_eq in Ee. rewrite Ee, Z.eqb_refl in H. cbn [negb andb] in H.
    unfold store in H. destruct (n >? 0); simplify_eq; [|by rewrite Hnone]. cbn [mDynamicRewards rewards_table]. rewrite lookup_insert_eq. do 2 f_equal.
    destruct s as [m t]. cbn [mDynamicRewards rewards_table] in *. f_equal; [by apply delete_insert_id|].
    rewrite map_filter_insert_False; [|cbn; lia]. rewrite delete_id; [done|].
    destruct Hs as [Ht _]. cbn in Ht. by rewrite Ht.
  - destruct Hcase as [?|[r Er]]; [done|]. cbn [mbind option_bind] in H. rewrite Er, andb_false_r in H. cbn in H. by simplify_eq.
Qed.

(** Where the epoch of a block has no reward yet, the block that connects sets it to what
    it minted, and disconnecting the block leaves that reward in place: a block that
    replaces it is then held to the smaller value, on the nodes that saw the first. *)
Theorem fallback_reward_survives inp h S_ s :
  2 <= nRewardAdjustmentInterval → 1 <= h → 0 < S_ →
  NetworkUpgradeActive h consensus UPGRADE_DYNAMIC_REWARDS = Some true →
  IsDynamicRewardsEpochHeight h = false → mDynamicRewards s !! GetDynamicRewardsEpochHeight h = None →
  GetBlockValue s h = Some (GetBlockSubsidy h) ∧
  ∃ s', ConnectBlock inp true h S_ s = Some (true, s') ∧ DisconnectBlock true h s' = Some (true, s') ∧
    GetBlockValue s' h = Some (Z.min (GetBlockSubsidy h) S_).
Proof.
  intros Hi Hh Hpos Ha He Hn. unfold GetBlockValue. rewrite !(block_value_plain _ _ _ true Ha) by done.
  unfold value_at. rewrite Hn. split; [done|]. exists (store true (GetDynamicRewardsEpochHeight h) S_ s).2.
  unfold ConnectBlock, DisconnectBlock. rewrite Ha. cbn [mbind option_bind andb]. rewrite He, Hn. cbn [mbind option_bind].
  unfold IsDynamicRewardsEpochHeight in He. rewrite (Z.eqb_sym h), He. cbn [negb andb]. destruct (Z.gtb_spec S_ 0); [|lia].
  split; [done|]. split; [done|]. rewrite (block_value_plain _ _ _ true Ha) by done.
  unfold value_at. cbn [store snd mDynamicRewards]. by rewrite lookup_insert_eq.
Qed.

(** C40: The adjustment divides by what the first block of the epoch minted: a block that mints
    nothing makes it divide by zero. *)
Theorem zero_mint_divides_by_zero inp sql h s :
  NetworkUpgradeActive h consensus UPGRADE_DYNAMIC_REWARDS = Some true → IsDynamicRewardsEpochHeight h = true →
  ConnectBlock inp sql h 0 s = None.
Proof.
  intros Ha He. unfold ConnectBlock. rewrite Ha. cbn [mbind option_bind]. rewrite He.
  assert (Hn : ∀ m c b, new_subsidy 0 m c b = None) by (intros m c b; unfold new_subsidy; do 8 (apply Retarget.bind_none; intros ?); done).
  assert (Hs : epoch_subsidy inp h 0 = None) by (unfold epoch_subsidy; do 8 (apply Retarget.bind_none; intros ?); apply Hn).
  by rewrite Hs.
Qed.
End Rewards.

(** ** Witnesses: the main network, with epochs of a week *)

Definition main_interval : Z := 10080.
Definition epoch_start : Z := 189 * main_interval.
Definition some_coin : Coin := Coins.mkCoin false true (Tx.mkTxOut (1000 * COIN) [] 0) 1905000.
Definition some_inputs : inputs := mkInputs (500000000 * COIN) (λ _, false) [some_coin] 1000000.
Definition no_rewards : rewards := mkRewards ∅ ∅.

Lemma no_rewards_ok interval h : rewards_ok interval h no_rewards.
Proof. split; [done|]. apply map_Forall_empty. Qed.

Lemma GetBlockValue_bounds_witness :
  ∃ v p h', GetBlockValue main_params main_interval no_rewards 2000000 = Some v ∧ GetMasternodePayment main_params main_interval no_rewards 2000000 = Some p ∧
    0 <= p <= v ∧ 0 <= v <= GetBlockSubsidy h' ∧ (h' = 2000000 ∨ h' = 2000000 - 1 ∧ IsDynamicRewardsEpochHeight main_interval 2000000 = true).
Proof. apply (GetBlockValue_bounds main_params main_interval no_rewards 0 2000000); [by vm_compute..|apply no_rewards_ok]. Defined.
Lemma epoch_reward_takes_effect_witness :
  ∃ s', ConnectBlock main_params main_interval some_inputs true epoch_start (380 * COIN) no_rewards = Some (true, s') ∧
    rewards_table s' !! epoch_start = Some (347 * COIN) ∧ rewards_ok main_interval epoch_start s' ∧
    GetBlockValue main_params main_interval s' (epoch_start + 1) = Some (Z.min (GetBlockSubsidy (epoch_start + 1)) (347 * COIN)).
Proof.
  apply (epoch_reward_takes_effect main_params main_interval some_inputs epoch_start (380 * COIN) (347 * COIN) no_rewards (epoch_start + 1));
    first [apply no_rewards_ok | by vm_compute].
Defined.
Lemma rewards_connect_disconnect_witness :
  ∃ s', ConnectBlock main_params main_interval some_inputs true epoch_start (380 * COIN) no_rewards = Some (true, s') ∧
    true = true ∧ rewards_ok main_interval epoch_start s' ∧ DisconnectBlock main_params main_interval true epoch_start s' = Some (true, no_rewards).
Proof.
  exists (mkRewards {[epoch_start := 347 * COIN]} {[epoch_start := 347 * COIN]}).
  assert (H : ConnectBlock main_params main_interval some_inputs true epoch_start (380 * COIN) no_rewards =
              Some (true, mkRewards {[epoch_start := 347 * COIN]} {[epoch_start := 347 * COIN]})) by (vm_compute; reflexivity).
  split; [exact H|]. apply (rewards_connect_disconnect main_params main_interval some_inputs epoch_start (380 * COIN) no_rewards true _);
    first [apply no_rewards_ok | exact H | left; by vm_compute | by vm_compute].
Defined.
Lemma fallback_reward_survives_witness :
  GetBlockValue main_params main_interval no_rewards 1900001 = Some (GetBlockSubsidy 1900001) ∧
  ∃ s', ConnectBlock main_params main_interval some_inputs true 1900001 COIN no_rewards = Some (true, s') ∧
    DisconnectBlock main_params main_interval true 1900001 s' = Some (true, s') ∧
    GetBlockValue main_params main_interval s' 1900001 = Some (Z.min (GetBlockSubsidy 1900001) COIN).
Proof. apply fallback_reward_survives; by vm_compute. Defined.
Lemma zero_mint_divides_by_zero_witness : ConnectBlock main_params main_interval some_inputs true epoch_start 0 no_rewards = None.
Proof. apply zero_mint_divides_by_zero; by vm_compute. Defined.

End Rewards.
