(* ===== verification/Connect.v ===== *)
(** * src/main.cpp, src/undo.h: connecting and disconnecting blocks

    [ConnectBlock] checks the transactions of a block against the set of unspent outputs,
    moves the spent coins into the undo data of the block, adds the new coins, and bounds
    what the block mints; [DisconnectBlock] reverts it with the undo data.  Both work on a
    cache of [Coins] over any view.

    The class [Env] is what they read of the rest of the program: parameters, checkpoints,
    the block index by hash, the reward of a height, the decoding of addresses, signature
    checks, messages, and the results of the parts that are called but not modelled.  The
    queue of script checks runs them all and joins the results, so that it is a list here.
    Undo data is kept in the block index instead of a file; writes succeed.  Times, logs,
    signals and the index of transactions are left out.

    [None] is an exception, a failed assertion or a null dereference. *)

From stdpp Require Import base option gmap list fin_maps.
From Stdlib Require Import ZArith Lia.
From Stdlib Require String.
Import (notations) String.
From S2P Require Import Prelude Serialize Script Consensus Tx Coins Block Interp.
Import Consensus Tx Coins Interp.
Open Scope Z_scope.

Module Connect.

Abbreviation CBlock := Block.CBlock.
Abbreviation CTxUndo := (list Coin).
Abbreviation CBlockUndo := (list CTxUndo).

(** ** What the chain state reads of the rest of the program *)

Class Env : Type := {
  consensus : Params;
  hashGenesisBlock : uint256;
  HashX11KVS : list Z → uint256;
  (** [Checkpoints::GetTotalBlocksEstimate()] and the greatest height of the checkpoints. *)
  GetTotalBlocksEstimate : Z;
  nLastCheckpointHeight : Z;
  (** [mapBlockIndex]: the height of a block. *)
  block_height : uint256 → option Z;
  (** [CRewards::GetBlockValue]. *)
  GetBlockValue : Z → Z;
  (** [ExtractDestination] and [EncodeDestination]; the burn addresses and their heights. *)
  ExtractAddress : CScript → option string;
  mBurnAddresses : list (string * Z);
  (** The coins of the database, as [pcoinsTip->Cursor()] lists them. *)
  database : list Coin;
  nScriptCheckThreads : Z;
  signature_checker : CTransaction → nat → Z → SignatureChecker;
  ripemd160 : Script.valtype → Script.valtype;
  sha1 : Script.valtype → Script.valtype;
  CheckLowS : Script.valtype → bool;
  check_block : CBlock → bool → bool → CValidationState → option (bool * CValidationState * Block.effect);
  IsInitialBlockDownload : bool;
  (** [CRewards::ConnectBlock], [mnodeman.ConnectBlock] and their counterparts. *)
  rewards_connect : Z → Z → bool;
  masternodes_connect : CBlock → bool;
  rewards_disconnect : bool;
  masternodes_disconnect : CBlock → bool;
  (** Messages: [strprintf] and [ScriptErrorString]. *)
  depth_message : Z → string;
  below_message : Z → Z → string;
  ScriptErrorString : ScriptError → string
}.

(** The members of [CBlockIndex] that are used here: the predecessor with its hash, height
    and money supply; the undo data, absent while [nUndoPos] is null; the flag
    [BLOCK_VALID_SCRIPTS]. *)
Record CBlockIndex : Type := mkIndex {
  hash : uint256; nHeight : Z; pprev : option (uint256 * Z * Z); undo : option CBlockUndo; valid_scripts : bool; nMoneySupply : Z
}.

Definition REJECT_NONSTANDARD : Z := 0x40.
Definition MANDATORY_SCRIPT_VERIFY_FLAGS : Z := SCRIPT_VERIFY_P2SH.
Definition STANDARD_SCRIPT_VERIFY_FLAGS : Z :=
  MANDATORY_SCRIPT_VERIFY_FLAGS .| SCRIPT_VERIFY_DERSIG .| SCRIPT_VERIFY_STRICTENC .| SCRIPT_VERIFY_MINIMALDATA .|
  SCRIPT_VERIFY_NULLDUMMY .| SCRIPT_VERIFY_DISCOURAGE_UPGRADABLE_NOPS .| SCRIPT_VERIFY_LOW_S.
Definition STANDARD_NOT_MANDATORY_VERIFY_FLAGS : Z := Z.ldiff STANDARD_SCRIPT_VERIFY_FLAGS MANDATORY_SCRIPT_VERIFY_FLAGS.

(** [CScriptCheck]. *)
Record CScriptCheck : Type := mkCheck { ptxTo : CTransaction; nIn : nat; checked_script : CScript; amount : Z; nFlags : Z }.

Section State.
Context {V : Type} `{CoinsView V} {env : Env}.
Implicit Types c : cache V.

(** ** Spending and adding coins *)

Fixpoint spend_inputs (vin : list CTxIn) (c : cache V) : CTxUndo * cache V :=
  match vin with
  | [] => ([], c)
  | txin :: vin =>
      let '(coin, c) := SpendCoin (prevout txin) c in
      let '(vprevout, c) := spend_inputs vin c in
      (default coinEmpty coin :: vprevout, c)
  end.

Definition UpdateCoins (tx : CTransaction) (nHeight : Z) (c : cache V) : option (CTxUndo * cache V) :=
  let '(txundo, c) := if IsCoinBase tx then ([], c) else spend_inputs (vin tx) c in
  c ← AddCoins tx nHeight c;
  Some (txundo, c).

(** ** Checking inputs *)

(** [operator()]: the verdict of [VerifyScript]. *)
Definition run_check (k : CScriptCheck) : option (res unit) :=
  txin ← vin (ptxTo k) !! nIn k;
  VerifyScript (checker := signature_checker (ptxTo k) (nIn k) (amount k)) ripemd160 sha1 CheckLowS
    (scriptSig txin) (checked_script k) (nFlags k).

Definition GetSpendHeight (c : cache V) : option (Z * cache V) :=
  let '(h, c) := cache_GetBestBlock c in
  height ← block_height h;
  Some (height + 1, c).

(** The loop over the inputs: their value, or a rejection. *)
Fixpoint check_values (nSpendHeight : Z) (vin : list CTxIn) (nValueIn : Z) (c : cache V) (state : CValidationState)
  : option (((bool * CValidationState) + Z) * cache V) :=
  match vin with
  | [] => Some (inr nValueIn, c)
  | txin :: vin =>
      let '(coin, c) := AccessCoin (prevout txin) c in
      if IsSpent coin then None
      else if (fCoinBase coin || fCoinStake coin) && (nSpendHeight - Coins.nHeight coin <? nCoinbaseMaturity consensus)
      then Some (inl (Invalid false REJECT_INVALID "bad-txns-premature-spend-of-coinbase-coinstake"%string
                        (depth_message (nSpendHeight - Coins.nHeight coin)) state), c)
      else
        let nValueIn := wrap64 (nValueIn + nValue (out coin)) in
        if negb (MoneyRange consensus (nValue (out coin))) || negb (MoneyRange consensus nValueIn)
        then Some (inl (reject 100 "bad-txns-inputvalues-outofrange"%string state), c)
        else check_values nSpendHeight vin nValueIn c state
  end.

Definition CheckTxInputs (tx : CTransaction) (nSpendHeight : Z) (c : cache V) (state : CValidationState)
  : option (bool * CValidationState * cache V) :=
  if nSpendHeight <=? GetTotalBlocksEstimate then Some (true, state, c)
  else
    let '(have, c) := HaveInputs tx c in
    if negb have then Some (Invalid false 0 String.EmptyString "Inputs unavailable"%string state, c)
    else
      '(r, c) ← check_values nSpendHeight (vin tx) 0 c state;
      match r with
      | inl rejected => Some (rejected, c)
      | inr nValueIn =>
          if IsCoinStake tx then Some (true, state, c)
          else
            value ← GetValueOut tx;
            if nValueIn <? value
            then Some (DoS 100 false REJECT_INVALID "bad-txns-in-belowout"%string false (below_message nValueIn value) state, c)
            else
              let nTxFee := wrap64 (nValueIn - value) in
              if nTxFee <? 0 then Some (reject 100 "bad-txns-fee-negative"%string state, c)
              else
                let nFees := wrap64 (0 + nTxFee) in
                if negb (MoneyRange consensus nFees) then Some (reject 100 "bad-txns-fee-outofrange"%string state, c)
                else Some (true, state, c)
      end.

(** The loop over the scripts, from input [i] on: the checks that are left to the queue, or
    a rejection. *)
Fixpoint check_scripts (tx : CTransaction) (flags : Z) (queue : bool) (i : nat) (vin : list CTxIn) (c : cache V) (state : CValidationState)
  : option (((bool * CValidationState) + list CScriptCheck) * cache V) :=
  match vin with
  | [] => Some (inr [], c)
  | txin :: vin =>
      let '(coin, c) := AccessCoin (prevout txin) c in
      if IsSpent coin then None
      else
        let check := mkCheck tx i (scriptPubKey (out coin)) (nValue (out coin)) flags in
        let rest := check_scripts tx flags queue (S i) vin c state in
        if queue then
          '(r, c) ← rest;
          Some (match r with inl x => inl x | inr checks => inr (check :: checks) end, c)
        else
          r ← run_check check;
          match r with
          | inr _ => rest
          | inl e =>
              let mandatory := reject 100 (String.append "mandatory-script-verify-flag-failed ("%string
                                 (String.append (ScriptErrorString e) ")"%string)) state in
              if has flags STANDARD_NOT_MANDATORY_VERIFY_FLAGS then
                r2 ← run_check (mkCheck tx i (scriptPubKey (out coin)) (nValue (out coin))
                                  (Z.ldiff flags STANDARD_NOT_MANDATORY_VERIFY_FLAGS));
                match r2 with
                | inr _ => Some (inl (Invalid false REJECT_NONSTANDARD (String.append "non-mandatory-script-verify-flag ("%string
                                   (String.append (ScriptErrorString e) ")"%string)) String.EmptyString state), c)
                | inl _ => Some (inl mandatory, c)
                end
              else Some (inl mandatory, c)
          end
  end.

Definition CheckInputs (tx : CTransaction) (fScriptChecks : bool) (flags : Z) (queue : bool) (c : cache V) (state : CValidationState)
  : option (((bool * CValidationState) + list CScriptCheck) * cache V) :=
  if IsCoinBase tx then Some (inr [], c)
  else
    '(nSpendHeight, c) ← GetSpendHeight c;
    '(ok, state, c) ← CheckTxInputs tx nSpendHeight c state;
    if negb ok then Some (inl (false, state), c)
    else if fScriptChecks then check_scripts tx flags queue 0 (vin tx) c state
    else Some (inr [], c).

(** ** Connecting *)

(** [unsigned int] sum over the inputs. *)
Fixpoint p2sh_sigops (vin : list CTxIn) (nSigOps : Z) (c : cache V) : Z * cache V :=
  match vin with
  | [] => (nSigOps, c)
  | txin :: vin =>
      let '(coin, c) := AccessCoin (prevout txin) c in
      let script := scriptPubKey (out coin) in
      p2sh_sigops vin (if Script.IsPayToScriptHash script
                       then (nSigOps + Script.GetSigOpCountP2SH script (scriptSig txin)) mod 2 ^ 32 else nSigOps) c
  end.
Definition GetP2SHSigOpCount (tx : CTransaction) (c : cache V) : Z * cache V :=
  if IsCoinBase tx then (0, c) else p2sh_sigops (vin tx) 0 c.

(** A payment to a burn address that is active below the height. *)
Definition burns (nHeight : Z) (script : CScript) : bool :=
  match ExtractAddress script with
  | None => false
  | Some addr =>
      match List.find (λ p, String.eqb p.1 addr) mBurnAddresses with
      | Some (_, h) => h <? nHeight
      | None => false
      end
  end.

Definition burned_outputs (nHeight : Z) (vout : list CTxOut) (nUnspendableValue : Z) : Z :=
  fold_left (λ n o, if Script.IsNormalPaymentScript (scriptPubKey o) && burns nHeight (scriptPubKey o)
                    then wrap64 (n + nValue o) else n) vout nUnspendableValue.

(** The locals of the loop: sums in [int64_t], the count of signature operations, the
    checks left to the queue, the undo data. *)
Record totals : Type := mkTotals {
  nFees : Z; nSigOps : Z; nValueOut : Z; nValueIn : Z; nUnspendableValue : Z; control : list CScriptCheck; vtxundo : CBlockUndo
}.

Definition totals_init : totals := mkTotals 0 0 0 0 0 [] [].

Definition block_flags (fCLTVIsActivated : bool) : Z :=
  let flags := SCRIPT_VERIFY_P2SH .| SCRIPT_VERIFY_DERSIG in
  if fCLTVIsActivated then flags .| SCRIPT_VERIFY_CHECKLOCKTIMEVERIFY else flags.

(** The checks of a transaction that is not a coinbase: the new sums, or a rejection. *)
Definition connect_inputs (fScriptChecks fCLTV : bool) (tx : CTransaction) (t : totals) (c : cache V) (state : CValidationState)
  : option (((bool * CValidationState) + totals) * cache V) :=
  let '(valueIn, c) := GetValueIn tx c in
  fees ← (if IsCoinStake tx then Some (nFees t) else value ← GetValueOut tx; Some (wrap64 (nFees t + wrap64 (valueIn - value))));
  let nValueIn := wrap64 (nValueIn t + valueIn) in
  '(r, c) ← CheckInputs tx fScriptChecks (block_flags fCLTV) (negb (nScriptCheckThreads =? 0)) c state;
  Some (match r with
        | inl rejected => inl rejected
        | inr checks => inr (mkTotals fees (nSigOps t) (nValueOut t) nValueIn (nUnspendableValue t) (control t ++ checks) (vtxundo t))
        end, c).

Definition too_many_sigops (state : CValidationState) : bool * CValidationState := reject 100 "bad-blk-sigops"%string state.

(** The signature operations and the inputs of a transaction. *)
Definition connect_sigops (tx : CTransaction) (t : totals) (c : cache V) (state : CValidationState)
  : ((bool * CValidationState) + totals) * cache V :=
  let with_sigops n := mkTotals (nFees t) n (nValueOut t) (nValueIn t) (nUnspendableValue t) (control t) (vtxundo t) in
  let n := (nSigOps t + Block.GetLegacySigOpCount tx) mod 2 ^ 32 in
  if n >? Block.MAX_BLOCK_SIGOPS_CURRENT then (inl (too_many_sigops state), c)
  else if IsCoinBase tx then (inr (with_sigops n), c)
  else
    let '(have, c) := HaveInputs tx c in
    if negb have then (inl (reject 100 "bad-txns-inputs-missingorspent"%string state), c)
    else
      let '(p2sh, c) := GetP2SHSigOpCount tx c in
      let n := (n + p2sh) mod 2 ^ 32 in
      if n >? Block.MAX_BLOCK_SIGOPS_CURRENT then (inl (too_many_sigops state), c) else (inr (with_sigops n), c).

(** One turn of the loop; [first] is [i == 0]. *)
Definition connect_tx (height : Z) (fScriptChecks fCLTV first : bool) (tx : CTransaction) (t : totals) (c : cache V) (state : CValidationState)
  : option (((bool * CValidationState) + totals) * cache V) :=
  let '(r, c) := connect_sigops tx t c state in
  match r with
  | inl rejected => Some (inl rejected, c)
  | inr t =>
      '(r, c) ← (if IsCoinBase tx then Some (inr t, c) else connect_inputs fScriptChecks fCLTV tx t c state);
      match r with
      | inl rejected => Some (inl rejected, c)
      | inr t =>
          value ← GetValueOut tx;
          let unspendable := wrap64 (nUnspendableValue t + GetUnspendableValueOut tx) in
          let unspendable := if height >? nLastCheckpointHeight then burned_outputs height (vout tx) unspendable else unspendable in
          '(txundo, c) ← UpdateCoins tx height c;
          Some (inr (mkTotals (nFees t) (nSigOps t) (wrap64 (nValueOut t + value)) (nValueIn t) unspendable (control t)
                       (if first : bool then vtxundo t else vtxundo t ++ [txundo])), c)
      end
  end.

Fixpoint connect_txs (height : Z) (fScriptChecks fCLTV first : bool) (txs : list CTransaction) (t : totals) (c : cache V) (state : CValidationState)
  : option (((bool * CValidationState) + totals) * cache V) :=
  match txs with
  | [] => Some (inr t, c)
  | tx :: txs =>
      '(r, c) ← connect_tx height fScriptChecks fCLTV first tx t c state;
      match r with
      | inl rejected => Some (inl rejected, c)
      | inr t => connect_txs height fScriptChecks fCLTV false txs t c state
      end
  end.

(** [control.Wait()]. *)
Fixpoint wait (checks : list CScriptCheck) : option bool :=
  match checks with
  | [] => Some true
  | k :: checks => r ← run_check k; all ← wait checks; Some (match r with inr _ => all | inl _ => false end)
  end.

(** The value the database holds at burn addresses. *)
Definition burned_supply (height nUnspendableValue : Z) : Z :=
  fold_left (λ n coin, if burns height (scriptPubKey (out coin)) then wrap64 (n + nValue (out coin)) else n) database nUnspendableValue.

(** The verdict, the state, the block index and the view. *)
Abbreviation outcome := (bool * CValidationState * CBlockIndex * cache V)%type.

(** From the reward on. *)
Definition connect_end (block : CBlock) (fJustCheck : bool) (t : totals) (pindex : CBlockIndex) (c : cache V) (state : CValidationState)
  : option outcome :=
  let nMint := wrap64 (wrap64 (nValueOut t - nValueIn t) + nFees t) in
  '(prevHash, prevHeight, prevSupply) ← pprev pindex;
  let nExpectedMint := GetBlockValue (prevHeight + 1) in
  let nExpectedMint := if Block.IsProofOfWork block then wrap64 (nExpectedMint + nFees t) else nExpectedMint in
  if negb (nMint <=? nExpectedMint) then Some (reject 100 "bad-cb-amount"%string state, pindex, c)
  else
    ok ← wait (control t);
    if negb ok then Some (reject 100 "block-validation-failed"%string state, pindex, c)
    else if fJustCheck then Some (true, state, pindex, c)
    else
      let undo' := match undo pindex with None => vtxundo t | Some u => u end in
      let c := SetBestBlock (hash pindex) c in
      let unspendable := if nHeight pindex =? nLastCheckpointHeight then burned_supply (nHeight pindex) (nUnspendableValue t) else nUnspendableValue t in
      let supply := wrap64 (prevSupply + wrap64 (wrap64 (nValueOut t - nValueIn t) - unspendable)) in
      let pindex := mkIndex (hash pindex) (nHeight pindex) (pprev pindex) (Some undo') true supply in
      Some (if IsInitialBlockDownload then true
            else if negb (rewards_connect (nHeight pindex) nMint) then false else masternodes_connect block, state, pindex, c).

Definition ConnectBlock (block : CBlock) (fJustCheck fAlreadyChecked : bool) (pindex : CBlockIndex) (c : cache V) (state : CValidationState)
  : option outcome :=
  '(ok, state, _) ← (if fAlreadyChecked then Some (true, state, Block.NoEffect) else check_block block (negb fJustCheck) (negb fJustCheck) state);
  if negb ok then
    Some (if corruptionPossible state
          then Error "Corrupt block found indicating potential hardware failure; shutting down"%string state else (false, state), pindex, c)
  else
    let hashPrevBlock := match pprev pindex with None => UINT256_ZERO | Some (h, _, _) => h end in
    let '(best, c) := cache_GetBestBlock c in
    if negb (bool_decide (hashPrevBlock = best)) then None
    else if bool_decide (Block.GetHash HashX11KVS block = hashGenesisBlock) then
      Some (true, state, pindex, if fJustCheck then c else SetBestBlock (hash pindex) c)
    else
      isPoSActive ← NetworkUpgradeActive (nHeight pindex) consensus UPGRADE_POS;
      if negb isPoSActive && Block.IsProofOfStake block then Some (reject 100 "PoS-early"%string state, pindex, c)
      else if isPoSActive && Block.IsProofOfWork block then Some (reject 100 "PoW-ended"%string state, pindex, c)
      else
        let fScriptChecks := nHeight pindex >=? GetTotalBlocksEstimate in
        fCLTV ← (match pprev pindex with
                 | Some (_, prevHeight, _) => if fScriptChecks then NetworkUpgradeActive prevHeight consensus UPGRADE_BIP65 else Some false
                 | None => Some false
                 end);
        '(r, c) ← connect_txs (nHeight pindex) fScriptChecks fCLTV true (Block.vtx block) totals_init c state;
        match r with
        | inl rejected => Some (rejected, pindex, c)
        | inr t => connect_end block fJustCheck t pindex c state
        end.

(** ** Disconnecting *)

Inductive DisconnectResult : Type := DISCONNECT_OK | DISCONNECT_UNCLEAN | DISCONNECT_FAILED.

Definition ApplyTxInUndo (u : Coin) (o : COutPoint) (c : cache V) : option (DisconnectResult * cache V) :=
  let '(have, c) := HaveCoin o c in
  let add u c := c ← AddCoin o u false c; Some (if have then DISCONNECT_UNCLEAN else DISCONNECT_OK, c) in
  if Coins.nHeight u =? 0 then
    let '(alternate, c) := AccessByTxid o.1 c in
    if negb (IsSpent alternate)
    then add (mkCoin (fCoinBase alternate) (fCoinStake alternate) (out u) (Coins.nHeight alternate)) c
    else Some (DISCONNECT_FAILED, c)
  else add u c.

(** The outputs from index [o] on are spent; the flag tells whether they were the ones of
    the block. *)
Fixpoint spend_outputs (txid : uint256) (o : Z) (vout : list CTxOut) (fClean : bool) (c : cache V) : bool * cache V :=
  match vout with
  | [] => (fClean, c)
  | txout :: vout =>
      if negb (Script.IsUnspendable (scriptPubKey txout)) then
        let '(coin, c) := SpendCoin (txid, o) c in
        spend_outputs txid (o + 1) vout (if negb (bool_decide (txout = out (default coinEmpty coin))) then false else fClean) c
      else spend_outputs txid (o + 1) vout fClean c
  end.

(** The inputs are restored, the last one first: [l] pairs them with the undo data. *)
Fixpoint restore_inputs (l : list (CTxIn * Coin)) (fClean : bool) (c : cache V) : option (DisconnectResult * cache V) :=
  match l with
  | [] => Some (if fClean then DISCONNECT_OK else DISCONNECT_UNCLEAN, c)
  | (txin, u) :: l =>
      '(res, c) ← ApplyTxInUndo u (prevout txin) c;
      match res with
      | DISCONNECT_FAILED => Some (DISCONNECT_FAILED, c)
      | DISCONNECT_UNCLEAN => restore_inputs l false c
      | DISCONNECT_OK => restore_inputs l fClean c
      end
  end.

(** The transactions in reverse order, each with its undo data ([None] for the first). *)
Fixpoint disconnect_txs (l : list (CTransaction * option CTxUndo)) (fClean : bool) (c : cache V) : option (DisconnectResult * cache V) :=
  match l with
  | [] => Some (if fClean then DISCONNECT_OK else DISCONNECT_UNCLEAN, c)
  | (tx, txundo) :: l =>
      _ ← GetValueOut tx;
      let '(fClean, c) := spend_outputs (GetHash tx) 0 (vout tx) fClean c in
      if IsCoinBase tx then disconnect_txs l fClean c
      else
        txundo ← txundo;
        if negb (length txundo =? length (vin tx))%nat then Some (DISCONNECT_FAILED, c)
        else
          '(res, c) ← restore_inputs (reverse (zip (vin tx) txundo)) fClean c;
          match res with
          | DISCONNECT_FAILED => Some (DISCONNECT_FAILED, c)
          | _ =>
              let '(have, c) := HaveInputs tx c in
              let c := if have then (GetValueIn tx c).2 else c in
              disconnect_txs l (match res with DISCONNECT_OK => true | _ => false end) c
          end
  end.

Definition DisconnectBlock (block : CBlock) (pindex : CBlockIndex) (c : cache V) : option (DisconnectResult * cache V) :=
  let '(best, c) := cache_GetBestBlock c in
  if negb (bool_decide (hash pindex = best)) then None
  else
    match undo pindex with
    | None => Some (DISCONNECT_FAILED, c)
    | Some blockUndo =>
        '(prevHash, _, _) ← pprev pindex;
        if negb (length blockUndo + 1 =? length (Block.vtx block))%nat then Some (DISCONNECT_FAILED, c)
        else
          '(res, c) ← disconnect_txs (reverse (zip (Block.vtx block) (None :: map Some blockUndo))) true c;
          match res with
          | DISCONNECT_FAILED => Some (DISCONNECT_FAILED, c)
          | _ =>
              let c := SetBestBlock prevHash c in
              Some (if IsInitialBlockDownload then res
                    else if negb rewards_disconnect then DISCONNECT_UNCLEAN
                    else if negb (masternodes_disconnect block) then DISCONNECT_UNCLEAN else res, c)
          end
    end.
End State.

(** ** The operations on the unspent set *)

Definition spend_all (vin : list CTxIn) (U : uset) : uset := λ o, if decide (o ∈ map prevout vin) then None else U o.

(** The set after a transaction. *)
Definition connected (tx : CTransaction) (h : Z) (U : uset) : uset := add_tx tx h (if IsCoinBase tx then U else spend_all (vin tx) U).

Section Laws.
Context {V : Type} `{CoinsViewLaws V} {env : Env}.
Implicit Types c : cache V.

(** The cache stands for the set, and its best block is known. *)
Definition stands (c : cache V) (U : uset) (b : uint256) : Prop := represents c U ∧ hashBlock c = b.

Lemma stands_ext c U U' b : stands c U b → (∀ o, U o = U' o) → stands c U' b.
Proof. intros [[Hok Hu] Hb] HE. split; [|done]. split; [done|]. intros o. by rewrite Hu. Qed.

Lemma stands_unspent c U b o x : stands c U b → U o = Some x → IsSpent x = false.
Proof. intros [[Hok Hu] _] Ho. rewrite <- Hu in Ho. exact (@utxo_unspent (cache V) cache_view cache_laws c o x Hok Ho). Qed.

(** Reading an entry fills the cache only. *)
Lemma FetchCoin_stands c U b o : stands c U b → stands (FetchCoin o c).2 U b.
Proof.
  intros [[Hok Hu] Hb]. pose proof (FetchCoin_spec o c Hok) as Hf. destruct (FetchCoin o c) as [it c'].
  destruct Hf as (F1 & F2 & _ & _ & F5). cbn. split; [|congruence]. split; [done|]. intros o'. by rewrite F2.
Qed.

Lemma AccessCoin_stands c U b o : stands c U b → visible (AccessCoin o c).1 = U o ∧ stands (AccessCoin o c).2 U b.
Proof.
  intros Hs. pose proof (FetchCoin_stands c U b o Hs) as Hf. destruct Hs as [[Hok Hu] Hb].
  destruct (AccessCoin_spec o c Hok) as [E _]. rewrite Hu in E. split; [done|].
  unfold AccessCoin in *. by destruct (FetchCoin o c).
Qed.

Lemma AccessCoin_Some c U b o x : stands c U b → U o = Some x → (AccessCoin o c).1 = x ∧ IsSpent x = false.
Proof. intros Hs Ho. destruct (AccessCoin_stands c U b o Hs) as [E _]. rewrite Ho in E. by apply visible_Some in E as [-> ?]. Qed.

Lemma HaveCoin_stands c U b o : stands c U b → (HaveCoin o c).1 = bool_decide (is_Some (U o)) ∧ stands (HaveCoin o c).2 U b.
Proof.
  intros Hs. pose proof (FetchCoin_stands c U b o Hs) as Hf. destruct Hs as [[Hok Hu] Hb].
  destruct (HaveCoin_spec o c Hok) as [E _]. rewrite Hu in E. split; [done|]. unfold HaveCoin in *. by destruct (FetchCoin o c).
Qed.

Lemma SpendCoin_stands c U b o :
  stands c U b → stands (SpendCoin o c).2 (set_coin o None U) b ∧ ∀ x, U o = Some x → (SpendCoin o c).1 = Some x.
Proof.
  intros Hs. pose proof (FetchCoin_stands c U b o Hs) as [_ Hfb]. destruct Hs as [[Hok Hu] Hb].
  destruct (SpendCoin_spec o c Hok) as (S1 & S2 & S3). rewrite Hu in S2. split; [split; [split; [done|]|]|].
  - intros o'. rewrite S3. unfold set_coin. by destruct (decide (o' = o)).
  - unfold SpendCoin. destruct (FetchCoin o c) as [[e|] c']; [|done]. cbn in *. by destruct (FRESH e).
  - intros x Hx. rewrite Hx in S2. destruct (SpendCoin o c).1 as [y|]; [|done]. cbn in S2. by apply visible_Some in S2 as [-> _].
Qed.

Lemma AddCoin_stands c U b o new :
  stands c U b → IsSpent new = false → U o = None → ∃ c', AddCoin o new false c = Some c' ∧ stands c' (add_coin o new U) b.
Proof.
  intros [Hr Hb] Hn Ho. destruct (AddCoin_represents o new false c U Hr) as (c' & E & Hr'); [by split|].
  exists c'. split; [done|]. split; [done|]. unfold AddCoin in E. rewrite Hn in E. destruct (Script.IsUnspendable _); [by injection E as <-|].
  case_match; [done|]. injection E as <-. done.
Qed.

Lemma add_coins_stands txid cb cs h vout : ∀ i c U b,
  stands c U b → Forall (λ txout, IsNull txout = false) vout → (∀ j, i <= j < i + Z.of_nat (length vout) → U (txid, j) = None) →
  ∃ c', add_coins txid cb cs h i vout c = Some c' ∧ stands c' (add_outputs txid cb cs h i vout U) b.
Proof.
  induction vout as [|txout vout IH]; intros i c U b Hs Hn Hnew; [by exists c|]. apply Forall_cons in Hn as [Hn1 Hn2].
  cbn [add_coins add_outputs length] in *.
  destruct (AddCoin_stands c U b (txid, i) (mkCoin cb cs txout h) Hs Hn1) as (c' & -> & Hs'); [apply Hnew; lia|]. cbn [mbind option_bind].
  apply IH; [done | done|]. intros j Hj. unfold add_coin, set_coin.
  destruct (Script.IsUnspendable _); [apply Hnew; lia|]. rewrite decide_False by (intros [= E]; lia). apply Hnew. lia.
Qed.

Lemma AddCoins_stands tx h c U b : stands c U b → new_outputs tx U → ∃ c', AddCoins tx h c = Some c' ∧ stands c' (add_tx tx h U) b.
Proof. intros Hs [Hn Hnew]. apply add_coins_stands; [done | done|]. intros j Hj. apply Hnew. lia. Qed.

Lemma have_inputs_stands vin : ∀ c U b, stands c U b →
  (have_inputs vin c).1 = forallb (λ i, bool_decide (is_Some (U (prevout i)))) vin ∧ stands (have_inputs vin c).2 U b.
Proof.
  induction vin as [|i vin IH]; intros c U b Hs; [done|]. cbn [have_inputs forallb].
  destruct (HaveCoin_stands c U b (prevout i) Hs) as [E Hs']. destruct (HaveCoin (prevout i) c) as [h c']. cbn [fst snd] in *. subst h.
  destruct (bool_decide (is_Some (U (prevout i)))); cbn [negb andb]; [by apply IH | done].
Qed.

Lemma HaveInputs_stands tx c U b : stands c U b → (HaveInputs tx c).1 = have_all tx U ∧ stands (HaveInputs tx c).2 U b.
Proof. unfold HaveInputs, have_all. destruct (IsCoinBase tx); [done | apply have_inputs_stands]. Qed.

(** ** Sums of inputs *)

Definition coin_value (x : option Coin) : Z := match x with Some x => nValue (out x) | None => -1 end.

(** The value of the inputs. *)
Definition sum_inputs (vin : list CTxIn) (U : uset) : Z := foldr (λ i n, coin_value (U (prevout i)) + n) 0 vin.

Definition present (vin : list CTxIn) (U : uset) : Prop := Forall (λ i, is_Some (U (prevout i))) vin.

Lemma wrap64_mod x : wrap64 x mod 2 ^ 64 = x mod 2 ^ 64.
Proof.
  unfold wrap64, Serialize.signed. pose proof (Z.mod_pos_bound x (2 ^ 64) ltac:(lia)). destruct (_ <? _); [by apply Z.mod_mod|].
  rewrite Zminus_mod, Z_mod_same_full, Z.sub_0_r, !Z.mod_mod by lia. done.
Qed.

(** Sums in [int64_t] that wrap on the way are right if they are congruent. *)
Lemma wrap64_eq x y : x mod 2 ^ 64 = y mod 2 ^ 64 → wrap64 x = wrap64 y.
Proof. unfold wrap64. by intros ->. Qed.

Lemma wrap64_add_l x y : wrap64 (wrap64 x + y) = wrap64 (x + y).
Proof. apply wrap64_eq. by rewrite Zplus_mod, wrap64_mod, <- Zplus_mod. Qed.
Lemma wrap64_add_r x y : wrap64 (x + wrap64 y) = wrap64 (x + y).
Proof. by rewrite Z.add_comm, wrap64_add_l, Z.add_comm. Qed.
Lemma wrap64_sub_l x y : wrap64 (wrap64 x - y) = wrap64 (x - y).
Proof. apply wrap64_add_l. Qed.
Lemma wrap64_sub_r x y : wrap64 (x - wrap64 y) = wrap64 (x - y).
Proof. apply wrap64_eq. by rewrite Zminus_mod, wrap64_mod, <- Zminus_mod. Qed.

Lemma value_in_stands vin : ∀ n c U b,
  stands c U b → present vin U → (value_in vin n c).1 = wrap64 (n + sum_inputs vin U) ∨ vin = [] ∧ (value_in vin n c).1 = n.
Proof.
  induction vin as [|i vin IH]; intros n c U b Hs Hp; [by right|]. left. apply Forall_cons in Hp as [[x Hx] Hp].
  cbn [value_in sum_inputs foldr]. destruct (AccessCoin_stands c U b (prevout i) Hs) as [_ Hs'].
  destruct (AccessCoin_Some c U b (prevout i) x Hs Hx) as [Ex _]. destruct (AccessCoin (prevout i) c) as [y c']. cbn [fst snd] in *. subst y.
  rewrite Hx. cbn [coin_value]. destruct (IH (wrap64 (n + nValue (out x))) c' U b Hs' Hp) as [E|[-> E]]; rewrite E.
  - rewrite wrap64_add_l. f_equal. unfold sum_inputs. lia.
  - cbn. f_equal. lia.
Qed.

Lemma value_in_stands2 vin : ∀ n c U b, stands c U b → stands (value_in vin n c).2 U b.
Proof.
  induction vin as [|i vin IH]; intros n c U b Hs; [done|]. cbn [value_in].
  destruct (AccessCoin_stands c U b (prevout i) Hs) as [_ Hs']. destruct (AccessCoin (prevout i) c) as [y c']. by apply IH.
Qed.

Lemma GetValueIn_stands tx c U b :
  stands c U b → IsCoinBase tx = false → present (vin tx) U →
  (GetValueIn tx c).1 = wrap64 (sum_inputs (vin tx) U) ∧ stands (GetValueIn tx c).2 U b.
Proof.
  intros Hs Hc Hp. unfold GetValueIn. rewrite Hc. split; [|by apply value_in_stands2].
  destruct (value_in_stands (vin tx) 0 c U b Hs Hp) as [->|[-> ->]]; done.
Qed.

(** ** Spending the inputs *)

Lemma spend_inputs_stands vin : ∀ c U b,
  stands c U b → NoDup (map prevout vin) → present vin U →
  stands (spend_inputs vin c).2 (spend_all vin U) b ∧ (spend_inputs vin c).1 = map (λ i, default coinEmpty (U (prevout i))) vin.
Proof.
  induction vin as [|i vin IH]; intros c U b Hs Hd Hp; cbn [spend_inputs map].
  { split; [|done]. eapply stands_ext; [exact Hs|]. intros o. unfold spend_all. by rewrite decide_False by set_solver. }
  apply NoDup_cons in Hd as [Hi Hd]. apply Forall_cons in Hp as [[x Hx] Hp].
  destruct (SpendCoin_stands c U b (prevout i) Hs) as [Hs1 E1]. specialize (E1 x Hx).
  destruct (SpendCoin (prevout i) c) as [y c1]. cbn [fst snd] in *. subst y.
  assert (Hsame : ∀ j, j ∈ vin → set_coin (prevout i) None U (prevout j) = U (prevout j)).
  { intros j Hj. unfold set_coin. rewrite decide_False; [done|]. intros E. apply Hi. rewrite <- E. by apply (list_elem_of_fmap_2 prevout). }
  destruct (IH c1 (set_coin (prevout i) None U) b Hs1 Hd) as [Hs2 E2].
  { apply Forall_forall. intros j Hj. rewrite Hsame by done. by apply (proj1 (Forall_forall _ _) Hp). }
  destruct (spend_inputs vin c1) as [l c2]. cbn [fst snd] in *. subst l. split.
  - eapply stands_ext; [exact Hs2|]. intros o. unfold spend_all, set_coin. cbn [map].
    clear. destruct (decide (o ∈ map prevout vin)) as [Hin|Hn]; [by rewrite decide_True by (by right)|].
    destruct (decide (o = prevout i)) as [->|]; [by rewrite decide_True by left | by rewrite decide_False by (by intros [?|?]%elem_of_cons)].
  - rewrite Hx. cbn. f_equal. apply map_ext_in. intros j Hj. by rewrite Hsame by (by apply list_elem_of_In).
Qed.

(** ** Operations that only read *)

Lemma p2sh_sigops_stands vin : ∀ n c U b, stands c U b → stands (p2sh_sigops vin n c).2 U b.
Proof.
  induction vin as [|i vin IH]; intros n c U b Hs; [done|]. cbn [p2sh_sigops].
  destruct (AccessCoin_stands c U b (prevout i) Hs) as [_ Hs']. destruct (AccessCoin (prevout i) c) as [y c']. by apply IH.
Qed.

Lemma GetP2SHSigOpCount_stands tx c U b : stands c U b → stands (GetP2SHSigOpCount tx c).2 U b.
Proof. unfold GetP2SHSigOpCount. destruct (IsCoinBase tx); [done | apply p2sh_sigops_stands]. Qed.

Lemma GetBestBlock_stands c U b : stands c U b → b ≠ UINT256_ZERO → cache_GetBestBlock c = (b, c).
Proof. intros [_ Hb] Hz. unfold cache_GetBestBlock. rewrite Hb. by rewrite decide_False. Qed.

Definition MAX : Z := nMaxMoneyOut consensus.

(** The coin of an input that is not spent. *)
Lemma AccessCoin_unspent c U b o :
  stands c U b → IsSpent (AccessCoin o c).1 = false → U o = Some (AccessCoin o c).1.
Proof. intros Hs Hu. destruct (AccessCoin_stands c U b o Hs) as [<- _]. by apply visible_unspent. Qed.

(** A rejection is a verdict of [false]; otherwise the sum of the inputs is exact. *)
Lemma check_values_stands h vin : ∀ n c U b state r c',
  0 <= MAX < 2 ^ 62 → 0 <= n <= MAX → stands c U b → check_values h vin n c state = Some (r, c') →
  stands c' U b ∧ match r with
                  | inl x => x.1 = false
                  | inr v => present vin U ∧ v = n + sum_inputs vin U ∧ 0 <= v <= MAX
                  end.
Proof.
  induction vin as [|i vin IH]; intros n c U b state r c' HM Hn Hs; cbn [check_values].
  { intros [= <- <-]. split; [done|]. split; [constructor|]. cbn. lia. }
  destruct (AccessCoin_stands c U b (prevout i) Hs) as [_ Hs']. pose proof (AccessCoin_unspent c U b (prevout i) Hs) as Hx.
  destruct (AccessCoin (prevout i) c) as [x c1]. cbn [fst snd] in *. destruct (IsSpent x) eqn:Ex; [done|]. specialize (Hx eq_refl).
  case_match; [intros [= <- <-]; split; [done | unfold Invalid, DoS; by case_match]|].
  destruct (MoneyRange consensus (nValue (out x))) eqn:Er; cbn [negb orb];
    [|intros [= <- <-]; split; [done | unfold reject, DoS; by case_match]].
  unfold MoneyRange in Er. apply andb_true_iff in Er as [Er1%Z.geb_le Er2%Z.leb_le]. fold MAX in Er2.
  rewrite wrap64_small by lia. destruct (MoneyRange consensus (n + nValue (out x))) eqn:Er; cbn [negb];
    [|intros [= <- <-]; split; [done | unfold reject, DoS; by case_match]].
  unfold MoneyRange in Er. apply andb_true_iff in Er as [_ Er3%Z.leb_le]. fold MAX in Er3.
  intros E. destruct (IH (n + nValue (out x)) c1 U b state r c' HM ltac:(lia) Hs' E) as [Hs2 Hr]. split; [done|].
  destruct r as [y|v]; [done|]. destruct Hr as (Hp & Hv & Hr). split; [constructor; [by eexists | done]|].
  split; [|done]. unfold sum_inputs in *. cbn. rewrite Hx. cbn [coin_value]. lia.
Qed.

Lemma CheckTxInputs_stands tx h c U b state ok state' c' :
  0 <= MAX < 2 ^ 62 → tx_ok consensus tx → IsCoinBase tx = false → stands c U b →
  CheckTxInputs tx h c state = Some (ok, state', c') →
  stands c' U b ∧ (ok = true → GetTotalBlocksEstimate < h →
    0 <= sum_inputs (vin tx) U <= MAX ∧ (IsCoinStake tx = false → sum_values (vout tx) <= sum_inputs (vin tx) U)).
Proof.
  intros HM Htx Hcb Hs. unfold CheckTxInputs. destruct (Z.leb_spec h GetTotalBlocksEstimate) as [Hle|Hgt].
  { intros [= <- <- <-]. split; [done | lia]. }
  destruct (HaveInputs_stands tx c U b Hs) as [Eh Hs1]. destruct (HaveInputs tx c) as [have c1]. cbn [fst snd] in *.
  destruct have; cbn [negb]; [|unfold Invalid, DoS; destruct (mode state); intros [= <- <- <-]; by split].
  destruct (check_values h (vin tx) 0 c1 state) as [[r c2]|] eqn:Ec; [|done]. cbn [mbind option_bind].
  destruct (check_values_stands h (vin tx) 0 c1 U b state r c2 HM ltac:(lia) Hs1 Ec) as [Hs2 Hr].
  destruct r as [[x st]|v].
  { intros [= <- <- <-]. split; [done|]. cbn in Hr. congruence. }
  destruct Hr as (_ & Ev & Hv). rewrite Z.add_0_l in Ev. destruct (IsCoinStake tx) eqn:Ecs.
  { intros [= <- <- <-]. split; [done|]. intros _ _. split; [lia | done]. }
  rewrite (tx_ok_value consensus tx) by (done || (fold MAX; lia)). cbn [mbind option_bind].
  destruct (Z.ltb_spec v (sum_values (vout tx))) as [Hlt|Hge]; [unfold DoS; destruct (mode state); intros [= <- <- <-]; by split|].
  intros E. assert (Hc : c' = c2) by (repeat case_match; congruence). subst c'. split; [done|]. intros _ _. split; [lia|]. intros _. lia.
Qed.

(** The checks a transaction leaves to the queue, and those that were run at once. *)
Definition check_of (tx : CTransaction) (flags : Z) (i : nat) (x : Coin) : CScriptCheck :=
  mkCheck tx i (scriptPubKey (out x)) (nValue (out x)) flags.

Definition scripts_checked (tx : CTransaction) (flags : Z) (i : nat) (vin : list CTxIn) (U : uset) (passed : CScriptCheck → Prop) : Prop :=
  ∀ j txin x, vin !! j = Some txin → U (prevout txin) = Some x → passed (check_of tx flags (i + j) x).

Lemma check_scripts_stands tx flags queue vin : ∀ i c U b state r c',
  stands c U b → check_scripts tx flags queue i vin c state = Some (r, c') →
  stands c' U b ∧ match r with
                  | inl x => x.1 = false
                  | inr checks => scripts_checked tx flags i vin U (λ k, k ∈ checks ∨ run_check k = Some (inr ()))
                  end.
Proof.
  induction vin as [|txin vin IH]; intros i c U b state r c' Hs; cbn [check_scripts].
  { intros [= <- <-]. split; [done|]. by intros j txin x Hj. }
  destruct (AccessCoin_stands c U b (prevout txin) Hs) as [_ Hs']. pose proof (AccessCoin_unspent c U b (prevout txin) Hs) as Hx.
  destruct (AccessCoin (prevout txin) c) as [x c1]. cbn [fst snd] in *. destruct (IsSpent x) eqn:Ex; [done|]. specialize (Hx eq_refl).
  fold (check_of tx flags i x). set (P := λ (checks : list CScriptCheck) (k : CScriptCheck), k ∈ checks ∨ run_check k = Some (inr ())).
  assert (Hcons : ∀ checks checks', P checks' (check_of tx flags i x) → (∀ k, k ∈ checks → k ∈ checks') →
    scripts_checked tx flags (S i) vin U (P checks) → scripts_checked tx flags i (txin :: vin) U (P checks')).
  { intros checks checks' Hhd Hsub Htl [|j] txin' x' Hj Hx'.
    - injection Hj as <-. rewrite Hx in Hx'. injection Hx' as <-. by rewrite Nat.add_0_r.
    - rewrite Nat.add_succ_r. destruct (Htl j txin' x' Hj Hx') as [Hk|Hk]; [left; by apply Hsub | by right]. }
  destruct queue.
  - destruct (check_scripts _ _ _ _ _ _ _) as [[r1 c2]|] eqn:E; [|done]. cbn [mbind option_bind]. intros [= <- <-].
    destruct (IH _ _ _ _ _ _ _ Hs' E) as [Hs2 Hr]. split; [done|]. destruct r1 as [y|checks]; [done|].
    eapply Hcons; [left; left | | exact Hr]. intros k Hk. by right.
  - destruct (run_check (check_of tx flags i x)) as [[e|[]]|] eqn:Er; cbn [mbind option_bind]; [| |done].
    + destruct (has flags _); [destruct (run_check (mkCheck _ _ _ _ _)) as [[|]|]; [| |done]|]; cbn [mbind option_bind];
        intros [= <- <-]; (split; [done | unfold reject, Invalid, DoS; by case_match]).
    + intros E. destruct (IH _ _ _ _ _ _ _ Hs' E) as [Hs2 Hr]. split; [done|]. destruct r as [y|checks]; [done|].
      eapply Hcons; [by right | | exact Hr]. done.
Qed.

(** The flags of the scripts of a block, and what passed after the queue is done. *)
Lemma CheckInputs_stands tx fs flags queue c U b state r c' h :
  0 <= MAX < 2 ^ 62 → tx_ok consensus tx → IsCoinBase tx = false → stands c U b → b ≠ UINT256_ZERO → block_height b = Some (h - 1) →
  CheckInputs tx fs flags queue c state = Some (r, c') →
  stands c' U b ∧ match r with
                  | inl x => x.1 = false
                  | inr checks =>
                      (GetTotalBlocksEstimate < h → 0 <= sum_inputs (vin tx) U <= MAX ∧
                         (IsCoinStake tx = false → sum_values (vout tx) <= sum_inputs (vin tx) U)) ∧
                      (fs = true → scripts_checked tx flags 0 (vin tx) U (λ k, k ∈ checks ∨ run_check k = Some (inr ())))
                  end.
Proof.
  intros HM Htx Hcb Hs Hb Hh. unfold CheckInputs. rewrite Hcb. unfold GetSpendHeight.
  rewrite (GetBestBlock_stands c U b Hs Hb), Hh. cbn [mbind option_bind]. replace (h - 1 + 1) with h by lia.
  destruct (CheckTxInputs tx h c state) as [[[ok st] c1]|] eqn:Ei; [|done]. cbn [mbind option_bind].
  destruct (CheckTxInputs_stands tx h c U b state ok st c1 HM Htx Hcb Hs Ei) as [Hs1 Hv].
  destruct ok; cbn [negb]; [|intros [= <- <-]; by split].
  destruct fs; [|intros [= <- <-]; split; [done|]; split; [auto | done]].
  intros E. destruct (check_scripts_stands _ _ _ _ _ _ _ _ _ _ _ Hs1 E) as [Hs2 Hr]. split; [done|].
  destruct r as [y|checks]; [done|]. split; [auto | by intros _].
Qed.

(** ** One transaction *)

Lemma tx_ok_outputs tx : tx_ok consensus tx → Forall (λ o, IsNull o = false ∧ 0 <= nValue o <= MAX) (vout tx) ∧ 0 <= sum_values (vout tx) <= MAX.
Proof.
  intros (_ & _ & _ & [Ho Hsum] & _).
  assert (Hf : Forall (λ o, IsNull o = false ∧ 0 <= nValue o <= MAX) (vout tx)).
  { eapply Forall_impl; [exact Ho|]. cbn. intros o [_ Hv]. split; [|exact Hv]. unfold IsNull. apply Z.eqb_neq. lia. }
  split; [done|]. split; [|exact Hsum]. apply sum_values_nonneg. eapply Forall_impl; [exact Hf|]. cbn. lia.
Qed.

(** No output of the transaction is in the set yet. *)
Definition new_txid (tx : CTransaction) (U : uset) : Prop := ∀ i, U (GetHash tx, i) = None.

(** The undo data of a transaction. *)
Definition undo_of (tx : CTransaction) (U : uset) : CTxUndo :=
  if IsCoinBase tx then [] else map (λ i, default coinEmpty (U (prevout i))) (vin tx).

Lemma UpdateCoins_stands tx h c U b :
  stands c U b → tx_ok consensus tx → new_txid tx U → (IsCoinBase tx = false → present (vin tx) U) →
  ∃ c', UpdateCoins tx h c = Some (undo_of tx U, c') ∧ stands c' (connected tx h U) b.
Proof.
  intros Hs Htx Hnew Hp. unfold UpdateCoins, undo_of, connected.
  pose proof (tx_ok_outputs tx Htx) as [Ho _]. assert (Hd : NoDup (map prevout (vin tx))) by apply Htx.
  assert (Hn : ∀ U', (∀ i, U' (GetHash tx, i) = None) → new_outputs tx U').
  { intros U' HU'. split; [eapply Forall_impl; [exact Ho|]; by intros ? [? _] | auto]. }
  destruct (IsCoinBase tx).
  - destruct (AddCoins_stands tx h c U b Hs) as (c' & -> & Hs'); [by apply Hn|]. cbn. by exists c'.
  - destruct (spend_inputs_stands (vin tx) c U b Hs Hd (Hp eq_refl)) as [Hs1 E]. destruct (spend_inputs (vin tx) c) as [l c1].
    cbn [fst snd] in *. subst l. destruct (AddCoins_stands tx h c1 _ b Hs1) as (c' & -> & Hs').
    { apply Hn. intros i. unfold spend_all. by destruct (decide _). }
    cbn. by exists c'.
Qed.

(** What the burn addresses receive. *)
Definition burned (height : Z) (tx : CTransaction) : Z :=
  if height >? nLastCheckpointHeight
  then foldr (λ o n, (if Script.IsNormalPaymentScript (scriptPubKey o) && burns height (scriptPubKey o) then nValue o else 0) + n) 0 (vout tx)
  else 0.

Lemma wrap64_idem x : wrap64 (wrap64 x) = wrap64 x.
Proof. apply wrap64_eq, wrap64_mod. Qed.

Lemma burned_outputs_spec height vout : ∀ n,
  burned_outputs height vout (wrap64 n) =
  wrap64 (n + foldr (λ o n, (if Script.IsNormalPaymentScript (scriptPubKey o) && burns height (scriptPubKey o) then nValue o else 0) + n) 0 vout).
Proof.
  unfold burned_outputs. induction vout as [|o vout IH]; intros n; cbn [fold_left foldr]; [f_equal; lia|].
  destruct (_ && _); [rewrite wrap64_add_l|]; rewrite IH; f_equal; lia.
Qed.

(** The value that outputs lock away for good. *)
Definition unspendable (vout : list CTxOut) : Z := foldr (λ o n, (if Script.IsUnspendable (scriptPubKey o) then nValue o else 0) + n) 0 vout.

Lemma GetUnspendableValueOut_sum tx : GetUnspendableValueOut tx = wrap64 (unspendable (vout tx)).
Proof.
  unfold GetUnspendableValueOut, unspendable.
  assert (Hg : ∀ l n, fold_left (λ n it, if Script.IsUnspendable (scriptPubKey it) then wrap64 (n + nValue it) else n) l (wrap64 n) =
    wrap64 (n + foldr (λ o n, (if Script.IsUnspendable (scriptPubKey o) then nValue o else 0) + n) 0 l)); [|exact (Hg (vout tx) 0)].
  induction l as [|o l IH]; intros n; cbn [fold_left foldr]; [f_equal; lia|].
  destruct (Script.IsUnspendable _); [rewrite wrap64_add_l|]; rewrite IH; f_equal; lia.
Qed.

(** The sums after a transaction, in [int64_t]. *)
Record accounted (height : Z) (tx : CTransaction) (U : uset) (t t' : totals) : Prop := {
  acc_fees : nFees t' = if IsCoinBase tx || IsCoinStake tx then nFees t else wrap64 (nFees t + (sum_inputs (vin tx) U - sum_values (vout tx)));
  acc_in : nValueIn t' = if IsCoinBase tx then nValueIn t else wrap64 (nValueIn t + sum_inputs (vin tx) U);
  acc_out : nValueOut t' = wrap64 (nValueOut t + sum_values (vout tx));
  acc_unspendable : nUnspendableValue t' = wrap64 (nUnspendableValue t + unspendable (vout tx) + burned height tx)
}.

(** What the checks of a transaction establish. *)
Record verified (height : Z) (fScriptChecks fCLTV : bool) (tx : CTransaction) (U : uset) (passed : CScriptCheck → Prop) : Prop := {
  ver_present : IsCoinBase tx = false → present (vin tx) U;
  ver_value : IsCoinBase tx = false → GetTotalBlocksEstimate < height →
    0 <= sum_inputs (vin tx) U <= MAX ∧ (IsCoinStake tx = false → sum_values (vout tx) <= sum_inputs (vin tx) U);
  ver_scripts : IsCoinBase tx = false → fScriptChecks = true → scripts_checked tx (block_flags fCLTV) 0 (vin tx) U passed
}.

Lemma connect_sigops_stands tx t c U b state r c' :
  stands c U b → connect_sigops tx t c state = (r, c') →
  stands c' U b ∧ match r with
                  | inl x => x.1 = false
                  | inr t' => (IsCoinBase tx = false → present (vin tx) U) ∧
                      nFees t' = nFees t ∧ nValueIn t' = nValueIn t ∧ nValueOut t' = nValueOut t ∧
                      nUnspendableValue t' = nUnspendableValue t ∧ control t' = control t ∧ vtxundo t' = vtxundo t
                  end.
Proof.
  intros Hs. unfold connect_sigops, too_many_sigops, reject, DoS. case_match; [intros [= <- <-]; split; [done | by case_match]|].
  destruct (IsCoinBase tx) eqn:Ecb; [intros [= <- <-]; by split|].
  destruct (HaveInputs_stands tx c U b Hs) as [Eh Hs1]. destruct (HaveInputs tx c) as [have c1]. cbn [fst snd] in *. subst have.
  destruct (have_all tx U) eqn:Eh; cbn [negb]; [|intros [= <- <-]; split; [done | by case_match]].
  pose proof (GetP2SHSigOpCount_stands tx c1 U b Hs1) as Hs2. destruct (GetP2SHSigOpCount tx c1) as [n c2]. cbn [snd] in Hs2.
  assert (Hp : present (vin tx) U).
  { unfold have_all in Eh. rewrite Ecb in Eh. cbn in Eh. apply List.Forall_forall. intros i Hi.
    by apply (proj1 (List.forallb_forall _ _) Eh) in Hi as Hi'%bool_decide_eq_true. }
  case_match; intros [= <- <-]; (split; [done|]); [by case_match | by split].
Qed.

Lemma connect_tx_stands h fs fc first tx t c U b state r c' :
  0 <= MAX < 2 ^ 62 → tx_ok consensus tx → new_txid tx U → stands c U b → b ≠ UINT256_ZERO → block_height b = Some (h - 1) →
  connect_tx h fs fc first tx t c state = Some (r, c') →
  match r with
  | inl x => x.1 = false
  | inr t' => stands c' (connected tx h U) b ∧ accounted h tx U t t' ∧
      vtxundo t' = (if first : bool then vtxundo t else vtxundo t ++ [undo_of tx U]) ∧
      ∃ checks, control t' = control t ++ checks ∧ verified h fs fc tx U (λ k, k ∈ checks ∨ run_check k = Some (inr ()))
  end.
Proof.
  intros HM Htx Hnew Hs Hb Hh. unfold connect_tx. destruct (connect_sigops tx t c state) as [r1 c1] eqn:E1.
  destruct (connect_sigops_stands tx t c U b state r1 c1 Hs E1) as [Hs1 Hr1]. destruct r1 as [x|t1]; [by intros [= <- <-]|].
  destruct Hr1 as (Hp & Ef & Ei & Eo & Eu & Ec & Ev).
  assert (Hval : GetValueOut tx = Some (sum_values (vout tx))) by (apply (tx_ok_value consensus); [fold MAX; lia | done]).
  set (ins := if IsCoinBase tx then Some (inr t1, c1) else connect_inputs fs fc tx t1 c1 state).
  assert (Hins : match ins with
    | None => True
    | Some (inl x, c2) => x.1 = false
    | Some (inr t2, c2) => stands c2 U b ∧ vtxundo t2 = vtxundo t ∧ nValueOut t2 = nValueOut t ∧ nUnspendableValue t2 = nUnspendableValue t ∧
        nFees t2 = (if IsCoinBase tx || IsCoinStake tx then nFees t else wrap64 (nFees t + (sum_inputs (vin tx) U - sum_values (vout tx)))) ∧
        nValueIn t2 = (if IsCoinBase tx then nValueIn t else wrap64 (nValueIn t + sum_inputs (vin tx) U)) ∧
        ∃ checks, control t2 = control t ++ checks ∧ verified h fs fc tx U (λ k, k ∈ checks ∨ run_check k = Some (inr ()))
    end).
  { unfold ins. clear ins. destruct (IsCoinBase tx) eqn:Ecb; cbn [orb].
    { do 6 (split; [done|]). exists []. rewrite app_nil_r. split; [done|]. split; intros; congruence. }
    unfold connect_inputs. destruct (GetValueIn_stands tx c1 U b Hs1 Ecb (Hp eq_refl)) as [Evi Hs2].
    destruct (GetValueIn tx c1) as [vi c2]. cbn [fst snd] in *. subst vi. rewrite Hval. cbn [mbind option_bind].
    assert (Efees : (if IsCoinStake tx then Some (nFees t1) else Some (wrap64 (nFees t1 + wrap64 (wrap64 (sum_inputs (vin tx) U) - sum_values (vout tx)))))
      = Some (if IsCoinStake tx then nFees t else wrap64 (nFees t + (sum_inputs (vin tx) U - sum_values (vout tx))))).
    { rewrite Ef. destruct (IsCoinStake tx); [done|]. by rewrite wrap64_add_r, <- (wrap64_add_r (nFees t) (wrap64 _ - _)), wrap64_sub_l, wrap64_add_r. }
    rewrite Efees. cbn [mbind option_bind]. clear Efees.
    destruct (CheckInputs _ _ _ _ _ _) as [[r2 c3]|] eqn:E2; [|done]. cbn [mbind option_bind].
    destruct (CheckInputs_stands tx fs _ _ c2 U b state r2 c3 h HM Htx Ecb Hs2 Hb Hh E2) as [Hs3 Hr2]. destruct r2 as [x|checks]; [done|].
    destruct Hr2 as [Hv Hsc]. cbn [nFees nSigOps nValueOut nValueIn nUnspendableValue control vtxundo]. do 5 (split; [done|]).
    split; [by rewrite Ei, wrap64_add_r|]. exists checks. split; [by rewrite Ec|]. split; [auto | auto | intros _; exact Hsc]. }
  destruct ins as [[[x|t2] c2]|]; cbn [mbind option_bind]; [by intros [= <- <-] | | done].
  destruct Hins as (Hs2 & Ev2 & Eo2 & Eu2 & Ef2 & Ei2 & checks & Ec2 & Hver). rewrite Hval. cbn [mbind option_bind].
  destruct (UpdateCoins_stands tx h c2 U b Hs2 Htx Hnew Hp) as (c3 & -> & Hs3). cbn [mbind option_bind]. intros [= <- <-].
  split; [done|]. split; [|split; [cbn; by rewrite Ev2 | by exists checks]].
  split; cbn; [exact Ef2 | exact Ei2 | by rewrite Eo2|]. unfold burned. rewrite Eu2, GetUnspendableValueOut_sum, wrap64_add_r. destruct (h >? nLastCheckpointHeight).
  - by rewrite burned_outputs_spec.
  - f_equal. lia.
Qed.

(** ** All transactions of a block *)

Fixpoint connect_all (h : Z) (txs : list CTransaction) (U : uset) : uset :=
  match txs with [] => U | tx :: txs => connect_all h txs (connected tx h U) end.

Fixpoint undos (h : Z) (txs : list CTransaction) (U : uset) : CBlockUndo :=
  match txs with [] => [] | tx :: txs => undo_of tx U :: undos h txs (connected tx h U) end.

(** The sum of an amount over the transactions, each at the set before it. *)
Fixpoint total (f : CTransaction → uset → Z) (h : Z) (txs : list CTransaction) (U : uset) : Z :=
  match txs with [] => 0 | tx :: txs => f tx U + total f h txs (connected tx h U) end.

(** A property of every transaction at the set before it. *)
Fixpoint each (P : CTransaction → uset → Prop) (h : Z) (txs : list CTransaction) (U : uset) : Prop :=
  match txs with [] => True | tx :: txs => P tx U ∧ each P h txs (connected tx h U) end.

Definition fee_of (tx : CTransaction) (U : uset) : Z :=
  if IsCoinBase tx || IsCoinStake tx then 0 else sum_inputs (vin tx) U - sum_values (vout tx).
Definition in_of (tx : CTransaction) (U : uset) : Z := if IsCoinBase tx then 0 else sum_inputs (vin tx) U.
Definition out_of (tx : CTransaction) (U : uset) : Z := sum_values (vout tx).
Definition lost_of (height : Z) (tx : CTransaction) (U : uset) : Z := unspendable (vout tx) + burned height tx.

(** The identifiers of the transactions are new, and distinct. *)
Definition fresh_txids (txs : list CTransaction) (U : uset) : Prop :=
  NoDup (map GetHash txs) ∧ ∀ tx, tx ∈ txs → new_txid tx U.

Lemma add_outputs_other txid cb cs h vout : ∀ i U o, o.1 ≠ txid → add_outputs txid cb cs h i vout U o = U o.
Proof.
  induction vout as [|txout vout IH]; intros i U o Ho; [done|]. cbn [add_outputs]. rewrite IH by done. unfold add_coin, set_coin.
  destruct (Script.IsUnspendable _); [done|]. rewrite decide_False; [done|]. by intros ->.
Qed.

Lemma connected_other tx h U o : o.1 ≠ GetHash tx → U o = None → connected tx h U o = None.
Proof.
  intros Ho Hn. unfold connected, add_tx. rewrite add_outputs_other by done. destruct (IsCoinBase tx); [done|].
  unfold spend_all. by destruct (decide _).
Qed.

Lemma fresh_cons tx txs h U : fresh_txids (tx :: txs) U → new_txid tx U ∧ fresh_txids txs (connected tx h U).
Proof.
  intros [Hd Hn]. cbn in Hd. apply NoDup_cons in Hd as [Hi Hd]. split; [apply Hn; by left|]. split; [done|].
  intros tx' Htx' i. apply connected_other; [|apply Hn; by right]. cbn. intros E. apply Hi. rewrite <- E. by apply (list_elem_of_fmap_2 GetHash).
Qed.

Lemma each_impl P Q h txs : (∀ tx U, P tx U → Q tx U) → ∀ U, each P h txs U → each Q h txs U.
Proof. intros HPQ. induction txs as [|tx txs IH]; intros U; cbn; [done|]. intros [? ?]. auto. Qed.

Lemma connect_txs_stands h fs fc txs : ∀ first t c U b state r c',
  0 <= MAX < 2 ^ 62 → Forall (tx_ok consensus) txs → fresh_txids txs U → stands c U b → b ≠ UINT256_ZERO → block_height b = Some (h - 1) →
  connect_txs h fs fc first txs t c state = Some (r, c') →
  match r with
  | inl x => x.1 = false
  | inr t' => stands c' (connect_all h txs U) b ∧
      vtxundo t' = vtxundo t ++ (if first : bool then tail (undos h txs U) else undos h txs U) ∧
      wrap64 (nFees t') = wrap64 (nFees t + total fee_of h txs U) ∧ wrap64 (nValueIn t') = wrap64 (nValueIn t + total in_of h txs U) ∧
      wrap64 (nValueOut t') = wrap64 (nValueOut t + total out_of h txs U) ∧
      wrap64 (nUnspendableValue t') = wrap64 (nUnspendableValue t + total (lost_of h) h txs U) ∧
      ∃ checks, control t' = control t ++ checks ∧ each (λ tx U, verified h fs fc tx U (λ k, k ∈ checks ∨ run_check k = Some (inr ()))) h txs U
  end.
Proof.
  induction txs as [|tx txs IH]; intros first t c U b state r c' HM Htx Hf Hs Hb Hh; cbn [connect_txs].
  { intros [= <- <-]. cbn. rewrite !Z.add_0_r. split; [done|]. split; [by destruct first; rewrite app_nil_r|]. do 4 (split; [done|]).
    exists []. by rewrite app_nil_r. }
  apply Forall_cons in Htx as [Ht1 Ht2]. apply (fresh_cons _ _ h) in Hf as [Hn Hf].
  destruct (connect_tx h fs fc first tx t c state) as [[r1 c1]|] eqn:E1; [|done]. cbn [mbind option_bind].
  pose proof (connect_tx_stands _ _ _ _ _ _ _ _ _ _ _ _ HM Ht1 Hn Hs Hb Hh E1) as Hr1. destruct r1 as [x|t1]; [by intros [= <- <-]|].
  destruct Hr1 as (Hs1 & [Af Ai Ao Au] & Ev & checks1 & Ec & Hver). intros E.
  specialize (IH false t1 c1 _ b state r c' HM Ht2 Hf Hs1 Hb Hh E). destruct r as [x|t']; [done|].
  destruct IH as (Hs2 & Ev2 & If & Ii & Io & Iu & checks2 & Ec2 & Hver2). cbn [connect_all undos total each].
  split; [done|]. split; [rewrite Ev2, Ev; destruct first; cbn; by rewrite <- ?(assoc_L app)|].
  split; [rewrite If, Af; unfold fee_of; destruct (_ || _); rewrite ?wrap64_add_l; f_equal; lia|].
  split; [rewrite Ii, Ai; unfold in_of; destruct (IsCoinBase tx); rewrite ?wrap64_add_l; f_equal; lia|].
  split; [rewrite Io, Ao, wrap64_add_l; unfold out_of; f_equal; lia|].
  split; [rewrite Iu, Au, wrap64_add_l; unfold lost_of; f_equal; lia|].
  exists (checks1 ++ checks2). split; [by rewrite Ec2, Ec, (assoc_L app)|].
  assert (Hmono : ∀ (l : list CScriptCheck) tx U, (∀ k, k ∈ l → k ∈ checks1 ++ checks2) → verified h fs fc tx U (λ k, k ∈ l ∨ run_check k = Some (inr ())) →
    verified h fs fc tx U (λ k, k ∈ checks1 ++ checks2 ∨ run_check k = Some (inr ()))).
  { intros l tx' U' Hl [V1 V2 V3]. split; [done | done|]. intros C1 C2 j txin x Hj Hx.
    destruct (V3 C1 C2 j txin x Hj Hx) as [Hk|Hk]; [left; auto | by right]. }
  split; [eapply Hmono; [|exact Hver]; intros k Hk; apply elem_of_app; by left|].
  eapply each_impl; [|exact Hver2]. intros tx' U' Hv. eapply Hmono; [|exact Hv]. intros k Hk. apply elem_of_app. by right.
Qed.

(** ** Undoing a transaction *)

(** Coins that the set may hold: they can be spent, they have a height (the transactions
    of the first block are never connected), and a value. *)
Definition coin_ok (x : Coin) : Prop :=
  Script.IsUnspendable (scriptPubKey (out x)) = false ∧ Coins.nHeight x ≠ 0 ∧ 0 <= nValue (out x).
Definition coins_ok (U : uset) : Prop := ∀ o x, U o = Some x → coin_ok x.

Lemma add_outputs_ok txid cb cs h vout : ∀ i U,
  h ≠ 0 → Forall (λ o, 0 <= nValue o) vout → coins_ok U → coins_ok (add_outputs txid cb cs h i vout U).
Proof.
  induction vout as [|txout vout IH]; intros i U Hh Hv HU; [done|]. apply Forall_cons in Hv as [Hv1 Hv2]. cbn [add_outputs].
  apply IH; [done | done|]. unfold add_coin. cbn [out]. destruct (Script.IsUnspendable _) eqn:Eu; [done|].
  intros o x. unfold set_coin. destruct (decide (o = (txid, i))); [intros [= <-]; by repeat split | apply HU].
Qed.

Lemma connected_ok tx h U : h ≠ 0 → tx_ok consensus tx → coins_ok U → coins_ok (connected tx h U).
Proof.
  intros Hh Htx HU. apply add_outputs_ok; [done | |].
  - destruct (tx_ok_outputs tx Htx) as [Ho _]. eapply Forall_impl; [exact Ho|]. cbn. lia.
  - destruct (IsCoinBase tx); [done|]. intros o x. unfold spend_all. destruct (decide _); [done | apply HU].
Qed.

Lemma add_outputs_ext txid cb cs h vout : ∀ i U U' , (∀ o, U o = U' o) → ∀ o, add_outputs txid cb cs h i vout U o = add_outputs txid cb cs h i vout U' o.
Proof.
  induction vout as [|txout vout IH]; intros i U U' HE o; [done|]. cbn [add_outputs]. apply IH. intros o'. unfold add_coin, set_coin.
  destruct (Script.IsUnspendable _); [done|]. by destruct (decide _).
Qed.

(** The outputs from [i] on do not touch those below. *)
Lemma add_outputs_below txid cb cs h vout : ∀ i j x U, j < i →
  ∀ o, set_coin (txid, j) x (add_outputs txid cb cs h i vout U) o = add_outputs txid cb cs h i vout (set_coin (txid, j) x U) o.
Proof.
  induction vout as [|txout vout IH]; intros i j x U Hj o; [done|]. cbn [add_outputs]. rewrite IH by lia. apply add_outputs_ext. intros o'.
  unfold add_coin. destruct (Script.IsUnspendable _); [done|]. unfold set_coin.
  destruct (decide (o' = (txid, j))) as [E1|], (decide (o' = (txid, i))) as [E2|]; try done. rewrite E1 in E2. injection E2 as E2. lia.
Qed.

Lemma add_outputs_at txid cb cs h vout i j U : j < i → add_outputs txid cb cs h i vout U (txid, j) = U (txid, j).
Proof.
  revert i U. induction vout as [|txout vout IH]; intros i U Hj; [done|]. cbn [add_outputs]. rewrite IH by lia. unfold add_coin.
  destruct (Script.IsUnspendable _); [done|]. unfold set_coin. rewrite decide_False; [done|]. intros [= E]. lia.
Qed.

Lemma spend_outputs_stands txid cb cs h vout : ∀ i fClean c U b,
  (∀ j, U (txid, j) = None) → stands c (add_outputs txid cb cs h i vout U) b →
  (spend_outputs txid i vout fClean c).1 = fClean ∧ stands (spend_outputs txid i vout fClean c).2 U b.
Proof.
  induction vout as [|txout vout IH]; intros i fClean c U b Hn Hs; [done|]. cbn [spend_outputs add_outputs] in *. unfold add_coin in Hs. cbn [out] in Hs.
  destruct (Script.IsUnspendable (scriptPubKey txout)); cbn [negb]; [by apply IH|].
  destruct (SpendCoin_stands _ _ _ (txid, i) Hs) as [Hs1 E].
  rewrite add_outputs_at in E by lia. unfold set_coin at 1 in E. rewrite decide_True in E by done. specialize (E _ eq_refl).
  destruct (SpendCoin (txid, i) c) as [x c1]. cbn [fst snd] in *. subst x. cbn [default out].
  rewrite bool_decide_true by done. cbn [negb]. apply IH; [done|]. eapply stands_ext; [exact Hs1|]. intros o.
  rewrite add_outputs_below by lia. apply add_outputs_ext. intros o'. unfold set_coin. destruct (decide (o' = (txid, i))) as [->|]; [by rewrite Hn | done].
Qed.

Lemma restore_inputs_stands l : ∀ fClean c U0 U b,
  stands c U0 b → Forall (λ p, U (prevout p.1) = Some p.2 ∧ coin_ok p.2 ∧ IsSpent p.2 = false) l → NoDup (map (λ p, prevout p.1) l) →
  (∀ o, U0 o = if decide (o ∈ map (λ p, prevout p.1) l) then None else U o) →
  ∃ c', restore_inputs l fClean c = Some (if fClean : bool then DISCONNECT_OK else DISCONNECT_UNCLEAN, c') ∧ stands c' U b.
Proof.
  induction l as [|[i x] l IH]; intros fClean c U0 U b Hs Hl Hd HU0; cbn [restore_inputs].
  { exists c. split; [done|]. eapply stands_ext; [exact Hs|]. intros o. rewrite HU0. by rewrite decide_False by (by intros ?%elem_of_nil). }
  apply Forall_cons in Hl as [(Hx & (Hx1 & Hx2 & _) & Hx3) Hl]. cbn [map fst snd] in *. apply NoDup_cons in Hd as [Hi Hd].
  unfold ApplyTxInUndo. destruct (HaveCoin_stands c U0 b (prevout i) Hs) as [Eh Hs1]. destruct (HaveCoin (prevout i) c) as [have c1].
  cbn [fst snd] in *. rewrite HU0, decide_True in Eh by left. rewrite bool_decide_false in Eh by (by intros [? ?]). subst have.
  destruct (Z.eqb_spec (Coins.nHeight x) 0); [done|].
  destruct (AddCoin_stands c1 U0 b (prevout i) x Hs1 Hx3) as (c2 & -> & Hs2); [by rewrite HU0, decide_True by left|]. cbn [mbind option_bind].
  apply (IH fClean c2 _ U b Hs2 Hl Hd). intros o. unfold add_coin. rewrite Hx1. unfold set_coin. rewrite HU0.
  destruct (decide (o = prevout i)) as [->|Ho]; [by rewrite decide_False|]. clear - Ho.
  destruct (decide (o ∈ map (λ p, prevout p.1) l)); [by rewrite decide_True by (by right) | by rewrite decide_False by (by intros [?|?]%elem_of_cons)].
Qed.

(** The undo data with which [DisconnectBlock] meets a transaction. *)
Definition undo_opt (tx : CTransaction) (U : uset) : option CTxUndo := if IsCoinBase tx then None else Some (undo_of tx U).

Lemma disconnect_tx_stands tx h l c U b :
  0 <= MAX < 2 ^ 62 → stands c (connected tx h U) b → tx_ok consensus tx → new_txid tx U → coins_ok U → (∀ o x, U o = Some x → IsSpent x = false) →
  (IsCoinBase tx = false → present (vin tx) U) →
  ∃ c', disconnect_txs ((tx, undo_opt tx U) :: l) true c = disconnect_txs l true c' ∧ stands c' U b.
Proof.
  intros HM Hs Htx Hn HU Hsp Hp. cbn [disconnect_txs]. rewrite (tx_ok_value consensus tx) by (done || (fold MAX; lia)). cbn [mbind option_bind].
  set (U1 := if IsCoinBase tx then U else spend_all (vin tx) U).
  assert (Hn1 : ∀ j, U1 (GetHash tx, j) = None) by (intros j; unfold U1, spend_all; repeat case_match; try done; apply Hn).
  destruct (spend_outputs_stands (GetHash tx) (IsCoinBase tx) (IsCoinStake tx) h (vout tx) 0 true c U1 b Hn1 Hs) as [E1 Hs1].
  destruct (spend_outputs (GetHash tx) 0 (vout tx) true c) as [cl c1]. cbn [fst snd] in *. subst cl.
  unfold undo_opt. destruct (IsCoinBase tx) eqn:Ecb; [by exists c1|]. cbn [mbind option_bind]. unfold undo_of. rewrite Ecb.
  rewrite length_map, Nat.eqb_refl. cbn [negb]. specialize (Hp eq_refl). unfold U1 in Hs1.
  set (l0 := zip (vin tx) _). assert (El0 : map (λ p, prevout p.1) l0 = map prevout (vin tx)).
  { unfold l0. clear. induction (vin tx) as [|i v IH]; cbn; [done|]. by rewrite IH. }
  assert (Hfa : Forall (λ p, U (prevout p.1) = Some p.2 ∧ coin_ok p.2 ∧ IsSpent p.2 = false) l0).
  { unfold l0. clear - Hp HU Hsp. induction Hp as [|i v [x Hx] _ IH]; cbn; [constructor|]. constructor; [|exact IH].
    cbn. rewrite Hx. cbn. split; [done|]. split; [by eapply HU | by eapply Hsp]. }
  destruct (restore_inputs_stands (reverse l0) true c1 _ U b Hs1) as (c2 & -> & Hs2).
  { by apply Forall_reverse. }
  { change (NoDup ((λ p, prevout p.1) <$> reverse l0)). rewrite fmap_reverse, reverse_Permutation.
    change (NoDup (map (λ p, prevout p.1) l0)). rewrite El0. apply Htx. }
  { intros o. unfold spend_all. apply decide_ext. change (map ?f ?x) with (f <$> x). rewrite fmap_reverse, elem_of_reverse.
    change ((λ p, prevout p.1) <$> l0) with (map (λ p, prevout p.1) l0). by rewrite El0. }
  cbn [mbind option_bind]. destruct (HaveInputs_stands tx c2 U b Hs2) as [_ Hs3]. destruct (HaveInputs tx c2) as [have c3]. cbn [snd] in Hs3.
  eexists. split; [done|]. destruct have; [|done]. by apply GetValueIn_stands.
Qed.

(** ** Undoing a block *)

Fixpoint undo_opts (h : Z) (txs : list CTransaction) (U : uset) : list (option CTxUndo) :=
  match txs with [] => [] | tx :: txs => undo_opt tx U :: undo_opts h txs (connected tx h U) end.

Lemma coins_ok_unspent U o x : coins_ok U → U o = Some x → IsSpent x = false.
Proof. intros HU Ho. destruct (HU o x Ho) as (_ & _ & Hv). unfold IsSpent, IsNull. apply Z.eqb_neq. lia. Qed.

Lemma connect_all_ok h txs : ∀ U, h ≠ 0 → Forall (tx_ok consensus) txs → coins_ok U → coins_ok (connect_all h txs U).
Proof.
  induction txs as [|tx txs IH]; intros U Hh Ht HU; [done|]. apply Forall_cons in Ht as [Ht1 Ht2]. cbn.
  apply IH; [done | done | by apply connected_ok].
Qed.

Lemma disconnect_txs_stands h txs : ∀ U c b rest,
  0 <= MAX < 2 ^ 62 → h ≠ 0 → Forall (tx_ok consensus) txs → fresh_txids txs U → coins_ok U →
  each (λ tx U, IsCoinBase tx = false → present (vin tx) U) h txs U → stands c (connect_all h txs U) b →
  ∃ c', disconnect_txs (reverse (zip txs (undo_opts h txs U)) ++ rest) true c = disconnect_txs rest true c' ∧ stands c' U b.
Proof.
  induction txs as [|tx txs IH]; intros U c b rest HM Hh Ht Hf HU He Hs; [by exists c|].
  apply Forall_cons in Ht as [Ht1 Ht2]. pose proof (fresh_cons _ _ h _ Hf) as [Hn Hf']. destruct He as [He1 He2].
  cbn [undo_opts connect_all] in *. change (zip (tx :: txs) (undo_opt tx U :: undo_opts h txs (connected tx h U)))
    with ((tx, undo_opt tx U) :: zip txs (undo_opts h txs (connected tx h U))). rewrite reverse_cons, <- (assoc_L app).
  destruct (IH (connected tx h U) c b ([(tx, undo_opt tx U)] ++ rest) HM Hh Ht2 Hf') as (c1 & E1 & Hs1);
    [by apply connected_ok | done | done|]. rewrite E1.
  destruct (disconnect_tx_stands tx h rest c1 U b HM Hs1 Ht1 Hn HU) as (c2 & E2 & Hs2); [intros o x; by apply coins_ok_unspent | done|].
  by exists c2.
Qed.

(** ** Whole blocks *)

(** What a caller of [ConnectBlock] has: the block passed [CheckBlock], extends the block
    whose coins the view holds, and its transactions have new identifiers. *)
Record ready (block : CBlock) (pindex : CBlockIndex) (prev : uint256) (supply : Z) (c : cache V) (U : uset) : Prop := {
  rd_view : represents c U;
  rd_coins : coins_ok U;
  rd_money : 0 <= MAX < 2 ^ 62;
  rd_prev : pprev pindex = Some (prev, nHeight pindex - 1, supply);
  rd_prev_hash : prev ≠ UINT256_ZERO;
  rd_height : block_height prev = Some (nHeight pindex - 1);
  rd_positive : 0 < nHeight pindex;
  rd_genesis : Block.GetHash HashX11KVS block ≠ hashGenesisBlock;
  rd_layout : Block.layout_ok block;
  rd_txs : Forall (tx_ok consensus) (Block.vtx block);
  rd_fresh : fresh_txids (Block.vtx block) U
}.

Lemma GetBestBlock_fresh c U h c' : represents c U → cache_GetBestBlock c = (h, c') → stands c' U h.
Proof.
  intros [Hok Hu]. pose proof (@best_law (cache V) cache_view cache_laws c Hok) as [B1 B2]. cbn in B1, B2.
  intros E. rewrite E in B1, B2. cbn [snd] in B1, B2. split; [split; [done|]; intros o; etransitivity; [apply B2 | apply Hu]|].
  unfold cache_GetBestBlock in E. destruct (decide _); [destruct (GetBestBlock (base c)) as [h' b]|]; by injection E as <- <-.
Qed.

Lemma wait_spec checks : wait checks = Some true → Forall (λ k, run_check k = Some (inr ())) checks.
Proof.
  induction checks as [|k checks IH]; [constructor|]. cbn [wait]. destruct (run_check k) as [[e|[]]|] eqn:Ek; [| |done];
    cbn [mbind option_bind]; destruct (wait checks) as [[|]|]; try done. intros _. constructor; auto.
Qed.

(** What the database holds at burn addresses counts at the height of the last checkpoint. *)
Definition database_burned (height : Z) : Z :=
  if height =? nLastCheckpointHeight
  then foldr (λ x n, (if burns height (scriptPubKey (out x)) then nValue (out x) else 0) + n) 0 database else 0.

Lemma burned_supply_spec height : ∀ n,
  wrap64 (burned_supply height n) = wrap64 (n + foldr (λ x n, (if burns height (scriptPubKey (out x)) then nValue (out x) else 0) + n) 0 database).
Proof.
  unfold burned_supply. induction database as [|x l IH]; intros n; cbn [fold_left foldr]; [f_equal; lia|].
  rewrite IH. destruct (burns _ _); rewrite ?wrap64_add_l; f_equal; lia.
Qed.

(** The result of a block that was connected. *)
Record connects (block : CBlock) (pindex pindex' : CBlockIndex) (supply : Z) (c' : cache V) (U : uset) : Prop := {
  cn_view : stands c' (connect_all (nHeight pindex) (Block.vtx block) U) (hash pindex);
  cn_index : pindex' = mkIndex (hash pindex) (nHeight pindex) (pprev pindex)
    (Some (default (tail (undos (nHeight pindex) (Block.vtx block) U)) (undo pindex))) true
    (wrap64 (supply + (total out_of (nHeight pindex) (Block.vtx block) U - total in_of (nHeight pindex) (Block.vtx block) U
       - total (lost_of (nHeight pindex)) (nHeight pindex) (Block.vtx block) U - database_burned (nHeight pindex))));
  cn_mint : wrap64 (total out_of (nHeight pindex) (Block.vtx block) U - total in_of (nHeight pindex) (Block.vtx block) U
       + total fee_of (nHeight pindex) (Block.vtx block) U) <=
     if Block.IsProofOfWork block then wrap64 (GetBlockValue (nHeight pindex) + total fee_of (nHeight pindex) (Block.vtx block) U)
     else GetBlockValue (nHeight pindex);
  cn_verified : ∃ fCLTV, each (λ tx U, verified (nHeight pindex) (nHeight pindex >=? GetTotalBlocksEstimate) fCLTV tx U
     (λ k, run_check k = Some (inr ()))) (nHeight pindex) (Block.vtx block) U
}.

Lemma ConnectBlock_spec block already pindex prev supply c U state state' pindex' c' :
  ready block pindex prev supply c U → ConnectBlock block false already pindex c state = Some (true, state', pindex', c') →
  connects block pindex pindex' supply c' U.
Proof.
  intros [Hview Hcoins HM Hprev Hz Hbh Hpos Hgen _ Htx Hfr]. unfold ConnectBlock.
  destruct (if already then _ else _) as [[[ok st] e]|]; [|done]. cbn [mbind option_bind].
  destruct ok; cbn [negb]; [|intros E; exfalso; unfold Error in E; destruct (corruptionPossible st); by injection E].
  rewrite Hprev. destruct (cache_GetBestBlock c) as [best c1] eqn:Eb. pose proof (GetBestBlock_fresh c U best c1 Hview Eb) as Hs1.
  case_bool_decide as Hbest; cbn [negb]; [|done]. subst best. rewrite bool_decide_false by done.
  destruct (NetworkUpgradeActive (nHeight pindex) consensus UPGRADE_POS) as [pos|]; [|done]. cbn [mbind option_bind].
  assert (Hrej : ∀ level reason st (i : CBlockIndex) (v : cache V), Some (reject level reason st, i, v) ≠ Some (true, state', pindex', c')).
  { intros level reason st' i v. unfold reject, DoS. by destruct (mode st'). }
  destruct (negb pos && _); [intros E; by destruct (Hrej _ _ _ _ _ E)|].
  destruct (pos && _); [intros E; by destruct (Hrej _ _ _ _ _ E)|].
  set (fs := nHeight pindex >=? GetTotalBlocksEstimate). destruct (if fs then _ else _) as [fc|]; [|done]. cbn [mbind option_bind].
  destruct (connect_txs _ _ _ _ _ _ _ _) as [[r c2]|] eqn:Ec; [|done]. cbn [mbind option_bind].
  pose proof (connect_txs_stands _ _ _ _ _ _ _ _ _ _ _ _ HM Htx Hfr Hs1 Hz Hbh Ec) as Hr.
  destruct r as [[x y]|t]; [cbn in Hr; subst x; by intros E; injection E|].
  destruct Hr as (Hs2 & Ev & Ef & Ei & Eo & Eu & checks & Ek & Hver). cbn [totals_init nFees nValueIn nValueOut nUnspendableValue control vtxundo] in *.
  rewrite Z.add_0_l in Ef, Ei, Eo, Eu. cbn [app] in Ev, Ek.
  unfold connect_end. rewrite Hprev. cbn [mbind option_bind]. replace (nHeight pindex - 1 + 1) with (nHeight pindex) by lia.
  destruct (Z.leb_spec (wrap64 (wrap64 (nValueOut t - nValueIn t) + nFees t))
    (if Block.IsProofOfWork block then wrap64 (GetBlockValue (nHeight pindex) + nFees t) else GetBlockValue (nHeight pindex))) as [Hmint|];
    cbn [negb]; [|intros E; by destruct (Hrej _ _ _ _ _ E)].
  destruct (wait (control t)) as [all|] eqn:Ew; [|done]. cbn [mbind option_bind].
  destruct all; cbn [negb]; [|intros E; by destruct (Hrej _ _ _ _ _ E)].
  assert (Esub : wrap64 (nValueOut t - nValueIn t) = wrap64 (total out_of (nHeight pindex) (Block.vtx block) U - total in_of (nHeight pindex) (Block.vtx block) U)).
  { by rewrite <- wrap64_sub_l, <- wrap64_sub_r, Eo, Ei, wrap64_sub_r, wrap64_sub_l. }
  intros E. injection E as _ _ <- <-. split.
  - destruct Hs2 as [Hs2 _]. by split.
  - rewrite Ev. replace (match undo pindex with None => _ | Some u => u end)
      with (default (tail (undos (nHeight pindex) (Block.vtx block) U)) (undo pindex)) by (by destruct (undo pindex)). f_equal; [done|]. rewrite Esub.
    set (x := if nHeight pindex =? nLastCheckpointHeight then _ else _).
    assert (Ex : wrap64 x = wrap64 (total (lost_of (nHeight pindex)) (nHeight pindex) (Block.vtx block) U + database_burned (nHeight pindex))).
    { unfold x, database_burned. destruct (_ =? _); [|by rewrite Z.add_0_r].
      by rewrite burned_supply_spec, <- wrap64_add_l, Eu, wrap64_add_l. }
    rewrite wrap64_sub_l, <- (wrap64_sub_r _ x), Ex, wrap64_sub_r, wrap64_add_r. f_equal. lia.
  - assert (Em : wrap64 (wrap64 (nValueOut t - nValueIn t) + nFees t) = wrap64 (total out_of (nHeight pindex) (Block.vtx block) U
      - total in_of (nHeight pindex) (Block.vtx block) U + total fee_of (nHeight pindex) (Block.vtx block) U))
      by (by rewrite Esub, wrap64_add_l, <- wrap64_add_r, Ef, wrap64_add_r).
    rewrite <- Em. etransitivity; [exact Hmint|]. destruct (Block.IsProofOfWork block); [|done]. by rewrite <- wrap64_add_r, Ef, wrap64_add_r.
  - exists fc. eapply each_impl; [|exact Hver]. intros tx U' [V1 V2 V3]. split; [done | done|]. intros C1 C2 j txin x Hj Hx.
    destruct (V3 C1 C2 j txin x Hj Hx) as [Hk|Hk]; [|done]. rewrite <- Ek in Hk. apply wait_spec in Ew. by apply (proj1 (Forall_forall _ _) Ew).
Qed.

(** ** The value of the unspent outputs *)

(** The set is finite and its coins are worth [s]. *)
Definition worth (U : uset) (s : Z) : Prop :=
  ∃ m : gmap COutPoint Coin, (∀ o, U o = m !! o) ∧ s = map_fold (λ _ x n, nValue (out x) + n) 0 m.

Lemma worth_ext U U' s : worth U s → (∀ o, U o = U' o) → worth U' s.
Proof. intros (m & Hm & Hs) HE. exists m. split; [|done]. intros o. by rewrite <- HE. Qed.

Lemma worth_add U s o x : worth U s → U o = None → worth (set_coin o (Some x) U) (s + nValue (out x)).
Proof.
  intros (m & Hm & ->) Ho. exists (<[o := x]> m). split.
  - intros o'. unfold set_coin. destruct (decide (o' = o)) as [->|]; [by rewrite lookup_insert_eq | by rewrite lookup_insert_ne].
  - rewrite map_fold_insert_L; [lia | intros; lia | by rewrite <- Hm].
Qed.

Lemma worth_spend U s o x : worth U s → U o = Some x → worth (set_coin o None U) (s - nValue (out x)).
Proof.
  intros (m & Hm & ->) Ho. exists (delete o m). rewrite Hm in Ho. split.
  - intros o'. unfold set_coin. destruct (decide (o' = o)) as [->|]; [by rewrite lookup_delete_eq | by rewrite lookup_delete_ne].
  - rewrite (map_fold_delete_L _ _ o x m); [lia | intros; lia | done].
Qed.

Lemma worth_nonneg U s : coins_ok U → worth U s → 0 <= s.
Proof.
  intros HU (m & Hm & ->). assert (Hv : ∀ o x, m !! o = Some x → 0 <= nValue (out x)).
  { intros o x Hx. rewrite <- Hm in Hx. apply (HU o x Hx). }
  clear - Hv. revert Hv. apply (map_fold_weak_ind (λ n m, (∀ o x, m !! o = Some x → 0 <= nValue (out x)) → 0 <= n)); [done|].
  intros o x m' n Ho IH Hv. assert (0 <= n).
  { apply IH. intros o' x' Hx'. apply (Hv o'). rewrite lookup_insert_ne; [done|]. intros ->. congruence. }
  specialize (Hv o x (lookup_insert_eq _ _ _)). lia.
Qed.

Lemma worth_spend_all vin : ∀ U s, worth U s → NoDup (map prevout vin) → present vin U → worth (spend_all vin U) (s - sum_inputs vin U).
Proof.
  induction vin as [|i vin IH]; intros U s Hw Hd Hp.
  { cbn. rewrite Z.sub_0_r. eapply worth_ext; [exact Hw|]. intros o. unfold spend_all. by rewrite decide_False by (by intros ?%elem_of_nil). }
  cbn [map] in Hd. apply NoDup_cons in Hd as [Hi Hd]. apply Forall_cons in Hp as [[x Hx] Hp].
  assert (Hsame : ∀ j, j ∈ vin → set_coin (prevout i) None U (prevout j) = U (prevout j)).
  { intros j Hj. unfold set_coin. rewrite decide_False; [done|]. intros E. apply Hi. rewrite <- E. by apply (list_elem_of_fmap_2 prevout). }
  assert (Es : sum_inputs vin (set_coin (prevout i) None U) = sum_inputs vin U).
  { clear - Hsame. unfold sum_inputs. induction vin as [|j vin IH]; cbn; [done|]. rewrite Hsame by left. rewrite IH; [done|]. intros k Hk. apply Hsame. by right. }
  specialize (IH _ _ (worth_spend U s _ x Hw Hx) Hd). rewrite Es in IH. unfold sum_inputs in *. cbn [foldr]. rewrite Hx. cbn [coin_value].
  eapply worth_ext; [replace (s - (nValue (out x) + foldr (λ i n, coin_value (U (prevout i)) + n) 0 vin))
    with (s - nValue (out x) - foldr (λ i n, coin_value (U (prevout i)) + n) 0 vin) by lia; apply IH|].
  - apply Forall_forall. intros j Hj. rewrite Hsame by done. by apply (proj1 (Forall_forall _ _) Hp).
  - intros o. unfold spend_all, set_coin. cbn [map]. clear. destruct (decide (o ∈ map prevout vin)); [by rewrite decide_True by (by right)|].
    destruct (decide (o = prevout i)) as [->|]; [by rewrite decide_True by left | by rewrite decide_False by (by intros [?|?]%elem_of_cons)].
Qed.

Lemma worth_outputs txid cb cs h vout : ∀ i U s, (∀ j, i <= j → U (txid, j) = None) → worth U s →
  worth (add_outputs txid cb cs h i vout U) (s + (sum_values vout - unspendable vout)).
Proof.
  induction vout as [|o vout IH]; intros i U s Hn Hw; [cbn; by rewrite Z.add_0_r|]. cbn [add_outputs].
  change (sum_values (o :: vout)) with (nValue o + sum_values vout). unfold unspendable in *. cbn [foldr]. unfold add_coin. cbn [out].
  destruct (Script.IsUnspendable (scriptPubKey o)).
  - replace (s + _) with (s + (sum_values vout - foldr (λ o n, (if Script.IsUnspendable (scriptPubKey o) then nValue o else 0) + n) 0 vout)) by lia.
    apply IH; [|done]. intros j Hj. apply Hn. lia.
  - replace (s + _) with (s + nValue o + (sum_values vout - foldr (λ o n, (if Script.IsUnspendable (scriptPubKey o) then nValue o else 0) + n) 0 vout)) by lia.
    apply IH; [|apply (worth_add U s _ (mkCoin cb cs o h)); [done | apply Hn; lia]].
    intros j Hj. unfold set_coin. rewrite decide_False by (intros [= E]; lia). apply Hn. lia.
Qed.

Definition unspendable_of (tx : CTransaction) (U : uset) : Z := unspendable (vout tx).

Lemma worth_connected tx h U s :
  worth U s → tx_ok consensus tx → new_txid tx U → (IsCoinBase tx = false → present (vin tx) U) →
  worth (connected tx h U) (s + (out_of tx U - in_of tx U - unspendable_of tx U)).
Proof.
  intros Hw Htx Hn Hp. unfold connected, add_tx, out_of, in_of, unspendable_of. destruct (IsCoinBase tx).
  - replace (s + _) with (s + (sum_values (vout tx) - unspendable (vout tx))) by lia. apply worth_outputs; [|done]. intros j _. apply Hn.
  - replace (s + _) with (s - sum_inputs (vin tx) U + (sum_values (vout tx) - unspendable (vout tx))) by lia. apply worth_outputs.
    + intros j _. unfold spend_all. destruct (decide _); [done | apply Hn].
    + apply worth_spend_all; [done | apply Htx | auto].
Qed.

Lemma worth_connect_all h txs : ∀ U s,
  worth U s → Forall (tx_ok consensus) txs → fresh_txids txs U → each (λ tx U, IsCoinBase tx = false → present (vin tx) U) h txs U →
  worth (connect_all h txs U) (s + (total out_of h txs U - total in_of h txs U - total unspendable_of h txs U)).
Proof.
  induction txs as [|tx txs IH]; intros U s Hw Ht Hf He; [cbn; by rewrite Z.add_0_r|]. apply Forall_cons in Ht as [Ht1 Ht2].
  apply (fresh_cons _ _ h) in Hf as [Hn Hf]. destruct He as [He1 He2]. cbn [connect_all total].
  specialize (IH _ _ (worth_connected tx h U s Hw Ht1 Hn He1) Ht2 Hf He2).
  match goal with H : worth _ ?a |- worth _ ?b => replace b with a by lia end. exact IH.
Qed.

(** ** The value a block mints *)

(** The coinbase and the coinstakes. *)
Definition minters (txs : list CTransaction) : Z := Z.of_nat (length (List.filter (λ tx, IsCoinBase tx || IsCoinStake tx) txs)).

Lemma total_mint h txs : ∀ U,
  0 <= MAX → Forall (tx_ok consensus) txs →
  each (λ tx U, IsCoinBase tx = false → 0 <= sum_inputs (vin tx) U <= MAX ∧ (IsCoinStake tx = false → sum_values (vout tx) <= sum_inputs (vin tx) U)) h txs U →
  0 <= total fee_of h txs U ∧ 0 <= total unspendable_of h txs U ∧
  - (minters txs * MAX) <= total out_of h txs U - total in_of h txs U + total fee_of h txs U <= minters txs * MAX.
Proof.
  induction txs as [|tx txs IH]; intros U HM Ht He; [unfold minters; cbn [List.filter length total]; lia|]. apply Forall_cons in Ht as [Ht1 Ht2]. destruct He as [He1 He2].
  destruct (IH _ HM Ht2 He2) as (I1 & I2 & I3). destruct (tx_ok_outputs tx Ht1) as [Ho Hsum]. cbn [total].
  assert (Hu : 0 <= unspendable_of tx U).
  { unfold unspendable_of, unspendable. clear - Ho. induction Ho as [|o l [_ Hv] _ IH]; cbn [foldr]; [lia|]. destruct (Script.IsUnspendable _); lia. }
  assert (Em : minters (tx :: txs) = (if IsCoinBase tx || IsCoinStake tx then 1 else 0) + minters txs).
  { unfold minters. cbn [List.filter]. destruct (_ || _); cbn [length]; lia. }
  assert (Hc : 0 <= fee_of tx U ∧ - ((if IsCoinBase tx || IsCoinStake tx then 1 else 0) * MAX) <= out_of tx U - in_of tx U + fee_of tx U
    <= (if IsCoinBase tx || IsCoinStake tx then 1 else 0) * MAX).
  { unfold fee_of, out_of, in_of. destruct (IsCoinBase tx); cbn [orb]; [lia|]. destruct (He1 eq_refl) as [Hin Hle].
    destruct (IsCoinStake tx); [lia|]. specialize (Hle eq_refl). lia. }
  rewrite Em, Z.mul_add_distr_r. lia.
Qed.
End Laws.

(** ** Theorems *)

Section Theorems.
Context {V : Type} `{CoinsViewLaws V} {env : Env}.
Implicit Types c : cache V.

Lemma each_at P h pre tx post : ∀ U, each P h (pre ++ tx :: post) U → P tx (connect_all h pre U).
Proof. induction pre as [|tx' pre IH]; intros U; cbn; [by intros [? _] | intros [_ ?]; auto]. Qed.

Lemma undo_opts_some h txs : ∀ U, Forall (λ tx, IsCoinBase tx = false) txs → undo_opts h txs U = map Some (undos h txs U).
Proof.
  induction txs as [|tx txs IH]; intros U Hc; [done|]. apply Forall_cons in Hc as [Hc1 Hc2]. cbn. rewrite IH by done.
  unfold undo_opt. by rewrite Hc1.
Qed.

Lemma length_undos h txs : ∀ U, length (undos h txs U) = length txs.
Proof. induction txs as [|tx txs IH]; intros U; cbn; [done|]. by rewrite IH. Qed.

(** C1: Disconnecting a block restores the set of unspent outputs that was there before it was
    connected, and the best block of the view, with the undo data that connecting wrote. *)
Theorem connect_disconnect block already pindex prev supply c U state state' pindex' c' :
  ready block pindex prev supply c U → undo pindex = None → hash pindex ≠ UINT256_ZERO →
  ConnectBlock block false already pindex c state = Some (true, state', pindex', c') →
  rewards_disconnect = true → masternodes_disconnect block = true →
  ∃ c'', DisconnectBlock block pindex' c' = Some (DISCONNECT_OK, c'') ∧ represents c'' U ∧ hashBlock c'' = prev.
Proof.
  intros Hr Hundo Hz E Hrew Hmn. destruct (ConnectBlock_spec _ _ _ _ _ _ _ _ _ _ _ Hr E) as [Hs -> _ (fc & He)].
  destruct Hr as [_ Hcoins HM Hprev _ _ Hpos _ (_ & _ & tx0 & txs & Etx & Hcb & Hncb & _) Htx Hfr].
  unfold DisconnectBlock. rewrite (GetBestBlock_stands _ _ _ Hs Hz). cbn [hash undo pprev]. rewrite bool_decide_true by done. cbn [negb].
  rewrite Hundo, Hprev. cbn [default mbind option_bind]. rewrite Etx. cbn [undos tail length]. rewrite length_undos.
  replace (length txs + 1 =? S (length txs))%nat with true by (symmetry; apply Nat.eqb_eq; lia). cbn [negb].
  assert (Eo : None :: map Some (undos (nHeight pindex) txs (connected tx0 (nHeight pindex) U)) = undo_opts (nHeight pindex) (tx0 :: txs) U).
  { cbn [undo_opts]. rewrite undo_opts_some by done. unfold undo_opt. by rewrite Hcb. }
  rewrite Eo, <- Etx, <- (app_nil_r (reverse _)).
  destruct (disconnect_txs_stands (nHeight pindex) (Block.vtx block) U c' (hash pindex) [] HM ltac:(lia) Htx Hfr Hcoins) as (c1 & -> & Hs1); [|done|].
  { eapply each_impl; [|exact He]. by intros tx U' [? _ _]. }
  cbn [disconnect_txs mbind option_bind]. eexists. split; [by rewrite Hrew, Hmn; destruct IsInitialBlockDownload|].
  destruct Hs1 as [[Hok Hu] _]. by split.
Qed.

(** C11: The money supply in the block index follows the value of the unspent outputs: it grows
    by what the set gains, less what goes to burn addresses. *)
Theorem money_supply_follows block already pindex prev supply c U s state state' pindex' c' :
  ready block pindex prev supply c U → worth U s →
  ConnectBlock block false already pindex c state = Some (true, state', pindex', c') →
  ∃ s', worth (cache_utxo c') s' ∧
    nMoneySupply pindex' = wrap64 (supply + (s' - s) - total (λ tx _, burned (nHeight pindex) tx) (nHeight pindex) (Block.vtx block) U
                                   - database_burned (nHeight pindex)).
Proof.
  intros Hr Hw E. destruct (ConnectBlock_spec _ _ _ _ _ _ _ _ _ _ _ Hr E) as [[[_ Hu] _] -> _ (fc & He)].
  destruct Hr as [_ _ _ _ _ _ _ _ _ Htx Hfr]. cbn [nMoneySupply].
  eexists. split.
  - eapply worth_ext; [apply (worth_connect_all (nHeight pindex) (Block.vtx block) U s Hw Htx Hfr) | intros o; by rewrite Hu].
    eapply each_impl; [|exact He]. by intros tx U' [? _ _].
  - f_equal. assert (El : ∀ txs U, total (lost_of (nHeight pindex)) (nHeight pindex) txs U = total unspendable_of (nHeight pindex) txs U +
      total (λ tx _, burned (nHeight pindex) tx) (nHeight pindex) txs U); [|rewrite El; lia].
    induction txs as [|tx txs IH]; intros U'; cbn [total]; [done|]. rewrite IH. unfold lost_of, unspendable_of. lia.
Qed.

(** C2: Above the checkpoints a block adds at most the reward of its height to the value of the
    unspent outputs, whatever its transactions do: values do not appear from nowhere, and
    the sums in [int64_t] that wrap on the way do not hide it. *)
Theorem no_inflation block already pindex prev supply c U s state state' pindex' c' :
  ready block pindex prev supply c U → worth U s → GetTotalBlocksEstimate < nHeight pindex →
  0 <= GetBlockValue (nHeight pindex) → GetBlockValue (nHeight pindex) + s + minters (Block.vtx block) * nMaxMoneyOut consensus < 2 ^ 63 →
  ConnectBlock block false already pindex c state = Some (true, state', pindex', c') →
  ∃ s', worth (cache_utxo c') s' ∧ 0 <= s' <= s + GetBlockValue (nHeight pindex).
Proof.
  intros Hr Hw Hest Hrew Hbound E. destruct (ConnectBlock_spec _ _ _ _ _ _ _ _ _ _ _ Hr E) as [[[_ Hu] _] _ Hmint (fc & He)].
  destruct Hr as [_ Hcoins HM _ _ _ Hpos _ _ Htx Hfr]. fold MAX in Hbound. set (h := nHeight pindex) in *.
  assert (Hw' : worth (connect_all h (Block.vtx block) U)
    (s + (total out_of h (Block.vtx block) U - total in_of h (Block.vtx block) U - total unspendable_of h (Block.vtx block) U))).
  { apply worth_connect_all; [done | done | done|]. eapply each_impl; [|exact He]. by intros tx U' [? _ _]. }
  destruct (total_mint h (Block.vtx block) U) as (Hfee & Hun & Hm); [lia | done | |].
  { eapply each_impl; [|exact He]. intros tx U' [_ Hv _] Hcb. by apply Hv. }
  pose proof (worth_nonneg _ _ (connect_all_ok h (Block.vtx block) U ltac:(lia) Htx Hcoins) Hw') as Hnn.
  pose proof (worth_nonneg _ _ Hcoins Hw) as Hs0.
  eexists. split; [eapply worth_ext; [exact Hw' | intros o; by rewrite Hu]|].
  rewrite wrap64_small in Hmint by lia. destruct (Block.IsProofOfWork block); [rewrite wrap64_small in Hmint by lia|]; lia.
Qed.

(** C3: From the last checkpoint on, every input of a connected block spends a coin that was
    unspent at that point of the block, and its script was verified against this coin. *)
Theorem spends_are_verified block already pindex prev supply c U state state' pindex' c' pre tx post i txin :
  ready block pindex prev supply c U → GetTotalBlocksEstimate <= nHeight pindex →
  ConnectBlock block false already pindex c state = Some (true, state', pindex', c') →
  Block.vtx block = pre ++ tx :: post → IsCoinBase tx = false → vin tx !! i = Some txin →
  ∃ coin flags, connect_all (nHeight pindex) pre U (prevout txin) = Some coin ∧ has flags SCRIPT_VERIFY_P2SH = true ∧
    VerifyScript (checker := signature_checker tx i (nValue (out coin))) ripemd160 sha1 CheckLowS (scriptSig txin) (scriptPubKey (out coin)) flags
    = Some (inr ()).
Proof.
  intros Hr Hest E Etx Hcb Hi. destruct (ConnectBlock_spec _ _ _ _ _ _ _ _ _ _ _ Hr E) as [_ _ _ (fc & He)].
  rewrite Etx in He. apply each_at in He as [Hp _ Hsc]. specialize (Hp Hcb). specialize (Hsc Hcb ltac:(by apply Z.geb_le)).
  pose proof (proj1 (Forall_lookup _ _) Hp i txin Hi) as [coin Hcoin]. specialize (Hsc i txin coin Hi Hcoin).
  exists coin, (block_flags fc). split; [done|]. split; [by destruct fc|]. unfold run_check in Hsc. cbn in Hsc. by rewrite Hi in Hsc.
Qed.

(** C38: Restoring a coin that is already there does not end with [DISCONNECT_UNCLEAN]: the
    exception of [AddCoin] ends it. *)
Theorem ApplyTxInUndo_throws u o c U :
  represents c U → is_Some (U o) → coin_ok u → ApplyTxInUndo u o c = None.
Proof.
  intros [Hok Hu] [x Hx] (Hu1 & Hu2 & Hu3). unfold ApplyTxInUndo, HaveCoin.
  pose proof (FetchCoin_spec o c Hok) as Hf. destruct (FetchCoin o c) as [it c1]. destruct Hf as (_ & _ & F3 & F4 & _).
  rewrite Hu, Hx in F4. destruct it as [e|]; [|done]. cbn in F4. apply visible_Some in F4 as [_ Hsp].
  destruct (Z.eqb_spec (Coins.nHeight u) 0); [done|]. unfold AddCoin.
  rewrite Hu1, F3. cbn. rewrite Hsp. by destruct (IsSpent u).
Qed.
End Theorems.

(** ** A block *)

Definition old_id : uint256 := replicate 32 7.
Definition prev_id : uint256 := replicate 32 8.
Definition block_id : uint256 := replicate 32 9.

Definition old_coin : Coin := mkCoin false false (TxOut 100 [Script.OP_1]) 5.

(** A coinbase of 50 and a payment of 90 from the coin of 100. *)
Definition coinbase_tx : CTransaction := mkTx (replicate 32 1) 1 [mkTxIn null_outpoint [1; 2; 3] UINT32_MAX []] [TxOut 50 [Script.OP_1]] 0.
Definition payment_tx : CTransaction := mkTx (replicate 32 2) 1 [mkTxIn (old_id, 0) [] UINT32_MAX []] [TxOut 90 [Script.OP_1]; TxOut 0 [Script.OP_RETURN]] 0.

Definition the_block : CBlock :=
  Block.mkBlock (Block.mkHeader 3 prev_id UINT256_ZERO 100 0x207fffff 5 UINT256_ZERO) [coinbase_tx; payment_tx] [] false.
Definition the_index : CBlockIndex := mkIndex block_id 10 (Some (prev_id, 9, 1000)) None false 0.
Definition the_cache : cache CCoinsViewDB := mkCache (mkDB {[(old_id, 0) := old_coin]} (Some prev_id)) ∅ UINT256_ZERO.

#[local] Instance the_env : Env := {|
  consensus := main_params; hashGenesisBlock := []; HashX11KVS _ := block_id; GetTotalBlocksEstimate := 3; nLastCheckpointHeight := 3;
  block_height h := if bool_decide (h = prev_id) then Some 9 else None; GetBlockValue _ := 50; ExtractAddress _ := None; mBurnAddresses := [];
  database := []; nScriptCheckThreads := 4; signature_checker _ _ _ := toy_checker; ripemd160 := take 20; sha1 := take 20; CheckLowS _ := true;
  check_block _ _ _ state := Some (true, state, Block.NoEffect); IsInitialBlockDownload := false; rewards_connect _ _ := true;
  masternodes_connect _ := true; rewards_disconnect := true; masternodes_disconnect _ := true; depth_message _ := String.EmptyString;
  below_message _ _ := String.EmptyString; ScriptErrorString _ := String.EmptyString
|}.

Definition the_result := ConnectBlock the_block false true the_index the_cache CValidationState_init.

Lemma the_result_ok : ∃ p c, the_result = Some (true, CValidationState_init, p, c).
Proof. eexists _, _. vm_compute. reflexivity. Qed.

Lemma the_block_ready : ready the_block the_index prev_id 1000 the_cache (cache_utxo the_cache).
Proof.
  assert (Hcoin : ∀ o x, cache_utxo the_cache o = Some x → o = (old_id, 0) ∧ x = old_coin).
  { intros o x. unfold cache_utxo. cbn. by intros [<- <-]%lookup_singleton_Some. }
  split; try done.
  - split; [|done]. split; [|by intros o e]. intros o x. cbn. intros [<- <-]%lookup_singleton_Some. done.
  - intros o x Hx. apply Hcoin in Hx as [_ ->]. by repeat split.
  - split; [vm_compute; discriminate|]. split; [vm_compute; discriminate|]. exists coinbase_tx, [payment_tx].
    split; [done|]. split; [done|]. split; [by apply Forall_singleton | done].
  - apply Forall_cons. split; [|apply Forall_singleton].
    + split; [done|]. split; [done|]. split; [vm_compute; discriminate|]. split; [split; [by apply Forall_singleton | done]|].
      split; [apply NoDup_singleton|]. change (∀ i, vin coinbase_tx = [i] → 2 <= Z.of_nat (length (scriptSig i)) <= 150). by intros i [= <-].
    + split; [done|]. split; [done|]. split; [vm_compute; discriminate|].
      split; [split; [apply Forall_cons; split; [by split | by apply Forall_singleton] | done]|].
      split; [apply NoDup_singleton | by apply Forall_singleton].
  - split; [apply NoDup_cons; split; [by intros ?%list_elem_of_singleton | apply NoDup_singleton]|].
    intros tx Htx i. destruct (cache_utxo the_cache (GetHash tx, i)) as [x|] eqn:E; [|done]. apply Hcoin in E as [[= E _] _].
    apply elem_of_cons in Htx as [Htx|Htx%list_elem_of_singleton]; by subst tx.
Qed.

Lemma the_worth : worth (cache_utxo the_cache) 100.
Proof. exists {[(old_id, 0) := old_coin]}. split; [done|]. by rewrite map_fold_singleton. Qed.

Lemma connect_disconnect_witness :
  ∃ p c c'', the_result = Some (true, CValidationState_init, p, c) ∧ DisconnectBlock the_block p c = Some (DISCONNECT_OK, c'') ∧
    represents c'' (cache_utxo the_cache) ∧ hashBlock c'' = prev_id.
Proof.
  destruct the_result_ok as (p & c & E). exists p, c.
  destruct (connect_disconnect the_block true the_index prev_id 1000 the_cache (cache_utxo the_cache) CValidationState_init
    CValidationState_init p c the_block_ready eq_refl ltac:(discriminate) E eq_refl eq_refl) as (c'' & Ed & Hr & Hb).
  exists c''. split; [exact E|]. split; [exact Ed|]. split; [exact Hr | exact Hb].
Defined.

Lemma money_supply_follows_witness :
  ∃ p c s', the_result = Some (true, CValidationState_init, p, c) ∧ worth (cache_utxo c) s' ∧ nMoneySupply p = wrap64 (1000 + (s' - 100) - 0 - 0).
Proof.
  destruct the_result_ok as (p & c & E). exists p, c.
  destruct (money_supply_follows the_block true the_index prev_id 1000 the_cache (cache_utxo the_cache) 100 CValidationState_init
    CValidationState_init p c the_block_ready the_worth E) as (s' & Hw & Hs).
  exists s'. split; [exact E|]. split; [exact Hw | exact Hs].
Defined.

Lemma no_inflation_witness :
  ∃ p c s', the_result = Some (true, CValidationState_init, p, c) ∧ worth (cache_utxo c) s' ∧ 0 <= s' <= 150.
Proof.
  destruct the_result_ok as (p & c & E). exists p, c.
  destruct (no_inflation the_block true the_index prev_id 1000 the_cache (cache_utxo the_cache) 100 CValidationState_init
    CValidationState_init p c the_block_ready the_worth ltac:(reflexivity) ltac:(discriminate) ltac:(reflexivity) E) as (s' & Hw & Hs).
  exists s'. split; [exact E|]. split; [exact Hw | exact Hs].
Defined.

Lemma spends_are_verified_witness :
  ∃ coin flags, connect_all 10 [coinbase_tx] (cache_utxo the_cache) (old_id, 0) = Some coin ∧ has flags SCRIPT_VERIFY_P2SH = true ∧
    VerifyScript (checker := toy_checker) (take 20) (take 20) (λ _, true) [] (scriptPubKey (out coin)) flags = Some (inr ()).
Proof.
  destruct the_result_ok as (p & c & E).
  exact (spends_are_verified the_block true the_index prev_id 1000 the_cache (cache_utxo the_cache) CValidationState_init
    CValidationState_init p c [coinbase_tx] payment_tx [] 0 (mkTxIn (old_id, 0) [] UINT32_MAX []) the_block_ready ltac:(discriminate) E
    eq_refl eq_refl eq_refl).
Defined.

Lemma ApplyTxInUndo_throws_witness : ApplyTxInUndo old_coin (old_id, 0) the_cache = None.
Proof.
  apply (ApplyTxInUndo_throws old_coin (old_id, 0) the_cache (cache_utxo the_cache));
    [apply (rd_view _ _ _ _ _ _ the_block_ready) | by eexists | by repeat split].
Defined.

End Connect.
