(* ===== verification/Activate.v ===== *)
(** * src/main.cpp: choosing and activating the best chain

    The node keeps the tree of block headers ([Chain]), the branch that is active, and the
    set of the blocks that could become its tip, ordered by work.  [FindMostWorkChain] picks
    the best of them, [ActivateBestChainStep] disconnects the active branch down to the fork
    and connects the other one, and [ActivateBestChain] repeats both until the tip is the best
    block: a block that [ConnectBlock] refuses is marked, and the choice is made again.
    [ReceivedBlockTransactions], [InvalidateBlock] and [ReconsiderBlock] change what there is
    to choose from.

    The class [ChainState] is what these functions call: block files, the view of the coins
    with [ConnectBlock] and [DisconnectBlock], and the writing to disk.  [ChainStateLaws] is
    what they rely on: a chain state is that of a branch, connecting a block moves it up and
    disconnecting one moves it down.  Which blocks connect is left open; [Node] implements the
    interface with the functions of [Connect].

    [None] is a failed assertion, a null dereference, an exception, or the end of the fuel; the
    theorems show that none of them happens unless [ConnectBlock] or [DisconnectBlock] throws
    ([orderly]).  The memory pool, the peers that sent a block,
    warnings, notifications, logs and times are left out.  The lock is released between two
    steps of [ActivateBestChain] in the code; the model is a run during which no other thread
    takes it. *)

From stdpp Require Import base option gmap fin_maps relations sorting list.
From Stdlib Require Import ZArith Lia.
From Stdlib Require String.
Import (notations) String.
From S2P Require Import Prelude Arith Work Consensus Tx Chain.
Import Chain.
Open Scope Z_scope.

Module Activate.

Abbreviation CValidationState := Tx.CValidationState.

(** ** The state *)

Definition BLOCK_VALID_TRANSACTIONS : Z := 3.
Definition BLOCK_VALID_SCRIPTS : Z := 5.
Definition BLOCK_HAVE_DATA : Z := 8.
Definition BLOCK_HAVE_UNDO : Z := 16.
Definition BLOCK_FAILED_VALID : Z := 32.
Definition BLOCK_FAILED_CHILD : Z := 64.

(** The members of [CBlockIndex] that [Chain] leaves out and that are used here; they start
    at zero. *)
Record fields : Type := mkFields { nTx : Z; nChainTx : Z; nSequenceId : Z; nFile : Z; nDataPos : Z }.
Definition no_fields : fields := mkFields 0 0 0 0 0.

Definition set_chain_tx (n : Z) (f : fields) : fields := mkFields (nTx f) n (nSequenceId f) (nFile f) (nDataPos f).
Definition set_sequence (n : Z) (f : fields) : fields := mkFields (nTx f) (nChainTx f) n (nFile f) (nDataPos f).

(** [CDiskBlockPos]; [SetNull()]. *)
Abbreviation CDiskBlockPos := (Z * Z)%type.
Definition null_pos : CDiskBlockPos := (-1, 0).

Inductive FlushStateMode : Type := FLUSH_STATE_IF_NEEDED | FLUSH_STATE_PERIODIC | FLUSH_STATE_ALWAYS.
Inductive DisconnectResult : Type := DISCONNECT_OK | DISCONNECT_UNCLEAN | DISCONNECT_FAILED.

(** What the functions below call: [B] are blocks, [C] the views of the coins, [W] what
    [ConnectBlock] and [DisconnectBlock] read and write besides (files, masternodes, rewards). *)
Class ChainState (B W C : Type) : Type := {
  GetHash : B → list Z;
  vtx_size : B → Z;
  (** [ReadBlockFromDisk(block, pos)]. *)
  read_block : W → CDiskBlockPos → option B;
  (** The verdict, the state, whether the undo data was written, and the view. *)
  ConnectBlock : heap → B → ptr → bool → W → C → CValidationState → option (bool * CValidationState * bool * W * C);
  DisconnectBlock : heap → B → ptr → W → C → option (DisconnectResult * W * C);
  (** The verdict, the state, whether the block index was written, and the view. *)
  FlushStateToDisk : FlushStateMode → W → C → CValidationState → bool * CValidationState * bool * C
}.

(** The globals: the block index, the other members of its objects, [chainActive],
    [setBlockIndexCandidates] in its order, [pindexBestInvalid], [mapBlocksUnlinked],
    [nBlockSequenceId], the files and [pcoinsTip]. *)
Record node (W C : Type) : Type := mkNode {
  idx : index; members : gmap ptr fields; vChain : chain; setBlockIndexCandidates : list ptr; pindexBestInvalid : option ptr;
  mapBlocksUnlinked : list (ptr * ptr); nBlockSequenceId : Z; files : W; pcoinsTip : C
}.
Arguments mkNode {W C}. Arguments idx {W C}. Arguments members {W C}. Arguments vChain {W C}.
Arguments setBlockIndexCandidates {W C}. Arguments pindexBestInvalid {W C}. Arguments mapBlocksUnlinked {W C}.
Arguments nBlockSequenceId {W C}. Arguments files {W C}. Arguments pcoinsTip {W C}.

Section Operations.
Context {B W C : Type} `{!ChainState B W C}.
Implicit Types s : node W C.

Definition hp (s : node W C) : heap := objects (idx s).
Definition member (s : node W C) (p : ptr) : fields := default no_fields (members s !! p).
Definition Tip (s : node W C) : option ptr := Chain.Tip (vChain s).

Definition with_index (i : index) s : node W C :=
  mkNode i (members s) (vChain s) (setBlockIndexCandidates s) (pindexBestInvalid s) (mapBlocksUnlinked s) (nBlockSequenceId s) (files s) (pcoinsTip s).
Definition with_members (m : gmap ptr fields) s : node W C :=
  mkNode (idx s) m (vChain s) (setBlockIndexCandidates s) (pindexBestInvalid s) (mapBlocksUnlinked s) (nBlockSequenceId s) (files s) (pcoinsTip s).
Definition with_chain (v : chain) s : node W C :=
  mkNode (idx s) (members s) v (setBlockIndexCandidates s) (pindexBestInvalid s) (mapBlocksUnlinked s) (nBlockSequenceId s) (files s) (pcoinsTip s).
Definition with_candidates (l : list ptr) s : node W C :=
  mkNode (idx s) (members s) (vChain s) l (pindexBestInvalid s) (mapBlocksUnlinked s) (nBlockSequenceId s) (files s) (pcoinsTip s).
Definition with_invalid (p : option ptr) s : node W C :=
  mkNode (idx s) (members s) (vChain s) (setBlockIndexCandidates s) p (mapBlocksUnlinked s) (nBlockSequenceId s) (files s) (pcoinsTip s).
Definition with_unlinked (l : list (ptr * ptr)) s : node W C :=
  mkNode (idx s) (members s) (vChain s) (setBlockIndexCandidates s) (pindexBestInvalid s) l (nBlockSequenceId s) (files s) (pcoinsTip s).
Definition with_sequence (n : Z) s : node W C :=
  mkNode (idx s) (members s) (vChain s) (setBlockIndexCandidates s) (pindexBestInvalid s) (mapBlocksUnlinked s) n (files s) (pcoinsTip s).
Definition with_state (w : W) (c : C) s : node W C :=
  mkNode (idx s) (members s) (vChain s) (setBlockIndexCandidates s) (pindexBestInvalid s) (mapBlocksUnlinked s) (nBlockSequenceId s) w c.

Definition with_objects (h : heap) s : node W C :=
  with_index (mkIdx h (mapBlockIndex (idx s)) (pindexBestHeader (idx s)) (setDirtyBlockIndex (idx s))) s.
Definition with_dirty (d : gset ptr) s : node W C :=
  with_index (mkIdx (hp s) (mapBlockIndex (idx s)) (pindexBestHeader (idx s)) d) s.

(** [setDirtyBlockIndex.insert(p)]. *)
Definition dirty (p : ptr) s : node W C := with_dirty ({[p]} ∪ setDirtyBlockIndex (idx s)) s.

(** [p->nStatus |= flag] and [p->nStatus &= ~flag]. *)
Definition add_flag (flag : Z) (e : CBlockIndex) : CBlockIndex := set_status (nStatus e .| flag) e.
Definition drop_flag (flag : Z) (e : CBlockIndex) : CBlockIndex := set_status (nStatus e .& Z.lnot flag) e.
Definition mark (flag : Z) (p : ptr) s : node W C := with_objects (alter (add_flag flag) p (hp s)) s.
Definition unmark (flag : Z) (p : ptr) s : node W C := with_objects (alter (drop_flag flag) p (hp s)) s.

Definition has_flag (e : CBlockIndex) (flag : Z) : bool := negb (nStatus e .& flag =? 0).

(** ** The order of the candidates *)

Definition null_entry : CBlockIndex := mkIndex [] None None 0 (Arith.zero Arith.WIDTH) 0 0 0.
Definition work_of s (p : ptr) : list Z := nChainWork (default null_entry (hp s !! p)).

(** [CBlockIndexWorkComparator]; pointers compare as addresses. *)
Definition CBlockIndexWorkComparator s (pa pb : ptr) : bool :=
  if Arith.CompareTo (work_of s pa) (work_of s pb) >? 0 then false
  else if Arith.CompareTo (work_of s pa) (work_of s pb) <? 0 then true
  else if nSequenceId (member s pa) <? nSequenceId (member s pb) then false
  else if nSequenceId (member s pa) >? nSequenceId (member s pb) then true
  else if (pa <? pb)%positive then false
  else if (pb <? pa)%positive then true
  else false.

(** [insert] and [erase] of an ordered set. *)
Fixpoint set_insert (less : ptr → ptr → bool) (p : ptr) (l : list ptr) : list ptr :=
  match l with
  | [] => [p]
  | q :: l' => if less q p then q :: set_insert less p l' else if less p q then p :: l else l
  end.
Fixpoint set_erase (less : ptr → ptr → bool) (p : ptr) (l : list ptr) : list ptr :=
  match l with
  | [] => []
  | q :: l' => if less q p then q :: set_erase less p l' else if less p q then l else l'
  end.

Definition insert_candidate (p : ptr) s : node W C :=
  with_candidates (set_insert (CBlockIndexWorkComparator s) p (setBlockIndexCandidates s)) s.
Definition erase_candidate (p : ptr) s : node W C :=
  with_candidates (set_erase (CBlockIndexWorkComparator s) p (setBlockIndexCandidates s)) s.

(** [pa->nChainWork > pb->nChainWork]. *)
Definition more_work s (pa pb : ptr) : bool := Arith.CompareTo (work_of s pa) (work_of s pb) >? 0.

(** ** Invalid blocks *)

(** [pindexBestInvalid == NULL || pindexNew->nChainWork > pindexBestInvalid->nChainWork]. *)
Definition worse_invalid (pindexNew : ptr) s : node W C :=
  match pindexBestInvalid s with
  | None => with_invalid (Some pindexNew) s
  | Some b => if more_work s pindexNew b then with_invalid (Some pindexNew) s else s
  end.

(** The assertion is that of the log message: there is a tip. *)
Definition InvalidChainFound (pindexNew : ptr) s : option (node W C) :=
  let s := worse_invalid pindexNew s in
  _ ← Tip s;
  Some s.

Definition InvalidBlockFound (pindex : ptr) (state : CValidationState) s : option (node W C) :=
  if negb (Tx.corruptionPossible state) then
    let s := mark BLOCK_FAILED_VALID pindex s in
    let s := dirty pindex s in
    let s := erase_candidate pindex s in
    InvalidChainFound pindex s
  else Some s.

(** ** Connecting and disconnecting the tip *)

(** [pindexNew->GetBlockHash()] follows: a null pointer is dereferenced. *)
Definition UpdateTip (pindexNew : option ptr) s : option (node W C) :=
  _ ← pindexNew;
  v ← SetTip (hp s) (vChain s) pindexNew;
  Some (with_chain v s).

Definition GetBlockPos s (p : ptr) : option CDiskBlockPos :=
  e ← hp s !! p;
  Some (if has_flag e BLOCK_HAVE_DATA then (nFile (member s p), nDataPos (member s p)) else null_pos).

Definition ReadBlockFromDisk (pindex : ptr) s : option (option B) :=
  pos ← GetBlockPos s pindex;
  e ← hp s !! pindex;
  Some (match read_block (files s) pos with
        | None => None
        | Some block => if bool_decide (GetHash block = phashBlock e) then Some block else None
        end).

(** [AbortNode(state, message)]. *)
Definition AbortNode (state : CValidationState) (message : String.string) : bool * CValidationState := Tx.Error message state.

(** [FlushStateToDisk]: the dirty entries are cleared when the index is written. *)
Definition flush (mode : FlushStateMode) (state : CValidationState) s : bool * CValidationState * node W C :=
  let '(ok, state, written, c) := FlushStateToDisk mode (files s) (pcoinsTip s) state in
  let s := with_state (files s) c s in
  (ok, state, if (written : bool) then with_dirty ∅ s else s).

Definition DisconnectTip (state : CValidationState) s : option (bool * CValidationState * node W C) :=
  pindexDelete ← Tip s;
  e ← hp s !! pindexDelete;
  block ← ReadBlockFromDisk pindexDelete s;
  match block with
  | None => Some (AbortNode state "Failed to read block"%string, s)
  | Some block =>
      '(res, w, view) ← DisconnectBlock (hp s) block pindexDelete (files s) (pcoinsTip s);
      match res with
      | DISCONNECT_OK =>
          let '(ok, state, s) := flush FLUSH_STATE_ALWAYS state (with_state w view s) in
          if negb ok then Some (false, state, s)
          else
            s ← UpdateTip (pprev e) s;
            Some (true, state, s)
      | _ => Some (false, state, with_state w (pcoinsTip s) s)
      end
  end.

(** The end of [ConnectBlock]: the undo position and the validity of the entry. *)
Definition connect_marks (pindex : ptr) s : option (node W C) :=
  e ← hp s !! pindex;
  valid ← IsValid e BLOCK_VALID_SCRIPTS;
  if negb (has_flag e BLOCK_HAVE_UNDO) || negb valid then
    let e := if negb (has_flag e BLOCK_HAVE_UNDO) then add_flag BLOCK_HAVE_UNDO e else e in
    r ← RaiseValidity e BLOCK_VALID_SCRIPTS;
    Some (dirty pindex (with_objects (<[pindex := r.1]> (hp s)) s))
  else Some s.

(** [pblock] is null or the block of [pindexNew]. *)
Definition ConnectTip (state : CValidationState) (pindexNew : ptr) (pblock : option B) (fAlreadyChecked : bool) s
  : option (bool * CValidationState * node W C) :=
  e ← hp s !! pindexNew;
  if negb (bool_decide (pprev e = Tip s)) then None
  else
    let fAlreadyChecked := match pblock with None => false | Some _ => fAlreadyChecked end in
    block ← match pblock with None => ReadBlockFromDisk pindexNew s | Some _ => Some pblock end;
    match block with
    | None => Some (AbortNode state "Failed to read block"%string, s)
    | Some block =>
        '(rv, state, written, w, view) ← ConnectBlock (hp s) block pindexNew fAlreadyChecked (files s) (pcoinsTip s) state;
        s ← (if (written : bool) then connect_marks pindexNew (with_state w (pcoinsTip s) s) else Some (with_state w (pcoinsTip s) s));
        if negb rv then
          s ← (match Tx.mode state with Tx.MODE_INVALID => InvalidBlockFound pindexNew state s | _ => Some s end);
          Some (false, state, s)
        else
          let s := with_state w view s in
          pos ← GetBlockPos s pindexNew;
          mode ← match pprev e with
                 | None => Some FLUSH_STATE_IF_NEEDED
                 | Some q => pos' ← GetBlockPos s q; Some (if pos.1 =? pos'.1 then FLUSH_STATE_IF_NEEDED else FLUSH_STATE_ALWAYS)
                 end;
          let '(ok, state, s) := flush mode state s in
          if negb ok then Some (false, state, s)
          else
            s ← UpdateTip (Some pindexNew) s;
            Some (true, state, s)
    end.

(** ** FindMostWorkChain *)

(** [while (pindexTest && !chainActive.Contains(pindexTest))]: the first block that cannot be
    used, with [fFailedChain]; the walk ends after at most [nHeight] turns. *)
Fixpoint test_chain (fuel : nat) s (pindexTest : option ptr) : option (option (ptr * bool)) :=
  match pindexTest with
  | None => Some None
  | Some p =>
      c ← Contains (hp s) (vChain s) p;
      if (c : bool) then Some None
      else
        e ← hp s !! p;
        if (nChainTx (member s p) =? 0) && negb (nHeight e =? 0) then None
        else
          let fFailedChain := has_flag e BLOCK_FAILED_MASK in
          let fMissingData := negb (has_flag e BLOCK_HAVE_DATA) in
          if fFailedChain || fMissingData then Some (Some (p, fFailedChain))
          else match fuel with O => None | S fuel => test_chain fuel s (pprev e) end
  end.

(** [while (pindexTest != pindexFailed)]: the blocks above the unusable one leave the set. *)
Fixpoint remove_chain (fuel : nat) (pindexTest : ptr) (fFailedChain : bool) (pindexFailed : ptr) s : option (node W C) :=
  if decide (pindexTest = pindexFailed) then Some s
  else
    e ← hp s !! pindexFailed;
    q ← pprev e;
    let s := if fFailedChain then mark BLOCK_FAILED_CHILD pindexFailed s
             else with_unlinked (mapBlocksUnlinked s ++ [(q, pindexFailed)]) s in
    let s := erase_candidate pindexFailed s in
    match fuel with O => None | S fuel => remove_chain fuel pindexTest fFailedChain q s end.

Definition height_fuel s (p : ptr) : nat := S (Z.to_nat (nHeight (default null_entry (hp s !! p)))).

(** [do .. while (true)]: every turn but the last one removes a candidate. *)
Fixpoint find_loop (fuel : nat) s : option (option ptr * node W C) :=
  match last (setBlockIndexCandidates s) with
  | None => Some (None, s)
  | Some pindexNew =>
      unusable ← test_chain (height_fuel s pindexNew) s (Some pindexNew);
      match (unusable : option (ptr * bool)) with
      | None => Some (Some pindexNew, s)
      | Some (pindexTest, fFailedChain) =>
          let s := if fFailedChain then worse_invalid pindexNew s else s in
          s ← remove_chain (height_fuel s pindexNew) pindexTest fFailedChain pindexNew s;
          let s := erase_candidate pindexTest s in
          match fuel with O => None | S fuel => find_loop fuel s end
      end
  end.

Definition FindMostWorkChain s : option (option ptr * node W C) := find_loop (length (setBlockIndexCandidates s)) s.

(** ** PruneBlockIndexCandidates *)

Fixpoint drop_worse (less : ptr → ptr → bool) (tip : ptr) (l : list ptr) : list ptr :=
  match l with
  | [] => []
  | p :: l' => if less p tip then drop_worse less tip l' else l
  end.

Definition PruneBlockIndexCandidates s : option (node W C) :=
  tip ← Tip s;
  let l := drop_worse (CBlockIndexWorkComparator s) tip (setBlockIndexCandidates s) in
  match l with [] => None | _ => Some (with_candidates l s) end.

(** ** ActivateBestChainStep *)

(** [while (chainActive.Tip() && chainActive.Tip() != pindexFork)]: [false] for a failure. *)
Fixpoint disconnect_loop (fuel : nat) (pindexFork : option ptr) (state : CValidationState) s : option (bool * CValidationState * node W C) :=
  match Tip s with
  | None => Some (true, state, s)
  | Some tip =>
      if decide (Some tip = pindexFork) then Some (true, state, s)
      else
        '(ok, state, s) ← DisconnectTip state s;
        if negb ok then Some (false, state, s)
        else match fuel with O => None | S fuel => disconnect_loop fuel pindexFork state s end
  end.

(** [while (pindexIter && pindexIter->nHeight != nHeight)]: [vpindexToConnect]. *)
Fixpoint blocks_above (fuel : nat) (h : heap) (nHeight' : Z) (pindexIter : option ptr) : option (list ptr) :=
  match pindexIter with
  | None => Some []
  | Some p =>
      e ← h !! p;
      if nHeight e =? nHeight' then Some []
      else match fuel with O => None | S fuel => l ← blocks_above fuel h nHeight' (pprev e); Some (p :: l) end
  end.

(** How the connection of a list of blocks ends: at its end, at a tip with more work than the
    old one, at an invalid block, or with a system error. *)
Inductive progress : Type := Connected | Better | InvalidFound | SystemError.

(** [BOOST_REVERSE_FOREACH]: [l] has the lowest block first; [back] is [vpindexToConnect.back()]. *)
Fixpoint connect_blocks (back : option ptr) (pindexMostWork : ptr) (pblock : option B) (fAlreadyChecked : bool) (pindexOldTip : option ptr)
    (l : list ptr) (state : CValidationState) s : option (progress * CValidationState * node W C) :=
  match l with
  | [] => Some (Connected, state, s)
  | pindexConnect :: l =>
      '(ok, state, s) ← ConnectTip state pindexConnect (if decide (pindexConnect = pindexMostWork) then pblock else None) fAlreadyChecked s;
      if negb ok then
        match Tx.mode state with
        | Tx.MODE_INVALID =>
            s ← (if negb (Tx.corruptionPossible state) then back ← back; InvalidChainFound back s else Some s);
            Some (InvalidFound, Tx.CValidationState_init, s)
        | _ => Some (SystemError, state, s)
        end
      else
        s ← PruneBlockIndexCandidates s;
        tip ← Tip s;
        if match pindexOldTip with None => true | Some old => more_work s tip old end
        then Some (Better, state, s)
        else connect_blocks back pindexMostWork pblock fAlreadyChecked pindexOldTip l state s
  end.

(** [while (fContinue && nHeight != pindexMostWork->nHeight)], at most 32 blocks a turn. *)
Fixpoint connect_loop (fuel : nat) (nHeight' : Z) (pindexMostWork : ptr) (pblock : option B) (fAlreadyChecked : bool) (pindexOldTip : option ptr)
    (state : CValidationState) s : option (progress * CValidationState * node W C) :=
  e ← hp s !! pindexMostWork;
  if nHeight' =? nHeight e then Some (Connected, state, s)
  else
    let nTargetHeight := Z.min (nHeight' + 32) (nHeight e) in
    pindexIter ← GetAncestor (hp s) pindexMostWork nTargetHeight;
    vpindexToConnect ← blocks_above 32 (hp s) nHeight' pindexIter;
    '(r, state, s) ← connect_blocks (last vpindexToConnect) pindexMostWork pblock fAlreadyChecked pindexOldTip (reverse vpindexToConnect) state s;
    match r with
    | Connected => match fuel with O => None | S fuel => connect_loop fuel nTargetHeight pindexMostWork pblock fAlreadyChecked pindexOldTip state s end
    | _ => Some (r, state, s)
    end.

Definition ActivateBestChainStep (state : CValidationState) (pindexMostWork : ptr) (pblock : option B) (fAlreadyChecked : bool) s
  : option (bool * CValidationState * node W C) :=
  let fAlreadyChecked := match pblock with None => false | Some _ => fAlreadyChecked end in
  let pindexOldTip := Tip s in
  pindexFork ← FindFork (hp s) (vChain s) (Some pindexMostWork);
  '(ok, state, s) ← disconnect_loop (length (vChain s)) pindexFork state s;
  if negb ok then Some (false, state, s)
  else
    nHeight' ← match pindexFork with None => Some (-1) | Some p => nHeight <$> hp s !! p end;
    '(r, state, s) ← connect_loop (height_fuel s pindexMostWork) nHeight' pindexMostWork pblock fAlreadyChecked pindexOldTip state s;
    match r with
    | SystemError => Some (false, state, s)
    | _ => _ ← Tip s; Some (true, state, s)
    end.

(** ** ActivateBestChain *)

(** The block is passed on if it is the one that is worked towards. *)
Definition block_for (pblock : option B) s (pindexMostWork : ptr) : option (option B) :=
  match pblock with
  | None => Some None
  | Some block =>
      e ← hp s !! pindexMostWork;
      Some (if bool_decide (GetHash block = phashBlock e) then Some block else None)
  end.

(** [do .. while (pindexMostWork != chainActive.Tip())]; the first flag tells that the
    function returned from inside. *)
Fixpoint activate_loop (fuel : nat) (state : CValidationState) (pblock : option B) (fAlreadyChecked : bool) s
  : option (bool * bool * CValidationState * node W C) :=
  '(pindexMostWork, s) ← FindMostWorkChain s;
  match pindexMostWork with
  | None => Some (true, true, state, s)
  | Some best =>
      if decide (Some best = Tip s) then Some (true, true, state, s)
      else
        block ← block_for pblock s best;
        '(ok, state, s) ← ActivateBestChainStep state best block fAlreadyChecked s;
        if negb ok then Some (true, false, state, s)
        else
          _ ← Tip s;
          if decide (Some best = Tip s) then Some (false, true, state, s)
          else match fuel with O => None | S fuel => activate_loop fuel state pblock fAlreadyChecked s end
  end.

(** Every turn marks a block as failed, or raises the work of the tip to that of another
    block: with [n] blocks, [n] times [n + 1] turns and [n] more are enough. *)
Definition activate_fuel s : nat := (size (hp s) * S (size (hp s)) + size (hp s))%nat.

Definition ActivateBestChain (state : CValidationState) (pblock : option B) (fAlreadyChecked : bool) s
  : option (bool * CValidationState * node W C) :=
  '(returned, ok, state, s) ← activate_loop (activate_fuel s) state pblock fAlreadyChecked s;
  if (returned : bool) then Some (ok, state, s)
  else Some (flush FLUSH_STATE_PERIODIC state s).

(** ** Blocks that arrive, are invalidated or are reconsidered *)

(** [AddToBlockIndex]: the other members of the new object are zero. *)
Definition AddToBlockIndex (block : header) (pindexNew : ptr) s : option (node W C * ptr) :=
  '(i, p) ← Chain.AddToBlockIndex (idx s) block pindexNew;
  Some (with_index i s, p).

(** The count of transactions up to the block, and its sequence number. *)
Definition link_block (pindex : ptr) s : option (node W C) :=
  e ← hp s !! pindex;
  let before := match pprev e with None => 0 | Some q => nChainTx (member s q) end in
  let f := set_chain_tx ((before + nTx (member s pindex)) mod 2 ^ 32) (member s pindex) in
  let s := with_members (<[pindex := set_sequence (nBlockSequenceId s) f]> (members s)) s in
  Some (with_sequence ((nBlockSequenceId s + 1) mod 2 ^ 32) s).

(** [while (!queue.empty())]: the blocks that are linked now; the entries of
    [mapBlocksUnlinked] with the block as key are taken out. *)
Fixpoint link_loop (fuel : nat) (queue : list ptr) s : option (node W C) :=
  match queue with
  | [] => Some s
  | pindex :: queue =>
      s ← link_block pindex s;
      let s := match Tip s with
               | None => insert_candidate pindex s
               | Some tip => if negb (CBlockIndexWorkComparator s pindex tip) then insert_candidate pindex s else s
               end in
      let range := filter (λ x : ptr * ptr, x.1 = pindex) (mapBlocksUnlinked s) in
      let s := with_unlinked (filter (λ x : ptr * ptr, x.1 ≠ pindex) (mapBlocksUnlinked s)) s in
      match fuel with O => None | S fuel => link_loop fuel (queue ++ range.*2) s end
  end.

(** The entry of a block whose data arrived.  The flag of a proof of stake is that of
    [Stake]; [nUndoPos] is not read while [BLOCK_HAVE_UNDO] is not set. *)
Definition store_block (block : B) (pindexNew : ptr) (pos : CDiskBlockPos) s : option (node W C) :=
  let s := with_members (<[pindexNew := mkFields (vtx_size block) 0 (nSequenceId (member s pindexNew)) pos.1 pos.2]> (members s)) s in
  let s := mark BLOCK_HAVE_DATA pindexNew s in
  e ← hp s !! pindexNew;
  r ← RaiseValidity e BLOCK_VALID_TRANSACTIONS;
  Some (dirty pindexNew (with_objects (<[pindexNew := r.1]> (hp s)) s)).

Definition ReceivedBlockTransactions (block : B) (pindexNew : ptr) (pos : CDiskBlockPos) s : option (node W C) :=
  s ← store_block block pindexNew pos s;
  e ← hp s !! pindexNew;
  match pprev e with
  | None => link_loop (S (length (mapBlocksUnlinked s))) [pindexNew] s
  | Some q =>
      if negb (nChainTx (member s q) =? 0) then link_loop (S (length (mapBlocksUnlinked s))) [pindexNew] s
      else
        eq ← hp s !! q;
        valid ← IsValid eq BLOCK_VALID_TREE;
        Some (if (valid : bool) then with_unlinked (mapBlocksUnlinked s ++ [(q, pindexNew)]) s else s)
  end.

(** [while (chainActive.Contains(pindex))]: [false] for a failure. *)
Fixpoint invalidate_loop (fuel : nat) (pindex : ptr) (state : CValidationState) s : option (bool * CValidationState * node W C) :=
  c ← Contains (hp s) (vChain s) pindex;
  if negb c then Some (true, state, s)
  else
    pindexWalk ← Tip s;
    let s := mark BLOCK_FAILED_CHILD pindexWalk s in
    let s := dirty pindexWalk s in
    let s := erase_candidate pindexWalk s in
    '(ok, state, s) ← DisconnectTip state s;
    if negb ok then Some (false, state, s)
    else match fuel with O => None | S fuel => invalidate_loop fuel pindex state s end.

(** [mapBlockIndex] from [begin()] to [end()]. *)
Definition all_blocks s : list ptr := (map_to_list (mapBlockIndex (idx s))).*2.

(** [it->second->IsValid(BLOCK_VALID_TRANSACTIONS) && it->second->nChainTx]. *)
Definition connectable s (p : ptr) : option bool :=
  e ← hp s !! p;
  valid ← IsValid e BLOCK_VALID_TRANSACTIONS;
  Some (valid && negb (nChainTx (member s p) =? 0)).

Fixpoint readd_candidates (l : list ptr) s : option (node W C) :=
  match l with
  | [] => Some s
  | p :: l =>
      ok ← connectable s p;
      if (ok : bool) then
        tip ← Tip s;
        readd_candidates l (if negb (CBlockIndexWorkComparator s p tip) then insert_candidate p s else s)
      else readd_candidates l s
  end.

Definition InvalidateBlock (state : CValidationState) (pindex : ptr) s : option (bool * CValidationState * node W C) :=
  let s := mark BLOCK_FAILED_VALID pindex s in
  let s := dirty pindex s in
  let s := erase_candidate pindex s in
  '(ok, state, s) ← invalidate_loop (length (vChain s)) pindex state s;
  if negb ok then _ ← Tip s; Some (false, state, s)
  else
    s ← readd_candidates (all_blocks s) s;
    s ← InvalidChainFound pindex s;
    _ ← Tip s;
    Some (true, state, s).

(** One entry of [mapBlockIndex]. *)
Definition reconsider_block (nHeight' : Z) (pindex p : ptr) s : option (node W C) :=
  e ← hp s !! p;
  valid ← IsValid e BLOCK_VALID_TRANSACTIONS;
  a ← GetAncestor (hp s) p nHeight';
  if negb valid && bool_decide (a = Some pindex) then
    let s := unmark BLOCK_FAILED_MASK p s in
    let s := dirty p s in
    ok ← connectable s p;
    s ← (if (ok : bool) then tip ← Tip s; Some (if CBlockIndexWorkComparator s tip p then insert_candidate p s else s) else Some s);
    Some (if bool_decide (Some p = pindexBestInvalid s) then with_invalid None s else s)
  else Some s.

Fixpoint reconsider_all (nHeight' : Z) (pindex : ptr) (l : list ptr) s : option (node W C) :=
  match l with
  | [] => Some s
  | p :: l => s ← reconsider_block nHeight' pindex p s; reconsider_all nHeight' pindex l s
  end.

(** [while (pindex != NULL)]. *)
Fixpoint reconsider_ancestors (fuel : nat) (pindex : option ptr) s : option (node W C) :=
  match pindex with
  | None => Some s
  | Some p =>
      e ← hp s !! p;
      let s := if has_flag e BLOCK_FAILED_MASK then dirty p (unmark BLOCK_FAILED_MASK p s) else s in
      match fuel with O => None | S fuel => reconsider_ancestors fuel (pprev e) s end
  end.

Definition ReconsiderBlock (pindex : ptr) s : option (node W C) :=
  e ← hp s !! pindex;
  s ← reconsider_all (nHeight e) pindex (all_blocks s) s;
  reconsider_ancestors (height_fuel s pindex) (Some pindex) s.

(** [for (int i = 0; i <= nBlocks; i++) DisconnectTip(state);] *)
Fixpoint DisconnectBlocks (nBlocks : nat) (state : CValidationState) s : option (CValidationState * node W C) :=
  '(_, state, s) ← DisconnectTip state s;
  match nBlocks with
  | O => Some (state, s)
  | S n => DisconnectBlocks n state s
  end.

End Operations.

(** ** Ordered sets *)

Section Ordered.
Context (less : ptr → ptr → bool).
Hypothesis less_irr : ∀ a, less a a = false.
Hypothesis less_trans : ∀ a b c, less a b = true → less b c = true → less a c = true.
Hypothesis less_total : ∀ a b, less a b = false → less b a = false → a = b.

Abbreviation before := (λ a b, less a b = true).
Abbreviation ordered := (StronglySorted before).

Lemma less_asym a b : less a b = true → less b a = false.
Proof using All. intros H. destruct (less b a) eqn:E; [|done]. by rewrite <- (less_irr a), (less_trans a b a). Qed.

Lemma elem_set_insert p l q : q ∈ set_insert less p l ↔ q = p ∨ q ∈ l.
Proof using All.
  induction l as [|x l IH]; cbn [set_insert]; [set_solver|].
  destruct (less x p) eqn:E1; [rewrite !elem_of_cons; naive_solver|].
  destruct (less p x) eqn:E2; [rewrite !elem_of_cons; naive_solver|].
  rewrite (less_total _ _ E1 E2). set_solver.
Qed.

Lemma ordered_insert p l : ordered l → ordered (set_insert less p l).
Proof using All.
  induction 1 as [|x l Hl IH Hx]; cbn [set_insert]; [by repeat constructor|].
  destruct (less x p) eqn:E1; [|destruct (less p x) eqn:E2].
  - constructor; [done|]. apply Forall_forall. intros y Hy%elem_set_insert. destruct Hy as [->|Hy]; [done|].
    by apply (proj1 (Forall_forall _ _) Hx).
  - constructor; [by constructor|]. constructor; [done|]. eapply Forall_impl; [exact Hx|]. intros y Hy. by eapply less_trans.
  - by constructor.
Qed.

Lemma elem_set_erase p l q : ordered l → q ∈ set_erase less p l ↔ q ≠ p ∧ q ∈ l.
Proof using All.
  induction 1 as [|x l Hl IH Hx]; cbn [set_erase]; [set_solver|].
  rewrite Forall_forall in Hx. destruct (less x p) eqn:E1; [|destruct (less p x) eqn:E2].
  - rewrite !elem_of_cons, IH. split; [|set_solver]. intros [->|[H1 H2]]; [|by split; [|right]].
    split; [intros ->; congruence | by left].
  - split; [|by intros [_ ?]]. intros Hq. split; [|done]. intros ->. apply elem_of_cons in Hq as [->|Hq]; [congruence|].
    pose proof (Hx _ Hq) as H. cbn in H. congruence.
  - pose proof (less_total _ _ E1 E2) as ->. rewrite elem_of_cons. split; [|by intros [H1 [?|?]]].
    intros Hq. split; [|by right]. intros ->. pose proof (Hx _ Hq) as H. cbn in H. by rewrite less_irr in H.
Qed.

Lemma ordered_erase p l : ordered l → ordered (set_erase less p l).
Proof using All.
  induction 1 as [|x l Hl IH Hx]; cbn [set_erase]; [constructor|].
  destruct (less x p) eqn:E1; [|destruct (less p x) eqn:E2; [by constructor | done]].
  constructor; [done|]. apply Forall_forall. intros y Hy. apply elem_set_erase in Hy as [_ Hy]; [|done].
  by apply (proj1 (Forall_forall _ _) Hx).
Qed.

Lemma length_erase p l : (length (set_erase less p l) <= length l)%nat.
Proof using less. clear less_irr less_trans less_total. induction l as [|x l IH]; cbn; [done|]. destruct (less x p); [cbn; lia|]. destruct (less p x); cbn; lia. Qed.

Lemma length_erase_lt p l : ordered l → p ∈ l → (length (set_erase less p l) < length l)%nat.
Proof using All.
  induction 1 as [|x l Hl IH Hx]; cbn [set_erase]; [by intros ?%elem_of_nil|]. intros Hp. apply elem_of_cons in Hp as [->|Hp].
  - rewrite less_irr. cbn. lia.
  - rewrite Forall_forall in Hx. pose proof (Hx _ Hp) as H. cbn in H. rewrite H. cbn. specialize (IH Hp). lia.
Qed.

Lemma last_greatest l x y : ordered l → last l = Some x → y ∈ l → y = x ∨ less y x = true.
Proof using less. clear less_irr less_trans less_total.
  induction 1 as [|z l Hl IH Hz]; [done|]. intros Hx Hy. destruct l as [|z' l].
  - cbn in Hx. injection Hx as ->. apply list_elem_of_singleton in Hy. by left.
  - rewrite last_cons_cons in Hx. apply elem_of_cons in Hy as [->|Hy]; [|by apply IH].
    right. rewrite Forall_forall in Hz. apply Hz. by apply last_Some_elem_of.
Qed.

Lemma elem_drop_worse tip l q : ordered l → q ∈ drop_worse less tip l ↔ q ∈ l ∧ less q tip = false.
Proof using All.
  induction 1 as [|x l Hl IH Hx]; cbn [drop_worse]; [set_solver|]. destruct (less x tip) eqn:E.
  - rewrite IH, elem_of_cons. split; [by intros [??]; auto|]. intros [[->|?] ?]; [congruence | done].
  - split; [|by intros [? _]]. intros Hq. split; [done|]. apply elem_of_cons in Hq as [->|Hq]; [done|].
    destruct (less q tip) eqn:E'; [|done]. rewrite Forall_forall in Hx. pose proof (Hx _ Hq) as H. cbn in H.
    by rewrite (less_trans _ _ _ H E') in E.
Qed.

Lemma ordered_drop tip l : ordered l → ordered (drop_worse less tip l).
Proof using less. clear less_irr less_trans less_total. induction 1; cbn [drop_worse]; [constructor|]. destruct (less _ _); [done | by constructor]. Qed.
End Ordered.

(** ** The tree of headers *)

(** What does not change: all but the status of the objects. *)
Definition shape (h : heap) : heap := set_status 0 <$> h.

(** Links and heights, work that grows, one root. *)
Record tree_ok (h : heap) : Prop := {
  t_linked : linked h;
  t_work : ∀ p e, h !! p = Some e → Arith.limbs (nChainWork e) ∧ length (nChainWork e) = Arith.WIDTH;
  t_rise : ∀ p e q eq, h !! p = Some e → pprev e = Some q → h !! q = Some eq → Arith.val (nChainWork eq) < Arith.val (nChainWork e);
  t_root : ∀ p e q eq, h !! p = Some e → h !! q = Some eq → pprev e = None → pprev eq = None → p = q
}.

Section Shape.
Context (h h' : heap) (Hs : shape h = shape h').

Lemma shape_lookup p e : h !! p = Some e → ∃ e', h' !! p = Some e' ∧ set_status 0 e = set_status 0 e'.
Proof using Hs.
  intros He. assert (E : shape h !! p = shape h' !! p) by by rewrite Hs.
  unfold shape in E. rewrite !lookup_fmap, He in E. destruct (h' !! p) as [e'|]; [|done]. cbn in E. injection E as E.
  exists e'. split; [done|]. unfold set_status. by f_equal.
Qed.

Lemma shape_fields p e : h !! p = Some e → ∃ e', h' !! p = Some e' ∧
  phashBlock e = phashBlock e' ∧ pprev e = pprev e' ∧ pskip e = pskip e' ∧ nHeight e = nHeight e' ∧ nChainWork e = nChainWork e'.
Proof using Hs.
  intros He. destruct (shape_lookup p e He) as (e' & He' & E). exists e'. split; [done|].
  unfold set_status in E. by injection E.
Qed.

Lemma anc_shape p q : anc h p q → anc h' p q.
Proof using Hs.
  induction 1 as [|p e q r He Hq _ IH]; [apply anc_refl|]. destruct (shape_fields p e He) as (e' & He' & _ & E & _).
  eapply anc_prev; [done | by rewrite <- E | done].
Qed.

Lemma ancestor_at_shape p i q : ancestor_at h p i q → ancestor_at h' p i q.
Proof using Hs.
  intros [Ha (e & He & Hh)]. split; [by apply anc_shape|]. destruct (shape_fields q e He) as (e' & He' & _ & _ & _ & E & _).
  exists e'. split; [done | by rewrite <- E].
Qed.

Lemma branch_shape t v : branch_of h t v → branch_of h' t v.
Proof using Hs.
  destruct t as [t|]; [|done]. intros (e & He & Hl & Hi). destruct (shape_fields t e He) as (e' & He' & _ & _ & _ & E & _).
  exists e'. rewrite <- E. split; [done|]. split; [done|]. intros i Hi'. destruct (Hi i Hi') as (q & Hq & Ha).
  exists q. split; [done | by apply ancestor_at_shape].
Qed.
End Shape.

Lemma shape_back h h' p e' : shape h = shape h' → h' !! p = Some e' → ∃ e, h !! p = Some e ∧
  phashBlock e = phashBlock e' ∧ pprev e = pprev e' ∧ pskip e = pskip e' ∧ nHeight e = nHeight e' ∧ nChainWork e = nChainWork e'.
Proof.
  intros Hs He. destruct (shape_fields h' h (eq_sym Hs) p e' He) as (e & H1 & H2 & H3 & H4 & H5 & H6). by exists e.
Qed.

Lemma linked_shape h h' : shape h = shape h' → linked h → linked h'.
Proof.
  intros Hs Hl p e' He'. destruct (shape_back h h' p e' Hs He') as (e & He & _ & E1 & E2 & E3 & _).
  destruct (Hl p e He) as [Hr Hp]. unfold entry_ok. rewrite <- E1, <- E2, <- E3. split; [done|].
  destruct (pprev e) as [q|]; [|done]. destruct Hp as [(eq & Hq & Hh) (x & Ex & Ha)].
  split; [|exists x; split; [done | by eapply ancestor_at_shape]].
  destruct (shape_fields h h' Hs q eq Hq) as (eq' & Hq' & _ & _ & _ & E & _). exists eq'. split; [done | by rewrite <- E].
Qed.

Lemma tree_shape h h' : shape h = shape h' → tree_ok h → tree_ok h'.
Proof.
  intros Hs [H1 H2 H3 H4]. split.
  - by eapply linked_shape.
  - intros p e' He'. destruct (shape_back h h' p e' Hs He') as (e & He & _ & _ & _ & _ & E). rewrite <- E. by eapply H2.
  - intros p e' q eq' He' Hp Hq'. destruct (shape_back h h' p e' Hs He') as (e & He & _ & E1 & _ & _ & E2).
    destruct (shape_back h h' q eq' Hs Hq') as (eq & Hq & _ & _ & _ & _ & E3). rewrite <- E2, <- E3. eapply H3; [done | by rewrite E1 | done].
  - intros p e' q eq' He' Hq' Hp Hp'. destruct (shape_back h h' p e' Hs He') as (e & He & _ & E1 & _).
    destruct (shape_back h h' q eq' Hs Hq') as (eq & Hq & _ & E3 & _). eapply H4; [exact He | exact Hq | by rewrite E1 | by rewrite E3].
Qed.

(** Changing a status keeps the shape. *)
Lemma shape_alter h p (f : CBlockIndex → CBlockIndex) :
  (∀ e, set_status 0 (f e) = set_status 0 e) → shape (alter f p h) = shape h.
Proof.
  intros Hf. apply map_eq. intros q. unfold shape. rewrite !lookup_fmap. destruct (decide (p = q)) as [->|Hne].
  - rewrite lookup_alter_eq. destruct (h !! q) as [e|]; [|done]. cbn. by rewrite Hf.
  - by rewrite lookup_alter_ne.
Qed.

Lemma shape_insert h p e e' : h !! p = Some e → set_status 0 e' = set_status 0 e → shape (<[p := e']> h) = shape h.
Proof.
  intros He E. apply map_eq. intros q. unfold shape. rewrite !lookup_fmap. destruct (decide (p = q)) as [->|Hne].
  - rewrite lookup_insert_eq, He. cbn. by rewrite E.
  - by rewrite lookup_insert_ne.
Qed.

Section Tree.
Context (h : heap) (Ht : tree_ok h).

(** An ancestor has less work, unless it is the block itself. *)
Lemma anc_work p q e eq : anc h p q → h !! p = Some e → h !! q = Some eq → p = q ∨ Arith.val (nChainWork eq) < Arith.val (nChainWork e).
Proof using Ht.
  intros Ha. revert e. induction Ha as [|p ep r q Hp Hr Ha IH]; intros e He Hq; [by left|]. simplify_eq. right.
  destruct (entry_prev _ (t_linked _ Ht) _ _ _ Hp Hr) as (er & Her & _). pose proof (t_rise _ Ht _ _ _ _ Hp Hr Her).
  destruct (IH er Her Hq) as [->|?]; [by simplify_eq | lia].
Qed.

(** Two blocks have a common ancestor, the root. *)
Lemma anc_root p e : h !! p = Some e → ∃ g eg, anc h p g ∧ h !! g = Some eg ∧ pprev eg = None.
Proof using Ht.
  intros He. pose proof (entry_height _ (t_linked _ Ht) _ _ He) as Hh.
  destruct (ancestor_exists _ (t_linked _ Ht) p e 0 He ltac:(lia)) as (g & Ha & eg & Hg & H0). exists g, eg. split; [done|]. split; [done|].
  by apply (entry_root _ (t_linked _ Ht) _ _ Hg).
Qed.

Lemma common_root p q e eq : h !! p = Some e → h !! q = Some eq → ∃ g, anc h p g ∧ anc h q g.
Proof using Ht.
  intros He Hq. destruct (anc_root p e He) as (g & eg & Ha & Hg & Hr). destruct (anc_root q eq Hq) as (g' & eg' & Ha' & Hg' & Hr').
  rewrite (t_root _ Ht g' eg' g eg Hg' Hg Hr' Hr) in Ha'. by exists g.
Qed.
End Tree.

(** ** What the chain state promises *)

(** [stands h tip w c]: the view and the files are those of the branch of [tip], in whatever
    sense: it is kept by connecting the next block, disconnecting the last one and writing to
    disk.  It does not depend on the status of the entries, or on entries that are added with
    hashes of their own.  Nothing is said of which blocks connect: the verdict may depend on the
    body, on the view, on the files and on whether the block was checked before. *)
Class ChainStateLaws (B W C : Type) `{!ChainState B W C} : Type := {
  stands : heap → ptr → W → C → Prop;
  connect_law h b p e q already w c st ok st' reached w' c' :
    stands (shape h) q w c → h !! p = Some e → pprev e = Some q → GetHash b = phashBlock e → Tx.mode st = Tx.MODE_VALID →
    ConnectBlock h b p already w c st = Some (ok, st', reached, w', c') →
    if ok : bool then Tx.mode st' = Tx.MODE_VALID ∧ reached = true ∧ stands (shape h) p w' c' else stands (shape h) q w' c;
  disconnect_law h b p e q w c w' c' :
    stands (shape h) p w c → h !! p = Some e → pprev e = Some q → GetHash b = phashBlock e →
    DisconnectBlock h b p w c = Some (DISCONNECT_OK, w', c') → stands (shape h) q w' c';
  flush_law h p w c mode st ok st' written c' :
    stands h p w c → FlushStateToDisk mode w c st = (ok, st', written, c') →
    stands h p w c' ∧ if ok : bool then Tx.mode st' = Tx.mode st else Tx.mode st' = Tx.MODE_ERROR;
  stands_grow h h' p w c : linked h → h ⊆ h' →
    (∀ x e y e', h !! x = None → h' !! x = Some e → h !! y = Some e' → phashBlock e ≠ phashBlock e') →
    stands h p w c → stands h' p w c
}.

Section Invariant.
Context {B W C : Type} `{!ChainState B W C}.
Implicit Types s : node W C.

(** ** The order of a node *)

Abbreviation less := CBlockIndexWorkComparator.

Definition weight s (p : ptr) : Z := Arith.val (work_of s p).
Definition seq s (p : ptr) : Z := nSequenceId (member s p).

Lemma work_of_ok s p : tree_ok (hp s) → Arith.limbs (work_of s p) ∧ length (work_of s p) = Arith.WIDTH.
Proof.
  intros Ht. unfold work_of. destruct (hp s !! p) as [e|] eqn:E; [exact (t_work _ Ht _ _ E)|].
  split; [apply Arith.limbs_zero | apply Arith.length_zero].
Qed.

Lemma more_work_spec s a b : tree_ok (hp s) → more_work s a b = (weight s b <? weight s a).
Proof.
  intros Ht. destruct (work_of_ok s a Ht) as [A1 A2], (work_of_ok s b Ht) as [B1 B2].
  unfold more_work. by rewrite Arith.CompareTo_gtb by congruence.
Qed.

Lemma less_spec s a b : tree_ok (hp s) →
  less s a b = true ↔ weight s a < weight s b ∨
    weight s a = weight s b ∧ (seq s b < seq s a ∨ seq s a = seq s b ∧ (b < a)%positive).
Proof.
  intros Ht. destruct (work_of_ok s a Ht) as [A1 A2], (work_of_ok s b Ht) as [B1 B2].
  unfold CBlockIndexWorkComparator. fold (seq s a) (seq s b). rewrite Arith.CompareTo_gtb, Arith.CompareTo_ltb by congruence.
  fold (weight s a) (weight s b). rewrite Z.gtb_ltb.
  destruct (Z.ltb_spec (weight s b) (weight s a)), (Z.ltb_spec (weight s a) (weight s b)),
    (Z.ltb_spec (seq s a) (seq s b)), (Z.ltb_spec (seq s b) (seq s a)), (Pos.ltb_spec a b), (Pos.ltb_spec b a); split; try done; try lia.
Qed.

Lemma less_false s a b : tree_ok (hp s) →
  less s a b = false ↔ weight s b < weight s a ∨
    weight s a = weight s b ∧ (seq s a < seq s b ∨ seq s a = seq s b ∧ (a <= b)%positive).
Proof. intros Ht. pose proof (less_spec s a b Ht). destruct (less s a b); split; try done; try lia; intros; exfalso; lia. Qed.

Section Order.
Context s (Ht : tree_ok (hp s)).
Lemma less_irr a : less s a a = false.
Proof using Ht. apply less_false; [done | lia]. Qed.
Lemma less_trans a b c : less s a b = true → less s b c = true → less s a c = true.
Proof using Ht. rewrite !less_spec by done. lia. Qed.
Lemma less_total a b : less s a b = false → less s b a = false → a = b.
Proof using Ht. rewrite !less_false by done. lia. Qed.
Lemma not_less_trans a b c : less s a b = false → less s b c = false → less s a c = false.
Proof using Ht. rewrite !less_false by done. lia. Qed.
Lemma less_flip a b : less s a b = true → less s b a = false.
Proof using Ht. rewrite less_spec, less_false by done. lia. Qed.
Lemma less_weight a b : weight s a < weight s b → less s a b = true.
Proof using Ht. rewrite less_spec by done. lia. Qed.
Lemma not_less_weight a b : less s a b = false → weight s b <= weight s a.
Proof using Ht. rewrite less_false by done. lia. Qed.
End Order.

(** ** Frames *)

(** Nodes that differ in the status of entries, the active chain and the candidates. *)
Definition names s : gmap (list Z) ptr * option ptr * list (ptr * ptr) :=
  (mapBlockIndex (idx s), pindexBestHeader (idx s), mapBlocksUnlinked s).

Record frame s s' : Prop := {
  f_shape : shape (hp s) = shape (hp s');
  f_members : members s = members s';
  f_map : names s = names s'
}.

#[global] Instance frame_refl : Reflexive frame.
Proof. done. Qed.
#[global] Instance frame_sym : Symmetric frame.
Proof. intros s s' [H1 H2 H3]. by split. Qed.
#[global] Instance frame_trans : Transitive frame.
Proof. intros s1 s2 s3 [A1 A2 A3] [B1 B2 B3]. split; congruence. Qed.

Lemma frame_member s s' p : frame s s' → member s p = member s' p.
Proof. intros [_ E _]. unfold member. by rewrite E. Qed.

Lemma frame_weight s s' p : frame s s' → weight s p = weight s' p.
Proof.
  intros [E _ _]. unfold weight, work_of. destruct (hp s !! p) as [e|] eqn:E1.
  - destruct (shape_fields _ _ E p e E1) as (e' & -> & _ & _ & _ & _ & Ew). cbn. by rewrite Ew.
  - destruct (hp s' !! p) as [e'|] eqn:E2; [|done]. destruct (shape_back _ _ p e' E E2) as (e & He & _). congruence.
Qed.

Lemma frame_tree s s' : frame s s' → tree_ok (hp s) → tree_ok (hp s').
Proof. intros [E _ _]. by apply tree_shape. Qed.

Lemma frame_less s s' a b : frame s s' → tree_ok (hp s) → less s a b = less s' a b.
Proof.
  intros Hf Ht. apply Bool.eq_iff_eq_true. pose proof (frame_tree _ _ Hf Ht). rewrite !less_spec by done.
  unfold seq. by rewrite !(frame_weight s s'), !(frame_member s s').
Qed.

Lemma frame_size s s' : frame s s' → size (hp s) = size (hp s').
Proof. intros [E _ _]. by rewrite <- (map_size_fmap (set_status 0) (hp s)), <- (map_size_fmap (set_status 0) (hp s')); f_equal. Qed.

(** ** Flags of a node *)

Definition failed s (p : ptr) : bool := match hp s !! p with Some e => has_flag e BLOCK_FAILED_MASK | None => false end.
Definition have_data s (p : ptr) : bool := match hp s !! p with Some e => has_flag e BLOCK_HAVE_DATA | None => false end.

(** The transactions of the block and of its ancestors were received. *)
Definition complete s (p : ptr) : Prop := is_Some (hp s !! p) ∧ nChainTx (member s p) ≠ 0.

Lemma frame_complete s s' p : frame s s' → complete s p → complete s' p.
Proof.
  intros Hf [[e He] Hn]. split; [|by rewrite <- (frame_member s s')].
  destruct (shape_fields _ _ (f_shape _ _ Hf) p e He) as (e' & He' & _). by exists e'.
Qed.

Lemma frame_anc s s' p q : frame s s' → anc (hp s) p q → anc (hp s') p q.
Proof. intros [E _ _]. by apply anc_shape. Qed.

Lemma has_add_flag f g e : has_flag (add_flag f e) g = has_flag e g || negb (f .& g =? 0).
Proof.
  unfold has_flag, add_flag. cbn [nStatus set_status]. rewrite Z.land_lor_distr_l.
  destruct (Z.eqb_spec (f .& g) 0) as [->|Hf]; [by rewrite Z.lor_0_r, orb_false_r|]. cbn [negb]. rewrite orb_true_r.
  destruct (Z.eqb_spec (nStatus e .& g .| f .& g) 0) as [E|]; [|done]. apply Z.lor_eq_0_iff in E. by destruct E.
Qed.

Definition level (e : CBlockIndex) : Z := nStatus e .& BLOCK_VALID_MASK.

Lemma level_add_flag f e : f .& BLOCK_VALID_MASK = 0 → level (add_flag f e) = level e.
Proof. intros Hf. unfold level, add_flag. cbn [nStatus set_status]. by rewrite (Z.land_lor_distr_l _ f), Hf, Z.lor_0_r. Qed.

(** A validity level replaces the old one and keeps the flags. *)
Lemma RaiseValidity_spec e n : n .& Z.lnot BLOCK_VALID_MASK = 0 →
  ∃ e' r, RaiseValidity e n = Some (e', r) ∧ set_status 0 e' = set_status 0 e ∧ level e <= level e' ∧
    (∀ f, f .& BLOCK_VALID_MASK = 0 → has_flag e' f = has_flag e f) ∧
    (has_flag e BLOCK_FAILED_MASK = false → n <= level e').
Proof.
  intros Hn. unfold RaiseValidity. rewrite Hn. cbn [Z.eqb negb]. change (negb (nStatus e .& BLOCK_FAILED_MASK =? 0)) with (has_flag e BLOCK_FAILED_MASK).
  destruct (has_flag e BLOCK_FAILED_MASK) eqn:Ef; [exists e, false; repeat split; try done; lia|].
  fold (level e). destruct (Z.ltb_spec (level e) n) as [Hlt|Hge]; [|exists e, false; repeat split; try done; lia].
  eexists _, true. split; [done|]. split; [done|].
  assert (Hm : n .& BLOCK_VALID_MASK = n).
  { rewrite <- (Z.land_m1_r n) at 2. rewrite <- (Z.lor_lnot_diag BLOCK_VALID_MASK), Z.land_lor_distr_r, Hn. by rewrite Z.lor_0_r. }
  assert (El : level (set_status ((nStatus e .& Z.lnot BLOCK_VALID_MASK) .| n) e) = n).
  { unfold level. cbn [nStatus set_status]. rewrite Z.land_lor_distr_l, <- Z.land_assoc, (Z.land_comm (Z.lnot _)), Z.land_lnot_diag, Z.land_0_r, Z.lor_0_l. exact Hm. }
  rewrite El. split; [lia|]. split; [|lia]. intros f Hf. unfold has_flag. cbn [nStatus set_status]. do 2 f_equal.
  assert (Hfl : Z.lnot BLOCK_VALID_MASK .& f = f).
  { rewrite <- (Z.land_m1_r f) at 2. rewrite <- (Z.lor_lnot_diag BLOCK_VALID_MASK), Z.land_lor_distr_r, Hf, Z.lor_0_l. apply Z.land_comm. }
  assert (Hnf : n .& f = 0) by (rewrite <- Hm, <- Z.land_assoc, (Z.land_comm BLOCK_VALID_MASK f), Hf; apply Z.land_0_r).
  by rewrite Z.land_lor_distr_l, <- Z.land_assoc, Hfl, Hnf, Z.lor_0_r.
Qed.

(** ** The invariant *)

Context `{!ChainStateLaws B W C}.

(** A call of [ConnectBlock] on a state of the branch below the block refuses it. *)
Definition refusable s (p : ptr) : Prop :=
  ∃ h b e q already w c st st' reached w' c', shape h = shape (hp s) ∧ stands (shape h) q w c ∧ h !! p = Some e ∧ pprev e = Some q ∧
    GetHash b = phashBlock e ∧ Tx.mode st = Tx.MODE_VALID ∧
    ConnectBlock h b p already w c st = Some (false, st', reached, w', c') ∧ Tx.mode st' = Tx.MODE_INVALID.

Lemma frame_refusable s s' p : frame s s' → refusable s' p → refusable s p.
Proof. intros [E _ _]. unfold refusable. by rewrite E. Qed.

(** The block is marked, can be refused, or descends from such a block. *)
Definition bad s (p : ptr) : Prop := ∃ q, anc (hp s) p q ∧ (failed s q = true ∨ refusable s q).

(** The block has been connected once: its scripts are recorded as verified. *)
Definition verified s (p : ptr) : Prop := ∃ e, hp s !! p = Some e ∧ BLOCK_VALID_SCRIPTS <= level e.

(** What later nodes have of earlier ones: marks stay, and only bad blocks are marked. *)
Record later s s' : Prop := {
  l_frame : frame s s';
  l_marks : ∀ p, failed s p = true → failed s' p = true;
  l_bad : ∀ p, failed s' p = true → bad s p;
  l_data : ∀ p, have_data s' p = have_data s p;
  l_level : ∀ p e e', hp s !! p = Some e → hp s' !! p = Some e' → level e <= level e'
}.

(** Less: marks may come and go. *)
Record kept s s' : Prop := {
  k_frame : frame s s';
  k_data : ∀ p, have_data s' p = have_data s p;
  k_level : ∀ p e e', hp s !! p = Some e → hp s' !! p = Some e' → level e <= level e'
}.

Lemma later_kept s s' : later s s' → kept s s'.
Proof. by intros []. Qed.

#[global] Instance kept_refl : Reflexive kept.
Proof. intros s. split; try done. intros p e e' H1 H2. by simplify_eq. Qed.

#[global] Instance kept_trans : Transitive kept.
Proof.
  intros s1 s2 s3 [A1 A2 A3] [B1 B2 B3]. split; [by etransitivity | intros p; by rewrite B2 |].
  intros p e e' He He'. destruct (shape_fields _ _ (f_shape _ _ A1) p e He) as (e2 & He2 & _). etransitivity; [by eapply A3 | by eapply B3].
Qed.

Lemma later_bad s s' p : later s s' → bad s' p → bad s p.
Proof.
  intros [Hf _ Hb _ _] (q & Ha & Hq). apply (frame_anc _ _ _ _ (symmetry Hf)) in Ha. destruct Hq as [Hq|Hq].
  - destruct (Hb q Hq) as (x & Hx & Hx'). exists x. split; [by eapply anc_trans | done].
  - exists q. split; [done|]. right. by eapply frame_refusable.
Qed.

#[global] Instance later_refl : Reflexive later.
Proof.
  intros s. split; try done; intros p.
  - intros Hp. exists p. split; [apply anc_refl | by left].
  - intros e e' H1 H2. by simplify_eq.
Qed.

#[global] Instance later_trans : Transitive later.
Proof.
  intros s1 s2 s3 H1 H2. pose proof H1 as [A1 A2 A3 A4 A5]. pose proof H2 as [B1 B2 B3 B4 B5]. split.
  - by etransitivity.
  - auto.
  - intros p Hp. eapply later_bad; [exact H1 | by apply B3].
  - intros p. by rewrite B4.
  - intros p e e' He He'. destruct (shape_fields _ _ (f_shape _ _ A1) p e He) as (e2 & He2 & _). etransitivity; [by eapply A5 | by eapply B5].
Qed.

Lemma kept_verified s s' p : kept s s' → verified s p → verified s' p.
Proof.
  intros [Hf _ Hl] (e & He & Hv). destruct (shape_fields _ _ (f_shape _ _ Hf) p e He) as (e' & He' & _).
  exists e'. split; [done|]. by etransitivity; [|eapply Hl].
Qed.

(** [t] is the tip; [R] is a block that was connected once, such that all blocks that are not
    worse and not marked are candidates.  It is the tip, but for failures on the way to another
    one, in which it may come to be marked itself. *)
Record inv s (t R : ptr) : Prop := {
  i_tree : tree_ok (hp s);
  i_branch : branch_of (hp s) (Some t) (vChain s);
  i_active : ∀ q, anc (hp s) t q → complete s q ∧ failed s q = false ∧ verified s q;
  i_ordered : StronglySorted (λ a b, less s a b = true) (setBlockIndexCandidates s);
  i_candidates : ∀ p, p ∈ setBlockIndexCandidates s → complete s p;
  i_prev : ∀ p e q, hp s !! p = Some e → pprev e = Some q → complete s p → complete s q;
  i_data : ∀ p, complete s p → have_data s p = true;
  i_level : ∀ p e, complete s p → hp s !! p = Some e → BLOCK_VALID_TRANSACTIONS <= level e;
  i_ref : complete s R ∧ verified s R;
  i_rest : ∀ p, complete s p → failed s p = false → less s p R = false → p ∈ setBlockIndexCandidates s
}.

(** What holds of every node, marks apart. *)
Record core s (t : ptr) : Prop := {
  c_tree : tree_ok (hp s);
  c_branch : branch_of (hp s) (Some t) (vChain s);
  c_active : ∀ q, anc (hp s) t q → complete s q;
  c_ordered : StronglySorted (λ a b, less s a b = true) (setBlockIndexCandidates s);
  c_candidates : ∀ p, p ∈ setBlockIndexCandidates s → complete s p;
  c_prev : ∀ p e q, hp s !! p = Some e → pprev e = Some q → complete s p → complete s q;
  c_data : ∀ p, complete s p → have_data s p = true;
  c_level : ∀ p e, complete s p → hp s !! p = Some e → BLOCK_VALID_TRANSACTIONS <= level e
}.

Lemma inv_core s t R : inv s t R → core s t.
Proof. intros []. split; try done. intros q Hq. by destruct (i_active0 q Hq). Qed.

Lemma core_inv s t R : core s t → (∀ q, anc (hp s) t q → failed s q = false ∧ verified s q) → complete s R ∧ verified s R →
  (∀ p, complete s p → failed s p = false → less s p R = false → p ∈ setBlockIndexCandidates s) → inv s t R.
Proof. intros [] Ha Hr Hc. split; try done. intros q Hq. split; [by apply c_active0 | by apply Ha]. Qed.

Lemma not_failed s s' q : later s s' → ¬ bad s q → failed s' q = false.
Proof. intros [_ _ Hb _ _] Hn. destruct (failed s' q) eqn:E; [|done]. by destruct Hn; apply Hb. Qed.

Lemma ordered_frame s s' l : frame s s' → tree_ok (hp s) →
  StronglySorted (λ a b, less s a b = true) l → StronglySorted (λ a b, less s' a b = true) l.
Proof.
  intros Hf Ht. induction 1 as [|x l Hl IH Hx]; constructor; [done|]. eapply Forall_impl; [exact Hx|].
  intros y Hy. cbn in *. by rewrite <- (frame_less s s').
Qed.

(** The invariant moves to a later node with fewer candidates, none of which counts. *)
Lemma inv_later s s' t R :
  inv s t R → later s s' → (∀ q, anc (hp s) t q → failed s' q = false) →
  vChain s' = vChain s → StronglySorted (λ a b, less s a b = true) (setBlockIndexCandidates s') →
  (∀ p, p ∈ setBlockIndexCandidates s' → p ∈ setBlockIndexCandidates s) →
  (∀ p, p ∈ setBlockIndexCandidates s → failed s' p = false → less s p R = false → p ∈ setBlockIndexCandidates s') → inv s' t R.
Proof.
  intros Hi Hl Hact Ev Hord Hsub Hc. pose proof Hl as [Hf Hm Hb Hd Hlev]. pose proof (i_tree _ _ _ Hi) as Ht.
  assert (Hback : ∀ p, complete s' p → complete s p) by (intros p; by apply frame_complete).
  assert (Hanc : ∀ p q, anc (hp s') p q → anc (hp s) p q) by (intros p q; by apply frame_anc).
  split.
  - by eapply frame_tree.
  - rewrite Ev. eapply branch_shape; [apply Hf | apply Hi].
  - intros q Ha%Hanc. destruct (i_active _ _ _ Hi q Ha) as (H1 & _ & H3).
    split; [by eapply frame_complete|]. split; [by apply Hact | by eapply kept_verified; [apply later_kept|]].
  - by eapply ordered_frame.
  - intros p Hp. eapply frame_complete; [done|]. apply (i_candidates _ _ _ Hi). by apply Hsub.
  - intros p e q He Hq Hp. destruct (shape_back _ _ p e (f_shape _ _ Hf) He) as (e0 & He0 & _ & E & _).
    eapply frame_complete; [done|]. eapply (i_prev _ _ _ Hi p e0); [done | by rewrite E | by apply Hback].
  - intros p Hp. rewrite Hd. apply (i_data _ _ _ Hi). by apply Hback.
  - intros p e Hp He. destruct (shape_back _ _ p e (f_shape _ _ Hf) He) as (e0 & He0 & _). etransitivity; [|by eapply Hlev].
    eapply (i_level _ _ _ Hi); [by apply Hback | done].
  - destruct (i_ref _ _ _ Hi). split; [by eapply frame_complete | by eapply kept_verified; [apply later_kept|]].
  - intros p Hp Hn Hless. rewrite <- (frame_less s s') in Hless by done.
    apply Hc; [|done|done]. apply (i_rest _ _ _ Hi); [by apply Hback | | done].
    destruct (failed s p) eqn:E; [|done]. by rewrite Hm in Hn.
Qed.

(** ** Marks and candidates *)

(** The active chain and its state are untouched. *)
Definition still s s' : Prop := vChain s' = vChain s ∧ files s' = files s ∧ pcoinsTip s' = pcoinsTip s.

#[global] Instance still_refl : Reflexive still.
Proof. done. Qed.
#[global] Instance still_trans : Transitive still.
Proof. intros s1 s2 s3 (A1 & A2 & A3) (B1 & B2 & B3). split; [congruence|]. split; congruence. Qed.

Lemma later_same s s' :
  hp s' = hp s → members s' = members s → names s' = names s → later s s'.
Proof.
  intros E1 E2 E3. split.
  - split; [by rewrite E1 | done | done].
  - intros p. unfold failed. by rewrite E1.
  - intros p. unfold failed. rewrite E1. intros Hp. exists p. split; [apply anc_refl | left; exact Hp].
  - intros p. unfold have_data. by rewrite E1.
  - intros p e e'. rewrite E1. intros ??. by simplify_eq.
Qed.

(** A change of one status. *)
Lemma later_status s s' p e e' :
  hp s !! p = Some e → hp s' = <[p := e']> (hp s) → members s' = members s → names s' = names s →
  set_status 0 e' = set_status 0 e → level e <= level e' →
  (has_flag e BLOCK_FAILED_MASK = true → has_flag e' BLOCK_FAILED_MASK = true) →
  (has_flag e' BLOCK_FAILED_MASK = true → bad s p) →
  has_flag e' BLOCK_HAVE_DATA = has_flag e BLOCK_HAVE_DATA → later s s'.
Proof.
  intros He E1 E2 E3 Es El H1 H2 H3.
  assert (Hat : ∀ q, hp s' !! q = if decide (q = p) then Some e' else hp s !! q).
  { intros q. rewrite E1. destruct (decide (q = p)) as [->|]; [apply lookup_insert_eq | by apply lookup_insert_ne]. }
  split.
  - split; [|done..]. rewrite E1. symmetry. by eapply shape_insert.
  - intros q. unfold failed. rewrite Hat. case_decide; [subst q; by rewrite He | done].
  - intros q. unfold failed. rewrite Hat. case_decide; [subst q; exact H2|]. intros Hq. exists q. split; [apply anc_refl | by left].
  - intros q. unfold have_data. rewrite Hat. case_decide; [subst q; by rewrite He | done].
  - intros q x x' Hx. rewrite Hat. case_decide; intros ?; [subst q; by simplify_eq | by simplify_eq].
Qed.

Lemma mark_lookup f p s e : hp s !! p = Some e → hp (mark f p s) = <[p := add_flag f e]> (hp s).
Proof.
  intros He. cbn. apply map_eq. intros q. destruct (decide (q = p)) as [->|].
  - by rewrite lookup_alter_eq, lookup_insert_eq, He.
  - by rewrite lookup_alter_ne, lookup_insert_ne.
Qed.

Lemma mark_later f p s : f .& BLOCK_VALID_MASK = 0 → f .& BLOCK_HAVE_DATA = 0 → is_Some (hp s !! p) → bad s p → later s (mark f p s).
Proof.
  intros Hf Hd [e He] Hb. eapply later_status; [exact He | by apply mark_lookup | done | done | done | | | done | ].
  - by rewrite level_add_flag.
  - intros H. by rewrite has_add_flag, H.
  - by rewrite has_add_flag, Hd, orb_false_r.
Qed.

Lemma mark_failed f p s : f .& BLOCK_FAILED_MASK ≠ 0 → is_Some (hp s !! p) → failed (mark f p s) p = true.
Proof.
  intros Hf [e He]. unfold failed. rewrite (mark_lookup f p s e He), lookup_insert_eq, has_add_flag.
  destruct (Z.eqb_spec (f .& BLOCK_FAILED_MASK) 0); [done|]. apply orb_true_r.
Qed.

Lemma mark_kept f p s : f .& BLOCK_VALID_MASK = 0 → f .& BLOCK_HAVE_DATA = 0 → kept s (mark f p s).
Proof.
  intros Hf Hd. split.
  - split; [symmetry; by apply shape_alter | done | done].
  - intros q. unfold have_data. cbn. destruct (decide (q = p)) as [->|]; [|by rewrite lookup_alter_ne].
    rewrite lookup_alter_eq. unfold hp. destruct (objects (idx s) !! p) as [e|]; [|done]. cbn. by rewrite has_add_flag, Hd, orb_false_r.
  - intros q e e' He. cbn. destruct (decide (q = p)) as [->|]; [|rewrite lookup_alter_ne by done; intros ?; by simplify_eq].
    rewrite lookup_alter_eq, He. cbn. intros [= <-]. by rewrite level_add_flag.
Qed.

Lemma failed_mark f p s q : f .& BLOCK_FAILED_MASK ≠ 0 → is_Some (hp s !! p) → failed (mark f p s) q = true ↔ q = p ∨ failed s q = true.
Proof.
  intros Hf Hp. destruct (decide (q = p)) as [->|Hne]; [split; [by left | intros _; by apply mark_failed]|].
  unfold failed. cbn. rewrite lookup_alter_ne by done. split; [by right | by intros [?|?]].
Qed.

Ltac same_index := apply later_same; reflexivity.

Lemma inv_marked s s' t R : inv s t R → later s s' → (∀ q, anc (hp s) t q → failed s' q = false) →
  vChain s' = vChain s → setBlockIndexCandidates s' = setBlockIndexCandidates s → inv s' t R.
Proof.
  intros Hi Hl Ha Ev Ec. eapply inv_later; [done | done | done | done | | | ]; rewrite Ec; [apply Hi | done | done].
Qed.

Lemma inv_same s s' t R : inv s t R → later s s' → (∀ q, failed s' q = failed s q) →
  vChain s' = vChain s → setBlockIndexCandidates s' = setBlockIndexCandidates s → inv s' t R.
Proof. intros Hi Hl Hs. apply inv_marked; [done | done|]. intros q Hq. rewrite Hs. by apply (i_active _ _ _ Hi). Qed.

Lemma erase_inv s t R p : inv s t R → failed s p = true → inv (erase_candidate p s) t R.
Proof.
  intros Hi Hp. pose proof (i_tree _ _ _ Hi) as Ht.
  assert (He : ∀ q, q ∈ setBlockIndexCandidates (erase_candidate p s) ↔ q ≠ p ∧ q ∈ setBlockIndexCandidates s).
  { intros q. apply elem_set_erase; eauto using less_irr, less_trans, less_total. apply Hi. }
  eapply inv_later; [done | same_index | intros q Hq; by apply (i_active _ _ _ Hi q Hq) | done | | | ].
  - apply ordered_erase; eauto using less_irr, less_trans, less_total. apply Hi.
  - intros q [_ ?]%He. done.
  - intros q Hq Hn _. apply He. split; [|done]. intros E. rewrite E in Hn.
    change (failed s p = false) in Hn. congruence.
Qed.

(** A bad block is marked and leaves the candidates. *)
Lemma mark_erase_inv f s t R p :
  f .& BLOCK_VALID_MASK = 0 → f .& BLOCK_HAVE_DATA = 0 → f .& BLOCK_FAILED_MASK ≠ 0 → inv s t R → is_Some (hp s !! p) → ¬ anc (hp s) t p → bad s p →
  inv (erase_candidate p (mark f p s)) t R ∧ later s (erase_candidate p (mark f p s)).
Proof.
  intros F1 F2 F3 Hi Hp Hna Hb. pose proof (mark_later f p s F1 F2 Hp Hb) as Hl. split.
  - apply erase_inv; [|by apply mark_failed]. eapply inv_marked; [exact Hi | done | | done | done]. intros q Hq.
    destruct (failed (mark f p s) q) eqn:E; [|done]. apply failed_mark in E as [->|E]; [done | | done | done].
    destruct (i_active _ _ _ Hi q Hq) as (_ & Hn & _). congruence.
  - etransitivity; [exact Hl | same_index].
Qed.

Lemma worse_invalid_eq p s : worse_invalid p s = s ∨ worse_invalid p s = with_invalid (Some p) s.
Proof. unfold worse_invalid. destruct (pindexBestInvalid s) as [b|]; [destruct (more_work s p b)|]; auto. Qed.

Lemma worse_invalid_inv s t R p : inv s t R →
  inv (worse_invalid p s) t R ∧ later s (worse_invalid p s) ∧ still s (worse_invalid p s) ∧
  hp (worse_invalid p s) = hp s ∧ setBlockIndexCandidates (worse_invalid p s) = setBlockIndexCandidates s.
Proof.
  intros Hi. destruct (worse_invalid_eq p s) as [-> | ->].
  - split; [done|]. split; [reflexivity|]. by split; [|split].
  - assert (Hl : later s (with_invalid (Some p) s)) by same_index. split; [by eapply (inv_same s)|]. split; [done|]. by split; [|split].
Qed.

(** ** FindMostWorkChain *)

Section Find.
Context (t R : ptr).

Lemma anc_complete s p q : inv s t R → complete s p → anc (hp s) p q → complete s q.
Proof. intros Hi Hp Ha. induction Ha as [|p e q r He Hq _ IH]; [done|]. apply IH. by eapply (i_prev _ _ _ Hi). Qed.

Lemma Contains_active s p : core s t → is_Some (hp s !! p) →
  ∃ b, Contains (hp s) (vChain s) p = Some b ∧ (b = true ↔ anc (hp s) t p).
Proof.
  intros Hi [e He]. pose proof (c_branch _ _ Hi) as Hb. pose proof (t_linked _ (c_tree _ _ Hi)) as Hk.
  rewrite (Contains_spec _ (Some t) _ p e Hb He). eexists. split; [done|].
  rewrite bool_decide_eq_true, (branch_elem _ Hk (Some t) _ p e Hb He). split; [intros (x & [= <-] & ?); done | eauto].
Qed.

(** The walk finds a marked block, or all blocks down to the active chain are unmarked. *)
Lemma test_chain_spec s fuel : inv s t R → ∀ p e, hp s !! p = Some e → complete s p → (Z.to_nat (nHeight e) < fuel)%nat →
  (test_chain fuel s (Some p) = Some None ∧ ∀ q, anc (hp s) p q → failed s q = false) ∨
  ∃ x, test_chain fuel s (Some p) = Some (Some (x, true)) ∧ anc (hp s) p x ∧ failed s x = true.
Proof.
  intros Hi. induction fuel as [|fuel IH]; intros p e He Hp Hf; [lia|]. cbn [test_chain].
  destruct (Contains_active s p (inv_core _ _ _ Hi) ltac:(by eexists)) as (b & -> & Hb). cbn [mbind option_bind].
  destruct b.
  { left. split; [done|]. intros q Ha. apply (i_active _ _ _ Hi). eapply anc_trans; [by apply Hb | done]. }
  rewrite He. cbn [mbind option_bind]. destruct (Z.eqb_spec (nChainTx (member s p)) 0); [by destruct Hp|]. cbn [andb].
  pose proof (i_data _ _ _ Hi p Hp) as Hd. unfold have_data in Hd. rewrite He in Hd. rewrite Hd. cbn [negb]. rewrite orb_false_r.
  destruct (has_flag e BLOCK_FAILED_MASK) eqn:Ef.
  { right. exists p. split; [done|]. split; [apply anc_refl|]. unfold failed. by rewrite He. }
  assert (Hself : failed s p = false) by (unfold failed; by rewrite He).
  destruct (pprev e) as [q|] eqn:Eq.
  - destruct (entry_prev _ (t_linked _ (i_tree _ _ _ Hi)) p e q He Eq) as (eq & Hq & Hh).
    pose proof (entry_height _ (t_linked _ (i_tree _ _ _ Hi)) q eq Hq).
    destruct (IH q eq Hq (i_prev _ _ _ Hi p e q He Eq Hp) ltac:(lia)) as [[E Hall]|(x & E & Ha & Hx)].
    + left. split; [done|]. intros y Hy. inversion Hy; simplify_eq; [done | by apply Hall].
    + right. exists x. split; [done|]. split; [by eapply anc_prev | done].
  - left. split; [by destruct fuel|]. intros y Hy. inversion Hy; simplify_eq. done.
Qed.

(** The blocks above a marked one are marked and leave the candidates. *)
Lemma remove_chain_spec fuel : ∀ s p x e, inv s t R → hp s !! p = Some e → anc (hp s) p x → failed s x = true → (Z.to_nat (nHeight e) < fuel)%nat →
  ∃ s', remove_chain fuel x true p s = Some s' ∧ inv s' t R ∧ later s s' ∧ still s s' ∧
    (p = x → setBlockIndexCandidates s' = setBlockIndexCandidates s) ∧
    (length (setBlockIndexCandidates s') <= length (setBlockIndexCandidates s))%nat ∧
    (p ≠ x → p ∈ setBlockIndexCandidates s → length (setBlockIndexCandidates s') < length (setBlockIndexCandidates s))%nat.
Proof.
  induction fuel as [|fuel IH]; intros s p x e Hi He Ha Hx Hf; [lia|]. cbn [remove_chain].
  destruct (decide (x = p)) as [->|Hne].
  { exists s. split; [done|]. split; [done|]. split; [done|]. split; [done|]. split; [done|]. by split. }
  rewrite He. cbn [mbind option_bind]. inversion Ha as [|? ep q ? Hp Hq Ha']; simplify_eq. rewrite Hq. cbn [mbind option_bind].
  destruct (mark_erase_inv BLOCK_FAILED_CHILD s t R p) as [Hi' Hl]; [done | done | done | done | by eexists | | exists x; by split; [|left] |].
  { intros Htp. destruct (i_active _ _ _ Hi x) as (_ & Hn & _); [by eapply anc_trans | congruence]. }
  set (s1 := erase_candidate p (mark BLOCK_FAILED_CHILD p s)) in *. pose proof (l_frame _ _ Hl) as Hfr.
  destruct (entry_prev _ (t_linked _ (i_tree _ _ _ Hi)) p e q He Hq) as (eq & Heq & Hh).
  pose proof (entry_height _ (t_linked _ (i_tree _ _ _ Hi)) q eq Heq).
  destruct (shape_fields _ _ (f_shape _ _ Hfr) q eq Heq) as (eq' & Heq' & _ & _ & _ & Ehh & _).
  destruct (IH s1 q x eq' Hi' Heq') as (s' & E & A1 & A2 & A3 & _ & A5 & _);
    [by eapply frame_anc | by apply (l_marks _ _ Hl) | rewrite <- Ehh; lia |].
  assert (Hle : (length (setBlockIndexCandidates s1) <= length (setBlockIndexCandidates s))%nat) by apply length_erase.
  assert (Hord : StronglySorted (λ a b, less (mark BLOCK_FAILED_CHILD p s) a b = true) (setBlockIndexCandidates s)).
  { eapply ordered_frame; [|apply Hi|apply Hi]. split; [apply Hfr | done | done]. }
  assert (Ht' : tree_ok (hp (mark BLOCK_FAILED_CHILD p s))) by apply (i_tree _ _ _ Hi').
  exists s'. split; [exact E|]. split; [done|]. split; [by etransitivity|]. split; [by etransitivity|]. split; [|split; [lia|]].
  - by intros ->.
  - intros _ Hin. eapply Nat.le_lt_trans; [exact A5|]. apply length_erase_lt; eauto using less_irr, less_trans, less_total.
Qed.

(** No block that could be connected is better: of all, and of those not worse than [R]. *)
Definition best s (m : ptr) : Prop := ∀ p, complete s p → failed s p = false → less s m p = false.
Definition best_from s (r m : ptr) : Prop := ∀ p, complete s p → failed s p = false → less s p r = false → less s m p = false.

Lemma best_from_later s s' r m : later s s' → tree_ok (hp s) → best_from s r m → best_from s' r m.
Proof using Type.
  intros [Hf Hm _ _ _] Ht Hb p Hp Hn. rewrite <- !(frame_less s s') by done. apply Hb; [by apply (frame_complete s' s)|].
  destruct (failed s p) eqn:E; [|done]. by rewrite Hm in Hn.
Qed.

(** If the block [R] is not marked, nothing is better at all. *)
Lemma best_from_all s m : inv s t R → failed s R = false → best_from s R m → best s m.
Proof.
  intros Hi Hr Hb p Hp Hn. pose proof (i_tree _ _ _ Hi) as Ht. destruct (less s p R) eqn:E; [|by apply Hb].
  eapply not_less_trans; [done | apply Hb; [apply (i_ref _ _ _ Hi) | done | by apply less_irr] | by apply less_flip].
Qed.

Lemma ref_candidate s : inv s t R → failed s R = false → R ∈ setBlockIndexCandidates s.
Proof. intros Hi Hr. apply (i_rest _ _ _ Hi); [apply (i_ref _ _ _ Hi) | done | by apply less_irr, Hi]. Qed.

Lemma greatest_best s m : inv s t R → last (setBlockIndexCandidates s) = Some m → best_from s R m.
Proof.
  intros Hi Hm p Hp Hn Hless. pose proof (i_tree _ _ _ Hi) as Ht. pose proof (i_ordered _ _ _ Hi) as Ho.
  destruct (last_greatest _ _ m p Ho Hm (i_rest _ _ _ Hi p Hp Hn Hless)) as [->|Hl]; [by apply less_irr | by apply less_flip].
Qed.

(** Without candidates, all blocks that are not worse than [R] are marked. *)
Lemma no_candidates s m : inv s t R → setBlockIndexCandidates s = [] → best_from s R m ∧ failed s R = true.
Proof.
  intros Hi E. assert (Hno : ∀ p, p ∉ setBlockIndexCandidates s) by (intros p; rewrite E; apply not_elem_of_nil). split.
  - intros p Hp Hn Hless. destruct (Hno p). by apply (i_rest _ _ _ Hi).
  - destruct (failed s R) eqn:Ef; [done|]. destruct (Hno R). by apply ref_candidate.
Qed.

Lemma height_fuel_enough s p e : hp s !! p = Some e → (Z.to_nat (nHeight e) < height_fuel s p)%nat.
Proof using Type. intros He. unfold height_fuel. rewrite He. cbn. lia. Qed.

Lemma find_loop_spec fuel : ∀ s, inv s t R → (length (setBlockIndexCandidates s) <= fuel)%nat →
  ∃ r s', find_loop fuel s = Some (r, s') ∧ inv s' t R ∧ later s s' ∧ still s s' ∧
    match r with
    | Some m => m ∈ setBlockIndexCandidates s' ∧ best_from s' R m ∧ ∀ q, anc (hp s') m q → failed s' q = false
    | None => setBlockIndexCandidates s' = []
    end.
Proof.
  induction fuel as [|fuel IH]; intros s Hi Hf;
    (destruct (last (setBlockIndexCandidates s)) as [m|] eqn:Em;
      [|exists None, s; split; [by cbn [find_loop]; rewrite Em|]; by apply last_None in Em]);
    pose proof (last_Some_elem_of _ _ Em) as Hin; pose proof (i_candidates _ _ _ Hi m Hin) as Hc; pose proof Hc as [[e He] _].
  { destruct (setBlockIndexCandidates s); [done | cbn in Hf; lia]. }
  cbn [find_loop]. rewrite Em.
  destruct (test_chain_spec s _ Hi m e He Hc (height_fuel_enough s m e He)) as [[-> Hall]|(x & -> & Ha & Hx)]; cbn [mbind option_bind].
  { exists (Some m), s. split; [done|]. split; [done|]. split; [done|]. split; [done|]. split; [done|]. split; [by apply greatest_best | done]. }
  destruct (worse_invalid_inv s t R m Hi) as (Hi1 & Hl1 & Hs1 & Eh & Ec). set (s1 := worse_invalid m s) in *.
  assert (He1 : hp s1 !! m = Some e) by by rewrite Eh.
  destruct (remove_chain_spec (height_fuel s1 m) s1 m x e) as (s2 & -> & Hi2 & Hl2 & Hs2 & Hsub & Hle & Hlt);
    [done | done | by rewrite Eh | by apply (l_marks _ _ Hl1) | by apply height_fuel_enough |]. cbn [mbind option_bind].
  assert (Hx2 : failed s2 x = true) by by apply (l_marks _ _ Hl2), (l_marks _ _ Hl1).
  pose proof (erase_inv s2 t R x Hi2 Hx2) as Hi3. rewrite Ec in *.
  destruct (IH (erase_candidate x s2) Hi3) as (m' & s' & E & A1 & A2 & A3 & A4).
  { cbn. pose proof (i_tree _ _ _ Hi2) as Ht2. destruct (decide (m = x)) as [Emx|Hne].
    - rewrite (Hsub Emx). cut (length (set_erase (less s2) x (setBlockIndexCandidates s)) < length (setBlockIndexCandidates s))%nat; [lia|].
      apply length_erase_lt; eauto using less_irr, less_trans, less_total; [|by rewrite <- Emx].
      rewrite <- (Hsub Emx). apply Hi2.
    - pose proof (length_erase (less s2) x (setBlockIndexCandidates s2)). specialize (Hlt Hne Hin). lia. }
  exists m', s'. split; [exact E|]. split; [done|].
  split; [etransitivity; [exact Hl1|]; etransitivity; [exact Hl2|]; etransitivity; [|exact A2]; same_index|].
  split; [etransitivity; [exact Hs1|]; etransitivity; [exact Hs2 | exact A3] | exact A4].
Qed.
End Find.

(** ** PruneBlockIndexCandidates *)

Lemma Tip_branch s t : branch_of (hp s) (Some t) (vChain s) → linked (hp s) → Tip s = Some t.
Proof using Type.
  intros (e & He & Hl & Hall) Hk. unfold Tip, Chain.Tip. pose proof (entry_height _ Hk _ _ He). destruct (length (vChain s)) as [|n] eqn:El; [lia|].
  destruct (Hall n ltac:(lia)) as (q & -> & Ha & eq & Hq & Hh). cbn. f_equal.
  destruct (anc_height _ Hk _ _ _ _ Ha He Hq) as [_ Heq]. symmetry. apply Heq. lia.
Qed.

Lemma inv_tip s t R : inv s t R → Tip s = Some t.
Proof. intros Hi. apply Tip_branch; [apply Hi | apply Hi]. Qed.

(** The block to compare with is the same, or a better one that was not marked. *)
Definition heir s (R R' : ptr) : Prop := R' = R ∨ failed s R' = false ∧ less s R R' = true.

Lemma heir_trans s s' R1 R2 R3 : later s s' → tree_ok (hp s) → heir s R1 R2 → heir s' R2 R3 → heir s R1 R3.
Proof.
  intros Hl Ht H [->|[H' Hless]]; [done|]. right. rewrite <- (frame_less s s') in Hless by (done || apply Hl). split.
  - destruct (failed s R3) eqn:E; [|done]. by rewrite (l_marks _ _ Hl) in H'.
  - destruct H as [->|[_ H]]; [done | by eapply less_trans].
Qed.

Lemma heir_best s R R' m : tree_ok (hp s) → heir s R R' → best_from s R m → best_from s R' m.
Proof.
  intros Ht [->|[_ Hless]] Hb; [done|]. intros p Hp Hn Hp'. apply Hb; [done | done|]. destruct (less s p R) eqn:E; [|done].
  by rewrite (less_trans s Ht _ _ _ E Hless) in Hp'.
Qed.

(** A block that is not worse than the tip stays; the tip is the new reference if it is
    better than the old one. *)
Lemma Prune_spec s t R m : inv s t R → m ∈ setBlockIndexCandidates s → less s m t = false →
  ∃ s' R', PruneBlockIndexCandidates s = Some s' ∧ inv s' t R' ∧ heir s R R' ∧ later s s' ∧ still s s' ∧ hp s' = hp s ∧ m ∈ setBlockIndexCandidates s'.
Proof.
  intros Hi Hm Hmt. pose proof (i_tree _ _ _ Hi) as Ht. unfold PruneBlockIndexCandidates. rewrite (inv_tip _ _ _ Hi). cbn [mbind option_bind].
  assert (Hd : ∀ q, q ∈ drop_worse (less s) t (setBlockIndexCandidates s) ↔ q ∈ setBlockIndexCandidates s ∧ less s q t = false).
  { intros q. apply elem_drop_worse; eauto using less_irr, less_trans, less_total. apply Hi. }
  set (l := drop_worse (less s) t (setBlockIndexCandidates s)) in *.
  assert (Hml : m ∈ l) by by apply Hd. assert (El : l ≠ []) by (intros E; rewrite E in Hml; by apply elem_of_nil in Hml).
  exists (with_candidates l s). assert (Hl : later s (with_candidates l s)) by same_index.
  assert (Eq : match l with [] => None | _ => Some (with_candidates l s) end = Some (with_candidates l s)) by by destruct l.
  assert (Ho : StronglySorted (λ a b, less s a b = true) l) by apply ordered_drop, Hi.
  destruct (less s R t) eqn:ER; [exists t | exists R]; (split; [exact Eq|]); (split; [|split; [first [by left | by right; split; [apply (i_active _ _ _ Hi), anc_refl|]] | by split; [|split]]]).
  - destruct Hi as [? ? H3 ? H5 ? ? ? ? H8]. split; try done.
    + intros p Hp. apply H5. by apply Hd.
    + destruct (H3 t (anc_refl _ _)) as (? & _ & ?). by split.
    + intros p Hp Hn Hless. apply Hd. split; [|done]. apply H8; [done | done|]. destruct (less s p R) eqn:E; [|done].
      change (less s p t = false) in Hless. by rewrite (less_trans s Ht _ _ _ E ER) in Hless.
  - eapply inv_later; [done | done | intros q Hq; by apply (i_active _ _ _ Hi q Hq) | done | done | by intros p [? _]%Hd |].
    intros p Hp _ Hless. apply Hd. split; [done|]. by eapply not_less_trans.
Qed.

(** ** The tip moves *)

Lemma UpdateTip_core s t p : core s t → (∀ q, anc (hp s) p q → complete s q) →
  ∃ v, UpdateTip (Some p) s = Some (with_chain v s) ∧ core (with_chain v s) p.
Proof using Type.
  intros Hi Hp. destruct (Hp p (anc_refl _ _)) as [[e He] _]. unfold UpdateTip. cbn [mbind option_bind].
  destruct (SetTip_spec _ (t_linked _ (c_tree _ _ Hi)) (Some t) (vChain s) p e (c_branch _ _ Hi) He) as (v & -> & Hb).
  exists v. split; [done|]. destruct Hi. by split.
Qed.

Lemma UpdateTip_spec s t R p : inv s t R → (∀ q, anc (hp s) p q → complete s q ∧ failed s q = false ∧ verified s q) →
  ∃ v, UpdateTip (Some p) s = Some (with_chain v s) ∧ inv (with_chain v s) p R.
Proof.
  intros Hi Hp. destruct (UpdateTip_core s t p (inv_core _ _ _ Hi)) as (v & E & Hc); [intros q Hq; by destruct (Hp q Hq)|].
  exists v. split; [done|]. destruct Hi. by apply core_inv; [|intros q Hq; destruct (Hp q Hq)| |].
Qed.

(** ** Connecting and disconnecting the tip *)

(** The view and the files are those of the branch of [t]. *)
Definition holds s (t : ptr) : Prop := stands (shape (hp s)) t (files s) (pcoinsTip s).

(** [ConnectBlock] and [DisconnectBlock] throw nothing, and no refusal is put down to damage of
    the block, whatever state of the tree they are called on. *)
Record orderly s : Prop := {
  o_connect : ∀ h b p e q already w c st, shape h = shape (hp s) → stands (shape h) q w c → h !! p = Some e → pprev e = Some q →
    GetHash b = phashBlock e → Tx.mode st = Tx.MODE_VALID →
    ∃ ok st' reached w' c', ConnectBlock h b p already w c st = Some (ok, st', reached, w', c') ∧
      (ok = false → Tx.mode st' = Tx.MODE_INVALID → Tx.corruptionPossible st' = false);
  o_disconnect : ∀ h b p e q w c, shape h = shape (hp s) → stands (shape h) p w c → h !! p = Some e → pprev e = Some q →
    GetHash b = phashBlock e → is_Some (DisconnectBlock h b p w c)
}.

Lemma orderly_frame s s' : frame s s' → orderly s → orderly s'.
Proof. intros Hf [H1 H2]. pose proof (f_shape _ _ Hf) as Es. by split; rewrite <- Es. Qed.

(** Nothing fails but blocks that break a rule: files can be read and written, [ConnectBlock]
    fails with a refusal only, and [DisconnectBlock] finds what it expects. *)
Record reliable s : Prop := {
  r_read : ∀ p e q w c, hp s !! p = Some e → complete s p → stands (shape (hp s)) q w c →
    ∃ b, read_block w (nFile (member s p), nDataPos (member s p)) = Some b ∧ GetHash b = phashBlock e;
  r_connect : ∀ h b p e q already w c st st' reached w' c', shape h = shape (hp s) → stands (shape h) q w c →
    h !! p = Some e → pprev e = Some q → GetHash b = phashBlock e →
    Tx.mode st = Tx.MODE_VALID → ConnectBlock h b p already w c st = Some (false, st', reached, w', c') → Tx.mode st' = Tx.MODE_INVALID;
  r_disconnect : ∀ h b p e q w c r w' c', shape h = shape (hp s) → stands (shape h) p w c →
    h !! p = Some e → pprev e = Some q → GetHash b = phashBlock e → DisconnectBlock h b p w c = Some (r, w', c') → r = DISCONNECT_OK;
  r_flush : ∀ p mode w c st ok st' written c', stands (shape (hp s)) p w c →
    FlushStateToDisk mode w c st = (ok, st', written, c') → ok = true
}.

Lemma reliable_frame s s' : frame s s' → reliable s → reliable s'.
Proof.
  intros Hf [H1 H2 H3 H4]. pose proof (f_shape _ _ Hf) as Es. split; rewrite <- ?Es; try done.
  intros p e q w c He Hp Hst. destruct (shape_back _ _ p e Es He) as (e0 & He0 & Eh & _).
  destruct (H1 p e0 q w c He0) as (b & Hr & Hb); [by apply (frame_complete s' s) | done|].
  exists b. by rewrite <- (frame_member s s'), <- Eh.
Qed.

Lemma read_spec s t p e : core s t → complete s p → hp s !! p = Some e →
  ∃ r, ReadBlockFromDisk p s = Some r ∧ (∀ b, r = Some b → GetHash b = phashBlock e) ∧ (holds s t → r = None → ¬ reliable s).
Proof.
  intros Hi Hp He. unfold ReadBlockFromDisk, GetBlockPos. rewrite He. cbn [mbind option_bind].
  pose proof (c_data _ _ Hi p Hp) as Hd. unfold have_data in Hd. rewrite He in Hd. rewrite Hd.
  eexists. split; [done|]. split.
  - intros b. destruct (read_block _ _) as [b'|]; [|done]. case_bool_decide; [|done]. by intros [= <-].
  - intros Hh Hn Hr. destruct (r_read _ Hr p e t _ _ He Hp Hh) as (b & Eb & Hb). by rewrite Eb, bool_decide_true in Hn.
Qed.

(** Writing to disk changes nothing that counts. *)
Lemma flush_spec mode st s t ok st' s' : holds s t → flush mode st s = (ok, st', s') →
  holds s' t ∧ later s s' ∧ hp s' = hp s ∧ vChain s' = vChain s ∧ setBlockIndexCandidates s' = setBlockIndexCandidates s ∧
  if ok then Tx.mode st' = Tx.mode st else Tx.mode st' = Tx.MODE_ERROR ∧ ¬ reliable s.
Proof.
  intros Hh. unfold flush. destruct (FlushStateToDisk mode (files s) (pcoinsTip s) st) as [[[ok' st1] written] c] eqn:E.
  destruct (flush_law _ _ _ _ _ _ _ _ _ _ Hh E) as [Hst Hm]. intros [= -> -> <-].
  split; [by destruct written|]. split; [destruct written; same_index|]. do 3 (split; [by destruct written|]).
  destruct ok; [done|]. split; [done|]. intros Hr. by pose proof (r_flush _ Hr _ _ _ _ _ _ _ _ _ Hh E).
Qed.

Lemma holds_later s s' t : later s s' → files s' = files s → pcoinsTip s' = pcoinsTip s → holds s t → holds s' t.
Proof. intros Hl E1 E2. unfold holds. by rewrite E1, E2, (f_shape _ _ (l_frame _ _ Hl)). Qed.

(** A failure has another cause than the block. *)
Definition system_error (st : CValidationState) s : Prop := Tx.mode st ≠ Tx.MODE_INVALID ∧ ¬ reliable s.

Lemma core_tip s t : core s t → Tip s = Some t.
Proof using Type. intros Hi. apply Tip_branch; apply Hi. Qed.

Lemma core_same s s' t :
  core s t → kept s s' → vChain s' = vChain s → setBlockIndexCandidates s' = setBlockIndexCandidates s → core s' t.
Proof.
  intros Hi Hl Ev Ec. pose proof Hl as [Hf Hd Hlev]. pose proof (c_tree _ _ Hi) as Ht.
  assert (Hback : ∀ p, complete s' p → complete s p) by (intros p; by apply frame_complete). split.
  - by eapply frame_tree.
  - rewrite Ev. eapply branch_shape; [apply Hf | apply Hi].
  - intros q Ha. eapply frame_complete; [done|]. apply (c_active _ _ Hi). by eapply frame_anc.
  - rewrite Ec. eapply ordered_frame; [done | done | apply Hi].
  - intros p. rewrite Ec. intros Hp. eapply frame_complete; [done|]. by apply (c_candidates _ _ Hi).
  - intros p e q He Hq Hp. destruct (shape_back _ _ p e (f_shape _ _ Hf) He) as (e0 & He0 & _ & E & _).
    eapply frame_complete; [done|]. eapply (c_prev _ _ Hi p e0); [done | by rewrite E | by apply Hback].
  - intros p Hp. rewrite Hd. apply (c_data _ _ Hi). by apply Hback.
  - intros p e Hp He. destruct (shape_back _ _ p e (f_shape _ _ Hf) He) as (e0 & He0 & _). etransitivity; [|by eapply Hlev].
    eapply (c_level _ _ Hi); [by apply Hback | done].
Qed.

Lemma DisconnectTip_core st s t e q : core s t → holds s t → orderly s → hp s !! t = Some e → pprev e = Some q → Tx.mode st = Tx.MODE_VALID →
  ∃ ok st' s', DisconnectTip st s = Some (ok, st', s') ∧ later s s' ∧
    if ok then Tx.mode st' = Tx.MODE_VALID ∧ core s' q ∧ holds s' q ∧ setBlockIndexCandidates s' = setBlockIndexCandidates s ∧ hp s' = hp s
    else system_error st' s ∧ vChain s' = vChain s.
Proof.
  intros Hi Hh Hord He Hq Hst. unfold DisconnectTip. rewrite (core_tip _ _ Hi). cbn [mbind option_bind]. rewrite He. cbn [mbind option_bind].
  assert (Ht : complete s t) by apply (c_active _ _ Hi), anc_refl.
  destruct (read_spec s t t e Hi Ht He) as (r & -> & Hb & Hn). cbn [mbind option_bind]. destruct r as [b|].
  2: { eexists false, _, s. split; [done|]. split; [done|]. split; [|done]. split; [done | by apply Hn]. }
  destruct (o_disconnect _ Hord _ _ _ _ _ _ _ eq_refl Hh He Hq (Hb b eq_refl)) as [[[r w] c] E]. rewrite E. cbn [mbind option_bind].
  assert (Hfail : r ≠ DISCONNECT_OK → ¬ reliable s) by (intros Hne Hr; by apply Hne; eapply (r_disconnect _ Hr _ b t e q); eauto).
  destruct r.
  2, 3: eexists false, st, _; split; [done|]; split; [same_index|]; split; [|done]; split; [by rewrite Hst | by apply Hfail].
  pose proof (disconnect_law _ _ _ _ _ _ _ _ _ Hh He Hq (Hb b eq_refl) E) as Hd.
  destruct (flush FLUSH_STATE_ALWAYS st (with_state w c s)) as [[ok st1] s1] eqn:Ef.
  destruct (flush_spec _ _ (with_state w c s) q _ _ _ Hd Ef) as (Hh1 & Hl1 & Eh & Ev & Ec & Hok).
  assert (Hl : later s s1) by (etransitivity; [|exact Hl1]; same_index). destruct ok; cbn [negb].
  2: { exists false, st1, s1. split; [done|]. split; [done|]. destruct Hok as [Hm Hr]. split; [|done]. split; [by rewrite Hm|].
       intros H. apply Hr. eapply reliable_frame; [|exact H]. done. }
  assert (Hi1 : core s1 t) by (eapply core_same; [exact Hi | by apply later_kept | done | done]).
  assert (Haq : anc (hp s1) t q) by (rewrite Eh; by eapply anc_prev, anc_refl).
  rewrite Hq. destruct (UpdateTip_core s1 t q Hi1) as (v & -> & Hi2).
  { intros x Hx. apply (c_active _ _ Hi1). by eapply anc_trans. }
  cbn [mbind option_bind]. eexists true, st1, _. split; [done|]. split; [etransitivity; [exact Hl | same_index]|].
  split; [by rewrite Hok|]. split; [done|]. by split; [|split].
Qed.

Lemma DisconnectTip_spec st s t R e q : inv s t R → holds s t → orderly s → hp s !! t = Some e → pprev e = Some q → Tx.mode st = Tx.MODE_VALID →
  ∃ ok st' s', DisconnectTip st s = Some (ok, st', s') ∧ later s s' ∧
    if ok then Tx.mode st' = Tx.MODE_VALID ∧ inv s' q R ∧ holds s' q ∧ setBlockIndexCandidates s' = setBlockIndexCandidates s ∧ hp s' = hp s
    else system_error st' s.
Proof.
  intros Hi Hh Hord He Hq Hst. destruct (DisconnectTip_core st s t e q (inv_core _ _ _ Hi) Hh Hord He Hq Hst) as (ok & st' & s' & E & Hl & Hok).
  exists ok, st', s'. split; [done|]. split; [done|]. destruct ok; [|apply Hok]. destruct Hok as (H1 & Hc & Hh' & Ec & Eh). split; [done|]. split; [|done].
  pose proof (l_frame _ _ Hl) as Hf. assert (Hs : ∀ x, failed s' x = failed s x) by (intros x; unfold failed; by rewrite Eh).
  apply core_inv; [done | | |].
  - intros x. rewrite Eh, Hs. intros Hx. destruct (i_active _ _ _ Hi x) as (_ & ? & Hv); [eapply anc_prev; done|]. split; [done | by eapply kept_verified; [apply later_kept|]].
  - destruct (i_ref _ _ _ Hi) as [Hr1 Hr2]. split; [by eapply frame_complete | by eapply kept_verified; [apply later_kept|]].
  - intros x Hx. rewrite Hs, Ec, <- (frame_less s s') by (done || apply Hi). intros Hn Hless.
    apply (i_rest _ _ _ Hi); [by apply (frame_complete s' s) | done | done].
Qed.

Lemma IsValid_level e n : n .& Z.lnot BLOCK_VALID_MASK = 0 → IsValid e n = Some (negb (has_flag e BLOCK_FAILED_MASK) && (n <=? level e)).
Proof using Type.
  intros Hn. unfold IsValid. rewrite Hn. cbn [Z.eqb negb]. fold (has_flag e BLOCK_FAILED_MASK). fold (level e).
  destruct (has_flag e BLOCK_FAILED_MASK); [done|]. cbn [negb andb]. by rewrite Z.geb_leb.
Qed.

(** The marks of [ConnectBlock]. *)
Lemma connect_marks_spec s t R p : inv s t R → complete s p → failed s p = false →
  ∃ s', connect_marks p s = Some s' ∧ later s s' ∧ still s s' ∧ setBlockIndexCandidates s' = setBlockIndexCandidates s ∧
    (∀ q, failed s' q = failed s q) ∧ verified s' p.
Proof.
  intros Hi [[e He] _] Hf. unfold connect_marks. rewrite He. cbn [mbind option_bind].
  assert (Hef : has_flag e BLOCK_FAILED_MASK = false) by (unfold failed in Hf; by rewrite He in Hf).
  rewrite IsValid_level, Hef by reflexivity. cbn [mbind option_bind negb andb].
  destruct (negb (has_flag e BLOCK_HAVE_UNDO) || negb (BLOCK_VALID_SCRIPTS <=? level e)) eqn:Edo.
  2: { exists s. repeat (split; [done|]). exists e. split; [done|]. apply orb_false_iff in Edo as [_ Edo]. apply negb_false_iff in Edo. lia. }
  set (e1 := if negb (has_flag e BLOCK_HAVE_UNDO) then add_flag BLOCK_HAVE_UNDO e else e).
  assert (Hflag : ∀ f, BLOCK_HAVE_UNDO .& f = 0 → has_flag e1 f = has_flag e f).
  { intros f Hfl. unfold e1. destruct (negb _); [|done]. by rewrite has_add_flag, Hfl, orb_false_r. }
  assert (Hlev : level e1 = level e) by (unfold e1; destruct (negb _); [by apply level_add_flag | done]).
  assert (Hsh : set_status 0 e1 = set_status 0 e) by (unfold e1; by destruct (negb _)).
  destruct (RaiseValidity_spec e1 BLOCK_VALID_SCRIPTS ltac:(reflexivity)) as (e2 & r & -> & E1 & E2 & E3 & E4). cbn [mbind option_bind fst].
  eexists. split; [done|].
  assert (Hno : has_flag e2 BLOCK_FAILED_MASK = false).
  { by rewrite E3, Hflag. }
  split; [|split; [done|]; split; [done|]; split].
  3: { exists e2. cbn. rewrite lookup_insert_eq. split; [done|]. apply E4. by rewrite Hflag. }
  2: { intros q. unfold failed in *. cbn. destruct (decide (q = p)) as [->|]; [|by rewrite lookup_insert_ne].
       rewrite lookup_insert_eq, Hno. by rewrite Hf. }
  eapply later_status; [exact He | reflexivity | done | done | congruence | lia | | by rewrite Hno | ].
  - congruence.
  - by rewrite E3, Hflag.
Qed.

Lemma InvalidChainFound_spec s t R p : inv s t R →
  ∃ s', InvalidChainFound p s = Some s' ∧ inv s' t R ∧ later s s' ∧ still s s' ∧ hp s' = hp s.
Proof.
  intros Hi. destruct (worse_invalid_inv s t R p Hi) as (Hi1 & Hl & Hs & Eh & _). unfold InvalidChainFound.
  rewrite (inv_tip _ _ _ Hi1). cbn [mbind option_bind]. eauto 10.
Qed.

Lemma InvalidBlockFound_spec s t R p st : inv s t R → is_Some (hp s !! p) → ¬ anc (hp s) t p → refusable s p → Tx.corruptionPossible st = false →
  ∃ s', InvalidBlockFound p st s = Some s' ∧ inv s' t R ∧ later s s' ∧ still s s' ∧ failed s' p = true.
Proof.
  intros Hi Hp Hna Hv Hc. unfold InvalidBlockFound. rewrite Hc. cbn [negb].
  destruct (mark_erase_inv BLOCK_FAILED_VALID s t R p) as [Hi1 Hl1]; [done | done | done | done | done | done | exists p; split; [apply anc_refl | by right] |].
  set (s1 := erase_candidate p (dirty p (mark BLOCK_FAILED_VALID p s))).
  assert (El : later (erase_candidate p (mark BLOCK_FAILED_VALID p s)) s1) by same_index.
  destruct (InvalidChainFound_spec s1 t R p) as (s' & E & Hi2 & Hl2 & Hs2 & _).
  { eapply inv_same; [exact Hi1 | done | done | done | done]. }
  exists s'. split; [exact E|]. split; [done|]. split; [etransitivity; [exact Hl1|]; by etransitivity|]. split; [exact Hs2|].
  apply (l_marks _ _ Hl2), (l_marks _ _ El). by apply (mark_failed BLOCK_FAILED_VALID p s).
Qed.

(** A child of the tip is not on the active chain. *)
Lemma child_not_active s t R p e : inv s t R → hp s !! p = Some e → pprev e = Some t → ¬ anc (hp s) t p.
Proof.
  intros Hi He Hp Ha. pose proof (t_linked _ (i_tree _ _ _ Hi)) as Hk. destruct (entry_prev _ Hk p e t He Hp) as (et & Het & Hh).
  destruct (anc_height _ Hk _ _ _ _ Ha Het He) as [Hle _]. lia.
Qed.

Section Connect.
Context (st : CValidationState) (s : node W C) (t R p : ptr) (e : CBlockIndex).
Hypothesis Hi : inv s t R.
Hypothesis Hh : holds s t.
Hypothesis Hord : orderly s.
Hypothesis He : hp s !! p = Some e.
Hypothesis Hprev : pprev e = Some t.
Hypothesis Hp : complete s p.
Hypothesis Hf : failed s p = false.
Hypothesis Hst : Tx.mode st = Tx.MODE_VALID.

(** What a call of [ConnectTip] leaves. *)
Definition connected (ok : bool) (st' : CValidationState) (s' : node W C) : Prop :=
  if ok then Tx.mode st' = Tx.MODE_VALID ∧ inv s' p R ∧ holds s' p ∧ setBlockIndexCandidates s' = setBlockIndexCandidates s ∧
    ∀ q, failed s' q = failed s q
  else system_error st' s ∨
       Tx.mode st' = Tx.MODE_INVALID ∧ Tx.corruptionPossible st' = false ∧ inv s' t R ∧ holds s' t ∧ failed s' p = true.

(** After [ConnectBlock], with its marks made. *)
Lemma connect_end_spec st1 s1 w c : Tx.mode st1 = Tx.MODE_VALID → later s s1 → vChain s1 = vChain s →
  setBlockIndexCandidates s1 = setBlockIndexCandidates s → (∀ q, failed s1 q = failed s q) → verified s1 p → stands (shape (hp s)) p w c →
  ∃ ok st' s', (let s := with_state w c s1 in
    pos ← GetBlockPos s p;
    mode ← match pprev e with
           | None => Some FLUSH_STATE_IF_NEEDED
           | Some q => pos' ← GetBlockPos s q; Some (if pos.1 =? pos'.1 then FLUSH_STATE_IF_NEEDED else FLUSH_STATE_ALWAYS)
           end;
    let '(ok, state, s) := flush mode st1 s in
    if negb ok then Some (false, state, s) else s ← UpdateTip (Some p) s; Some (true, state, s)) = Some (ok, st', s') ∧
    later s s' ∧ connected ok st' s'.
Proof using All.
  intros Hm Hl Ev Ec Hsame Hv Hs. set (s2 := with_state w c s1). assert (Hl2 : later s s2) by (etransitivity; [exact Hl | same_index]).
  assert (Hi2 : inv s2 t R) by (by apply (inv_same s)). pose proof (l_frame _ _ Hl2) as Hfr.
  assert (Hpos : ∀ q, complete s q → ∃ pos, GetBlockPos s2 q = Some pos).
  { intros q Hq. destruct (frame_complete _ _ q Hfr Hq) as [[eq Eq] _]. unfold GetBlockPos. rewrite Eq. cbn [mbind option_bind]. by eexists. }
  destruct (Hpos p Hp) as [pos Epos]. destruct (Hpos t) as [pos' Epos']; [apply (i_active _ _ _ Hi), anc_refl|].
  cbv zeta. rewrite Epos, Hprev. cbn [mbind option_bind]. rewrite Epos'. cbn [mbind option_bind].
  set (mode := if pos.1 =? pos'.1 then _ else _). clearbody mode.
  assert (Hh2 : holds s2 p) by (unfold holds; cbn; by rewrite <- (f_shape _ _ Hfr)).
  destruct (flush mode st1 s2) as [[ok st'] s3] eqn:Efl. destruct (flush_spec _ _ s2 p _ _ _ Hh2 Efl) as (Hh3 & Hl3 & Eh & Ev3 & Ec3 & Hok).
  assert (Hl' : later s s3) by by etransitivity. destruct ok; cbn [negb].
  2: { exists false, st', s3. split; [done|]. split; [done|]. left. destruct Hok as [Hm' Hr]. split; [by rewrite Hm'|].
       intros H. apply Hr. by eapply reliable_frame. }
  assert (Hsame3 : ∀ q, failed s3 q = failed s q) by (intros q; rewrite <- Hsame; unfold failed; by rewrite Eh).
  assert (Hi3 : inv s3 t R) by (apply (inv_same s); [done | done | done | by rewrite Ev3 | by rewrite Ec3]). pose proof (l_frame _ _ Hl') as Hfr'.
  assert (Hv3 : verified s3 p) by (destruct Hv as (ep & Hep & Hlv); exists ep; by rewrite Eh).
  destruct (UpdateTip_spec s3 t R p Hi3) as (v & -> & Hi4).
  { intros q Ha. apply (frame_anc _ _ _ _ (symmetry Hfr')) in Ha. inversion Ha as [|? ? ? ? H1 H2 H3]; simplify_eq.
    - split; [by eapply frame_complete|]. split; [by rewrite Hsame3 | done].
    - apply (i_active _ _ _ Hi3). by eapply frame_anc. }
  cbn [mbind option_bind]. eexists true, st', _. split; [done|]. split; [etransitivity; [exact Hl' | same_index]|].
  split; [by rewrite Hok|]. split; [done|]. split; [done|]. split; [cbn; by rewrite Ec3|].
  intros q. apply Hsame3.
Qed.

Lemma ConnectTip_spec pblock already : (∀ b, pblock = Some b → GetHash b = phashBlock e) →
  ∃ ok st' s', ConnectTip st p pblock already s = Some (ok, st', s') ∧ later s s' ∧ connected ok st' s'.
Proof using All.
  intros Hb. unfold ConnectTip. rewrite He. cbn [mbind option_bind]. rewrite (inv_tip _ _ _ Hi), Hprev, bool_decide_true by done. cbn [negb].
  assert (Hread : ∃ r, match pblock with None => ReadBlockFromDisk p s | Some _ => Some pblock end = Some r ∧
    (∀ b, r = Some b → GetHash b = phashBlock e) ∧ (r = None → ¬ reliable s)).
  { destruct pblock as [b|]; [by exists (Some b)|]. destruct (read_spec s t p e (inv_core _ _ _ Hi) Hp He) as (r & -> & H1 & H2). exists r. auto. }
  destruct Hread as (r & -> & Hr & Hn). cbn [mbind option_bind]. destruct r as [b|].
  2: { eexists false, _, s. split; [done|]. split; [done|]. left. split; [done | by apply Hn]. }
  destruct (o_connect _ Hord (hp s) b p e t (match pblock with None => false | Some _ => already end) (files s) (pcoinsTip s) st
    eq_refl Hh He Hprev (Hr b eq_refl) Hst) as (ok & st1 & reached & w & c & E & Hcor).
  pose proof (connect_law _ _ _ _ _ _ _ _ _ _ _ _ _ _ Hh He Hprev (Hr b eq_refl) Hst E) as Hlaw. rewrite E. cbn [mbind option_bind].
  set (s0 := with_state w (pcoinsTip s) s). assert (Hl0 : later s s0) by same_index.
  assert (Hi0 : inv s0 t R) by by apply (inv_same s).
  assert (Hm : ∃ s1, (if reached then connect_marks p s0 else Some s0) = Some s1 ∧ later s0 s1 ∧ still s0 s1 ∧
    setBlockIndexCandidates s1 = setBlockIndexCandidates s0 ∧ (∀ q, failed s1 q = failed s0 q) ∧ (reached = true → verified s1 p)).
  { destruct reached; [|by exists s0]. destruct (connect_marks_spec s0 t R p Hi0) as (s1 & ? & ? & ? & ? & ? & ?);
      [by eapply frame_complete | done | by exists s1]. }
  destruct Hm as (s1 & -> & Hl1 & (Ev & Ew & Ecoins) & Ec & Hsame & Hver). cbn [mbind option_bind].
  assert (Hls : later s s1) by by etransitivity. destruct ok; cbn [negb].
  - destruct Hlaw as (Hm & Hre & Hs). pose proof (connect_end_spec st1 s1 w c Hm Hls Ev Ec Hsame (Hver Hre) Hs) as Hend.
    rewrite Hprev in Hend. exact Hend.
  - rename Hlaw into Hs. destruct (Tx.mode st1) eqn:Em.
    2: { specialize (Hcor eq_refl eq_refl).
         destruct (InvalidBlockFound_spec s1 t R p st1) as (s2 & -> & Hi2 & Hl2 & (Ev2 & Ew2 & Ec2) & Hf2); try done.
         + by apply (inv_same s0).
         + by destruct (frame_complete _ _ p (l_frame _ _ Hls) Hp).
         + intros Ha. apply (frame_anc _ _ _ _ (symmetry (l_frame _ _ Hls))) in Ha. by apply (child_not_active s t R p e).
         + eapply (frame_refusable s1 s); [symmetry; apply Hls|].
           exists (hp s), b, e, t, (match pblock with None => false | Some _ => already end), (files s), (pcoinsTip s), st, st1, reached, w, c.
           split; [done|]. split; [exact Hh|]. do 3 (split; [by auto|]). by split.
         + cbn [mbind option_bind]. exists false, st1, s2. split; [done|]. split; [by etransitivity|]. right.
           split; [done|]. split; [done|]. split; [done|]. split; [|done].
           unfold holds. rewrite <- (f_shape _ _ (l_frame _ _ Hl2)), <- (f_shape _ _ (l_frame _ _ Hls)), Ew2, Ec2, Ew, Ecoins. exact Hs. }
    all: cbn [mbind option_bind]; exists false, st1, s1; split; [done|]; split; [done|]; left; split; [by rewrite Em|];
      intros Hrel; pose proof (r_connect _ Hrel _ _ _ _ _ _ _ _ _ _ _ _ _ eq_refl Hh He Hprev (Hr b eq_refl) Hst E); congruence.
Qed.
End Connect.

(** ** ActivateBestChainStep *)

(** The block is a candidate, and neither it nor its ancestors are marked. *)
Definition clear s (m : ptr) : Prop := m ∈ setBlockIndexCandidates s ∧ ∀ q, anc (hp s) m q → failed s q = false.

(** Blocks that follow each other from [t] on. *)
Fixpoint path (h : heap) (t : ptr) (l : list ptr) : Prop :=
  match l with
  | [] => True
  | p :: l => (∃ e, h !! p = Some e ∧ pprev e = Some t) ∧ path h p l
  end.

Lemma path_shape h h' l : shape h = shape h' → ∀ t, path h t l → path h' t l.
Proof using Type.
  intros Hs. induction l as [|p l IH]; intros t; [done|]. intros [(e & He & Ht) Hl]. split; [|by apply IH].
  destruct (shape_fields h h' Hs p e He) as (e' & He' & _ & E & _). exists e'. split; [done | by rewrite <- E].
Qed.

(** How far the blocks were connected, on the way from [t] to [u]. *)
Definition advance s s' (R old m u : ptr) (r : progress) (st' : CValidationState) : Prop :=
  match r with
  | Connected => Tx.mode st' = Tx.MODE_VALID ∧ (∃ R', inv s' u R' ∧ heir s R R') ∧ holds s' u ∧ clear s' m ∧ ∀ q, failed s' q = failed s q
  | Better => Tx.mode st' = Tx.MODE_VALID ∧ ∃ u' R', inv s' u' R' ∧ heir s R R' ∧ holds s' u' ∧ clear s' m ∧ weight s old < weight s u'
  | InvalidFound => Tx.mode st' = Tx.MODE_VALID ∧ ∃ u' R', inv s' u' R' ∧ heir s R R' ∧ holds s' u' ∧
      ∃ x, anc (hp s) m x ∧ is_Some (hp s !! x) ∧ failed s x = false ∧ failed s' x = true
  | SystemError => ¬ reliable s
  end.

Lemma advance_trans s s1 s' R R1 old m u r st' : later s s1 → (∀ q, failed s1 q = failed s q) → tree_ok (hp s) → heir s R R1 →
  advance s1 s' R1 old m u r st' → advance s s' R old m u r st'.
Proof.
  intros Hl Hs Htree Hheir. pose proof (l_frame _ _ Hl) as Hf. pose proof (λ R', heir_trans s s1 R R1 R' Hl Htree Hheir) as Ht. destruct r; cbn [advance].
  - intros (H1 & (R' & H2 & H2') & H3 & H4 & H5). split; [done|]. split; [by exists R'; auto|]. do 2 (split; [done|]). intros q. by rewrite H5, Hs.
  - intros (H1 & u' & R' & H2 & H2' & H3 & H4 & H5). split; [done|]. exists u', R'. rewrite !(frame_weight s s1) by done. auto.
  - intros (H1 & u' & R' & H2 & H2' & H3 & x & Ha & Hx & Hx1 & Hx2). split; [done|]. exists u', R'. split; [done|]. split; [auto|]. split; [done|].
    exists x. split; [eapply frame_anc; [symmetry; exact Hf | exact Ha]|]. rewrite <- Hs. split; [|done]. destruct Hx as [e He]. destruct (shape_back _ _ x e (f_shape _ _ Hf) He) as (e0 & He0 & _). by exists e0.
  - intros H Hr. apply H. by eapply reliable_frame.
Qed.

Section Step.
Context (m old : ptr) (pblock : option B) (already : bool).

(** The given block is the one that is worked towards. *)
Definition given s : Prop := ∀ b e, pblock = Some b → hp s !! m = Some e → GetHash b = phashBlock e.

Lemma given_frame s s' : frame s s' → given s → given s'.
Proof.
  intros Hf Hg b e Hb He. destruct (shape_back _ _ m e (f_shape _ _ Hf) He) as (e0 & He0 & <- & _). by apply Hg.
Qed.

Lemma clear_not_less s t R : inv s t R → m ∈ setBlockIndexCandidates s → anc (hp s) m t → less s m t = false.
Proof.
  intros Hi Hm Ha. pose proof (i_tree _ _ _ Hi) as Ht. destruct (i_candidates _ _ _ Hi m Hm) as [[e He] _].
  destruct (anc_object _ (t_linked _ Ht) _ _ _ Ha He) as [et Het]. destruct (anc_work _ Ht m t e et Ha He Het) as [->|Hw].
  - by apply less_irr.
  - apply less_flip; [done|]. apply less_weight; [done|]. unfold weight, work_of. by rewrite He, Het.
Qed.

Lemma connect_blocks_spec back l : ∀ st s t R, inv s t R → holds s t → orderly s → clear s m → given s → Tx.mode st = Tx.MODE_VALID →
  path (hp s) t l → Forall (anc (hp s) m) l → (l ≠ [] → is_Some back) →
  ∃ r st' s', connect_blocks back m pblock already (Some old) l st s = Some (r, st', s') ∧ later s s' ∧
    advance s s' R old m (default t (last l)) r st'.
Proof.
  induction l as [|p l IH]; intros st s t R Hi Hh Hord Hc Hg Hst Hpath Hanc Hback.
  { exists Connected, st, s. split; [done|]. split; [done|]. split; [done|]. split; [by exists R; split; [|left]|]. done. }
  cbn [connect_blocks]. destruct Hpath as [(e & He & Hprev) Hpath]. apply Forall_cons in Hanc as [Ha Hanc].
  assert (Hp : complete s p) by (eapply anc_complete; [exact Hi | apply (i_candidates _ _ _ Hi); apply Hc | done]).
  destruct (ConnectTip_spec st s t R p e Hi Hh Hord He Hprev Hp (proj2 Hc p Ha) Hst (if decide (p = m) then pblock else None) already)
    as (ok & st1 & s1 & -> & Hl1 & Hcon).
  { intros b Hb. destruct (decide (p = m)) as [->|]; [by apply Hg | done]. }
  cbn [mbind option_bind]. destruct ok; cbn [negb].
  - destruct Hcon as (Hm1 & Hi1 & Hh1 & Ec1 & Hs1). pose proof (l_frame _ _ Hl1) as Hf1.
    assert (Hm' : m ∈ setBlockIndexCandidates s1) by (rewrite Ec1; apply Hc).
    destruct (Prune_spec s1 p R m Hi1 Hm') as (s2 & R2 & -> & Hi2 & Hheir1 & Hl2 & (Ev2 & Ew2 & Ecoins2) & Eh2 & Hm2).
    { eapply clear_not_less; [exact Hi1 | done | by eapply frame_anc]. }
    cbn [mbind option_bind]. rewrite (inv_tip _ _ _ Hi2). cbn [mbind option_bind].
    assert (Hl : later s s2) by by etransitivity. pose proof (l_frame _ _ Hl) as Hf.
    assert (Hheir : heir s R R2) by (eapply heir_trans; [exact Hl1 | apply Hi | by left | done]).
    assert (Hsame : ∀ q, failed s2 q = failed s q) by (intros q; rewrite <- Hs1; unfold failed; by rewrite Eh2).
    assert (Hh2 : holds s2 p) by by apply (holds_later s1 s2).
    assert (Hc2 : clear s2 m).
    { split; [done|]. intros q Hq. rewrite Hsame. apply Hc. eapply frame_anc; [symmetry; exact Hf | exact Hq]. }
    rewrite more_work_spec by apply Hi2. destruct (Z.ltb_spec (weight s2 old) (weight s2 p)) as [Hlt|_].
    + exists Better, st1, s2. split; [done|]. split; [done|]. split; [done|]. exists p, R2.
      rewrite !(frame_weight s s2) by done. done.
    + destruct (IH st1 s2 p R2 Hi2 Hh2 (orderly_frame _ _ Hf Hord) Hc2 (given_frame _ _ Hf Hg) Hm1) as (r & st' & s' & -> & Hl' & Had).
      * eapply path_shape; [apply Hf | done].
      * eapply Forall_impl; [exact Hanc|]. intros x Hx. by eapply frame_anc.
      * intros _. by apply Hback.
      * exists r, st', s'. split; [done|]. split; [by etransitivity|].
        replace (default t (last (p :: l))) with (default p (last l)) by (destruct l as [|y l]; [done | by rewrite last_cons_cons; destruct (last (y :: l)) eqn:El; [|apply last_None in El]]).
        eapply advance_trans; [exact Hl | done | apply Hi | exact Hheir | exact Had].
  - destruct Hcon as [[Hne Hrel]|(Hm1 & Hcor & Hi1 & Hh1 & Hf1)].
    { exists SystemError, st1, s1. split; [|by split]. by destruct (Tx.mode st1). }
    rewrite Hm1, Hcor. cbn [negb]. destruct (Hback ltac:(done)) as [bk ->]. cbn [mbind option_bind].
    destruct (InvalidChainFound_spec s1 t R bk Hi1) as (s2 & -> & Hi2 & Hl2 & (Ev2 & Ew2 & Ec2) & _). cbn [mbind option_bind].
    eexists InvalidFound, _, s2. split; [done|]. split; [by etransitivity|]. split; [done|]. exists t, R. split; [done|]. split; [by left|].
    split; [by apply (holds_later s1 s2)|]. exists p. split; [done|]. split; [by eexists|]. split; [by apply Hc | by apply (l_marks _ _ Hl2)].
Qed.

Lemma path_snoc h l : ∀ t p e, path h t l → h !! p = Some e → pprev e = Some (default t (last l)) → path h t (l ++ [p]).
Proof using Type.
  induction l as [|x l IH]; intros t p e; cbn [app path].
  - intros _ He Hp. split; [by exists e | done].
  - intros [Hx Hl] He Hp. split; [done|]. eapply IH; [done | done|]. rewrite Hp. f_equal.
    destruct l as [|y l]; [done|]. rewrite last_cons_cons. destruct (last (y :: l)) eqn:El; [done | by apply last_None in El].
Qed.

(** The list leads from [t] up to [p]. *)
Lemma blocks_above_spec h fuel : linked h → ∀ p e t et, h !! p = Some e → h !! t = Some et → anc h p t →
  (Z.to_nat (nHeight e - nHeight et) <= fuel)%nat →
  ∃ l, blocks_above fuel h (nHeight et) (Some p) = Some l ∧ path h t (reverse l) ∧ default t (last (reverse l)) = p ∧ Forall (anc h p) l.
Proof using Type.
  intros Hk. induction fuel as [|fuel IH]; intros p e t et He Ht Ha Hf; destruct (anc_height _ Hk _ _ _ _ Ha He Ht) as [Hle Heq];
    (destruct (Z.eqb_spec (nHeight e) (nHeight et)) as [E|E];
      [pose proof (Heq (eq_sym E)) as ->; exists []; split; [|done]; cbn [blocks_above]; rewrite He; cbn [mbind option_bind]; by rewrite E, Z.eqb_refl|]).
  { lia. }
  cbn [blocks_above]. rewrite He. cbn [mbind option_bind]. destruct (Z.eqb_spec (nHeight e) (nHeight et)); [done|].
  inversion Ha as [|? ep q ? Hp Hq Ha']; simplify_eq. destruct (entry_prev _ Hk p e q He Hq) as (eq & Heq' & Hh).
  destruct (IH q eq t et Heq' Ht Ha' ltac:(lia)) as (l & El & Hpath & Hlast & Hall). rewrite Hq, El. cbn [mbind option_bind].
  exists (p :: l). split; [done|]. rewrite reverse_cons. split; [|split].
  - eapply path_snoc; [done | done | by rewrite Hlast].
  - by rewrite last_snoc.
  - constructor; [apply anc_refl|]. eapply Forall_impl; [exact Hall|]. intros x Hx. by eapply anc_prev.
Qed.

Lemma connect_loop_spec fuel : ∀ st s t R em et, inv s t R → holds s t → orderly s → clear s m → given s → Tx.mode st = Tx.MODE_VALID →
  hp s !! m = Some em → hp s !! t = Some et → anc (hp s) m t → (Z.to_nat (nHeight em - nHeight et) < fuel)%nat →
  ∃ r st' s', connect_loop fuel (nHeight et) m pblock already (Some old) st s = Some (r, st', s') ∧ later s s' ∧ advance s s' R old m m r st'.
Proof.
  induction fuel as [|fuel IH]; intros st s t R em et Hi Hh Hord Hc Hg Hst Hm Ht Ha Hf; [lia|].
  pose proof (t_linked _ (i_tree _ _ _ Hi)) as Hk. destruct (anc_height _ Hk _ _ _ _ Ha Hm Ht) as [Hle Heq].
  cbn [connect_loop]. rewrite Hm. cbn [mbind option_bind]. destruct (Z.eqb_spec (nHeight et) (nHeight em)) as [E|E].
  { exists Connected, st, s. split; [done|]. split; [done|]. split; [done|]. split; [exists R; split; [by rewrite (Heq E) | by left]|].
    split; [by rewrite (Heq E) | done]. }
  set (target := Z.min (nHeight et + 32) (nHeight em)). pose proof (entry_height _ Hk _ _ Ht) as Hh0.
  destruct (GetAncestor_spec _ Hk m em target Hm ltac:(lia)) as (a & -> & Hma & ea & Hea & Hha). cbn [mbind option_bind].
  assert (Hat : anc (hp s) a t) by (eapply (anc_linear _ Hk m a t); eauto; lia).
  destruct (blocks_above_spec (hp s) 32 Hk a ea t et Hea Ht Hat ltac:(lia)) as (l & -> & Hpath & Hend & Hall). cbn [mbind option_bind].
  destruct (connect_blocks_spec (last l) (reverse l) st s t R Hi Hh Hord Hc Hg Hst Hpath) as (r & st1 & s1 & -> & Hl1 & Had).
  { apply Forall_forall. intros x Hx. rewrite elem_of_reverse in Hx. rewrite Forall_forall in Hall. eapply anc_trans; [exact Hma | by apply Hall]. }
  { intros Hne. destruct (last l) eqn:El; [done|]. apply last_None in El. by subst l. }
  rewrite Hend in Had. cbn [mbind option_bind]. destruct r.
  2, 3, 4: eexists _, st1, s1; split; [done|]; split; [done|]; exact Had.
  destruct Had as (Hm1 & (R1 & Hi1 & Hheir) & Hh1 & Hc1 & Hs1). pose proof (l_frame _ _ Hl1) as Hf1.
  destruct (shape_fields _ _ (f_shape _ _ Hf1) m em Hm) as (em1 & Hem1 & _ & _ & _ & Ehm & _).
  destruct (shape_fields _ _ (f_shape _ _ Hf1) a ea Hea) as (ea1 & Hea1 & _ & _ & _ & Eha & _).
  destruct (IH st1 s1 a R1 em1 ea1 Hi1 Hh1 (orderly_frame _ _ Hf1 Hord) Hc1 (given_frame _ _ Hf1 Hg) Hm1 Hem1 Hea1) as (r & st' & s' & E' & Hl' & Had);
    [by eapply frame_anc | lia |].
  exists r, st', s'. replace target with (nHeight ea1) by lia. split; [exact E'|]. split; [by etransitivity|].
  eapply advance_trans; [exact Hl1 | done | apply Hi | exact Hheir | exact Had].
Qed.

Lemma disconnect_loop_spec fuel : ∀ st s t R q et eq, inv s t R → holds s t → orderly s → Tx.mode st = Tx.MODE_VALID →
  hp s !! t = Some et → hp s !! q = Some eq → anc (hp s) t q → (Z.to_nat (nHeight et - nHeight eq) <= fuel)%nat →
  ∃ ok st' s', disconnect_loop fuel (Some q) st s = Some (ok, st', s') ∧ later s s' ∧
    if ok then Tx.mode st' = Tx.MODE_VALID ∧ inv s' q R ∧ holds s' q ∧ setBlockIndexCandidates s' = setBlockIndexCandidates s ∧ hp s' = hp s
    else ¬ reliable s.
Proof.
  induction fuel as [|fuel IH]; intros st s t R q et eq Hi Hh Hord Hst Ht Hq Ha Hf;
    pose proof (t_linked _ (i_tree _ _ _ Hi)) as Hk; destruct (anc_height _ Hk _ _ _ _ Ha Ht Hq) as [Hle Heq];
    cbn [disconnect_loop]; rewrite (inv_tip _ _ _ Hi);
    (destruct (decide (Some t = Some q)) as [E|Hne]; [injection E as ->; exists true, st, s; by repeat (split; [done|])|]);
    (assert (Hlt : nHeight eq < nHeight et) by (destruct (Z.eq_dec (nHeight eq) (nHeight et)) as [E|]; [by rewrite (Heq E) in Hne | lia])).
  { lia. }
  inversion Ha as [|? ep x ? Hp Hx Ha']; simplify_eq.
  destruct (DisconnectTip_spec st s t R et x Hi Hh Hord Ht Hx Hst) as (ok & st1 & s1 & -> & Hl1 & Hd). cbn [mbind option_bind]. destruct ok; cbn [negb].
  2: { exists false, st1, s1. split; [done|]. split; [done|]. apply Hd. }
  destruct Hd as (Hm1 & Hi1 & Hh1 & Ec1 & Eh1). destruct (entry_prev _ Hk t et x Ht Hx) as (ex & Hex & Hhx).
  destruct (IH st1 s1 x R q ex eq Hi1 Hh1 (orderly_frame _ _ (l_frame _ _ Hl1) Hord) Hm1) as (ok & st' & s' & -> & Hl' & Hd'); [by rewrite Eh1 | by rewrite Eh1 | by rewrite Eh1 | lia |].
  exists ok, st', s'. split; [done|]. split; [by etransitivity|]. destruct ok.
  - destruct Hd' as (H1 & H2 & H3 & H4 & H5). repeat (split; [done|]). split; congruence.
  - intros Hr. apply Hd'. eapply reliable_frame; [apply Hl1 | done].
Qed.
End Step.

Lemma length_chain s t R e : inv s t R → hp s !! t = Some e → length (vChain s) = Z.to_nat (nHeight e + 1).
Proof. intros Hi He. destruct (i_branch _ _ _ Hi) as (e' & He' & Hl & _). by simplify_eq. Qed.

(** A step reaches the block, raises the work of the tip or finds an invalid block. *)
Lemma Step_spec m pblock already st s t R : inv s t R → holds s t → orderly s → clear s m → given m pblock s → Tx.mode st = Tx.MODE_VALID →
  ∃ ok st' s', ActivateBestChainStep st m pblock already s = Some (ok, st', s') ∧ later s s' ∧
    if ok then Tx.mode st' = Tx.MODE_VALID ∧ ∃ t' R', inv s' t' R' ∧ heir s R R' ∧ holds s' t' ∧
      (clear s' m ∧ (t' = m ∨ weight s t < weight s t') ∨ ∃ x, anc (hp s) m x ∧ is_Some (hp s !! x) ∧ failed s x = false ∧ failed s' x = true)
    else ¬ reliable s.
Proof.
  intros Hi Hh Hord Hc Hg Hst. pose proof (i_tree _ _ _ Hi) as Htr. pose proof (t_linked _ Htr) as Hk.
  destruct (i_candidates _ _ _ Hi m (proj1 Hc)) as [[em Hm] _].
  assert (Ht : complete s t) by apply (i_active _ _ _ Hi), anc_refl. destruct Ht as [[et Het] _].
  unfold ActivateBestChainStep. destruct (FindFork_spec _ Hk (Some t) (vChain s) m em (i_branch _ _ _ Hi) Hm) as (f & -> & Hfork).
  cbn [mbind option_bind]. destruct f as [q|].
  2: { destruct (common_root _ Htr m t em et Hm Het) as (g & Hg1 & Hg2). by destruct (Hfork t g eq_refl Hg1 Hg2). }
  destruct Hfork as (Hmq & (t' & [= <-] & Htq) & _). destruct (anc_object _ Hk _ _ _ Htq Het) as [eq Heq].
  pose proof (entry_height _ Hk _ _ Het) as H0. pose proof (entry_height _ Hk _ _ Heq) as H0'.
  destruct (disconnect_loop_spec (length (vChain s)) st s t R q et eq Hi Hh Hord Hst Het Heq Htq) as (ok & st1 & s1 & -> & Hl1 & Hd).
  { rewrite (length_chain s t R et Hi Het). lia. }
  cbn [mbind option_bind]. destruct ok; cbn [negb].
  2: { exists false, st1, s1. split; [done|]. by split. }
  destruct Hd as (Hm1 & Hi1 & Hh1 & Ec1 & Eh1). rewrite Eh1, Heq. cbn [fmap option_fmap option_map mbind option_bind].
  assert (Hc1 : clear s1 m).
  { split; [rewrite Ec1; apply Hc|]. intros x. rewrite Eh1. intros Hx. unfold failed. rewrite Eh1. by apply Hc. }
  assert (Hf1 : ∀ q, failed s1 q = failed s q) by (intros x; unfold failed; by rewrite Eh1).
  rewrite (inv_tip _ _ _ Hi).
  destruct (connect_loop_spec m t pblock (match pblock with None => false | Some _ => already end) (height_fuel s1 m) st1 s1 q R em eq Hi1 Hh1 (orderly_frame _ _ (l_frame _ _ Hl1) Hord) Hc1)
    as (r & st' & s' & -> & Hl' & Had); [eapply given_frame; [apply Hl1 | done] | done | by rewrite Eh1 | by rewrite Eh1 | by rewrite Eh1 | |].
  { unfold height_fuel. rewrite Eh1, Hm. cbn. lia. }
  apply (advance_trans s s1 s' R R t m m r st' Hl1 Hf1 Htr (or_introl eq_refl)) in Had. assert (Hl : later s s') by by etransitivity. cbn [mbind option_bind].
  destruct r; cbn [advance] in Had.
  - destruct Had as (Hm' & (R' & Hi' & Hr') & Hh' & Hc' & _). rewrite (inv_tip _ _ _ Hi'). cbn [mbind option_bind]. exists true, st', s'.
    split; [done|]. split; [done|]. split; [done|]. exists m, R'. do 3 (split; [done|]). left. split; [done | by left].
  - destruct Had as (Hm' & u & R' & Hi' & Hr' & Hh' & Hc' & Hw). rewrite (inv_tip _ _ _ Hi'). cbn [mbind option_bind]. exists true, st', s'.
    split; [done|]. split; [done|]. split; [done|]. exists u, R'. do 3 (split; [done|]). left. split; [done | by right].
  - destruct Had as (Hm' & u & R' & Hi' & Hr' & Hh' & Hx). rewrite (inv_tip _ _ _ Hi'). cbn [mbind option_bind]. exists true, st', s'.
    split; [done|]. split; [done|]. split; [done|]. exists u, R'. do 3 (split; [done|]). by right.
  - exists false, st', s'. split; [done|]. by split.
Qed.

(** ** Termination *)

Definition unmarked s : gset ptr := filter (λ p, failed s p = false) (dom (hp s)).
Definition heavier s (t : ptr) : gset ptr := filter (λ p, weight s t < weight s p) (dom (hp s)).

(** Turns of the loop: first the blocks that may still fail, then those with more work. *)
Definition turns s (t : ptr) : nat := (size (unmarked s) * S (size (hp s)) + size (heavier s t))%nat.

Lemma frame_dom s s' : frame s s' → dom (hp s) = dom (hp s').
Proof using Type.
  intros [E _ _]. transitivity (dom (shape (hp s))); [symmetry; apply dom_fmap_L|]. rewrite E. apply dom_fmap_L.
Qed.

Lemma heavier_bound s t : (size (heavier s t) <= size (hp s))%nat.
Proof using Type. rewrite <- size_dom. apply subseteq_size. unfold heavier. intros p Hp. by apply elem_of_filter in Hp as [_ Hp]. Qed.

Lemma turns_bound s t : (turns s t <= activate_fuel s)%nat.
Proof using Type.
  unfold turns, activate_fuel. apply Nat.add_le_mono; [|apply heavier_bound]. apply Nat.mul_le_mono_r. rewrite <- size_dom.
  apply subseteq_size. unfold unmarked. intros p Hp. by apply elem_of_filter in Hp as [_ Hp].
Qed.

Lemma later_unmarked s s' : later s s' → unmarked s' ⊆ unmarked s.
Proof using Type.
  intros Hl p Hp. unfold unmarked in *. apply elem_of_filter in Hp as [Hn Hp]. apply elem_of_filter.
  rewrite (frame_dom s s') by apply Hl. split; [|done]. destruct (failed s p) eqn:E; [|done]. by rewrite (l_marks _ _ Hl) in Hn.
Qed.

Lemma later_heavier s s' t : later s s' → heavier s' t = heavier s t.
Proof using Type.
  intros Hl. pose proof (l_frame _ _ Hl) as Hf. apply set_eq. intros p. unfold heavier. rewrite !elem_of_filter.
  by rewrite !(frame_weight s s'), (frame_dom s s').
Qed.

Lemma turns_later s s' t : later s s' → (turns s' t <= turns s t)%nat.
Proof using Type.
  intros Hl. unfold turns. rewrite (later_heavier s s' t Hl), <- (frame_size s s') by apply Hl.
  apply Nat.add_le_mono_r, Nat.mul_le_mono_r, subseteq_size, later_unmarked, Hl.
Qed.

Lemma turns_failed s s' t t' x : later s s' → is_Some (hp s !! x) → failed s x = false → failed s' x = true → (turns s' t' < turns s t)%nat.
Proof using Type.
  intros Hl Hx H1 H2. unfold turns. rewrite <- (frame_size s s') by apply Hl.
  assert (Hlt : (size (unmarked s') < size (unmarked s))%nat).
  { apply subset_size. split; [by apply later_unmarked|]. intros Hsub. specialize (Hsub x).
    unfold unmarked in Hsub. rewrite !elem_of_filter in Hsub. destruct Hsub as [Hf _]; [by split; [|apply elem_of_dom]|]. congruence. }
  pose proof (heavier_bound s' t') as Hb. rewrite <- (frame_size s s') in Hb by apply Hl. nia.
Qed.

Lemma turns_better s s' t t' : later s s' → is_Some (hp s !! t') → weight s t < weight s t' → (turns s' t' < turns s t)%nat.
Proof using Type.
  intros Hl Ht Hw. pose proof (turns_later s s' t' Hl) as Hle. eapply Nat.le_lt_trans; [exact Hle|]. unfold turns.
  apply Nat.add_lt_mono_l, subset_size. split.
  - intros p. unfold heavier. rewrite !elem_of_filter. intros [Hp Hd]. split; [lia | done].
  - intros Hsub. specialize (Hsub t'). unfold heavier in Hsub. rewrite !elem_of_filter in Hsub.
    destruct Hsub as [Hf _]; [by split; [|apply elem_of_dom]|]. lia.
Qed.

(** ** ActivateBestChain *)

Lemma inv_best s t R : inv s t R → best s t → t ∈ setBlockIndexCandidates s → inv s t t.
Proof.
  intros Hi Hb Hin. pose proof (i_tree _ _ _ Hi) as Ht. pose proof Hi as [? ? H3 ? ? ? ? ? ? ?]. split; try done.
  - destruct (H3 t (anc_refl _ _)) as (? & _ & ?). by split.
  - intros p Hp Hn Hless. by rewrite (less_total s Ht p t Hless (Hb p Hp Hn)).
Qed.

(** The node is at the best block that its marks allow, among those that are not worse than
    [R]; if [R] is not marked, at the best of all. *)
Definition settled s (R : ptr) : Prop :=
  ∃ t, inv s t R ∧ holds s t ∧ best_from s R t ∧ (failed s R = false → t ∈ setBlockIndexCandidates s).

Lemma settled_inv s R : settled s R → failed s R = false → ∃ t, inv s t t ∧ holds s t ∧ best s t.
Proof.
  intros (t & Hi & Hh & Hb & Hin) Hr. exists t. assert (Hbest : best s t) by by apply (best_from_all t R).
  split; [|done]. eapply inv_best; eauto.
Qed.

Lemma activate_unfold fuel st pblock already s : activate_loop fuel st pblock already s =
  ('(pindexMostWork, s) ← FindMostWorkChain s;
   match (pindexMostWork : option ptr) with
   | None => Some (true, true, st, s)
   | Some best =>
       if decide (Some best = Tip s) then Some (true, true, st, s)
       else
         block ← block_for pblock s best;
         '(ok, state, s) ← ActivateBestChainStep st best block already s;
         if negb ok then Some (true, false, state, s)
         else
           _ ← Tip s;
           if decide (Some best = Tip s) then Some (false, true, state, s)
           else match fuel with O => None | S fuel => activate_loop fuel state pblock already s end
   end).
Proof using Type. by destruct fuel. Qed.

Lemma block_for_spec pblock s m e : hp s !! m = Some e → ∃ b, block_for pblock s m = Some b ∧ given m b s.
Proof using Type.
  intros He. unfold block_for. destruct pblock as [b|]; [|by exists None]. rewrite He. cbn [mbind option_bind].
  eexists. split; [done|]. case_bool_decide as Hb; [|done]. intros b' e' [= <-] He'. by simplify_eq.
Qed.

Lemma activate_loop_spec pblock already fuel : ∀ st s t R, inv s t R → holds s t → orderly s → Tx.mode st = Tx.MODE_VALID → (turns s t <= fuel)%nat →
  ∃ ret ok st' s', activate_loop fuel st pblock already s = Some (ret, ok, st', s') ∧ later s s' ∧ (ret = false → ok = true) ∧
    if ok then Tx.mode st' = Tx.MODE_VALID ∧ ∃ R', settled s' R' ∧ heir s R R' else ¬ reliable s.
Proof.
  induction fuel as [fuel IH] using lt_wf_ind; intros st s t R Hi Hh Hord Hst Hf. rewrite activate_unfold. unfold FindMostWorkChain.
  destruct (find_loop_spec t R _ s Hi (le_n _)) as (r & s1 & -> & Hi1 & Hl1 & (Ev1 & Ew1 & Ec1) & Hr). cbn [mbind option_bind].
  assert (Hh1 : holds s1 t) by by apply (holds_later s s1). destruct r as [m|].
  2: { destruct (no_candidates t R s1 t Hi1 Hr) as [Hb Hfr]. exists true, true, st, s1. repeat (split; [done|]). exists R.
       split; [exists t | by left]. repeat (split; [done|]). congruence. }
  destruct Hr as (Hm & Hbest & Hclear). rewrite (inv_tip _ _ _ Hi1).
  destruct (decide (Some m = Some t)) as [E|Hne].
  { injection E as ->. exists true, true, st, s1. repeat (split; [done|]). exists R. split; [by exists t | by left]. }
  destruct (i_candidates _ _ _ Hi1 m Hm) as [[em Hem] _]. destruct (block_for_spec pblock s1 m em Hem) as (b & -> & Hg). cbn [mbind option_bind].
  destruct (Step_spec m b already st s1 t R Hi1 Hh1 (orderly_frame _ _ (l_frame _ _ Hl1) Hord) (conj Hm Hclear) Hg Hst)
    as (ok & st2 & s2 & -> & Hl2 & Hstep). cbn [mbind option_bind].
  assert (Hl : later s s2) by by etransitivity. destruct ok; cbn [negb].
  2: { exists true, false, st2, s2. repeat (split; [done|]). intros Hr. apply Hstep. eapply reliable_frame; [apply Hl1 | exact Hr]. }
  destruct Hstep as (Hm2 & t2 & R2 & Hi2 & Hr2 & Hh2 & Hcase). rewrite (inv_tip _ _ _ Hi2). cbn [mbind option_bind].
  assert (Hheir : heir s R R2) by (eapply heir_trans; [exact Hl1 | apply Hi | by left | done]).
  destruct (decide (Some m = Some t2)) as [E|Hne2].
  { injection E as <-. exists false, true, st2, s2. repeat (split; [done|]). exists R2. split; [|done].
    destruct Hcase as [[Hc _]|(x & Ha & Hx & Hx1 & Hx2)]; [|destruct (i_active _ _ _ Hi2 x) as (_ & Hn & _); [eapply frame_anc; [apply Hl2 | done] | congruence]].
    exists m. split; [done|]. split; [done|]. split; [|intros _; apply Hc].
    apply (best_from_later s1 s2); [done | apply Hi1 | by apply (heir_best s1 R); [apply Hi1 | |]]. }
  assert (Hlt : (turns s2 t2 < turns s t)%nat).
  { eapply Nat.lt_le_trans; [|by apply (turns_later s s1)]. destruct Hcase as [[_ [->|Hw]]|(x & _ & Hx & Hx1 & Hx2)]; [done | | by eapply turns_failed].
    eapply turns_better; [exact Hl2 | | exact Hw]. destruct (i_branch _ _ _ Hi2) as (e2 & He2 & _).
    destruct (shape_back _ _ t2 e2 (f_shape _ _ (l_frame _ _ Hl2)) He2) as (e1 & He1 & _). by exists e1. }
  destruct fuel as [|fuel]; [lia|].
  destruct (IH fuel ltac:(lia) st2 s2 t2 R2 Hi2 Hh2 (orderly_frame _ _ (l_frame _ _ Hl) Hord) Hm2 ltac:(lia)) as (ret & ok & st' & s' & -> & Hl' & Hret & Hok).
  exists ret, ok, st', s'. split; [done|]. split; [by etransitivity|]. split; [done|]. destruct ok.
  - destruct Hok as (? & R' & ? & ?). split; [done|]. exists R'. split; [done | eapply heir_trans; [exact Hl | apply Hi | done | done]].
  - intros Hr. apply Hok. by eapply reliable_frame; [apply Hl|].
Qed.

(** [ActivateBestChain] returns; it fails only with the files. *)
Lemma ActivateBestChain_spec pblock already st s t R : inv s t R → holds s t → orderly s → Tx.mode st = Tx.MODE_VALID →
  ∃ ok st' s', ActivateBestChain st pblock already s = Some (ok, st', s') ∧ later s s' ∧
    if ok then ∃ R', settled s' R' ∧ heir s R R' else ¬ reliable s.
Proof.
  intros Hi Hh Hord Hst. unfold ActivateBestChain.
  destruct (activate_loop_spec pblock already (activate_fuel s) st s t R Hi Hh Hord Hst (turns_bound s t)) as (ret & ok & st1 & s1 & -> & Hl1 & Hret & Hok).
  cbn [mbind option_bind]. destruct ret.
  { exists ok, st1, s1. split; [done|]. split; [done|]. destruct ok; [apply Hok | done]. }
  rewrite (Hret eq_refl) in Hok. destruct Hok as (Hm1 & R1 & (t1 & Hi1 & Hh1 & Hb1 & Hin1) & Hr1).
  destruct (flush FLUSH_STATE_PERIODIC st1 s1) as [[ok2 st2] s2] eqn:Ef. destruct (flush_spec _ _ s1 t1 _ _ _ Hh1 Ef) as (Hh2 & Hl2 & Eh & Ev & Ec & Hok2).
  exists ok2, st2, s2. split; [done|]. split; [by etransitivity|].
  assert (Hs2 : ∀ q, failed s2 q = failed s1 q) by (intros q; unfold failed; by rewrite Eh). destruct ok2.
  - exists R1. split; [|done]. exists t1. split; [by apply (inv_same s1)|]. split; [done|].
    split; [apply (best_from_later s1 s2); [done | apply Hi1 | done] | by rewrite Hs2, Ec].
  - destruct Hok2 as [_ Hr]. intros H. apply Hr. eapply reliable_frame; [apply Hl1 | done].
Qed.

End Invariant.


End Activate.
