(* ===== verification/Reorg.v ===== *)
(** * src/main.cpp: blocks that arrive, are invalidated or are reconsidered

    The operations of [Activate] that change what there is to choose from.  Each keeps the
    invariant of a node at rest: the tip is the reference, and the candidates are the blocks
    that are not worse.  [node_ok] adds the entries of [mapBlocksUnlinked]: every block with data
    is linked to the root by blocks with data, or waits in the map.  The nodes that headers,
    blocks, activations, invalidations and reconsiderations lead to all satisfy it. *)

From stdpp Require Import base option gmap fin_maps relations sorting list.
From Stdlib Require Import ZArith Lia.
From Stdlib Require String.
Import (notations) String.
From S2P Require Import Prelude Arith Work Consensus Tx Chain Activate.
Import Chain Activate.
Open Scope Z_scope.

Module Reorg.

Ltac same_index := apply later_same; reflexivity.
Abbreviation less := CBlockIndexWorkComparator.

Section Operations.
Context {B W C : Type} `{!ChainState B W C} `{!ChainStateLaws B W C}.
Implicit Types s : node W C.

(** ** InvalidateBlock *)

Lemma erase_core s t p : core s t → core (erase_candidate p s) t ∧
  ∀ q, q ∈ setBlockIndexCandidates (erase_candidate p s) ↔ q ≠ p ∧ q ∈ setBlockIndexCandidates s.
Proof using Type.
  intros Hc. pose proof (c_tree _ _ Hc) as Ht.
  assert (He : ∀ q, q ∈ setBlockIndexCandidates (erase_candidate p s) ↔ q ≠ p ∧ q ∈ setBlockIndexCandidates s).
  { intros q. apply elem_set_erase; eauto using less_irr, less_trans, less_total. apply Hc. }
  split; [|done]. destruct Hc. split; try done.
  - by apply ordered_erase; eauto using less_irr, less_trans, less_total.
  - intros q [_ Hq]%He. by apply c_candidates0.
Qed.

Lemma insert_core s t p : core s t → complete s p → core (insert_candidate p s) t ∧
  ∀ q, q ∈ setBlockIndexCandidates (insert_candidate p s) ↔ q = p ∨ q ∈ setBlockIndexCandidates s.
Proof using Type.
  intros Hc Hp. pose proof (c_tree _ _ Hc) as Ht.
  assert (He : ∀ q, q ∈ setBlockIndexCandidates (insert_candidate p s) ↔ q = p ∨ q ∈ setBlockIndexCandidates s).
  { intros q. apply elem_set_insert; eauto using less_irr, less_trans, less_total. }
  split; [|done]. destruct Hc. split; try done.
  - by apply ordered_insert; eauto using less_irr, less_trans, less_total.
  - intros q [->|Hq]%He; [done | by apply c_candidates0].
Qed.

(** A block is marked, noted as dirty, and leaves the candidates. *)
Lemma drop_block_core f s t p : f .& BLOCK_VALID_MASK = 0 → f .& BLOCK_HAVE_DATA = 0 → f .& BLOCK_FAILED_MASK ≠ 0 → core s t → is_Some (hp s !! p) →
  let s' := erase_candidate p (dirty p (mark f p s)) in
  core s' t ∧ kept s s' ∧ still s s' ∧ (∀ q, failed s' q = true ↔ q = p ∨ failed s q = true).
Proof.
  intros F1 F2 F3 Hc Hp. cbv zeta. pose proof (mark_kept f p s F1 F2) as Hk.
  assert (Hk' : kept s (dirty p (mark f p s))) by (etransitivity; [exact Hk | apply later_kept; same_index]).
  destruct (erase_core (dirty p (mark f p s)) t p) as [Hc' _]; [by eapply core_same|].
  split; [done|]. split; [etransitivity; [exact Hk' | apply later_kept; same_index]|]. split; [done|]. intros q. by apply failed_mark.
Qed.

Lemma anc_antisym h p q e : linked h → h !! p = Some e → anc h p q → anc h q p → p = q.
Proof using Type.
  intros Hk He Hpq Hqp. destruct (anc_object _ Hk _ _ _ Hpq He) as [eq Hq].
  destruct (anc_height _ Hk _ _ _ _ Hpq He Hq) as [H1 H2], (anc_height _ Hk _ _ _ _ Hqp Hq He) as [H3 _]. apply H2. lia.
Qed.

(** The active chain ends below the block; what was above is marked. *)
Lemma invalidate_loop_spec p q fuel : ∀ st s t et ep, core s t → holds s t → orderly s → Tx.mode st = Tx.MODE_VALID →
  hp s !! p = Some ep → pprev ep = Some q → hp s !! t = Some et → (Z.to_nat (nHeight et + 1 - nHeight ep) <= fuel)%nat →
  ∃ ok st' s', invalidate_loop fuel p st s = Some (ok, st', s') ∧ kept s s' ∧
    if ok then ∃ t', core s' t' ∧ holds s' t' ∧ (¬ anc (hp s) t p ∧ t' = t ∨ anc (hp s) t p ∧ t' = q) ∧
      ∀ x, failed s' x = true ↔ failed s x = true ∨ anc (hp s) t x ∧ anc (hp s) x p
    else is_Some (Tip s') ∧ ¬ reliable s.
Proof.
  induction fuel as [|fuel IH]; intros st s t et ep Hc Hh Hord Hst Hp Hq Ht Hf; pose proof (t_linked _ (c_tree _ _ Hc)) as Hk;
    cbn [invalidate_loop]; destruct (Contains_active t s p Hc ltac:(by eexists)) as (b & -> & Hb); cbn [mbind option_bind];
    (destruct b; cbn [negb]; [|exists true, st, s; split; [done|]; split; [done|]; exists t; split; [done|]; split; [done|];
      (assert (Hna : ¬ anc (hp s) t p) by (intros Ha; by apply Hb in Ha)); split; [by left|]; intros x; split; [by left | intros [?|[H1 H2]]; [done|];
      destruct Hna; by eapply anc_trans]]);
    (assert (Ha : anc (hp s) t p) by by apply Hb); destruct (anc_height _ Hk _ _ _ _ Ha Ht Hp) as [Hle Heq].
  { lia. }
  rewrite (core_tip _ _ Hc). cbn [mbind option_bind].
  destruct (drop_block_core BLOCK_FAILED_CHILD s t t) as (Hc1 & Hk1 & (Ev1 & Ew1 & Ec1) & Hf1); [done | done | done | done | by eexists |].
  set (s1 := erase_candidate t (dirty t (mark BLOCK_FAILED_CHILD t s))) in *. pose proof (k_frame _ _ Hk1) as Hfr1.
  assert (Hh1 : holds s1 t) by (unfold holds; by rewrite Ew1, Ec1, <- (f_shape _ _ Hfr1)).
  assert (Hx : ∃ x, pprev et = Some x ∧ (t = p ∧ x = q ∨ t ≠ p ∧ anc (hp s) x p)).
  { inversion Ha as [|? e' x ? H1 H2 H3]; simplify_eq; [exists q; auto|]. exists x. split; [done|]. right. split; [|done].
    intros ->. destruct (entry_prev _ Hk p et x Ht H2) as (ex & Hex & Hhx). simplify_eq.
    destruct (anc_height _ Hk _ _ _ _ H3 Hex Hp). lia. }
  destruct Hx as (x & Hx & Hcase). destruct (shape_fields _ _ (f_shape _ _ Hfr1) t et Ht) as (et1 & Ht1 & _ & Ep1 & _ & Eh1 & _).
  destruct (DisconnectTip_core st s1 t et1 x Hc1 Hh1 (orderly_frame _ _ Hfr1 Hord) Ht1 ltac:(by rewrite <- Ep1) Hst) as (ok & st2 & s2 & -> & Hl2 & Hok).
  cbn [mbind option_bind]. assert (Hk2 : kept s s2) by (etransitivity; [exact Hk1 | by apply later_kept]). destruct ok; cbn [negb].
  2: { exists false, st2, s2. split; [done|]. split; [done|]. destruct Hok as [[_ Hr] Ev2].
       split; [exists t; unfold Tip; rewrite Ev2; apply (core_tip _ _ Hc1)|]. intros H. apply Hr. by eapply reliable_frame. }
  destruct Hok as (Hm2 & Hc2 & Hh2 & _ & Eh2). pose proof (k_frame _ _ Hk2) as Hfr2.
  destruct (entry_prev _ Hk t et x Ht Hx) as (ex & Hex & Hhx).
  destruct (shape_fields _ _ (f_shape _ _ Hfr2) p ep Hp) as (ep2 & Hp2 & _ & Ep2 & _ & Ehp2 & _).
  destruct (shape_fields _ _ (f_shape _ _ Hfr2) x ex Hex) as (ex2 & Hx2 & _ & _ & _ & Ehx2 & _).
  assert (Hanc2 : ∀ a b, anc (hp s2) a b ↔ anc (hp s) a b) by (intros a b'; split; by apply frame_anc).
  assert (Ef : ∀ y, failed s2 y = true ↔ y = t ∨ failed s y = true) by (intros y; unfold failed at 1; rewrite Eh2; apply Hf1).
  assert (Hrec : ∃ ok st' s', invalidate_loop fuel p st2 s2 = Some (ok, st', s') ∧ kept s2 s' ∧
    if ok then ∃ t', core s' t' ∧ holds s' t' ∧ (¬ anc (hp s2) x p ∧ t' = x ∨ anc (hp s2) x p ∧ t' = q) ∧
      ∀ y, failed s' y = true ↔ failed s2 y = true ∨ anc (hp s2) x y ∧ anc (hp s2) y p
    else is_Some (Tip s') ∧ ¬ reliable s2).
  { apply (IH st2 s2 x ex2 ep2); try done; [by eapply orderly_frame | by rewrite <- Ep2 | lia]. }
  destruct Hrec as (ok & st' & s' & -> & Hk' & Hok). exists ok, st', s'. split; [done|]. split; [by etransitivity|].
  destruct ok; [|destruct Hok as [Htip Hok]; split; [done|]; intros Hr; apply Hok; by eapply reliable_frame]. destruct Hok as (t' & Hc' & Hh' & Ht' & Hf'). exists t'. split; [done|]. split; [done|].
  rewrite !Hanc2 in Ht'. destruct Hcase as [[-> ->]|[Hne Hxp]].
  - assert (Hqp : ¬ anc (hp s) q p).
    { intros Hqp. destruct (anc_height _ Hk _ _ _ _ Hqp Hex Hp). rewrite Ht in Hp. injection Hp as <-. lia. }
    split; [right; split; [done|]; by destruct Ht' as [[_ ->]|[? _]]|]. intros y. rewrite Hf', !Hanc2, Ef. split.
    + intros [[->|Hy]|[H1 H2]]; [right; split; apply anc_refl | by left | destruct Hqp; by eapply anc_trans].
    + intros [Hy|[H1 H2]]; [left; by right|]. left; left. symmetry. by eapply (anc_antisym (hp s)).
  - split; [right; split; [done|]; by destruct Ht' as [[? _]|[_ ->]]|]. intros y. rewrite Hf', !Hanc2, Ef. split.
    + intros [[->|Hy]|[H1 H2]]; [right; split; [apply anc_refl | done] | by left | right; split; [by eapply anc_prev | done]].
    + intros [Hy|[H1 H2]]; [left; by right|]. inversion H1; simplify_eq; [left; by left | right; by split].
Qed.

(** [mapBlockIndex] holds the objects. *)
Definition map_ok s : Prop := ∀ p, p ∈ all_blocks s ↔ is_Some (hp s !! p).

Lemma map_ok_frame s s' : frame s s' → map_ok s → map_ok s'.
Proof using Type.
  intros Hf Hm p. pose proof (f_equal (fst ∘ fst) (f_map _ _ Hf)) as Em. cbn in Em. unfold all_blocks. rewrite <- Em, <- !elem_of_dom, <- (frame_dom s s') by done. rewrite elem_of_dom. apply Hm.
Qed.

Lemma connectable_spec s t p : core s t → is_Some (hp s !! p) →
  ∃ b, connectable s p = Some b ∧ (b = true ↔ complete s p ∧ failed s p = false).
Proof using Type.
  intros Hc [e He]. unfold connectable. rewrite He. cbn [mbind option_bind]. rewrite IsValid_level by done. cbn [mbind option_bind].
  eexists. split; [done|]. unfold failed. rewrite He. rewrite !andb_true_iff, !negb_true_iff, Z.eqb_neq. split.
  - intros [[H1 H2] H3]. split; [|done]. split; [by eexists | done].
  - intros [Hp Hf]. pose proof (c_level _ _ Hc p e Hp He). destruct Hp as [_ Hp]. split; [|done]. split; [done | by apply Z.leb_le].
Qed.

Lemma readd_spec l : ∀ s t, core s t → (∀ p, p ∈ l → is_Some (hp s !! p)) →
  ∃ c, readd_candidates l s = Some (with_candidates c s) ∧ core (with_candidates c s) t ∧
    ∀ x, x ∈ c ↔ x ∈ setBlockIndexCandidates s ∨ x ∈ l ∧ complete s x ∧ failed s x = false ∧ less s x t = false.
Proof using Type.
  induction l as [|p l IH]; intros s t Hc Hl; cbn [readd_candidates].
  { exists (setBlockIndexCandidates s). split; [by destruct s|]. split; [by destruct s|]. intros x. split; [by left|].
    intros [?|[Hx _]]; [done | by apply elem_of_nil in Hx]. }
  destruct (connectable_spec s t p Hc) as (b & -> & Hb); [apply Hl; by left|]. cbn [mbind option_bind].
  assert (Hrest : ∀ p, p ∈ l → is_Some (hp s !! p)) by (intros x Hx; apply Hl; by right). destruct b.
  - destruct (proj1 Hb eq_refl) as [Hp Hn]. rewrite (core_tip _ _ Hc). cbn [mbind option_bind]. destruct (less s p t) eqn:El; cbn [negb].
    + destruct (IH s t Hc Hrest) as (c & E & Hc' & Hx). exists c. split; [done|]. split; [done|]. intros x. rewrite Hx, elem_of_cons.
      split; [intros [?|(?&?)]; auto|]. intros [?|([->|?]&?&?&?)]; auto. congruence.
    + destruct (insert_core s t p Hc Hp) as [Hc1 Hin]. destruct (IH (insert_candidate p s) t Hc1 Hrest) as (c & E & Hc' & Hx).
      exists c. split; [exact E|]. split; [exact Hc'|]. intros x. rewrite Hx, Hin, elem_of_cons.
      split; [intros [[->|?]|(?&?)]; auto 10|]. intros [?|([->|?]&?&?&?)]; auto.
  - destruct (IH s t Hc Hrest) as (c & E & Hc' & Hx). exists c. split; [done|]. split; [done|]. intros x. rewrite Hx, elem_of_cons.
    split; [intros [?|(?&?)]; auto|]. intros [?|([->|?]&H1&H2&?)]; auto. discriminate (proj2 Hb (conj H1 H2)).
Qed.

(** The marked blocks: the block, and its descendants on the active chain. *)
Lemma InvalidateBlock_spec st s t p e q : inv s t t → holds s t → orderly s → Tx.mode st = Tx.MODE_VALID → map_ok s →
  hp s !! p = Some e → pprev e = Some q →
  ∃ ok st' s', InvalidateBlock st p s = Some (ok, st', s') ∧ kept s s' ∧
    if ok then ∃ t', inv s' t' t' ∧ holds s' t' ∧ (¬ anc (hp s) t p ∧ t' = t ∨ anc (hp s) t p ∧ t' = q) ∧
      ∀ x, failed s' x = true ↔ failed s x = true ∨ x = p ∨ anc (hp s) t x ∧ anc (hp s) x p
    else ¬ reliable s.
Proof.
  intros Hi Hh Hord Hst Hmap Hp Hq. pose proof (t_linked _ (i_tree _ _ _ Hi)) as Hk. unfold InvalidateBlock.
  destruct (drop_block_core BLOCK_FAILED_VALID s t p) as (Hc1 & Hk1 & (Ev1 & Ew1 & Ec1) & Hf1); [done | done | done | by eapply inv_core | by eexists |].
  set (s1 := erase_candidate p (dirty p (mark BLOCK_FAILED_VALID p s))) in *. pose proof (k_frame _ _ Hk1) as Hfr1.
  assert (Hh1 : holds s1 t) by (unfold holds; by rewrite Ew1, Ec1, <- (f_shape _ _ Hfr1)).
  assert (Ht : complete s t) by apply (i_active _ _ _ Hi), anc_refl. destruct Ht as [[et Het] _].
  destruct (shape_fields _ _ (f_shape _ _ Hfr1) t et Het) as (et1 & Ht1 & _ & _ & _ & Eht1 & _).
  destruct (shape_fields _ _ (f_shape _ _ Hfr1) p e Hp) as (e1 & Hp1 & _ & Ep1 & _ & Ehp1 & _).
  assert (Hanc1 : ∀ a b, anc (hp s1) a b ↔ anc (hp s) a b) by (intros a b; split; by apply frame_anc).
  destruct (invalidate_loop_spec p q (length (vChain s1)) st s1 t et1 e1 Hc1 Hh1 (orderly_frame _ _ Hfr1 Hord) Hst Hp1 ltac:(by rewrite <- Ep1) Ht1) as (ok & st2 & s2 & E2 & Hk2 & Hok).
  { rewrite Ev1, (length_chain s t t et Hi Het). pose proof (entry_height _ Hk _ _ Hp). lia. }
  rewrite E2. cbn [mbind option_bind]. assert (Hks : kept s s2) by by etransitivity. pose proof (k_frame _ _ Hks) as Hfs.
  destruct ok; cbn [negb].
  2: { destruct Hok as [[x Hx] Hr]. rewrite Hx. exists false, st2, s2. split; [done|]. split; [done|]. intros H. apply Hr. by eapply reliable_frame. }
  destruct Hok as (t' & Hc2 & Hh2 & Ht' & Hf2). setoid_rewrite Hanc1 in Hf2. rewrite !Hanc1 in Ht'. setoid_rewrite Hf1 in Hf2.
  destruct (readd_spec (all_blocks s2) s2 t' Hc2) as (c & -> & Hc3 & Hin); [intros x Hx; by apply (map_ok_frame s s2)|]. cbn [mbind option_bind].
  set (s3 := with_candidates c s2) in *.
  assert (Htp : anc (hp s) t t' ∧ ¬ anc (hp s) t' p).
  { destruct Ht' as [[Hn ->]|[Ha ->]]; [split; [apply anc_refl | done]|]. split; [eapply anc_trans; [exact Ha | by eapply anc_prev, anc_refl]|].
    intros Hqp. destruct (entry_prev _ Hk p e q Hp Hq) as (eq & Heq & Hhq). destruct (anc_height _ Hk _ _ _ _ Hqp Heq Hp). lia. }
  assert (Hclean : ∀ x, anc (hp s2) t' x → failed s2 x = false ∧ verified s2 x).
  { intros x Hx. apply (frame_anc _ _ _ _ (symmetry Hfs)) in Hx. destruct Htp as [H1 H2].
    destruct (i_active _ _ _ Hi x) as (_ & Hn & Hv); [by eapply anc_trans|]. split; [|by eapply kept_verified].
    destruct (failed s2 x) eqn:E; [|done]. apply Hf2 in E as [[->|E]|[_ E]]; [done | congruence | destruct H2; by eapply anc_trans]. }
  assert (Hi3 : inv s3 t' t').
  { apply core_inv; [done | exact Hclean | split; [apply (c_active _ _ Hc2), anc_refl | apply Hclean, anc_refl] |].
    intros x Hx Hn Hless. apply Hin. right. split; [|done]. apply (map_ok_frame s s2 Hfs Hmap). apply Hx. }
  destruct (InvalidChainFound_spec s3 t' t' p Hi3) as (s4 & -> & Hi4 & Hl4 & (Ev4 & Ew4 & Ec4) & Eh4). cbn [mbind option_bind].
  rewrite (inv_tip _ _ _ Hi4). cbn [mbind option_bind]. exists true, st2, s4. split; [done|].
  split; [etransitivity; [exact Hks|]; etransitivity; [|apply later_kept; exact Hl4]; apply later_kept; same_index|].
  exists t'. split; [done|]. split; [by apply (holds_later s3 s4)|]. split; [done|].
  intros x. transitivity (failed s2 x = true); [unfold failed; by rewrite Eh4|]. rewrite Hf2. tauto.
Qed.

(** ** ReconsiderBlock *)

Lemma land_lnot_disjoint f g : f .& g = 0 → Z.lnot f .& g = g.
Proof using Type.
  intros Hf. rewrite <- (Z.land_m1_r g) at 2. rewrite <- (Z.lor_lnot_diag f), Z.land_lor_distr_r, (Z.land_comm g f), Hf, Z.lor_0_l. apply Z.land_comm.
Qed.

Lemma drop_flag_land f g e : f .& g = 0 → nStatus (drop_flag f e) .& g = nStatus e .& g.
Proof using Type. intros Hf. unfold drop_flag. cbn [nStatus set_status]. by rewrite <- Z.land_assoc, land_lnot_disjoint. Qed.

Lemma unmark_lookup f p s q : hp (unmark f p s) !! q = if decide (q = p) then drop_flag f <$> hp s !! q else hp s !! q.
Proof using Type.
  cbn. destruct (decide (q = p)) as [->|]; [apply lookup_alter_eq | by apply lookup_alter_ne].
Qed.

(** The marks of a block are cleared. *)
Lemma unmark_spec p s : kept s (unmark BLOCK_FAILED_MASK p s) ∧
  ∀ q, failed (unmark BLOCK_FAILED_MASK p s) q = true ↔ failed s q = true ∧ q ≠ p.
Proof using Type.
  split; [split|].
  - split; [symmetry; by apply shape_alter | done | done].
  - intros q. unfold have_data. rewrite unmark_lookup. case_decide; [|done]. destruct (hp s !! q) as [e|]; [|done]. cbn [fmap option_fmap option_map].
    unfold has_flag. by rewrite drop_flag_land.
  - intros q e e' He. rewrite unmark_lookup. case_decide; [|intros ?; by simplify_eq]. rewrite He. intros [= <-]. unfold level. by rewrite drop_flag_land.
  - intros q. unfold failed. rewrite unmark_lookup. case_decide as Hd; [|tauto]. split; [|by intros [_ ?]]. destruct (hp s !! q) as [e|]; [|done].
    cbn [fmap option_fmap option_map]. unfold has_flag, drop_flag. cbn [nStatus set_status].
    by rewrite <- Z.land_assoc, (Z.land_comm (Z.lnot _)), Z.land_lnot_diag, Z.land_0_r.
Qed.

Lemma GetAncestor_is h x p ex ep : linked h → h !! x = Some ex → h !! p = Some ep →
  ∃ r, GetAncestor h x (nHeight ep) = Some r ∧ (r = Some p ↔ anc h x p).
Proof using Type.
  intros Hk Hx Hp. pose proof (entry_height _ Hk _ _ Hp) as H0. destruct (decide (nHeight ep <= nHeight ex)) as [Hle|Hgt].
  - destruct (GetAncestor_spec _ Hk x ex (nHeight ep) Hx ltac:(lia)) as (a & -> & Ha). exists (Some a). split; [done|]. split.
    + intros [= ->]. apply Ha.
    + intros Hxp. f_equal. apply (ancestor_unique _ Hk x (nHeight ep)); [done|]. split; [done|]. by exists ep.
  - exists None. split.
    + unfold GetAncestor. rewrite Hx. cbn [mbind option_bind]. destruct (Z.gtb_spec (nHeight ep) (nHeight ex)); [done | lia].
    + split; [done|]. intros Ha. destruct (anc_height _ Hk _ _ _ _ Ha Hx Hp). lia.
Qed.

Section Reconsider.
Context (t p : ptr).

(** What clearing marks keeps. *)
Record cleared s s' (P : ptr → Prop) : Prop := {
  cl_core : core s' t;
  cl_kept : kept s s';
  cl_still : still s s';
  cl_failed : ∀ y, failed s' y = true ↔ failed s y = true ∧ ¬ P y;
  cl_candidates : ∀ y, y ∈ setBlockIndexCandidates s → y ∈ setBlockIndexCandidates s';
  cl_added : ∀ y, y ∈ setBlockIndexCandidates s' → y ∈ setBlockIndexCandidates s ∨ anc (hp s) y p
}.

Lemma cleared_trans s s1 s2 (P Q R : ptr → Prop) : cleared s s1 P → cleared s1 s2 Q → (∀ y, R y ↔ P y ∨ Q y) → cleared s s2 R.
Proof.
  intros [A1 A2 A3 A4 A5 A6] [B1 B2 B3 B4 B5 B6] HR. split; [done | by etransitivity | by etransitivity | | auto |].
  - intros y. rewrite B4, A4, HR. tauto.
  - intros y [Hy|Hy]%B6; [by apply A6|]. right. eapply frame_anc; [symmetry; apply (k_frame _ _ A2) | exact Hy].
Qed.

Lemma cleared_none s (P : ptr → Prop) : core s t → (∀ y, failed s y = true → ¬ P y) → cleared s s P.
Proof. intros Hc HP. split; try done; intros y; [split; [auto | tauto] | by left]. Qed.

Lemma reconsider_block_spec s ep x : core s t → hp s !! p = Some ep → is_Some (hp s !! x) →
  ∃ s', reconsider_block (nHeight ep) p x s = Some s' ∧ cleared s s' (λ y, y = x ∧ anc (hp s) y p) ∧
    (anc (hp s) x p → complete s x → failed s x = true → less s t x = true → x ∈ setBlockIndexCandidates s').
Proof.
  intros Hc Hp [ex Hx]. pose proof (c_tree _ _ Hc) as Ht. unfold reconsider_block. rewrite Hx. cbn [mbind option_bind].
  rewrite IsValid_level by done. cbn [mbind option_bind].
  destruct (GetAncestor_is (hp s) x p ex ep (t_linked _ Ht) Hx Hp) as (a & -> & Ha). cbn [mbind option_bind].
  set (ok := negb (has_flag ex BLOCK_FAILED_MASK) && (BLOCK_VALID_TRANSACTIONS <=? level ex)).
  assert (Hok : ok = true → failed s x = false) by (unfold ok, failed; rewrite Hx; by destruct (has_flag ex BLOCK_FAILED_MASK)).
  destruct ok; cbn [negb andb].
  { exists s. split; [done|]. split; [|rewrite Hok; done]. apply cleared_none; [done|]. intros y Hy [-> _]. rewrite Hok in Hy; done. }
  case_bool_decide as Hd.
  2: { exists s. split; [done|]. split; [|intros H; by apply Ha in H]. apply cleared_none; [done|]. intros y Hy [-> H]. by apply Ha in H. }
  apply Ha in Hd. destruct (unmark_spec x s) as [Hk Hf]. set (s1 := dirty x (unmark BLOCK_FAILED_MASK x s)).
  assert (Hk1 : kept s s1) by (etransitivity; [exact Hk | apply later_kept; same_index]).
  assert (Hc1 : core s1 t) by by eapply core_same. pose proof (k_frame _ _ Hk1) as Hfr.
  assert (Hx1 : is_Some (hp s1 !! x)) by (destruct (shape_fields _ _ (f_shape _ _ Hfr) x ex Hx) as (e' & H' & _); by exists e').
  destruct (connectable_spec s1 t x Hc1 Hx1) as (b & -> & Hb). cbn [mbind option_bind].
  assert (Hs2 : ∃ s2, (if b then tip ← Tip s1; Some (if less s1 tip x then insert_candidate x s1 else s1) else Some s1) = Some s2 ∧
    core s2 t ∧ later s1 s2 ∧ still s1 s2 ∧ hp s2 = hp s1 ∧ (∀ y, y ∈ setBlockIndexCandidates s1 → y ∈ setBlockIndexCandidates s2) ∧
    (∀ y, y ∈ setBlockIndexCandidates s2 → y ∈ setBlockIndexCandidates s1 ∨ y = x) ∧
    (b = true → less s1 t x = true → x ∈ setBlockIndexCandidates s2)).
  { assert (Hid : (b = true → less s1 t x = false) → ∃ s2, Some s1 = Some s2 ∧
      core s2 t ∧ later s1 s2 ∧ still s1 s2 ∧ hp s2 = hp s1 ∧ (∀ y, y ∈ setBlockIndexCandidates s1 → y ∈ setBlockIndexCandidates s2) ∧
      (∀ y, y ∈ setBlockIndexCandidates s2 → y ∈ setBlockIndexCandidates s1 ∨ y = x) ∧ (b = true → less s1 t x = true → x ∈ setBlockIndexCandidates s2)).
    { intros Hno. exists s1. split; [done|]. split; [done|]. split; [reflexivity|]. do 3 (split; [done|]). split; [by left|].
      intros H1 H2. rewrite (Hno H1) in H2. done. }
    destruct b; [|by apply Hid]. rewrite (core_tip _ _ Hc1). cbn [mbind option_bind]. destruct (less s1 t x) eqn:El; [|by apply Hid].
    destruct (insert_core s1 t x Hc1) as [Hc2 Hin]; [by apply Hb|]. exists (insert_candidate x s1). split; [done|]. split; [done|].
    split; [same_index|]. split; [done|]. split; [done|].
    split; [intros y Hy; apply Hin; by right|]. split; [intros y [?|?]%Hin; auto | intros _ _; apply Hin; by left]. }
  destruct Hs2 as (s2 & -> & Hc2 & Hl2 & Hst2 & Eh2 & Hin2 & Hout2 & Hx2). cbn [mbind option_bind].
  set (s3 := if bool_decide (Some x = pindexBestInvalid s2) then with_invalid None s2 else s2).
  assert (E3 : later s2 s3 ∧ vChain s3 = vChain s2 ∧ setBlockIndexCandidates s3 = setBlockIndexCandidates s2 ∧ hp s3 = hp s2 ∧ still s2 s3).
  { unfold s3. case_bool_decide; [split; [same_index | done] | by split; [reflexivity|]]. }
  destruct E3 as (Hl3 & Ev3 & Ec3 & Eh3 & Hst3). exists s3. split; [done|]. split.
  - split.
    + eapply core_same; [exact Hc2 | by apply later_kept | done | done].
    + etransitivity; [exact Hk1|]. apply later_kept. by etransitivity.
    + etransitivity; [|by etransitivity]. done.
    + intros y. transitivity (failed s1 y = true); [unfold failed; by rewrite Eh3, Eh2|]. transitivity (failed s y = true ∧ y ≠ x); [apply Hf|].
      split; [intros [H1 H2]; split; [done | by intros [? _]]|]. intros [H1 H2]. split; [done|]. intros ->. by destruct H2.
    + intros y Hy. rewrite Ec3. by apply Hin2.
    + intros y Hy. rewrite Ec3 in Hy. apply Hout2 in Hy as [Hy| ->]; [by left | by right].
  - intros _ Hcx _ Hless. rewrite Ec3. apply Hx2; [|by rewrite <- (frame_less s s1)]. apply Hb. split; [by eapply frame_complete|].
    destruct (failed s1 x) eqn:E; [|done]. apply Hf in E. by destruct E.
Qed.

Lemma reconsider_all_spec l : ∀ s ep, core s t → hp s !! p = Some ep → (∀ x, x ∈ l → is_Some (hp s !! x)) →
  ∃ s', reconsider_all (nHeight ep) p l s = Some s' ∧ cleared s s' (λ y, y ∈ l ∧ anc (hp s) y p) ∧
    ∀ x, x ∈ l → anc (hp s) x p → complete s x → failed s x = true → less s t x = true → x ∈ setBlockIndexCandidates s'.
Proof.
  induction l as [|x l IH]; intros s ep Hc Hp Hl; cbn [reconsider_all].
  { exists s. split; [done|]. split; [|by intros x Hx%elem_of_nil]. apply cleared_none; [done|]. intros y _ [Hy _]. by apply elem_of_nil in Hy. }
  destruct (reconsider_block_spec s ep x Hc Hp) as (s1 & -> & Hcl & Hx); [apply Hl; by left|]. cbn [mbind option_bind].
  pose proof (k_frame _ _ (cl_kept _ _ _ Hcl)) as Hf. destruct (shape_fields _ _ (f_shape _ _ Hf) p ep Hp) as (ep1 & Hp1 & _ & _ & _ & Eh & _).
  assert (Hanc : ∀ a b, anc (hp s1) a b ↔ anc (hp s) a b) by (intros a b; split; by apply frame_anc).
  destruct (IH s1 ep1 (cl_core _ _ _ Hcl) Hp1) as (s2 & E & Hcl2 & Hx2).
  { intros y Hy. destruct (Hl y) as [ey Hey]; [by right|]. destruct (shape_fields _ _ (f_shape _ _ Hf) y ey Hey) as (e' & H' & _). by exists e'. }
  exists s2. rewrite Eh. split; [done|]. split.
  - eapply cleared_trans; [exact Hcl | exact Hcl2|]. intros y. cbn. rewrite Hanc, elem_of_cons. tauto.
  - intros y Hy Ha Hcy Hfy Hless. destruct (decide (y = x)) as [->|Hne]; [apply (cl_candidates _ _ _ Hcl2); by apply Hx|].
    apply elem_of_cons in Hy as [->|Hy]; [done|]. apply Hx2; [done | by apply Hanc | by eapply frame_complete | | rewrite <- (frame_less s s1); [done | done | apply Hc]].
    apply (cl_failed _ _ _ Hcl). split; [done|]. by intros [? _].
Qed.

Lemma reconsider_ancestors_spec fuel : ∀ s x ex, core s t → hp s !! x = Some ex → (Z.to_nat (nHeight ex) < fuel)%nat →
  ∃ s', reconsider_ancestors fuel (Some x) s = Some s' ∧ cleared s s' (anc (hp s) x).
Proof.
  induction fuel as [|fuel IH]; intros s x ex Hc Hx Hf; [lia|]. cbn [reconsider_ancestors]. rewrite Hx. cbn [mbind option_bind].
  set (s1 := if has_flag ex BLOCK_FAILED_MASK then dirty x (unmark BLOCK_FAILED_MASK x s) else s).
  assert (H1 : cleared s s1 (eq x)).
  { unfold s1. destruct (has_flag ex BLOCK_FAILED_MASK) eqn:Ef.
    - destruct (unmark_spec x s) as [Hk Hfl]. assert (Hk1 : kept s (dirty x (unmark BLOCK_FAILED_MASK x s))) by (etransitivity; [exact Hk | apply later_kept; same_index]).
      split; [by eapply core_same | done | done | | done | by left]. intros y. transitivity (failed s y = true ∧ y ≠ x); [apply Hfl|].
      split; intros [? Hne]; (split; [done|]); intros ->; by apply Hne.
    - apply cleared_none; [done|]. intros y Hy <-. unfold failed in Hy. rewrite Hx in Hy. congruence. }
  pose proof (t_linked _ (c_tree _ _ Hc)) as Hk. pose proof (k_frame _ _ (cl_kept _ _ _ H1)) as Hfr.
  destruct (pprev ex) as [q|] eqn:Eq.
  - destruct (entry_prev _ Hk x ex q Hx Eq) as (eq & Hq & Hh). pose proof (entry_height _ Hk _ _ Hq).
    destruct (shape_fields _ _ (f_shape _ _ Hfr) q eq Hq) as (eq1 & Hq1 & _ & _ & _ & Eh & _).
    destruct (IH s1 q eq1 (cl_core _ _ _ H1) Hq1 ltac:(lia)) as (s' & E & H2). exists s'. split; [exact E|].
    eapply cleared_trans; [exact H1 | exact H2|]. intros y. split.
    + intros Hy. inversion Hy; simplify_eq; [by left|]. right. by eapply frame_anc.
    + intros [<-|Hy]; [apply anc_refl|]. eapply anc_prev; [done | done|]. eapply frame_anc; [symmetry; exact Hfr | exact Hy].
  - exists s1. split; [by destruct fuel|]. eapply cleared_trans; [exact H1 | apply (cleared_none s1 (λ _, False)); [apply H1 | tauto]|].
    intros y. split; [intros Hy; inversion Hy; simplify_eq; by left | intros [<-|[]]; apply anc_refl].
Qed.
End Reconsider.

(** No ancestor of the block would have to become a candidate when its mark is cleared. *)
Definition nothing_lost s (t p : ptr) : Prop :=
  ∀ a, anc (hp s) p a → a ≠ p → failed s a = true → complete s a → less s a t = false → a ∈ setBlockIndexCandidates s.

(** The marks of the block, its ancestors and its descendants are gone; the node stays
    consistent exactly when nothing is lost. *)
Lemma ReconsiderBlock_spec s t p e : inv s t t → holds s t → map_ok s → hp s !! p = Some e →
  ∃ s', ReconsiderBlock p s = Some s' ∧ holds s' t ∧ cleared t p s s' (λ y, anc (hp s) y p ∧ is_Some (hp s !! y) ∨ anc (hp s) p y) ∧
    (nothing_lost s t p ↔ inv s' t t).
Proof.
  intros Hi Hh Hmap Hp. pose proof (i_tree _ _ _ Hi) as Ht. unfold ReconsiderBlock. rewrite Hp. cbn [mbind option_bind].
  destruct (reconsider_all_spec t p (all_blocks s) s e (inv_core _ _ _ Hi) Hp) as (s1 & -> & H1 & Hx1); [intros x Hx; by apply Hmap|]. cbn [mbind option_bind].
  pose proof (k_frame _ _ (cl_kept _ _ _ _ _ H1)) as Hf1. destruct (shape_fields _ _ (f_shape _ _ Hf1) p e Hp) as (e1 & Hp1 & _).
  destruct (reconsider_ancestors_spec t p (height_fuel s1 p) s1 p e1 (cl_core _ _ _ _ _ H1) Hp1 (height_fuel_enough s1 p e1 Hp1)) as (s2 & -> & H2).
  exists s2. split; [done|].
  assert (H3 : cleared t p s s2 (λ y, anc (hp s) y p ∧ is_Some (hp s !! y) ∨ anc (hp s) p y)).
  { eapply cleared_trans; [exact H1 | exact H2|]. intros y. cbn. rewrite (Hmap y). split.
    - intros [[? ?]|Hy]; [by left|]. right. by eapply frame_anc.
    - intros [[? ?]|Hy]; [by left|]. right. eapply frame_anc; [symmetry; exact Hf1 | exact Hy]. }
  pose proof (cl_kept _ _ _ _ _ H3) as Hk3. pose proof (k_frame _ _ Hk3) as Hf3. destruct (cl_still _ _ _ _ _ H3) as (_ & Ew & Ec).
  split; [unfold holds; by rewrite Ew, Ec, <- (f_shape _ _ Hf3)|]. split; [done|]. split.
  2: { intros Hi2 a Ha Hne Hfa Hca Hless. destruct (cl_added _ _ _ _ _ H3 a) as [?|Hap]; [|done|].
    - apply (i_rest _ _ _ Hi2); [by eapply frame_complete | | by rewrite <- (frame_less s s2)].
      destruct (failed s2 a) eqn:E; [|done]. apply (cl_failed _ _ _ _ _ H3) in E as [_ E]. destruct E. by right.
    - destruct Hne. symmetry. by apply (anc_antisym (hp s) p a e); [apply Ht| | |]. }
  intros Hanc.
  assert (Hclean : ∀ x, anc (hp s2) t x → failed s2 x = false ∧ verified s2 x).
  { intros x Hx. apply (frame_anc _ _ _ _ (symmetry Hf3)) in Hx. destruct (i_active _ _ _ Hi x Hx) as (_ & Hn & Hv).
    split; [|by eapply kept_verified]. destruct (failed s2 x) eqn:E; [|done]. apply (cl_failed _ _ _ _ _ H3) in E as [E _]. congruence. }
  apply core_inv; [apply H3 | exact Hclean | split; [apply (c_active _ _ (cl_core _ _ _ _ _ H3)), anc_refl | apply Hclean, anc_refl] |].
  intros y Hy Hn Hless. rewrite <- (frame_less s s2) in Hless by done. apply (frame_complete s2 s) in Hy; [|done].
  destruct (failed s y) eqn:Efy; [|by apply (cl_candidates _ _ _ _ _ H3), (i_rest _ _ _ Hi)].
  assert (Hyp : anc (hp s) y p ∨ anc (hp s) p y ∧ y ≠ p).
  { destruct (decide (y = p)) as [->|Hne]; [left; apply anc_refl|]. destruct Hy as [[ey Hey] _].
    destruct (GetAncestor_is (hp s) y p ey e (t_linked _ Ht) Hey Hp) as (r & _ & Hr). destruct (decide (r = Some p)) as [Er|Hno]; [left; by apply Hr|].
    destruct (GetAncestor_is (hp s) p y e ey (t_linked _ Ht) Hp Hey) as (r' & _ & Hr'). destruct (decide (r' = Some y)) as [Er|Hno']; [right; split; [by apply Hr' | done]|].
    assert (Hpy : failed s2 y = true); [|congruence]. apply (cl_failed _ _ _ _ _ H3). split; [done|]. intros [[H _]|Hpa]; [by apply Hr in H | by apply Hr' in Hpa]. }
  destruct Hyp as [Hyp|[Hpy Hne]]; [|apply (cl_candidates _ _ _ _ _ H3); by apply Hanc]. apply (cl_candidates _ _ _ _ _ H2).
  apply Hx1; [by apply Hmap; apply Hy | done | done | done |].
  destruct (less s t y) eqn:El; [done|]. pose proof (less_total s Ht y t Hless El) as ->.
  destruct (i_active _ _ _ Hi t (anc_refl _ _)) as (_ & Hnt & _). congruence.
Qed.

(** ** ReceivedBlockTransactions *)

Lemma StronglySorted_in {A} (R R' : A → A → Prop) l : StronglySorted R l →
  (∀ a b, a ∈ l → b ∈ l → R a b → R' a b) → StronglySorted R' l.
Proof using Type.
  induction 1 as [|x l Hl IH Hx]; intros Hr; constructor.
  - apply IH. intros a b Ha Hb. apply Hr; by right.
  - rewrite Forall_forall in *. intros y Hy. apply Hr; [by left | by right | by apply Hx].
Qed.

(** The number of transactions up to a block. *)
Inductive total s : ptr → Z → Prop :=
| total_root p e : hp s !! p = Some e → pprev e = None → total s p (nTx (member s p))
| total_next p e q n : hp s !! p = Some e → pprev e = Some q → total s q n → total s p (n + nTx (member s p)).

(** A block that can be linked: it has its data, and its predecessors are linked. *)
Record waiting s (x : ptr) : Prop := {
  w_entry : ∃ e, hp s !! x = Some e ∧ BLOCK_VALID_TRANSACTIONS <= level e ∧ ∀ q, pprev e = Some q → complete s q;
  w_data : have_data s x = true;
  w_new : nChainTx (member s x) = 0;
  w_tx : 0 < nTx (member s x)
}.

(** The entries of [mapBlocksUnlinked], while the blocks of [queue] are to be linked. *)
Record links_ok s (queue : list ptr) : Prop := {
  u_pairs : ∀ q x, (q, x) ∈ mapBlocksUnlinked s → nChainTx (member s q) = 0 ∧ nChainTx (member s x) = 0 ∧ have_data s x = true ∧ 0 < nTx (member s x) ∧
    ∃ e, hp s !! x = Some e ∧ pprev e = Some q ∧ BLOCK_VALID_TRANSACTIONS <= level e;
  u_queue : ∀ x, x ∈ queue → waiting s x;
  u_all : ∀ x e, hp s !! x = Some e → have_data s x = true → complete s x ∨ x ∈ queue ∨ ∃ q, pprev e = Some q ∧ (q, x) ∈ mapBlocksUnlinked s;
  u_once : NoDup (queue ++ (mapBlocksUnlinked s).*2);
  u_total : ∀ x, complete s x → 0 < nChainTx (member s x) ∧ total s x (nChainTx (member s x))
}.

Lemma total_eq s s' : hp s' = hp s → (∀ p, nTx (member s' p) = nTx (member s p)) → ∀ p n, total s p n → total s' p n.
Proof using Type.
  intros Eh Et. induction 1 as [p e He Hp|p e q n He Hp _ IH]; rewrite <- Et.
  - eapply total_root; [by rewrite Eh | done].
  - eapply total_next; [by rewrite Eh | done | done].
Qed.

Section Link.
Context (s : node W C) (x t : ptr).
Hypothesis Hi : inv s t t.
Hypothesis Hx : waiting s x.
Hypothesis Htot : ∀ p, complete s p → 0 < nChainTx (member s p) ∧ total s p (nChainTx (member s p)).
Hypothesis Hfit : ∀ p n, total s p n → n < 2 ^ 32.

(** What linking the block changes. *)
Record link_step s' : Prop := {
  ls_hp : hp s' = hp s;
  ls_map : mapBlockIndex (idx s') = mapBlockIndex (idx s) ∧ pindexBestHeader (idx s') = pindexBestHeader (idx s);
  ls_still : still s s';
  ls_unlinked : mapBlocksUnlinked s' = mapBlocksUnlinked s;
  ls_other : ∀ y, y ≠ x → member s' y = member s y;
  ls_tx : ∀ y, nTx (member s' y) = nTx (member s y);
  ls_pos : ∀ y, nFile (member s' y) = nFile (member s y) ∧ nDataPos (member s' y) = nDataPos (member s y);
  ls_new : 0 < nChainTx (member s' x) ∧ total s x (nChainTx (member s' x))
}.

Lemma link_block_spec : ∃ s', link_block x s = Some s' ∧ setBlockIndexCandidates s' = setBlockIndexCandidates s ∧ link_step s'.
Proof using All.
  destruct Hx as [(e & He & _ & Hprev) _ _ Htx]. unfold link_block. rewrite He. cbn [mbind option_bind]. eexists. split; [done|].
  match goal with |- _ ∧ link_step ?r => set (s' := r) end. split; [done|].
  set (before := match pprev e with None => 0 | Some q => nChainTx (member s q) end).
  assert (Hn : total s x (before + nTx (member s x)) ∧ 0 < before + nTx (member s x)).
  { unfold before. destruct (pprev e) as [q|] eqn:Eq.
    - destruct (Htot q (Hprev q eq_refl)) as [Hpos Hq]. split; [by eapply total_next | lia].
    - split; [|lia]. rewrite Z.add_0_l. by eapply total_root. }
  destruct Hn as [Hn Hpos]. pose proof (Hfit _ _ Hn) as Hlt.
  set (f := set_sequence (nBlockSequenceId s) (set_chain_tx ((before + nTx (member s x)) mod 2 ^ 32) (member s x))).
  assert (Hm : ∀ y, member s' y = if decide (y = x) then f else member s y).
  { intros y. unfold member at 1. cbn. destruct (decide (y = x)) as [->|]; [by rewrite lookup_insert_eq | by rewrite lookup_insert_ne]. }
  split; try done.
  - intros y Hy. by rewrite Hm, decide_False.
  - intros y. rewrite Hm. case_decide; [by subst y | done].
  - intros y. rewrite Hm. case_decide; [by subst y | done].
  - rewrite Hm, decide_True by done. cbn. rewrite Z.mod_small by lia. done.
Qed.

Lemma link_complete s' y : link_step s' → complete s' y ↔ complete s y ∨ y = x.
Proof using All.
  intros [Eh _ _ _ Ho _ _ Hn]. destruct Hx as [(e & He & _) _ Hz _]. unfold complete. rewrite Eh. destruct (decide (y = x)) as [->|Hne].
  - split; [by right|]. intros _. split; [by eexists | lia].
  - rewrite Ho by done. split; [by left | by intros [?|?]].
Qed.

Lemma link_less s' a b : link_step s' → a ≠ x → b ≠ x → less s' a b = less s a b.
Proof using All.
  intros [Eh _ _ _ Ho _ _ _] Ha Hb. unfold CBlockIndexWorkComparator, work_of. by rewrite Eh, !Ho.
Qed.

Lemma new_not_complete y : complete s y → y ≠ x.
Proof using All. intros [_ Hy] ->. destruct Hx as [_ _ Hz _]. done. Qed.

Lemma link_core s' : link_step s' → setBlockIndexCandidates s' = setBlockIndexCandidates s → core s' t.
Proof using All.
  intros Hls Ec. pose proof (λ y, link_complete s' y Hls) as Hcm. pose proof Hls as [Eh _ (Ev & _) _ _ _ _ _]. pose proof (inv_core _ _ _ Hi) as [H1 H2 H3 H4 H5 H6 H7 H8].
  destruct Hx as [(e & He & Hlev & Hprev) Hd _ _]. split; rewrite ?Eh, ?Ev, ?Ec; try done.
  - intros q Hq. apply Hcm. left. by apply H3.
  - eapply StronglySorted_in; [exact H4|]. intros a b Ha Hb Hab. cbn in *. rewrite link_less; [done | done | by apply new_not_complete, H5 | by apply new_not_complete, H5].
  - intros p Hp. apply Hcm. left. by apply H5.
  - intros p e' q He' Hq Hp. apply Hcm. left. apply Hcm in Hp as [Hp| ->]; [by eapply H6 | simplify_eq; by apply Hprev].
  - intros p Hp. unfold have_data. rewrite Eh. apply Hcm in Hp as [Hp| ->]; [by apply H7 | done].
  - intros p e' Hp He'. apply Hcm in Hp as [Hp| ->]; [by eapply H8 | by simplify_eq].
Qed.

(** The block is a candidate unless it is worse than the tip. *)
Lemma link_inv s' : link_step s' → setBlockIndexCandidates s' = setBlockIndexCandidates s →
  let s2 := if negb (less s' x t) then insert_candidate x s' else s' in inv s2 t t ∧ link_step s2.
Proof using All.
  intros Hls Ec. cbv zeta. pose proof (link_core s' Hls Ec) as Hc. pose proof (λ y, link_complete s' y Hls) as Hcm. pose proof Hls as [Eh Em (Ev & Ew & Eco) Eu Ho Et Ep Hn].
  assert (Htx : t ≠ x) by (apply new_not_complete, (i_active _ _ _ Hi), anc_refl).
  assert (Hclean : ∀ q, anc (hp s') t q → failed s' q = false ∧ verified s' q).
  { intros q Hq. rewrite Eh in Hq. destruct (i_active _ _ _ Hi q Hq) as (_ & H1 & H2). unfold failed, verified in *. by rewrite Eh. }
  assert (Hrest : ∀ y, y ≠ x → complete s' y → failed s' y = false → less s' y t = false → y ∈ setBlockIndexCandidates s').
  { intros y Hne Hy Hf Hl. rewrite Ec. rewrite link_less in Hl by done. apply (i_rest _ _ _ Hi); [|unfold failed in *; by rewrite Eh in Hf | done].
    apply Hcm in Hy as [?|?]; done. }
  assert (Hxc : complete s' x) by (apply Hcm; by right). destruct (insert_core s' t x Hc Hxc) as [Hc2 Hin].
  destruct (less s' x t) eqn:El; cbn [negb].
  - split; [|done]. apply core_inv; [done | exact Hclean | split; [apply (c_active _ _ Hc); apply anc_refl | apply Hclean, anc_refl] |].
    intros y Hy Hf Hl. destruct (decide (y = x)) as [->|]; [congruence | by apply Hrest].
  - split; [|by split]. apply core_inv; [done | | |].
    + exact Hclean.
    + split; [apply (c_active _ _ Hc); apply anc_refl | apply Hclean, anc_refl].
    + intros y Hy Hf Hl. apply Hin. destruct (decide (y = x)) as [->|]; [by left | right; by apply Hrest].
Qed.
End Link.

Lemma unlinked_split (u : list (ptr * ptr)) x :
  filter (λ p : ptr * ptr, x = p.1) u ++ filter (λ p : ptr * ptr, p.1 ≠ x) u ≡ₚ u.
Proof using Type.
  induction u as [|[q y] u IH]; [done|]. rewrite !filter_cons. cbn. destruct (decide (x = q)) as [->|Hne].
  - rewrite decide_False by (by intros []). cbn. by rewrite IH.
  - rewrite decide_True by congruence. rewrite <- Permutation_middle. by rewrite IH.
Qed.

Lemma filter_key (u : list (ptr * ptr)) x : filter (λ p : ptr * ptr, p.1 = x) u = filter (λ p : ptr * ptr, x = p.1) u.
Proof using Type. apply list_filter_iff. intros p. split; congruence. Qed.

(** The entries after a block is linked: those below it move to the queue. *)
Lemma link_links s s' x queue : links_ok s (x :: queue) → link_step s x s' →
  links_ok (with_unlinked (filter (λ p : ptr * ptr, p.1 ≠ x) (mapBlocksUnlinked s')) s')
           (queue ++ (filter (λ p : ptr * ptr, p.1 = x) (mapBlocksUnlinked s')).*2).
Proof.
  intros [Hp Hq Ha Ho Ht] Hls. pose proof Hls as [Eh _ _ Eu Hother Etx _ [Hpos Hnew]]. rewrite Eu.
  set (u := mapBlocksUnlinked s) in *. set (s3 := with_unlinked _ s').
  assert (Hx : waiting s x) by (apply Hq; by left).
  assert (Hone : NoDup ((queue ++ (filter (λ p : ptr * ptr, p.1 = x) u).*2) ++ (filter (λ p : ptr * ptr, p.1 ≠ x) u).*2) ∧ x ∉ queue ++ u.*2).
  { cbn [app] in Ho. apply NoDup_cons in Ho as [Hx' Ho]. split; [|done]. rewrite <- app_assoc, <- fmap_app, filter_key.
    eapply NoDup_Permutation_proper; [|exact Ho]. by rewrite unlinked_split. }
  destruct Hone as [Hone Hxno].
  assert (Hnq : ∀ y, y ∈ queue → y ≠ x) by (intros y Hy ->; apply Hxno, elem_of_app; by left).
  assert (Hnu : ∀ q y, (q, y) ∈ u → y ≠ x).
  { intros q y Hy ->. apply Hxno, elem_of_app. right. apply list_elem_of_fmap. by exists (q, x). }
  assert (Hcm : ∀ y, complete s3 y ↔ complete s y ∨ y = x).
  { intros y. destruct Hx as [(e & He & _) _ Hz _]. unfold complete. change (hp s3) with (hp s'). rewrite Eh.
    change (member s3 y) with (member s' y). destruct (decide (y = x)) as [->|Hne].
    - split; [by right|]. intros _. split; [by eexists | lia].
    - rewrite Hother by done. split; [by left | by intros [?|?]]. }
  assert (Hd : ∀ y, have_data s3 y = have_data s y) by (intros y; unfold have_data; change (hp s3) with (hp s'); by rewrite Eh).
  split.
  - intros q y Hy. apply list_elem_of_filter in Hy as [Hqx Hy]. cbn in Hqx. destruct (Hp q y Hy) as (H1 & H2 & H3 & H4 & H5).
    rewrite Hd. change (member s3) with (member s'). change (hp s3) with (hp s'). rewrite Eh, Etx, !Hother; eauto.
  - intros y Hy. apply elem_of_app in Hy as [Hy|Hy].
    + destruct (Hq y) as [(e & He & Hl & Hpr) H2 H3 H4]; [by right|]. split; rewrite ?Hd; try done.
      * exists e. change (hp s3) with (hp s'). rewrite Eh. split; [done|]. split; [done|]. intros q Hq'. apply Hcm. left. by apply Hpr.
      * change (member s3) with (member s'). rewrite Hother; [done | by apply Hnq].
      * change (member s3) with (member s'). by rewrite Etx.
    + apply list_elem_of_fmap in Hy as ([q y'] & -> & Hy). apply list_elem_of_filter in Hy as [Hqx Hy]. cbn in Hqx. subst q. cbn [snd].
      destruct (Hp x y' Hy) as (H1 & H2 & H3 & H4 & e & He & Hpr & Hl). split; rewrite ?Hd; try done.
      * exists e. change (hp s3) with (hp s'). rewrite Eh. split; [done|]. split; [done|]. intros q Hq'. rewrite Hpr in Hq'. injection Hq' as <-. apply Hcm. by right.
      * change (member s3) with (member s'). rewrite Hother; [done | by eapply Hnu].
      * change (member s3) with (member s'). by rewrite Etx.
  - intros y e. change (hp s3) with (hp s'). rewrite Eh, Hd, Hcm. intros He Hdy.
    destruct (Ha y e He Hdy) as [?|[Hy|(q & Hpr & Hy)]]; [by left; left | |].
    + apply elem_of_cons in Hy as [->|Hy]; [by left; right|]. right; left. apply elem_of_app. by left.
    + right. destruct (decide (q = x)) as [->|Hne].
      * left. apply elem_of_app. right. apply list_elem_of_fmap. exists (x, y). split; [done|]. by apply list_elem_of_filter.
      * right. exists q. split; [done|]. by apply list_elem_of_filter.
  - exact Hone.
  - intros y Hy. apply Hcm in Hy. change (member s3 y) with (member s' y).
    assert (Hte : ∀ n, total s y n → total s3 y n) by (intros n; apply total_eq; [exact Eh | exact Etx]).
    destruct (decide (y = x)) as [->|Hne]; [split; [done | by apply Hte]|]. destruct Hy as [Hy|]; [|done].
    rewrite Hother by done. destruct (Ht y Hy). split; [done | by apply Hte].
Qed.

(** The counts of transactions do not wrap around. *)
Definition fits s : Prop := ∀ p n, total s p n → n < 2 ^ 32.

Lemma link_loop_spec t fuel : ∀ queue s, inv s t t → links_ok s queue → fits s → (length queue + length (mapBlocksUnlinked s) <= fuel)%nat →
  ∃ s', link_loop fuel queue s = Some s' ∧ inv s' t t ∧ links_ok s' [] ∧ hp s' = hp s ∧ still s s' ∧
    mapBlockIndex (idx s') = mapBlockIndex (idx s) ∧ pindexBestHeader (idx s') = pindexBestHeader (idx s) ∧ (∀ y, complete s y → complete s' y) ∧ (∀ y, hp s !! y = None → member s' y = member s y) ∧
    ∀ y, nTx (member s' y) = nTx (member s y) ∧ nFile (member s' y) = nFile (member s y) ∧ nDataPos (member s' y) = nDataPos (member s y).
Proof.
  induction fuel as [|fuel IH]; intros [|x queue] s Hi Hl Hfit Hf; cbn [link_loop].
  1, 3: exists s; repeat (split; [done|]); done.
  { cbn in Hf. lia. }
  assert (Hx : waiting s x) by (apply (u_queue _ _ Hl); by left).
  destruct (link_block_spec s x t Hi Hx (u_total _ _ Hl) Hfit) as (s1 & -> & Ec & Hls). cbn [mbind option_bind].
  assert (Et : Tip s1 = Some t) by apply core_tip, (link_core s x t Hi Hx (u_total _ _ Hl) Hfit s1 Hls Ec).
  rewrite Et. destruct (link_inv s x t Hi Hx (u_total _ _ Hl) Hfit s1 Hls Ec) as [Hi2 Hls2].
  set (s2 := if negb (less s1 x t) then insert_candidate x s1 else s1) in *. pose proof (link_links s s2 x queue Hl Hls2) as Hl3.
  set (s3 := with_unlinked _ s2) in *. pose proof Hls2 as [Eh Em Est Eu Ho Etx Epos [Hpos Hnew]].
  assert (Hi3 : inv s3 t t) by (destruct Hi2; by split).
  destruct (IH _ s3 Hi3 Hl3) as (s' & E & A1 & A2 & A3 & A4 & A5 & A5' & A6 & A8 & A7).
  - intros p n Hn. eapply Hfit. eapply (total_eq s3 s); [by rewrite <- Eh | | exact Hn]. intros y. by rewrite <- (Etx y).
  - rewrite length_app, length_fmap. cbn [mapBlocksUnlinked with_unlinked s3]. rewrite Eu, filter_key, <- Nat.add_assoc, <- length_app, unlinked_split. cbn in Hf. lia.
  - exists s'. split; [exact E|]. split; [done|]. split; [done|]. split; [by rewrite A3|]. split; [by etransitivity; [exact Est | exact A4]|].
    destruct Em as [Em Eb]. split; [by rewrite A5|]. split; [by rewrite A5'|]. split; [|split].
    + intros y [Hy Hn]. apply A6. split; [change (hp s3) with (hp s2); by rewrite Eh|]. change (member s3 y) with (member s2 y).
      destruct (decide (y = x)) as [->|Hne]; [lia | by rewrite Ho].
    + intros y Hy. rewrite A8 by (change (hp s3) with (hp s2); by rewrite Eh). change (member s3 y) with (member s2 y). apply Ho.
      intros ->. destruct Hx as [(e & He & _) _ _ _]. congruence.
    + intros y. destruct (A7 y) as (B1 & B2 & B3). rewrite B1, B2, B3. change (member s3 y) with (member s2 y). rewrite Etx. by split; [|apply Epos].
Qed.

(** ** A node at rest *)

Record node_ok s (t : ptr) : Prop := {
  n_inv : inv s t t;
  n_holds : holds s t;
  n_links : links_ok s [];
  n_index : index_core (idx s);
  n_members : ∀ p, hp s !! p = None → member s p = no_fields
}.

Lemma index_map_ok s : index_core (idx s) → map_ok s.
Proof using Type.
  intros Hk p. unfold all_blocks. rewrite list_elem_of_fmap. split.
  - intros ([h q] & -> & Hq). apply elem_of_map_to_list, (ok_map _ Hk) in Hq as (e & He & _). by exists e.
  - intros [e He]. exists (phashBlock e, p). split; [done|]. apply elem_of_map_to_list, (ok_map _ Hk). by exists e.
Qed.

(** The data of a block is stored. *)
Record stored (b : B) (p : ptr) s s' : Prop := {
  so_shape : shape (hp s') = shape (hp s);
  so_map : mapBlockIndex (idx s') = mapBlockIndex (idx s) ∧ pindexBestHeader (idx s') = pindexBestHeader (idx s);
  so_still : still s s';
  so_unlinked : mapBlocksUnlinked s' = mapBlocksUnlinked s;
  so_candidates : setBlockIndexCandidates s' = setBlockIndexCandidates s;
  so_other : ∀ y, y ≠ p → hp s' !! y = hp s !! y ∧ member s' y = member s y;
  so_new : ∃ e', hp s' !! p = Some e' ∧ BLOCK_VALID_TRANSACTIONS <= level e' ∧ has_flag e' BLOCK_FAILED_MASK = false ∧ has_flag e' BLOCK_HAVE_DATA = true;
  so_member : nTx (member s' p) = vtx_size b ∧ nChainTx (member s' p) = 0 ∧ nSequenceId (member s' p) = nSequenceId (member s p)
}.

Lemma store_block_spec b p pos s e : hp s !! p = Some e → failed s p = false → ∃ s', store_block b p pos s = Some s' ∧ stored b p s s'.
Proof using Type.
  intros He Hf. unfold store_block. set (s1 := with_members _ s).
  assert (Ef : has_flag e BLOCK_FAILED_MASK = false) by (unfold failed in Hf; by rewrite He in Hf).
  rewrite (mark_lookup BLOCK_HAVE_DATA p s1 e He), lookup_insert_eq. cbn [mbind option_bind].
  destruct (RaiseValidity_spec (add_flag BLOCK_HAVE_DATA e) BLOCK_VALID_TRANSACTIONS ltac:(reflexivity)) as (e' & r & -> & E1 & E2 & E3 & E4).
  cbn [mbind option_bind fst]. eexists. split; [done|].
  match goal with |- stored _ _ _ ?r => set (s' := r) end.
  assert (Eh : hp s' = <[p := e']> (hp s)).
  { unfold s'. cbn. apply insert_insert_eq. }
  assert (Em : ∀ y, member s' y = if decide (y = p) then mkFields (vtx_size b) 0 (nSequenceId (member s p)) pos.1 pos.2 else member s y).
  { intros y. unfold member at 1. cbn. destruct (decide (y = p)) as [->|]; [by rewrite lookup_insert_eq | by rewrite lookup_insert_ne]. }
  split; try done.
  - rewrite Eh. by eapply shape_insert.
  - intros y Hy. by rewrite Eh, Em, decide_False, lookup_insert_ne.
  - exists e'. rewrite Eh, lookup_insert_eq. split; [done|]. split; [apply E4; by rewrite has_add_flag, Ef|].
    rewrite !E3 by done. rewrite !has_add_flag, Ef. split; [done | apply orb_true_r].
  - by rewrite Em, decide_True.
Qed.

Section Store.
Context (b : B) (p t : ptr) (s s' : node W C).
Hypothesis Hok : node_ok s t.
Hypothesis Hd : have_data s p = false.
Hypothesis Hf : failed s p = false.
Hypothesis Hb : 0 < vtx_size b.
Hypothesis Hs : stored b p s s'.

Lemma stored_zero : nChainTx (member s p) = 0.
Proof using All.
  destruct Hs as [_ _ _ _ _ _ (e' & He' & _) _]. destruct (shape_back _ _ p e' (eq_sym (so_shape _ _ _ _ Hs)) He') as (e & He & _).
  destruct (Z.eq_dec (nChainTx (member s p)) 0) as [|Hne]; [done|].
  assert (Hc : complete s p) by (split; [by exists e | done]). pose proof (i_data _ _ _ (n_inv _ _ Hok) p Hc). congruence.
Qed.

Lemma stored_complete y : complete s' y ↔ complete s y.
Proof using All.
  destruct (decide (y = p)) as [->|Hne].
  - pose proof stored_zero as Hz. destruct Hs as [_ _ _ _ _ _ _ (_ & Hz' & _)]. split; intros [_ H]; done.
  - destruct (so_other _ _ _ _ Hs y Hne) as [E1 E2]. unfold complete. by rewrite E1, E2.
Qed.

Lemma stored_seq y : seq s' y = seq s y.
Proof using All.
  unfold seq. destruct (decide (y = p)) as [->|Hne]; [apply (so_member _ _ _ _ Hs)|]. destruct (so_other _ _ _ _ Hs y Hne) as [_ E2]. by rewrite E2.
Qed.

Lemma stored_weight y : weight s' y = weight s y.
Proof using All.
  pose proof (so_shape _ _ _ _ Hs) as E. unfold weight, work_of. destruct (hp s !! y) as [e|] eqn:E1.
  - destruct (shape_fields _ _ (eq_sym E) y e E1) as (e' & -> & _ & _ & _ & _ & Ew). cbn. by rewrite Ew.
  - destruct (hp s' !! y) as [e'|] eqn:E2; [|done]. destruct (shape_back _ _ y e' (eq_sym E) E2) as (e & He & _). congruence.
Qed.

Lemma stored_less a c : less s' a c = less s a c.
Proof using All.
  pose proof (i_tree _ _ _ (n_inv _ _ Hok)) as Ht. pose proof (tree_shape _ _ (eq_sym (so_shape _ _ _ _ Hs)) Ht) as Ht'.
  apply Bool.eq_iff_eq_true. rewrite !less_spec by done. by rewrite !stored_seq, !stored_weight.
Qed.

Lemma stored_failed y : failed s' y = failed s y.
Proof using All.
  destruct (decide (y = p)) as [->|Hne].
  - rewrite Hf. unfold failed. destruct (so_new _ _ _ _ Hs) as (e' & -> & _ & Hff & _). done.
  - destruct (so_other _ _ _ _ Hs y Hne) as [E1 _]. unfold failed. by rewrite E1.
Qed.

Lemma stored_data y : y ≠ p → have_data s' y = have_data s y.
Proof using All. intros Hne. destruct (so_other _ _ _ _ Hs y Hne) as [E1 _]. unfold have_data. by rewrite E1. Qed.

Lemma complete_not_new y : complete s y → y ≠ p.
Proof using All. intros [_ Hy] ->. by rewrite stored_zero in Hy. Qed.

Lemma stored_inv : inv s' t t.
Proof using All.
  pose proof (n_inv _ _ Hok) as [H1 H2 H3 H4 H5 H6 H7 H8 H9 H10]. pose proof (so_shape _ _ _ _ Hs) as E. destruct (so_still _ _ _ _ Hs) as (Ev & _).
  pose proof (so_candidates _ _ _ _ Hs) as Ec. assert (Hv : ∀ y, complete s y → verified s y → verified s' y) by (intros y Hy; unfold verified; by destruct (so_other _ _ _ _ Hs y (complete_not_new y Hy)) as [-> _]).
  assert (Hanc : ∀ a c, anc (hp s') a c → anc (hp s) a c) by (intros a c; by apply anc_shape). split.
  - by eapply tree_shape.
  - rewrite Ev. by eapply branch_shape.
  - intros q Hq%Hanc. destruct (H3 q Hq) as (A1 & A2 & A3). rewrite stored_failed, stored_complete. auto.
  - rewrite Ec. eapply StronglySorted_in; [exact H4|]. intros a c _ _. cbn. by rewrite stored_less.
  - intros y. rewrite Ec, stored_complete. apply H5.
  - intros y e q He Hq. rewrite !stored_complete. destruct (shape_back _ _ y e (eq_sym E) He) as (e0 & He0 & _ & Ep & _).
    eapply H6; [exact He0 | by rewrite Ep].
  - intros y Hy. apply stored_complete in Hy. rewrite stored_data by by apply complete_not_new. by apply H7.
  - intros y e Hy He. apply stored_complete in Hy. destruct (so_other _ _ _ _ Hs y) as [E1 _]; [by apply complete_not_new|]. rewrite E1 in He. by eapply H8.
  - rewrite stored_complete. destruct H9 as [A1 A2]. auto.
  - intros y. rewrite stored_complete, stored_failed, stored_less, Ec. apply H10.
Qed.

Lemma stored_total y n : complete s y → total s y n → total s' y n.
Proof using All.
  intros Hy Ht. revert Hy. induction Ht as [y e He Hp|y e q n He Hp _ IH]; intros Hy;
    destruct (so_other _ _ _ _ Hs y (complete_not_new y Hy)) as [E1 E2]; rewrite <- E2.
  - eapply total_root; [by rewrite E1 | done].
  - eapply total_next; [by rewrite E1 | done |]. apply IH. by eapply (i_prev _ _ _ (n_inv _ _ Hok)).
Qed.

(** The entries of [mapBlocksUnlinked] are still right, and the new block is not among them. *)
Lemma stored_pairs q x : (q, x) ∈ mapBlocksUnlinked s' → x ≠ p ∧ nChainTx (member s' q) = 0 ∧ nChainTx (member s' x) = 0 ∧ have_data s' x = true ∧
  0 < nTx (member s' x) ∧ ∃ e, hp s' !! x = Some e ∧ pprev e = Some q ∧ BLOCK_VALID_TRANSACTIONS <= level e.
Proof using All.
  rewrite (so_unlinked _ _ _ _ Hs). intros Hx. destruct (u_pairs _ _ (n_links _ _ Hok) q x Hx) as (H1 & H2 & H3 & H4 & H5).
  assert (Hne : x ≠ p) by (intros ->; congruence). destruct (so_other _ _ _ _ Hs x Hne) as [E1 E2].
  split; [done|]. rewrite stored_data, E1, E2 by done. split; [|done].
  destruct (decide (q = p)) as [->|Hq]; [apply (so_member _ _ _ _ Hs)|]. destruct (so_other _ _ _ _ Hs q Hq) as [_ E3]. by rewrite E3.
Qed.

Lemma stored_rest x e : hp s' !! x = Some e → x ≠ p → have_data s' x = true → complete s' x ∨ ∃ q, pprev e = Some q ∧ (q, x) ∈ mapBlocksUnlinked s'.
Proof using All.
  intros He Hne Hx. destruct (so_other _ _ _ _ Hs x Hne) as [E1 _]. rewrite stored_data in Hx by done. rewrite E1 in He.
  destruct (u_all _ _ (n_links _ _ Hok) x e He Hx) as [Hc|[Hq|Hq]]; [left; by apply stored_complete | by apply elem_of_nil in Hq|].
  right. by rewrite (so_unlinked _ _ _ _ Hs).
Qed.

Lemma stored_once : NoDup (p :: (mapBlocksUnlinked s').*2).
Proof using All.
  apply NoDup_cons. split.
  - intros Hin. apply list_elem_of_fmap in Hin as ([q x] & E & Hx). cbn in E. subst x. destruct (stored_pairs q p Hx) as [? _]. done.
  - rewrite (so_unlinked _ _ _ _ Hs). apply (u_once _ _ (n_links _ _ Hok)).
Qed.

Lemma stored_counts x : complete s' x → 0 < nChainTx (member s' x) ∧ total s' x (nChainTx (member s' x)).
Proof using All.
  intros Hx. apply stored_complete in Hx. destruct (so_other _ _ _ _ Hs x (complete_not_new x Hx)) as [_ E2]. rewrite E2.
  destruct (u_total _ _ (n_links _ _ Hok) x Hx). split; [done | by apply stored_total].
Qed.

Lemma stored_queue : (∀ e q, hp s' !! p = Some e → pprev e = Some q → complete s' q) → links_ok s' [p].
Proof using All.
  intros Hprev. destruct (so_new _ _ _ _ Hs) as (e' & He' & Hlev & _ & Hdat). destruct (so_member _ _ _ _ Hs) as (M1 & M2 & _). split.
  - intros q x Hx. by destruct (stored_pairs q x Hx).
  - intros x Hx. apply list_elem_of_singleton in Hx as ->. split; [|unfold have_data; by rewrite He' | done | by rewrite M1].
    exists e'. split; [done|]. split; [done|]. intros q Hq. by eapply Hprev.
  - intros x e He Hx. destruct (decide (x = p)) as [->|Hne]; [right; left; by apply list_elem_of_singleton|].
    destruct (stored_rest x e He Hne Hx) as [?|?]; auto.
  - exact stored_once.
  - exact stored_counts.
Qed.

Lemma stored_wait e q : hp s' !! p = Some e → pprev e = Some q → nChainTx (member s' q) = 0 →
  links_ok (with_unlinked (mapBlocksUnlinked s' ++ [(q, p)]) s') [].
Proof using All.
  intros He Hq Hz. destruct (so_new _ _ _ _ Hs) as (e' & He' & Hlev & _ & Hdat). destruct (so_member _ _ _ _ Hs) as (M1 & M2 & _). rewrite He in He'. injection He' as <-. split.
  - intros q' x Hx. cbn in Hx. apply elem_of_app in Hx as [Hx|Hx]; [by destruct (stored_pairs q' x Hx)|].
    apply list_elem_of_singleton in Hx. injection Hx as -> ->. split; [done|]. split; [done|]. split; [unfold have_data; change (hp (with_unlinked _ s')) with (hp s'); by rewrite He|].
    split; [change (member (with_unlinked _ s') p) with (member s' p); by rewrite M1|]. by exists e.
  - intros x Hx. by apply elem_of_nil in Hx.
  - intros x ex Hex Hx. cbn [mapBlocksUnlinked with_unlinked]. destruct (decide (x = p)) as [->|Hne].
    + right; right. exists q. change (hp s' !! p = Some ex) in Hex. rewrite He in Hex. injection Hex as <-. split; [done|]. apply elem_of_app. right. by apply list_elem_of_singleton.
    + destruct (stored_rest x ex Hex Hne Hx) as [?|(q' & H1 & H2)]; [by left|]. right; right. exists q'. split; [done|]. apply elem_of_app. by left.
  - cbn [mapBlocksUnlinked with_unlinked app]. rewrite fmap_app. cbn. rewrite <- Permutation_cons_append. exact stored_once.
  - intros x Hx. destruct (stored_counts x Hx) as [H1 H2]. split; [done|]. eapply total_eq; [| |exact H2]; done.
Qed.
End Store.

Lemma index_core_shape s s' : shape (hp s) = shape (hp s') → mapBlockIndex (idx s') = mapBlockIndex (idx s) → pindexBestHeader (idx s') = pindexBestHeader (idx s) →
  index_core (idx s) → index_core (idx s').
Proof using Type.
  intros E Em Eb [H1 H2 H3 H4 H5]. fold (hp s) in *. fold (hp s') in *.
  assert (Hback : ∀ p e', hp s' !! p = Some e' → ∃ e, hp s !! p = Some e ∧ set_status 0 e' = set_status 0 e)
    by (intros p e' He'; by apply (shape_lookup (hp s') (hp s))).
  split; fold (hp s').
  - by eapply linked_shape.
  - intros p e' He'. destruct (Hback p e' He') as (e & He & Es). injection Es as E1 E2 E3 E4 E5 E6 E7. destruct (H2 p e He) as [W1 W2].
    unfold work_ok, work_before, deref in *. rewrite E2, E5, E7. split; [done|]. destruct (pprev e) as [q|]; [|done]. cbn [mbind option_bind] in *.
    destruct (hp s !! q) as [eq|] eqn:Eq.
    + destruct (shape_fields _ _ E q eq Eq) as (eq' & -> & _ & _ & _ & _ & Ew). by rewrite <- Ew.
    + destruct (hp s' !! q) as [eq'|] eqn:Eq'; [|done]. destruct (shape_back _ _ q eq' E Eq') as (eq & ? & _). congruence.
  - intros h p. rewrite Em, H3. split; intros (e & He & Hh).
    + destruct (shape_fields _ _ E p e He) as (e' & He' & Ehh & _). exists e'. split; [done | congruence].
    + destruct (shape_back _ _ p e E He) as (e' & He' & Ehh & _). exists e'. split; [done | congruence].
  - rewrite Eb. unfold best_ok in *. destruct (pindexBestHeader (idx s)) as [b|].
    + destruct H4 as (eb & Heb & Hmax). destruct (shape_fields _ _ E b eb Heb) as (eb' & Heb' & _ & _ & _ & _ & Ew). exists eb'. split; [done|].
      intros p e' He'. destruct (shape_back _ _ p e' E He') as (e & He & _ & _ & _ & _ & Ew'). rewrite <- Ew, <- Ew'. by eapply Hmax.
    + apply map_empty. intros p. destruct (hp s' !! p) as [e'|] eqn:Ep; [|done]. destruct (Hback p e' Ep) as (e & He & _). rewrite H4 in He. done.
  - intros p e' He'. destruct (Hback p e' He') as (e & He & Es). injection Es as _ _ _ _ _ E6 _. rewrite E6. by eapply H5.
Qed.

(** The block is stored and linked, with the blocks that wait for it, or waits itself. *)
Lemma ReceivedBlockTransactions_spec b p pos s t e : node_ok s t → hp s !! p = Some e → have_data s p = false → failed s p = false → 0 < vtx_size b →
  (∀ q eq, pprev e = Some q → hp s !! q = Some eq → has_flag eq BLOCK_FAILED_MASK = false ∧ BLOCK_VALID_TREE <= level eq) →
  (∀ s', store_block b p pos s = Some s' → fits s') →
  ∃ s', ReceivedBlockTransactions b p pos s = Some s' ∧ node_ok s' t ∧ have_data s' p = true ∧
    (∀ y, failed s' y = failed s y) ∧ (∀ y, y ≠ p → have_data s' y = have_data s y) ∧ shape (hp s') = shape (hp s).
Proof.
  intros Hok He Hd Hf Hb Hprev Hfit. unfold ReceivedBlockTransactions. destruct (store_block_spec b p pos s e He Hf) as (s1 & E1 & Hs).
  specialize (Hfit s1 E1). rewrite E1. cbn [mbind option_bind]. pose proof (stored_inv b p t s s1 Hok Hd Hf Hb Hs) as Hi1.
  pose proof Hs as [Esh [Em Eb] (Ev & Ew & Ec) Eu _ Hoth (e1 & He1 & Hlev & Hfl & Hdat) _]. rewrite He1. cbn [mbind option_bind].
  assert (Hh1 : holds s1 t) by (unfold holds; rewrite Esh, Ew, Ec; apply Hok).
  assert (Hmem : ∀ y, hp s1 !! y = None → member s1 y = no_fields).
  { intros y Hy. assert (Hne : y ≠ p) by congruence. destruct (Hoth y Hne) as [E2 ->]. apply (n_members _ _ Hok). by rewrite <- E2. }
  assert (Hdone : ∀ s', inv s' t t → links_ok s' [] → hp s' = hp s1 → still s1 s' → mapBlockIndex (idx s') = mapBlockIndex (idx s1) →
    pindexBestHeader (idx s') = pindexBestHeader (idx s1) → (∀ y, hp s1 !! y = None → member s' y = member s1 y) →
    node_ok s' t ∧ have_data s' p = true ∧ (∀ y, failed s' y = failed s y) ∧ (∀ y, y ≠ p → have_data s' y = have_data s y) ∧ shape (hp s') = shape (hp s)).
  { intros s' Hi' Hl' Eh' (_ & Ew' & Ec') Em' Eb' Hm'. split.
    - split; [done | unfold holds; rewrite Eh', Ew', Ec'; exact Hh1 | done | |].
      + eapply (index_core_shape s s'); [by rewrite Eh', Esh | congruence | congruence | apply Hok].
      + intros y Hy. rewrite Eh' in Hy. rewrite Hm' by done. by apply Hmem.
    - unfold have_data, failed at 1. rewrite Eh', He1. split; [done|]. split; [|split; [|done]].
      + intros y. apply (stored_failed b p t s s1 Hok Hd Hf Hb Hs).
      + intros y. apply (stored_data b p t s s1 Hok Hd Hf Hb Hs). }
  assert (Hlink : (∀ q, pprev e1 = Some q → complete s1 q) → ∃ s', link_loop (S (length (mapBlocksUnlinked s1))) [p] s1 = Some s' ∧ node_ok s' t ∧ have_data s' p = true ∧
    (∀ y, failed s' y = failed s y) ∧ (∀ y, y ≠ p → have_data s' y = have_data s y) ∧ shape (hp s') = shape (hp s)).
  { intros Hc. destruct (link_loop_spec t (S (length (mapBlocksUnlinked s1))) [p] s1 Hi1) as (s' & E & A1 & A2 & A3 & A4 & A5 & A6 & _ & A8 & _); [|done|done|].
    - apply (stored_queue b p t s s1 Hok Hd Hf Hb Hs). intros e' q He' Hq. simplify_eq. by apply Hc.
    - exists s'. split; [done|]. by apply Hdone. }
  destruct (shape_fields _ _ (eq_sym Esh) p e He) as (e1' & He1' & _ & Ep & _). simplify_eq.
  destruct (pprev e1) as [q|] eqn:Eq; [|by apply Hlink].
  destruct (entry_prev _ (t_linked _ (i_tree _ _ _ Hi1)) p e1 q He1 Eq) as (eq1 & Hq1 & _).
  destruct (Z.eqb_spec (nChainTx (member s1 q)) 0) as [Hz|Hnz]; cbn [negb].
  2: { apply Hlink. intros q' [= <-]. split; [by exists eq1 | done]. }
  rewrite Hq1. cbn [mbind option_bind]. rewrite IsValid_level by done. cbn [mbind option_bind].
  assert (Hqp : q ≠ p).
  { intros ->. destruct (entry_prev _ (t_linked _ (i_tree _ _ _ Hi1)) p e1 p He1 Eq) as (e2 & He2 & Hh2). simplify_eq. lia. }
  destruct (Hoth q Hqp) as [Eqq _]. rewrite Hq1 in Eqq. destruct (Hprev q eq1 Ep (eq_sym Eqq)) as [H1 H2]. rewrite H1. cbn [negb andb].
  destruct (Z.leb_spec BLOCK_VALID_TREE (level eq1)); [|lia]. eexists. split; [done|].
  apply Hdone; try done.
  - destruct Hi1. by split.
  - by apply (stored_wait b p t s s1 Hok Hd Hf Hb Hs e1).
Qed.

(** ** Headers *)

Lemma anc_insert h n e p q ep : linked h → h !! n = None → h !! p = Some ep → anc (<[n := e]> h) p q → anc h p q.
Proof using Type.
  intros Hk Hn Hp Ha. revert ep Hp. induction Ha as [|p e' q r He' Hq _ IH]; intros ep Hp; [apply anc_refl|].
  rewrite lookup_insert_ne, Hp in He' by congruence. injection He' as <-. destruct (entry_prev _ Hk p ep q Hp Hq) as (eq & Heq & _).
  eapply anc_prev; [done | done | by eapply IH].
Qed.

Lemma branch_grow h h' t v : h ⊆ h' → branch_of h (Some t) v → branch_of h' (Some t) v.
Proof using Type.
  intros Hs (e & He & Hl & Hi). exists e. split; [by eapply lookup_weaken|]. split; [done|]. intros i Hi'. destruct (Hi i Hi') as (q & Hq & Ha).
  exists q. split; [done|]. by eapply ancestor_at_mono.
Qed.

(** A new entry has a hash of its own. *)
Lemma fresh_hash (i : index) n e x ex y ey : index_core i → mapBlockIndex i !! phashBlock e = None →
  shape (objects i) !! x = None → shape (<[n := e]> (objects i)) !! x = Some ex → shape (objects i) !! y = Some ey → phashBlock ex ≠ phashBlock ey.
Proof using Type.
  intros Hc Hnew. unfold shape. rewrite !lookup_fmap, !fmap_None, !fmap_Some. intros Hx (ex' & Hx' & ->) (ey' & Hy & ->) Heq.
  destruct (decide (x = n)) as [->|Hne]; [|rewrite lookup_insert_ne in Hx' by done; congruence]. rewrite lookup_insert_eq in Hx'. simplify_eq.
  cbn in Heq. rewrite Heq in Hnew. rewrite (proj2 (ok_map _ Hc (phashBlock ey') y)) in Hnew; [done | by exists ey'].
Qed.

Section Header.
Context (s : node W C) (t : ptr) (block : header) (n : ptr) (q : ptr).
Hypothesis Hok : node_ok s t.
Hypothesis Hadm : admissible (idx s) block n.
Hypothesis Hnew : mapBlockIndex (idx s) !! hash block = None.
Hypothesis Hprev : mapBlockIndex (idx s) !! hashPrevBlock block = Some q.
Hypothesis Hwork : 0 < Work.work (hBits block).
Hypothesis Hroom : weight s q + Work.work (hBits block) < 2 ^ 256.

Lemma grown_tree e best d :
  index_core (mkIdx (<[n := e]> (hp s)) (<[hash block := n]> (mapBlockIndex (idx s))) best d) → pprev e = Some q → nBits e = hBits block →
  tree_ok (<[n := e]> (hp s)).
Proof using All.
  intros Hc Hp Hb. pose proof (i_tree _ _ _ (n_inv _ _ Hok)) as [T1 T2 T3 T4]. pose proof (adm_fresh _ _ _ Hadm) as Hn. fold (hp s) in Hn.
  assert (Hqn : q ≠ n).
  { intros ->. apply (ok_map _ (n_index _ _ Hok)) in Hprev as (e' & He' & _). fold (hp s) in He'. congruence. }
  split.
  - exact (ok_linked _ Hc).
  - intros p ep Hep. destruct (ok_work _ Hc p ep Hep) as [_ (H1 & H2 & _)]. done.
  - intros p ep r er Hep Hr Her. destruct (decide (p = n)) as [->|Hne].
    + rewrite lookup_insert_eq in Hep. injection Hep as <-. rewrite Hp in Hr. injection Hr as <-.
      assert (Hrn : q ≠ n) by done. pose proof Her as Her'. rewrite lookup_insert_ne in Her by done.
      destruct (ok_work _ Hc n e (lookup_insert_eq _ _ _)) as [_ (_ & _ & Hv)]. unfold work_before, deref in Hv. rewrite Hp in Hv. cbn [mbind option_bind objects] in Hv.
      rewrite Her' in Hv. rewrite Hb in Hv. unfold weight, work_of in Hroom. rewrite Her in Hroom. cbn in Hroom. rewrite Hv.
      change (32 * Z.of_nat Arith.WIDTH) with 256. rewrite Z.mod_small; [lia|]. split; [|lia].
      destruct (T2 q er Her) as [Hl _]. pose proof (Arith.val_bound _ Hl) as Hr'. lia.
    + rewrite lookup_insert_ne in Hep by done. assert (Hrn : r ≠ n).
      { intros ->. destruct (entry_prev _ T1 p ep n Hep Hr) as (? & ? & _). congruence. }
      rewrite lookup_insert_ne in Her by done. by eapply T3.
  - intros p ep r er Hep Her Hp1 Hr1. destruct (decide (p = n)) as [->|Hne]; [rewrite lookup_insert_eq in Hep; simplify_eq|].
    destruct (decide (r = n)) as [->|Hne']; [rewrite lookup_insert_eq in Her; simplify_eq|].
    rewrite lookup_insert_ne in Hep by done. rewrite lookup_insert_ne in Her by done. by eapply T4.
Qed.

(** A header adds an entry that is not a candidate. *)
Lemma AddToBlockIndex_node : ∃ s' e, Activate.AddToBlockIndex block n s = Some (s', n) ∧ node_ok s' t ∧ hp s' = <[n := e]> (hp s) ∧
  pprev e = Some q ∧ members s' = members s ∧ phashBlock e = hash block.
Proof using All.
  pose proof (n_index _ _ Hok) as Hc. pose proof (adm_fresh _ _ _ Hadm) as Hn. fold (hp s) in Hn.
  destruct (AddToBlockIndex_spec (idx s) block n Hc Hadm Hnew) as (e & best & E & He1 & He2 & Hbest & Hv & Hp & Hh & Hph & Hb & Htm).
  rewrite Hprev in Hp. pose proof (AddToBlockIndex_core (idx s) block n Hc Hadm _ _ E) as Hc'. unfold Activate.AddToBlockIndex. rewrite E. cbn [mbind option_bind].
  eexists _, e. split; [done|]. set (s' := with_index _ s). assert (Eh : hp s' = <[n := e]> (hp s)) by done. split; [|done].
  pose proof (grown_tree e best _ Hc' Hp Hb) as Ht'. pose proof (n_inv _ _ Hok) as [H1 H2 H3 H4 H5 H6 H7 H8 H9 H10].
  assert (Hsub : hp s ⊆ hp s') by by apply insert_subseteq.
  assert (Hat : ∀ y, y ≠ n → hp s' !! y = hp s !! y) by (intros y Hy; rewrite Eh; by apply lookup_insert_ne).
  assert (Hzero : member s n = no_fields) by by apply (n_members _ _ Hok).
  assert (Hnc : ∀ y, complete s y → y ≠ n) by (intros y [_ Hy] ->; by rewrite Hzero in Hy).
  assert (Hcm : ∀ y, complete s' y ↔ complete s y).
  { intros y. destruct (decide (y = n)) as [->|Hne].
    - split; intros [_ Hy]; [change (nChainTx (member s n) ≠ 0) in Hy|]; by rewrite Hzero in Hy.
    - unfold complete. by rewrite Hat. }
  assert (Hst : has_flag e BLOCK_FAILED_MASK = false ∧ nStatus e .& BLOCK_HAVE_DATA = 0).
  { pose proof (AddToBlockIndex_status (idx s) block n Hc Hadm _ _ e Hnew E (lookup_insert_eq _ _ _)) as Es. unfold has_flag. by rewrite Es. }
  destruct Hst as [Hnf Hnd].
  assert (Hfl : ∀ y, failed s' y = failed s y).
  { intros y. unfold failed. destruct (decide (y = n)) as [->|Hne]; [by rewrite Eh, lookup_insert_eq, Hn | by rewrite Hat]. }
  assert (Hdt : ∀ y, have_data s' y = have_data s y).
  { intros y. unfold have_data. destruct (decide (y = n)) as [->|Hne]; [rewrite Eh, lookup_insert_eq, Hn; unfold has_flag; by rewrite Hnd | by rewrite Hat]. }
  assert (Hless : ∀ a b, a ≠ n → b ≠ n → less s' a b = less s a b).
  { intros a b Ha Hb'. unfold CBlockIndexWorkComparator, work_of. rewrite !Hat by done. done. }
  assert (Hanc : ∀ a b, is_Some (hp s !! a) → anc (hp s') a b → anc (hp s) a b) by (intros a b [ea Ha] Hab; rewrite Eh in Hab; by eapply anc_insert; [apply H1| | |]).
  assert (Hsh : shape (hp s) ⊆ shape (hp s')) by by apply map_fmap_mono.
  assert (Hks : linked (shape (hp s))) by (eapply linked_shape; [|apply H1]; unfold shape; rewrite <- map_fmap_compose; by apply map_fmap_ext).
  assert (Hval : ∀ y, verified s y → verified s' y) by (intros y (ey & Hy & Hl); exists ey; split; [by eapply lookup_weaken | done]).
  assert (Hin : ∀ y, complete s y → is_Some (hp s !! y)) by (intros y [? _]; done).
  assert (Htc : complete s t) by by apply H3, anc_refl.
  split.
  - split.
    + by rewrite Eh.
    + eapply branch_grow; [exact Hsub | exact H2].
    + intros y Hy. apply Hanc in Hy; [|by apply Hin]. destruct (H3 y Hy) as (A1 & A2 & A3). rewrite Hcm, Hfl. auto.
    + eapply StronglySorted_in; [exact H4|]. intros a b Ha Hb'. cbn. rewrite Hless by (by apply Hnc, H5). done.
    + intros y Hy. apply Hcm. by apply H5.
    + intros y ey r Hey Hr Hy. apply Hcm. apply Hcm in Hy. rewrite Hat in Hey by by apply Hnc. by eapply H6.
    + intros y Hy. rewrite Hdt. apply H7. by apply Hcm.
    + intros y ey Hy Hey. apply Hcm in Hy. rewrite Hat in Hey by by apply Hnc. by eapply H8.
    + split; [by apply Hcm | apply Hval, H9].
    + intros y Hy Hf Hl. apply Hcm in Hy. rewrite Hfl in Hf. rewrite Hless in Hl by by apply Hnc. by apply H10.
  - unfold holds. change (stands (shape (hp s')) t (files s) (pcoinsTip s)). eapply stands_grow; [exact Hks | exact Hsh | | apply Hok].
    intros x ex y ey. rewrite Eh. apply fresh_hash; [done | by rewrite Hph].
  - pose proof (n_links _ _ Hok) as [L1 L2 L3 L4 L5]. split.
    + intros r y Hy. rewrite Hdt. destruct (L1 r y Hy) as (A1 & A2 & A3 & A4 & ey & A5 & A6). repeat (split; [done|]). exists ey. split; [by eapply lookup_weaken | done].
    + intros y Hy. by apply elem_of_nil in Hy.
    + intros y ey Hey. rewrite Hdt, Hcm. intros Hy. destruct (decide (y = n)) as [->|Hne]; [|rewrite Hat in Hey by done; by apply L3].
      unfold have_data in Hy. by rewrite Hn in Hy.
    + exact L4.
    + intros y Hy. apply Hcm in Hy. destruct (L5 y Hy) as [A1 A2]. split; [exact A1|]. clear A1.
      change (total s' y (nChainTx (member s y))). revert A2. generalize (nChainTx (member s y)). intros k Hk. clear Hy.
      induction Hk as [p ep Hep Hp'|p ep r k Hep Hp' _ IH]; change (member s p) with (member s' p).
      * eapply total_root; [by eapply lookup_weaken | done].
      * eapply total_next; [by eapply lookup_weaken | done | done].
  - exact Hc'.
  - intros y Hy. apply (n_members _ _ Hok). destruct (decide (y = n)) as [->|Hne]; [done | by rewrite <- Hat].
Qed.
End Header.

(** ** Reachable nodes *)

(** Marks that come and go do not touch the links. *)
Lemma links_kept s s' : kept s s' → links_ok s [] → links_ok s' [].
Proof.
  intros [Hf Hd Hlev] [L1 L2 L3 L4 L5]. pose proof (f_equal snd (f_map _ _ Hf)) as Eu. cbn in Eu.
  assert (Hm : ∀ y, member s' y = member s y) by (intros y; by rewrite (frame_member s s')).
  assert (Hcm : ∀ y, complete s' y ↔ complete s y) by (intros y; split; apply frame_complete; [by symmetry | done]).
  split; rewrite <- ?Eu.
  - intros q x Hx. rewrite !Hm, Hd. destruct (L1 q x Hx) as (A1 & A2 & A3 & A4 & e & A5 & A6 & A7). repeat (split; [done|]).
    destruct (shape_fields _ _ (f_shape _ _ Hf) x e A5) as (e' & He' & _ & Ep & _). exists e'. split; [done|]. split; [by rewrite <- Ep|].
    etransitivity; [exact A7 | by eapply Hlev].
  - intros x Hx. by apply elem_of_nil in Hx.
  - intros x e' He'. rewrite Hd, Hcm. intros Hx. destruct (shape_back _ _ x e' (f_shape _ _ Hf) He') as (e & He & _ & Ep & _). rewrite <- Ep. by apply L3.
  - exact L4.
  - intros x Hx. apply Hcm in Hx. rewrite Hm. destruct (L5 x Hx) as [A1 A2]. split; [done|].
    clear A1 Hx. revert A2. generalize (nChainTx (member s x)). intros k Hk. induction Hk as [p e He Hp|p e r k He Hp _ IH]; rewrite <- (Hm p);
      destruct (shape_fields _ _ (f_shape _ _ Hf) p e He) as (e' & He' & _ & Ep & _).
    + eapply total_root; [done | by rewrite <- Ep].
    + eapply total_next; [done | by rewrite <- Ep | done].
Qed.

Lemma node_kept s s' t t' : node_ok s t → kept s s' → inv s' t' t' → holds s' t' → node_ok s' t'.
Proof.
  intros [N1 N2 N3 N4 N5] Hk Hi Hh. pose proof (k_frame _ _ Hk) as Hf. split; [done | done | by eapply links_kept | |].
  - pose proof (f_map _ _ Hf) as En. unfold names in En. injection En as E1 E2 _. by eapply (index_core_shape s s'); [apply Hf | | |].
  - intros p Hp. rewrite <- (frame_member s s') by done. apply N5. destruct (hp s !! p) as [e|] eqn:E; [|done].
    destruct (shape_fields _ _ (f_shape _ _ Hf) p e E) as (e' & He' & _). congruence.
Qed.

(** No block that was ever connected is marked anew. *)
Definition steady s s' : Prop := ∀ x, verified s' x → failed s' x = true → failed s x = true.

(** What changes a node: headers with a known predecessor and work, blocks for entries that
    are not marked and whose predecessor is not, and calls that succeed; an activation refuses no
    block that was connected before, and a block is reconsidered where nothing is lost. *)
Inductive node_step : node W C → node W C → Prop :=
| step_header s block n q s' p :
    admissible (idx s) block n → mapBlockIndex (idx s) !! hash block = None → mapBlockIndex (idx s) !! hashPrevBlock block = Some q →
    0 < Work.work (hBits block) → weight s q + Work.work (hBits block) < 2 ^ 256 →
    Activate.AddToBlockIndex block n s = Some (s', p) → node_step s s'
| step_data s b p pos e s' :
    hp s !! p = Some e → GetHash b = phashBlock e → have_data s p = false → failed s p = false → 0 < vtx_size b →
    (∀ q eq, pprev e = Some q → hp s !! q = Some eq → has_flag eq BLOCK_FAILED_MASK = false ∧ BLOCK_VALID_TREE <= level eq) →
    (∀ s1, store_block b p pos s = Some s1 → fits s1) →
    ReceivedBlockTransactions b p pos s = Some s' → node_step s s'
| step_activate s st pblock already st' s' :
    orderly s → Tx.mode st = Tx.MODE_VALID → ActivateBestChain st pblock already s = Some (true, st', s') → steady s s' → node_step s s'
| step_invalidate s st p e q st' s' :
    hp s !! p = Some e → pprev e = Some q → orderly s → Tx.mode st = Tx.MODE_VALID → InvalidateBlock st p s = Some (true, st', s') → node_step s s'
| step_reconsider s p e s' :
    hp s !! p = Some e → (∀ t, Tip s = Some t → nothing_lost s t p) → ReconsiderBlock p s = Some s' → node_step s s'.

(** Then the activation ends at the best block of all. *)
Lemma settled_steady s s' t : inv s t t → steady s s' → (∃ R', settled s' R' ∧ heir s t R') →
  ∃ t', inv s' t' t' ∧ holds s' t' ∧ best s' t'.
Proof.
  intros Hi Hst (R' & Hs & Hr). apply (settled_inv s' R' Hs). destruct (failed s' R') eqn:E; [|done].
  assert (Hv : verified s' R') by (destruct Hs as (u & Hu & _); apply (i_ref _ _ _ Hu)). specialize (Hst R' Hv E).
  destruct Hr as [->|[Hn _]]; [|congruence]. destruct (i_active _ _ _ Hi t (anc_refl _ _)) as (_ & Hn & _). congruence.
Qed.

Lemma node_step_ok s s' t : node_ok s t → node_step s s' → ∃ t', node_ok s' t'.
Proof.
  intros Hok Hstep. pose proof (index_map_ok s (n_index _ _ Hok)) as Hmap. pose proof Hok as Hok'. destruct Hok as [Hi Hh _ _ _].
  destruct Hstep as [s block n q s' p H1 H2 H3 H4 H5 E|s b p pos e s' H1 H2 H3 H4 H5 H6 H7 E|s st pblock already st' s' H0 H1 E Hsteady|s st p e q st' s' H1 H2 H0 H3 E|s p e s' H1 H2 E].
  - destruct (AddToBlockIndex_node s t block n q Hok' H1 H2 H3 H4 H5) as (s1 & e & E1 & Hok1 & _). rewrite E1 in E. injection E as <- <-. by exists t.
  - destruct (ReceivedBlockTransactions_spec b p pos s t e Hok' H1 H3 H4 H5 H6 H7) as (s1 & E1 & Hok1 & _). rewrite E1 in E. injection E as <-. by exists t.
  - destruct (ActivateBestChain_spec pblock already st s t t Hi Hh H0 H1) as (ok & st1 & s1 & E1 & Hlat & Hs). rewrite E1 in E. injection E as -> <- <-.
    destruct (settled_steady s s1 t Hi Hsteady Hs) as (t1 & Hi1 & Hh1 & _). exists t1. eapply node_kept; [exact Hok' | by apply later_kept | done | done].
  - destruct (InvalidateBlock_spec st s t p e q Hi Hh H0 H3 Hmap H1 H2) as (ok & st1 & s1 & E1 & Hk & Hs). rewrite E1 in E. injection E as -> <- <-.
    destruct Hs as (t1 & Hi1 & Hh1 & _). exists t1. by eapply node_kept.
  - destruct (ReconsiderBlock_spec s t p e Hi Hh Hmap H1) as (s1 & E1 & Hh1 & Hcl & Hinv). rewrite E1 in E. injection E as <-.
    exists t. eapply node_kept; [exact Hok' | apply (cl_kept _ _ _ _ _ Hcl) | apply Hinv, H2; by eapply inv_tip | done].
Qed.

Lemma node_steps_ok s s' : rtc node_step s s' → ∀ t, node_ok s t → ∃ t', node_ok s' t'.
Proof.
  induction 1 as [|s1 s2 s3 Hstep _ IH]; intros t Hok; [by exists t|].
  destruct (node_step_ok s1 s2 t Hok Hstep) as (t2 & Hok2). by eapply IH.
Qed.


(** ** Main results *)




(** C24: [ReconsiderBlock] clears exactly the marks of the block, its descendants and its ancestors,
    and the tip and its coins stay.  It does not put ancestors back among the candidates: the node
    stays consistent exactly when no marked ancestor, other than the block itself, has all data, is
    not worse than the tip and is not a candidate already. *)
Theorem ReconsiderBlock_correct s t p e :
  node_ok s t → hp s !! p = Some e →
  ∃ s', ReconsiderBlock p s = Some s' ∧ Tip s' = Some t ∧ holds s' t ∧
    (∀ y, is_Some (hp s !! y) → failed s' y = true ↔ failed s y = true ∧ ¬ anc (hp s) y p ∧ ¬ anc (hp s) p y) ∧
    (node_ok s' t ↔
     ∀ a, anc (hp s) p a → a ≠ p → failed s a = true → complete s a → less s a t = false → a ∈ setBlockIndexCandidates s).
Proof.
  intros Hok Hp. pose proof (n_inv _ _ Hok) as Hi.
  destruct (ReconsiderBlock_spec s t p e Hi (n_holds _ _ Hok) (index_map_ok s (n_index _ _ Hok)) Hp) as (s' & E & Hh & Hcl & Hinv).
  exists s'. split; [done|]. split; [by apply core_tip, (cl_core _ _ _ _ _ Hcl)|]. split; [done|]. split.
  - intros y Hy. rewrite (cl_failed _ _ _ _ _ Hcl). tauto.
  - split; [intros Hok'; by apply Hinv, n_inv|]. intros Hn. eapply node_kept; [exact Hok | apply (cl_kept _ _ _ _ _ Hcl) | by apply Hinv | done].
Qed.
End Operations.

(** ** The results on a small tree *)

(** Blocks are their hashes; block 7 connects only if it is said to be checked; the view is the
    tip. *)
Definition refused (p : ptr) : bool := Pos.eqb p 7.

#[global] Instance small_state : ChainState (list Z) unit ptr := {|
  GetHash b := b;
  vtx_size _ := 1;
  read_block _ pos := Some [pos.2];
  ConnectBlock _ _ p already w c st :=
    Some (if refused p && negb already then (Tx.reject 100 String.EmptyString st, false, w, c) else (true, st, true, w, p));
  DisconnectBlock h _ p w c := match h !! p with Some e => q ← pprev e; Some (DISCONNECT_OK, w, q) | None => None end;
  FlushStateToDisk _ _ c st := (true, st, true, c)
|}.

#[global, program] Instance small_laws : ChainStateLaws (list Z) unit ptr := {|
  stands _ p _ c := c = p
|}.
Next Obligation.
  intros h b p e q already w c st ok st' reached w' c' Hc He Hq Hb Hst. unfold Activate.ConnectBlock, small_state, Tx.reject, Tx.Invalid, Tx.DoS.
  rewrite Hst. destruct (refused p && negb already); intros E; by injection E as <- <- <- <- <-.
Qed.
Next Obligation.
  intros h b p e q w c w' c' Hc He Hq Hb. unfold Activate.DisconnectBlock, small_state. rewrite He, Hq. cbn. congruence.
Qed.
Next Obligation. intros h p w c mode st ok st' written c' Hc E. injection E as <- <- <- <-. by split. Qed.
Next Obligation. done. Qed.

Abbreviation small_node := (node unit ptr).

(** A test of all objects of a concrete node. *)
Lemma all_objects (f : ptr → CBlockIndex → bool) (h : heap) :
  forallb (λ x : ptr * CBlockIndex, f x.1 x.2) (map_to_list h) = true → ∀ p e, h !! p = Some e → f p e = true.
Proof.
  intros Hf p e He. apply elem_of_map_to_list in He. rewrite forallb_forall in Hf. apply (Hf (p, e)). by apply list_elem_of_In.
Qed.

(** The root, active. *)
Definition root_entry : CBlockIndex := set_status 13 (default null_entry (objects index1 !! 1%positive)).
Definition node1 : small_node := Eval vm_compute in
  mkNode (mkIdx {[1%positive := root_entry]} (mapBlockIndex index1) (pindexBestHeader index1) ∅) {[1%positive := mkFields 1 1 1 0 1]}
    [Some 1%positive] [1%positive] None [] 2 () 1%positive.

Lemma node1_one p e : hp node1 !! p = Some e → p = 1%positive ∧ e = root_entry.
Proof. change (hp node1) with ({[1%positive := root_entry]} : heap). rewrite lookup_singleton_Some. by intros [<- <-]. Qed.

Lemma node1_anc p q : anc (hp node1) p q → p = q.
Proof. intros Ha. inversion Ha as [|? e r ? He Hq _]; [done|]. apply node1_one in He as [_ ->]. discriminate Hq. Qed.

Lemma node1_complete p : complete node1 p → p = 1%positive.
Proof. intros [[e He] _]. by apply node1_one in He as [-> _]. Qed.

Lemma node1_index : index_core (idx node1).
Proof.
  assert (Hs : rtc add_step empty_index index1).
  { apply rtc_once, (add_block _ (some_header 1 0) 1 _ 1); [small_admissible | vm_compute; reflexivity]. }
  refine (index_core_shape (with_index index1 node1) node1 _ eq_refl eq_refl (ok_core _ (reachable_ok _ Hs))). reflexivity.
Qed.

Lemma node1_tree : tree_ok (hp node1).
Proof.
  split; [apply node1_index | | |].
  - intros p e He. apply (ok_work _ node1_index) in He as (_ & A1 & A2 & _). done.
  - intros p e q eq He Hq. apply node1_one in He as [_ ->]. discriminate Hq.
  - intros p e q eq He He' _ _. apply node1_one in He as [-> _], He' as [-> _]. done.
Qed.

Lemma node1_branch : branch_of (hp node1) (Some 1%positive) (vChain node1).
Proof.
  exists root_entry. split; [reflexivity|]. split; [reflexivity|]. intros [|i] Hi; [|cbn in Hi; lia].
  eexists. split; [reflexivity|]. split; [apply anc_refl | by eexists].
Qed.

Lemma node1_inv : inv node1 1 1.
Proof.
  assert (Hc : complete node1 1) by (split; [by eexists | done]).
  assert (Hv : verified node1 1) by (exists root_entry; split; [reflexivity | vm_compute; discriminate]).
  split; [apply node1_tree | apply node1_branch | | | | | | | |].
  - intros q <-%node1_anc. done.
  - apply SSorted_cons; [apply SSorted_nil | apply List.Forall_nil].
  - intros p Hp. by apply list_elem_of_singleton in Hp as ->.
  - intros p e q He Hq. apply node1_one in He as [_ ->]. discriminate Hq.
  - by intros p ->%node1_complete.
  - intros p e _ He. apply node1_one in He as [_ ->]. vm_compute. discriminate.
  - done.
  - intros p ->%node1_complete _ _. by left.
Qed.

Lemma node1_links : links_ok node1 [].
Proof.
  split.
  - intros q x Hx. by apply elem_of_nil in Hx.
  - intros x Hx. by apply elem_of_nil in Hx.
  - intros x e He _. left. apply node1_one in He as [-> ->]. split; [by eexists | done].
  - apply NoDup_nil_2.
  - intros x ->%node1_complete. split; [reflexivity|]. exact (total_root node1 1 root_entry eq_refl eq_refl).
Qed.

Lemma node1_ok : node_ok node1 1.
Proof.
  split; [apply node1_inv | reflexivity | apply node1_links | apply node1_index |].
  intros p Hp. unfold member. change (members node1) with ({[1%positive := mkFields 1 1 1 0 1]} : gmap ptr fields).
  rewrite lookup_singleton_ne; [done|]. by intros <-.
Qed.

(** [fits], by a test of the objects. *)
Lemma fits_test (s : small_node) :
  forallb (λ x : ptr * CBlockIndex, (nTx (member s x.1) <=? 1) && (nHeight x.2 <? 1000) && (0 <=? nHeight x.2) &&
    match pprev x.2 with Some q => match hp s !! q with Some e => nHeight e + 1 =? nHeight x.2 | None => false end | None => true end)
    (map_to_list (hp s)) = true → fits s.
Proof.
  intros Hf. pose proof (all_objects (λ p e, (nTx (member s p) <=? 1) && (nHeight e <? 1000) && (0 <=? nHeight e) &&
    match pprev e with Some q => match hp s !! q with Some e' => nHeight e' + 1 =? nHeight e | None => false end | None => true end) _ Hf) as Ht. cbn beta in Ht.
  assert (Hn : ∀ p n, total s p n → ∀ e, hp s !! p = Some e → n <= nHeight e + 1).
  { induction 1 as [p e He Hp|p e q n He Hp _ IH]; intros e' He'; rewrite He in He'; injection He' as <-;
      specialize (Ht p e He); rewrite Hp in Ht; rewrite !andb_true_iff in Ht.
    - lia.
    - destruct (hp s !! q) as [eq|] eqn:Eq; [|lia]. specialize (IH eq eq_refl). lia. }
  intros p n Hp. assert (He : ∃ e, hp s !! p = Some e) by (destruct Hp; by eexists). destruct He as [e He].
  specialize (Hn p n Hp e He). specialize (Ht p e He). rewrite !andb_true_iff in Ht. lia.
Qed.

(** Blocks 2 and 3 extend the root, block 7, which does not connect, extends 3; blocks 4, 5 and
    6 are a branch from 2.  The data of 5 arrives before that of 4, that of 6 never. *)
Definition header_in (s : small_node) (h prev : Z) (p : ptr) : small_node :=
  match Activate.AddToBlockIndex (some_header h prev) p s with Some (s', _) => s' | None => s end.
Definition data_in (s : small_node) (p : ptr) : small_node :=
  match ReceivedBlockTransactions [Z.pos p] p (0, Z.pos p) s with Some s' => s' | None => s end.
Definition activated (s : small_node) : small_node :=
  match ActivateBestChain Tx.CValidationState_init None false s with Some (_, _, s') => s' | None => s end.

Definition node_headers : small_node := Eval vm_compute in
  header_in (header_in (header_in (header_in (header_in (header_in node1 2 1 2) 3 2 3) 7 3 7) 4 2 4) 5 4 5) 6 5 6.
Definition node_blocks : small_node := Eval vm_compute in data_in (data_in (data_in (data_in (data_in node_headers 2) 3) 7) 5) 4.

Lemma header_in_step s h prev p q s' :
  admissible (idx s) (some_header h prev) p → mapBlockIndex (idx s) !! [h] = None → mapBlockIndex (idx s) !! [prev] = Some q →
  (weight s q <? 1000) = true → Activate.AddToBlockIndex (some_header h prev) p s = Some (s', p) → node_step s s'.
Proof.
  intros Ha Hn Hq Hw E. eapply step_header; [exact Ha | exact Hn | exact Hq | vm_compute; reflexivity | | exact E].
  change (Work.work (hBits (some_header h prev))) with 2. lia.
Qed.

Lemma data_in_step s p e q eq s1 s' :
  hp s !! p = Some e → [Z.pos p] = phashBlock e → have_data s p || failed s p = false → pprev e = Some q → hp s !! q = Some eq →
  has_flag eq BLOCK_FAILED_MASK || (level eq <? BLOCK_VALID_TREE) = false →
  store_block [Z.pos p] p (0, Z.pos p) s = Some s1 → fits s1 →
  ReceivedBlockTransactions [Z.pos p] p (0, Z.pos p) s = Some s' → node_step s s'.
Proof.
  intros He Hb [Hd Hf]%orb_false_iff Hq Heq [Hg Hl]%orb_false_iff Es Hfit E. eapply step_data; [exact He | exact Hb | exact Hd | exact Hf | reflexivity | | | exact E].
  - intros q' eq' Hq' Heq'. simplify_eq. split; [done | lia].
  - intros s1' Es'. by simplify_eq.
Qed.

Ltac header_step h prev p :=
  eapply rtc_l; [eapply (header_in_step _ h prev p); [small_admissible | vm_compute; reflexivity | vm_compute; reflexivity | vm_compute; reflexivity | vm_compute; reflexivity]|].
Ltac data_step p :=
  eapply rtc_l; [eapply (data_in_step _ p);
    [vm_compute; reflexivity | reflexivity | vm_compute; reflexivity | reflexivity | vm_compute; reflexivity | vm_compute; reflexivity | vm_compute; reflexivity
    | apply fits_test; vm_compute; reflexivity | vm_compute; reflexivity]|].

Lemma node_headers_reached : rtc node_step node1 node_headers.
Proof.
  header_step 2 1 2%positive. header_step 3 2 3%positive. header_step 7 3 7%positive. header_step 4 2 4%positive. header_step 5 4 5%positive. header_step 6 5 6%positive. apply rtc_refl.
Qed.

Lemma node_blocks_reached : rtc node_step node1 node_blocks.
Proof.
  transitivity node_headers; [apply node_headers_reached|].
  data_step 2%positive. data_step 3%positive. data_step 7%positive. data_step 5%positive. data_step 4%positive. apply rtc_refl.
Qed.

(** A node that was reached, with its tip. *)
Lemma reached_ok s t : rtc node_step node1 s → Tip s = Some t → node_ok s t.
Proof.
  intros Hs Ht. destruct (node_steps_ok _ _ Hs _ node1_ok) as (t' & Hok). pose proof (inv_tip _ _ _ (n_inv _ _ Hok)) as E. congruence.
Qed.


Definition node_active : small_node := Eval vm_compute in activated node_blocks.
Definition node_lowered : small_node := Eval vm_compute in
  match InvalidateBlock Tx.CValidationState_init 4 node_active with Some (_, _, s) => s | None => node_active end.
Definition node_three : small_node := Eval vm_compute in activated node_lowered.

Lemma node_active_run : ActivateBestChain Tx.CValidationState_init None false node_blocks = Some (true, Tx.CValidationState_init, node_active).
Proof. vm_compute. reflexivity. Qed.
Lemma node_lowered_run : InvalidateBlock Tx.CValidationState_init 4 node_active = Some (true, Tx.CValidationState_init, node_lowered).
Proof. vm_compute. reflexivity. Qed.
Lemma node_three_run : ActivateBestChain Tx.CValidationState_init None false node_lowered = Some (true, Tx.CValidationState_init, node_three).
Proof. vm_compute. reflexivity. Qed.

Lemma small_orderly (s : small_node) : orderly s.
Proof.
  split.
  - intros h b p e q already w c st _ _ _ _ _ Hst. unfold Activate.ConnectBlock, small_state, Tx.reject, Tx.Invalid, Tx.DoS. rewrite Hst.
    destruct (refused p && negb already); by repeat eexists.
  - intros h b p e q w c _ _ He Hq _. unfold Activate.DisconnectBlock, small_state. rewrite He, Hq. by eexists.
Qed.

Lemma small_steady (s s' : small_node) :
  forallb (λ x : ptr * CBlockIndex, (level x.2 <? BLOCK_VALID_SCRIPTS) || negb (has_flag x.2 BLOCK_FAILED_MASK) || failed s x.1) (map_to_list (hp s')) = true →
  steady s s'.
Proof.
  intros Hf x (e & He & Hl) Hx. unfold failed in Hx. rewrite He in Hx.
  pose proof (all_objects (λ p e, (level e <? BLOCK_VALID_SCRIPTS) || negb (has_flag e BLOCK_FAILED_MASK) || failed s p) _ Hf x e He) as Ht. cbn beta in Ht.
  rewrite Hx, orb_false_r in Ht. apply orb_true_iff in Ht as [Ht|Ht]; [lia | done].
Qed.

Lemma node_active_reached : rtc node_step node1 node_active.
Proof.
  eapply rtc_r; [apply node_blocks_reached|]. eapply step_activate; [apply small_orderly | | exact node_active_run | apply small_steady; vm_compute; reflexivity].
  reflexivity.
Qed.


Lemma node_lowered_reached : rtc node_step node1 node_lowered.
Proof.
  eapply rtc_r; [apply node_active_reached|].
  eapply step_invalidate; [| |apply small_orderly| |exact node_lowered_run]; reflexivity.
Qed.

Lemma node_lowered_ok : node_ok node_lowered 2.
Proof. apply reached_ok; [apply node_lowered_reached | reflexivity]. Qed.

Lemma small_reliable (s : small_node) :
  forallb (λ x : ptr * CBlockIndex, (nChainTx (member s x.1) =? 0) || bool_decide ([nDataPos (member s x.1)] = phashBlock x.2)) (map_to_list (hp s)) = true →
  reliable s.
Proof.
  intros Hf. split.
  - intros p e q w c He [_ Hp] _. eexists. split; [reflexivity|].
    pose proof (all_objects (λ p e, (nChainTx (member s p) =? 0) || bool_decide ([nDataPos (member s p)] = phashBlock e)) _ Hf p e He) as Ht.
    cbn beta in Ht. apply orb_true_iff in Ht as [Ht|Ht]; [lia | by apply bool_decide_eq_true in Ht].
  - intros h b p e q already w c st st' reached w' c' _ _ _ _ _ Hst. unfold Activate.ConnectBlock, small_state.
    destruct (refused p && negb already); [|done]. unfold Tx.reject, Tx.Invalid, Tx.DoS. rewrite Hst. by intros [= <- _ _ _].
  - intros h b p e q w c r w' c' _ _ He Hq _. unfold Activate.DisconnectBlock, small_state. rewrite He, Hq. by intros [= <- _ _].
  - intros p mode w c st ok st' written c' _. by intros [= <- _ _ _].
Qed.





Definition node_six : small_node := Eval vm_compute in match ReconsiderBlock 6 node_three with Some s => s | None => node_three end.

(** The ancestors of a block are in every list that is closed under predecessors. *)
Lemma anc_in (h : heap) (l : list ptr) :
  forallb (λ p, match h !! p with Some e => match pprev e with Some q => bool_decide (q ∈ l) | None => true end | None => true end) l = true →
  ∀ p q, anc h p q → p ∈ l → q ∈ l.
Proof.
  intros Hl p q Ha. induction Ha as [|p e r q He Hr _ IH]; [done|]. intros Hp. apply IH.
  rewrite forallb_forall in Hl. specialize (Hl p ltac:(by apply list_elem_of_In)). rewrite He, Hr in Hl. by apply bool_decide_eq_true in Hl.
Qed.

Lemma small_refusable (s : small_node) p : refusable s p → p = 7%positive.
Proof.
  intros (h & b & e & q & already & w & c & st & st' & r & w' & c' & _ & _ & _ & _ & _ & _ & E & _). unfold Activate.ConnectBlock, small_state in E.
  destruct (refused p && negb already) eqn:Er; [|done]. apply andb_true_iff in Er as [Er _]. by apply Pos.eqb_eq.
Qed.

Lemma node_six_clean : ¬ bad node_six 5.
Proof.
  intros (q & Ha & Hq). apply (anc_in _ [5; 4; 2; 1]%positive) in Ha; [|reflexivity | by left].
  repeat (apply elem_of_cons in Ha as [->|Ha]; [destruct Hq as [Hq|Hq%small_refusable]; discriminate Hq|]). by apply elem_of_nil in Ha.
Qed.

Lemma node_three_ok : node_ok node_three 3.
Proof.
  apply reached_ok; [|reflexivity]. eapply rtc_r; [apply node_lowered_reached|]. eapply step_activate;
    [apply small_orderly | | exact node_three_run | apply small_steady; vm_compute; reflexivity]. reflexivity.
Qed.

Definition entry_six : CBlockIndex := Eval vm_compute in default null_entry ((hp node_three : gmap ptr CBlockIndex) !! 6%positive).
Definition entry_four' : CBlockIndex := Eval vm_compute in default null_entry ((hp node_three : gmap ptr CBlockIndex) !! 4%positive).

(** Reconsidering 6, whose data is missing, loses its parent 5; reconsidering 4 keeps the node
    consistent. *)
Lemma ReconsiderBlock_correct_witness :
  (ReconsiderBlock 6 node_three = Some node_six ∧ ¬ node_ok node_six 3) ∧ ∃ s, ReconsiderBlock 4 node_three = Some s ∧ node_ok s 3.
Proof.
  destruct (ReconsiderBlock_correct node_three 3 6 entry_six node_three_ok eq_refl) as (s & E & _ & _ & _ & Hn).
  destruct (ReconsiderBlock_correct node_three 3 4 entry_four' node_three_ok eq_refl) as (s' & E' & _ & _ & _ & Hn').
  split.
  - assert (E6 : ReconsiderBlock 6 node_three = Some node_six) by (vm_compute; reflexivity). rewrite E6 in E. injection E as <-. split; [exact E6|]. intros Hok.
    assert (Hin : 5%positive ∈ setBlockIndexCandidates node_three).
    { apply (proj1 Hn Hok); [eapply anc_prev; [reflexivity | reflexivity | apply anc_refl] | done | reflexivity | split; [by eexists | done] | vm_compute; reflexivity]. }
    revert Hin. refine (bool_decide_eq_false_1 _ _). vm_compute. reflexivity.
  - exists s'. split; [exact E'|]. apply Hn'. intros a Ha Hne Hf. exfalso. apply (anc_in _ [4; 2; 1]%positive) in Ha; [|reflexivity | by left].
    repeat (apply elem_of_cons in Ha as [->|Ha]; [by try discriminate Hf; destruct Hne|]). by apply elem_of_nil in Ha.
Defined.

(** [ReconsiderBlock] clears the marks of the ancestors of the block without putting them back
    among the candidates: here the block is 6, whose data is missing; its parent 5 is complete,
    connects, is not marked any more and has more work than the tip, and is not activated. *)
Lemma ReconsiderBlock_loses_ancestors :
  node_ok node_three 3 ∧ ReconsiderBlock 6 node_three = Some node_six ∧
  (complete node_six 5 ∧ ¬ bad node_six 5 ∧ less node_six 3 5 = true ∧ 5%positive ∉ setBlockIndexCandidates node_six) ∧
  ∃ s, ActivateBestChain Tx.CValidationState_init None false node_six = Some (true, Tx.CValidationState_init, s) ∧ Tip s = Some 3%positive.
Proof.
  split.
  { exact node_three_ok. }
  split; [vm_compute; reflexivity|]. split.
  - split; [split; [by eexists | done]|]. split; [apply node_six_clean|]. split; [vm_compute; reflexivity|].
    refine (bool_decide_eq_false_1 _ _). vm_compute. reflexivity.
  - eexists. split; [vm_compute; reflexivity | reflexivity].
Qed.

End Reorg.
