(* ===== verification/Node.v ===== *)
(** * src/main.cpp: activation with the chain state of [Connect]

    The interface [ChainState] of [Activate] is implemented here with [ConnectBlock] and
    [DisconnectBlock] of [Connect]: [ConnectTip] and [DisconnectTip] call them on a cache over
    [pcoinsTip] and flush it.  The view belongs to a block if its best block is that block, and
    the laws of the interface hold, whatever [ConnectBlock] makes of a block.

    The files are a type [W] of the section, with the blocks, undo data and money supplies they
    hold, what the calls change in them, and [FlushStateToDisk], which leaves the best block of
    the view as it is.  What [Connect] reads of the rest of the program depends on the block index
    and on the files. *)

From stdpp Require Import base option gmap fin_maps list.
From Stdlib Require Import ZArith Lia.
From S2P Require Import Prelude Consensus Tx Coins Block Interp Connect Chain Activate.
Import Chain.
#[local] Existing Instance Coins.cache_view.
Open Scope Z_scope.

Module Node.

Section Rejects.
Context {V : Type} `{Coins.CoinsView V} {env : Connect.Env}.
Implicit Types c : Coins.cache V.

(** A block is refused with [false]. *)
Definition no_result {A} (r : option (((bool * Tx.CValidationState) + A) * Coins.cache V)) : Prop :=
  ∀ x c', r = Some (inl x, c') → x.1 = false.

Lemma DoS_false level code reason corruption debug state : (Tx.DoS level false code reason corruption debug state).1 = false.
Proof. unfold Tx.DoS. by destruct (Tx.mode state). Qed.

Lemma check_scripts_false tx flags queue vin : ∀ i c state, no_result (Connect.check_scripts tx flags queue i vin c state).
Proof.
  induction vin as [|txin vin IH]; intros i c state x c'; cbn [Connect.check_scripts]; [done|].
  destruct (Coins.AccessCoin _ c) as [coin c1]. destruct (Coins.IsSpent coin); [done|]. destruct queue.
  - destruct (Connect.check_scripts _ _ _ _ _ _ _) as [[[y|l] c2]|] eqn:E; cbn [mbind option_bind]; [|done|done]. intros [= <- <-]. by eapply IH.
  - destruct (Connect.run_check (Connect.mkCheck tx i _ _ flags)) as [[e|[]]|]; cbn [mbind option_bind]; [|by apply IH|done].
    destruct (Interp.has _ _).
    + destruct (Connect.run_check _) as [[e2|[]]|]; cbn [mbind option_bind]; [| |done]; intros [= <- <-]; apply DoS_false.
    + intros [= <- <-]. apply DoS_false.
Qed.

Lemma connect_tx_false h fs fc first tx t c state : no_result (Connect.connect_tx h fs fc first tx t c state).
Proof.
  intros x c'. unfold Connect.connect_tx. destruct (Connect.connect_sigops tx t c state) as [[y|t1] c1] eqn:E1.
  { intros [= <- <-]. revert E1. unfold Connect.connect_sigops, Connect.too_many_sigops.
    destruct (_ >? _); [intros [= <- _]; apply DoS_false|]. destruct (Tx.IsCoinBase tx); [done|].
    destruct (Coins.HaveInputs tx c) as [have c2]. destruct (negb have); [intros [= <- _]; apply DoS_false|].
    destruct (Connect.GetP2SHSigOpCount tx c2) as [n c3]. destruct (_ >? _); [intros [= <- _]; apply DoS_false | done]. }
  destruct (if Tx.IsCoinBase tx then _ else _) as [[[y|t2] c2]|] eqn:E2; cbn [mbind option_bind]; [| |done].
  - intros [= <- <-]. destruct (Tx.IsCoinBase tx) eqn:Ecb; [done|]. unfold Connect.connect_inputs in E2. destruct (Coins.GetValueIn tx c1) as [v c3].
    destruct (if Tx.IsCoinStake tx then _ else _) as [fees|]; [|done]. cbn [mbind option_bind] in E2. unfold Connect.CheckInputs in E2. rewrite Ecb in E2.
    destruct (Connect.GetSpendHeight c3) as [[sh c4]|]; [|done]. cbn [mbind option_bind] in E2.
    destruct (Connect.CheckTxInputs tx sh c4 state) as [[[ok st2] c5]|]; [|done]. cbn [mbind option_bind] in E2.
    destruct ok; cbn [negb] in E2; [|by injection E2 as <- _]. destruct fs; [|done].
    destruct (Connect.check_scripts _ _ _ _ _ _ _) as [[[z|l] c6]|] eqn:Es; [|done|done]. cbn in E2. injection E2 as <- _. by eapply check_scripts_false.
  - destruct (Tx.GetValueOut tx) as [value|]; [|done]. cbn [mbind option_bind].
    destruct (Connect.UpdateCoins tx h c2) as [[u c3]|]; [|done]. by cbn [mbind option_bind].
Qed.

Lemma connect_txs_false h fs fc txs : ∀ first t c state, no_result (Connect.connect_txs h fs fc first txs t c state).
Proof.
  induction txs as [|tx txs IH]; intros first t c state x c'; cbn [Connect.connect_txs]; [done|].
  destruct (Connect.connect_tx _ _ _ _ _ _ _ _) as [[[y|t1] c1]|] eqn:E; cbn [mbind option_bind]; [|by apply IH|done].
  intros [= <- <-]. by eapply connect_tx_false.
Qed.

(** A block other than the first that is connected has its scripts marked as verified, is the
    best block of the view, and leaves the state as it was. *)
Lemma ConnectBlock_true block already pindex c state state' pindex' c' :
  (∀ st' e, Connect.check_block block true true state = Some (true, st', e) → st' = state) →
  Block.GetHash Connect.HashX11KVS block ≠ Connect.hashGenesisBlock →
  Connect.ConnectBlock block false already pindex c state = Some (true, state', pindex', c') →
  state' = state ∧ Connect.valid_scripts pindex' = true ∧ Coins.hashBlock c' = Connect.hash pindex.
Proof.
  intros Hcheck Hgen. unfold Connect.ConnectBlock. cbn [negb].
  destruct (if already then _ else _) as [[[ok st] e]|] eqn:E1; [|done]. cbn [mbind option_bind].
  destruct ok; cbn [negb]; [|intros E; exfalso; unfold Tx.Error in E; destruct (Tx.corruptionPossible st); by injection E].
  assert (st = state) as -> by (destruct already; [by injection E1 | by eapply Hcheck]). clear E1.
  destruct (Coins.cache_GetBestBlock c) as [best c1]. destruct (negb (bool_decide _)); [done|]. rewrite bool_decide_false by done.
  destruct (Consensus.NetworkUpgradeActive _ _ _) as [pos|]; [|done]. cbn [mbind option_bind].
  assert (Hrej : ∀ level reason (i : Connect.CBlockIndex) (v : Coins.cache V), Some (Tx.reject level reason state, i, v) ≠ Some (true, state', pindex', c')).
  { intros level reason i v. unfold Tx.reject, Tx.DoS. by destruct (Tx.mode state). }
  destruct (negb pos && _); [intros E; by destruct (Hrej _ _ _ _ E)|]. destruct (pos && _); [intros E; by destruct (Hrej _ _ _ _ E)|].
  destruct (match Connect.pprev pindex with Some _ => _ | None => _ end) as [fc|]; [|done]. cbn [mbind option_bind].
  destruct (Connect.connect_txs _ _ _ _ _ _ _ _) as [[[[x y]|t] c2]|] eqn:Ec; cbn [mbind option_bind]; [| |done].
  { pose proof (connect_txs_false _ _ _ _ _ _ _ _ _ _ Ec) as Hx. cbn in Hx. subst x. intros E. by injection E. }
  unfold Connect.connect_end. destruct (Connect.pprev pindex) as [[[ph pheight] psupply]|]; [|done]. cbn [mbind option_bind].
  destruct (negb (_ <=? _)); [intros E; by destruct (Hrej _ _ _ _ E)|].
  destruct (Connect.wait _) as [all|]; [|done]. cbn [mbind option_bind].
  destruct all; cbn [negb]; [|intros E; by destruct (Hrej _ _ _ _ E)]. intros E. by injection E as _ <- <- <-.
Qed.

(** A block that is disconnected leaves its predecessor as the best block. *)
Lemma DisconnectBlock_best block pindex c c' prev height supply : Connect.pprev pindex = Some (prev, height, supply) →
  Connect.DisconnectBlock block pindex c = Some (Connect.DISCONNECT_OK, c') → Coins.hashBlock c' = prev.
Proof.
  intros Hp. unfold Connect.DisconnectBlock. destruct (Coins.cache_GetBestBlock c) as [best c1]. destruct (negb (bool_decide _)); [done|].
  destruct (Connect.undo pindex) as [u|]; [|done]. rewrite Hp. cbn [mbind option_bind]. destruct (negb _); [done|].
  destruct (Connect.disconnect_txs _ _ _) as [[r c2]|]; [|done]. cbn [mbind option_bind]. destruct r; [| |done]; intros E; by injection E as _ <-.
Qed.
End Rejects.

(** ** The instance *)

Section Instance.
Context {V W : Type} `{Coins.CoinsView V}.
Context (X11 : list Z → Tx.uint256) (genesis : Tx.uint256) (env : heap → W → Connect.Env).
Context (read : W → Activate.CDiskBlockPos → option Block.CBlock) (undo_data : W → ptr → option Connect.CBlockUndo) (money_supply : W → ptr → Z).
Context (after_connect : ptr → Block.CBlock → Connect.CBlockIndex → W → W) (after_disconnect : ptr → Block.CBlock → W → W).
Context (FlushStateToDisk : Activate.FlushStateMode → W → Coins.cache V → Tx.CValidationState → bool * Tx.CValidationState * bool * Coins.cache V).

Hypothesis env_hash : ∀ h w, @Connect.HashX11KVS (env h w) = X11.
Hypothesis env_genesis : ∀ h w, @Connect.hashGenesisBlock (env h w) = genesis.
(** [CheckBlock] leaves the state as it is when it accepts a block. *)
Hypothesis check_keeps : ∀ h w b f g st st' e, @Connect.check_block (env h w) b f g st = Some (true, st', e) → st' = st.
(** Writing to disk does not change the best block, and fails with [AbortNode] only. *)
Hypothesis flush_keeps : ∀ mode w c st ok st' written c', FlushStateToDisk mode w c st = (ok, st', written, c') →
  Coins.hashBlock c' = Coins.hashBlock c ∧ if ok then Tx.mode st' = Tx.mode st else Tx.mode st' = Tx.MODE_ERROR.

(** The entry as [Connect] sees it; whether its scripts are verified is not read there. *)
Definition index_entry (h : heap) (w : W) (p : ptr) (e : CBlockIndex) : Connect.CBlockIndex :=
  Connect.mkIndex (phashBlock e) (nHeight e)
    (q ← pprev e; eq ← h !! q; Some (phashBlock eq, nHeight eq, money_supply w q)) (undo_data w p) false (money_supply w p).

(** [CCoinsViewCache view(pcoinsTip)] and [assert(view.Flush())]. *)
Definition new_view (c : Coins.cache V) : Coins.cache (Coins.cache V) := Coins.mkCache c ∅ Tx.UINT256_ZERO.
Definition flushed (view : Coins.cache (Coins.cache V)) : option (Coins.cache V) :=
  '(ok, view) ← Coins.Flush view; if ok : bool then Some (Coins.base view) else None.

Definition connect (h : heap) (b : Block.CBlock) (p : ptr) (already : bool) (w : W) (c : Coins.cache V) (st : Tx.CValidationState)
  : option (bool * Tx.CValidationState * bool * W * Coins.cache V) :=
  e ← h !! p;
  '(ok, st, pindex, view) ← @Connect.ConnectBlock (Coins.cache V) _ (env h w) b false already (index_entry h w p e) (new_view c) st;
  let w := after_connect p b pindex w in
  if ok : bool then c ← flushed view; Some (true, st, Connect.valid_scripts pindex, w, c)
  else Some (false, st, Connect.valid_scripts pindex, w, c).

Definition disconnect (h : heap) (b : Block.CBlock) (p : ptr) (w : W) (c : Coins.cache V) : option (Activate.DisconnectResult * W * Coins.cache V) :=
  e ← h !! p;
  '(r, view) ← @Connect.DisconnectBlock (Coins.cache V) _ (env h w) b (index_entry h w p e) (new_view c);
  match r with
  | Connect.DISCONNECT_OK => c ← flushed view; Some (Activate.DISCONNECT_OK, after_disconnect p b w, c)
  | Connect.DISCONNECT_UNCLEAN => Some (Activate.DISCONNECT_UNCLEAN, after_disconnect p b w, c)
  | Connect.DISCONNECT_FAILED => Some (Activate.DISCONNECT_FAILED, w, c)
  end.

#[export] Instance node_state : Activate.ChainState Block.CBlock W (Coins.cache V) := {|
  Activate.GetHash := Block.GetHash X11;
  Activate.vtx_size b := Z.of_nat (length (Block.vtx b));
  Activate.read_block := read;
  Activate.ConnectBlock := connect;
  Activate.DisconnectBlock := disconnect;
  Activate.FlushStateToDisk := FlushStateToDisk
|}.

Lemma flushed_best view c : flushed view = Some c → Coins.hashBlock c = Coins.hashBlock view.
Proof using Type.
  unfold flushed, Coins.Flush. cbn. unfold Coins.cache_BatchWrite. destruct (map_fold _ _ _) as [m|]; [|done]. cbn. by intros [= <-].
Qed.

(** The tree has one block with the first hash, and it is the root. *)
Definition rooted (h : heap) : Prop :=
  (∃ g e, h !! g = Some e ∧ phashBlock e = genesis) ∧ ∀ p e, h !! p = Some e → phashBlock e = genesis → pprev e = None.

Lemma rooted_shape h : rooted (Activate.shape h) ↔ rooted h.
Proof using Type.
  unfold rooted, Activate.shape. setoid_rewrite lookup_fmap. setoid_rewrite fmap_Some. split; intros [(g & e & He & Hg) Hr]; split.
  - destruct He as (e0 & He & ->). by exists g, e0.
  - intros p e0 Hp Heq. by apply (Hr p (set_status 0 e0)); [exists e0|].
  - exists g, (set_status 0 e). split; [by exists e | done].
  - intros p e0 (e1 & Hp & ->) Heq. by apply (Hr p e1).
Qed.

#[export, program] Instance node_laws : Activate.ChainStateLaws Block.CBlock W (Coins.cache V) := {|
  Activate.stands h p _ c := rooted h ∧ ∃ e, h !! p = Some e ∧ Coins.hashBlock c = phashBlock e
|}.
Next Obligation.
Proof using All.
  intros h b p e q already w c st ok st' reached w' c' [Hroot (eq & Heq & Hbest)] He Hq Hb Hst.
  unfold Activate.ConnectBlock, node_state, connect. rewrite He. cbn [mbind option_bind].
  destruct (@Connect.ConnectBlock _ _ _ _ _ _ _ _ _) as [[[[ok1 st1] pindex] view]|] eqn:E; [|done]. cbn [mbind option_bind]. destruct ok1.
  - apply ConnectBlock_true in E as (-> & Hv & Hh); [|by intros; eapply check_keeps|].
    + destruct (flushed view) as [c1|] eqn:Ef; [|done]. cbn [mbind option_bind]. intros E. injection E as <- <- <- <- <-.
      split; [done|]. split; [done|]. split; [done|]. exists (set_status 0 e). unfold Activate.shape. rewrite lookup_fmap, He.
      split; [done|]. by rewrite (flushed_best _ _ Ef), Hh.
    + rewrite env_hash, env_genesis. change (Activate.GetHash b) with (Block.GetHash X11 b) in Hb. rewrite Hb. intros Hg.
      destruct (proj1 (rooted_shape h) Hroot) as [_ Hr]. by rewrite (Hr p e He Hg) in Hq.
  - intros E'. injection E' as <- <- <- <- <-. split; [done|]. by exists eq.
Qed.
Next Obligation.
Proof using All.
  intros h b p e q w c w' c' [Hroot (e1 & He1 & Hbest)] He Hq Hb. unfold Activate.DisconnectBlock, node_state, disconnect.
  rewrite He. cbn [mbind option_bind]. destruct (@Connect.DisconnectBlock _ _ _ _ _ _) as [[r view]|] eqn:E; [|done]. cbn [mbind option_bind].
  destruct r; [|done|done]. destruct (flushed view) as [c1|] eqn:Ef; [|done]. cbn [mbind option_bind]. intros E'. injection E' as <- <-.
  split; [done|]. unfold Activate.shape. setoid_rewrite lookup_fmap.
  destruct (h !! q) as [eq|] eqn:Heq.
  - exists (set_status 0 eq). split; [done|]. rewrite (flushed_best _ _ Ef). eapply DisconnectBlock_best; [|exact E].
    unfold index_entry. cbn [Connect.pprev]. rewrite Hq. cbn [mbind option_bind]. by rewrite Heq.
  - exfalso. revert E. unfold Connect.DisconnectBlock, index_entry. rewrite Hq. cbn [mbind option_bind Connect.pprev]. rewrite Heq. cbn [mbind option_bind].
    destruct (Coins.cache_GetBestBlock _) as [best c2]. destruct (negb _); [done|]. by destruct (Connect.undo _).
Qed.
Next Obligation.
Proof using All.
  intros h p w c mode st ok st' written c' [Hroot (e & He & Hb)] E. destruct (flush_keeps _ _ _ _ _ _ _ _ E) as [Hk Hm]. split; [|done].
  split; [done|]. exists e. by rewrite Hk.
Qed.
Next Obligation.
Proof using Type.
  intros h h' p w c Hl Hsub Hnew [[(g & eg & Hg & Hgen) Hr] (e & He & Hb)]. split; [|exists e; split; [by eapply lookup_weaken | done]]. split.
  - exists g, eg. split; [by eapply lookup_weaken | done].
  - intros x ex Hx Hgx. destruct (h !! x) as [ex'|] eqn:Ex.
    + rewrite (lookup_weaken _ _ _ _ Ex Hsub) in Hx. injection Hx as <-. by apply (Hr x).
    + by destruct (Hnew x ex g eg Ex Hx Hg); rewrite Hgx, Hgen.
Qed.
(** After an activation that succeeds, the best block of the view is the new tip. *)
Lemma activated_best pblock already st (s : Activate.node W (Coins.cache V)) t st' s' :
  Activate.inv s t t → Activate.holds s t → Activate.orderly s → Tx.mode st = Tx.MODE_VALID →
  Activate.ActivateBestChain st pblock already s = Some (true, st', s') →
  ∃ t' e', Activate.Tip s' = Some t' ∧ Activate.hp s' !! t' = Some e' ∧ Coins.hashBlock (Activate.pcoinsTip s') = phashBlock e'.
Proof using All.
  intros Hi Hh Ho Hst E. destruct (Activate.ActivateBestChain_spec pblock already st s t t Hi Hh Ho Hst) as (ok & st1 & s1 & E1 & _ & Hok).
  rewrite E in E1. injection E1 as <- <- <-. destruct Hok as (R & (t' & Hi' & [_ (e & He & Hb)] & _) & _). unfold Activate.shape in He.
  rewrite lookup_fmap in He. apply fmap_Some in He as (e' & He' & ->). exists t', e'. split; [by eapply Activate.inv_tip | done].
Qed.
End Instance.
End Node.
