(* ===== verification/Mempool.v ===== *)
(** * src/txmempool.{h,cpp}: the memory pool

    The pool holds transactions that are not in a block yet.  It keeps, besides the entries,
    the spender of every output ([mapNextTx]), the direct parents and children of every entry
    ([mapLinks]), and in every entry the number, the size and the fees of the entry with all its
    descendants, which the operations keep up to date by walking ancestors or descendants.

    Iterators into [mapTx] are transaction hashes; a set of iterators is a set of hashes, in the
    order of the hashes.  [CInPoint] holds a pointer to a transaction of the pool: its hash.  Sizes
    of objects in memory and the index by fee rate, which compares numbers of type double, are
    those of the class [PoolEnv].  Left out are priorities and the rolling minimum fee (of type
    double), the fee estimator, logs, and the conversion of limits to messages.

    [None] is a failed assertion, the use of an iterator without an entry, or the end of the fuel of
    a loop; the theorems of [Pool] show that none of them happens. *)

From stdpp Require Import base option gmap fin_maps sets sorting relations list.
From Stdlib Require Import ZArith Lia.
From S2P Require Import Prelude Serialize Tx Coins Stake.
Open Scope Z_scope.

Module Mempool.

Abbreviation uint256 := Tx.uint256.
Abbreviation COutPoint := Tx.COutPoint.
Abbreviation CTransaction := Tx.CTransaction.
Abbreviation setEntries := (gset uint256).

(** ** Data *)

Definition MEMPOOL_HEIGHT : Z := 0x7FFFFFFF.

(** [uint64_t] sums. *)
Definition u64 (x : Z) : Z := x mod 2 ^ 64.

(** [CTxMemPoolEntry] without the priority. *)
Record CTxMemPoolEntry : Type := mkEntry {
  tx : CTransaction; nFee : Z; nTxSize : Z; nModSize : Z; nUsageSize : Z; nTime : Z; entryHeight : Z; hadNoDependencies : bool;
  inChainInputValue : Z; spendsCoinbaseOrCoinstake : bool; sigOpCount : Z; feeDelta : Z;
  nCountWithDescendants : Z; nSizeWithDescendants : Z; nFeesWithDescendants : Z
}.

Record TxLinks : Type := mkLinks { parents : setEntries; children : setEntries }.
Definition no_links : TxLinks := mkLinks ∅ ∅.

Record CTxMemPool : Type := mkPool {
  mapTx : gmap uint256 CTxMemPoolEntry; mapLinks : gmap uint256 TxLinks; mapNextTx : gmap COutPoint (uint256 * Z); mapDeltas : gmap uint256 Z;
  totalTxSize : Z; cachedInnerUsage : Z; nTransactionsUpdated : Z
}.

(** Sizes in memory: of a transaction, and of the nodes of a set of entries, of [mapTx],
    [mapNextTx], [mapDeltas] and [mapLinks]; the first entry in the order of fee rates. *)
Class PoolEnv : Type := {
  tx_usage : CTransaction → Z;
  set_node : Z; entry_node : Z; next_node : Z; delta_node : Z; link_node : Z;
  lowest_feerate : gmap uint256 CTxMemPoolEntry → option uint256
}.

Definition with_tx (m : gmap uint256 CTxMemPoolEntry) (P : CTxMemPool) : CTxMemPool :=
  mkPool m (mapLinks P) (mapNextTx P) (mapDeltas P) (totalTxSize P) (cachedInnerUsage P) (nTransactionsUpdated P).
Definition with_links (m : gmap uint256 TxLinks) (P : CTxMemPool) : CTxMemPool :=
  mkPool (mapTx P) m (mapNextTx P) (mapDeltas P) (totalTxSize P) (cachedInnerUsage P) (nTransactionsUpdated P).
Definition with_next (m : gmap COutPoint (uint256 * Z)) (P : CTxMemPool) : CTxMemPool :=
  mkPool (mapTx P) (mapLinks P) m (mapDeltas P) (totalTxSize P) (cachedInnerUsage P) (nTransactionsUpdated P).
Definition with_deltas (m : gmap uint256 Z) (P : CTxMemPool) : CTxMemPool :=
  mkPool (mapTx P) (mapLinks P) (mapNextTx P) m (totalTxSize P) (cachedInnerUsage P) (nTransactionsUpdated P).
Definition add_total (n : Z) (P : CTxMemPool) : CTxMemPool :=
  mkPool (mapTx P) (mapLinks P) (mapNextTx P) (mapDeltas P) (u64 (totalTxSize P + n)) (cachedInnerUsage P) (nTransactionsUpdated P).
Definition add_usage (n : Z) (P : CTxMemPool) : CTxMemPool :=
  mkPool (mapTx P) (mapLinks P) (mapNextTx P) (mapDeltas P) (totalTxSize P) (u64 (cachedInnerUsage P + n)) (nTransactionsUpdated P).
Definition add_updated (n : Z) (P : CTxMemPool) : CTxMemPool :=
  mkPool (mapTx P) (mapLinks P) (mapNextTx P) (mapDeltas P) (totalTxSize P) (cachedInnerUsage P) ((nTransactionsUpdated P + n) mod 2 ^ 32).

(** The order of a set of iterators, [begin()]. *)
Definition hash_le (a b : uint256) : Prop := Stake.hash_lt b a = false.
#[export] Instance hash_le_dec : RelDecision hash_le := λ a b, decide (Stake.hash_lt b a = false).
Definition in_order (X : setEntries) : list uint256 := merge_sort hash_le (elements X).
Definition begin (X : setEntries) : option uint256 := head (in_order X).

(** [for (it : list) ..] where the body changes a state and may fail. *)
Fixpoint each {A S : Type} (f : A → S → option S) (l : list A) (s : S) : option S :=
  match l with
  | [] => Some s
  | a :: l => s ← f a s; each f l s
  end.

Section Operations.
Context {env : PoolEnv}.
Implicit Types P : CTxMemPool.

(** ** Entries *)

(** The constructor: the sum of the outputs throws, or the assertion on the inputs fails. *)
Definition new_entry (tx : CTransaction) (fee time height : Z) (poolHasNoInputsOf : bool) (inChain : Z) (spendsCoinbase : bool) (sigOps : Z)
  : option CTxMemPoolEntry :=
  let size := Tx.GetTotalSize tx in
  valueOut ← Tx.GetValueOut tx;
  if inChain <=? valueOut + fee then
    Some (mkEntry tx fee size (Tx.CalculateModifiedSize tx size) (tx_usage tx) time height poolHasNoInputsOf inChain spendsCoinbase sigOps 0 1 size fee)
  else None.

Definition IsDirty (e : CTxMemPoolEntry) : bool := nCountWithDescendants e =? 0.

Definition set_state (count size fees : Z) (e : CTxMemPoolEntry) : CTxMemPoolEntry :=
  mkEntry (tx e) (nFee e) (nTxSize e) (nModSize e) (nUsageSize e) (nTime e) (entryHeight e) (hadNoDependencies e) (inChainInputValue e)
    (spendsCoinbaseOrCoinstake e) (sigOpCount e) (feeDelta e) count size fees.

Definition UpdateFeeDelta (newFeeDelta : Z) (e : CTxMemPoolEntry) : CTxMemPoolEntry :=
  mkEntry (tx e) (nFee e) (nTxSize e) (nModSize e) (nUsageSize e) (nTime e) (entryHeight e) (hadNoDependencies e) (inChainInputValue e)
    (spendsCoinbaseOrCoinstake e) (sigOpCount e) newFeeDelta (nCountWithDescendants e) (nSizeWithDescendants e) (nFeesWithDescendants e).

Definition SetDirty (e : CTxMemPoolEntry) : CTxMemPoolEntry := set_state 0 (nTxSize e) (nFee e) e.

Definition GetModifiedFee (e : CTxMemPoolEntry) : Z := nFee e + feeDelta e.

(** The conversions to [int64_t] are those of the assertions. *)
Definition UpdateState (modifySize modifyFee modifyCount : Z) (e : CTxMemPoolEntry) : option CTxMemPoolEntry :=
  if IsDirty e then Some e
  else
    let size := u64 (nSizeWithDescendants e + modifySize) in
    if negb (Serialize.signed 64 size >? 0) then None
    else
      let fees := Tx.wrap64 (nFeesWithDescendants e + modifyFee) in
      if negb (fees >=? 0) then None
      else
        let count := u64 (nCountWithDescendants e + modifyCount) in
        if negb (Serialize.signed 64 count >? 0) then None
        else Some (set_state count size fees e).

(** [mapTx.modify(it, f)]. *)
Definition modify (it : uint256) (f : CTxMemPoolEntry → option CTxMemPoolEntry) P : option CTxMemPool :=
  e ← mapTx P !! it;
  e ← f e;
  Some (with_tx (<[it := e]> (mapTx P)) P).

(** ** Links *)

Definition GetMemPoolParents P (entry : uint256) : option setEntries :=
  _ ← mapTx P !! entry;
  l ← mapLinks P !! entry;
  Some (parents l).
Definition GetMemPoolChildren P (entry : uint256) : option setEntries :=
  _ ← mapTx P !! entry;
  l ← mapLinks P !! entry;
  Some (children l).

(** [mapLinks[entry]] makes an entry if there is none. *)
Definition links_at P (entry : uint256) : TxLinks := default no_links (mapLinks P !! entry).

Definition UpdateChild (entry child : uint256) (add : bool) P : CTxMemPool :=
  let l := links_at P entry in
  if add then
    add_usage (if decide (child ∈ children l) then 0 else set_node)
      (with_links (<[entry := mkLinks (parents l) ({[child]} ∪ children l)]> (mapLinks P)) P)
  else
    add_usage (if decide (child ∈ children l) then - set_node else 0)
      (with_links (<[entry := mkLinks (parents l) (children l ∖ {[child]})]> (mapLinks P)) P).

Definition UpdateParent (entry parent : uint256) (add : bool) P : CTxMemPool :=
  let l := links_at P entry in
  if add then
    add_usage (if decide (parent ∈ parents l) then 0 else set_node)
      (with_links (<[entry := mkLinks ({[parent]} ∪ parents l) (children l)]> (mapLinks P)) P)
  else
    add_usage (if decide (parent ∈ parents l) then - set_node else 0)
      (with_links (<[entry := mkLinks (parents l ∖ {[parent]}) (children l)]> (mapLinks P)) P).

(** ** Ancestors and descendants *)

(** The limit that stopped [CalculateMemPoolAncestors]: [errString]. *)
Inductive limit_error : Type :=
| TooManyParents | DescendantSize (h : uint256) | TooManyDescendants (h : uint256) | AncestorSize | TooManyAncestors.

Record limits : Type := mkLimits { limitAncestorCount : Z; limitAncestorSize : Z; limitDescendantCount : Z; limitDescendantSize : Z }.
Definition nNoLimit : limits := mkLimits (2 ^ 64 - 1) (2 ^ 64 - 1) (2 ^ 64 - 1) (2 ^ 64 - 1).

(** The parents of a transaction that are in the pool. *)
Fixpoint find_parents P (limit : Z) (vin : list Tx.CTxIn) (parentHashes : setEntries) : option limit_error * setEntries :=
  match vin with
  | [] => (None, parentHashes)
  | txin :: vin =>
      let h := (Tx.prevout txin).1 in
      match mapTx P !! h with
      | Some _ =>
          let parentHashes := {[h]} ∪ parentHashes in
          if u64 (Z.of_nat (size parentHashes) + 1) >? limit then (Some TooManyParents, parentHashes)
          else find_parents P limit vin parentHashes
      | None => find_parents P limit vin parentHashes
      end
  end.

(** [for (phash : setMemPoolParents)]. *)
Fixpoint add_parents (limit : Z) (l : list uint256) (setAncestors parentHashes : setEntries) : bool * setEntries :=
  match l with
  | [] => (true, parentHashes)
  | phash :: l =>
      let parentHashes := if decide (phash ∈ setAncestors) then parentHashes else {[phash]} ∪ parentHashes in
      if u64 (Z.of_nat (size parentHashes) + Z.of_nat (size setAncestors) + 1) >? limit then (false, parentHashes)
      else add_parents limit l setAncestors parentHashes
  end.

(** [while (!parentHashes.empty())]: every turn adds an ancestor. *)
Fixpoint ancestors_loop (fuel : nat) P (entry : CTxMemPoolEntry) (lim : limits) (parentHashes setAncestors : setEntries) (totalSizeWithAncestors : Z)
  : option (option limit_error * setEntries) :=
  match begin parentHashes with
  | None => Some (None, setAncestors)
  | Some stageit =>
      e ← mapTx P !! stageit;
      let setAncestors := {[stageit]} ∪ setAncestors in
      let parentHashes := parentHashes ∖ {[stageit]} in
      let totalSizeWithAncestors := u64 (totalSizeWithAncestors + nTxSize e) in
      if u64 (nSizeWithDescendants e + nTxSize entry) >? limitDescendantSize lim then Some (Some (DescendantSize stageit), setAncestors)
      else if u64 (nCountWithDescendants e + 1) >? limitDescendantCount lim then Some (Some (TooManyDescendants stageit), setAncestors)
      else if totalSizeWithAncestors >? limitAncestorSize lim then Some (Some AncestorSize, setAncestors)
      else
        setMemPoolParents ← GetMemPoolParents P stageit;
        let '(ok, parentHashes) := add_parents (limitAncestorCount lim) (in_order setMemPoolParents) setAncestors parentHashes in
        if negb ok then Some (Some TooManyAncestors, setAncestors)
        else match fuel with O => None | S fuel => ancestors_loop fuel P entry lim parentHashes setAncestors totalSizeWithAncestors end
  end.

(** The error, if a limit was hit, and [setAncestors], which starts empty. *)
Definition CalculateMemPoolAncestors (entry : CTxMemPoolEntry) (lim : limits) (fSearchForParents : bool) P : option (option limit_error * setEntries) :=
  '(err, parentHashes) ← (if fSearchForParents then Some (find_parents P (limitAncestorCount lim) (Tx.vin (tx entry)) ∅)
                          else l ← GetMemPoolParents P (Tx.GetHash (tx entry)); Some (None, l));
  match (err : option limit_error) with
  | Some _ => Some (err, ∅)
  | None => ancestors_loop (size (mapTx P)) P entry lim parentHashes ∅ (nTxSize entry)
  end.

(** [while (!stage.empty())]: every turn adds a descendant. *)
Fixpoint descendants_loop (fuel : nat) P (stage setDescendants : setEntries) : option setEntries :=
  match begin stage with
  | None => Some setDescendants
  | Some it =>
      let setDescendants := {[it]} ∪ setDescendants in
      let stage := stage ∖ {[it]} in
      setChildren ← GetMemPoolChildren P it;
      let stage := stage ∪ (setChildren ∖ setDescendants) in
      match fuel with O => None | S fuel => descendants_loop fuel P stage setDescendants end
  end.

Definition CalculateDescendants P (entryit : uint256) (setDescendants : setEntries) : option setEntries :=
  descendants_loop (size (mapTx P)) P (if decide (entryit ∈ setDescendants) then ∅ else {[entryit]}) setDescendants.

(** ** Adding and removing entries *)

Definition UpdateAncestorsOf (add : bool) (it : uint256) (setAncestors : setEntries) P : option CTxMemPool :=
  parentIters ← GetMemPoolParents P it;
  let P := foldl (λ P piter, UpdateChild piter it add P) P (in_order parentIters) in
  e ← mapTx P !! it;
  let updateCount := if add then 1 else -1 in
  each (λ ancestorIt, modify ancestorIt (UpdateState (updateCount * nTxSize e) (updateCount * nFee e) updateCount)) (in_order setAncestors) P.

Definition UpdateChildrenForRemoval (it : uint256) P : option CTxMemPool :=
  setMemPoolChildren ← GetMemPoolChildren P it;
  Some (foldl (λ P updateIt, UpdateParent updateIt it false P) P (in_order setMemPoolChildren)).

(** One turn of the first loop. *)
Definition update_for_remove (removeIt : uint256) P : option CTxMemPool :=
  entry ← mapTx P !! removeIt;
  '(_, setAncestors) ← CalculateMemPoolAncestors entry nNoLimit false P;
  UpdateAncestorsOf false removeIt setAncestors P.

Definition UpdateForRemoveFromMempool (entriesToRemove : setEntries) P : option CTxMemPool :=
  P ← each update_for_remove (in_order entriesToRemove) P;
  each UpdateChildrenForRemoval (in_order entriesToRemove) P.

(** [mapNextTx[tx.vin[i].prevout] = CInPoint(&tx, i)]. *)
Fixpoint mark_spent (h : uint256) (i : Z) (vin : list Tx.CTxIn) (m : gmap COutPoint (uint256 * Z)) : gmap COutPoint (uint256 * Z) :=
  match vin with
  | [] => m
  | txin :: vin => mark_spent h (i + 1) vin (<[Tx.prevout txin := (h, i)]> m)
  end.

Definition setParentTransactions (t : CTransaction) : setEntries := list_to_set (map (λ txin, (Tx.prevout txin).1) (Tx.vin t)).

(** A link to every parent that is in the pool. *)
Definition link_parents (newit : uint256) (l : list uint256) P : CTxMemPool :=
  foldl (λ P phash, match mapTx P !! phash with Some _ => UpdateParent newit phash true P | None => P end) P l.

(** [addUnchecked(hash, entry, setAncestors)]; an entry with this hash that is there stays. *)
Definition addUnchecked_to (h : uint256) (entry : CTxMemPoolEntry) (setAncestors : setEntries) P : option CTxMemPool :=
  let newit := Tx.GetHash (tx entry) in
  let P := with_tx (match mapTx P !! newit with Some _ => mapTx P | None => <[newit := entry]> (mapTx P) end) P in
  let P := with_links (match mapLinks P !! newit with Some _ => mapLinks P | None => <[newit := no_links]> (mapLinks P) end) P in
  let P := add_usage (nUsageSize entry) P in
  e ← mapTx P !! newit;
  let P := with_next (mark_spent newit 0 (Tx.vin (tx e)) (mapNextTx P)) P in
  let P := link_parents newit (in_order (setParentTransactions (tx e))) P in
  P ← UpdateAncestorsOf true newit setAncestors P;
  P ← match mapDeltas P !! h with
      | Some delta => if delta =? 0 then Some P else modify newit (λ e, Some (UpdateFeeDelta delta e)) P
      | None => Some P
      end;
  Some (add_total (nTxSize entry) (add_updated 1 P)).

(** [addUnchecked(hash, entry)]. *)
Definition addUnchecked (h : uint256) (entry : CTxMemPoolEntry) P : option CTxMemPool :=
  '(_, setAncestors) ← CalculateMemPoolAncestors entry nNoLimit true P;
  addUnchecked_to h entry setAncestors P.

Definition set_usage (X : setEntries) : Z := set_node * Z.of_nat (size X).

Definition removeUnchecked (it : uint256) P : option CTxMemPool :=
  e ← mapTx P !! it;
  let P := with_next (foldl (λ m txin, delete (Tx.prevout txin) m) (mapNextTx P) (Tx.vin (tx e))) P in
  let P := add_total (- nTxSize e) P in
  let P := add_usage (- nUsageSize e) P in
  let l := links_at P it in
  let P := add_usage (- (set_usage (parents l) + set_usage (children l))) P in
  let P := with_links (delete it (mapLinks P)) P in
  let P := with_tx (delete it (mapTx P)) P in
  Some (add_updated 1 P).

Definition RemoveStaged (stage : setEntries) P : option CTxMemPool :=
  P ← UpdateForRemoveFromMempool stage P;
  each removeUnchecked (in_order stage) P.

(** The children of a transaction that is not in the pool, by its outputs. *)
Fixpoint children_of_outputs P (h : uint256) (i : nat) (outs : nat) : option setEntries :=
  match outs with
  | O => Some ∅
  | S outs =>
      rest ← children_of_outputs P h (S i) outs;
      match mapNextTx P !! (h, Z.of_nat i) with
      | None => Some rest
      | Some (next, _) => _ ← mapTx P !! next; Some ({[next]} ∪ rest)
      end
  end.

(** [for (it : set) CalculateDescendants(it, stage)]. *)
Definition all_descendants P (X : setEntries) : option setEntries := each (CalculateDescendants P) (in_order X) ∅.

(** The transactions removed, and the pool. *)
Definition remove (origTx : CTransaction) (fRecursive : bool) P : option (list CTransaction * CTxMemPool) :=
  txToRemove ← (if decide (is_Some (mapTx P !! Tx.GetHash origTx)) then Some {[Tx.GetHash origTx]}
                else if fRecursive then children_of_outputs P (Tx.GetHash origTx) 0 (length (Tx.vout origTx))
                else Some ∅);
  setAllRemoves ← (if fRecursive then all_descendants P txToRemove else Some txToRemove);
  removed ← mapM (λ it, tx <$> mapTx P !! it) (in_order setAllRemoves);
  P ← RemoveStaged setAllRemoves P;
  Some (removed, P).

Definition remove_all (l : list CTransaction) P : option CTxMemPool := each (λ t P, r ← remove t true P; Some r.2) l P.

(** An input is spent or immature, by [pcoins->AccessCoin]; the assertion that is made only if the
    node was told to check its pool is left out. *)
Definition immature (coin : COutPoint → Coins.Coin) (nMemPoolHeight maturity : Z) P (e : CTxMemPoolEntry) : bool :=
  existsb (λ txin, match mapTx P !! (Tx.prevout txin).1 with
                   | Some _ => false
                   | None =>
                       let c := coin (Tx.prevout txin) in
                       Coins.IsSpent c || ((Coins.fCoinBase c || Coins.fCoinStake c) && (nMemPoolHeight - Coins.nHeight c <? maturity))
                   end) (Tx.vin (tx e)).

(** [CheckFinalTx] is [final]; [mapTx] is in the order of a hash table. *)
Definition removeForReorg (final : CTransaction → bool) (coin : COutPoint → Coins.Coin) (nMemPoolHeight maturity : Z) P : option CTxMemPool :=
  remove_all (map (λ x : uint256 * CTxMemPoolEntry, tx x.2)
    (List.filter (λ x : uint256 * CTxMemPoolEntry, negb (final (tx x.2)) || (spendsCoinbaseOrCoinstake x.2 && immature coin nMemPoolHeight maturity P x.2))
      (map_to_list (mapTx P)))) P.

(** One input of [removeConflicts]. *)
Definition remove_conflict (t : CTransaction) (txin : Tx.CTxIn) (s : list CTransaction * CTxMemPool) : option (list CTransaction * CTxMemPool) :=
  match mapNextTx s.2 !! Tx.prevout txin with
  | None => Some s
  | Some (conflict, _) =>
      e ← mapTx s.2 !! conflict;
      if decide (Tx.GetHash (tx e) = Tx.GetHash t) then Some s
      else r ← remove (tx e) true s.2; Some (s.1 ++ r.1, r.2)
  end.
Definition removeConflicts (t : CTransaction) (removed : list CTransaction) P : option (list CTransaction * CTxMemPool) :=
  each (remove_conflict t) (Tx.vin t) (removed, P).

Definition ClearPrioritisation (h : uint256) P : CTxMemPool := with_deltas (delete h (mapDeltas P)) P.

(** One transaction of [removeForBlock]. *)
Definition remove_mined (t : CTransaction) (s : list CTransaction * CTxMemPool) : option (list CTransaction * CTxMemPool) :=
  r ← remove t false s.2;
  '(conflicts, P) ← removeConflicts t s.1 r.2;
  Some (conflicts, ClearPrioritisation (Tx.GetHash t) P).
Definition removeForBlock (vtx : list CTransaction) P : option (list CTransaction * CTxMemPool) :=
  each remove_mined vtx ([], P).

Definition clear P : CTxMemPool := add_updated 1 (mkPool ∅ ∅ ∅ (mapDeltas P) 0 0 (nTransactionsUpdated P)).

(** ** Queries and priorities *)

Definition isSpent P (o : COutPoint) : bool := bool_decide (is_Some (mapNextTx P !! o)).
Definition exists_tx P (h : uint256) : bool := bool_decide (is_Some (mapTx P !! h)).
Definition exists_output P (o : COutPoint) : bool :=
  match mapTx P !! o.1 with Some e => o.2 <? Z.of_nat (length (Tx.vout (tx e))) | None => false end.
Definition lookup_tx P (h : uint256) : option CTransaction := tx <$> mapTx P !! h.
Definition HasNoInputsOf P (t : CTransaction) : bool := forallb (λ txin, negb (exists_tx P (Tx.prevout txin).1)) (Tx.vin t).

Definition PrioritiseTransaction (h : uint256) (nFeeDelta : Z) P : option CTxMemPool :=
  let delta := Tx.wrap64 (default 0 (mapDeltas P !! h) + nFeeDelta) in
  let P := with_deltas (<[h := delta]> (mapDeltas P)) P in
  match mapTx P !! h with
  | Some _ => modify h (λ e, Some (UpdateFeeDelta delta e)) P
  | None => Some P
  end.
Definition ApplyDeltas P (h : uint256) (nFeeDelta : Z) : Z :=
  match mapDeltas P !! h with None => nFeeDelta | Some delta => Tx.wrap64 (nFeeDelta + delta) end.

(** [CCoinsViewMemPool] over a view that answers [base]. *)
Definition view_GetCoin P (base : COutPoint → option Coins.Coin) (o : COutPoint) : option Coins.Coin :=
  match lookup_tx P o.1 with
  | Some t => if o.2 <? Z.of_nat (length (Tx.vout t)) then (λ out, Coins.mkCoin false false out MEMPOOL_HEIGHT) <$> Tx.vout t !! Z.to_nat o.2 else None
  | None => match base o with Some c => if Coins.IsSpent c then None else Some c | None => None end
  end.
Definition view_HaveCoin P (base : COutPoint → bool) (o : COutPoint) : bool := exists_output P o || base o.

(** ** Limits on the pool *)

(** The entries before [time] in the order of entry times. *)
Definition older P (time : Z) : setEntries := dom (filter (λ x : uint256 * CTxMemPoolEntry, nTime x.2 < time) (mapTx P)).
Definition Expire (time : Z) P : option (nat * CTxMemPool) :=
  stage ← all_descendants P (older P time);
  P ← RemoveStaged stage P;
  Some (size stage, P).

Definition DynamicMemoryUsage P : Z :=
  u64 (entry_node * Z.of_nat (size (mapTx P)) + next_node * Z.of_nat (size (mapNextTx P)) + delta_node * Z.of_nat (size (mapDeltas P)) +
       link_node * Z.of_nat (size (mapLinks P)) + cachedInnerUsage P).

(** The inputs of removed transactions that are not in the pool and that nothing spends. *)
Definition no_spends P (txn : list CTransaction) : list COutPoint :=
  List.filter (λ o : COutPoint, negb (exists_tx P o.1) && negb (isSpent P o)) (flat_map (λ t, map Tx.prevout (Tx.vin t)) txn).

(** [while (DynamicMemoryUsage() > sizelimit)]: every turn removes an entry. *)
Fixpoint trim_loop (fuel : nat) (sizelimit : Z) P (pvNoSpendsRemaining : list COutPoint) : option (list COutPoint * CTxMemPool) :=
  if DynamicMemoryUsage P >? sizelimit then
    it ← lowest_feerate (mapTx P);
    stage ← CalculateDescendants P it ∅;
    txn ← mapM (λ x, tx <$> mapTx P !! x) (in_order stage);
    P ← RemoveStaged stage P;
    match fuel with O => None | S fuel => trim_loop fuel sizelimit P (pvNoSpendsRemaining ++ no_spends P txn) end
  else Some (pvNoSpendsRemaining, P).
Definition TrimToSize (sizelimit : Z) P : option (list COutPoint * CTxMemPool) := trim_loop (size (mapTx P)) sizelimit P [].

(** ** Transactions of a disconnected block *)

Abbreviation cacheMap := (gmap uint256 setEntries).

(** [for (cacheEntry : cacheIt->second)]: the descendants so far and the count of those to visit. *)
Fixpoint visit_cached (setExclude stageEntries : setEntries) (l : list uint256) (setAllDescendants : setEntries) (n : Z) : setEntries * Z :=
  match l with
  | [] => (setAllDescendants, n)
  | cacheEntry :: l =>
      if decide (cacheEntry ∈ setAllDescendants) then visit_cached setExclude stageEntries l setAllDescendants n
      else visit_cached setExclude stageEntries l ({[cacheEntry]} ∪ setAllDescendants)
             (if decide (cacheEntry ∈ setExclude ∨ cacheEntry ∈ stageEntries) then n else n + 1)
  end.

(** [for (childEntry : setChildren)]: [None] if there are too many to visit. *)
Fixpoint visit_children (max : Z) (cached : cacheMap) (setExclude : setEntries) (l : list uint256) (stageEntries setAllDescendants : setEntries) (n : Z)
  : option (setEntries * setEntries * Z) :=
  match l with
  | [] => Some (stageEntries, setAllDescendants, n)
  | childEntry :: l =>
      let '(stageEntries, setAllDescendants, n) :=
        match cached !! childEntry with
        | Some X => let '(all, n) := visit_cached setExclude stageEntries (in_order X) setAllDescendants n in (stageEntries, all, n)
        | None =>
            if decide (childEntry ∈ setAllDescendants) then (stageEntries, setAllDescendants, n)
            else ({[childEntry]} ∪ stageEntries, setAllDescendants, if decide (childEntry ∈ stageEntries ∨ childEntry ∈ setExclude) then n else n + 1)
        end in
      if n >? max then None else visit_children max cached setExclude l stageEntries setAllDescendants n
  end.

(** [while (!stageEntries.empty())]: [Some None] is [return false]. *)
Fixpoint visit_loop (fuel : nat) (max : Z) (cached : cacheMap) (setExclude : setEntries) P (stageEntries setAllDescendants : setEntries) (n : Z)
  : option (option setEntries) :=
  match begin stageEntries with
  | None => Some (Some setAllDescendants)
  | Some cit =>
      e ← mapTx P !! cit;
      if IsDirty e then Some None
      else
        setChildren ← GetMemPoolChildren P cit;
        match visit_children max cached setExclude (in_order setChildren) (stageEntries ∖ {[cit]}) ({[cit]} ∪ setAllDescendants) n with
        | None => Some None
        | Some (stageEntries, setAllDescendants, n) =>
            match fuel with O => None | S fuel => visit_loop fuel max cached setExclude P stageEntries setAllDescendants n end
        end
  end.

(** The sizes and fees of the descendants that are not in the block. *)
Fixpoint sum_descendants P (l : list uint256) : option (Z * Z * Z) :=
  match l with
  | [] => Some (0, 0, 0)
  | cit :: l =>
      e ← mapTx P !! cit;
      '(modifySize, modifyFee, modifyCount) ← sum_descendants P l;
      Some (modifySize + nTxSize e, modifyFee + nFee e, modifyCount + 1)
  end.

(** [cachedDescendants[updateIt]] is made by the first descendant. *)
Definition cache_add (updateIt : uint256) (X : setEntries) (cached : cacheMap) : cacheMap :=
  if decide (X = ∅) then cached else <[updateIt := X ∪ default ∅ (cached !! updateIt)]> cached.

Definition UpdateForDescendants (updateIt : uint256) (maxDescendantsToVisit : Z) (cachedDescendants : cacheMap) (setExclude : setEntries) P
  : option (bool * cacheMap * CTxMemPool) :=
  stageEntries ← GetMemPoolChildren P updateIt;
  r ← visit_loop (size (mapTx P)) maxDescendantsToVisit cachedDescendants setExclude P stageEntries ∅ 0;
  match (r : option setEntries) with
  | None => Some (false, cachedDescendants, P)
  | Some setAllDescendants =>
      let X := setAllDescendants ∖ setExclude in
      '(modifySize, modifyFee, modifyCount) ← sum_descendants P (in_order X);
      P ← modify updateIt (UpdateState modifySize modifyFee modifyCount) P;
      Some (true, cache_add updateIt X cachedDescendants, P)
  end.

(** The spenders of the outputs of [h], by [mapNextTx] from [lower_bound]. *)
Definition spenders P (h : uint256) : list uint256 :=
  map (λ x : COutPoint * (uint256 * Z), x.2.1) (List.filter (λ x : COutPoint * (uint256 * Z), bool_decide (x.1.1 = h)) (map_to_list (mapNextTx P))).

(** [for (; iter != mapNextTx.end() && iter->first.hash == hash; ++iter)]. *)
Fixpoint link_children (it : uint256) (setAlreadyIncluded setChildren : setEntries) (l : list uint256) P : option CTxMemPool :=
  match l with
  | [] => Some P
  | childHash :: l =>
      _ ← mapTx P !! childHash;
      link_children it setAlreadyIncluded ({[childHash]} ∪ setChildren) l
        (if decide (childHash ∈ setChildren ∨ childHash ∈ setAlreadyIncluded) then P else UpdateParent childHash it true (UpdateChild it childHash true P))
  end.

Definition update_from_block (setAlreadyIncluded : setEntries) (h : uint256) (s : cacheMap * CTxMemPool) : option (cacheMap * CTxMemPool) :=
  match mapTx s.2 !! h with
  | None => Some s
  | Some _ =>
      P ← link_children h setAlreadyIncluded ∅ (spenders s.2 h) s.2;
      '(ok, cached, P) ← UpdateForDescendants h 100 s.1 setAlreadyIncluded P;
      P ← (if (ok : bool) then Some P else modify h (λ e, Some (SetDirty e)) P);
      Some (cached, P)
  end.

Definition UpdateTransactionsFromBlock (vHashesToUpdate : list uint256) P : option CTxMemPool :=
  r ← each (update_from_block (list_to_set vHashesToUpdate)) (reverse vHashesToUpdate) (∅, P);
  Some r.2.

(** ** The consistency check *)

(** The inputs of an entry: they are outputs of the pool or coins, and [mapNextTx] has them. *)
Fixpoint check_inputs (have_coin : COutPoint → bool) P (h : uint256) (i : Z) (vin : list Tx.CTxIn) : bool :=
  match vin with
  | [] => true
  | txin :: vin =>
      let o := Tx.prevout txin in
      match mapTx P !! o.1 with
      | Some e2 => match Tx.vout (tx e2) !! Z.to_nat o.2 with Some out => negb (Tx.IsNull out) | None => false end
      | None => have_coin o
      end && bool_decide (mapNextTx P !! o = Some (h, i)) && check_inputs have_coin P h (i + 1) vin
  end.

Definition setParentCheck P (e : CTxMemPoolEntry) : setEntries := filter (λ h, is_Some (mapTx P !! h)) (setParentTransactions (tx e)).
Definition setChildrenCheck P (h : uint256) : setEntries := list_to_set (spenders P h).

(** [childSizes] and [childFees]: they are sums of [int64_t]; the comparison is one of [uint64_t]. *)
Definition check_state P (e : CTxMemPoolEntry) : bool :=
  match sum_descendants P (in_order (setChildrenCheck P (Tx.GetHash (tx e)))) with
  | None => false
  | Some (childSizes, childFees, _) =>
      (if negb (IsDirty e) then (nSizeWithDescendants e >=? u64 (childSizes + nTxSize e)) && (nFeesWithDescendants e >=? childFees + nFee e)
       else (nSizeWithDescendants e =? nTxSize e) && (nFeesWithDescendants e =? nFee e)) &&
      (nFeesWithDescendants e >=? 0)
  end.

Definition check_entry (have_coin : COutPoint → bool) P (x : uint256 * CTxMemPoolEntry) : bool :=
  match mapLinks P !! x.1 with
  | None => false
  | Some links =>
      check_inputs have_coin P x.1 0 (Tx.vin (tx x.2)) && bool_decide (setParentCheck P x.2 = parents links) &&
      bool_decide (setChildrenCheck P x.1 = children links) && check_state P x.2
  end.

(** The entries of [mapNextTx] are inputs of transactions of the pool. *)
Definition check_next P (x : COutPoint * (uint256 * Z)) : bool :=
  match mapTx P !! x.2.1 with
  | None => false
  | Some e => bool_decide (0 <= x.2.2) && match Tx.vin (tx e) !! Z.to_nat x.2.2 with Some txin => bool_decide (x.1 = Tx.prevout txin) | None => false end
  end.

(** [innerUsage] and [checkTotal]. *)
Definition inner_usage P (x : uint256 * CTxMemPoolEntry) : Z :=
  nUsageSize x.2 + (set_usage (parents (links_at P x.1)) + set_usage (children (links_at P x.1))).
Definition sum_of {A : Type} (f : A → Z) (l : list A) : Z := foldr (λ x n, f x + n) 0 l.

(** [check] without the replay of the transactions on a copy of the coins. *)
Definition check (have_coin : COutPoint → bool) P : bool :=
  forallb (check_entry have_coin P) (map_to_list (mapTx P)) && forallb (check_next P) (map_to_list (mapNextTx P)) &&
  (totalTxSize P =? u64 (sum_of (λ x : uint256 * CTxMemPoolEntry, nTxSize x.2) (map_to_list (mapTx P)))) &&
  (cachedInnerUsage P =? u64 (sum_of (inner_usage P) (map_to_list (mapTx P)))).

End Operations.

End Mempool.
