(* ===== verification/Pool.v ===== *)
(** * The memory pool: its invariant and its theorems

    [linked] says that links are symmetric and without cycles, [counted] that every entry that is
    not dirty has the number, the size and the fees of its descendants, [tracked] that [mapNextTx],
    the links and the totals are those of the entries.  [pool_ok] is all of it; every operation
    keeps it.  After a block was disconnected, transactions come back whose spenders are in the
    pool: [pending] is the state in between. *)

From stdpp Require Import base option gmap fin_maps sets sorting relations list.
From Stdlib Require Import ZArith Lia.
From S2P Require Import Prelude Serialize Tx Coins Stake Mempool.
Import Mempool.
Open Scope Z_scope.

Module Pool.

Abbreviation edges := (uint256 → uint256 → Prop).

(** ** Sets in order, sums over sets *)

Lemma in_order_perm X : in_order X ≡ₚ elements X.
Proof. apply merge_sort_Permutation. Qed.

Lemma elem_of_in_order X x : x ∈ in_order X ↔ x ∈ X.
Proof. rewrite in_order_perm. apply elem_of_elements. Qed.

Lemma NoDup_in_order X : NoDup (in_order X).
Proof. rewrite in_order_perm. apply NoDup_elements. Qed.

Lemma begin_None X : begin X = None → X = ∅.
Proof.
  unfold begin. destruct (in_order X) as [|x l] eqn:E; [|done]. intros _. apply leibniz_equiv, elem_of_equiv_empty.
  intros y Hy%elem_of_in_order. rewrite E in Hy. by apply elem_of_nil in Hy.
Qed.

Lemma begin_Some X x : begin X = Some x → x ∈ X.
Proof. unfold begin. destruct (in_order X) as [|y l] eqn:E; [done|]. intros [= ->]. apply elem_of_in_order. rewrite E. by left. Qed.

Lemma sum_of_perm {A} (f : A → Z) l l' : l ≡ₚ l' → sum_of f l = sum_of f l'.
Proof. unfold sum_of. induction 1; cbn; lia. Qed.

Lemma sum_of_app {A} (f : A → Z) l l' : sum_of f (l ++ l') = sum_of f l + sum_of f l'.
Proof. unfold sum_of. induction l; cbn; lia. Qed.

Lemma sum_of_ext {A} (f g : A → Z) l : (∀ x, x ∈ l → f x = g x) → sum_of f l = sum_of g l.
Proof. unfold sum_of. induction l as [|x l IH]; intros H; cbn; [done|]. rewrite (H x) by (by left). rewrite IH; [done|]. intros y Hy. apply H. by right. Qed.

Section Sums.
Context (f : uint256 → Z).

Definition total (X : setEntries) : Z := sum_of f (elements X).

Lemma total_empty : total ∅ = 0.
Proof. unfold total. by rewrite elements_empty. Qed.

Lemma total_union X Y : X ## Y → total (X ∪ Y) = total X + total Y.
Proof. intros Hd. unfold total. by rewrite (sum_of_perm f _ _ (elements_disj_union X Y Hd)), sum_of_app. Qed.

Lemma total_insert x X : x ∉ X → total ({[x]} ∪ X) = f x + total X.
Proof. intros Hx. rewrite total_union by set_solver. f_equal. unfold total. rewrite elements_singleton. cbn. lia. Qed.

Lemma total_split X Y : Y ⊆ X → total X = total Y + total (X ∖ Y).
Proof. intros Hs. rewrite <- total_union by set_solver. f_equal. by apply union_difference_L. Qed.

Lemma total_nonneg X : (∀ x, x ∈ X → 0 <= f x) → 0 <= total X.
Proof.
  unfold total, sum_of. intros H. assert (H' : ∀ x, x ∈ elements X → 0 <= f x) by (intros x Hx; apply H; by apply elem_of_elements).
  clear H. induction (elements X) as [|x l IH]; cbn; [lia|]. pose proof (H' x ltac:(by left)).
  enough (0 <= foldr (λ x n, f x + n) 0 l) by lia. apply IH. intros y Hy. apply H'. by right.
Qed.

Lemma total_mono X Y : (∀ x, x ∈ Y → 0 <= f x) → X ⊆ Y → total X <= total Y.
Proof. intros H Hs. rewrite (total_split Y X Hs). pose proof (total_nonneg (Y ∖ X) ltac:(set_solver)). lia. Qed.

Lemma total_at x X : (∀ y, y ∈ X → 0 <= f y) → x ∈ X → f x <= total X.
Proof.
  intros H Hx. assert (E : X = {[x]} ∪ X ∖ {[x]}) by (apply union_difference_L; set_solver). rewrite E, total_insert by set_solver.
  pose proof (total_nonneg (X ∖ {[x]}) ltac:(set_solver)). lia.
Qed.
End Sums.

Lemma total_ext f g X : (∀ x, x ∈ X → f x = g x) → total f X = total g X.
Proof. intros H. apply sum_of_ext. intros x Hx. apply H. by apply elem_of_elements. Qed.

Lemma total_count X : total (λ _, 1) X = Z.of_nat (size X).
Proof.
  unfold total, size, set_size, compose. generalize (elements X). intros l. unfold sum_of. induction l as [|x l IH]; cbn; [done|]. lia.
Qed.

Lemma tc_mono {A} (R R' : A → A → Prop) x y : (∀ a b, R a b → R' a b) → tc R x y → tc R' x y.
Proof. intros H. induction 1; [apply tc_once; auto | eapply tc_l; eauto]. Qed.

(** [each] keeps what every turn keeps. *)
Lemma each_app {A S} (f : A → S → option S) l l' s : each f (l ++ l') s = each f l s ≫= each f l'.
Proof. revert s. induction l as [|a l IH]; intros s; cbn; [done|]. destruct (f a s); [apply IH | done]. Qed.

(** ** Walks over the links *)

Lemma size_insert (x : uint256) (X : setEntries) : x ∉ X → size ({[x]} ∪ X) = S (size X).
Proof. intros Hx. apply Nat2Z.inj. rewrite Nat2Z.inj_succ, <- (total_count ({[x]} ∪ X)), <- (total_count X), total_insert by done. lia. Qed.

Lemma size_remove (x : uint256) (X : setEntries) : x ∈ X → size X = S (size (X ∖ {[x]})).
Proof. intros Hx. rewrite <- (size_insert x (X ∖ {[x]})) by set_solver. f_equal. apply union_difference_L. set_solver. Qed.

Lemma walk_measure (U stage seen : setEntries) it : it ∈ stage → stage ⊆ U → stage ## seen → (size (U ∖ ({[it]} ∪ seen)) < size (U ∖ seen))%nat.
Proof. intros Hit Hs Hd. apply subset_size. set_solver. Qed.

Section Walk.
Context (next : uint256 → setEntries) (U : setEntries).

Definition step (x y : uint256) : Prop := y ∈ next x.

(** What is seen or staged is reached from [start], and what is left to see is behind [stage]. *)
Record walk (start stage seen : setEntries) : Prop := {
  wk_stage : stage ⊆ U;
  wk_seen : seen ⊆ U;
  wk_new : stage ## seen;
  wk_closed : ∀ x, x ∈ seen → next x ⊆ seen ∪ stage;
  wk_reached : ∀ y, y ∈ seen ∪ stage → ∃ x, x ∈ start ∧ rtc step x y;
  wk_start : start ⊆ seen ∪ stage
}.

Lemma walk_step start stage seen it : it ∈ stage → next it ⊆ U → walk start stage seen →
  walk start (stage ∖ {[it]} ∪ (next it ∖ ({[it]} ∪ seen))) ({[it]} ∪ seen).
Proof.
  intros Hit Hn [H1 H2 H3 H4 H5 H6]. split; [set_solver | set_solver | set_solver | | |].
  - intros x [->%elem_of_singleton|Hx]%elem_of_union.
    + intros y Hy. destruct (decide (y ∈ {[it]} ∪ seen)); set_solver.
    + intros y Hy. specialize (H4 x Hx y Hy). destruct (decide (y = it)); set_solver.
  - intros y Hy. destruct (decide (y ∈ seen ∪ stage)) as [|Hny]; [by apply H5|]. assert (Hy' : y ∈ next it) by set_solver.
    destruct (H5 it ltac:(set_solver)) as (x & Hx & Hr). exists x. split; [done|]. by eapply rtc_r.
  - intros y Hy. specialize (H6 y Hy). destruct (decide (y = it)); set_solver.
Qed.

Lemma walk_end start seen : walk start ∅ seen → ∀ y, y ∈ seen ↔ ∃ x, x ∈ start ∧ rtc step x y.
Proof.
  intros [H1 H2 H3 H4 H5 H6] y. split; [intros Hy; apply H5; set_solver|].
  intros (x & Hx & Hr). assert (Hs : x ∈ seen) by set_solver. clear Hx. induction Hr as [|x z y Hxz _ IH]; [done|]. apply IH.
  specialize (H4 x Hs z Hxz). set_solver.
Qed.

End Walk.

Section Invariant.
Context {env : PoolEnv}.
Implicit Types P : CTxMemPool.

(** ** Links *)

Definition par P (x : uint256) : setEntries := parents (links_at P x).
Definition chi P (x : uint256) : setEntries := children (links_at P x).
Definition pool P : setEntries := dom (mapTx P).

(** [y] spends an output of [x], by the links. *)
Definition dep P (y x : uint256) : Prop := x ∈ par P y.

Record linked P : Prop := {
  lk_dom : ∀ x, is_Some (mapLinks P !! x) ↔ x ∈ pool P;
  lk_sym : ∀ x y, x ∈ par P y ↔ y ∈ chi P x;
  lk_in : ∀ x y, x ∈ par P y → x ∈ pool P ∧ y ∈ pool P;
  lk_acyclic : ∀ x, ¬ tc (dep P) x x
}.

(** What a walk over the parents needs. *)
Record rooted P : Prop := {
  rt_dom : ∀ x, is_Some (mapLinks P !! x) ↔ x ∈ pool P;
  rt_par : ∀ x, par P x ⊆ pool P
}.

Lemma linked_rooted P : linked P → rooted P.
Proof. intros [H1 _ H3 _]. split; [done|]. intros y x Hx. by apply H3 in Hx as [Hx _]. Qed.

Lemma pool_entry P x : x ∈ pool P → ∃ e, mapTx P !! x = Some e.
Proof. unfold pool. by rewrite elem_of_dom. Qed.

Lemma pool_intro P x e : mapTx P !! x = Some e → x ∈ pool P.
Proof. unfold pool. intros H. by apply elem_of_dom_2 in H. Qed.

Lemma GetMemPoolParents_par P x : rooted P → x ∈ pool P → GetMemPoolParents P x = Some (par P x).
Proof.
  intros Hl Hx. unfold GetMemPoolParents, par, links_at. destruct (pool_entry P x Hx) as [e ->]. cbn.
  apply (rt_dom _ Hl) in Hx as [l ->]. done.
Qed.

Lemma GetMemPoolChildren_chi P x : linked P → x ∈ pool P → GetMemPoolChildren P x = Some (chi P x).
Proof.
  intros Hl Hx. unfold GetMemPoolChildren, chi, links_at. destruct (pool_entry P x Hx) as [e ->]. cbn.
  apply (lk_dom _ Hl) in Hx as [l ->]. done.
Qed.

Lemma chi_dep P x y : linked P → step (chi P) x y ↔ dep P y x.
Proof. intros Hl. symmetry. apply (lk_sym _ Hl). Qed.

Lemma chi_rtc P x y : linked P → rtc (step (chi P)) x y ↔ rtc (dep P) y x.
Proof.
  intros Hl. split; induction 1 as [|a b c Hab _ IH]; try done.
  - eapply rtc_r; [exact IH | by apply chi_dep].
  - eapply rtc_r; [exact IH | by apply chi_dep].
Qed.

Lemma chi_pool P x : linked P → chi P x ⊆ pool P.
Proof. intros Hl y Hy. by apply (lk_sym _ Hl), (lk_in _ Hl) in Hy as [_ Hy]. Qed.

Lemma size_pool P : size (pool P) = size (mapTx P).
Proof. apply size_dom. Qed.

Lemma dep_in P x y : linked P → rtc (dep P) y x → y = x ∨ x ∈ pool P ∧ y ∈ pool P.
Proof.
  intros Hl Hr. apply rtc_inv in Hr as [->|(z & Hyz & Hr)]; [by left|]. right. apply (lk_in _ Hl) in Hyz as [Hz Hy].
  split; [|done]. clear Hy y. induction Hr as [|a b c Hab _ IH]; [done|]. apply IH. by apply (lk_in _ Hl) in Hab as [Hb _].
Qed.

(** ** Descendants *)

(** [D] is [x] with its descendants, [A] the ancestors of [y]. *)
Definition is_desc P (x : uint256) (D : setEntries) : Prop := ∀ y, y ∈ D ↔ rtc (dep P) y x.
Definition is_anc P (y : uint256) (A : setEntries) : Prop := ∀ x, x ∈ A ↔ tc (dep P) y x.

Lemma descendants_loop_spec P start fuel : linked P → ∀ stage seen, walk (chi P) (pool P) start stage seen → (size (pool P ∖ seen) <= fuel)%nat →
  ∃ D, descendants_loop fuel P stage seen = Some D ∧ ∀ y, y ∈ D ↔ ∃ x, x ∈ start ∧ rtc (dep P) y x.
Proof.
  intros Hl. induction fuel as [|fuel IH]; intros stage seen Hw Hf; cbn [descendants_loop];
    destruct (begin stage) as [it|] eqn:Eb.
  1: { apply begin_Some in Eb. pose proof (walk_measure _ stage seen it Eb (wk_stage _ _ _ _ _ Hw) (wk_new _ _ _ _ _ Hw)). lia. }
  2: { apply begin_Some in Eb. pose proof (walk_measure _ stage seen it Eb (wk_stage _ _ _ _ _ Hw) (wk_new _ _ _ _ _ Hw)).
       assert (Hit : it ∈ pool P) by (by apply (wk_stage _ _ _ _ _ Hw)). rewrite GetMemPoolChildren_chi by done. cbn.
       apply IH; [|lia]. apply walk_step; [done | by apply chi_pool | done]. }
  all: apply begin_None in Eb as ->; exists seen; split; [done|]; intros y; rewrite (walk_end _ _ _ _ Hw);
    split; intros (x & Hx & Hr); exists x; (split; [done|]); by apply chi_rtc.
Qed.

(** The walk adds the descendants; what was there is closed under descendants. *)
Lemma CalculateDescendants_spec P x seen : linked P → x ∈ pool P → seen ⊆ pool P → (∀ y, y ∈ seen → chi P y ⊆ seen) →
  ∃ D, CalculateDescendants P x seen = Some D ∧ ∀ y, y ∈ D ↔ y ∈ seen ∨ rtc (dep P) y x.
Proof.
  intros Hl Hx Hs Hc. unfold CalculateDescendants.
  destruct (descendants_loop_spec P ({[x]} ∪ seen) (size (mapTx P)) Hl (if decide (x ∈ seen) then ∅ else {[x]}) seen) as (D & E & HD).
  - split; [destruct (decide _); set_solver | done | destruct (decide _); set_solver | | |].
    + intros y Hy. specialize (Hc y Hy). set_solver.
    + intros y Hy. exists y. split; [destruct (decide _); set_solver | done].
    + destruct (decide _); set_solver.
  - rewrite <- size_pool. apply subseteq_size. set_solver.
  - exists D. split; [done|]. intros y. rewrite HD. split.
    + intros (z & [->%elem_of_singleton|Hz]%elem_of_union & Hr); [by right|]. left. apply chi_rtc in Hr; [|done].
      induction Hr as [|a b c Hab _ IH]; [done|]. apply IH. by apply (Hc a).
    + intros [Hy|Hr]; [exists y; split; [set_solver | done] | exists x; split; [set_solver | done]].
Qed.

Lemma desc_exists P x : linked P → x ∈ pool P → ∃ D, is_desc P x D.
Proof.
  intros Hl Hx. destruct (CalculateDescendants_spec P x ∅ Hl Hx) as (D & _ & HD); [set_solver | set_solver|].
  exists D. intros y. rewrite HD. set_solver.
Qed.

Lemma desc_unique P x D D' : is_desc P x D → is_desc P x D' → D = D'.
Proof. intros H H'. apply set_eq. intros y. by rewrite (H y), (H' y). Qed.

Lemma desc_self P x D : is_desc P x D → x ∈ D.
Proof. intros H. by apply H. Qed.

Lemma desc_pool P x D : linked P → x ∈ pool P → is_desc P x D → D ⊆ pool P.
Proof. intros Hl Hx H y Hy. apply H in Hy. apply dep_in in Hy as [->|[_ Hy]]; done. Qed.

(** All descendants of a set. *)
Lemma all_descendants_spec P X : linked P → X ⊆ pool P →
  ∃ D, all_descendants P X = Some D ∧ D ⊆ pool P ∧ ∀ y, y ∈ D ↔ ∃ x, x ∈ X ∧ rtc (dep P) y x.
Proof.
  intros Hl HX. unfold all_descendants.
  cut (∀ l seen, (∀ x, x ∈ l → x ∈ pool P) → seen ⊆ pool P → (∀ y, y ∈ seen → chi P y ⊆ seen) →
    ∃ D, each (CalculateDescendants P) l seen = Some D ∧ D ⊆ pool P ∧ ∀ y, y ∈ D ↔ y ∈ seen ∨ ∃ x, x ∈ l ∧ rtc (dep P) y x).
  { intros H. destruct (H (in_order X) ∅) as (D & E & HD & HD'); [intros x Hx%elem_of_in_order; by apply HX | set_solver | set_solver|].
    exists D. split; [done|]. split; [done|]. intros y. rewrite HD'. setoid_rewrite elem_of_in_order. set_solver. }
  induction l as [|x l IH]; intros seen Hp Hs Hc; cbn [each].
  - exists seen. split; [done|]. split; [done|]. intros y. split; [by left|]. intros [Hy|(x & Hx & _)]; [done|]. by apply elem_of_nil in Hx.
  - assert (Hx : x ∈ pool P) by (apply Hp; by left).
    destruct (CalculateDescendants_spec P x seen Hl Hx Hs Hc) as (D1 & -> & HD1). cbn [mbind option_bind].
    destruct (IH D1) as (D & E & HD & HD'); [intros y Hy; apply Hp; by right | | |].
    + intros y [Hy|Hy%dep_in]%HD1; [by apply Hs | | done]. destruct Hy as [->|[_ Hy]]; done.
    + intros y Hy z Hz. apply HD1. apply HD1 in Hy as [Hy|Hr]; [left; by apply (Hc y)|]. right.
      eapply rtc_l; [|exact Hr]. by apply chi_dep.
    + exists D. split; [done|]. split; [done|]. intros y. rewrite HD', HD1. split.
      * intros [[Hy|Hr]|(z & Hz & Hr)]; [by left | right; exists x; split; [by left | done] | right; exists z; split; [by right | done]].
      * intros [Hy|(z & [->|Hz]%elem_of_cons & Hr)]; [by left; left | by left; right | right; by exists z].
Qed.

(** ** Ancestors *)

Definition sz P (x : uint256) : Z := from_option nTxSize 0 (mapTx P !! x).
Definition fee P (x : uint256) : Z := from_option nFee 0 (mapTx P !! x).

Lemma u64_add_l a b : u64 (u64 a + b) = u64 (a + b).
Proof. unfold u64. by rewrite Zplus_mod_idemp_l. Qed.

Lemma u64_small a : 0 <= a < 2 ^ 64 → u64 a = a.
Proof. intros H. unfold u64. by rewrite Z.mod_small. Qed.

Lemma u64_max a b : b >= 2 ^ 64 - 1 → (u64 a >? b) = false.
Proof. intros H. unfold u64. pose proof (Z.mod_pos_bound a (2 ^ 64) ltac:(lia)). lia. Qed.

(** The set the loop adds to, and the limit on it. *)
Lemma add_parents_spec limit l A : ∀ X, ∃ ok Y, add_parents limit l A X = (ok, Y) ∧
  (ok = true → Y = X ∪ (list_to_set l ∖ A) ∧ (u64 (Z.of_nat (size X) + Z.of_nat (size A) + 1) <= limit → u64 (Z.of_nat (size Y) + Z.of_nat (size A) + 1) <= limit)) ∧
  (limit = 2 ^ 64 - 1 → ok = true).
Proof.
  induction l as [|x l IH]; intros X; cbn [add_parents].
  - exists true, X. split; [done|]. split; [|done]. intros _. split; [set_solver | done].
  - set (X' := if decide (x ∈ A) then X else {[x]} ∪ X). destruct (u64 _ >? limit) eqn:E.
    + exists false, X'. split; [done|]. split; [done|]. intros ->. by rewrite u64_max in E.
    + destruct (IH X') as (ok & Y & -> & HY & Hok). exists ok, Y. split; [done|]. split; [|done]. intros Ho. destruct (HY Ho) as [-> Hs].
      split; [|intros _; apply Hs; lia]. unfold X'. cbn [list_to_set]. destruct (decide (x ∈ A)); [|set_solver].
      apply set_eq. intros y. destruct (decide (y = x)) as [->|]; set_solver.
Qed.

(** What holds of the ancestors when no limit was hit. *)
Record within P (entry : CTxMemPoolEntry) (lim : limits) (A : setEntries) : Prop := {
  in_count : A = ∅ ∨ u64 (Z.of_nat (size A) + 1) <= limitAncestorCount lim;
  in_size : A = ∅ ∨ u64 (nTxSize entry + total (sz P) A) <= limitAncestorSize lim;
  in_desc : ∀ x e, x ∈ A → mapTx P !! x = Some e →
    u64 (nSizeWithDescendants e + nTxSize entry) <= limitDescendantSize lim ∧ u64 (nCountWithDescendants e + 1) <= limitDescendantCount lim
}.

Lemma ancestors_loop_spec P entry lim start fuel : rooted P → ∀ stage seen tot, walk (par P) (pool P) start stage seen →
  (stage ∪ seen = ∅ ∨ u64 (Z.of_nat (size stage) + Z.of_nat (size seen) + 1) <= limitAncestorCount lim) →
  (seen = ∅ ∨ u64 (nTxSize entry + total (sz P) seen) <= limitAncestorSize lim) →
  (∀ x e, x ∈ seen → mapTx P !! x = Some e →
    u64 (nSizeWithDescendants e + nTxSize entry) <= limitDescendantSize lim ∧ u64 (nCountWithDescendants e + 1) <= limitDescendantCount lim) →
  u64 tot = u64 (nTxSize entry + total (sz P) seen) → (size (pool P ∖ seen) <= fuel)%nat →
  ∃ err A, ancestors_loop fuel P entry lim stage seen tot = Some (err, A) ∧
    (err = None → (∀ y, y ∈ A ↔ ∃ x, x ∈ start ∧ rtc (dep P) x y) ∧ within P entry lim A) ∧ (lim = nNoLimit → err = None).
Proof.
  intros Hl. induction fuel as [|fuel IH]; intros stage seen tot Hw Hc Hs Hd Et Hf; cbn [ancestors_loop];
    destruct (begin stage) as [it|] eqn:Eb.
  2, 4: apply begin_None in Eb as ->; exists None, seen; split; [done|]; split; [|done]; intros _; split; [apply (walk_end _ _ _ _ Hw)|];
    split; [|exact Hs|exact Hd]; destruct Hc as [Hc|Hc]; [left; set_solver | right; by rewrite size_empty in Hc].
  all: apply begin_Some in Eb; pose proof (walk_measure _ stage seen it Eb (wk_stage _ _ _ _ _ Hw) (wk_new _ _ _ _ _ Hw)).
  { lia. }
  assert (Hit : it ∈ pool P) by (by apply (wk_stage _ _ _ _ _ Hw)). destruct (pool_entry P it Hit) as [e He]. rewrite He. cbn [mbind option_bind].
  destruct (u64 (nSizeWithDescendants e + _) >? _) eqn:E1.
  { eexists _, _. split; [done|]. split; [done|]. intros ->. by rewrite u64_max in E1. }
  destruct (u64 (nCountWithDescendants e + 1) >? _) eqn:E2.
  { eexists _, _. split; [done|]. split; [done|]. intros ->. by rewrite u64_max in E2. }
  destruct (u64 (tot + nTxSize e) >? _) eqn:E3.
  { eexists _, _. split; [done|]. split; [done|]. intros ->. by rewrite u64_max in E3. }
  assert (Hnew : it ∉ seen) by (intros Hin; by apply (wk_new _ _ _ _ _ Hw it)).
  rewrite GetMemPoolParents_par by done. cbn [mbind option_bind].
  destruct (add_parents_spec (limitAncestorCount lim) (in_order (par P it)) ({[it]} ∪ seen) (stage ∖ {[it]})) as (ok & Y & -> & HY & Hok).
  destruct ok; cbn [negb].
  2: { eexists _, _. split; [done|]. split; [done|]. intros ->. by specialize (Hok eq_refl). }
  destruct (HY eq_refl) as [-> HYs]. clear HY Hok.
  assert (El : list_to_set (in_order (par P it)) = par P it) by (apply set_eq; intros y; rewrite elem_of_list_to_set; apply elem_of_in_order).
  rewrite El in *. apply IH.
  - apply walk_step; [done | by apply rt_par | done].
  - right. apply HYs. destruct Hc as [Hc|Hc]; [set_solver|]. revert Hc.
    rewrite size_insert by done. rewrite (size_remove it stage) by done. intros Hc.
    replace (Z.of_nat (size (stage ∖ {[it]})) + Z.of_nat (S (size seen))) with (Z.of_nat (S (size (stage ∖ {[it]}))) + Z.of_nat (size seen)) by lia. done.
  - right. rewrite total_insert by done. unfold sz at 1. rewrite He. cbn [from_option].
    replace (nTxSize entry + (nTxSize e + total (sz P) seen)) with (nTxSize entry + total (sz P) seen + nTxSize e) by lia.
    rewrite <- u64_add_l, <- Et, u64_add_l. lia.
  - intros x ex [->%elem_of_singleton|Hx]%elem_of_union Hex; [|by eapply Hd]. rewrite He in Hex. injection Hex as <-. lia.
  - rewrite total_insert by done. unfold sz at 1. rewrite He. cbn [from_option].
    replace (nTxSize entry + (nTxSize e + total (sz P) seen)) with (nTxSize entry + total (sz P) seen + nTxSize e) by lia.
    rewrite <- (u64_add_l (nTxSize entry + _)), <- Et, u64_add_l. unfold u64. by rewrite Z.mod_mod.
  - lia.
Qed.

(** ** The parents by the inputs *)

(** The transaction spends an output of [x]. *)
Definition spends (t : CTransaction) (x : uint256) : Prop := x ∈ setParentTransactions t.
Definition pool_parents P (t : CTransaction) : setEntries := filter (λ x, x ∈ pool P) (setParentTransactions t).

Lemma elem_of_pool_parents P t x : x ∈ pool_parents P t ↔ x ∈ pool P ∧ spends t x.
Proof. unfold pool_parents. by rewrite elem_of_filter. Qed.

Lemma find_parents_spec P limit vin : ∀ X, ∃ err Y, find_parents P limit vin X = (err, Y) ∧
  (err = None → Y = X ∪ filter (λ x, x ∈ pool P) (list_to_set (map (λ txin, (Tx.prevout txin).1) vin)) ∧
     (X = ∅ ∨ u64 (Z.of_nat (size X) + 1) <= limit → Y = ∅ ∨ u64 (Z.of_nat (size Y) + 1) <= limit)) ∧
  (limit = 2 ^ 64 - 1 → err = None).
Proof.
  induction vin as [|txin vin IH]; intros X; cbn [find_parents].
  - exists None, X. split; [done|]. split; [|done]. intros _. split; [|done]. apply set_eq. intros x. rewrite elem_of_union, elem_of_filter. set_solver.
  - set (h := (Tx.prevout txin).1). destruct (mapTx P !! h) as [e|] eqn:Eh.
    + destruct (u64 _ >? limit) eqn:E.
      { eexists _, _. split; [done|]. split; [done|]. intros ->. by rewrite u64_max in E. }
      destruct (IH ({[h]} ∪ X)) as (err & Y & -> & HY & Hok). exists err, Y. split; [done|]. split; [|done]. intros He. destruct (HY He) as [-> Hs].
      split; [|intros _; apply Hs; right; lia]. apply pool_intro in Eh. apply set_eq. intros x. cbn [map list_to_set]. fold h.
      rewrite !elem_of_union, !elem_of_filter, !elem_of_union, !elem_of_singleton. naive_solver.
    + destruct (IH X) as (err & Y & -> & HY & Hok). exists err, Y. split; [done|]. split; [|done]. intros He. destruct (HY He) as [-> Hs].
      split; [|done]. apply set_eq. intros x. cbn [map list_to_set]. fold h. rewrite !elem_of_union, !elem_of_filter, !elem_of_union, !elem_of_singleton.
      split; [naive_solver|]. intros [?|[Hx [->|?]]]; [by left | | by right]. apply pool_entry in Hx as [? ?]. congruence.
Qed.

(** The ancestors of a transaction that is not in the pool. *)
Lemma CalculateMemPoolAncestors_new P entry lim : rooted P → ∃ err A, CalculateMemPoolAncestors entry lim true P = Some (err, A) ∧
  (err = None → (∀ y, y ∈ A ↔ ∃ x, x ∈ pool_parents P (tx entry) ∧ rtc (dep P) x y) ∧ within P entry lim A) ∧ (lim = nNoLimit → err = None).
Proof.
  intros Hl. unfold CalculateMemPoolAncestors. cbn [mbind option_bind].
  destruct (find_parents_spec P (limitAncestorCount lim) (Tx.vin (tx entry)) ∅) as (err & Y & -> & HY & Hok).
  destruct err as [err|].
  { eexists _, _. split; [done|]. split; [done|]. intros ->. by specialize (Hok eq_refl). }
  destruct (HY eq_refl) as [EY Hs]. specialize (Hs (or_introl eq_refl)). rewrite union_empty_l_L in EY. change (Y = pool_parents P (tx entry)) in EY. subst Y.
  apply ancestors_loop_spec; [done | | | by left | set_solver | by rewrite total_empty, Z.add_0_r |].
  - split; [intros x Hx; by apply elem_of_pool_parents in Hx as [Hx _] | set_solver | set_solver | set_solver | | set_solver].
    intros y Hy. exists y. split; [set_solver | done].
  - destruct Hs as [->|Hs]; [left; set_solver | right; by rewrite size_empty, Z.add_0_r].
  - rewrite <- size_pool. apply subseteq_size. set_solver.
Qed.

(** The ancestors of an entry of the pool. *)
Lemma CalculateMemPoolAncestors_in P entry : rooted P → Tx.GetHash (tx entry) ∈ pool P →
  ∃ A, CalculateMemPoolAncestors entry nNoLimit false P = Some (None, A) ∧ is_anc P (Tx.GetHash (tx entry)) A.
Proof.
  intros Hl Hx. unfold CalculateMemPoolAncestors. rewrite GetMemPoolParents_par by done. cbn [mbind option_bind]. set (y := Tx.GetHash (tx entry)) in *.
  destruct (ancestors_loop_spec P entry nNoLimit (par P y) (size (mapTx P)) Hl (par P y) ∅ (nTxSize entry)) as (err & A & E & HA & Hok).
  - split; [by apply rt_par | set_solver | set_solver | set_solver | | set_solver]. intros z Hz. exists z. split; [set_solver | done].
  - right. cbn. unfold u64. pose proof (Z.mod_pos_bound (Z.of_nat (size (par P y)) + Z.of_nat (size (∅ : setEntries)) + 1) (2 ^ 64) ltac:(lia)). lia.
  - by left.
  - set_solver.
  - by rewrite total_empty, Z.add_0_r.
  - rewrite <- size_pool. apply subseteq_size. set_solver.
  - specialize (Hok eq_refl) as ->. destruct (HA eq_refl) as [HA' _]. exists A. split; [done|]. intros x. rewrite HA'. split.
    + intros (z & Hz & Hr). by eapply tc_rtc_r; [apply tc_once|].
    + intros Ht. apply tc_rtc in Ht as Hr. inversion Ht as [? ? H1|? z ? H1 H2]; subst; [by exists x|]. exists z. split; [done | by apply tc_rtc].
Qed.

(** ** The state of the entries *)

Definition bare (e : CTxMemPoolEntry) : CTxMemPoolEntry := set_state 0 0 0 e.

(** Sizes and fees: the sums over the pool do not overflow. *)
Record sized P : Prop := {
  s_hash : ∀ x e, mapTx P !! x = Some e → Tx.GetHash (tx e) = x;
  s_size : ∀ x e, mapTx P !! x = Some e → 0 < nTxSize e;
  s_fee : ∀ x e, mapTx P !! x = Some e → 0 <= nFee e;
  s_sizes : total (sz P) (pool P) < 2 ^ 63;
  s_fees : total (fee P) (pool P) < 2 ^ 63
}.

(** The state of an entry is that of the set [D], unless the entry is dirty. *)
Definition state_is P (e : CTxMemPoolEntry) (D : setEntries) : Prop :=
  if IsDirty e then nSizeWithDescendants e = nTxSize e ∧ nFeesWithDescendants e = nFee e
  else nCountWithDescendants e = Z.of_nat (size D) ∧ nSizeWithDescendants e = total (sz P) D ∧ nFeesWithDescendants e = total (fee P) D.

Definition counted_as P (Dx : uint256 → setEntries) : Prop := ∀ x e, mapTx P !! x = Some e → state_is P e (Dx x).
Definition counted P : Prop := ∀ x e D, mapTx P !! x = Some e → is_desc P x D → state_is P e D.

(** Only the state of entries changes. *)
Record restated P P' : Prop := {
  rs_rest : P' = with_tx (mapTx P') P;
  rs_bare : bare <$> mapTx P' = bare <$> mapTx P
}.

#[global] Instance restated_refl : Reflexive restated.
Proof using Type. intros P. split; [by destruct P | done]. Qed.

#[global] Instance restated_trans : Transitive restated.
Proof using Type. intros P1 P2 P3 [A1 A2] [B1 B2]. split; [|etransitivity; [exact B2 | exact A2]]. etransitivity; [exact B1|]. rewrite A1. done. Qed.

Lemma restated_entry P P' x e' : restated P P' → mapTx P' !! x = Some e' → ∃ e, mapTx P !! x = Some e ∧ bare e = bare e'.
Proof using Type.
  intros [_ E] He. assert (H : (bare <$> mapTx P') !! x = (bare <$> mapTx P) !! x) by by rewrite E.
  rewrite !lookup_fmap, He in H. destruct (mapTx P !! x) as [e|]; [|done]. exists e. split; [done|]. by apply (inj Some) in H.
Qed.

Lemma restated_back P P' x e : restated P P' → mapTx P !! x = Some e → ∃ e', mapTx P' !! x = Some e' ∧ bare e' = bare e.
Proof using Type.
  intros [_ E] He. assert (H : (bare <$> mapTx P') !! x = (bare <$> mapTx P) !! x) by by rewrite E.
  rewrite !lookup_fmap, He in H. destruct (mapTx P' !! x) as [e'|]; [|done]. exists e'. split; [done|]. by apply (inj Some) in H.
Qed.

Lemma bare_fields e e' : bare e = bare e' → tx e = tx e' ∧ nFee e = nFee e' ∧ nTxSize e = nTxSize e' ∧ nUsageSize e = nUsageSize e' ∧ nTime e = nTime e'.
Proof using Type. unfold bare, set_state. by intros [=]. Qed.

(** The transaction, the fee and the size of an entry. *)
Definition core (e : CTxMemPoolEntry) : CTransaction * Z * Z := (tx e, nFee e, nTxSize e).

Lemma bare_core e e' : bare e = bare e' → core e = core e'.
Proof using Type. intros (E1 & E2 & E3 & _)%bare_fields. unfold core. by rewrite E1, E2, E3. Qed.

Lemma restated_pool P P' : restated P P' → pool P' = pool P.
Proof using Type. intros [_ E]. unfold pool. by rewrite <- (dom_fmap_L bare), E, dom_fmap_L. Qed.

Lemma restated_sz P P' x : restated P P' → sz P' x = sz P x ∧ fee P' x = fee P x.
Proof using Type.
  intros Hr. unfold sz, fee. destruct (mapTx P' !! x) as [e'|] eqn:E'.
  - destruct (restated_entry P P' x e' Hr E') as (e & -> & Hb). cbn [from_option]. by apply bare_fields in Hb as (_ & -> & -> & _).
  - destruct (mapTx P !! x) as [e|] eqn:E; [|done]. destruct (restated_back P P' x e Hr E) as (e' & He' & _). congruence.
Qed.

Lemma restated_links P P' : restated P P' → mapLinks P' = mapLinks P.
Proof using Type. intros [-> _]. done. Qed.

Lemma restated_total P P' D : restated P P' → total (sz P') D = total (sz P) D ∧ total (fee P') D = total (fee P) D.
Proof using Type. intros Hr. split; apply total_ext; intros x _; by apply restated_sz. Qed.

Lemma restated_sized P P' : restated P P' → sized P → sized P'.
Proof using Type.
  intros Hr [H1 H2 H3 H4 H5]. split.
  1-3: intros x e' He'; destruct (restated_entry P P' x e' Hr He') as (e & He & Hb); apply bare_fields in Hb as (E1 & E2 & E3 & _).
  - rewrite <- E1. by apply H1.
  - rewrite <- E3. by eapply H2.
  - rewrite <- E2. by eapply H3.
  - rewrite (restated_pool P P'), (proj1 (restated_total P P' _ Hr)) by done. done.
  - rewrite (restated_pool P P'), (proj2 (restated_total P P' _ Hr)) by done. done.
Qed.

Lemma links_eq P P' x : mapLinks P' = mapLinks P → links_at P' x = links_at P x.
Proof using Type. unfold links_at. by intros ->. Qed.

Lemma restated_par P P' x : restated P P' → par P' x = par P x ∧ chi P' x = chi P x.
Proof using Type. intros Hr. unfold par, chi. by rewrite (links_eq P P') by by apply restated_links. Qed.

(** Bounds on sums over sets of entries. *)
Lemma sized_nonneg P x : sized P → 0 <= sz P x ∧ 0 <= fee P x ∧ (x ∈ pool P → 1 <= sz P x).
Proof using Type.
  intros Hs. unfold sz, fee. destruct (mapTx P !! x) as [e|] eqn:E; cbn.
  - pose proof (s_size _ Hs x e E). pose proof (s_fee _ Hs x e E). lia.
  - split; [lia|]. split; [lia|]. intros H%pool_entry. destruct H as [e H]. congruence.
Qed.

Lemma sized_bounds P D : sized P → D ⊆ pool P → Z.of_nat (size D) <= total (sz P) D < 2 ^ 63 ∧ 0 <= total (fee P) D < 2 ^ 63.
Proof using Type.
  intros Hs HD. pose proof (total_mono (sz P) D (pool P) ltac:(intros x _; by apply sized_nonneg) HD).
  pose proof (total_mono (fee P) D (pool P) ltac:(intros x _; by apply sized_nonneg) HD).
  pose proof (total_nonneg (fee P) D ltac:(intros x _; by apply sized_nonneg)). pose proof (s_sizes _ Hs). pose proof (s_fees _ Hs).
  split; [|lia]. split; [|lia]. rewrite <- total_count. unfold total, sum_of.
  assert (Hp : ∀ x, x ∈ elements D → 1 <= sz P x).
  { intros x Hx%elem_of_elements%HD. by apply sized_nonneg. }
  induction (elements D) as [|x l IH]; cbn; [lia|]. pose proof (Hp x ltac:(by left)). specialize (IH ltac:(intros y Hy; apply Hp; by right)). lia.
Qed.

Lemma signed_small n : 0 <= n < 2 ^ 63 → Serialize.signed 64 n = n.
Proof using Type. intros H. unfold Serialize.signed. destruct (Z.ltb_spec n (2 ^ (64 - 1))); lia. Qed.

(** An update of the state from that of one set to that of another. *)
Lemma UpdateState_spec P e D D' ds df dc : sized P → state_is P e D → D' ⊆ pool P → D' ≠ ∅ →
  total (sz P) D' = total (sz P) D + ds → total (fee P) D' = total (fee P) D + df → Z.of_nat (size D') = Z.of_nat (size D) + dc →
  ∃ e', UpdateState ds df dc e = Some e' ∧ bare e' = bare e ∧ state_is P e' D'.
Proof using Type.
  intros Hs He HD Hne E1 E2 E3. unfold UpdateState, state_is in *. destruct (IsDirty e) eqn:Ed; [exists e; by rewrite Ed|].
  destruct He as (-> & -> & ->). rewrite <- E1, <- E2, <- E3. destruct (sized_bounds P D' Hs HD) as [B1 B2].
  assert (0 < size D')%nat by (destruct (size D') eqn:E; [by apply size_empty_inv, leibniz_equiv in E | lia]).
  rewrite !u64_small by lia. rewrite !signed_small by lia. rewrite Tx.wrap64_small by lia.
  replace (total (sz P) D' >? 0) with true by lia. replace (total (fee P) D' >=? 0) with true by lia. replace (Z.of_nat (size D') >? 0) with true by lia.
  cbn [negb]. eexists. split; [done|]. split; [done|]. unfold IsDirty. cbn [nCountWithDescendants nSizeWithDescendants nFeesWithDescendants set_state].
  by replace (Z.of_nat (size D') =? 0) with false by lia.
Qed.

Lemma state_is_restated P P' e D : restated P P' → state_is P e D → state_is P' e D.
Proof using Type. intros Hr. unfold state_is. by destruct (restated_total P P' D Hr) as [-> ->]. Qed.

Lemma modify_restated P x f e e' : mapTx P !! x = Some e → f e = Some e' → bare e' = bare e →
  ∃ P', modify x f P = Some P' ∧ restated P P' ∧ mapTx P' = <[x := e']> (mapTx P).
Proof using Type.
  intros He Hf Hb. unfold modify. rewrite He. cbn [mbind option_bind]. rewrite Hf. cbn [mbind option_bind]. eexists. split; [done|].
  split; [|done]. split; [done|]. cbn [mapTx with_tx]. rewrite fmap_insert, Hb. apply insert_id. by rewrite lookup_fmap, He.
Qed.

(** The same update of several entries. *)
Lemma update_all ds df dc Dx' l : ∀ P Dx, NoDup l → sized P → counted_as P Dx → (∀ x, x ∈ l → x ∈ pool P) →
  (∀ x, x ∈ l → Dx' x ⊆ pool P ∧ Dx' x ≠ ∅ ∧ total (sz P) (Dx' x) = total (sz P) (Dx x) + ds ∧ total (fee P) (Dx' x) = total (fee P) (Dx x) + df ∧
     Z.of_nat (size (Dx' x)) = Z.of_nat (size (Dx x)) + dc) →
  (∀ x, x ∈ pool P → x ∉ l → Dx' x = Dx x) →
  ∃ P', each (λ x, modify x (UpdateState ds df dc)) l P = Some P' ∧ restated P P' ∧ counted_as P' Dx'.
Proof using Type.
  induction l as [|x l IH]; intros P Dx Hnd Hs Hc Hp Hl Hr; cbn [each].
  - exists P. split; [done|]. split; [done|]. intros x e He. rewrite Hr; [by apply Hc | by eapply pool_intro |]. apply not_elem_of_nil.
  - apply NoDup_cons in Hnd as [Hx Hnd]. destruct (pool_entry P x (Hp x ltac:(by left))) as [e He].
    destruct (Hl x ltac:(by left)) as (B1 & B2 & B3 & B4 & B5).
    destruct (UpdateState_spec P e (Dx x) (Dx' x) ds df dc Hs (Hc x e He) B1 B2 B3 B4 B5) as (e' & Ee & Hb & Hst).
    destruct (modify_restated P x _ e e' He Ee Hb) as (P1 & -> & Hr1 & Em). cbn [mbind option_bind].
    destruct (IH P1 (λ y, if decide (y = x) then Dx' y else Dx y)) as (P2 & E2 & Hr2 & Hc2).
    + done.
    + by eapply restated_sized.
    + intros y ey. rewrite Em, lookup_insert_Some. intros [[<- <-]|[Hne Hy]].
      * rewrite decide_True by done. by eapply state_is_restated.
      * rewrite decide_False by done. eapply state_is_restated; [done | by apply Hc].
    + intros y Hy. rewrite (restated_pool P P1) by done. apply Hp. by right.
    + intros y Hy. rewrite (restated_pool P P1) by done. rewrite decide_False by (by intros ->).
      destruct (restated_total P P1 (Dx' y) Hr1) as [-> ->]. destruct (restated_total P P1 (Dx y) Hr1) as [-> ->]. apply Hl. by right.
    + intros y Hy Hn. rewrite (restated_pool P P1) in Hy by done. destruct (decide (y = x)) as [->|]; [done|]. apply Hr; [done|]. rewrite not_elem_of_cons. done.
    + exists P2. split; [done|]. split; [by etransitivity | done].
Qed.

(** ** Links that change *)

(** The sum over a map. *)
Definition msum {K A} `{Countable K} (f : A → Z) (m : gmap K A) : Z := sum_of (λ x, f x.2) (map_to_list m).

Lemma msum_fresh {K A} `{Countable K} (f : A → Z) (m : gmap K A) k v : m !! k = None → msum f (<[k := v]> m) = f v + msum f m.
Proof using Type. intros Hk. unfold msum. by rewrite (sum_of_perm _ _ _ (map_to_list_insert m k v Hk)). Qed.

Lemma msum_delete {K A} `{Countable K} (f : A → Z) (m : gmap K A) k v : m !! k = Some v → msum f (delete k m) = msum f m - f v.
Proof using Type.
  intros Hk. assert (E : msum f m = f v + msum f (delete k m)); [|lia].
  rewrite <- (insert_delete_id m k v Hk) at 1. apply msum_fresh. apply lookup_delete_eq.
Qed.

Lemma msum_insert {K A} `{Countable K} (f : A → Z) (m : gmap K A) k v : msum f (<[k := v]> m) = msum f m - from_option f 0 (m !! k) + f v.
Proof using Type.
  destruct (m !! k) as [v'|] eqn:E; cbn [from_option]; [|rewrite msum_fresh by done; lia].
  rewrite <- insert_delete_eq, msum_fresh by apply lookup_delete_eq. rewrite (msum_delete f m k v' E). lia.
Qed.

Lemma msum_dom {A} (f : A → Z) (m : gmap uint256 A) : total (λ x, from_option f 0 (m !! x)) (dom m) = msum f m.
Proof using Type.
  induction m as [|k v m Hk IH] using map_ind; [by rewrite dom_empty_L, total_empty|].
  rewrite dom_insert_L, total_insert by by apply not_elem_of_dom. rewrite msum_fresh by done. rewrite lookup_insert_eq. cbn [from_option].
  f_equal. rewrite <- IH. apply total_ext. intros x Hx. rewrite lookup_insert_ne; [done|]. intros <-. by apply not_elem_of_dom in Hk.
Qed.

Lemma msum_bare (f : CTxMemPoolEntry → Z) (m m' : gmap uint256 CTxMemPoolEntry) : (∀ e e', bare e = bare e' → f e = f e') → bare <$> m' = bare <$> m → msum f m' = msum f m.
Proof using Type.
  intros Hf E. rewrite <- !msum_dom. rewrite <- (dom_fmap_L bare m'), E, dom_fmap_L. apply total_ext. intros x _.
  assert (H : (bare <$> m') !! x = (bare <$> m) !! x) by by rewrite E. rewrite !lookup_fmap in H.
  destruct (m' !! x), (m !! x); cbn in *; try done. apply Hf. by apply (inj Some) in H.
Qed.

Definition set_bytes (l : TxLinks) : Z := set_usage (parents l) + set_usage (children l).

(** What [cachedInnerUsage] has besides the links. *)
Definition slack P : Z := u64 (cachedInnerUsage P - msum set_bytes (mapLinks P)).

(** Only the links change, and their usage is counted. *)
Record relinked P P' : Prop := {
  rl_tx : mapTx P' = mapTx P;
  rl_next : mapNextTx P' = mapNextTx P;
  rl_deltas : mapDeltas P' = mapDeltas P;
  rl_total : totalTxSize P' = totalTxSize P;
  rl_slack : slack P' = slack P;
  rl_cached : cachedInnerUsage P = u64 (cachedInnerUsage P) → cachedInnerUsage P' = u64 (cachedInnerUsage P')
}.

#[global] Instance relinked_refl : Reflexive relinked.
Proof using Type. intros P. by split. Qed.

#[global] Instance relinked_trans : Transitive relinked.
Proof using Type. intros P1 P2 P3 [] []. split; try congruence. eauto. Qed.

Lemma u64_idem a : u64 (u64 a) = u64 a.
Proof using Type. unfold u64. by rewrite Z.mod_mod. Qed.

Lemma relink P x l d : d = set_bytes l - from_option set_bytes 0 (mapLinks P !! x) →
  relinked P (add_usage d (with_links (<[x := l]> (mapLinks P)) P)).
Proof using Type.
  intros ->. split; try done.
  - unfold slack. cbn [cachedInnerUsage mapLinks add_usage with_links]. rewrite msum_insert.
    set (a := msum set_bytes (mapLinks P)). set (b := from_option _ _ _).
    replace (u64 (cachedInnerUsage P + (set_bytes l - b)) - (a - b + set_bytes l)) with (u64 (cachedInnerUsage P + (set_bytes l - b)) + (b - a - set_bytes l)) by lia.
    rewrite u64_add_l. f_equal. lia.
  - intros _. cbn [cachedInnerUsage add_usage]. by rewrite u64_idem.
Qed.

Lemma links_bytes P x : from_option set_bytes 0 (mapLinks P !! x) = set_bytes (links_at P x).
Proof using Type. unfold links_at. destruct (mapLinks P !! x); [done|]. unfold set_bytes, set_usage. cbn. by rewrite size_empty, Z.mul_0_r. Qed.

Lemma set_usage_insert x X : x ∉ X → set_usage ({[x]} ∪ X) = set_usage X + set_node.
Proof using Type. intros Hx. unfold set_usage. rewrite size_insert by done. lia. Qed.

Lemma set_usage_remove x X : x ∈ X → set_usage (X ∖ {[x]}) = set_usage X - set_node.
Proof using Type. intros Hx. unfold set_usage. rewrite (size_remove x X) by done. lia. Qed.

Lemma UpdateChild_relinked a c add P : relinked P (UpdateChild a c add P).
Proof using Type.
  unfold UpdateChild. destruct add; apply relink; rewrite links_bytes; unfold set_bytes; cbn [parents children]; destruct (decide _) as [H|H].
  - replace ({[c]} ∪ children (links_at P a)) with (children (links_at P a)) by set_solver. lia.
  - rewrite set_usage_insert by done. lia.
  - rewrite set_usage_remove by done. lia.
  - replace (children (links_at P a) ∖ {[c]}) with (children (links_at P a)) by set_solver. lia.
Qed.

Lemma UpdateParent_relinked a c add P : relinked P (UpdateParent a c add P).
Proof using Type.
  unfold UpdateParent. destruct add; apply relink; rewrite links_bytes; unfold set_bytes; cbn [parents children]; destruct (decide _) as [H|H].
  - replace ({[c]} ∪ parents (links_at P a)) with (parents (links_at P a)) by set_solver. lia.
  - rewrite set_usage_insert by done. lia.
  - rewrite set_usage_remove by done. lia.
  - replace (parents (links_at P a) ∖ {[c]}) with (parents (links_at P a)) by set_solver. lia.
Qed.

Definition change (add : bool) (c : uint256) (X : setEntries) : setEntries := if add then {[c]} ∪ X else X ∖ {[c]}.

Lemma links_at_insert P x l n y : links_at (add_usage n (with_links (<[x := l]> (mapLinks P)) P)) y = if decide (y = x) then l else links_at P y.
Proof using Type.
  unfold links_at. cbn [mapLinks add_usage with_links]. destruct (decide (y = x)) as [->|Hne]; [by rewrite lookup_insert_eq | by rewrite lookup_insert_ne].
Qed.

Lemma UpdateChild_links a c add P x : links_at (UpdateChild a c add P) x = if decide (x = a) then mkLinks (par P a) (change add c (chi P a)) else links_at P x.
Proof using Type. unfold UpdateChild, change, par, chi. destruct add; apply links_at_insert. Qed.

Lemma UpdateParent_links a c add P x : links_at (UpdateParent a c add P) x = if decide (x = a) then mkLinks (change add c (par P a)) (chi P a) else links_at P x.
Proof using Type. unfold UpdateParent, change, par, chi. destruct add; apply links_at_insert. Qed.

Lemma UpdateChild_dom a c add P x : is_Some (mapLinks (UpdateChild a c add P) !! x) ↔ x = a ∨ is_Some (mapLinks P !! x).
Proof using Type. unfold UpdateChild. destruct add; cbn [mapLinks add_usage with_links]; rewrite lookup_insert_is_Some'; naive_solver. Qed.

Lemma UpdateParent_dom a c add P x : is_Some (mapLinks (UpdateParent a c add P) !! x) ↔ x = a ∨ is_Some (mapLinks P !! x).
Proof using Type. unfold UpdateParent. destruct add; cbn [mapLinks add_usage with_links]; rewrite lookup_insert_is_Some'; naive_solver. Qed.

(** The child of several parents, and the parent of several children. *)
Lemma update_children it add l : ∀ P, let P' := foldl (λ P x, UpdateChild x it add P) P l in
  relinked P P' ∧ (∀ x, par P' x = par P x ∧ chi P' x = (if decide (x ∈ l) then change add it (chi P x) else chi P x)) ∧
  (∀ x, is_Some (mapLinks P' !! x) ↔ x ∈ l ∨ is_Some (mapLinks P !! x)).
Proof using Type.
  induction l as [|a l IH]; intros P; cbn [foldl]; cbn zeta.
  - split; [done|]. split; [by intros x; rewrite decide_False by apply not_elem_of_nil|]. intros x. split; [by right|]. intros [Hx|Hx]; [by apply elem_of_nil in Hx | done].
  - destruct (IH (UpdateChild a it add P)) as (H1 & H2 & H3). split; [etransitivity; [apply UpdateChild_relinked | exact H1]|].
    split; [|intros x; rewrite H3, UpdateChild_dom, elem_of_cons; naive_solver].
    intros x. destruct (H2 x) as [-> ->]. unfold par, chi. rewrite UpdateChild_links. destruct (decide (x = a)) as [->|Hne]; cbn [parents children].
    + split; [done|]. rewrite (decide_True (P := a ∈ a :: l)) by by left. destruct (decide (a ∈ l)); [|done]. unfold change, chi. destruct add; set_solver.
    + split; [done|]. destruct (decide (x ∈ l)) as [Hx|Hx]; [by rewrite decide_True by by right|]. rewrite decide_False; [done|]. by rewrite not_elem_of_cons.
Qed.

Lemma update_parents it add l : ∀ P, let P' := foldl (λ P x, UpdateParent x it add P) P l in
  relinked P P' ∧ (∀ x, chi P' x = chi P x ∧ par P' x = (if decide (x ∈ l) then change add it (par P x) else par P x)) ∧
  (∀ x, is_Some (mapLinks P' !! x) ↔ x ∈ l ∨ is_Some (mapLinks P !! x)).
Proof using Type.
  induction l as [|a l IH]; intros P; cbn [foldl]; cbn zeta.
  - split; [done|]. split; [by intros x; rewrite decide_False by apply not_elem_of_nil|]. intros x. split; [by right|]. intros [Hx|Hx]; [by apply elem_of_nil in Hx | done].
  - destruct (IH (UpdateParent a it add P)) as (H1 & H2 & H3). split; [etransitivity; [apply UpdateParent_relinked | exact H1]|].
    split; [|intros x; rewrite H3, UpdateParent_dom, elem_of_cons; naive_solver].
    intros x. destruct (H2 x) as [-> ->]. unfold par, chi. rewrite UpdateParent_links. destruct (decide (x = a)) as [->|Hne]; cbn [parents children].
    + split; [done|]. rewrite (decide_True (P := a ∈ a :: l)) by by left. destruct (decide (a ∈ l)); [|done]. unfold change, par. destruct add; set_solver.
    + split; [done|]. destruct (decide (x ∈ l)) as [Hx|Hx]; [by rewrite decide_True by by right|]. rewrite decide_False; [done|]. by rewrite not_elem_of_cons.
Qed.

(** Links and states change. *)
Record evolved P P' : Prop := {
  ev_bare : bare <$> mapTx P' = bare <$> mapTx P;
  ev_next : mapNextTx P' = mapNextTx P;
  ev_deltas : mapDeltas P' = mapDeltas P;
  ev_total : totalTxSize P' = totalTxSize P;
  ev_slack : slack P' = slack P;
  ev_cached : cachedInnerUsage P = u64 (cachedInnerUsage P) → cachedInnerUsage P' = u64 (cachedInnerUsage P')
}.

#[global] Instance evolved_refl : Reflexive evolved.
Proof using Type. intros P. by split. Qed.

#[global] Instance evolved_trans : Transitive evolved.
Proof using Type. intros P1 P2 P3 [] []. split; try (etransitivity; eassumption). eauto. Qed.

Lemma relinked_evolved P P' : relinked P P' → evolved P P'.
Proof using Type. intros []. split; try done. congruence. Qed.

Lemma restated_evolved P P' : restated P P' → evolved P P'.
Proof using Type. intros [E Hb]. split; [done|..]; rewrite E; done. Qed.

(** The facts on entries need only the maps. *)
Lemma evolved_restated P P' : evolved P P' → restated P (with_tx (mapTx P') P).
Proof using Type. intros []. by split. Qed.

Lemma evolved_pool P P' : evolved P P' → pool P' = pool P.
Proof using Type. intros H. apply (restated_pool P _ (evolved_restated _ _ H)). Qed.

Lemma evolved_total P P' D : evolved P P' → total (sz P') D = total (sz P) D ∧ total (fee P') D = total (fee P) D.
Proof using Type. intros H. apply (restated_total P _ D (evolved_restated _ _ H)). Qed.

Lemma evolved_sized P P' : evolved P P' → sized P → sized P'.
Proof using Type. intros H Hs. pose proof (restated_sized P _ (evolved_restated _ _ H) Hs) as []. by split. Qed.

Lemma evolved_entry P P' x e' : evolved P P' → mapTx P' !! x = Some e' → ∃ e, mapTx P !! x = Some e ∧ bare e = bare e'.
Proof using Type. intros H. apply (restated_entry P _ x e' (evolved_restated _ _ H)). Qed.

Lemma evolved_back P P' x e : evolved P P' → mapTx P !! x = Some e → ∃ e', mapTx P' !! x = Some e' ∧ bare e' = bare e.
Proof using Type. intros H. apply (restated_back P _ x e (evolved_restated _ _ H)). Qed.

Lemma relinked_counted P P' Dx : relinked P P' → counted_as P Dx → counted_as P' Dx.
Proof using Type. intros [E _ _ _ _ _] Hc x e. unfold state_is, sz, fee. rewrite E. apply Hc. Qed.

(** The descendants as a function. *)
Definition desc P (x : uint256) : setEntries := default ∅ (CalculateDescendants P x ∅).

Lemma desc_spec P x : linked P → x ∈ pool P → is_desc P x (desc P x).
Proof using Type.
  intros Hl Hx. unfold desc. destruct (CalculateDescendants_spec P x ∅ Hl Hx) as (D & -> & HD); [set_solver | set_solver|].
  intros y. cbn. rewrite HD. set_solver.
Qed.

Lemma counted_desc P : linked P → counted P ↔ counted_as P (desc P).
Proof using Type.
  intros Hl. split.
  - intros Hc x e He. eapply Hc; [done|]. apply desc_spec; [done | by eapply pool_intro].
  - intros Hc x e D He HD. rewrite (desc_unique P x D (desc P x)); [by apply Hc | done|]. apply desc_spec; [done | by eapply pool_intro].
Qed.

Lemma desc_sub P x : linked P → x ∈ pool P → desc P x ⊆ pool P.
Proof using Type. intros Hl Hx. eapply desc_pool; [done | done | by apply desc_spec]. Qed.

(** The entry becomes a child of its parents or stops to be one, and its ancestors count it. *)
Lemma UpdateAncestorsOf_spec (add : bool) (it : uint256) (A : setEntries) P (pars : setEntries) (e : CTxMemPoolEntry) (Dx Dx' : uint256 → setEntries) : sized P → mapTx P !! it = Some e → GetMemPoolParents P it = Some pars →
  counted_as P Dx → A ⊆ pool P →
  (∀ x, x ∈ A → Dx' x ⊆ pool P ∧ Dx' x ≠ ∅ ∧
     (if add then it ∉ Dx x ∧ Dx' x = {[it]} ∪ Dx x else it ∈ Dx x ∧ Dx' x = Dx x ∖ {[it]})) →
  (∀ x, x ∈ pool P → x ∉ A → Dx' x = Dx x) →
  ∃ P', UpdateAncestorsOf add it A P = Some P' ∧ evolved P P' ∧ counted_as P' Dx' ∧
    (∀ x, par P' x = par P x ∧ chi P' x = (if decide (x ∈ pars) then change add it (chi P x) else chi P x)) ∧
    (∀ x, is_Some (mapLinks P' !! x) ↔ x ∈ pars ∨ is_Some (mapLinks P !! x)).
Proof using Type.
  intros Hs He Hp Hc HA HD Hr. unfold UpdateAncestorsOf. rewrite Hp. cbn [mbind option_bind].
  destruct (update_children it add (in_order pars) P) as (H1 & H2 & H3). set (P1 := foldl _ _ _) in *.
  rewrite (rl_tx _ _ H1), He. cbn [mbind option_bind]. pose proof (relinked_evolved _ _ H1) as Hev.
  assert (Hsz : sz P it = nTxSize e ∧ fee P it = nFee e) by (unfold sz, fee; by rewrite He). destruct Hsz as [Esz Efee].
  destruct (update_all ((if add then 1 else -1) * nTxSize e) ((if add then 1 else -1) * nFee e) (if add then 1 else -1) Dx' (in_order A) P1 Dx) as (P2 & -> & R2 & C2).
  - apply NoDup_in_order.
  - by eapply evolved_sized.
  - by eapply relinked_counted.
  - intros x Hx%elem_of_in_order. rewrite (evolved_pool P P1) by done. by apply HA.
  - intros x Hx%elem_of_in_order. rewrite (evolved_pool P P1) by done. destruct (HD x Hx) as (B1 & B2 & B3). split; [done|]. split; [done|].
    destruct (evolved_total P P1 (Dx' x) Hev) as [-> ->]. destruct (evolved_total P P1 (Dx x) Hev) as [-> ->].
    destruct add; destruct B3 as [Bi ->].
    + rewrite !total_insert, size_insert by done. lia.
    + rewrite (size_remove it (Dx x)) by done. rewrite <- Esz, <- Efee.
      assert (Es : ∀ f : uint256 → Z, total f (Dx x ∖ {[it]}) = total f (Dx x) - f it); [|rewrite !Es; lia].
      intros f. rewrite (total_split f (Dx x) {[it]}) by set_solver. unfold total at 2. rewrite elements_singleton. cbn. lia.
  - intros x Hx Hn. rewrite (evolved_pool P P1) in Hx by done. apply Hr; [done|]. by rewrite <- elem_of_in_order.
  - exists P2. split; [done|]. split; [etransitivity; [exact Hev | by apply restated_evolved]|]. split; [done|]. split.
    + intros x. destruct (restated_par P1 P2 x R2) as [-> ->]. destruct (H2 x) as [-> ->]. split; [done|].
      destruct (decide (x ∈ in_order pars)) as [Hx|Hx]; rewrite elem_of_in_order in Hx; [by rewrite decide_True | by rewrite decide_False].
    + intros x. rewrite (restated_links P1 P2), H3, elem_of_in_order by done. done.
Qed.

(** ** Inputs, outputs and totals *)

(** The links are the inputs that spend outputs of the pool, except the pairs of a parent and a
    child that wait for [UpdateTransactionsFromBlock]. *)
Record tracked (wait : edges) P : Prop := {
  tr_links : ∀ x y e, mapTx P !! y = Some e → (x ∈ par P y ↔ x ∈ pool P ∧ spends (tx e) x ∧ ¬ wait x y);
  tr_next : ∀ o c n, mapNextTx P !! o = Some (c, n) ↔
    ∃ e txin, mapTx P !! c = Some e ∧ 0 <= n ∧ Tx.vin (tx e) !! Z.to_nat n = Some txin ∧ Tx.prevout txin = o;
  tr_total : totalTxSize P = u64 (msum nTxSize (mapTx P));
  tr_usage : slack P = u64 (msum nUsageSize (mapTx P));
  tr_cached : cachedInnerUsage P = u64 (cachedInnerUsage P)
}.

Record pool_at (wait : edges) P : Prop := {
  p_linked : linked P;
  p_sized : sized P;
  p_counted : counted P;
  p_tracked : tracked wait P
}.

Definition none : edges := λ _ _, False.
Definition pool_ok P : Prop := pool_at none P.

Lemma elem_of_parents t x : spends t x ↔ ∃ i txin, Tx.vin t !! i = Some txin ∧ (Tx.prevout txin).1 = x.
Proof using Type.
  unfold spends, setParentTransactions. rewrite elem_of_list_to_set, list_elem_of_fmap. split.
  - intros (txin & -> & Hin). apply list_elem_of_lookup in Hin as [i Hi]. by exists i, txin.
  - intros (i & txin & Hi & <-). exists txin. split; [done|]. by eapply list_elem_of_lookup_2.
Qed.

(** The inputs of a new transaction are not spent in the pool, and differ. *)
Lemma mark_spent_lookup h vin : ∀ i m, 0 <= i → NoDup (map Tx.prevout vin) → (∀ txin, txin ∈ vin → m !! Tx.prevout txin = None) →
  ∀ o v, mark_spent h i vin m !! o = Some v ↔ m !! o = Some v ∨ ∃ k txin, vin !! k = Some txin ∧ Tx.prevout txin = o ∧ v = (h, i + Z.of_nat k).
Proof using Type.
  induction vin as [|txin vin IH]; intros i m Hi Hnd Hm o v; cbn [mark_spent].
  - split; [by left|]. intros [H|(k & t & Hk & _)]; [done|]. by rewrite lookup_nil in Hk.
  - cbn [map] in Hnd. apply NoDup_cons in Hnd as [Hn Hnd]. rewrite IH; [|lia|done|].
    + rewrite lookup_insert_Some. split.
      * intros [[[<- <-]|[Hne Ho]]|(k & t & Hk & Ho & ->)]; [right; exists 0%nat, txin; cbn; rewrite Z.add_0_r; done | by left |].
        right. exists (S k), t. split; [done|]. split; [done|]. f_equal. lia.
      * intros [Ho|([|k] & t & Hk & Ho & ->)].
        -- left. right. split; [|done]. intros <-. rewrite (Hm txin ltac:(by left)) in Ho. done.
        -- left. left. cbn in Hk. injection Hk as <-. rewrite Z.add_0_r. done.
        -- right. exists k, t. split; [done|]. split; [done|]. f_equal. lia.
    + intros t Ht. rewrite lookup_insert_ne; [apply Hm; by right|]. intros E. apply Hn. rewrite E. apply list_elem_of_fmap. by exists t.
Qed.

(** ** Adding a transaction *)

(** What [AcceptToMemoryPool] checks before, and no transaction of the pool that is linked spends
    the new one.  [wait'] is what waits afterwards. *)
Record addable (wait wait' : edges) P (h : uint256) (entry : CTxMemPoolEntry) : Prop := {
  a_hash : Tx.GetHash (tx entry) = h;
  a_new : h ∉ pool P;
  a_state : nCountWithDescendants entry = 1 ∧ nSizeWithDescendants entry = nTxSize entry ∧ nFeesWithDescendants entry = nFee entry;
  a_size : 0 < nTxSize entry ∧ total (sz P) (pool P) + nTxSize entry < 2 ^ 63;
  a_fee : 0 <= nFee entry ∧ total (fee P) (pool P) + nFee entry < 2 ^ 63;
  a_inputs : NoDup (map Tx.prevout (Tx.vin (tx entry)));
  a_unspent : ∀ txin, txin ∈ Tx.vin (tx entry) → mapNextTx P !! Tx.prevout txin = None;
  a_self : ¬ spends (tx entry) h;
  a_wait : ∀ x y, x ∈ pool P → y ∈ pool P → wait' x y ↔ wait x y;
  a_children : ∀ y e, mapTx P !! y = Some e → spends (tx e) h → wait' h y;
  a_parents : ∀ x, x ∈ pool P → ¬ wait' x h
}.

(** The links that come with a new entry. *)
Lemma link_parents_spec h l : ∀ P, let P' := link_parents h l P in
  relinked P P' ∧ (∀ x, chi P' x = chi P x ∧ par P' x = if decide (x = h) then list_to_set (List.filter (λ y, bool_decide (y ∈ pool P)) l) ∪ par P h else par P x) ∧
  (∀ x, is_Some (mapLinks P !! h) → is_Some (mapLinks P' !! x) ↔ is_Some (mapLinks P !! x)).
Proof using Type.
  induction l as [|y l IH]; intros P; cbn [link_parents foldl]; cbn zeta.
  - split; [done|]. split; [|done]. intros x. split; [done|]. destruct (decide (x = h)) as [->|]; [|done]. cbn. set_solver.
  - unfold link_parents in IH. cbn [List.filter]. destruct (mapTx P !! y) as [e|] eqn:Ey.
    + destruct (IH (UpdateParent h y true P)) as (H1 & H2 & H3). pose proof (UpdateParent_relinked h y true P) as Hr.
      rewrite bool_decide_true by by eapply pool_intro. assert (Ep : pool (UpdateParent h y true P) = pool P) by (unfold pool; by rewrite (rl_tx _ _ Hr)).
      split; [by etransitivity|]. split.
      * intros x. destruct (H2 x) as [-> ->]. rewrite Ep. unfold par, chi. rewrite !UpdateParent_links. destruct (decide (x = h)) as [->|Hne]; cbn [parents children].
        -- split; [done|]. rewrite decide_True by done. cbn [parents list_to_set]. unfold change, par. set_solver.
        -- done.
      * intros x Hh. rewrite H3; [|apply UpdateParent_dom; by left]. rewrite UpdateParent_dom. split; [|by right]. by intros [->|Hx].
    + destruct (IH P) as (H1 & H2 & H3). rewrite bool_decide_false; [done|]. intros [e He]%pool_entry. congruence.
Qed.

Lemma list_pool_parents P t : list_to_set (List.filter (λ y, bool_decide (y ∈ pool P)) (in_order (setParentTransactions t))) = pool_parents P t.
Proof using Type.
  apply set_eq. intros x. rewrite elem_of_list_to_set, list_elem_of_In, filter_In, <- list_elem_of_In, elem_of_in_order, bool_decide_eq_true, elem_of_pool_parents. unfold spends. tauto.
Qed.

(** A new source [h] of a relation that does not touch it. *)
Section Source.
Context (R R' : edges) (h : uint256) (pp : setEntries).
Context (HR : ∀ y x, R' y x ↔ R y x ∨ y = h ∧ x ∈ pp) (Hh : ∀ y x, R y x → y ≠ h ∧ x ≠ h) (Hp : h ∉ pp).

Lemma source_rtc y x : y ≠ h → rtc R' y x ↔ rtc R y x.
Proof using HR Hh.
  intros Hy. split.
  - intros Hr. induction Hr as [|y z x Hyz _ IH]; [done|]. apply HR in Hyz as [Hyz|[-> _]]; [|done]. eapply rtc_l; [done|]. apply IH. by apply Hh in Hyz as [_ ?].
  - intros Hr. eapply rtc_subrel; [|done]. intros a b Hab. apply HR. by left.
Qed.

Lemma source_head x : rtc R' h x ↔ x = h ∨ ∃ p, p ∈ pp ∧ rtc R p x.
Proof using HR Hh Hp.
  split.
  - intros Hr. apply rtc_inv in Hr as [->|(z & Hz & Hr)]; [by left|]. right. apply HR in Hz as [Hz|[_ Hz]]; [by apply Hh in Hz as [? _]|].
    exists z. split; [done|]. apply source_rtc in Hr; [done|]. by intros ->.
  - intros [->|(p & Hpp & Hr)]; [done|]. eapply rtc_l; [apply HR; by right|]. apply source_rtc; [by intros ->|done].
Qed.

Lemma source_last p x : p ≠ h → rtc R p x → x ≠ h.
Proof using Hh. intros Hn Hr. apply rtc_inv_r in Hr as [<-|(z & _ & Hz)]; [done|]. by apply Hh in Hz as [_ ?]. Qed.

Lemma source_acyclic : (∀ x, ¬ tc R x x) → ∀ x, ¬ tc R' x x.
Proof using HR Hh Hp.
  intros Ha x Ht. assert (Hz : ∃ z, R' x z ∧ rtc R' z x).
  { inversion Ht as [? ? H1|? z ? H1 H2]; subst; [exists x; by split | exists z; split; [done | by apply tc_rtc]]. }
  destruct Hz as (z & Hxz & Hr). apply HR in Hxz as [Hxz|[-> Hz]].
  - pose proof (Hh x z Hxz) as [Hx Hz]. apply source_rtc in Hr; [|done]. apply (Ha x). by eapply tc_rtc_r; [apply tc_once|].
  - assert (z ≠ h) by by intros ->. apply source_rtc in Hr; [|done]. by apply source_last in Hr.
Qed.
End Source.

(** A changed fee delta. *)
Lemma prioritised wait P P' x e d : mapTx P !! x = Some e → mapTx P' = <[x := UpdateFeeDelta d e]> (mapTx P) → mapLinks P' = mapLinks P →
  mapNextTx P' = mapNextTx P → totalTxSize P' = totalTxSize P → cachedInnerUsage P' = cachedInnerUsage P → pool_at wait P → pool_at wait P'.
Proof using Type.
  intros He Em El En Et Eu [Hl Hs Hc Ht].
  assert (Hin : ∀ y e', mapTx P' !! y = Some e' → ∃ e0 d', mapTx P !! y = Some e0 ∧ (e' = e0 ∨ e' = UpdateFeeDelta d' e0)).
  { intros y e'. rewrite Em, lookup_insert_Some. intros [[<- <-]|[_ Hy]]; [exists e, d; by split; [|right] | exists e', 0; by split; [|left]]. }
  assert (Hpool : pool P' = pool P) by (unfold pool; rewrite Em; apply dom_insert_lookup_L; by eexists).
  assert (Hf : ∀ (f : CTxMemPoolEntry → Z) y, (∀ e d, f (UpdateFeeDelta d e) = f e) → from_option f 0 (mapTx P' !! y) = from_option f 0 (mapTx P !! y)).
  { intros f y Hf. rewrite Em. destruct (decide (y = x)) as [->|]; [rewrite lookup_insert_eq, He; apply Hf | by rewrite lookup_insert_ne]. }
  assert (Hm : ∀ (f : CTxMemPoolEntry → Z), (∀ e d, f (UpdateFeeDelta d e) = f e) → msum f (mapTx P') = msum f (mapTx P)).
  { intros f Hf'. rewrite <- !msum_dom. fold (pool P') (pool P). rewrite Hpool. apply total_ext. intros y _. by apply Hf. }
  assert (Hsum : ∀ D, total (sz P') D = total (sz P) D ∧ total (fee P') D = total (fee P) D) by (intros D; split; apply total_ext; intros y _; by apply Hf).
  assert (Hlk : ∀ y, links_at P' y = links_at P y) by (intros y; by apply links_eq).
  assert (Hpar : ∀ y, par P' y = par P y ∧ chi P' y = chi P y) by (intros y; unfold par, chi; by rewrite Hlk).
  assert (Hdep : ∀ y z, dep P' y z ↔ dep P y z) by (intros y z; unfold dep; by destruct (Hpar y) as [-> _]).
  split.
  - destruct Hl as [L1 L2 L3 L4]. split.
    + intros y. rewrite El, Hpool. apply L1.
    + intros y z. destruct (Hpar z) as [-> _], (Hpar y) as [_ ->]. apply L2.
    + intros y z. destruct (Hpar z) as [-> _]. rewrite Hpool. apply L3.
    + intros y Hy. apply (L4 y). eapply tc_mono; [|exact Hy]. intros a b. apply Hdep.
  - destruct Hs as [S1 S2 S3 S4 S5]. split; [| | |by rewrite Hpool, (proj1 (Hsum _)) | by rewrite Hpool, (proj2 (Hsum _))];
      intros y e' He'; destruct (Hin y e' He') as (e0 & d' & He0 & [->| ->]); cbn; eauto.
  - intros y e' D He' HD. destruct (Hin y e' He') as (e0 & d' & He0 & Hor). assert (HD0 : is_desc P y D).
    { intros z. rewrite (HD z). split; apply rtc_subrel; intros a b; apply Hdep. }
    pose proof (Hc y e0 D He0 HD0) as H0. unfold state_is in *. destruct (Hsum D) as [-> ->]. by destruct Hor as [->| ->].
  - destruct Ht as [T1 T2 T3 T4 T5]. split.
    + intros y z e' He'. destruct (Hin z e' He') as (e0 & d' & He0 & Hor). destruct (Hpar z) as [-> _]. rewrite Hpool, (T1 y z e0 He0). by destruct Hor as [->| ->].
    + intros o c n. rewrite En, T2. split; intros (e1 & txin & H1 & H2 & H3).
      * assert (Hx : ∃ e', mapTx P' !! c = Some e') by (apply pool_entry; rewrite Hpool; by eapply pool_intro). destruct Hx as [e' He'].
        destruct (Hin c e' He') as (e0 & d' & He0 & Hor). rewrite H1 in He0. injection He0 as <-. exists e', txin. split; [done|]. split; [done|]. by destruct Hor as [->| ->].
      * destruct (Hin c e1 H1) as (e0 & d' & He0 & Hor). exists e0, txin. split; [done|]. split; [done|]. by destruct Hor as [->| ->].
    + by rewrite Et, T3, Hm.
    + unfold slack. rewrite Eu, El. fold (slack P). by rewrite T4, Hm.
    + by rewrite Eu.
Qed.

Section Add.
Context (wait wait' : edges) (P : CTxMemPool) (h : uint256) (entry : CTxMemPoolEntry) (A : setEntries).
Context (Hok : pool_at wait P) (Hadd : addable wait wait' P h entry).
Context (HA : ∀ y, y ∈ A ↔ ∃ x, x ∈ pool_parents P (tx entry) ∧ rtc (dep P) x y).

Let pp : setEntries := pool_parents P (tx entry).

(** The pool before the ancestors are updated. *)
Let P0 : CTxMemPool := with_next (mark_spent h 0 (Tx.vin (tx entry)) (mapNextTx P))
  (add_usage (nUsageSize entry) (with_links (<[h := no_links]> (mapLinks P)) (with_tx (<[h := entry]> (mapTx P)) P))).
Let P1 : CTxMemPool := link_parents h (in_order (setParentTransactions (tx entry))) P0.

Lemma add_fresh : mapTx P !! h = None ∧ mapLinks P !! h = None.
Proof using All.
  assert (Hn : mapTx P !! h = None) by (apply not_elem_of_dom, (a_new _ _ _ _ _ Hadd)). split; [done|].
  destruct (mapLinks P !! h) as [l|] eqn:E; [|done]. exfalso. apply (a_new _ _ _ _ _ Hadd), (lk_dom _ (p_linked _ _ Hok)). by eexists.
Qed.

Lemma add_pool0 : pool P0 = {[h]} ∪ pool P.
Proof using All. unfold pool. cbn. apply dom_insert_L. Qed.

Lemma add_pp0 : pool_parents P0 (tx entry) = pp.
Proof using All.
  apply set_eq. intros x. unfold pp. rewrite !elem_of_pool_parents, add_pool0. pose proof (a_self _ _ _ _ _ Hadd). set_solver.
Qed.

Lemma add_pp_pool : pp ⊆ pool P ∧ h ∉ pp.
Proof using All. split; [intros x Hx; by apply elem_of_pool_parents in Hx as [Hx _]|]. intros Hx. apply elem_of_pool_parents in Hx as [Hx _]. by apply (a_new _ _ _ _ _ Hadd). Qed.

Lemma links0 x : links_at P0 x = if decide (x = h) then no_links else links_at P x.
Proof using All. unfold links_at, P0. cbn. destruct (decide (x = h)) as [->|]; [by rewrite lookup_insert_eq | by rewrite lookup_insert_ne]. Qed.

Lemma add_links1 : relinked P0 P1 ∧ (∀ x, chi P1 x = (if decide (x = h) then ∅ else chi P x) ∧ par P1 x = if decide (x = h) then pp else par P x) ∧
  (∀ x, is_Some (mapLinks P1 !! x) ↔ x = h ∨ x ∈ pool P).
Proof using All.
  destruct (link_parents_spec h (in_order (setParentTransactions (tx entry))) P0) as (H1 & H2 & H3). fold P1 in H1, H2, H3. split; [done|]. split.
  - intros x. destruct (H2 x) as [-> ->]. rewrite list_pool_parents, add_pp0. unfold par, chi. rewrite !links0.
    destruct (decide (x = h)) as [->|]; [|done]. rewrite decide_True by done. cbn. split; [done | set_solver].
  - intros x. rewrite H3; unfold P0; cbn; rewrite lookup_insert_is_Some'; [|by left]. rewrite (lk_dom _ (p_linked _ _ Hok)). naive_solver.
Qed.

Lemma add_tx1 : mapTx P1 = <[h := entry]> (mapTx P).
Proof using All. by destruct add_links1 as [[E _ _ _ _ _] _]. Qed.

Lemma add_pool1 : pool P1 = {[h]} ∪ pool P.
Proof using All. unfold pool. rewrite add_tx1. apply dom_insert_L. Qed.

Lemma add_lookup1 x e : mapTx P1 !! x = Some e ↔ x = h ∧ e = entry ∨ x ≠ h ∧ mapTx P !! x = Some e.
Proof using All. rewrite add_tx1, lookup_insert_Some. naive_solver. Qed.

Lemma add_sz1 x : sz P1 x = (if decide (x = h) then nTxSize entry else sz P x) ∧ fee P1 x = if decide (x = h) then nFee entry else fee P x.
Proof using All. unfold sz, fee. rewrite add_tx1. destruct (decide (x = h)) as [->|]; [by rewrite lookup_insert_eq | by rewrite lookup_insert_ne]. Qed.

Lemma add_total1 D : h ∉ D → total (sz P1) D = total (sz P) D ∧ total (fee P1) D = total (fee P) D.
Proof using All.
  intros Hn. split; apply total_ext; intros x Hx; destruct (add_sz1 x) as [E1 E2]; rewrite ?E1, ?E2, decide_False; [done | by intros -> | done | by intros ->].
Qed.

Lemma add_sized1 : sized P1.
Proof using All.
  pose proof (p_sized _ _ Hok) as [S1 S2 S3 S4 S5]. pose proof (a_new _ _ _ _ _ Hadd) as Hn. pose proof (a_size _ _ _ _ _ Hadd). pose proof (a_fee _ _ _ _ _ Hadd).
  destruct (add_total1 (pool P) Hn) as [E1 E2]. destruct (add_sz1 h) as [E3 E4]. rewrite decide_True in E3, E4 by done.
  split; [intros x e He; apply add_lookup1 in He as [[-> ->]|[_ He]] .. | |].
  - apply Hadd.
  - by apply S1.
  - lia.
  - by eapply S2.
  - lia.
  - by eapply S3.
  - rewrite add_pool1, total_insert by done. lia.
  - rewrite add_pool1, total_insert by done. lia.
Qed.

(** The descendants after the transaction was added. *)
Let Dx (x : uint256) : setEntries := if decide (x = h) then {[h]} else desc P x.
Let Dx' (x : uint256) : setEntries := if decide (x = h) then {[h]} else if decide (x ∈ A) then {[h]} ∪ desc P x else desc P x.

Lemma add_A : A ⊆ pool P.
Proof using All.
  intros y Hy. apply HA in Hy as (x & Hx & Hr). apply add_pp_pool in Hx. apply dep_in in Hr as [->|[Hy _]]; [done | done | by apply Hok].
Qed.

Lemma add_desc_h x : x ∈ pool P → h ∉ desc P x.
Proof using All. intros Hx Hin. apply (a_new _ _ _ _ _ Hadd). eapply desc_sub; [apply Hok | exact Hx | done]. Qed.

Lemma add_counted1 : counted_as P1 Dx.
Proof using All.
  intros x e He. unfold Dx. apply add_lookup1 in He as [[-> ->]|[Hne He]].
  - rewrite decide_True by done. pose proof (a_state _ _ _ _ _ Hadd) as (E1 & E2 & E3). unfold state_is, IsDirty. rewrite E1. cbn [Z.eqb].
    unfold total. rewrite elements_singleton. cbn [sum_of foldr]. destruct (add_sz1 h) as [-> ->]. rewrite !decide_True by done. rewrite size_singleton. lia.
  - rewrite decide_False by done. pose proof (p_counted _ _ Hok x e (desc P x) He) as Hc.
    assert (Hx : x ∈ pool P) by by eapply pool_intro. specialize (Hc (desc_spec P x (p_linked _ _ Hok) Hx)).
    unfold state_is in *. destruct (add_total1 (desc P x) (add_desc_h x Hx)) as [-> ->]. done.
Qed.

Lemma add_ancestors : ∃ P2, UpdateAncestorsOf true h A P1 = Some P2 ∧ evolved P1 P2 ∧ counted_as P2 Dx' ∧
  (∀ x, par P2 x = (if decide (x = h) then pp else par P x) ∧ chi P2 x = if decide (x = h) then ∅ else if decide (x ∈ pp) then {[h]} ∪ chi P x else chi P x) ∧
  (∀ x, is_Some (mapLinks P2 !! x) ↔ x ∈ {[h]} ∪ pool P).
Proof using All.
  destruct add_links1 as (H1 & H2 & H3). destruct add_pp_pool as [Hpp Hph]. pose proof (a_new _ _ _ _ _ Hadd) as Hn.
  assert (He : mapTx P1 !! h = Some entry) by (apply add_lookup1; by left).
  assert (Hpars : GetMemPoolParents P1 h = Some pp).
  { unfold GetMemPoolParents. rewrite He. cbn [mbind option_bind]. destruct (proj2 (H3 h) (or_introl eq_refl)) as [l El]. rewrite El. cbn [mbind option_bind].
    destruct (H2 h) as [_ Ep]. rewrite decide_True in Ep by done. unfold par, links_at in Ep. rewrite El in Ep. cbn in Ep. by rewrite Ep. }
  destruct (UpdateAncestorsOf_spec true h A P1 pp entry Dx Dx' add_sized1 He Hpars add_counted1) as (P2 & E & Hev & Hc & Hl & Hd).
  - rewrite add_pool1. pose proof add_A. set_solver.
  - intros x Hx. pose proof (add_A x Hx) as Hxp. assert (x ≠ h) by by intros ->. unfold Dx, Dx'. rewrite !decide_False by done. rewrite decide_True by done.
    pose proof (desc_sub P x (p_linked _ _ Hok) Hxp). pose proof (add_desc_h x Hxp). rewrite add_pool1. split; [set_solver|]. split; [set_solver|]. rewrite decide_False by done. by split.
  - intros x Hx Hnx. unfold Dx, Dx'. destruct (decide (x = h)); [done|]. by rewrite decide_False.
  - exists P2. split; [done|]. split; [done|]. split; [done|]. split.
    + intros x. destruct (Hl x) as [-> ->]. destruct (H2 x) as [-> ->]. split; [done|]. destruct (decide (x = h)) as [->|]; [by rewrite decide_False|]. done.
    + intros x. rewrite Hd, H3. set_solver.
Qed.

Lemma no_links_bytes : set_bytes no_links = 0.
Proof using Type. unfold set_bytes, set_usage. cbn. rewrite size_empty. lia. Qed.

Lemma add_slack P2 : evolved P1 P2 → slack P2 = u64 (msum nUsageSize (mapTx P2)) ∧ cachedInnerUsage P2 = u64 (cachedInnerUsage P2).
Proof using All.
  intros Hev. destruct add_links1 as ([E1 _ _ _ E5 E6] & _). destruct add_fresh as [F1 F2]. split.
  - rewrite (ev_slack _ _ Hev), E5, (msum_bare nUsageSize (mapTx P1)); [|intros e e' Hb; apply bare_fields in Hb; tauto | apply Hev].
    rewrite add_tx1, msum_fresh by done. unfold slack, P0. cbn [cachedInnerUsage mapLinks with_next add_usage with_links with_tx].
    rewrite msum_fresh, no_links_bytes by done. pose proof (tr_usage _ _ (p_tracked _ _ Hok)) as Hu. unfold slack in Hu.
    replace (u64 (cachedInnerUsage P + nUsageSize entry) - (0 + msum set_bytes (mapLinks P))) with (u64 (cachedInnerUsage P + nUsageSize entry) + - msum set_bytes (mapLinks P)) by lia.
    rewrite u64_add_l. replace (cachedInnerUsage P + nUsageSize entry + - msum set_bytes (mapLinks P)) with (cachedInnerUsage P - msum set_bytes (mapLinks P) + nUsageSize entry) by lia.
    rewrite <- u64_add_l, Hu, u64_add_l. f_equal. lia.
  - apply (ev_cached _ _ Hev), E6. unfold P0. cbn. by rewrite u64_idem.
Qed.

Section Final.
Context (P2 P3 : CTxMemPool) (Hev : evolved P1 P2) (Hc2 : counted_as P2 Dx').
Context (Hl2 : ∀ x, par P2 x = (if decide (x = h) then pp else par P x) ∧ chi P2 x = if decide (x = h) then ∅ else if decide (x ∈ pp) then {[h]} ∪ chi P x else chi P x).
Context (Hd2 : ∀ x, is_Some (mapLinks P2 !! x) ↔ x ∈ {[h]} ∪ pool P) (H3 : P3 = add_total (nTxSize entry) (add_updated 1 P2)).

Lemma final_pool : pool P2 = {[h]} ∪ pool P.
Proof using All. rewrite (evolved_pool P1 P2) by done. apply add_pool1. Qed.

Lemma final_entry x e : mapTx P2 !! x = Some e → x = h ∧ bare e = bare entry ∨ x ≠ h ∧ ∃ e0, mapTx P !! x = Some e0 ∧ bare e = bare e0.
Proof using All.
  intros He. destruct (evolved_entry P1 P2 x e Hev He) as (e0 & He0 & Hb). apply add_lookup1 in He0 as [[-> ->]|[Hne He0]]; [by left|]. right. split; [done|]. by exists e0.
Qed.

Lemma final_back x e : x = h ∧ e = entry ∨ x ≠ h ∧ mapTx P !! x = Some e → ∃ e', mapTx P2 !! x = Some e' ∧ bare e' = bare e.
Proof using All. intros H. apply (evolved_back P1 P2); [done|]. by apply add_lookup1. Qed.

Lemma final_dep y x : dep P2 y x ↔ dep P y x ∨ y = h ∧ x ∈ pp.
Proof using All.
  unfold dep. destruct (Hl2 y) as [-> _]. destruct (decide (y = h)) as [->|]; [|naive_solver]. split; [by right|]. intros [Hx|[_ Hx]]; [|done].
  apply (lk_in _ (p_linked _ _ Hok)) in Hx as [_ Hx]. by apply (a_new _ _ _ _ _ Hadd) in Hx.
Qed.

Lemma dep_not_h y x : dep P y x → y ≠ h ∧ x ≠ h.
Proof using All. intros H. apply (lk_in _ (p_linked _ _ Hok)) in H as [Hx Hy]. split; intros ->; by apply (a_new _ _ _ _ _ Hadd). Qed.

Lemma final_linked : linked P2.
Proof using All.
  pose proof (p_linked _ _ Hok) as [L1 L2 L3 L4]. pose proof (a_new _ _ _ _ _ Hadd) as Hn. destruct add_pp_pool as [Hpp Hph]. split.
  - intros x. rewrite Hd2, final_pool. done.
  - intros x y. destruct (Hl2 y) as [-> _], (Hl2 x) as [_ ->]. destruct (decide (y = h)) as [->|Hy], (decide (x = h)) as [->|Hx].
    + set_solver.
    + destruct (decide (x ∈ pp)) as [Hp|Hp]; [set_solver|]. split; [done|]. intros Hh. apply L2, L3 in Hh as [_ Hh]. done.
    + split; [intros Hh; apply L3 in Hh as [Hh _]; done | set_solver].
    + rewrite L2. destruct (decide (x ∈ pp)); set_solver.
  - intros x y Hx. apply final_dep in Hx as [Hx|[-> Hx]]; rewrite final_pool; [apply L3 in Hx; set_solver | set_solver].
  - eapply (source_acyclic (dep P)); [apply final_dep | apply dep_not_h | done | done].
Qed.

Lemma final_counted : counted P2.
Proof using All.
  intros x e D He HD. replace D with (Dx' x); [by apply Hc2|]. apply set_eq. intros y. rewrite (HD y). destruct add_pp_pool as [Hpp Hph].
  assert (Hx : x ∈ {[h]} ∪ pool P) by (rewrite <- final_pool; by eapply pool_intro). unfold Dx'.
  destruct (decide (y = h)) as [->|Hy].
  - rewrite (source_head (dep P) _ h pp final_dep dep_not_h Hph).
    assert (HA' : (∃ p, p ∈ pp ∧ rtc (dep P) p x) ↔ x ∈ A) by (symmetry; apply HA). rewrite HA'. clear HA'. destruct (decide (x = h)) as [->|Hne]; [set_solver|].
    assert (Hxp : x ∈ pool P) by set_solver. pose proof (add_desc_h x Hxp). destruct (decide (x ∈ A)); set_solver.
  - rewrite (source_rtc (dep P) _ h pp final_dep dep_not_h) by done. destruct (decide (x = h)) as [->|Hne].
    + split; [set_solver|]. intros Hr. by apply (source_last (dep P) h dep_not_h) in Hr.
    + assert (Hxp : x ∈ pool P) by set_solver. pose proof (desc_spec P x (p_linked _ _ Hok) Hxp y) as Hs. destruct (decide (x ∈ A)); set_solver.
Qed.

Lemma final_tracked : tracked wait' P3.
Proof using All.
  pose proof (p_tracked _ _ Hok) as [T1 T2 T3 T4 T5]. pose proof (a_new _ _ _ _ _ Hadd) as Hn. destruct (add_slack P2 Hev) as [U1 U2].
  assert (Ep : pool P3 = {[h]} ∪ pool P) by (rewrite H3; apply final_pool).
  split; rewrite ?H3 in *; cbn [mapTx mapNextTx add_total add_updated totalTxSize cachedInnerUsage] in *.
  - intros x y e He. change (par (add_total (nTxSize entry) (add_updated 1 P2)) y) with (par P2 y). rewrite Ep. destruct (Hl2 y) as [-> _].
    apply final_entry in He as [[-> Hb]|(Hne & e0 & He0 & Hb)]; apply bare_fields in Hb as (-> & _).
    + rewrite decide_True by done. unfold pp. rewrite elem_of_pool_parents. pose proof (a_self _ _ _ _ _ Hadd). pose proof (a_parents _ _ _ _ _ Hadd x). set_solver.
    + rewrite decide_False by done. rewrite (T1 x y e0 He0). assert (Hy : y ∈ pool P) by by eapply pool_intro.
      pose proof (a_wait _ _ _ _ _ Hadd x y). pose proof (a_children _ _ _ _ _ Hadd y e0 He0). destruct (decide (x = h)) as [->|]; [|set_solver].
      split; [by intros (? & _)|]. intros (_ & Hs & Hw). exfalso. by apply Hw, H0.
  - intros o c n. rewrite (ev_next _ _ Hev). destruct add_links1 as ([_ En _ _ _ _] & _). rewrite En. unfold P0. cbn [mapNextTx with_next].
    rewrite mark_spent_lookup; [|lia|apply Hadd|apply Hadd]. rewrite T2. split.
    + intros [(e & txin & He & Hr)|(k & txin & Hk & Ho & Hv)].
      * destruct (final_back c e) as (e' & He' & Hb); [right; split; [|done]; intros ->; by apply Hn; eapply pool_intro|]. apply bare_fields in Hb as (Et & _).
        exists e', txin. by rewrite Et.
      * injection Hv as -> ->. destruct (final_back h entry) as (e' & He' & Hb); [by left|]. apply bare_fields in Hb as (Et & _). exists e', txin. rewrite Et.
        split; [done|]. split; [lia|]. by rewrite Z.add_0_l, Nat2Z.id.
    + intros (e & txin & He & Hz & Hk & Ho). apply final_entry in He as [[-> Hb]|(Hne & e0 & He0 & Hb)]; apply bare_fields in Hb as (Et & _); rewrite Et in Hk.
      * right. exists (Z.to_nat n), txin. split; [done|]. split; [done|]. f_equal. lia.
      * left. by exists e0, txin.
  - rewrite (ev_total _ _ Hev). destruct add_links1 as ([_ _ _ Et _ _] & _). rewrite Et. unfold P0. cbn [totalTxSize with_next]. 
    rewrite (msum_bare nTxSize (mapTx P1)); [|intros e e' Hb; apply bare_fields in Hb; tauto | apply Hev]. rewrite add_tx1, msum_fresh by apply add_fresh.
    cbn [totalTxSize add_usage with_links with_tx]. rewrite T3, u64_add_l. f_equal. lia.
  - exact U1.
  - exact U2.
Qed.

Lemma final_ok : pool_at wait' P3.
Proof using All.
  pose proof final_linked as [L1 L2 L3 L4]. pose proof (evolved_sized P1 P2 Hev add_sized1) as [S1 S2 S3 S4 S5]. pose proof final_counted as Hc. pose proof final_tracked as Ht.
  rewrite H3 in *. split; [by split | by split | exact Hc | exact Ht].
Qed.
End Final.

(** Adding a transaction keeps the invariant. *)
Lemma addUnchecked_to_ok : ∃ P', addUnchecked_to h entry A P = Some P' ∧ pool_at wait' P' ∧ pool P' = {[h]} ∪ pool P ∧ mapDeltas P' = mapDeltas P ∧
  ∀ x, core <$> mapTx P' !! x = if decide (x = h) then Some (core entry) else core <$> mapTx P !! x.
Proof using All.
  destruct add_ancestors as (P2 & E & Hev & Hc & Hl & Hd). set (P3 := add_total (nTxSize entry) (add_updated 1 P2)).
  pose proof (final_ok P2 P3 Hev Hc Hl Hd eq_refl) as Hok3. unfold addUnchecked_to. rewrite (a_hash _ _ _ _ _ Hadd). cbn zeta.
  destruct add_fresh as [F1 F2]. rewrite F1. cbn [mapLinks with_tx]. rewrite F2. cbn [mapTx with_tx with_links add_usage]. rewrite lookup_insert_eq. cbn [mbind option_bind].
  change (link_parents h (in_order (setParentTransactions (tx entry))) _) with P1. rewrite E. cbn [mbind option_bind].
  assert (Edel : mapDeltas P2 = mapDeltas P) by (rewrite (ev_deltas _ _ Hev); by destruct add_links1 as ([_ _ -> _ _ _] & _)).
  assert (Etx : ∀ x, core <$> mapTx P2 !! x = if decide (x = h) then Some (core entry) else core <$> mapTx P !! x).
  { intros x. destruct (mapTx P2 !! x) as [e|] eqn:Ex.
    - destruct (final_entry P2 P3 Hev Hc Hl Hd eq_refl x e Ex) as [[-> Hb]|(Hne & e0 & He0 & Hb)]; apply bare_core in Hb as Eb.
      + rewrite decide_True by done. cbn. by rewrite Eb.
      + rewrite decide_False by done. rewrite He0. cbn. by rewrite Eb.
    - destruct (decide (x = h)) as [->|Hne].
      + destruct (final_back P2 P3 Hev Hc Hl Hd eq_refl h entry) as (e' & He' & _); [by left | congruence].
      + destruct (mapTx P !! x) as [e|] eqn:Ep; [|done]. destruct (final_back P2 P3 Hev Hc Hl Hd eq_refl x e) as (e' & He' & _); [by right | congruence]. }
  assert (Hdone : ∃ P', Some P3 = Some P' ∧ pool_at wait' P' ∧ pool P' = {[h]} ∪ pool P ∧ mapDeltas P' = mapDeltas P ∧
    ∀ x, core <$> mapTx P' !! x = if decide (x = h) then Some (core entry) else core <$> mapTx P !! x).
  { exists P3. split; [done|]. split; [done|]. split; [apply (final_pool P2 P3 Hev Hc Hl Hd eq_refl)|]. split; [exact Edel | exact Etx]. }
  destruct (mapDeltas P2 !! h) as [d|]; [|exact Hdone]. destruct (d =? 0); [exact Hdone|]. clear Hdone.
  destruct (final_back P2 P3 Hev Hc Hl Hd eq_refl h entry) as (e & He & _); [by left|]. unfold modify. rewrite He. cbn [mbind option_bind]. eexists. split; [done|].
  split; [eapply (prioritised wait' P3 _ h e d); done|]. split; [|split; [exact Edel|]].
  - rewrite <- (final_pool P2 P3 Hev Hc Hl Hd eq_refl). unfold pool. cbn. apply dom_insert_lookup_L. by eexists.
  - intros x. cbn [mapTx add_total add_updated with_tx]. destruct (decide (x = h)) as [->|Hne].
    + rewrite lookup_insert_eq. specialize (Etx h). rewrite He, decide_True in Etx by done. exact Etx.
    + rewrite lookup_insert_ne by done. specialize (Etx x). by rewrite decide_False in Etx.
Qed.
End Add.

End Invariant.

End Pool.
