(* ===== verification/PoolOps.v ===== *)
(** * The memory pool: removing transactions, and all operations

    [RemoveStaged] keeps the invariant of [Pool] for sets that do not separate an ancestor from a
    descendant: sets that are closed under descendants, as [remove] with [fRecursive], [Expire]
    and [TrimToSize] build, and transactions whose parents were removed before, as in
    [removeForBlock]. *)

From stdpp Require Import base option gmap fin_maps sets sorting relations list.
From Stdlib Require Import ZArith Lia.
From S2P Require Import Prelude Serialize Tx Coins Stake Mempool Pool.
Import Mempool Pool.
Open Scope Z_scope.

Module PoolOps.

Section Operations.
Context {env : PoolEnv}.
Implicit Types P Q : CTxMemPool.

(** ** Removing a set *)

Section Remove.
Context (wait : edges) (P : CTxMemPool) (stage : setEntries) (Hok : pool_at wait P) (Hst : stage ⊆ pool P).

Let Hl : linked P := p_linked _ _ Hok.

Definition left (done : setEntries) (x : uint256) : setEntries := desc P x ∖ (done ∖ {[x]}).

(** After the ancestors of the entries in [done] were updated. *)
Record severed (done : setEntries) Q : Prop := {
  sv_evolved : evolved P Q;
  sv_par : ∀ x, par Q x = par P x;
  sv_chi : ∀ x, chi Q x = chi P x ∖ done;
  sv_dom : ∀ x, is_Some (mapLinks Q !! x) ↔ x ∈ pool P;
  sv_counted : counted_as Q (left done)
}.

Lemma severed_start : severed ∅ P.
Proof using All.
  split; [done | done | intros x; by rewrite difference_empty_L | apply Hl |].
  intros x e He. unfold left. replace (desc P x ∖ (∅ ∖ {[x]})) with (desc P x) by set_solver. by apply counted_desc; [|apply Hok|].
Qed.

Lemma severed_rooted done Q : severed done Q → rooted Q.
Proof using All.
  intros [S1 S2 _ S4 _]. pose proof (evolved_pool P Q S1) as Ep. split; [intros x; by rewrite S4, Ep|].
  intros x. rewrite S2, Ep. by apply rt_par, linked_rooted.
Qed.

Lemma severed_tc done Q y x : severed done Q → tc (dep Q) y x ↔ tc (dep P) y x.
Proof using Type. intros [_ S2 _ _ _]. unfold dep. split; apply tc_mono; intros a b; by rewrite S2. Qed.

Lemma desc_tc x y : x ∈ pool P → y ∈ desc P x ↔ y = x ∨ tc (dep P) y x.
Proof using All.
  intros Hx. rewrite (desc_spec P x Hl Hx y). split.
  - intros Hr. apply rtc_tc in Hr as [->|Ht]; [by left | by right].
  - intros [->|Ht]; [done | by apply tc_rtc].
Qed.

Lemma sever_one done Q r : severed done Q → r ∈ pool P → r ∉ done → ∃ Q', update_for_remove r Q = Some Q' ∧ severed ({[r]} ∪ done) Q'.
Proof using All.
  intros Hs Hr Hn. pose proof Hs as [S1 S2 S3 S4 S5]. pose proof (evolved_pool P Q S1) as Ep. pose proof (evolved_sized P Q S1 (p_sized _ _ Hok)) as Hsz.
  assert (HrQ : r ∈ pool Q) by by rewrite Ep. destruct (pool_entry Q r HrQ) as [e He]. unfold update_for_remove. rewrite He. cbn [mbind option_bind].
  pose proof (s_hash _ Hsz r e He) as Eh. destruct (CalculateMemPoolAncestors_in Q e (severed_rooted _ _ Hs)) as (A & -> & HA); [by rewrite Eh|]. cbn [mbind option_bind].
  rewrite Eh in HA. assert (HA' : ∀ x, x ∈ A ↔ tc (dep P) r x) by (intros x; rewrite (HA x); by apply severed_tc with done). clear HA.
  assert (HAp : A ⊆ pool P).
  { intros x Hx. apply HA', tc_rtc in Hx. apply dep_in in Hx as [<-|[Hx _]]; done. }
  destruct (UpdateAncestorsOf_spec false r A Q (par P r) e (left done) (left ({[r]} ∪ done)) Hsz He) as (Q' & E & V1 & V2 & V3 & V4).
  - rewrite GetMemPoolParents_par, S2; [done | by eapply severed_rooted | done].
  - done.
  - by rewrite Ep.
  - intros x Hx. rewrite Ep. pose proof (desc_sub P x Hl (HAp x Hx)) as Hsub. assert (Hin : r ∈ desc P x) by (apply desc_tc; [by apply HAp | right; by apply HA']).
    assert (Hne : r ≠ x) by (intros ->; apply (lk_acyclic _ Hl x); by apply HA'). unfold left.
    assert (Hself : x ∈ desc P x) by (apply desc_tc; [by apply HAp | by left]).
    split; [set_solver|]. split; [intros E0; assert (x ∈ desc P x ∖ (({[r]} ∪ done) ∖ {[x]})) by set_solver; set_solver|]. split; [set_solver|]. set_solver.
  - intros x Hx Hnx. rewrite Ep in Hx. unfold left. destruct (decide (r = x)) as [->|Hne]; [set_solver|].
    assert (r ∉ desc P x) by (intros Hin; apply desc_tc in Hin as [->|Ht]; [done | by apply Hnx, HA' | done]). set_solver.
  - exists Q'. split; [done|]. split; [by etransitivity | intros x; by destruct (V3 x) as [-> _] | | |done].
    + intros x. destruct (V3 x) as [_ ->]. rewrite S3. destruct (decide (x ∈ par P r)) as [Hp|Hp]; unfold change; [set_solver|].
      rewrite (lk_sym _ Hl) in Hp. set_solver.
    + intros x. rewrite V4, S4. split; [|by right]. intros [Hx|Hx]; [|done]. by apply (lk_in _ Hl) in Hx as [Hx _].
Qed.

Lemma sever_all l : ∀ done Q, severed done Q → NoDup l → (∀ r, r ∈ l → r ∈ pool P ∧ r ∉ done) →
  ∃ Q', each update_for_remove l Q = Some Q' ∧ severed (list_to_set l ∪ done) Q'.
Proof using All.
  induction l as [|r l IH]; intros done Q Hs Hnd Hl'; cbn [each].
  - exists Q. split; [done|]. cbn. by rewrite union_empty_l_L.
  - apply NoDup_cons in Hnd as [Hr Hnd]. destruct (Hl' r ltac:(by left)) as [H1 H2]. destruct (sever_one done Q r Hs H1 H2) as (Q1 & -> & Hs1). cbn [mbind option_bind].
    destruct (IH _ _ Hs1 Hnd) as (Q2 & E & Hs2).
    + intros y Hy. destruct (Hl' y ltac:(by right)) as [H3 H4]. split; [done|]. apply not_elem_of_union. split; [|done]. intros ->%elem_of_singleton. done.
    + exists Q2. split; [done|]. cbn [list_to_set]. replace ({[r]} ∪ list_to_set l ∪ done) with (list_to_set l ∪ ({[r]} ∪ done)) by set_solver. done.
Qed.

(** After the children of the entries in [done] were updated. *)
Record orphaned (done : setEntries) Q : Prop := {
  or_evolved : evolved P Q;
  or_par : ∀ x, par Q x = if decide (x ∈ stage) then par P x else par P x ∖ done;
  or_chi : ∀ x, chi Q x = chi P x ∖ stage;
  or_dom : ∀ x, is_Some (mapLinks Q !! x) ↔ x ∈ pool P;
  or_counted : counted_as Q (left stage)
}.

Lemma orphan_one done Q r : orphaned done Q → r ∈ stage → ∃ Q', UpdateChildrenForRemoval r Q = Some Q' ∧ orphaned ({[r]} ∪ done) Q'.
Proof using All.
  intros [S1 S2 S3 S4 S5] Hr. pose proof (evolved_pool P Q S1) as Ep. unfold UpdateChildrenForRemoval.
  assert (Hrp : r ∈ pool P) by by apply Hst.
  assert (Eg : GetMemPoolChildren Q r = Some (chi P r ∖ stage)).
  { unfold GetMemPoolChildren. destruct (pool_entry Q r ltac:(by rewrite Ep)) as [e ->]. cbn [mbind option_bind].
    destruct (proj2 (S4 r) Hrp) as [l El]. rewrite El. cbn [mbind option_bind]. specialize (S3 r). unfold chi at 1 in S3. unfold links_at in S3. rewrite El in S3. cbn in S3. by rewrite S3. }
  rewrite Eg. cbn [mbind option_bind]. eexists. split; [done|].
  destruct (update_parents r false (in_order (chi P r ∖ stage)) Q) as (U1 & U2 & U3). set (Q' := foldl _ _ _) in *.
  split; [etransitivity; [exact S1 | by apply relinked_evolved] | | | |].
  - intros x. destruct (U2 x) as [_ ->]. rewrite S2. destruct (decide (x ∈ in_order (chi P r ∖ stage))) as [Hx|Hx]; rewrite elem_of_in_order in Hx.
    + rewrite !(decide_False (P := x ∈ stage)) by set_solver. unfold change. set_solver.
    + destruct (decide (x ∈ stage)); [done|]. assert (Hc : x ∉ chi P r) by set_solver. rewrite <- (lk_sym _ Hl) in Hc. set_solver.
  - intros x. destruct (U2 x) as [-> _]. apply S3.
  - intros x. rewrite U3, S4, elem_of_in_order. split; [|by right]. intros [Hx|Hx]; [|done]. apply elem_of_difference in Hx as [Hx _]. by eapply chi_pool.
  - by eapply relinked_counted.
Qed.

Lemma orphan_all l : ∀ done Q, orphaned done Q → (∀ r, r ∈ l → r ∈ stage) →
  ∃ Q', each UpdateChildrenForRemoval l Q = Some Q' ∧ orphaned (list_to_set l ∪ done) Q'.
Proof using All.
  induction l as [|r l IH]; intros done Q Hs Hl'; cbn [each].
  - exists Q. split; [done|]. cbn. by rewrite union_empty_l_L.
  - destruct (orphan_one done Q r Hs ltac:(apply Hl'; by left)) as (Q1 & -> & Hs1). cbn [mbind option_bind].
    destruct (IH _ _ Hs1 ltac:(intros y Hy; apply Hl'; by right)) as (Q2 & E & Hs2). exists Q2. split; [done|].
    cbn [list_to_set]. replace ({[r]} ∪ list_to_set l ∪ done) with (list_to_set l ∪ ({[r]} ∪ done)) by set_solver. done.
Qed.

Lemma in_order_set X : list_to_set (in_order X) = X.
Proof using Type. apply set_eq. intros y. by rewrite elem_of_list_to_set, elem_of_in_order. Qed.

Lemma UpdateForRemoveFromMempool_spec : ∃ Q, UpdateForRemoveFromMempool stage P = Some Q ∧ orphaned stage Q.
Proof using All.
  unfold UpdateForRemoveFromMempool. destruct (sever_all (in_order stage) ∅ P severed_start (NoDup_in_order _)) as (Q1 & -> & [S1 S2 S3 S4 S5]).
  { intros r Hr%elem_of_in_order. split; [by apply Hst | set_solver]. }
  rewrite in_order_set, union_empty_r_L in *. cbn [mbind option_bind]. destruct (orphan_all (in_order stage) ∅ Q1) as (Q2 & -> & Ho).
  - split; [done | | done | done | done]. intros x. rewrite S2, difference_empty_L. by destruct (decide _).
  - intros r. apply elem_of_in_order.
  - rewrite in_order_set, union_empty_r_L in Ho. by exists Q2.
Qed.

(** After the entries in [done] were erased from [R]. *)
Section Erase.
Context (R : CTxMemPool) (HR : orphaned stage R).

Record erased (done : setEntries) Q : Prop := {
  er_tx : ∀ x, mapTx Q !! x = if decide (x ∈ done) then None else mapTx R !! x;
  er_links : ∀ x, mapLinks Q !! x = if decide (x ∈ done) then None else mapLinks R !! x;
  er_next : ∀ o v, mapNextTx Q !! o = Some v ↔ mapNextTx P !! o = Some v ∧ v.1 ∉ done;
  er_deltas : mapDeltas Q = mapDeltas P;
  er_total : totalTxSize Q = u64 (msum nTxSize (mapTx Q));
  er_usage : slack Q = u64 (msum nUsageSize (mapTx Q));
  er_cached : cachedInnerUsage Q = u64 (cachedInnerUsage Q)
}.

Lemma erase_start : erased ∅ R.
Proof using All.
  pose proof (or_evolved _ _ HR) as [E1 E2 E3 E4 E5 E6]. pose proof (p_tracked _ _ Hok) as [T1 T2 T3 T4 T5].
  split; try (intros x; by rewrite decide_False by set_solver).
  - intros o v. rewrite E2. split; [|tauto]. intros H. split; [done | set_solver].
  - done.
  - rewrite E4, T3. f_equal. symmetry. apply msum_bare; [|done]. intros e e' Hb. apply bare_fields in Hb. tauto.
  - rewrite E5, T4. f_equal. symmetry. apply msum_bare; [|done]. intros e e' Hb. apply bare_fields in Hb. tauto.
  - by apply E6.
Qed.

Lemma delete_inputs {A} vin : ∀ (m : gmap COutPoint A) o, foldl (λ m txin, delete (Tx.prevout txin) m) m vin !! o = if decide (o ∈ map Tx.prevout vin) then None else m !! o.
Proof using Type.
  induction vin as [|txin vin IH]; intros m o; cbn [foldl map]; [by rewrite decide_False by apply not_elem_of_nil|].
  rewrite IH. destruct (decide (o ∈ map Tx.prevout vin)) as [H|H]; [by rewrite decide_True by by right|].
  destruct (decide (o = Tx.prevout txin)) as [->|Hne].
  - rewrite decide_True by by left. apply lookup_delete_eq.
  - rewrite lookup_delete_ne by done. rewrite decide_False; [done|]. by rewrite not_elem_of_cons.
Qed.

Lemma erase_one done Q r : erased done Q → r ∈ pool P → r ∉ done → ∃ Q', removeUnchecked r Q = Some Q' ∧ erased ({[r]} ∪ done) Q'.
Proof using All.
  intros [S1 S2 S3 S4 S5 S6 S7] Hr Hn. pose proof (or_evolved _ _ HR) as Hev.
  destruct (pool_entry R r ltac:(by rewrite (evolved_pool P R))) as [e He]. destruct (evolved_entry P R r e Hev He) as (e0 & He0 & Hb). apply bare_fields in Hb as (Etx & _).
  destruct (proj2 (or_dom _ _ HR r) Hr) as [l El]. assert (HeQ : mapTx Q !! r = Some e) by by rewrite S1, decide_False.
  assert (HlQ : mapLinks Q !! r = Some l) by by rewrite S2, decide_False. unfold removeUnchecked. rewrite HeQ. cbn [mbind option_bind]. eexists. split; [done|].
  split; cbn [mapTx mapLinks mapNextTx mapDeltas add_updated with_tx with_links add_usage add_total with_next totalTxSize cachedInnerUsage].
  - intros x. destruct (decide (x = r)) as [->|Hne].
    + rewrite lookup_delete_eq, decide_True by set_solver. done.
    + rewrite lookup_delete_ne, S1 by done. destruct (decide (x ∈ done)); [by rewrite decide_True by set_solver | by rewrite decide_False by set_solver].
  - intros x. destruct (decide (x = r)) as [->|Hne].
    + rewrite lookup_delete_eq, decide_True by set_solver. done.
    + rewrite lookup_delete_ne, S2 by done. destruct (decide (x ∈ done)); [by rewrite decide_True by set_solver | by rewrite decide_False by set_solver].
  - intros o [c n]. rewrite delete_inputs. cbn [fst]. pose proof (tr_next _ _ (p_tracked _ _ Hok)) as T2. destruct (decide (o ∈ _)) as [Ho|Ho].
    + apply list_elem_of_fmap in Ho as (txin & -> & Hin). apply list_elem_of_lookup in Hin as [k Hk]. split; [done|]. intros [H1 H2]. exfalso.
      assert (H3 : mapNextTx P !! Tx.prevout txin = Some (r, Z.of_nat k)) by (apply T2; exists e0, txin; rewrite Etx, Nat2Z.id; repeat split; [done | lia | done]).
      rewrite H3 in H1. injection H1 as <- _. set_solver.
    + rewrite S3. cbn [fst]. split; intros [H1 H2]; (split; [done|]); [|set_solver]. apply not_elem_of_union. split; [|done]. intros ->%elem_of_singleton. apply Ho.
      apply T2 in H1 as (e1 & txin & He1 & _ & Hk & <-). rewrite He0 in He1. injection He1 as <-. rewrite <- Etx in *. apply list_elem_of_fmap. exists txin. split; [done|]. by eapply list_elem_of_lookup_2.
  - done.
  - rewrite (msum_delete nTxSize _ _ e HeQ), S5, u64_add_l. f_equal.
  - unfold slack. cbn [mapLinks cachedInnerUsage add_updated with_tx with_links add_usage]. rewrite (msum_delete nUsageSize _ _ e HeQ), (msum_delete set_bytes _ _ l HlQ).
    unfold links_at. cbn [mapLinks add_usage add_total with_next]. rewrite HlQ. cbn [from_option id cachedInnerUsage]. unfold id. fold (set_bytes l). unfold slack in S6.
    rewrite u64_add_l. replace (u64 (cachedInnerUsage Q + - nUsageSize e + - set_bytes l) - (msum set_bytes (mapLinks Q) - set_bytes l))
      with (u64 (cachedInnerUsage Q + - nUsageSize e + - set_bytes l) + (set_bytes l - msum set_bytes (mapLinks Q))) by lia.
    rewrite u64_add_l. replace (cachedInnerUsage Q + - nUsageSize e + - set_bytes l + (set_bytes l - msum set_bytes (mapLinks Q)))
      with (cachedInnerUsage Q - msum set_bytes (mapLinks Q) + - nUsageSize e) by lia.
    rewrite <- u64_add_l, S6, u64_add_l. done.
  - by rewrite u64_idem.
Qed.

Lemma erase_all l : ∀ done Q, erased done Q → NoDup l → (∀ r, r ∈ l → r ∈ pool P ∧ r ∉ done) →
  ∃ Q', each removeUnchecked l Q = Some Q' ∧ erased (list_to_set l ∪ done) Q'.
Proof using All.
  induction l as [|r l IH]; intros done Q Hs Hnd Hl'; cbn [each].
  - exists Q. split; [done|]. cbn. by rewrite union_empty_l_L.
  - apply NoDup_cons in Hnd as [Hr Hnd]. destruct (Hl' r ltac:(by left)) as [H1 H2]. destruct (erase_one done Q r Hs H1 H2) as (Q1 & -> & Hs1). cbn [mbind option_bind].
    destruct (IH _ _ Hs1 Hnd) as (Q2 & E & Hs2).
    + intros y Hy. destruct (Hl' y ltac:(by right)) as [H3 H4]. split; [done|]. apply not_elem_of_union. split; [|done]. intros ->%elem_of_singleton. done.
    + exists Q2. split; [done|]. cbn [list_to_set]. replace ({[r]} ∪ list_to_set l ∪ done) with (list_to_set l ∪ ({[r]} ∪ done)) by set_solver. done.
Qed.
End Erase.

(** A set that separates no ancestor from a descendant. *)
Definition no_bridge : Prop := ∀ r, r ∈ stage → (∀ y, rtc (dep P) y r → y ∈ stage) ∨ (∀ x, rtc (dep P) r x → x ∈ stage).

Section Result.
Context (Hcut : no_bridge) (R Q : CTxMemPool) (HR : orphaned stage R) (HQ : erased R stage Q).

Lemma result_entry x e : mapTx Q !! x = Some e ↔ x ∉ stage ∧ mapTx R !! x = Some e.
Proof using All. rewrite (er_tx _ _ _ HQ). destruct (decide (x ∈ stage)); naive_solver. Qed.

Lemma result_pool : pool Q = pool P ∖ stage.
Proof using All.
  apply set_eq. intros x. rewrite elem_of_difference. split.
  - intros [e He]%pool_entry. apply result_entry in He as [Hn He]. split; [|done]. rewrite <- (evolved_pool P R) by apply HR. by eapply pool_intro.
  - intros [Hx Hn]. rewrite <- (evolved_pool P R) in Hx by apply HR. apply pool_entry in Hx as [e He]. eapply pool_intro. by apply result_entry.
Qed.

Lemma result_links x : links_at Q x = if decide (x ∈ stage) then no_links else links_at R x.
Proof using All. unfold links_at. rewrite (er_links _ _ _ HQ). by destruct (decide _). Qed.

Lemma result_par x : par Q x = (if decide (x ∈ stage) then ∅ else par P x ∖ stage) ∧ chi Q x = if decide (x ∈ stage) then ∅ else chi P x ∖ stage.
Proof using All.
  pose proof (or_par _ _ HR x) as H1. pose proof (or_chi _ _ HR x) as H2. unfold par, chi in *. rewrite result_links. by destruct (decide (x ∈ stage)).
Qed.

Lemma result_dep y x : dep Q y x ↔ dep P y x ∧ y ∉ stage ∧ x ∉ stage.
Proof using All. unfold dep. destruct (result_par y) as [-> _]. destruct (decide (y ∈ stage)); set_solver. Qed.

Lemma result_rtc y x : y ∉ stage → x ∉ stage → rtc (dep Q) y x ↔ rtc (dep P) y x.
Proof using All.
  intros Hy Hx. split; [apply rtc_subrel; intros a b Hab; by apply result_dep in Hab as [? _]|].
  intros Hr. induction Hr as [|y z x Hyz Hr IH]; [done|]. assert (Hz : z ∉ stage).
  { intros Hz. destruct (Hcut z Hz) as [Hd|Ha]; [|by apply Hx, Ha]. apply Hy, Hd. by apply rtc_once. }
  eapply rtc_l; [by apply result_dep|]. by apply IH.
Qed.

Lemma result_linked : linked Q.
Proof using All.
  pose proof Hl as [L1 L2 L3 L4]. split.
  - intros x. rewrite (er_links _ _ _ HQ), result_pool, elem_of_difference, <- (or_dom _ _ HR). destruct (decide (x ∈ stage)); [|tauto]. split; [by intros [? ?] | tauto].
  - intros x y. destruct (result_par y) as [-> _], (result_par x) as [_ ->]. pose proof (L2 x y). destruct (decide (y ∈ stage)), (decide (x ∈ stage)); set_solver.
  - intros x y Hx. apply result_dep in Hx as (Hx & Hy' & Hx'). apply L3 in Hx as [? ?]. rewrite result_pool. set_solver.
  - intros x Hx. apply (L4 x). eapply tc_mono; [|exact Hx]. intros a b Hab. by apply result_dep in Hab as [? _].
Qed.

Lemma result_total D : D ⊆ pool Q → total (sz Q) D = total (sz P) D ∧ total (fee Q) D = total (fee P) D.
Proof using All.
  intros HD. rewrite result_pool in HD. destruct (evolved_total P R D (or_evolved _ _ HR)) as [<- <-].
  split; apply total_ext; intros x Hx; unfold sz, fee; rewrite (er_tx _ _ _ HQ), decide_False by set_solver; done.
Qed.

Lemma result_sized : sized Q.
Proof using All.
  pose proof (evolved_sized P R (or_evolved _ _ HR) (p_sized _ _ Hok)) as [S1 S2 S3 _ _]. pose proof (p_sized _ _ Hok) as Hs.
  split; [intros x e He; apply result_entry in He as [_ He]; by eauto .. | |].
  - rewrite (proj1 (result_total _ ltac:(done))). apply (sized_bounds P); [done|]. rewrite result_pool. set_solver.
  - rewrite (proj2 (result_total _ ltac:(done))). apply (sized_bounds P); [done|]. rewrite result_pool. set_solver.
Qed.

Lemma result_counted : counted Q.
Proof using All.
  intros x e D He HD. assert (Hx : x ∈ pool Q) by by eapply pool_intro. pose proof (desc_pool Q x D result_linked Hx HD) as Hsub.
  apply result_entry in He as [Hn He]. pose proof (or_counted _ _ HR x e He) as Hc. unfold state_is in *. destruct (result_total D Hsub) as [-> ->].
  assert (Hxp : x ∈ pool P) by (rewrite result_pool in Hx; set_solver).
  assert (ED : D = left stage x).
  { apply set_eq. intros y. rewrite (HD y). unfold left. rewrite elem_of_difference, (desc_spec P x Hl Hxp y). replace (stage ∖ {[x]}) with stage by set_solver. split.
    - intros Hr. assert (Hy : y ∉ stage) by (apply HD, Hsub in Hr; rewrite result_pool in Hr; set_solver). split; [|done]. by apply result_rtc.
    - intros [Hr Hy]. by apply result_rtc. }
  destruct (evolved_total P R D (or_evolved _ _ HR)) as [E1 E2]. rewrite ED in *. by rewrite <- E1, <- E2.
Qed.

Lemma result_tracked : tracked wait Q.
Proof using All.
  pose proof (p_tracked _ _ Hok) as [T1 T2 T3 T4 T5]. split; [| | apply HQ..].
  - intros x y e He. apply result_entry in He as [Hn He]. destruct (evolved_entry P R y e (or_evolved _ _ HR) He) as (e0 & He0 & Hb). apply bare_fields in Hb as (<- & _).
    destruct (result_par y) as [-> _]. rewrite decide_False by done. rewrite elem_of_difference, (T1 x y e0 He0), result_pool. set_solver.
  - intros o c n. rewrite (er_next _ _ _ HQ), T2. cbn [fst]. split.
    + intros [(e0 & txin & He0 & Hz & Hk) Hc]. destruct (evolved_back P R c e0 (or_evolved _ _ HR) He0) as (e & He & Hb). apply bare_fields in Hb as (Et & _).
      exists e, txin. rewrite Et. split; [by apply result_entry|]. done.
    + intros (e & txin & He & Hz & Hk). apply result_entry in He as [Hc He]. destruct (evolved_entry P R c e (or_evolved _ _ HR) He) as (e0 & He0 & Hb). apply bare_fields in Hb as (Et & _).
      split; [|done]. exists e0, txin. by rewrite Et.
Qed.
End Result.

(** Removing such a set keeps the invariant and the other entries. *)
Lemma RemoveStaged_ok : no_bridge → ∃ Q, RemoveStaged stage P = Some Q ∧ pool_at wait Q ∧ pool Q = pool P ∖ stage ∧ mapDeltas Q = mapDeltas P ∧
  ∀ x, bare <$> mapTx Q !! x = if decide (x ∈ stage) then None else bare <$> mapTx P !! x.
Proof using All.
  intros Hcut. unfold RemoveStaged. destruct UpdateForRemoveFromMempool_spec as (R & -> & HR). cbn [mbind option_bind].
  destruct (erase_all R HR (in_order stage) ∅ R (erase_start R HR) (NoDup_in_order _)) as (Q & -> & HQ).
  { intros r Hr%elem_of_in_order. split; [by apply Hst | set_solver]. }
  rewrite in_order_set, union_empty_r_L in HQ. exists Q. split; [done|].
  split; [split; [by eapply result_linked | by eapply result_sized | by eapply result_counted | by eapply result_tracked]|].
  split; [by eapply result_pool|]. split; [apply HQ|]. intros x. rewrite (er_tx _ _ _ HQ). destruct (decide (x ∈ stage)); [done|].
  rewrite <- !lookup_fmap. by rewrite (ev_bare _ _ (or_evolved _ _ HR)).
Qed.
End Remove.

(** ** Pools with fewer entries *)

Record shrunk P Q : Prop := {
  sh_entry : ∀ x e, mapTx Q !! x = Some e → ∃ e0, mapTx P !! x = Some e0 ∧ bare e0 = bare e;
  sh_dep : ∀ y x, dep Q y x → dep P y x;
  sh_next : ∀ o v, mapNextTx Q !! o = Some v → mapNextTx P !! o = Some v
}.

#[global] Instance shrunk_refl : Reflexive shrunk.
Proof using Type. intros P. split; try done. intros x e He. by exists e. Qed.

#[global] Instance shrunk_trans : Transitive shrunk.
Proof using Type.
  intros P1 P2 P3 [A1 A2 A3] [B1 B2 B3]. split; eauto. intros x e He. destruct (B1 x e He) as (e2 & He2 & Hb2). destruct (A1 x e2 He2) as (e1 & He1 & Hb1). exists e1. by rewrite Hb1.
Qed.

Lemma shrunk_pool P Q : shrunk P Q → pool Q ⊆ pool P.
Proof using Type. intros [H _ _] x [e He]%pool_entry. destruct (H x e He) as (e0 & He0 & _). by eapply pool_intro. Qed.

Lemma shrunk_intro wait P Q : pool_at wait P → pool_at wait Q →
  (∀ x e, mapTx Q !! x = Some e → ∃ e0, mapTx P !! x = Some e0 ∧ bare e0 = bare e) → shrunk P Q.
Proof using Type.
  intros [HlP _ _ [T1 T2 _ _ _]] [HlQ _ _ [U1 U2 _ _ _]] Hb. split; [done | |].
  - intros y x Hx. pose proof (lk_in _ HlQ x y Hx) as [Hxq Hyq]. destruct (pool_entry Q y Hyq) as [e He]. destruct (Hb y e He) as (e0 & He0 & Eb). apply bare_fields in Eb as (Et & _).
    apply (U1 x y e He) in Hx as (_ & Hs & Hw). apply (T1 x y e0 He0). rewrite Et. split; [|done]. destruct (pool_entry Q x Hxq) as [ex Hex]. destruct (Hb x ex Hex) as (ex0 & Hex0 & _). by eapply pool_intro.
  - intros o [c n] Ho. apply U2 in Ho as (e & txin & He & Hr). destruct (Hb c e He) as (e0 & He0 & Eb). apply bare_fields in Eb as (Et & _). apply T2. exists e0, txin. by rewrite Et.
Qed.

(** Removing a set that is closed under descendants, or an entry without parents. *)
Lemma RemoveStaged_shrunk wait P stage : pool_at wait P → stage ⊆ pool P → no_bridge P stage →
  ∃ Q, RemoveStaged stage P = Some Q ∧ pool_at wait Q ∧ shrunk P Q ∧ pool Q = pool P ∖ stage ∧ mapDeltas Q = mapDeltas P.
Proof using Type.
  intros Hok Hst Hcut. destruct (RemoveStaged_ok wait P stage Hok Hst Hcut) as (Q & E & HQ & Hp & Hd & Hb). exists Q. split; [done|]. split; [done|].
  split; [|done]. apply (shrunk_intro wait); [done | done|]. intros x e He. specialize (Hb x). rewrite He in Hb. destruct (decide (x ∈ stage)); [done|].
  destruct (mapTx P !! x) as [e0|]; [|done]. exists e0. split; [done|]. by apply (inj Some) in Hb.
Qed.

Lemma closed_no_bridge P stage : (∀ x y, x ∈ stage → rtc (dep P) y x → y ∈ stage) → no_bridge P stage.
Proof using Type. intros H r Hr. left. intros y Hy. by eapply H. Qed.

(** Entries leave the pool with the entries that depend on them. *)
Record pruned (wait : edges) P Q : Prop := {
  pr_shrunk : shrunk P Q;
  pr_deltas : mapDeltas Q = mapDeltas P;
  pr_closed : ∀ y e x, mapTx Q !! y = Some e → spends (tx e) x → ¬ wait x y → x ∈ pool P → x ∈ pool Q
}.

#[global] Instance pruned_refl wait : Reflexive (pruned wait).
Proof using Type. intros P. by split. Qed.

#[global] Instance pruned_trans wait : Transitive (pruned wait).
Proof using Type.
  intros P1 P2 P3 [A1 A2 A3] [B1 B2 B3]. split; [by etransitivity | congruence|]. intros y e x He Hs Hw Hx. eapply B3; [done..|].
  destruct (sh_entry _ _ B1 y e He) as (e0 & He0 & Eb). apply bare_fields in Eb as (Et & _). eapply A3; [exact He0 | by rewrite Et | done | done].
Qed.

Lemma pruned_intro (wait : edges) P Q (D : setEntries) : pool_at wait P → shrunk P Q → mapDeltas Q = mapDeltas P → pool Q = pool P ∖ D → (∀ x y, x ∈ D → rtc (dep P) y x → y ∈ D) → pruned wait P Q.
Proof using Type.
  intros Hok Hs Hd Hp HD. split; [done | done|]. intros y e x He Hsp Hw Hx. destruct (sh_entry _ _ Hs y e He) as (e0 & He0 & Eb). apply bare_fields in Eb as (Et & _).
  rewrite Hp. apply elem_of_difference. split; [done|]. intros HxD. assert (Hy : y ∈ pool Q) by by eapply pool_intro. rewrite Hp in Hy. apply elem_of_difference in Hy as [_ Hn]. apply Hn.
  apply (HD x y HxD). apply rtc_once. apply (tr_links _ _ (p_tracked _ _ Hok) x y e0 He0). by rewrite Et.
Qed.

(** ** remove *)

(** The spenders of the outputs of a transaction that is not in the pool. *)
Lemma children_of_outputs_spec wait P h : pool_at wait P → ∀ outs i, ∃ X, children_of_outputs P h i outs = Some X ∧ X ⊆ pool P ∧
  ∀ y, y ∈ X ↔ ∃ j n, (i <= j < i + outs)%nat ∧ mapNextTx P !! (h, Z.of_nat j) = Some (y, n).
Proof using Type.
  intros Hok. induction outs as [|outs IH]; intros i; cbn [children_of_outputs].
  - exists ∅. split; [done|]. split; [set_solver|]. intros y. split; [set_solver|]. intros (j & n & Hj & _). lia.
  - destruct (IH (S i)) as (X & -> & HX & HX'). cbn [mbind option_bind]. destruct (mapNextTx P !! (h, Z.of_nat i)) as [[next n]|] eqn:En.
    + destruct (proj1 (tr_next _ _ (p_tracked _ _ Hok) _ _ _) En) as (e & txin & He & _). rewrite He. cbn [mbind option_bind]. eexists. split; [done|].
      split; [apply pool_intro in He; set_solver|]. intros y. rewrite elem_of_union, elem_of_singleton, HX'. split.
      * intros [->|(j & m & Hj & Hy)]; [exists i, n; split; [lia | done] | exists j, m; split; [lia | done]].
      * intros (j & m & Hj & Hy). destruct (decide (j = i)) as [->|]; [left; congruence | right; exists j, m; split; [lia | done]].
    + exists X. split; [done|]. split; [done|]. intros y. rewrite HX'. split; intros (j & m & Hj & Hy).
      * exists j, m. split; [lia | done].
      * exists j, m. split; [|done]. destruct (decide (j = i)) as [->|]; [congruence | lia].
Qed.

Lemma removed_list P X : X ⊆ pool P → ∃ l, mapM (λ it, tx <$> mapTx P !! it) (in_order X) = Some l.
Proof using Type.
  intros HX. assert (H : ∀ x, x ∈ in_order X → x ∈ pool P) by (intros x Hx%elem_of_in_order; by apply HX).
  induction (in_order X) as [|x l IH]; cbn; [by eexists|]. destruct (pool_entry P x (H x ltac:(by left))) as [e ->]. cbn. destruct IH as [r ->]; [intros y Hy; apply H; by right|]. by eexists.
Qed.

(** The set that [remove] starts from. *)
Definition starts P (t : CTransaction) (x : uint256) : Prop :=
  if decide (Tx.GetHash t ∈ pool P) then x = Tx.GetHash t else ∃ j n, (j < length (Tx.vout t))%nat ∧ mapNextTx P !! (Tx.GetHash t, Z.of_nat j) = Some (x, n).

Lemma remove_recursive wait P t : pool_at wait P → ∃ removed Q D, remove t true P = Some (removed, Q) ∧ pool_at wait Q ∧ pruned wait P Q ∧
  pool Q = pool P ∖ D ∧ ∀ y, y ∈ D ↔ ∃ x, starts P t x ∧ rtc (dep P) y x.
Proof using Type.
  intros Hok. pose proof (p_linked _ _ Hok) as Hl. unfold remove.
  assert (HX : ∃ X, (if decide (is_Some (mapTx P !! Tx.GetHash t)) then Some {[Tx.GetHash t]} else children_of_outputs P (Tx.GetHash t) 0 (length (Tx.vout t))) = Some X ∧
    X ⊆ pool P ∧ ∀ x, x ∈ X ↔ starts P t x).
  { destruct (decide (is_Some _)) as [[e He]|Hn].
    - apply pool_intro in He. eexists. split; [done|]. split; [set_solver|]. intros x. unfold starts. rewrite decide_True by done. set_solver.
    - destruct (children_of_outputs_spec wait P (Tx.GetHash t) Hok (length (Tx.vout t)) 0) as (X & -> & HX & HX').
      exists X. split; [done|]. split; [done|]. intros x. rewrite HX'. unfold starts. rewrite decide_False by (intros [e He]%pool_entry; apply Hn; by eexists).
      split; intros (j & n & Hj & Hx); exists j, n; (split; [lia | done]). }
  destruct HX as (X & -> & HX & HX'). cbn [mbind option_bind]. destruct (all_descendants_spec P X Hl HX) as (D & -> & HD & HD'). cbn [mbind option_bind].
  assert (Hcl : ∀ x y, x ∈ D → rtc (dep P) y x → y ∈ D) by (intros x y Hx Hr; apply HD'; apply HD' in Hx as (z & Hz & Hr'); exists z; split; [done | by etransitivity]).
  destruct (removed_list P D HD) as [l ->]. cbn [mbind option_bind]. destruct (RemoveStaged_shrunk wait P D Hok HD) as (Q & -> & HQ & Hs & Hp & Hd).
  { by apply closed_no_bridge. }
  cbn [mbind option_bind]. exists l, Q, D. split; [done|]. split; [done|]. split; [by eapply pruned_intro|]. split; [done|]. intros y. rewrite HD'. split; intros (x & Hx & Hr); exists x; (split; [by apply HX' | done]).
Qed.

Lemma remove_single wait P t : pool_at wait P → par P (Tx.GetHash t) = ∅ → ∃ removed Q, remove t false P = Some (removed, Q) ∧ pool_at wait Q ∧ shrunk P Q ∧
  mapDeltas Q = mapDeltas P ∧ pool Q = pool P ∖ {[Tx.GetHash t]}.
Proof using Type.
  intros Hok Hpar. unfold remove.
  assert (HX : ∃ X, (if decide (is_Some (mapTx P !! Tx.GetHash t)) then Some {[Tx.GetHash t]} else Some ∅) = Some X ∧ X ⊆ pool P ∧ X ⊆ {[Tx.GetHash t]} ∧ pool P ∖ X = pool P ∖ {[Tx.GetHash t]}).
  { destruct (decide (is_Some _)) as [[e He]|Hn].
    - apply pool_intro in He. eexists. split; [done|]. split; [set_solver|]. split; [set_solver | done].
    - eexists. split; [done|]. split; [set_solver|]. split; [set_solver|]. assert (Tx.GetHash t ∉ pool P) by (intros [e He]%pool_entry; apply Hn; by eexists). set_solver. }
  destruct HX as (X & -> & HX & HX1 & HX2). cbn [mbind option_bind]. destruct (removed_list P X HX) as [l ->]. cbn [mbind option_bind].
  destruct (RemoveStaged_shrunk wait P X Hok HX) as (Q & -> & HQ & Hs & Hp & Hd).
  { intros r Hr. right. intros x Hx. assert (Er : r = Tx.GetHash t) by set_solver.
    apply rtc_inv in Hx as [<-|(z & Hz & _)]; [exact Hr|]. unfold dep in Hz. rewrite Er, Hpar in Hz. set_solver. }
  cbn [mbind option_bind]. exists l, Q. split; [done|]. split; [done|]. split; [done|]. split; [done|]. congruence.
Qed.

(** ** Conflicts and blocks *)

(** Fields that the invariant does not read. *)
Lemma same_ok wait P Q : mapTx Q = mapTx P → mapLinks Q = mapLinks P → mapNextTx Q = mapNextTx P → totalTxSize Q = totalTxSize P →
  cachedInnerUsage Q = cachedInnerUsage P → pool_at wait P → pool_at wait Q.
Proof using Type.
  destruct P, Q. cbn. intros -> -> -> -> -> [[] [] Hc []]. split; [by split | by split | exact Hc | by split].
Qed.

Lemma same_shrunk P Q : mapTx Q = mapTx P → mapLinks Q = mapLinks P → mapNextTx Q = mapNextTx P → shrunk P Q.
Proof using Type.
  intros E1 E2 E3. split.
  - intros x e. rewrite E1. intros He. by exists e.
  - intros y x. unfold dep, par. by rewrite (links_eq P Q).
  - intros o v. by rewrite E3.
Qed.

Lemma spender_in wait P o c n : pool_at wait P → mapNextTx P !! o = Some (c, n) → ∃ e, mapTx P !! c = Some e ∧ Tx.GetHash (tx e) = c.
Proof using Type.
  intros Hok Ho. apply (tr_next _ _ (p_tracked _ _ Hok)) in Ho as (e & txin & He & _). exists e. split; [done|]. by apply (s_hash _ (p_sized _ _ Hok)).
Qed.

(** A spender of an input of [t] in the pool that is not [t]. *)
Definition conflicts P (t : CTransaction) (z : uint256) : Prop :=
  z ≠ Tx.GetHash t ∧ ∃ txin n, txin ∈ Tx.vin t ∧ mapNextTx P !! Tx.prevout txin = Some (z, n).

Lemma shrunk_rtc P Q y x : shrunk P Q → rtc (dep Q) y x → rtc (dep P) y x.
Proof using Type. intros Hs. apply rtc_subrel. intros a b. apply Hs. Qed.

Lemma shrunk_conflicts P Q t z : shrunk P Q → conflicts Q t z → conflicts P t z.
Proof using Type. intros Hs (Hz & txin & n & Hin & Hn). split; [done|]. exists txin, n. split; [done|]. by apply Hs. Qed.

Lemma remove_conflict_spec wait P t txin removed : pool_at wait P → txin ∈ Tx.vin t →
  ∃ removed' Q, remove_conflict t txin (removed, P) = Some (removed', Q) ∧ pool_at wait Q ∧ shrunk P Q ∧ mapDeltas Q = mapDeltas P ∧
    (∀ c n, mapNextTx Q !! Tx.prevout txin = Some (c, n) → c = Tx.GetHash t) ∧
    (∀ y, y ∈ pool P → y ∉ pool Q → ∃ z, conflicts P t z ∧ rtc (dep P) y z).
Proof using Type.
  intros Hok Hin. unfold remove_conflict. cbn [fst snd]. destruct (mapNextTx P !! Tx.prevout txin) as [[c n]|] eqn:En.
  2: { exists removed, P. repeat (split; [done|]). split; [|done]. intros c n. by rewrite En. }
  destruct (spender_in wait P _ c n Hok En) as (e & He & Eh). rewrite He. cbn [mbind option_bind]. rewrite Eh. destruct (decide (c = Tx.GetHash t)) as [->|Hne].
  { exists removed, P. repeat (split; [done|]). split; [|done]. intros c m. rewrite En. by intros [= -> _]. }
  destruct (remove_recursive wait P (tx e) Hok) as (l & Q & D & -> & HQ & [Hs Hd _] & Hp & HD). cbn [mbind option_bind fst snd].
  assert (Hst : ∀ x, starts P (tx e) x ↔ x = c).
  { intros x. unfold starts. rewrite Eh, decide_True by by eapply pool_intro. done. }
  eexists _, Q. split; [done|]. split; [done|]. split; [done|]. split; [done|]. split.
  - intros c' n' Hc'. pose proof (sh_next _ _ Hs _ _ Hc') as H1. rewrite En in H1. injection H1 as <- <-. exfalso.
    destruct (spender_in wait Q _ c n HQ Hc') as (e' & He' & _). apply pool_intro in He'. rewrite Hp in He'. apply elem_of_difference in He' as [_ Hn]. apply Hn, HD.
    exists c. split; [by apply Hst | done].
  - intros y Hy Hn. assert (HyD : y ∈ D) by (destruct (decide (y ∈ D)); [done | set_solver]). apply HD in HyD as (x & ->%Hst & Hr).
    exists c. split; [split; [done|]; by exists txin, n | done].
Qed.

Lemma removeConflicts_spec wait P t removed : pool_at wait P →
  ∃ removed' Q, removeConflicts t removed P = Some (removed', Q) ∧ pool_at wait Q ∧ shrunk P Q ∧ mapDeltas Q = mapDeltas P ∧
    (∀ txin c n, txin ∈ Tx.vin t → mapNextTx Q !! Tx.prevout txin = Some (c, n) → c = Tx.GetHash t) ∧
    (∀ y, y ∈ pool P → y ∉ pool Q → ∃ z, conflicts P t z ∧ rtc (dep P) y z).
Proof using Type.
  intros Hok. unfold removeConflicts. assert (Hsub : ∀ txin, txin ∈ Tx.vin t → txin ∈ Tx.vin t) by done. revert Hsub.
  generalize (Tx.vin t) at 1 3 4 as l. intros l. revert P removed Hok. induction l as [|txin l IH]; intros P removed Hok Hsub; cbn [each].
  - exists removed, P. repeat (split; [done|]). split; [|done]. intros txin c n Hin. by apply elem_of_nil in Hin.
  - destruct (remove_conflict_spec wait P t txin removed Hok (Hsub txin ltac:(by left))) as (r1 & Q1 & -> & H1 & H2 & H3 & H4 & H5). cbn [mbind option_bind].
    destruct (IH Q1 r1 H1 ltac:(intros y Hy; apply Hsub; by right)) as (r2 & Q2 & E & K1 & K2 & K3 & K4 & K5).
    exists r2, Q2. split; [done|]. split; [done|]. split; [by etransitivity|]. split; [congruence|]. split.
    + intros txin' c n [->|Hin]%elem_of_cons Hc; [|by eapply K4]. apply (H4 c n). by apply K2.
    + intros y Hy Hn. destruct (decide (y ∈ pool Q1)) as [Hy1|Hy1]; [|by apply H5]. destruct (K5 y Hy1 Hn) as (z & Hz & Hr).
      exists z. split; [by eapply shrunk_conflicts | by eapply shrunk_rtc].
Qed.

(** In the order of the block, a transaction of the pool comes after its parents in the pool. *)
Definition in_block_order P (vtx : list CTransaction) : Prop :=
  ∀ pre t post e x, vtx = pre ++ t :: post → mapTx P !! Tx.GetHash t = Some e → spends (tx e) x → x ∈ pool P → x ∈ map Tx.GetHash pre.

(** Why an entry leaves the pool: it is in the block, or depends on a conflict with the block. *)
Definition outdated P (vtx : list CTransaction) (y : uint256) : Prop :=
  y ∈ map Tx.GetHash vtx ∨ ∃ t z, t ∈ vtx ∧ conflicts P t z ∧ rtc (dep P) y z.

Lemma remove_mined_all wait P vtx : pool_at wait P → in_block_order P vtx → ∀ post pre removed Q, vtx = pre ++ post → pool_at wait Q → shrunk P Q →
  (∀ t, t ∈ pre → Tx.GetHash t ∉ pool Q ∧ ∀ txin, txin ∈ Tx.vin t → mapNextTx Q !! Tx.prevout txin = None) →
  (∀ y, y ∈ pool P → y ∉ pool Q → outdated P vtx y) →
  ∃ removed' Q', each remove_mined post (removed, Q) = Some (removed', Q') ∧ pool_at wait Q' ∧ shrunk P Q' ∧
    (∀ t, t ∈ vtx → Tx.GetHash t ∉ pool Q' ∧ ∀ txin, txin ∈ Tx.vin t → mapNextTx Q' !! Tx.prevout txin = None) ∧
    (∀ y, y ∈ pool P → y ∉ pool Q' → outdated P vtx y).
Proof using Type.
  intros Hok Hord. induction post as [|t post IH]; intros pre removed Q Evtx HQ Hs Hpre Hwhy; cbn [each].
  { exists removed, Q. rewrite app_nil_r in Evtx. subst pre. by repeat (split; [done|]). }
  assert (Htv : t ∈ vtx) by (rewrite Evtx; apply elem_of_app; right; by left).
  assert (Hpar : par Q (Tx.GetHash t) = ∅).
  { apply leibniz_equiv, elem_of_equiv_empty. intros x Hx. pose proof (lk_in _ (p_linked _ _ HQ) _ _ Hx) as [Hxq Htq]. destruct (pool_entry Q _ Htq) as [e He].
    apply (tr_links _ _ (p_tracked _ _ HQ) _ _ e He) in Hx as (_ & Hsp & _). destruct (sh_entry _ _ Hs _ e He) as (e0 & He0 & Hb). apply bare_fields in Hb as (Et & _). rewrite <- Et in Hsp.
    pose proof (Hord pre t post e0 x Evtx He0 Hsp (shrunk_pool P Q Hs x Hxq)) as Hin. apply list_elem_of_fmap in Hin as (t' & -> & Hin). by apply (Hpre t' Hin). }
  destruct (remove_single wait Q t HQ Hpar) as (l1 & Q1 & E1 & H1 & H2 & H3 & H4). destruct (removeConflicts_spec wait Q1 t removed H1) as (l2 & Q2 & E2 & K1 & K2 & K3 & K4 & K5).
  assert (E3 : remove_mined t (removed, Q) = Some (l2, ClearPrioritisation (Tx.GetHash t) Q2)).
  { unfold remove_mined. cbn [fst snd]. rewrite E1. cbn [mbind option_bind fst snd]. by rewrite E2. }
  rewrite E3. cbn [mbind option_bind]. set (Q3 := ClearPrioritisation (Tx.GetHash t) Q2). assert (HQ3 : pool_at wait Q3) by (by eapply same_ok; [| | | | |exact K1]).
  assert (Hs3 : shrunk Q Q3) by (etransitivity; [exact H2 | etransitivity; [exact K2 | by apply same_shrunk]]).
  apply (IH (pre ++ [t]) l2 Q3); [by rewrite <- app_assoc | done | by etransitivity | |].
  - intros t' [Hin|Hin]%elem_of_app.
    + destruct (Hpre t' Hin) as [A1 A2]. split; [intros Hx; apply A1; by eapply shrunk_pool|]. intros txin Htxin. specialize (A2 txin Htxin).
      destruct (mapNextTx Q3 !! Tx.prevout txin) as [v|] eqn:Ev; [|done]. apply (sh_next _ _ Hs3) in Ev. congruence.
    + apply list_elem_of_singleton in Hin as ->. assert (Hnt : Tx.GetHash t ∉ pool Q3).
      { intros Hx. assert (Hx1 : Tx.GetHash t ∈ pool Q1) by (eapply shrunk_pool; [exact K2 | exact Hx]). rewrite H4 in Hx1. set_solver. }
      split; [done|]. intros txin Htxin. destruct (mapNextTx Q3 !! Tx.prevout txin) as [[c n]|] eqn:Ev; [|done]. exfalso. apply Hnt.
      destruct (spender_in wait Q3 _ c n HQ3 Ev) as (e & He & _). rewrite <- (K4 txin c n Htxin Ev). by eapply pool_intro.
  - intros y Hy Hn. destruct (decide (y ∈ pool Q)) as [HyQ|HyQ]; [|by apply Hwhy]. destruct (decide (y = Tx.GetHash t)) as [->|Hne]; [left; by apply list_elem_of_fmap_2|].
    assert (Hy1 : y ∈ pool Q1) by (rewrite H4; set_solver). destruct (K5 y Hy1 Hn) as (z & Hz & Hr). right. exists t, z. split; [done|].
    assert (Hsh : shrunk P Q1) by by etransitivity. split; [by eapply shrunk_conflicts | by eapply shrunk_rtc].
Qed.

Lemma removeForBlock_spec wait P vtx : pool_at wait P → in_block_order P vtx →
  ∃ removed Q, removeForBlock vtx P = Some (removed, Q) ∧ pool_at wait Q ∧ shrunk P Q ∧
    (∀ t, t ∈ vtx → Tx.GetHash t ∉ pool Q ∧ ∀ txin, txin ∈ Tx.vin t → mapNextTx Q !! Tx.prevout txin = None) ∧
    (∀ y, y ∈ pool P → y ∉ pool Q → outdated P vtx y).
Proof using Type.
  intros Hok Hord. unfold removeForBlock. destruct (remove_mined_all wait P vtx Hok Hord vtx [] [] P) as (l & Q & -> & H1 & H2 & H3 & H4); try done.
  { intros t Ht. by apply elem_of_nil in Ht. }
  cbn [mbind option_bind]. eexists _, _. split; [done|]. split; [by eapply same_ok; [| | | | |exact H1]|].
  split; [etransitivity; [exact H2 | by apply same_shrunk]|]. done.
Qed.

(** [removeForReorg] and other lists of transactions. *)
Lemma remove_all_spec wait l : ∀ P, pool_at wait P → ∃ Q, remove_all l P = Some Q ∧ pool_at wait Q ∧ pruned wait P Q ∧ ∀ t, t ∈ l → Tx.GetHash t ∉ pool Q.
Proof using Type.
  induction l as [|t l IH]; intros P Hok; unfold remove_all; cbn [each].
  - exists P. repeat (split; [done|]). intros t Ht. by apply elem_of_nil in Ht.
  - destruct (remove_recursive wait P t Hok) as (l1 & Q1 & D & -> & H1 & H2 & H3 & H4). cbn [mbind option_bind fst snd].
    destruct (IH Q1 H1) as (Q2 & E & K1 & K2 & K3). exists Q2. split; [exact E|]. split; [done|]. split; [by etransitivity|].
    intros t' [->|Hin]%elem_of_cons; [|by apply K3]. intros Hx. apply (shrunk_pool _ _ (pr_shrunk _ _ _ K2)) in Hx. rewrite H3 in Hx. apply elem_of_difference in Hx as [Hx Hn]. apply Hn, H4.
    exists (Tx.GetHash t). split; [|done]. unfold starts. by rewrite decide_True.
Qed.

(** ** Expiry and the limit on memory *)

Lemma Expire_spec wait P time : pool_at wait P → ∃ n Q, Expire time P = Some (n, Q) ∧ pool_at wait Q ∧ pruned wait P Q ∧
  ∀ y, y ∈ pool P → (y ∉ pool Q ↔ ∃ x e, mapTx P !! x = Some e ∧ nTime e < time ∧ rtc (dep P) y x).
Proof using Type.
  intros Hok. pose proof (p_linked _ _ Hok) as Hl. unfold Expire.
  assert (Ho : ∀ x, x ∈ older P time ↔ ∃ e, mapTx P !! x = Some e ∧ nTime e < time).
  { intros x. unfold older. rewrite elem_of_dom. split; [intros [e [He Ht]%map_lookup_filter_Some]; by exists e | intros (e & He & Ht); exists e; by apply map_lookup_filter_Some]. }
  destruct (all_descendants_spec P (older P time) Hl) as (D & -> & HD & HD').
  { intros x (e & He & _)%Ho. by eapply pool_intro. }
  cbn [mbind option_bind].
  assert (Hcl : ∀ x y, x ∈ D → rtc (dep P) y x → y ∈ D) by (intros x y Hx Hr; apply HD'; apply HD' in Hx as (z & Hz & Hr'); exists z; split; [done | by etransitivity]).
  destruct (RemoveStaged_shrunk wait P D Hok HD (closed_no_bridge P D Hcl)) as (Q & -> & HQ & Hs & Hp & Hd).
  cbn [mbind option_bind]. eexists _, Q. split; [done|]. split; [done|]. split; [by eapply pruned_intro|]. intros y Hy. rewrite Hp, not_elem_of_difference. split.
  - intros [?|(x & (e & He & Ht)%Ho & Hr)%HD']; [done|]. by exists x, e.
  - intros (x & e & He & Ht & Hr). right. apply HD'. exists x. split; [|done]. apply Ho. by exists e.
Qed.

(** The index by fee rate has a first entry unless it is empty. *)
Definition lowest_law : Prop := ∀ m, match lowest_feerate m with Some x => x ∈ dom m | None => m = ∅ end.

Lemma empty_usage wait P : pool_at wait P → mapTx P = ∅ → DynamicMemoryUsage P = u64 (delta_node * Z.of_nat (size (mapDeltas P))).
Proof using Type.
  intros [Hl _ _ [_ T2 _ T4 T5]] E. assert (E2 : mapLinks P = ∅).
  { apply map_empty. intros x. destruct (mapLinks P !! x) eqn:Ex; [|done]. assert (Hx : x ∈ pool P) by (apply (lk_dom _ Hl); by eexists).
    unfold pool in Hx. rewrite E in Hx. set_solver. }
  assert (E3 : mapNextTx P = ∅).
  { apply map_empty. intros o. destruct (mapNextTx P !! o) as [[c n]|] eqn:Ex; [|done]. apply T2 in Ex as (e & ? & He & _). by rewrite E in He. }
  assert (E4 : cachedInnerUsage P = 0).
  { unfold slack in T4. rewrite E, E2 in T4. unfold msum in T4. rewrite !map_to_list_empty in T4. cbn in T4. rewrite Z.sub_0_r in T4. by rewrite T5, T4. }
  unfold DynamicMemoryUsage. rewrite E, E2, E3, E4, !map_size_empty. f_equal. lia.
Qed.

Lemma trim_loop_spec wait sizelimit fuel : lowest_law → ∀ P l, pool_at wait P → u64 (delta_node * Z.of_nat (size (mapDeltas P))) <= sizelimit →
  (size (mapTx P) <= fuel)%nat → (∀ o, o ∈ l → o.1 ∉ pool P ∧ mapNextTx P !! o = None) →
  ∃ l' Q, trim_loop fuel sizelimit P l = Some (l', Q) ∧ pool_at wait Q ∧ pruned wait P Q ∧ DynamicMemoryUsage Q <= sizelimit ∧
    (∀ o, o ∈ l' → o.1 ∉ pool Q ∧ mapNextTx Q !! o = None).
Proof using Type.
  intros Hlow. induction fuel as [|fuel IH]; intros P l Hok Hmin Hf Hl; cbn [trim_loop]; destruct (DynamicMemoryUsage P >? sizelimit) eqn:Eu.
  2, 4: exists l, P; repeat (split; [done|]); split; [lia | done].
  { assert (E : mapTx P = ∅) by (apply map_size_empty_inv; lia). rewrite (empty_usage wait P Hok E) in Eu. lia. }
  specialize (Hlow (mapTx P)). destruct (lowest_feerate (mapTx P)) as [it|]; [|rewrite (empty_usage wait P Hok Hlow) in Eu; lia].
  cbn [mbind option_bind]. fold (pool P) in Hlow. pose proof (p_linked _ _ Hok) as Hk.
  destruct (CalculateDescendants_spec P it ∅ Hk Hlow) as (D & -> & HD); [set_solver | set_solver|]. cbn [mbind option_bind].
  assert (HD' : is_desc P it D) by (intros y; rewrite HD; set_solver). pose proof (desc_pool P it D Hk Hlow HD') as Hsub.
  destruct (removed_list P D Hsub) as [txn ->]. cbn [mbind option_bind]. assert (Hcl : ∀ x y, x ∈ D → rtc (dep P) y x → y ∈ D) by (intros x y Hx Hr; apply HD'; apply HD' in Hx; by etransitivity).
  destruct (RemoveStaged_shrunk wait P D Hok Hsub (closed_no_bridge P D Hcl)) as (Q & -> & HQ & Hs & Hp & Hdel).
  cbn [mbind option_bind]. assert (Hsz : (size (mapTx Q) < size (mapTx P))%nat).
  { rewrite <- !size_pool. apply subset_size. rewrite Hp. pose proof (desc_self P it D HD'). set_solver. }
  destruct (IH Q (l ++ no_spends Q txn)) as (l' & Q' & E & K1 & K2 & K3 & K4).
  - done.
  - by rewrite Hdel.
  - lia.
  - intros o [Ho|Ho]%elem_of_app.
    + destruct (Hl o Ho) as [A1 A2]. split; [intros Hx; apply A1; by eapply shrunk_pool|]. destruct (mapNextTx Q !! o) as [v|] eqn:Ev; [|done]. apply (sh_next _ _ Hs) in Ev. congruence.
    + unfold no_spends in Ho. apply list_elem_of_In, filter_In in Ho as [_ Ho]. unfold exists_tx, isSpent in Ho. rewrite andb_true_iff, !negb_true_iff, !bool_decide_eq_false in Ho.
      destruct Ho as [A1 A2]. split; [intros [e He]%pool_entry; apply A1; by eexists|]. destruct (mapNextTx Q !! o); [|done]. exfalso. apply A2. by eexists.
  - exists l', Q'. split; [done|]. split; [done|]. split; [etransitivity; [by eapply pruned_intro | done] | done].
Qed.

Lemma TrimToSize_spec wait P sizelimit : lowest_law → pool_at wait P → u64 (delta_node * Z.of_nat (size (mapDeltas P))) <= sizelimit →
  ∃ l Q, TrimToSize sizelimit P = Some (l, Q) ∧ pool_at wait Q ∧ pruned wait P Q ∧ DynamicMemoryUsage Q <= sizelimit ∧ (∀ o, o ∈ l → o.1 ∉ pool Q ∧ mapNextTx Q !! o = None).
Proof using Type. intros Hlow Hok Hmin. apply trim_loop_spec; try done. intros o Ho. by apply elem_of_nil in Ho. Qed.

(** ** Priorities, an empty pool *)

Lemma PrioritiseTransaction_ok wait P h d : pool_at wait P → ∃ Q, PrioritiseTransaction h d P = Some Q ∧ pool_at wait Q.
Proof using Type.
  intros Hok. unfold PrioritiseTransaction. cbn zeta. set (P1 := with_deltas _ P). assert (H1 : pool_at wait P1) by (by eapply same_ok; [| | | | |exact Hok]).
  destruct (mapTx P1 !! h) as [e|] eqn:He; [|by exists P1]. unfold modify. rewrite He. cbn [mbind option_bind]. eexists. split; [done|]. by eapply (prioritised wait P1 _ h e).
Qed.

Lemma clear_ok wait P : pool_at wait (clear P).
Proof using Type.
  assert (Hx : ∀ x, x ∉ pool (clear P)) by (intros x; unfold pool; cbn; set_solver).
  split.
  - split; cbn.
    + intros x. split; [by intros [? ?] | by intros ?%Hx].
    + intros x y. unfold par, chi, links_at. cbn. set_solver.
    + intros x y. unfold par, links_at. cbn. set_solver.
    + intros x Ht. inversion Ht as [? ? H|? ? ? H]; unfold dep, par, links_at in H; cbn in H; set_solver.
  - split; try (intros x e He; done); unfold pool; cbn; rewrite dom_empty_L, total_empty; done.
  - intros x e D He. done.
  - split; try done. intros o c n. split; [done|]. by intros (e & ? & He & _).
Qed.

(** ** The consistency check *)

(** Every input is an output of the pool or a coin. *)
Definition available (have_coin : COutPoint → bool) P : Prop := ∀ x e txin, mapTx P !! x = Some e → txin ∈ Tx.vin (tx e) →
  match mapTx P !! (Tx.prevout txin).1 with
  | Some e2 => ∃ out, Tx.vout (tx e2) !! Z.to_nat (Tx.prevout txin).2 = Some out ∧ Tx.IsNull out = false
  | None => have_coin (Tx.prevout txin) = true
  end.

Lemma check_inputs_spec have P x e : pool_ok P → available have P → mapTx P !! x = Some e → ∀ k, check_inputs have P x (Z.of_nat k) (drop k (Tx.vin (tx e))) = true.
Proof using Type.
  intros Hok Ha He. pose proof (tr_next _ _ (p_tracked _ _ Hok)) as T2. assert (Hlen : ∀ l k, drop k (Tx.vin (tx e)) = l → check_inputs have P x (Z.of_nat k) l = true); [|intros k; by apply Hlen].
  induction l as [|txin l IH]; intros k Hk; cbn [check_inputs]; [done|].
  assert (Hin : Tx.vin (tx e) !! k = Some txin) by (pose proof (lookup_drop (Tx.vin (tx e)) k 0) as Hd; rewrite Hk, Nat.add_0_r in Hd; by rewrite <- Hd).
  assert (Hd : drop (S k) (Tx.vin (tx e)) = l) by (replace (S k) with (k + 1)%nat by lia; rewrite <- drop_drop, Hk; done).
  rewrite !andb_true_iff. split; [split|].
  - specialize (Ha x e txin He (list_elem_of_lookup_2 _ _ _ Hin)). destruct (mapTx P !! (Tx.prevout txin).1) as [e2|]; [|done]. destruct Ha as (out & -> & ->). done.
  - apply bool_decide_eq_true. apply T2. exists e, txin. rewrite Nat2Z.id. split; [done|]. split; [lia | done].
  - replace (Z.of_nat k + 1) with (Z.of_nat (S k)) by lia. by apply IH.
Qed.

Lemma elem_of_spenders wait P x y : pool_at wait P → y ∈ spenders P x ↔ ∃ e, mapTx P !! y = Some e ∧ spends (tx e) x.
Proof using Type.
  intros Hok. pose proof (tr_next _ _ (p_tracked _ _ Hok)) as T2. unfold spenders. rewrite list_elem_of_fmap. split.
  - intros ([o [c n]] & -> & Hin). apply list_elem_of_In, filter_In in Hin as [Hin Ho]. apply list_elem_of_In, elem_of_map_to_list, T2 in Hin as (e & txin & He & _ & Hk & Eo).
    apply bool_decide_eq_true in Ho. exists e. split; [done|]. apply elem_of_parents. exists (Z.to_nat n), txin. split; [done|]. by rewrite Eo.
  - intros (e & He & (i & txin & Hi & <-)%elem_of_parents). exists (Tx.prevout txin, (y, Z.of_nat i)). split; [done|]. apply list_elem_of_In, filter_In. split; [|by apply bool_decide_eq_true].
    apply list_elem_of_In, elem_of_map_to_list, T2. exists e, txin. rewrite Nat2Z.id. split; [done|]. split; [lia | done].
Qed.

Lemma check_children P x : pool_ok P → x ∈ pool P → setChildrenCheck P x = chi P x.
Proof using Type.
  intros Hok Hx. pose proof (p_linked _ _ Hok) as Hl. apply set_eq. intros y. unfold setChildrenCheck. rewrite elem_of_list_to_set, (elem_of_spenders none P x y Hok), <- (lk_sym _ Hl). split.
  - intros (e & He & Hs). apply (tr_links _ _ (p_tracked _ _ Hok) x y e He). split; [done|]. split; [done|]. by intros [].
  - intros Hy. pose proof (lk_in _ Hl _ _ Hy) as [_ Hyp]. destruct (pool_entry P y Hyp) as [e He]. exists e. split; [done|]. by apply (tr_links _ _ (p_tracked _ _ Hok) x y e He) in Hy as (_ & Hs & _).
Qed.

Lemma sum_descendants_spec P l : (∀ x, x ∈ l → x ∈ pool P) → sum_descendants P l = Some (sum_of (sz P) l, sum_of (fee P) l, Z.of_nat (length l)).
Proof using Type.
  induction l as [|x l IH]; intros Hl; cbn [sum_descendants]; [done|]. destruct (pool_entry P x (Hl x ltac:(by left))) as [e He]. rewrite He. cbn [mbind option_bind].
  rewrite IH by (intros y Hy; apply Hl; by right). cbn [mbind option_bind sum_of foldr length]. unfold sz at 2, fee at 2. rewrite He. cbn [from_option]. unfold sum_of. f_equal. f_equal; [f_equal; lia | lia].
Qed.

Lemma sum_in_order P X : X ⊆ pool P → sum_descendants P (in_order X) = Some (total (sz P) X, total (fee P) X, Z.of_nat (size X)).
Proof using Type.
  intros HX. rewrite sum_descendants_spec by (intros x Hx%elem_of_in_order; by apply HX). unfold total. rewrite !(sum_of_perm _ _ _ (in_order_perm X)). by rewrite (Permutation_length (in_order_perm X)).
Qed.

Lemma check_state_spec P x e : pool_ok P → mapTx P !! x = Some e → check_state P e = true.
Proof using Type.
  intros Hok He. pose proof (p_linked _ _ Hok) as Hl. pose proof (p_sized _ _ Hok) as Hs. assert (Hx : x ∈ pool P) by by eapply pool_intro.
  unfold check_state. rewrite (s_hash _ Hs x e He), check_children by done. rewrite sum_in_order by by apply chi_pool.
  pose proof (p_counted _ _ Hok x e (desc P x) He (desc_spec P x Hl Hx)) as Hc. unfold state_is in Hc. pose proof (s_size _ Hs x e He). pose proof (s_fee _ Hs x e He).
  destruct (IsDirty e); cbn [negb]; rewrite !andb_true_iff; [lia|]. destruct Hc as (_ & -> & ->).
  assert (Hxc : x ∉ chi P x) by (intros Hx'; apply (lk_acyclic _ Hl x), tc_once, (lk_sym _ Hl); exact Hx').
  assert (Hsub : {[x]} ∪ chi P x ⊆ desc P x).
  { intros y Hy. apply desc_spec; [done | done|]. apply elem_of_union in Hy as [->%elem_of_singleton|Hy]; [done|]. apply rtc_once. by apply (lk_sym _ Hl). }
  pose proof (desc_sub P x Hl Hx) as Hsub'. pose proof (total_mono (sz P) _ _ ltac:(intros y _; by apply sized_nonneg) Hsub) as M1. pose proof (total_mono (fee P) _ _ ltac:(intros y _; by apply sized_nonneg) Hsub) as M2.
  rewrite total_insert in M1, M2 by done. unfold sz at 1 in M1. unfold fee at 1 in M2. rewrite He in M1, M2. cbn [from_option] in M1, M2.
  destruct (sized_bounds P (desc P x) Hs Hsub') as [B1 B2]. destruct (sized_bounds P (chi P x) Hs ltac:(by apply chi_pool)) as [B3 B4]. rewrite u64_small by lia. lia.
Qed.

Lemma check_totals P : pool_ok P → cachedInnerUsage P = u64 (sum_of (inner_usage P) (map_to_list (mapTx P))).
Proof using Type.
  intros [Hl _ _ [_ _ _ T4 T5]]. assert (E : sum_of (inner_usage P) (map_to_list (mapTx P)) = msum nUsageSize (mapTx P) + msum set_bytes (mapLinks P)).
  { unfold msum. transitivity (sum_of (λ x, nUsageSize x.2) (map_to_list (mapTx P)) + sum_of (λ x : uint256 * CTxMemPoolEntry, set_bytes (links_at P x.1)) (map_to_list (mapTx P))).
    - unfold sum_of. induction (map_to_list (mapTx P)) as [|x l IH]; cbn; [done|]. unfold inner_usage at 1, set_bytes at 1. lia.
    - f_equal. fold (msum set_bytes (mapLinks P)). rewrite <- msum_dom. assert (Ed : dom (mapLinks P) = pool P) by (apply set_eq; intros x; rewrite elem_of_dom; apply Hl). rewrite Ed.
      transitivity (sum_of (λ x, set_bytes (links_at P x)) (map_to_list (mapTx P)).*1); [unfold sum_of; induction (map_to_list (mapTx P)); cbn; congruence|].
      unfold total. rewrite (sum_of_perm _ (elements (pool P)) (map_to_list (mapTx P)).*1).
      + apply sum_of_ext. intros x _. by rewrite links_bytes.
      + apply NoDup_Permutation; [apply NoDup_elements | apply NoDup_fst_map_to_list|]. intros x. rewrite elem_of_elements, list_elem_of_fmap. unfold pool. rewrite elem_of_dom. split.
        * intros [e He]. exists (x, e). split; [done|]. by apply elem_of_map_to_list.
        * intros ([y e] & -> & Hin%elem_of_map_to_list). by eexists. }
  rewrite E. unfold slack in T4. rewrite <- u64_add_l, <- T4, u64_add_l, T5. f_equal. rewrite <- T5. lia.
Qed.

(** The check passes on every pool of the invariant. *)
Lemma check_spec have P : pool_ok P → available have P → check have P = true.
Proof using Type.
  intros Hok Ha. pose proof (p_linked _ _ Hok) as Hl. unfold check. rewrite !andb_true_iff. split; [split; [split|]|].
  - apply forallb_forall. intros [x e] Hin. apply list_elem_of_In, elem_of_map_to_list in Hin. assert (Hx : x ∈ pool P) by by eapply pool_intro.
    unfold check_entry. cbn [fst snd]. destruct (proj2 (lk_dom _ Hl x) Hx) as [l El]. rewrite El.
    assert (El' : links_at P x = l) by (unfold links_at; by rewrite El). rewrite !andb_true_iff, !bool_decide_eq_true. split; [split; [split|]|].
    + apply (check_inputs_spec have P x e Hok Ha Hin 0).
    + rewrite <- El'. change (parents (links_at P x)) with (par P x). apply set_eq. intros y. unfold setParentCheck. rewrite elem_of_filter.
      rewrite (tr_links _ _ (p_tracked _ _ Hok) y x e Hin). unfold pool, spends, none. rewrite elem_of_dom. tauto.
    + rewrite <- El'. by apply check_children.
    + by eapply check_state_spec.
  - apply forallb_forall. intros [o [c n]] Hin. apply list_elem_of_In, elem_of_map_to_list, (tr_next _ _ (p_tracked _ _ Hok)) in Hin as (e & txin & He & Hz & Hk & Ho).
    unfold check_next. cbn [fst snd]. rewrite He, Hk, !bool_decide_true by done. done.
  - apply Z.eqb_eq. apply (tr_total _ _ (p_tracked _ _ Hok)).
  - apply Z.eqb_eq. by apply check_totals.
Qed.

(** ** Adding a transaction *)

(** The ancestors with any limits that are not hit. *)
Lemma add_with_limits wait wait' P h entry lim err A : pool_at wait P → addable wait wait' P h entry →
  CalculateMemPoolAncestors entry lim true P = Some (err, A) → err = None →
  ∃ Q, addUnchecked_to h entry A P = Some Q ∧ pool_at wait' Q ∧ pool Q = {[h]} ∪ pool P ∧ mapDeltas Q = mapDeltas P ∧
    ∀ x, core <$> mapTx Q !! x = if decide (x = h) then Some (core entry) else core <$> mapTx P !! x.
Proof using Type.
  intros Hok Ha E Ee. destruct (CalculateMemPoolAncestors_new P entry lim (linked_rooted _ (p_linked _ _ Hok))) as (err' & A' & E' & HA & _).
  rewrite E in E'. injection E' as <- <-. destruct (HA Ee) as [HA' _]. by eapply addUnchecked_to_ok.
Qed.

Lemma addUnchecked_ok wait wait' P h entry : pool_at wait P → addable wait wait' P h entry →
  ∃ Q, addUnchecked h entry P = Some Q ∧ pool_at wait' Q ∧ pool Q = {[h]} ∪ pool P ∧ mapDeltas Q = mapDeltas P ∧
    ∀ x, core <$> mapTx Q !! x = if decide (x = h) then Some (core entry) else core <$> mapTx P !! x.
Proof using Type.
  intros Hok Ha. unfold addUnchecked. destruct (CalculateMemPoolAncestors_new P entry nNoLimit (linked_rooted _ (p_linked _ _ Hok))) as (err & A & E & HA & Hn).
  rewrite E. cbn [mbind option_bind]. eapply add_with_limits; [done | done | exact E | by apply Hn].
Qed.
End Operations.
End PoolOps.
