(* ===== verification/PoolReorg.v ===== *)
(** * The memory pool: transactions of a disconnected block

    When a block is disconnected, its transactions come back to the pool in the order of the
    block, without links to the transactions of the pool that spend them: [waiting].  Then
    [UpdateTransactionsFromBlock] goes through them in reverse order, adds these links, and adds to
    the state of each the descendants outside of the block, found by a walk that reuses the
    descendants of transactions it was done with.  The theorem is that the pool is consistent
    again. *)

From stdpp Require Import base option gmap fin_maps sets sorting relations list.
From Stdlib Require Import ZArith Lia.
From S2P Require Import Prelude Serialize Tx Coins Stake Mempool Pool PoolOps.
Import Mempool Pool PoolOps.
Open Scope Z_scope.

Module PoolReorg.

Section Reorg.
Context {env : PoolEnv}.
Implicit Types P Q : CTxMemPool.

(** ** The walk *)

Section Visit.
Context (Q : CTxMemPool) (H : setEntries) (cached : gmap uint256 setEntries).
Context (Hl : linked Q).
Context (Hcache : ∀ k X, cached !! k = Some X → k ∈ pool Q ∧ X = desc Q k ∖ H).

Lemma visit_cached_spec stage l : ∀ all n, (visit_cached H stage l all n).1 = list_to_set l ∪ all.
Proof using All.
  induction l as [|x l IH]; intros all n; cbn [visit_cached list_to_set]; [by rewrite union_empty_l_L|].
  destruct (decide (x ∈ all)) as [Hx|Hx]; rewrite IH; set_solver.
Qed.

(** A child is staged, known, or its cached descendants are known. *)
Definition handled (c : uint256) (stage all : setEntries) : Prop := c ∈ all ∪ stage ∨ ∃ X, cached !! c = Some X ∧ X ⊆ all.

Lemma visit_children_spec max l : ∀ stage all n, match visit_children max cached H l stage all n with
  | None => True
  | Some (stage', all', _) => stage ⊆ stage' ∧ all ⊆ all' ∧ (∀ c, c ∈ l → handled c stage' all') ∧
      (∀ z, z ∈ stage' → z ∈ stage ∨ z ∈ l ∧ z ∉ all) ∧
      (∀ z, z ∈ all' → z ∈ all ∨ ∃ k X, k ∈ l ∧ cached !! k = Some X ∧ z ∈ X ∧ X ⊆ all')
  end.
Proof using All.
  induction l as [|c l IH]; intros stage all n; cbn [visit_children].
  - split; [done|]. split; [done|]. split; [intros c Hc; by apply elem_of_nil in Hc|]. split; intros z; by left.
  - destruct (cached !! c) as [X|] eqn:Ec.
    + pose proof (visit_cached_spec stage (in_order X) all n) as Ev. destruct (visit_cached _ _ _ _ _) as [all1 n1]. cbn [fst] in Ev. rewrite in_order_set in Ev. subst all1.
      destruct (n1 >? max); [done|]. specialize (IH stage (X ∪ all) n1). destruct (visit_children _ _ _ _ _ _ _) as [[[stage' all'] n']|]; [|done].
      destruct IH as (I1 & I2 & I3 & I4 & I5). split; [done|]. split; [set_solver|]. split; [|split].
      * intros c' [->|Hc']%elem_of_cons; [|by apply I3]. right. exists X. split; [done | set_solver].
      * intros z Hz. apply I4 in Hz as [?|[Hz1 Hz2]]; [by left|]. right. split; [by right | set_solver].
      * intros z Hz. apply I5 in Hz as [[Hz|Hz]%elem_of_union|(k & Y & Hk & Hr)]; [right; exists c, X; repeat (split; [by (left || done)|]); set_solver | by left |].
        right. exists k, Y. split; [by right | done].
    + destruct (decide (c ∈ all)) as [Hca|Hca].
      * destruct (n >? max); [done|]. specialize (IH stage all n). destruct (visit_children _ _ _ _ _ _ _) as [[[stage' all'] n']|]; [|done].
        destruct IH as (I1 & I2 & I3 & I4 & I5). split; [done|]. split; [done|]. split; [|split].
        -- intros c' [->|Hc']%elem_of_cons; [left; set_solver | by apply I3].
        -- intros z Hz. apply I4 in Hz as [?|[Hz1 Hz2]]; [by left|]. right. split; [by right | done].
        -- intros z Hz. apply I5 in Hz as [?|(k & Y & Hk & Hr)]; [by left|]. right. exists k, Y. split; [by right | done].
      * destruct (_ >? max); [done|]. match goal with |- context [visit_children max cached H l ?s ?a ?m] => specialize (IH s a m) end.
        destruct (visit_children _ _ _ _ _ _ _) as [[[stage' all'] n']|]; [|done].
        destruct IH as (I1 & I2 & I3 & I4 & I5). split; [set_solver|]. split; [done|]. split; [|split].
        -- intros c' [->|Hc']%elem_of_cons; [left; set_solver | by apply I3].
        -- intros z Hz. apply I4 in Hz as [[->%elem_of_singleton|Hz]%elem_of_union|[Hz1 Hz2]]; [right; split; [by left | done] | by left | right; split; [by right | done]].
        -- intros z Hz. apply I5 in Hz as [?|(k & Y & Hk & Hr)]; [by left|]. right. exists k, Y. split; [by right | done].
Qed.

(** The state of the walk from [h]; [seen] are the entries that were visited. *)
Record visiting (h : uint256) (seen stage all : setEntries) : Prop := {
  vi_below : ∀ z, z ∈ stage ∪ all → rtc (dep Q) z h;
  vi_start : chi Q h ⊆ stage ∪ all;
  vi_seen : seen ⊆ all;
  vi_new : stage ## seen;
  vi_closed : ∀ z c, z ∈ seen → c ∈ chi Q z → handled c stage all;
  vi_known : ∀ z, z ∈ all → z ∈ seen ∨ z ∈ stage ∨ ∃ k X, cached !! k = Some X ∧ z ∈ X ∧ X ⊆ all
}.

Lemma visit_below h z : h ∈ pool Q → rtc (dep Q) z h → z ∈ pool Q.
Proof using All. intros Hh Hr. apply dep_in in Hr as [->|[_ ?]]; done. Qed.

Lemma visit_end h seen all : h ∈ pool Q → h ∈ H → visiting h seen ∅ all → all ∖ H = desc Q h ∖ H.
Proof using All.
  intros Hh HhH [V1 V2 V3 V4 V5 V6]. apply set_eq. intros y. rewrite !elem_of_difference, (desc_spec Q h Hl Hh y). split; intros [Hy HyH]; (split; [|done]).
  - apply V1. set_solver.
  - assert (Hdown : ∀ z, rtc (step (chi Q)) z y → z ∈ all → y ∈ all).
    { clear Hy. intros z Hr. induction Hr as [|z c y Hzc Hr IH]; [done|]. intros Hz. destruct (V6 z Hz) as [Hs|[Hs|(k & X & Hk & HzX & HX)]]; [|set_solver|].
      - destruct (V5 z c Hs Hzc) as [Hc|(X & HX & HXall)]; [apply IH; [done | set_solver]|]. apply HXall. destruct (Hcache c X HX) as [Hcp ->].
        apply elem_of_difference. split; [|done]. apply desc_spec; [done | done|]. by apply chi_rtc.
      - apply HX. destruct (Hcache k X Hk) as [Hkp ->]. apply elem_of_difference. split; [|done]. apply desc_spec; [done | done|].
        apply elem_of_difference in HzX as [Hzk _]. apply desc_spec in Hzk; [|done|done]. etransitivity; [|exact Hzk]. eapply rtc_r; [apply chi_rtc; [done | exact Hr] | by apply chi_dep]. }
    apply chi_rtc in Hy; [|done]. apply rtc_inv in Hy as [->|(c & Hc & Hr)]; [done|]. eapply Hdown; [exact Hr|]. specialize (V2 c Hc). set_solver.
Qed.

Lemma visit_step h seen stage all cit max n : h ∈ pool Q → visiting h seen stage all → cit ∈ stage →
  match visit_children max cached H (in_order (chi Q cit)) (stage ∖ {[cit]}) ({[cit]} ∪ all) n with
  | None => True
  | Some (stage', all', _) => visiting h ({[cit]} ∪ seen) stage' all'
  end.
Proof using All.
  intros Hh [V1 V2 V3 V4 V5 V6] Hcit. pose proof (visit_children_spec max (in_order (chi Q cit)) (stage ∖ {[cit]}) ({[cit]} ∪ all) n) as Hs.
  destruct (visit_children _ _ _ _ _ _ _) as [[[stage' all'] n']|]; [|done]. destruct Hs as (S1 & S2 & S3 & S4 & S5).
  assert (Hbc : rtc (dep Q) cit h) by (apply V1; set_solver).
  assert (Hchild : ∀ c, c ∈ in_order (chi Q cit) → rtc (dep Q) c h) by (intros c Hc%elem_of_in_order; eapply rtc_l; [by apply (lk_sym _ Hl) | done]).
  assert (Hmono : ∀ c, handled c stage all → handled c stage' all').
  { intros c [Hc|(X & HX & HXa)]; [|right; exists X; split; [done | set_solver]]. left. destruct (decide (c = cit)); set_solver. }
  split.
  - intros z [Hz|Hz]%elem_of_union.
    + apply S4 in Hz as [Hz|[Hz _]]; [apply V1; set_solver | by apply Hchild].
    + apply S5 in Hz as [Hz|(k & X & Hk & HX & HzX & _)]; [destruct (decide (z = cit)) as [->|]; [done | apply V1; set_solver]|].
      destruct (Hcache k X HX) as [Hkp ->]. apply elem_of_difference in HzX as [HzX _]. apply desc_spec in HzX; [|done|done]. etransitivity; [exact HzX | by apply Hchild].
  - intros c Hc. specialize (V2 c Hc). destruct (decide (c = cit)); set_solver.
  - set_solver.
  - intros z Hz [->%elem_of_singleton|Hs]%elem_of_union; apply S4 in Hz as [Hz|[_ Hz]]; set_solver.
  - intros z c [->%elem_of_singleton|Hz]%elem_of_union Hc; [apply S3; by apply elem_of_in_order|]. apply Hmono. by eapply V5.
  - intros z Hz. apply S5 in Hz as [[->%elem_of_singleton|Hz]%elem_of_union|(k & X & _ & HX)]; [left; set_solver | | by right; right; exists k, X].
    destruct (V6 z Hz) as [?|[?|(k & X & Hk & HzX & HX)]]; [left; set_solver | destruct (decide (z = cit)); [left; set_solver | right; left; set_solver] |].
    right. right. exists k, X. split; [done|]. split; [done | set_solver].
Qed.

Lemma visit_loop_spec h max fuel : h ∈ pool Q → h ∈ H → ∀ seen stage all n, visiting h seen stage all → (size (pool Q ∖ seen) <= fuel)%nat →
  ∃ r, visit_loop fuel max cached H Q stage all n = Some r ∧ ∀ all', r = Some all' → all' ⊆ pool Q ∧ all' ∖ H = desc Q h ∖ H.
Proof using All.
  intros Hh HhH. induction fuel as [|fuel IH]; intros seen stage all n Hv Hf; cbn [visit_loop]; destruct (begin stage) as [cit|] eqn:Eb.
  2, 4: apply begin_None in Eb as ->; eexists; split; [done|]; intros all' [= <-]; split; [|by eapply visit_end];
    intros z Hz; eapply visit_below; [exact Hh|]; apply (vi_below _ _ _ _ Hv); set_solver.
  all: apply begin_Some in Eb; assert (Hst : stage ⊆ pool Q) by (intros z Hz; eapply visit_below; [exact Hh|]; apply (vi_below _ _ _ _ Hv); set_solver);
    pose proof (walk_measure _ stage seen cit Eb Hst (vi_new _ _ _ _ Hv)).
  { lia. }
  destruct (pool_entry Q cit (Hst _ Eb)) as [e He]. rewrite He. cbn [mbind option_bind]. destruct (IsDirty e); [by exists None|].
  rewrite GetMemPoolChildren_chi by (done || by apply Hst). cbn [mbind option_bind]. pose proof (visit_step h seen stage all cit max n Hh Hv Eb) as Hs.
  destruct (visit_children _ _ _ _ _ _ _) as [[[stage' all'] n']|]; [|by exists None]. eapply IH; [exact Hs|]. lia.
Qed.
End Visit.

(** ** The links to the spenders *)

(** The spenders of [h] that are not in the block become its children. *)
Lemma link_children_spec (h : uint256) (H : setEntries) l : ∀ (known : setEntries) Q, (∀ y, y ∈ l → y ∈ pool Q) → h ∈ pool Q → h ∉ l →
  let C := (list_to_set l ∖ H) ∖ known in
  ∃ Q', link_children h H known l Q = Some Q' ∧ relinked Q Q' ∧
    (∀ x, par Q' x = (if decide (x ∈ C) then {[h]} ∪ par Q x else par Q x) ∧ chi Q' x = if decide (x = h) then C ∪ chi Q h else chi Q x) ∧
    (∀ x, is_Some (mapLinks Q' !! x) ↔ x ∈ C ∨ x = h ∧ C ≠ ∅ ∨ is_Some (mapLinks Q !! x)).
Proof using Type.
  induction l as [|y l IH]; intros known Q Hl Hh Hn; cbn zeta; cbn [link_children].
  - exists Q. split; [done|]. split; [done|]. replace ((list_to_set [] ∖ H) ∖ known) with (∅ : setEntries) by set_solver. split; [|set_solver].
    intros x. rewrite decide_False by set_solver. split; [done|]. destruct (decide (x = h)) as [->|]; [by rewrite union_empty_l_L | done].
  - destruct (pool_entry Q y (Hl y ltac:(by left))) as [e ->]. cbn [mbind option_bind]. apply not_elem_of_cons in Hn as [Hne Hn].
    destruct (decide (y ∈ known ∨ y ∈ H)) as [Hk|Hk].
    + destruct (IH ({[y]} ∪ known) Q) as (Q' & -> & R & L & M); [intros z Hz; apply Hl; by right | done | done|]. exists Q'. split; [done|]. split; [done|].
      replace ((list_to_set (y :: l) ∖ H) ∖ known) with ((list_to_set l ∖ H) ∖ ({[y]} ∪ known)) by set_solver. done.
    + set (Q1 := UpdateParent y h true (UpdateChild h y true Q)).
      assert (R1 : relinked Q Q1) by (etransitivity; [apply UpdateChild_relinked | apply UpdateParent_relinked]).
      pose proof (evolved_pool _ _ (relinked_evolved _ _ R1)) as Ep.
      assert (L1 : ∀ x, links_at Q1 x = if decide (x = y) then mkLinks ({[h]} ∪ par Q y) (chi Q y) else if decide (x = h) then mkLinks (par Q h) ({[y]} ∪ chi Q h) else links_at Q x).
      { intros x. unfold Q1. rewrite UpdateParent_links. unfold par, chi. rewrite !UpdateChild_links. rewrite (decide_False (P := y = h)) by done.
        destruct (decide (x = y)); [done|]. by destruct (decide (x = h)). }
      destruct (IH ({[y]} ∪ known) Q1) as (Q' & -> & R & L & M); [intros z Hz; rewrite Ep; apply Hl; by right | by rewrite Ep | done|].
      exists Q'. split; [done|]. split; [by etransitivity|]. set (C' := (list_to_set l ∖ H) ∖ ({[y]} ∪ known)) in *.
      assert (EC : (list_to_set (y :: l) ∖ H) ∖ known = {[y]} ∪ C').
      { apply set_eq. intros z. unfold C'. destruct (decide (z = y)); set_solver. }
      rewrite EC. assert (Hy : y ∉ C') by set_solver. split.
      * intros x. destruct (L x) as [-> ->]. unfold par, chi. rewrite !L1. rewrite (decide_False (P := h = y)) by done. rewrite (decide_True (P := h = h)) by done.
        destruct (decide (x = y)) as [->|Hxy]; cbn [parents children].
        -- rewrite (decide_False (P := y ∈ C')), (decide_True (P := y ∈ {[y]} ∪ C')), !(decide_False (P := y = h)) by set_solver. done.
        -- destruct (decide (x = h)) as [->|Hxh]; cbn [parents children].
           ++ split; [|set_solver]. unfold par. destruct (decide (h ∈ C')), (decide (h ∈ {[y]} ∪ C')); set_solver.
           ++ split; [|done]. destruct (decide (x ∈ C')), (decide (x ∈ {[y]} ∪ C')); set_solver.
      * intros x. rewrite M. unfold Q1. rewrite UpdateParent_dom, UpdateChild_dom. set_solver.
Qed.

(** Descendants are a matter of the links. *)
Lemma desc_same P Q (x : uint256) : linked P → linked Q → x ∈ pool P → x ∈ pool Q → (∀ y, rtc (dep P) y x ↔ rtc (dep Q) y x) → desc P x = desc Q x.
Proof using Type.
  intros HP HQ Hx Hx' E. apply set_eq. intros y. by rewrite (desc_spec P x HP Hx y), (desc_spec Q x HQ Hx' y).
Qed.

(** ** The transactions of a block *)

(** The pairs that wait: a transaction of the block and one of the pool that spends it. *)
Definition waiting (H : setEntries) : edges := λ x y, x ∈ H ∧ y ∉ H.

(** A transaction of the block comes after its parents, which are in the block. *)
Definition ordered P (hs : list uint256) : Prop := ∀ pre h post x, hs = pre ++ h :: post → x ∈ par P h → x ∈ pre.

Section Batch.
Context (P : CTxMemPool) (hs : list uint256).
Local Abbreviation H := (list_to_set hs : setEntries).
Context (Hok : pool_at (waiting H) P) (Hord : ordered P hs) (Hnd : NoDup hs).

(** All the links there will be. *)
Definition full (y x : uint256) : Prop := x ∈ pool P ∧ ∃ e, mapTx P !! y = Some e ∧ spends (tx e) x.

Lemma dep_full y x : dep P y x ↔ full y x ∧ ¬ waiting H x y.
Proof using All.
  unfold dep, full. split.
  - intros Hx. pose proof (lk_in _ (p_linked _ _ Hok) x y Hx) as [_ Hy]. destruct (pool_entry P y Hy) as [e He]. apply (tr_links _ _ (p_tracked _ _ Hok) x y e He) in Hx as (H1 & H2 & H3). eauto.
  - intros [[Hx (e & He & Hs)] Hw]. by apply (tr_links _ _ (p_tracked _ _ Hok) x y e He).
Qed.

Lemma ordered_in y x : dep P y x → y ∈ H → x ∈ H.
Proof using All.
  intros Hd Hy. apply elem_of_list_to_set in Hy. apply list_elem_of_split in Hy as (pre & post & E). apply elem_of_list_to_set. rewrite E. apply elem_of_app. left. by eapply Hord.
Qed.

(** The parents of the block are in the block and linked. *)
Lemma full_in y x : full y x → y ∈ H → x ∈ H ∧ dep P y x.
Proof using All.
  intros Hf Hy. assert (Hd : dep P y x) by (apply dep_full; split; [done|]; by intros [_ ?]). split; [by eapply ordered_in | done].
Qed.

Lemma full_out y x : full y x → x ∉ H → y ∉ H ∧ dep P y x.
Proof using All.
  intros Hf Hx. split; [intros Hy; by apply Hx, (full_in y x)|]. apply dep_full. split; [done|]. by intros [? _].
Qed.

Lemma full_tc y x : tc full y x → (y ∈ H → x ∈ H ∧ tc (dep P) y x) ∧ (x ∉ H → y ∉ H ∧ tc (dep P) y x).
Proof using All.
  induction 1 as [y x Hf|y z x Hf Ht [IH1 IH2]].
  - split; [intros Hy; destruct (full_in y x Hf Hy) | intros Hx; destruct (full_out y x Hf Hx)]; split; by try apply tc_once.
  - split.
    + intros Hy. destruct (full_in y z Hf Hy) as [Hz Hd]. destruct (IH1 Hz) as [Hx Ht']. split; [done|]. by eapply tc_l.
    + intros Hx. destruct (IH2 Hx) as [Hz Ht']. destruct (full_out y z Hf Hz) as [Hy Hd]. split; [done|]. by eapply tc_l.
Qed.

Lemma full_acyclic x : ¬ tc full x x.
Proof using All.
  intros Ht. apply (lk_acyclic _ (p_linked _ _ Hok) x). destruct (full_tc x x Ht) as [H1 H2]. destruct (decide (x ∈ H)); [by apply H1 | by apply H2].
Qed.

Lemma full_block_rtc y x : rtc full y x → y ∈ H → x ∈ H ∧ rtc (dep P) y x.
Proof using All.
  intros Hr Hy. apply rtc_tc in Hr as [->|Ht]; [done|]. destruct (proj1 (full_tc y x Ht) Hy) as [Hx Ht']. split; [done | by apply tc_rtc].
Qed.

(** The ancestors of the next transaction come before it. *)
Lemma before_block pre h post x : hs = pre ++ h :: post → rtc full h x → x ∈ pre ∨ x = h.
Proof using All.
  intros E Hr. destruct (full_block_rtc h x Hr) as [_ Hr']; [apply elem_of_list_to_set; rewrite E; apply elem_of_app; right; by left|].
  assert (Hpre : ∀ z w, dep P z w → z ∈ pre → w ∈ pre).
  { intros z w Hd (a & b & Ez)%list_elem_of_split. rewrite Ez. apply elem_of_app. left. eapply (Hord a z (b ++ h :: post)); [|done]. by rewrite E, Ez, <- app_assoc. }
  apply rtc_inv in Hr' as [->|(z & Hz & Hr')]; [by right|]. left. assert (Hzp : z ∈ pre) by by eapply Hord. clear Hz Hr.
  induction Hr' as [|z w v Hzw _ IH]; [done|]. apply IH. by eapply Hpre.
Qed.

(** The state of the loop; [done] are the transactions it is done with. *)
Record updating (done : setEntries) (cached : gmap uint256 setEntries) Q : Prop := {
  u_evolved : evolved P Q;
  u_links : ∀ x y, x ∈ par Q y ↔ full y x ∧ ¬ (x ∈ H ∖ done ∧ y ∉ H);
  u_sym : ∀ x y, x ∈ par Q y ↔ y ∈ chi Q x;
  u_dom : ∀ x, is_Some (mapLinks Q !! x) ↔ x ∈ pool P;
  u_counted : counted_as Q (λ x, if decide (x ∈ H ∖ done) then desc P x else desc Q x);
  u_cached : ∀ k X, cached !! k = Some X → k ∈ done ∧ k ∈ pool Q ∧ X = desc Q k ∖ H
}.

Lemma updating_full done cached Q y x : updating done cached Q → dep Q y x → full y x.
Proof using All. intros U Hd. by apply (u_links _ _ _ U) in Hd as [? _]. Qed.

Lemma updating_dep done cached Q y x : updating done cached Q → dep P y x → dep Q y x.
Proof using All. intros U [Hf Hw]%dep_full. apply (u_links _ _ _ U). split; [done|]. unfold waiting in Hw. set_solver. Qed.

Lemma links_linked Q : evolved P Q → (∀ x y, x ∈ par Q y → full y x) → (∀ x y, x ∈ par Q y ↔ y ∈ chi Q x) → (∀ x, is_Some (mapLinks Q !! x) ↔ x ∈ pool P) → linked Q.
Proof using All.
  intros Hev Hf Hsym Hdom. pose proof (evolved_pool P Q Hev) as Ep. split; [by intros x; rewrite Ep | done | |].
  - intros x y [Hx (e & He & _)]%Hf. rewrite Ep. split; [done | by eapply pool_intro].
  - intros x Ht. apply (full_acyclic x). revert Ht. apply tc_mono. intros a b. apply Hf.
Qed.

Lemma updating_linked done cached Q : updating done cached Q → linked Q.
Proof using All. intros U. apply links_linked; [apply U | | apply U..]. intros x y Hx. by eapply updating_full. Qed.

Lemma updating_start : updating ∅ ∅ P.
Proof using All.
  pose proof (p_linked _ _ Hok) as Hl. split; [done | | apply Hl | apply Hl | |].
  - intros x y. rewrite difference_empty_L. apply dep_full.
  - intros x e He. replace (if decide _ then _ else _) with (desc P x) by by destruct (decide _). by apply counted_desc; [|apply Hok|].
  - intros k X Hk. by rewrite lookup_empty in Hk.
Qed.

(** A hash that is not in the pool is passed over. *)
Lemma updating_skip done cached Q (h : uint256) : updating done cached Q → h ∉ pool P → updating ({[h]} ∪ done) cached Q.
Proof using All.
  intros [U1 U2 U3 U4 U5 U6] Hh. pose proof (evolved_pool P Q U1) as Ep. split; [done | | done | done | |].
  - intros x y. rewrite U2. split; intros [Hf Hw]; (split; [done|]); assert (Hxh : x ≠ h) by (intros ->; by destruct Hf); clear - Hw Hxh; set_solver.
  - intros x e He. assert (Hxh : x ≠ h) by (intros ->; apply Hh; rewrite <- Ep; by eapply pool_intro). specialize (U5 x e He).
    assert (Eq : x ∈ H ∖ done ↔ x ∈ H ∖ ({[h]} ∪ done)) by (clear - Hxh; set_solver). cbn beta in U5. by rewrite (decide_ext _ _ _ _ Eq) in U5.
  - intros k X Hk. destruct (U6 k X Hk) as (? & ? & ?). split; [set_solver | done].
Qed.

(** What depends on the block by the links so far is in the block. *)
Lemma block_below y x : rtc (dep P) y x → x ∈ H → y ∈ H.
Proof using All.
  induction 1 as [|y z x Hyz _ IH]; [done|]. intros Hx. specialize (IH Hx). apply dep_full in Hyz as [_ Hw]. destruct (decide (y ∈ H)); [done|]. by destruct Hw.
Qed.

Section Step.
Context (pre : list uint256) (h : uint256) (post : list uint256) (Ehs : hs = pre ++ h :: post).
Context (cached : gmap uint256 setEntries) (Q : CTxMemPool).
Local Abbreviation processed := (list_to_set post : setEntries).
Context (U : updating processed cached Q) (Hh : h ∈ pool P).

Lemma step_places : h ∈ H ∧ h ∉ processed ∧ ∀ x, x ∈ pre → x ∈ H ∖ processed.
Proof using All.
  pose proof Hnd as Hd. rewrite Ehs in Hd. apply NoDup_app in Hd as (_ & Hd & [Hn _]%NoDup_cons). rewrite !elem_of_list_to_set. split; [rewrite Ehs; apply elem_of_app; right; by left|].
  split; [done|]. intros x Hx. apply elem_of_difference. rewrite !elem_of_list_to_set. split; [rewrite Ehs; apply elem_of_app; by left|]. intros Hp. apply (Hd x Hx). by right.
Qed.

(** The pool with the links of [h]. *)
Record joined Q1 : Prop := {
  j_relinked : relinked Q Q1;
  j_links : ∀ x y, x ∈ par Q1 y ↔ full y x ∧ ¬ (x ∈ H ∖ ({[h]} ∪ processed) ∧ y ∉ H);
  j_sym : ∀ x y, x ∈ par Q1 y ↔ y ∈ chi Q1 x;
  j_dom : ∀ x, is_Some (mapLinks Q1 !! x) ↔ x ∈ pool P
}.

Lemma step_links : ∃ Q1, link_children h H ∅ (spenders Q h) Q = Some Q1 ∧ joined Q1.
Proof using All.
  pose proof U as [U1 U2 U3 U4 _ _]. pose proof (evolved_pool P Q U1) as Ep. destruct step_places as (P1 & P2 & _).
  assert (Esp : ∀ y, y ∈ spenders Q h ↔ full y h).
  { intros y. assert (spenders Q h = spenders P h) as -> by (unfold spenders; by rewrite (ev_next _ _ U1)). rewrite (elem_of_spenders _ P h y Hok). unfold full. naive_solver. }
  destruct (link_children_spec h H (spenders Q h) ∅ Q) as (Q1 & E & R & L & M).
  - intros y [_ (e & He & _)]%Esp. rewrite Ep. by eapply pool_intro.
  - by rewrite Ep.
  - intros Hs%Esp. by eapply full_acyclic, tc_once.
  - exists Q1. split; [done|]. set (C := (list_to_set (spenders Q h) ∖ H) ∖ ∅) in *.
    assert (HC : ∀ y, y ∈ C ↔ full y h ∧ y ∉ H) by (intros y; unfold C; rewrite !elem_of_difference, elem_of_list_to_set, Esp; set_solver).
    assert (L1 : ∀ x y, x ∈ par Q1 y ↔ x ∈ par Q y ∨ x = h ∧ y ∈ C) by (intros x y; rewrite (proj1 (L y)); destruct (decide (y ∈ C)); set_solver).
    split; [done | | |].
    + intros x y. rewrite L1, U2, HC. destruct (decide (x = h)) as [->|]; [|set_solver]. destruct (decide (y ∈ H)); set_solver.
    + intros x y. rewrite L1, (proj2 (L x)), U3. destruct (decide (x = h)) as [->|]; set_solver.
    + intros x. rewrite M, U4. split; [|tauto]. intros [Hx|[[-> _]|Hx]]; [|done|done]. apply HC in Hx as [[_ (e & He & _)] _]. by eapply pool_intro.
Qed.

Lemma joined_linked Q1 : joined Q1 → linked Q1.
Proof using All.
  intros J. apply links_linked; [etransitivity; [apply U | by apply relinked_evolved, J] | | apply J..]. intros x y Hx. by apply (j_links _ J) in Hx as [? _].
Qed.

Lemma joined_pool Q1 : joined Q1 → pool Q1 = pool P.
Proof using All. intros J. rewrite (evolved_pool Q Q1) by by apply relinked_evolved, J. by apply evolved_pool, U. Qed.

(** Only [h] and its ancestors get descendants. *)
Lemma joined_desc Q1 (x : uint256) : joined Q1 → x ∈ pool P → x ∉ pre → x ≠ h → desc Q1 x = desc Q x.
Proof using All.
  intros J Hx Hp Hn. pose proof (joined_pool Q1 J) as Ep. apply desc_same; [by apply joined_linked | by eapply updating_linked | by rewrite Ep | by rewrite (evolved_pool P Q (u_evolved _ _ _ U)) |].
  intros y. split.
  - intros Hr. induction Hr as [|y z x Hyz Hr IH]; [done|]. eapply rtc_l; [|by apply IH]. apply (j_links _ J) in Hyz as [Hf Hw]. apply (u_links _ _ _ U). split; [done|].
    assert (Hzh : z ≠ h); [|set_solver]. intros ->. assert (Hrf : rtc full h x) by (revert Hr; apply rtc_subrel; intros a b Hab; by apply (j_links _ J) in Hab as [? _]).
    by destruct (before_block pre h post x Ehs Hrf).
  - apply rtc_subrel. intros a b [Hf Hw]%(u_links _ _ _ U). apply (j_links _ J). split; [done|]. set_solver.
Qed.

(** The descendants of [h] are those in the block, which it counts, and those outside. *)
Lemma joined_split Q1 : joined Q1 → desc P h ⊆ desc Q1 h ∧ desc Q1 h ∖ H = desc Q1 h ∖ desc P h.
Proof using All.
  intros J. destruct step_places as (P1 & P2 & _). pose proof (joined_linked Q1 J) as Hl1. pose proof (joined_pool Q1 J) as Ep. pose proof (p_linked _ _ Hok) as Hl.
  assert (HhQ : h ∈ pool Q1) by by rewrite Ep. split.
  - intros y Hy. apply (desc_spec Q1 h Hl1 HhQ). apply (desc_spec P h Hl Hh) in Hy. revert Hy. apply rtc_subrel. intros a b [Hf Hw]%dep_full. apply (j_links _ J). split; [done|]. unfold waiting in Hw. set_solver.
  - apply set_eq. intros y. rewrite !elem_of_difference. split; intros [Hy Hn]; (split; [done|]); intros Hy'; apply Hn.
    + apply (desc_spec P h Hl Hh) in Hy'. by eapply block_below.
    + apply (desc_spec P h Hl Hh). apply (desc_spec Q1 h Hl1 HhQ) in Hy. apply full_block_rtc; [|done]. revert Hy. apply rtc_subrel. intros a b Hab. by apply (j_links _ J) in Hab as [? _].
Qed.

(** The walk over the descendants of [h]: it gives up, or the state of [h] counts them all. *)
Lemma step_update Q1 : joined Q1 → ∃ ok cached' Q2, UpdateForDescendants h 100 cached H Q1 = Some (ok, cached', Q2) ∧
  if (ok : bool) then cached' = cache_add h (desc Q1 h ∖ H) cached ∧ ∃ e, restated Q1 Q2 ∧ mapTx Q2 = <[h := e]> (mapTx Q1) ∧ state_is Q1 e (desc Q1 h)
  else cached' = cached ∧ Q2 = Q1.
Proof using All.
  intros J. destruct step_places as (P1 & P2 & P3). pose proof (joined_linked Q1 J) as Hl1. pose proof (joined_pool Q1 J) as Ep. destruct (joined_split Q1 J) as [Hsub Hdiff].
  assert (HhQ : h ∈ pool Q1) by by rewrite Ep. pose proof (relinked_evolved _ _ (j_relinked _ J)) as Hev. unfold UpdateForDescendants. rewrite GetMemPoolChildren_chi by done. cbn [mbind option_bind].
  assert (Hc : ∀ k X, cached !! k = Some X → k ∈ pool Q1 ∧ X = desc Q1 k ∖ H).
  { intros k X Hk. destruct (u_cached _ _ _ U k X Hk) as (Hkd & Hkp & ->). rewrite (evolved_pool P Q (u_evolved _ _ _ U)) in Hkp. split; [by rewrite Ep|].
    rewrite (joined_desc Q1 k J Hkp); [done | | by intros ->]. intros Hin%P3. clear - Hin Hkd. set_solver. }
  destruct (visit_loop_spec Q1 H cached Hl1 Hc h 100 (size (mapTx Q1)) HhQ P1 ∅ (chi Q1 h) ∅ 0) as (r & -> & Hr).
  { split; [|clear; set_solver..]. intros z Hz. rewrite union_empty_r_L in Hz. apply rtc_once. by apply (j_sym _ J). }
  { rewrite <- size_pool, difference_empty_L. lia. }
  cbn [mbind option_bind]. destruct r as [all|]; [|by exists false, cached, Q1]. destruct (Hr all eq_refl) as [Hall ->].
  pose proof (desc_sub Q1 h Hl1 HhQ) as Hdp. rewrite sum_in_order by (clear - Hdp; set_solver). cbn [mbind option_bind].
  pose proof (evolved_sized _ _ (u_evolved _ _ _ U) (p_sized _ _ Hok)) as Hs. pose proof (evolved_sized _ _ Hev Hs) as Hs1. destruct (pool_entry Q1 h HhQ) as [e He].
  pose proof (relinked_counted _ _ _ (j_relinked _ J) (u_counted _ _ _ U) h e He) as Hst. cbn beta in Hst. rewrite decide_True in Hst by (clear - P1 P2; set_solver). rewrite Hdiff.
  destruct (UpdateState_spec Q1 e (desc P h) (desc Q1 h) (total (sz Q1) (desc Q1 h ∖ desc P h)) (total (fee Q1) (desc Q1 h ∖ desc P h)) (Z.of_nat (size (desc Q1 h ∖ desc P h)))) as (e' & Ee & Hb & Hst').
  - done.
  - done.
  - done.
  - intros E. apply (not_elem_of_empty (C := setEntries) h). rewrite <- E. eapply desc_self. by apply desc_spec.
  - by apply total_split.
  - by apply total_split.
  - rewrite size_difference by done. pose proof (subseteq_size _ _ Hsub). lia.
  - destruct (modify_restated Q1 h _ e e' He Ee Hb) as (Q2 & -> & R & Em). cbn [mbind option_bind]. eexists true, _, Q2. split; [done|]. split; [done|]. by exists e'.
Qed.

Lemma restated_linked Q1 Q2 : linked Q1 → restated Q1 Q2 → linked Q2.
Proof using Type.
  intros [L1 L2 L3 L4] R. pose proof (restated_pool _ _ R) as Ep. assert (E : ∀ x, par Q2 x = par Q1 x ∧ chi Q2 x = chi Q1 x) by (intros x; by apply restated_par).
  split; [intros x; by rewrite (restated_links _ _ R), Ep | intros x y | intros x y | intros x].
  - by rewrite (proj1 (E y)), (proj2 (E x)).
  - rewrite (proj1 (E y)), Ep. apply L3.
  - intros Ht. apply (L4 x). revert Ht. apply tc_mono. intros a b. unfold dep. by rewrite (proj1 (E a)).
Qed.

Lemma restated_desc Q1 Q2 (x : uint256) : linked Q1 → restated Q1 Q2 → x ∈ pool Q1 → desc Q2 x = desc Q1 x.
Proof using Type.
  intros Hl1 R Hx. apply desc_same; [by eapply restated_linked | done | by rewrite (restated_pool _ _ R) | done|].
  intros y. split; apply rtc_subrel; intros a b; unfold dep; by rewrite (proj1 (restated_par _ _ a R)).
Qed.

(** With a state of [h] that counts its descendants, the loop is done with [h]. *)
Lemma step_finish Q1 Q2 cached' e : joined Q1 → restated Q1 Q2 → mapTx Q2 = <[h := e]> (mapTx Q1) → state_is Q1 e (desc Q1 h) →
  (∀ k X, cached' !! k = Some X → cached !! k = Some X ∨ k = h ∧ X = desc Q1 h ∖ H) → updating ({[h]} ∪ processed) cached' Q2.
Proof using All.
  intros J R Em Hst Hc. destruct step_places as (P1 & P2 & P3). pose proof (joined_pool Q1 J) as Ep. pose proof (joined_linked Q1 J) as Hl1. pose proof (u_evolved _ _ _ U) as Hev.
  assert (Ed : ∀ x, x ∈ pool P → desc Q2 x = desc Q1 x) by (intros x Hx; apply restated_desc; [done | done | by rewrite Ep]).
  assert (Eo : ∀ x, x ∈ pool P → x ∉ H ∖ processed → desc Q2 x = desc Q x).
  { intros x Hx Hn. rewrite Ed by done. apply joined_desc; [done | done | by intros ?%P3 |]. intros ->. apply Hn. clear - P1 P2. set_solver. }
  split.
  - etransitivity; [exact Hev|]. etransitivity; [apply relinked_evolved, J | by apply restated_evolved].
  - intros x y. rewrite (proj1 (restated_par _ _ y R)). apply J.
  - intros x y. rewrite (proj1 (restated_par _ _ y R)), (proj2 (restated_par _ _ x R)). apply J.
  - intros x. rewrite (restated_links _ _ R). apply J.
  - intros x ex. rewrite Em, lookup_insert_Some. intros [[<- <-]|[Hne Hx]].
    + rewrite decide_False by (clear; set_solver). rewrite Ed by done. by eapply state_is_restated.
    + assert (Hxp : x ∈ pool P) by (rewrite <- Ep; by eapply pool_intro). pose proof (relinked_counted _ _ _ (j_relinked _ J) (u_counted _ _ _ U) x ex Hx) as Hcx. cbn beta in Hcx.
      eapply state_is_restated; [done|]. destruct (decide (x ∈ H ∖ processed)) as [Hi|Hi].
      * rewrite decide_True; [done|]. clear - Hi Hne. set_solver.
      * rewrite decide_False by (clear - Hi; set_solver). by rewrite Eo.
  - intros k X Hk. rewrite (restated_pool _ _ R), Ep. destruct (Hc k X Hk) as [Hk'|[-> ->]].
    + destruct (u_cached _ _ _ U k X Hk') as (Hkd & Hkp & ->). rewrite (evolved_pool P Q Hev) in Hkp. split; [clear - Hkd; set_solver|]. split; [done|]. rewrite Eo; [done | done|]. clear - Hkd. set_solver.
    + split; [clear; set_solver|]. split; [done|]. by rewrite Ed.
Qed.

Lemma update_in_pool : ∃ cached' Q', update_from_block H h (cached, Q) = Some (cached', Q') ∧ updating ({[h]} ∪ processed) cached' Q'.
Proof using All.
  unfold update_from_block. cbn [fst snd]. destruct step_links as (Q1 & E1 & J). destruct (step_update Q1 J) as (ok & cached' & Q2 & E2 & Hr).
  destruct (pool_entry Q h) as [e0 ->]; [by rewrite (evolved_pool P Q (u_evolved _ _ _ U))|]. rewrite E1. cbn [mbind option_bind]. rewrite E2. cbn [mbind option_bind].
  destruct ok.
  - destruct Hr as (-> & e & R & Em & Hst). cbn [mbind option_bind]. do 2 eexists. split; [done|]. eapply step_finish; [done | done | done | done|].
    intros k X. unfold cache_add. destruct (decide _); [by left|]. rewrite lookup_insert_Some. intros [[<- <-]|[_ ?]]; [|by left]. right. split; [done|].
    destruct (cached !! h) as [Y|] eqn:Ec; [|apply union_empty_r_L]. destruct (u_cached _ _ _ U h Y Ec) as [Hd _]. by destruct step_places as (_ & Hn & _).
  - destruct Hr as [-> ->]. destruct (pool_entry Q1 h) as [e He]; [by rewrite (joined_pool Q1 J)|].
    destruct (modify_restated Q1 h (λ e, Some (SetDirty e)) e (SetDirty e) He eq_refl eq_refl) as (Q2 & -> & R & Em). cbn [mbind option_bind]. do 2 eexists. split; [done|].
    eapply step_finish; [done | done | done | | by left]. done.
Qed.
End Step.

Lemma update_step pre (h : uint256) post cached Q : hs = pre ++ h :: post → updating (list_to_set post) cached Q →
  ∃ cached' Q', update_from_block H h (cached, Q) = Some (cached', Q') ∧ updating (list_to_set (h :: post)) cached' Q'.
Proof using All.
  intros E U. destruct (decide (h ∈ pool P)) as [Hh|Hh]; [by apply (update_in_pool pre)|]. unfold update_from_block. cbn [fst snd].
  assert (mapTx Q !! h = None) as ->.
  { apply not_elem_of_dom. change (h ∉ pool Q). by rewrite (evolved_pool P Q (u_evolved _ _ _ U)). }
  do 2 eexists. split; [done|]. by apply updating_skip.
Qed.

Lemma update_loop pre : ∀ post cached Q, hs = pre ++ post → updating (list_to_set post) cached Q →
  ∃ cached' Q', each (update_from_block H) (reverse pre) (cached, Q) = Some (cached', Q') ∧ updating H cached' Q'.
Proof using All.
  induction pre as [|h pre IH] using rev_ind; intros post cached Q E U; [cbn in E; rewrite E; by do 2 eexists|].
  rewrite <- app_assoc in E. cbn [app] in E. rewrite reverse_snoc. cbn [each]. destruct (update_step pre h post cached Q E U) as (cached1 & Q1 & -> & U1). cbn [mbind option_bind]. by eapply IH.
Qed.

(** At the end nothing waits. *)
Lemma updating_end cached Q : updating H cached Q → pool_ok Q.
Proof using All.
  intros U. pose proof (updating_linked _ _ _ U) as Hl. pose proof U as [U1 U2 _ _ U5 _]. pose proof (evolved_pool P Q U1) as Ep. pose proof (p_tracked _ _ Hok) as [T1 T2 T3 T4 T5].
  split; [done | by eapply evolved_sized, Hok | |].
  - apply counted_desc; [done|]. intros x e He. specialize (U5 x e He). cbn beta in U5. by rewrite decide_False in U5 by (clear; set_solver).
  - split.
    + intros x y e He. destruct (evolved_entry P Q y e U1 He) as (e0 & He0 & Eb). apply bare_fields in Eb as (Et & _). rewrite U2, Ep. unfold full, none. rewrite <- Et. split.
      * intros [[Hx (e1 & He1 & Hs)] _]. rewrite He0 in He1. apply (inj Some) in He1 as <-. split; [done|]. split; [done|]. by intros [].
      * intros (Hx & Hs & _). split; [|clear; set_solver]. split; [done|]. by exists e0.
    + intros o c n. rewrite (ev_next _ _ U1), T2. split; intros (e & txin & He & Hr).
      * destruct (evolved_back P Q c e U1 He) as (e' & He' & Eb). apply bare_fields in Eb as (Et & _). exists e', txin. by rewrite Et.
      * destruct (evolved_entry P Q c e U1 He) as (e' & He' & Eb). apply bare_fields in Eb as (Et & _). exists e', txin. by rewrite Et.
    + rewrite (ev_total _ _ U1), T3. f_equal. symmetry. apply msum_bare; [by intros e e' (_ & _ & ? & _)%bare_fields | apply U1].
    + rewrite (ev_slack _ _ U1), T4. f_equal. symmetry. apply msum_bare; [by intros e e' (_ & _ & _ & ? & _)%bare_fields | apply U1].
    + by apply U1.
Qed.

Lemma UpdateTransactionsFromBlock_spec : ∃ Q, UpdateTransactionsFromBlock hs P = Some Q ∧ pool_ok Q ∧ evolved P Q.
Proof using All.
  unfold UpdateTransactionsFromBlock. destruct (update_loop hs [] ∅ P) as (cached & Q & -> & U); [by rewrite app_nil_r | apply updating_start|].
  exists Q. split; [done|]. split; [by eapply updating_end | apply U].
Qed.
End Batch.
End Reorg.
End PoolReorg.
