(* ===== verification/Accept.v ===== *)
(** * src/main.cpp: transactions enter the memory pool

    [AcceptToMemoryPoolWorker] checks a transaction against the rules, the coins of the tip and
    the pool, makes its entry, checks the limits on ancestors and descendants and the scripts,
    stores the entry and trims the pool.  [DisconnectTip] offers the transactions of a block that it
    disconnects to the pool again, and then calls [UpdateTransactionsFromBlock].

    The coins are those of [CCoinsViewMemPool] over the tip, under a cache of its own, with the
    operations of [Coins]; the checks of a transaction and of its inputs are those of [Tx] and
    [Connect].  The class [AcceptEnv] holds what is read of the rest of the program: standardness,
    finality and burn addresses, the rules on fees (in numbers of type double), the clock and the
    options.  The caching of the coins of the tip, the notifications of wallets and the debug
    messages of rejections are left out. *)

From Stdlib Require Import ZArith Lia String.
From stdpp Require Import base option gmap fin_maps sets relations list.
From S2P Require Import Prelude Serialize Consensus Tx Coins Script Interp Block Connect Stake Mempool Pool PoolOps PoolReorg.
Import Mempool Pool PoolOps PoolReorg.
Open Scope Z_scope.

Module Accept.

(** ** The view *)

(** The coins a view answers and its best block, which do not change during a call. *)
Record snapshot : Type := mkSnapshot { read : COutPoint → option Coins.Coin; tip_block : uint256 }.

#[export] Instance snapshot_view : Coins.CoinsView snapshot := {
  GetCoin o v := (read v o, v);
  GetBestBlock v := (tip_block v, v);
  BatchWrite m h v := Some (true, mkSnapshot (Coins.written m (λ o, read v o ≫= Coins.visible)) h);
  utxo v o := read v o ≫= Coins.visible;
  view_ok _ := True
}.

Abbreviation view := (Coins.cache snapshot).

(** [CCoinsView dummy]: no coins. *)
Definition dummy : snapshot := mkSnapshot (λ _, None) Tx.UINT256_ZERO.

(** [view.SetBackend(dummy)]. *)
Definition SetBackend (v : snapshot) (c : view) : view := Coins.mkCache v (Coins.cacheCoins c) (Coins.hashBlock c).

(** ** What acceptance reads of the rest of the program *)

Class AcceptEnv : Type := {
  (** [chainActive.Height()], [GetTime()], the network. *)
  chainHeight : Z; GetTime : Z; IsRegTestNet : bool;
  (** [pcoinsTip]. *)
  tip_coin : COutPoint → option Coins.Coin; tip_best : uint256;
  CheckFinalTx : CTransaction → bool;
  (** The reason of a transaction that is not standard. *)
  IsStandardTx : CTransaction → option string;
  (** An input is an output to a burn address, by [GetTransaction]. *)
  spends_burned : CTransaction → bool;
  AreInputsStandard : CTransaction → view → bool;
  (** The tests on fee and priority under [!ignoreFees]: the rejection, if there is one. *)
  fee_rules : CTxMemPoolEntry → CTxMemPool → bool → option (Z * Z * string);
  (** [minRelayTxFee.GetFee]. *)
  min_relay_fee : Z → Z;
  (** [-limitancestorcount] and the others, [-maxmempool] and [-mempoolexpiry] in bytes and seconds. *)
  entry_limits : limits; max_mempool : Z; mempool_expiry : Z
}.

Definition REJECT_INSUFFICIENTFEE : Z := 0x42.
Definition REJECT_HIGHFEE : Z := 0x100.
Definition REJECT_ALREADY_KNOWN : Z := 0x101.
Definition REJECT_CONFLICT : Z := 0x102.
Definition MAX_TX_SIGOPS_CURRENT : Z := Block.MAX_BLOCK_SIGOPS_CURRENT / 5.

Section Operations.
Context {env : Connect.Env} {penv : PoolEnv} {aenv : AcceptEnv}.
Implicit Types P Q : CTxMemPool.
Implicit Types c : view.

(** ** Limits *)

(** [LimitMempoolSize]; the outputs that nothing spends any more are uncached. *)
Definition LimitMempoolSize (limit age : Z) P : option CTxMemPool :=
  '(expired, P) ← Expire (GetTime - age) P;
  '(vNoSpendsRemaining, P) ← TrimToSize limit P;
  Some P.

(** ** The checks *)

Definition pool_view P : view := Coins.mkCache (mkSnapshot (view_GetCoin P tip_coin) tip_best) ∅ Tx.UINT256_ZERO.

(** "Do we already have it?": an output is in the view. *)
Fixpoint known_outputs (h : uint256) (n : Z) (outs : nat) c : bool * view :=
  match outs with
  | O => (false, c)
  | S outs =>
      let '(have, c) := Coins.HaveCoin (h, n) c in
      if have : bool then (true, c) else known_outputs h (n + 1) outs c
  end.

(** [inChainInputValue] of [GetPriority]; the comparison is one of [unsigned int]. *)
Fixpoint in_chain_value (nHeight : Z) (vin : list Tx.CTxIn) (inChainInputValue : Z) c : Z * view :=
  match vin with
  | [] => (inChainInputValue, c)
  | txin :: vin =>
      let '(coin, c) := Coins.AccessCoin (Tx.prevout txin) c in
      in_chain_value nHeight vin
        (if negb (Coins.IsSpent coin) && (Coins.nHeight coin <=? nHeight) then Tx.wrap64 (inChainInputValue + Tx.nValue (Coins.out coin)) else inChainInputValue) c
  end.

(** An input is an output of a coinbase or a coinstake. *)
Fixpoint spends_generated (vin : list Tx.CTxIn) c : bool * view :=
  match vin with
  | [] => (false, c)
  | txin :: vin =>
      let '(coin, c) := Coins.AccessCoin (Tx.prevout txin) c in
      if Coins.fCoinBase coin || Coins.fCoinStake coin then (true, c) else spends_generated vin c
  end.

(** The rejection of a transaction, or its entry with the view. *)
Definition verdict : Type := (bool * Tx.CValidationState) + (CTxMemPoolEntry * view).

Definition fail (r : bool * Tx.CValidationState) : option verdict := Some (inl r).

(** The checks that need neither the coins nor the entries of the pool. *)
Definition check_loose (t : CTransaction) (state : Tx.CValidationState) : option (bool * Tx.CValidationState) :=
  let '(ok, state) := Tx.CheckTransaction Connect.consensus t state in
  if negb ok then Some (false, state)
  else if Tx.IsCoinBase t then Some (Tx.reject 100 "coinbase"%string state)
  else if Tx.IsCoinStake t then Some (Tx.reject 100 "coinstake"%string state)
  else if negb (CheckFinalTx t) then Some (Tx.DoS 0 false Connect.REJECT_NONSTANDARD "non-final"%string false String.EmptyString state)
  else if negb IsRegTestNet then
    reason ← IsStandardTx t;
    Some (Tx.DoS 0 false Connect.REJECT_NONSTANDARD reason false String.EmptyString state)
  else None.

(** The inputs: they exist, are standard, and have few signature operations; the entry. *)
Definition make_entry (t : CTransaction) (state : Tx.CValidationState) P : option verdict :=
  let hash := Tx.GetHash t in
  let '(known, c) := known_outputs hash 0 (length (Tx.vout t)) (pool_view P) in
  if known : bool then fail (Tx.Invalid false REJECT_ALREADY_KNOWN "txn-already-known"%string String.EmptyString state)
  else
    let '(have, c) := Coins.have_inputs (Tx.vin t) c in
    if negb have then fail (false, state)
    else
      let '(_, c) := Coins.cache_GetBestBlock c in
      let '(nValueIn, c) := Coins.GetValueIn t c in
      let c := SetBackend dummy c in
      if negb IsRegTestNet && negb (AreInputsStandard t c)
      then fail (Tx.Invalid false Connect.REJECT_NONSTANDARD "bad-txns-nonstandard-inputs"%string String.EmptyString state)
      else
        let '(p2sh, c) := Connect.GetP2SHSigOpCount t c in
        let nSigOps := (Block.GetLegacySigOpCount t + p2sh) mod 2 ^ 32 in
        if nSigOps >? MAX_TX_SIGOPS_CURRENT
        then fail (Tx.DoS 0 false Connect.REJECT_NONSTANDARD "bad-txns-too-many-sigops"%string false String.EmptyString state)
        else
          nValueOut ← Tx.GetValueOut t;
          let nFees := Tx.wrap64 (nValueIn - nValueOut) in
          let '(inChainInputValue, c) := in_chain_value chainHeight (Tx.vin t) 0 c in
          let '(generated, c) := spends_generated (Tx.vin t) c in
          entry ← new_entry t nFees GetTime chainHeight (HasNoInputsOf P t) inChainInputValue generated nSigOps;
          Some (inr (entry, c)).

(** The rules on the fee of an entry. *)
Definition check_fee (fLimitFree fRejectAbsurdFee ignoreFees : bool) (entry : CTxMemPoolEntry) (state : Tx.CValidationState) P
  : option (bool * Tx.CValidationState) :=
  match (if ignoreFees then None else fee_rules entry P fLimitFree) with
  | Some (level, code, reason) => Some (Tx.DoS level false code reason false String.EmptyString state)
  | None =>
      if fRejectAbsurdFee && (nFee entry >? min_relay_fee (nTxSize entry) * 10000)
      then Some (Tx.Invalid false REJECT_HIGHFEE "absurdly-high-fee"%string String.EmptyString state)
      else if negb IsRegTestNet && (nFee entry =? 0) then Some (false, state)
      else None
  end.

(** [if (fCLTVIsActivated) flags |= SCRIPT_VERIFY_CHECKLOCKTIMEVERIFY]. *)
Definition with_cltv (fCLTVIsActivated : bool) (flags : Z) : Z :=
  if fCLTVIsActivated then flags .| Interp.SCRIPT_VERIFY_CHECKLOCKTIMEVERIFY else flags.

(** [CheckInputs] with the standard and then with the mandatory flags. *)
Definition check_scripts_twice (t : CTransaction) (state : Tx.CValidationState) c : option (option (bool * Tx.CValidationState)) :=
  fCLTVIsActivated ← Consensus.NetworkUpgradeActive chainHeight Connect.consensus Consensus.UPGRADE_BIP65;
  '(r, c) ← Connect.CheckInputs t true (with_cltv fCLTVIsActivated Connect.STANDARD_SCRIPT_VERIFY_FLAGS) false c state;
  match (r : (bool * Tx.CValidationState) + list Connect.CScriptCheck) with
  | inl rejected => Some (Some (false, rejected.2))
  | inr _ =>
      '(r, c) ← Connect.CheckInputs t true (with_cltv fCLTVIsActivated Connect.MANDATORY_SCRIPT_VERIFY_FLAGS) false c state;
      match (r : (bool * Tx.CValidationState) + list Connect.CScriptCheck) with
      | inl rejected => Some (Some (false, rejected.2))
      | inr _ => Some None
      end
  end.

(** ** Storing the entry *)

Definition mempool_full (state : Tx.CValidationState) : bool * Tx.CValidationState :=
  Tx.DoS 0 false REJECT_INSUFFICIENTFEE "mempool full"%string false String.EmptyString state.

(** From [addUnchecked] on; the pool is trimmed also if [fOverrideMempoolLimit] is set. *)
Definition store (t : CTransaction) (fOverrideMempoolLimit : bool) (entry : CTxMemPoolEntry) (setAncestors : setEntries) (state : Tx.CValidationState) P
  : option ((bool * Tx.CValidationState) * CTxMemPool) :=
  let hash := Tx.GetHash t in
  P ← addUnchecked_to hash entry setAncestors P;
  P ← (if fOverrideMempoolLimit then Some P else LimitMempoolSize max_mempool mempool_expiry P);
  if negb fOverrideMempoolLimit && negb (exists_tx P hash) then Some (mempool_full state, P)
  else
    '(_, P) ← TrimToSize max_mempool P;
    if negb (exists_tx P hash) then Some (mempool_full state, P) else Some ((true, state), P).

Definition AcceptToMemoryPoolWorker (t : CTransaction) (fLimitFree fOverrideMempoolLimit fRejectAbsurdFee ignoreFees : bool) (state : Tx.CValidationState) P
  : option ((bool * Tx.CValidationState) * CTxMemPool) :=
  match check_loose t state with
  | Some rejected => Some (rejected, P)
  | None =>
      if exists_tx P (Tx.GetHash t) then Some (Tx.Invalid false REJECT_ALREADY_KNOWN "txn-already-in-mempool"%string String.EmptyString state, P)
      else if spends_burned t then Some (Tx.reject 0 "bad-txns-invalid-outputs"%string state, P)
      else if existsb (λ txin, isSpent P (Tx.prevout txin)) (Tx.vin t)
      then Some (Tx.Invalid false REJECT_CONFLICT "txn-mempool-conflict"%string String.EmptyString state, P)
      else
        v ← make_entry t state P;
        match (v : verdict) with
        | inl rejected => Some (rejected, P)
        | inr (entry, c) =>
            match check_fee fLimitFree fRejectAbsurdFee ignoreFees entry state P with
            | Some rejected => Some (rejected, P)
            | None =>
                '(err, setAncestors) ← CalculateMemPoolAncestors entry entry_limits true P;
                match (err : option limit_error) with
                | Some _ => Some (Tx.DoS 0 false Connect.REJECT_NONSTANDARD "too-long-mempool-chain"%string false String.EmptyString state, P)
                | None =>
                    r ← check_scripts_twice t state c;
                    match (r : option (bool * Tx.CValidationState)) with
                    | Some rejected => Some (rejected, P)
                    | None => store t fOverrideMempoolLimit entry setAncestors state P
                    end
                end
            end
        end
  end.

(** [AcceptToMemoryPool]: without the uncaching of coins that were read in vain. *)
Definition AcceptToMemoryPool (t : CTransaction) (fLimitFree fOverrideMempoolLimit fRejectAbsurdFee fIgnoreFees : bool) P : option (bool * CTxMemPool) :=
  '(r, P) ← AcceptToMemoryPoolWorker t fLimitFree fOverrideMempoolLimit fRejectAbsurdFee fIgnoreFees Tx.CValidationState_init P;
  Some (r.1, P).

(** ** Transactions of a disconnected block *)

(** One transaction of the block; the list is [vHashUpdate]. *)
Definition resurrect_tx (t : CTransaction) (s : list uint256 * CTxMemPool) : option (list uint256 * CTxMemPool) :=
  '(ok, P) ← (if Tx.IsCoinBase t || Tx.IsCoinStake t then Some (false, s.2) else AcceptToMemoryPool t false true false false s.2);
  if negb ok then
    '(removed, P) ← remove t true P;
    Some (s.1, P)
  else Some (if exists_tx P (Tx.GetHash t) then s.1 ++ [Tx.GetHash t] else s.1, P).

Definition resurrect (vtx : list CTransaction) P : option CTxMemPool :=
  '(vHashUpdate, P) ← each resurrect_tx vtx ([], P);
  UpdateTransactionsFromBlock vHashUpdate P.
End Operations.

(** ** The view is a view *)

Lemma visible_twice x : Coins.visible x ≫= Coins.visible = Coins.visible x.
Proof. unfold Coins.visible. destruct (Coins.IsSpent x) eqn:E; [done|]. cbn. by rewrite E. Qed.

#[export] Instance snapshot_laws : Coins.CoinsViewLaws snapshot.
Proof.
  split; cbn.
  - intros v o _. done.
  - intros v _. done.
  - intros v m h _ _. eexists. split; [done|]. split; [done|]. intros o. cbn. unfold Coins.written.
    destruct (m !! o) as [e|]; [destruct (Coins.DIRTY e); [apply visible_twice|]|]; destruct (read v o) as [x|]; cbn; (done || apply visible_twice).
  - intros v o x _ Hx. apply bind_Some in Hx as (y & _ & Hy). by apply Coins.visible_Some in Hy as [-> Hy].
Qed.

(** ** Reads that the cache answers *)

Section Warm.
Context {env : Connect.Env}.
Context (v : snapshot) (c : view) (ins : list Tx.CTxIn).
Context (Hw : ∀ i, i ∈ ins → is_Some (Coins.cacheCoins c !! Tx.prevout i)).
Local Abbreviation c2 := (SetBackend v c).

(** An operation gives the same result on both backends and changes neither cache. *)
Definition fixed {A : Type} (f : view → A * view) : Prop := ∃ x, f c = (x, c) ∧ f c2 = (x, c2).
Definition fixed_opt {A : Type} (f : view → option (A * view)) : Prop := ∃ r, f c = (λ x, (x, c)) <$> r ∧ f c2 = (λ x, (x, c2)) <$> r.

Lemma warm_access i : i ∈ ins → ∃ x, Coins.AccessCoin (Tx.prevout i) c = (x, c) ∧ Coins.AccessCoin (Tx.prevout i) c2 = (x, c2).
Proof using All.
  intros Hi. destruct (Hw i Hi) as [e He]. exists (Coins.coin e). unfold Coins.AccessCoin, Coins.FetchCoin. cbn [Coins.cacheCoins SetBackend]. by rewrite He.
Qed.

Lemma warm_have i : i ∈ ins → fixed (Coins.HaveCoin (Tx.prevout i)).
Proof using All.
  intros Hi. destruct (Hw i Hi) as [e He]. eexists. unfold Coins.HaveCoin, Coins.FetchCoin. cbn [Coins.cacheCoins SetBackend]. by rewrite He.
Qed.

(** The first input is read, then the rest. *)
Ltac warm_step IH :=
  let Hi := fresh "Hi" in
  match goal with Hl : ∀ i, i ∈ ?a :: ?l → i ∈ ins |- _ => destruct (warm_access a (Hl a ltac:(by left))) as (x & E1 & E2); unfold fixed, fixed_opt; cbn; rewrite E1, E2;
    assert (Hi : ∀ i, i ∈ l → i ∈ ins) by (intros ? ?; apply Hl; by right) end.

Lemma warm_p2sh l : ∀ n, (∀ i, i ∈ l → i ∈ ins) → fixed (Connect.p2sh_sigops l n).
Proof using All. induction l as [|a l IH]; intros n Hl; [by eexists|]. warm_step IH. by apply IH. Qed.

Lemma warm_in_chain h l : ∀ n, (∀ i, i ∈ l → i ∈ ins) → fixed (in_chain_value h l n).
Proof using All. induction l as [|a l IH]; intros n Hl; [by eexists|]. warm_step IH. by apply IH. Qed.

Lemma warm_generated l : (∀ i, i ∈ l → i ∈ ins) → fixed (spends_generated l).
Proof using All. induction l as [|a l IH]; intros Hl; [by eexists|]. warm_step IH. destruct (_ || _); [by eexists | by apply IH]. Qed.

Lemma warm_value_in l : ∀ n, (∀ i, i ∈ l → i ∈ ins) → fixed (Coins.value_in l n).
Proof using All. induction l as [|a l IH]; intros n Hl; [by eexists|]. warm_step IH. by apply IH. Qed.

Lemma warm_have_inputs l : (∀ i, i ∈ l → i ∈ ins) → fixed (Coins.have_inputs l).
Proof using All.
  induction l as [|a l IH]; intros Hl; [by eexists|]. destruct (warm_have a (Hl a ltac:(by left))) as (x & E1 & E2). unfold fixed. cbn. rewrite E1, E2.
  destruct x; cbn; [|by eexists]. apply IH. intros i Hi. apply Hl. by right.
Qed.

Lemma warm_check_values h l : ∀ n st, (∀ i, i ∈ l → i ∈ ins) → fixed_opt (λ c, Connect.check_values h l n c st).
Proof using All.
  induction l as [|a l IH]; intros n st Hl; [by eexists (Some _)|]. warm_step IH. destruct (Coins.IsSpent x); [by exists None|].
  case_match; [by eexists (Some _)|]. case_match; [by eexists (Some _)|]. by apply IH.
Qed.

Lemma warm_check_scripts t flags q l : ∀ n st, (∀ i, i ∈ l → i ∈ ins) → fixed_opt (λ c, Connect.check_scripts t flags q n l c st).
Proof using All.
  induction l as [|a l IH]; intros n st Hl; [by eexists (Some _)|]. warm_step IH. destruct (Coins.IsSpent x); [by exists None|].
  destruct (IH (S n) st Hi) as (r & R1 & R2). rewrite R1, R2. destruct q.
  - destruct r as [[y|checks]|]; cbn; [by eexists (Some _) | by eexists (Some _) | by exists None].
  - destruct (Connect.run_check (Connect.mkCheck _ _ _ _ flags)) as [[e|u]|]; cbn; [|by exists r | by exists None]. destruct (Interp.has _ _); [|by eexists (Some _)].
    destruct (Connect.run_check _) as [[|]|]; cbn; [by eexists (Some _) | by eexists (Some _) | by exists None].
Qed.

Lemma warm_check_tx_inputs t h st : Tx.vin t = ins → fixed_opt (λ c, r ← Connect.CheckTxInputs t h c st; Some (r.1, r.2)).
Proof using All.
  intros Ei. unfold fixed_opt, Connect.CheckTxInputs. destruct (_ <=? _); [by eexists (Some _)|]. unfold Coins.HaveInputs.
  assert (Hh : fixed (λ c, if negb (Tx.IsCoinBase t) then Coins.have_inputs (Tx.vin t) c else (true, c))).
  { destruct (negb _); [apply warm_have_inputs; by rewrite Ei | by eexists]. }
  destruct Hh as (x & -> & ->). destruct x; cbn [negb]; [|by eexists (Some _)].
  destruct (warm_check_values h (Tx.vin t) 0 st) as (r & -> & ->); [by rewrite Ei|]. destruct r as [[y|n]|]; cbn; [by eexists (Some _) | | by exists None].
  destruct (Tx.IsCoinStake t); [by eexists (Some _)|]. destruct (Tx.GetValueOut t) as [value|]; cbn; [|by exists None].
  repeat (case_match; [by eexists (Some _)|]). by eexists (Some _).
Qed.

Lemma warm_check_inputs t fs flags q st : Tx.vin t = ins → Coins.hashBlock c ≠ Tx.UINT256_ZERO → fixed_opt (λ c, Connect.CheckInputs t fs flags q c st).
Proof using All.
  intros Ei Hb. unfold fixed_opt, Connect.CheckInputs. destruct (Tx.IsCoinBase t); [by eexists (Some _)|]. unfold Connect.GetSpendHeight, Coins.cache_GetBestBlock.
  cbn [Coins.hashBlock SetBackend]. rewrite !decide_False by done. destruct (Connect.block_height _) as [h|]; cbn; [|by exists None].
  destruct (warm_check_tx_inputs t (h + 1) st Ei) as (r & R1 & R2).
  destruct (Connect.CheckTxInputs t (h + 1) c st) as [[[ok st1] d1]|], (Connect.CheckTxInputs t (h + 1) c2 st) as [[[ok2 st2] d2]|], r as [r|]; cbn in R1, R2; try done; [|by exists None].
  injection R1 as <- ->. injection R2 as -> -> ->. destruct ok; cbn; [|by eexists (Some _)]. destruct fs; [|by eexists (Some _)]. apply warm_check_scripts. by rewrite Ei.
Qed.
End Warm.

(** ** The checks give a verdict *)

Section Total.
Context {V : Type} `{Coins.CoinsViewLaws V} {env : Connect.Env}.
Implicit Types d : Coins.cache V.

Lemma check_values_total h l : ∀ n d st U b, Connect.stands d U b → Connect.present l U → ∃ r d', Connect.check_values h l n d st = Some (r, d').
Proof using All.
  induction l as [|i l IH]; intros n d st U b Hs Hp; cbn [Connect.check_values]; [by do 2 eexists|]. apply Forall_cons in Hp as [[x Hx] Hp].
  destruct (Connect.AccessCoin_stands d U b (Tx.prevout i) Hs) as [_ Hs1]. destruct (Connect.AccessCoin_Some d U b (Tx.prevout i) x Hs Hx) as [Ex Hu].
  destruct (Coins.AccessCoin (Tx.prevout i) d) as [y d1]. cbn [fst snd] in *. subst y. rewrite Hu. case_match; [by do 2 eexists|]. case_match; [by do 2 eexists|]. by eapply IH.
Qed.

Lemma run_check_total k : is_Some (Tx.vin (Connect.ptxTo k) !! Connect.nIn k) → ∃ r, Connect.run_check k = Some r.
Proof using Type. intros [i Hi]. unfold Connect.run_check. rewrite Hi. cbn [mbind option_bind]. apply Interp.VerifyScript_total. Qed.

Lemma check_scripts_total t flags l : ∀ n d st U b, drop n (Tx.vin t) = l → Connect.stands d U b → Connect.present l U →
  ∃ r d', Connect.check_scripts t flags false n l d st = Some (r, d').
Proof using All.
  induction l as [|i l IH]; intros n d st U b El Hs Hp; cbn [Connect.check_scripts]; [by do 2 eexists|]. apply Forall_cons in Hp as [[x Hx] Hp].
  destruct (Connect.AccessCoin_stands d U b (Tx.prevout i) Hs) as [_ Hs1]. destruct (Connect.AccessCoin_Some d U b (Tx.prevout i) x Hs Hx) as [Ex Hu].
  destruct (Coins.AccessCoin (Tx.prevout i) d) as [y d1]. cbn [fst snd] in *. subst y. rewrite Hu.
  assert (Hi : is_Some (Tx.vin t !! n)) by (pose proof (lookup_drop (Tx.vin t) n 0) as Hd; rewrite El, Nat.add_0_r in Hd; rewrite <- Hd; by eexists).
  assert (Hr : ∀ fl, ∃ r, Connect.run_check (Connect.mkCheck t n (Tx.scriptPubKey (Coins.out x)) (Tx.nValue (Coins.out x)) fl) = Some r) by (intros fl; by apply run_check_total).
  destruct (Hr flags) as [r1 ->]. cbn [mbind option_bind]. destruct r1 as [e|u].
  - destruct (Interp.has _ _); [|by do 2 eexists]. destruct (Hr (Z.ldiff flags Connect.STANDARD_NOT_MANDATORY_VERIFY_FLAGS)) as [r2 ->]. cbn [mbind option_bind]. destruct r2; by do 2 eexists.
  - eapply IH; [|exact Hs1 | exact Hp]. by rewrite <- Nat.add_1_r, <- drop_drop, El.
Qed.

Lemma CheckInputs_total t flags d st U b h : 0 <= Connect.MAX < 2 ^ 62 → Tx.tx_ok Connect.consensus t → Connect.stands d U b → b ≠ Tx.UINT256_ZERO →
  Connect.block_height b = Some h → Connect.present (Tx.vin t) U → ∃ r d', Connect.CheckInputs t true flags false d st = Some (r, d').
Proof using All.
  intros HM Htx Hs Hb Hh Hp. unfold Connect.CheckInputs. destruct (Tx.IsCoinBase t) eqn:Ecb; [by do 2 eexists|]. unfold Connect.GetSpendHeight. rewrite (Connect.GetBestBlock_stands d U b Hs Hb), Hh. cbn [mbind option_bind].
  assert (Ht : ∃ ok st1 d1, Connect.CheckTxInputs t (h + 1) d st = Some (ok, st1, d1)).
  { unfold Connect.CheckTxInputs. destruct (_ <=? _); [by do 3 eexists|]. destruct (Connect.HaveInputs_stands t d U b Hs) as [_ Hs1]. destruct (Coins.HaveInputs t d) as [have d1]. cbn [fst snd] in *.
    destruct have; cbn [negb]; [|destruct (Tx.Invalid _ _ _ _ _); by do 3 eexists]. destruct (check_values_total (h + 1) (Tx.vin t) 0 d1 st U b Hs1 Hp) as ([[x y]|m] & d2 & ->); cbn [mbind option_bind]; [by do 3 eexists|].
    destruct (Tx.IsCoinStake t); [by do 3 eexists|]. rewrite (Tx.tx_ok_value Connect.consensus t) by (done || (fold Connect.MAX; lia)). cbn [mbind option_bind].
    destruct (m <? _); [destruct (Tx.DoS _ _ _ _ _ _ _); by do 3 eexists|]. destruct (_ <? 0); [destruct (Tx.reject _ _ _); by do 3 eexists|]. destruct (negb _); [destruct (Tx.reject _ _ _); by do 3 eexists | by do 3 eexists]. }
  destruct Ht as (ok & st1 & d1 & E). rewrite E. cbn [mbind option_bind]. destruct (Connect.CheckTxInputs_stands t (h + 1) d U b st ok st1 d1 HM Htx Ecb Hs E) as [Hs1 _].
  destruct ok; cbn [negb]; [|by do 2 eexists]. eapply check_scripts_total; [by rewrite drop_0 | done | done].
Qed.
End Total.

(** ** The entry *)

Section Laws.
Context {env : Connect.Env} {penv : PoolEnv} {aenv : AcceptEnv}.
Implicit Types P Q : CTxMemPool.
Implicit Types c : view.

(** The unspent outputs of the tip and of the pool. *)
Definition unspent P : Coins.uset := λ o, view_GetCoin P tip_coin o ≫= Coins.visible.

Lemma pool_view_stands P : Connect.stands (pool_view P) (unspent P) Tx.UINT256_ZERO.
Proof using Type. split; [|done]. split; [|done]. split; [done|]. intros o e. cbn. by rewrite lookup_empty. Qed.

Lemma known_outputs_spec h outs : ∀ n c U b, Connect.stands c U b → Connect.stands (known_outputs h n outs c).2 U b ∧
  ((known_outputs h n outs c).1 = false → ∀ j, n <= j < n + Z.of_nat outs → U (h, j) = None).
Proof using Type.
  induction outs as [|outs IH]; intros n c U b Hs; cbn [known_outputs]; [split; [done|]; intros _ j Hj; lia|].
  destruct (Connect.HaveCoin_stands c U b (h, n) Hs) as [E Hs1]. destruct (Coins.HaveCoin (h, n) c) as [have c1]. cbn [fst snd] in *. subst have.
  destruct (bool_decide _) eqn:Eb; [by split|]. destruct (IH (n + 1) c1 U b Hs1) as [Hs2 Hn]. split; [done|]. intros Ef j Hj.
  destruct (decide (j = n)) as [->|Hne]; [|apply Hn; [done | lia]]. apply bool_decide_eq_false in Eb. by apply eq_None_not_Some.
Qed.

(** Entries of a cache are not dropped by reads. *)
Lemma fetch_keeps o c o' e : Coins.cacheCoins c !! o' = Some e → Coins.cacheCoins (Coins.FetchCoin o c).2 !! o' = Some e.
Proof using Type.
  intros He. unfold Coins.FetchCoin. destruct (Coins.cacheCoins c !! o) eqn:Eo; [done|]. cbn. destruct (read _ o); [|done]. cbn. rewrite lookup_insert_ne; [done|]. intros ->. congruence.
Qed.

Lemma fetch_base o c : Coins.base (Coins.FetchCoin o c).2 = Coins.base c.
Proof using Type. unfold Coins.FetchCoin. destruct (Coins.cacheCoins c !! o); [done|]. cbn. by destruct (read _ o). Qed.

Lemma have_base o c : Coins.base (Coins.HaveCoin o c).2 = Coins.base c.
Proof using Type. pose proof (fetch_base o c) as E. unfold Coins.HaveCoin. by destruct (Coins.FetchCoin o c). Qed.

Lemma known_base h outs : ∀ n c, Coins.base (known_outputs h n outs c).2 = Coins.base c.
Proof using Type.
  induction outs as [|outs IH]; intros n c; cbn [known_outputs]; [done|]. pose proof (have_base (h, n) c) as E. destruct (Coins.HaveCoin _ _) as [[] c1]; [done|]. by rewrite IH.
Qed.

Lemma have_inputs_base l : ∀ c, Coins.base (Coins.have_inputs l c).2 = Coins.base c.
Proof using Type.
  induction l as [|a l IH]; intros c; cbn [Coins.have_inputs]; [done|]. pose proof (have_base (Tx.prevout a) c) as E. destruct (Coins.HaveCoin _ _) as [[] c1]; cbn [negb]; [by rewrite IH | done].
Qed.

Lemma have_inputs_warm l : ∀ c, (Coins.have_inputs l c).1 = true → (∀ o e, Coins.cacheCoins c !! o = Some e → Coins.cacheCoins (Coins.have_inputs l c).2 !! o = Some e) ∧
  ∀ i, i ∈ l → is_Some (Coins.cacheCoins (Coins.have_inputs l c).2 !! Tx.prevout i).
Proof using Type.
  induction l as [|a l IH]; intros c; cbn [Coins.have_inputs]; [intros _; split; [done|]; intros i Hi; by apply elem_of_nil in Hi|].
  pose proof (fetch_keeps (Tx.prevout a) c) as Hk. unfold Coins.HaveCoin. destruct (Coins.FetchCoin (Tx.prevout a) c) as [it c1] eqn:Ef. cbn [snd] in Hk.
  destruct it as [e|]; [|done]. destruct (negb (Coins.IsSpent (Coins.coin e))); cbn [negb fst snd]; [|done]. intros Ht. destruct (IH c1 Ht) as [I1 I2].
  split; [intros o e' He; by apply I1, Hk|]. intros i [->|Hi]%elem_of_cons; [|by apply I2]. exists e. apply I1. unfold Coins.FetchCoin in Ef.
  destruct (Coins.cacheCoins c !! Tx.prevout a) eqn:Eo; [by injection Ef as <- <-|]. cbn in Ef. destruct (read _ _); [|done]. injection Ef as <- <-. cbn. by rewrite lookup_insert_eq.
Qed.

Lemma present_have l c U b : Connect.stands c U b → (Coins.have_inputs l c).1 = true → Connect.present l U.
Proof using Type.
  intros Hs Ht. rewrite (proj1 (Connect.have_inputs_stands l c U b Hs)) in Ht. apply Forall_forall. intros i Hi. rewrite forallb_forall in Ht.
  eapply bool_decide_eq_true_1, Ht. by apply list_elem_of_In.
Qed.

(** The value of the inputs that are in the chain. *)
Lemma in_chain_bound h l : ∀ n c U b, Connect.stands c U b → Connect.present l U → (∀ i x, i ∈ l → U (Tx.prevout i) = Some x → 0 <= Tx.nValue (Coins.out x)) →
  0 <= n → n + Connect.sum_inputs l U < 2 ^ 63 → n <= (in_chain_value h l n c).1 <= n + Connect.sum_inputs l U.
Proof using Type.
  induction l as [|i l IH]; intros n c U b Hs Hp Hv Hn Hlt; cbn [in_chain_value Connect.sum_inputs foldr]; [cbn; lia|]. apply Forall_cons in Hp as [[x Hx] Hp].
  destruct (Connect.AccessCoin_stands c U b (Tx.prevout i) Hs) as [_ Hs1]. destruct (Connect.AccessCoin_Some c U b (Tx.prevout i) x Hs Hx) as [Ex Hu].
  destruct (Coins.AccessCoin (Tx.prevout i) c) as [y c1]. cbn [fst snd] in *. subst y. pose proof (Hv i x ltac:(by left) Hx) as Hx0. unfold Connect.sum_inputs in Hlt. cbn in Hlt. rewrite Hx in *. cbn [Connect.coin_value] in *.
  assert (Hv' : ∀ i x, i ∈ l → U (Tx.prevout i) = Some x → 0 <= Tx.nValue (Coins.out x)) by (intros j z Hj; apply Hv; by right).
  assert (Hnn : 0 <= Connect.sum_inputs l U).
  { clear - Hp Hv'. unfold Connect.sum_inputs. induction l as [|j l IH]; cbn; [done|]. apply Forall_cons in Hp as [[z Hz] Hp]. rewrite Hz. cbn [Connect.coin_value]. pose proof (Hv' j z ltac:(by left) Hz).
    specialize (IH Hp (λ i x Hi, Hv' i x ltac:(by right))). lia. }
  fold (Connect.sum_inputs l U) in *. destruct (_ && _).
  - rewrite Tx.wrap64_small by lia. specialize (IH (n + Tx.nValue (Coins.out x)) c1 U b Hs1 Hp Hv'). lia.
  - specialize (IH n c1 U b Hs1 Hp Hv'). lia.
Qed.

(** What the entry of a transaction holds. *)
Record entry_of P (t : CTransaction) (entry : CTxMemPoolEntry) : Prop := {
  en_tx : tx entry = t;
  en_state : nCountWithDescendants entry = 1 ∧ nSizeWithDescendants entry = nTxSize entry ∧ nFeesWithDescendants entry = nFee entry;
  en_size : nTxSize entry = Tx.GetTotalSize t;
  en_fee : nFee entry = Connect.sum_inputs (Tx.vin t) (unspent P) - Tx.sum_values (Tx.vout t)
}.

(** The inputs of a transaction have values in range. *)
Definition funded P (t : CTransaction) : Prop :=
  (∀ i x, i ∈ Tx.vin t → unspent P (Tx.prevout i) = Some x → 0 <= Tx.nValue (Coins.out x)) ∧
  (Connect.present (Tx.vin t) (unspent P) → 0 <= Connect.sum_inputs (Tx.vin t) (unspent P) < 2 ^ 63).

Definition ready P (t : CTransaction) (c2 : view) : Prop :=
  ∃ c, c2 = SetBackend dummy c ∧ Connect.stands c (unspent P) tip_best ∧ ∀ i, i ∈ Tx.vin t → is_Some (Coins.cacheCoins c !! Tx.prevout i).

Lemma make_entry_spec t st P : 0 <= Connect.MAX < 2 ^ 62 → Tx.tx_ok Connect.consensus t → Tx.IsCoinBase t = false → funded P t →
  ∃ v, make_entry t st P = Some v ∧ match v with
    | inl r => r.1 = false
    | inr (entry, c2) => entry_of P t entry ∧ (∀ j, 0 <= j < Z.of_nat (length (Tx.vout t)) → unspent P (Tx.GetHash t, j) = None) ∧
        Connect.present (Tx.vin t) (unspent P) ∧ ready P t c2
    end.
Proof using Type.
  intros HM Htx Hcb [Hf1 Hf2]. unfold make_entry, fail. set (U := unspent P) in *.
  assert (Hrej : ∀ lvl code reason corr dbg, (Tx.DoS lvl false code reason corr dbg st).1 = false) by (intros; unfold Tx.DoS; by destruct (Tx.mode st)).
  pose proof (known_base (Tx.GetHash t) (length (Tx.vout t)) 0 (pool_view P)) as Eb1.
  destruct (known_outputs_spec (Tx.GetHash t) (length (Tx.vout t)) 0 _ _ _ (pool_view_stands P)) as [Hs1 Hk]. fold U in Hs1, Hk. destruct (known_outputs _ _ _ _) as [known c1]. cbn [fst snd] in *.
  destruct known; [eexists; split; [done | apply Hrej]|]. specialize (Hk eq_refl). destruct (Connect.have_inputs_stands (Tx.vin t) c1 U _ Hs1) as [_ Hs2].
  pose proof (present_have (Tx.vin t) c1 U _ Hs1) as Hp. pose proof (have_inputs_warm (Tx.vin t) c1) as Hw. pose proof (have_inputs_base (Tx.vin t) c1) as Eb2. destruct (Coins.have_inputs (Tx.vin t) c1) as [have c2]. cbn [fst snd] in *.
  destruct have; cbn [negb]; [|by eexists]. specialize (Hp eq_refl). specialize (Hf2 Hp). destruct (Hw eq_refl) as [_ Hw2]. clear Hw.
  assert (Hb : Coins.cache_GetBestBlock c2 = (tip_best, Coins.mkCache (Coins.base c2) (Coins.cacheCoins c2) tip_best)).
  { unfold Coins.cache_GetBestBlock. rewrite (proj2 Hs2), decide_True by done. rewrite Eb2, Eb1. done. }
  rewrite Hb. set (c3 := Coins.mkCache _ _ _).
  assert (Hs3 : Connect.stands c3 U tip_best) by (split; [apply Hs2 | done]).
  assert (Hw3 : ∀ i, i ∈ Tx.vin t → is_Some (Coins.cacheCoins c3 !! Tx.prevout i)) by exact Hw2.
  destruct (warm_value_in dummy c3 (Tx.vin t) Hw3 (Tx.vin t) 0 ltac:(done)) as (nv & Ev & _).
  destruct (Connect.GetValueIn_stands t c3 U tip_best Hs3 Hcb Hp) as [Ev2 _]. unfold Coins.GetValueIn in *. rewrite Hcb, Ev in *. cbn [fst] in Ev2. subst nv. rewrite (Tx.wrap64_small (Connect.sum_inputs _ _)) by lia.
  destruct (negb IsRegTestNet && _); [eexists; split; [done | apply Hrej]|]. unfold Connect.GetP2SHSigOpCount. rewrite Hcb.
  destruct (warm_p2sh dummy c3 (Tx.vin t) Hw3 (Tx.vin t) 0 ltac:(done)) as (p2sh & _ & ->). destruct (_ >? MAX_TX_SIGOPS_CURRENT); [eexists; split; [done | apply Hrej]|].
  rewrite (Tx.tx_ok_value Connect.consensus t) by (done || (fold Connect.MAX; lia)). cbn [mbind option_bind].
  destruct (Connect.tx_ok_outputs t Htx) as [_ Ho].
  destruct (warm_in_chain dummy c3 (Tx.vin t) Hw3 chainHeight (Tx.vin t) 0 ltac:(done)) as (inchain & Ec & ->).
  pose proof (in_chain_bound chainHeight (Tx.vin t) 0 c3 U tip_best Hs3 Hp Hf1) as Hic. rewrite Ec in Hic. cbn [fst] in Hic.
  destruct (warm_generated dummy c3 (Tx.vin t) Hw3 (Tx.vin t) ltac:(done)) as (gen & _ & ->). unfold new_entry.
  rewrite (Tx.tx_ok_value Connect.consensus t) by (done || (fold Connect.MAX; lia)). cbn [mbind option_bind]. rewrite Tx.wrap64_small by lia.
  destruct (Z.leb_spec inchain (Tx.sum_values (Tx.vout t) + (Connect.sum_inputs (Tx.vin t) U - Tx.sum_values (Tx.vout t)))) as [_|Hgt]; [|lia]. cbn [mbind option_bind].
  eexists. split; [done|]. cbn. split; [by split|]. split; [intros j Hj; apply Hk; lia|]. split; [done|]. by exists c3.
Qed.
End Laws.

Section Worker.
Context {env : Connect.Env} {penv : PoolEnv} {aenv : AcceptEnv}.
Implicit Types P Q : CTxMemPool.
Implicit Types c : view.

(** What the checks need of the rest of the program: the node is past the checkpoints. *)
Record sane : Prop := {
  sane_money : 0 <= Connect.MAX < 2 ^ 62;
  sane_upgrade : is_Some (Consensus.NetworkUpgradeActive chainHeight Connect.consensus Consensus.UPGRADE_BIP65);
  sane_best : tip_best ≠ Tx.UINT256_ZERO;
  sane_height : ∃ h, Connect.block_height tip_best = Some h ∧ Connect.GetTotalBlocksEstimate <= h;
  sane_index : lowest_law
}.

Lemma reject_false lvl code reason corr dbg st : (Tx.DoS lvl false code reason corr dbg st).1 = false.
Proof using Type. unfold Tx.DoS. by destruct (Tx.mode st). Qed.

Lemma check_loose_spec t st : 0 <= Connect.MAX → match check_loose t st with
  | Some r => r.1 = false
  | None => Tx.tx_ok Connect.consensus t ∧ Tx.IsCoinBase t = false ∧ Tx.IsCoinStake t = false
  end.
Proof using Type.
  intros HM. unfold check_loose. destruct (Tx.CheckTransaction_spec Connect.consensus t st HM) as [[Hok ->]|[_ (lvl & reason & _ & ->)]].
  - cbn [negb]. destruct (Tx.IsCoinBase t); [apply reject_false|]. destruct (Tx.IsCoinStake t); [apply reject_false|]. destruct (negb (CheckFinalTx t)); [apply reject_false|].
    destruct (negb IsRegTestNet); [|done]. destruct (IsStandardTx t); [apply reject_false | done].
  - destruct (Tx.reject lvl reason st) as [ok st1] eqn:E. pose proof (reject_false lvl Tx.REJECT_INVALID reason false String.EmptyString st) as Hf. unfold Tx.reject in E. rewrite E in Hf. cbn in Hf. by subst ok.
Qed.

Lemma check_fee_spec lf ra ig entry st P r : check_fee lf ra ig entry st P = Some r → r.1 = false.
Proof using Type.
  unfold check_fee. destruct (if ig then _ else _) as [[[lvl code] reason]|]; [intros [= <-]; apply reject_false|].
  destruct (_ && _); [intros [= <-]; apply reject_false|]. destruct (_ && _); [by intros [= <-] | done].
Qed.

(** Checks that are not left to a queue are run. *)
Lemma check_scripts_run {V : Type} `{Coins.CoinsView V} t flags l : ∀ n (d d' : Coins.cache V) st checks, Connect.check_scripts t flags false n l d st = Some (inr checks, d') → checks = [].
Proof using Type.
  induction l as [|i l IH]; intros n d d' st checks; cbn [Connect.check_scripts]; [by intros [= <- _]|]. destruct (Coins.AccessCoin _ _) as [x d1]. destruct (Coins.IsSpent x); [done|].
  destruct (Connect.run_check (Connect.mkCheck _ _ _ _ flags)) as [[e|u]|]; cbn; [|by apply IH | done]. destruct (Interp.has _ _); [|done]. destruct (Connect.run_check _) as [[|]|]; done.
Qed.

Lemma CheckInputs_run {V : Type} `{Coins.CoinsView V} t flags (d d' : Coins.cache V) st checks : Connect.CheckInputs t true flags false d st = Some (inr checks, d') → checks = [].
Proof using Type.
  unfold Connect.CheckInputs. destruct (Tx.IsCoinBase t); [by intros [= <- _]|]. destruct (Connect.GetSpendHeight d) as [[h d1]|]; [|done]. cbn [mbind option_bind].
  destruct (Connect.CheckTxInputs t h d1 st) as [[[ok st1] d2]|]; [|done]. cbn [mbind option_bind]. destruct ok; cbn [negb]; [apply check_scripts_run | done].
Qed.

(** The scripts of all inputs pass with the flags. *)
Definition verified P (t : CTransaction) (flags : Z) : Prop :=
  Connect.scripts_checked t flags 0 (Tx.vin t) (unspent P) (λ k, Connect.run_check k = Some (inr ())).

(** The scripts pass with the standard and with the mandatory flags. *)
Definition scripts_pass P (t : CTransaction) : Prop :=
  ∀ cltv, Consensus.NetworkUpgradeActive chainHeight Connect.consensus Consensus.UPGRADE_BIP65 = Some cltv →
    verified P t (with_cltv cltv Connect.STANDARD_SCRIPT_VERIFY_FLAGS) ∧ verified P t (with_cltv cltv Connect.MANDATORY_SCRIPT_VERIFY_FLAGS).

(** The scripts: a verdict, and inputs that cover the outputs. *)
Lemma check_scripts_twice_spec t st P c2 : sane → Tx.tx_ok Connect.consensus t → Tx.IsCoinBase t = false → Tx.IsCoinStake t = false →
  Connect.present (Tx.vin t) (unspent P) → ready P t c2 →
  ∃ r, check_scripts_twice t st c2 = Some r ∧ match r with
    | Some r => r.1 = false
    | None => Tx.sum_values (Tx.vout t) <= Connect.sum_inputs (Tx.vin t) (unspent P) <= Connect.MAX ∧ scripts_pass P t
    end.
Proof using Type.
  intros [HM [up Hup] Hb (h & Hh & Hest) _] Htx Hcb Hcs Hp (c & -> & Hs & Hw). unfold check_scripts_twice. rewrite Hup. cbn [mbind option_bind].
  assert (Hrun : ∀ flags, ∃ r, Connect.CheckInputs t true flags false (SetBackend dummy c) st = Some (r, SetBackend dummy c) ∧ match r with
    | inl x => True
    | inr _ => Tx.sum_values (Tx.vout t) <= Connect.sum_inputs (Tx.vin t) (unspent P) <= Connect.MAX ∧ verified P t flags
    end).
  { intros flags. destruct (warm_check_inputs dummy c (Tx.vin t) Hw t true flags false st eq_refl) as (r & R1 & R2); [by rewrite (proj2 Hs)|].
    destruct (CheckInputs_total t flags c st (unspent P) tip_best h HM Htx Hs Hb Hh Hp) as (x & d & Ex). pose proof Ex as Ex'. rewrite R1 in Ex'. destruct r as [x'|]; [|done]. cbn in Ex'. injection Ex' as -> _.
    exists x. split; [done|]. destruct (Connect.CheckInputs_stands t true flags false c (unspent P) tip_best st x d (h + 1) HM Htx Hcb Hs Hb) as [_ Hx]; [rewrite Hh; f_equal; lia | done|].
    destruct x as [y|checks]; [done|]. destruct Hx as [Hx Hx2]. destruct (Hx ltac:(lia)) as [H1 H2]. specialize (H2 Hcs). split; [lia|].
    apply CheckInputs_run in Ex as ->. intros j txin y Hj Hy. destruct (Hx2 eq_refl j txin y Hj Hy) as [Hk|Hk]; [by apply elem_of_nil in Hk | done]. }
  match goal with |- context [Connect.CheckInputs t true ?fl false _ st] => destruct (Hrun fl) as (r1 & -> & H1) end. cbn [mbind option_bind]. destruct r1 as [x|checks]; [by eexists|].
  match goal with |- context [Connect.CheckInputs t true ?fl false _ st] => destruct (Hrun fl) as (r2 & -> & H2) end. cbn [mbind option_bind]. destruct r2 as [x|checks2]; [by eexists|].
  eexists. split; [done|]. split; [apply H1|]. intros cltv E. rewrite Hup in E. injection E as <-. split; [apply H1 | apply H2].
Qed.

(** The deltas alone do not use more memory than the pool may. *)
Definition small_deltas P : Prop := u64 (delta_node * Z.of_nat (size (mapDeltas P))) <= max_mempool.

Lemma LimitMempoolSize_spec wait age P : lowest_law → pool_at wait P → small_deltas P →
  ∃ Q, LimitMempoolSize max_mempool age P = Some Q ∧ pool_at wait Q ∧ pruned wait P Q ∧ DynamicMemoryUsage Q <= max_mempool.
Proof using Type.
  intros Hlow Hok Hd. unfold LimitMempoolSize. destruct (Expire_spec wait P (GetTime - age) Hok) as (n & Q1 & -> & H1 & H2 & _). cbn [mbind option_bind].
  destruct (TrimToSize_spec wait Q1 max_mempool Hlow H1) as (l & Q2 & -> & K1 & K2 & K3 & _); [unfold small_deltas in Hd; by rewrite (pr_deltas _ _ _ H2)|]. cbn [mbind option_bind].
  exists Q2. split; [done|]. split; [done|]. split; [by etransitivity | done].
Qed.

Lemma exists_pool P h : exists_tx P h = bool_decide (h ∈ pool P).
Proof using Type. unfold exists_tx, pool. apply bool_decide_ext. by rewrite elem_of_dom. Qed.

(** The entry is added, then the pool is trimmed. *)
Definition stored (wait' : edges) P (h : uint256) (entry : CTxMemPoolEntry) Q : Prop :=
  ∃ R, pool_at wait' R ∧ pool R = {[h]} ∪ pool P ∧ mapDeltas R = mapDeltas P ∧
    (∀ x, core <$> mapTx R !! x = if decide (x = h) then Some (core entry) else core <$> mapTx P !! x) ∧ pruned wait' R Q.

Lemma store_spec (wait wait' : edges) P t entry A st ov : lowest_law → pool_at wait P → addable wait wait' P (Tx.GetHash t) entry →
  CalculateMemPoolAncestors entry entry_limits true P = Some (None, A) → small_deltas P →
  ∃ r Q, store t ov entry A st P = Some (r, Q) ∧ pool_at wait' Q ∧ stored wait' P (Tx.GetHash t) entry Q ∧ DynamicMemoryUsage Q <= max_mempool ∧ (r.1 = true ↔ Tx.GetHash t ∈ pool Q).
Proof using Type.
  intros Hlow Hok Ha EA Hd. unfold store. destruct (add_with_limits wait wait' P _ entry entry_limits None A Hok Ha EA eq_refl) as (R & -> & HR & Hp & HdR & Hcore). cbn [mbind option_bind].
  assert (Hd1 : small_deltas R) by (unfold small_deltas; by rewrite HdR).
  assert (Hl : ∃ Q1, (if ov then Some R else LimitMempoolSize max_mempool mempool_expiry R) = Some Q1 ∧ pool_at wait' Q1 ∧ pruned wait' R Q1 ∧ (ov = false → DynamicMemoryUsage Q1 <= max_mempool)).
  { destruct ov; [by exists R|]. destruct (LimitMempoolSize_spec wait' mempool_expiry R Hlow HR Hd1) as (Q1 & E & H1 & H2 & H3). by exists Q1. }
  destruct Hl as (Q1 & -> & H1 & H2 & H3). cbn [mbind option_bind]. assert (Hfull : (mempool_full st).1 = false) by apply reject_false.
  destruct (negb ov && negb (exists_tx Q1 (Tx.GetHash t))) eqn:Eo.
  - apply andb_true_iff in Eo as [Eo En]. rewrite exists_pool in En. apply negb_true_iff in Eo, En. apply bool_decide_eq_false in En.
    do 2 eexists. split; [done|]. split; [done|]. split; [by exists R|]. split; [by apply H3|]. by rewrite Hfull.
  - destruct (TrimToSize_spec wait' Q1 max_mempool Hlow H1) as (l & Q2 & -> & K1 & K2 & K3 & _); [unfold small_deltas in Hd1; by rewrite (pr_deltas _ _ _ H2)|]. cbn [mbind option_bind].
    assert (Hst : stored wait' P (Tx.GetHash t) entry Q2) by (exists R; split; [done|]; split; [done|]; split; [done|]; split; [done | by etransitivity]).
    rewrite exists_pool. destruct (bool_decide (Tx.GetHash t ∈ pool Q2)) eqn:Eb; cbn [negb]; do 2 eexists; (split; [done|]; split; [done|]; split; [done|]; split; [done|]).
    + apply bool_decide_eq_true in Eb. done.
    + apply bool_decide_eq_false in Eb. by rewrite Hfull.
Qed.

Lemma GetTotalSize_pos t : 0 < Tx.GetTotalSize t.
Proof using Type.
  unfold Tx.GetTotalSize, Serialize.GetSerializeSize. change (Serialize.Serialize Tx.CTransaction_format t) with
    (Serialize.Serialize Serialize.i32 (Tx.nVersion t) ++ Serialize.Serialize (Serialize.pair_format (Serialize.vector Tx.CTxIn_format Tx.sizeof_CTxIn)
      (Serialize.pair_format (Serialize.vector Tx.CTxOut_format Tx.sizeof_CTxOut) Serialize.u32)) (Tx.vin t, (Tx.vout t, Tx.nLockTime t))).
  rewrite length_app. assert (E : length (Serialize.Serialize Serialize.i32 (Tx.nVersion t)) = 4%nat) by reflexivity. rewrite E. lia.
Qed.

(** A transaction that may come to the pool: the sums of sizes and fees do not overflow, it does not spend itself, and what spends it waits for it. *)
Record candidate (wait wait' : edges) P (t : CTransaction) : Prop := {
  cd_size : total (sz P) (pool P) + Tx.GetTotalSize t < 2 ^ 63;
  cd_fee : total (fee P) (pool P) + Connect.MAX < 2 ^ 63;
  cd_self : ¬ spends t (Tx.GetHash t);
  cd_wait : ∀ x y, x ∈ pool P → y ∈ pool P → (wait' x y ↔ wait x y);
  cd_children : ∀ y e, mapTx P !! y = Some e → spends (tx e) (Tx.GetHash t) → wait' (Tx.GetHash t) y;
  cd_parents : ∀ x, x ∈ pool P → ¬ wait' x (Tx.GetHash t)
}.

(** What holds of a transaction whose entry was stored. *)
Record admitted P (t : CTransaction) (entry : CTxMemPoolEntry) : Prop := {
  ad_entry : entry_of P t entry;
  ad_ok : Tx.tx_ok Connect.consensus t;
  ad_new : Tx.GetHash t ∉ pool P;
  ad_unspent : ∀ txin, txin ∈ Tx.vin t → mapNextTx P !! Tx.prevout txin = None;
  ad_unknown : ∀ j, 0 <= j < Z.of_nat (length (Tx.vout t)) → unspent P (Tx.GetHash t, j) = None;
  ad_present : Connect.present (Tx.vin t) (unspent P);
  ad_fee : 0 <= nFee entry <= Connect.MAX;
  ad_scripts : scripts_pass P t;
  ad_limits : ∃ A, CalculateMemPoolAncestors entry entry_limits true P = Some (None, A)
}.

Lemma admitted_addable (wait wait' : edges) P t entry : candidate wait wait' P t → admitted P t entry → addable wait wait' P (Tx.GetHash t) entry.
Proof using Type.
  intros [C2 C3 C4 C5 C6 C7] [[E1 E2 E3 E4] A2 A3 A4 A5 A6 A7 A8 A9]. pose proof (GetTotalSize_pos t). split; rewrite ?E1; try done.
  - rewrite E3. lia.
  - lia.
  - apply A2.
Qed.

Lemma worker_spec (wait wait' : edges) P t lf ov ra ig st : sane → pool_at wait P → small_deltas P → funded P t → (∀ entry, admitted P t entry → candidate wait wait' P t) →
  ∃ r Q, AcceptToMemoryPoolWorker t lf ov ra ig st P = Some (r, Q) ∧ (r.1 = false ∧ Q = P ∨
    ∃ entry, admitted P t entry ∧ pool_at wait' Q ∧ stored wait' P (Tx.GetHash t) entry Q ∧ DynamicMemoryUsage Q <= max_mempool ∧ (r.1 = true ↔ Tx.GetHash t ∈ pool Q)).
Proof using Type.
  intros Hsane Hok Hd Hf Hc. unfold AcceptToMemoryPoolWorker. pose proof (check_loose_spec t st (proj1 (sane_money Hsane))) as Hloose.
  destruct (check_loose t st) as [r|]; [do 2 eexists; split; [done | by left]|]. destruct Hloose as (Htx & Hcb & Hcs).
  destruct (exists_tx P (Tx.GetHash t)) eqn:Eex; [do 2 eexists; split; [done | left; split; [apply reject_false | done]]|].
  destruct (spends_burned t); [do 2 eexists; split; [done | left; split; [apply reject_false | done]]|].
  destruct (existsb _ (Tx.vin t)) eqn:Econf; [do 2 eexists; split; [done | left; split; [apply reject_false | done]]|].
  destruct (make_entry_spec t st P (sane_money Hsane) Htx Hcb Hf) as (v & -> & Hv). cbn [mbind option_bind]. destruct v as [r|[entry c]]; [do 2 eexists; split; [done | by left]|].
  destruct Hv as (Hent & Hunk & Hpres & Hready). destruct (check_fee lf ra ig entry st P) as [r|] eqn:Efee; [do 2 eexists; split; [done | left; split; [by eapply check_fee_spec | done]]|].
  destruct (CalculateMemPoolAncestors_new P entry entry_limits (linked_rooted _ (p_linked _ _ Hok))) as (err & A & EA & _). rewrite EA. cbn [mbind option_bind].
  destruct err; [do 2 eexists; split; [done | left; split; [apply reject_false | done]]|].
  destruct (check_scripts_twice_spec t st P c Hsane Htx Hcb Hcs Hpres Hready) as (r & -> & Hr). cbn [mbind option_bind]. destruct r as [r|]; [do 2 eexists; split; [done | by left]|].
  assert (Ha : admitted P t entry).
  { rewrite exists_pool in Eex. apply bool_decide_eq_false in Eex. destruct (Connect.tx_ok_outputs t Htx) as [_ Ho]. split; try done.
    - intros txin Hin. apply Tx.existsb_Forall in Econf. rewrite Forall_forall in Econf. specialize (Econf txin Hin). unfold isSpent in Econf. apply bool_decide_eq_false in Econf. by apply eq_None_not_Some.
    - rewrite (en_fee _ _ _ Hent). lia.
    - apply Hr.
    - by exists A. }
  destruct (store_spec wait wait' P t entry A st ov (sane_index Hsane) Hok (admitted_addable _ _ _ _ _ (Hc entry Ha) Ha) EA Hd) as (r & Q & -> & H1 & H2 & H3 & H4).
  exists r, Q. split; [done|]. right. by exists entry.
Qed.
End Worker.

(** ** Coins for the inputs *)

Section Coins.
Context {env : Connect.Env} {penv : PoolEnv} {aenv : AcceptEnv}.
Implicit Types P Q R : CTxMemPool.

Definition have_tip (o : COutPoint) : bool := bool_decide (is_Some (tip_coin o ≫= Coins.visible)).

(** The coins of the tip with the hash of a transaction are its outputs. *)
Definition identified (t : CTransaction) : Prop := ∀ n, have_tip (Tx.GetHash t, n) = true → 0 <= n < Z.of_nat (length (Tx.vout t)).

Lemma unspent_out P o : o.1 ∉ pool P → unspent P o = tip_coin o ≫= Coins.visible.
Proof using Type.
  intros Hn. unfold unspent, view_GetCoin, lookup_tx. assert (mapTx P !! o.1 = None) as -> by by apply not_elem_of_dom. cbn.
  destruct (tip_coin o) as [x|]; [|done]. cbn. unfold Coins.visible at 2. destruct (Coins.IsSpent x) eqn:E; [done|]. cbn. unfold Coins.visible. by rewrite E.
Qed.

Lemma unspent_in P o e x : mapTx P !! o.1 = Some e → unspent P o = Some x → ∃ out, Tx.vout (tx e) !! Z.to_nat o.2 = Some out ∧ Tx.IsNull out = false ∧ x = Coins.mkCoin false false out MEMPOOL_HEIGHT.
Proof using Type.
  intros He. unfold unspent, view_GetCoin, lookup_tx. rewrite He. cbn. destruct (o.2 <? _); [|done]. destruct (Tx.vout (tx e) !! Z.to_nat o.2) as [out|]; [|done]. cbn.
  intros [-> Hu]%Coins.visible_Some. by exists out.
Qed.

(** A transaction that was let in does not spend itself, and the pool does not spend it. *)
Lemma admitted_fresh P t entry : identified t → admitted P t entry → ¬ spends t (Tx.GetHash t) ∧
  (available have_tip P → ∀ y e, mapTx P !! y = Some e → ¬ spends (tx e) (Tx.GetHash t)).
Proof using Type.
  intros Hid Ha. pose proof (ad_new _ _ _ Ha) as Hn. assert (Hno : ∀ n, have_tip (Tx.GetHash t, n) = false).
  { intros n. destruct (have_tip (Tx.GetHash t, n)) eqn:E; [|done]. pose proof (ad_unknown _ _ _ Ha n (Hid n E)) as Hu. rewrite unspent_out in Hu by done. unfold have_tip in E. rewrite Hu in E. by apply bool_decide_eq_true in E as [? ?]. }
  split.
  - intros (i & txin & Hi & Ho)%elem_of_parents. pose proof (ad_present _ _ _ Ha) as Hp. unfold Connect.present in Hp. rewrite Forall_forall in Hp. destruct (Hp txin ltac:(by eapply list_elem_of_lookup_2)) as [x Hx].
    destruct (Tx.prevout txin) as [h n] eqn:Eo. cbn in Ho. subst h. rewrite unspent_out in Hx by done. specialize (Hno n). unfold have_tip in Hno. rewrite Hx in Hno. apply bool_decide_eq_false in Hno. by destruct Hno; eexists.
  - intros Hav y e He (i & txin & Hi & Ho)%elem_of_parents. specialize (Hav y e txin He ltac:(by eapply list_elem_of_lookup_2)). rewrite Ho in Hav.
    assert (mapTx P !! Tx.GetHash t = None) as E by by apply not_elem_of_dom. rewrite E in Hav. destruct (Tx.prevout txin) as [h n]. cbn in Ho. subst h. by rewrite Hno in Hav.
Qed.

Lemma available_pruned have P Q : pruned none P Q → available have P → available have Q.
Proof using Type.
  intros [Hs _ Hc] Ha x e txin He Hin. destruct (sh_entry _ _ Hs x e He) as (e0 & He0 & Eb). apply bare_fields in Eb as (Et & _). specialize (Ha x e0 txin He0). rewrite Et in Ha. specialize (Ha Hin).
  set (o := Tx.prevout txin) in *. destruct (mapTx P !! o.1) as [e2|] eqn:E2.
  - assert (Ho : o.1 ∈ pool Q). { eapply (Hc x e); [done | | by intros [] | by eapply pool_intro]. apply elem_of_parents. apply list_elem_of_lookup in Hin as [i Hi]. by exists i, txin. }
    destruct (pool_entry Q _ Ho) as [e3 He3]. rewrite He3. destruct (sh_entry _ _ Hs _ e3 He3) as (e4 & He4 & Eb). apply bare_fields in Eb as (Et4 & _). rewrite E2 in He4. apply (inj Some) in He4 as <-. by rewrite <- Et4.
  - destruct (mapTx Q !! o.1) as [e3|] eqn:E3; [|done]. destruct (sh_entry _ _ Hs _ e3 E3) as (e4 & He4 & _). congruence.
Qed.

(** An entry of the pool after an addition. *)
Lemma added_entry P R (h : uint256) entry x e : (∀ x, core <$> mapTx R !! x = if decide (x = h) then Some (core entry) else core <$> mapTx P !! x) → mapTx R !! x = Some e →
  x = h ∧ core e = core entry ∨ x ≠ h ∧ ∃ e0, mapTx P !! x = Some e0 ∧ core e = core e0.
Proof using Type.
  intros Hc He. specialize (Hc x). rewrite He in Hc. destruct (decide (x = h)) as [->|Hne]; [left; split; [done | by apply (inj Some) in Hc]|]. right. split; [done|].
  destruct (mapTx P !! x) as [e0|]; [|done]. exists e0. split; [done|]. by apply (inj Some) in Hc.
Qed.

Lemma available_added P R t entry : available have_tip P → admitted P t entry → identified t → pool R = {[Tx.GetHash t]} ∪ pool P →
  (∀ x, core <$> mapTx R !! x = if decide (x = Tx.GetHash t) then Some (core entry) else core <$> mapTx P !! x) → available have_tip R.
Proof using Type.
  intros Hav Ha Hid Hp Hc. destruct (admitted_fresh P t entry Hid Ha) as [Hself Hfresh]. specialize (Hfresh Hav). intros x e txin He Hin. set (o := Tx.prevout txin) in *.
  assert (Hsp : spends (tx e) o.1) by (apply elem_of_parents; apply list_elem_of_lookup in Hin as [i Hi]; by exists i, txin).
  assert (Hsame : o.1 ≠ Tx.GetHash t → ∀ Φ : option CTransaction → Prop, Φ (tx <$> mapTx P !! o.1) → Φ (tx <$> mapTx R !! o.1)).
  { intros Hne Φ HΦ. replace (tx <$> mapTx R !! o.1) with (tx <$> mapTx P !! o.1); [done|]. specialize (Hc o.1). rewrite decide_False in Hc by done. destruct (mapTx R !! o.1), (mapTx P !! o.1); try done. cbn in *. by injection Hc as -> _ _. }
  assert (Hgoal : ∀ S : CTxMemPool, match mapTx S !! o.1 with Some e2 => ∃ out, Tx.vout (tx e2) !! Z.to_nat o.2 = Some out ∧ Tx.IsNull out = false | None => have_tip o = true end ↔
    match tx <$> mapTx S !! o.1 with Some t2 => ∃ out, Tx.vout t2 !! Z.to_nat o.2 = Some out ∧ Tx.IsNull out = false | None => have_tip o = true end) by (intros S; by destruct (mapTx S !! o.1)).
  destruct (added_entry P R _ entry x e Hc He) as [[-> Ec]|(Hne & e0 & He0 & Ec)]; injection Ec as Et _ _.
  - rewrite Et, (en_tx _ _ _ (ad_entry _ _ _ Ha)) in Hsp, Hin. apply Hgoal, (Hsame ltac:(by intros E; rewrite E in Hsp)
      (λ r, match r with Some t2 => ∃ out, Tx.vout t2 !! Z.to_nat o.2 = Some out ∧ Tx.IsNull out = false | None => have_tip o = true end)), Hgoal.
    pose proof (ad_present _ _ _ Ha) as Hpr. unfold Connect.present in Hpr. rewrite Forall_forall in Hpr. destruct (Hpr txin Hin) as [y Hy]. fold o in Hy. destruct (mapTx P !! o.1) as [e2|] eqn:E2.
    + destruct (unspent_in P o e2 y E2 Hy) as (out & H1 & H2 & _). by exists out.
    + rewrite unspent_out in Hy by by apply not_elem_of_dom. unfold have_tip. apply bool_decide_eq_true. by rewrite Hy.
  - rewrite Et in Hsp, Hin. apply Hgoal, (Hsame ltac:(intros E; rewrite E in Hsp; by eapply Hfresh)
      (λ r, match r with Some t2 => ∃ out, Tx.vout t2 !! Z.to_nat o.2 = Some out ∧ Tx.IsNull out = false | None => have_tip o = true end)), Hgoal. by eapply Hav.
Qed.
End Coins.

(** ** Acceptance *)

Section Accepting.
Context {env : Connect.Env} {penv : PoolEnv} {aenv : AcceptEnv}.
Implicit Types P Q R : CTxMemPool.

(** There is room for a transaction: the sums do not overflow. *)
Definition room P (t : CTransaction) : Prop := total (sz P) (pool P) + Tx.GetTotalSize t < 2 ^ 63 ∧ total (fee P) (pool P) + Connect.MAX < 2 ^ 63.

Lemma stored_pool (wait : edges) P h entry Q : stored wait P h entry Q → pool Q ⊆ {[h]} ∪ pool P ∧ mapDeltas Q = mapDeltas P.
Proof using Type. intros (R & _ & Hp & Hd & _ & [Hs Hd' _]). split; [rewrite <- Hp; by apply shrunk_pool | congruence]. Qed.

Lemma accept_spec P t lf ov ra ig : sane → pool_ok P → available have_tip P → small_deltas P → funded P t → identified t → room P t →
  ∃ ok Q, AcceptToMemoryPool t lf ov ra ig P = Some (ok, Q) ∧ pool_ok Q ∧ available have_tip Q ∧ pool Q ⊆ {[Tx.GetHash t]} ∪ pool P ∧ mapDeltas Q = mapDeltas P ∧
    (ok = true ↔ Tx.GetHash t ∈ pool Q ∧ Tx.GetHash t ∉ pool P) ∧
    (Q = P ∨ DynamicMemoryUsage Q <= max_mempool ∧ ∃ entry, admitted P t entry).
Proof using Type.
  intros Hsane Hok Hav Hd Hf Hid [Hr1 Hr2]. unfold AcceptToMemoryPool.
  destruct (worker_spec none none P t lf ov ra ig Tx.CValidationState_init Hsane Hok Hd Hf) as (r & Q & -> & Hres).
  { intros entry Ha. destruct (admitted_fresh P t entry Hid Ha) as [Hself Hfresh]. specialize (Hfresh Hav). split; try done. by intros x _ []. }
  cbn [mbind option_bind]. exists r.1, Q. split; [done|]. destruct Hres as [[Hrf ->]|(entry & Ha & HQ & Hst & Hu & Hiff)].
  - rewrite Hrf. split; [done|]. split; [done|]. split; [set_solver|]. split; [done|]. split; [|by left]. split; [done | tauto].
  - destruct (stored_pool _ _ _ _ _ Hst) as [Hsub Hdel]. split; [done|]. split; [|split; [done|]; split; [done|]; split; [|right; split; [done | by exists entry]]].
    + destruct Hst as (R & HR & Hp & _ & Hcore & Hpr). eapply available_pruned; [done|]. by eapply available_added.
    + rewrite Hiff. pose proof (ad_new _ _ _ Ha). tauto.
Qed.

(** ** A disconnected block *)

(** The entries obey the rules on transactions, and their fees are amounts. *)
Definition modest P : Prop := ∀ x e, mapTx P !! x = Some e → Tx.tx_ok Connect.consensus (tx e) ∧ nTxSize e <= Tx.MAX_STANDARD_TX_SIZE ∧ nFee e <= Connect.MAX.

(** The coins of the tip are amounts. *)
Definition solvent : Prop := ∀ o x, tip_coin o ≫= Coins.visible = Some x → 0 <= Tx.nValue (Coins.out x) <= Connect.MAX.

Lemma modest_pruned wait P Q : pruned wait P Q → modest P → modest Q.
Proof using Type.
  intros [Hs _ _] Hm x e He. destruct (sh_entry _ _ Hs x e He) as (e0 & He0 & Eb). apply bare_fields in Eb as (E1 & E2 & E3 & _). rewrite <- E1, <- E2, <- E3. by apply (Hm x).
Qed.

Lemma modest_added P R t entry : admitted P t entry → (∀ x, core <$> mapTx R !! x = if decide (x = Tx.GetHash t) then Some (core entry) else core <$> mapTx P !! x) → modest P → modest R.
Proof using Type.
  intros Ha Hc Hm x e He. destruct (added_entry P R _ entry x e Hc He) as [[-> Ec]|(_ & e0 & He0 & Ec)]; injection Ec as -> -> ->; [|by apply (Hm x)].
  destruct (ad_entry _ _ _ Ha) as [E1 _ E3 _]. rewrite E1, E3. pose proof (ad_ok _ _ _ Ha) as Hok. split; [done|]. split; [apply Hok | apply (ad_fee _ _ _ Ha)].
Qed.

Lemma unspent_amount P o x : 0 <= Connect.MAX → modest P → solvent → unspent P o = Some x → 0 <= Tx.nValue (Coins.out x) <= Connect.MAX.
Proof using Type.
  intros HM Hm Hs Hx. destruct (mapTx P !! o.1) as [e|] eqn:He.
  - destruct (unspent_in P o e x He Hx) as (out & Ho & _ & ->). destruct (Hm _ _ He) as [Htx _]. destruct (Connect.tx_ok_outputs (tx e) Htx) as [Hf _]. rewrite Forall_forall in Hf.
    destruct (Hf out ltac:(by eapply list_elem_of_lookup_2)) as [_ ?]. done.
  - apply (Hs o x). rewrite <- (unspent_out P); [done|]. by apply not_elem_of_dom.
Qed.

Lemma modest_funded P t : 0 <= Connect.MAX → modest P → solvent → Z.of_nat (length (Tx.vin t)) * Connect.MAX < 2 ^ 63 → funded P t.
Proof using Type.
  intros HM Hm Hs Hlen. split; [intros i x _ Hx; by eapply unspent_amount|]. intros Hp.
  assert (Hsum : 0 <= Connect.sum_inputs (Tx.vin t) (unspent P) <= Z.of_nat (length (Tx.vin t)) * Connect.MAX); [|lia]. clear Hlen. unfold Connect.present in Hp.
  induction (Tx.vin t) as [|i l IH]; cbn; [lia|]. apply Forall_cons in Hp as [[x Hx] Hp]. specialize (IH Hp). unfold Connect.sum_inputs in IH. rewrite Hx. cbn [Connect.coin_value]. pose proof (unspent_amount P _ x HM Hm Hs Hx). lia.
Qed.

Lemma total_cap (f : uint256 → Z) (X : setEntries) B : 0 <= B → (∀ x, x ∈ X → f x <= B) → total f X <= Z.of_nat (size X) * B.
Proof using Type.
  intros HB. induction X as [|x X Hx IH] using set_ind_L; intros Hf; [rewrite total_empty, size_empty; lia|]. rewrite total_insert, size_insert by done.
  specialize (IH ltac:(set_solver)). specialize (Hf x ltac:(set_solver)). lia.
Qed.

Lemma modest_room P t n : 0 <= Connect.MAX → modest P → Tx.tx_ok Connect.consensus t → (size (pool P) < n)%nat → Z.of_nat n * Tx.MAX_STANDARD_TX_SIZE < 2 ^ 63 → Z.of_nat n * Connect.MAX < 2 ^ 63 → room P t.
Proof using Type.
  intros HM Hm Htx Hn H1 H2. assert (Ht : Tx.GetTotalSize t <= Tx.MAX_STANDARD_TX_SIZE) by apply Htx.
  pose proof (total_cap (sz P) (pool P) Tx.MAX_STANDARD_TX_SIZE ltac:(done)) as T1. pose proof (total_cap (fee P) (pool P) Connect.MAX HM) as T2. split.
  - specialize (T1 ltac:(intros x [e He]%pool_entry; unfold sz; rewrite He; apply (Hm x e He))). nia.
  - specialize (T2 ltac:(intros x [e He]%pool_entry; unfold fee; rewrite He; apply (Hm x e He))). nia.
Qed.

(** Waiting pairs matter only inside the pool. *)
Lemma pool_at_ext (wait wait' : edges) P : (∀ x y, x ∈ pool P → y ∈ pool P → (wait x y ↔ wait' x y)) → pool_at wait P → pool_at wait' P.
Proof using Type.
  intros Hw [H1 H2 H3 [T1 T2 T3 T4 T5]]. split; [done | done | done|]. split; try done. intros x y e He. rewrite (T1 x y e He). assert (Hy : y ∈ pool P) by by eapply pool_intro.
  split; intros (Hx & Hs & Hn); (split; [done|]; split; [done|]); by rewrite (Hw x y Hx Hy) in *.
Qed.
End Accepting.

Section Returning.
Context {env : Connect.Env} {penv : PoolEnv} {aenv : AcceptEnv}.
Implicit Types P Q R : CTxMemPool.

(** A block whose transactions may return to the pool: they differ, spend only earlier ones of
    the block or confirmed ones, and the sums do not overflow. *)
Record returning P (vtx : list CTransaction) : Prop := {
  rt_distinct : NoDup (map Tx.GetHash vtx);
  rt_order : ∀ pre t post x, vtx = pre ++ t :: post → spends t x → x ∉ map Tx.GetHash (t :: post);
  rt_pool : ∀ t x, t ∈ vtx → x ∈ pool P → ¬ spends t x;
  rt_inputs : ∀ t, t ∈ vtx → Z.of_nat (length (Tx.vin t)) * Connect.MAX < 2 ^ 63;
  rt_sizes : Z.of_nat (size (pool P) + length vtx) * Tx.MAX_STANDARD_TX_SIZE < 2 ^ 63;
  rt_fees : Z.of_nat (size (pool P) + length vtx) * Connect.MAX < 2 ^ 63
}.

Context (P : CTxMemPool) (vtx : list CTransaction).
Context (Hsane : sane) (Hsolv : solvent) (Hret : returning P vtx) (Hdelt : small_deltas P).

(** The state of the loop after the transactions [pre]. *)
Record returned (pre : list CTransaction) (hs : list uint256) Q : Prop := {
  re_ok : pool_at (waiting (list_to_set hs)) Q;
  re_ordered : ordered Q hs;
  re_nodup : NoDup hs;
  re_block : ∀ h, h ∈ hs → h ∈ map Tx.GetHash pre;
  re_tx : ∀ x e, mapTx Q !! x = Some e → if decide (x ∈ hs) then tx e ∈ pre else x ∈ pool P;
  re_modest : modest Q;
  re_size : (size (pool Q) <= size (pool P) + length pre)%nat;
  re_deltas : mapDeltas Q = mapDeltas P
}.

Lemma returned_pruned pre hs Q Q' : returned pre hs Q → pool_at (waiting (list_to_set hs)) Q' → pruned (waiting (list_to_set hs)) Q Q' → returned pre hs Q'.
Proof using Type.
  intros [R1 R2 R3 R4 R5 R6 R7 R8] Hok Hp. pose proof Hp as [Hs Hd _]. split; try done.
  - intros a g b x E Hx. eapply R2; [exact E|]. by apply (sh_dep _ _ Hs g x).
  - intros x e He. destruct (sh_entry _ _ Hs x e He) as (e0 & He0 & Eb). apply bare_fields in Eb as (Et & _). specialize (R5 x e0 He0). by rewrite Et in R5.
  - by eapply modest_pruned.
  - etransitivity; [apply subseteq_size; by apply shrunk_pool | done].
  - congruence.
Qed.

Lemma returned_next pre t hs Q : returned pre hs Q → returned (pre ++ [t]) hs Q.
Proof using Type.
  intros [R1 R2 R3 R4 R5 R6 R7 R8]. split; try done.
  - intros h Hh. rewrite map_app. apply elem_of_app. left. by apply R4.
  - intros x e He. specialize (R5 x e He). destruct (decide _); [|done]. apply elem_of_app. by left.
  - rewrite length_app. cbn. lia.
Qed.

(** The rest of the proof is about the next transaction. *)
Context (pre : list CTransaction) (t : CTransaction) (post : list CTransaction) (Evtx : vtx = pre ++ t :: post).

Lemma earlier_spends u : u ∈ pre → ¬ spends u (Tx.GetHash t).
Proof using Hret Evtx.
  intros (a & b & E)%list_elem_of_split Hs. apply (rt_order _ _ Hret a u (b ++ t :: post) (Tx.GetHash t)); [by rewrite Evtx, E, <- app_assoc | done|].
  cbn. right. rewrite map_app. apply elem_of_app. right. by left.
Qed.

Lemma next_fresh hs Q : returned pre hs Q → Tx.GetHash t ∉ hs.
Proof using Hret Evtx.
  intros R Hin. apply (re_block _ _ _ R) in Hin. pose proof (rt_distinct _ _ Hret) as Hn. rewrite Evtx, map_app in Hn. cbn in Hn. apply NoDup_app in Hn as (_ & Hn & _). by apply (Hn _ Hin); left.
Qed.

Lemma list_to_set_snoc (hs : list uint256) (h : uint256) : (list_to_set (hs ++ [h]) : setEntries) = list_to_set hs ∪ {[h]}.
Proof using Type. rewrite list_to_set_app_L. cbn. by rewrite union_empty_r_L. Qed.

Lemma next_candidate hs Q entry : returned pre hs Q → admitted Q t entry → candidate (waiting (list_to_set hs)) (waiting (list_to_set (hs ++ [Tx.GetHash t]))) Q t.
Proof using Hsane Hret Evtx.
  intros R Ha. pose proof (ad_new _ _ _ Ha) as Hn. destruct (modest_room Q t (size (pool P) + length vtx) (proj1 (sane_money Hsane)) (re_modest _ _ _ R) (ad_ok _ _ _ Ha)) as [Hr1 Hr2].
  { pose proof (re_size _ _ _ R). rewrite Evtx, length_app. cbn. lia. }
  { apply Hret. } { apply Hret. }
  assert (Hin : t ∈ vtx) by (rewrite Evtx; apply elem_of_app; right; by left). rewrite list_to_set_snoc. unfold waiting. split; [done | done | | | |].
  - intros Hs. apply (rt_order _ _ Hret pre t post _ Evtx Hs). by left.
  - intros x y Hx Hy. assert (x ≠ Tx.GetHash t) by (by intros ->). assert (y ≠ Tx.GetHash t) by (by intros ->). clear - H H0. set_solver.
  - intros y e He Hs. assert (Hy : y ≠ Tx.GetHash t) by (intros ->; apply Hn; by eapply pool_intro). pose proof (re_tx _ _ _ R y e He) as Hre.
    destruct (decide (y ∈ hs)) as [Hyh|Hyh]; [by apply earlier_spends in Hre|]. clear - Hy Hyh. set_solver.
  - intros x Hx. clear. set_solver.
Qed.

Lemma snoc_split (hs : list uint256) (h : uint256) a g b : hs ++ [h] = a ++ g :: b → a = hs ∧ g = h ∨ ∃ b', hs = a ++ g :: b'.
Proof using Type.
  destruct b as [|z b _] using rev_ind; intros E.
  - apply app_inj_tail in E as [-> ->]. by left.
  - right. exists b. change (a ++ g :: b ++ [z]) with (a ++ (g :: b) ++ [z]) in E. rewrite app_assoc in E. apply app_inj_tail in E as [-> _]. done.
Qed.

Lemma added_returned hs Q entry R : returned pre hs Q → admitted Q t entry → pool_at (waiting (list_to_set (hs ++ [Tx.GetHash t]))) R → pool R = {[Tx.GetHash t]} ∪ pool Q →
  mapDeltas R = mapDeltas Q → (∀ x, core <$> mapTx R !! x = if decide (x = Tx.GetHash t) then Some (core entry) else core <$> mapTx Q !! x) → returned (pre ++ [t]) (hs ++ [Tx.GetHash t]) R.
Proof using Hret Evtx.
  intros Re Ha HR Hp Hd Hc. pose proof (ad_new _ _ _ Ha) as Hn. pose proof (next_fresh hs Q Re) as Hf. pose proof Re as [R1 R2 R3 R4 R5 R6 R7 R8]. split.
  - done.
  - intros a g b x E Hx. pose proof (lk_in _ (p_linked _ _ HR) x g Hx) as [Hxp Hgp]. destruct (pool_entry R g Hgp) as [eg Heg]. apply (tr_links _ _ (p_tracked _ _ HR) x g eg Heg) in Hx as (_ & Hs & Hw).
    destruct (snoc_split hs _ a g b E) as [[-> ->]|(b' & Eh)].
    + destruct (added_entry Q R _ entry _ eg Hc Heg) as [[_ Ec]|[? _]]; [|done]. injection Ec as Et _ _. rewrite Et, (en_tx _ _ _ (ad_entry _ _ _ Ha)) in Hs.
      assert (Hxt : x ≠ Tx.GetHash t) by (intros ->; apply (rt_order _ _ Hret pre t post _ Evtx Hs); by left). rewrite Hp in Hxp. assert (Hxq : x ∈ pool Q) by (clear - Hxp Hxt; set_solver).
      destruct (pool_entry Q x Hxq) as [ex Hex]. specialize (R5 x ex Hex). destruct (decide (x ∈ hs)); [done|]. exfalso. apply (rt_pool _ _ Hret t x); [|done|done]. rewrite Evtx. apply elem_of_app. right. by left.
    + assert (Hgh : g ∈ hs) by (rewrite Eh; apply elem_of_app; right; by left). destruct (added_entry Q R _ entry g eg Hc Heg) as [[-> _]|(_ & e0 & He0 & Ec)]; [done|]. injection Ec as Et _ _. rewrite Et in Hs.
      pose proof (R5 g e0 He0) as Hpre. rewrite decide_True in Hpre by done. assert (Hxt : x ≠ Tx.GetHash t) by (intros ->; by eapply earlier_spends).
      rewrite Hp in Hxp. assert (Hxq : x ∈ pool Q) by (clear - Hxp Hxt; set_solver). eapply R2; [exact Eh|]. apply (tr_links _ _ (p_tracked _ _ R1) x g e0 He0). split; [done|]. split; [done|].
      unfold waiting in *. rewrite list_to_set_snoc in Hw. clear - Hw Hxt Hgh. set_solver.
  - apply NoDup_app. split; [done|]. split; [|by apply NoDup_singleton]. intros x Hx ->%list_elem_of_singleton. done.
  - intros h [Hh|Hh]%elem_of_app; rewrite map_app; apply elem_of_app; [left; by apply R4 | right]. by apply list_elem_of_singleton in Hh as ->; left.
  - intros x e He. destruct (added_entry Q R _ entry x e Hc He) as [[-> Ec]|(Hne & e0 & He0 & Ec)]; injection Ec as Et _ _; rewrite Et.
    + rewrite decide_True by (apply elem_of_app; right; by left). rewrite (en_tx _ _ _ (ad_entry _ _ _ Ha)). apply elem_of_app. right. by left.
    + specialize (R5 x e0 He0). destruct (decide (x ∈ hs)) as [Hin|Hin].
      * rewrite decide_True by (apply elem_of_app; by left). apply elem_of_app. by left.
      * rewrite decide_False; [done|]. rewrite elem_of_app, list_elem_of_singleton. tauto.
  - by eapply modest_added.
  - rewrite Hp, size_insert, length_app by done. cbn. lia.
  - congruence.
Qed.

Lemma remove_returned hs Q : returned (pre ++ [t]) hs Q → ∃ removed Q', remove t true Q = Some (removed, Q') ∧ returned (pre ++ [t]) hs Q'.
Proof using Type. intros R. destruct (remove_recursive _ Q t (re_ok _ _ _ R)) as (l & Q' & D & E & H1 & H2 & _). exists l, Q'. split; [done|]. by eapply returned_pruned. Qed.

(** One turn of the loop. *)
Lemma resurrect_step hs Q : returned pre hs Q → ∃ hs' Q', resurrect_tx t (hs, Q) = Some (hs', Q') ∧ returned (pre ++ [t]) hs' Q'.
Proof using Hsane Hsolv Hret Hdelt Evtx.
  intros R. unfold resurrect_tx. cbn [fst snd].
  assert (Hfail : ∀ Q1, returned (pre ++ [t]) hs Q1 → ∃ hs' Q', ('(removed, P) ← remove t true Q1; Some (hs, P)) = Some (hs', Q') ∧ returned (pre ++ [t]) hs' Q').
  { intros Q1 R1. destruct (remove_returned hs Q1 R1) as (l & Q2 & -> & R2). cbn [mbind option_bind]. by do 2 eexists. }
  destruct (Tx.IsCoinBase t || Tx.IsCoinStake t); [cbn [mbind option_bind negb]; by apply Hfail, returned_next|]. unfold AcceptToMemoryPool.
  assert (Hin : t ∈ vtx) by (rewrite Evtx; apply elem_of_app; right; by left).
  destruct (worker_spec (waiting (list_to_set hs)) (waiting (list_to_set (hs ++ [Tx.GetHash t]))) Q t false true false false Tx.CValidationState_init Hsane (re_ok _ _ _ R)) as (r & Q1 & -> & Hres).
  { unfold small_deltas in *. by rewrite (re_deltas _ _ _ R). }
  { apply modest_funded; [apply Hsane | apply R | done | by apply (rt_inputs _ _ Hret)]. }
  { intros entry Ha. by eapply next_candidate. }
  cbn [mbind option_bind]. destruct Hres as [[Hrf ->]|(entry & Ha & HQ & (S & HS & Hp & Hd & Hc & Hpr) & Hu & Hiff)].
  - rewrite Hrf. cbn [negb]. by apply Hfail, returned_next.
  - pose proof (returned_pruned _ _ _ _ (added_returned hs Q entry S R Ha HS Hp Hd Hc) HQ Hpr) as R1. destruct r.1; cbn [negb].
    + rewrite exists_pool, bool_decide_eq_true_2 by by apply Hiff. by do 2 eexists.
    + assert (Hnot : Tx.GetHash t ∉ pool Q1) by (intros Hx; by apply Hiff in Hx). apply Hfail. destruct R1 as [A1 A2 A3 A4 A5 A6 A7 A8]. pose proof (next_fresh hs Q R) as Hf. split; try done.
      * eapply pool_at_ext; [|exact A1]. intros x y Hx Hy. assert (x ≠ Tx.GetHash t) by (by intros ->). assert (y ≠ Tx.GetHash t) by (by intros ->). unfold waiting. rewrite list_to_set_snoc. clear - H H0. set_solver.
      * intros a g b x E Hx. eapply (A2 a g (b ++ [Tx.GetHash t])); [by rewrite E, <- app_assoc | done].
      * apply R.
      * intros h Hh. apply A4. apply elem_of_app. by left.
      * intros x e He. specialize (A5 x e He). assert (Hx : x ≠ Tx.GetHash t) by (intros ->; apply Hnot; by eapply pool_intro). destruct (decide (x ∈ hs)) as [Hi|Hi].
        -- by rewrite decide_True in A5 by (apply elem_of_app; by left).
        -- rewrite decide_False in A5; [done|]. rewrite elem_of_app, list_elem_of_singleton. tauto.
Qed.
End Returning.

(** ** All transactions of a block *)

Section Resurrect.
Context {env : Connect.Env} {penv : PoolEnv} {aenv : AcceptEnv}.
Implicit Types P Q R : CTxMemPool.

Lemma resurrect_loop P vtx post : sane → solvent → returning P vtx → small_deltas P → ∀ pre hs Q, vtx = pre ++ post → returned P pre hs Q →
  ∃ hs' Q', each resurrect_tx post (hs, Q) = Some (hs', Q') ∧ returned P vtx hs' Q'.
Proof using Type.
  intros H1 H2 H3 H4. induction post as [|t post IH]; intros pre hs Q E R; cbn [each]; [rewrite app_nil_r in E; subst pre; by do 2 eexists|].
  destruct (resurrect_step P vtx H1 H2 H3 H4 pre t post E hs Q R) as (hs1 & Q1 & -> & R1). cbn [mbind option_bind]. eapply (IH (pre ++ [t])); [by rewrite <- app_assoc | done].
Qed.

Lemma returned_start P : pool_ok P → modest P → returned P [] [] P.
Proof using Type.
  intros Hok Hm. split; try done.
  all: try (by apply NoDup_nil); try (cbn; lia); try (by intros a g b x E%app_cons_not_nil).
  2: { intros x e He. rewrite decide_False by apply not_elem_of_nil. by eapply pool_intro. }
  eapply pool_at_ext; [|exact Hok]. intros x y _ _. unfold none, waiting. cbn. set_solver.
Qed.

Lemma modest_evolved P Q : evolved P Q → modest P → modest Q.
Proof using Type.
  intros He Hm x e Hx. destruct (evolved_entry P Q x e He Hx) as (e0 & He0 & Eb). apply bare_fields in Eb as (E1 & E2 & E3 & _). rewrite <- E1, <- E2, <- E3. by apply (Hm x).
Qed.

Lemma resurrect_spec P vtx : sane → solvent → pool_ok P → modest P → small_deltas P → returning P vtx →
  ∃ Q, resurrect vtx P = Some Q ∧ pool_ok Q ∧ modest Q ∧ mapDeltas Q = mapDeltas P ∧ pool Q ⊆ pool P ∪ list_to_set (map Tx.GetHash vtx).
Proof using Type.
  intros Hsane Hsolv Hok Hm Hd Hret. unfold resurrect.
  destruct (resurrect_loop P vtx vtx Hsane Hsolv Hret Hd [] [] P eq_refl (returned_start P Hok Hm)) as (hs & Q & -> & [R1 R2 R3 R4 R5 R6 R7 R8]). cbn [mbind option_bind].
  destruct (UpdateTransactionsFromBlock_spec Q hs R1 R2 R3) as (Q' & -> & HQ & Hev). exists Q'. split; [done|]. split; [done|]. split; [by eapply modest_evolved|].
  split; [by rewrite (ev_deltas _ _ Hev)|]. rewrite (evolved_pool _ _ Hev). intros x [e He]%pool_entry. specialize (R5 x e He). destruct (decide (x ∈ hs)) as [Hx|Hx]; [|clear - R5; set_solver].
  apply elem_of_union. right. apply elem_of_list_to_set. by apply R4.
Qed.
End Resurrect.
End Accept.
