(* ===== verification/PoolThm.v ===== *)
(** * The memory pool: what its operations promise

    The operations that the node performs on the pool, as a sequence; the invariant of the pool,
    under which no assertion fails and every loop ends; what acceptance, a new block, a
    disconnected block and the limits do to the pool.  Each operation has the rest of the program
    it reads at that time ([Connect.Env] and [AcceptEnv]). *)

From Stdlib Require Import ZArith Lia String.
From stdpp Require Import base option gmap fin_maps sets relations list.
From S2P Require Import Prelude Serialize Consensus Tx Coins Script Interp Block Connect Stake Mempool Pool PoolOps PoolReorg Accept.
Import Mempool Pool PoolOps PoolReorg Accept.
Open Scope Z_scope.

Module PoolThm.

Section Theorems.
Context {penv : PoolEnv}.
Implicit Types P Q : CTxMemPool.

(** ** Sequences of operations *)










(** When a block is disconnected, its transactions are offered to the pool and their links to
    the transactions of the pool that spend them are restored: the pool is consistent again,
    with the exact counts of descendants, and holds nothing but what it held and transactions of
    the block. *)
Theorem resurrect_correct (env : Connect.Env) (aenv : AcceptEnv) P vtx :
  sane → solvent → pool_ok P → modest P → small_deltas P → returning P vtx →
  ∃ Q, resurrect vtx P = Some Q ∧ pool_ok Q ∧ modest Q ∧ pool Q ⊆ pool P ∪ list_to_set (map Tx.GetHash vtx).
Proof using Type. intros H1 H2 H3 H4 H5 H6. destruct (resurrect_spec P vtx H1 H2 H3 H4 H5 H6) as (Q & E & HQ & Hm & _ & Hs). by exists Q. Qed.

(** Links that wait for [UpdateTransactionsFromBlock] are restored whatever the walks over the
    descendants give up on: from a pool whose block transactions miss their children, the call
    returns a consistent pool with the same entries. *)
Theorem UpdateTransactionsFromBlock_correct P hs :
  pool_at (waiting (list_to_set hs)) P → ordered P hs → NoDup hs →
  ∃ Q, UpdateTransactionsFromBlock hs P = Some Q ∧ pool_ok Q ∧ pool Q = pool P ∧ mapNextTx Q = mapNextTx P.
Proof using Type.
  intros H1 H2 H3. destruct (UpdateTransactionsFromBlock_spec P hs H1 H2 H3) as (Q & E & HQ & Hev). exists Q. split; [done|]. split; [done|]. split; [by apply evolved_pool | apply Hev].
Qed.

(** After a block, the pool is consistent and holds no transaction of the block and none that
    spends an output which the block spends; what left the pool was in the block, or depended on
    a transaction in conflict with it. *)
Theorem removeForBlock_correct P vtx :
  pool_ok P → in_block_order P vtx →
  ∃ removed Q, removeForBlock vtx P = Some (removed, Q) ∧ pool_ok Q ∧ pool Q ⊆ pool P ∧
    (∀ t, t ∈ vtx → Tx.GetHash t ∉ pool Q ∧ ∀ txin, txin ∈ Tx.vin t → mapNextTx Q !! Tx.prevout txin = None) ∧
    (∀ y, y ∈ pool P → y ∉ pool Q → y ∈ map Tx.GetHash vtx ∨ ∃ t z, t ∈ vtx ∧ conflicts P t z ∧ rtc (dep P) y z).
Proof using Type.
  intros Hok Hb. destruct (removeForBlock_spec none P vtx Hok Hb) as (l & Q & E & HQ & Hs & H1 & H2). exists l, Q. split; [done|]. split; [done|]. split; [by apply shrunk_pool|]. done.
Qed.

(** The ancestors of a new transaction are the entries its inputs reach; they are computed
    without an error only if the transaction stays within the limits: on the number and size of
    its ancestors, and on those of the descendants of every ancestor that is not dirty. *)
Theorem CalculateMemPoolAncestors_correct P entry lim :
  pool_ok P → 0 < nTxSize entry → total (sz P) (pool P) + nTxSize entry < 2 ^ 63 →
  ∃ err A, CalculateMemPoolAncestors entry lim true P = Some (err, A) ∧ (lim = nNoLimit → err = None) ∧
    (err = None → (∀ y, y ∈ A ↔ ∃ x, x ∈ pool P ∧ spends (tx entry) x ∧ rtc (dep P) x y) ∧
       (A ≠ ∅ → Z.of_nat (size A) + 1 <= limitAncestorCount lim ∧ nTxSize entry + total (sz P) A <= limitAncestorSize lim) ∧
       ∀ x e, x ∈ A → mapTx P !! x = Some e → IsDirty e = false →
         Z.of_nat (size (desc P x)) + 1 <= limitDescendantCount lim ∧ total (sz P) (desc P x) + nTxSize entry <= limitDescendantSize lim).
Proof using Type.
  intros Hok Hpos Hroom. pose proof (p_linked _ _ Hok) as Hl. pose proof (p_sized _ _ Hok) as Hs.
  destruct (CalculateMemPoolAncestors_new P entry lim (linked_rooted _ Hl)) as (err & A & E & HA & Hn). exists err, A. split; [done|]. split; [done|].
  intros He. destruct (HA He) as [HA' [W1 W2 W3]].
  assert (Hsub : A ⊆ pool P). { intros y (x & Hx & Hr)%HA'. apply elem_of_pool_parents in Hx as [Hx _]. by apply dep_in in Hr as [->|[? ?]]. }
  assert (Hle : ∀ X, X ⊆ pool P → Z.of_nat (size X) <= total (sz P) X <= total (sz P) (pool P)).
  { intros X HX. destruct (sized_bounds P X Hs HX) as [[? _] _]. split; [done|]. apply total_mono; [|done]. intros y _. by apply sized_nonneg. }
  split; [|split].
  - intros y. rewrite HA'. split; intros (x & Hx); exists x; [destruct Hx as [Hx Hr]; by apply elem_of_pool_parents in Hx as [? ?] | destruct Hx as (Hx & Hs' & Hr); split; [by apply elem_of_pool_parents | done]].
  - intros Hne. destruct W1 as [?|W1], W2 as [?|W2]; [done..|]. pose proof (Hle A Hsub). rewrite !u64_small in W1, W2 by lia. done.
  - intros x e Hx Hex Hdirty. destruct (W3 x e Hx Hex) as [B1 B2]. assert (Hxp : x ∈ pool P) by by apply Hsub. pose proof (p_counted _ _ Hok x e (desc P x) Hex (desc_spec P x Hl Hxp)) as Hst.
    unfold state_is in Hst. rewrite Hdirty in Hst. destruct Hst as (E1 & E2 & _). rewrite E1 in B2. rewrite E2 in B1. pose proof (Hle (desc P x) (desc_sub P x Hl Hxp)). rewrite !u64_small in B1, B2 by lia. done.
Qed.

(** [TrimToSize] ends, and then the memory limit holds; the pool stays consistent, entries leave
    it together with all that depend on them, and the outputs it returns are not in the pool and
    not spent by it. *)
Theorem TrimToSize_correct P sizelimit :
  lowest_law → pool_ok P → u64 (delta_node * Z.of_nat (size (mapDeltas P))) <= sizelimit →
  ∃ l Q, TrimToSize sizelimit P = Some (l, Q) ∧ pool_ok Q ∧ DynamicMemoryUsage Q <= sizelimit ∧ pool Q ⊆ pool P ∧
    (∀ y x, dep P y x → y ∈ pool Q → x ∈ pool Q) ∧ (∀ o, o ∈ l → o.1 ∉ pool Q ∧ mapNextTx Q !! o = None).
Proof using Type.
  intros H1 H2 H3. destruct (TrimToSize_spec none P sizelimit H1 H2 H3) as (l & Q & E & HQ & Hp & Hu & Ho). exists l, Q. split; [done|]. split; [done|]. split; [done|].
  split; [by apply shrunk_pool, Hp|]. split; [|done]. intros y x Hd [e He]%pool_entry. destruct (sh_entry _ _ (pr_shrunk _ _ _ Hp) y e He) as (e0 & He0 & Eb). apply bare_fields in Eb as (Et & _).
  apply (tr_links _ _ (p_tracked _ _ H2) x y e0 He0) in Hd as (Hx & Hs & _). eapply (pr_closed _ _ _ Hp y e); [done | by rewrite <- Et | by intros [] | done].
Qed.
End Theorems.

(** ** A pool *)

Definition id (k : Z) : uint256 := replicate 32 k.

(** The entry of the lowest fee. *)
Definition lowest (m : gmap uint256 CTxMemPoolEntry) : option uint256 :=
  fst <$> foldr (λ x acc, match acc with Some y => if nFee y.2 <? nFee x.2 then Some y else Some x | None => Some x end) None (map_to_list m).

#[local] Instance small_pool : PoolEnv := {|
  tx_usage _ := 10; set_node := 1; entry_node := 100; next_node := 1; delta_node := 1; link_node := 1; lowest_feerate := lowest
|}.

Lemma small_pool_law : lowest_law.
Proof.
  intros m. cbn. unfold lowest. assert (H : ∀ l : list (uint256 * CTxMemPoolEntry),
    match foldr (λ x acc, match acc with Some y => if nFee y.2 <? nFee x.2 then Some y else Some x | None => Some x end) None l with Some x => x ∈ l | None => l = [] end).
  { induction l as [|x l IH]; cbn; [done|]. destruct (foldr _ _ _) as [y|]; [|by left]. destruct (_ <? _); [by right | by left]. }
  specialize (H (map_to_list m)). destruct (foldr _ _ _) as [[x e]|]; cbn.
  - apply elem_of_map_to_list in H. by eapply elem_of_dom_2.
  - by apply map_to_list_empty_iff.
Qed.

(** Two coins of 100; a payment of each, and a payment from the first of them. *)
Definition pay (k : Z) (o : COutPoint) (n : Z) : CTransaction := Tx.mkTx (id k) 1 [Tx.mkTxIn o [] Tx.UINT32_MAX []] [Tx.TxOut n [Script.OP_1]] 0.
Definition tx_a : CTransaction := pay 2 (Connect.old_id, 0) 95.
Definition tx_b : CTransaction := pay 4 (Connect.old_id, 1) 60.
Definition tx_y : CTransaction := pay 3 (id 2, 0) 50.

Definition coin_of (n : Z) : Coins.Coin := Coins.mkCoin false false (Tx.TxOut n [Script.OP_1]) 5.

(** The coins before and after a block with the two payments. *)
Definition coins_before (o : COutPoint) : option Coins.Coin := if bool_decide (o = (Connect.old_id, 0) ∨ o = (Connect.old_id, 1)) then Some (coin_of 100) else None.
Definition coins_after (o : COutPoint) : option Coins.Coin := if bool_decide (o = (id 2, 0)) then Some (coin_of 95) else if bool_decide (o = (id 4, 0)) then Some (coin_of 60) else None.

Definition node (coins : COutPoint → option Coins.Coin) (limit : Z) : AcceptEnv := {|
  chainHeight := 9; GetTime := 1000; IsRegTestNet := false; tip_coin := coins; tip_best := Connect.prev_id; CheckFinalTx _ := true; IsStandardTx _ := None;
  spends_burned _ := false; AreInputsStandard _ _ := true; fee_rules _ _ _ := None; min_relay_fee _ := 1; entry_limits := mkLimits 25 101000 25 101000;
  max_mempool := limit; mempool_expiry := 259200
|}.

Definition empty_pool : CTxMemPool := Eval vm_compute in clear (mkPool ∅ ∅ ∅ ∅ 0 0 0).
Definition accept (coins : COutPoint → option Coins.Coin) (t : CTransaction) (P : CTxMemPool) : option (bool * CTxMemPool) :=
  AcceptToMemoryPool (env := Connect.the_env) (aenv := node coins 1000) t true false false false P.

Definition pool_a : CTxMemPool := Eval vm_compute in default empty_pool (snd <$> accept coins_before tx_a empty_pool).
Definition pool_y : CTxMemPool := Eval vm_compute in default empty_pool (snd <$> accept coins_after tx_y empty_pool).

Lemma accept_a : accept coins_before tx_a empty_pool = Some (true, pool_a).
Proof. vm_compute. reflexivity. Qed.
Lemma accept_y : accept coins_after tx_y empty_pool = Some (true, pool_y).
Proof. vm_compute. reflexivity. Qed.

#[local] Existing Instance Connect.the_env.

Lemma node_sane coins limit : sane (aenv := node coins limit).
Proof.
  split; [split; [done | reflexivity] | vm_compute; by eexists | done | by exists 9 | apply small_pool_law].
Qed.

Lemma coins_before_Some o x : coins_before o ≫= Coins.visible = Some x → (o = (Connect.old_id, 0) ∨ o = (Connect.old_id, 1)) ∧ x = coin_of 100.
Proof. unfold coins_before. case_bool_decide; [|done]. by intros [= <-]. Qed.

Lemma coins_after_Some o x : coins_after o ≫= Coins.visible = Some x → o = (id 2, 0) ∧ x = coin_of 95 ∨ o = (id 4, 0) ∧ x = coin_of 60.
Proof. unfold coins_after. case_bool_decide as H1; [intros [= <-]; by left|]. case_bool_decide; [|done]. intros [= <-]. by right. Qed.

Lemma solvent_before limit : solvent (aenv := node coins_before limit).
Proof. intros o x [_ ->]%coins_before_Some. done. Qed.

Lemma empty_ok : pool_ok empty_pool.
Proof. exact (clear_ok none (mkPool ∅ ∅ ∅ ∅ 0 0 0)). Qed.

Lemma empty_available have : available have empty_pool.
Proof. by intros x e txin He. Qed.

Lemma empty_modest : modest empty_pool.
Proof. by intros x e He. Qed.

Lemma solvent_after limit : solvent (aenv := node coins_after limit).
Proof. intros o x [[_ ->]|[_ ->]]%coins_after_Some; done. Qed.

Lemma funded_empty coins limit t : solvent (aenv := node coins limit) → Z.of_nat (length (Tx.vin t)) * Connect.MAX < 2 ^ 63 → funded (aenv := node coins limit) empty_pool t.
Proof. intros Hs Hl. by apply modest_funded; [|apply empty_modest|..]. Qed.

Lemma identified_a limit : identified (aenv := node coins_before limit) tx_a.
Proof. intros n. unfold have_tip. cbn [tip_coin node]. intros [x [Hx _]%coins_before_Some]%bool_decide_eq_true. by destruct Hx. Qed.

Lemma identified_y limit : identified (aenv := node coins_after limit) tx_y.
Proof. intros n. unfold have_tip. cbn [tip_coin node]. intros [x [[Hx _]|[Hx _]]%coins_after_Some]%bool_decide_eq_true; done. Qed.

Lemma room_a : room empty_pool tx_a.
Proof. split; vm_compute; reflexivity. Qed.

Lemma room_y : room empty_pool tx_y.
Proof. split; vm_compute; reflexivity. Qed.

Lemma accepted_ok coins t Q : solvent (aenv := node coins 1000) → identified (aenv := node coins 1000) t → room empty_pool t →
  Z.of_nat (length (Tx.vin t)) * Connect.MAX < 2 ^ 63 → accept coins t empty_pool = Some (true, Q) → pool_ok Q ∧ available (have_tip (aenv := node coins 1000)) Q.
Proof.
  intros Hs Hid Hr Hl. unfold accept. destruct (accept_spec (aenv := node coins 1000) empty_pool t true false false false (node_sane _ _) empty_ok (empty_available _) ltac:(done)
    (funded_empty coins 1000 t Hs Hl) Hid Hr) as (ok & Q' & -> & HQ & Hav & _). intros [= _ <-]. exact (conj HQ Hav).
Qed.

Lemma pool_a_ok : pool_ok pool_a ∧ available (have_tip (aenv := node coins_before 1000)) pool_a.
Proof. apply (accepted_ok coins_before tx_a); [apply solvent_before | apply identified_a | apply room_a | reflexivity | exact accept_a]. Qed.

Lemma pool_y_ok : pool_ok pool_y ∧ available (have_tip (aenv := node coins_after 1000)) pool_y.
Proof. apply (accepted_ok coins_after tx_y); [apply solvent_after | apply identified_y | apply room_y | reflexivity | exact accept_y]. Qed.

(** The only entry of each pool. *)
Definition entry_a : CTxMemPoolEntry := Eval vm_compute in default (mkEntry tx_a 0 0 0 0 0 0 false 0 false 0 0 0 0 0) (mapTx pool_a !! id 2).
Definition entry_y : CTxMemPoolEntry := Eval vm_compute in default (mkEntry tx_y 0 0 0 0 0 0 false 0 false 0 0 0 0 0) (mapTx pool_y !! id 3).

Lemma pool_a_tx : mapTx pool_a = {[ id 2 := entry_a ]}.
Proof. vm_compute. reflexivity. Qed.
Lemma pool_y_tx : mapTx pool_y = {[ id 3 := entry_y ]}.
Proof. vm_compute. reflexivity. Qed.

Lemma tx_y_ok : Tx.tx_ok Connect.consensus tx_y.
Proof.
  split; [done|]. split; [done|]. split; [vm_compute; discriminate|]. split; [split; [by apply Forall_singleton | done]|]. split; [apply NoDup_singleton | by apply Forall_singleton].
Qed.

Lemma pool_y_modest : modest pool_y.
Proof. intros x e. rewrite pool_y_tx. intros [<- <-]%lookup_singleton_Some. split; [exact tx_y_ok|]. split; vm_compute; discriminate. Qed.

Lemma parents_one k o n x : spends (pay k o n) x ↔ x = o.1.
Proof. unfold spends, setParentTransactions. cbn. set_solver. Qed.

Lemma block_returning : returning pool_y [tx_a; tx_b].
Proof.
  split.
  - apply NoDup_cons. split; [by intros ?%list_elem_of_singleton | apply NoDup_singleton].
  - intros [|u [|w pre]] t post x E; [injection E as <- <- | injection E as _ <- <- | by destruct pre]; intros ->%parents_one; cbn; rewrite ?elem_of_cons, elem_of_nil; intros [?|[?|?]] || intros [?|?]; done.
  - intros t x Ht Hx. unfold pool in Hx. rewrite pool_y_tx, dom_singleton_L, elem_of_singleton in Hx. subst x. intros Hs.
    apply elem_of_cons in Ht as [->|Ht%list_elem_of_singleton]; [apply parents_one in Hs; done | subst t; by apply parents_one in Hs].
  - intros t [->|Ht%list_elem_of_singleton]%elem_of_cons; [reflexivity | subst t; reflexivity].
  - reflexivity.
  - reflexivity.
Qed.

(** ** Witnesses *)



Lemma block_order_a : in_block_order pool_a [tx_a].
Proof.
  intros pre t post e x _ He Hs Hx. exfalso. rewrite pool_a_tx in He. apply lookup_singleton_Some in He as [_ <-]. apply parents_one in Hs as ->.
  unfold pool in Hx. rewrite pool_a_tx, dom_singleton_L, elem_of_singleton in Hx. done.
Qed.





Lemma resurrect_correct_witness : ∃ Q, resurrect (aenv := node coins_before 1000) [tx_a; tx_b] pool_y = Some Q ∧ pool_ok Q.
Proof.
  destruct (resurrect_correct Connect.the_env (node coins_before 1000) pool_y [tx_a; tx_b] (node_sane _ _) (solvent_before _) (proj1 pool_y_ok) pool_y_modest ltac:(done) block_returning) as (Q & E & HQ & _).
  exists Q. exact (conj E HQ).
Defined.

Lemma removeForBlock_correct_witness : ∃ removed Q, removeForBlock [tx_a] pool_a = Some (removed, Q) ∧ id 2 ∉ pool Q.
Proof.
  destruct (removeForBlock_correct pool_a [tx_a] (proj1 pool_a_ok) block_order_a) as (l & Q & E & _ & _ & H & _). exists l, Q. split; [exact E|]. apply (H tx_a). by left.
Defined.

Lemma CalculateMemPoolAncestors_correct_witness : ∃ A, CalculateMemPoolAncestors entry_y nNoLimit true pool_a = Some (None, A) ∧ id 2 ∈ A.
Proof.
  destruct (CalculateMemPoolAncestors_correct pool_a entry_y nNoLimit (proj1 pool_a_ok)) as (err & A & E & Hn & H); [reflexivity | vm_compute; reflexivity |].
  specialize (Hn eq_refl). subst err. exists A. split; [exact E|]. apply (H eq_refl). exists (id 2). split; [unfold pool; rewrite pool_a_tx, dom_singleton_L; set_solver|]. split; [by apply parents_one | apply rtc_refl].
Defined.

Lemma TrimToSize_correct_witness : ∃ l Q, TrimToSize 50 pool_a = Some (l, Q) ∧ DynamicMemoryUsage Q <= 50.
Proof.
  destruct (TrimToSize_correct pool_a 50 small_pool_law (proj1 pool_a_ok)) as (l & Q & E & _ & Hu & _); [vm_compute; discriminate|]. exists l, Q. split; [exact E | exact Hu].
Defined.

(** ** What goes wrong *)

(** [AcceptToMemoryPool] trims the pool also for a transaction of a disconnected block
    ([fOverrideMempoolLimit] is set), when the links of such transactions to the pool are still
    missing: an earlier transaction of the block is put out of the pool, and one that spends it
    stays.  The pool passes the check before the block is disconnected; afterwards an input is
    neither in the pool nor in the chain, and the check fails.  Without the trim it passes. *)
Theorem resurrect_orphans :
  check (have_tip (aenv := node coins_after 250)) pool_y = true ∧ have_tip (aenv := node coins_before 250) (Tx.GetHash tx_a, 0) = false ∧
  (λ Q, (exists_tx Q (Tx.GetHash tx_y), exists_tx Q (Tx.GetHash tx_a), check (have_tip (aenv := node coins_before 250)) Q)) <$>
    resurrect (aenv := node coins_before 250) [tx_a; tx_b] pool_y = Some (true, false, false) ∧
  check (have_tip (aenv := node coins_before 1000)) <$> resurrect (aenv := node coins_before 1000) [tx_a; tx_b] pool_y = Some true.
Proof. repeat split; vm_compute; reflexivity. Qed.

(** Priorities alone can use more memory than the limit; then [TrimToSize] reads the first entry
    of an empty index. *)
Theorem TrimToSize_empty : TrimToSize 2 (with_deltas (<[ id 1 := 1 ]> (<[ id 2 := 1 ]> (<[ id 3 := 1 ]> ∅))) empty_pool) = None.
Proof. vm_compute. reflexivity. Qed.
End PoolThm.
